(* ===== verification/_CoqProject ===== *)
-Q . S2P
Prelude.v
Lifecycles.v
Sources.v
AcceptSource.v
RecvSource.v
BufferLease.v
Buffer.v
BufferProofs.v
StreamLifecycle.v
ResultCells.v
Channel.v
ChannelRing.v
ChannelInv.v
ChannelComplete.v
ChannelOps.v
ChannelSelect.v
ChannelProps.v
IntrusiveList.v
IntrusiveQueue.v
RBTree.v
RBTreeRep.v
RBTreeInsert.v
RBTreeOrder.v
RBTreeErase.v
RBTreeRemove.v
RBTreeSeq.v
RBTreeProps.v
MemoryPool.v
MemoryPoolProps.v
ObjectPool.v
ObjectPoolProps.v
Timers.v
Multiset.v
TimerAgenda.v
TimerStore.v
EpollTimers.v
EpollTimersProps.v
Work.v
UringOp.v
UringTimers.v
UringTimersProps.v
UringLoop.v
UringLoopProps.v
Posting.v
EpollPoller.v
EpollPollerProps.v
EpollStream.v
EpollStreamProps.v
EpollStreamRuns.v
EpollStreamClose.v
EpollStreamSys.v
SpawnState.v
FrameMeta.v
FramePool.v
FramePoolInv.v
FramePoolSlabs.v
FramePoolSteps.v
FramePoolProps.v
EpollRecv.v
EpollRecvInv.v
EpollRecvSteps.v
EpollRecvProps.v
Endpoint.v
Sockets.v
EpollListener.v
EpollListenerInv.v
EpollListenerSteps.v
EpollListenerProps.v
ProvidedBuffers.v
ProvidedBuffersProps.v
UringRecv.v
UringRecvInv.v
UringRecvSteps.v
UringRecvProps.v
Results.v
LoopShutdown.v
TimerUsers.v
TimerUsersInv.v
TimerUsersSteps.v
TimerUsersProps.v
