(* ===== verification/Prelude.v ===== *)
(** * Alyrn: a verification development for the coroutine networking runtime

    Alyrn (src/) is a C++23 coroutine networking runtime with two parallel backends,
    epoll and io_uring. One loop per thread owns its connections, operations, timers
    and coroutines. Backend events (readiness, completion queue entries) are not
    coroutine completions: lifecycles refine them into "result ready", "resource
    released" and "continuation resumed". Other threads reach a loop only through
    Post and RequestStop. Sources (accept, receive) and streams admit work through
    small state machines; channels and select connect coroutines of one loop; timers
    sit in a red-black tree over intrusive nodes allocated from pools.

    ** Parts, files and sources

    - Prelude.v: machine integers, [Error] and [Result] (include/alyrn/result.h), the
      aborting checks of include/alyrn/detail/check.h as the monad [outcome] ([Val] or
      [Panic]), and the lemmas, tactics and hints every file shares.
    - Lifecycles.v: CompletionGate, ReusableCompletionSlot, SingleResultLifecycle,
      CompositeLifecycle and SplitReleaseLifecycle (include/alyrn/detail/,
      include/alyrn/uring/detail/).
    - Sources.v, AcceptSource.v, RecvSource.v: the state machines of
      include/alyrn/net/detail/accept_source_state.h and recv_source_state.h with the
      options of include/alyrn/net/; Sources.v holds what the two share, the class of
      sources with a stop contract included.
    - Buffer.v, BufferProofs.v: net::Buffer (include/alyrn/net/buffer.h).
    - StreamLifecycle.v (net/detail/stream_lifecycle.h), BufferLease.v (the lease of
      net/recv_source.h), ResultCells.v (the compact result cells of both backends and
      the close convergence of uring/detail/).
    - Channel.v with ChannelRing.v, ChannelInv.v, ChannelComplete.v, ChannelOps.v,
      ChannelSelect.v and ChannelProps.v: include/alyrn/coro/channel.h, select.h and
      select_case.h, one store of channels, awaiters and selects.
    - IntrusiveList.v, IntrusiveQueue.v, RBTree.v with RBTreeRep.v, RBTreeInsert.v,
      RBTreeErase.v, RBTreeOrder.v, RBTreeSeq.v, RBTreeRemove.v and RBTreeProps.v: the
      intrusive containers of include/alyrn/detail/ at pointer level, nodes in a heap.
    - MemoryPool.v, MemoryPoolProps.v, ObjectPool.v, ObjectPoolProps.v: the pools of
      include/alyrn/detail/.
    - Timers.v (timer objects, order and index, time/), Multiset.v (a well-founded
      order used for termination), TimerAgenda.v (the abstract timer queue and the
      class of backends), TimerStore.v (the invariant both queues share),
      EpollTimers.v and EpollTimersProps.v (src/epoll/timer_queue.cc), UringTimers.v
      and UringTimersProps.v (src/uring/timer_queue.cc).
    - Work.v (coro/work.h), UringOp.v (uring/detail/op.h), UringLoop.v and
      UringLoopProps.v (src/uring/loop.cc, uring/loop.h, Ring of src/uring/ring.cc).
    - Posting.v: Post, RequestStop, RunPosted, DrainPostedAndClose and the wake-up
      descriptor of src/uring/loop.cc and src/epoll/loop.cc.
    - EpollPoller.v and EpollPollerProps.v: channels, the poller, the kernel's interest
      list and the dispatch of events (epoll/detail/channel.h, src/epoll/channel.cc,
      epoll_poller.cc, poller.cc, the dispatch of src/epoll/loop.cc).
    - EpollStream.v: the epoll stream (src/epoll/stream.cc) on one channel of that
      poller. EpollStreamProps.v has its invariant, completion, deadlines and events,
      EpollStreamRuns.v the start of reads and writes, EpollStreamClose.v resuming,
      dropping, closing and moving, EpollStreamSys.v scripts of all of them.
    - SpawnState.v: the state a spawned root shares with its join handle, both threads
      (coro/detail/spawn_state.h, spawn_root.h, coro/spawn.h).
    - FrameMeta.v: metadata, size classes and heap frames of coro/frame_allocator.h.
      FramePool.v: its pool with all threads; FramePoolInv.v has the geometry of slabs
      and the invariant, FramePoolSlabs.v and FramePoolSteps.v the steps that keep it,
      FramePoolProps.v the properties.
    - EpollRecv.v: the receive source of src/epoll/recv_source.cc on the machine of
      RecvSource.v; EpollRecvInv.v its invariant, EpollRecvSteps.v the operations,
      EpollRecvProps.v scripts and properties.
    - Endpoint.v and Sockets.v: addresses (net/endpoint.h), socket options, descriptor
      flags and ownership, and the classification of accept errors
      (net/detail/socket.h, net/tcp_options.h).
    - EpollListener.v: the listener and its accept sources of src/epoll/listener.cc on
      the machine of AcceptSource.v; EpollListenerInv.v, EpollListenerSteps.v and
      EpollListenerProps.v as for the receive source.
    - ProvidedBuffers.v and ProvidedBuffersProps.v: the buffers a loop provides to the
      kernel (uring/detail/provided_buffer_storage.h, provided_buffer_pool.h, the shared
      pool of src/uring/loop.cc) over the ring of liburing as an interface.
    - UringRecv.v: the receive source of src/uring/recv_source.cc on the machine of
      RecvSource.v, those buffers and the operations of UringOp.v; UringRecvInv.v,
      UringRecvSteps.v and UringRecvProps.v as for the epoll one.
    - Results.v: access and composition of results (include/alyrn/result.h).
    - LoopShutdown.v: the registry of the resources a loop tells to stop
      (include/alyrn/detail/loop_shutdown.h and its use in both loops).
    - TimerUsers.v: sleeping on a loop (src/epoll/timer.cc, src/uring/timer.cc) and the
      timers and tickers that fire through a channel (include/alyrn/detail/timer_channel.h),
      on the registry, the channels of Channel.v and a timer service. TimerUsersInv.v has
      what an operation on one channel leaves alone in the others and the invariant by
      parts, TimerUsersSteps.v the operations, TimerUsersProps.v runs, the theorems and the
      agenda as a timer service.

    ** How the code is modelled

    An object is a record with the source's members, a method a function on it with
    the source's name. A method that may run into ALYRN_CHECK or an assert returns
    [outcome]; a C++ Result is [Result]. Pointers are integers into an explicit heap
    or table, so aliasing, freed memory and tagged words are visible. Unsigned
    arithmetic wraps at 2^64 ([usize]); time is an integer number of nanoseconds.
    Code that belongs to the user (callbacks, destructors, handlers, resumed
    coroutines) is an argument: a script of calls, a finite interaction tree, or a
    function, quantified over in the theorems. What the operating system or the heap
    answers (system-call results, submission results, addresses of new nodes, the
    clock) is an input of the model as well. Ghost components (traces, logs of
    accepted and executed work, the ring's side of a request) record what happened
    and are never read by the modelled code.

    ** What the theorems show

    - Lifecycles: result, release and continuation are authorised once each and in
      that order, for every sequence of calls.
    - Sources keep their invariants, never commit to more than their capacity and
      converge after a stop.
    - net::Buffer is a byte queue; searching, reserving and filling are exact.
    - Half-close bookkeeping, result cells, closing a descriptor and reclaiming a
      lease happen exactly once.
    - Channels are bounded FIFO queues without loss, no waiter sleeps while it could
      run, a select has one winner, and no operation aborts.
    - The intrusive containers refine sequences and sorted sequences; the tree stays
      balanced and passes its own checker.
    - The pools hand out disjoint live blocks and abort exactly on misuse.
    - Both timer queues refine one agenda, handling an expiry terminates, a cancelled
      timer stays silent, and the one situation in which the io_uring queue arms too
      late. It stops its loop only after the ring refused a submission.
    - The action word of a work item is a tagged union.
    - A turn of the io_uring loop is bounded and fair; its request counters and
      IsDrained are exact under partial and failing submissions.
    - Posts run once and in order, and no wake-up or stop request is lost, for every
      interleaving of the threads, unless the io_uring loop gives the write of a wake-up
      up; how long posts stranded that way stay queued.
    - The epoll interest list is that of the channels; dispatch order, and the one way
      a destroyed channel is still dispatched.
    - An epoll stream delivers every operation once under any script of events,
      deadlines and closes, and the bytes are those of the operations.
    - A spawned root and its joiner destroy their frame once and never lose a join; the
      one access to the frame that may come too late.
    - Coroutine frames are aligned and disjoint, every allocation goes back where it
      came from, and no interleaving of local and remote frees loses a slot; the one
      exception that loses a chunk.
    - An epoll receive source hands out every received segment once, in order and
      intact, and a listener every accepted connection; what is parked is watched for.
      The pause of a receive source that nothing ends, and the accept errors that end
      an accept source although they pass.
    - Provided buffers are in the ring, reported or borrowed and never in two places, and
      the ring never overflows.
    - An io_uring receive source copies every payload out of its buffer and hands all of
      them out in order and intact, with the queue, the overflow and the copy slots
      exact; what a parked call waits for. The two ways it goes wrong: a Next stranded by
      a source that ends, and bytes that are dropped while every lease is out.
    - Socket options are applied in their order up to the first failure; a listening
      socket that cannot be set up is closed; endpoints keep their port and text.
    - A sleep returns once, not before its time unless the loop stops; every armed timer and
      every registration has one owner; the shutdown of a loop leaves nobody waiting. A
      ticker keeps the oldest tick.
    - The composition of results is lawful for callables with effects; a loop that shuts
      down tells every registered resource once, also when they leave the registry then.

    ** Interfaces

    Timers.v states what a timer queue needs of an ordered index and of an allocator
    as classes of operations and of laws ([TimerIndex], [TimerPool]), instantiated by
    the red-black tree and the object pool; the queues are verified against the laws.
    TimerAgenda.v has the class of timer backends, Sources.v the class of sources with
    a stop contract, Lifecycles.v the class of lifecycles, ResultCells.v that of result
    cells. ProvidedBuffers.v has the operations of a buffer ring and their laws
    ([BufRing], [BufRingLaws]), TimerUsers.v what a client of timers relies on
    ([TimerService], [TimerServiceLaws]), which the agenda satisfies.

    ** Fuel

    Loops whose recursion is not structural carry fuel computed from the state: the
    number of nodes for walks of lists and of the tree and for its fixups, the number
    of slots and of slabs for the loops of the frame pool, the bytes and answers a
    socket has for the readiness loops of the sources, the number of pending requests for
    FlushSubmit (each round submits one at least), the budget the code itself has for
    turns, and depth two for the delivery of a receive source, which a refused request
    enters once more. Running out of fuel is [Panic], and the
    theorems show that it does not occur. Expiry handling has no such bound, since
    callbacks may add timers that are due: its fuel is existentially quantified and
    [epoll_handle_read_terminates] proves, by the multiset order, that enough fuel exists.

    ** Not modelled

    Streams, listeners and connectors of io_uring (their state machines, lifecycles and
    operations and the loop they run on are modelled, the adapters that issue requests
    are not), the epoll connector, the outer loops of Run and DrainStoppedOperations with their blocking waits,
    workers and runtimes (threads and system calls), tasks and their symmetric
    transfer, umbrella headers and concepts. Weak memory is not modelled: what a mutex or an atomic
    variable protects is read and written in single steps. *)

From stdpp Require Export base tactics numbers list option gmap fin_maps.
From Stdlib Require Export ZArith Lia.

#[global] Open Scope Z_scope.

(** ** Machine integers

    [std::size_t] and [std::uint64_t] are kept as [Z] with the wrap-around of
    unsigned arithmetic written out. *)

Definition size_max : Z := 2 ^ 64 - 1.
Definition usize (z : Z) : Z := z mod 2 ^ 64.
Definition is_usize (z : Z) : Prop := 0 <= z <= size_max.

Lemma usize_small z : is_usize z -> usize z = z.
Proof. unfold usize, is_usize, size_max. intros H. apply Z.mod_small. lia. Qed.

Lemma usize_range z : is_usize (usize z).
Proof.
  unfold usize, is_usize, size_max.
  pose proof (Z.mod_pos_bound z (2 ^ 64) eq_refl). lia.
Qed.

(** Positions in a ring of a power of two, and of any size. *)

Lemma land_mask x k : 0 <= k -> Z.land x (2 ^ k - 1) = x mod 2 ^ k.
Proof.
  intros Hk. replace (2 ^ k - 1) with (Z.ones k) by (rewrite Z.ones_equiv; lia).
  by apply Z.land_ones.
Qed.

Lemma mod_inj_lt a b n h : 0 < n -> 0 <= a < n -> 0 <= b < n ->
  (h + a) mod n = (h + b) mod n -> a = b.
Proof.
  intros Hn Ha Hb E.
  assert (Hd : (a - b) mod n = 0).
  { replace (a - b) with ((h + a) - (h + b)) by lia.
    rewrite Zminus_mod, E, Z.sub_diag. apply Zmod_0_l. }
  apply Z.mod_divide in Hd; [|lia]. destruct Hd as [q Hq].
  assert (q = 0) by (destruct (Z.lt_trichotomy q 0) as [|[|]]; [nia|done|nia]). nia.
Qed.

(** ** [Error], [Errno] and [Result] (include/alyrn/result.h)

    [std::error_code] is a value and a category; Alyrn's own errors all use the
    system category, and one encoder checks that. *)

Inductive category := system_category | other_category.

#[export] Instance category_eq_dec : EqDecision category.
Proof. solve_decision. Defined.

Record Error := mkError { err_value : Z; err_category : category }.

#[export] Instance Error_eq_dec : EqDecision Error.
Proof. solve_decision. Defined.

Definition Errno (value : Z) : Error := mkError value system_category.
Definition NegErrno (value : Z) : Error := Errno (- value).

(** Linux values of the errno constants the sources name. *)
Definition ENOENT : Z := 2.
Definition EIO : Z := 5.
Definition EBADF : Z := 9.
Definition EAGAIN : Z := 11.
Definition ENOMEM : Z := 12.
Definition EBUSY : Z := 16.
Definition EEXIST : Z := 17.
Definition EINVAL : Z := 22.
Definition EPIPE : Z := 32.
Definition ETIME : Z := 62.
Definition EOVERFLOW : Z := 75.
Definition ENOBUFS : Z := 105.
Definition EALREADY : Z := 114.
Definition ECANCELED : Z := 125.

(** [Result<T, E>] wraps [std::expected<T, E>]; [Result<void, E>] is
    [Result unit]. *)
Inductive Result (T : Type) {E : Type} :=
| Ok (value : T)
| Err (error : E).
Arguments Result T {E}.
Arguments Ok {T E} value.
Arguments Err {T E} error.

Abbreviation ResultE T := (@Result T Error).

#[export] Instance Result_eq_dec `{EqDecision T, EqDecision E} : EqDecision (@Result T E).
Proof. solve_decision. Defined.

(** ** Non-recoverable checks (include/alyrn/detail/check.h)

    [ALYRN_CHECK] aborts the process when its condition is false. A computation
    that may abort returns an [outcome]. *)

Inductive outcome (A : Type) := Val (a : A) | Panic.
Arguments Val {A} a.
Arguments Panic {A}.

#[export] Instance outcome_eq_dec `{EqDecision A} : EqDecision (outcome A).
Proof. solve_decision. Defined.

#[export] Instance outcome_ret : MRet outcome := fun _ a => Val a.
#[export] Instance outcome_bind : MBind outcome := fun _ _ f m =>
  match m with Val a => f a | Panic => Panic end.
#[export] Instance outcome_fmap : FMap outcome := fun _ _ f m =>
  match m with Val a => Val (f a) | Panic => Panic end.

Definition ALYRN_CHECK (condition : bool) : outcome unit :=
  if condition then Val tt else Panic.

(** [no_panic m] holds when the computation does not abort. *)
Definition no_panic {A} (m : outcome A) : Prop := exists a, m = Val a.

Lemma bind_val {A B} (f : A -> outcome B) a : Val a ≫= f = f a.
Proof. reflexivity. Qed.

Lemma bind_panic {A B} (f : A -> outcome B) : Panic ≫= f = Panic.
Proof. reflexivity. Qed.

Lemma bind_Val_inv {A B} (m : outcome A) (f : A -> outcome B) b :
  m ≫= f = Val b -> exists a, m = Val a /\ f a = Val b.
Proof. destruct m as [a|]; [|discriminate]. intros H. exists a. auto. Qed.

Lemma check_Val_inv b x : ALYRN_CHECK b = Val x -> b = true.
Proof. destruct b; [reflexivity | discriminate]. Qed.

Lemma check_true : ALYRN_CHECK true = Val tt.
Proof. reflexivity. Qed.

Lemma check_false : ALYRN_CHECK false = Panic.
Proof. reflexivity. Qed.

Lemma check_bool_decide (P : Prop) `{Decision P} :
  P -> ALYRN_CHECK (bool_decide P) = Val tt.
Proof. intros HP. by rewrite bool_decide_eq_true_2. Qed.

(** ** Automation *)

Create HintDb alyrn discriminated.
Create Rewrite HintDb outcome_rw.

#[export] Hint Rewrite @bind_val @bind_panic check_true check_false : outcome_rw.
#[export] Hint Resolve usize_range : alyrn.

(** Break a hypothesis [m ≫= f = Val b] into the successful steps of [m]. *)
Ltac outcome_inv :=
  repeat match goal with
  | H : _ ≫= _ = Val _ |- _ =>
      let a := fresh "r" in let H1 := fresh H in let H2 := fresh H in
      apply bind_Val_inv in H as (a & H1 & H2)
  | H : ALYRN_CHECK ?b = Val _ |- _ => apply check_Val_inv in H
  | H : Val _ = Val _ |- _ => injection H as H; subst
  | H : Panic = Val _ |- _ => discriminate H
  | H : mret _ = Val _ |- _ => cbv [mret outcome_ret] in H
  end.

(** Turn boolean tests of the code into propositions. *)
Ltac bool_prop :=
  repeat match goal with
  | H : bool_decide _ = true |- _ => apply bool_decide_eq_true_1 in H
  | H : bool_decide _ = false |- _ => apply bool_decide_eq_false_1 in H
  | H : negb _ = true |- _ => apply negb_true_iff in H
  | H : negb _ = false |- _ => apply negb_false_iff in H
  | H : (_ && _)%bool = true |- _ => apply andb_true_iff in H as [? ?]
  | H : (_ || _)%bool = false |- _ => apply orb_false_iff in H as [? ?]
  | H : (_ && _)%bool = false |- _ => apply andb_false_iff in H as [?|?]
  | H : (_ || _)%bool = true |- _ => apply orb_true_iff in H as [?|?]
  | H : (_ =? _) = true |- _ => apply Z.eqb_eq in H
  | H : (_ =? _) = false |- _ => apply Z.eqb_neq in H
  | H : (_ <? _) = true |- _ => apply Z.ltb_lt in H
  | H : (_ <? _) = false |- _ => apply Z.ltb_ge in H
  | H : (_ <=? _) = true |- _ => apply Z.leb_le in H
  | H : (_ <=? _) = false |- _ => apply Z.leb_gt in H
  end.

(** Split an innermost [if] on a boolean in the goal, naming the equation. *)
Ltac split_if :=
  match goal with
  | |- context [if ?b then _ else _] =>
      lazymatch b with
      | context [if _ then _ else _] => fail
      | _ => let Heq := fresh "Hif" in destruct b eqn:Heq
      end
  end.
