(* ===== verification/Lifecycles.v ===== *)
(** * Completion gates and operation lifecycles

    Models [CompletionGate], [SingleResultLifecycle], [CompositeLifecycle],
    [SplitReleaseLifecycle] (include/alyrn/detail) and
    [ReusableCompletionSlot] (include/alyrn/uring/detail).

    Each of these objects answers requests to authorise a step of an operation
    (record a result, release a resource, resume a continuation). The abstract
    specification is a precedence protocol: every step has a list of
    prerequisites, and an attempt succeeds exactly when the step was not
    authorised before and all its prerequisites were. [LifecycleRefines] is the
    interface a concrete lifecycle implements; ordering and at-most-once
    authorisation are proved once, against the interface. *)

From S2P Require Import Prelude.

(** ** The abstract precedence protocol *)

Section protocol.
Context {Step : Type} `{EqDecision Step} (prereq : Step -> list Step).

Definition enabled (acc : list Step) (o : Step) : bool :=
  bool_decide (o ∉ acc) && forallb (fun p => bool_decide (p ∈ acc)) (prereq o).

Definition spec_attempt (o : Step) (acc : list Step) : list Step * bool :=
  if enabled acc o then (acc ++ [o], true) else (acc, false).

(** The steps a run of attempts authorises, in order. *)
Fixpoint spec_run (acc : list Step) (os : list Step) : list Step :=
  match os with
  | [] => acc
  | o :: os => spec_run (spec_attempt o acc).1 os
  end.

(** A sequence of authorised steps respects the protocol when no step repeats
    and each step comes after its prerequisites. *)
Definition ordered (tr : list Step) : Prop :=
  NoDup tr /\
  (forall pre o post, tr = pre ++ o :: post -> forall p, p ∈ prereq o -> p ∈ pre).

Lemma enabled_spec acc o :
  enabled acc o = true <-> (o ∉ acc) /\ (forall p, p ∈ prereq o -> p ∈ acc).
Proof.
  unfold enabled. rewrite andb_true_iff, bool_decide_eq_true, forallb_forall.
  setoid_rewrite bool_decide_eq_true. setoid_rewrite <- list_elem_of_In. done.
Qed.

Lemma ordered_nil : ordered [].
Proof. split; [constructor|]. intros [|] ? ? [=]. Qed.

Lemma ordered_snoc tr o :
  ordered tr -> enabled tr o = true -> ordered (tr ++ [o]).
Proof.
  intros [Hnd Hpre] [Hnew Hreq]%enabled_spec. split.
  - apply NoDup_app. split_and!; [done| |apply NoDup_singleton].
    intros x Hx ->%list_elem_of_singleton. done.
  - intros pre o' post Heq p Hp.
    destruct post as [|z post' _] using rev_ind.
    + apply app_inj_tail in Heq as [-> ->]. auto.
    + rewrite app_comm_cons, app_assoc in Heq.
      apply app_inj_tail in Heq as [-> _]. by eapply Hpre.
Qed.

Lemma spec_attempt_ordered o acc :
  ordered acc -> ordered (spec_attempt o acc).1.
Proof.
  intros H. unfold spec_attempt. split_if; simpl; auto using ordered_snoc.
Qed.

Lemma spec_run_ordered os acc : ordered acc -> ordered (spec_run acc os).
Proof.
  revert acc. induction os as [|o os IH]; intros acc H; simpl; [done|].
  apply IH, spec_attempt_ordered, H.
Qed.
End protocol.

(** ** The interface of a concrete lifecycle *)

Class Lifecycle (St Step : Type) := {
  lc_init : St;
  lc_attempt : Step -> St -> St * bool;
}.

(** The steps a concrete run authorises: the attempts that returned true. *)
Fixpoint authorized `{Lifecycle St Step} (s : St) (os : list Step) : list Step :=
  match os with
  | [] => []
  | o :: os =>
      let '(s', b) := lc_attempt o s in
      (if b then [o] else []) ++ authorized s' os
  end.

(** The state a concrete run ends in. *)
Fixpoint lc_run `{Lifecycle St Step} (s : St) (os : list Step) : St :=
  match os with
  | [] => s
  | o :: os => lc_run (lc_attempt o s).1 os
  end.

Class LifecycleRefines (St Step : Type) `{Lifecycle St Step} `{EqDecision Step}
    (prereq : Step -> list Step) := {
  lc_rel : St -> list Step -> Prop;
  lc_rel_init : lc_rel lc_init [];
  lc_rel_step s acc o :
    lc_rel s acc ->
    (lc_attempt o s).2 = (spec_attempt prereq o acc).2 /\
    lc_rel (lc_attempt o s).1 (spec_attempt prereq o acc).1;
}.

Section client.
Context `{LifecycleRefines St Step prereq}.

Lemma authorized_spec_run s acc os :
  lc_rel s acc -> acc ++ authorized s os = spec_run prereq acc os.
Proof.
  revert s acc. induction os as [|o os IH]; intros s acc Hrel; simpl.
  { by rewrite app_nil_r. }
  destruct (lc_rel_step s acc o Hrel) as [Hb Hrel'].
  rewrite <- (IH _ _ Hrel'). unfold spec_attempt in *.
  destruct (lc_attempt o s) as [s' b]; simpl in *; subst b.
  destruct (enabled prereq acc o); simpl; [by rewrite <- app_assoc | done].
Qed.

(** Every run from the initial state authorises an ordered sequence of steps. *)
Lemma authorized_ordered os : ordered prereq (authorized lc_init os).
Proof.
  change (ordered prereq ([] ++ authorized lc_init os)).
  rewrite (authorized_spec_run _ _ _ lc_rel_init).
  apply spec_run_ordered, ordered_nil.
Qed.

Lemma lc_run_rel s acc os : lc_rel s acc -> lc_rel (lc_run s os) (spec_run prereq acc os).
Proof.
  revert s acc. induction os as [|o os IH]; intros s acc Hrel; simpl; [done|].
  apply IH. by apply lc_rel_step.
Qed.

(** The state reached by a run stands for the steps the run authorised. *)
Lemma lc_run_authorized os : lc_rel (lc_run lc_init os) (authorized lc_init os).
Proof.
  change (authorized lc_init os) with ([] ++ authorized lc_init os).
  rewrite (authorized_spec_run _ _ _ lc_rel_init). apply lc_run_rel, lc_rel_init.
Qed.

(** An attempt is answered exactly as the protocol says. *)
Lemma lc_attempt_iff s acc o :
  lc_rel s acc ->
  (lc_attempt o s).2 = true <-> (o ∉ acc) /\ (forall p, p ∈ prereq o -> p ∈ acc).
Proof.
  intros Hrel. destruct (lc_rel_step s acc o Hrel) as [-> _].
  unfold spec_attempt. rewrite <- enabled_spec. by destruct (enabled _ _ _).
Qed.
End client.

(** ** [CompletionGate] and [ReusableCompletionSlot] *)

Module CompletionGate.
Record t := mk { completed_ : bool }.

Definition initial : t := mk false.
Definition Reset (_ : t) : t := mk false.
Definition TryComplete (g : t) : t * bool :=
  if completed_ g then (g, false) else (mk true, true).
Definition Completed (g : t) : bool := completed_ g.
End CompletionGate.

Module ReusableCompletionSlot.
Record t := mk { completion_gate_ : CompletionGate.t }.

Definition initial : t := mk CompletionGate.initial.
Definition TryComplete (s : t) : t * bool :=
  let '(g, b) := CompletionGate.TryComplete (completion_gate_ s) in (mk g, b).
Definition Completed (s : t) : bool := CompletionGate.Completed (completion_gate_ s).
Definition BeginNextRequest (s : t) : t := mk (CompletionGate.Reset (completion_gate_ s)).
End ReusableCompletionSlot.

#[export] Instance gate_lifecycle : Lifecycle CompletionGate.t unit := {
  lc_init := CompletionGate.initial;
  lc_attempt _ := CompletionGate.TryComplete;
}.

(** ** [SingleResultLifecycle] *)

Module SingleResultLifecycle.
Inductive State := kPending | kResultReady | kReleaseAuthorized | kContinuationAuthorized.

#[global] Instance State_eq_dec : EqDecision State.
Proof. solve_decision. Defined.

Record t := mk { state_ : State }.

Definition initial : t := mk kPending.
Definition Reset (_ : t) : t := mk kPending.

Definition TryAuthorizeResult (s : t) : t * bool :=
  if negb (bool_decide (state_ s = kPending)) then (s, false) else (mk kResultReady, true).
Definition TryAuthorizeRelease (s : t) : t * bool :=
  if negb (bool_decide (state_ s = kResultReady)) then (s, false)
  else (mk kReleaseAuthorized, true).
Definition TryAuthorizeContinuation (s : t) : t * bool :=
  if negb (bool_decide (state_ s = kReleaseAuthorized)) then (s, false)
  else (mk kContinuationAuthorized, true).

Definition ResultReady (s : t) : bool := negb (bool_decide (state_ s = kPending)).
Definition ReleaseAuthorized (s : t) : bool :=
  bool_decide (state_ s = kReleaseAuthorized) || bool_decide (state_ s = kContinuationAuthorized).
Definition ContinuationAuthorized (s : t) : bool :=
  bool_decide (state_ s = kContinuationAuthorized).

Inductive step := Result_ | Release | Continuation.

#[global] Instance step_eq_dec : EqDecision step.
Proof. solve_decision. Defined.

Definition attempt (o : step) : t -> t * bool :=
  match o with
  | Result_ => TryAuthorizeResult
  | Release => TryAuthorizeRelease
  | Continuation => TryAuthorizeContinuation
  end.

(** result ready -> release authorized -> continuation authorized *)
Definition prereq (o : step) : list step :=
  match o with
  | Result_ => []
  | Release => [Result_]
  | Continuation => [Release]
  end.

Definition done_in (s : State) : list step :=
  match s with
  | kPending => []
  | kResultReady => [Result_]
  | kReleaseAuthorized => [Result_; Release]
  | kContinuationAuthorized => [Result_; Release; Continuation]
  end.
End SingleResultLifecycle.

#[export] Instance single_lifecycle :
  Lifecycle SingleResultLifecycle.t SingleResultLifecycle.step := {
  lc_init := SingleResultLifecycle.initial;
  lc_attempt := SingleResultLifecycle.attempt;
}.

#[export] Program Instance single_refines :
  LifecycleRefines SingleResultLifecycle.t SingleResultLifecycle.step
    SingleResultLifecycle.prereq := {
  lc_rel s acc := acc = SingleResultLifecycle.done_in (SingleResultLifecycle.state_ s);
}.
Next Obligation. reflexivity. Qed.
Next Obligation. intros [st] acc o ->. destruct st, o; split; reflexivity. Qed.

(** ** [CompositeLifecycle] *)

Module CompositeLifecycle.
Inductive CompositeMember := kFirst | kSecond.

#[global] Instance CompositeMember_eq_dec : EqDecision CompositeMember.
Proof. solve_decision. Defined.

Record t := mk {
  first_member_ : CompletionGate.t;
  second_member_ : CompletionGate.t;
  logical_result_ : CompletionGate.t;
  release_authorized_ : CompletionGate.t;
  continuation_authorized_ : CompletionGate.t;
}.

Definition initial : t :=
  mk CompletionGate.initial CompletionGate.initial CompletionGate.initial
     CompletionGate.initial CompletionGate.initial.

Definition GateFor (s : t) (m : CompositeMember) : CompletionGate.t :=
  match m with kFirst => first_member_ s | kSecond => second_member_ s end.

Definition RecordMemberCompletion (m : CompositeMember) (s : t) : t * bool :=
  let '(g, b) := CompletionGate.TryComplete (GateFor s m) in
  (match m with
   | kFirst => mk g (second_member_ s) (logical_result_ s)
                  (release_authorized_ s) (continuation_authorized_ s)
   | kSecond => mk (first_member_ s) g (logical_result_ s)
                  (release_authorized_ s) (continuation_authorized_ s)
   end, b).

Definition MemberCompleted (s : t) (m : CompositeMember) : bool :=
  CompletionGate.Completed (GateFor s m).
Definition AllMembersCompleted (s : t) : bool :=
  CompletionGate.Completed (first_member_ s) && CompletionGate.Completed (second_member_ s).

Definition TryAuthorizeLogicalResult (s : t) : t * bool :=
  if negb (AllMembersCompleted s) then (s, false)
  else let '(g, b) := CompletionGate.TryComplete (logical_result_ s) in
       (mk (first_member_ s) (second_member_ s) g
           (release_authorized_ s) (continuation_authorized_ s), b).

Definition TryAuthorizeRelease (s : t) : t * bool :=
  if negb (CompletionGate.Completed (logical_result_ s)) then (s, false)
  else let '(g, b) := CompletionGate.TryComplete (release_authorized_ s) in
       (mk (first_member_ s) (second_member_ s) (logical_result_ s)
           g (continuation_authorized_ s), b).

Definition TryAuthorizeContinuation (s : t) : t * bool :=
  if negb (CompletionGate.Completed (release_authorized_ s)) then (s, false)
  else let '(g, b) := CompletionGate.TryComplete (continuation_authorized_ s) in
       (mk (first_member_ s) (second_member_ s) (logical_result_ s)
           (release_authorized_ s) g, b).

Inductive step := Member (m : CompositeMember) | LogicalResult | Release | Continuation.

#[global] Instance step_eq_dec : EqDecision step.
Proof. solve_decision. Defined.

Definition attempt (o : step) : t -> t * bool :=
  match o with
  | Member m => RecordMemberCompletion m
  | LogicalResult => TryAuthorizeLogicalResult
  | Release => TryAuthorizeRelease
  | Continuation => TryAuthorizeContinuation
  end.

Definition prereq (o : step) : list step :=
  match o with
  | Member _ => []
  | LogicalResult => [Member kFirst; Member kSecond]
  | Release => [LogicalResult]
  | Continuation => [Release]
  end.

(** Which gate records a step. *)
Definition gate_of (s : t) (o : step) : CompletionGate.t :=
  match o with
  | Member m => GateFor s m
  | LogicalResult => logical_result_ s
  | Release => release_authorized_ s
  | Continuation => continuation_authorized_ s
  end.
End CompositeLifecycle.

(** ** [SplitReleaseLifecycle] *)

Module SplitReleaseLifecycle.
Record t := mk {
  logical_result_ : CompletionGate.t;
  release_authorized_ : CompletionGate.t;
  continuation_authorized_ : CompletionGate.t;
  physical_terminal_ : bool;
}.

Definition initial : t :=
  mk CompletionGate.initial CompletionGate.initial CompletionGate.initial false.

Definition RecordLogicalResult (s : t) : t * bool :=
  let '(g, b) := CompletionGate.TryComplete (logical_result_ s) in
  (mk g (release_authorized_ s) (continuation_authorized_ s) (physical_terminal_ s), b).

Definition MarkPhysicalTerminal (s : t) : t * bool :=
  if physical_terminal_ s then (s, false)
  else (mk (logical_result_ s) (release_authorized_ s) (continuation_authorized_ s) true, true).

Definition TryAuthorizeRelease (s : t) : t * bool :=
  if negb (CompletionGate.Completed (logical_result_ s)) || negb (physical_terminal_ s)
  then (s, false)
  else let '(g, b) := CompletionGate.TryComplete (release_authorized_ s) in
       (mk (logical_result_ s) g (continuation_authorized_ s) (physical_terminal_ s), b).

Definition TryAuthorizeContinuation (s : t) : t * bool :=
  if negb (CompletionGate.Completed (release_authorized_ s)) then (s, false)
  else let '(g, b) := CompletionGate.TryComplete (continuation_authorized_ s) in
       (mk (logical_result_ s) (release_authorized_ s) g (physical_terminal_ s), b).

Inductive step := LogicalResult | PhysicalTerminal | Release | Continuation.

#[global] Instance step_eq_dec : EqDecision step.
Proof. solve_decision. Defined.

Definition attempt (o : step) : t -> t * bool :=
  match o with
  | LogicalResult => RecordLogicalResult
  | PhysicalTerminal => MarkPhysicalTerminal
  | Release => TryAuthorizeRelease
  | Continuation => TryAuthorizeContinuation
  end.

Definition prereq (o : step) : list step :=
  match o with
  | LogicalResult | PhysicalTerminal => []
  | Release => [LogicalResult; PhysicalTerminal]
  | Continuation => [Release]
  end.

Definition flag_of (s : t) (o : step) : bool :=
  match o with
  | LogicalResult => CompletionGate.Completed (logical_result_ s)
  | PhysicalTerminal => physical_terminal_ s
  | Release => CompletionGate.Completed (release_authorized_ s)
  | Continuation => CompletionGate.Completed (continuation_authorized_ s)
  end.
End SplitReleaseLifecycle.

(** The gated lifecycles are related to the protocol flag by flag: a step is
    done exactly when its gate is closed. *)
Section flags.
Context {St Step : Type} `{EqDecision Step}.

Definition flags_rel (flag : St -> Step -> bool) (s : St) (acc : list Step) : Prop :=
  forall o, flag s o = bool_decide (o ∈ acc).

Context (flag : St -> Step -> bool) (prereq : Step -> list Step) (attempt : Step -> St -> St * bool).

(** A lifecycle whose attempts test exactly the prerequisite flags and set
    exactly their own. *)
Definition flag_machine : Prop := forall s o,
  (attempt o s).2 = negb (flag s o) && forallb (flag s) (prereq o) /\
  forall o', flag (attempt o s).1 o' =
    if (attempt o s).2 then bool_decide (o' = o) || flag s o' else flag s o'.

Lemma flag_machine_step s acc o :
  flag_machine -> flags_rel flag s acc ->
  (attempt o s).2 = (spec_attempt prereq o acc).2 /\
  flags_rel flag (attempt o s).1 (spec_attempt prereq o acc).1.
Proof.
  intros Hm Hrel. destruct (Hm s o) as [Hb Hf].
  assert (Hen : (attempt o s).2 = enabled prereq acc o).
  { rewrite Hb. unfold enabled. f_equal.
    - by rewrite Hrel, bool_decide_not.
    - clear Hb. induction (prereq o) as [|p ps IH]; simpl; [done|]. by rewrite Hrel, IH. }
  unfold spec_attempt. rewrite <- Hen. split; [by destruct ((attempt o s).2)|].
  intros o'. rewrite Hf, (Hrel o').
  destruct ((attempt o s).2); [|done].
  apply eq_true_iff_eq. rewrite orb_true_iff, !bool_decide_eq_true; simpl.
  rewrite elem_of_app, list_elem_of_singleton. tauto.
Qed.
End flags.

Lemma composite_flag_machine :
  flag_machine
    (fun s o => CompletionGate.Completed (CompositeLifecycle.gate_of s o))
    CompositeLifecycle.prereq CompositeLifecycle.attempt.
Proof.
  intros [[[]] [[]] [[]] [[]] [[]]] [[]| | |]; (split; [reflexivity|]); intros [[]| | |]; reflexivity.
Qed.

Lemma split_flag_machine :
  flag_machine SplitReleaseLifecycle.flag_of
    SplitReleaseLifecycle.prereq SplitReleaseLifecycle.attempt.
Proof.
  intros [[[]] [[]] [[]] []] []; (split; [reflexivity|]); intros []; reflexivity.
Qed.

#[export] Instance composite_lifecycle :
  Lifecycle CompositeLifecycle.t CompositeLifecycle.step := {
  lc_init := CompositeLifecycle.initial;
  lc_attempt := CompositeLifecycle.attempt;
}.

#[export] Program Instance composite_refines :
  LifecycleRefines CompositeLifecycle.t CompositeLifecycle.step CompositeLifecycle.prereq := {
  lc_rel := flags_rel (fun s o => CompletionGate.Completed (CompositeLifecycle.gate_of s o));
}.
Next Obligation. intros [[]| | |]; reflexivity. Qed.
Next Obligation. intros. by apply flag_machine_step; [apply composite_flag_machine|]. Qed.

#[export] Instance split_lifecycle :
  Lifecycle SplitReleaseLifecycle.t SplitReleaseLifecycle.step := {
  lc_init := SplitReleaseLifecycle.initial;
  lc_attempt := SplitReleaseLifecycle.attempt;
}.

#[export] Program Instance split_refines :
  LifecycleRefines SplitReleaseLifecycle.t SplitReleaseLifecycle.step
    SplitReleaseLifecycle.prereq := {
  lc_rel := flags_rel SplitReleaseLifecycle.flag_of;
}.
Next Obligation. intros []; reflexivity. Qed.
Next Obligation. intros. by apply flag_machine_step; [apply split_flag_machine|]. Qed.

(** ** What the lifecycles guarantee *)

(** [SingleResultLifecycle]: whatever sequence of authorisations a backend
    attempts, the ones that succeed are, in order, an initial segment of
    result, release, continuation; each is authorised at most once and the
    state records exactly which ones were. *)
Theorem single_result_authorization_order (os : list SingleResultLifecycle.step) :
  let auth := authorized SingleResultLifecycle.initial os in
  let final := SingleResultLifecycle.state_ (lc_run SingleResultLifecycle.initial os) in
  auth = SingleResultLifecycle.done_in final /\
  auth `prefix_of` [SingleResultLifecycle.Result_; SingleResultLifecycle.Release;
                    SingleResultLifecycle.Continuation].
Proof.
  pose proof (lc_run_authorized (St := SingleResultLifecycle.t) os) as H. simpl in H.
  cbv zeta. split; [exact H|]. rewrite H.
  destruct (SingleResultLifecycle.state_ _); by eexists.
Qed.

(** [CompositeLifecycle]: after any sequence of attempts, an attempt
    succeeds exactly when it did not succeed before and its prerequisites did
    (the logical result needs both members, release needs the logical result,
    continuation needs release), and the successful attempts never repeat and
    come in that order. *)
Theorem composite_authorization_order (os : list CompositeLifecycle.step) :
  let auth := authorized CompositeLifecycle.initial os in
  ordered CompositeLifecycle.prereq auth /\
  (forall o, (CompositeLifecycle.attempt o (lc_run CompositeLifecycle.initial os)).2 = true <->
     (o ∉ auth) /\ (forall p, p ∈ CompositeLifecycle.prereq o -> p ∈ auth)).
Proof.
  split; [exact (authorized_ordered (St := CompositeLifecycle.t) (prereq := CompositeLifecycle.prereq) os)|].
  intros o.
  exact (lc_attempt_iff (St := CompositeLifecycle.t) (prereq := CompositeLifecycle.prereq) _ _ o (lc_run_authorized os)).
Qed.

(** [SplitReleaseLifecycle]: after any sequence of attempts, release is
    authorised exactly when the logical result is recorded, the physical
    request is terminal and release was not authorised before; continuation
    exactly when release was and it was not; no step is authorised twice. *)
Theorem split_release_authorization_order (os : list SplitReleaseLifecycle.step) :
  let auth := authorized SplitReleaseLifecycle.initial os in
  ordered SplitReleaseLifecycle.prereq auth /\
  (forall o, (SplitReleaseLifecycle.attempt o (lc_run SplitReleaseLifecycle.initial os)).2 = true <->
     (o ∉ auth) /\ (forall p, p ∈ SplitReleaseLifecycle.prereq o -> p ∈ auth)).
Proof.
  split; [exact (authorized_ordered (St := SplitReleaseLifecycle.t) (prereq := SplitReleaseLifecycle.prereq) os)|].
  intros o.
  exact (lc_attempt_iff (St := SplitReleaseLifecycle.t) (prereq := SplitReleaseLifecycle.prereq) _ _ o (lc_run_authorized os)).
Qed.
