(* ===== verification/Sources.v ===== *)
(** * Logical sources: shared vocabulary and the stop contract

    [SourceState], [MultishotRequestDisposition] and [EventDisposition]
    (include/alyrn/net/detail/source_state.h), and the interface an accept or a
    receive source offers to the adapter that stops and drains it. The drain
    theorems are proved against the interface; the two state machines implement
    it in AcceptSource.v and RecvSource.v. *)

From S2P Require Import Prelude.

Inductive SourceState :=
| kIdle | kActive | kPausing | kPaused | kStopping | kDraining | kTerminal.

#[export] Instance SourceState_eq_dec : EqDecision SourceState.
Proof. solve_decision. Defined.

Module MultishotRequestDisposition.
Inductive t := kMore | kTerminal.

#[global] Instance t_eq_dec : EqDecision t.
Proof. solve_decision. Defined.
End MultishotRequestDisposition.

Module EventDisposition.
Inductive t := kNone | kProduced | kDelivered.

#[global] Instance t_eq_dec : EqDecision t.
Proof. solve_decision. Defined.
End EventDisposition.

(** The answer of a state-machine call: a [bool] or a [Result<void>]. *)
Inductive response := RBool (b : bool) | RResult (r : ResultE unit).

(** The states a source can be in once [RequestStop] was called. *)
Definition stopped (s : SourceState) : bool :=
  match s with kStopping | kDraining | kTerminal => true | _ => false end.

(** ** The stop contract *)

Class StoppableSource (St Op : Type) := {
  src_state : St -> SourceState;
  src_call : Op -> St -> St * response;
  src_stop : Op;
  (** Work the source still accounts for: armed requests, queued events and
      outstanding leases. *)
  src_work : St -> nat;
  src_inv : St -> Prop;
  (** One step an adapter takes to drain the source. *)
  src_drain : St -> Op;
}.

Class StoppableSourceLaws (St Op : Type) `{StoppableSource St Op} := {
  src_inv_call s o : src_inv s -> src_inv (src_call o s).1;
  src_stop_stopped s : src_inv s -> stopped (src_state (src_call src_stop s).1) = true;
  src_stopped_stable s o :
    src_inv s -> stopped (src_state s) = true -> stopped (src_state (src_call o s).1) = true;
  src_terminal_iff s :
    src_inv s -> stopped (src_state s) = true ->
    src_state s = kTerminal <-> src_work s = 0%nat;
  src_terminal_absorbing s o :
    src_inv s -> src_state s = kTerminal -> (src_call o s).1 = s;
  src_drain_progress s :
    src_inv s -> stopped (src_state s) = true -> src_work s <> 0%nat ->
    S (src_work (src_call (src_drain s) s).1) = src_work s;
}.

Definition src_run `{StoppableSource St Op} (os : list Op) (s : St) : St :=
  fold_left (fun s o => (src_call o s).1) os s.

Fixpoint src_drain_n `{StoppableSource St Op} (n : nat) (s : St) : St :=
  match n with
  | O => s
  | S n => src_drain_n n (src_call (src_drain s) s).1
  end.

Section client.
Context `{StoppableSourceLaws St Op}.

Lemma src_run_inv os s : src_inv s -> src_inv (src_run os s).
Proof.
  revert s. induction os as [|o os IH]; intros s Hs; simpl; [done|].
  by apply IH, src_inv_call.
Qed.

Lemma src_run_stopped os s :
  src_inv s -> stopped (src_state s) = true -> stopped (src_state (src_run os s)) = true.
Proof.
  revert s. induction os as [|o os IH]; intros s Hs Hst; simpl; [done|].
  apply IH; [by apply src_inv_call | by apply src_stopped_stable].
Qed.

Lemma src_drain_n_terminal n s :
  src_inv s -> stopped (src_state s) = true -> src_work s = n ->
  src_state (src_drain_n n s) = kTerminal.
Proof.
  revert s. induction n as [|n IH]; intros s Hs Hst Hn; simpl.
  { by apply src_terminal_iff. }
  assert (Hp := src_drain_progress s Hs Hst ltac:(lia)).
  apply IH; [by apply src_inv_call | by apply src_stopped_stable | lia].
Qed.

Lemma src_run_terminal os s :
  src_inv s -> src_state s = kTerminal -> src_run os s = s.
Proof.
  intros Hs Ht. induction os as [|o os IH]; simpl; [done|]. by rewrite src_terminal_absorbing.
Qed.

(** The stop contract: after a stop and any further calls, terminal means
    drained, terminal is final, and draining step by step gets there. *)
Lemma src_stop_converges os s :
  src_inv s ->
  let s' := src_run os (src_call src_stop s).1 in
  (src_state s' = kTerminal <-> src_work s' = 0%nat) /\
  (src_state s' = kTerminal -> forall more, src_run more s' = s') /\
  src_state (src_drain_n (src_work s') s') = kTerminal.
Proof.
  intros Hs s'.
  assert (Hs' : src_inv s') by (by apply src_run_inv, src_inv_call).
  assert (Hst : stopped (src_state s') = true).
  { apply src_run_stopped; [by apply src_inv_call | by apply src_stop_stopped]. }
  split_and!; [by apply src_terminal_iff | intros; by apply src_run_terminal |].
  by apply src_drain_n_terminal.
Qed.
End client.
