(* ===== verification/AcceptSource.v ===== *)
(** * Accept admission: [AcceptSourceOptions] and [AcceptSourceStateMachine]

    include/alyrn/net/accept_source.h and
    include/alyrn/net/detail/accept_source_state.h. Counters are [std::size_t]
    with their wrap-around. *)

From S2P Require Import Prelude Sources.

Module AcceptSource.

(** ** Options *)

Record AcceptSourceOptions := mkOptions {
  pending_depth : Z;
  event_capacity : Z;
  resume_threshold : Z;
}.

Definition Valid (o : AcceptSourceOptions) : bool :=
  (0 <? pending_depth o) && (pending_depth o <=? event_capacity o) &&
  ((resume_threshold o =? 0) || (resume_threshold o <? event_capacity o)).

Definition ResumeThreshold (o : AcceptSourceOptions) : Z :=
  if resume_threshold o =? 0 then event_capacity o / 2 else resume_threshold o.

(** ** The state machine *)

Record t := mk {
  options_ : AcceptSourceOptions;
  state_ : SourceState;
  queued_events_ : Z;
  armed_requests_ : Z;
}.

Definition set_state (st : SourceState) (s : t) : t :=
  mk (options_ s) st (queued_events_ s) (armed_requests_ s).

Definition Create (o : AcceptSourceOptions) : ResultE t :=
  if negb (Valid o) then Err (Errno EINVAL) else Ok (mk o kIdle 0 0).

Definition Start (s : t) : t * ResultE unit :=
  if negb (bool_decide (state_ s = kIdle)) then (s, Err (Errno EALREADY))
  else (set_state kActive s, Ok tt).

Definition TryArm (s : t) : t * bool :=
  if negb (bool_decide (state_ s = kActive)) ||
     (pending_depth (options_ s) <=? armed_requests_ s) ||
     (event_capacity (options_ s) <=? usize (queued_events_ s + armed_requests_ s))
  then (s, false)
  else (mk (options_ s) (state_ s) (queued_events_ s) (usize (armed_requests_ s + 1)), true).

Definition CanArm (s : t) : bool :=
  bool_decide (state_ s = kActive) && (armed_requests_ s <? pending_depth (options_ s)) &&
  (usize (queued_events_ s + armed_requests_ s) <? event_capacity (options_ s)).

Definition ReconcilePause (s : t) : t :=
  if bool_decide (state_ s = kPausing) && (armed_requests_ s =? 0)
  then set_state kPaused s else s.

Definition ReconcileStopping (s : t) : t :=
  let s := ReconcilePause s in
  if bool_decide (state_ s = kStopping) then
    if negb (armed_requests_ s =? 0) then s
    else set_state (if queued_events_ s =? 0 then kTerminal else kDraining) s
  else if bool_decide (state_ s = kDraining) && (queued_events_ s =? 0) && (armed_requests_ s =? 0)
  then set_state kTerminal s else s.

Definition RequestPause (s : t) : t * ResultE unit :=
  match state_ s with
  | kTerminal | kDraining | kStopping | kPausing | kPaused => (s, Ok tt)
  | kActive => (ReconcilePause (set_state kPausing s), Ok tt)
  | kIdle => (s, Err (Errno EINVAL))
  end.

Definition TryResume (s : t) : t * bool :=
  if negb (bool_decide (state_ s = kPaused)) ||
     (ResumeThreshold (options_ s) <? queued_events_ s)
  then (s, false) else (set_state kActive s, true).

Definition CompleteRequest (produced_event : bool) (s : t) : t * ResultE unit :=
  if armed_requests_ s =? 0 then (s, Err (Errno EINVAL))
  else if produced_event && (event_capacity (options_ s) <=? queued_events_ s)
  then (s, Err (Errno ENOBUFS))
  else
    (ReconcileStopping
       (mk (options_ s) (state_ s)
           (if produced_event then usize (queued_events_ s + 1) else queued_events_ s)
           (usize (armed_requests_ s - 1))), Ok tt).

Definition CompleteMultishotEvent (event : EventDisposition.t)
    (request : MultishotRequestDisposition.t) (s : t) : t * ResultE unit :=
  if armed_requests_ s =? 0 then (s, Err (Errno EINVAL))
  else if bool_decide (event = EventDisposition.kDelivered) then (s, Err (Errno EINVAL))
  else if bool_decide (event = EventDisposition.kProduced) &&
          (event_capacity (options_ s) <=? queued_events_ s)
  then (s, Err (Errno ENOBUFS))
  else
    (ReconcileStopping
       (mk (options_ s) (state_ s)
           (if bool_decide (event = EventDisposition.kProduced)
            then usize (queued_events_ s + 1) else queued_events_ s)
           (if bool_decide (request = MultishotRequestDisposition.kTerminal)
            then usize (armed_requests_ s - 1) else armed_requests_ s)), Ok tt).

Definition ConsumeEvent (s : t) : t * bool :=
  if queued_events_ s =? 0 then (s, false)
  else (ReconcileStopping
          (mk (options_ s) (state_ s) (usize (queued_events_ s - 1)) (armed_requests_ s)), true).

Definition RequestStop (s : t) : t :=
  match state_ s with
  | kTerminal | kDraining | kStopping => s
  | kIdle => set_state kTerminal s
  | kActive | kPausing | kPaused => ReconcileStopping (set_state kStopping s)
  end.

(** ** Calls and runs *)

Inductive op :=
| OStart | OTryArm | ORequestPause | OTryResume
| OCompleteRequest (produced_event : bool)
| OCompleteMultishotEvent (event : EventDisposition.t) (request : MultishotRequestDisposition.t)
| OConsumeEvent | ORequestStop.

Definition call (o : op) (s : t) : t * response :=
  match o with
  | OStart => let '(s, r) := Start s in (s, RResult r)
  | OTryArm => let '(s, b) := TryArm s in (s, RBool b)
  | ORequestPause => let '(s, r) := RequestPause s in (s, RResult r)
  | OTryResume => let '(s, b) := TryResume s in (s, RBool b)
  | OCompleteRequest p => let '(s, r) := CompleteRequest p s in (s, RResult r)
  | OCompleteMultishotEvent e q => let '(s, r) := CompleteMultishotEvent e q s in (s, RResult r)
  | OConsumeEvent => let '(s, b) := ConsumeEvent s in (s, RBool b)
  | ORequestStop => (RequestStop s, RResult (Ok tt))
  end.

(** A machine made by [Create] and driven by calls. *)
Inductive reachable (o : AcceptSourceOptions) : t -> Prop :=
| reachable_create s : Create o = Ok s -> reachable o s
| reachable_call s c : reachable o s -> reachable o (call c s).1.

(** ** The invariant *)

Definition options_in_range (o : AcceptSourceOptions) : Prop :=
  is_usize (pending_depth o) /\ is_usize (event_capacity o) /\ is_usize (resume_threshold o).

(** What each state says about the counters. *)
Definition state_coherent (st : SourceState) (queued armed : Z) : Prop :=
  match st with
  | kIdle => queued = 0 /\ armed = 0
  | kActive => True
  | kPausing => armed <> 0
  | kPaused => armed = 0
  | kStopping => armed <> 0
  | kDraining => armed = 0 /\ queued <> 0
  | kTerminal => armed = 0 /\ queued = 0
  end.

Record inv (s : t) : Prop := {
  inv_options : options_in_range (options_ s);
  inv_valid : Valid (options_ s) = true;
  inv_queued : 0 <= queued_events_ s <= event_capacity (options_ s);
  inv_armed : 0 <= armed_requests_ s <= pending_depth (options_ s);
  inv_state : state_coherent (state_ s) (queued_events_ s) (armed_requests_ s);
}.

(** Single-shot calls: every completion ends its request. *)
Definition single_shot (o : op) : bool :=
  match o with OCompleteMultishotEvent _ _ => false | _ => true end.

Inductive reachable_single_shot (o : AcceptSourceOptions) : t -> Prop :=
| reachable_ss_create s : Create o = Ok s -> reachable_single_shot o s
| reachable_ss_call s c :
    reachable_single_shot o s -> single_shot c = true ->
    reachable_single_shot o (call c s).1.

Definition drain_op (s : t) : op :=
  if armed_requests_ s =? 0 then OConsumeEvent else OCompleteRequest false.

(** ** Lemmas *)

(** What a call leaves behind before it reconciles the state. *)
Definition pre_coherent (st : SourceState) (queued armed : Z) : Prop :=
  match st with
  | kActive | kPausing | kStopping => True
  | kIdle | kTerminal => armed = 0 /\ queued = 0
  | kPaused | kDraining => armed = 0
  end.

Lemma accept_coherent_pre st q a : state_coherent st q a -> pre_coherent st q a.
Proof. destruct st; simpl; tauto. Qed.

Lemma accept_ReconcileStopping_spec s :
  pre_coherent (state_ s) (queued_events_ s) (armed_requests_ s) ->
  let s' := ReconcileStopping s in
  options_ s' = options_ s /\ queued_events_ s' = queued_events_ s /\
  armed_requests_ s' = armed_requests_ s /\
  stopped (state_ s') = stopped (state_ s) /\
  state_coherent (state_ s') (queued_events_ s') (armed_requests_ s').
Proof.
  destruct s as [o st q a]. unfold ReconcileStopping, ReconcilePause, set_state.
  destruct st; simpl; intros Hpre;
    repeat (split_if; bool_prop; simplify_eq/=); repeat split; simpl; auto; tauto.
Qed.

Lemma accept_ReconcileStopping_counts s :
  queued_events_ (ReconcileStopping s) = queued_events_ s /\
  armed_requests_ (ReconcileStopping s) = armed_requests_ s.
Proof.
  unfold ReconcileStopping, ReconcilePause, set_state.
  repeat (split_if; simpl); done.
Qed.

Lemma accept_ReconcilePause_spec s :
  state_ s = kPausing ->
  let s' := ReconcilePause s in
  options_ s' = options_ s /\ queued_events_ s' = queued_events_ s /\
  armed_requests_ s' = armed_requests_ s /\ stopped (state_ s') = false /\
  state_coherent (state_ s') (queued_events_ s') (armed_requests_ s').
Proof.
  destruct s as [o st q a]; simpl. intros ->.
  unfold ReconcilePause, set_state. simpl. split_if; bool_prop; simpl; auto.
Qed.

(** Replacing the counters by values in range and reconciling keeps [inv]. *)
Lemma accept_inv_reconcile o st q a :
  options_in_range o -> Valid o = true ->
  0 <= q <= event_capacity o -> 0 <= a <= pending_depth o ->
  pre_coherent st q a -> inv (ReconcileStopping (mk o st q a)).
Proof.
  intros Ho Hv Hq Ha Hpre.
  destruct (accept_ReconcileStopping_spec (mk o st q a) Hpre) as (Eo & Eq & Ea & _ & Hc).
  split; rewrite ?Eo, ?Eq, ?Ea in *; simpl in *; auto.
Qed.

Lemma accept_inv_usize s : inv s -> is_usize (queued_events_ s) /\ is_usize (armed_requests_ s) /\
  pending_depth (options_ s) <= event_capacity (options_ s) <= size_max.
Proof.
  intros [(Hp & He & _) Hv Hq Ha _]. unfold Valid in Hv.
  bool_prop; unfold is_usize in *; lia.
Qed.

Ltac usize_lia :=
  repeat match goal with
  | |- context [usize ?z] => rewrite (usize_small z) by (unfold is_usize in *; lia)
  end.

Lemma accept_inv_Create o s : options_in_range o -> Create o = Ok s -> inv s.
Proof.
  unfold Create. intros Ho. split_if; [done|]. intros [= <-]. bool_prop.
  assert (Hv := Hif). unfold Valid in Hv. unfold options_in_range, is_usize in Ho.
  bool_prop; split; simpl; auto; lia.
Qed.

Lemma accept_call_options c s : options_ (call c s).1 = options_ s.
Proof.
  destruct s as [o st q a]. destruct c; simpl;
    unfold Start, TryArm, RequestPause, TryResume, CompleteRequest, CompleteMultishotEvent,
      ConsumeEvent, RequestStop, ReconcileStopping, ReconcilePause, set_state; simpl;
    repeat (split_if; simpl); try reflexivity; destruct st; simpl;
    repeat (split_if; simpl); reflexivity.
Qed.

Lemma accept_inv_call c s : inv s -> inv (call c s).1.
Proof.
  intros Hi. destruct (accept_inv_usize s Hi) as (Hqu & Hau & Hpe).
  destruct Hi as [Ho Hv Hq Ha Hst]. destruct s as [o st q a]; simpl in *.
  unfold is_usize in *.
  destruct c; simpl.
  - unfold Start; simpl. split_if; bool_prop; split; simpl; auto.
  - unfold TryArm; simpl. split_if; [split; auto|]. bool_prop; simpl in *. subst.
    usize_lia. split; simpl; auto; lia.
  - unfold RequestPause; simpl.
    destruct st; simpl; try (split; simpl; auto; fail).
    destruct (accept_ReconcilePause_spec (set_state kPausing (mk o kActive q a)) eq_refl)
      as (Eo & Eq & Ea & _ & Hc).
    split; rewrite ?Eo, ?Eq, ?Ea in *; simpl in *; auto.
  - unfold TryResume; simpl. split_if; [split; auto|]. split; simpl; auto.
  - unfold CompleteRequest; simpl. split_if; [split; auto|]. split_if; [split; auto|].
    destruct produced_event; simpl in *; bool_prop; usize_lia;
      (apply accept_inv_reconcile; auto; try lia; destruct st; simpl in *; tauto).
  - unfold CompleteMultishotEvent; simpl. split_if; [split; auto|].
    split_if; [split; auto|]. split_if; [split; auto|].
    destruct event, request; simpl in *; bool_prop; usize_lia;
      (apply accept_inv_reconcile; auto; try lia; destruct st; simpl in *; tauto).
  - unfold ConsumeEvent; simpl. split_if; [split; auto|]. bool_prop. usize_lia.
    apply accept_inv_reconcile; auto; try lia. destruct st; simpl in *; tauto.
  - unfold RequestStop; simpl.
    destruct st; simpl; try (split; simpl; auto; fail);
      try (apply accept_inv_reconcile; simpl; auto; fail).
    simpl in Hst. split; simpl; auto; tauto.
Qed.

Lemma accept_stopped_call c s :
  inv s -> stopped (state_ s) = true -> stopped (state_ (call c s).1) = true.
Proof.
  intros [Ho Hv Hq Ha Hst] Hs. destruct s as [o st q a]; simpl in *.
  destruct c; simpl.
  all: unfold Start, TryArm, RequestPause, TryResume, CompleteRequest, CompleteMultishotEvent,
    ConsumeEvent, RequestStop, ReconcileStopping, ReconcilePause, set_state; simpl.
  all: destruct st; try discriminate Hs; simpl; repeat (split_if; simpl); reflexivity.
Qed.

Definition work (s : t) : nat := Z.to_nat (armed_requests_ s + queued_events_ s).

Lemma accept_terminal_iff s :
  inv s -> stopped (state_ s) = true -> state_ s = kTerminal <-> work s = 0%nat.
Proof.
  intros [Ho Hv Hq Ha Hst] Hs. destruct s as [o st q a]; unfold work; simpl in *.
  destruct st; try discriminate Hs; simpl in Hst; split; try done; lia.
Qed.

Lemma accept_terminal_absorbing c s : inv s -> state_ s = kTerminal -> (call c s).1 = s.
Proof.
  intros [Ho Hv Hq Ha Hst] Hs. destruct s as [o st q a]; simpl in *. subst st.
  destruct Hst as [-> ->]. by destruct c.
Qed.

Lemma accept_drain_progress s :
  inv s -> stopped (state_ s) = true -> work s <> 0%nat ->
  S (work (call (drain_op s) s).1) = work s.
Proof.
  intros Hi Hs Hw. destruct (accept_inv_usize s Hi) as (Hqu & Hau & Hpe).
  destruct Hi as [Ho Hv Hq Ha Hst]. destruct s as [o st q a]; simpl in *.
  unfold is_usize, work, drain_op in *; simpl in *. split_if; bool_prop; simpl.
  - unfold ConsumeEvent; simpl. split_if; bool_prop; simpl; [lia|]. usize_lia.
    edestruct accept_ReconcileStopping_counts as [-> ->]; simpl; lia.
  - unfold CompleteRequest; simpl. split_if; bool_prop; simpl; [lia|]. usize_lia.
    edestruct accept_ReconcileStopping_counts as [-> ->]; simpl; lia.
Qed.

End AcceptSource.

#[export] Instance accept_stoppable : StoppableSource AcceptSource.t AcceptSource.op := {
  src_state := AcceptSource.state_;
  src_call := AcceptSource.call;
  src_stop := AcceptSource.ORequestStop;
  src_work := AcceptSource.work;
  src_inv := AcceptSource.inv;
  src_drain := AcceptSource.drain_op;
}.

#[export] Instance accept_stoppable_laws : StoppableSourceLaws AcceptSource.t AcceptSource.op.
Proof.
  split; simpl; intros *.
  - apply AcceptSource.accept_inv_call.
  - intros Hi. pose proof (AcceptSource.accept_inv_call AcceptSource.ORequestStop s Hi) as _.
    destruct s as [o st q a]; destruct Hi as [_ _ _ _ Hst]; simpl in *.
    unfold AcceptSource.RequestStop, AcceptSource.ReconcileStopping, AcceptSource.ReconcilePause,
      AcceptSource.set_state; simpl.
    destruct st; simpl; repeat (split_if; simpl); reflexivity.
  - apply AcceptSource.accept_stopped_call.
  - apply AcceptSource.accept_terminal_iff.
  - apply AcceptSource.accept_terminal_absorbing.
  - apply AcceptSource.accept_drain_progress.
Qed.

(** ** Properties *)

Module AcceptSourceProps.
Import AcceptSource.

Lemma accept_reachable_inv o s : options_in_range o -> reachable o s -> inv s.
Proof.
  intros Ho. induction 1 as [s Hc|s c _ IH]; [by eapply accept_inv_Create | by apply accept_inv_call].
Qed.

Lemma accept_reachable_ss_reachable o s : reachable_single_shot o s -> reachable o s.
Proof. induction 1; [by apply reachable_create | by apply reachable_call]. Qed.

(** Single-shot calls never raise the sum of queued events and armed requests
    above the event capacity. *)
Lemma accept_single_shot_sum c s :
  inv s -> single_shot c = true ->
  queued_events_ s + armed_requests_ s <= event_capacity (options_ s) ->
  queued_events_ (call c s).1 + armed_requests_ (call c s).1 <= event_capacity (options_ s).
Proof.
  intros Hi Hc Hsum. destruct (accept_inv_usize s Hi) as (Hqu & Hau & Hpe).
  destruct Hi as [Ho Hv Hq Ha Hst]. destruct s as [o st q a]; simpl in *.
  unfold is_usize in *.
  destruct c; try discriminate Hc; simpl.
  - unfold Start; simpl. by split_if.
  - unfold TryArm; simpl. split_if; [done|]. bool_prop; simpl in *.
    rewrite (usize_small (a + 1)) by (unfold is_usize; lia).
    rewrite (usize_small (q + a)) in * |- by (unfold is_usize; lia). lia.
  - unfold RequestPause, ReconcilePause, set_state; destruct st; simpl; try done.
    by split_if.
  - unfold TryResume; simpl. by split_if.
  - unfold CompleteRequest; simpl. split_if; [done|]. split_if; [done|].
    destruct produced_event; simpl in *; bool_prop;
      rewrite ?(usize_small (q + 1)), ?(usize_small (a - 1)) by (unfold is_usize; lia);
      (edestruct accept_ReconcileStopping_counts as [-> ->]; simpl; lia).
  - unfold ConsumeEvent; simpl. split_if; [done|]. bool_prop.
    rewrite (usize_small (q - 1)) by (unfold is_usize; lia).
    cbn [fst]. edestruct accept_ReconcileStopping_counts as [-> ->]; simpl; lia.
  - unfold RequestStop, ReconcileStopping, ReconcilePause, set_state; destruct st; simpl;
      repeat (split_if; simpl); done.
Qed.

Lemma accept_single_shot_sum_reachable o s :
  options_in_range o -> reachable_single_shot o s ->
  queued_events_ s + armed_requests_ s <= event_capacity (options_ s).
Proof.
  intros Ho. induction 1 as [s Hc|s c Hr IH Hc].
  - pose proof (accept_inv_Create o s Ho Hc) as [_ _ Hq _ _].
    unfold Create in Hc. destruct (negb (Valid o)); [done|].
    injection Hc as <-. simpl in *. lia.
  - rewrite accept_call_options. apply accept_single_shot_sum; auto.
    by eapply accept_reachable_inv, accept_reachable_ss_reachable.
Qed.
End AcceptSourceProps.

(** Every state of an accept source that was created with valid options and
    driven by any calls keeps its counters within the configured limits, and
    its state says what the counters hold: nothing is armed while paused,
    something is while pausing or stopping, a draining source holds only queued
    events, and a terminal one holds nothing. *)
Theorem accept_source_invariant (o : AcceptSource.AcceptSourceOptions) (s : AcceptSource.t) :
  AcceptSource.options_in_range o -> AcceptSource.reachable o s -> AcceptSource.inv s.
Proof. apply AcceptSourceProps.accept_reachable_inv. Qed.

(** An adapter that completes requests one by one (no multishot) never
    holds more queued events and armed requests than the event capacity, so a
    completion of an armed request always succeeds: [ENOBUFS] cannot occur. *)
Theorem accept_single_shot_never_overflows
    (o : AcceptSource.AcceptSourceOptions) (s : AcceptSource.t) (produced : bool) :
  AcceptSource.options_in_range o -> AcceptSource.reachable_single_shot o s ->
  AcceptSource.queued_events_ s + AcceptSource.armed_requests_ s <=
    AcceptSource.event_capacity (AcceptSource.options_ s) /\
  (AcceptSource.armed_requests_ s <> 0 -> (AcceptSource.CompleteRequest produced s).2 = Ok tt).
Proof.
  intros Ho Hr. pose proof (AcceptSourceProps.accept_single_shot_sum_reachable o s Ho Hr) as Hsum.
  split; [done|]. intros Ha.
  pose proof (AcceptSourceProps.accept_reachable_inv o s Ho
    (AcceptSourceProps.accept_reachable_ss_reachable o s Hr)) as Hi.
  destruct Hi as [_ _ Hq Ha' _]. unfold AcceptSource.CompleteRequest.
  rewrite (proj2 (Z.eqb_neq _ _) Ha). split_if; [|done]. bool_prop. lia.
Qed.

(** Once [RequestStop] was called on an accept source, it is terminal
    exactly when no request is armed and no event is queued, whatever calls
    follow; a terminal source never changes again; and completing the armed
    requests and consuming the queued events one by one reaches it. *)
Theorem accept_stop_converges
    (o : AcceptSource.AcceptSourceOptions) (s : AcceptSource.t) (calls : list AcceptSource.op) :
  AcceptSource.options_in_range o -> AcceptSource.reachable o s ->
  let s' := src_run calls (AcceptSource.RequestStop s) in
  (AcceptSource.state_ s' = kTerminal <-> AcceptSource.work s' = 0%nat) /\
  (AcceptSource.state_ s' = kTerminal -> forall more, src_run more s' = s') /\
  AcceptSource.state_ (src_drain_n (AcceptSource.work s') s') = kTerminal.
Proof.
  intros Ho Hr.
  exact (src_stop_converges (St := AcceptSource.t) calls s
           (AcceptSourceProps.accept_reachable_inv o s Ho Hr)).
Qed.

(** ** Witnesses *)

Module AcceptWitness.
Import AcceptSource.
Definition opts : AcceptSourceOptions := mkOptions 4 64 0.
Definition s0 : t := mk opts kIdle 0 0.
Definition armed : t := (call OTryArm (call OTryArm (call OStart s0).1).1).1.

Lemma accept_opts_in_range : options_in_range opts.
Proof. unfold options_in_range, is_usize, size_max; simpl; lia. Defined.

Lemma accept_armed_reachable : reachable_single_shot opts armed.
Proof. repeat (apply reachable_ss_call; [|reflexivity]). by apply reachable_ss_create. Defined.

Lemma accept_armed_reachable_any : reachable opts armed.
Proof. repeat apply reachable_call. by apply reachable_create. Defined.
End AcceptWitness.

Lemma accept_source_invariant_witness :
  AcceptSource.armed_requests_ AcceptWitness.armed = 2 /\ AcceptSource.inv AcceptWitness.armed.
Proof.
  split; [reflexivity|].
  exact (accept_source_invariant _ _ AcceptWitness.accept_opts_in_range AcceptWitness.accept_armed_reachable_any).
Defined.

Lemma accept_single_shot_never_overflows_witness :
  (AcceptSource.CompleteRequest true AcceptWitness.armed).2 = Ok tt.
Proof.
  apply (accept_single_shot_never_overflows AcceptWitness.opts AcceptWitness.armed true
    AcceptWitness.accept_opts_in_range AcceptWitness.accept_armed_reachable).
  vm_compute. discriminate.
Defined.

Lemma accept_stop_converges_witness :
  let s' := src_run [AcceptSource.OCompleteRequest true]
              (AcceptSource.RequestStop AcceptWitness.armed) in
  AcceptSource.state_ s' = kStopping /\
  AcceptSource.state_ (src_drain_n (AcceptSource.work s') s') = kTerminal.
Proof.
  split; [reflexivity|].
  exact (proj2 (proj2 (accept_stop_converges AcceptWitness.opts AcceptWitness.armed
    [AcceptSource.OCompleteRequest true]
    AcceptWitness.accept_opts_in_range AcceptWitness.accept_armed_reachable_any))).
Defined.
