(* ===== verification/RecvSource.v ===== *)
(** * Receive admission: [RecvSourceOptions] and [RecvSourceStateMachine]

    include/alyrn/net/recv_source.h (options) and
    include/alyrn/net/detail/recv_source_state.h. Beside the accept machine it
    accounts for the buffer leases the application holds. Counters are
    [std::size_t] with their wrap-around. *)

From S2P Require Import Prelude Sources.

Module RecvSource.

(** ** Options *)

Record RecvSourceOptions := mkOptions {
  pending_depth : Z;
  event_capacity : Z;
  buffer_capacity : Z;
  resume_threshold : Z;
}.

Definition Valid (o : RecvSourceOptions) : bool :=
  (0 <? pending_depth o) && (0 <? event_capacity o) &&
  (event_capacity o <=? buffer_capacity o) &&
  ((resume_threshold o =? 0) || (resume_threshold o <? event_capacity o)).

Definition ResumeThreshold (o : RecvSourceOptions) : Z :=
  if resume_threshold o =? 0 then event_capacity o / 2 else resume_threshold o.

(** ** The state machine *)

Definition kMaxRearmWorkingSet : Z := 8.

Record t := mk {
  options_ : RecvSourceOptions;
  state_ : SourceState;
  queued_events_ : Z;
  armed_requests_ : Z;
  outstanding_leases_ : Z;
}.

Definition set_state (st : SourceState) (s : t) : t :=
  mk (options_ s) st (queued_events_ s) (armed_requests_ s) (outstanding_leases_ s).

Definition Create (o : RecvSourceOptions) : ResultE t :=
  if negb (Valid o) then Err (Errno EINVAL) else Ok (mk o kIdle 0 0 0).

Definition Start (s : t) : t * ResultE unit :=
  if negb (bool_decide (state_ s = kIdle)) then (s, Err (Errno EALREADY))
  else (set_state kActive s, Ok tt).

Definition CanQueueEvent (s : t) : bool :=
  (queued_events_ s <? event_capacity (options_ s)) &&
  (outstanding_leases_ s <? buffer_capacity (options_ s)).

Definition CanDeliverEvent (s : t) : bool :=
  outstanding_leases_ s <? buffer_capacity (options_ s).

Definition CanArm (s : t) : bool :=
  if negb (bool_decide (state_ s = kActive)) ||
     (pending_depth (options_ s) <=? armed_requests_ s) || negb (CanQueueEvent s)
  then false
  else
    let reserved := usize (outstanding_leases_ s + armed_requests_ s) in
    if buffer_capacity (options_ s) <=? reserved then false
    else
      let free_slots := usize (buffer_capacity (options_ s) - reserved) in
      let min_free := Z.min (ResumeThreshold (options_ s)) kMaxRearmWorkingSet in
      min_free <=? free_slots.

Definition TryArm (s : t) : t * bool :=
  if negb (CanArm s) then (s, false)
  else (mk (options_ s) (state_ s) (queued_events_ s) (usize (armed_requests_ s + 1))
           (outstanding_leases_ s), true).

Definition ReconcilePause (s : t) : t :=
  if bool_decide (state_ s = kPausing) && (armed_requests_ s =? 0)
  then set_state kPaused s else s.

Definition ReconcileStopping (s : t) : t :=
  let s := ReconcilePause s in
  if bool_decide (state_ s = kStopping) then
    if negb (armed_requests_ s =? 0) then s
    else set_state (if (queued_events_ s =? 0) && (outstanding_leases_ s =? 0)
                    then kTerminal else kDraining) s
  else if bool_decide (state_ s = kDraining) && (armed_requests_ s =? 0) &&
          (queued_events_ s =? 0) && (outstanding_leases_ s =? 0)
  then set_state kTerminal s else s.

Definition RequestPause (s : t) : t * ResultE unit :=
  match state_ s with
  | kTerminal | kDraining | kStopping | kPausing | kPaused => (s, Ok tt)
  | kActive => (ReconcilePause (set_state kPausing s), Ok tt)
  | kIdle => (s, Err (Errno EINVAL))
  end.

Definition TryResume (s : t) : t * bool :=
  if negb (bool_decide (state_ s = kPaused)) ||
     (ResumeThreshold (options_ s) <? queued_events_ s)
  then (s, false) else (set_state kActive s, true).

(** The tail shared by the calls below:
    [if (state_ != kActive) ReconcileStopping();] *)
Definition ReconcileUnlessActive (s : t) : t :=
  if negb (bool_decide (state_ s = kActive)) then ReconcileStopping s else s.

Definition CompleteMultishotEvent (event : EventDisposition.t)
    (request : MultishotRequestDisposition.t) (s : t) : t * ResultE unit :=
  if armed_requests_ s =? 0 then (s, Err (Errno EINVAL))
  else if bool_decide (event = EventDisposition.kProduced) && negb (CanQueueEvent s)
  then (s, Err (Errno ENOBUFS))
  else if bool_decide (event = EventDisposition.kDelivered) && negb (CanDeliverEvent s)
  then (s, Err (Errno ENOBUFS))
  else
    (ReconcileUnlessActive
       (mk (options_ s) (state_ s)
           (if bool_decide (event = EventDisposition.kProduced)
            then usize (queued_events_ s + 1) else queued_events_ s)
           (if bool_decide (request = MultishotRequestDisposition.kTerminal)
            then usize (armed_requests_ s - 1) else armed_requests_ s)
           (if bool_decide (event = EventDisposition.kProduced) ||
               bool_decide (event = EventDisposition.kDelivered)
            then usize (outstanding_leases_ s + 1) else outstanding_leases_ s)), Ok tt).

Definition AcquireEvent (s : t) : t * bool :=
  if queued_events_ s =? 0 then (s, false)
  else (ReconcileUnlessActive
          (mk (options_ s) (state_ s) (usize (queued_events_ s - 1)) (armed_requests_ s)
              (outstanding_leases_ s)), true).

Definition DiscardQueuedEvent (s : t) : t * bool :=
  if queued_events_ s =? 0 then (s, false)
  else (ReconcileUnlessActive
          (mk (options_ s) (state_ s) (usize (queued_events_ s - 1)) (armed_requests_ s)
              (outstanding_leases_ s)), true).

Definition ReleaseLease (s : t) : t * bool :=
  if outstanding_leases_ s =? 0 then (s, false)
  else (ReconcileUnlessActive
          (mk (options_ s) (state_ s) (queued_events_ s) (armed_requests_ s)
              (usize (outstanding_leases_ s - 1))), true).

Definition RequestStop (s : t) : t * ResultE unit :=
  match state_ s with
  | kTerminal | kDraining | kStopping => (s, Ok tt)
  | kIdle => (set_state kTerminal s, Ok tt)
  | kActive | kPausing | kPaused => (ReconcileStopping (set_state kStopping s), Ok tt)
  end.

(** ** Calls and runs *)

Inductive op :=
| OStart | OTryArm | ORequestPause | OTryResume
| OCompleteMultishotEvent (event : EventDisposition.t) (request : MultishotRequestDisposition.t)
| OAcquireEvent | ODiscardQueuedEvent | OReleaseLease | ORequestStop.

Definition call (o : op) (s : t) : t * response :=
  match o with
  | OStart => let '(s, r) := Start s in (s, RResult r)
  | OTryArm => let '(s, b) := TryArm s in (s, RBool b)
  | ORequestPause => let '(s, r) := RequestPause s in (s, RResult r)
  | OTryResume => let '(s, b) := TryResume s in (s, RBool b)
  | OCompleteMultishotEvent e q => let '(s, r) := CompleteMultishotEvent e q s in (s, RResult r)
  | OAcquireEvent => let '(s, b) := AcquireEvent s in (s, RBool b)
  | ODiscardQueuedEvent => let '(s, b) := DiscardQueuedEvent s in (s, RBool b)
  | OReleaseLease => let '(s, b) := ReleaseLease s in (s, RBool b)
  | ORequestStop => let '(s, r) := RequestStop s in (s, RResult r)
  end.

Inductive reachable (o : RecvSourceOptions) : t -> Prop :=
| reachable_create s : Create o = Ok s -> reachable o s
| reachable_call s c : reachable o s -> reachable o (call c s).1.

(** ** The invariant *)

Definition options_in_range (o : RecvSourceOptions) : Prop :=
  is_usize (pending_depth o) /\ is_usize (event_capacity o) /\
  is_usize (buffer_capacity o) /\ is_usize (resume_threshold o).

Definition state_coherent (st : SourceState) (queued armed leases : Z) : Prop :=
  match st with
  | kIdle => queued = 0 /\ armed = 0 /\ leases = 0
  | kActive => True
  | kPausing => armed <> 0
  | kPaused => armed = 0
  | kStopping => armed <> 0
  | kDraining => armed = 0 /\ ~ (queued = 0 /\ leases = 0)
  | kTerminal => armed = 0 /\ queued = 0 /\ leases = 0
  end.

Record inv (s : t) : Prop := {
  inv_options : options_in_range (options_ s);
  inv_valid : Valid (options_ s) = true;
  inv_queued : 0 <= queued_events_ s <= event_capacity (options_ s);
  inv_armed : 0 <= armed_requests_ s <= pending_depth (options_ s);
  inv_leases : 0 <= outstanding_leases_ s <= buffer_capacity (options_ s);
  inv_state : state_coherent (state_ s) (queued_events_ s) (armed_requests_ s)
                (outstanding_leases_ s);
}.

(** One step of the drain an adapter runs after a stop: finish the armed
    requests, then discard what is queued, then return the leases. *)
Definition drain_op (s : t) : op :=
  if negb (armed_requests_ s =? 0)
  then OCompleteMultishotEvent EventDisposition.kNone MultishotRequestDisposition.kTerminal
  else if negb (queued_events_ s =? 0) then ODiscardQueuedEvent else OReleaseLease.

Definition work (s : t) : nat :=
  Z.to_nat (armed_requests_ s + queued_events_ s + outstanding_leases_ s).

(** ** Lemmas *)

(** What a call leaves behind before it reconciles the state. *)
Definition pre_coherent (st : SourceState) (queued armed leases : Z) : Prop :=
  match st with
  | kActive | kPausing | kStopping => True
  | kIdle | kTerminal => armed = 0 /\ queued = 0 /\ leases = 0
  | kPaused | kDraining => armed = 0
  end.

Lemma recv_ReconcileStopping_spec s :
  pre_coherent (state_ s) (queued_events_ s) (armed_requests_ s) (outstanding_leases_ s) ->
  let s' := ReconcileStopping s in
  stopped (state_ s') = stopped (state_ s) /\
  state_coherent (state_ s') (queued_events_ s) (armed_requests_ s) (outstanding_leases_ s).
Proof.
  destruct s as [o st q a l]. unfold ReconcileStopping, ReconcilePause, set_state.
  destruct st; simpl; intros Hpre;
    repeat (split_if; bool_prop; simplify_eq/=); repeat split; simpl; auto; tauto.
Qed.

Lemma recv_ReconcileStopping_frame s :
  options_ (ReconcileStopping s) = options_ s /\
  queued_events_ (ReconcileStopping s) = queued_events_ s /\
  armed_requests_ (ReconcileStopping s) = armed_requests_ s /\
  outstanding_leases_ (ReconcileStopping s) = outstanding_leases_ s.
Proof.
  unfold ReconcileStopping, ReconcilePause, set_state. repeat (split_if; simpl); done.
Qed.

Lemma recv_ReconcileUnlessActive_frame s :
  options_ (ReconcileUnlessActive s) = options_ s /\
  queued_events_ (ReconcileUnlessActive s) = queued_events_ s /\
  armed_requests_ (ReconcileUnlessActive s) = armed_requests_ s /\
  outstanding_leases_ (ReconcileUnlessActive s) = outstanding_leases_ s.
Proof. unfold ReconcileUnlessActive. split_if; [apply recv_ReconcileStopping_frame|done]. Qed.

Lemma recv_ReconcileUnlessActive_spec s :
  pre_coherent (state_ s) (queued_events_ s) (armed_requests_ s) (outstanding_leases_ s) ->
  let s' := ReconcileUnlessActive s in
  stopped (state_ s') = stopped (state_ s) /\
  state_coherent (state_ s') (queued_events_ s) (armed_requests_ s) (outstanding_leases_ s).
Proof.
  unfold ReconcileUnlessActive. split_if; [apply recv_ReconcileStopping_spec|].
  intros _. bool_prop. by rewrite Hif.
Qed.

(** Replacing the counters by values in range and reconciling keeps [inv]. *)
Lemma recv_inv_reconcile o st q a l :
  options_in_range o -> Valid o = true ->
  0 <= q <= event_capacity o -> 0 <= a <= pending_depth o -> 0 <= l <= buffer_capacity o ->
  pre_coherent st q a l -> inv (ReconcileUnlessActive (mk o st q a l)).
Proof.
  intros Ho Hv Hq Ha Hl Hpre.
  destruct (recv_ReconcileUnlessActive_frame (mk o st q a l)) as (Eo & Eq & Ea & El).
  destruct (recv_ReconcileUnlessActive_spec (mk o st q a l) Hpre) as (_ & Hc).
  split; rewrite ?Eo, ?Eq, ?Ea, ?El; simpl in *; auto.
Qed.

Lemma recv_inv_ReconcileStopping o st q a l :
  options_in_range o -> Valid o = true ->
  0 <= q <= event_capacity o -> 0 <= a <= pending_depth o -> 0 <= l <= buffer_capacity o ->
  pre_coherent st q a l -> inv (ReconcileStopping (mk o st q a l)).
Proof.
  intros Ho Hv Hq Ha Hl Hpre.
  destruct (recv_ReconcileStopping_frame (mk o st q a l)) as (Eo & Eq & Ea & El).
  destruct (recv_ReconcileStopping_spec (mk o st q a l) Hpre) as (_ & Hc).
  split; rewrite ?Eo, ?Eq, ?Ea, ?El; simpl in *; auto.
Qed.

Lemma recv_options_valid o :
  options_in_range o -> Valid o = true ->
  0 < pending_depth o <= size_max /\ 0 < event_capacity o <= buffer_capacity o /\
  buffer_capacity o <= size_max /\ 0 <= ResumeThreshold o < event_capacity o.
Proof.
  intros (Hp & He & Hb & Hr) Hv. unfold Valid in Hv. unfold is_usize in *.
  unfold ResumeThreshold. split_if; bool_prop; split_and!; try lia.
  all: pose proof (Z.div_lt (event_capacity o) 2); pose proof (Z.div_pos (event_capacity o) 2); lia.
Qed.

Lemma recv_inv_Create o s : options_in_range o -> Create o = Ok s -> inv s.
Proof.
  unfold Create. intros Ho. split_if; [done|]. intros [= <-]. bool_prop.
  pose proof (recv_options_valid o Ho Hif). split; simpl; auto; lia.
Qed.

Ltac usize_lia :=
  repeat match goal with
  | |- context [usize ?z] => rewrite (usize_small z) by (unfold is_usize in *; lia)
  end.

Lemma recv_CanArm_spec s :
  CanArm s = true <->
  state_ s = kActive /\ armed_requests_ s < pending_depth (options_ s) /\
  queued_events_ s < event_capacity (options_ s) /\
  outstanding_leases_ s < buffer_capacity (options_ s) /\
  let reserved := usize (outstanding_leases_ s + armed_requests_ s) in
  reserved < buffer_capacity (options_ s) /\
  Z.min (ResumeThreshold (options_ s)) kMaxRearmWorkingSet <=
    usize (buffer_capacity (options_ s) - reserved).
Proof.
  unfold CanArm, CanQueueEvent. split.
  - repeat split_if; intros H; try discriminate; bool_prop; auto 10.
  - intros (Hs & Ha & Hq & Hl & Hr & Hm).
    rewrite Hs, bool_decide_eq_true_2 by done.
    repeat (split_if; bool_prop; try lia); simpl in *; try lia; try congruence.
Qed.

Lemma recv_inv_call c s : inv s -> inv (call c s).1.
Proof.
  intros Hi. pose proof (recv_options_valid _ (inv_options _ Hi) (inv_valid _ Hi)) as Hov.
  destruct Hi as [Ho Hv Hq Ha Hl Hst]. destruct s as [o st q a l]; simpl in *.
  destruct c; simpl.
  - unfold Start; simpl. split_if; split; simpl; auto.
  - unfold TryArm. split_if; [split; auto|]. bool_prop.
    apply recv_CanArm_spec in Hif as (Hs & Hap & _); simpl in *. subst st.
    usize_lia. split; simpl; auto; lia.
  - unfold RequestPause, ReconcilePause; destruct st; simpl; try (split; simpl; auto; fail).
    split_if; bool_prop; split; simpl; auto.
  - unfold TryResume; simpl. split_if; split; simpl; auto.
  - unfold CompleteMultishotEvent, CanQueueEvent, CanDeliverEvent; simpl.
    split_if; [split; auto|]. split_if; [split; auto|]. split_if; [split; auto|].
    destruct event, request; simpl in *; bool_prop; usize_lia;
      (apply recv_inv_reconcile; auto; try lia; destruct st; simpl in *; try tauto; lia).
  - unfold AcquireEvent; simpl. split_if; [split; auto|]. bool_prop. usize_lia.
    apply recv_inv_reconcile; auto; try lia. destruct st; simpl in *; try tauto; lia.
  - unfold DiscardQueuedEvent; simpl. split_if; [split; auto|]. bool_prop. usize_lia.
    apply recv_inv_reconcile; auto; try lia. destruct st; simpl in *; try tauto; lia.
  - unfold ReleaseLease; simpl. split_if; [split; auto|]. bool_prop. usize_lia.
    apply recv_inv_reconcile; auto; try lia. destruct st; simpl in *; try tauto; lia.
  - unfold RequestStop; destruct st; simpl in *; try (split; simpl; auto; fail);
      try (apply recv_inv_ReconcileStopping; simpl; auto; fail).
    split; simpl; auto; tauto.
Qed.

Lemma recv_stopped_call c s :
  inv s -> stopped (state_ s) = true -> stopped (state_ (call c s).1) = true.
Proof.
  intros [Ho Hv Hq Ha Hl Hst] Hs. destruct s as [o st q a l]; simpl in *.
  destruct c; simpl;
    unfold Start, TryArm, RequestPause, TryResume, CompleteMultishotEvent, AcquireEvent,
      DiscardQueuedEvent, ReleaseLease, RequestStop, ReconcileUnlessActive, ReconcileStopping,
      ReconcilePause, set_state; simpl;
    destruct st; try discriminate Hs; simpl; repeat (split_if; simpl); reflexivity.
Qed.

Lemma recv_terminal_iff s :
  inv s -> stopped (state_ s) = true -> state_ s = kTerminal <-> work s = 0%nat.
Proof.
  intros [Ho Hv Hq Ha Hl Hst] Hs. destruct s as [o st q a l]; unfold work; simpl in *.
  destruct st; try discriminate Hs; simpl in Hst; split; try done; lia.
Qed.

Lemma recv_terminal_absorbing c s : inv s -> state_ s = kTerminal -> (call c s).1 = s.
Proof.
  intros [Ho Hv Hq Ha Hl Hst] Hs. destruct s as [o st q a l]; simpl in *. subst st.
  destruct Hst as (-> & -> & ->). by destruct c.
Qed.

Lemma recv_drain_progress s :
  inv s -> stopped (state_ s) = true -> work s <> 0%nat ->
  S (work (call (drain_op s) s).1) = work s.
Proof.
  intros Hi Hs Hw. pose proof (recv_options_valid _ (inv_options _ Hi) (inv_valid _ Hi)) as Hov.
  destruct Hi as [Ho Hv Hq Ha Hl Hst]. destruct s as [o st q a l]; simpl in *.
  unfold work, drain_op in *; simpl in *. split_if; [|split_if]; bool_prop; simpl.
  - unfold CompleteMultishotEvent; simpl. split_if; bool_prop; simpl; [lia|]. usize_lia.
    edestruct recv_ReconcileUnlessActive_frame as (_ & -> & -> & ->); simpl; lia.
  - unfold DiscardQueuedEvent; simpl. split_if; bool_prop; simpl; [lia|]. usize_lia.
    edestruct recv_ReconcileUnlessActive_frame as (_ & -> & -> & ->); simpl; lia.
  - unfold ReleaseLease; simpl. split_if; bool_prop; simpl; [lia|]. usize_lia.
    edestruct recv_ReconcileUnlessActive_frame as (_ & -> & -> & ->); simpl; lia.
Qed.

Lemma recv_reachable_inv o s : options_in_range o -> reachable o s -> inv s.
Proof.
  intros Ho. induction 1 as [s Hc|s c _ IH]; [by eapply recv_inv_Create | by apply recv_inv_call].
Qed.

End RecvSource.

#[export] Instance recv_stoppable : StoppableSource RecvSource.t RecvSource.op := {
  src_state := RecvSource.state_;
  src_call := RecvSource.call;
  src_stop := RecvSource.ORequestStop;
  src_work := RecvSource.work;
  src_inv := RecvSource.inv;
  src_drain := RecvSource.drain_op;
}.

#[export] Instance recv_stoppable_laws : StoppableSourceLaws RecvSource.t RecvSource.op.
Proof.
  split; simpl; intros *.
  - apply RecvSource.recv_inv_call.
  - intros _. destruct s as [o st q a l].
    unfold RecvSource.RequestStop, RecvSource.ReconcileStopping, RecvSource.ReconcilePause,
      RecvSource.set_state; simpl.
    destruct st; simpl; repeat (split_if; simpl); reflexivity.
  - apply RecvSource.recv_stopped_call.
  - apply RecvSource.recv_terminal_iff.
  - apply RecvSource.recv_terminal_absorbing.
  - apply RecvSource.recv_drain_progress.
Qed.

(** ** Properties *)

(** Every state of a receive source created with valid options and driven
    by any calls keeps queued events, armed requests and outstanding leases
    within the configured limits (so leases never exceed the buffers), and its
    state says what the counters hold. *)
Theorem recv_source_invariant (o : RecvSource.RecvSourceOptions) (s : RecvSource.t) :
  RecvSource.options_in_range o -> RecvSource.reachable o s -> RecvSource.inv s.
Proof. apply RecvSource.recv_reachable_inv. Qed.

(** Arming never overcommits: on a source whose buffer capacity leaves head
    room for the sum of two counters, [TryArm] succeeds only when every armed
    request, the new one included, can still be given a buffer beside the
    outstanding leases, and the rearm working set was free. *)
Theorem recv_arm_never_overcommits (o : RecvSource.RecvSourceOptions) (s : RecvSource.t) :
  RecvSource.options_in_range o -> RecvSource.reachable o s ->
  RecvSource.buffer_capacity (RecvSource.options_ s) +
    RecvSource.pending_depth (RecvSource.options_ s) <= size_max ->
  (RecvSource.TryArm s).2 = true ->
  let s' := (RecvSource.TryArm s).1 in
  RecvSource.armed_requests_ s' = RecvSource.armed_requests_ s + 1 /\
  RecvSource.outstanding_leases_ s' + RecvSource.armed_requests_ s' <=
    RecvSource.buffer_capacity (RecvSource.options_ s') /\
  Z.min (RecvSource.ResumeThreshold (RecvSource.options_ s)) RecvSource.kMaxRearmWorkingSet <=
    RecvSource.buffer_capacity (RecvSource.options_ s) -
    (RecvSource.outstanding_leases_ s + RecvSource.armed_requests_ s).
Proof.
  intros Ho Hr Hroom. pose proof (RecvSource.recv_reachable_inv o s Ho Hr) as Hi.
  pose proof (RecvSource.recv_options_valid _ (RecvSource.inv_options _ Hi)
    (RecvSource.inv_valid _ Hi)) as Hov.
  destruct Hi as [_ _ Hq Ha Hl _].
  unfold RecvSource.TryArm. split_if; [done|]. intros _. bool_prop.
  apply RecvSource.recv_CanArm_spec in Hif as (_ & Hap & _ & _ & Hres & Hmin). simpl in *.
  rewrite (usize_small (_ + RecvSource.armed_requests_ s)) in * |- by (unfold is_usize; lia).
  rewrite (usize_small (_ - _)) in Hmin by (unfold is_usize; lia).
  rewrite usize_small by (unfold is_usize; lia). lia.
Qed.

(** A drained source is never stuck: an active source with no request
    armed, no event queued and no lease outstanding always accepts [TryArm];
    and a source that was paused and drained down to the threshold resumes. *)
Theorem recv_drained_source_rearms (o : RecvSource.RecvSourceOptions) (s : RecvSource.t) :
  RecvSource.options_in_range o -> RecvSource.reachable o s ->
  (RecvSource.state_ s = kActive -> RecvSource.work s = 0%nat ->
     (RecvSource.TryArm s).2 = true) /\
  (RecvSource.state_ s = kPaused ->
     RecvSource.queued_events_ s <= RecvSource.ResumeThreshold (RecvSource.options_ s) ->
     (RecvSource.TryResume s).2 = true /\
     RecvSource.queued_events_ s < RecvSource.event_capacity (RecvSource.options_ s)).
Proof.
  intros Ho Hr. pose proof (RecvSource.recv_reachable_inv o s Ho Hr) as Hi.
  pose proof (RecvSource.recv_options_valid _ (RecvSource.inv_options _ Hi)
    (RecvSource.inv_valid _ Hi)) as Hov.
  destruct Hi as [_ _ Hq Ha Hl _]. split.
  - unfold RecvSource.work. intros Hst Hw. unfold RecvSource.TryArm.
    rewrite (proj2 (RecvSource.recv_CanArm_spec s)); [done|].
    assert (Hz : RecvSource.outstanding_leases_ s + RecvSource.armed_requests_ s = 0) by lia.
    cbv zeta. rewrite Hz, !usize_small by (unfold is_usize; lia).
    split_and!; [done|lia..].
  - intros Hst Hth. unfold RecvSource.TryResume. rewrite Hst.
    rewrite bool_decide_eq_true_2 by done. split_if; bool_prop; simpl in *; [done|lia|split; [done|lia]].
Qed.

(** Once [RequestStop] was called on a receive source, it is terminal
    exactly when no request is armed, no event is queued and every lease was
    released, whatever calls follow; a terminal source never changes again; and
    finishing requests, events and leases one by one reaches it. *)
Theorem recv_stop_converges
    (o : RecvSource.RecvSourceOptions) (s : RecvSource.t) (calls : list RecvSource.op) :
  RecvSource.options_in_range o -> RecvSource.reachable o s ->
  let s' := src_run calls (RecvSource.RequestStop s).1 in
  (RecvSource.state_ s' = kTerminal <-> RecvSource.work s' = 0%nat) /\
  (RecvSource.state_ s' = kTerminal -> forall more, src_run more s' = s') /\
  RecvSource.state_ (src_drain_n (RecvSource.work s') s') = kTerminal.
Proof.
  intros Ho Hr.
  pose proof (src_stop_converges (St := RecvSource.t) calls s
    (RecvSource.recv_reachable_inv o s Ho Hr)) as H.
  simpl in H. by destruct (RecvSource.RequestStop s).
Qed.

(** ** Witnesses *)

Module RecvWitness.
Import RecvSource.
Definition opts : RecvSourceOptions := mkOptions 2 16 16 0.
Definition s0 : t := mk opts kIdle 0 0 0.
Definition active : t := (call OStart s0).1.
Definition busy : t :=
  (call (OCompleteMultishotEvent EventDisposition.kProduced MultishotRequestDisposition.kMore)
     (call OTryArm active).1).1.

Lemma recv_opts_in_range : options_in_range opts.
Proof. unfold options_in_range, is_usize, size_max; simpl; lia. Defined.

Lemma recv_active_reachable : reachable opts active.
Proof. apply reachable_call. by apply reachable_create. Defined.

Lemma recv_busy_reachable : reachable opts busy.
Proof. do 2 apply reachable_call. exact recv_active_reachable. Defined.
End RecvWitness.

Lemma recv_source_invariant_witness :
  RecvSource.outstanding_leases_ RecvWitness.busy = 1 /\ RecvSource.inv RecvWitness.busy.
Proof.
  split; [reflexivity|].
  exact (recv_source_invariant _ _ RecvWitness.recv_opts_in_range RecvWitness.recv_busy_reachable).
Defined.

Lemma recv_arm_never_overcommits_witness :
  RecvSource.armed_requests_ (RecvSource.TryArm RecvWitness.busy).1 = 2.
Proof.
  refine (proj1 (recv_arm_never_overcommits RecvWitness.opts RecvWitness.busy
    RecvWitness.recv_opts_in_range RecvWitness.recv_busy_reachable _ _)).
  - vm_compute. discriminate.
  - reflexivity.
Defined.

Lemma recv_drained_source_rearms_witness :
  (RecvSource.TryArm RecvWitness.active).2 = true.
Proof.
  refine (proj1 (recv_drained_source_rearms RecvWitness.opts RecvWitness.active
    RecvWitness.recv_opts_in_range RecvWitness.recv_active_reachable) _ _); reflexivity.
Defined.

Lemma recv_stop_converges_witness :
  let s' := src_run [] (RecvSource.RequestStop RecvWitness.busy).1 in
  RecvSource.state_ s' = kStopping /\
  RecvSource.state_ (src_drain_n (RecvSource.work s') s') = kTerminal.
Proof.
  split; [reflexivity|].
  exact (proj2 (proj2 (recv_stop_converges RecvWitness.opts RecvWitness.busy []
    RecvWitness.recv_opts_in_range RecvWitness.recv_busy_reachable))).
Defined.
