(* ===== verification/BufferLease.v ===== *)
(** * [BufferLease]: a receive buffer is reclaimed exactly once
    (include/alyrn/net/recv_source.h)

    The move-only lease with its special members, over a store of live lease
    objects. Running the reclaim callback is recorded in a log; what the callback
    does belongs to the backend that passed it. *)

From S2P Require Import Prelude.

Module BufferLease.

(** Addresses and function pointers are numbers; [None] is the null pointer. *)
Record t := mk {
  data_ : option Z;
  size_ : Z;
  buffer_id_ : Z;
  context_ : option Z;
  reclaim_ : option Z;
}.

Definition empty : t := mk None 0 0 None None.

Definition construct (data : option Z) (size buffer_id : Z) (context reclaim : option Z) : t :=
  mk data size buffer_id context reclaim.

(** The call [reclaim(context, buffer_id)]. *)
Record call := mkCall { c_fn : Z; c_context : option Z; c_buffer_id : Z }.

Definition Valid (s : t) : bool := bool_decide (is_Some (reclaim_ s)).

Definition Release (s : t) : option call * t :=
  ((fun f => mkCall f (context_ s) (buffer_id_ s)) <$> reclaim_ s, mk None 0 0 None None).

(** The new object and what the moved-from one becomes. *)
Definition move_construct (other : t) : t * t :=
  (mk (data_ other) (size_ other) (buffer_id_ other) (context_ other) (reclaim_ other),
   mk None 0 0 None None).

(** Assignment from another object: release first, then take over. *)
Definition move_assign (self other : t) : option call * t * t :=
  let '(c, _) := Release self in
  (c, mk (data_ other) (size_ other) (buffer_id_ other) (context_ other) (reclaim_ other),
   mk None 0 0 None None).

Definition destroy (s : t) : option call := fst (Release s).

End BufferLease.
Import BufferLease.

(** ** Programs over lease objects *)

Inductive lease_op :=
| LConstruct (k : nat) (l : t)
| LMoveConstruct (k src : nat)
| LMoveAssign (dst src : nat)
| LRelease (k : nat)
| LDestroy (k : nat).

Record heap := mkHeap { live : gmap nat t; log : list call }.

Definition lease_step (op : lease_op) (h : heap) : option heap :=
  match op with
  | LConstruct k l =>
      match live h !! k with
      | Some _ => None
      | None => Some (mkHeap (<[k := construct (data_ l) (size_ l) (buffer_id_ l) (context_ l) (reclaim_ l)]> (live h)) (log h))
      end
  | LMoveConstruct k src =>
      match live h !! k, live h !! src with
      | None, Some o =>
          let '(n, o') := move_construct o in
          Some (mkHeap (<[k := n]> (<[src := o']> (live h))) (log h))
      | _, _ => None
      end
  | LMoveAssign dst src =>
      match live h !! dst, live h !! src with
      | Some d, Some o =>
          if bool_decide (dst = src) then Some h
          else let '(c, d', o') := move_assign d o in
               Some (mkHeap (<[dst := d']> (<[src := o']> (live h))) (log h ++ option_list c))
      | _, _ => None
      end
  | LRelease k =>
      l ← live h !! k;
      let '(c, l') := Release l in Some (mkHeap (<[k := l']> (live h)) (log h ++ option_list c))
  | LDestroy k =>
      l ← live h !! k; Some (mkHeap (delete k (live h)) (log h ++ option_list (destroy l)))
  end.

Fixpoint lease_run (ops : list lease_op) (h : heap) : option heap :=
  match ops with
  | [] => Some h
  | op :: ops => h ← lease_step op h; lease_run ops h
  end.

(** The reclaim calls still owed by the live leases. *)
Definition owed_by (l : t) : list call := option_list (destroy l).
Definition owed (m : gmap nat t) : list call := (map_to_list m).*2 ≫= owed_by.

(** The calls the leases were created with. *)
Definition created (ops : list lease_op) : list call :=
  ops ≫= fun op => match op with LConstruct _ l => owed_by l | _ => [] end.

Lemma owed_insert_new m k l : m !! k = None -> owed (<[k := l]> m) ≡ₚ owed_by l ++ owed m.
Proof. intros H. unfold owed. by rewrite (map_to_list_insert _ _ _ H). Qed.

Lemma owed_delete m k l : m !! k = Some l -> owed m ≡ₚ owed_by l ++ owed (delete k m).
Proof. intros H. unfold owed. by rewrite <- (map_to_list_delete _ _ _ H). Qed.

Lemma owed_update m k l l' :
  m !! k = Some l -> owed_by l ++ owed (<[k := l']> m) ≡ₚ owed_by l' ++ owed m.
Proof.
  intros H. rewrite <- insert_delete_eq, owed_insert_new by apply lookup_delete_eq.
  rewrite (owed_delete m k l H). rewrite !app_assoc. by rewrite (Permutation_app_comm (owed_by l)).
Qed.

Lemma owed_update_empty m k l : m !! k = Some l -> owed m ≡ₚ owed_by l ++ owed (<[k := empty]> m).
Proof. intros H. by rewrite (owed_update m k l empty H). Qed.

(** One step neither loses a call nor makes one twice. *)
Lemma lease_step_conserves op h h' :
  lease_step op h = Some h' ->
  log h' ++ owed (live h') ≡ₚ created [op] ++ log h ++ owed (live h).
Proof.
  destruct op as [k l|k src|dst src|k|k]; simpl; intros E.
  - destruct (live h !! k) eqn:Hk; simplify_eq/=. rewrite owed_insert_new by done.
    destruct l; simpl. unfold created; simpl. rewrite app_nil_r. solve_Permutation.
  - destruct (live h !! k) eqn:Hk; [done|]. destruct (live h !! src) as [o|] eqn:Hs; simplify_eq/=.
    assert (k <> src) by congruence.
    rewrite owed_insert_new by (by rewrite lookup_insert_ne).
    rewrite (owed_update_empty _ src o Hs). destruct o; done.
  - destruct (live h !! dst) as [d|] eqn:Hd; [|done]. destruct (live h !! src) as [o|] eqn:Hs; [|done].
    case_bool_decide as Hne; simplify_eq/=; [done|].
    pose proof (owed_update (<[src := empty]> (live h)) dst d o) as HU.
    rewrite lookup_insert_ne in HU by done. specialize (HU Hd).
    rewrite (owed_update_empty _ src o Hs), <- HU. rewrite <- app_assoc.
    destruct o; done.
  - destruct (live h !! k) as [l|] eqn:Hk; simplify_eq/=.
    rewrite (owed_update_empty _ k l Hk), <- app_assoc. done.
  - destruct (live h !! k) as [l|] eqn:Hk; simplify_eq/=.
    rewrite (owed_delete _ k l Hk), <- app_assoc. done.
Qed.

Lemma lease_run_conserves ops h h' :
  lease_run ops h = Some h' ->
  log h' ++ owed (live h') ≡ₚ created ops ++ log h ++ owed (live h).
Proof.
  revert h. induction ops as [|op ops IH]; intros h E; simpl in E; [by simplify_eq|].
  apply bind_Some in E as (h1 & E1 & E). rewrite (IH _ E), (lease_step_conserves _ _ _ E1).
  unfold created. simpl. rewrite app_nil_r, !app_assoc.
  by rewrite (Permutation_app_comm (ops ≫= _)).
Qed.

(** However leases are constructed, moved, assigned, released and
    destroyed, every buffer handed out is owed or reclaimed, never both and
    never twice; once no lease object is left, the reclaim calls made are
    exactly the ones the leases were created with. *)
Theorem buffer_lease_reclaims_exactly_once ops h :
  lease_run ops (mkHeap ∅ []) = Some h ->
  log h ++ owed (live h) ≡ₚ created ops /\ (live h = ∅ -> log h ≡ₚ created ops).
Proof.
  intros E. pose proof (lease_run_conserves _ _ _ E) as H. simpl in H.
  change (owed ∅) with (@nil call) in H. rewrite app_nil_r in H. split; [done|].
  intros He. rewrite He in H. change (owed ∅) with (@nil call) in H. by rewrite app_nil_r in H.
Qed.

Definition lease_sample : list lease_op :=
  [LConstruct 0 (mk (Some 4096) 10 3 (Some 7) (Some 1)); LConstruct 1 (mk (Some 8192) 5 4 (Some 7) (Some 1));
   LMoveConstruct 2 0; LMoveAssign 2 1; LRelease 2; LDestroy 0; LDestroy 1; LDestroy 2].

Lemma buffer_lease_reclaims_exactly_once_witness :
  exists h, lease_run lease_sample (mkHeap ∅ []) = Some h /\
    [mkCall 1 (Some 7) 3; mkCall 1 (Some 7) 4] ≡ₚ log h.
Proof.
  destruct (lease_run lease_sample (mkHeap ∅ [])) as [h|] eqn:E; [|vm_compute in E; discriminate E].
  exists h. split; [reflexivity|].
  destruct (buffer_lease_reclaims_exactly_once lease_sample h E) as [_ H].
  assert (He : live h = ∅) by (vm_compute in E; injection E as <-; reflexivity).
  specialize (H He). symmetry in H. exact H.
Defined.
