(* ===== verification/Buffer.v ===== *)
(** * [net::Buffer]: a chain of byte blocks (include/alyrn/net/buffer.h)

    A buffer is a list of blocks, each a fixed storage array with a read and a
    write position. Sizes and positions are [nat]: every subtraction of the
    source is on a branch, or under the invariant [wf], where it does not
    underflow, so truncated subtraction agrees with [std::size_t].

    Fresh storage ([new std::byte\[cap\]]) is indeterminate: [NewBlock] fills it
    with an arbitrary byte [junk], and every theorem holds for all of them. An
    [iovec] names a block by its position in the chain and an offset in its
    storage; positions are stable while a reservation is active, because no
    operation that removes blocks is allowed then. Allocation failure
    ([std::bad_alloc]) is not modelled. *)

From Stdlib Require Import Strings.Byte.
From S2P Require Import Prelude.

Module Buffer.
Local Open Scope nat_scope.

#[global] Instance byte_eq_dec : EqDecision byte := Byte.byte_eq_dec.

(** ** Blocks *)

Record Block := mkBlock {
  data : list byte;
  capacity : nat;
  read_pos : nat;
  write_pos : nat;
  reserved_for_write : bool;
}.

Definition blk_ReadableBytes (b : Block) : nat := write_pos b - read_pos b.
Definition blk_WritableBytes (b : Block) : nat := capacity b - write_pos b.

(** The bytes [ReadData()] points to, [ReadableBytes()] of them. *)
Definition blk_view (b : Block) : list byte :=
  take (blk_ReadableBytes b) (drop (read_pos b) (data b)).

(** [memcpy(block->WriteData(), src, n)] with [n] the length of [bs]. *)
Definition blk_memcpy (bs : list byte) (b : Block) : Block :=
  mkBlock (take (write_pos b) (data b) ++ bs ++ drop (write_pos b + length bs) (data b))
          (capacity b) (read_pos b) (write_pos b) (reserved_for_write b).

Definition blk_advance_write (n : nat) (b : Block) : Block :=
  mkBlock (data b) (capacity b) (read_pos b) (write_pos b + n) (reserved_for_write b).
Definition blk_advance_read (n : nat) (b : Block) : Block :=
  mkBlock (data b) (capacity b) (read_pos b + n) (write_pos b) (reserved_for_write b).
Definition blk_set_reserved (r : bool) (b : Block) : Block :=
  mkBlock (data b) (capacity b) (read_pos b) (write_pos b) r.

Record iovec := mkIov { iov_block : nat; iov_off : nat; iov_len : nat }.

(** ** The buffer *)

Record t := mk {
  blocks_ : list Block;
  readable_bytes_ : nat;
  block_size_ : nat;
  write_reserved_ : bool;
  reserved_bytes_ : nat;
}.

Definition set_blocks (bs : list Block) (b : t) : t :=
  mk bs (readable_bytes_ b) (block_size_ b) (write_reserved_ b) (reserved_bytes_ b).

Section ops.
Context (junk : byte).

Definition NewBlock (cap : nat) : Block := mkBlock (replicate cap junk) cap 0 0 false.

Definition Buffer_ (block_size : nat) : t := mk [] 0 (Nat.max block_size 1) false 0.

Definition ReadableBytes (b : t) : nat := readable_bytes_ b.
Definition Empty (b : t) : bool := readable_bytes_ b =? 0.

Fixpoint FirstReadableBlock (bs : list Block) : option Block :=
  match bs with
  | [] => None
  | b :: bs => if 0 <? blk_ReadableBytes b then Some b else FirstReadableBlock bs
  end.

Definition ContiguousView (b : t) : list byte :=
  match FirstReadableBlock (blocks_ b) with
  | None => []
  | Some blk => blk_view blk
  end.

(** *** Searching *)

(** The inner loop of [MatchesFrom]: compare the bytes left in a block with the
    unmatched part of the needle. [None] is a mismatch; otherwise the part of
    the needle still unmatched when the block or the needle ends. *)
Fixpoint match_block (d needle : list byte) : option (list byte) :=
  match d, needle with
  | _, [] => Some []
  | [], _ => Some needle
  | x :: d, y :: needle => if bool_decide (x = y) then match_block d needle else None
  end.

(** [d] holds the bytes of the current block from [index] on. *)
Fixpoint MatchesFrom (d : list byte) (rest : list Block) (needle : list byte) : bool :=
  match match_block d needle with
  | None => false
  | Some [] => true
  | Some needle' =>
      match rest with
      | [] => false
      | blk :: rest => MatchesFrom (blk_view blk) rest needle'
      end
  end.

(** The loop over the bytes of one block, [d] being the bytes from [i] on:
    [Some r] when the search returns [r] there, [None] when it goes on with the
    next block. *)
Fixpoint find_in_block (offset last_start : nat) (rest : list Block) (needle : list byte)
    (i : nat) (d : list byte) : option (option nat) :=
  match d with
  | [] => None
  | x :: d' =>
      if last_start <? offset + i then Some None
      else if bool_decide (Some x = head needle) && MatchesFrom d rest needle
      then Some (Some (offset + i))
      else find_in_block offset last_start rest needle (S i) d'
  end.

Fixpoint find_blocks (from last_start : nat) (needle : list byte) (offset : nat)
    (bs : list Block) : option nat :=
  match bs with
  | [] => None
  | blk :: rest =>
      let i := if offset <? from then from - offset else 0 in
      match find_in_block offset last_start rest needle i (drop i (blk_view blk)) with
      | Some r => r
      | None => find_blocks from last_start needle (offset + blk_ReadableBytes blk) rest
      end
  end.

Definition Find (needle : list byte) (from : nat) (b : t) : option nat :=
  if (readable_bytes_ b <? from) || (readable_bytes_ b - from <? length needle) then None
  else match needle with
       | [] => Some from
       | _ => find_blocks from (readable_bytes_ b - length needle) needle 0 (blocks_ b)
       end.

(** *** Reservations *)

Definition AssertNoWriteReservation (b : t) : outcome unit := ALYRN_CHECK (negb (write_reserved_ b)).

Definition ClearWriteReservation (b : t) : t :=
  if negb (write_reserved_ b) then b
  else mk (blk_set_reserved false <$> blocks_ b) (readable_bytes_ b) (block_size_ b) false 0.

(** The loop of [EnsureTailWritable]. It runs while [writable < hint] and
    [reserved < max_iov]; [fuel] is [max_iov - reserved], so running out of
    fuel is the second exit. *)
Fixpoint ensure_loop (fuel hint writable block_size : nat) (bs : list Block) : list Block :=
  match fuel with
  | 0 => bs
  | S fuel =>
      if writable <? hint then
        let blk := blk_set_reserved true (NewBlock (Nat.max block_size (hint - writable))) in
        ensure_loop fuel hint (writable + blk_WritableBytes blk) block_size (bs ++ [blk])
      else bs
  end.

Definition EnsureTailWritable (hint max_iov : nat) (b : t) : t :=
  match last (blocks_ b) with
  | Some tail =>
      if 0 <? blk_WritableBytes tail then
        set_blocks (ensure_loop (max_iov - 1) hint (blk_WritableBytes tail) (block_size_ b)
          (removelast (blocks_ b) ++ [blk_set_reserved true tail])) b
      else set_blocks (ensure_loop max_iov hint 0 (block_size_ b) (blocks_ b)) b
  | None => set_blocks (ensure_loop max_iov hint 0 (block_size_ b) (blocks_ b)) b
  end.

(** The views of the reserved blocks with room, at most [room] of them. *)
Fixpoint reserved_iov (room i : nat) (bs : list Block) : list iovec :=
  match bs with
  | [] => []
  | blk :: bs =>
      if negb (reserved_for_write blk) then reserved_iov room (S i) bs
      else match room with
           | 0 => []
           | S room' =>
               if blk_WritableBytes blk =? 0 then reserved_iov room (S i) bs
               else mkIov i (write_pos blk) (blk_WritableBytes blk)
                    :: reserved_iov room' (S i) bs
           end
  end.

Definition FillReservedWriteIov (out : nat) (b : t) : list iovec := reserved_iov out 0 (blocks_ b).

Definition iov_total (iovs : list iovec) : nat := sum_list_with iov_len iovs.

(** Both overloads of [PrepareWrite]: they reserve the same blocks and return
    the same views; [max_iov] is the size of the caller's storage. *)
Definition PrepareWrite (hint max_iov : nat) (b : t) : outcome (list iovec * t) :=
  ALYRN_CHECK (negb (write_reserved_ b));;
  if max_iov =? 0 then Val ([], b)
  else
    let hint := if hint =? 0 then block_size_ b else hint in
    let b := EnsureTailWritable hint max_iov
               (mk (blocks_ b) (readable_bytes_ b) (block_size_ b) true 0) in
    let out := FillReservedWriteIov max_iov b in
    let b := mk (blocks_ b) (readable_bytes_ b) (block_size_ b) true (iov_total out) in
    Val (out, match out with [] => ClearWriteReservation b | _ => b end).

Definition ReservedWriteIov (out : nat) (b : t) : outcome (list iovec) :=
  ALYRN_CHECK (write_reserved_ b);; Val (FillReservedWriteIov out b).

Definition TryPrepareWriteOne (hint : nat) (b : t) : outcome (option iovec * t) :=
  ALYRN_CHECK (negb (write_reserved_ b));;
  let hint := if hint =? 0 then block_size_ b else hint in
  let reserve front tail :=
    let bytes := blk_WritableBytes tail in
    ALYRN_CHECK (hint <=? bytes);;
    Val (Some (mkIov (length front) (write_pos tail) bytes),
         mk (front ++ [blk_set_reserved true tail]) (readable_bytes_ b) (block_size_ b) true bytes) in
  match last (blocks_ b) with
  | Some tail =>
      if blk_WritableBytes tail <? hint then Val (None, b)
      else reserve (removelast (blocks_ b)) tail
  | None => reserve (blocks_ b) (NewBlock (Nat.max (block_size_ b) hint))
  end.

(** The loop of [CommitWrite]: the blocks, the bytes published and what remains. *)
Fixpoint commit_loop (remaining : nat) (bs : list Block) : list Block * nat * nat :=
  match bs with
  | [] => ([], 0, remaining)
  | blk :: rest =>
      if negb (reserved_for_write blk) then
        let '(rest, pub, rem) := commit_loop remaining rest in (blk :: rest, pub, rem)
      else if remaining =? 0 then (bs, 0, 0)
      else
        let m := Nat.min remaining (blk_WritableBytes blk) in
        let '(rest, pub, rem) := commit_loop (remaining - m) rest in
        (blk_advance_write m blk :: rest, m + pub, rem)
  end.

Definition CommitWrite (n : nat) (b : t) : outcome t :=
  ALYRN_CHECK (write_reserved_ b);;
  ALYRN_CHECK (n <=? reserved_bytes_ b);;
  let '(bs, pub, remaining) := commit_loop n (blocks_ b) in
  ALYRN_CHECK (remaining =? 0);;
  Val (ClearWriteReservation
         (mk bs (readable_bytes_ b + pub) (block_size_ b) (write_reserved_ b) (reserved_bytes_ b))).

Definition AbortWrite (b : t) : t := ClearWriteReservation b.

(** *** Appending and draining *)

Definition EnsureOneTailBlock (hint : nat) (b : t) : t :=
  match last (blocks_ b) with
  | Some tail =>
      if 0 <? blk_WritableBytes tail then b
      else set_blocks (blocks_ b ++ [NewBlock (Nat.max (block_size_ b) hint)]) b
  | None => set_blocks (blocks_ b ++ [NewBlock (Nat.max (block_size_ b) hint)]) b
  end.

(** One iteration of the loop of [Append]: the bytes left and the new buffer.
    [Panic] stands for dereferencing an absent tail. *)
Definition append_step (bytes : list byte) (b : t) : outcome (list byte * t) :=
  let b := EnsureOneTailBlock (length bytes) b in
  match last (blocks_ b) with
  | None => Panic
  | Some tail =>
      let n := Nat.min (length bytes) (blk_WritableBytes tail) in
      let tail := blk_advance_write n (blk_memcpy (take n bytes) tail) in
      Val (drop n bytes,
           mk (removelast (blocks_ b) ++ [tail]) (readable_bytes_ b + n) (block_size_ b)
              (write_reserved_ b) (reserved_bytes_ b))
  end.

Fixpoint append_loop (fuel : nat) (bytes : list byte) (b : t) : outcome t :=
  match bytes, fuel with
  | [], _ => Val b
  | _, 0 => Panic
  | _, S fuel => '(bytes, b) ← append_step bytes b; append_loop fuel bytes b
  end.

(** Every iteration consumes at least one byte, so as many iterations as there
    are bytes are enough. *)
Definition Append (bytes : list byte) (b : t) : outcome t :=
  AssertNoWriteReservation b;; append_loop (length bytes) bytes b.

Fixpoint drain_loop (n : nat) (bs : list Block) : nat * list Block :=
  match n, bs with
  | 0, _ => (0, bs)
  | _, [] => (0, [])
  | _, front :: rest =>
      let m := Nat.min n (blk_ReadableBytes front) in
      let front := blk_advance_read m front in
      if blk_ReadableBytes front =? 0
      then let '(d, bs) := drain_loop (n - m) rest in (m + d, bs)
      else (m, front :: rest)
  end.

Definition DrainCommitted (n : nat) (b : t) : t :=
  let '(d, bs) := drain_loop n (blocks_ b) in
  mk bs (readable_bytes_ b - d) (block_size_ b) (write_reserved_ b) (reserved_bytes_ b).

Definition Drain (n : nat) (b : t) : outcome t :=
  AssertNoWriteReservation b;; Val (DrainCommitted (Nat.min n (readable_bytes_ b)) b).

Definition Clear (b : t) : t :=
  let b := ClearWriteReservation b in
  mk [] 0 (block_size_ b) (write_reserved_ b) (reserved_bytes_ b).

Definition DrainAll (b : t) : outcome t := AssertNoWriteReservation b;; Val (Clear b).

(** [MoveFromObject]: the destination (whose chain is empty in both callers)
    takes the chain; the source keeps its block size and nothing else. *)
Definition MoveFromObject (self other : t) : outcome (t * t) :=
  ALYRN_CHECK (negb (write_reserved_ other));;
  Val (mk (blocks_ self ++ blocks_ other) (readable_bytes_ other) (block_size_ other) false 0,
       mk [] 0 (block_size_ other) false 0).

Definition move_assign (self other : t) : outcome (t * t) :=
  AssertNoWriteReservation self;; MoveFromObject (Clear self) other.

(** *** Linearizing *)

Fixpoint pop_drained (bs : list Block) : list Block :=
  match bs with
  | [] => []
  | front :: rest => if 0 <? blk_ReadableBytes front then bs else pop_drained rest
  end.

(** The copy loop of [Linearize], [left] bytes still to copy. *)
Fixpoint merge_loop (left : nat) (merged : Block) (bs : list Block) : outcome (Block * list Block) :=
  match left, bs with
  | 0, _ => Val (merged, bs)
  | _, [] => Panic
  | _, front :: rest =>
      let take_ := Nat.min (blk_ReadableBytes front) left in
      let merged := blk_advance_write take_ (blk_memcpy (take take_ (blk_view front)) merged) in
      let front := blk_advance_read take_ front in
      if blk_ReadableBytes front =? 0
      then merge_loop (left - take_) merged rest
      else Val (merged, front :: rest)
  end.

Definition Linearize (n : nat) (b : t) : outcome (list byte * t) :=
  AssertNoWriteReservation b;;
  ALYRN_CHECK (n <=? readable_bytes_ b);;
  if n =? 0 then Val ([], b)
  else
    let bs := pop_drained (blocks_ b) in
    match bs with
    | [] => Panic
    | first :: _ =>
        if n <=? blk_ReadableBytes first then Val (take n (blk_view first), set_blocks bs b)
        else
          '(merged, rest) ← merge_loop n (NewBlock (Nat.max (block_size_ b) n)) bs;
          Val (take n (blk_view merged), set_blocks (merged :: rest) b)
    end.

(** The views of the blocks with readable bytes, at most [room] of them. *)
Fixpoint readable_iov (room i : nat) (bs : list Block) : list iovec :=
  match bs with
  | [] => []
  | blk :: bs =>
      match room with
      | 0 => []
      | S room' =>
          if blk_ReadableBytes blk =? 0 then readable_iov room (S i) bs
          else mkIov i (read_pos blk) (blk_ReadableBytes blk) :: readable_iov room' (S i) bs
      end
  end.

Definition ReadableIov (max_iov : nat) (b : t) : list iovec := readable_iov max_iov 0 (blocks_ b).

End ops.
End Buffer.
