(* ===== verification/BufferProofs.v ===== *)
(** * [net::Buffer] implements a byte queue

    The invariant [wf] of Buffer.v's chain, the abstract contents, and the
    behaviour of every operation as an operation on the contents. *)

From Stdlib Require Import Strings.Byte.
From S2P Require Import Prelude Buffer.
Import Buffer.
Local Open Scope nat_scope.

(** ** Lists *)

Lemma removelast_last {A} (l : list A) x : last l = Some x -> l = removelast l ++ [x].
Proof.
  intros H. apply last_Some in H as [l' ->]. by rewrite removelast_app, app_nil_r by done.
Qed.


Lemma prefix_of_app_iff_drop {A} (n d x : list A) :
  n `prefix_of` d -> n `prefix_of` d ++ x.
Proof. intros [k ->]. exists (k ++ x). by rewrite app_assoc. Qed.

(** ** Well-formed blocks *)

Record blk_wf (b : Block) : Prop := {
  blk_order : read_pos b <= write_pos b <= capacity b;
  blk_storage : length (data b) = capacity b;
}.

Definition contents (bs : list Block) : list byte := concat (blk_view <$> bs).
Definition content (b : t) : list byte := contents (blocks_ b).

(** The unwritten storage of a block. *)
Definition blk_room (b : Block) : list byte := drop (write_pos b) (data b).

Lemma length_blk_view b : blk_wf b -> length (blk_view b) = blk_ReadableBytes b.
Proof.
  intros [H1 H2]. unfold blk_view, blk_ReadableBytes.
  rewrite length_take, length_drop, H2. lia.
Qed.

Lemma blk_view_nil b : blk_wf b -> blk_ReadableBytes b = 0 -> blk_view b = [].
Proof. intros Hw H. apply nil_length_inv. by rewrite length_blk_view. Qed.

Lemma length_blk_room b : blk_wf b -> length (blk_room b) = blk_WritableBytes b.
Proof. intros [H1 H2]. unfold blk_room, blk_WritableBytes. rewrite length_drop. lia. Qed.

Lemma NewBlock_wf junk cap : blk_wf (NewBlock junk cap).
Proof. split; simpl; [lia|]. apply length_replicate. Qed.

Lemma NewBlock_view junk cap : blk_view (NewBlock junk cap) = [].
Proof. apply blk_view_nil; [apply NewBlock_wf|done]. Qed.

Lemma blk_set_reserved_wf r b : blk_wf b -> blk_wf (blk_set_reserved r b).
Proof. intros [??]; by split. Qed.


(** Advancing the write position alone publishes what the storage holds. *)
Lemma advance_write_view b n :
  blk_wf b -> n <= blk_WritableBytes b ->
  blk_wf (blk_advance_write n b) /\
  blk_view (blk_advance_write n b) = blk_view b ++ take n (blk_room b).
Proof.
  intros [Ho Hs] Hl. unfold blk_WritableBytes in *. split.
  { split; simpl; [lia|done]. }
  unfold blk_view, blk_ReadableBytes, blk_room; simpl.
  replace (write_pos b + n - read_pos b) with (write_pos b - read_pos b + n) by lia.
  rewrite <- take_take_drop. do 2 f_equal. rewrite drop_drop. f_equal. lia.
Qed.



(** ** The chain *)

Lemma contents_app bs1 bs2 : contents (bs1 ++ bs2) = contents bs1 ++ contents bs2.
Proof. unfold contents. by rewrite fmap_app, concat_app. Qed.

Lemma contents_cons b bs : contents (b :: bs) = blk_view b ++ contents bs.
Proof. reflexivity. Qed.

Lemma contents_snoc bs b : contents (bs ++ [b]) = contents bs ++ blk_view b.
Proof. rewrite contents_app. unfold contents at 2. simpl. by rewrite app_nil_r. Qed.

Lemma contents_set_reserved r bs : contents (blk_set_reserved r <$> bs) = contents bs.
Proof. unfold contents. rewrite <- list_fmap_compose. done. Qed.

Create Rewrite HintDb buffer.
#[export] Hint Rewrite contents_app contents_cons contents_snoc contents_set_reserved
  NewBlock_view : buffer.

(** An active reservation: the reserved blocks end the chain, have room, and
    all but the first hold nothing. *)
Record reservation (bs : list Block) (reserved : nat) (front res : list Block) : Prop := {
  rsv_split : bs = front ++ res;
  rsv_front : Forall (fun b => reserved_for_write b = false) front;
  rsv_res : Forall (fun b => reserved_for_write b = true /\ 0 < blk_WritableBytes b) res;
  rsv_fresh : Forall (fun b => read_pos b = 0 /\ write_pos b = 0) (tail res);
  rsv_bytes : reserved = sum_list_with blk_WritableBytes res;
}.

Record wf (b : t) : Prop := {
  wf_blocks : Forall blk_wf (blocks_ b);
  wf_readable : readable_bytes_ b = length (content b);
  wf_block_size : 1 <= block_size_ b;
  wf_reservation :
    if write_reserved_ b
    then exists front res, reservation (blocks_ b) (reserved_bytes_ b) front res
    else Forall (fun b => reserved_for_write b = false) (blocks_ b) /\ reserved_bytes_ b = 0;
}.

(** A well-formed buffer without a reservation. *)
Definition idle (b : t) : Prop := wf b /\ write_reserved_ b = false.

Lemma idle_intro bs r k w rb :
  Forall blk_wf bs -> Forall (fun b => reserved_for_write b = false) bs -> 1 <= k ->
  r = length (contents bs) -> w = false -> rb = 0 -> idle (mk bs r k w rb).
Proof. intros ???-> -> ->. split; [split; simpl; auto|done]. Qed.

Lemma idle_elim b :
  idle b ->
  Forall blk_wf (blocks_ b) /\ Forall (fun b => reserved_for_write b = false) (blocks_ b) /\
  1 <= block_size_ b /\ readable_bytes_ b = length (content b) /\
  write_reserved_ b = false /\ reserved_bytes_ b = 0.
Proof. intros [[Hb Hr Hk Hres] Hw]. rewrite Hw in Hres. destruct Hres. auto 10. Qed.

(** ** Append *)

Section append.
Context (junk : byte).




End append.

(** ** Drain *)




(** ** Linearize *)



Section linearize.
Context (junk : byte).

End linearize.

(** ** Find *)

Lemma match_block_spec d needle x :
  match match_block d needle with
  | None => ~ needle `prefix_of` d ++ x
  | Some needle' => needle `prefix_of` d ++ x <-> needle' `prefix_of` x
  end.
Proof.
  revert needle. induction d as [|a d IH]; intros needle; simpl.
  - by destruct needle.
  - destruct needle as [|y needle]; simpl.
    + split; intros _; apply prefix_nil.
    + case_bool_decide as Hxy; simpl.
      * subst a. specialize (IH needle). destruct (match_block d needle).
        -- rewrite <- IH. split; [apply prefix_cons_inv_2|apply prefix_cons].
        -- intros H%prefix_cons_inv_2. done.
      * intros H. by apply prefix_cons_inv_1 in H.
Qed.

Lemma MatchesFrom_spec d rest needle :
  MatchesFrom d rest needle = true <-> needle `prefix_of` d ++ contents rest.
Proof.
  revert d needle. induction rest as [|blk rest IH]; intros d needle; simpl.
  - pose proof (match_block_spec d needle []) as H.
    destruct (match_block d needle) as [[|y n]|].
    + rewrite H. split; [intros _; apply prefix_nil|done].
    + rewrite H. split; [done|]. intros Hp. by apply prefix_nil_inv in Hp.
    + split; [done|]. intros Hp. by destruct H.
  - pose proof (match_block_spec d needle (contents (blk :: rest))) as H.
    destruct (match_block d needle) as [[|y n]|].
    + rewrite H. split; [intros _; apply prefix_nil|done].
    + rewrite H. apply IH.
    + split; [done|]. intros Hp. by destruct H.
Qed.

(** [k] is where the first occurrence of [needle] at or after [lo] starts. *)
Definition occurs (needle s : list byte) (k : nat) : Prop := needle `prefix_of` drop k s.

Lemma occurs_bound needle s k :
  occurs needle s k -> k <= length s -> k + length needle <= length s.
Proof. intros H%prefix_length Hk. rewrite length_drop in H. lia. Qed.

Section find.
Context (needle s : list byte).
Hypothesis Hne : needle <> [].
Hypothesis Hfit : length needle <= length s.
Let last_start := length s - length needle.

Lemma find_in_block_spec offset rest i d :
  drop (offset + i) s = d ++ contents rest -> offset + i + length d <= length s ->
  match find_in_block offset last_start rest needle i d with
  | Some (Some k) => offset + i <= k /\ k <= length s /\ occurs needle s k /\
      (forall j, offset + i <= j < k -> ~ occurs needle s j)
  | Some None => forall j, offset + i <= j <= length s -> ~ occurs needle s j
  | None => forall j, offset + i <= j < offset + i + length d -> ~ occurs needle s j
  end.
Proof.
  revert i. induction d as [|x d IH]; intros i Hd Hlen; simpl; [lia|].
  assert (Hd' : drop (offset + S i) s = d ++ contents rest).
  { replace (offset + S i) with (offset + i + 1) by lia. rewrite <- drop_drop, Hd. done. }
  simpl in Hlen. specialize (IH (S i) Hd' ltac:(lia)).
  destruct (Nat.ltb_spec last_start (offset + i)) as [Hlast|Hlast].
  { intros j Hj Ho. apply occurs_bound in Ho; [|lia]. unfold last_start in *.
    destruct needle; simpl in *; [done|lia]. }
  destruct (bool_decide (Some x = head needle) && MatchesFrom (x :: d) rest needle) eqn:Hm.
  - apply andb_true_iff in Hm as [_ Hm%MatchesFrom_spec]. rewrite <- Hd in Hm.
    split_and!; [lia|lia|done|lia].
  - assert (Hno : ~ occurs needle s (offset + i)).
    { unfold occurs. rewrite Hd. intros Hp. rewrite (proj2 (MatchesFrom_spec _ _ _) Hp) in Hm.
      rewrite andb_true_r in Hm. bool_prop. apply Hm0 || apply Hm.
      destruct needle as [|y n']; [done|]. simpl in *. f_equal. symmetry.
      by apply prefix_cons_inv_1 in Hp. }
    assert (Hsplit : forall j, offset + i <= j -> j = offset + i \/ offset + S i <= j) by lia.
    destruct (find_in_block offset last_start rest needle (S i) d) as [[k|]|].
    + destruct IH as (H1 & H2 & H3 & H4). split_and!; [lia|lia|done|].
      intros j Hj. destruct (Hsplit j ltac:(lia)) as [->|]; [done|]. apply H4. lia.
    + intros j Hj. destruct (Hsplit j ltac:(lia)) as [->|]; [done|]. apply IH. lia.
    + intros j Hj. destruct (Hsplit j ltac:(lia)) as [->|]; [done|]. apply IH. lia.
Qed.

Lemma find_blocks_spec from offset bs :
  Forall blk_wf bs -> drop offset s = contents bs -> offset <= length s ->
  match find_blocks from last_start needle offset bs with
  | Some k => Nat.max from offset <= k /\ k <= length s /\ occurs needle s k /\
      (forall j, Nat.max from offset <= j < k -> ~ occurs needle s j)
  | None => forall j, Nat.max from offset <= j <= length s -> ~ occurs needle s j
  end.
Proof.
  intros Hw. revert offset. induction Hw as [|blk rest Hb Hw IH]; intros offset Hd Ho; simpl.
  { intros j Hj Hoc%occurs_bound; [|lia].
    assert (length (drop offset s) = 0) by (rewrite Hd; done). rewrite length_drop in *.
    destruct needle; simpl in *; [done|lia]. }
  pose proof (length_blk_view blk Hb) as Hlv.
  rewrite contents_cons in Hd.
  assert (Hls : offset + blk_ReadableBytes blk <= length s).
  { rewrite <- Hlv. apply (f_equal length) in Hd. rewrite length_drop, length_app in Hd. lia. }
  assert (Hd' : drop (offset + blk_ReadableBytes blk) s = contents rest).
  { rewrite <- drop_drop, Hd, <- Hlv. by rewrite drop_app_length. }
  specialize (IH _ Hd' Hls).
  set (i := if offset <? from then from - offset else 0).
  assert (Hi : offset + i = Nat.max from offset).
  { unfold i. destruct (Nat.ltb_spec offset from); lia. }
  destruct (decide (i <= blk_ReadableBytes blk)) as [Hin|Hout].
  - pose proof (find_in_block_spec offset rest i (drop i (blk_view blk))) as H.
    rewrite <- drop_drop, Hd, drop_app_le, length_drop, Hlv in H by lia.
    specialize (H eq_refl ltac:(lia)).
    destruct (find_in_block _ _ _ _ _ _) as [[k|]|]; rewrite ?Hi in H; [done|done|].
    assert (Hcase : forall j, Nat.max from offset <= j ->
      j < Nat.max from offset + (blk_ReadableBytes blk - i) \/
      Nat.max from (offset + blk_ReadableBytes blk) <= j) by lia.
    destruct (find_blocks _ _ _ _ _) as [k|].
    + destruct IH as (H1 & H2 & H3 & H4). split_and!; [lia|lia|done|].
      intros j Hj. destruct (Hcase j ltac:(lia)); [apply H; lia|apply H4; lia].
    + intros j Hj. destruct (Hcase j ltac:(lia)); [apply H; lia|apply IH; lia].
  - rewrite drop_ge by lia. simpl.
    replace (Nat.max from offset) with (Nat.max from (offset + blk_ReadableBytes blk)) by lia.
    done.
Qed.
End find.

(** ** Reservations *)

(** The storage a reservation hands out, in order. *)
Definition rooms (bs : list Block) : list byte :=
  concat (blk_room <$> filter (fun b => reserved_for_write b = true) bs).

Definition reserved_ok (b : Block) : Prop :=
  reserved_for_write b = true /\ 0 < blk_WritableBytes b.
Definition fresh (b : Block) : Prop := read_pos b = 0 /\ write_pos b = 0.

Lemma fresh_view b : fresh b -> blk_view b = [].
Proof. intros [Hr Hw]. unfold blk_view, blk_ReadableBytes. by rewrite Hr, Hw. Qed.

Lemma fresh_contents bs : Forall fresh bs -> contents bs = [].
Proof. induction 1; simpl; [done|]. rewrite contents_cons, fresh_view; auto. Qed.

Lemma tail_snoc_fresh res b : Forall fresh (tail res) -> fresh b -> Forall fresh (tail (res ++ [b])).
Proof. destruct res; simpl; [constructor|]. intros. apply Forall_app; auto. Qed.

Section reserve.
Context (junk : byte).

Lemma ensure_loop_spec fuel hint k front res :
  1 <= k -> Forall blk_wf res -> Forall reserved_ok res -> Forall fresh (tail res) ->
  let writable := sum_list_with blk_WritableBytes res in
  exists res', ensure_loop junk fuel hint writable k (front ++ res) = front ++ res' /\
    Forall blk_wf res' /\ Forall reserved_ok res' /\ Forall fresh (tail res') /\
    contents res' = contents res /\ length res' <= length res + fuel /\
    (0 < fuel -> hint <= sum_list_with blk_WritableBytes res') /\
    (res <> [] -> res' <> []).
Proof.
  intros Hk. revert res. induction fuel as [|fuel IH]; intros res Hw Hr Hf; cbn [ensure_loop].
  { exists res. split_and!; auto; lia. }
  destruct (Nat.ltb_spec (sum_list_with blk_WritableBytes res) hint) as [Hlt|Hge].
  - set (blk := blk_set_reserved true _).
    assert (Hroom : blk_WritableBytes blk =
      Nat.max k (hint - sum_list_with blk_WritableBytes res)).
    { change (blk_WritableBytes blk) with
        (Nat.max k (hint - sum_list_with blk_WritableBytes res) - 0). lia. }
    assert (Hb : fresh blk) by done.
    destruct (IH (res ++ [blk])) as (res' & E & Hw' & Hr' & Hf' & Hc' & Hl' & Hh' & Hn').
    + apply Forall_app; split; [done|]. constructor; [|constructor].
      apply blk_set_reserved_wf, NewBlock_wf.
    + apply Forall_app; split; [done|]. constructor; [|constructor]. split; [done|]. lia.
    + by apply tail_snoc_fresh.
    + rewrite <- app_assoc. rewrite sum_list_with_app in E; simpl in E. rewrite Nat.add_0_r in E.
      exists res'. split_and!; auto.
      * rewrite Hc', contents_snoc, (fresh_view blk Hb). by rewrite app_nil_r.
      * rewrite length_app in Hl'. simpl in Hl'. lia.
      * intros _. destruct fuel as [|fuel]; [|apply Hh'; lia].
        simpl in E. apply app_inv_head in E. rewrite <- E, sum_list_with_app. simpl. lia.
      * intros _. apply Hn'. by destruct res.
  - exists res. split_and!; auto; lia.
Qed.

Lemma reserved_iov_spec room i front res :
  Forall (fun b => reserved_for_write b = false) front -> Forall reserved_ok res ->
  length res <= room ->
  let iovs := reserved_iov room i (front ++ res) in
  iov_total iovs = sum_list_with blk_WritableBytes res /\ length iovs = length res.
Proof.
  intros Hf Hr. revert i. induction Hf as [|b front Hb _ IH]; intros i Hl.
  - revert room i Hl. induction Hr as [|b res [Hb Hroom] _ IH]; intros room i Hl; simpl; [done|].
    rewrite Hb. simpl in *. destruct room as [|room]; [lia|].
    destruct (Nat.eqb_spec (blk_WritableBytes b) 0); [lia|].
    destruct (IH room (S i) ltac:(lia)) as [E1 E2]. simpl. unfold iov_total in *. simpl.
    rewrite E1, E2. auto.
  - simpl. rewrite Hb. simpl. by apply IH.
Qed.

Lemma filter_reserved front res :
  Forall (fun b => reserved_for_write b = false) front -> Forall reserved_ok res ->
  filter (fun b => reserved_for_write b = true) (front ++ res) = res.
Proof.
  intros Hf Hr. rewrite filter_app.
  assert (filter (fun b => reserved_for_write b = true) front = []) as ->.
  { clear -Hf. induction Hf as [|b l Hb _ IH]; [done|].
    rewrite filter_cons_False by congruence. done. }
  simpl. induction Hr as [|b l [Hb _] _ IH]; [done|].
  rewrite filter_cons_True by done. by rewrite IH.
Qed.

(** What a reservation promises. *)
Record reserved_buffer (b : t) (b' : t) : Prop := {
  rb_wf : wf b';
  rb_reserved : write_reserved_ b' = true;
  rb_content : content b' = content b;
  rb_block_size : block_size_ b' = block_size_ b;
}.

Lemma PrepareWrite_spec hint max_iov b :
  idle b -> 0 < max_iov ->
  exists iovs b', PrepareWrite junk hint max_iov b = Val (iovs, b') /\
    reserved_buffer b b' /\ reserved_bytes_ b' = iov_total iovs /\
    0 < length iovs <= max_iov /\ (2 <= max_iov -> hint <= iov_total iovs) /\
    iovs = FillReservedWriteIov max_iov b' /\
    length (filter (fun blk => reserved_for_write blk = true) (blocks_ b')) <= max_iov.
Proof.
  intros Hi Hm. destruct (idle_elim b Hi) as (Hw & Hr & Hk & Er & Ew & Eb).
  unfold PrepareWrite. rewrite Ew. simpl. destruct (Nat.eqb_spec max_iov 0) as [|_]; [lia|].
  set (h := if hint =? 0 then block_size_ b else hint).
  assert (Hh : 0 < h /\ hint <= h) by (unfold h; destruct (Nat.eqb_spec hint 0); lia).
  assert (Hens : exists front res,
    blocks_ (EnsureTailWritable junk h max_iov
      (mk (blocks_ b) (readable_bytes_ b) (block_size_ b) true 0)) = front ++ res /\
    Forall blk_wf (front ++ res) /\ Forall (fun b => reserved_for_write b = false) front /\
    Forall reserved_ok res /\ Forall fresh (tail res) /\ res <> [] /\
    contents (front ++ res) = content b /\ length res <= max_iov /\
    (2 <= max_iov -> h <= sum_list_with blk_WritableBytes res)).
  { unfold EnsureTailWritable. simpl.
    assert (Hempty : exists front res,
      ensure_loop junk max_iov h 0 (block_size_ b) (blocks_ b) = front ++ res /\
      Forall blk_wf (front ++ res) /\ Forall (fun b => reserved_for_write b = false) front /\
      Forall reserved_ok res /\ Forall fresh (tail res) /\ res <> [] /\
      contents (front ++ res) = content b /\ length res <= max_iov /\
      (2 <= max_iov -> h <= sum_list_with blk_WritableBytes res)).
    { destruct (ensure_loop_spec max_iov h (block_size_ b) (blocks_ b) [])
        as (res & E & ? & ? & ? & Hc & Hl & Hsum & _); auto; try constructor.
      simpl in E. rewrite app_nil_r in E. exists (blocks_ b), res. split_and!; auto.
      - by apply Forall_app.
      - intros ->. simpl in Hsum. lia.
      - rewrite contents_app, Hc. apply app_nil_r. }
    destruct (last (blocks_ b)) as [tl|] eqn:Hl; [|exact Hempty].
    destruct (Nat.ltb_spec 0 (blk_WritableBytes tl)) as [Hroom|]; [|exact Hempty].
    apply removelast_last in Hl. simpl.
    rewrite Hl in Hw, Hr. apply Forall_app in Hw as [Hwf Hwt]. apply Forall_app in Hr as [Hrf _].
    inversion_clear Hwt as [|?? Ht _].
    destruct (ensure_loop_spec (max_iov - 1) h (block_size_ b) (removelast (blocks_ b))
      [blk_set_reserved true tl]) as (res & E & ? & ? & ? & Hc & Hlen & Hsum & Hn); auto.
    - constructor; [by apply blk_set_reserved_wf|constructor].
    - constructor; [split; [done|exact Hroom]|constructor].
    - simpl in E. rewrite Nat.add_0_r in E. exists (removelast (blocks_ b)), res.
      change (blk_WritableBytes (blk_set_reserved true tl)) with (blk_WritableBytes tl) in E.
      simpl in Hlen. split_and!; auto.
      + by apply Forall_app.
      + rewrite contents_app, Hc. unfold content at 1.
        rewrite Hl at 2. by rewrite contents_app.
      + lia.
      + intros. apply Hsum. lia. }
  destruct Hens as (front & res & E & HW & HF & HR & HT & Hne & HC & HL & HS).
  destruct (reserved_iov_spec max_iov 0 front res HF HR HL) as [Htot Hlen].
  unfold FillReservedWriteIov. rewrite E.
  destruct (reserved_iov max_iov 0 (front ++ res)) as [|v vs] eqn:Ev.
  { destruct res; [done|]. simpl in Hlen. lia. }
  eexists _, _. split; [reflexivity|].
  assert (Hbsz : block_size_ (EnsureTailWritable junk h max_iov
    (mk (blocks_ b) (readable_bytes_ b) (block_size_ b) true 0)) = block_size_ b /\
    readable_bytes_ (EnsureTailWritable junk h max_iov
    (mk (blocks_ b) (readable_bytes_ b) (block_size_ b) true 0)) = readable_bytes_ b).
  { unfold EnsureTailWritable; simpl. destruct (last (blocks_ b)); [|done]. by split_if. }
  destruct Hbsz as [E1 E2]. rewrite E1, E2.
  split_and!; auto; [split; auto|simpl; destruct res; simpl in *; [done|lia]|rewrite Hlen; lia| |].
  - split; simpl; auto; [unfold content; simpl; congruence|].
    exists front, res. split; auto.
  - intros. rewrite Htot. pose proof (HS ltac:(lia)). lia.
  - simpl. rewrite ?E. by rewrite filter_reserved.
Qed.

(** *** Committing *)

Lemma commit_loop_res n res :
  Forall blk_wf res -> Forall reserved_ok res -> Forall fresh (tail res) ->
  n <= sum_list_with blk_WritableBytes res ->
  exists res', commit_loop n res = (res', n, 0) /\ Forall blk_wf res' /\
    contents res' = contents res ++ take n (concat (blk_room <$> res)).
Proof.
  revert n. induction res as [|b res IH]; intros n Hw Hr Hf Hn; simpl.
  { simpl in Hn. assert (n = 0) as -> by lia. by exists []. }
  inversion_clear Hw as [|?? Hb Hw']. inversion_clear Hr as [|?? [Hrb Hroom] Hr'].
  simpl in Hf, Hn. rewrite Hrb. simpl.
  destruct (Nat.eqb_spec n 0) as [->|Hn0].
  { exists (b :: res). split_and!; auto. by rewrite app_nil_r. }
  set (m := Nat.min n (blk_WritableBytes b)).
  destruct (IH (n - m) Hw' Hr') as (res' & E & Hw'' & Hc); [by destruct Hf|lia|].
  rewrite E. eexists. split; [repeat f_equal; lia|].
  destruct (advance_write_view b m Hb ltac:(lia)) as [Hb' Hv].
  split; [by constructor|]. rewrite !contents_cons, Hv, Hc.
  rewrite (fresh_contents res Hf), app_nil_r. simpl.
  pose proof (length_blk_room b Hb) as Hlr.
  rewrite <- app_assoc. f_equal.
  destruct (decide (n <= blk_WritableBytes b)).
  - replace (n - m) with 0 by lia. simpl. rewrite app_nil_r, take_app_le by lia. f_equal. lia.
  - rewrite take_app_ge by lia. rewrite (take_ge (blk_room b)) by lia. do 2 f_equal. lia.
Qed.

Lemma commit_loop_front n front res :
  Forall (fun b => reserved_for_write b = false) front ->
  commit_loop n (front ++ res) =
    let '(res', pub, rem) := commit_loop n res in (front ++ res', pub, rem).
Proof.
  induction 1 as [|b front Hb _ IH]; simpl; [by destruct (commit_loop n res) as [[??]?]|].
  rewrite Hb. simpl. rewrite IH. by destruct (commit_loop n res) as [[??]?].
Qed.

Lemma Forall_unreserve (bs : list Block) :
  Forall blk_wf bs ->
  Forall blk_wf (blk_set_reserved false <$> bs) /\
  Forall (fun b => reserved_for_write b = false) (blk_set_reserved false <$> bs).
Proof.
  intros Hw. split; apply Forall_fmap; [|by apply Forall_true].
  eapply Forall_impl; [done|]. intros b. apply blk_set_reserved_wf.
Qed.

Lemma CommitWrite_spec n b :
  wf b -> write_reserved_ b = true -> n <= reserved_bytes_ b ->
  exists b', CommitWrite n b = Val b' /\ idle b' /\
    content b' = content b ++ take n (rooms (blocks_ b)) /\ block_size_ b' = block_size_ b.
Proof.
  intros [Hw Er Hk Hres] Ew Hn. rewrite Ew in Hres. destruct Hres as (front & res & [Es Hf Hr Ht Hb]).
  unfold CommitWrite. rewrite Ew, (proj2 (Nat.leb_le _ _) Hn). simpl.
  rewrite Es in Hw. apply Forall_app in Hw as [Hwf Hwr].
  destruct (commit_loop_res n res Hwr Hr Ht ltac:(lia)) as (res' & E & Hw' & Hc).
  rewrite Es, commit_loop_front, E by done. simpl.
  eexists. split; [reflexivity|]. unfold ClearWriteReservation; simpl.
  unfold content, rooms; simpl. rewrite contents_set_reserved, Es, filter_reserved by done.
  rewrite !contents_app, Hc, app_assoc. split_and!; auto.
  destruct (Forall_unreserve (front ++ res')) as [HW HR]; [by apply Forall_app|].
  apply idle_intro; auto.
  rewrite contents_set_reserved, contents_app, Hc, app_assoc, length_app, Er.
  unfold content. rewrite Es, contents_app.
  assert (Hrl : length (concat (blk_room <$> res)) = sum_list_with blk_WritableBytes res).
  { clear -Hwr. induction Hwr; simpl; [done|]. rewrite length_app, length_blk_room; auto. }
  rewrite length_take, Hrl. lia.
Qed.

Lemma AbortWrite_spec b :
  wf b -> write_reserved_ b = true ->
  idle (AbortWrite b) /\ content (AbortWrite b) = content b /\
  block_size_ (AbortWrite b) = block_size_ b.
Proof.
  intros [Hw Er Hk _] Ew. unfold AbortWrite, ClearWriteReservation. rewrite Ew. simpl.
  unfold content; simpl. rewrite contents_set_reserved. split_and!; auto.
  destruct (Forall_unreserve (blocks_ b) Hw). apply idle_intro; auto.
  by rewrite contents_set_reserved.
Qed.

Lemma TryPrepareWriteOne_spec hint b :
  idle b ->
  exists r b', TryPrepareWriteOne junk hint b = Val (r, b') /\
    match r with
    | None => b' = b
    | Some iov => reserved_buffer b b' /\ reserved_bytes_ b' = iov_len iov /\ hint <= iov_len iov
    end.
Proof.
  intros Hi. destruct (idle_elim b Hi) as (Hw & Hr & Hk & Er & Ew & Eb).
  unfold TryPrepareWriteOne. rewrite Ew. simpl.
  set (h := if hint =? 0 then block_size_ b else hint).
  assert (Hh : 0 < h /\ hint <= h) by (unfold h; destruct (Nat.eqb_spec hint 0); lia).
  assert (Hgo : forall front tl,
    Forall blk_wf (front ++ [tl]) -> Forall (fun b => reserved_for_write b = false) front ->
    contents (front ++ [tl]) = content b -> h <= blk_WritableBytes tl ->
    reserved_buffer b (mk (front ++ [blk_set_reserved true tl]) (readable_bytes_ b)
      (block_size_ b) true (blk_WritableBytes tl))).
  { intros front tl HW HF HC Hle. apply Forall_app in HW as [HW1 HW2].
    inversion_clear HW2 as [|?? Ht _].
    assert (HC' : contents (front ++ [blk_set_reserved true tl]) = content b)
      by (by rewrite contents_snoc in *).
    split; simpl; auto. split; simpl; auto.
    - apply Forall_app; split; [done|]. constructor; [by apply blk_set_reserved_wf|done].
    - unfold content at 1. simpl. congruence.
    - exists front, [blk_set_reserved true tl]. split; [done|done| |by apply Forall_nil|].
      + constructor; [|constructor]. split; [done|]. unfold blk_WritableBytes in *. simpl. lia.
      + unfold blk_WritableBytes; simpl. lia. }
  destruct (last (blocks_ b)) as [tl|] eqn:Hl.
  - destruct (Nat.ltb_spec (blk_WritableBytes tl) h) as [|Hge]; [by eexists _, _|].
    rewrite (proj2 (Nat.leb_le _ _) Hge). simpl. eexists _, _. split; [reflexivity|].
    simpl. split_and!; [|done|lia]. apply removelast_last in Hl.
    rewrite Hl in Hr. apply Forall_app in Hr as [? _].
    apply Hgo; auto; by rewrite <- Hl.
  - set (tl := NewBlock _ _).
    assert (Hle : h <= blk_WritableBytes tl) by (unfold blk_WritableBytes; simpl; lia).
    rewrite (proj2 (Nat.leb_le _ _) Hle). simpl. eexists _, _. split; [reflexivity|].
    simpl. split_and!; [|done|lia]. apply Hgo; auto.
    + apply Forall_app; split; [done|]. constructor; [apply NewBlock_wf|constructor].
    + rewrite contents_snoc. unfold tl. rewrite NewBlock_view. apply app_nil_r.
Qed.
End reserve.

(** ** The kernel's side: scattering received bytes and gathering sent ones *)

Definition blk_store (off : nat) (bs : list byte) (b : Block) : Block :=
  mkBlock (take off (data b) ++ bs ++ drop (off + length bs) (data b))
          (capacity b) (read_pos b) (write_pos b) (reserved_for_write b).

(** [readv]: fill the views in order with the bytes that arrived. *)
Fixpoint readv (iovs : list iovec) (bs : list byte) (blocks : list Block) : list Block :=
  match iovs with
  | [] => blocks
  | v :: iovs =>
      readv iovs (drop (iov_len v) bs)
        (alter (blk_store (iov_off v) (take (iov_len v) bs)) (iov_block v) blocks)
  end.

(** [writev]: the bytes the views name, in order. *)
Definition writev (iovs : list iovec) (blocks : list Block) : list byte :=
  concat ((fun v => match blocks !! iov_block v with
                    | Some b => take (iov_len v) (drop (iov_off v) (data b))
                    | None => []
                    end) <$> iovs).

Lemma blk_memcpy_room b bs :
  blk_wf b -> length bs <= blk_WritableBytes b ->
  let b' := blk_memcpy bs b in
  blk_wf b' /\ blk_view b' = blk_view b /\ blk_room b' = bs ++ drop (length bs) (blk_room b) /\
  blk_WritableBytes b' = blk_WritableBytes b.
Proof.
  intros [Ho Hs] Hl. unfold blk_WritableBytes in *. split_and!; [| | |done].
  - split; simpl; [done|]. rewrite !length_app, length_take, length_drop. lia.
  - unfold blk_view, blk_ReadableBytes, blk_memcpy; simpl.
    assert (length (take (write_pos b) (data b)) = write_pos b) by (rewrite length_take; lia).
    rewrite drop_app_le by lia. rewrite take_app_le by (rewrite length_drop; lia).
    rewrite skipn_firstn_comm. rewrite take_take. f_equal. lia.
  - unfold blk_room, blk_memcpy; simpl.
    assert (length (take (write_pos b) (data b)) = write_pos b) by (rewrite length_take; lia).
    rewrite drop_app_ge by lia. rewrite H, Nat.sub_diag. simpl. f_equal.
    rewrite drop_drop. done.
Qed.

(** What [readv] leaves behind, block by block. *)
Fixpoint scatter (bs : list byte) (res : list Block) : list Block :=
  match res with
  | [] => []
  | b :: res =>
      blk_memcpy (take (blk_WritableBytes b) bs) b :: scatter (drop (blk_WritableBytes b) bs) res
  end.

Lemma readv_reserved room front res bs :
  Forall (fun b => reserved_for_write b = false) front -> Forall reserved_ok res ->
  length res <= room ->
  readv (reserved_iov room 0 (front ++ res)) bs (front ++ res) = front ++ scatter bs res.
Proof.
  intros Hf Hr Hl.
  assert (Hskip : forall i, reserved_iov room i (front ++ res) =
    reserved_iov room (i + length front) res).
  { clear Hr Hl. induction Hf as [|b front Hb _ IH]; intros i; simpl; [f_equal; lia|].
    rewrite Hb. simpl. rewrite IH. f_equal. lia. }
  rewrite Hskip. simpl. clear Hskip Hf.
  revert front room bs Hl. induction Hr as [|b res [Hb Hroom] _ IH]; intros front room bs Hl;
    simpl; [done|].
  rewrite Hb. simpl in *. destruct room as [|room]; [lia|].
  destruct (Nat.eqb_spec (blk_WritableBytes b) 0); [lia|]. simpl.
  rewrite (alter_app_r_alt _ front) by lia. rewrite Nat.sub_diag. simpl.
  specialize (IH (front ++ [blk_memcpy (take (blk_WritableBytes b) bs) b]) room
    (drop (blk_WritableBytes b) bs) ltac:(lia)).
  rewrite length_app, <- !app_assoc in IH. simpl in IH. rewrite Nat.add_1_r in IH.
  exact IH.
Qed.

Lemma scatter_spec res bs :
  Forall blk_wf res -> Forall reserved_ok res -> Forall fresh (tail res) ->
  let res' := scatter bs res in
  Forall blk_wf res' /\ Forall reserved_ok res' /\ Forall fresh (tail res') /\
  contents res' = contents res /\
  sum_list_with blk_WritableBytes res' = sum_list_with blk_WritableBytes res /\
  (length bs <= sum_list_with blk_WritableBytes res ->
   take (length bs) (concat (blk_room <$> res')) = bs).
Proof.
  assert (Hfr : forall res bs, Forall fresh res -> Forall fresh (scatter bs res)).
  { clear. intros res bs H. revert bs. induction H as [|b res [??] _ IH]; intros bs; simpl;
      constructor; [done|apply IH]. }
  intros Hw. revert bs. induction Hw as [|b res Hb Hw IH]; intros bs Hr Ht; simpl.
  { split_and!; auto. intros Hn. destruct bs; simpl in *; [done|lia]. }
  inversion_clear Hr as [|?? [Hrb Hroom] Hr']. simpl in Ht.
  destruct (IH (drop (blk_WritableBytes b) bs) Hr') as (IW & IR & _ & IC & IS & IT).
  { destruct Ht; simpl; auto. }
  set (d := take (blk_WritableBytes b) bs).
  assert (Hd : length d <= blk_WritableBytes b) by (unfold d; rewrite length_take; lia).
  destruct (blk_memcpy_room b d Hb Hd) as (H1 & H2 & H3 & H4).
  rewrite !contents_cons, H2, H3, H4, IC, IS. split_and!; auto.
  - constructor; [|done]. split; [done|]. by rewrite H4.
  - intros Hle. rewrite <- app_assoc.
    destruct (decide (length bs <= blk_WritableBytes b)).
    + unfold d. rewrite (take_ge bs) by lia. by rewrite take_app_length.
    + assert (Hld : length d = blk_WritableBytes b) by (unfold d; rewrite length_take; lia).
      rewrite (drop_ge (blk_room b)) by (rewrite length_blk_room; [lia|done]). simpl.
      rewrite take_app_ge by lia. rewrite length_drop in IT.
      transitivity (d ++ drop (blk_WritableBytes b) bs); [|apply take_drop].
      f_equal. rewrite Hld. apply IT. lia.
Qed.

(** Filling the views of a reservation changes nothing that is committed and
    makes the bytes a commit will publish. *)
Lemma readv_spec max_iov b bs :
  wf b -> write_reserved_ b = true ->
  length (filter (fun blk => reserved_for_write blk = true) (blocks_ b)) <= max_iov ->
  length bs <= reserved_bytes_ b ->
  let b' := set_blocks (readv (FillReservedWriteIov max_iov b) bs (blocks_ b)) b in
  wf b' /\ write_reserved_ b' = true /\ content b' = content b /\
  take (length bs) (rooms (blocks_ b')) = bs.
Proof.
  intros [Hw Er Hk Hres] Ew Hm Hn. rewrite Ew in Hres.
  destruct Hres as (front & res & [Es Hf Hr Ht Hb]).
  unfold FillReservedWriteIov. rewrite Es in *. rewrite filter_reserved in Hm by done.
  simpl. rewrite readv_reserved by done.
  apply Forall_app in Hw as [Hwf Hwr].
  destruct (scatter_spec res bs Hwr Hr Ht) as (SW & SR & ST & SC & SS & SB).
  unfold content, rooms; simpl. rewrite filter_reserved, Es, !contents_app, SC by done.
  split_and!; auto; [|apply SB; lia].
  split; simpl; auto.
  - by apply Forall_app.
  - rewrite Er. unfold content; simpl. by rewrite Es, !contents_app, SC.
  - rewrite Ew. exists front, (scatter bs res). split; auto. by rewrite SS.
Qed.

(** ** Properties *)

(** [Buffer::Find] returns the first position at or after [from] where the
    needle occurs in the readable bytes, also across block boundaries, and
    nothing exactly when there is no such position. *)
Theorem buffer_find_first b needle from k :
  wf b ->
  Find needle from b = Some k <->
    from <= k /\ k + length needle <= ReadableBytes b /\ occurs needle (content b) k /\
    (forall j, from <= j < k -> ~ occurs needle (content b) j).
Proof.
  intros [Hw Er _ _]. unfold Find, ReadableBytes. rewrite Er.
  destruct (Nat.ltb_spec (length (content b)) from) as [|Hfrom]; simpl; [split; [done|lia]|].
  destruct (Nat.ltb_spec (length (content b) - from) (length needle)) as [|Hfit]; simpl;
    [split; [done|lia]|].
  destruct (decide (needle = [])) as [->|Hne].
  { split; [intros [= <-]; split_and!; [lia|simpl; lia|apply prefix_nil|lia]|].
    intros (H1 & _ & _ & H2). destruct (decide (from = k)) as [->|]; [done|].
    destruct (H2 from ltac:(lia)). apply prefix_nil. }
  pose proof (find_blocks_spec needle (content b) Hne ltac:(lia) from 0 (blocks_ b) Hw
    eq_refl ltac:(lia)) as H.
  rewrite Nat.max_l in H by lia.
  destruct needle as [|y n]; [done|].
  destruct (find_blocks _ _ _ _ _) as [k'|]; split.
  - intros [= <-]. destruct H as (H1 & H2 & H3 & H4). split_and!; auto.
    by apply occurs_bound.
  - intros (H1 & H2 & H3 & H4). destruct H as (H1' & H2' & H3' & H4'). f_equal.
    destruct (Nat.lt_trichotomy k k') as [Hlt|[->|Hlt]]; [|done|].
    + by destruct (H4' k ltac:(lia)).
    + by destruct (H4 k' ltac:(lia)).
  - done.
  - intros (H1 & H2 & H3 & _). by destruct (H k ltac:(lia)).
Qed.

(** [Append], a drain and a second [Append] that spill over several two-byte blocks. *)
Definition buffer_sample : t :=
  match (b ← Append x00 [x61; x62; x63; x0d] (Buffer_ 2); b ← Drain 1 b; Append x00 [x0a; x64; x0d; x0a] b) with
  | Val b => b
  | Panic => Buffer_ 2
  end.

Lemma buffer_sample_wf : wf buffer_sample.
Proof.
  split; [|reflexivity|vm_compute; lia|vm_compute; repeat constructor].
  vm_compute. repeat constructor; simpl; lia.
Qed.

Lemma buffer_find_first_witness :
  wf buffer_sample /\ Find [x0d; x0a] 0 buffer_sample = Some 2 /\
  Find [x0d; x0a] 3 buffer_sample = Some 5.
Proof.
  split; [exact buffer_sample_wf|split].
  - apply (buffer_find_first buffer_sample [x0d; x0a] 0 2 buffer_sample_wf).
    split_and!; [lia|vm_compute; lia|by exists [x64; x0d; x0a]|].
    intros j Hj [k Hk]. do 2 (destruct j as [|j]; [vm_compute in Hk; discriminate|]). lia.
  - reflexivity.
Defined.

(** The read cycle of both backends: reserve, let the kernel fill the views,
    commit what arrived. *)
Definition receive (junk : byte) (hint max_iov : nat) (bs : list byte) (b : t) : outcome t :=
  '(iovs, b) ← PrepareWrite junk hint max_iov b;
  let bs := take (iov_total iovs) bs in
  CommitWrite (length bs) (set_blocks (readv iovs bs (blocks_ b)) b).


(** The reserve-fill-commit cycle: the views [PrepareWrite] hands out can
    be filled by a scatter read and committed without an abort, and the bytes
    appear, in order and unchanged, behind what was readable; the reservation
    is gone afterwards. Aborting it instead restores the buffer's bytes. *)
Theorem buffer_reserve_fill_commit junk hint max_iov bs b :
  idle b -> 0 < max_iov ->
  exists iovs b1, PrepareWrite junk hint max_iov b = Val (iovs, b1) /\
    length iovs <= max_iov /\ (2 <= max_iov -> hint <= iov_total iovs) /\
    idle (AbortWrite b1) /\ content (AbortWrite b1) = content b /\
    (iov_total iovs < length bs -> CommitWrite (length bs) b1 = Panic) /\
    (length bs <= iov_total iovs ->
     exists b2, CommitWrite (length bs) (set_blocks (readv iovs bs (blocks_ b1)) b1) = Val b2 /\
       idle b2 /\ content b2 = content b ++ bs).
Proof.
  intros Hi Hm.
  destruct (PrepareWrite_spec junk hint max_iov b Hi Hm)
    as (iovs & b' & E & [Hw Hr Hc Hk] & Hb & Hl & Hh & Hf & Hn).
  exists iovs, b'. destruct (AbortWrite_spec b' Hw Hr) as (Ha1 & Ha2 & _).
  split_and!; auto; [lia|congruence| |].
  - intros Hlt. unfold CommitWrite. rewrite Hr, Hb, (proj2 (Nat.leb_gt _ _)) by lia. done.
  - intros Hle. destruct (readv_spec max_iov b' bs Hw Hr Hn ltac:(lia)) as (Hw' & Hr' & Hc' & Ht).
    destruct (CommitWrite_spec (length bs) _ Hw' Hr') as (b'' & E' & Hi' & Hcc & _); [simpl; lia|].
    rewrite <- Hf in *. exists b''. rewrite Hcc, Hc', Hc, Ht. auto.
Qed.

Lemma buffer_reserve_fill_commit_witness :
  idle buffer_sample /\
  exists b2, receive x00 5 4 [x31; x32; x33] buffer_sample = Val b2 /\
    content b2 = content buffer_sample ++ [x31; x32; x33].
Proof.
  assert (Hi : idle buffer_sample) by (split; [exact buffer_sample_wf|reflexivity]).
  split; [exact Hi|].
  destruct (buffer_reserve_fill_commit x00 5 4 [x31; x32; x33] buffer_sample Hi ltac:(lia))
    as (iovs & b1 & E & _ & Hh & _ & _ & _ & Hc).
  specialize (Hh ltac:(lia)). destruct Hc as (b2 & E2 & _ & Hc); [simpl; lia|].
  exists b2. split; [|exact Hc]. unfold receive. rewrite E. cbn [mbind outcome_bind].
  rewrite take_ge by (simpl; lia). exact E2.
Defined.











(** ** Sending *)

Definition readable_block (b : Block) : Prop := 0 < blk_ReadableBytes b.

Lemma writev_readable room front bs :
  Forall blk_wf bs ->
  let out := writev (readable_iov room (length front) bs) (front ++ bs) in
  out `prefix_of` contents bs /\
  (length (filter readable_block bs) <= room -> out = contents bs) /\
  (0 < room -> contents bs <> [] -> out <> []).
Proof.
  intros Hw. revert front room. induction Hw as [|b bs Hb Hw IH]; intros front room.
  { simpl. split_and!; auto. }
  specialize (IH (front ++ [b])). rewrite length_app, <- app_assoc in IH. simpl in IH.
  rewrite Nat.add_1_r in IH. rewrite contents_cons. destruct room as [|room].
  { simpl. split_and!; [apply prefix_nil| |lia]. rewrite filter_cons.
    destruct (decide (readable_block b)) as [|Hn]; simpl; [lia|]. intros Hl.
    destruct (IH 0) as (_ & H & _). unfold readable_block in Hn.
    rewrite (blk_view_nil b Hb) by lia. simpl. rewrite <- H by lia.
    by destruct bs. }
  cbn [readable_iov]. destruct (Nat.eqb_spec (blk_ReadableBytes b) 0) as [Hz|Hz].
  - rewrite (blk_view_nil b Hb Hz), filter_cons_False by (unfold readable_block; lia). apply IH.
  - rewrite filter_cons_True by (unfold readable_block; lia). simpl.
    destruct (IH room) as (H1 & H2 & _). unfold writev in *. simpl.
    rewrite list_lookup_middle by done. fold (blk_view b).
    split_and!; [by apply prefix_app|intros; f_equal; apply H2; lia|].
    intros _ _ Hnil. apply (f_equal length) in Hnil.
    rewrite length_app, length_blk_view in Hnil by done. simpl in Hnil. lia.
Qed.

(** A gather write of the views [ReadableIov] returns sends a prefix of the
    buffer's bytes in order, never nothing while bytes and a view are available,
    and all of them when there are enough views. *)
Theorem buffer_readable_iov_gathers max_iov b :
  wf b ->
  let sent := writev (ReadableIov max_iov b) (blocks_ b) in
  sent `prefix_of` content b /\
  (length (filter readable_block (blocks_ b)) <= max_iov -> sent = content b) /\
  (0 < max_iov -> Empty b = false -> sent <> []).
Proof.
  intros [Hw Er _ _]. destruct (writev_readable max_iov [] (blocks_ b) Hw) as (H1 & H2 & H3).
  split_and!; auto. unfold Empty. rewrite Er. intros Hm He%Nat.eqb_neq. apply H3; [done|].
  intros Hn. unfold content in He. by rewrite Hn in He.
Qed.

Lemma buffer_readable_iov_gathers_witness :
  wf buffer_sample /\ writev (ReadableIov 2 buffer_sample) (blocks_ buffer_sample) <> [].
Proof.
  split; [exact buffer_sample_wf|].
  apply (buffer_readable_iov_gathers 2 buffer_sample buffer_sample_wf); [lia|reflexivity].
Defined.
