(* ===== verification/StreamLifecycle.v ===== *)
(** * [StreamLifecycle]: half-close and close of a connected stream
    (include/alyrn/net/detail/stream_lifecycle.h)

    Every transition of the class, and a ledger theorem over arbitrary sequences
    of calls: each half-close right that is granted is used up by exactly one
    commit or abort, each side is shut down at most once, and the validators
    report exactly what the ledger says. *)

From S2P Require Import Prelude.

Module StreamLifecycle.

Module ResourceState.
Variant t := kOpen | kClosing | kClosed.
#[global] Instance t_eq_dec : EqDecision t.
Proof. solve_decision. Defined.
End ResourceState.

Module ReadState.
Variant t := kReadable | kShutdownPreparing | kShutdown.
#[global] Instance t_eq_dec : EqDecision t.
Proof. solve_decision. Defined.
End ReadState.

Module WriteState.
Variant t := kWritable | kShutdownPreparing | kShutdown.
#[global] Instance t_eq_dec : EqDecision t.
Proof. solve_decision. Defined.
End WriteState.

Record t := mk {
  resource_ : ResourceState.t;
  read_ : ReadState.t;
  write_ : WriteState.t;
}.

Definition new : t := mk ResourceState.kOpen ReadState.kReadable WriteState.kWritable.

Definition set_resource (r : ResourceState.t) (s : t) : t := mk r (read_ s) (write_ s).
Definition set_read (r : ReadState.t) (s : t) : t := mk (resource_ s) r (write_ s).
Definition set_write (w : WriteState.t) (s : t) : t := mk (resource_ s) (read_ s) w.

Definition MarkClosed (s : t) : t := set_resource ResourceState.kClosed s.

(** The moved-to object and what the source becomes. *)
Definition move (other : t) : t * t := (other, MarkClosed other).

Definition ValidateResource (s : t) : ResultE unit :=
  match resource_ s with
  | ResourceState.kClosing => Err (Errno ECANCELED)
  | ResourceState.kClosed => Err (Errno EBADF)
  | ResourceState.kOpen => Ok tt
  end.

Definition ValidateRead (s : t) : ResultE unit :=
  match ValidateResource s with
  | Err e => Err e
  | Ok _ =>
      if bool_decide (read_ s = ReadState.kShutdownPreparing) then Err (Errno EBUSY) else Ok tt
  end.

Definition ValidateWrite (s : t) : ResultE unit :=
  match ValidateResource s with
  | Err e => Err e
  | Ok _ =>
      if bool_decide (write_ s = WriteState.kShutdown) then Err (Errno EPIPE)
      else if bool_decide (write_ s = WriteState.kShutdownPreparing) then Err (Errno EBUSY)
      else Ok tt
  end.

Definition IsReadShutdown (s : t) : bool := bool_decide (read_ s = ReadState.kShutdown).

Definition PrepareCloseRead (read_pending : bool) (s : t) : ResultE bool * t :=
  match ValidateRead s with
  | Err e => (Err e, s)
  | Ok _ =>
      if bool_decide (read_ s = ReadState.kShutdown) then (Ok false, s)
      else if bool_decide (read_ s = ReadState.kShutdownPreparing) || read_pending
      then (Err (Errno EBUSY), s)
      else (Ok true, set_read ReadState.kShutdownPreparing s)
  end.

Definition CommitCloseRead (s : t) : outcome t :=
  ALYRN_CHECK (bool_decide (resource_ s = ResourceState.kOpen));;
  ALYRN_CHECK (bool_decide (read_ s = ReadState.kShutdownPreparing));;
  Val (set_read ReadState.kShutdown s).

Definition AbortCloseReadPreparation (s : t) : outcome t :=
  ALYRN_CHECK (bool_decide (resource_ s = ResourceState.kOpen));;
  ALYRN_CHECK (bool_decide (read_ s = ReadState.kShutdownPreparing));;
  Val (set_read ReadState.kReadable s).

Definition PrepareShutdown (write_pending : bool) (s : t) : ResultE bool * t :=
  match ValidateResource s with
  | Err e => (Err e, s)
  | Ok _ =>
      if bool_decide (write_ s = WriteState.kShutdown) then (Ok false, s)
      else if bool_decide (write_ s = WriteState.kShutdownPreparing) then (Err (Errno EBUSY), s)
      else if write_pending then (Err (Errno EBUSY), s)
      else (Ok true, set_write WriteState.kShutdownPreparing s)
  end.

Definition CommitShutdown (s : t) : outcome t :=
  ALYRN_CHECK (bool_decide (resource_ s = ResourceState.kOpen));;
  ALYRN_CHECK (bool_decide (write_ s = WriteState.kShutdownPreparing));;
  Val (set_write WriteState.kShutdown s).

Definition AbortShutdownPreparation (s : t) : outcome t :=
  ALYRN_CHECK (bool_decide (resource_ s = ResourceState.kOpen));;
  ALYRN_CHECK (bool_decide (write_ s = WriteState.kShutdownPreparing));;
  Val (set_write WriteState.kWritable s).

Definition PrepareClose (s : t) : ResultE bool * t :=
  match resource_ s with
  | ResourceState.kClosed => (Ok false, s)
  | ResourceState.kClosing => (Err (Errno EBUSY), s)
  | ResourceState.kOpen =>
      if bool_decide (read_ s = ReadState.kShutdownPreparing) ||
         bool_decide (write_ s = WriteState.kShutdownPreparing)
      then (Err (Errno EBUSY), s)
      else (Ok true, set_resource ResourceState.kClosing s)
  end.

Definition AbortClosePreparation (s : t) : outcome t :=
  ALYRN_CHECK (bool_decide (resource_ s = ResourceState.kClosing));;
  Val (set_resource ResourceState.kOpen s).

End StreamLifecycle.
Import StreamLifecycle.

(** ** Sequences of calls and their ledger *)

Inductive stream_call :=
| CPrepareCloseRead (read_pending : bool) | CCommitCloseRead | CAbortCloseRead
| CPrepareShutdown (write_pending : bool) | CCommitShutdown | CAbortShutdown
| CPrepareClose | CAbortClose | CMarkClosed.

Definition call_run (c : stream_call) (s : t) : outcome (option (ResultE bool) * t) :=
  match c with
  | CPrepareCloseRead p => let '(r, s) := PrepareCloseRead p s in Val (Some r, s)
  | CCommitCloseRead => s ← CommitCloseRead s; Val (None, s)
  | CAbortCloseRead => s ← AbortCloseReadPreparation s; Val (None, s)
  | CPrepareShutdown p => let '(r, s) := PrepareShutdown p s in Val (Some r, s)
  | CCommitShutdown => s ← CommitShutdown s; Val (None, s)
  | CAbortShutdown => s ← AbortShutdownPreparation s; Val (None, s)
  | CPrepareClose => let '(r, s) := PrepareClose s in Val (Some r, s)
  | CAbortClose => s ← AbortClosePreparation s; Val (None, s)
  | CMarkClosed => Val (None, MarkClosed s)
  end.

Fixpoint calls_run (cs : list stream_call) (s : t) : outcome (list (stream_call * option (ResultE bool)) * t) :=
  match cs with
  | [] => Val ([], s)
  | c :: cs => '(r, s) ← call_run c s; '(log, s) ← calls_run cs s; Val ((c, r) :: log, s)
  end.

(** What a log of calls and answers says, without looking at the object. *)
Record side := mkSide { grants : Z; commits : Z; aborts : Z }.
Definition side0 : side := mkSide 0 0 0.
Definition add_grant (x : side) := mkSide (grants x + 1) (commits x) (aborts x).
Definition add_commit (x : side) := mkSide (grants x) (commits x + 1) (aborts x).
Definition add_abort (x : side) := mkSide (grants x) (commits x) (aborts x + 1).

Record ledger := mkLedger { l_read : side; l_write : side; l_closing : bool; l_closed : bool }.

Definition ledger_step (l : ledger) (e : stream_call * option (ResultE bool)) : ledger :=
  match e with
  | (CPrepareCloseRead _, Some (Ok true)) =>
      mkLedger (add_grant (l_read l)) (l_write l) (l_closing l) (l_closed l)
  | (CCommitCloseRead, _) => mkLedger (add_commit (l_read l)) (l_write l) (l_closing l) (l_closed l)
  | (CAbortCloseRead, _) => mkLedger (add_abort (l_read l)) (l_write l) (l_closing l) (l_closed l)
  | (CPrepareShutdown _, Some (Ok true)) =>
      mkLedger (l_read l) (add_grant (l_write l)) (l_closing l) (l_closed l)
  | (CCommitShutdown, _) => mkLedger (l_read l) (add_commit (l_write l)) (l_closing l) (l_closed l)
  | (CAbortShutdown, _) => mkLedger (l_read l) (add_abort (l_write l)) (l_closing l) (l_closed l)
  | (CPrepareClose, Some (Ok true)) => mkLedger (l_read l) (l_write l) true (l_closed l)
  | (CAbortClose, _) => mkLedger (l_read l) (l_write l) false (l_closed l)
  | (CMarkClosed, _) => mkLedger (l_read l) (l_write l) false true
  | _ => l
  end.

Definition ledger_of (log : list (stream_call * option (ResultE bool))) : ledger :=
  foldl ledger_step (mkLedger side0 side0 false false) log.

(** Rights granted and not yet used. *)
Definition held (x : side) : Z := grants x - commits x - aborts x.

(** The object and the ledger agree. *)
Record agrees (s : t) (l : ledger) : Prop := {
  ag_resource : resource_ s =
    if l_closed l then ResourceState.kClosed
    else if l_closing l then ResourceState.kClosing else ResourceState.kOpen;
  ag_read : match read_ s with
            | ReadState.kReadable => commits (l_read l) = 0 /\ held (l_read l) = 0
            | ReadState.kShutdownPreparing => commits (l_read l) = 0 /\ held (l_read l) = 1
            | ReadState.kShutdown => commits (l_read l) = 1 /\ held (l_read l) = 0
            end;
  ag_write : match write_ s with
             | WriteState.kWritable => commits (l_write l) = 0 /\ held (l_write l) = 0
             | WriteState.kShutdownPreparing => commits (l_write l) = 0 /\ held (l_write l) = 1
             | WriteState.kShutdown => commits (l_write l) = 1 /\ held (l_write l) = 0
             end;
  ag_close : l_closing l = true -> l_closed l = false /\
    read_ s <> ReadState.kShutdownPreparing /\ write_ s <> WriteState.kShutdownPreparing;
}.

Lemma call_agrees c s r s' l :
  agrees s l -> call_run c s = Val (r, s') -> agrees s' (ledger_step l (c, r)).
Proof.
  intros [H1 H2 H3 H4] E.
  destruct s as [rs rd wr], l as [[] [] cl cd]; unfold held in *; simpl in *.
  destruct cl, cd; subst rs; destruct c as [[]| | |[]| | | | |], rd, wr; simpl in E;
    simplify_eq; split; unfold held; simpl; first [done | lia | intuition (congruence || lia)].
Qed.

Lemma ledger_snoc log e l : foldl ledger_step l (log ++ [e]) = ledger_step (foldl ledger_step l log) e.
Proof. by rewrite foldl_app. Qed.

Lemma calls_agree cs s l log s' :
  agrees s l -> calls_run cs s = Val (log, s') -> agrees s' (foldl ledger_step l log).
Proof.
  revert s l log. induction cs as [|c cs IH]; intros s l log Ha E; simpl in E.
  { outcome_inv. by simplify_eq. }
  outcome_inv. destruct r as [r s1]. outcome_inv. destruct r0 as [log1 s2]. simplify_eq.
  simpl. eapply IH; [|done]. eapply call_agrees; eauto.
Qed.

(** In any sequence of calls on a stream, half-close rights balance: every
    right granted by a preparation was committed, aborted or is the single one
    still held, each side is shut down at most once, and the validators, the
    close preparation and the commits answer exactly as this ledger says. *)
Theorem stream_half_close_ledger cs log s :
  calls_run cs new = Val (log, s) ->
  let l := ledger_of log in
  (0 <= held (l_read l) <= 1 /\ commits (l_read l) + held (l_read l) <= 1) /\
  (0 <= held (l_write l) <= 1 /\ commits (l_write l) + held (l_write l) <= 1) /\
  (ValidateWrite s = Ok tt <->
     l_closed l = false /\ l_closing l = false /\ commits (l_write l) = 0 /\ held (l_write l) = 0) /\
  (ValidateRead s = Ok tt <-> l_closed l = false /\ l_closing l = false /\ held (l_read l) = 0) /\
  ((exists s', PrepareClose s = (Ok true, s')) <->
     l_closed l = false /\ l_closing l = false /\ held (l_read l) = 0 /\ held (l_write l) = 0) /\
  (no_panic (CommitShutdown s) <->
     l_closed l = false /\ l_closing l = false /\ held (l_write l) = 1) /\
  (no_panic (CommitCloseRead s) <->
     l_closed l = false /\ l_closing l = false /\ held (l_read l) = 1).
Proof.
  intros E l.
  assert (Ha : agrees s l).
  { apply (calls_agree cs new); [|done]. split; unfold held; simpl; done. }
  clearbody l. destruct Ha as [H1 H2 H3 H4].
  destruct s as [rs rd wr], l as [[] [] cl cd]; unfold held in *; simpl in *.
  unfold ValidateWrite, ValidateRead, PrepareClose, ValidateResource, no_panic,
    CommitShutdown, CommitCloseRead; simpl. rewrite H1.
  destruct rd, wr, cl, cd; simpl in *; destruct_and?; split_and!; try lia;
    first [ split; [intros ?; first [done | naive_solver lia] | naive_solver lia] | naive_solver lia ].
Qed.

Definition stream_sample_calls : list stream_call :=
  [CPrepareShutdown false; CPrepareClose; CAbortShutdown; CPrepareShutdown true;
   CPrepareShutdown false; CCommitShutdown; CPrepareShutdown false; CPrepareCloseRead false;
   CCommitCloseRead; CPrepareClose; CAbortClose].

Lemma stream_half_close_ledger_witness :
  exists log s, calls_run stream_sample_calls new = Val (log, s) /\
    commits (l_write (ledger_of log)) = 1 /\ exists s', PrepareClose s = (Ok true, s').
Proof.
  destruct (calls_run stream_sample_calls new) as [[log s]|] eqn:E; [|vm_compute in E; discriminate E].
  exists log, s. pose proof (stream_half_close_ledger _ _ _ E) as (_ & _ & _ & _ & Hc & _).
  vm_compute in E. injection E as <- <-. split_and!; [reflexivity|reflexivity|].
  apply Hc. vm_compute. repeat split.
Defined.
