(* ===== verification/ResultCells.v ===== *)
(** * Compact result cells and close convergence

    The cells an awaiter keeps its result in across a suspension:
    - [ResultState<void>] with [ResultStorage] (include/alyrn/uring/detail/result_state.h),
    - [IoResultState] (include/alyrn/epoll/detail/result_state.h),
    - [ValueResultState<T>] (include/alyrn/backend/value_result_state.h),
    each shown to behave as a plain optional slot through one interface; and
    [CloseState] and [FdCloseConvergence] (include/alyrn/uring/detail/close_state.h,
    fd_close_convergence.h), which authorise closing a descriptor exactly once. *)

From S2P Require Import Prelude.

Lemma bool_decide_is_Some {A} (x : option A) :
  bool_decide (is_Some x) = match x with Some _ => true | None => false end.
Proof.
  destruct x; [apply bool_decide_eq_true_2; eauto|apply bool_decide_eq_false_2; by intros [??]].
Qed.

(** ** The interface: a cell that is a slot in disguise *)

(** [cell_encode v] is the value a reader will see after storing [v], or [None]
    when storing it aborts; [cell_reopens] says whether taking empties the cell;
    [cell_typed v] bounds the integers in [v] by their C++ types. *)
Class ResultCell (C V : Type) := {
  cell_pending : C;
  cell_has : C -> bool;
  cell_set : V -> C -> outcome C;
  cell_take : C -> outcome (V * C);
  cell_encode : V -> option V;
  cell_reopens : bool;
  cell_typed : V -> Prop;
}.

Definition slot_set {V} (encode : V -> option V) (v : V) (x : option V) : outcome (option V) :=
  match x with
  | Some _ => Panic
  | None => match encode v with Some v' => Val (Some v') | None => Panic end
  end.

Definition slot_take {V} (reopens : bool) (x : option V) : outcome (V * option V) :=
  match x with
  | Some v => Val (v, if reopens then None else x)
  | None => Panic
  end.

(** [cell_repr c x]: the cell [c] stores what the slot [x] holds. *)
Class ResultCellLaws (C V : Type) `{ResultCell C V} := {
  cell_repr : C -> option V -> Prop;
  cell_repr_pending : cell_repr cell_pending None;
  cell_repr_has : forall c x, cell_repr c x -> cell_has c = bool_decide (is_Some x);
  cell_repr_set : forall c x v, cell_repr c x -> cell_typed v ->
    match slot_set cell_encode v x with
    | Val x' => exists c', cell_set v c = Val c' /\ cell_repr c' x'
    | Panic => cell_set v c = Panic
    end;
  cell_repr_take : forall c x, cell_repr c x ->
    match slot_take cell_reopens x with
    | Val (v, x') => exists c', cell_take c = Val (v, c') /\ cell_repr c' x'
    | Panic => cell_take c = Panic
    end;
}.

Inductive cell_op (V : Type) := CellSet (v : V) | CellTake | CellHas.
Arguments CellSet {V} v.
Arguments CellTake {V}.
Arguments CellHas {V}.

Definition cell_step {C V} (set : V -> C -> outcome C) (take : C -> outcome (V * C))
    (has : C -> bool) (op : cell_op V) (c : C) : outcome (option V * bool * C) :=
  match op with
  | CellSet v => c ← set v c; Val (None, false, c)
  | CellTake => '(v, c) ← take c; Val (Some v, false, c)
  | CellHas => Val (None, has c, c)
  end.

Fixpoint cell_run {C V} (step : cell_op V -> C -> outcome (option V * bool * C))
    (ops : list (cell_op V)) (c : C) : outcome (list (option V * bool)) :=
  match ops with
  | [] => Val []
  | op :: ops => '(o, h, c) ← step op c; os ← cell_run step ops c; Val ((o, h) :: os)
  end.

Definition op_typed C {V} `{ResultCell C V} (op : cell_op V) : Prop :=
  match op with CellSet v => cell_typed v | _ => True end.

Definition run_cell C {V} `{ResultCell C V} (ops : list (cell_op V)) : outcome (list (option V * bool)) :=
  cell_run (cell_step (C := C) cell_set cell_take cell_has) ops cell_pending.

Definition run_slot {V} (encode : V -> option V) (reopens : bool) (ops : list (cell_op V))
    : outcome (list (option V * bool)) :=
  cell_run (cell_step (slot_set encode) (slot_take reopens) (fun x => bool_decide (is_Some x))) ops None.

Lemma run_cell_is_slot C V `{ResultCellLaws C V} (ops : list (cell_op V)) :
  Forall (op_typed C) ops ->
  run_cell C ops = run_slot (cell_encode (C := C)) (cell_reopens (C := C) (V := V)) ops.
Proof.
  intros Ht. unfold run_cell, run_slot.
  assert (Hgen : forall c x, cell_repr c x ->
    cell_run (cell_step (C := C) cell_set cell_take cell_has) ops c =
    cell_run (cell_step (slot_set (cell_encode (C := C))) (slot_take (cell_reopens (C := C) (V := V)))
      (fun x => bool_decide (is_Some x))) ops x); [|apply Hgen, cell_repr_pending].
  induction Ht as [|op ops Hop Ht IH]; intros c x Hr; [done|].
  destruct op as [v| |]; cbn [cell_run cell_step].
  - pose proof (cell_repr_set c x v Hr Hop) as E.
    destruct (slot_set _ v x) as [x'|]; [destruct E as (c' & -> & Hr')|by rewrite E].
    simpl. by rewrite (IH _ _ Hr').
  - pose proof (cell_repr_take c x Hr) as E.
    destruct (slot_take _ x) as [[v x']|]; [destruct E as (c' & -> & Hr')|by rewrite E].
    simpl. by rewrite (IH _ _ Hr').
  - simpl. by rewrite (IH _ _ Hr), (cell_repr_has c x Hr).
Qed.

(** The value of a [std::error_code] is an [int]. *)
Definition error_typed (e : Error) : Prop := - 2 ^ 31 <= err_value e <= 2 ^ 31 - 1.
Definition result_typed {T} (r : ResultE T) : Prop :=
  match r with Ok _ => True | Err e => error_typed e end.

(** ** uring: [ResultStorage] and [ResultState<void>] *)

Module ResultStorage.
Definition kPending : Z := - 2 ^ 31.

Record t := mk { encoded_ : Z }.
Definition new : t := mk kPending.

Definition IsImmediate (s : t) : bool := negb (encoded_ s =? kPending).

Definition SetSuccess (s : t) : outcome t :=
  ALYRN_CHECK (negb (IsImmediate s));; Val (mk 0).

Definition SetError (error : Error) (s : t) : outcome t :=
  ALYRN_CHECK (negb (IsImmediate s));;
  ALYRN_CHECK ((0 <? err_value error) && negb (err_value error =? kPending));;
  Val (mk (err_value error)).

Definition SetResult {T} (result : ResultE T) (s : t) : outcome t :=
  match result with
  | Ok _ => SetSuccess s
  | Err e => SetError e s
  end.

(** [ResultState<void>::Take], which leaves the cell as it is. *)
Definition Take (s : t) : outcome (ResultE unit) :=
  ALYRN_CHECK (IsImmediate s);;
  Val (if encoded_ s =? 0 then Ok tt else Err (Errno (encoded_ s))).
End ResultStorage.

(** Only the errno survives: the reader gets it in the system category. *)
Definition encode_errno (r : ResultE unit) : option (ResultE unit) :=
  match r with
  | Ok _ => Some (Ok tt)
  | Err e => if 0 <? err_value e then Some (Err (Errno (err_value e))) else None
  end.

#[global] Instance uring_result_cell : ResultCell ResultStorage.t (ResultE unit) := {
  cell_pending := ResultStorage.new;
  cell_has := ResultStorage.IsImmediate;
  cell_set := ResultStorage.SetResult;
  cell_take s := r ← ResultStorage.Take s; Val (r, s);
  cell_encode := encode_errno;
  cell_reopens := false;
  cell_typed := result_typed;
}.

#[global] Program Instance uring_result_cell_laws : ResultCellLaws ResultStorage.t (ResultE unit) := {
  cell_repr c x := match x with
                   | None => ResultStorage.encoded_ c = ResultStorage.kPending
                   | Some (Ok _) => ResultStorage.encoded_ c = 0
                   | Some (Err e) => 0 < ResultStorage.encoded_ c /\ e = Errno (ResultStorage.encoded_ c)
                   end;
}.
Next Obligation. done. Qed.
Next Obligation.
  intros [c] x; simpl. unfold ResultStorage.IsImmediate, ResultStorage.kPending; simpl.
  destruct x as [[[]|e]|]; intros H; destruct_and?; subst; simpl;
    rewrite ?bool_decide_is_Some; try done.
  by rewrite (proj2 (Z.eqb_neq c _)) by lia.
Qed.
Next Obligation.
  intros [c] x v Hr _; revert Hr; simpl. unfold ResultStorage.SetResult, ResultStorage.SetError, ResultStorage.SetSuccess,
    ResultStorage.IsImmediate, ResultStorage.kPending in *; simpl.
  destruct x as [[[]|e]|]; intros H; destruct_and?; subst; simpl.
  - by destruct v.
  - rewrite (proj2 (Z.eqb_neq c _)) by lia. by destruct v.
  - destruct v as [[]|[val cat]]; simpl; [by eexists|].
    destruct (Z.ltb_spec 0 val); simpl; [|done].
    rewrite (proj2 (Z.eqb_neq val _)) by lia. by eexists.
Qed.
Next Obligation.
  intros [c] x; simpl. unfold ResultStorage.Take, ResultStorage.IsImmediate, ResultStorage.kPending in *; simpl.
  destruct x as [[[]|e]|]; intros H; destruct_and?; subst; simpl; [by eexists| |done].
  rewrite (proj2 (Z.eqb_neq c (- 2 ^ 31))) by lia. simpl. rewrite (proj2 (Z.eqb_neq c 0)) by lia. by eexists.
Qed.

(** ** epoll: [IoResultState] *)

Module IoResultState.
Definition int64_max : Z := 2 ^ 63 - 1.
Definition kPending : Z := - 2 ^ 63.

Record t := mk { encoded_ : Z }.
Definition new : t := mk kPending.

Definition HasResult (s : t) : bool := negb (encoded_ s =? kPending).

Definition SetSuccess (bytes : N) (s : t) : outcome t :=
  ALYRN_CHECK (negb (HasResult s));;
  ALYRN_CHECK (Z.of_N bytes <=? int64_max);;
  Val (mk (Z.of_N bytes)).

Definition SetError (error : Error) (s : t) : outcome t :=
  ALYRN_CHECK (negb (HasResult s));;
  ALYRN_CHECK (bool_decide (err_category error = system_category));;
  ALYRN_CHECK (0 <? err_value error);;
  Val (mk (- err_value error)).

Definition SetResult (result : ResultE N) (s : t) : outcome t :=
  match result with
  | Ok bytes => SetSuccess bytes s
  | Err e => SetError e s
  end.

Definition Take (s : t) : outcome (ResultE N * t) :=
  ALYRN_CHECK (HasResult s);;
  Val (if 0 <=? encoded_ s then Ok (Z.to_N (encoded_ s)) else Err (Errno (- encoded_ s)), mk kPending).
End IoResultState.

Definition io_encode (r : ResultE N) : option (ResultE N) :=
  match r with
  | Ok bytes => if Z.of_N bytes <=? IoResultState.int64_max then Some r else None
  | Err e => if bool_decide (err_category e = system_category) && (0 <? err_value e) then Some r else None
  end.

#[global] Instance io_result_cell : ResultCell IoResultState.t (ResultE N) := {
  cell_pending := IoResultState.new;
  cell_has := IoResultState.HasResult;
  cell_set := IoResultState.SetResult;
  cell_take := IoResultState.Take;
  cell_encode := io_encode;
  cell_reopens := true;
  cell_typed := result_typed;
}.

Definition io_repr (c : IoResultState.t) (x : option (ResultE N)) : Prop :=
  match x with
  | None => IoResultState.encoded_ c = IoResultState.kPending
  | Some (Ok n) => IoResultState.encoded_ c = Z.of_N n
  | Some (Err e) => IoResultState.kPending < IoResultState.encoded_ c < 0 /\
                    e = Errno (- IoResultState.encoded_ c)
  end.

Lemma io_repr_has c x :
  io_repr c x -> IoResultState.HasResult c = bool_decide (is_Some x).
Proof.
  destruct c as [c]. unfold io_repr, IoResultState.HasResult, IoResultState.kPending; simpl.
  destruct x as [[n|e]|]; intros H; destruct_and?; subst; simpl;
    rewrite ?bool_decide_is_Some; try done;
    by rewrite (proj2 (Z.eqb_neq _ _)) by lia.
Qed.

#[global] Program Instance io_result_cell_laws : ResultCellLaws IoResultState.t (ResultE N) := {
  cell_repr := io_repr;
}.
Next Obligation. done. Qed.
Next Obligation. apply io_repr_has. Qed.
Next Obligation.
  intros c x v Hr Ht. simpl. pose proof (io_repr_has c x Hr) as Hh.
  unfold IoResultState.SetResult, IoResultState.SetSuccess, IoResultState.SetError. rewrite Hh, bool_decide_is_Some.
  destruct x as [w|]; [by destruct v|].
  destruct v as [n|[val cat]]; unfold io_repr; simpl.
  - split_if; [by eexists|done].
  - destruct cat; simpl; [|done]. destruct (Z.ltb_spec 0 val); simpl; [|done].
    eexists; split; [done|]. 
    assert (val <= 2 ^ 31 - 1) by apply Ht.
    split; [unfold IoResultState.kPending; simpl; lia|].
    unfold Errno; simpl. by rewrite Z.opp_involutive.
Qed.
Next Obligation.
  intros c x Hr. simpl. pose proof (io_repr_has c x Hr) as Hh.
  unfold IoResultState.Take. rewrite Hh, bool_decide_is_Some. destruct x as [w|]; simpl; [|done].
  exists IoResultState.new; split; [|done]. do 2 f_equal. destruct w as [n|e]; simpl in Hr.
  - rewrite (proj2 (Z.leb_le _ _)) by lia. rewrite Hr. by rewrite N2Z.id.
  - destruct Hr as [Hr ->]. by rewrite (proj2 (Z.leb_gt _ _)) by lia.
Qed.

(** ** [ValueResultState<T>] *)

Module ValueResultState.
Section ops.
Context {T : Type}.

(** The union's active member follows the tag: reading the other one would be
    undefined behaviour, so the tag and the member are one sum. *)
Inductive t := kPending | kValue (value : T) | kError (error : Error).

Definition HasResult (s : t) : bool := match s with kPending => false | _ => true end.

Definition SetError (error : Error) (s : t) : outcome t :=
  ALYRN_CHECK (negb (HasResult s));; Val (kError error).

Definition SetResult (result : ResultE T) (s : t) : outcome t :=
  ALYRN_CHECK (negb (HasResult s));;
  Val (match result with Ok v => kValue v | Err e => kError e end).

Definition Take (s : t) : outcome (ResultE T * t) :=
  ALYRN_CHECK (HasResult s);;
  match s with
  | kError e => Val (Err e, kPending)
  | kValue v => Val (Ok v, kPending)
  | kPending => Panic
  end.

(** The destructor's cleanup. *)
Definition Reset (s : t) : t := kPending.
End ops.
Arguments t : clear implicits.
End ValueResultState.

#[global] Instance value_result_cell (T : Type) : ResultCell (ValueResultState.t T) (ResultE T) := {
  cell_pending := ValueResultState.kPending;
  cell_has := ValueResultState.HasResult;
  cell_set := ValueResultState.SetResult;
  cell_take := ValueResultState.Take;
  cell_encode := Some;
  cell_reopens := true;
  cell_typed := fun _ => True;
}.

#[global] Program Instance value_result_cell_laws (T : Type) :
    ResultCellLaws (ValueResultState.t T) (ResultE T) := {
  cell_repr c x := c = match x with
                       | None => ValueResultState.kPending
                       | Some (Ok v) => ValueResultState.kValue v
                       | Some (Err e) => ValueResultState.kError e
                       end;
}.
Next Obligation. done. Qed.
Next Obligation. intros T c [[v|e]|] ->; by rewrite bool_decide_is_Some. Qed.
Next Obligation. intros T c [[v|e]|] [v'|e'] -> _; naive_solver. Qed.
Next Obligation. intros T c [[v|e]|] ->; naive_solver. Qed.

(** The three result cells are faithful slots: whatever sequence of stores,
    reads and tests runs on one, the values read, the tests and the aborts are
    those of a plain optional slot that holds the encoded value. A second store
    before a read and a read before a store abort in all of them; the epoll and
    the value cell reopen on a read, the io_uring cell does not and keeps an
    error's number only. *)
Theorem result_cells_refine_slot (T : Type)
    (ops1 : list (cell_op (ResultE unit))) (ops2 : list (cell_op (ResultE N)))
    (ops3 : list (cell_op (ResultE T))) :
  Forall (op_typed ResultStorage.t) ops1 -> Forall (op_typed IoResultState.t) ops2 ->
  run_cell ResultStorage.t ops1 = run_slot encode_errno false ops1 /\
  run_cell IoResultState.t ops2 = run_slot io_encode true ops2 /\
  run_cell (ValueResultState.t T) ops3 = run_slot Some true ops3.
Proof.
  intros H1 H2. split_and!.
  - exact (run_cell_is_slot ResultStorage.t (ResultE unit) ops1 H1).
  - exact (run_cell_is_slot IoResultState.t (ResultE N) ops2 H2).
  - refine (run_cell_is_slot (ValueResultState.t T) (ResultE T) ops3 _).
    apply Forall_true. by intros [].
Qed.

Definition io_sample_ops : list (cell_op (ResultE N)) :=
  [CellSet (Ok 7%N); CellHas; CellTake; CellSet (Err (Errno EPIPE)); CellTake; CellHas].

Lemma result_cells_refine_slot_witness :
  Forall (op_typed IoResultState.t) io_sample_ops /\
  run_cell IoResultState.t io_sample_ops =
    Val [(None, false); (None, true); (Some (Ok 7%N), false); (None, false);
         (Some (Err (Errno EPIPE)), false); (None, false)].
Proof.
  assert (H : Forall (op_typed IoResultState.t) io_sample_ops).
  { repeat constructor; vm_compute; discriminate. }
  split; [exact H|].
  destruct (result_cells_refine_slot nat [] io_sample_ops [] (Forall_nil_2 _) H) as (_ & E & _).
  rewrite E. reflexivity.
Defined.

(** ** [CloseState] and [FdCloseConvergence] *)

Module FdCloseConvergence.
Definition kCancelRequestTerminalBit : Z := Z.shiftl 1 0.
Definition kCompletedBit : Z := Z.shiftl 1 1.

(** [CloseState] and the continuation handle. *)
Record t := mk { result_ : ResultStorage.t; flags_ : Z; continuation_ : option Z }.
Definition new : t := mk ResultStorage.new 0 None.

Definition SetResult (result : ResultE unit) (s : t) : outcome t :=
  r ← ResultStorage.SetResult result (result_ s); Val (mk r (flags_ s) (continuation_ s)).
Definition HasResult (s : t) : bool := ResultStorage.IsImmediate (result_ s).
Definition TakeResult (s : t) : outcome (ResultE unit) := ResultStorage.Take (result_ s).

Definition CancelRequestTerminal (s : t) : bool :=
  negb (Z.land (flags_ s) kCancelRequestTerminalBit =? 0).
Definition Completed (s : t) : bool := negb (Z.land (flags_ s) kCompletedBit =? 0).
Definition MarkCancelRequestTerminal (s : t) : t :=
  mk (result_ s) (Z.lor (flags_ s) kCancelRequestTerminalBit) (continuation_ s).
Definition MarkCompleted (s : t) : t :=
  mk (result_ s) (Z.lor (flags_ s) kCompletedBit) (continuation_ s).
Definition BeginWaiting (continuation : option Z) (s : t) : t :=
  mk (result_ s) (flags_ s) continuation.

Definition TryAuthorizeClose (operations_pending : bool) (s : t) : bool * t :=
  if Completed s || negb (CancelRequestTerminal s) || operations_pending then (false, s)
  else (true, MarkCompleted s).
End FdCloseConvergence.
Import FdCloseConvergence.

Inductive close_call :=
| CloseSetResult (r : ResultE unit)
| CloseBeginWaiting (h : Z)
| CloseCancelTerminal
| CloseTry (operations_pending : bool).

#[global] Instance close_call_eq_dec : EqDecision close_call.
Proof. solve_decision. Defined.

Definition close_step (c : close_call) (s : t) : outcome (bool * t) :=
  match c with
  | CloseSetResult r => s ← SetResult r s; Val (false, s)
  | CloseBeginWaiting h => Val (false, BeginWaiting (Some h) s)
  | CloseCancelTerminal => Val (false, MarkCancelRequestTerminal s)
  | CloseTry p => Val (TryAuthorizeClose p s)
  end.

Fixpoint close_run (cs : list close_call) (s : t) : outcome (list bool * t) :=
  match cs with
  | [] => Val ([], s)
  | c :: cs => '(b, s) ← close_step c s; '(bs, s) ← close_run cs s; Val (b :: bs, s)
  end.

(** The flag byte says exactly what happened: bit 0 a terminal cancel request,
    bit 1 an authorised close. *)
Definition flags_of (terminal completed : bool) : Z :=
  (if terminal then 1 else 0) + (if completed then 2 else 0).

Lemma close_step_flags c s b s' terminal completed :
  flags_ s = flags_of terminal completed -> close_step c s = Val (b, s') ->
  b = match c with CloseTry p => terminal && negb p && negb completed | _ => false end /\
  flags_ s' = flags_of (terminal || bool_decide (c = CloseCancelTerminal)) (completed || b).
Proof.
  intros Hf E. destruct s as [r f k]; simpl in Hf; subst f.
  destruct c as [r'|h| |p]; simpl in E.
  - unfold SetResult in E. simpl in E. outcome_inv. simplify_eq. simpl.
    by destruct terminal, completed.
  - injection E as <- <-. by destruct terminal, completed.
  - injection E as <- <-. by destruct terminal, completed.
  - destruct terminal, completed, p; vm_compute in E; injection E as <- <-; done.
Qed.

Lemma close_run_cons c cs s bs s' :
  close_run (c :: cs) s = Val (bs, s') ->
  exists b s1 bs', close_step c s = Val (b, s1) /\ close_run cs s1 = Val (bs', s') /\ bs = b :: bs'.
Proof.
  simpl. destruct (close_step c s) as [[b s1]|]; [|done]. simpl.
  destruct (close_run cs s1) as [[bs' s2]|] eqn:E; [|done]. simpl. intros [= <- <-].
  by exists b, s1, bs'.
Qed.

Lemma close_run_snoc cs c s bs b s' :
  close_run (cs ++ [c]) s = Val (bs ++ [b], s') ->
  exists s1, close_run cs s = Val (bs, s1) /\ close_step c s1 = Val (b, s').
Proof.
  revert s bs. induction cs as [|c' cs IH]; intros s bs E; cbn [app] in E;
    apply close_run_cons in E as (b' & s1 & bs' & E1 & E2 & Eb).
  - simpl in E2. simplify_eq. destruct bs as [|? [|]]; simplify_eq/=. by exists s.
  - destruct bs as [|b1 bs]; simplify_eq/=.
    + destruct cs; cbn [app] in E2; by apply close_run_cons in E2 as (? & ? & ? & _ & _ & ?).
    + destruct (IH _ _ E2) as (s3 & E & E'). exists s3. by rewrite E1; simpl; rewrite E.
Qed.

Lemma close_run_flags cs s bs s' terminal completed :
  flags_ s = flags_of terminal completed -> close_run cs s = Val (bs, s') ->
  flags_ s' = flags_of (terminal || bool_decide (CloseCancelTerminal ∈ cs))
                       (completed || bool_decide (true ∈ bs)).
Proof.
  revert s bs terminal completed.
  induction cs as [|c cs IH]; intros s bs terminal completed Hf E.
  - simpl in E. injection E as <- <-. rewrite !bool_decide_eq_false_2 by set_solver. by rewrite !orb_false_r.
  - apply close_run_cons in E as (b & s1 & bs1 & E1 & E2 & ->).
    destruct (close_step_flags c s b s1 terminal completed Hf E1) as [_ Hf1].
    rewrite (IH _ _ _ _ Hf1 E2), <- !orb_assoc. f_equal; f_equal.
    + rewrite <- bool_decide_or. apply bool_decide_ext. set_solver.
    + apply eq_iff_eq_true. rewrite orb_true_iff, !bool_decide_eq_true. set_solver.
Qed.

(** A descriptor close is authorised exactly once, and exactly when it is
    safe: an attempt succeeds if and only if the cancel request had already
    reached its terminal state, no operation on the descriptor is pending, and
    no earlier attempt succeeded. Result stores and waiting change nothing of this. *)
Theorem fd_close_authorized_exactly_once cs operations_pending bs b s :
  close_run (cs ++ [CloseTry operations_pending]) new = Val (bs ++ [b], s) ->
  b = true <-> CloseCancelTerminal ∈ cs /\ operations_pending = false /\ true ∉ bs.
Proof.
  intros E. apply close_run_snoc in E as (s1 & E & E').
  pose proof (close_run_flags cs new bs s1 false false eq_refl E) as Hf. simpl in Hf.
  destruct (close_step_flags _ _ _ _ _ _ Hf E') as [-> _].
  rewrite !andb_true_iff, !negb_true_iff, bool_decide_eq_true, bool_decide_eq_false. tauto.
Qed.

Lemma fd_close_authorized_exactly_once_witness :
  exists s, close_run ([CloseTry false; CloseCancelTerminal; CloseTry true] ++ [CloseTry false]) new
    = Val ([false; false; false] ++ [true], s) /\ true ∉ [false; false; false].
Proof.
  eexists. assert (E : close_run ([CloseTry false; CloseCancelTerminal; CloseTry true] ++ [CloseTry false]) new
    = Val ([false; false; false] ++ [true], mk ResultStorage.new 3 None)) by reflexivity.
  split; [exact E|].
  apply (fd_close_authorized_exactly_once _ _ _ _ _ E). reflexivity.
Defined.
