(* ===== verification/Channel.v ===== *)
(** * Channels and select (include/alyrn/coro/channel.h, select.h, select_case.h)

    The objects of these files live in one store, a [world]: channels, the
    awaiters of plain sends and receives, the awaiters of selects with their
    registrations, the optionals receives write to, and the scheduler's queue
    of continuations. A channel's waiter queues hold references to waiters; the
    virtual calls of [ChannelSendWaiter] and [ChannelReceiveWaiter] become case
    distinctions on such a reference. A failing [ALYRN_CHECK], and a reference
    to an object that does not exist, is a [Panic].

    The intrusive waiter queues are lists here (IntrusiveQueue.v relates the two).
    [w_trace] is ghost state: it records the values a channel took over
    and the values it handed out, and no definition reads it. *)

From S2P Require Import Prelude.

Module Channel.

(** A waiter: a [SendAwaiter], a [ReceiveAwaiter], or case [i] of a select. *)
Inductive wref := WSend (a : nat) | WRecv (a : nat) | WSelect (s i : nat).

#[global] Instance wref_eq_dec : EqDecision wref.
Proof. solve_decision. Defined.

(** ** The ring of buffered values *)

Definition kMaxCapacity : Z := 2 ^ 63.

(** [std::bit_ceil]: the least power of two not below its argument. *)
Definition bit_ceil (z : Z) : Z := 2 ^ Z.log2_up z.

Section channel.
Context {T : Type}.

Record chan := mkChan {
  scheduler_ : nat;
  senders_ : list wref;
  receivers_ : list wref;
  buffer_ : list (option T);
  capacity_ : Z;
  mask_ : Z;
  head_ : Z;
  tail_ : Z;
  size_ : Z;
  closed_ : bool;
}.

Definition RingSize (capacity : Z) : outcome Z :=
  ALYRN_CHECK (capacity <=? kMaxCapacity);;
  Val (if capacity =? 0 then 0 else bit_ceil capacity).

(** The constructor of [Channel]. *)
Definition new_chan (scheduler : nat) (capacity : Z) : outcome chan :=
  n ← RingSize capacity;
  Val (mkChan scheduler [] [] (replicate (Z.to_nat n) None) capacity
         (if n =? 0 then 0 else n - 1) 0 0 0 false).

Definition set_senders (q : list wref) (ch : chan) : chan :=
  mkChan (scheduler_ ch) q (receivers_ ch) (buffer_ ch) (capacity_ ch) (mask_ ch)
    (head_ ch) (tail_ ch) (size_ ch) (closed_ ch).
Definition set_receivers (q : list wref) (ch : chan) : chan :=
  mkChan (scheduler_ ch) (senders_ ch) q (buffer_ ch) (capacity_ ch) (mask_ ch)
    (head_ ch) (tail_ ch) (size_ ch) (closed_ ch).
Definition set_closed (ch : chan) : chan :=
  mkChan (scheduler_ ch) (senders_ ch) (receivers_ ch) (buffer_ ch) (capacity_ ch) (mask_ ch)
    (head_ ch) (tail_ ch) (size_ ch) true.

Definition PushBuffer (value : T) (ch : chan) : outcome chan :=
  ALYRN_CHECK (negb (size_ ch =? capacity_ ch));;
  match buffer_ ch !! Z.to_nat (tail_ ch) with
  | None => Panic
  | Some _ =>
      Val (mkChan (scheduler_ ch) (senders_ ch) (receivers_ ch)
             (<[Z.to_nat (tail_ ch) := Some value]> (buffer_ ch)) (capacity_ ch) (mask_ ch)
             (head_ ch) (Z.land (tail_ ch + 1) (mask_ ch)) (size_ ch + 1) (closed_ ch))
  end.

Definition PopBuffer (ch : chan) : outcome (T * chan) :=
  ALYRN_CHECK (negb (size_ ch =? 0));;
  match buffer_ ch !! Z.to_nat (head_ ch) with
  | Some (Some value) =>
      Val (value,
           mkChan (scheduler_ ch) (senders_ ch) (receivers_ ch)
             (<[Z.to_nat (head_ ch) := None]> (buffer_ ch)) (capacity_ ch) (mask_ ch)
             (Z.land (head_ ch + 1) (mask_ ch)) (tail_ ch) (size_ ch - 1) (closed_ ch))
  | _ => Panic
  end.

(** ** Waiters *)

(** [SendAwaiter]. *)
Record send_awaiter := mkSend {
  sa_channel : nat;
  sa_value : option T;
  sa_result : option (ResultE unit);
  sa_handle : option nat;
  sa_waiting : bool;
}.

(** [ReceiveAwaiter]; [ra_output] names the optional it writes on resumption. *)
Record recv_awaiter := mkRecv {
  ra_channel : nat;
  ra_output : nat;
  ra_result : option (ResultE (option T));
  ra_handle : option nat;
  ra_waiting : bool;
}.

(** A registration of a select. Its index, context and state pointer are its
    position in the select's list of registrations. *)
Inductive reg :=
| RegSend (channel : nat) (value : T) (active queued taken : bool)
| RegRecv (channel output : nat) (active queued : bool)
| RegDefault.

Variant Phase := kArming | kWaiting | kScheduled.

#[global] Instance Phase_eq_dec : EqDecision Phase.
Proof. solve_decision. Defined.

(** [SelectAwaiter] with its [SelectState]; [sel_winner = None] is [kNoWinner]. *)
Record select := mkSelect {
  sel_regs : list reg;
  sel_winner : option nat;
  sel_phase : Phase;
  sel_handle : option nat;
  sel_scheduler : option nat;
}.

(** Ghost events: channel [c] took over, or handed out, the value [v]. *)
Inductive event := Accepted (c : nat) (v : T) | Delivered (c : nat) (v : T).

Record world := mkWorld {
  w_chans : gmap nat chan;
  w_sends : gmap nat send_awaiter;
  w_recvs : gmap nat recv_awaiter;
  w_sels : gmap nat select;
  w_outs : gmap nat (option T);
  w_ready : list (nat * nat);  (* scheduler, coroutine handle *)
  w_current : option nat;      (* Scheduler::TryCurrent() *)
  w_rng : Z;                   (* state of SelectRandomIndex *)
  w_trace : list event;
}.

Definition set_chans f (w : world) : world :=
  mkWorld (f (w_chans w)) (w_sends w) (w_recvs w) (w_sels w) (w_outs w) (w_ready w)
    (w_current w) (w_rng w) (w_trace w).
Definition set_sends f (w : world) : world :=
  mkWorld (w_chans w) (f (w_sends w)) (w_recvs w) (w_sels w) (w_outs w) (w_ready w)
    (w_current w) (w_rng w) (w_trace w).
Definition set_recvs f (w : world) : world :=
  mkWorld (w_chans w) (w_sends w) (f (w_recvs w)) (w_sels w) (w_outs w) (w_ready w)
    (w_current w) (w_rng w) (w_trace w).
Definition set_sels f (w : world) : world :=
  mkWorld (w_chans w) (w_sends w) (w_recvs w) (f (w_sels w)) (w_outs w) (w_ready w)
    (w_current w) (w_rng w) (w_trace w).
Definition set_outs f (w : world) : world :=
  mkWorld (w_chans w) (w_sends w) (w_recvs w) (w_sels w) (f (w_outs w)) (w_ready w)
    (w_current w) (w_rng w) (w_trace w).
Definition set_rng (r : Z) (w : world) : world :=
  mkWorld (w_chans w) (w_sends w) (w_recvs w) (w_sels w) (w_outs w) (w_ready w)
    (w_current w) r (w_trace w).
Definition emit (e : event) (w : world) : world :=
  mkWorld (w_chans w) (w_sends w) (w_recvs w) (w_sels w) (w_outs w) (w_ready w)
    (w_current w) (w_rng w) (w_trace w ++ [e]).

(** [scheduler->Schedule(&continuation)]: the work must hold a handle. *)
Definition Schedule (scheduler handle : option nat) (w : world) : outcome world :=
  match scheduler, handle with
  | Some s, Some h =>
      Val (mkWorld (w_chans w) (w_sends w) (w_recvs w) (w_sels w) (w_outs w)
             (w_ready w ++ [(s, h)]) (w_current w) (w_rng w) (w_trace w))
  | _, _ => Panic
  end.

(** Dereferencing. *)
Definition deref {A} (m : gmap nat A) (i : nat) : outcome A :=
  match m !! i with Some x => Val x | None => Panic end.

Definition put_chan (c : nat) (ch : chan) : world -> world := set_chans (insert c ch).
Definition put_send (a : nat) (x : send_awaiter) : world -> world := set_sends (insert a x).
Definition put_recv (a : nat) (x : recv_awaiter) : world -> world := set_recvs (insert a x).
Definition put_sel (s : nat) (x : select) : world -> world := set_sels (insert s x).
Definition put_out (o : nat) (x : option T) : world -> world := set_outs (insert o x).

Definition CheckOwner (ch : chan) (w : world) : outcome unit :=
  ALYRN_CHECK (bool_decide (w_current w = Some (scheduler_ ch))).

(** The channel [c], checked to be used on its scheduler. *)
Definition owned_chan (c : nat) (w : world) : outcome chan :=
  ch ← deref (w_chans w) c; CheckOwner ch w;; Val ch.

Definition get_reg (s i : nat) (w : world) : outcome (select * reg) :=
  S ← deref (w_sels w) s;
  match sel_regs S !! i with Some r => Val (S, r) | None => Panic end.

Definition set_regs (rs : list reg) (S : select) : select :=
  mkSelect rs (sel_winner S) (sel_phase S) (sel_handle S) (sel_scheduler S).

Definition put_reg (s i : nat) (r : reg) (w : world) : world :=
  set_sels (alter (fun S => set_regs (<[i := r]> (sel_regs S)) S) s) w.

(** A registration with [active_] and [queued_] cleared. *)
Definition kill (r : reg) : reg :=
  match r with
  | RegSend c v _ _ k => RegSend c v false false k
  | RegRecv c o _ _ => RegRecv c o false false
  | RegDefault => RegDefault
  end.

(** ** Cancelling *)

Definition send_Cancelled (r : wref) (w : world) : outcome world :=
  match r with
  | WSend a =>
      x ← deref (w_sends w) a;
      Val (put_send a (mkSend (sa_channel x) (sa_value x) (sa_result x) (sa_handle x) false) w)
  | WSelect s i => '(_, g) ← get_reg s i w; Val (put_reg s i (kill g) w)
  | WRecv _ => Panic
  end.

Definition recv_Cancelled (r : wref) (w : world) : outcome world :=
  match r with
  | WRecv a =>
      x ← deref (w_recvs w) a;
      Val (put_recv a (mkRecv (ra_channel x) (ra_output x) (ra_result x) (ra_handle x) false) w)
  | WSelect s i => '(_, g) ← get_reg s i w; Val (put_reg s i (kill g) w)
  | WSend _ => Panic
  end.

Definition remove (r : wref) (q : list wref) : list wref := filter (fun x => x <> r) q.

Definition CancelSend (c : nat) (sender : wref) (w : world) : outcome world :=
  ch ← owned_chan c w;
  let w := put_chan c (set_senders (remove sender (senders_ ch)) ch) w in
  ALYRN_CHECK (bool_decide (sender ∈ senders_ ch));;
  send_Cancelled sender w.

Definition CancelReceive (c : nat) (receiver : wref) (w : world) : outcome world :=
  ch ← owned_chan c w;
  let w := put_chan c (set_receivers (remove receiver (receivers_ ch)) ch) w in
  ALYRN_CHECK (bool_decide (receiver ∈ receivers_ ch));;
  recv_Cancelled receiver w.

(** [Cancel] of the registration [i]. *)
Definition reg_Cancel (s i : nat) (w : world) : outcome world :=
  '(_, g) ← get_reg s i w;
  match g with
  | RegSend c _ active queued _ =>
      if negb active then Val w
      else if queued then CancelSend c (WSelect s i) w
      else Val (put_reg s i (kill g) w)
  | RegRecv c _ active queued =>
      if negb active then Val w
      else if queued then CancelReceive c (WSelect s i) w
      else Val (put_reg s i (kill g) w)
  | RegDefault => Val w
  end.

(** [CaseCompleted], that is [CancelLosers]: the cases from [i] on, [n] of them. *)
Fixpoint CancelLosers (s winner i n : nat) (w : world) : outcome world :=
  match n with
  | O => Val w
  | S n =>
      w ← (if bool_decide (i = winner) then Val w else reg_Cancel s i w);
      CancelLosers s winner (i + 1) n w
  end.

Definition CaseCompleted (s winner : nat) (w : world) : outcome world :=
  S ← deref (w_sels w) s; CancelLosers s winner 0 (length (sel_regs S)) w.

(** ** Select state *)

Definition Completed (S : select) : bool := bool_decide (is_Some (sel_winner S)).

Definition TryWin (s index : nat) (w : world) : outcome (bool * world) :=
  S ← deref (w_sels w) s;
  if Completed S then Val (false, w)
  else Val (true, put_sel s (mkSelect (sel_regs S) (Some index) (sel_phase S) (sel_handle S)
                               (sel_scheduler S)) w).

Definition MarkWaiting (s : nat) (w : world) : outcome world :=
  S ← deref (w_sels w) s;
  ALYRN_CHECK (bool_decide (sel_phase S = kArming));;
  ALYRN_CHECK (negb (Completed S));;
  Val (put_sel s (mkSelect (sel_regs S) (sel_winner S) kWaiting (sel_handle S) (sel_scheduler S)) w).

Definition ResumeIfWaiting (s : nat) (w : world) : outcome world :=
  S ← deref (w_sels w) s;
  if negb (bool_decide (sel_phase S = kWaiting)) then Val w
  else
    ALYRN_CHECK (bool_decide (is_Some (sel_scheduler S)));;
    let w := put_sel s (mkSelect (sel_regs S) (sel_winner S) kScheduled (sel_handle S)
                          (sel_scheduler S)) w in
    Schedule (sel_scheduler S) (sel_handle S) w.

(** ** Completing a waiter *)

Definition send_TakeValue (r : wref) (w : world) : outcome (T * world) :=
  match r with
  | WSend a =>
      x ← deref (w_sends w) a;
      match sa_value x with
      | None => Panic
      | Some v =>
          Val (v, emit (Accepted (sa_channel x) v)
                    (put_send a (mkSend (sa_channel x) None (sa_result x) (sa_handle x) (sa_waiting x)) w))
      end
  | WSelect s i =>
      '(_, g) ← get_reg s i w;
      match g with
      | RegSend c v active queued taken =>
          ALYRN_CHECK (negb taken);;
          Val (v, emit (Accepted c v) (put_reg s i (RegSend c v active queued true) w))
      | _ => Panic
      end
  | WRecv _ => Panic
  end.

(** [SendAwaiter::Complete] and [SelectSendRegistration::Complete]. *)
Definition send_Complete (r : wref) (w : world) : outcome world :=
  match r with
  | WSend a =>
      x ← deref (w_sends w) a;
      ALYRN_CHECK (sa_waiting x);;
      let w := put_send a (mkSend (sa_channel x) (sa_value x) (Some (Ok tt)) (sa_handle x) false) w in
      ch ← deref (w_chans w) (sa_channel x);
      Schedule (Some (scheduler_ ch)) (sa_handle x) w
  | WSelect s i =>
      '(_, g) ← get_reg s i w;
      match g with
      | RegSend _ _ active _ _ =>
          if negb active then Val w
          else
            let w := put_reg s i (kill g) w in
            '(won, w) ← TryWin s i w;
            if negb won then Val w
            else w ← CaseCompleted s i w; ResumeIfWaiting s w
      | _ => Panic
      end
  | WRecv _ => Panic
  end.

Definition send_NotifyClosed (r : wref) (w : world) : outcome world :=
  match r with
  | WSelect s i =>
      '(_, g) ← get_reg s i w;
      match g with
      | RegSend _ _ active _ _ =>
          if negb active then Val w
          else
            let w := put_reg s i (kill g) w in
            '(won, w) ← TryWin s i w;
            if negb won then Val w
            else CaseCompleted s i w;; Panic
      | _ => Panic
      end
  | _ => Panic
  end.

(** What a receive registration does on completion, [value] being what it
    stores in the output: [CompleteValue] with [Some], [CompleteClosed] with [None]. *)
Definition reg_complete_receive (s i : nat) (value : option T) (w : world) : outcome world :=
  '(_, g) ← get_reg s i w;
  match g with
  | RegRecv c output active _ =>
      if negb active then Val w
      else
        let w := put_reg s i (kill g) w in
        '(won, w) ← TryWin s i w;
        if negb won then Val w
        else
          let w := put_out output value w in
          let w := match value with Some v => emit (Delivered c v) w | None => w end in
          w ← CaseCompleted s i w; ResumeIfWaiting s w
  | _ => Panic
  end.

(** What a [ReceiveAwaiter] does on completion. *)
Definition await_complete_receive (a : nat) (value : option T) (w : world) : outcome world :=
  x ← deref (w_recvs w) a;
  ALYRN_CHECK (ra_waiting x);;
  let w := put_recv a (mkRecv (ra_channel x) (ra_output x) (Some (Ok value)) (ra_handle x) false) w in
  let w := match value with Some v => emit (Delivered (ra_channel x) v) w | None => w end in
  ch ← deref (w_chans w) (ra_channel x);
  Schedule (Some (scheduler_ ch)) (ra_handle x) w.

Definition recv_complete (r : wref) (value : option T) (w : world) : outcome world :=
  match r with
  | WRecv a => await_complete_receive a value w
  | WSelect s i => reg_complete_receive s i value w
  | WSend _ => Panic
  end.

Definition recv_CompleteValue (r : wref) (value : T) (w : world) : outcome world :=
  recv_complete r (Some value) w.
Definition recv_CompleteClosed (r : wref) (w : world) : outcome world := recv_complete r None w.

(** ** Channel operations *)

(** [PopBuffer] and [PushBuffer] on the channel [c] of the world. *)
Definition pop_buffer (c : nat) (w : world) : outcome (T * world) :=
  ch ← deref (w_chans w) c; '(v, ch) ← PopBuffer ch; Val (v, put_chan c ch w).
Definition push_buffer (c : nat) (v : T) (w : world) : outcome world :=
  ch ← deref (w_chans w) c; ch ← PushBuffer v ch; Val (put_chan c ch w).

Definition pop_sender (c : nat) (w : world) : outcome (option wref * world) :=
  ch ← deref (w_chans w) c;
  match senders_ ch with
  | [] => Val (None, w)
  | r :: q => Val (Some r, put_chan c (set_senders q ch) w)
  end.
Definition pop_receiver (c : nat) (w : world) : outcome (option wref * world) :=
  ch ← deref (w_chans w) c;
  match receivers_ ch with
  | [] => Val (None, w)
  | r :: q => Val (Some r, put_chan c (set_receivers q ch) w)
  end.

Definition TrySend (c : nat) (value : T) (w : world) : outcome (bool * world) :=
  ch ← owned_chan c w;
  ALYRN_CHECK (negb (closed_ ch));;
  '(receiver, w) ← pop_receiver c w;
  match receiver with
  | Some r => w ← recv_CompleteValue r value (emit (Accepted c value) w); Val (true, w)
  | None =>
      if size_ ch =? capacity_ ch then Val (false, w)
      else w ← push_buffer c value (emit (Accepted c value) w); Val (true, w)
  end.

(** The common start of every receive: [Some v] when a value was obtained from
    the buffer or from a waiting sender. *)
Definition take_ready (c : nat) (w : world) : outcome (option T * world) :=
  ch ← deref (w_chans w) c;
  if negb (size_ ch =? 0) then
    '(v, w) ← pop_buffer c w;
    '(sender, w) ← pop_sender c w;
    match sender with
    | Some r =>
        '(sv, w) ← send_TakeValue r w; w ← push_buffer c sv w; w ← send_Complete r w;
        Val (Some v, w)
    | None => Val (Some v, w)
    end
  else
    '(sender, w) ← pop_sender c w;
    match sender with
    | Some r => '(sv, w) ← send_TakeValue r w; w ← send_Complete r w; Val (Some sv, w)
    | None => Val (None, w)
    end.

Definition TryReceive (c output : nat) (w : world) : outcome (bool * world) :=
  owned_chan c w;;
  '(v, w) ← take_ready c w;
  match v with
  | Some v => Val (true, emit (Delivered c v) (put_out output (Some v) w))
  | None =>
      ch ← deref (w_chans w) c;
      if closed_ ch then Val (true, put_out output None w) else Val (false, w)
  end.

(** The two loops of [Close]. Every iteration removes at least one waiter, so as
    many iterations as there are waiters are enough. *)
Fixpoint close_senders (fuel : nat) (c : nat) (w : world) : outcome world :=
  '(sender, w) ← pop_sender c w;
  match sender, fuel with
  | None, _ => Val w
  | Some _, O => Panic
  | Some r, S fuel => w ← send_NotifyClosed r w; close_senders fuel c w
  end.
Fixpoint close_receivers (fuel : nat) (c : nat) (w : world) : outcome world :=
  '(receiver, w) ← pop_receiver c w;
  match receiver, fuel with
  | None, _ => Val w
  | Some _, O => Panic
  | Some r, S fuel => w ← recv_CompleteClosed r w; close_receivers fuel c w
  end.

Definition Close (c : nat) (w : world) : outcome world :=
  ch ← owned_chan c w;
  ALYRN_CHECK (negb (closed_ ch));;
  let w := put_chan c (set_closed ch) w in
  w ← close_senders (length (senders_ ch)) c w;
  ch ← deref (w_chans w) c;
  if negb (size_ ch =? 0) then Val w else close_receivers (length (receivers_ ch)) c w.

(** The destructor's checks; the channel is gone afterwards. *)
Definition destroy_chan (c : nat) (w : world) : outcome world :=
  ch ← deref (w_chans w) c;
  ALYRN_CHECK (closed_ ch);;
  ALYRN_CHECK (bool_decide (senders_ ch = []) && bool_decide (receivers_ ch = []));;
  Val (set_chans (delete c) w).

(** ** Plain awaiters *)

Definition new_send (a c : nat) (v : T) (w : world) : world :=
  put_send a (mkSend c (Some v) None None false) w.

(** [SendAwaiter::await_suspend]; [true] means the coroutine suspends. *)
Definition send_await_suspend (a handle : nat) (w : world) : outcome (bool * world) :=
  x ← deref (w_sends w) a;
  let c := sa_channel x in
  ch ← owned_chan c w;
  ALYRN_CHECK (negb (closed_ ch));;
  let finish w :=
    x ← deref (w_sends w) a;
    Val (false, put_send a (mkSend (sa_channel x) (sa_value x) (Some (Ok tt)) (sa_handle x) (sa_waiting x)) w) in
  '(receiver, w) ← pop_receiver c w;
  match receiver with
  | Some r =>
      '(v, w) ← send_TakeValue (WSend a) w; w ← recv_CompleteValue r v w; finish w
  | None =>
      if negb (size_ ch =? capacity_ ch) then
        '(v, w) ← send_TakeValue (WSend a) w; w ← push_buffer c v w; finish w
      else
        let w := put_send a (mkSend c (sa_value x) (sa_result x) (Some handle) true) w in
        ALYRN_CHECK (negb (bool_decide (WSend a ∈ senders_ ch)));;
        Val (true, put_chan c (set_senders (senders_ ch ++ [WSend a]) ch) w)
  end.

Definition send_await_resume (a : nat) (w : world) : outcome (ResultE unit) :=
  x ← deref (w_sends w) a;
  match sa_result x with Some r => Val r | None => Panic end.

Definition destroy_send (a : nat) (w : world) : outcome world :=
  x ← deref (w_sends w) a;
  w ← (if sa_waiting x then CancelSend (sa_channel x) (WSend a) w else Val w);
  Val (set_sends (delete a) w).

Definition new_recv (a c output : nat) (w : world) : world :=
  put_recv a (mkRecv c output None None false) w.

Definition recv_await_suspend (a handle : nat) (w : world) : outcome (bool * world) :=
  x ← deref (w_recvs w) a;
  let c := ra_channel x in
  owned_chan c w;;
  '(v, w) ← take_ready c w;
  let finish value w :=
    x ← deref (w_recvs w) a;
    Val (false, put_recv a (mkRecv (ra_channel x) (ra_output x) (Some (Ok value)) (ra_handle x) (ra_waiting x)) w) in
  match v with
  | Some v => finish (Some v) (emit (Delivered c v) w)
  | None =>
      ch ← deref (w_chans w) c;
      if closed_ ch then finish None w
      else
        let w := put_recv a (mkRecv c (ra_output x) (ra_result x) (Some handle) true) w in
        ALYRN_CHECK (negb (bool_decide (WRecv a ∈ receivers_ ch)));;
        Val (true, put_chan c (set_receivers (receivers_ ch ++ [WRecv a]) ch) w)
  end.

Definition recv_await_resume (a : nat) (w : world) : outcome (ResultE unit * world) :=
  x ← deref (w_recvs w) a;
  match ra_result x with
  | None => Panic
  | Some (Err e) => Val (Err e, w)
  | Some (Ok v) => Val (Ok tt, put_out (ra_output x) v w)
  end.

Definition destroy_recv (a : nat) (w : world) : outcome world :=
  x ← deref (w_recvs w) a;
  w ← (if ra_waiting x then CancelReceive (ra_channel x) (WRecv a) w else Val w);
  Val (set_recvs (delete a) w).

(** ** Select *)

Definition SelectSendReady (c : nat) (w : world) : outcome bool :=
  ch ← owned_chan c w;
  Val (closed_ ch || negb (bool_decide (receivers_ ch = [])) || negb (size_ ch =? capacity_ ch)).
Definition SelectReceiveReady (c : nat) (w : world) : outcome bool :=
  ch ← owned_chan c w;
  Val (closed_ ch || negb (bool_decide (senders_ ch = [])) || negb (size_ ch =? 0)).

Definition RegisterSelectSend (c : nat) (sender : wref) (w : world) : outcome world :=
  ch ← owned_chan c w;
  ALYRN_CHECK (negb (closed_ ch));;
  ALYRN_CHECK (negb (bool_decide (sender ∈ senders_ ch)));;
  Val (put_chan c (set_senders (senders_ ch ++ [sender]) ch) w).
Definition RegisterSelectReceive (c : nat) (receiver : wref) (w : world) : outcome world :=
  ch ← owned_chan c w;
  ALYRN_CHECK (negb (closed_ ch));;
  ALYRN_CHECK (negb (bool_decide (receiver ∈ receivers_ ch)));;
  Val (put_chan c (set_receivers (receivers_ ch ++ [receiver]) ch) w).

Definition CommitSelectSend (c : nat) (sender : wref) (w : world) : outcome world :=
  ch ← owned_chan c w;
  if closed_ ch then send_NotifyClosed sender w
  else
    '(receiver, w) ← pop_receiver c w;
    match receiver with
    | Some r =>
        '(v, w) ← send_TakeValue sender w; w ← recv_CompleteValue r v w; send_Complete sender w
    | None =>
        ALYRN_CHECK (negb (size_ ch =? capacity_ ch));;
        '(v, w) ← send_TakeValue sender w; w ← push_buffer c v w; send_Complete sender w
    end.

(** [CommitSelectReceive] completes the receiver last when the value comes from
    the buffer, and before the sender when it comes straight from the sender. *)
Definition CommitSelectReceive (c : nat) (receiver : wref) (w : world) : outcome world :=
  ch ← owned_chan c w;
  if negb (size_ ch =? 0) then
    '(v, w) ← pop_buffer c w;
    '(sender, w) ← pop_sender c w;
    w ← match sender with
        | Some r => '(sv, w) ← send_TakeValue r w; w ← push_buffer c sv w; send_Complete r w
        | None => Val w
        end;
    recv_CompleteValue receiver v w
  else
    '(sender, w) ← pop_sender c w;
    match sender with
    | Some r =>
        '(v, w) ← send_TakeValue r w; w ← recv_CompleteValue receiver v w; send_Complete r w
    | None => if closed_ ch then recv_CompleteClosed receiver w else Panic
    end.

(** A case as the caller writes it; [SelectReceive], [SelectSend], [SelectDefault]. *)
Inductive select_case :=
| SelectSendCase (channel : nat) (value : T)
| SelectReceiveCase (channel output : nat)
| SelectDefaultCase.

Definition registration (k : select_case) : reg :=
  match k with
  | SelectSendCase c v => RegSend c v true false false
  | SelectReceiveCase c o => RegRecv c o true false
  | SelectDefaultCase => RegDefault
  end.

(** [Select(cases...)]: at least one case is required at compile time. *)
Definition new_select (s : nat) (cases : list select_case) (w : world) : world :=
  put_sel s (mkSelect (registration <$> cases) None kArming None None) w.

Definition reg_Ready (g : reg) (w : world) : outcome bool :=
  match g with
  | RegSend c _ _ _ _ => SelectSendReady c w
  | RegRecv c _ _ _ => SelectReceiveReady c w
  | RegDefault => Val false
  end.

(** [FindReadyCases]: the ready flags and the first default case. *)
Fixpoint FindReadyCases (i : nat) (gs : list reg) (w : world) : outcome (list bool * option nat) :=
  match gs with
  | [] => Val ([], None)
  | RegDefault :: gs => '(ready, _) ← FindReadyCases (i + 1) gs w; Val (false :: ready, Some i)
  | g :: gs =>
      b ← reg_Ready g w; '(ready, fallback) ← FindReadyCases (i + 1) gs w; Val (b :: ready, fallback)
  end.

(** [SelectRandomIndex]: the next state of the generator and the choice. *)
Definition next_random (state : Z) : Z :=
  let state := Z.lxor state (usize (Z.shiftl state 13)) in
  let state := Z.lxor state (Z.shiftr state 7) in
  Z.lxor state (usize (Z.shiftl state 17)).
Definition SelectRandomIndex (upper_bound : Z) (w : world) : outcome (Z * world) :=
  ALYRN_CHECK (negb (upper_bound =? 0));;
  let state := next_random (w_rng w) in
  Val (state mod upper_bound, set_rng state w).

(** The second loop of [ChooseReadyCase]. *)
Fixpoint nth_ready (index : nat) (choice : Z) (ready : list bool) : outcome nat :=
  match ready with
  | [] => Panic
  | false :: ready => nth_ready (index + 1) choice ready
  | true :: ready => if choice =? 0 then Val index else nth_ready (index + 1) (choice - 1) ready
  end.

Definition ChooseReadyCase (ready : list bool) (w : world) : outcome (option nat * world) :=
  let ready_count := Z.of_nat (length (filter (fun b => b = true) ready)) in
  if ready_count =? 0 then Val (None, w)
  else '(choice, w) ← SelectRandomIndex ready_count w; i ← nth_ready 0 choice ready; Val (Some i, w).

Definition reg_Commit (s i : nat) (w : world) : outcome world :=
  '(_, g) ← get_reg s i w;
  match g with
  | RegSend c _ _ _ _ => CommitSelectSend c (WSelect s i) w
  | RegRecv c _ _ _ => CommitSelectReceive c (WSelect s i) w
  | RegDefault =>
      '(won, w) ← TryWin s i w;
      if negb won then Val w else w ← CaseCompleted s i w; ResumeIfWaiting s w
  end.

Definition reg_Arm (s i : nat) (w : world) : outcome world :=
  '(_, g) ← get_reg s i w;
  match g with
  | RegSend c v active queued taken =>
      ALYRN_CHECK active;; ALYRN_CHECK (negb queued);;
      RegisterSelectSend c (WSelect s i) (put_reg s i (RegSend c v active true taken) w)
  | RegRecv c o active queued =>
      ALYRN_CHECK active;; ALYRN_CHECK (negb queued);;
      RegisterSelectReceive c (WSelect s i) (put_reg s i (RegRecv c o active true) w)
  | RegDefault => Val w
  end.

Fixpoint ArmRegistrations (s i n : nat) (w : world) : outcome world :=
  match n with
  | O => Val w
  | S n => w ← reg_Arm s i w; ArmRegistrations s (i + 1) n w
  end.

(** [SelectAwaiter::await_suspend]; [true] means the coroutine suspends. *)
Definition select_await_suspend (s handle : nat) (w : world) : outcome (bool * world) :=
  S0 ← deref (w_sels w) s;
  ALYRN_CHECK (bool_decide (is_Some (w_current w)));;
  let S0 := mkSelect (sel_regs S0) None kArming (Some handle) (w_current w) in
  let w := put_sel s S0 w in
  '(ready, fallback) ← FindReadyCases 0 (sel_regs S0) w;
  '(selected, w) ← ChooseReadyCase ready w;
  match selected with
  | Some i => w ← reg_Commit s i w; Val (false, w)
  | None =>
      match fallback with
      | Some i => w ← reg_Commit s i w; Val (false, w)
      | None =>
          w ← ArmRegistrations s 0 (length (sel_regs S0)) w;
          S1 ← deref (w_sels w) s;
          if Completed S1 then Val (false, w)
          else w ← MarkWaiting s w; Val (true, w)
      end
  end.

Definition select_await_resume (s : nat) (w : world) : outcome nat :=
  S ← deref (w_sels w) s;
  match sel_winner S with Some i => Val i | None => Panic end.

(** The registrations' destructors, last to first, then the object itself. *)
Fixpoint destroy_regs (s n : nat) (w : world) : outcome world :=
  match n with
  | O => Val w
  | S i =>
      '(_, g) ← get_reg s i w;
      w ← match g with
          | RegSend c _ _ true _ => CancelSend c (WSelect s i) w
          | RegRecv c _ _ true => CancelReceive c (WSelect s i) w
          | _ => Val w
          end;
      destroy_regs s i w
  end.

Definition destroy_select (s : nat) (w : world) : outcome world :=
  S ← deref (w_sels w) s;
  w ← destroy_regs s (length (sel_regs S)) w;
  Val (set_sels (delete s) w).

End channel.
Arguments chan : clear implicits.
Arguments world : clear implicits.
Arguments reg : clear implicits.
Arguments select : clear implicits.
Arguments send_awaiter : clear implicits.
Arguments recv_awaiter : clear implicits.
Arguments event : clear implicits.
Arguments select_case : clear implicits.

End Channel.
