(* ===== verification/ChannelRing.v ===== *)
(** * The channel's ring buffer is a bounded FIFO queue

    [PushBuffer] and [PopBuffer] index a power-of-two vector with a mask while
    the logical capacity stays what the caller asked for. *)

From S2P Require Import Prelude Channel.
Import Channel.

Section ring.
Context {T : Type}.
Implicit Types (ch : chan T) (vs : list T).

(** The slot of the [j]-th buffered value in a vector of size [n]. *)
Definition slot ch (n : Z) (j : nat) : nat := Z.to_nat ((head_ ch + Z.of_nat j) mod n).

Record ring_ok ch vs : Prop := {
  rg_cap : 0 <= capacity_ ch <= kMaxCapacity;
  rg_size : size_ ch = Z.of_nat (length vs);
  rg_bound : size_ ch <= capacity_ ch;
  rg_slots : capacity_ ch = 0 \/ exists k, 0 <= k /\ capacity_ ch <= 2 ^ k /\
    Z.of_nat (length (buffer_ ch)) = 2 ^ k /\ mask_ ch = 2 ^ k - 1 /\
    0 <= head_ ch < 2 ^ k /\ tail_ ch = (head_ ch + size_ ch) mod 2 ^ k /\
    forall j v, vs !! j = Some v -> buffer_ ch !! slot ch (2 ^ k) j = Some (Some v);
}.

(** Everything of a channel but its ring. *)
Record same_rest (ch ch' : chan T) : Prop := {
  sr_scheduler : scheduler_ ch' = scheduler_ ch;
  sr_senders : senders_ ch' = senders_ ch;
  sr_receivers : receivers_ ch' = receivers_ ch;
  sr_capacity : capacity_ ch' = capacity_ ch;
  sr_closed : closed_ ch' = closed_ ch;
}.

Lemma slot_inj ch n j j' : 0 < n -> Z.of_nat j < n -> Z.of_nat j' < n ->
  slot ch n j = slot ch n j' -> j = j'.
Proof.
  intros Hn Hj Hj' E. unfold slot in E. apply Z2Nat.inj in E; try apply Z.mod_pos_bound; try lia.
  apply mod_inj_lt in E; lia.
Qed.

Lemma new_chan_ring scheduler capacity :
  0 <= capacity <= kMaxCapacity ->
  exists ch, new_chan scheduler capacity = Val ch /\ ring_ok ch [] /\ capacity_ ch = capacity /\
    scheduler_ ch = scheduler /\ senders_ ch = [] /\ receivers_ ch = [] /\ closed_ ch = false.
Proof.
  intros Hc. unfold new_chan, RingSize. rewrite (proj2 (Z.leb_le _ _)) by lia. simpl.
  eexists. split; [reflexivity|]. split_and!; try done. split; simpl; [lia|done|lia|].
  destruct (Z.eqb_spec capacity 0) as [->|Hn]; [by left|right].
  exists (Z.log2_up capacity). unfold bit_ceil.
  pose proof (Z.log2_up_nonneg capacity) as Hk.
  pose proof (Z.pow_pos_nonneg 2 (Z.log2_up capacity) ltac:(lia) Hk) as Hp.
  assert (capacity <= 2 ^ Z.log2_up capacity).
  { destruct (decide (capacity = 1)) as [->|]; [done|]. apply Z.log2_up_spec. lia. }
  rewrite length_replicate, Z2Nat.id by lia. rewrite (proj2 (Z.eqb_neq _ 0)) by lia.
  rewrite Zmod_0_l. split_and!; try lia. intros j v Hj. done.
Qed.

Lemma PushBuffer_spec ch vs v :
  ring_ok ch vs -> size_ ch <> capacity_ ch ->
  exists ch', PushBuffer v ch = Val ch' /\ ring_ok ch' (vs ++ [v]) /\ same_rest ch ch'.
Proof.
  intros [Hc Hs Hb Hslots] Hne. unfold PushBuffer.
  rewrite (proj2 (Z.eqb_neq _ _) Hne). simpl.
  destruct Hslots as [?|(k & Hk & Hcap & Hlen & Hm & Hh & Ht & Hv)]; [lia|].
  pose proof (Z.pow_pos_nonneg 2 k ltac:(lia) Hk) as Hp.
  pose proof (Z.mod_pos_bound (head_ ch + size_ ch) (2 ^ k) Hp) as Htb.
  assert (Htl : tail_ ch = Z.of_nat (slot ch (2 ^ k) (length vs))).
  { unfold slot. rewrite <- Hs, <- Ht, Z2Nat.id; lia. }
  rewrite Htl, Nat2Z.id.
  destruct (lookup_lt_is_Some_2 (buffer_ ch) (slot ch (2 ^ k) (length vs))) as [o Ho]; [lia|].
  rewrite Ho. eexists. split; [reflexivity|]. split; [|done].
  split; simpl; [done|rewrite length_app; simpl; lia|lia|].
  right. exists k. rewrite length_insert, Hm, land_mask by lia.
  split_and!; try lia.
  - rewrite <- Htl, Ht. rewrite Zplus_mod_idemp_l. f_equal. lia.
  - intros j v' Hj. unfold slot at 1; simpl. change (Z.to_nat _) with (slot ch (2 ^ k) j).
    apply lookup_snoc_Some in Hj as [[Hlt Hj]|[-> ->]].
    + rewrite list_lookup_insert_ne; [by apply Hv|].
      intros E. apply slot_inj in E; lia.
    + apply list_lookup_insert_eq. by eapply lookup_lt_Some.
Qed.

Lemma PopBuffer_spec ch v vs :
  ring_ok ch (v :: vs) ->
  exists ch', PopBuffer ch = Val (v, ch') /\ ring_ok ch' vs /\ same_rest ch ch'.
Proof.
  intros [Hc Hs Hb Hslots]. unfold PopBuffer. simpl in Hs.
  rewrite (proj2 (Z.eqb_neq _ _)) by lia. simpl.
  destruct Hslots as [?|(k & Hk & Hcap & Hlen & Hm & Hh & Ht & Hv)]; [lia|].
  pose proof (Z.pow_pos_nonneg 2 k ltac:(lia) Hk) as Hp.
  assert (Hz : slot ch (2 ^ k) 0 = Z.to_nat (head_ ch)).
  { unfold slot. rewrite Z.add_0_r, Z.mod_small by lia. done. }
  rewrite <- Hz, (Hv 0%nat v eq_refl). eexists. split; [reflexivity|]. split; [|done].
  split; simpl; [done|lia|lia|]. right. exists k.
  rewrite length_insert, Hm, land_mask by lia.
  pose proof (Z.mod_pos_bound (head_ ch + 1) (2 ^ k) Hp).
  split_and!; try lia.
  - rewrite Ht, Zplus_mod_idemp_l. f_equal. lia.
  - intros j v' Hj. pose proof (lookup_lt_Some _ _ _ Hj) as Hjl.
    assert (Hslot : forall ch', head_ ch' = (head_ ch + 1) mod 2 ^ k ->
      slot ch' (2 ^ k) j = slot ch (2 ^ k) (S j)).
    { intros ch' Eh. unfold slot. rewrite Eh, Zplus_mod_idemp_l. f_equal. f_equal. lia. }
    rewrite Hslot by done. rewrite list_lookup_insert_ne; [by apply Hv|].
    intros E. apply slot_inj in E; lia.
Qed.

Lemma PushBuffer_full ch vs v : size_ ch = capacity_ ch -> PushBuffer v ch = Panic.
Proof. intros E. unfold PushBuffer. by rewrite E, Z.eqb_refl. Qed.

Lemma PopBuffer_empty ch : size_ ch = 0 -> PopBuffer ch = Panic.
Proof. intros E. unfold PopBuffer. by rewrite E. Qed.

(** ** The ring against a bounded list *)

Inductive ring_op := RPush (v : T) | RPop.

Definition ring_step (op : ring_op) ch : outcome (option T * chan T) :=
  match op with
  | RPush v => ch ← PushBuffer v ch; Val (None, ch)
  | RPop => '(v, ch) ← PopBuffer ch; Val (Some v, ch)
  end.

Definition fifo_step (capacity : Z) (op : ring_op) vs : outcome (option T * list T) :=
  match op, vs with
  | RPush v, _ => if Z.of_nat (length vs) =? capacity then Panic else Val (None, vs ++ [v])
  | RPop, [] => Panic
  | RPop, v :: vs => Val (Some v, vs)
  end.

Fixpoint ring_run {A} (step : ring_op -> A -> outcome (option T * A)) (ops : list ring_op) (a : A)
    : outcome (list (option T)) :=
  match ops with
  | [] => Val []
  | op :: ops => '(o, a) ← step op a; os ← ring_run step ops a; Val (o :: os)
  end.

Lemma ring_run_fifo ops ch vs :
  ring_ok ch vs -> ring_run ring_step ops ch = ring_run (fifo_step (capacity_ ch)) ops vs.
Proof.
  revert ch vs. induction ops as [|op ops IH]; intros ch vs Hok; [done|].
  destruct op as [v|]; cbn [ring_run ring_step fifo_step].
  - pose proof (rg_size _ _ Hok) as Hs.
    destruct (Z.eqb_spec (Z.of_nat (length vs)) (capacity_ ch)) as [E|Hne].
    + by rewrite (PushBuffer_full ch vs) by lia.
    + destruct (PushBuffer_spec ch vs v Hok) as (ch' & -> & Hok' & Hr); [lia|].
      simpl. by rewrite (IH _ _ Hok'), (sr_capacity _ _ Hr).
  - destruct vs as [|v vs].
    + rewrite PopBuffer_empty; [done|]. apply (rg_size _ _ Hok).
    + destruct (PopBuffer_spec ch v vs Hok) as (ch' & -> & Hok' & Hr).
      simpl. by rewrite (IH _ _ Hok'), (sr_capacity _ _ Hr).
Qed.
End ring.

(** For every capacity up to [kMaxCapacity], also one that is not a power of
    two, the masked ring of a new channel answers every sequence of pushes and
    pops as a FIFO list bounded by that capacity: same values in the same order,
    aborting exactly on a push when full and a pop when empty. *)
Theorem channel_ring_is_bounded_fifo {T} (ops : list (@ring_op T)) scheduler capacity :
  0 <= capacity <= kMaxCapacity ->
  (ch ← new_chan scheduler capacity; ring_run ring_step ops ch) =
  ring_run (fifo_step capacity) ops [].
Proof.
  intros Hc. destruct (new_chan_ring (T := T) scheduler capacity Hc) as (ch & E & Hok & Hcap & _).
  rewrite E. simpl. rewrite <- Hcap. by apply ring_run_fifo.
Qed.

Lemma channel_ring_is_bounded_fifo_witness :
  0 <= 3 <= kMaxCapacity /\
  (ch ← new_chan 0 3; ring_run ring_step [RPush 1; RPush 2; RPop; RPush 3; RPush 4; RPop; RPop; RPop] ch)
  = Val [None; None; Some 1; None; None; Some 2; Some 3; Some 4].
Proof.
  assert (H : 0 <= 3 <= kMaxCapacity) by (unfold kMaxCapacity; lia).
  split; [exact H|].
  rewrite (channel_ring_is_bounded_fifo [RPush 1; RPush 2; RPop; RPush 3; RPush 4; RPop; RPop; RPop] 0 3 H).
  reflexivity.
Defined.
