(* ===== verification/ChannelInv.v ===== *)
(** * Coherence of channels, awaiters and selects

    The invariant that ties the waiter queues of all channels to the state of
    the awaiters, and the effect of completing or cancelling one waiter: it
    takes its whole group (a select's cases, or a plain awaiter alone) out of
    every queue and touches nothing else. *)

From S2P Require Import Prelude Channel ChannelRing.
Import Channel.

(** Waiters that complete together. *)
Definition same_group (r r' : wref) : Prop :=
  match r, r' with
  | WSend a, WSend b => a = b
  | WRecv a, WRecv b => a = b
  | WSelect s _, WSelect s' _ => s = s'
  | _, _ => False
  end.

#[global] Instance same_group_dec r r' : Decision (same_group r r').
Proof. destruct r, r'; simpl; apply _. Defined.

Lemma same_group_refl r : same_group r r.
Proof. by destruct r. Qed.

Lemma same_group_sym r r' : same_group r r' -> same_group r' r.
Proof. destruct r, r'; simpl; congruence. Qed.

Lemma filter_all {A} (P : A -> Prop) `{!forall x, Decision (P x)} (l : list A) :
  (forall x, x ∈ l -> P x) -> filter P l = l.
Proof.
  induction l as [|x l IH]; intros Hall; [done|].
  rewrite filter_cons_True by (apply Hall; set_solver). f_equal. apply IH. set_solver.
Qed.

Section inv.
Context {T : Type}.
Implicit Types (w : world T) (ch : chan T).

(** ** Queues with waiters taken out *)

Definition drop_if (p : wref -> bool) ch : chan T :=
  set_senders (filter (fun r => p r = false) (senders_ ch))
    (set_receivers (filter (fun r => p r = false) (receivers_ ch)) ch).

Lemma drop_if_senders p ch : senders_ (drop_if p ch) = filter (fun r => p r = false) (senders_ ch).
Proof. done. Qed.
Lemma drop_if_receivers p ch :
  receivers_ (drop_if p ch) = filter (fun r => p r = false) (receivers_ ch).
Proof. done. Qed.

Lemma drop_if_drop_if p q ch : drop_if p (drop_if q ch) = drop_if (fun r => p r || q r) ch.
Proof.
  unfold drop_if. destruct ch; simpl. unfold set_senders, set_receivers; simpl.
  rewrite !list_filter_filter. f_equal; apply list_filter_iff; intros r;
    rewrite orb_false_iff; tauto.
Qed.

Lemma drop_if_ext p q ch :
  (forall r, r ∈ senders_ ch \/ r ∈ receivers_ ch -> p r = q r) -> drop_if p ch = drop_if q ch.
Proof.
  intros H. assert (Hf : forall l : list wref, (forall r, r ∈ l -> p r = q r) ->
    filter (fun r => p r = false) l = filter (fun r => q r = false) l).
  { clear. induction l as [|x l IH]; intros H; [done|].
    rewrite !filter_cons, (H x), IH by set_solver. done. }
  unfold drop_if. rewrite !Hf by auto. done.
Qed.

Lemma drop_if_none p ch :
  (forall r, r ∈ senders_ ch \/ r ∈ receivers_ ch -> p r = false) -> drop_if p ch = ch.
Proof.
  intros H. unfold drop_if. rewrite !filter_all by auto. by destruct ch.
Qed.

Definition drop_group (r : wref) : chan T -> chan T :=
  drop_if (fun x => bool_decide (same_group r x)).

(** ** The object behind a reference *)

Inductive object :=
| OSend (x : option (send_awaiter T))
| ORecv (x : option (recv_awaiter T))
| OSel (x : option (select T)).

Definition view w (r : wref) : object :=
  match r with
  | WSend a => OSend (w_sends w !! a)
  | WRecv a => ORecv (w_recvs w !! a)
  | WSelect s _ => OSel (w_sels w !! s)
  end.

(** [r] waits to send, respectively to receive, on channel [c]. *)
Definition send_waiting_in (o : object) (r : wref) (c : nat) : Prop :=
  match o, r with
  | OSend (Some x), WSend _ => sa_waiting x = true /\ sa_channel x = c
  | OSel (Some sl), WSelect _ i => exists v t, sel_regs sl !! i = Some (RegSend c v true true t)
  | _, _ => False
  end.
Definition recv_waiting_in (o : object) (r : wref) (c : nat) : Prop :=
  match o, r with
  | ORecv (Some x), WRecv _ => ra_waiting x = true /\ ra_channel x = c
  | OSel (Some sl), WSelect _ i => exists o, sel_regs sl !! i = Some (RegRecv c o true true)
  | _, _ => False
  end.
Definition send_waiting w r c := send_waiting_in (view w r) r c.
Definition recv_waiting w r c := recv_waiting_in (view w r) r c.

Lemma send_waiting_chan w r c c' : send_waiting w r c -> send_waiting w r c' -> c = c'.
Proof.
  unfold send_waiting, send_waiting_in. destruct r; simpl; repeat case_match; try done.
  - naive_solver.
  - intros (? & ? & E) (? & ? & E'). rewrite E in E'. congruence.
Qed.
Lemma recv_waiting_chan w r c c' : recv_waiting w r c -> recv_waiting w r c' -> c = c'.
Proof.
  unfold recv_waiting, recv_waiting_in. destruct r; simpl; repeat case_match; try done.
  - naive_solver.
  - intros (? & E) (? & E'). rewrite E in E'. congruence.
Qed.
Lemma send_recv_waiting w r c c' : send_waiting w r c -> recv_waiting w r c' -> False.
Proof.
  unfold send_waiting, recv_waiting, send_waiting_in, recv_waiting_in.
  destruct r; simpl; repeat case_match; try done.
  intros (? & ? & E) (? & E'). rewrite E in E'. congruence.
Qed.

(** ** Registrations and selects *)

Definition live (g : reg T) : Prop :=
  match g with
  | RegSend _ _ active _ _ => active = true
  | RegRecv _ _ active _ => active = true
  | RegDefault => True
  end.
Definition is_queued (g : reg T) : Prop :=
  match g with
  | RegSend _ _ _ queued _ => queued = true
  | RegRecv _ _ _ queued => queued = true
  | RegDefault => False
  end.
Definition dead (g : reg T) : Prop := kill g = g.

Record sel_ok (S : select T) : Prop := {
  so_regs : forall i g, sel_regs S !! i = Some g ->
    match sel_winner S with None => live g | Some _ => dead g end;
  so_winner : forall i, sel_winner S = Some i -> (i < length (sel_regs S))%nat;
  so_phase : sel_phase S = kWaiting ->
    sel_winner S = None /\ is_Some (sel_handle S) /\ is_Some (sel_scheduler S) /\
    forall i g, sel_regs S !! i = Some g -> is_queued g;
  so_scheduled : sel_phase S = kScheduled -> is_Some (sel_winner S);
  so_fresh : sel_handle S = None -> forall i g, sel_regs S !! i = Some g -> ~ is_queued g;
}.

Record send_ok (x : send_awaiter T) : Prop := {
  sd_waiting : sa_waiting x = true -> is_Some (sa_handle x);
  sd_result : is_Some (sa_handle x) -> sa_waiting x = true \/ is_Some (sa_result x);
}.
Record recv_ok (x : recv_awaiter T) : Prop := {
  rv_waiting : ra_waiting x = true -> is_Some (ra_handle x);
  rv_result : is_Some (ra_handle x) -> ra_waiting x = true \/ is_Some (ra_result x);
}.

(** ** The invariant

    [h] lists waiters that were popped from their queue, or whose value was
    taken, and that are about to be completed. *)
Record coh (h : list wref) w : Prop := {
  co_owner : forall c ch, w_chans w !! c = Some ch -> w_current w = Some (scheduler_ ch);
  co_nodup : forall c ch, w_chans w !! c = Some ch -> NoDup (senders_ ch) /\ NoDup (receivers_ ch);
  co_senders : forall c ch r, w_chans w !! c = Some ch ->
    r ∈ senders_ ch <-> send_waiting w r c /\ r ∉ h;
  co_receivers : forall c ch r, w_chans w !! c = Some ch ->
    r ∈ receivers_ ch <-> recv_waiting w r c /\ r ∉ h;
  co_exists : forall c r, send_waiting w r c \/ recv_waiting w r c -> is_Some (w_chans w !! c);
  co_sels : forall s S, w_sels w !! s = Some S -> sel_ok S;
  co_sends : forall a x, w_sends w !! a = Some x -> send_ok x;
  co_recvs : forall a x, w_recvs w !! a = Some x -> recv_ok x;
  co_value : forall a x, w_sends w !! a = Some x -> sa_waiting x = true -> WSend a ∉ h ->
    is_Some (sa_value x);
  co_taken : forall s S i c v q t, w_sels w !! s = Some S ->
    sel_regs S !! i = Some (RegSend c v true q t) -> WSelect s i ∉ h -> t = false;
  co_current : is_Some (w_current w);
}.

(** What stays when only queues and waiters change. *)
Definition same_env w w' : Prop :=
  w_current w' = w_current w /\ w_rng w' = w_rng w.

Lemma same_env_trans w1 w2 w3 : same_env w1 w2 -> same_env w2 w3 -> same_env w1 w3.
Proof. unfold same_env. intuition congruence. Qed.

(** Waiter [r] and its group are gone from [w] to [w']. *)
Record settled (r : wref) w w' : Prop := {
  se_chans : w_chans w' = drop_group r <$> w_chans w;
  se_env : same_env w w';
  se_view : forall x, ~ same_group r x -> view w' x = view w x;
  se_send : forall x c, same_group r x -> ~ send_waiting w' x c;
  se_recv : forall x c, same_group r x -> ~ recv_waiting w' x c;
}.

Lemma settled_send r w w' : settled r w w' -> forall x c,
  send_waiting w' x c <-> send_waiting w x c /\ ~ same_group r x.
Proof.
  intros [_ _ Hv Hs _] x c. destruct (decide (same_group r x)) as [Hg|Hg].
  - split; [intros H; by apply Hs in H|tauto].
  - unfold send_waiting. rewrite (Hv x Hg). tauto.
Qed.
Lemma settled_recv r w w' : settled r w w' -> forall x c,
  recv_waiting w' x c <-> recv_waiting w x c /\ ~ same_group r x.
Proof.
  intros [_ _ Hv _ Hs] x c. destruct (decide (same_group r x)) as [Hg|Hg].
  - split; [intros H; by apply Hs in H|tauto].
  - unfold recv_waiting. rewrite (Hv x Hg). tauto.
Qed.

(** The settled waiter's own object is well formed. *)
Definition group_ok (r : wref) w : Prop :=
  match r with
  | WSend a => forall x, w_sends w !! a = Some x -> send_ok x
  | WRecv a => forall x, w_recvs w !! a = Some x -> recv_ok x
  | WSelect s _ => forall S, w_sels w !! s = Some S -> sel_ok S /\ is_Some (sel_winner S)
  end.

Lemma view_send w w' a : view w' (WSend a) = view w (WSend a) -> w_sends w' !! a = w_sends w !! a.
Proof. simpl. congruence. Qed.
Lemma view_recv w w' a : view w' (WRecv a) = view w (WRecv a) -> w_recvs w' !! a = w_recvs w !! a.
Proof. simpl. congruence. Qed.
Lemma view_sel w w' s i : view w' (WSelect s i) = view w (WSelect s i) -> w_sels w' !! s = w_sels w !! s.
Proof. simpl. congruence. Qed.

Lemma elem_of_drop_if p (q : list wref) r :
  r ∈ filter (fun r => p r = false) q <-> r ∈ q /\ p r = false.
Proof. rewrite list_elem_of_filter. tauto. Qed.

Lemma settled_coh_gen h0 h r w w' :
  coh h0 w -> (forall x, ~ same_group r x -> x ∉ h <-> x ∉ h0) ->
  settled r w w' -> group_ok r w' -> coh h w'.
Proof.
  intros Hc Hself Hs Hg. pose proof (settled_send _ _ _ Hs) as Hsend. pose proof (settled_recv _ _ _ Hs) as Hrecv.
  destruct Hc as [Ho Hn Hms Hmr He Hsel Hsnd Hrcv Hval Htk Hcu]. destruct Hs as [Hch [Hcur _] Hv Hns Hnr].
  assert (Hlk : forall c ch', w_chans w' !! c = Some ch' ->
    exists ch, w_chans w !! c = Some ch /\ ch' = drop_group r ch).
  { intros c ch'. rewrite Hch, lookup_fmap, fmap_Some. done. }
  assert (Hgr : forall x, bool_decide (same_group r x) = false <-> ~ same_group r x).
  { intros x. apply bool_decide_eq_false. }
  split.
  - intros c ch' (ch & E & ->)%Hlk. rewrite Hcur. exact (Ho c ch E).
  - intros c ch' (ch & E & ->)%Hlk. destruct (Hn c ch E). split; by apply NoDup_filter.
  - intros c ch' x (ch & E & ->)%Hlk. unfold drop_group. rewrite drop_if_senders, elem_of_drop_if.
    rewrite (Hms c ch x E), Hsend, Hgr. specialize (Hself x). tauto.
  - intros c ch' x (ch & E & ->)%Hlk. unfold drop_group. rewrite drop_if_receivers, elem_of_drop_if.
    rewrite (Hmr c ch x E), Hrecv, Hgr. specialize (Hself x). tauto.
  - intros c x Hw. rewrite Hch, lookup_fmap, fmap_is_Some. apply (He c x).
    rewrite Hsend, Hrecv in Hw. tauto.
  - intros s S E. destruct (decide (same_group r (WSelect s 0))) as [Hgs|Hgs].
    + destruct r; simpl in *; subst; try done. by apply Hg.
    + apply (Hsel s). rewrite <- E. symmetry. apply (view_sel w w' s 0), Hv, Hgs.
  - intros a x E. destruct (decide (same_group r (WSend a))) as [Hgs|Hgs].
    + destruct r; simpl in *; subst; try done. by apply Hg.
    + apply (Hsnd a). by rewrite <- (view_send w w' a (Hv _ Hgs)).
  - intros a x E. destruct (decide (same_group r (WRecv a))) as [Hgs|Hgs].
    + destruct r; simpl in *; subst; try done. by apply Hg.
    + apply (Hrcv a). by rewrite <- (view_recv w w' a (Hv _ Hgs)).
  - intros a x E Hw Hh. destruct (decide (same_group r (WSend a))) as [Hgs|Hgs].
    + destruct (Hns (WSend a) (sa_channel x) Hgs). unfold send_waiting; simpl. by rewrite E.
    + apply (Hval a x); [by rewrite <- (view_send w w' a (Hv _ Hgs))|done|].
      by apply (Hself _ Hgs).
  - intros s S i c v q t E Hr Hh. destruct (decide (same_group r (WSelect s i))) as [Hgs|Hgs].
    + destruct r as [| |s' j]; simpl in *; subst; try done. destruct (Hg S E) as [Hok [k Hk]].
      pose proof (so_regs _ Hok _ _ Hr) as Hd. rewrite Hk in Hd. done.
    + apply (Htk s S i c v q t); [by rewrite <- (view_sel w w' s i (Hv _ Hgs))|done|].
      by apply (Hself _ Hgs).
  - by rewrite Hcur.
Qed.

Lemma settled_coh h r w w' :
  coh (r :: h) w -> settled r w w' -> group_ok r w' -> coh h w'.
Proof.
  intros Hc. apply (settled_coh_gen (r :: h)); [done|]. intros x Hg. rewrite not_elem_of_cons.
  split; [|tauto]. intros Hx. split; [|done]. intros ->. apply Hg, same_group_refl.
Qed.
End inv.
