(* ===== verification/ChannelComplete.v ===== *)
(** * Completing and cancelling waiters

    The effect of [Complete], [CompleteValue], [CompleteClosed] and [Cancel] on
    a coherent world: they do not abort, settle exactly the waiter's group and
    schedule a suspended coroutine. *)

From S2P Require Import Prelude Channel ChannelRing ChannelInv.
Import Channel.

Section complete.
Context {T : Type}.
Implicit Types (w : world T) (ch : chan T) (g : reg T).

Lemma kill_dead g : dead (kill g).
Proof. by destruct g. Qed.
Lemma dead_not_live c (v : T) a q t : dead (RegSend c v a q t) -> a = false /\ q = false.
Proof. unfold dead. simpl. naive_solver. Qed.
Lemma dead_not_live_recv c o a q : dead (T := T) (RegRecv c o a q) -> a = false /\ q = false.
Proof. unfold dead. simpl. naive_solver. Qed.

Lemma dead_not_queued g : dead g -> ~ is_queued g.
Proof.
  destruct g; simpl; [intros [_ ->]%dead_not_live|intros [_ ->]%dead_not_live_recv|]; intuition discriminate.
Qed.

Lemma deref_Some {A} (m : gmap nat A) i x : m !! i = Some x -> deref m i = Val x.
Proof. intros E. unfold deref. by rewrite E. Qed.

Lemma owned_chan_Some c ch w :
  w_chans w !! c = Some ch -> w_current w = Some (scheduler_ ch) -> owned_chan c w = Val ch.
Proof.
  intros E Ho. unfold owned_chan, CheckOwner. rewrite (deref_Some _ _ _ E). simpl.
  by rewrite check_bool_decide.
Qed.

(** ** Cancelling the cases of one select *)

Definition sel_refs (s : nat) (p : nat -> bool) (r : wref) : bool :=
  match r with WSelect s' j => bool_decide (s = s') && p j | _ => false end.

(** The queues hold exactly the queued registrations of select [s]. *)
Record sel_queued (s : nat) (rs : list (reg T)) w : Prop := {
  sq_owner : forall c ch, w_chans w !! c = Some ch -> w_current w = Some (scheduler_ ch);
  sq_send : forall c ch j, w_chans w !! c = Some ch ->
    WSelect s j ∈ senders_ ch <-> exists v t, rs !! j = Some (RegSend c v true true t);
  sq_recv : forall c ch j, w_chans w !! c = Some ch ->
    WSelect s j ∈ receivers_ ch <-> exists o, rs !! j = Some (RegRecv c o true true);
  sq_active : forall j g, rs !! j = Some g -> live g \/ dead g;
  sq_chan : forall j c, (exists v t, rs !! j = Some (RegSend c v true true t)) \/
    (exists o, rs !! j = Some (RegRecv c o true true)) -> is_Some (w_chans w !! c);
}.

(** The registrations [p] selects are dead and out of the queues. *)
Record cut (s : nat) (p : nat -> bool) (S S' : select T) w w' : Prop := {
  cu_chans : w_chans w' = drop_if (sel_refs s p) <$> w_chans w;
  cu_sels : w_sels w' = <[s := S']> (w_sels w);
  cu_same : sel_winner S' = sel_winner S /\ sel_phase S' = sel_phase S /\
    sel_handle S' = sel_handle S /\ sel_scheduler S' = sel_scheduler S;
  cu_length : length (sel_regs S') = length (sel_regs S);
  cu_regs : forall j g, sel_regs S !! j = Some g ->
    sel_regs S' !! j = Some (if p j then kill g else g);
  cu_sends : w_sends w' = w_sends w;
  cu_recvs : w_recvs w' = w_recvs w;
  cu_outs : w_outs w' = w_outs w;
  cu_env : same_env w w';
  cu_ready : w_ready w' = w_ready w;
  cu_trace : w_trace w' = w_trace w;
}.

(** No reference [p] selects is in a queue. *)
Definition unqueued (s : nat) (p : nat -> bool) w : Prop :=
  forall c ch j, w_chans w !! c = Some ch -> p j = true ->
    (WSelect s j ∉ senders_ ch) /\ (WSelect s j ∉ receivers_ ch).

Lemma unqueued_drop s p w :
  unqueued s p w -> w_chans w = drop_if (sel_refs s p) <$> w_chans w.
Proof.
  intros Hu. apply map_eq. intros c. rewrite lookup_fmap.
  destruct (w_chans w !! c) as [ch|] eqn:Ec; [|done].
  simpl. f_equal. symmetry. apply drop_if_none. intros [a|a|s' j] Hr; simpl; try done.
  case_bool_decide as Hs; [subst s'; simpl|done].
  destruct (p j) eqn:Hp; [|done]. destruct (Hu c ch j Ec Hp). tauto.
Qed.

Lemma cut_dead s p S w :
  w_sels w !! s = Some S -> unqueued s p w ->
  (forall j g, sel_regs S !! j = Some g -> p j = true -> dead g) -> cut s p S S w w.
Proof.
  intros E Hq Hp. split; try done.
  - by apply unqueued_drop.
  - by rewrite insert_id.
  - intros j g Hj. destruct (p j) eqn:Ep; [|done]. by rewrite (Hp j g Hj Ep).
Qed.

Lemma cut_kill s j g S w :
  w_sels w !! s = Some S -> sel_regs S !! j = Some g -> unqueued s (Nat.eqb j) w ->
  cut s (Nat.eqb j) S (set_regs (<[j := kill g]> (sel_regs S)) S) w (put_reg s j (kill g) w).
Proof.
  intros E Hj Hq. split; try done; simpl.
  - by apply unqueued_drop.
  - rewrite <- (insert_id (w_sels w) s S E) at 1. by rewrite alter_insert_eq, ?insert_insert_eq.
  - apply length_insert.
  - intros j' g' Hj'. destruct (Nat.eqb_spec j j') as [<-|Hne].
    + rewrite list_lookup_insert_eq by (by eapply lookup_lt_Some). congruence.
    + by rewrite list_lookup_insert_ne.
Qed.

Lemma cut_trans s p q S1 S2 S3 w1 w2 w3 :
  cut s p S1 S2 w1 w2 -> cut s q S2 S3 w2 w3 -> cut s (fun j => q j || p j) S1 S3 w1 w3.
Proof.
  intros [A1 A2 A3 A4 A5 A6 A7 A8 A9 A10 A11] [B1 B2 B3 B4 B5 B6 B7 B8 B9 B10 B11].
  split; try congruence.
  - rewrite B1, A1, <- map_fmap_compose. apply map_fmap_ext. intros c ch _. simpl.
    rewrite drop_if_drop_if. apply drop_if_ext. intros [] _; simpl; try done.
    by rewrite andb_orb_distrib_r.
  - rewrite B2, A2. apply insert_insert_eq.
  - intuition congruence.
  - intros j g Hj. rewrite (B5 _ _ (A5 _ _ Hj)). destruct (p j), (q j); simpl; try done. by destruct g.
  - by eapply same_env_trans.
Qed.

(** Taking one waiter out of one queue is taking it out of all of them. *)
Lemma remove_sender_chans s j c ch rs w :
  w_chans w !! c = Some ch -> sel_queued s rs w -> (exists v t, rs !! j = Some (RegSend c v true true t)) ->
  <[c := set_senders (remove (WSelect s j) (senders_ ch)) ch]> (w_chans w) =
  drop_if (sel_refs s (Nat.eqb j)) <$> w_chans w.
Proof.
  intros Ec Hq (v & t & Hj). apply map_eq. intros c'. rewrite lookup_fmap.
  destruct (decide (c' = c)) as [->|Hne].
  - rewrite lookup_insert_eq, Ec. simpl. f_equal. unfold drop_if, remove.
    rewrite (filter_all _ (receivers_ ch)); [destruct ch; unfold set_senders, set_receivers; simpl; f_equal|].
    + apply list_filter_iff. intros [a|a|s' k]; simpl; [done|done|].
      case_bool_decide; simpl; [|naive_solver]. destruct (Nat.eqb_spec j k); naive_solver.
    + intros [a|a|s' k] Hr; simpl; try done. case_bool_decide; [subst s'|done]. simpl.
      apply Nat.eqb_neq. intros <-. apply (sq_recv _ _ _ Hq c ch j Ec) in Hr as (o & Hr). congruence.
  - rewrite lookup_insert_ne by done. destruct (w_chans w !! c') as [ch'|] eqn:Ec'; [|done].
    simpl. f_equal. symmetry. apply drop_if_none. intros [a|a|s' k] Hr; simpl; try done.
    case_bool_decide; [subst s'|done]. simpl. apply Nat.eqb_neq. intros <-.
    destruct Hr as [Hr|Hr].
    + apply (sq_send _ _ _ Hq c' ch' j Ec') in Hr as (? & ? & Hr). congruence.
    + apply (sq_recv _ _ _ Hq c' ch' j Ec') in Hr as (? & Hr). congruence.
Qed.

Lemma remove_receiver_chans s j c ch rs w :
  w_chans w !! c = Some ch -> sel_queued s rs w -> (exists o, rs !! j = Some (RegRecv c o true true)) ->
  <[c := set_receivers (remove (WSelect s j) (receivers_ ch)) ch]> (w_chans w) =
  drop_if (sel_refs s (Nat.eqb j)) <$> w_chans w.
Proof.
  intros Ec Hq (o & Hj). apply map_eq. intros c'. rewrite lookup_fmap.
  destruct (decide (c' = c)) as [->|Hne].
  - rewrite lookup_insert_eq, Ec. simpl. f_equal. unfold drop_if, remove.
    rewrite (filter_all _ (senders_ ch)); [destruct ch; unfold set_senders, set_receivers; simpl; f_equal|].
    + apply list_filter_iff. intros [a|a|s' k]; simpl; [done|done|].
      case_bool_decide; simpl; [|naive_solver]. destruct (Nat.eqb_spec j k); naive_solver.
    + intros [a|a|s' k] Hr; simpl; try done. case_bool_decide; [subst s'|done]. simpl.
      apply Nat.eqb_neq. intros <-. apply (sq_send _ _ _ Hq c ch j Ec) in Hr as (? & ? & Hr). congruence.
  - rewrite lookup_insert_ne by done. destruct (w_chans w !! c') as [ch'|] eqn:Ec'; [|done].
    simpl. f_equal. symmetry. apply drop_if_none. intros [a|a|s' k] Hr; simpl; try done.
    case_bool_decide; [subst s'|done]. simpl. apply Nat.eqb_neq. intros <-.
    destruct Hr as [Hr|Hr].
    + apply (sq_send _ _ _ Hq c' ch' j Ec') in Hr as (? & ? & Hr). congruence.
    + apply (sq_recv _ _ _ Hq c' ch' j Ec') in Hr as (? & Hr). congruence.
Qed.

(** A cut keeps the queues and the remaining registrations in step. *)
Lemma cut_queued s p S S' w w' :
  sel_queued s (sel_regs S) w -> cut s p S S' w w' -> sel_queued s (sel_regs S') w'.
Proof.
  intros [Q1 Q2 Q3 Q4 Q5] [A1 A2 A3 A4 A5 A6 A7 A8 A9 A10 A11].
  assert (Hlk : forall c ch', w_chans w' !! c = Some ch' ->
    exists ch, w_chans w !! c = Some ch /\ ch' = drop_if (sel_refs s p) ch).
  { intros c ch'. rewrite A1, lookup_fmap, fmap_Some. done. }
  assert (Hreg : forall j g', sel_regs S' !! j = Some g' ->
    exists g, sel_regs S !! j = Some g /\ g' = if p j then kill g else g).
  { intros j g' Hj. destruct (lookup_lt_is_Some_2 (sel_regs S) j) as [g Hg].
    - rewrite <- A4. by eapply lookup_lt_Some.
    - exists g. split; [done|]. rewrite (A5 _ _ Hg) in Hj. congruence. }
  assert (Hp : forall j, sel_refs s p (WSelect s j) = p j).
  { intros j. simpl. by rewrite bool_decide_eq_true_2. }
  assert (Hrs : forall j c v t, sel_regs S' !! j = Some (RegSend c v true true t) <->
    sel_regs S !! j = Some (RegSend c v true true t) /\ p j = false).
  { intros j c v t. split.
    - intros Hj. destruct (Hreg j _ Hj) as (g & Hg & E). destruct (p j); [by destruct g|].
      by rewrite Hg, E.
    - intros [Hj Hpj]. by rewrite (A5 _ _ Hj), Hpj. }
  assert (Hrr : forall j c o, sel_regs S' !! j = Some (RegRecv c o true true) <->
    sel_regs S !! j = Some (RegRecv c o true true) /\ p j = false).
  { intros j c o. split.
    - intros Hj. destruct (Hreg j _ Hj) as (g & Hg & E). destruct (p j); [by destruct g|].
      by rewrite Hg, E.
    - intros [Hj Hpj]. by rewrite (A5 _ _ Hj), Hpj. }
  split.
  - intros c ch' (ch & E & ->)%Hlk. rewrite (proj1 A9). exact (Q1 c ch E).
  - intros c ch' j (ch & E & ->)%Hlk. rewrite drop_if_senders, elem_of_drop_if, Hp, (Q2 c ch j E).
    setoid_rewrite Hrs. naive_solver.
  - intros c ch' j (ch & E & ->)%Hlk. rewrite drop_if_receivers, elem_of_drop_if, Hp, (Q3 c ch j E).
    setoid_rewrite Hrr. naive_solver.
  - intros j g' (g & Hg & ->)%Hreg. destruct (p j); [right; apply kill_dead|by apply (Q4 j)].
  - intros j c H. rewrite A1, lookup_fmap, fmap_is_Some. apply (Q5 j).
    setoid_rewrite Hrs in H. setoid_rewrite Hrr in H. naive_solver.
Qed.

Lemma get_reg_Some s j S g w :
  w_sels w !! s = Some S -> sel_regs S !! j = Some g -> get_reg s j w = Val (S, g).
Proof. intros E Hj. unfold get_reg. rewrite (deref_Some _ _ _ E). simpl. by rewrite Hj. Qed.

Lemma put_reg_sels s j g S w :
  w_sels w !! s = Some S ->
  w_sels (put_reg s j g w) = <[s := set_regs (<[j := g]> (sel_regs S)) S]> (w_sels w).
Proof.
  intros E. simpl. rewrite <- (insert_id (w_sels w) s S E) at 1.
  by rewrite alter_insert_eq, ?insert_insert_eq.
Qed.

Lemma cut_cancel s j g S w w' :
  w_sels w !! s = Some S -> sel_regs S !! j = Some g ->
  w_chans w' = drop_if (sel_refs s (Nat.eqb j)) <$> w_chans w ->
  w_sels w' = <[s := set_regs (<[j := kill g]> (sel_regs S)) S]> (w_sels w) ->
  w_sends w' = w_sends w -> w_recvs w' = w_recvs w -> w_outs w' = w_outs w ->
  same_env w w' -> w_ready w' = w_ready w -> w_trace w' = w_trace w ->
  cut s (Nat.eqb j) S (set_regs (<[j := kill g]> (sel_regs S)) S) w w'.
Proof.
  intros E Hj Hc Hs ? ? ? ? ? ?. split; try done; simpl.
  - apply length_insert.
  - intros j' g' Hj'. destruct (Nat.eqb_spec j j') as [<-|Hne].
    + rewrite list_lookup_insert_eq by (by eapply lookup_lt_Some). congruence.
    + by rewrite list_lookup_insert_ne.
Qed.

Lemma reg_Cancel_spec s j S g w :
  w_sels w !! s = Some S -> sel_regs S !! j = Some g -> sel_queued s (sel_regs S) w ->
  exists w' S', reg_Cancel s j w = Val w' /\ cut s (Nat.eqb j) S S' w w'.
Proof.
  intros E Hj Hq. unfold reg_Cancel. rewrite (get_reg_Some _ _ _ _ _ E Hj). cbn [mbind outcome_bind].
  assert (Hun : ~ is_queued g -> unqueued s (Nat.eqb j) w).
  { intros Hn c ch j' Ec <-%Nat.eqb_eq. split; intros Hr.
    - apply (sq_send _ _ _ Hq c ch j Ec) in Hr as (? & ? & Hr). rewrite Hj in Hr. simplify_eq. by apply Hn.
    - apply (sq_recv _ _ _ Hq c ch j Ec) in Hr as (? & Hr). rewrite Hj in Hr. simplify_eq. by apply Hn. }
  assert (Hdead : dead g -> exists w' S', Val w = Val w' /\ cut s (Nat.eqb j) S S' w w').
  { intros Hd. exists w, S. split; [done|]. apply cut_dead; [done| |].
    - apply Hun. intros Hqd. destruct g; simpl in *; [apply dead_not_live in Hd|apply dead_not_live_recv in Hd|done];
        destruct_and?; congruence.
    - intros j' g' Hj' <-%Nat.eqb_eq. congruence. }
  destruct g as [c v active queued taken|c o active queued|].
  - destruct active; simpl; [|apply Hdead; destruct (sq_active _ _ _ Hq _ _ Hj); done].
    destruct queued; [|eexists _, _; split; [done|];
      apply (cut_kill s j (RegSend c v true false taken)); try done; apply Hun; done].
    destruct (sq_chan _ _ _ Hq j c) as [ch Ec]; [left; eauto|].
    unfold CancelSend. rewrite (owned_chan_Some _ _ _ Ec (sq_owner _ _ _ Hq _ _ Ec)).
    cbn [mbind outcome_bind].
    assert (Hin : WSelect s j ∈ senders_ ch) by (apply (sq_send _ _ _ Hq c ch j Ec); eauto).
    rewrite (check_bool_decide _ Hin). cbn [mbind outcome_bind]. unfold send_Cancelled.
    rewrite (get_reg_Some s j S (RegSend c v true true taken)) by done.
    cbn [mbind outcome_bind]. eexists _, _. split; [done|].
    apply (cut_cancel s j (RegSend c v true true taken)); try done;
      [|exact (put_reg_sels s j _ S (put_chan c (set_senders (remove (WSelect s j) (senders_ ch)) ch) w) E)].
    apply (remove_sender_chans s j c ch (sel_regs S)); eauto.
  - destruct active; simpl; [|apply Hdead; destruct (sq_active _ _ _ Hq _ _ Hj); done].
    destruct queued; [|eexists _, _; split; [done|];
      apply (cut_kill s j (RegRecv c o true false)); try done; apply Hun; done].
    destruct (sq_chan _ _ _ Hq j c) as [ch Ec]; [right; eauto|].
    unfold CancelReceive. rewrite (owned_chan_Some _ _ _ Ec (sq_owner _ _ _ Hq _ _ Ec)).
    cbn [mbind outcome_bind].
    assert (Hin : WSelect s j ∈ receivers_ ch) by (apply (sq_recv _ _ _ Hq c ch j Ec); eauto).
    rewrite (check_bool_decide _ Hin). cbn [mbind outcome_bind]. unfold recv_Cancelled.
    rewrite (get_reg_Some s j S (RegRecv c o true true)) by done.
    cbn [mbind outcome_bind]. eexists _, _. split; [done|].
    apply (cut_cancel s j (RegRecv c o true true)); try done;
      [|exact (put_reg_sels s j _ S (put_chan c (set_receivers (remove (WSelect s j) (receivers_ ch)) ch) w) E)].
    apply (remove_receiver_chans s j c ch (sel_regs S)); eauto.
  - by apply Hdead.
Qed.

Lemma cut_ext s p q S S' w w' :
  sel_queued s (sel_regs S) w ->
  (forall j, (j < length (sel_regs S))%nat -> p j = q j) -> cut s p S S' w w' -> cut s q S S' w w'.
Proof.
  intros Hq Hpq [A1 A2 A3 A4 A5 A6 A7 A8 A9 A10 A11]. split; try done.
  - rewrite A1. apply map_fmap_ext. intros c ch Ec. apply drop_if_ext.
    intros [a|a|s' j] Hr; simpl; try done. case_bool_decide; [subst s'|done]. simpl. apply Hpq.
    destruct Hr as [Hr|Hr].
    + apply (sq_send _ _ _ Hq c ch j Ec) in Hr as (? & ? & Hr). by eapply lookup_lt_Some.
    + apply (sq_recv _ _ _ Hq c ch j Ec) in Hr as (? & Hr). by eapply lookup_lt_Some.
  - intros j g Hj. rewrite <- Hpq by (by eapply lookup_lt_Some). by apply A5.
Qed.

Lemma cut_lookup s p S S' w w' : cut s p S S' w w' -> w_sels w' !! s = Some S'.
Proof. intros H. rewrite (cu_sels _ _ _ _ _ _ H). apply lookup_insert_eq. Qed.

Lemma CancelLosers_spec s winner n : forall k S w,
  w_sels w !! s = Some S -> sel_queued s (sel_regs S) w -> (k + n = length (sel_regs S))%nat ->
  exists w' S', CancelLosers s winner k n w = Val w' /\
    cut s (fun j => (k <=? j)%nat && negb (Nat.eqb j winner)) S S' w w'.
Proof.
  induction n as [|n IH]; intros k S w E Hq Hk; cbn [CancelLosers].
  { exists w, S. split; [done|]. apply (cut_ext s (fun _ => false)); [done| |].
    - intros j Hj. symmetry. rewrite (proj2 (Nat.leb_gt _ _)) by lia. done.
    - apply cut_dead; [done|by intros ?|done]. }
  destruct (lookup_lt_is_Some_2 (sel_regs S) k) as [g Hg]; [lia|].
  assert (Hstep : exists w1 S1,
    (if bool_decide (k = winner) then Val w else reg_Cancel s k w) = Val w1 /\
    cut s (fun j => Nat.eqb k j && negb (Nat.eqb j winner)) S S1 w w1).
  { case_bool_decide as Hw.
    - exists w, S. split; [done|]. apply (cut_ext s (fun _ => false)); [done| |].
      + intros j _. subst. destruct (Nat.eqb_spec winner j) as [<-|]; simpl; [|done].
        by rewrite Nat.eqb_refl.
      + apply cut_dead; [done|by intros ?|done].
    - destruct (reg_Cancel_spec s k S g w E Hg Hq) as (w1 & S1 & E1 & Hc). exists w1, S1.
      split; [done|]. eapply cut_ext; [done| |done]. intros j _. simpl.
      destruct (Nat.eqb_spec k j) as [<-|]; simpl; [|done]. by rewrite (proj2 (Nat.eqb_neq _ _)). }
  destruct Hstep as (w1 & S1 & -> & Hc1). cbn [mbind outcome_bind].
  destruct (IH (k + 1)%nat S1 w1) as (w2 & S2 & E2 & Hc2).
  - by eapply cut_lookup.
  - by eapply cut_queued.
  - rewrite (cu_length _ _ _ _ _ _ Hc1). lia.
  - exists w2, S2. split; [done|]. eapply cut_ext; [done| |eapply cut_trans; eauto].
    intros j _. simpl.
    destruct (Nat.leb_spec (k + 1) j), (Nat.leb_spec k j), (Nat.eqb_spec k j); simpl; try lia;
      by rewrite ?orb_false_r.
Qed.

(** ** Finishing a select whose winner is known *)

(** The work a finishing select hands to its scheduler. *)
Definition wakeup (S : select T) : list (nat * nat) :=
  match sel_phase S, sel_scheduler S, sel_handle S with
  | kWaiting, Some sc, Some hd => [(sc, hd)]
  | _, _, _ => []
  end.

Lemma finish_select_spec s i g S w :
  w_sels w !! s = Some S -> sel_winner S = Some i -> sel_queued s (sel_regs S) w ->
  sel_regs S !! i = Some g -> dead g ->
  (sel_phase S = kWaiting -> is_Some (sel_handle S) /\ is_Some (sel_scheduler S)) ->
  exists w' S', (w ← CaseCompleted s i w; ResumeIfWaiting s w) = Val w' /\
    w_chans w' = drop_group (WSelect s i) <$> w_chans w /\
    w_sels w' = <[s := S']> (w_sels w) /\ sel_ok S' /\ sel_winner S' = Some i /\
    w_sends w' = w_sends w /\ w_recvs w' = w_recvs w /\ w_outs w' = w_outs w /\
    same_env w w' /\ w_trace w' = w_trace w /\ w_ready w' = w_ready w ++ wakeup S.
Proof.
  intros E Hw Hq Hi Hd Hph. unfold CaseCompleted. rewrite (deref_Some _ _ _ E). cbn [mbind outcome_bind].
  destruct (CancelLosers_spec s i (length (sel_regs S)) 0 S w E Hq ltac:(lia)) as (w1 & S1 & -> & Hc).
  cbn [mbind outcome_bind].
  assert (Hdead : forall j g', sel_regs S1 !! j = Some g' -> dead g').
  { intros j g' Hj. destruct (lookup_lt_is_Some_2 (sel_regs S) j) as [g0 Hg0].
    - rewrite <- (cu_length _ _ _ _ _ _ Hc). by eapply lookup_lt_Some.
    - rewrite (cu_regs _ _ _ _ _ _ Hc _ _ Hg0) in Hj. destruct (Nat.eqb_spec j i) as [->|Hne]; simpl in Hj.
      + congruence.
      + injection Hj as <-. apply kill_dead. }
  assert (Hch : w_chans w1 = drop_group (WSelect s i) <$> w_chans w).
  { rewrite (cu_chans _ _ _ _ _ _ Hc). apply map_fmap_ext. intros c ch Ec. apply drop_if_ext.
    intros [a|a|s' j] Hr; simpl; try done. apply eq_iff_eq_true.
    rewrite andb_true_iff, !bool_decide_eq_true, negb_true_iff, Nat.eqb_neq. split; [naive_solver|].
    intros <-. split; [done|]. intros ->.
    destruct Hr as [Hr|Hr].
    - apply (sq_send _ _ _ Hq c ch i Ec) in Hr as (? & ? & Hr). rewrite Hi in Hr. by simplify_eq.
    - apply (sq_recv _ _ _ Hq c ch i Ec) in Hr as (? & Hr). rewrite Hi in Hr. by simplify_eq. }
  destruct Hc as [_ Hsel (Ew & Ep & Eh & Es) Hlen _ Hsd Hrv Hou Hen Hrd Htr].
  assert (Hlt : (i < length (sel_regs S1))%nat) by (rewrite Hlen; by eapply lookup_lt_Some).
  assert (Hok : forall ph, ph <> kWaiting ->
    sel_ok (mkSelect (sel_regs S1) (Some i) ph (sel_handle S1) (sel_scheduler S1))).
  { intros ph Hne. split; simpl; [eauto|naive_solver|done|eauto|].
    intros _ j g' Hj. by apply dead_not_queued, (Hdead j). }
  assert (Hl : w_sels w1 !! s = Some S1) by (rewrite Hsel; apply lookup_insert_eq).
  unfold ResumeIfWaiting. rewrite (deref_Some _ _ _ Hl). cbn [mbind outcome_bind].
  rewrite Ep, Es, Eh. unfold wakeup. case_bool_decide as Hpw; simpl.
  - destruct (Hph Hpw) as [[hd Hhd] [sc Hsc]]. rewrite Hpw, Hhd, Hsc. simpl.
    eexists _, _. split; [reflexivity|]. simpl. rewrite Hsel, insert_insert_eq, Ew, Hw, Hrd.
    split_and!; try done. specialize (Hok kScheduled ltac:(done)). by rewrite Eh, Es, Hhd, Hsc in Hok.
  - exists w1, S1. rewrite Hrd. split_and!; try done.
    + specialize (Hok (sel_phase S1) ltac:(congruence)). destruct S1; simpl in *. congruence.
    + congruence.
    + destruct (sel_phase S); try done; by rewrite app_nil_r.
Qed.

(** ** Completing one waiter of a coherent world *)

(** The waiters about to be completed besides [r] belong to other groups. *)
Definition apart (r : wref) (h : list wref) : Prop := forall x, x ∈ h -> ~ same_group r x.

Lemma coh_sel_queued h s i S g w w' :
  coh (WSelect s i :: h) w -> apart (WSelect s i) h ->
  w_sels w !! s = Some S -> sel_regs S !! i = Some g ->
  w_chans w' = w_chans w -> w_current w' = w_current w ->
  sel_queued s (<[i := kill g]> (sel_regs S)) w'.
Proof.
  intros Hc Ha E Hi Hch Hcur.
  assert (Hup : forall j g', <[i := kill g]> (sel_regs S) !! j = Some g' ->
    (j = i /\ g' = kill g) \/ (j <> i /\ sel_regs S !! j = Some g')).
  { intros j g' Hj. apply list_lookup_insert_Some in Hj as [(-> & -> & _)|[? ?]]; auto. }
  assert (Hne : forall j g', j <> i -> sel_regs S !! j = Some g' ->
    <[i := kill g]> (sel_regs S) !! j = Some g').
  { intros j g' Hj Hl. by rewrite list_lookup_insert_ne. }
  assert (Hnh : forall j, WSelect s j ∉ WSelect s i :: h <-> j <> i).
  { intros j. split; [set_solver|]. intros Hj. apply not_elem_of_cons. split; [congruence|].
    intros Hin. by apply (Ha _ Hin). }
  split.
  - intros c ch. rewrite Hch, Hcur. apply (co_owner _ _ Hc).
  - intros c ch j. rewrite Hch. intros Ec. rewrite (co_senders _ _ Hc c ch _ Ec), Hnh.
    unfold send_waiting; simpl. rewrite E. simpl. split.
    + intros [(v & t & Hj) Hji]. eauto.
    + intros (v & t & [[-> Hk]|[? ?]]%Hup); [by destruct g|eauto].
  - intros c ch j. rewrite Hch. intros Ec. rewrite (co_receivers _ _ Hc c ch _ Ec), Hnh.
    unfold recv_waiting; simpl. rewrite E. simpl. split.
    + intros [(o & Hj) Hji]. eauto.
    + intros (o & [[-> Hk]|[? ?]]%Hup); [by destruct g|eauto].
  - intros j g' [[-> ->]|[Hji Hj]]%Hup; [right; apply kill_dead|].
    pose proof (so_regs _ (co_sels _ _ Hc s S E) j g' Hj). destruct (sel_winner S); auto.
  - intros j c Hj. rewrite Hch. apply (co_exists _ _ Hc c (WSelect s j)).
    unfold send_waiting, recv_waiting; simpl. rewrite E. simpl.
    destruct Hj as [(v & t & [[-> Hk]|[? ?]]%Hup)|(o & [[-> Hk]|[? ?]]%Hup)];
      try (by destruct g); eauto.
Qed.

(** Winning with case [i], whatever the case then stores or records. *)
Lemma win_select_spec h s i S g w (f : world T -> world T) :
  coh (WSelect s i :: h) w -> apart (WSelect s i) h ->
  w_sels w !! s = Some S -> sel_winner S = None -> sel_regs S !! i = Some g ->
  (forall w, w_chans (f w) = w_chans w /\ w_sends (f w) = w_sends w /\ w_recvs (f w) = w_recvs w /\
     w_sels (f w) = w_sels w /\ w_ready (f w) = w_ready w /\ same_env w (f w)) ->
  exists w1 w2, TryWin s i (put_reg s i (kill g) w) = Val (true, w1) /\
    w_outs w1 = w_outs w /\ w_trace w1 = w_trace w /\
    (w ← CaseCompleted s i (f w1); ResumeIfWaiting s w) = Val w2 /\
    coh h w2 /\ settled (WSelect s i) w w2 /\
    w_outs w2 = w_outs (f w1) /\ w_trace w2 = w_trace (f w1) /\ w_ready w2 = w_ready w ++ wakeup S.
Proof.
  intros Hc Ha E Hwin Hi Hf. pose proof (co_sels _ _ Hc s S E) as Hok.
  set (w0 := put_reg s i (kill g) w).
  assert (E0 : w_sels w0 = <[s := set_regs (<[i := kill g]> (sel_regs S)) S]> (w_sels w))
    by (by apply put_reg_sels).
  unfold TryWin. rewrite (deref_Some _ _ (set_regs (<[i := kill g]> (sel_regs S)) S))
    by (rewrite E0; apply lookup_insert_eq).
  cbn [mbind outcome_bind]. unfold Completed. simpl. rewrite Hwin. simpl.
  set (S1 := mkSelect (<[i := kill g]> (sel_regs S)) (Some i) (sel_phase S) (sel_handle S) (sel_scheduler S)).
  set (w1 := put_sel s S1 w0). destruct (Hf w1) as (F1 & F2 & F3 & F4 & F5 & F6).
  assert (E1 : w_sels (f w1) = <[s := S1]> (w_sels w)).
  { rewrite F4. change (w_sels w1) with (<[s := S1]> (w_sels w0)). rewrite E0. apply insert_insert_eq. }
  destruct (finish_select_spec s i (kill g) S1 (f w1)) as
    (w2 & S2 & A0 & A1 & A2 & A3 & A4 & A5 & A6 & A7 & A8 & A9 & A10); try done.
  - rewrite E1. apply lookup_insert_eq.
  - apply (coh_sel_queued h s i S g w); try done. by rewrite (proj1 F6).
  - simpl. apply list_lookup_insert_eq. by eapply lookup_lt_Some.
  - apply kill_dead.
  - simpl. intros Hp. destruct (so_phase _ Hok Hp) as (_ & ? & ? & _). auto.
  - assert (Hs2 : w_sels w2 = <[s := S2]> (w_sels w)) by (rewrite A2, E1; apply insert_insert_eq).
    assert (Hdead : forall j g', sel_regs S2 !! j = Some g' -> dead g').
    { intros j g' Hj. pose proof (so_regs _ A3 j g' Hj) as Hd. by rewrite A4 in Hd. }
    assert (Hset : settled (WSelect s i) w w2).
    { split.
      - by rewrite A1, F1.
      - eapply same_env_trans; [|exact A8]. exact F6.
      - intros [a|a|s' j] Hg; simpl in *; [by rewrite A5, F2|by rewrite A6, F3|].
        rewrite Hs2. by rewrite lookup_insert_ne.
      - intros [a|a|s' j] c Hg; simpl in Hg; try done. subst s'.
        unfold send_waiting; simpl. rewrite Hs2, lookup_insert_eq. simpl.
        intros (v & t & Hj). by apply Hdead in Hj.
      - intros [a|a|s' j] c Hg; simpl in Hg; try done. subst s'.
        unfold recv_waiting; simpl. rewrite Hs2, lookup_insert_eq. simpl.
        intros (o & Hj). by apply Hdead in Hj. }
    exists w1, w2. split_and!; try done; [|by rewrite A10, F5].
    eapply settled_coh; eauto. simpl. intros S' HS'. rewrite Hs2, lookup_insert_eq in HS'.
    injection HS' as <-. split; [done|]. by rewrite A4.
Qed.

(** A sender, respectively a receiver, that can be completed. *)
Definition sender_pending w (r : wref) : Prop :=
  match r with
  | WSend a => exists x, w_sends w !! a = Some x /\ sa_waiting x = true /\ is_Some (w_chans w !! sa_channel x)
  | WSelect s i => exists S c v q t, w_sels w !! s = Some S /\ sel_winner S = None /\
      sel_regs S !! i = Some (RegSend c v true q t)
  | WRecv _ => False
  end.
Definition receiver_pending w (r : wref) (c : nat) : Prop :=
  match r with
  | WRecv a => exists x, w_recvs w !! a = Some x /\ ra_waiting x = true /\ ra_channel x = c /\
      is_Some (w_chans w !! c)
  | WSelect s i => exists S o q, w_sels w !! s = Some S /\ sel_winner S = None /\
      sel_regs S !! i = Some (RegRecv c o true q)
  | WSend _ => False
  end.

Lemma waiting_winner h s S w i g :
  coh h w -> w_sels w !! s = Some S -> sel_regs S !! i = Some g -> live g -> ~ dead g ->
  sel_winner S = None.
Proof.
  intros Hc E Hi _ Hd. pose proof (so_regs _ (co_sels _ _ Hc s S E) i g Hi) as H.
  by destruct (sel_winner S).
Qed.

Lemma send_waiting_pending h w r c : coh h w -> send_waiting w r c -> sender_pending w r.
Proof.
  intros Hc Hw. pose proof (co_exists _ _ Hc c r (or_introl Hw)) as Hex.
  unfold send_waiting in Hw. destruct r as [a|a|s i]; simpl in *.
  - destruct (w_sends w !! a) as [x|] eqn:E; [|done]. destruct Hw as [? <-]. eauto.
  - by destruct (w_recvs w !! a).
  - destruct (w_sels w !! s) as [S|] eqn:E; [|done]. destruct Hw as (v & t & Hi).
    exists S, c, v, true, t. split_and!; try done. eapply waiting_winner; eauto; done.
Qed.
Lemma recv_waiting_pending h w r c : coh h w -> recv_waiting w r c -> receiver_pending w r c.
Proof.
  intros Hc Hw. pose proof (co_exists _ _ Hc c r (or_intror Hw)) as Hex.
  unfold recv_waiting in Hw. destruct r as [a|a|s i]; simpl in *.
  - by destruct (w_sends w !! a).
  - destruct (w_recvs w !! a) as [x|] eqn:E; [|done]. destruct Hw as [? <-]. eauto 10.
  - destruct (w_sels w !! s) as [S|] eqn:E; [|done]. destruct Hw as (o & Hi).
    exists S, o, true. split_and!; try done. eapply waiting_winner; eauto; done.
Qed.

(** A waiter that is in no queue takes nothing out of the queues. *)
Lemma plain_drop h r w :
  coh (r :: h) w -> (forall s i, r <> WSelect s i) -> w_chans w = drop_group r <$> w_chans w.
Proof.
  intros Hc Hr. apply map_eq. intros c. rewrite lookup_fmap.
  destruct (w_chans w !! c) as [ch|] eqn:Ec; [|done]. simpl. f_equal. symmetry.
  apply drop_if_none. intros x Hx. apply bool_decide_eq_false. intros Hg.
  assert (x = r) as -> by (destruct r, x; simpl in Hg; subst; try done; by destruct (Hr s0 i)).
  destruct Hx as [Hx|Hx]; [apply (co_senders _ _ Hc c ch _ Ec) in Hx|apply (co_receivers _ _ Hc c ch _ Ec) in Hx];
    set_solver.
Qed.

Lemma send_Complete_spec h r w :
  coh (r :: h) w -> apart r h -> sender_pending w r ->
  exists w', send_Complete r w = Val w' /\ coh h w' /\ settled r w w' /\
    w_outs w' = w_outs w /\ w_trace w' = w_trace w.
Proof.
  intros Hc Ha Hp. destruct r as [a|a|s i]; simpl in Hp; [|done|].
  - destruct Hp as (x & E & Hw & [ch Ech]). unfold send_Complete.
    destruct (sd_waiting _ (co_sends _ _ Hc a x E) Hw) as [hd Hhd].
    rewrite (deref_Some _ _ _ E). cbn [mbind outcome_bind]. rewrite Hw. cbn [ALYRN_CHECK mbind outcome_bind].
    rewrite (deref_Some _ _ ch) by done. cbn [mbind outcome_bind]. rewrite Hhd. simpl.
    eexists. split; [reflexivity|].
    match goal with |- coh _ ?w' /\ _ => assert (Hs : settled (WSend a) w w') end.
    { split; simpl; try done.
      - by eapply plain_drop.
      - intros [b|b|s j] Hg; simpl in *; try done. by rewrite lookup_insert_ne.
      - intros [b|b|s j] c Hg; simpl in Hg; try done. subst b. unfold send_waiting; simpl.
        rewrite lookup_insert_eq. simpl. naive_solver.
      - intros [b|b|s j] c Hg; simpl in Hg; try done. subst b. unfold recv_waiting; simpl.
        tauto. }
    split_and!; try done. eapply settled_coh; eauto. simpl. intros x'.
    rewrite lookup_insert_eq. intros [= <-]. split; simpl; eauto.
  - destruct Hp as (S & c & v & q & t & E & Hwin & Hi). unfold send_Complete.
    rewrite (get_reg_Some _ _ _ _ _ E Hi). cbn [mbind outcome_bind negb].
    destruct (win_select_spec h s i S _ w (fun w => w) Hc Ha E Hwin Hi) as
      (w1 & w2 & -> & Ho & Ht & E2 & Hc2 & Hs2 & Ho2 & Ht2 & _); [done|].
    cbn [mbind outcome_bind negb]. exists w2. split_and!; try done; congruence.
Qed.

Lemma recv_complete_spec h r c value w :
  coh (r :: h) w -> apart r h -> receiver_pending w r c ->
  exists w', recv_complete r value w = Val w' /\ coh h w' /\ settled r w w' /\
    w_trace w' = w_trace w ++ match value with Some v => [Delivered c v] | None => [] end.
Proof.
  intros Hc Ha Hp. destruct r as [a|a|s i]; simpl in Hp; [done| |].
  - destruct Hp as (x & E & Hw & <- & [ch Ech]). unfold recv_complete, await_complete_receive.
    destruct (rv_waiting _ (co_recvs _ _ Hc a x E) Hw) as [hd Hhd].
    rewrite (deref_Some _ _ _ E). cbn [mbind outcome_bind]. rewrite Hw. cbn [ALYRN_CHECK mbind outcome_bind].
    rewrite (deref_Some _ _ ch) by (by destruct value). cbn [mbind outcome_bind]. rewrite Hhd. simpl.
    eexists. split; [reflexivity|].
    match goal with |- coh _ ?w' /\ _ => assert (Hs : settled (WRecv a) w w') end.
    { split; simpl.
      - destruct value; exact (plain_drop h (WRecv a) w Hc ltac:(done)).
      - by destruct value.
      - intros [b|b|s j] Hg; simpl in *; destruct value; simpl; try done; by rewrite lookup_insert_ne.
      - intros [b|b|s j] c' Hg; simpl in Hg; try done. subst b. unfold send_waiting; simpl.
        tauto.
      - intros [b|b|s j] c' Hg; simpl in Hg; try done. subst b. unfold recv_waiting; simpl.
        destruct value; simpl; rewrite lookup_insert_eq; simpl; naive_solver. }
    split_and!; try done; [|destruct value; simpl; by rewrite ?app_nil_r].
    eapply settled_coh; eauto. simpl. intros x'.
    destruct value; simpl; rewrite lookup_insert_eq; intros [= <-]; split; simpl; eauto.
  - destruct Hp as (S & o & q & E & Hwin & Hi). unfold recv_complete, reg_complete_receive.
    rewrite (get_reg_Some _ _ _ _ _ E Hi). cbn [mbind outcome_bind negb].
    destruct (win_select_spec h s i S _ w (fun w => match value with
        | Some v => emit (Delivered c v) (put_out o value w) | None => put_out o value w end) Hc Ha E Hwin Hi) as
      (w1 & w2 & -> & Ho & Ht & E2 & Hc2 & Hs2 & Ho2 & Ht2 & _); [by intros; destruct value|].
    cbn [mbind outcome_bind negb]. exists w2. split_and!; try done.
    rewrite Ht2. destruct value; simpl; by rewrite Ht, ?app_nil_r.
Qed.

(** ** Coherence under smaller steps *)

Lemma view_same_send w w' r : view w' r = view w r -> forall c, send_waiting w' r c <-> send_waiting w r c.
Proof. intros E c. unfold send_waiting. by rewrite E. Qed.
Lemma view_same_recv w w' r : view w' r = view w r -> forall c, recv_waiting w' r c <-> recv_waiting w r c.
Proof. intros E c. unfold recv_waiting. by rewrite E. Qed.

(** A waiter that is not queued can be put aside. *)
Lemma coh_aside h r w :
  coh h w -> (forall c, ~ send_waiting w r c) -> (forall c, ~ recv_waiting w r c) -> coh (r :: h) w.
Proof.
  intros [Ho Hn Hms Hmr He Hsel Hsnd Hrcv Hval Htk Hcu] H1 H2. split; auto.
  - intros c ch x Ec. rewrite (Hms c ch x Ec), not_elem_of_cons. specialize (H1 c). naive_solver.
  - intros c ch x Ec. rewrite (Hmr c ch x Ec), not_elem_of_cons. specialize (H2 c). naive_solver.
  - intros a x E Hw Hin. apply (Hval a x E Hw). set_solver.
  - intros s S i c v q t E Hi Hin. apply (Htk s S i c v q t E Hi). set_solver.
Qed.

(** Replacing a channel by one with the same scheduler and given queues. *)
Lemma coh_put_chan h h' c ch ch' w :
  coh h w -> w_chans w !! c = Some ch -> scheduler_ ch' = scheduler_ ch ->
  NoDup (senders_ ch') -> NoDup (receivers_ ch') ->
  (forall x, x ∈ h -> x ∈ h') ->
  (forall x, x ∈ senders_ ch' <-> send_waiting w x c /\ x ∉ h') ->
  (forall x, x ∈ receivers_ ch' <-> recv_waiting w x c /\ x ∉ h') ->
  (forall x c', c' <> c -> x ∈ h' -> x ∉ h -> ~ send_waiting w x c' /\ ~ recv_waiting w x c') ->
  coh h' (put_chan c ch' w).
Proof.
  intros [Ho Hn Hms Hmr He Hsel Hsnd Hrcv Hval Htk Hcu] Ec Hs Hn1 Hn2 Hh H1 H2 H3.
  assert (Hlk : forall c' ch0, w_chans (put_chan c ch' w) !! c' = Some ch0 ->
    (c' = c /\ ch0 = ch') \/ (c' <> c /\ w_chans w !! c' = Some ch0)).
  { intros c' ch0. simpl. rewrite lookup_insert_Some. naive_solver. }
  split; simpl; auto.
  - intros c' ch0 [[-> ->]|[_ E]]%Hlk; [rewrite Hs|]; eauto.
  - intros c' ch0 [[-> ->]|[_ E]]%Hlk; eauto.
  - intros c' ch0 x [[-> ->]|[Hne E]]%Hlk; [apply H1|]. rewrite (Hms c' ch0 x E).
    change (send_waiting (put_chan c ch' w) x c') with (send_waiting w x c').
    specialize (H3 x c' Hne). specialize (Hh x). tauto.
  - intros c' ch0 x [[-> ->]|[Hne E]]%Hlk; [apply H2|]. rewrite (Hmr c' ch0 x E).
    change (recv_waiting (put_chan c ch' w) x c') with (recv_waiting w x c').
    specialize (H3 x c' Hne). specialize (Hh x). tauto.
  - intros c' x Hw. rewrite lookup_insert_is_Some. destruct (decide (c = c')); [by left|right].
    split; [done|]. by apply (He c' x).
  - intros a x E Hw Hin. apply (Hval a x E Hw). auto.
  - intros s S i c0 v q t E Hi Hin. apply (Htk s S i c0 v q t E Hi). auto.
Qed.

Lemma coh_ring h c ch ch' w :
  coh h w -> w_chans w !! c = Some ch -> same_rest ch ch' -> coh h (put_chan c ch' w).
Proof.
  intros Hc Ec [R1 R2 R3 _ _]. destruct (co_nodup _ _ Hc c ch Ec) as [N1 N2].
  apply (coh_put_chan h h c ch); rewrite ?R2, ?R3; auto.
  - intros x. apply (co_senders _ _ Hc c ch x Ec).
  - intros x. apply (co_receivers _ _ Hc c ch x Ec).
Qed.

Lemma coh_pop_sender h c ch r q w :
  coh h w -> w_chans w !! c = Some ch -> senders_ ch = r :: q ->
  coh (r :: h) (put_chan c (set_senders q ch) w) /\ send_waiting w r c /\ r ∉ h.
Proof.
  intros Hc Ec Hq. destruct (co_nodup _ _ Hc c ch Ec) as [N1 N2].
  assert (Hr : send_waiting w r c /\ r ∉ h).
  { apply (co_senders _ _ Hc c ch r Ec). rewrite Hq. set_solver. }
  split; [|done]. rewrite Hq in N1. apply NoDup_cons in N1 as [Nr Nq].
  apply (coh_put_chan h (r :: h) c ch); simpl; auto; try set_solver.
  - intros x. pose proof (co_senders _ _ Hc c ch x Ec) as Hx. rewrite Hq in Hx. set_solver.
  - intros x. pose proof (co_receivers _ _ Hc c ch x Ec) as Hx. rewrite Hx, not_elem_of_cons.
    split; [|tauto]. intros [Hw Hh]. split_and!; auto. intros ->.
    by destruct (send_recv_waiting w r c c (proj1 Hr) Hw).
  - intros x c' Hne [->|Hin]%elem_of_cons Hnin; [|done]. split; intros Hw.
    + apply Hne. eapply send_waiting_chan; eauto. apply Hr.
    + by eapply send_recv_waiting; [apply Hr|].
Qed.

Lemma coh_pop_receiver h c ch r q w :
  coh h w -> w_chans w !! c = Some ch -> receivers_ ch = r :: q ->
  coh (r :: h) (put_chan c (set_receivers q ch) w) /\ recv_waiting w r c /\ r ∉ h.
Proof.
  intros Hc Ec Hq. destruct (co_nodup _ _ Hc c ch Ec) as [N1 N2].
  assert (Hr : recv_waiting w r c /\ r ∉ h).
  { apply (co_receivers _ _ Hc c ch r Ec). rewrite Hq. set_solver. }
  split; [|done]. rewrite Hq in N2. apply NoDup_cons in N2 as [Nr Nq].
  apply (coh_put_chan h (r :: h) c ch); simpl; auto; try set_solver.
  - intros x. pose proof (co_senders _ _ Hc c ch x Ec) as Hx. rewrite Hx, not_elem_of_cons.
    split; [|tauto]. intros [Hw Hh]. split_and!; auto. intros ->.
    by destruct (send_recv_waiting w r c c Hw (proj1 Hr)).
  - intros x. pose proof (co_receivers _ _ Hc c ch x Ec) as Hx. rewrite Hq in Hx. set_solver.
  - intros x c' Hne [->|Hin]%elem_of_cons Hnin; [|done]. split; intros Hw.
    + by eapply send_recv_waiting; [|apply Hr].
    + apply Hne. eapply recv_waiting_chan; eauto. apply Hr.
Qed.

(** ** Taking a sender's value *)

Definition holds_value w (r : wref) (c : nat) (v : T) : Prop :=
  match r with
  | WSend a => exists x, w_sends w !! a = Some x /\ sa_value x = Some v /\ sa_channel x = c
  | WSelect s i => exists S q, w_sels w !! s = Some S /\ sel_regs S !! i = Some (RegSend c v true q false)
  | WRecv _ => False
  end.

Lemma waiting_holds_value h w r c :
  coh h w -> send_waiting w r c -> r ∉ h -> exists v, holds_value w r c v.
Proof.
  intros Hc Hw Hh. unfold send_waiting in Hw. destruct r as [a|a|s i]; simpl in *.
  - destruct (w_sends w !! a) as [x|] eqn:E; [|done]. destruct Hw as [Hw <-].
    destruct (co_value _ _ Hc a x E Hw Hh) as [v Hv]. eauto.
  - by destruct (w_recvs w !! a).
  - destruct (w_sels w !! s) as [S|] eqn:E; [|done]. destruct Hw as (v & t & Hi).
    rewrite (co_taken _ _ Hc s S i c v true t E Hi Hh) in Hi. eauto.
Qed.

(** A world where only the object of [r] changed, in nothing that decides who waits. *)
Lemma coh_same_waiting h w w' :
  coh h w -> w_chans w' = w_chans w -> same_env w w' ->
  (forall x c, send_waiting w' x c <-> send_waiting w x c) ->
  (forall x c, recv_waiting w' x c <-> recv_waiting w x c) ->
  (forall s S, w_sels w' !! s = Some S -> sel_ok S) ->
  (forall a x, w_sends w' !! a = Some x -> send_ok x) ->
  (forall a x, w_recvs w' !! a = Some x -> recv_ok x) ->
  (forall a x, w_sends w' !! a = Some x -> sa_waiting x = true -> WSend a ∉ h -> is_Some (sa_value x)) ->
  (forall s S i c v q t, w_sels w' !! s = Some S ->
    sel_regs S !! i = Some (RegSend c v true q t) -> WSelect s i ∉ h -> t = false) ->
  coh h w'.
Proof.
  intros [Ho Hn Hms Hmr He _ _ _ _ _ Hcu] Hch [Hcur _] H1 H2 ? ? ? ? ?. split; auto.
  - intros c ch. rewrite Hch, Hcur. apply Ho.
  - intros c ch. rewrite Hch. apply Hn.
  - intros c ch x. rewrite Hch, H1. apply Hms.
  - intros c ch x. rewrite Hch, H2. apply Hmr.
  - intros c x. rewrite Hch, H1, H2. apply He.
  - by rewrite Hcur.
Qed.

Lemma send_TakeValue_spec h r w c v :
  coh (r :: h) w -> holds_value w r c v ->
  exists w', send_TakeValue r w = Val (v, w') /\ coh (r :: h) w' /\
    (sender_pending w r -> sender_pending w' r) /\
    w_chans w' = w_chans w /\ same_env w w' /\ w_recvs w' = w_recvs w /\
    (forall x, ~ same_group r x -> view w' x = view w x) /\
    (forall x c', send_waiting w' x c' <-> send_waiting w x c') /\
    (forall x c', recv_waiting w' x c' <-> recv_waiting w x c') /\
    w_trace w' = w_trace w ++ [Accepted c v] /\ w_ready w' = w_ready w /\
    (forall a x, r = WSend a -> w_sends w !! a = Some x ->
       w_sends w' !! a = Some (mkSend (sa_channel x) None (sa_result x) (sa_handle x) (sa_waiting x))).
Proof.
  intros Hc Hv. destruct r as [a|a|s i]; simpl in Hv; [|done|].
  - destruct Hv as (x & E & Hx & <-). unfold send_TakeValue. rewrite (deref_Some _ _ _ E).
    cbn [mbind outcome_bind]. rewrite Hx. eexists. split; [reflexivity|].
    match goal with |- coh _ ?w' /\ _ => set (w1 := w') end.
    assert (Hl : forall b y, w_sends w1 !! b = Some y ->
      (b = a /\ y = mkSend (sa_channel x) None (sa_result x) (sa_handle x) (sa_waiting x)) \/
      (b <> a /\ w_sends w !! b = Some y)).
    { intros b y. simpl. rewrite lookup_insert_Some. naive_solver. }
    assert (Hv : forall y, ~ same_group (WSend a) y -> view w1 y = view w y).
    { intros [b|b|s j] Hg; simpl in *; try done. by rewrite lookup_insert_ne. }
    assert (H1 : forall y c', send_waiting w1 y c' <-> send_waiting w y c').
    { intros y c'. destruct (decide (same_group (WSend a) y)) as [Hg|Hg].
      - destruct y as [b|b|s j]; simpl in Hg; try done. subst b. unfold send_waiting; simpl.
        by rewrite lookup_insert_eq, E.
      - by apply view_same_send, Hv. }
    assert (H2 : forall y c', recv_waiting w1 y c' <-> recv_waiting w y c').
    { intros y c'. destruct (decide (same_group (WSend a) y)) as [Hg|Hg]; [|by apply view_same_recv, Hv].
      destruct y as [b|b|s j]; simpl in Hg; try done. }
    split_and!; try done.
    + apply (coh_same_waiting _ w); auto.
      * done.
      * apply (co_sels _ _ Hc).
      * intros b y [[-> ->]|[_ Hy]]%Hl; [|by apply (co_sends _ _ Hc b)].
        destruct (co_sends _ _ Hc a x E). by split.
      * apply (co_recvs _ _ Hc).
      * intros b y [[-> ->]|[_ Hy]]%Hl Hw Hn; [set_solver|by apply (co_value _ _ Hc b)].
      * apply (co_taken _ _ Hc).
    + intros (y & Hy & Hw & Hch). simpl. exists (mkSend (sa_channel x) None (sa_result x) (sa_handle x) (sa_waiting x)).
      rewrite lookup_insert_eq. assert (y = x) as -> by congruence. done.
    + intros b y [= <-] Hy. simpl. rewrite lookup_insert_eq. congruence.
  - destruct Hv as (S & q & E & Hi). unfold send_TakeValue. rewrite (get_reg_Some _ _ _ _ _ E Hi).
    cbn [mbind outcome_bind negb ALYRN_CHECK]. eexists. split; [reflexivity|].
    match goal with |- coh _ ?w' /\ _ => set (w1 := w') end.
    set (S1 := set_regs (<[i := RegSend c v true q true]> (sel_regs S)) S).
    assert (Es : w_sels w1 = <[s := S1]> (w_sels w)) by exact (put_reg_sels s i _ S w E).
    assert (Hl : forall b y, w_sels w1 !! b = Some y -> (b = s /\ y = S1) \/ (b <> s /\ w_sels w !! b = Some y)).
    { intros b y. rewrite Es, lookup_insert_Some. naive_solver. }
    assert (Hv : forall y, ~ same_group (WSelect s i) y -> view w1 y = view w y).
    { intros [b|b|s' j] Hg; [reflexivity|reflexivity|]. unfold view. simpl in Hg.
      by rewrite Es, lookup_insert_ne. }
    assert (Hr : forall j g, sel_regs S1 !! j = Some g ->
      (j = i /\ g = RegSend c v true q true) \/ (j <> i /\ sel_regs S !! j = Some g)).
    { intros j g. simpl. rewrite list_lookup_insert_Some. naive_solver. }
    assert (Hri : sel_regs S1 !! i = Some (RegSend c v true q true)).
    { simpl. apply list_lookup_insert_eq. by eapply lookup_lt_Some. }
    assert (Hrj : forall j, j <> i -> sel_regs S1 !! j = sel_regs S !! j).
    { intros j Hj. simpl. by rewrite list_lookup_insert_ne. }
    assert (H1 : forall y c', send_waiting w1 y c' <-> send_waiting w y c').
    { intros y c'. destruct (decide (same_group (WSelect s i) y)) as [Hg|Hg]; [|by apply view_same_send, Hv].
      destruct y as [b|b|s' j]; simpl in Hg; try done. subst s'. unfold send_waiting, view.
      rewrite Es, lookup_insert_eq, E. unfold send_waiting_in. destruct (decide (j = i)) as [->|Hj].
      - rewrite Hri, Hi. naive_solver.
      - by rewrite Hrj. }
    assert (H2 : forall y c', recv_waiting w1 y c' <-> recv_waiting w y c').
    { intros y c'. destruct (decide (same_group (WSelect s i) y)) as [Hg|Hg]; [|by apply view_same_recv, Hv].
      destruct y as [b|b|s' j]; simpl in Hg; try done. subst s'. unfold recv_waiting, view.
      rewrite Es, lookup_insert_eq, E. unfold recv_waiting_in. destruct (decide (j = i)) as [->|Hj].
      - rewrite Hri, Hi. naive_solver.
      - by rewrite Hrj. }
    pose proof (co_sels _ _ Hc s S E) as Hok.
    assert (Hok1 : sel_ok S1).
    { split.
      - intros j g [[-> ->]|[Hj Hg]]%Hr; [|by apply (so_regs _ Hok j)].
        pose proof (so_regs _ Hok i _ Hi) as Hd. simpl in *. by destruct (sel_winner S).
      - simpl. rewrite length_insert. apply (so_winner _ Hok).
      - simpl. intros Hp. destruct (so_phase _ Hok Hp) as (P1 & P2 & P3 & P4). split_and!; try done.
        intros j g [[-> ->]|[Hj Hg]]%Hr; [apply (P4 i _ Hi)|by apply (P4 j)].
      - simpl. apply (so_scheduled _ Hok).
      - simpl. intros Hh j g [[-> ->]|[Hj Hg]]%Hr; [|by apply (so_fresh _ Hok Hh j)].
        by apply (so_fresh _ Hok Hh i _ Hi). }
    split_and!; try done.
    + apply (coh_same_waiting _ w); auto.
      * done.
      * intros b y [[-> ->]|[_ Hy]]%Hl; [done|by apply (co_sels _ _ Hc b)].
      * apply (co_sends _ _ Hc).
      * apply (co_recvs _ _ Hc).
      * apply (co_value _ _ Hc).
      * intros b y j c' v' q' t' [[-> ->]|[_ Hy]]%Hl Hj Hn; [|by apply (co_taken _ _ Hc b y j c' v' q' t')].
        apply Hr in Hj as [[-> _]|[Hj Hg]]; [set_solver|]. by apply (co_taken _ _ Hc s S j c' v' q' t').
    + intros (S0 & c0 & v0 & q0 & t0 & E0 & Hw0 & Hi0). exists S1, c, v, q, true.
      split_and!; [rewrite Es; apply lookup_insert_eq| |done]. simpl. congruence.
Qed.
End complete.
