(* ===== verification/ChannelOps.v ===== *)
(** * Every channel and select operation keeps the world well formed

    On top of coherence (ChannelInv.v), each channel is balanced (nobody waits
    for what is available) and first-in first-out (what it took over is what it
    handed out followed by what it buffers). *)

From S2P Require Import Prelude Channel ChannelRing ChannelInv ChannelComplete.
Import Channel.

(** ** Traces *)

Section trace.
Context {T : Type}.
Implicit Types (tr : list (event T)).

Definition accepted (c : nat) tr : list T :=
  omap (fun e => match e with Accepted c' v => if decide (c' = c) then Some v else None | _ => None end) tr.
Definition delivered (c : nat) tr : list T :=
  omap (fun e => match e with Delivered c' v => if decide (c' = c) then Some v else None | _ => None end) tr.

Lemma accepted_app c tr1 tr2 : accepted c (tr1 ++ tr2) = accepted c tr1 ++ accepted c tr2.
Proof. apply omap_app. Qed.
Lemma delivered_app c tr1 tr2 : delivered c (tr1 ++ tr2) = delivered c tr1 ++ delivered c tr2.
Proof. apply omap_app. Qed.

Lemma accepted_Accepted c v tr : accepted c (Accepted c v :: tr) = v :: accepted c tr.
Proof. unfold accepted; simpl. by rewrite decide_True. Qed.
Lemma accepted_Delivered c c' v tr : accepted c (Delivered c' v :: tr) = accepted c tr.
Proof. done. Qed.
Lemma delivered_Delivered c v tr : delivered c (Delivered c v :: tr) = v :: delivered c tr.
Proof. unfold delivered; simpl. by rewrite decide_True. Qed.
Lemma delivered_Accepted c c' v tr : delivered c (Accepted c' v :: tr) = delivered c tr.
Proof. done. Qed.
Lemma accepted_nil c : accepted c [] = [].
Proof. done. Qed.
Lemma delivered_nil c : delivered c [] = [].
Proof. done. Qed.

(** Events that concern channel [c] only. *)
Definition only (c : nat) tr : Prop :=
  forall c', c' <> c -> accepted c' tr = [] /\ delivered c' tr = [].

Lemma only_Accepted c v : only c [Accepted c v].
Proof. intros c' Hne. unfold accepted, delivered; simpl. rewrite decide_False by done. done. Qed.
Lemma only_Delivered c v : only c [Delivered c v].
Proof. intros c' Hne. unfold accepted, delivered; simpl. rewrite decide_False by done. done. Qed.
Lemma only_app c tr1 tr2 : only c tr1 -> only c tr2 -> only c (tr1 ++ tr2).
Proof.
  intros H1 H2 c' Hne. destruct (H1 c' Hne) as [E1 E2], (H2 c' Hne) as [E3 E4].
  by rewrite accepted_app, delivered_app, E1, E2, E3, E4.
Qed.

End trace.

Create Rewrite HintDb channel_trace.
#[export] Hint Rewrite @accepted_app @delivered_app @accepted_Accepted @accepted_Delivered
  @delivered_Delivered @delivered_Accepted @accepted_nil @delivered_nil @app_nil_r : channel_trace.
Ltac trace_simpl :=
  simpl; autorewrite with channel_trace; simpl; rewrite <- ?app_assoc; simpl.

Section ops.
Context {T : Type}.
Implicit Types (w : world T) (ch : chan T) (tr : list (event T)).

(** ** Channels at rest *)

(** [exempt] lifts the clause on closed channels while [Close] runs. *)
Record chan_bal (exempt : bool) ch : Prop := {
  cb_recv : receivers_ ch <> [] -> size_ ch = 0;
  cb_send : senders_ ch <> [] -> size_ ch = capacity_ ch;
  cb_group : forall r r', r ∈ senders_ ch -> r' ∈ receivers_ ch -> same_group r r';
  cb_closed : exempt = false -> closed_ ch = true -> senders_ ch = [] /\ receivers_ ch = [];
}.

Definition chan_fifo tr (c : nat) ch : Prop :=
  exists vs, ring_ok ch vs /\ accepted c tr = delivered c tr ++ vs.

Definition chans_ok (x : option nat) tr (m : gmap nat (chan T)) : Prop :=
  forall c ch, m !! c = Some ch -> chan_bal (bool_decide (x = Some c)) ch /\ chan_fifo tr c ch.

Record wf_at (x : option nat) w : Prop := {
  wf_coh : coh [] w;
  wf_chans : chans_ok x (w_trace w) (w_chans w);
}.
Abbreviation wf := (wf_at None).

(** The queues of [ch'] are part of those of [ch]; the rest is the same. *)
Record shrunk ch ch' : Prop := {
  sh_senders : forall r, r ∈ senders_ ch' -> r ∈ senders_ ch;
  sh_receivers : forall r, r ∈ receivers_ ch' -> r ∈ receivers_ ch;
  sh_capacity : capacity_ ch' = capacity_ ch;
  sh_size : size_ ch' = size_ ch;
  sh_closed : closed_ ch' = closed_ ch;
}.

Lemma nil_sub {A} (l l' : list A) : (forall x, x ∈ l' -> x ∈ l) -> l = [] -> l' = [].
Proof. intros H ->. destruct l' as [|x l']; [done|]. by destruct (not_elem_of_nil x (H x ltac:(set_solver))). Qed.

Lemma chan_bal_shrunk e ch ch' : chan_bal e ch -> shrunk ch ch' -> chan_bal e ch'.
Proof.
  intros [B1 B2 B3 B4] [S1 S2 S3 S4 S5]. split.
  - intros H. rewrite S4. apply B1. intros E. apply H. by eapply nil_sub.
  - intros H. rewrite S3, S4. apply B2. intros E. apply H. by eapply nil_sub.
  - auto.
  - rewrite S5. intros He Hc. destruct (B4 He Hc). split; by eapply nil_sub.
Qed.

Lemma shrunk_drop p ch : shrunk ch (drop_if p ch).
Proof.
  split; try done; intros r; [rewrite drop_if_senders|rewrite drop_if_receivers];
    rewrite elem_of_drop_if; tauto.
Qed.
Lemma shrunk_pop_sender ch r q : senders_ ch = r :: q -> shrunk ch (set_senders q ch).
Proof. intros E. split; try done; simpl. rewrite E. set_solver. Qed.
Lemma shrunk_pop_receiver ch r q : receivers_ ch = r :: q -> shrunk ch (set_receivers q ch).
Proof. intros E. split; try done; simpl. rewrite E. set_solver. Qed.

(** The ring does not depend on the queues. *)
Lemma ring_ok_queues ch qs qr vs :
  ring_ok ch vs -> ring_ok (set_senders qs ch) vs /\ ring_ok (set_receivers qr ch) vs.
Proof. intros [? ? ? H]. by split; split. Qed.

Lemma chans_ok_drop x tr p (m : gmap nat (chan T)) : chans_ok x tr m -> chans_ok x tr (drop_if p <$> m).
Proof.
  intros H c ch'. rewrite lookup_fmap, fmap_Some. intros (ch & E & ->).
  destruct (H c ch E) as [Hb (vs & Hr & Hf)].
  split; [eapply chan_bal_shrunk; [done|apply shrunk_drop]|].
  exists vs. split; [|done]. exact (proj1 (ring_ok_queues _ _ [] _ (proj2 (ring_ok_queues _ [] _ _ Hr)))).
Qed.

(** One channel changes and the trace grows by events of that channel. *)
Lemma chans_ok_insert x tr tr' c ch' (m : gmap nat (chan T)) :
  chans_ok x tr m -> only c tr' ->
  chan_bal (bool_decide (x = Some c)) ch' -> chan_fifo (tr ++ tr') c ch' ->
  chans_ok x (tr ++ tr') (<[c := ch']> m).
Proof.
  intros H Ho Hb Hf c0 ch0. rewrite lookup_insert_Some. intros [[<- <-]|[Hne E]]; [done|].
  destruct (H c0 ch0 E) as [Hb0 (vs & Hr & Hv)]. split; [done|]. exists vs. split; [done|].
  destruct (Ho c0 ltac:(congruence)) as [E1 E2].
  by rewrite accepted_app, delivered_app, E1, E2, !app_nil_r.
Qed.

Lemma chans_ok_put x tr c ch' (m : gmap nat (chan T)) :
  chans_ok x tr m -> chan_bal (bool_decide (x = Some c)) ch' -> chan_fifo tr c ch' ->
  chans_ok x tr (<[c := ch']> m).
Proof.
  intros H Hb Hf. rewrite <- (app_nil_r tr) in Hf |- *. by apply chans_ok_insert.
Qed.

(** ** Coherence does not see outputs, traces and random numbers *)

Lemma coh_emit h e w : coh h w -> coh h (emit e w).
Proof. intros []. by split. Qed.
Lemma coh_put_out h o v w : coh h w -> coh h (put_out o v w).
Proof. intros []. by split. Qed.
Lemma coh_set_rng h r w : coh h w -> coh h (set_rng r w).
Proof. intros []. by split. Qed.

(** No member of the group of [x] waits anywhere. *)
Definition idle_group w (x : wref) : Prop :=
  forall y c, same_group x y -> ~ send_waiting w y c /\ ~ recv_waiting w y c.

Lemma idle_apart w x r c : idle_group w x -> send_waiting w r c \/ recv_waiting w r c -> ~ same_group r x.
Proof.
  intros Hi Hw Hg. apply same_group_sym in Hg. destruct (Hi r c Hg). tauto.
Qed.

Lemma sender_pending_chan c ch' w r :
  is_Some (w_chans w !! c) -> sender_pending w r -> sender_pending (put_chan c ch' w) r.
Proof.
  intros Hc. destruct r; simpl; [|done|done]. intros (x & E & Hw & Hs). exists x. split_and!; auto.
  rewrite lookup_insert_is_Some. destruct (decide (c = sa_channel x)); auto.
Qed.
Lemma receiver_pending_chan c ch' w r c0 :
  is_Some (w_chans w !! c) -> receiver_pending w r c0 -> receiver_pending (put_chan c ch' w) r c0.
Proof.
  intros Hc. destruct r; simpl; [done| |done]. intros (x & E & Hw & He & Hs). exists x. split_and!; auto.
  rewrite lookup_insert_is_Some. destruct (decide (c = c0)); auto.
Qed.

(** ** Completing the first waiting sender of a channel

    Pop it, take its value, let [f] store the value in the channel, complete it. *)
Lemma serve_sender h c ch r q w :
  coh h w -> w_chans w !! c = Some ch -> senders_ ch = r :: q -> apart r h ->
  exists v w1, send_TakeValue r (put_chan c (set_senders q ch) w) = Val (v, w1) /\
    coh (r :: h) w1 /\ sender_pending w1 r /\ w_chans w1 = <[c := set_senders q ch]> (w_chans w) /\
    same_env w w1 /\ w_recvs w1 = w_recvs w /\
    (forall x, ~ same_group r x -> view w1 x = view w x) /\ send_waiting w r c /\
    w_trace w1 = w_trace w ++ [Accepted c v].
Proof.
  intros Hc Ec Hq Ha. destruct (coh_pop_sender h c ch r q w Hc Ec Hq) as (Hc1 & Hw & Hh).
  destruct (waiting_holds_value h w r c Hc Hw Hh) as [v Hv].
  destruct (send_TakeValue_spec h r (put_chan c (set_senders q ch) w) c v Hc1) as
    (w1 & E1 & Hc2 & Hp & Hch & Hen & Hrv & Hview & _ & _ & Htr & _ & _).
  { destruct r; done. }
  exists v, w1. split_and!; auto.
  apply Hp, sender_pending_chan; [by rewrite Ec|]. by eapply send_waiting_pending.
Qed.

(** The channel after a push into the ring. *)
Lemma push_buffer_spec h c ch vs v w :
  coh h w -> w_chans w !! c = Some ch -> ring_ok ch vs -> size_ ch <> capacity_ ch ->
  exists ch', push_buffer c v w = Val (put_chan c ch' w) /\ ring_ok ch' (vs ++ [v]) /\
    same_rest ch ch' /\ coh h (put_chan c ch' w).
Proof.
  intros Hc Ec Hr Hne. destruct (PushBuffer_spec ch vs v Hr Hne) as (ch' & E & Hr' & Hs).
  exists ch'. unfold push_buffer. rewrite (deref_Some _ _ _ Ec). cbn [mbind outcome_bind]. rewrite E.
  split_and!; try done. by eapply coh_ring.
Qed.

Lemma pop_buffer_spec h c ch v vs w :
  coh h w -> w_chans w !! c = Some ch -> ring_ok ch (v :: vs) ->
  exists ch', pop_buffer c w = Val (v, put_chan c ch' w) /\ ring_ok ch' vs /\
    same_rest ch ch' /\ coh h (put_chan c ch' w).
Proof.
  intros Hc Ec Hr. destruct (PopBuffer_spec ch v vs Hr) as (ch' & E & Hr' & Hs).
  exists ch'. unfold pop_buffer. rewrite (deref_Some _ _ _ Ec). cbn [mbind outcome_bind]. rewrite E.
  split_and!; try done. by eapply coh_ring.
Qed.

Lemma put_chan_put_chan c ch ch' w : put_chan c ch (put_chan c ch' w) = put_chan c ch w.
Proof. unfold put_chan, set_chans; simpl. by rewrite insert_insert_eq. Qed.

(** What a receive obtains without suspending. *)
Lemma take_ready_spec c ch w :
  wf w -> w_chans w !! c = Some ch ->
  exists o w', take_ready c w = Val (o, w') /\
    match o with
    | Some v =>
        coh [] w' /\ chans_ok None (w_trace w' ++ [Delivered c v]) (w_chans w') /\
        w_recvs w' = w_recvs w /\ same_env w w' /\ is_Some (w_chans w' !! c) /\
        (forall x, idle_group w x -> view w' x = view w x)
    | None => w' = w /\ size_ ch = 0 /\ senders_ ch = []
    end.
Proof.
  intros [Hc Hok] Ec. destruct (Hok c ch Ec) as [Hb (vs & Hr & Hf)].
  pose proof (rg_size _ _ Hr) as Hsz. unfold take_ready. rewrite (deref_Some _ _ _ Ec).
  cbn [mbind outcome_bind]. destruct (Z.eqb_spec (size_ ch) 0) as [Hz|Hnz]; simpl.
  - destruct vs; [|simpl in Hsz; lia].
    unfold pop_sender. rewrite (deref_Some _ _ _ Ec). cbn [mbind outcome_bind].
    destruct (senders_ ch) as [|r q] eqn:Hq; simpl; [by exists None, w|].
    destruct (serve_sender [] c ch r q w Hc Ec Hq) as (v & w1 & E1 & Hc1 & Hp & Hch & Hen & Hrv & Hv & Hw & Htr);
      [by intros ? ?%not_elem_of_nil|].
    rewrite E1. simpl.
    destruct (send_Complete_spec [] r w1 Hc1) as (w2 & -> & Hc2 & Hset & Ho & Ht); [by intros ? ?%not_elem_of_nil|done|].
    simpl. eexists (Some v), w2. split; [done|]. destruct Hset as [S1 S2 S3 S4 S5].
    split_and!; auto.
    + rewrite S1, Hch, Ht, Htr, <- app_assoc. apply chans_ok_drop, chans_ok_insert; auto.
      * apply only_app; [apply only_Accepted|apply only_Delivered].
      * eapply chan_bal_shrunk; [done|]. by eapply shrunk_pop_sender.
      * exists []. split; [by apply (ring_ok_queues _ q [])|].
        trace_simpl. by rewrite Hf, app_nil_r.
    + apply map_eq. intros a. destruct (decide (same_group r (WRecv a))) as [Hg|Hg].
      * destruct r; done.
      * rewrite (view_recv w1 w2 a (S3 _ Hg)). by rewrite Hrv.
    + by eapply same_env_trans.
    + rewrite S1, lookup_fmap, Hch, lookup_insert_eq. by eexists.
    + intros x Hx. assert (~ same_group r x) by (eapply idle_apart; eauto). rewrite S3, Hv; auto.
  - destruct vs as [|v vs]; [simpl in Hsz; lia|].
    destruct (pop_buffer_spec [] c ch v vs w Hc Ec Hr) as (ch1 & -> & Hr1 & Hs1 & Hc1).
    destruct Hs1 as [R1 R2 R3 R4 R5]. simpl.
    assert (Hnr : receivers_ ch = []).
    { destruct (receivers_ ch) eqn:Er; [done|]. destruct Hnz. apply (cb_recv _ _ Hb). by rewrite Er. }
    assert (Ec1 : w_chans (put_chan c ch1 w) !! c = Some ch1) by apply lookup_insert_eq.
    unfold pop_sender. rewrite (deref_Some _ _ _ Ec1). cbn [mbind outcome_bind].
    destruct (senders_ ch1) as [|r q] eqn:Hq; simpl.
    + eexists (Some v), _. split; [done|]. split_and!; auto; [|by eexists].
      apply chans_ok_insert; auto; [apply only_Delivered| |].
      * split; rewrite ?Hq, ?R3, ?Hnr; try done. set_solver.
      * exists vs. split; [done|]. trace_simpl. by rewrite Hf.
    + destruct (serve_sender [] c ch1 r q (put_chan c ch1 w) Hc1 Ec1 Hq)
        as (sv & w1 & E1 & Hc2 & Hp & Hch & Hen & Hrv & Hv & Hw & Htr); [by intros ? ?%not_elem_of_nil|].
      rewrite E1. simpl.
      assert (Hcap : size_ ch = capacity_ ch) by (apply (cb_send _ _ Hb); congruence).
      assert (Hsz1 : size_ ch1 = size_ ch - 1).
      { rewrite (rg_size _ _ Hr1), Hsz. simpl. lia. }
      destruct (push_buffer_spec [r] c (set_senders q ch1) vs sv w1 Hc2) as (ch2 & -> & Hr2 & Hs2 & Hc3).
      { by rewrite Hch, lookup_insert_eq. }
      { by apply (ring_ok_queues _ q []). }
      { simpl. lia. }
      simpl. assert (Hex : is_Some (w_chans w1 !! c)) by (rewrite Hch, lookup_insert_eq; by eexists).
      destruct (send_Complete_spec [] r (put_chan c ch2 w1) Hc3) as (w2 & -> & Hc4 & Hset & Ho & Ht);
        [by intros ? ?%not_elem_of_nil|by apply sender_pending_chan|].
      simpl. eexists (Some v), w2. split; [done|]. destruct Hset as [S1 S2 S3 S4 S5]. simpl in S1, Ht.
      rewrite Hch in S1. simpl in S1. rewrite !insert_insert_eq in S1. destruct Hs2 as [Q1 Q2 Q3 Q4 Q5].
      simpl in Q2, Q3, Q4, Q5.
      split_and!; auto.
      * rewrite S1, Ht, Htr. simpl. rewrite <- app_assoc. apply chans_ok_drop, chans_ok_insert; auto.
        -- apply only_app; [apply only_Accepted|apply only_Delivered].
        -- split; rewrite ?Q2, ?Q3, ?R3, ?Hnr; try done; [|set_solver|].
           ++ intros _. rewrite (rg_size _ _ Hr2), length_app, Q4, R4, <- Hcap, Hsz. simpl. lia.
           ++ rewrite Q5, R5. intros He Hcl. destruct (cb_closed _ _ Hb He Hcl) as [Hcs _].
              congruence.
        -- exists (vs ++ [sv]). split; [done|]. trace_simpl. by rewrite Hf, <- app_assoc.
      * apply map_eq. intros a. destruct (decide (same_group r (WRecv a))) as [Hg|Hg].
        -- destruct r; done.
        -- rewrite (view_recv _ w2 a (S3 _ Hg)). simpl. by rewrite Hrv.
      * eapply same_env_trans; [|exact S2]. exact Hen.
      * rewrite S1, lookup_fmap, lookup_insert_eq. by eexists.
      * intros x Hx. assert (~ same_group r x) by (eapply idle_apart; eauto).
        rewrite S3 by done. change (view (put_chan c ch2 w1) x) with (view w1 x). by rewrite Hv.
Qed.

Lemma apart_nil r : apart r [].
Proof. by intros x ?%not_elem_of_nil. Qed.

Lemma coh_perm h h' w : (forall x, x ∈ h <-> x ∈ h') -> coh h w -> coh h' w.
Proof.
  intros Hp [Ho Hn Hms Hmr He Hsel Hsnd Hrcv Hval Htk Hcu].
  assert (Hn' : forall x, x ∉ h <-> x ∉ h') by (intros x; by rewrite Hp).
  split; auto.
  - intros c ch x Ec. rewrite (Hms c ch x Ec). by rewrite Hn'.
  - intros c ch x Ec. rewrite (Hmr c ch x Ec). by rewrite Hn'.
  - intros a x E Hw. rewrite <- Hn'. by apply Hval.
  - intros s S i c v q t E Hi. rewrite <- Hn'. by apply (Htk s S i c v q t).
Qed.

(** *** [TrySend] *)

Lemma TrySend_spec c ch v w :
  wf w -> w_chans w !! c = Some ch -> closed_ ch = false ->
  exists b w', TrySend c v w = Val (b, w') /\ wf w' /\
    (b = false -> w' = w /\ size_ ch = capacity_ ch /\ receivers_ ch = []).
Proof.
  intros [Hc Hok] Ec Hcl. destruct (Hok c ch Ec) as [Hb (vs & Hr & Hf)].
  unfold TrySend. rewrite (owned_chan_Some _ _ _ Ec (co_owner _ _ Hc _ _ Ec)).
  cbn [mbind outcome_bind]. rewrite Hcl. simpl.
  unfold pop_receiver. rewrite (deref_Some _ _ _ Ec). cbn [mbind outcome_bind].
  destruct (receivers_ ch) as [|r q] eqn:Hq; simpl.
  - destruct (Z.eqb_spec (size_ ch) (capacity_ ch)) as [Hfull|Hroom]; [by exists false, w|].
    destruct (push_buffer_spec [] c ch vs v (emit (Accepted c v) w)) as (ch' & -> & Hr' & Hs & Hc');
      auto using coh_emit.
    simpl. exists true, (put_chan c ch' (emit (Accepted c v) w)). split; [done|]. split; [|done].
    split; [done|]. destruct Hs as [R1 R2 R3 R4 R5]. apply chans_ok_insert; auto using only_Accepted.
    + split; rewrite ?R2, ?R3, ?R5, ?Hq, ?Hcl; try done; [|set_solver].
      intros Hne. destruct Hroom. by apply (cb_send _ _ Hb).
    + exists (vs ++ [v]). split; [done|]. trace_simpl. by rewrite Hf, <- app_assoc.
  - destruct (coh_pop_receiver [] c ch r q w Hc Ec Hq) as (Hc1 & Hw & _).
    destruct (recv_complete_spec [] r c (Some v) (emit (Accepted c v) (put_chan c (set_receivers q ch) w)))
      as (w2 & E2 & Hc2 & Hset & Ht); auto using coh_emit, apart_nil.
    { apply (receiver_pending_chan c _ w r c); [by rewrite Ec|]. by eapply recv_waiting_pending. }
    unfold recv_CompleteValue. rewrite E2. simpl. exists true, w2. split; [done|]. split; [|done].
    split; [done|]. rewrite Ht, (se_chans _ _ _ Hset). simpl. rewrite <- app_assoc.
    apply chans_ok_drop, chans_ok_insert; auto.
    + apply only_app; [apply only_Accepted|apply only_Delivered].
    + eapply chan_bal_shrunk; [done|]. by eapply shrunk_pop_receiver.
    + assert (vs = []) as ->.
      { destruct vs; [done|]. pose proof (rg_size _ _ Hr) as Hsz. rewrite (cb_recv _ _ Hb) in Hsz by (by rewrite Hq).
        simpl in Hsz. lia. }
      exists []. split; [by apply (ring_ok_queues _ [] q)|]. trace_simpl. by rewrite Hf, app_nil_r.
Qed.

(** *** [TryReceive] *)

Lemma TryReceive_spec c ch output w :
  wf w -> w_chans w !! c = Some ch ->
  exists b w', TryReceive c output w = Val (b, w') /\ wf w' /\
    (b = false -> w' = w /\ size_ ch = 0 /\ senders_ ch = [] /\ closed_ ch = false).
Proof.
  intros Hwf Ec. pose proof Hwf as [Hc Hok].
  unfold TryReceive. rewrite (owned_chan_Some _ _ _ Ec (co_owner _ _ Hc _ _ Ec)). cbn [mbind outcome_bind].
  destruct (take_ready_spec c ch w Hwf Ec) as ([v|] & w' & -> & H); cbn [mbind outcome_bind].
  - destruct H as (Hc' & Hok' & _). eexists true, _. split; [done|]. split; [|done].
    split; [|done]. by apply coh_emit, coh_put_out.
  - destruct H as (-> & Hz & Hs). rewrite (deref_Some _ _ _ Ec). cbn [mbind outcome_bind].
    destruct (closed_ ch) eqn:Hcl.
    + eexists true, _. split; [done|]. split; [|done]. split; [by apply coh_put_out|done].
    + exists false, w. by split_and!.
Qed.

(** ** Objects coming, going and starting to wait *)

Lemma coh_put_send h a x' w :
  coh (WSend a :: h) w -> sa_waiting x' = false -> send_ok x' -> coh h (put_send a x' w).
Proof.
  intros [Ho Hn Hms Hmr He Hsel Hsnd Hrcv Hval Htk Hcu] Hw Hx.
  assert (Hv : forall y, y <> WSend a -> view (put_send a x' w) y = view w y).
  { intros [b|b|s i] Hne; simpl; try done. rewrite lookup_insert_ne; [done|]. congruence. }
  assert (Hs : forall y c, send_waiting (put_send a x' w) y c <-> send_waiting w y c /\ y <> WSend a).
  { intros y c. destruct (decide (y = WSend a)) as [->|Hne].
    - unfold send_waiting; simpl. rewrite lookup_insert_eq. simpl. rewrite Hw. naive_solver.
    - rewrite (view_same_send _ _ y (Hv y Hne)). tauto. }
  assert (Hr : forall y c, recv_waiting (put_send a x' w) y c <-> recv_waiting w y c).
  { intros y c. destruct (decide (y = WSend a)) as [->|Hne]; [done|].
    by rewrite (view_same_recv _ _ y (Hv y Hne)). }
  assert (Hl : forall b y, w_sends (put_send a x' w) !! b = Some y ->
    (b = a /\ y = x') \/ (b <> a /\ w_sends w !! b = Some y)).
  { intros b y. simpl. rewrite lookup_insert_Some. naive_solver. }
  split; simpl; auto.
  - intros c ch y Ec. rewrite (Hms c ch y Ec), Hs, not_elem_of_cons. tauto.
  - intros c ch y Ec. rewrite (Hmr c ch y Ec), Hr, not_elem_of_cons. split; [tauto|].
    intros [Hy Hh]. split_and!; auto. by intros ->.
  - intros c y. rewrite Hs, Hr. intros Hy. apply (He c y). tauto.
  - intros b y [[-> ->]|[_ E]]%Hl; [done|by apply (Hsnd b)].
  - intros b y [[-> ->]|[Hne E]]%Hl; [congruence|]. intros Hwy Hh. apply (Hval b y E Hwy).
    rewrite not_elem_of_cons. naive_solver.
  - intros s S i c v q t E Hi Hh. apply (Htk s S i c v q t E Hi). set_solver.
Qed.

Lemma coh_put_recv h a x' w :
  coh (WRecv a :: h) w -> ra_waiting x' = false -> recv_ok x' -> coh h (put_recv a x' w).
Proof.
  intros [Ho Hn Hms Hmr He Hsel Hsnd Hrcv Hval Htk Hcu] Hw Hx.
  assert (Hv : forall y, y <> WRecv a -> view (put_recv a x' w) y = view w y).
  { intros [b|b|s i] Hne; simpl; try done. rewrite lookup_insert_ne; [done|]. congruence. }
  assert (Hr : forall y c, recv_waiting (put_recv a x' w) y c <-> recv_waiting w y c /\ y <> WRecv a).
  { intros y c. destruct (decide (y = WRecv a)) as [->|Hne].
    - unfold recv_waiting; simpl. rewrite lookup_insert_eq. simpl. rewrite Hw. naive_solver.
    - rewrite (view_same_recv _ _ y (Hv y Hne)). tauto. }
  assert (Hs : forall y c, send_waiting (put_recv a x' w) y c <-> send_waiting w y c).
  { intros y c. destruct (decide (y = WRecv a)) as [->|Hne]; [done|].
    by rewrite (view_same_send _ _ y (Hv y Hne)). }
  assert (Hl : forall b y, w_recvs (put_recv a x' w) !! b = Some y ->
    (b = a /\ y = x') \/ (b <> a /\ w_recvs w !! b = Some y)).
  { intros b y. simpl. rewrite lookup_insert_Some. naive_solver. }
  split; simpl; auto.
  - intros c ch y Ec. rewrite (Hms c ch y Ec), Hs, not_elem_of_cons. split; [tauto|].
    intros [Hy Hh]. split_and!; auto. by intros ->.
  - intros c ch y Ec. rewrite (Hmr c ch y Ec), Hr, not_elem_of_cons. tauto.
  - intros c y. rewrite Hs, Hr. intros Hy. apply (He c y). tauto.
  - intros b y [[-> ->]|[_ E]]%Hl; [done|by apply (Hrcv b)].
  - intros b y E Hwy Hh. apply (Hval b y E Hwy). set_solver.
  - intros s S i c v q t E Hi Hh. apply (Htk s S i c v q t E Hi). set_solver.
Qed.

(** [r] joins the senders, respectively the receivers, of [c]; [w1] is [w] with
    the object of [r] marked as waiting. *)
Lemma coh_enqueue_sender r c ch w w1 :
  coh [] w -> w_chans w !! c = Some ch ->
  (forall c', ~ send_waiting w r c') -> (forall c', ~ recv_waiting w r c') ->
  w_chans w1 = w_chans w -> same_env w w1 ->
  (forall x c', send_waiting w1 x c' <-> send_waiting w x c' \/ (x = r /\ c' = c)) ->
  (forall x c', recv_waiting w1 x c' <-> recv_waiting w x c') ->
  (forall s S, w_sels w1 !! s = Some S -> sel_ok S) ->
  (forall a x, w_sends w1 !! a = Some x -> send_ok x) ->
  (forall a x, w_recvs w1 !! a = Some x -> recv_ok x) ->
  (forall a x, w_sends w1 !! a = Some x -> sa_waiting x = true -> WSend a ∉ [] -> is_Some (sa_value x)) ->
  (forall s S i c v q t, w_sels w1 !! s = Some S ->
    sel_regs S !! i = Some (RegSend c v true q t) -> WSelect s i ∉ [] -> t = false) ->
  coh [] (put_chan c (set_senders (senders_ ch ++ [r]) ch) w1).
Proof.
  intros Hc Ec H1 H2 Hch [Hcur _] Hs Hr O1 O2 O3 O4 O5.
  destruct Hc as [Ho Hn Hms Hmr He _ _ _ _ _ Hcu]. destruct (Hn c ch Ec) as [N1 N2].
  assert (Hnin : r ∉ senders_ ch) by (intros Hin; apply (Hms c ch r Ec) in Hin as [Hin _]; by apply H1 in Hin).
  set (ch' := set_senders _ ch).
  assert (Hlk : forall c' ch0, w_chans (put_chan c ch' w1) !! c' = Some ch0 ->
    (c' = c /\ ch0 = ch') \/ (c' <> c /\ w_chans w !! c' = Some ch0)).
  { intros c' ch0. simpl. rewrite Hch, lookup_insert_Some. naive_solver. }
  change (coh [] (put_chan c ch' w1)). split; simpl; auto.
  - intros c' ch0 [[-> ->]|[_ E]]%Hlk; rewrite Hcur; [exact (Ho c ch Ec)|by apply (Ho c')].
  - intros c' ch0 [[-> ->]|[_ E]]%Hlk; [|eauto]. simpl. split; [|done].
    apply NoDup_app. split_and!; [done|set_solver|apply NoDup_singleton].
  - intros c' ch0 x [[-> ->]|[Hne E]]%Hlk; change (send_waiting (put_chan c ch' w1)) with (send_waiting w1);
      rewrite Hs; simpl.
    + rewrite elem_of_app, (Hms c ch x Ec). set_solver.
    + rewrite (Hms c' ch0 x E). naive_solver.
  - intros c' ch0 x [[-> ->]|[Hne E]]%Hlk; change (recv_waiting (put_chan c ch' w1)) with (recv_waiting w1);
      rewrite Hr; simpl; eauto.
  - intros c' x. change (send_waiting (put_chan c ch' w1)) with (send_waiting w1).
    change (recv_waiting (put_chan c ch' w1)) with (recv_waiting w1). rewrite Hs, Hr, Hch, lookup_insert_is_Some.
    destruct (decide (c = c')); [by left|]. intros Hw. right. split; [done|]. apply (He c' x). naive_solver.
  - by rewrite Hcur.
Qed.

Lemma coh_enqueue_receiver r c ch w w1 :
  coh [] w -> w_chans w !! c = Some ch ->
  (forall c', ~ send_waiting w r c') -> (forall c', ~ recv_waiting w r c') ->
  w_chans w1 = w_chans w -> same_env w w1 ->
  (forall x c', send_waiting w1 x c' <-> send_waiting w x c') ->
  (forall x c', recv_waiting w1 x c' <-> recv_waiting w x c' \/ (x = r /\ c' = c)) ->
  (forall s S, w_sels w1 !! s = Some S -> sel_ok S) ->
  (forall a x, w_sends w1 !! a = Some x -> send_ok x) ->
  (forall a x, w_recvs w1 !! a = Some x -> recv_ok x) ->
  (forall a x, w_sends w1 !! a = Some x -> sa_waiting x = true -> WSend a ∉ [] -> is_Some (sa_value x)) ->
  (forall s S i c v q t, w_sels w1 !! s = Some S ->
    sel_regs S !! i = Some (RegSend c v true q t) -> WSelect s i ∉ [] -> t = false) ->
  coh [] (put_chan c (set_receivers (receivers_ ch ++ [r]) ch) w1).
Proof.
  intros Hc Ec H1 H2 Hch [Hcur _] Hs Hr O1 O2 O3 O4 O5.
  destruct Hc as [Ho Hn Hms Hmr He _ _ _ _ _ Hcu]. destruct (Hn c ch Ec) as [N1 N2].
  assert (Hnin : r ∉ receivers_ ch) by (intros Hin; apply (Hmr c ch r Ec) in Hin as [Hin _]; by apply H2 in Hin).
  set (ch' := set_receivers _ ch).
  assert (Hlk : forall c' ch0, w_chans (put_chan c ch' w1) !! c' = Some ch0 ->
    (c' = c /\ ch0 = ch') \/ (c' <> c /\ w_chans w !! c' = Some ch0)).
  { intros c' ch0. simpl. rewrite Hch, lookup_insert_Some. naive_solver. }
  change (coh [] (put_chan c ch' w1)). split; simpl; auto.
  - intros c' ch0 [[-> ->]|[_ E]]%Hlk; rewrite Hcur; [exact (Ho c ch Ec)|by apply (Ho c')].
  - intros c' ch0 [[-> ->]|[_ E]]%Hlk; [|eauto]. simpl. split; [done|].
    apply NoDup_app. split_and!; [done|set_solver|apply NoDup_singleton].
  - intros c' ch0 x [[-> ->]|[Hne E]]%Hlk; change (send_waiting (put_chan c ch' w1)) with (send_waiting w1);
      rewrite Hs; simpl; eauto.
  - intros c' ch0 x [[-> ->]|[Hne E]]%Hlk; change (recv_waiting (put_chan c ch' w1)) with (recv_waiting w1);
      rewrite Hr; simpl.
    + rewrite elem_of_app, (Hmr c ch x Ec). set_solver.
    + rewrite (Hmr c' ch0 x E). naive_solver.
  - intros c' x. change (send_waiting (put_chan c ch' w1)) with (send_waiting w1).
    change (recv_waiting (put_chan c ch' w1)) with (recv_waiting w1). rewrite Hs, Hr, Hch, lookup_insert_is_Some.
    destruct (decide (c = c')); [by left|]. intros Hw. right. split; [done|]. apply (He c' x). naive_solver.
  - by rewrite Hcur.
Qed.

(** *** [SendAwaiter] *)

Lemma send_ok_fresh c v r : send_ok (T := T) (mkSend c v r None false).
Proof. split; simpl; [done|by intros [? ?]]. Qed.
Lemma recv_ok_fresh c o r : recv_ok (T := T) (mkRecv c o r None false).
Proof. split; simpl; [done|by intros [? ?]]. Qed.

Lemma recv_waiting_not_send w r c a : recv_waiting w r c -> ~ same_group r (WSend a).
Proof. destruct r; unfold recv_waiting; simpl; tauto. Qed.
Lemma send_waiting_not_recv w r c a : send_waiting w r c -> ~ same_group r (WRecv a).
Proof. destruct r; unfold send_waiting; simpl; tauto. Qed.

Lemma send_await_suspend_spec a handle c v ch w :
  wf w -> w_sends w !! a = Some (mkSend c (Some v) None None false) ->
  w_chans w !! c = Some ch -> closed_ ch = false ->
  exists b w', send_await_suspend a handle w = Val (b, w') /\ wf w' /\
    (if b then send_waiting w' (WSend a) c
     else w_sends w' !! a = Some (mkSend c None (Some (Ok tt)) None false)).
Proof.
  intros [Hc Hok] Ea Ec Hcl. destruct (Hok c ch Ec) as [Hb (vs & Hr & Hf)].
  unfold send_await_suspend. rewrite (deref_Some _ _ _ Ea). cbn [mbind outcome_bind sa_channel].
  rewrite (owned_chan_Some _ _ _ Ec (co_owner _ _ Hc _ _ Ec)). cbn [mbind outcome_bind].
  rewrite Hcl. cbn [negb ALYRN_CHECK mbind outcome_bind].
  assert (Hns : forall c', ~ send_waiting w (WSend a) c').
  { intros c'. unfold send_waiting; simpl. rewrite Ea. simpl. naive_solver. }
  assert (Hnr : forall c', ~ recv_waiting w (WSend a) c') by (intros c'; unfold recv_waiting; simpl; tauto).
  unfold pop_receiver. rewrite (deref_Some _ _ _ Ec). cbn [mbind outcome_bind].
  destruct (receivers_ ch) as [|r q] eqn:Hq; cbn [mbind outcome_bind].
  - destruct (Z.eqb_spec (size_ ch) (capacity_ ch)) as [Hfull|Hroom]; cbn [negb].
    + assert (Hnin : WSend a ∉ senders_ ch).
      { intros Hin. apply (co_senders _ _ Hc c ch _ Ec) in Hin as [Hin _]. by apply Hns in Hin. }
      rewrite bool_decide_eq_false_2 by done. cbn [negb ALYRN_CHECK mbind outcome_bind].
      eexists true, _. split; [reflexivity|].
      match goal with |- context [put_send a ?x w] => set (x1 := x); set (w1 := put_send a x w) end.
      assert (Hv : forall y, y <> WSend a -> view w1 y = view w y).
      { intros [b|b|s i] Hne; simpl; try done. rewrite lookup_insert_ne; [done|]. congruence. }
      assert (Hl : forall b y, w_sends w1 !! b = Some y -> (b = a /\ y = x1) \/ w_sends w !! b = Some y).
      { intros b y. simpl. rewrite lookup_insert_Some. naive_solver. }
      assert (Hsw : forall x c', send_waiting w1 x c' <-> send_waiting w x c' \/ (x = WSend a /\ c' = c)).
      { intros y c'. destruct (decide (y = WSend a)) as [->|Hne].
        - unfold send_waiting; simpl. rewrite lookup_insert_eq, Ea. simpl. naive_solver.
        - rewrite (view_same_send _ _ y (Hv y Hne)). naive_solver. }
      split; [|unfold send_waiting; simpl; rewrite lookup_insert_eq; done].
      split; [apply (coh_enqueue_sender (WSend a) c ch w w1); auto|].
      * done.
      * intros y c'. destruct (decide (y = WSend a)) as [->|Hne]; [done|].
        by rewrite (view_same_recv _ _ y (Hv y Hne)).
      * apply (co_sels _ _ Hc).
      * intros b y [[-> ->]|Hy]%Hl; [split; simpl; eauto|by apply (co_sends _ _ Hc b)].
      * apply (co_recvs _ _ Hc).
      * intros b y [[-> ->]|Hy]%Hl; [by eexists|by apply (co_value _ _ Hc b)].
      * apply (co_taken _ _ Hc).
      * apply chans_ok_put; [done| |].
        -- split; simpl; rewrite ?Hq, ?Hcl; try done. set_solver.
        -- exists vs. split; [by apply (ring_ok_queues _ _ [])|done].
    + destruct (send_TakeValue_spec [] (WSend a) w c v) as
        (w1 & -> & Hc1 & _ & Hch & Hen & _ & Hv & _ & _ & Htr & _ & Hx); [by apply coh_aside|simpl; eauto|].
      cbn [mbind outcome_bind].
      destruct (push_buffer_spec [WSend a] c ch vs v w1 Hc1) as (ch' & -> & Hr' & Hs & Hc2);
        [by rewrite Hch|done|done|].
      cbn [mbind outcome_bind]. specialize (Hx a _ eq_refl Ea). simpl in Hx.
      rewrite (deref_Some _ _ _ (Hx : w_sends (put_chan c ch' w1) !! a = _)). cbn [mbind outcome_bind].
      eexists false, _. split; [reflexivity|]. split; [|by simpl; rewrite lookup_insert_eq].
      split; [apply coh_put_send; [exact Hc2|done|apply send_ok_fresh]|].
      change (chans_ok None (w_trace w1) (<[c := ch']> (w_chans w1))). rewrite Hch, Htr.
      destruct Hs as [R1 R2 R3 R4 R5]. apply chans_ok_insert; auto using only_Accepted.
      * split; rewrite ?R2, ?R3, ?R5, ?Hq, ?Hcl; try done; [|set_solver].
        intros Hne. destruct Hroom. by apply (cb_send _ _ Hb).
      * exists (vs ++ [v]). split; [done|]. trace_simpl. by rewrite Hf, <- app_assoc.
  - destruct (coh_pop_receiver [] c ch r q w Hc Ec Hq) as (Hc1 & Hw & _).
    pose proof (recv_waiting_not_send _ _ _ a Hw) as Hap.
    destruct (send_TakeValue_spec [r] (WSend a) (put_chan c (set_receivers q ch) w) c v) as
      (w1 & -> & Hc2 & _ & Hch & Hen & Hrv & Hv & _ & _ & Htr & _ & Hx);
      [by apply coh_aside|simpl; eauto|].
    cbn [mbind outcome_bind]. specialize (Hx a _ eq_refl Ea). simpl in Hx, Hch, Htr.
    destruct (recv_complete_spec [WSend a] r c (Some v) w1) as (w2 & E2 & Hc3 & Hset & Ht).
    { apply (coh_perm [WSend a; r]); [set_solver|done]. }
    { intros x Hin. assert (x = WSend a) as -> by set_solver. done. }
    { pose proof (recv_waiting_pending _ _ _ _ Hc Hw) as Hp.
      assert (Hvr : view w1 r = view w r).
      { rewrite Hv; [done|]. intros Hg. by apply Hap, same_group_sym. }
      destruct r as [b|b|s j]; simpl in Hp, Hvr |- *; [done| |].
      - destruct Hp as (y & Ey & ? & ? & ?). injection Hvr as Hvr. exists y. rewrite Hvr.
        split_and!; auto. rewrite Hch, lookup_insert_eq. by eexists.
      - injection Hvr as Hvr. by rewrite Hvr. }
    unfold recv_CompleteValue. rewrite E2. cbn [mbind outcome_bind].
    assert (Hx2 : w_sends w2 !! a = Some (mkSend c None None None false)).
    { rewrite <- Hx. apply view_send, (se_view _ _ _ Hset). done. }
    rewrite (deref_Some _ _ _ Hx2). cbn [mbind outcome_bind]. eexists false, _. split; [reflexivity|].
    split; [|by simpl; rewrite lookup_insert_eq].
    split; [apply coh_put_send; [exact Hc3|done|apply send_ok_fresh]|].
    change (chans_ok None (w_trace w2) (w_chans w2)). rewrite Ht, (se_chans _ _ _ Hset), Hch, Htr, <- app_assoc. apply chans_ok_drop, chans_ok_insert; auto.
    + apply only_app; [apply only_Accepted|apply only_Delivered].
    + eapply chan_bal_shrunk; [done|]. by eapply shrunk_pop_receiver.
    + assert (vs = []) as ->.
      { destruct vs; [done|]. pose proof (rg_size _ _ Hr) as Hsz. rewrite (cb_recv _ _ Hb) in Hsz by (by rewrite Hq).
        simpl in Hsz. lia. }
      exists []. split; [by apply (ring_ok_queues _ [] q)|]. trace_simpl. by rewrite Hf, app_nil_r.
Qed.

(** *** [ReceiveAwaiter] *)

Lemma recv_await_suspend_spec a handle c o ch w :
  wf w -> w_recvs w !! a = Some (mkRecv c o None None false) -> w_chans w !! c = Some ch ->
  exists b w', recv_await_suspend a handle w = Val (b, w') /\ wf w' /\
    (if b then recv_waiting w' (WRecv a) c
     else exists v, w_recvs w' !! a = Some (mkRecv c o (Some (Ok v)) None false) /\
       (v = None -> closed_ ch = true /\ size_ ch = 0)).
Proof.
  intros Hwf Ea Ec. pose proof Hwf as [Hc Hok]. destruct (Hok c ch Ec) as [Hb (vs & Hr & Hf)].
  unfold recv_await_suspend. rewrite (deref_Some _ _ _ Ea). cbn [mbind outcome_bind ra_channel].
  rewrite (owned_chan_Some _ _ _ Ec (co_owner _ _ Hc _ _ Ec)). cbn [mbind outcome_bind].
  assert (Hnr : forall c', ~ recv_waiting w (WRecv a) c').
  { intros c'. unfold recv_waiting; simpl. rewrite Ea. simpl. naive_solver. }
  assert (Hns : forall w0 c', ~ send_waiting w0 (WRecv a) c') by (intros w0 c'; unfold send_waiting; simpl; tauto).
  destruct (take_ready_spec c ch w Hwf Ec) as ([v|] & w' & -> & H); cbn [mbind outcome_bind].
  - destruct H as (Hc' & Hok' & Hrv & _ & _ & Hv).
    assert (Ea' : w_recvs (emit (Delivered c v) w') !! a = Some (mkRecv c o None None false)) by (simpl; by rewrite Hrv).
    rewrite (deref_Some _ _ _ Ea'). cbn [mbind outcome_bind]. eexists false, _. split; [reflexivity|].
    split; [|exists (Some v); simpl; by rewrite lookup_insert_eq].
    split; [|exact Hok']. apply coh_put_recv; [|done|apply recv_ok_fresh].
    apply coh_aside; [by apply coh_emit|by apply Hns|].
    intros c'. unfold recv_waiting; simpl. rewrite Hrv, Ea. simpl. naive_solver.
  - destruct H as (-> & Hz & Hs). rewrite (deref_Some _ _ _ Ec). cbn [mbind outcome_bind].
    destruct (closed_ ch) eqn:Hcl.
    + rewrite (deref_Some _ _ _ Ea). cbn [mbind outcome_bind]. eexists false, _. split; [reflexivity|].
      split; [|exists None; simpl; by rewrite lookup_insert_eq].
      split; [|exact Hok]. apply coh_put_recv; [|done|apply recv_ok_fresh].
      apply coh_aside; [done|apply Hns|done].
    + assert (Hnin : WRecv a ∉ receivers_ ch).
      { intros Hin. apply (co_receivers _ _ Hc c ch _ Ec) in Hin as [Hin _]. by apply Hnr in Hin. }
      rewrite bool_decide_eq_false_2 by done. cbn [negb ALYRN_CHECK mbind outcome_bind].
      eexists true, _. split; [reflexivity|].
      match goal with |- context [put_recv a ?x w] => set (x1 := x); set (w1 := put_recv a x w) end.
      assert (Hv : forall y, y <> WRecv a -> view w1 y = view w y).
      { intros [b|b|s i] Hne; simpl; try done. rewrite lookup_insert_ne; [done|]. congruence. }
      assert (Hl : forall b y, w_recvs w1 !! b = Some y -> (b = a /\ y = x1) \/ w_recvs w !! b = Some y).
      { intros b y. simpl. rewrite lookup_insert_Some. naive_solver. }
      assert (Hrw : forall x c', recv_waiting w1 x c' <-> recv_waiting w x c' \/ (x = WRecv a /\ c' = c)).
      { intros y c'. destruct (decide (y = WRecv a)) as [->|Hne].
        - unfold recv_waiting; simpl. rewrite lookup_insert_eq, Ea. simpl. naive_solver.
        - rewrite (view_same_recv _ _ y (Hv y Hne)). naive_solver. }
      split; [|unfold recv_waiting; simpl; rewrite lookup_insert_eq; done].
      split; [apply (coh_enqueue_receiver (WRecv a) c ch w w1); auto|].
      * done.
      * intros y c'. destruct (decide (y = WRecv a)) as [->|Hne]; [split; intros H; by apply Hns in H|].
        by rewrite (view_same_send _ _ y (Hv y Hne)).
      * apply (co_sels _ _ Hc).
      * apply (co_sends _ _ Hc).
      * intros b y [[-> ->]|Hy]%Hl; [split; simpl; eauto|by apply (co_recvs _ _ Hc b)].
      * apply (co_value _ _ Hc).
      * apply (co_taken _ _ Hc).
      * apply chans_ok_put; [done| |].
        -- split; simpl; rewrite ?Hs, ?Hcl; try done. set_solver.
        -- exists vs. split; [by apply (ring_ok_queues _ [] _)|done].
Qed.

(** *** Destroying awaiters *)

(** Taking a plain waiter out of its queue is taking it out of all of them. *)
Lemma plain_remove_sender h c ch a w :
  coh h w -> w_chans w !! c = Some ch -> send_waiting w (WSend a) c ->
  <[c := set_senders (remove (WSend a) (senders_ ch)) ch]> (w_chans w) = drop_group (WSend a) <$> w_chans w.
Proof.
  intros Hc Ec Hw. apply map_eq. intros c'. rewrite lookup_fmap.
  destruct (decide (c' = c)) as [->|Hne].
  - rewrite lookup_insert_eq, Ec. simpl. f_equal. unfold drop_group, drop_if, remove.
    rewrite (filter_all _ (receivers_ ch)).
    + destruct ch; unfold set_senders, set_receivers; simpl; f_equal.
      apply list_filter_iff. intros x; rewrite bool_decide_eq_false; destruct x; simpl; naive_solver.
    + intros x Hx; rewrite bool_decide_eq_false; destruct x; simpl; try tauto. intros <-.
      apply (co_receivers _ _ Hc c ch _ Ec) in Hx as [Hx _]. by eapply send_recv_waiting.
  - rewrite lookup_insert_ne by done. destruct (w_chans w !! c') as [ch'|] eqn:Ec'; [|done].
    simpl. f_equal. symmetry. apply drop_if_none.
    intros x Hx; rewrite bool_decide_eq_false; destruct x; simpl; try tauto. intros <-.
    destruct Hx as [Hx|Hx].
    + apply (co_senders _ _ Hc c' ch' _ Ec') in Hx as [Hx _]. apply Hne. by eapply send_waiting_chan.
    + apply (co_receivers _ _ Hc c' ch' _ Ec') in Hx as [Hx _]. by eapply send_recv_waiting.
Qed.

Lemma plain_remove_receiver h c ch a w :
  coh h w -> w_chans w !! c = Some ch -> recv_waiting w (WRecv a) c ->
  <[c := set_receivers (remove (WRecv a) (receivers_ ch)) ch]> (w_chans w) = drop_group (WRecv a) <$> w_chans w.
Proof.
  intros Hc Ec Hw. apply map_eq. intros c'. rewrite lookup_fmap.
  destruct (decide (c' = c)) as [->|Hne].
  - rewrite lookup_insert_eq, Ec. simpl. f_equal. unfold drop_group, drop_if, remove.
    rewrite (filter_all _ (senders_ ch)).
    + destruct ch; unfold set_senders, set_receivers; simpl; f_equal.
      apply list_filter_iff. intros x; rewrite bool_decide_eq_false; destruct x; simpl; naive_solver.
    + intros x Hx; rewrite bool_decide_eq_false; destruct x; simpl; try tauto. intros <-.
      apply (co_senders _ _ Hc c ch _ Ec) in Hx as [Hx _]. by eapply send_recv_waiting.
  - rewrite lookup_insert_ne by done. destruct (w_chans w !! c') as [ch'|] eqn:Ec'; [|done].
    simpl. f_equal. symmetry. apply drop_if_none.
    intros x Hx; rewrite bool_decide_eq_false; destruct x; simpl; try tauto. intros <-.
    destruct Hx as [Hx|Hx].
    + apply (co_senders _ _ Hc c' ch' _ Ec') in Hx as [Hx _]. by eapply send_recv_waiting.
    + apply (co_receivers _ _ Hc c' ch' _ Ec') in Hx as [Hx _]. apply Hne. by eapply recv_waiting_chan.
Qed.

(** A waiter's group is gone and so is its object. *)
Lemma settled_wf r w w' :
  wf w -> settled r w w' -> group_ok r w' -> w_trace w' = w_trace w -> wf w'.
Proof.
  intros [Hc Hok] Hs Hg Ht. split; [by apply (settled_coh_gen [] [] r w w')|].
  rewrite Ht, (se_chans _ _ _ Hs). by apply chans_ok_drop.
Qed.

(** A waiter that waits nowhere takes nothing out of the queues. *)
Lemma idle_drop r w : coh [] w -> idle_group w r -> w_chans w = drop_group r <$> w_chans w.
Proof.
  intros Hc Hi. apply map_eq. intros c. rewrite lookup_fmap.
  destruct (w_chans w !! c) as [ch|] eqn:Ec; [|done]. simpl. f_equal. symmetry.
  apply drop_if_none. intros x Hx. apply bool_decide_eq_false. intros Hg.
  destruct (Hi x c Hg) as [H1 H2]. destruct Hx as [Hx|Hx].
  - apply (co_senders _ _ Hc c ch _ Ec) in Hx as [Hx _]. done.
  - apply (co_receivers _ _ Hc c ch _ Ec) in Hx as [Hx _]. done.
Qed.

Lemma destroy_send_spec a x w :
  wf w -> w_sends w !! a = Some x -> exists w', destroy_send a w = Val w' /\ wf w' /\ w_sends w' !! a = None.
Proof.
  intros Hwf Ea. pose proof Hwf as [Hc Hok]. unfold destroy_send.
  rewrite (deref_Some _ _ _ Ea). cbn [mbind outcome_bind].
  destruct (sa_waiting x) eqn:Hw.
  - assert (Hsw : send_waiting w (WSend a) (sa_channel x)) by (unfold send_waiting; simpl; by rewrite Ea).
    destruct (co_exists _ _ Hc _ _ (or_introl Hsw)) as [ch Ec].
    unfold CancelSend. rewrite (owned_chan_Some _ _ _ Ec (co_owner _ _ Hc _ _ Ec)). cbn [mbind outcome_bind].
    assert (Hin : WSend a ∈ senders_ ch) by (apply (co_senders _ _ Hc _ ch _ Ec); set_solver).
    rewrite (check_bool_decide _ Hin). cbn [mbind outcome_bind]. unfold send_Cancelled.
    rewrite (deref_Some _ _ x) by done. cbn [mbind outcome_bind]. eexists. split; [reflexivity|].
    split; [|simpl; by rewrite lookup_delete_eq].
    apply (settled_wf (WSend a) w); [done| |intros x'; simpl; by rewrite lookup_delete_eq|done].
    split; simpl; try done.
    + by apply (plain_remove_sender [] _ ch).
    + intros [b|b|s j] Hg; simpl in *; try done. by rewrite lookup_delete_ne, lookup_insert_ne.
    + intros [b|b|s j] c Hg; simpl in Hg; try done. subst b. unfold send_waiting; simpl.
      rewrite lookup_delete_eq. simpl. tauto.
    + intros [b|b|s j] c Hg; simpl in Hg; try done. unfold recv_waiting; simpl. tauto.
  - cbn [mbind outcome_bind]. eexists. split; [reflexivity|]. split; [|simpl; by rewrite lookup_delete_eq].
    assert (Hi : idle_group w (WSend a)).
    { intros [b|b|s j] c Hg; simpl in Hg; try done. subst b.
      unfold send_waiting, recv_waiting; simpl. rewrite Ea. simpl. rewrite Hw. intuition done. }
    apply (settled_wf (WSend a) w); [done| |intros x'; simpl; by rewrite lookup_delete_eq|done].
    split; simpl; try done.
    + by apply idle_drop.
    + intros [b|b|s j] Hg; simpl in *; try done. by rewrite lookup_delete_ne.
    + intros [b|b|s j] c Hg; simpl in Hg; try done. subst b. unfold send_waiting; simpl.
      rewrite lookup_delete_eq. simpl. tauto.
    + intros [b|b|s j] c Hg; simpl in Hg; try done. unfold recv_waiting; simpl. tauto.
Qed.

Lemma destroy_recv_spec a x w :
  wf w -> w_recvs w !! a = Some x -> exists w', destroy_recv a w = Val w' /\ wf w' /\ w_recvs w' !! a = None.
Proof.
  intros Hwf Ea. pose proof Hwf as [Hc Hok]. unfold destroy_recv.
  rewrite (deref_Some _ _ _ Ea). cbn [mbind outcome_bind].
  destruct (ra_waiting x) eqn:Hw.
  - assert (Hsw : recv_waiting w (WRecv a) (ra_channel x)) by (unfold recv_waiting; simpl; by rewrite Ea).
    destruct (co_exists _ _ Hc _ _ (or_intror Hsw)) as [ch Ec].
    unfold CancelReceive. rewrite (owned_chan_Some _ _ _ Ec (co_owner _ _ Hc _ _ Ec)). cbn [mbind outcome_bind].
    assert (Hin : WRecv a ∈ receivers_ ch) by (apply (co_receivers _ _ Hc _ ch _ Ec); set_solver).
    rewrite (check_bool_decide _ Hin). cbn [mbind outcome_bind]. unfold recv_Cancelled.
    rewrite (deref_Some _ _ x) by done. cbn [mbind outcome_bind]. eexists. split; [reflexivity|].
    split; [|simpl; by rewrite lookup_delete_eq].
    apply (settled_wf (WRecv a) w); [done| |intros x'; simpl; by rewrite lookup_delete_eq|done].
    split; simpl; try done.
    + by apply (plain_remove_receiver [] _ ch).
    + intros [b|b|s j] Hg; simpl in *; try done. by rewrite lookup_delete_ne, lookup_insert_ne.
    + intros [b|b|s j] c Hg; simpl in Hg; try done. unfold send_waiting; simpl. tauto.
    + intros [b|b|s j] c Hg; simpl in Hg; try done. subst b. unfold recv_waiting; simpl.
      rewrite lookup_delete_eq. simpl. tauto.
  - cbn [mbind outcome_bind]. eexists. split; [reflexivity|]. split; [|simpl; by rewrite lookup_delete_eq].
    assert (Hi : idle_group w (WRecv a)).
    { intros [b|b|s j] c Hg; simpl in Hg; try done. subst b.
      unfold send_waiting, recv_waiting; simpl. rewrite Ea. simpl. rewrite Hw. intuition done. }
    apply (settled_wf (WRecv a) w); [done| |intros x'; simpl; by rewrite lookup_delete_eq|done].
    split; simpl; try done.
    + by apply idle_drop.
    + intros [b|b|s j] Hg; simpl in *; try done. by rewrite lookup_delete_ne.
    + intros [b|b|s j] c Hg; simpl in Hg; try done. unfold send_waiting; simpl. tauto.
    + intros [b|b|s j] c Hg; simpl in Hg; try done. subst b. unfold recv_waiting; simpl.
      rewrite lookup_delete_eq. simpl. tauto.
Qed.
End ops.
Abbreviation wf := (wf_at None).
