(* ===== verification/ChannelSelect.v ===== *)
(** * Closing, creating and selecting *)

From S2P Require Import Prelude Channel ChannelRing ChannelInv ChannelComplete ChannelOps.
Import Channel.

Section select.
Context {T : Type}.
Implicit Types (w : world T) (ch : chan T) (g : reg T).

(** ** [Close] *)

Lemma close_receivers_spec c fuel : forall ch w,
  wf_at (Some c) w -> w_chans w !! c = Some ch -> senders_ ch = [] ->
  (length (receivers_ ch) <= fuel)%nat ->
  exists w' ch', close_receivers fuel c w = Val w' /\ wf_at (Some c) w' /\
    w_chans w' !! c = Some ch' /\ receivers_ ch' = [] /\ senders_ ch' = [] /\ closed_ ch' = closed_ ch /\
    w_trace w' = w_trace w.
Proof.
  induction fuel as [|fuel IH]; intros ch w Hwf Ec Hs Hl; pose proof Hwf as [Hc Hok];
    cbn [close_receivers]; unfold pop_receiver; rewrite (deref_Some _ _ _ Ec); cbn [mbind outcome_bind];
    destruct (receivers_ ch) as [|r q] eqn:Hq; cbn [mbind outcome_bind].
  - exists w, ch. by split_and!.
  - simpl in Hl. lia.
  - exists w, ch. by split_and!.
  - destruct (coh_pop_receiver [] c ch r q w Hc Ec Hq) as (Hc1 & Hw & _).
    destruct (recv_complete_spec [] r c None (put_chan c (set_receivers q ch) w)) as (w2 & E2 & Hc2 & Hset & Ht);
      auto using apart_nil.
    { apply receiver_pending_chan; [by rewrite Ec|]. by eapply recv_waiting_pending. }
    unfold recv_CompleteClosed. rewrite E2. cbn [mbind outcome_bind]. rewrite app_nil_r in Ht. simpl in Ht.
    assert (Ec2 : w_chans w2 !! c = Some (drop_group r (set_receivers q ch))).
    { rewrite (se_chans _ _ _ Hset), lookup_fmap. simpl. by rewrite lookup_insert_eq. }
    destruct (IH (drop_group r (set_receivers q ch)) w2) as (w' & ch' & E' & H1 & H2 & H3 & H4 & H5 & H6).
    + split; [done|]. rewrite Ht, (se_chans _ _ _ Hset). apply chans_ok_drop. simpl.
      destruct (Hok c ch Ec) as [Hb (vs & Hr & Hf)]. apply chans_ok_put; [done| |].
      * eapply chan_bal_shrunk; [done|]. by eapply shrunk_pop_receiver.
      * exists vs. split; [by apply (ring_ok_queues _ [] q)|done].
    + done.
    + unfold drop_group. rewrite drop_if_senders. simpl. by rewrite Hs.
    + unfold drop_group. rewrite drop_if_receivers. simpl. simpl in Hl.
      pose proof (length_filter (fun r0 => bool_decide (same_group r r0) = false) q). lia.
    + exists w', ch'. split_and!; auto. congruence.
Qed.

Lemma wf_at_None c w :
  wf_at (Some c) w ->
  (forall ch, w_chans w !! c = Some ch -> senders_ ch = [] /\ receivers_ ch = []) -> wf w.
Proof.
  intros [Hc Hok] He. split; [done|]. intros c' ch Ec. destruct (Hok c' ch Ec) as [[B1 B2 B3 B4] Hf].
  split; [|done]. split; auto. intros _ Hcl. destruct (decide (c' = c)) as [->|Hne]; [by apply He|].
  apply B4; [|done]. apply bool_decide_eq_false. congruence.
Qed.

Lemma Close_spec c ch w :
  wf w -> w_chans w !! c = Some ch -> closed_ ch = false -> senders_ ch = [] ->
  exists w' ch', Close c w = Val w' /\ wf w' /\ w_chans w' !! c = Some ch' /\ closed_ ch' = true /\
    w_trace w' = w_trace w.
Proof.
  intros [Hc Hok] Ec Hcl Hs. destruct (Hok c ch Ec) as [Hb (vs & Hr & Hf)].
  unfold Close. rewrite (owned_chan_Some _ _ _ Ec (co_owner _ _ Hc _ _ Ec)). cbn [mbind outcome_bind].
  rewrite Hcl, Hs. cbn [negb ALYRN_CHECK mbind outcome_bind length close_senders].
  set (w1 := put_chan c (set_closed ch) w).
  assert (Ec1 : w_chans w1 !! c = Some (set_closed ch)) by apply lookup_insert_eq.
  assert (Hwf1 : wf_at (Some c) w1).
  { split.
    - destruct (co_nodup _ _ Hc c ch Ec) as [N1 N2].
      apply (coh_put_chan [] [] c ch); simpl; auto.
      + intros x. apply (co_senders _ _ Hc c ch x Ec).
      + intros x. apply (co_receivers _ _ Hc c ch x Ec).
    - intros c' ch'. simpl. rewrite lookup_insert_Some. intros [[<- <-]|[Hne E]].
      + split; [|exists vs; split; [by destruct Hr|done]]. destruct Hb as [B1 B2 B3 B4].
        split; simpl; auto. by rewrite bool_decide_eq_true_2.
      + destruct (Hok c' ch' E) as [[B1 B2 B3 B4] Hf']. split; [|done]. split; auto. }
  unfold pop_sender. rewrite (deref_Some _ _ _ Ec1). cbn [mbind outcome_bind senders_ set_closed]. rewrite Hs.
  cbn [mbind outcome_bind]. rewrite (deref_Some _ _ _ Ec1). cbn [mbind outcome_bind size_ set_closed receivers_].
  destruct (Z.eqb_spec (size_ ch) 0) as [Hz|Hnz]; cbn [negb].
  - destruct (close_receivers_spec c (length (receivers_ ch)) (set_closed ch) w1)
      as (w' & ch' & E & H1 & H2 & H3 & H4 & H5 & H6); auto.
    exists w', ch'. split_and!; auto. eapply wf_at_None; [done|]. naive_solver.
  - exists w1, (set_closed ch). split_and!; auto. eapply wf_at_None; [done|]. intros ch'.
    rewrite Ec1. intros [= <-]. simpl. split; [done|].
    destruct (receivers_ ch) eqn:E; [done|]. destruct Hnz. apply (cb_recv _ _ Hb). congruence.
Qed.

(** Closing aborts when a sender waits. *)
Lemma Close_waiting_sender c ch w r q :
  coh [] w -> w_chans w !! c = Some ch -> senders_ ch = r :: q -> Close c w = Panic.
Proof.
  intros Hc Ec Hq. unfold Close. rewrite (owned_chan_Some _ _ _ Ec (co_owner _ _ Hc _ _ Ec)).
  cbn [mbind outcome_bind]. destruct (closed_ ch) eqn:Hcl; [done|]. cbn [negb ALYRN_CHECK mbind outcome_bind].
  rewrite Hq. cbn [length close_senders]. unfold pop_sender.
  rewrite (deref_Some _ _ (set_closed ch)) by apply lookup_insert_eq.
  cbn [mbind outcome_bind senders_ set_closed]. rewrite Hq. cbn [mbind outcome_bind].
  destruct (coh_pop_sender [] c ch r q w Hc Ec Hq) as (_ & Hw & _).
  unfold send_waiting in Hw. destruct r as [a|a|s i]; [done|done|]. simpl in Hw.
  destruct (w_sels w !! s) as [S|] eqn:Es; [|done]. destruct Hw as (v & t & Hi).
  unfold send_NotifyClosed. rewrite (get_reg_Some s i S (RegSend c v true true t)) by done.
  cbn [mbind outcome_bind negb]. unfold TryWin.
  rewrite (deref_Some _ _ (set_regs (<[i := kill (RegSend c v true true t)]> (sel_regs S)) S))
    by (rewrite (put_reg_sels s i _ S) by done; apply lookup_insert_eq).
  cbn [mbind outcome_bind]. unfold Completed. cbn [sel_winner set_regs].
  pose proof (so_regs _ (co_sels _ _ Hc s S Es) i _ Hi) as Hl.
  destruct (sel_winner S) as [k|] eqn:Hk; [done|].
  rewrite bool_decide_eq_false_2 by (by intros [? ?]). cbn [mbind outcome_bind negb].
  by destruct (CaseCompleted _ _ _).
Qed.

(** ** New objects *)

Lemma new_send_spec a c v w : wf w -> w_sends w !! a = None -> wf (new_send a c v w).
Proof.
  intros [Hc Hok] Ea. split; [|done]. apply coh_put_send; [|done|apply send_ok_fresh].
  apply coh_aside; [done| |]; intros c'; unfold send_waiting, recv_waiting; simpl; rewrite ?Ea; simpl; tauto.
Qed.
Lemma new_recv_spec a c o w : wf w -> w_recvs w !! a = None -> wf (new_recv a c o w).
Proof.
  intros [Hc Hok] Ea. split; [|done]. apply coh_put_recv; [|done|apply recv_ok_fresh].
  apply coh_aside; [done| |]; intros c'; unfold send_waiting, recv_waiting; simpl; rewrite ?Ea; simpl; tauto.
Qed.

(** A channel nobody refers to comes into being, or goes. *)
Lemma fresh_chan_spec c ch sched w :
  wf w -> w_chans w !! c = None -> accepted c (w_trace w) = delivered c (w_trace w) ->
  w_current w = Some sched -> scheduler_ ch = sched -> ring_ok ch [] ->
  senders_ ch = [] -> receivers_ ch = [] -> wf (put_chan c ch w).
Proof.
  intros [Hc Hok] Ec Hf Hcur Hsc Hr Hs Hq.
  assert (Hno : forall x, ~ send_waiting w x c /\ ~ recv_waiting w x c).
  { intros x. split; intros Hw; [destruct (co_exists _ _ Hc c x (or_introl Hw)) as [? E]
      |destruct (co_exists _ _ Hc c x (or_intror Hw)) as [? E]]; congruence. }
  assert (Hlk : forall c' ch0, w_chans (put_chan c ch w) !! c' = Some ch0 ->
    (c' = c /\ ch0 = ch) \/ (c' <> c /\ w_chans w !! c' = Some ch0)).
  { intros c' ch0. simpl. rewrite lookup_insert_Some. naive_solver. }
  split.
  - destruct Hc as [Ho Hn Hms Hmr He Hsel Hsnd Hrcv Hval Htk Hcu]. split; simpl; auto.
    + intros c' ch0 [[-> ->]|[_ E]]%Hlk; [congruence|eauto].
    + intros c' ch0 [[-> ->]|[_ E]]%Hlk; [|eauto]. rewrite Hs, Hq. split; apply NoDup_nil_2.
    + intros c' ch0 x [[-> ->]|[Hne E]]%Hlk; [|by apply Hms]. rewrite Hs.
      change (send_waiting (put_chan c ch w)) with (send_waiting w). destruct (Hno x). set_solver.
    + intros c' ch0 x [[-> ->]|[Hne E]]%Hlk; [|by apply Hmr]. rewrite Hq.
      change (recv_waiting (put_chan c ch w)) with (recv_waiting w). destruct (Hno x). set_solver.
    + intros c' x Hw. rewrite lookup_insert_is_Some. destruct (decide (c = c')); [by left|right].
      split; [done|]. by apply (He c' x).
  - intros c' ch0 [[-> ->]|[_ E]]%Hlk; [|by apply Hok]. split; [|exists []; by rewrite app_nil_r].
    split; rewrite ?Hs, ?Hq; try done. set_solver.
Qed.

Lemma destroy_chan_spec c ch w :
  wf w -> w_chans w !! c = Some ch -> closed_ ch = true ->
  exists w', destroy_chan c w = Val w' /\ wf w' /\ w_chans w' = delete c (w_chans w) /\ w_trace w' = w_trace w.
Proof.
  intros [Hc Hok] Ec Hcl. destruct (Hok c ch Ec) as [Hb Hf]. destruct (cb_closed _ _ Hb) as [Hs Hq]; [done|done|].
  unfold destroy_chan. rewrite (deref_Some _ _ _ Ec). cbn [mbind outcome_bind]. rewrite Hcl, Hs, Hq. simpl.
  eexists. split; [reflexivity|]. split; [|done].
  assert (Hlk : forall c' ch0, delete c (w_chans w) !! c' = Some ch0 -> c' <> c /\ w_chans w !! c' = Some ch0).
  { intros c' ch0. rewrite lookup_delete_Some. naive_solver. }
  split.
  - destruct Hc as [Ho Hn Hms Hmr He Hsel Hsnd Hrcv Hval Htk Hcu]. split; simpl; auto.
    + intros c' ch0 [_ E]%Hlk. eauto.
    + intros c' ch0 [_ E]%Hlk. eauto.
    + intros c' ch0 x [_ E]%Hlk. by apply Hms.
    + intros c' ch0 x [_ E]%Hlk. by apply Hmr.
    + intros c' x Hw. rewrite lookup_delete_is_Some. split; [|by apply (He c' x)].
      intros ->. destruct Hw as [Hw|Hw].
      * assert (Hin : x ∈ senders_ ch) by (apply (Hms c' ch x Ec); set_solver). rewrite Hs in Hin. set_solver.
      * assert (Hin : x ∈ receivers_ ch) by (apply (Hmr c' ch x Ec); set_solver). rewrite Hq in Hin. set_solver.
  - intros c' ch0 [_ E]%Hlk. by apply Hok.
Qed.

(** ** Select objects *)

(** A select whose cases wait nowhere can be replaced by one that is at rest. *)
Definition at_rest (S : select T) : Prop :=
  sel_ok S /\ (forall i g, sel_regs S !! i = Some g -> ~ is_queued g) /\
  (forall i c v q t, sel_regs S !! i = Some (RegSend c v true q t) -> t = false).

Lemma at_rest_idle w s S i : w_sels w !! s = Some S -> at_rest S -> idle_group w (WSelect s i).
Proof.
  intros E (_ & Hq & _) [a|a|s' j] c Hg; simpl in Hg; try done. subst s'.
  unfold send_waiting, recv_waiting; simpl. rewrite E. simpl.
  split; [intros (v & t & Hj)|intros (o & Hj)]; by apply (Hq j _ Hj).
Qed.

Lemma coh_put_sel s S' w : coh [] w -> idle_group w (WSelect s 0) -> at_rest S' -> coh [] (put_sel s S' w).
Proof.
  intros Hc Hi HS. pose proof HS as (Hok & Hq & Ht).
  assert (Hv : forall y, ~ same_group (WSelect s 0) y -> view (put_sel s S' w) y = view w y).
  { intros [b|b|s' j] Hg; simpl in *; try done. by rewrite lookup_insert_ne. }
  assert (Hidle : idle_group (put_sel s S' w) (WSelect s 0)).
  { eapply at_rest_idle; [apply lookup_insert_eq|done]. }
  assert (Hl : forall s0 S0, w_sels (put_sel s S' w) !! s0 = Some S0 ->
    (s0 = s /\ S0 = S') \/ (s0 <> s /\ w_sels w !! s0 = Some S0)).
  { intros s0 S0. simpl. rewrite lookup_insert_Some. naive_solver. }
  apply (coh_same_waiting [] w); try done.
  - intros y c. destruct (decide (same_group (WSelect s 0) y)) as [Hg|Hg].
    + destruct (Hi y c Hg), (Hidle y c Hg). tauto.
    + by apply view_same_send, Hv.
  - intros y c. destruct (decide (same_group (WSelect s 0) y)) as [Hg|Hg].
    + destruct (Hi y c Hg), (Hidle y c Hg). tauto.
    + by apply view_same_recv, Hv.
  - intros s0 S0 [[-> ->]|[_ E]]%Hl; [done|by apply (co_sels _ _ Hc s0)].
  - apply (co_sends _ _ Hc).
  - apply (co_recvs _ _ Hc).
  - apply (co_value _ _ Hc).
  - intros s0 S0 j c v q t [[-> ->]|[_ E]]%Hl Hj Hh; [by apply (Ht j c v q t)|].
    by apply (co_taken _ _ Hc s0 S0 j c v q t).
Qed.

Definition of_cases (cases : list (select_case T)) : list (reg T) := registration <$> cases.

Lemma of_cases_rest cases h sc : at_rest (mkSelect (of_cases cases) None kArming h sc).
Proof.
  assert (Hr : forall i g, of_cases cases !! i = Some g -> exists k, g = registration k).
  { intros i g. unfold of_cases. rewrite list_lookup_fmap, fmap_Some. naive_solver. }
  split_and!.
  - split; simpl; [|done|done|done|]; [intros i g (k & ->)%Hr; by destruct k|].
    intros _ i g (k & ->)%Hr. destruct k; simpl; intuition discriminate.
  - intros i g (k & ->)%Hr. destruct k; simpl; intuition discriminate.
  - intros i c v q t (k & E)%Hr. destruct k; simpl in E; by simplify_eq.
Qed.

Lemma new_select_spec s cases w : wf w -> w_sels w !! s = None -> wf (new_select s cases w).
Proof.
  intros [Hc Hok] E. split; [|done]. apply coh_put_sel; [done| |apply of_cases_rest].
  intros [a|a|s' j] c Hg; simpl in Hg; try done. subst s'.
  unfold send_waiting, recv_waiting; simpl. rewrite E. simpl. tauto.
Qed.

(** *** Destroying a select *)

Lemma coh_queued s S w : coh [] w -> w_sels w !! s = Some S -> sel_queued s (sel_regs S) w.
Proof.
  intros Hc E. split.
  - apply (co_owner _ _ Hc).
  - intros c ch j Ec. rewrite (co_senders _ _ Hc c ch _ Ec). unfold send_waiting; simpl. rewrite E. simpl.
    set_solver.
  - intros c ch j Ec. rewrite (co_receivers _ _ Hc c ch _ Ec). unfold recv_waiting; simpl. rewrite E. simpl.
    set_solver.
  - intros j g Hj. pose proof (so_regs _ (co_sels _ _ Hc s S E) j g Hj). destruct (sel_winner S); auto.
  - intros j c Hj. apply (co_exists _ _ Hc c (WSelect s j)).
    unfold send_waiting, recv_waiting; simpl. rewrite E. simpl. done.
Qed.

Lemma destroy_regs_spec s n : forall S w,
  w_sels w !! s = Some S -> sel_queued s (sel_regs S) w -> (n <= length (sel_regs S))%nat ->
  exists w' S' p, destroy_regs s n w = Val w' /\ cut s p S S' w w' /\
    (forall j g, (j < n)%nat -> sel_regs S !! j = Some g -> is_queued g -> p j = true).
Proof.
  induction n as [|n IH]; intros S w E Hq Hn; cbn [destroy_regs].
  { exists w, S, (fun _ => false). split_and!; [done|apply cut_dead; [done|by intros ?|done]|lia]. }
  destruct (lookup_lt_is_Some_2 (sel_regs S) n) as [g Hg]; [lia|].
  rewrite (get_reg_Some _ _ _ _ _ E Hg). cbn [mbind outcome_bind].
  assert (Hstep : exists w1 S1 p,
    match g with
    | RegSend c _ _ true _ => CancelSend c (WSelect s n) w
    | RegRecv c _ _ true => CancelReceive c (WSelect s n) w
    | _ => Val w
    end = Val w1 /\ cut s p S S1 w w1 /\ (is_queued g -> p n = true) /\ (forall j, j <> n -> p j = false)).
  { assert (Hnone : ~ is_queued g -> exists w1 S1 p, Val w = Val w1 /\ cut s p S S1 w w1 /\
      (is_queued g -> p n = true) /\ (forall j, j <> n -> p j = false)).
    { intros Hnq. exists w, S, (fun _ => false). split_and!; try done. apply cut_dead; [done|by intros ?|done]. }
    destruct (reg_Cancel_spec s n S g w E Hg Hq) as (w1 & S1 & E1 & Hc1).
    assert (Hyes : Val w1 = Val w1 /\ cut s (Nat.eqb n) S S1 w w1 /\ (is_queued g -> Nat.eqb n n = true) /\
      (forall j, j <> n -> Nat.eqb n j = false)).
    { split_and!; try done; [intros _; apply Nat.eqb_refl|]. intros j Hj. by apply Nat.eqb_neq. }
    unfold reg_Cancel in E1. rewrite (get_reg_Some _ _ _ _ _ E Hg) in E1. cbn [mbind outcome_bind] in E1.
    destruct (sq_active _ _ _ Hq n g Hg) as [Hl|Hd].
    - destruct g as [c v a [] t|c o a []|]; simpl in Hl; subst; simpl in E1; try (apply Hnone; simpl; intuition discriminate).
      + rewrite E1. eauto.
      + rewrite E1. eauto.
    - destruct g as [c v a q t|c o a q|]; [apply dead_not_live in Hd as [-> ->]
        |apply dead_not_live_recv in Hd as [-> ->]|];
        apply Hnone; simpl; intuition discriminate. }
  destruct Hstep as (w1 & S1 & p & -> & Hc1 & Hp & Hp'). cbn [mbind outcome_bind].
  destruct (IH S1 w1) as (w2 & S2 & p2 & E2 & Hc2 & Hp2).
  - by eapply cut_lookup.
  - by eapply cut_queued.
  - rewrite (cu_length _ _ _ _ _ _ Hc1). lia.
  - exists w2, S2, (fun j => p2 j || p j). split_and!; [done|by eapply cut_trans|].
    intros j gj Hj Hgj Hqj. apply orb_true_iff. destruct (decide (j = n)) as [->|Hne].
    + right. apply Hp. congruence.
    + left. apply (Hp2 j gj); [lia| |done]. rewrite (cu_regs _ _ _ _ _ _ Hc1 j gj Hgj), Hp' by done. done.
Qed.

Lemma destroy_select_spec s S w :
  wf w -> w_sels w !! s = Some S ->
  exists w', destroy_select s w = Val w' /\ wf w' /\ w_sels w' !! s = None.
Proof.
  intros Hwf E. pose proof Hwf as [Hc Hok]. unfold destroy_select.
  rewrite (deref_Some _ _ _ E). cbn [mbind outcome_bind].
  pose proof (coh_queued s S w Hc E) as Hq.
  destruct (destroy_regs_spec s (length (sel_regs S)) S w E Hq) as (w1 & S1 & p & -> & Hcut & Hp); [lia|].
  cbn [mbind outcome_bind]. eexists. split; [reflexivity|]. split; [|simpl; by rewrite lookup_delete_eq].
  destruct Hcut as [A1 A2 A3 A4 A5 A6 A7 A8 A9 A10 A11].
  apply (settled_wf (WSelect s 0) w); [done| | |done].
  - split; simpl.
    + rewrite A1. apply map_fmap_ext. intros c ch Ec. apply drop_if_ext.
      intros [a|a|s' j] Hr; simpl; try done. case_bool_decide; [subst s'|done]. simpl.
      destruct Hr as [Hr|Hr].
      * apply (sq_send _ _ _ Hq c ch j Ec) in Hr as (v & t & Hr). eapply Hp; eauto; [|done].
        by eapply lookup_lt_Some.
      * apply (sq_recv _ _ _ Hq c ch j Ec) in Hr as (o & Hr). eapply Hp; eauto; [|done].
        by eapply lookup_lt_Some.
    + done.
    + intros [b|b|s' j] Hg; simpl in *; [by rewrite A6|by rewrite A7|].
      by rewrite lookup_delete_ne, A2, lookup_insert_ne.
    + intros [b|b|s' j] c Hg; simpl in Hg; try done. subst s'. unfold send_waiting; simpl.
      rewrite lookup_delete_eq. simpl. tauto.
    + intros [b|b|s' j] c Hg; simpl in Hg; try done. subst s'. unfold recv_waiting; simpl.
      rewrite lookup_delete_eq. simpl. tauto.
  - intros S' HS'. simpl in HS'. by rewrite lookup_delete_eq in HS'.
Qed.

(** *** Which cases are ready *)

Definition ready_in w g : bool :=
  match g with
  | RegSend c _ _ _ _ =>
      match w_chans w !! c with
      | Some ch => closed_ ch || negb (bool_decide (receivers_ ch = [])) || negb (size_ ch =? capacity_ ch)
      | None => false
      end
  | RegRecv c _ _ _ =>
      match w_chans w !! c with
      | Some ch => closed_ ch || negb (bool_decide (senders_ ch = [])) || negb (size_ ch =? 0)
      | None => false
      end
  | RegDefault => false
  end.

(** The channel of a case exists, and is open if the case sends. *)
Definition case_chan w g : Prop :=
  match g with
  | RegSend c _ _ _ _ => exists ch, w_chans w !! c = Some ch /\ closed_ ch = false
  | RegRecv c _ _ _ => is_Some (w_chans w !! c)
  | RegDefault => True
  end.

Definition first_default (i : nat) (gs : list (reg T)) (o : option nat) : Prop :=
  match o with
  | Some k => exists j, k = (i + j)%nat /\ gs !! j = Some RegDefault
  | None => RegDefault ∉ gs
  end.

Lemma FindReadyCases_spec i gs w :
  coh [] w -> (forall g, g ∈ gs -> case_chan w g) ->
  exists fallback, FindReadyCases i gs w = Val (ready_in w <$> gs, fallback) /\ first_default i gs fallback.
Proof.
  intros Hc. revert i. induction gs as [|g gs IH]; intros i Hg; cbn [FindReadyCases].
  { exists None. split; [done|]. simpl. set_solver. }
  destruct (IH (i + 1)%nat) as (fb & E & Hfb); [set_solver|].
  assert (Hcg : case_chan w g) by (apply Hg; set_solver).
  assert (Hfb' : g <> RegDefault -> first_default i (g :: gs) fb).
  { intros Hne. destruct fb as [k|]; simpl in *; [|set_solver].
    destruct Hfb as (j & -> & Hj). exists (S j). split; [lia|done]. }
  destruct g as [c v a q t|c o a q|]; simpl in Hcg.
  - destruct Hcg as (ch & Ec & Hcl). unfold reg_Ready, SelectSendReady.
    rewrite (owned_chan_Some _ _ _ Ec (co_owner _ _ Hc _ _ Ec)). cbn [mbind outcome_bind]. rewrite E.
    cbn [mbind outcome_bind]. exists fb. split; [|by apply Hfb']. simpl. by rewrite Ec.
  - destruct Hcg as [ch Ec]. unfold reg_Ready, SelectReceiveReady.
    rewrite (owned_chan_Some _ _ _ Ec (co_owner _ _ Hc _ _ Ec)). cbn [mbind outcome_bind]. rewrite E.
    cbn [mbind outcome_bind]. exists fb. split; [|by apply Hfb']. simpl. by rewrite Ec.
  - rewrite E. cbn [mbind outcome_bind]. exists (Some i). split; [done|]. exists 0%nat. split; [lia|done].
Qed.

Lemma nth_ready_spec i choice (ready : list bool) :
  0 <= choice < Z.of_nat (length (filter (fun b => b = true) ready)) ->
  exists j, nth_ready i choice ready = Val (i + j)%nat /\ ready !! j = Some true.
Proof.
  revert i choice. induction ready as [|[] ready IH]; intros i choice Hch; cbn [nth_ready].
  - simpl in Hch. lia.
  - rewrite filter_cons_True in Hch by done. cbn [length] in Hch.
    destruct (Z.eqb_spec choice 0) as [->|Hne].
    + exists 0%nat. split; [f_equal; lia|done].
    + destruct (IH (i + 1)%nat (choice - 1)) as (j & -> & Hj); [lia|]. exists (S j). split; [f_equal; lia|done].
  - rewrite filter_cons_False in Hch by done.
    destruct (IH (i + 1)%nat choice Hch) as (j & -> & Hj). exists (S j). split; [f_equal; lia|done].
Qed.

Lemma ChooseReadyCase_spec ready w :
  exists o w', ChooseReadyCase ready w = Val (o, w') /\ (exists r, w' = set_rng r w) /\
    match o with
    | Some i => ready !! i = Some true
    | None => forall i b, ready !! i = Some b -> b = false
    end.
Proof.
  unfold ChooseReadyCase. set (n := length (filter (fun b => b = true) ready)).
  assert (Hset : w = set_rng (w_rng w) w) by (by destruct w).
  destruct (Z.eqb_spec (Z.of_nat n) 0) as [Hz|Hnz].
  - exists None, w. split; [done|]. split; [by eexists|]. intros i b Hb. destruct b; [|done].
    apply list_elem_of_lookup_2 in Hb. exfalso.
    assert (Hin : true ∈ filter (fun b => b = true) ready) by (by apply list_elem_of_filter).
    destruct (filter (fun b => b = true) ready) eqn:E; [set_solver|]. unfold n in Hz. simpl in Hz. lia.
  - unfold SelectRandomIndex. rewrite (proj2 (Z.eqb_neq _ _) Hnz). cbn [negb ALYRN_CHECK mbind outcome_bind].
    destruct (nth_ready_spec 0 (next_random (w_rng w) mod Z.of_nat n) ready) as (j & -> & Hj).
    { apply Z.mod_pos_bound. lia. }
    cbn [mbind outcome_bind]. eexists (Some j), _. split; [done|]. split; [by eexists|done].
Qed.

(** *** Committing a ready case *)

Lemma put_reg_id s i S g w : w_sels w !! s = Some S -> sel_regs S !! i = Some g -> put_reg s i g w = w.
Proof.
  intros E Hi. unfold put_reg, set_sels. destruct w; simpl in *. f_equal.
  apply alter_id. intros S' HS'. assert (S' = S) as -> by congruence. destruct S; simpl in *.
  unfold set_regs; simpl. by rewrite list_insert_id.
Qed.

(** The select [s] is about to commit: at rest, undecided. *)
Record starting (s : nat) (S : select T) w : Prop := {
  st_sel : w_sels w !! s = Some S;
  st_rest : at_rest S;
  st_open : sel_winner S = None;
}.

Lemma starting_live s S w i g : starting s S w -> sel_regs S !! i = Some g -> live g.
Proof. intros [E [Hok _] Hw] Hi. pose proof (so_regs _ Hok i g Hi) as H. by rewrite Hw in H. Qed.

Lemma starting_aside h s S w i : coh h w -> starting s S w -> coh (WSelect s i :: h) w.
Proof.
  intros Hc [E Hr _]. pose proof (at_rest_idle w s S i E Hr) as Hi.
  apply coh_aside; [done| |]; intros c; apply (Hi (WSelect s i) c), same_group_refl.
Qed.

(** A waiter of some queue is not a case of a starting select. *)
Lemma starting_apart s S w r c i :
  starting s S w -> send_waiting w r c \/ recv_waiting w r c -> ~ same_group r (WSelect s i).
Proof. intros [E Hr _]. apply idle_apart. by eapply at_rest_idle. Qed.

(** The effect of one waiter's completion on a channel and the trace. *)
Lemma chan_empty_when_receiver ch vs r q :
  chan_bal false ch -> ring_ok ch vs -> receivers_ ch = r :: q -> vs = [].
Proof.
  intros Hb Hr Hq. destruct vs; [done|]. pose proof (rg_size _ _ Hr) as Hsz.
  rewrite (cb_recv _ _ Hb) in Hsz by (by rewrite Hq). simpl in Hsz. lia.
Qed.

Lemma sender_pending_view w w' s i :
  view w' (WSelect s i) = view w (WSelect s i) -> sender_pending w (WSelect s i) -> sender_pending w' (WSelect s i).
Proof. simpl. intros [= E]. by rewrite E. Qed.
Lemma receiver_pending_view w w' s i c :
  view w' (WSelect s i) = view w (WSelect s i) -> receiver_pending w (WSelect s i) c ->
  receiver_pending w' (WSelect s i) c.
Proof. simpl. intros [= E]. by rewrite E. Qed.

Lemma receiver_pending_other w w' r c :
  view w' r = view w r -> (forall c, is_Some (w_chans w !! c) -> is_Some (w_chans w' !! c)) ->
  receiver_pending w r c -> receiver_pending w' r c.
Proof.
  destruct r as [a|a|s i]; simpl; [done| |]; intros [= E] Hch; rewrite E; [|done].
  intros (x & Ex & ? & ? & ?). eauto 10.
Qed.
Lemma sender_pending_other w w' r :
  view w' r = view w r -> (forall c, is_Some (w_chans w !! c) -> is_Some (w_chans w' !! c)) ->
  sender_pending w r -> sender_pending w' r.
Proof.
  destruct r as [a|a|s i]; simpl; [|done|]; intros [= E] Hch; rewrite E; [|done].
  intros (x & Ex & ? & ?). eauto 10.
Qed.

Lemma CommitSelectSend_spec s S i c v q ch w :
  wf w -> starting s S w -> sel_regs S !! i = Some (RegSend c v true q false) ->
  w_chans w !! c = Some ch -> closed_ ch = false -> ready_in w (RegSend c v true q false) = true ->
  exists w', CommitSelectSend c (WSelect s i) w = Val w' /\ wf w'.
Proof.
  intros [Hc Hok] Hst Hi Ec Hcl Hrd. destruct (Hok c ch Ec) as [Hb (vs & Hr & Hf)].
  unfold CommitSelectSend. rewrite (owned_chan_Some _ _ _ Ec (co_owner _ _ Hc _ _ Ec)).
  cbn [mbind outcome_bind]. rewrite Hcl. unfold pop_receiver. rewrite (deref_Some _ _ _ Ec). cbn [mbind outcome_bind].
  assert (Hpend : forall w0, w_sels w0 !! s = Some S -> sender_pending w0 (WSelect s i)).
  { intros w0 E0. exists S, c, v, q, false. split_and!; auto. exact (st_open _ _ _ Hst). }
  assert (Hhold : forall w0, w_sels w0 !! s = Some S -> holds_value w0 (WSelect s i) c v).
  { intros w0 E0. exists S, q. auto. }
  pose proof (st_sel _ _ _ Hst) as Es.
  destruct (receivers_ ch) as [|r qr] eqn:Hq; cbn [mbind outcome_bind].
  - assert (Hroom : size_ ch <> capacity_ ch).
    { simpl in Hrd. rewrite Ec, Hcl, Hq in Hrd. simpl in Hrd. apply negb_true_iff, Z.eqb_neq in Hrd. done. }
    rewrite (proj2 (Z.eqb_neq _ _) Hroom). cbn [negb ALYRN_CHECK mbind outcome_bind].
    destruct (send_TakeValue_spec [] (WSelect s i) w c v) as
      (w1 & -> & Hc1 & Hp1 & Hch & Hen & _ & Hv & _ & _ & Htr & _ & _); [by eapply starting_aside|by apply Hhold|].
    cbn [mbind outcome_bind].
    destruct (push_buffer_spec [WSelect s i] c ch vs v w1 Hc1) as (ch' & -> & Hr' & Hs & Hc2);
      [by rewrite Hch|done|done|].
    cbn [mbind outcome_bind].
    destruct (send_Complete_spec [] (WSelect s i) (put_chan c ch' w1) Hc2) as (w2 & -> & Hc3 & Hset & _ & Ht);
      [apply apart_nil|apply sender_pending_chan; [by rewrite Hch, Ec|by apply Hp1, Hpend]|].
    exists w2. split; [done|]. split; [done|].
    rewrite Ht, (se_chans _ _ _ Hset). simpl. rewrite Hch, Htr. destruct Hs as [R1 R2 R3 R4 R5].
    apply chans_ok_drop, chans_ok_insert; auto using only_Accepted.
    + split; rewrite ?R2, ?R3, ?R5, ?Hq, ?Hcl; try done; [|set_solver].
      intros Hne. destruct Hroom. by apply (cb_send _ _ Hb).
    + exists (vs ++ [v]). split; [done|]. trace_simpl. by rewrite Hf, <- app_assoc.
  - destruct (coh_pop_receiver [] c ch r qr w Hc Ec Hq) as (Hc1 & Hw & _).
    assert (Hap : forall j, ~ same_group r (WSelect s j)) by (intros j; eapply starting_apart; eauto).
    set (w0 := put_chan c (set_receivers qr ch) w) in *.
    destruct (send_TakeValue_spec [r] (WSelect s i) w0 c v) as
      (w1 & -> & Hc2 & Hp1 & Hch & Hen & Hrv & Hv & _ & _ & Htr & _ & _);
      [apply (starting_aside [r] s S); [done|by destruct Hst]|by apply Hhold|].
    cbn [mbind outcome_bind].
    assert (Hcs : forall c0, is_Some (w_chans w !! c0) -> is_Some (w_chans w1 !! c0)).
    { intros c0 H0. rewrite Hch. simpl. rewrite lookup_insert_is_Some. destruct (decide (c = c0)); auto. }
    destruct (recv_complete_spec [WSelect s i] r c (Some v) w1) as (w2 & E2 & Hc3 & Hset & Ht).
    { apply (coh_perm [WSelect s i; r]); [set_solver|done]. }
    { intros x Hin. assert (x = WSelect s i) as -> by set_solver. apply Hap. }
    { apply (receiver_pending_other w); auto.
      - rewrite Hv; [done|]. intros Hg. by apply (Hap i), same_group_sym.
      - by eapply recv_waiting_pending. }
    unfold recv_CompleteValue. rewrite E2. cbn [mbind outcome_bind].
    destruct (send_Complete_spec [] (WSelect s i) w2 Hc3) as (w3 & -> & Hc4 & Hset3 & _ & Ht3);
      [apply apart_nil| |].
    { apply (sender_pending_view w1); [apply (se_view _ _ _ Hset), Hap|by apply Hp1, Hpend]. }
    exists w3. split; [done|]. split; [done|].
    rewrite Ht3, Ht, (se_chans _ _ _ Hset3), (se_chans _ _ _ Hset), Hch, Htr. simpl. rewrite <- app_assoc.
    apply chans_ok_drop, chans_ok_drop, chans_ok_insert; auto.
    + apply only_app; [apply only_Accepted|apply only_Delivered].
    + eapply chan_bal_shrunk; [done|]. by eapply shrunk_pop_receiver.
    + assert (vs = []) as -> by (eapply chan_empty_when_receiver; eauto).
      exists []. split; [by apply (ring_ok_queues _ [] qr)|]. trace_simpl. by rewrite Hf, app_nil_r.
Qed.

(** From the buffer, the commit is the common start of a receive followed by the
    completion of the selected case. *)
Lemma CommitSelectReceive_buffered c r ch w :
  w_chans w !! c = Some ch -> w_current w = Some (scheduler_ ch) -> size_ ch <> 0 ->
  CommitSelectReceive c r w =
    ('(o, w) ← take_ready c w; match o with Some v => recv_CompleteValue r v w | None => Panic end).
Proof.
  intros Ec Ho Hz. unfold CommitSelectReceive, take_ready.
  rewrite (owned_chan_Some _ _ _ Ec Ho), (deref_Some _ _ _ Ec). cbn [mbind outcome_bind].
  rewrite (proj2 (Z.eqb_neq _ _) Hz). cbn [negb].
  destruct (pop_buffer c w) as [[v w1]|]; [|done]. cbn [mbind outcome_bind].
  destruct (pop_sender c w1) as [[[r'|] w2]|]; [| |done]; cbn [mbind outcome_bind]; [|done].
  destruct (send_TakeValue r' w2) as [[sv w3]|]; [|done]. cbn [mbind outcome_bind].
  destruct (push_buffer c sv w3) as [w4|]; [|done]. cbn [mbind outcome_bind].
  by destruct (send_Complete r' w4).
Qed.

Lemma CommitSelectReceive_spec s S i c o q ch w :
  wf w -> starting s S w -> sel_regs S !! i = Some (RegRecv c o true q) ->
  w_chans w !! c = Some ch -> ready_in w (RegRecv c o true q) = true ->
  exists w', CommitSelectReceive c (WSelect s i) w = Val w' /\ wf w'.
Proof.
  intros Hwf Hst Hi Ec Hrd. pose proof Hwf as [Hc Hok]. destruct (Hok c ch Ec) as [Hb (vs & Hr & Hf)].
  pose proof (co_owner _ _ Hc _ _ Ec) as Ho. pose proof (st_sel _ _ _ Hst) as Es.
  pose proof (at_rest_idle w s S i Es (st_rest _ _ _ Hst)) as Hidle.
  assert (Hpend : forall w0, w_sels w0 !! s = Some S -> receiver_pending w0 (WSelect s i) c).
  { intros w0 E0. exists S, o, q. split_and!; auto. exact (st_open _ _ _ Hst). }
  destruct (decide (size_ ch = 0)) as [Hz|Hnz].
  - unfold CommitSelectReceive. rewrite (owned_chan_Some _ _ _ Ec Ho). cbn [mbind outcome_bind].
    rewrite Hz. cbn [Z.eqb negb]. unfold pop_sender. rewrite (deref_Some _ _ _ Ec). cbn [mbind outcome_bind].
    assert (vs = []) as -> by (destruct vs; [done|pose proof (rg_size _ _ Hr) as Hsz; simpl in Hsz; lia]).
    destruct (senders_ ch) as [|r qs] eqn:Hq; cbn [mbind outcome_bind].
    + simpl in Hrd. rewrite Ec, Hq, Hz in Hrd. simpl in Hrd. rewrite !orb_false_r in Hrd. rewrite Hrd.
      destruct (recv_complete_spec [] (WSelect s i) c None w) as (w' & E' & Hc' & Hset & Ht);
        [by eapply starting_aside|apply apart_nil|by apply Hpend|].
      exists w'. split; [done|]. split; [done|]. rewrite Ht, app_nil_r, (se_chans _ _ _ Hset). by apply chans_ok_drop.
    + destruct (serve_sender [] c ch r qs w Hc Ec Hq (apart_nil r)) as
        (v & w1 & -> & Hc1 & Hp & Hch & Hen & Hrv & Hv & Hw & Htr).
      cbn [mbind outcome_bind].
      assert (Hap : ~ same_group r (WSelect s i)) by (eapply starting_apart; eauto).
      assert (Hst1 : starting s S w1).
      { destruct Hst as [_ ? ?]. split; auto. rewrite <- Es. by eapply view_sel, Hv. }
      destruct (recv_complete_spec [r] (WSelect s i) c (Some v) w1) as (w2 & E2 & Hc2 & Hset & Ht).
      { by eapply starting_aside. }
      { intros x Hin. assert (x = r) as -> by set_solver. intros Hg. by apply Hap, same_group_sym. }
      { apply Hpend, Hst1. }
      unfold recv_CompleteValue. rewrite E2. cbn [mbind outcome_bind].
      destruct (send_Complete_spec [] r w2 Hc2) as (w3 & -> & Hc3 & Hset3 & _ & Ht3); [apply apart_nil| |].
      { apply (sender_pending_other w1); [| |done].
        - apply (se_view _ _ _ Hset). intros Hg. by apply Hap, same_group_sym.
        - intros c0 H0. by rewrite (se_chans _ _ _ Hset), lookup_fmap, fmap_is_Some. }
      exists w3. split; [done|]. split; [done|].
      rewrite Ht3, Ht, (se_chans _ _ _ Hset3), (se_chans _ _ _ Hset), Hch, Htr, <- app_assoc.
      apply chans_ok_drop, chans_ok_drop, chans_ok_insert; auto.
      * apply only_app; [apply only_Accepted|apply only_Delivered].
      * eapply chan_bal_shrunk; [done|]. by eapply shrunk_pop_sender.
      * exists []. split; [by apply (ring_ok_queues _ qs [])|]. trace_simpl. by rewrite Hf, app_nil_r.
  - rewrite (CommitSelectReceive_buffered c _ ch w Ec Ho Hnz).
    destruct (take_ready_spec c ch w Hwf Ec) as ([v|] & w1 & -> & H); cbn [mbind outcome_bind]; [|naive_solver].
    destruct H as (Hc1 & Hok1 & _ & _ & _ & Hv).
    assert (Hst1 : starting s S w1).
    { destruct Hst as [_ ? ?]. split; auto. rewrite <- Es. by eapply view_sel, Hv. }
    destruct (recv_complete_spec [] (WSelect s i) c (Some v) w1) as (w2 & E2 & Hc2 & Hset & Ht);
      [by eapply starting_aside|apply apart_nil|apply Hpend, Hst1|].
    exists w2. split; [done|]. split; [done|]. rewrite Ht, (se_chans _ _ _ Hset). by apply chans_ok_drop.
Qed.

Lemma reg_Commit_spec s S i g w :
  wf w -> starting s S w -> sel_regs S !! i = Some g -> case_chan w g ->
  (g = RegDefault \/ ready_in w g = true) ->
  exists w', reg_Commit s i w = Val w' /\ wf w'.
Proof.
  intros Hwf Hst Hi Hg Hrd. pose proof (st_sel _ _ _ Hst) as Es. pose proof (starting_live _ _ _ _ _ Hst Hi) as Hl.
  unfold reg_Commit. rewrite (get_reg_Some _ _ _ _ _ Es Hi). cbn [mbind outcome_bind].
  destruct g as [c v a q t|c o a q|]; simpl in Hl, Hg.
  - subst a. destruct Hg as (ch & Ec & Hcl). destruct Hrd as [?|Hrd]; [done|].
    destruct (st_rest _ _ _ Hst) as (_ & _ & Ht). assert (t = false) as -> by (by eapply Ht).
    by eapply CommitSelectSend_spec.
  - subst a. destruct Hg as [ch Ec]. destruct Hrd as [?|Hrd]; [done|]. by eapply CommitSelectReceive_spec.
  - pose proof Hwf as [Hc Hok].
    destruct (win_select_spec [] s i S RegDefault w (fun w => w)) as
      (w1 & w2 & E1 & _ & Ht1 & E2 & Hc2 & Hset & _ & Ht2 & _);
      [by eapply starting_aside|apply apart_nil|done|exact (st_open _ _ _ Hst)|done|done|].
    cbn [kill] in E1. rewrite (put_reg_id _ _ _ _ _ Es Hi) in E1. rewrite E1. cbn [mbind outcome_bind negb].
    exists w2. split; [done|]. split; [done|]. rewrite Ht2, Ht1, (se_chans _ _ _ Hset). by apply chans_ok_drop.
Qed.

(** *** Arming all cases *)

(** A case that cannot proceed, so that it may join its channel's queue. *)
Definition armable (s : nat) w g : Prop :=
  match g with
  | RegSend c _ active queued taken => active = true /\ queued = false /\ taken = false /\
      exists ch, w_chans w !! c = Some ch /\ closed_ ch = false /\ size_ ch = capacity_ ch /\
        forall r, r ∈ receivers_ ch -> same_group (WSelect s 0) r
  | RegRecv c _ active queued => active = true /\ queued = false /\
      exists ch, w_chans w !! c = Some ch /\ closed_ ch = false /\ size_ ch = 0 /\
        forall r, r ∈ senders_ ch -> same_group (WSelect s 0) r
  | RegDefault => False
  end.

(** The world with case [k] of [s] marked as queued. *)
Lemma mark_queued s k S g g' c0 w :
  wf w -> w_sels w !! s = Some S -> sel_winner S = None -> sel_phase S = kArming ->
  is_Some (sel_handle S) -> sel_regs S !! k = Some g ->
  (exists v, g = RegSend c0 v true false false /\ g' = RegSend c0 v true true false) \/
  (exists o, g = RegRecv c0 o true false /\ g' = RegRecv c0 o true true) ->
  let w1 := put_reg s k g' w in
  let S1 := set_regs (<[k := g']> (sel_regs S)) S in
  w_sels w1 = <[s := S1]> (w_sels w) /\ sel_regs S1 !! k = Some g' /\
  (forall j, j <> k -> sel_regs S1 !! j = sel_regs S !! j) /\
  (forall s0 S0, w_sels w1 !! s0 = Some S0 -> sel_ok S0) /\
  (forall s0 S0 i c v q t, w_sels w1 !! s0 = Some S0 ->
     sel_regs S0 !! i = Some (RegSend c v true q t) -> WSelect s0 i ∉ [] -> t = false) /\
  (forall x, x <> WSelect s k -> forall c, send_waiting w1 x c <-> send_waiting w x c) /\
  (forall x, x <> WSelect s k -> forall c, recv_waiting w1 x c <-> recv_waiting w x c) /\
  (forall c, ~ send_waiting w (WSelect s k) c /\ ~ recv_waiting w (WSelect s k) c).
Proof.
  intros [Hc Hok] E Hwin Hph Hhd Hk Hg w1 S1.
  assert (Es : w_sels w1 = <[s := S1]> (w_sels w)) by (by apply put_reg_sels).
  assert (Hk1 : sel_regs S1 !! k = Some g') by (simpl; apply list_lookup_insert_eq; by eapply lookup_lt_Some).
  assert (Hj1 : forall j, j <> k -> sel_regs S1 !! j = sel_regs S !! j)
    by (intros j Hj; simpl; by rewrite list_lookup_insert_ne).
  assert (Hl : forall s0 S0, w_sels w1 !! s0 = Some S0 -> (s0 = s /\ S0 = S1) \/ (s0 <> s /\ w_sels w !! s0 = Some S0)).
  { intros s0 S0. rewrite Es, lookup_insert_Some. naive_solver. }
  assert (Hother : forall x, x <> WSelect s k -> forall c,
    (send_waiting w1 x c <-> send_waiting w x c) /\ (recv_waiting w1 x c <-> recv_waiting w x c)).
  { intros [a|a|s' j] Hx c; [done|done|]. unfold send_waiting, recv_waiting, view. rewrite Es.
    destruct (decide (s' = s)) as [->|Hne].
    - rewrite lookup_insert_eq, E. unfold send_waiting_in, recv_waiting_in. rewrite Hj1 by congruence. done.
    - by rewrite lookup_insert_ne. }
  pose proof (co_sels _ _ Hc s S E) as [Ok1 Ok2 Ok3 _ _].
  split_and!; auto.
  - intros s0 S0 [[-> ->]|[_ E0]]%Hl; [|by apply (co_sels _ _ Hc s0)]. split.
    + intros j g0 Hj. change (sel_winner S1) with (sel_winner S). rewrite Hwin.
      destruct (decide (j = k)) as [->|Hne].
      * rewrite Hk1 in Hj. injection Hj as <-. by destruct Hg as [(v & _ & ->)|(o & _ & ->)].
      * rewrite Hj1 in Hj by done. specialize (Ok1 j g0 Hj). by rewrite Hwin in Ok1.
    + simpl. rewrite Hwin. done.
    + simpl. rewrite Hph. done.
    + simpl. rewrite Hph. done.
    + simpl. intros Hh. destruct Hhd as [? Hhd]. congruence.
  - intros s0 S0 i c v q t [[-> ->]|[_ E0]]%Hl Hi Hh; [|by apply (co_taken _ _ Hc s0 S0 i c v q t)].
    destruct (decide (i = k)) as [->|Hne].
    + rewrite Hk1 in Hi. destruct Hg as [(v0 & _ & ->)|(o & _ & ->)]; by simplify_eq.
    + rewrite Hj1 in Hi by done. by apply (co_taken _ _ Hc s S i c v q t).
  - intros x Hx c. by apply Hother.
  - intros x Hx c. by apply Hother.
  - intros c. unfold send_waiting, recv_waiting; simpl. rewrite E. simpl. rewrite Hk.
    destruct Hg as [(v & -> & _)|(o & -> & _)]; naive_solver.
Qed.

Lemma reg_Arm_spec s k S g w :
  wf w -> w_sels w !! s = Some S -> sel_winner S = None -> sel_phase S = kArming ->
  is_Some (sel_handle S) -> sel_regs S !! k = Some g -> armable s w g ->
  exists w' S', reg_Arm s k w = Val w' /\ wf w' /\ w_sels w' !! s = Some S' /\
    sel_winner S' = None /\ sel_phase S' = kArming /\ sel_handle S' = sel_handle S /\
    sel_scheduler S' = sel_scheduler S /\ length (sel_regs S') = length (sel_regs S) /\
    (forall j, j <> k -> sel_regs S' !! j = sel_regs S !! j) /\
    (forall g', sel_regs S' !! k = Some g' -> is_queued g') /\
    (forall g', armable s w g' -> armable s w' g').
Proof.
  intros Hwf E Hwin Hph Hhd Hk Ha. pose proof Hwf as [Hc Hok].
  unfold reg_Arm. rewrite (get_reg_Some _ _ _ _ _ E Hk). cbn [mbind outcome_bind].
  destruct g as [c v a q t|c o a q|]; simpl in Ha; [| |done].
  - destruct Ha as (-> & -> & -> & ch & Ec & Hcl & Hfull & Hrs). cbn [negb ALYRN_CHECK mbind outcome_bind].
    destruct (mark_queued s k S (RegSend c v true false false) (RegSend c v true true false) c w)
      as (M1 & M2 & M3 & M4 & M5 & M6 & M7 & M8); auto; [left; eauto|].
    set (w1 := put_reg s k (RegSend c v true true false) w) in *.
    unfold RegisterSelectSend.
    rewrite (owned_chan_Some c ch w1 Ec (co_owner _ _ Hc _ _ Ec)). cbn [mbind outcome_bind]. rewrite Hcl.
    assert (Hnin : WSelect s k ∉ senders_ ch).
    { intros Hin. apply (co_senders _ _ Hc c ch _ Ec) in Hin as [Hin _]. by apply (M8 c) in Hin. }
    rewrite bool_decide_eq_false_2 by done. cbn [negb ALYRN_CHECK mbind outcome_bind].
    destruct (Hok c ch Ec) as [Hb (vs & Hr & Hf)].
    set (S1 := set_regs (<[k := RegSend c v true true false]> (sel_regs S)) S) in *.
    eexists _, S1. split; [reflexivity|]. split; [|split; [change (w_sels w1 !! s = Some S1); rewrite M1; apply lookup_insert_eq|]].
    + split.
      * apply (coh_enqueue_sender (WSelect s k) c ch w w1); auto.
        -- intros c'. by apply M8.
        -- intros c'. by apply M8.
        -- done.
        -- intros x c'. destruct (decide (x = WSelect s k)) as [->|Hne]; [|rewrite M6 by done; naive_solver].
           destruct (M8 c') as [H1 H2]. unfold send_waiting at 1, view. rewrite M1, lookup_insert_eq.
           unfold send_waiting_in. rewrite M2. naive_solver.
        -- intros x c'. destruct (decide (x = WSelect s k)) as [->|Hne]; [|by apply M7].
           destruct (M8 c') as [H1 H2]. unfold recv_waiting at 1, view. rewrite M1, lookup_insert_eq.
           unfold recv_waiting_in. rewrite M2. naive_solver.
        -- apply (co_sends _ _ Hc).
        -- apply (co_recvs _ _ Hc).
        -- apply (co_value _ _ Hc).
      * apply chans_ok_put; [done| |exists vs; split; [by apply (ring_ok_queues _ _ [])|done]].
        destruct Hb as [B1 B2 B3 B4]. split; simpl; auto; [|by rewrite Hcl].
        intros r r' [Hr1|Hr1]%elem_of_app Hr2; [by apply B3|].
        assert (r = WSelect s k) as -> by set_solver. specialize (Hrs r' Hr2). by destruct r'.
    + split_and!; auto; [apply length_insert| |].
      * intros g'. rewrite M2. by intros [= <-].
      * intros [c' v' a' q' t'|c' o' a' q'|] Hg'; simpl in *; [| |done].
        -- destruct Hg' as (? & ? & ? & ch' & Ec' & ? & ? & ?). split_and!; auto.
           destruct (decide (c = c')) as [<-|Hne].
           ++ rewrite lookup_insert_eq. eexists. split; [reflexivity|]. assert (ch' = ch) as -> by congruence. done.
           ++ rewrite lookup_insert_ne by done. eauto 10.
        -- destruct Hg' as (? & ? & ch' & Ec' & ? & ? & Hss). split_and!; auto.
           destruct (decide (c = c')) as [<-|Hne].
           ++ rewrite lookup_insert_eq. eexists. split; [reflexivity|]. assert (ch' = ch) as -> by congruence.
              split_and!; auto. simpl. intros r [Hr1|Hr1]%elem_of_app; [by apply Hss|].
              by assert (r = WSelect s k) as -> by set_solver.
           ++ rewrite lookup_insert_ne by done. eauto 10.
  - destruct Ha as (-> & -> & ch & Ec & Hcl & Hz & Hss). cbn [negb ALYRN_CHECK mbind outcome_bind].
    destruct (mark_queued s k S (RegRecv c o true false) (RegRecv c o true true) c w)
      as (M1 & M2 & M3 & M4 & M5 & M6 & M7 & M8); auto; [right; eauto|].
    set (w1 := put_reg s k (RegRecv c o true true) w) in *.
    unfold RegisterSelectReceive.
    rewrite (owned_chan_Some c ch w1 Ec (co_owner _ _ Hc _ _ Ec)). cbn [mbind outcome_bind]. rewrite Hcl.
    assert (Hnin : WSelect s k ∉ receivers_ ch).
    { intros Hin. apply (co_receivers _ _ Hc c ch _ Ec) in Hin as [Hin _]. by apply (M8 c) in Hin. }
    rewrite bool_decide_eq_false_2 by done. cbn [negb ALYRN_CHECK mbind outcome_bind].
    destruct (Hok c ch Ec) as [Hb (vs & Hr & Hf)].
    set (S1 := set_regs (<[k := RegRecv c o true true]> (sel_regs S)) S) in *.
    eexists _, S1. split; [reflexivity|]. split; [|split; [change (w_sels w1 !! s = Some S1); rewrite M1; apply lookup_insert_eq|]].
    + split.
      * apply (coh_enqueue_receiver (WSelect s k) c ch w w1); auto.
        -- intros c'. by apply M8.
        -- intros c'. by apply M8.
        -- done.
        -- intros x c'. destruct (decide (x = WSelect s k)) as [->|Hne]; [|by apply M6].
           destruct (M8 c') as [H1 H2]. unfold send_waiting at 1, view. rewrite M1, lookup_insert_eq.
           unfold send_waiting_in. rewrite M2. naive_solver.
        -- intros x c'. destruct (decide (x = WSelect s k)) as [->|Hne]; [|rewrite M7 by done; naive_solver].
           destruct (M8 c') as [H1 H2]. unfold recv_waiting at 1, view. rewrite M1, lookup_insert_eq.
           unfold recv_waiting_in. rewrite M2. naive_solver.
        -- apply (co_sends _ _ Hc).
        -- apply (co_recvs _ _ Hc).
        -- apply (co_value _ _ Hc).
      * apply chans_ok_put; [done| |exists vs; split; [by apply (ring_ok_queues _ [] _)|done]].
        destruct Hb as [B1 B2 B3 B4]. split; simpl; auto; [|by rewrite Hcl].
        intros r r' Hr1 [Hr2|Hr2]%elem_of_app; [by apply B3|].
        assert (r' = WSelect s k) as -> by set_solver. specialize (Hss r Hr1). by destruct r.
    + split_and!; auto; [apply length_insert| |].
      * intros g'. rewrite M2. by intros [= <-].
      * intros [c' v' a' q' t'|c' o' a' q'|] Hg'; simpl in *; [| |done].
        -- destruct Hg' as (? & ? & ? & ch' & Ec' & ? & ? & Hrs). split_and!; auto.
           destruct (decide (c = c')) as [<-|Hne].
           ++ rewrite lookup_insert_eq. eexists. split; [reflexivity|]. assert (ch' = ch) as -> by congruence.
              split_and!; auto. simpl. intros r [Hr1|Hr1]%elem_of_app; [by apply Hrs|].
              by assert (r = WSelect s k) as -> by set_solver.
           ++ rewrite lookup_insert_ne by done. eauto 10.
        -- destruct Hg' as (? & ? & ch' & Ec' & ? & ? & ?). split_and!; auto.
           destruct (decide (c = c')) as [<-|Hne].
           ++ rewrite lookup_insert_eq. eexists. split; [reflexivity|]. assert (ch' = ch) as -> by congruence. done.
           ++ rewrite lookup_insert_ne by done. eauto 10.
Qed.

Lemma ArmRegistrations_spec s n : forall k S w,
  wf w -> w_sels w !! s = Some S -> sel_winner S = None -> sel_phase S = kArming ->
  is_Some (sel_handle S) -> (k + n = length (sel_regs S))%nat ->
  (forall j g, (k <= j)%nat -> sel_regs S !! j = Some g -> armable s w g) ->
  (forall j g, (j < k)%nat -> sel_regs S !! j = Some g -> is_queued g) ->
  exists w' S', ArmRegistrations s k n w = Val w' /\ wf w' /\ w_sels w' !! s = Some S' /\
    sel_winner S' = None /\ sel_phase S' = kArming /\ sel_handle S' = sel_handle S /\
    sel_scheduler S' = sel_scheduler S /\ (forall j g, sel_regs S' !! j = Some g -> is_queued g).
Proof.
  induction n as [|n IH]; intros k S w Hwf E Hwin Hph Hhd Hk Ha Hq; cbn [ArmRegistrations].
  { exists w, S. split_and!; auto. intros j g Hj. apply (Hq j g); [|done].
    pose proof (lookup_lt_Some _ _ _ Hj). lia. }
  destruct (lookup_lt_is_Some_2 (sel_regs S) k) as [g Hg]; [lia|].
  destruct (reg_Arm_spec s k S g w Hwf E Hwin Hph Hhd Hg (Ha k g ltac:(lia) Hg)) as
    (w1 & S1 & -> & Hwf1 & E1 & A1 & A2 & A3 & A4 & A5 & A6 & A7 & A8). cbn [mbind outcome_bind].
  destruct (IH (k + 1)%nat S1 w1) as (w2 & S2 & E2 & B0 & B1 & B2 & B3 & B4 & B5 & B6); auto.
  - by rewrite A3.
  - lia.
  - intros j g' Hj Hg'. apply A8. rewrite A6 in Hg' by lia. apply (Ha j g'); [lia|done].
  - intros j g' Hj Hg'. destruct (decide (j = k)) as [->|Hne]; [by apply A7|].
    rewrite A6 in Hg' by done. apply (Hq j g'); [lia|done].
  - exists w2, S2. split_and!; auto; congruence.
Qed.

Lemma MarkWaiting_spec s S w :
  wf w -> w_sels w !! s = Some S -> sel_winner S = None -> sel_phase S = kArming ->
  is_Some (sel_handle S) -> is_Some (sel_scheduler S) ->
  (forall j g, sel_regs S !! j = Some g -> is_queued g) ->
  exists w', MarkWaiting s w = Val w' /\ wf w' /\
    w_sels w' !! s = Some (mkSelect (sel_regs S) None kWaiting (sel_handle S) (sel_scheduler S)).
Proof.
  intros [Hc Hok] E Hwin Hph Hh Hs Hq. unfold MarkWaiting. rewrite (deref_Some _ _ _ E). cbn [mbind outcome_bind].
  rewrite Hph. unfold Completed. rewrite Hwin. simpl. eexists. split; [reflexivity|].
  split; [|simpl; apply lookup_insert_eq].
  pose proof (co_sels _ _ Hc s S E) as [Ok1 Ok2 Ok3 _ _]. rewrite Hwin in Ok1.
  set (S1 := mkSelect _ _ _ _ _). split; [|done].
  assert (Hl : forall s0 S0, w_sels (put_sel s S1 w) !! s0 = Some S0 ->
    (s0 = s /\ S0 = S1) \/ (s0 <> s /\ w_sels w !! s0 = Some S0)).
  { intros s0 S0. simpl. rewrite lookup_insert_Some. naive_solver. }
  apply (coh_same_waiting [] w); try done.
  - intros [a|a|s' j] c; unfold send_waiting; simpl; [done|done|].
    destruct (decide (s' = s)) as [->|Hne]; [by rewrite lookup_insert_eq, E|by rewrite lookup_insert_ne].
  - intros [a|a|s' j] c; unfold recv_waiting; simpl; [done|done|].
    destruct (decide (s' = s)) as [->|Hne]; [by rewrite lookup_insert_eq, E|by rewrite lookup_insert_ne].
  - intros s0 S0 [[-> ->]|[_ E0]]%Hl; [|by apply (co_sels _ _ Hc s0)]. split; simpl; [done|done| |done|].
    + intros _. split_and!; auto.
    + intros Hn. destruct Hh as [? Hh]. congruence.
  - apply (co_sends _ _ Hc).
  - apply (co_recvs _ _ Hc).
  - apply (co_value _ _ Hc).
  - intros s0 S0 i c v q t [[-> ->]|[_ E0]]%Hl Hi Hn; [|by apply (co_taken _ _ Hc s0 S0 i c v q t)].
    by apply (co_taken _ _ Hc s S i c v q t).
Qed.

(** A case that is not ready can be armed, whatever select it belongs to. *)
Lemma not_ready_armable s S w i g :
  wf w -> starting s S w -> sel_regs S !! i = Some g -> case_chan w g -> g <> RegDefault ->
  ready_in w g = false -> armable s w g.
Proof.
  intros [Hc Hok] Hst Hi Hcg Hd Hr. pose proof (starting_live _ _ _ _ _ Hst Hi) as Hl.
  destruct (st_rest _ _ _ Hst) as (_ & Hq & Ht). specialize (Hq i g Hi).
  destruct g as [c v a q t|c o a q|]; simpl in *; [| |done]; subst a; destruct q; try done.
  - destruct Hcg as (ch & Ec & Hcl). rewrite Ec, Hcl in Hr. simpl in Hr.
    apply orb_false_iff in Hr as [H1 H2]. apply negb_false_iff, bool_decide_eq_true in H1.
    apply negb_false_iff, Z.eqb_eq in H2. split_and!; eauto.
    exists ch. split_and!; auto. rewrite H1. set_solver.
  - destruct Hcg as [ch Ec]. rewrite Ec in Hr. apply orb_false_iff in Hr as [Hr H2].
    apply orb_false_iff in Hr as [Hcl H1]. apply negb_false_iff, bool_decide_eq_true in H1.
    apply negb_false_iff, Z.eqb_eq in H2. split_and!; auto.
    exists ch. split_and!; auto. rewrite H1. set_solver.
Qed.

(** *** [SelectAwaiter::await_suspend] *)

Lemma select_await_suspend_spec s handle cases w :
  wf w -> w_sels w !! s = Some (mkSelect (of_cases cases) None kArming None None) ->
  is_Some (w_current w) -> (forall g, g ∈ of_cases cases -> case_chan w g) ->
  exists b w', select_await_suspend s handle w = Val (b, w') /\ wf w'.
Proof.
  intros Hwf E [sc Hcur] Hcg. pose proof Hwf as [Hc Hok]. unfold select_await_suspend.
  rewrite (deref_Some _ _ _ E). cbn [mbind outcome_bind]. rewrite Hcur. cbn [sel_regs].
  rewrite bool_decide_eq_true_2 by (by eexists). cbn [ALYRN_CHECK mbind outcome_bind].
  set (S1 := mkSelect (of_cases cases) None kArming (Some handle) (Some sc)).
  set (w1 := put_sel s S1 w).
  assert (Hwf1 : wf w1).
  { split; [|done]. apply coh_put_sel; [done| |apply of_cases_rest].
    eapply at_rest_idle; [done|apply of_cases_rest]. }
  assert (Hcg1 : forall g, g ∈ of_cases cases -> case_chan w1 g).
  { intros g Hg. specialize (Hcg g Hg). by destruct g. }
  destruct (FindReadyCases_spec 0 (of_cases cases) w1 (wf_coh _ _ Hwf1) Hcg1) as (fb & -> & Hfb).
  cbn [mbind outcome_bind].
  destruct (ChooseReadyCase_spec (ready_in w1 <$> of_cases cases) w1) as (o & w2 & -> & (r & ->) & Ho).
  cbn [mbind outcome_bind].
  assert (Hwf2 : wf (set_rng r w1)).
  { destruct Hwf1 as [? ?]. split; [by apply coh_set_rng|done]. }
  assert (Hst2 : starting s S1 (set_rng r w1)).
  { split; [simpl; apply lookup_insert_eq|apply of_cases_rest|done]. }
  assert (Hcg2 : forall i g, of_cases cases !! i = Some g -> case_chan (set_rng r w1) g).
  { intros i g Hg. apply list_elem_of_lookup_2 in Hg. specialize (Hcg g Hg). by destruct g. }
  assert (Hrd2 : forall g, ready_in (set_rng r w1) g = ready_in w1 g) by (by intros []).
  destruct o as [i|].
  - rewrite list_lookup_fmap in Ho. destruct (of_cases cases !! i) as [g|] eqn:Hg; [|done].
    injection Ho as Ho.
    destruct (reg_Commit_spec s S1 i g (set_rng r w1) Hwf2 Hst2 Hg) as (w' & -> & Hwf'); eauto.
  - destruct fb as [k|]; simpl in Hfb.
    + destruct Hfb as (j & -> & Hj).
      destruct (reg_Commit_spec s S1 j RegDefault (set_rng r w1) Hwf2 Hst2 Hj) as (w' & -> & Hwf'); eauto.
    + destruct (ArmRegistrations_spec s (length (of_cases cases)) 0 S1 (set_rng r w1)) as
        (w3 & S3 & -> & Hwf3 & E3 & A1 & A2 & A3 & A4 & A5); auto.
      * apply Hst2.
      * intros j g _ Hj. eapply (not_ready_armable s S1); eauto.
        -- intros ->. apply Hfb. by eapply list_elem_of_lookup_2.
        -- rewrite Hrd2. apply (Ho j). rewrite list_lookup_fmap. simpl in Hj. by rewrite Hj.
      * lia.
      * cbn [mbind outcome_bind]. rewrite (deref_Some _ _ _ E3). cbn [mbind outcome_bind].
        unfold Completed. rewrite A1. rewrite bool_decide_eq_false_2 by (by intros [? ?]).
        destruct (MarkWaiting_spec s S3 w3) as (w4 & -> & Hwf4 & _); auto;
          [rewrite A3; by eexists|rewrite A4; by eexists|].
        cbn [mbind outcome_bind]. eauto.
Qed.
End select.
