(* ===== verification/ChannelProps.v ===== *)
(** * Programs over channels: no aborts, no loss, no lost wakeup, one winner

    Arbitrary sequences of the public operations of channels, awaiters and
    selects, each used within its documented contract. *)

From S2P Require Import Prelude Channel ChannelRing ChannelInv ChannelComplete ChannelOps ChannelSelect.
Import Channel.

Section program.
Context {T : Type}.
Implicit Types (w : world T).

Inductive op :=
| ONewChannel (c : nat) (capacity : Z)
| OTrySend (c : nat) (v : T)
| OTryReceive (c output : nat)
| OClose (c : nat)
| ODestroyChannel (c : nat)
| ONewSend (a c : nat) (v : T)
| OAwaitSend (a handle : nat)
| OResumeSend (a : nat)
| ODestroySend (a : nat)
| ONewReceive (a c output : nat)
| OAwaitReceive (a handle : nat)
| OResumeReceive (a : nat)
| ODestroyReceive (a : nat)
| ONewSelect (s : nat) (cases : list (select_case T))
| OAwaitSelect (s handle : nat)
| OResumeSelect (s : nat)
| ODestroySelect (s : nat).

Definition run_op (o : op) w : outcome (world T) :=
  match o with
  | ONewChannel c capacity =>
      match w_current w with
      | Some sched => ch ← new_chan sched capacity; Val (put_chan c ch w)
      | None => Panic
      end
  | OTrySend c v => snd <$> TrySend c v w
  | OTryReceive c output => snd <$> TryReceive c output w
  | OClose c => Close c w
  | ODestroyChannel c => destroy_chan c w
  | ONewSend a c v => Val (new_send a c v w)
  | OAwaitSend a handle => snd <$> send_await_suspend a handle w
  | OResumeSend a => send_await_resume a w;; Val w
  | ODestroySend a => destroy_send a w
  | ONewReceive a c output => Val (new_recv a c output w)
  | OAwaitReceive a handle => snd <$> recv_await_suspend a handle w
  | OResumeReceive a => snd <$> recv_await_resume a w
  | ODestroyReceive a => destroy_recv a w
  | ONewSelect s cases => Val (new_select s cases w)
  | OAwaitSelect s handle => snd <$> select_await_suspend s handle w
  | OResumeSelect s => select_await_resume s w;; Val w
  | ODestroySelect s => destroy_select s w
  end.

(** ** The callers' contract *)

Definition absent {A} (m : gmap nat A) (i : nat) : bool :=
  match m !! i with Some _ => false | None => true end.
Definition open_chan (c : nat) w : bool :=
  match w_chans w !! c with Some ch => negb (closed_ ch) | None => false end.

Definition event_chan (e : event T) : nat := match e with Accepted c _ | Delivered c _ => c end.

Definition case_ok (k : select_case T) w : bool :=
  match k with
  | SelectSendCase c _ => open_chan c w
  | SelectReceiveCase c _ => negb (absent (w_chans w) c)
  | SelectDefaultCase => true
  end.

(** The cases a select was made with, while it has not been awaited. *)
Definition case_of (g : reg T) : select_case T :=
  match g with
  | RegSend c v _ _ _ => SelectSendCase c v
  | RegRecv c o _ _ => SelectReceiveCase c o
  | RegDefault => SelectDefaultCase
  end.

(** New objects have new names and a channel is not a reused one; values are
    sent to open channels only; a channel is closed once and with no sender
    waiting; an awaiter is awaited once and resumed when it was scheduled or
    did not suspend; a channel is destroyed after it was closed. *)
Definition op_ok (o : op) w : bool :=
  match o with
  | ONewChannel c capacity =>
      absent (w_chans w) c && (0 <=? capacity) && (capacity <=? kMaxCapacity) &&
      forallb (fun e => negb (Nat.eqb (event_chan e) c)) (w_trace w)
  | OTrySend c _ => open_chan c w
  | OTryReceive c _ => negb (absent (w_chans w) c)
  | OClose c =>
      match w_chans w !! c with
      | Some ch => negb (closed_ ch) && bool_decide (senders_ ch = [])
      | None => false
      end
  | ODestroyChannel c => match w_chans w !! c with Some ch => closed_ ch | None => false end
  | ONewSend a c _ => absent (w_sends w) a
  | OAwaitSend a _ =>
      match w_sends w !! a with
      | Some (mkSend c (Some _) None None false) => open_chan c w
      | _ => false
      end
  | OResumeSend a =>
      match w_sends w !! a with
      | Some x => bool_decide (is_Some (sa_result x)) || (bool_decide (is_Some (sa_handle x)) && negb (sa_waiting x))
      | None => false
      end
  | ODestroySend a => negb (absent (w_sends w) a)
  | ONewReceive a c _ => absent (w_recvs w) a
  | OAwaitReceive a _ =>
      match w_recvs w !! a with
      | Some (mkRecv c _ None None false) => negb (absent (w_chans w) c)
      | _ => false
      end
  | OResumeReceive a =>
      match w_recvs w !! a with
      | Some x => bool_decide (is_Some (ra_result x)) || (bool_decide (is_Some (ra_handle x)) && negb (ra_waiting x))
      | None => false
      end
  | ODestroyReceive a => negb (absent (w_recvs w) a)
  | ONewSelect s _ => absent (w_sels w) s
  | OAwaitSelect s _ =>
      match w_sels w !! s with
      | Some (mkSelect gs None kArming None None) => forallb (fun g => case_ok (case_of g) w) gs
      | _ => false
      end
  | OResumeSelect s =>
      match w_sels w !! s with
      | Some sl => bool_decide (is_Some (sel_winner sl)) || bool_decide (sel_phase sl = kScheduled)
      | None => false
      end
  | ODestroySelect s => negb (absent (w_sels w) s)
  end.

Definition init (sched : nat) : world T :=
  mkWorld ∅ ∅ ∅ ∅ ∅ [] (Some sched) 11400714819323198485 [].

Inductive reachable (sched : nat) : world T -> Prop :=
| reach_init : reachable sched (init sched)
| reach_step o w w' :
    reachable sched w -> op_ok o w = true -> run_op o w = Val w' -> reachable sched w'.

(** Running a program, [None] when it leaves the contract or aborts. *)
Fixpoint exec (ops : list op) w : option (world T) :=
  match ops with
  | [] => Some w
  | o :: ops => if op_ok o w then match run_op o w with Val w => exec ops w | Panic => None end else None
  end.

Lemma exec_reachable sched ops w w' :
  reachable sched w -> exec ops w = Some w' -> reachable sched w'.
Proof.
  revert w. induction ops as [|o ops IH]; intros w Hr E; simpl in E; [by simplify_eq|].
  destruct (op_ok o w) eqn:Hok; [|done]. destruct (run_op o w) as [w1|] eqn:E1; [|done].
  eapply IH; [|done]. by eapply reach_step.
Qed.

(** ** Every operation within the contract succeeds and keeps the world well formed *)

Lemma at_rest_cases gs h sc :
  at_rest (mkSelect gs None kArming h sc) -> gs = of_cases (case_of <$> gs).
Proof.
  intros (Hok & Hq & Ht). unfold of_cases. rewrite <- list_fmap_compose.
  symmetry. rewrite <- (list_fmap_id gs) at 2. apply list_fmap_ext. intros i g Hi. simpl.
  pose proof (so_regs _ Hok i g Hi) as Hl. specialize (Hq i g Hi). simpl in Hl.
  destruct g as [c v a q t|c o a q|]; simpl in *; [| |done]; subst a; destruct q; try done.
  by rewrite (Ht i c v false t Hi).
Qed.

Lemma absent_None {A} (m : gmap nat A) i : absent m i = true -> m !! i = None.
Proof. unfold absent. by destruct (m !! i). Qed.
Lemma absent_Some {A} (m : gmap nat A) i : negb (absent m i) = true -> exists x, m !! i = Some x.
Proof. unfold absent. destruct (m !! i); eauto; done. Qed.
Lemma open_chan_Some c w : open_chan c w = true -> exists ch, w_chans w !! c = Some ch /\ closed_ ch = false.
Proof. unfold open_chan. destruct (w_chans w !! c) as [ch|]; [|done]. intros H%negb_true_iff. eauto. Qed.

Lemma fresh_trace c (tr : list (event T)) :
  forallb (fun e => negb (Nat.eqb (event_chan e) c)) tr = true -> accepted c tr = [] /\ delivered c tr = [].
Proof.
  induction tr as [|e tr IH]; simpl; [done|]. intros [He Ht]%andb_true_iff. destruct (IH Ht) as [E1 E2].
  apply negb_true_iff, Nat.eqb_neq in He. unfold accepted, delivered in *. simpl.
  destruct e; simpl in *; rewrite decide_False by done; auto.
Qed.

Lemma case_ok_chan w gs :
  forallb (fun g => case_ok (case_of g) w) gs = true -> forall g, g ∈ gs -> case_chan w g.
Proof.
  intros H g Hg. rewrite forallb_forall in H. specialize (H g (proj1 (list_elem_of_In _ _) Hg)).
  destruct g; simpl in *; [by apply open_chan_Some|by apply absent_Some|done].
Qed.

Lemma fmap_Val {A B} (f : A -> B) (m : outcome A) a : m = Val a -> f <$> m = Val (f a).
Proof. by intros ->. Qed.

Lemma resume_send_result h a x w :
  coh h w -> w_sends w !! a = Some x ->
  bool_decide (is_Some (sa_result x)) || (bool_decide (is_Some (sa_handle x)) && negb (sa_waiting x)) = true ->
  is_Some (sa_result x).
Proof.
  intros Hc E [Hr%bool_decide_eq_true|[Hh Hw]%andb_true_iff]%orb_true_iff; [done|].
  apply bool_decide_eq_true in Hh. apply negb_true_iff in Hw.
  destruct (sd_result _ (co_sends _ _ Hc a x E) Hh); [congruence|done].
Qed.
Lemma resume_recv_result h a x w :
  coh h w -> w_recvs w !! a = Some x ->
  bool_decide (is_Some (ra_result x)) || (bool_decide (is_Some (ra_handle x)) && negb (ra_waiting x)) = true ->
  is_Some (ra_result x).
Proof.
  intros Hc E [Hr%bool_decide_eq_true|[Hh Hw]%andb_true_iff]%orb_true_iff; [done|].
  apply bool_decide_eq_true in Hh. apply negb_true_iff in Hw.
  destruct (rv_result _ (co_recvs _ _ Hc a x E) Hh); [congruence|done].
Qed.

Lemma run_op_wf o w : wf w -> op_ok o w = true -> exists w', run_op o w = Val w' /\ wf w'.
Proof.
  intros Hwf Ho. pose proof Hwf as [Hc Hok]. pose proof (co_current _ _ Hc) as Hcur.
  destruct o as [c cap|c v|c out|c|c|a c v|a hd|a|a|a c out|a hd|a|a|s cases|s hd|s|s]; simpl in Ho |- *.
  - apply andb_true_iff in Ho as [Ho Htr]. apply andb_true_iff in Ho as [Ho H2]. apply andb_true_iff in Ho as [Ho H1].
    apply absent_None in Ho. apply Z.leb_le in H1, H2. destruct Hcur as [sc Hsc]. rewrite Hsc.
    destruct (new_chan_ring (T := T) sc cap ltac:(lia)) as (ch & -> & Hr & _ & Hs & Hq1 & Hq2 & _).
    cbn [mbind outcome_bind]. eexists. split; [done|]. destruct (fresh_trace c _ Htr) as [E1 E2].
    eapply fresh_chan_spec; eauto. congruence.
  - apply open_chan_Some in Ho as (ch & Ec & Hcl).
    destruct (TrySend_spec c ch v w Hwf Ec Hcl) as (b & w' & E & Hw' & _).
    exists w'. by rewrite (fmap_Val _ _ _ E).
  - apply absent_Some in Ho as [ch Ec]. destruct (TryReceive_spec c ch out w Hwf Ec) as (b & w' & E & Hw' & _).
    exists w'. by rewrite (fmap_Val _ _ _ E).
  - destruct (w_chans w !! c) as [ch|] eqn:Ec; [|done]. apply andb_true_iff in Ho as [Hcl%negb_true_iff Hs%bool_decide_eq_true].
    destruct (Close_spec c ch w Hwf Ec Hcl Hs) as (w' & ch' & E & Hw' & _). eauto.
  - destruct (w_chans w !! c) as [ch|] eqn:Ec; [|done].
    destruct (destroy_chan_spec c ch w Hwf Ec Ho) as (w' & E & Hw' & _). eauto.
  - apply absent_None in Ho. eexists. split; [done|]. by apply new_send_spec.
  - destruct (w_sends w !! a) as [[c [v|] [|] [|] []]|] eqn:Ea; try done.
    apply open_chan_Some in Ho as (ch & Ec & Hcl).
    destruct (send_await_suspend_spec a hd c v ch w Hwf Ea Ec Hcl) as (b & w' & E & Hw' & _).
    exists w'. by rewrite (fmap_Val _ _ _ E).
  - destruct (w_sends w !! a) as [x|] eqn:Ea; [|done].
    destruct (resume_send_result _ _ _ _ Hc Ea Ho) as [r Hr].
    exists w. unfold send_await_resume. rewrite (deref_Some _ _ _ Ea). simpl. by rewrite Hr.
  - apply absent_Some in Ho as [x Ea]. destruct (destroy_send_spec a x w Hwf Ea) as (w' & E & Hw' & _). eauto.
  - apply absent_None in Ho. eexists. split; [done|]. by apply new_recv_spec.
  - destruct (w_recvs w !! a) as [[c out [|] [|] []]|] eqn:Ea; try done.
    apply absent_Some in Ho as [ch Ec].
    destruct (recv_await_suspend_spec a hd c out ch w Hwf Ea Ec) as (b & w' & E & Hw' & _).
    exists w'. by rewrite (fmap_Val _ _ _ E).
  - destruct (w_recvs w !! a) as [x|] eqn:Ea; [|done].
    destruct (resume_recv_result _ _ _ _ Hc Ea Ho) as [r Hr].
    unfold recv_await_resume. rewrite (deref_Some _ _ _ Ea). simpl. rewrite Hr.
    destruct r as [v|e]; simpl; eexists; (split; [done|]); [|done]. split; [by apply coh_put_out|done].
  - apply absent_Some in Ho as [x Ea]. destruct (destroy_recv_spec a x w Hwf Ea) as (w' & E & Hw' & _). eauto.
  - apply absent_None in Ho. eexists. split; [done|]. by apply new_select_spec.
  - destruct (w_sels w !! s) as [[gs [|] [] [|] [|]]|] eqn:Es; try done.
    assert (Hrest : at_rest (mkSelect gs None kArming None None)).
    { pose proof (co_sels _ _ Hc s _ Es) as Hs. split_and!; [done| |].
      - intros i g Hi. by apply (so_fresh _ Hs eq_refl i).
      - intros i c v q t Hi. apply (co_taken _ _ Hc s _ i c v q t Es Hi). set_solver. }
    rewrite (at_rest_cases _ _ _ Hrest) in Es.
    destruct (select_await_suspend_spec s hd (case_of <$> gs) w Hwf Es Hcur) as (b & w' & E & Hw').
    { intros g Hg. rewrite <- (at_rest_cases _ _ _ Hrest) in Hg. by eapply case_ok_chan. }
    exists w'. by rewrite (fmap_Val _ _ _ E).
  - destruct (w_sels w !! s) as [sl|] eqn:Es; [|done].
    assert (Hw : is_Some (sel_winner sl)).
    { apply orb_true_iff in Ho as [Ho|Ho]; apply bool_decide_eq_true in Ho; [done|].
      by apply (so_scheduled _ (co_sels _ _ Hc s _ Es)). }
    destruct Hw as [i Hi]. exists w. unfold select_await_resume. rewrite (deref_Some _ _ _ Es). simpl. by rewrite Hi.
  - apply absent_Some in Ho as [sl Es]. destruct (destroy_select_spec s sl w Hwf Es) as (w' & E & Hw' & _). eauto.
Qed.

Lemma init_wf sched : wf (init sched).
Proof.
  assert (Hno : forall x c, ~ send_waiting (init sched) x c /\ ~ recv_waiting (init sched) x c).
  { intros [a|a|s i] c; unfold send_waiting, recv_waiting; simpl; rewrite ?lookup_empty; simpl; tauto. }
  split; [split; simpl|]; try (intros; by rewrite lookup_empty in * ).
  - intros c r Hw. destruct (Hno r c). tauto.
  - by eexists.
  - intros c ch E. simpl in E. by rewrite lookup_empty in E.
Qed.

Lemma reachable_wf sched w : reachable sched w -> wf w.
Proof.
  induction 1 as [|o w w' Hr IH Hok E]; [apply init_wf|].
  destruct (run_op_wf o w IH Hok) as (w1 & E1 & Hw1). congruence.
Qed.

(** C14. Whatever sequence of channel, awaiter and select operations ran before,
    an operation used within its contract does not abort: none of the internal
    checks (a slot empty or overflowing, a waiter queued twice or not queued, a
    value taken twice, a completed waiter that was not waiting, a resumption
    without a result, a select without a ready case) can fail. *)
Theorem channel_operations_never_abort sched w o :
  reachable sched w -> op_ok o w = true -> no_panic (run_op o w).
Proof.
  intros Hr Ho. destruct (run_op_wf o w (reachable_wf _ _ Hr) Ho) as (w' & E & _). by exists w'.
Qed.

(** C7. First in, first out, without loss: in every reachable world the values a
    channel took over, in that order, are the values it handed to receivers, in
    that order, followed by the values in its buffer, of which there are at most
    [capacity]. Direct hand-overs, buffering, admissions of blocked senders,
    cancellations and selects are all covered. *)
Theorem channel_fifo_without_loss sched w c ch :
  reachable sched w -> w_chans w !! c = Some ch ->
  exists buffered, accepted c (w_trace w) = delivered c (w_trace w) ++ buffered /\
    ring_ok ch buffered /\ Z.of_nat (length buffered) = size_ ch /\ size_ ch <= capacity_ ch.
Proof.
  intros Hr Ec. destruct (wf_chans _ _ (reachable_wf _ _ Hr) c ch Ec) as [_ (vs & Hring & Hf)].
  exists vs. destruct Hring as [? ? ? ?] eqn:E. split_and!; auto.
Qed.

(** C15. No wakeup is lost: a waiter is suspended only while it cannot proceed.
    A waiting receiver implies an open channel with an empty buffer and no other
    party waiting to send; a waiting sender implies an open channel with a full
    buffer and no other party waiting to receive. *)
Theorem channel_no_lost_wakeup sched w c ch r :
  reachable sched w -> w_chans w !! c = Some ch ->
  (recv_waiting w r c -> r ∈ receivers_ ch /\ closed_ ch = false /\ size_ ch = 0 /\
     forall r', send_waiting w r' c -> same_group r' r) /\
  (send_waiting w r c -> r ∈ senders_ ch /\ closed_ ch = false /\ size_ ch = capacity_ ch /\
     forall r', recv_waiting w r' c -> same_group r r').
Proof.
  intros Hr Ec. destruct (reachable_wf _ _ Hr) as [Hc Hok]. destruct (Hok c ch Ec) as [[B1 B2 B3 B4] _].
  pose proof (fun x => co_senders _ _ Hc c ch x Ec) as Hs. pose proof (fun x => co_receivers _ _ Hc c ch x Ec) as Hq.
  assert (Hopen : senders_ ch <> [] \/ receivers_ ch <> [] -> closed_ ch = false).
  { intros Hne. destruct (closed_ ch) eqn:Hcl; [|done]. destruct (B4 eq_refl eq_refl). tauto. }
  split; intros Hw.
  - assert (Hin : r ∈ receivers_ ch) by (apply Hq; set_solver).
    assert (Hne : receivers_ ch <> []) by (intros E; rewrite E in Hin; set_solver).
    split_and!; auto. intros r' Hr'. apply B3; [apply Hs|]; set_solver.
  - assert (Hin : r ∈ senders_ ch) by (apply Hs; set_solver).
    assert (Hne : senders_ ch <> []) by (intros E; rewrite E in Hin; set_solver).
    split_and!; auto. intros r' Hr'. apply B3; [|apply Hq]; set_solver.
Qed.

(** C16. A select that has been decided has one winning case and left no trace:
    no case of it is in any queue, so no second case can complete. A select that
    is suspended has no winner yet and every one of its cases is queued at its
    channel, so any of them can wake it. *)
Theorem select_one_winner sched w s sl :
  reachable sched w -> w_sels w !! s = Some sl ->
  (forall i, sel_winner sl = Some i -> (i < length (sel_regs sl))%nat /\
     forall c ch j, w_chans w !! c = Some ch -> (WSelect s j ∉ senders_ ch) /\ (WSelect s j ∉ receivers_ ch)) /\
  (sel_phase sl = kWaiting -> sel_winner sl = None /\
     forall j g, sel_regs sl !! j = Some g -> exists c ch, w_chans w !! c = Some ch /\
       (WSelect s j ∈ senders_ ch \/ WSelect s j ∈ receivers_ ch)).
Proof.
  intros Hr Es. destruct (reachable_wf _ _ Hr) as [Hc _]. pose proof (co_sels _ _ Hc s sl Es) as Hok.
  pose proof (coh_queued s sl w Hc Es) as Hq. split.
  - intros i Hi. split; [by apply (so_winner _ Hok)|]. intros c ch j Ec.
    assert (Hdead : forall g, sel_regs sl !! j = Some g -> dead g).
    { intros g Hg. pose proof (so_regs _ Hok j g Hg) as Hd. by rewrite Hi in Hd. }
    split; intros Hin.
    + apply (sq_send _ _ _ Hq c ch j Ec) in Hin as (v & t & Hin). by apply Hdead, dead_not_live in Hin as [? _].
    + apply (sq_recv _ _ _ Hq c ch j Ec) in Hin as (o & Hin). by apply Hdead, dead_not_live_recv in Hin as [? _].
  - intros Hp. destruct (so_phase _ Hok Hp) as (Hw & _ & _ & Hall). split; [done|].
    intros j g Hj. specialize (Hall j g Hj). pose proof (so_regs _ Hok j g Hj) as Hl. rewrite Hw in Hl.
    destruct g as [c v a q t|c o a q|]; simpl in *; [| |done]; subst.
    + destruct (sq_chan _ _ _ Hq j c) as [ch Ec]; [left; eauto|]. exists c, ch. split; [done|]. left.
      apply (sq_send _ _ _ Hq c ch j Ec). eauto.
    + destruct (sq_chan _ _ _ Hq j c) as [ch Ec]; [right; eauto|]. exists c, ch. split; [done|]. right.
      apply (sq_recv _ _ _ Hq c ch j Ec). eauto.
Qed.

(** Closing an open channel aborts exactly when a sender is waiting on it;
    otherwise it succeeds, the channel is closed, nobody waits on it any more,
    and buffered values stay receivable. *)
Theorem channel_close_behaviour sched w c ch :
  reachable sched w -> w_chans w !! c = Some ch -> closed_ ch = false ->
  (Close c w = Panic <-> exists r, send_waiting w r c) /\
  (forall w', Close c w = Val w' -> exists ch', w_chans w' !! c = Some ch' /\ closed_ ch' = true /\
     senders_ ch' = [] /\ receivers_ ch' = [] /\ chan_fifo (w_trace w) c ch').
Proof.
  intros Hr Ec Hcl. pose proof (reachable_wf _ _ Hr) as Hwf. destruct Hwf as [Hc Hok] eqn:EW.
  destruct (senders_ ch) as [|r q] eqn:Hq.
  - destruct (Close_spec c ch w Hwf Ec Hcl Hq) as (w1 & ch1 & E & [Hc1 Hok1] & Ec1 & Hcl1 & Ht1). split.
    + rewrite E. split; [done|]. intros [r Hw]. assert (Hin : r ∈ senders_ ch) by (apply (co_senders _ _ Hc c ch r Ec); set_solver).
      rewrite Hq in Hin. set_solver.
    + rewrite E. intros w' [= <-]. exists ch1. destruct (Hok1 c ch1 Ec1) as [[B1 B2 B3 B4] Hf].
      rewrite Ht1 in Hf. destruct (B4 eq_refl Hcl1). auto.
  - split.
    + split; [|intros _; by eapply Close_waiting_sender]. intros _. exists r.
      apply (co_senders _ _ Hc c ch r Ec). rewrite Hq. set_solver.
    + rewrite (Close_waiting_sender c ch w r q Hc Ec Hq). done.
Qed.
End program.
Arguments op : clear implicits.

(** ** Witnesses *)

(** A channel of capacity 1, a blocked sender, a select on two channels. *)
Definition channel_program : list (op Z) :=
  [ONewChannel 0 1; ONewChannel 1 0; OTrySend 0 10; ONewSend 0 0 11; OAwaitSend 0 100;
   ONewSelect 0 [SelectReceiveCase 1 7; SelectSendCase 0 12]; OAwaitSelect 0 101;
   ONewReceive 0 0 8; OAwaitReceive 0 102; OResumeReceive 0; ODestroyReceive 0;
   OResumeSend 0; ODestroySend 0].

Definition channel_world : world Z := match exec channel_program (init 5) with Some w => w | None => init 5 end.

Lemma channel_world_reachable : reachable 5 channel_world.
Proof.
  apply (exec_reachable 5 channel_program (init 5)); [apply reach_init|]. vm_compute. reflexivity.
Qed.

Lemma channel_operations_never_abort_witness :
  reachable 5 channel_world /\ op_ok (OTryReceive 0 9) channel_world = true /\
  no_panic (run_op (OTryReceive 0 9) channel_world).
Proof.
  split; [exact channel_world_reachable|]. split; [vm_compute; reflexivity|].
  apply (channel_operations_never_abort 5); [exact channel_world_reachable|vm_compute; reflexivity].
Defined.

Lemma channel_fifo_without_loss_witness :
  exists ch, w_chans channel_world !! 0%nat = Some ch /\
    exists buffered, accepted 0 (w_trace channel_world) = delivered 0 (w_trace channel_world) ++ buffered.
Proof.
  destruct (w_chans channel_world !! 0%nat) as [ch|] eqn:E; [|vm_compute in E; discriminate E].
  exists ch. split; [reflexivity|].
  destruct (channel_fifo_without_loss 5 channel_world 0 ch channel_world_reachable E) as (b & Hb & _).
  exists b. exact Hb.
Defined.

Lemma channel_no_lost_wakeup_witness :
  exists ch, w_chans channel_world !! 1%nat = Some ch /\ recv_waiting channel_world (WSelect 0 0) 1 /\
    WSelect 0 0 ∈ receivers_ ch.
Proof.
  destruct (w_chans channel_world !! 1%nat) as [ch|] eqn:E; [|vm_compute in E; discriminate E].
  exists ch. assert (Hw : recv_waiting channel_world (WSelect 0 0) 1) by (vm_compute; eexists; reflexivity).
  split; [reflexivity|]. split; [exact Hw|].
  exact (proj1 (proj1 (channel_no_lost_wakeup 5 channel_world 1 ch (WSelect 0 0) channel_world_reachable E) Hw)).
Defined.

Lemma select_one_winner_witness :
  exists sl, w_sels channel_world !! 0%nat = Some sl /\ sel_phase sl = kWaiting /\ sel_winner sl = None.
Proof.
  destruct (w_sels channel_world !! 0%nat) as [sl|] eqn:E; [|vm_compute in E; discriminate E].
  exists sl. assert (Hp : sel_phase sl = kWaiting) by (vm_compute in E; injection E as <-; reflexivity).
  split; [reflexivity|]. split; [exact Hp|].
  exact (proj1 (proj2 (select_one_winner 5 channel_world 0 sl channel_world_reachable E) Hp)).
Defined.

Lemma channel_close_behaviour_witness :
  exists ch, w_chans channel_world !! 0%nat = Some ch /\ closed_ ch = false /\ Close 0 channel_world = Panic.
Proof.
  destruct (w_chans channel_world !! 0%nat) as [ch|] eqn:E; [|vm_compute in E; discriminate E].
  exists ch. assert (Hcl : closed_ ch = false) by (vm_compute in E; injection E as <-; reflexivity).
  split; [reflexivity|]. split; [exact Hcl|].
  apply (proj1 (channel_close_behaviour 5 channel_world 0 ch channel_world_reachable E Hcl)).
  exists (WSelect 0 1). vm_compute. eexists _, _. reflexivity.
Defined.
