(* ===== verification/IntrusiveList.v ===== *)
(** * The intrusive doubly linked list (include/alyrn/detail/intrusive_list.h)

    Nodes live in a heap from addresses to hooks; a list is the address of its
    sentinel [head_], a node of the same heap. Address 0 is [nullptr], and
    following a pointer to an address that holds no node is a [Panic]. Several
    lists share the heap, as [Splice] needs. The walks of [Clear] and [RemoveIf]
    carry fuel, one unit per node of the heap and one more; the theorems show
    that it never runs out. *)

From S2P Require Import Prelude.

Module IntrusiveList.

Definition nullptr : Z := 0.

(** The hook [ListNode]. *)
Record node := mkNode { prev_ : Z; next_ : Z }.

#[global] Instance hook_eq_dec : EqDecision node.
Proof. solve_decision. Defined.

Abbreviation heap := (gmap Z node).

Definition load (h : heap) (a : Z) : outcome node :=
  match h !! a with Some n => Val n | None => Panic end.

Definition set_prev (h : heap) (a p : Z) : outcome heap :=
  n ← load h a; Val (<[a := mkNode p (next_ n)]> h).

Definition set_next (h : heap) (a p : Z) : outcome heap :=
  n ← load h a; Val (<[a := mkNode (prev_ n) p]> h).

Definition clear_hook (h : heap) (a : Z) : outcome heap :=
  load h a;; Val (<[a := mkNode nullptr nullptr]> h).

Definition InList (h : heap) (a : Z) : outcome bool :=
  n ← load h a; Val (negb (next_ n =? nullptr)).

Definition Next (h : heap) (a : Z) : outcome Z := n ← load h a; Val (next_ n).

(** Begin() and operator++ of the iterators. *)
Definition Begin (h : heap) (head : Z) : outcome Z := Next h head.

Definition Reset (h : heap) (head : Z) : outcome heap :=
  h ← set_next h head head; set_prev h head head.

Definition Empty (h : heap) (head : Z) : outcome bool :=
  n ← load h head; Val (next_ n =? head).

Definition Front (h : heap) (head : Z) : outcome Z :=
  e ← Empty h head;
  if (e : bool) then Val nullptr else n ← load h head; Val (next_ n).

Definition Back (h : heap) (head : Z) : outcome Z :=
  e ← Empty h head;
  if (e : bool) then Val nullptr else n ← load h head; Val (prev_ n).

Definition SpliceOut (h : heap) (a : Z) : outcome heap :=
  n ← load h a;
  h ← set_next h (prev_ n) (next_ n);
  n ← load h a;
  set_prev h (next_ n) (prev_ n).

Definition LinkBetween (h : heap) (a prev next : Z) : outcome heap :=
  h ← set_prev h a prev;
  h ← set_next h a next;
  h ← set_next h prev a;
  set_prev h next a.

Definition Unlink (h : heap) (a : Z) : outcome heap :=
  h ← SpliceOut h a; clear_hook h a.

Definition PushFront (h : heap) (head elem : Z) : outcome (heap * bool) :=
  if elem =? nullptr then Val (h, false) else
  linked ← InList h elem;
  if (linked : bool) then Val (h, false) else
  n ← load h head;
  h ← LinkBetween h elem head (next_ n);
  Val (h, true).

Definition PushBack (h : heap) (head elem : Z) : outcome (heap * bool) :=
  if elem =? nullptr then Val (h, false) else
  linked ← InList h elem;
  if (linked : bool) then Val (h, false) else
  n ← load h head;
  h ← LinkBetween h elem (prev_ n) head;
  Val (h, true).

Definition PopFront (h : heap) (head : Z) : outcome (heap * Z) :=
  e ← Empty h head;
  if (e : bool) then Val (h, nullptr) else
  n ← load h head;
  h ← Unlink h (next_ n);
  Val (h, next_ n).

Definition Erase (h : heap) (elem : Z) : outcome (heap * bool) :=
  if elem =? nullptr then Val (h, false) else
  linked ← InList h elem;
  if negb (linked : bool) then Val (h, false) else
  h ← Unlink h elem;
  Val (h, true).

Fixpoint clear_loop (fuel : nat) (h : heap) (head cur : Z) : outcome heap :=
  match fuel with
  | O => Panic
  | S fuel =>
      if cur =? head then Val h else
      n ← load h cur;
      h ← clear_hook h cur;
      clear_loop fuel h head (next_ n)
  end.

Definition Clear (h : heap) (head : Z) : outcome heap :=
  n ← load h head;
  h ← clear_loop (S (size h)) h head (next_ n);
  h ← set_next h head head;
  set_prev h head head.

Fixpoint remove_loop (fuel : nat) (pred : Z -> bool) (h : heap) (head cur : Z) : outcome heap :=
  match fuel with
  | O => Panic
  | S fuel =>
      if cur =? head then Val h else
      n ← load h cur;
      h ← (if pred cur then Unlink h cur else Val h);
      remove_loop fuel pred h head (next_ n)
  end.

Definition RemoveIf (h : heap) (head : Z) (pred : Z -> bool) : outcome heap :=
  n ← load h head;
  remove_loop (S (size h)) pred h head (next_ n).

Definition ForEachSafe (h : heap) (head : Z) (fn : Z -> bool) : outcome heap :=
  RemoveIf h head fn.

Definition Splice (h : heap) (head other : Z) : outcome heap :=
  if other =? head then Val h else
  e ← Empty h other;
  if (e : bool) then Val h else
  no ← load h other;
  nh ← load h head;
  let first := next_ no in
  let last := prev_ no in
  let tail := prev_ nh in
  h ← set_next h tail first;
  h ← set_prev h first tail;
  h ← set_next h last head;
  h ← set_prev h head last;
  Reset h other.

(** ** Lists in the heap *)

Definition nx (h : heap) (a : Z) : option Z := next_ <$> h !! a.
Definition pv (h : heap) (a : Z) : option Z := prev_ <$> h !! a.

(** [a], the nodes of [l] and [b] are linked in this order, in both directions. *)
Fixpoint links (h : heap) (a : Z) (l : list Z) (b : Z) : Prop :=
  match l with
  | [] => nx h a = Some b /\ pv h b = Some a
  | x :: l => (nx h a = Some x /\ pv h x = Some a) /\ links h x l b
  end.

Abbreviation lists := (gmap Z (list Z)).

(** An allocated node that is in no list and is no sentinel. *)
Definition free (h : heap) (ls : lists) (x : Z) : Prop :=
  is_Some (h !! x) /\ forall hd l, ls !! hd = Some l -> x ∉ hd :: l.

(** The heap holds exactly the lists [ls], keyed by their sentinels. *)
Record holds (h : heap) (ls : lists) : Prop := {
  holds_links : forall hd l, ls !! hd = Some l -> links h hd l hd;
  holds_nodup : forall hd l, ls !! hd = Some l -> NoDup (hd :: l);
  holds_disjoint : forall hd1 hd2 l1 l2 x, ls !! hd1 = Some l1 -> ls !! hd2 = Some l2 ->
    x ∈ hd1 :: l1 -> x ∈ hd2 :: l2 -> hd1 = hd2;
  holds_free : forall x, free h ls x -> h !! x = Some (mkNode nullptr nullptr);
  holds_null : h !! nullptr = None;
}.

Lemma links_app h a l1 x l2 b :
  links h a (l1 ++ x :: l2) b <-> links h a l1 x /\ links h x l2 b.
Proof.
  revert a. induction l1 as [|y l1 IH]; intros a; simpl; [tauto|].
  rewrite IH. tauto.
Qed.

Lemma links_dom h a l b x : links h a l b -> x ∈ a :: l ++ [b] -> is_Some (h !! x).
Proof.
  revert a. induction l as [|y l IH]; intros a; simpl.
  - unfold nx, pv. intros [H1 H2] Hx.
    destruct (h !! a) eqn:E1; [|discriminate]. destruct (h !! b) eqn:E2; [|discriminate].
    rewrite !elem_of_cons, elem_of_nil in Hx. destruct Hx as [->|[->|[]]]; eauto.
  - intros [[H1 H2] H3] Hx. apply elem_of_cons in Hx as [->|Hx]; [|eauto].
    unfold nx in H1. destruct (h !! a); [eauto | discriminate].
Qed.

Lemma links_agree h h' a l b :
  (forall x, x ∈ a :: l ++ [b] -> h' !! x = h !! x) -> links h a l b -> links h' a l b.
Proof.
  revert a. induction l as [|y l IH]; intros a Hag; simpl.
  - unfold nx, pv. rewrite !Hag by set_solver. auto.
  - intros [[H1 H2] H3]. split; [|apply IH; [set_solver | auto]].
    unfold nx, pv in *. rewrite !Hag by set_solver. auto.
Qed.

Lemma links_first h hd l : links h hd l hd -> nx h hd = Some (default hd (head l)).
Proof. destruct l; simpl; tauto. Qed.

Lemma links_last h a l b : links h a l b -> pv h b = Some (default a (last l)).
Proof.
  destruct l as [|y l] using rev_ind; [simpl; tauto|].
  rewrite last_snoc. simpl. intros H.
  apply (links_app h a l y [] b) in H as [_ H]. simpl in H. tauto.
Qed.

Lemma holds_length h ls hd l : holds h ls -> ls !! hd = Some l -> (length l < size h)%nat.
Proof.
  intros H Hl.
  assert (list_to_set (C := gset Z) (hd :: l) ⊆ dom h) as Hsub.
  { intros x Hx. apply elem_of_list_to_set in Hx. apply elem_of_dom.
    eapply links_dom; [by eapply holds_links|]. set_solver. }
  apply subseteq_size in Hsub.
  rewrite size_list_to_set in Hsub by (by eapply holds_nodup).
  rewrite size_dom in Hsub. simpl in Hsub. lia.
Qed.

Lemma holds_linked h ls hd l x :
  holds h ls -> ls !! hd = Some l -> x ∈ l -> exists n, h !! x = Some n /\ next_ n <> nullptr.
Proof.
  intros H Hl Hx. pose proof (holds_links _ _ H _ _ Hl) as HL.
  apply list_elem_of_split in Hx as (l1 & l2 & ->).
  apply links_app in HL as [_ HL].
  assert (exists y, nx h x = Some y /\ is_Some (h !! y)) as (y & Hy & Hyd).
  { destruct l2 as [|z l2]; simpl in HL.
    - exists hd. split; [tauto|]. eapply links_dom; [by eapply holds_links | set_solver].
    - exists z. split; [tauto|]. destruct HL as [_ HL]. eapply links_dom; [exact HL | set_solver]. }
  unfold nx in Hy. destruct (h !! x) as [n|]; [|discriminate]. simplify_eq/=.
  exists n. split; [done|]. intros Hz. rewrite Hz, (holds_null _ _ H) in Hyd. by destruct Hyd.
Qed.

(** Changing one list, and the nodes that enter or leave it, keeps the rest. *)
Lemma holds_update h h' ls hd l l' :
  holds h ls -> ls !! hd = Some l ->
  links h' hd l' hd -> NoDup (hd :: l') ->
  (forall x, x ∈ l' -> x ∈ l \/ free h ls x) ->
  (forall x, x ∉ hd :: l -> x ∉ l' -> h' !! x = h !! x) ->
  (forall x, x ∈ l -> x ∉ l' -> h' !! x = Some (mkNode nullptr nullptr)) ->
  holds h' (<[hd := l']> ls).
Proof.
  intros H Hl HL HN Hin Hout Hgone.
  assert (forall hd2 l2 x, hd2 <> hd -> ls !! hd2 = Some l2 -> x ∈ hd2 :: l2 ->
    (x ∉ hd :: l) /\ (x ∉ l')) as Hoth.
  { intros hd2 l2 x Hne Hl2 Hx. split.
    - intros Hx2. apply Hne. by eapply (holds_disjoint h ls).
    - intros Hx2. apply Hin in Hx2 as [Hx2|[_ Hf]].
      + apply Hne. eapply (holds_disjoint h ls); eauto. set_solver.
      + by apply (Hf _ _ Hl2). }
  split.
  - intros hd2 l2 [[-> ->]|[Hne Hl2]]%lookup_insert_Some; [done|].
    eapply links_agree; [|by eapply holds_links]. intros x Hx.
    assert (x ∈ hd2 :: l2) as Hx' by set_solver.
    destruct (Hoth hd2 l2 x) as [? ?]; auto.
  - intros hd2 l2 [[-> ->]|[Hne Hl2]]%lookup_insert_Some; [done|]. by eapply holds_nodup.
  - intros hd1 hd2 l1 l2 x [[? ?]|[Hne1 H1]]%lookup_insert_Some
      [[? ?]|[Hne2 H2]]%lookup_insert_Some Hx1 Hx2; subst.
    + done.
    + destruct (Hoth hd2 l2 x) as [? ?]; auto. set_solver.
    + destruct (Hoth hd1 l1 x) as [? ?]; auto. set_solver.
    + by eapply (holds_disjoint h ls).
  - intros x [Hd Hx]. assert (x ∉ hd :: l') as Hx' by (apply Hx, lookup_insert_eq).
    destruct (decide (x ∈ l)) as [Hxl|Hxl]; [set_solver|].
    rewrite Hout in * by set_solver. apply (holds_free _ _ H). split; [done|].
    intros hd2 l2 Hl2. destruct (decide (hd2 = hd)) as [->|Hne]; [set_solver|].
    apply (Hx hd2 l2). by rewrite lookup_insert_ne.
  - rewrite Hout; [apply (holds_null _ _ H) | |].
    + intros Hx. destruct (links_dom h hd l hd nullptr) as [? Hx'];
        [by eapply holds_links | set_solver |]. by rewrite (holds_null _ _ H) in Hx'.
    + intros Hx. apply Hin in Hx as [Hx|[[? Hx] _]]; [|by rewrite (holds_null _ _ H) in Hx].
      destruct (links_dom h hd l hd nullptr) as [? Hx'];
        [by eapply holds_links | set_solver |]. by rewrite (holds_null _ _ H) in Hx'.
Qed.

(** ** The link primitives *)

(** Everything but the junction after [l1], and everything but the one before
    [l2]. *)
Fixpoint lpre (h : heap) (a : Z) (l : list Z) : Prop :=
  match l with
  | [] => True
  | x :: l => (nx h a = Some x /\ pv h x = Some a) /\ lpre h x l
  end.

Definition lpost (h : heap) (l : list Z) (b : Z) : Prop :=
  match l with [] => True | x :: l => links h x l b end.

Lemma last_default (a x : Z) l : default a (last (x :: l)) = default x (last l).
Proof. rewrite last_cons. by destruct (last l). Qed.

Lemma last_in (a : Z) l : default a (last l) ∈ a :: l.
Proof.
  destruct l as [|y l] using rev_ind; simpl; [set_solver|]. rewrite last_snoc. set_solver.
Qed.

Lemma head_in (b : Z) l : default b (head l) ∈ l ++ [b].
Proof. destruct l; simpl; set_solver. Qed.

Lemma links_middle h a l1 l2 b :
  links h a (l1 ++ l2) b <->
  lpre h a l1 /\
  (nx h (default a (last l1)) = Some (default b (head l2)) /\
   pv h (default b (head l2)) = Some (default a (last l1))) /\
  lpost h l2 b.
Proof.
  revert a. induction l1 as [|x l1 IH]; intros a.
  - destruct l2; simpl; tauto.
  - rewrite last_default. simpl. rewrite IH. tauto.
Qed.

Lemma lpre_frame h h' a l :
  NoDup (a :: l) ->
  (forall x, x ∈ a :: l -> x <> default a (last l) -> nx h' x = nx h x) ->
  (forall x, x ∈ l -> pv h' x = pv h x) -> lpre h a l -> lpre h' a l.
Proof.
  revert a. induction l as [|y l IH]; intros a HN Hn Hp; [done|]. simpl.
  rewrite last_default in Hn. apply NoDup_cons in HN as [Ha HN].
  rewrite Hn, Hp; [|set_solver|set_solver|].
  - intros [? Hl]. split; [done|]. apply IH; auto; intros; [apply Hn | apply Hp]; set_solver.
  - intros ->. by apply Ha, last_in.
Qed.

Lemma links_frame h h' a l b :
  (forall x, x ∈ a :: l -> nx h' x = nx h x) ->
  (forall x, x ∈ l ++ [b] -> pv h' x = pv h x) -> links h a l b -> links h' a l b.
Proof.
  revert a. induction l as [|y l IH]; intros a Hn Hp; simpl; rewrite Hn, Hp by set_solver; auto.
  intros [? ?]. split; [done|]. apply IH; auto; set_solver.
Qed.

Lemma lpost_frame h h' l b :
  NoDup l -> (b ∉ l) ->
  (forall x, x ∈ l -> nx h' x = nx h x) ->
  (forall x, x ∈ l ++ [b] -> x <> default b (head l) -> pv h' x = pv h x) ->
  lpost h l b -> lpost h' l b.
Proof.
  destruct l as [|y l]; [done|]. simpl. intros HN Hb Hn Hp.
  apply NoDup_cons in HN as [Hy HN].
  apply links_frame; [done|]. intros x Hx. apply Hp; set_solver.
Qed.

(** What a heap transformer that writes only links does to [nx], [pv] and the
    nodes it does not name. *)
Record writes (h h' : heap) (nx' pv' : Z -> option Z) (touched : list Z) : Prop := {
  writes_nx : forall x, nx h' x = nx' x;
  writes_pv : forall x, pv h' x = pv' x;
  writes_frame : forall x, x ∉ touched -> h' !! x = h !! x;
}.

Lemma LinkBetween_ok h e a b :
  is_Some (h !! e) -> is_Some (h !! a) -> is_Some (h !! b) -> e <> a -> e <> b ->
  exists h', LinkBetween h e a b = Val h' /\
    writes h h'
      (fun x => if decide (x = a) then Some e else if decide (x = e) then Some b else nx h x)
      (fun x => if decide (x = b) then Some e else if decide (x = e) then Some a else pv h x)
      [e; a; b].
Proof.
  intros [ne He] [na Ha] [nb Hb] Hea Heb.
  unfold LinkBetween, set_prev, set_next, load.
  rewrite He. simpl. rewrite lookup_insert_eq. simpl. rewrite insert_insert_eq.
  rewrite lookup_insert_ne, Ha by done. simpl.
  destruct (decide (a = b)) as [->|Hab].
  - rewrite lookup_insert_eq. simpl. rewrite insert_insert_eq.
    eexists. split; [reflexivity|]. split; intros x; unfold nx, pv; cbn beta.
    + repeat case_decide; subst; by simplify_map_eq.
    + repeat case_decide; subst; by simplify_map_eq.
    + intros Hx. rewrite !lookup_insert_ne by set_solver. done.
  - rewrite !lookup_insert_ne, Hb by done. simpl.
    eexists. split; [reflexivity|]. split; intros x; unfold nx, pv; cbn beta.
    + repeat case_decide; subst; simplify_map_eq; try done.
      destruct (decide (x = b)); subst; by simplify_map_eq.
    + repeat case_decide; subst; simplify_map_eq; try done.
      destruct (decide (x = a)); subst; by simplify_map_eq.
    + intros Hx. rewrite !lookup_insert_ne by set_solver. done.
Qed.

Lemma Unlink_ok h x p n :
  nx h x = Some n -> pv h x = Some p -> is_Some (h !! p) -> is_Some (h !! n) -> p <> x -> n <> x ->
  exists h', Unlink h x = Val h' /\
    writes h h'
      (fun y => if decide (y = x) then Some nullptr else if decide (y = p) then Some n else nx h y)
      (fun y => if decide (y = x) then Some nullptr else if decide (y = n) then Some p else pv h y)
      [x; p; n] /\ h' !! x = Some (mkNode nullptr nullptr).
Proof.
  unfold nx, pv. destruct (h !! x) as [[px nx0]|] eqn:Hx; [|discriminate].
  intros [= ->] [= ->] [np Hp] [nn Hn] Hpx Hnx.
  unfold Unlink, SpliceOut, clear_hook, set_prev, set_next, load.
  rewrite Hx. simpl. rewrite Hp. simpl. rewrite lookup_insert_ne, Hx by done. simpl.
  destruct (decide (p = n)) as [->|Hpn].
  - rewrite lookup_insert_eq. simpl. rewrite insert_insert_eq.
    rewrite lookup_insert_ne, Hx by done. simpl.
    eexists. split; [reflexivity|]. split; [|by rewrite lookup_insert_eq].
    split; intros y; unfold nx, pv; cbn beta.
    + repeat case_decide; subst; by simplify_map_eq.
    + repeat case_decide; subst; by simplify_map_eq.
    + intros Hy. rewrite !lookup_insert_ne by set_solver. done.
  - rewrite lookup_insert_ne, Hn by done. simpl. rewrite !lookup_insert_ne, Hx by done. simpl.
    eexists. split; [reflexivity|]. split; [|by rewrite lookup_insert_eq].
    split; intros y; unfold nx, pv; cbn beta.
    + repeat case_decide; subst; simplify_map_eq; try done.
      destruct (decide (y = n)); subst; by simplify_map_eq.
    + repeat case_decide; subst; simplify_map_eq; try done.
      destruct (decide (y = p)); subst; by simplify_map_eq.
    + intros Hy. rewrite !lookup_insert_ne by set_solver. done.
Qed.

(** The neighbours [a] and [b] of a junction between [l1] and [l2]. *)
Lemma junction_neq (hd : Z) (l1 l2 : list Z) :
  NoDup (hd :: l1 ++ l2) ->
  let a := default hd (last l1) in let b := default hd (head l2) in
  a ∈ hd :: l1 ++ l2 /\ b ∈ hd :: l1 ++ l2 /\
  NoDup (hd :: l1) /\ NoDup l2 /\ (hd ∉ l2) /\
  (forall x : Z, x ∈ l1 -> x <> b) /\ (forall x : Z, x ∈ l2 -> x <> a).
Proof.
  intros HN a b. pose proof (last_in hd l1) as Ha. pose proof (head_in hd l2) as Hb.
  fold a in Ha. fold b in Hb. clearbody a b.
  apply NoDup_cons in HN as [Hhd HN]. apply NoDup_app in HN as (HN1 & HN12 & HN2).
  split_and!; try done.
  - set_solver.
  - set_solver.
  - apply NoDup_cons. set_solver.
  - set_solver.
  - intros x Hx ->. specialize (HN12 _ Hx). set_solver.
  - intros x Hx ->. set_solver.
Qed.

Lemma holds_insert h ls hd l1 l2 e :
  holds h ls -> ls !! hd = Some (l1 ++ l2) -> free h ls e ->
  exists h', LinkBetween h e (default hd (last l1)) (default hd (head l2)) = Val h' /\
    holds h' (<[hd := l1 ++ e :: l2]> ls).
Proof.
  intros H Hl Hfree. pose proof Hfree as [Hed Hef]. pose proof (holds_links _ _ H _ _ Hl) as HL.
  pose proof (holds_nodup _ _ H _ _ Hl) as HN. pose proof (Hef _ _ Hl) as He. clear Hef.
  pose proof (junction_neq hd l1 l2 HN) as (Ha & Hb & HN1 & HN2 & Hh2 & D1 & D2).
  assert (forall x, x ∈ hd :: l1 ++ l2 -> x <> e) as De by (intros x Hx ->; done).
  destruct (LinkBetween_ok h e (default hd (last l1)) (default hd (head l2)))
    as (h' & -> & [Hn Hp Hf]); [done | | | symmetry; auto | symmetry; auto |].
  1,2: eapply links_dom; [exact HL | set_solver].
  exists h'. split; [done|].
  assert (forall x, x ∈ hd :: l1 -> x <> e) as De1 by (intros; apply De; set_solver).
  assert (forall x, x ∈ l2 ++ [hd] -> x <> e) as De2 by (intros; apply De; set_solver).
  assert (links h' hd (l1 ++ e :: l2) hd) as HL'.
  { apply links_middle in HL as (L1 & [J1 J2] & L2). apply links_middle. split_and!.
    - eapply lpre_frame; [done | | |exact L1].
      + intros x Hx Hxn. rewrite Hn, !decide_False by auto. done.
      + intros x Hx. rewrite Hp, !decide_False; [done | apply De1; set_solver | auto].
    - simpl. rewrite Hn, decide_True by done. done.
    - simpl. rewrite Hp, decide_False, decide_True; [done | done |]. symmetry. auto.
    - simpl. apply (links_middle h' e [] l2 hd). simpl. split_and!; [done| | |].
      + rewrite Hn, decide_False, decide_True; [done | done |]. symmetry. auto.
      + rewrite Hp, decide_True by done. done.
      + eapply lpost_frame; [done | done | | | exact L2].
        * intros x Hx. rewrite Hn, !decide_False; [done | apply De2; set_solver | auto].
        * intros x Hx Hxn. rewrite Hp, !decide_False by auto. done. }
  eapply holds_update; [exact H | exact Hl | exact HL' | | | |].
  - apply NoDup_cons in HN as [? HN]. apply NoDup_app in HN as (? & ? & ?).
    apply NoDup_cons. split; [set_solver|]. apply NoDup_app. split_and!; [done|set_solver|].
    apply NoDup_cons. set_solver.
  - intros x [Hx|[->|Hx]%elem_of_cons]%elem_of_app; [set_solver | by right | set_solver].
  - intros x Hx1 Hx2. apply Hf. rewrite !not_elem_of_cons. split_and!; [| | |set_solver].
    + intros ->. set_solver.
    + intros ->. done.
    + intros ->. done.
  - intros x Hx1 Hx2. set_solver.
Qed.

Lemma holds_unlink h ls hd l1 x l2 :
  holds h ls -> ls !! hd = Some (l1 ++ x :: l2) ->
  nx h x = Some (default hd (head l2)) /\
  exists h', Unlink h x = Val h' /\ holds h' (<[hd := l1 ++ l2]> ls).
Proof.
  intros H Hl. pose proof (holds_links _ _ H _ _ Hl) as HL.
  pose proof (holds_nodup _ _ H _ _ Hl) as HN.
  assert (NoDup (hd :: l1 ++ l2) /\ (x ∉ hd :: l1 ++ l2)) as [HN' Hx].
  { rewrite app_comm_cons in HN. rewrite <- Permutation_middle in HN.
    apply NoDup_cons in HN as [? ?]. auto. }
  pose proof (junction_neq hd l1 l2 HN') as (Ha & Hb & HN1 & HN2 & Hh2 & D1 & D2).
  assert (forall y, y ∈ hd :: l1 ++ l2 -> y <> x) as De by (intros y Hy ->; done).
  assert (forall y, y ∈ hd :: l1 -> y <> x) as De1 by (intros; apply De; set_solver).
  assert (forall y, y ∈ l2 ++ [hd] -> y <> x) as De2 by (intros; apply De; set_solver).
  pose proof HL as HD. apply links_middle in HL as (L1 & [J1 J2] & L2). simpl in J1, J2, L2.
  apply (links_middle h x [] l2 hd) in L2 as (_ & [J3 J4] & L2). simpl in J3, J4.
  split; [done|].
  destruct (Unlink_ok h x (default hd (last l1)) (default hd (head l2)))
    as (h' & -> & [Hn Hp Hf] & Hxx); [done | done | | | auto | auto |].
  1,2: eapply links_dom; [exact HD | set_solver].
  exists h'. split; [done|].
  eapply holds_update; [exact H | exact Hl | | done | | |].
  - apply links_middle. split_and!.
    + eapply lpre_frame; [done | | |exact L1].
      * intros y Hy Hyn. rewrite Hn, !decide_False by auto. done.
      * intros y Hy. rewrite Hp, !decide_False; [done | auto | apply De1; set_solver].
    + rewrite Hn, decide_False, decide_True; auto.
    + rewrite Hp, decide_False, decide_True; auto.
    + eapply lpost_frame; [done | done | | | exact L2].
      * intros y Hy. rewrite Hn, !decide_False; [done | auto | apply De2; set_solver].
      * intros y Hy Hyn. rewrite Hp, !decide_False by auto. done.
  - intros y Hy. left. set_solver.
  - intros y Hy1 Hy2. apply Hf. rewrite !not_elem_of_cons. split_and!; [| | |set_solver].
    + intros ->. set_solver.
    + intros ->. set_solver.
    + intros ->. set_solver.
  - intros y Hy1 Hy2. assert (y = x) as -> by set_solver. done.
Qed.

Lemma load_ok h a : is_Some (h !! a) -> exists n, load h a = Val n /\ h !! a = Some n.
Proof. intros [n Hn]. exists n. unfold load. by rewrite Hn. Qed.

Lemma holds_head h ls hd l :
  holds h ls -> ls !! hd = Some l ->
  exists n, load h hd = Val n /\ h !! hd = Some n /\
    next_ n = default hd (head l) /\ prev_ n = default hd (last l).
Proof.
  intros H Hl. pose proof (holds_links _ _ H _ _ Hl) as HL.
  pose proof (links_first _ _ _ HL) as Hn. pose proof (links_last _ _ _ _ HL) as Hp.
  unfold nx, pv in Hn, Hp. unfold load. destruct (h !! hd) as [n|]; [|done]. exists n.
  simplify_eq/=. auto.
Qed.

Lemma holds_Empty h ls hd l :
  holds h ls -> ls !! hd = Some l -> Empty h hd = Val (bool_decide (l = [])).
Proof.
  intros H Hl. destruct (holds_head _ _ _ _ H Hl) as (n & Hld & _ & Hn & _).
  pose proof (holds_nodup _ _ H _ _ Hl) as HN.
  unfold Empty. rewrite Hld. simpl. rewrite Hn. f_equal. destruct l as [|x l].
  - rewrite bool_decide_eq_true_2 by done. apply Z.eqb_refl.
  - rewrite bool_decide_eq_false_2 by done. simpl. apply Z.eqb_neq. apply NoDup_cons in HN. set_solver.
Qed.

Lemma holds_InList h ls x :
  holds h ls -> is_Some (h !! x) -> ls !! x = None ->
  (InList h x = Val false /\ free h ls x) \/
  (InList h x = Val true /\ exists hd l, ls !! hd = Some l /\ x ∈ l).
Proof.
  intros H Hd Hx.
  destruct (decide (map_Exists (fun _ l => x ∈ l) ls)) as [(hd & l & Hl & Hin)|Hno].
  - right. destruct (holds_linked _ _ _ _ _ H Hl Hin) as (n & Hn & Hne).
    split; [|eauto]. unfold InList, load. rewrite Hn. simpl. do 2 f_equal.
    by apply Z.eqb_neq in Hne as ->.
  - left. assert (free h ls x) as Hf.
    { split; [done|]. intros hd l Hl [->|Hin]%elem_of_cons; [congruence|].
      apply Hno. exists hd, l. auto. }
    split; [|done]. unfold InList, load. rewrite (holds_free _ _ H _ Hf). done.
Qed.

Lemma holds_not_null h ls hd l x : holds h ls -> ls !! hd = Some l -> x ∈ hd :: l -> x <> nullptr.
Proof.
  intros H Hl Hx ->. destruct (links_dom h hd l hd nullptr) as [? Hn];
    [by eapply holds_links | set_solver |]. by rewrite (holds_null _ _ H) in Hn.
Qed.

(** ** The walks *)

Lemma clear_loop_ok h hd l cur fuel :
  links h cur l hd -> NoDup (cur :: l) -> (hd ∉ cur :: l) -> (length l < fuel)%nat ->
  exists h', clear_loop (S fuel) h hd cur = Val h' /\
    (forall x, x ∈ cur :: l -> h' !! x = Some (mkNode nullptr nullptr)) /\
    (forall x, x ∉ cur :: l -> h' !! x = h !! x).
Proof.
  revert h cur fuel. induction l as [|y l IH]; intros h cur fuel HL HN Hhd Hf.
  - destruct fuel as [|fuel]; [simpl in Hf; lia|]. simpl in HL. destruct HL as [Hc _].
    unfold nx in Hc. destruct (h !! cur) as [n|] eqn:Hcur; [|done]. simpl in Hc. injection Hc as Hc.
    simpl. rewrite (proj2 (Z.eqb_neq cur hd)) by set_solver.
    unfold clear_hook, load. rewrite Hcur. simpl. rewrite Hc, Z.eqb_refl.
    eexists. split; [reflexivity|]. split; intros x Hx.
    + replace x with cur by set_solver. apply lookup_insert_eq.
    + apply lookup_insert_ne. set_solver.
  - destruct fuel as [|fuel]; [simpl in Hf; lia|]. destruct HL as [[Hc Hp] HL].
    unfold nx in Hc. destruct (h !! cur) as [n|] eqn:Hcur; [|done]. simpl in Hc. injection Hc as Hc.
    apply NoDup_cons in HN as [HcN HN].
    destruct (IH (<[cur := mkNode nullptr nullptr]> h) y fuel) as (h' & Hrun & Hin & Hout);
      [ | done | set_solver | simpl in Hf; lia |].
    { eapply links_agree; [|exact HL]. intros x Hx. apply lookup_insert_ne. set_solver. }
    exists h'. split_and!.
    + change (clear_loop (S (S fuel)) h hd cur) with
        (if cur =? hd then Val h else n ← load h cur; h ← clear_hook h cur;
           clear_loop (S fuel) h hd (next_ n)).
      rewrite (proj2 (Z.eqb_neq cur hd)) by set_solver.
      unfold clear_hook, load. rewrite Hcur. rewrite !bind_val. rewrite Hc. exact Hrun.
    + intros x [->|Hx]%elem_of_cons; [|by apply Hin].
      rewrite Hout by done. apply lookup_insert_eq.
    + intros x Hx. rewrite Hout by set_solver. apply lookup_insert_ne. set_solver.
Qed.

Lemma holds_Clear h ls hd l :
  holds h ls -> ls !! hd = Some l ->
  exists h', Clear h hd = Val h' /\ holds h' (<[hd := []]> ls) /\
    h' !! hd = Some (mkNode hd hd) /\
    (forall x, x ∈ l -> h' !! x = Some (mkNode nullptr nullptr)) /\
    (forall x, x ∉ hd :: l -> h' !! x = h !! x).
Proof.
  intros H Hl. destruct (holds_head _ _ _ _ H Hl) as (n & Hld & Hn & Hnx & _).
  pose proof (holds_nodup _ _ H _ _ Hl) as HN. pose proof (holds_links _ _ H _ _ Hl) as HL.
  pose proof (holds_length _ _ _ _ H Hl) as Hlen.
  apply NoDup_cons in HN as [Hhd HN].
  assert (exists h1, clear_loop (S (size h)) h hd (next_ n) = Val h1 /\
    (forall x, x ∈ l -> h1 !! x = Some (mkNode nullptr nullptr)) /\
    (forall x, x ∉ l -> h1 !! x = h !! x)) as (h1 & Hrun & Hin & Hout).
  { rewrite Hnx. destruct l as [|x l]; simpl default.
    - exists h. simpl. rewrite Z.eqb_refl. split_and!; set_solver.
    - destruct HL as [_ HL]. apply clear_loop_ok; auto. simpl in Hlen. lia. }
  unfold Clear. rewrite Hld. rewrite bind_val. rewrite Hrun. rewrite bind_val.
  unfold set_next, set_prev, load. rewrite (Hout hd), Hn by done. simpl.
  rewrite lookup_insert_eq. simpl. rewrite insert_insert_eq.
  eexists. split; [reflexivity|]. split_and!; [|by rewrite lookup_insert_eq| |].
  2: { intros x Hx. rewrite lookup_insert_ne by set_solver. by apply Hin. }
  2: { intros x Hx. rewrite lookup_insert_ne by set_solver. apply Hout. set_solver. }
  eapply holds_update; [exact H | exact Hl | | | | |].
  - simpl. unfold nx, pv. by rewrite lookup_insert_eq.
  - apply NoDup_singleton.
  - set_solver.
  - intros x Hx _. rewrite lookup_insert_ne by set_solver. apply Hout. set_solver.
  - intros x Hx _. rewrite lookup_insert_ne by set_solver. by apply Hin.
Qed.

Lemma remove_loop_ok pred hd todo : forall fuel h ls kept,
  holds h ls -> ls !! hd = Some (kept ++ todo) -> (length todo < fuel)%nat ->
  exists h', remove_loop fuel pred h hd (default hd (head todo)) = Val h' /\
    holds h' (<[hd := kept ++ List.filter (fun x => negb (pred x)) todo]> ls).
Proof.
  induction todo as [|x todo IH]; intros fuel h ls kept H Hl Hf;
    (destruct fuel as [|fuel]; [simpl in Hf; lia|]).
  - exists h. simpl. rewrite Z.eqb_refl. split; [done|]. by rewrite insert_id.
  - destruct (holds_unlink _ _ _ _ _ _ H Hl) as (Hnx & h1 & Hun & H1).
    pose proof (holds_nodup _ _ H _ _ Hl) as HN. apply NoDup_cons in HN as [Hhd HN].
    assert (hd <> x) as Hne by set_solver.
    simpl. rewrite (proj2 (Z.eqb_neq x hd)) by done.
    unfold nx in Hnx. unfold load. destruct (h !! x) as [n|] eqn:Hx; [|done].
    simpl in Hnx. injection Hnx as Hnx. simpl. rewrite Hnx. destruct (pred x) eqn:Hp; simpl.
    + rewrite Hun. simpl. destruct (IH fuel h1 (<[hd := kept ++ todo]> ls) kept) as (h' & -> & H').
      { done. } { apply lookup_insert_eq. } { simpl in Hf. lia. }
      exists h'. split; [done|]. by rewrite insert_insert_eq in H'.
    + destruct (IH fuel h ls (kept ++ [x])) as (h' & -> & H').
      { done. } { rewrite <- app_assoc. done. } { simpl in Hf. lia. }
      exists h'. split; [done|]. by rewrite <- app_assoc in H'.
Qed.

Lemma set_next_ok h a p :
  is_Some (h !! a) -> exists h', set_next h a p = Val h' /\
    writes h h' (fun x => if decide (x = a) then Some p else nx h x) (pv h) [a].
Proof.
  intros [n Hn]. unfold set_next, load. rewrite Hn. simpl. eexists. split; [done|].
  split; intros x; unfold nx, pv; [case_decide| |]; subst; simplify_map_eq; try done.
  - destruct (decide (x = a)); subst; by simplify_map_eq.
  - intros Hx. apply lookup_insert_ne. set_solver.
Qed.

Lemma set_prev_ok h a p :
  is_Some (h !! a) -> exists h', set_prev h a p = Val h' /\
    writes h h' (nx h) (fun x => if decide (x = a) then Some p else pv h x) [a].
Proof.
  intros [n Hn]. unfold set_prev, load. rewrite Hn. simpl. eexists. split; [done|].
  split; intros x; unfold nx, pv; [|case_decide|]; subst; simplify_map_eq; try done.
  - destruct (decide (x = a)); subst; by simplify_map_eq.
  - intros Hx. apply lookup_insert_ne. set_solver.
Qed.

Lemma nx_dom h x y : nx h x = Some y -> is_Some (h !! x).
Proof. unfold nx. destruct (h !! x); [eauto | done]. Qed.

Lemma node_of_links h x n p : nx h x = Some n -> pv h x = Some p -> h !! x = Some (mkNode p n).
Proof. unfold nx, pv. destruct (h !! x) as [[? ?]|]; [|done]. by intros [= ->] [= ->]. Qed.

(** The writes of [Splice] joining [l1] and a non-empty [f :: l2]. *)
Lemma Splice_writes h hd other f l tail lst :
  hd <> other -> tail <> other -> f <> hd -> f <> other -> lst <> other -> lst <> tail ->
  nx h other = Some f -> pv h other = Some lst -> pv h hd = Some tail ->
  is_Some (h !! tail) -> is_Some (h !! f) -> is_Some (h !! lst) -> is_Some (h !! hd) ->
  links h other (f :: l) other ->
  exists h', Splice h hd other = Val h' /\
    writes h h'
      (fun x => if decide (x = other) then Some other else
                if decide (x = lst) then Some hd else
                if decide (x = tail) then Some f else nx h x)
      (fun x => if decide (x = other) then Some other else
                if decide (x = hd) then Some lst else
                if decide (x = f) then Some tail else pv h x)
      [other; lst; tail; hd; f].
Proof.
  intros D1 D2 D3 D4 D5 D6 Hno Hpo Hph Ht Hf Hl Hh HL.
  assert (is_Some (h !! other)) as Ho by (by eapply nx_dom).
  pose proof (node_of_links _ _ _ _ Hno Hpo) as Ho'.
  unfold Splice. rewrite (proj2 (Z.eqb_neq other hd)) by done.
  unfold Empty, load at 1 2 3. rewrite Ho'. rewrite !bind_val.
  cbn [next_ prev_]. rewrite (proj2 (Z.eqb_neq f other)) by done.
  destruct Hh as [nh Hh]. rewrite Hh. cbn [mbind outcome_bind].
  unfold pv in Hph. rewrite Hh in Hph. injection Hph as Hph. cbn [next_ prev_]. rewrite Hph.
  assert (forall (h0 h1 : heap) nxf pvf t x, writes h0 h1 nxf pvf t -> is_Some (h0 !! x) ->
    nxf x <> None -> is_Some (h1 !! x)) as Hstay.
  { intros h0 h1 nxf pvf t x [Hn _ _] _ Hne. specialize (Hn x). unfold nx in Hn.
    destruct (h1 !! x); [eauto|]. by rewrite <- Hn in Hne. }
  assert (forall x, is_Some (h !! x) -> nx h x <> None) as Hdom.
  { unfold nx. intros x [? ->]. done. }
  destruct (set_next_ok h tail f Ht) as (h1 & -> & W1). rewrite bind_val.
  assert (forall x, is_Some (h !! x) -> is_Some (h1 !! x)) as K1.
  { intros x Hx. eapply Hstay; [exact W1 | done |]. simpl. case_decide; [done | auto]. }
  destruct (set_prev_ok h1 f tail) as (h2 & -> & W2); [by apply K1|]. rewrite bind_val.
  assert (forall x, is_Some (h !! x) -> is_Some (h2 !! x)) as K2.
  { intros x Hx. eapply Hstay; [exact W2 | auto |]. simpl. rewrite (writes_nx _ _ _ _ _ W1).
    case_decide; [done | auto]. }
  destruct (set_next_ok h2 lst hd) as (h3 & -> & W3); [by apply K2|]. rewrite bind_val.
  assert (forall x, is_Some (h !! x) -> is_Some (h3 !! x)) as K3.
  { intros x Hx. eapply Hstay; [exact W3 | auto |]. simpl.
    case_decide; [done|]. rewrite (writes_nx _ _ _ _ _ W2), (writes_nx _ _ _ _ _ W1).
    case_decide; [done | auto]. }
  destruct (set_prev_ok h3 hd lst) as (h4 & -> & W4); [apply K3; eauto|]. rewrite bind_val.
  assert (is_Some (h4 !! other)) as K4.
  { rewrite (writes_frame _ _ _ _ _ W4) by set_solver. auto. }
  unfold Reset. destruct (set_next_ok h4 other other K4) as (h5 & -> & W5). rewrite bind_val.
  destruct (set_prev_ok h5 other other) as (h6 & -> & W6).
  { eapply nx_dom. rewrite (writes_nx _ _ _ _ _ W5), decide_True; done. }
  exists h6. split; [done|]. split; intros x; cbn beta.
  - rewrite (writes_nx _ _ _ _ _ W6), (writes_nx _ _ _ _ _ W5).
    case_decide; [done|]. rewrite (writes_nx _ _ _ _ _ W4), (writes_nx _ _ _ _ _ W3).
    case_decide; [done|]. by rewrite (writes_nx _ _ _ _ _ W2), (writes_nx _ _ _ _ _ W1).
  - rewrite (writes_pv _ _ _ _ _ W6). case_decide; [done|].
    rewrite (writes_pv _ _ _ _ _ W5), (writes_pv _ _ _ _ _ W4).
    case_decide; [done|]. rewrite (writes_pv _ _ _ _ _ W3), (writes_pv _ _ _ _ _ W2).
    case_decide; [done|]. by rewrite (writes_pv _ _ _ _ _ W1).
  - intros Hx. rewrite !not_elem_of_cons in Hx. destruct Hx as (? & ? & ? & ? & ? & _).
    rewrite (writes_frame _ _ _ _ _ W6), (writes_frame _ _ _ _ _ W5), (writes_frame _ _ _ _ _ W4),
      (writes_frame _ _ _ _ _ W3), (writes_frame _ _ _ _ _ W2), (writes_frame _ _ _ _ _ W1); set_solver.
Qed.

Lemma holds_apart h ls hd1 hd2 l1 l2 x y :
  holds h ls -> hd1 <> hd2 -> ls !! hd1 = Some l1 -> ls !! hd2 = Some l2 ->
  x ∈ hd1 :: l1 -> y ∈ hd2 :: l2 -> x <> y.
Proof. intros H Hne H1 H2 Hx Hy ->. apply Hne. by eapply (holds_disjoint h ls). Qed.

Lemma Splice_links h h' hd other l1 f l tail lst touched :
  tail = default hd (last l1) -> lst = default f (last l) ->
  (forall x y, x ∈ hd :: l1 -> y ∈ other :: f :: l -> x <> y) ->
  NoDup (hd :: l1) -> NoDup (other :: f :: l) ->
  links h hd l1 hd -> links h other (f :: l) other ->
  writes h h'
      (fun x => if decide (x = other) then Some other else
                if decide (x = lst) then Some hd else
                if decide (x = tail) then Some f else nx h x)
      (fun x => if decide (x = other) then Some other else
                if decide (x = hd) then Some lst else
                if decide (x = f) then Some tail else pv h x) touched ->
  links h' hd (l1 ++ f :: l) hd.
Proof.
  intros Ht Hlst D HN1 HN2 HL1 HL2 [Hn Hp _].
  pose proof (last_in hd l1) as Tin. rewrite <- Ht in Tin.
  pose proof (last_in f l) as Lin. rewrite <- Hlst in Lin.
  apply NoDup_cons in HN2 as [Ho HN2].
  rewrite <- (app_nil_r l1) in HL1. apply links_middle in HL1 as (L1 & _ & _).
  destruct HL2 as [_ HL2]. rewrite <- (app_nil_r l) in HL2. apply links_middle in HL2 as (L2 & _ & _).
  apply links_middle. rewrite <- Ht. simpl. split_and!.
  - eapply lpre_frame; [done | | | exact L1]; rewrite <- ?Ht; intros x Hx.
    + intros Hxt. rewrite Hn, !decide_False; [done | done | |]; apply D; set_solver.
    + rewrite Hp, !decide_False; [done | | | ].
      * apply D; set_solver.
      * intros ->. apply NoDup_cons in HN1. set_solver.
      * apply D; set_solver.
  - rewrite Hn, decide_False, decide_False, decide_True; [done | done | |]; apply D; set_solver.
  - rewrite Hp, decide_False, decide_False, decide_True; [done | done | |].
    + intros ->. eapply (D hd hd); set_solver.
    + intros ->. set_solver.
  - rewrite <- (app_nil_r l). apply links_middle. simpl. rewrite <- Hlst. split_and!; [| | |done].
    + eapply lpre_frame; [done | | | exact L2]; rewrite <- ?Hlst; intros x Hx.
      * intros Hxt. rewrite Hn, !decide_False; [done | | done |].
        -- intros ->. eapply (D tail tail); set_solver.
        -- intros ->. done.
      * rewrite Hp, !decide_False; [done | | |].
        -- intros ->. apply NoDup_cons in HN2. set_solver.
        -- intros ->. eapply (D hd hd); set_solver.
        -- intros ->. set_solver.
    + rewrite Hn, decide_False, decide_True; [done | done |]. intros ->. done.
    + rewrite Hp, decide_False, decide_True; [done | done |]. intros ->.
      eapply (D other other); set_solver.
Qed.

Lemma holds_Splice h ls hd other l1 l2 :
  holds h ls -> hd <> other -> ls !! hd = Some l1 -> ls !! other = Some l2 ->
  exists h', Splice h hd other = Val h' /\ holds h' (<[hd := l1 ++ l2]> (<[other := []]> ls)).
Proof.
  intros H Hne H1 H2. pose proof (holds_Empty _ _ _ _ H H2) as HE.
  destruct l2 as [|f l].
  { exists h. unfold Splice. rewrite (proj2 (Z.eqb_neq other hd)) by done. rewrite HE. simpl.
    split; [done|]. rewrite app_nil_r, (insert_id _ other), insert_id; done. }
  destruct (holds_head _ _ _ _ H H1) as (n1 & _ & E1 & _ & P1).
  destruct (holds_head _ _ _ _ H H2) as (n2 & _ & E2 & N2 & P2). simpl in N2.
  rewrite last_default in P2.
  pose proof (holds_links _ _ H _ _ H1) as HL1. pose proof (holds_links _ _ H _ _ H2) as HL2.
  pose proof (holds_nodup _ _ H _ _ H1) as HN1. pose proof (holds_nodup _ _ H _ _ H2) as HN2.
  assert (forall x y, x ∈ hd :: l1 -> y ∈ other :: f :: l -> x <> y) as D.
  { intros x y. by eapply holds_apart. }
  pose proof (last_in hd l1) as Tin. pose proof (last_in f l) as Lin.
  assert (forall x, x ∈ hd :: l1 -> is_Some (h !! x)) as K1.
  { intros x Hx. eapply links_dom; [exact HL1 | set_solver]. }
  assert (forall x, x ∈ other :: f :: l -> is_Some (h !! x)) as K2.
  { intros x Hx. eapply links_dom; [exact HL2 | set_solver]. }
  assert (other ∉ f :: l) as Ho by (by apply NoDup_cons in HN2 as [? _]).
  destruct (Splice_writes h hd other f l (default hd (last l1)) (default f (last l)))
    as (h' & -> & W).
  { done. } { apply D; set_solver. } { symmetry. apply D; set_solver. } { set_solver. }
  { intros Heq. rewrite Heq in Lin. done. } { symmetry. apply D; set_solver. }
  { unfold nx. rewrite E2. simpl. congruence. } { unfold pv. rewrite E2. simpl. congruence. }
  { unfold pv. rewrite E1. simpl. congruence. }
  { auto. } { apply K2; set_solver. } { apply K2; set_solver. } { apply K1; set_solver. } { done. }
  exists h'. split; [done|].
  pose proof (Splice_links h h' hd other l1 f l _ _ _ eq_refl eq_refl D HN1 HN2 HL1 HL2 W) as HL'.
  destruct (holds_Clear _ _ _ _ H H2) as (hm & _ & Hm & Hmo & Hmc & Hmf).
  destruct W as [Hn Hp Hf].
  eapply holds_update; [exact Hm | | exact HL' | | | |].
  - rewrite lookup_insert_ne by done. exact H1.
  - apply NoDup_cons in HN1 as [? ?]. apply NoDup_cons in HN2 as [? ?].
    apply NoDup_cons. split; [|apply NoDup_app; split_and!; [done | | done]].
    + intros [?|Hx]%elem_of_app; [done|]. eapply (D hd hd); set_solver.
    + intros x Hx Hx2. eapply (D x x); set_solver.
  - intros x [Hx|Hx]%elem_of_app; [by left|]. right. split.
    + rewrite Hmc by done. eauto.
    + intros hd2 l2 [[<- <-]|[Hne2 Hl2]]%lookup_insert_Some Hin.
      * set_solver.
      * apply Hne2. eapply (holds_disjoint h ls); eauto. set_solver.
  - intros x Hx1 Hx2. destruct (decide (x = other)) as [->|Hxo].
    + rewrite Hmo. apply node_of_links; [rewrite Hn | rewrite Hp]; by rewrite decide_True.
    + rewrite Hmf by set_solver. apply Hf. set_solver.
  - intros x Hx1 Hx2. set_solver.
Qed.

(** ** Operations as a sequence *)

Inductive op :=
| OpPushFront (hd e : Z) | OpPushBack (hd e : Z) | OpPopFront (hd : Z) | OpErase (e : Z)
| OpClear (hd : Z) | OpSplice (hd other : Z) | OpForEachSafe (hd : Z) (fn : Z -> bool)
| OpFront (hd : Z) | OpBack (hd : Z) | OpEmpty (hd : Z).

Inductive resp := RBool (b : bool) | RPtr (p : Z) | RUnit.

Definition exec (h : heap) (o : op) : outcome (heap * resp) :=
  match o with
  | OpPushFront hd e => '(h, b) ← PushFront h hd e; Val (h, RBool b)
  | OpPushBack hd e => '(h, b) ← PushBack h hd e; Val (h, RBool b)
  | OpPopFront hd => '(h, p) ← PopFront h hd; Val (h, RPtr p)
  | OpErase e => '(h, b) ← Erase h e; Val (h, RBool b)
  | OpClear hd => h ← Clear h hd; Val (h, RUnit)
  | OpSplice hd other => h ← Splice h hd other; Val (h, RUnit)
  | OpForEachSafe hd fn => h ← ForEachSafe h hd fn; Val (h, RUnit)
  | OpFront hd => p ← Front h hd; Val (h, RPtr p)
  | OpBack hd => p ← Back h hd; Val (h, RPtr p)
  | OpEmpty hd => b ← Empty h hd; Val (h, RBool b)
  end.

(** The same operations on plain lists, keyed by sentinel. *)
Definition linked (ls : lists) (x : Z) : bool := bool_decide (map_Exists (fun _ l => x ∈ l) ls).

Definition seq_of (ls : lists) (hd : Z) : list Z := default [] (ls !! hd).

Definition spec (ls : lists) (o : op) : lists * resp :=
  match o with
  | OpPushFront hd e =>
      if (e =? nullptr) || linked ls e then (ls, RBool false)
      else (<[hd := e :: seq_of ls hd]> ls, RBool true)
  | OpPushBack hd e =>
      if (e =? nullptr) || linked ls e then (ls, RBool false)
      else (<[hd := seq_of ls hd ++ [e]]> ls, RBool true)
  | OpPopFront hd =>
      match seq_of ls hd with
      | [] => (ls, RPtr nullptr)
      | x :: l => (<[hd := l]> ls, RPtr x)
      end
  | OpErase e =>
      (List.filter (fun x => negb (x =? e)) <$> ls, RBool (linked ls e))
  | OpClear hd => (<[hd := []]> ls, RUnit)
  | OpSplice hd other =>
      if other =? hd then (ls, RUnit)
      else (<[hd := seq_of ls hd ++ seq_of ls other]> (<[other := []]> ls), RUnit)
  | OpForEachSafe hd fn =>
      (<[hd := List.filter (fun x => negb (fn x)) (seq_of ls hd)]> ls, RUnit)
  | OpFront hd => (ls, RPtr (default nullptr (head (seq_of ls hd))))
  | OpBack hd => (ls, RPtr (default nullptr (last (seq_of ls hd))))
  | OpEmpty hd => (ls, RBool (bool_decide (seq_of ls hd = [])))
  end.

(** The caller passes lists that exist and elements that are null or nodes. *)
Definition is_elem (nodes : gset Z) (ls : lists) (e : Z) : Prop :=
  e = nullptr \/ (e ∈ nodes /\ ls !! e = None).

Definition legal (nodes : gset Z) (ls : lists) (o : op) : Prop :=
  match o with
  | OpPushFront hd e | OpPushBack hd e => is_Some (ls !! hd) /\ is_elem nodes ls e
  | OpErase e => is_elem nodes ls e
  | OpPopFront hd | OpClear hd | OpForEachSafe hd _ | OpFront hd | OpBack hd | OpEmpty hd =>
      is_Some (ls !! hd)
  | OpSplice hd other => is_Some (ls !! hd) /\ is_Some (ls !! other)
  end.

Fixpoint exec_all (h : heap) (os : list op) : outcome (heap * list resp) :=
  match os with
  | [] => Val (h, [])
  | o :: os => '(h, r) ← exec h o; '(h, rs) ← exec_all h os; Val (h, r :: rs)
  end.

Fixpoint spec_all (ls : lists) (os : list op) : lists * list resp :=
  match os with
  | [] => (ls, [])
  | o :: os => let '(ls, r) := spec ls o in let '(ls, rs) := spec_all ls os in (ls, r :: rs)
  end.

Fixpoint legal_all (nodes : gset Z) (ls : lists) (os : list op) : Prop :=
  match os with
  | [] => True
  | o :: os => legal nodes ls o /\ legal_all nodes (fst (spec ls o)) os
  end.

(** *** The set of nodes never changes *)

Lemma set_next_dom h a p h' : set_next h a p = Val h' -> dom h' = dom h.
Proof.
  unfold set_next, load. destruct (h !! a) eqn:E; [|done]. intros [= <-].
  apply dom_insert_lookup_L. eauto.
Qed.

Lemma set_prev_dom h a p h' : set_prev h a p = Val h' -> dom h' = dom h.
Proof.
  unfold set_prev, load. destruct (h !! a) eqn:E; [|done]. intros [= <-].
  apply dom_insert_lookup_L. eauto.
Qed.

Lemma clear_hook_dom h a h' : clear_hook h a = Val h' -> dom h' = dom h.
Proof.
  unfold clear_hook, load. destruct (h !! a) eqn:E; [|done]. intros [= <-].
  apply dom_insert_lookup_L. eauto.
Qed.

Ltac dom_step :=
  outcome_inv;
  repeat match goal with
  | H : set_next _ _ _ = Val _ |- _ => apply set_next_dom in H
  | H : set_prev _ _ _ = Val _ |- _ => apply set_prev_dom in H
  | H : clear_hook _ _ = Val _ |- _ => apply clear_hook_dom in H
  end.

Lemma Unlink_dom h a h' : Unlink h a = Val h' -> dom h' = dom h.
Proof. unfold Unlink, SpliceOut. intros H. dom_step. congruence. Qed.

Lemma LinkBetween_dom h a b c h' : LinkBetween h a b c = Val h' -> dom h' = dom h.
Proof. unfold LinkBetween. intros H. dom_step. congruence. Qed.

Lemma clear_loop_dom fuel h hd c h' : clear_loop fuel h hd c = Val h' -> dom h' = dom h.
Proof.
  revert h c. induction fuel as [|fuel IH]; simpl; intros h c H; [done|].
  destruct (c =? hd); [congruence|]. dom_step.
  match goal with Hr : clear_loop _ _ _ _ = Val _ |- _ => apply IH in Hr end. congruence.
Qed.

Lemma remove_loop_dom fuel fn h hd c h' : remove_loop fuel fn h hd c = Val h' -> dom h' = dom h.
Proof.
  revert h c. induction fuel as [|fuel IH]; simpl; intros h c H; [done|].
  destruct (c =? hd); [congruence|]. destruct (fn c); dom_step;
    repeat match goal with
    | Hr : remove_loop _ _ _ _ _ = Val _ |- _ => apply IH in Hr
    | Hr : Unlink _ _ = Val _ |- _ => apply Unlink_dom in Hr
    end; congruence.
Qed.

Lemma exec_dom h o h' r : exec h o = Val (h', r) -> dom h' = dom h.
Proof.
  destruct o; simpl; unfold PushFront, PushBack, PopFront, Erase, Clear, Splice, ForEachSafe,
    RemoveIf, Reset; intros H;
  repeat match goal with
  | H : context [if ?b then _ else _] |- _ => destruct b
  | H : (let '(_, _) := ?x in _) = _ |- _ => destruct x
  | _ => progress dom_step
  | Hr : Unlink _ _ = Val _ |- _ => apply Unlink_dom in Hr
  | Hr : LinkBetween _ _ _ _ = Val _ |- _ => apply LinkBetween_dom in Hr
  | Hr : clear_loop _ _ _ _ = Val _ |- _ => apply clear_loop_dom in Hr
  | Hr : remove_loop _ _ _ _ _ = Val _ |- _ => apply remove_loop_dom in Hr
  | _ => progress simplify_eq
  end; congruence.
Qed.

(** *** Each operation does to the heap what it does to the lists *)

Lemma linked_true ls hd l x : ls !! hd = Some l -> x ∈ l -> linked ls x = true.
Proof. intros Hl Hx. apply bool_decide_eq_true_2. exists hd, l. auto. Qed.

Lemma linked_free h ls x : free h ls x -> linked ls x = false.
Proof.
  intros [_ Hf]. apply bool_decide_eq_false_2. intros (hd & l & Hl & Hx).
  apply (Hf hd l Hl). set_solver.
Qed.

Lemma seq_of_Some ls hd l : ls !! hd = Some l -> seq_of ls hd = l.
Proof. unfold seq_of. by intros ->. Qed.

Lemma is_elem_cases h ls e :
  holds h ls -> is_elem (dom h) ls e ->
  e = nullptr \/ (e <> nullptr /\ free h ls e /\ InList h e = Val false /\ linked ls e = false) \/
  (e <> nullptr /\ InList h e = Val true /\ linked ls e = true /\ exists hd l, ls !! hd = Some l /\ e ∈ l).
Proof.
  intros H [->|[Hd Hn]]; [by left|]. right. apply elem_of_dom in Hd.
  assert (e <> nullptr) as Hne by (intros ->; rewrite (holds_null _ _ H) in Hd; by destruct Hd).
  destruct (holds_InList _ _ _ H Hd Hn) as [[Hi Hf]|[Hi (hd & l & Hl & Hin)]]; [left|right].
  - eauto using linked_free.
  - split_and!; eauto using linked_true.
Qed.

Lemma filter_absent (e : Z) l : (e ∉ l) -> List.filter (fun x => negb (x =? e)) l = l.
Proof.
  induction l as [|x l IH]; simpl; intros Hl; [done|].
  rewrite (proj2 (Z.eqb_neq x e)) by set_solver. simpl. f_equal. apply IH. set_solver.
Qed.

Lemma remove_from_list (e : Z) l1 l2 :
  NoDup (l1 ++ e :: l2) -> List.filter (fun x => negb (x =? e)) (l1 ++ e :: l2) = l1 ++ l2.
Proof.
  intros HN. apply NoDup_app in HN as (_ & H12 & HN). apply NoDup_cons in HN as [He _].
  rewrite List.filter_app. simpl. rewrite Z.eqb_refl. simpl.
  rewrite !filter_absent; [done | done |]. intros Hin. apply (H12 e Hin). set_solver.
Qed.

Lemma erase_lists h ls hd l1 e l2 :
  holds h ls -> ls !! hd = Some (l1 ++ e :: l2) ->
  List.filter (fun x => negb (x =? e)) <$> ls = <[hd := l1 ++ l2]> ls.
Proof.
  intros H Hl. apply map_eq. intros hd2. rewrite lookup_fmap.
  destruct (decide (hd2 = hd)) as [->|Hne].
  - rewrite lookup_insert_eq, Hl. simpl. f_equal. apply remove_from_list.
    pose proof (holds_nodup _ _ H _ _ Hl) as HN. by apply NoDup_cons in HN as [_ ?].
  - rewrite lookup_insert_ne by done. destruct (ls !! hd2) as [l|] eqn:E; [|done]. simpl. f_equal.
    apply filter_absent. intros He.
    apply (holds_apart h ls hd2 hd l (l1 ++ e :: l2) e e); auto; set_solver.
Qed.

Lemma unlinked_erase ls e : linked ls e = false -> List.filter (fun x => negb (x =? e)) <$> ls = ls.
Proof.
  intros Hl. apply bool_decide_eq_false_1 in Hl. apply map_eq. intros hd. rewrite lookup_fmap.
  destruct (ls !! hd) as [l|] eqn:E; [|done]. simpl. f_equal.
  apply filter_absent. intros He. apply Hl. exists hd, l. auto.
Qed.

Lemma exec_push h ls hd e l (front : bool) :
  holds h ls -> ls !! hd = Some l -> is_elem (dom h) ls e ->
  let l' := if front then e :: l else l ++ [e] in
  exists h', (if front then PushFront h hd e else PushBack h hd e) =
    Val (h', negb ((e =? nullptr) || linked ls e)) /\
    holds h' (if (e =? nullptr) || linked ls e then ls else <[hd := l']> ls).
Proof.
  intros H Hl He l'. unfold PushFront, PushBack.
  destruct (is_elem_cases h ls e H He) as [->|[(Hne & Hf & -> & ->)|(Hne & -> & -> & _)]].
  - exists h. by destruct front.
  - apply Z.eqb_neq in Hne as ->. cbn [orb negb]. rewrite !bind_val.
    destruct (holds_head _ _ _ _ H Hl) as (n & Hld & _ & Hnx & Hpv). rewrite Hld, !bind_val.
    destruct front.
    + destruct (holds_insert h ls hd [] l e H Hl Hf) as (h' & Hrun & H').
      simpl in Hrun. rewrite Hnx, Hrun. exists h'. auto.
    + rewrite <- (app_nil_r l) in Hl.
      destruct (holds_insert h ls hd l [] e H Hl Hf) as (h' & Hrun & H').
      simpl in Hrun. rewrite Hpv, Hrun. exists h'. auto.
  - apply Z.eqb_neq in Hne as ->. exists h. by destruct front.
Qed.

Lemma exec_ok h ls o :
  holds h ls -> legal (dom h) ls o ->
  exists h', exec h o = Val (h', snd (spec ls o)) /\ holds h' (fst (spec ls o)).
Proof.
  intros H. destruct o as [hd e|hd e|hd|e|hd|hd other|hd fn|hd|hd|hd]; cbn [legal exec spec].
  1,2: intros [[l Hl] He]; rewrite (seq_of_Some _ _ _ Hl).
  - destruct (exec_push h ls hd e l true H Hl He) as (h' & -> & H'). exists h'.
    destruct ((e =? nullptr) || linked ls e); auto.
  - destruct (exec_push h ls hd e l false H Hl He) as (h' & -> & H'). exists h'.
    destruct ((e =? nullptr) || linked ls e); auto.
  - intros [l Hl]. rewrite (seq_of_Some _ _ _ Hl). unfold PopFront.
    rewrite (holds_Empty _ _ _ _ H Hl), bind_val. destruct l as [|x l].
    + exists h. auto.
    + destruct (holds_head _ _ _ _ H Hl) as (n & Hld & _ & Hnx & _). simpl in Hnx.
      destruct (holds_unlink _ _ _ [] x l H Hl) as (_ & h' & Hun & H').
      rewrite bool_decide_eq_false_2, Hld, bind_val, Hnx, Hun by done. exists h'. auto.
  - intros He. unfold Erase.
    destruct (is_elem_cases h ls e H He)
      as [->|[(Hne & Hf & -> & Hlk)|(Hne & -> & Hlk & hd & l & Hl & Hin)]].
    + assert (linked ls nullptr = false) as Hlk.
      { apply bool_decide_eq_false_2. intros (hd & l & Hl & Hin).
        eapply (holds_not_null h ls hd l nullptr); eauto. set_solver. }
      exists h. rewrite Hlk, (unlinked_erase _ _ Hlk). auto.
    + apply Z.eqb_neq in Hne as ->. exists h. rewrite Hlk, (unlinked_erase _ _ Hlk). auto.
    + apply Z.eqb_neq in Hne as ->. rewrite Hlk. apply list_elem_of_split in Hin as (l1 & l2 & ->).
      destruct (holds_unlink _ _ _ _ _ _ H Hl) as (_ & h' & Hun & H').
      rewrite bind_val. cbn [negb]. rewrite Hun. exists h'.
      rewrite (erase_lists _ _ _ _ _ _ H Hl). auto.
  - intros [l Hl]. destruct (holds_Clear _ _ _ _ H Hl) as (h' & -> & H' & _). exists h'. auto.
  - intros [[l1 H1] [l2 H2]]. rewrite (seq_of_Some _ _ _ H1), (seq_of_Some _ _ _ H2).
    destruct (other =? hd) eqn:E.
    + exists h. unfold Splice. rewrite E. auto.
    + apply Z.eqb_neq in E. destruct (holds_Splice h ls hd other l1 l2 H) as (h' & -> & H');
        auto. exists h'. auto.
  - intros [l Hl]. rewrite (seq_of_Some _ _ _ Hl). unfold ForEachSafe, RemoveIf.
    destruct (holds_head _ _ _ _ H Hl) as (n & Hld & _ & Hnx & _). rewrite Hld, bind_val, Hnx.
    pose proof (holds_length _ _ _ _ H Hl) as Hlen.
    destruct (remove_loop_ok fn hd l (S (size h)) h ls [] H Hl) as (h' & -> & H'); [lia|].
    exists h'. auto.
  - intros [l Hl]. rewrite (seq_of_Some _ _ _ Hl). unfold Front.
    rewrite (holds_Empty _ _ _ _ H Hl), bind_val.
    destruct (holds_head _ _ _ _ H Hl) as (n & Hld & _ & Hnx & _). exists h.
    destruct l; [auto|]. rewrite bool_decide_eq_false_2, Hld by done. simpl in *. rewrite Hnx. auto.
  - intros [l Hl]. rewrite (seq_of_Some _ _ _ Hl). unfold Back.
    rewrite (holds_Empty _ _ _ _ H Hl), bind_val.
    destruct (holds_head _ _ _ _ H Hl) as (n & Hld & _ & _ & Hpv). exists h.
    destruct l as [|x l]; [auto|]. rewrite bool_decide_eq_false_2, Hld by done. simpl mbind.
    rewrite Hpv. destruct (last (x :: l)) eqn:E; [auto|]. by apply last_None in E.
  - intros [l Hl]. rewrite (seq_of_Some _ _ _ Hl), (holds_Empty _ _ _ _ H Hl). exists h. auto.
Qed.

(** Any number of intrusive lists over one heap of nodes behave, under any
    sequence of pushes at either end, pops, erasures by element, clears, splices
    and filtering traversals, as plain sequences: every answer is the one the
    sequences give, no node pointer is ever followed to nothing, every walk ends,
    and afterwards the heap holds exactly the resulting sequences, with the hook
    of every other node reset. *)
Theorem intrusive_lists_refine_sequences h ls os :
  holds h ls -> legal_all (dom h) ls os ->
  exists h', exec_all h os = Val (h', snd (spec_all ls os)) /\
    holds h' (fst (spec_all ls os)) /\ dom h' = dom h.
Proof.
  revert h ls. induction os as [|o os IH]; intros h ls H; simpl.
  - intros _. eauto.
  - intros [Ho Hos]. destruct (exec_ok h ls o H Ho) as (h1 & Hrun & H1).
    pose proof (exec_dom _ _ _ _ Hrun) as Hdom. rewrite <- Hdom in Hos.
    destruct (IH h1 _ H1 Hos) as (h' & Hrun' & H' & Hd').
    rewrite Hrun, bind_val. destruct (spec ls o) as [ls1 r]. simpl in *.
    rewrite Hrun'. destruct (spec_all ls1 os) as [ls2 rs]. simpl in *.
    exists h'. split_and!; [done | done | congruence].
Qed.

(** Two empty lists (sentinels 8 and 16) and three unlinked nodes. *)
Definition example_heap : heap :=
  <[8 := mkNode 8 8]> (<[16 := mkNode 16 16]> (<[24 := mkNode 0 0]>
    (<[32 := mkNode 0 0]> (<[40 := mkNode 0 0]> ∅)))).

Definition example_lists : lists := <[8 := []]> (<[16 := []]> ∅).

Lemma example_holds : holds example_heap example_lists.
Proof.
  unfold example_lists. split.
  - intros hd l [[<- <-]|[_ [[<- <-]|[_ ?]]%lookup_insert_Some]]%lookup_insert_Some;
      [done | done | by simplify_map_eq].
  - intros hd l [[<- <-]|[_ [[<- <-]|[_ ?]]%lookup_insert_Some]]%lookup_insert_Some;
      [apply NoDup_singleton | apply NoDup_singleton | by simplify_map_eq].
  - intros hd1 hd2 l1 l2 x
      [[<- <-]|[_ [[<- <-]|[_ ?]]%lookup_insert_Some]]%lookup_insert_Some
      [[<- <-]|[_ [[<- <-]|[_ ?]]%lookup_insert_Some]]%lookup_insert_Some; by set_solver.
  - intros x [[n Hn] Hf]. rewrite Hn. unfold example_heap in Hn.
    apply lookup_insert_Some in Hn as [[<- <-]|[_ Hn]].
    { exfalso. apply (Hf 8 []); [done | set_solver]. }
    apply lookup_insert_Some in Hn as [[<- <-]|[_ Hn]].
    { exfalso. apply (Hf 16 []); [done | set_solver]. }
    repeat (apply lookup_insert_Some in Hn as [[<- <-]|[_ Hn]]; [done|]). by simplify_map_eq.
  - done.
Qed.

(** Two pushes and a splice over the example heap; 24 is already linked at the
    second attempt. *)
Lemma intrusive_lists_refine_sequences_witness :
  exists h', exec_all example_heap
    [OpPushBack 8 24; OpPushFront 8 32; OpPushBack 16 24; OpPushBack 16 40; OpSplice 8 16;
     OpErase 24; OpPopFront 8; OpFront 8] =
    Val (h', [RBool true; RBool true; RBool false; RBool true; RUnit; RBool true; RPtr 32; RPtr 40]) /\
    holds h' (<[8 := [40]]> (<[16 := []]> ∅)).
Proof.
  destruct (intrusive_lists_refine_sequences example_heap example_lists
    [OpPushBack 8 24; OpPushFront 8 32; OpPushBack 16 24; OpPushBack 16 40; OpSplice 8 16;
     OpErase 24; OpPopFront 8; OpFront 8] example_holds) as (h' & Hrun & H' & _).
  - unfold legal_all, legal, is_elem.
    repeat (apply conj || (exists []; reflexivity) || (vm_compute; by eauto)).
    all: try (right; split; [apply elem_of_dom; vm_compute; by eauto | reflexivity]).
  - exists h'. split; [exact Hrun|].
    assert (fst (spec_all example_lists
      [OpPushBack 8 24; OpPushFront 8 32; OpPushBack 16 24; OpPushBack 16 40; OpSplice 8 16;
       OpErase 24; OpPopFront 8; OpFront 8]) = <[8 := [40]]> (<[16 := []]> ∅)) as <-
      by (vm_compute; reflexivity).
    exact H'.
Defined.

End IntrusiveList.
