(* ===== verification/IntrusiveQueue.v ===== *)
(** * The intrusive FIFO queue (include/alyrn/detail/intrusive_queue.h)

    A queue node is one [next_] pointer. The heap maps node addresses, sentinels
    included, to that pointer; the field [tail_] of a queue is kept beside the
    heap under the address of the queue's sentinel. Address 0 is [nullptr], and
    following a pointer to no node is a [Panic]. Waiter queues, ready queues and
    the loops' submission queues are built on this container; the components that
    use it model it as the list this file shows it to be. *)

From S2P Require Import Prelude.

Module IntrusiveQueue.

Definition nullptr : Z := 0.

Record store := mkStore {
  hooks : gmap Z Z;   (* next_ of every node *)
  tails : gmap Z Z;   (* tail_ of every queue, by the address of its head_ *)
}.

Definition next (s : store) (a : Z) : outcome Z :=
  match hooks s !! a with Some n => Val n | None => Panic end.

Definition set_next (s : store) (a n : Z) : outcome store :=
  next s a;; Val (mkStore (<[a := n]> (hooks s)) (tails s)).

Definition tail_ (s : store) (q : Z) : outcome Z :=
  match tails s !! q with Some t => Val t | None => Panic end.

Definition set_tail (s : store) (q t : Z) : store := mkStore (hooks s) (<[q := t]> (tails s)).

Definition InQueue (s : store) (a : Z) : outcome bool :=
  n ← next s a; Val (negb (n =? nullptr)).

Definition clear_hook (s : store) (a : Z) : outcome store := set_next s a nullptr.

Definition Reset (s : store) (q : Z) : outcome store :=
  s ← set_next s q q; Val (set_tail s q q).

Definition Empty (s : store) (q : Z) : outcome bool := n ← next s q; Val (n =? q).

Definition Front (s : store) (q : Z) : outcome Z :=
  e ← Empty s q; if (e : bool) then Val nullptr else next s q.

Definition PushBack (s : store) (q elem : Z) : outcome (store * bool) :=
  if elem =? nullptr then Val (s, false) else
  linked ← InQueue s elem;
  if (linked : bool) then Val (s, false) else
  t ← tail_ s q;
  s ← set_next s t elem;
  s ← set_next s elem q;
  Val (set_tail s q elem, true).

Definition PopFront (s : store) (q : Z) : outcome (store * Z) :=
  node ← next s q;
  if node =? q then Val (s, nullptr) else
  nxt ← next s node;
  s ← set_next s q nxt;
  s ← clear_hook s node;
  let s := if nxt =? q then set_tail s q q else s in
  Val (s, node).

Fixpoint clear_loop (fuel : nat) (s : store) (q cur : Z) : outcome store :=
  match fuel with
  | O => Panic
  | S fuel =>
      if cur =? q then Val s else
      nxt ← next s cur;
      s ← clear_hook s cur;
      clear_loop fuel s q nxt
  end.

Definition Clear (s : store) (q : Z) : outcome store :=
  first ← next s q;
  s ← clear_loop (S (size (hooks s))) s q first;
  Reset s q.

Definition Splice (s : store) (q other : Z) : outcome store :=
  if other =? q then Val s else
  e ← Empty s other;
  if (e : bool) then Val s else
  first ← next s other;
  lst ← tail_ s other;
  t ← tail_ s q;
  s ← set_next s t first;
  s ← set_next s lst q;
  Reset (set_tail s q lst) other.

Fixpoint foreach_loop (fuel : nat) (fn : Z -> bool) (s : store) (q prev cur : Z) : outcome store :=
  match fuel with
  | O => Panic
  | S fuel =>
      if cur =? q then Val s else
      nxt ← next s cur;
      if fn cur then
        s ← set_next s prev nxt;
        t ← tail_ s q;
        s ← clear_hook (if t =? cur then set_tail s q prev else s) cur;
        foreach_loop fuel fn s q prev nxt
      else foreach_loop fuel fn s q cur nxt
  end.

Definition ForEachSafe (s : store) (q : Z) (fn : Z -> bool) : outcome store :=
  first ← next s q;
  foreach_loop (S (size (hooks s))) fn s q q first.

(** ** Queues in the store *)

Fixpoint seg (h : gmap Z Z) (a : Z) (l : list Z) (b : Z) : Prop :=
  match l with
  | [] => h !! a = Some b
  | x :: l => h !! a = Some x /\ seg h x l b
  end.

Abbreviation queues := (gmap Z (list Z)).

Definition free (s : store) (qs : queues) (x : Z) : Prop :=
  is_Some (hooks s !! x) /\ forall q l, qs !! q = Some l -> x ∉ q :: l.

Definition tail_of (q : Z) (l : list Z) : Z := default q (last l).

Record holds (s : store) (qs : queues) : Prop := {
  holds_seg : forall q l, qs !! q = Some l -> seg (hooks s) q l q;
  holds_tail : forall q l, qs !! q = Some l -> tails s !! q = Some (tail_of q l);
  holds_nodup : forall q l, qs !! q = Some l -> NoDup (q :: l);
  holds_disjoint : forall q1 q2 l1 l2 x, qs !! q1 = Some l1 -> qs !! q2 = Some l2 ->
    x ∈ q1 :: l1 -> x ∈ q2 :: l2 -> q1 = q2;
  holds_free : forall x, free s qs x -> hooks s !! x = Some nullptr;
  holds_null : hooks s !! nullptr = None;
}.

Lemma seg_app h a l1 l2 b :
  seg h a (l1 ++ l2) b <-> seg h a l1 (default b (head l2)) /\
    match l2 with [] => True | x :: l2 => seg h x l2 b end.
Proof.
  revert a. induction l1 as [|y l1 IH]; intros a; simpl.
  - destruct l2; simpl; tauto.
  - rewrite IH. tauto.
Qed.

Lemma seg_agree h h' a l b :
  (forall x, x ∈ a :: l -> h' !! x = h !! x) -> seg h a l b -> seg h' a l b.
Proof.
  revert a. induction l as [|y l IH]; intros a Hag; simpl; rewrite Hag by set_solver; [done|].
  intros [? ?]. split; [done|]. apply IH; [set_solver | done].
Qed.

Lemma tail_in q l : tail_of q l ∈ q :: l.
Proof.
  unfold tail_of. destruct l as [|y l] using rev_ind; simpl; [set_solver|].
  rewrite last_snoc. set_solver.
Qed.

Lemma tail_of_cons a x l : tail_of a (x :: l) = tail_of x l.
Proof. unfold tail_of. rewrite last_cons. by destruct (last l). Qed.

(** Redirecting the last pointer of a segment. *)
Lemma seg_redirect h a l b c :
  NoDup (a :: l) -> seg h a l b -> seg (<[tail_of a l := c]> h) a l c.
Proof.
  revert a. induction l as [|y l IH]; intros a HN; cbn [seg].
  - intros _. apply lookup_insert_eq.
  - intros [Ha Hl]. apply NoDup_cons in HN as [Hna HN].
    rewrite tail_of_cons. split; [|by apply IH].
    rewrite lookup_insert_ne; [done|]. intros <-. by apply Hna, tail_in.
Qed.

Lemma seg_dom h a l b x : seg h a l b -> x ∈ a :: l -> is_Some (h !! x).
Proof.
  revert a. induction l as [|y l IH]; intros a; simpl.
  - intros Ha Hx. replace x with a by set_solver. eauto.
  - intros [Ha Hl] [->|Hx]%elem_of_cons; eauto.
Qed.

Lemma seg_first h q l : seg h q l q -> h !! q = Some (default q (head l)).
Proof. destruct l; simpl; tauto. Qed.

Lemma queue_holds_length s qs q l : holds s qs -> qs !! q = Some l -> (length l < size (hooks s))%nat.
Proof.
  intros H Hl.
  assert (list_to_set (C := gset Z) (q :: l) ⊆ dom (hooks s)) as Hsub.
  { intros x Hx. apply elem_of_list_to_set in Hx. apply elem_of_dom.
    eapply seg_dom; [by eapply holds_seg | done]. }
  apply subseteq_size in Hsub.
  rewrite size_list_to_set, size_dom in Hsub by (by eapply holds_nodup). simpl in Hsub. lia.
Qed.

Lemma queue_holds_apart s qs q1 q2 l1 l2 x y :
  holds s qs -> q1 <> q2 -> qs !! q1 = Some l1 -> qs !! q2 = Some l2 ->
  x ∈ q1 :: l1 -> y ∈ q2 :: l2 -> x <> y.
Proof. intros H Hne H1 H2 Hx Hy ->. apply Hne. by eapply (holds_disjoint s qs). Qed.

(** Changing one queue, and the nodes that enter or leave it, keeps the rest. *)
Lemma queue_holds_update s s' qs q l l' :
  holds s qs -> qs !! q = Some l ->
  seg (hooks s') q l' q -> NoDup (q :: l') -> tails s' = <[q := tail_of q l']> (tails s) ->
  (forall x, x ∈ l' -> x ∈ l \/ free s qs x) ->
  (forall x, x ∉ q :: l -> x ∉ l' -> hooks s' !! x = hooks s !! x) ->
  (forall x, x ∈ l -> x ∉ l' -> hooks s' !! x = Some nullptr) ->
  holds s' (<[q := l']> qs).
Proof.
  intros H Hl HL HN Ht Hin Hout Hgone.
  assert (forall q2 l2 x, q2 <> q -> qs !! q2 = Some l2 -> x ∈ q2 :: l2 ->
    (x ∉ q :: l) /\ (x ∉ l')) as Hoth.
  { intros q2 l2 x Hne Hl2 Hx. split.
    - intros Hx2. by eapply (queue_holds_apart s qs q2 q l2 l x x).
    - intros Hx2. apply Hin in Hx2 as [Hx2|[_ Hf]]; [|by apply (Hf _ _ Hl2)].
      eapply (queue_holds_apart s qs q2 q l2 l x x); eauto. set_solver. }
  assert (forall x, is_Some (hooks s !! x) -> x <> nullptr) as Hnn.
  { intros x [? Hx] ->. by rewrite (holds_null _ _ H) in Hx. }
  split.
  - intros q2 l2 [[-> ->]|[Hne Hl2]]%lookup_insert_Some; [done|].
    eapply seg_agree; [|by eapply holds_seg]. intros x Hx. destruct (Hoth q2 l2 x); auto.
  - intros q2 l2 [[-> ->]|[Hne Hl2]]%lookup_insert_Some; rewrite Ht.
    + apply lookup_insert_eq.
    + rewrite lookup_insert_ne by done. by eapply holds_tail.
  - intros q2 l2 [[-> ->]|[Hne Hl2]]%lookup_insert_Some; [done|]. by eapply holds_nodup.
  - intros q1 q2 l1 l2 x [[? ?]|[Hne1 H1]]%lookup_insert_Some
      [[? ?]|[Hne2 H2]]%lookup_insert_Some Hx1 Hx2; subst.
    + done.
    + destruct (Hoth q2 l2 x) as [? ?]; auto. set_solver.
    + destruct (Hoth q1 l1 x) as [? ?]; auto. set_solver.
    + by eapply (holds_disjoint s qs).
  - intros x [Hd Hx]. assert (x ∉ q :: l') as Hx' by (apply (Hx q), lookup_insert_eq).
    destruct (decide (x ∈ l)) as [Hxl|Hxl]; [set_solver|].
    rewrite Hout in * by set_solver. apply (holds_free _ _ H). split; [done|].
    intros q2 l2 Hl2. destruct (decide (q2 = q)) as [->|Hne]; [set_solver|].
    apply (Hx q2 l2). by rewrite lookup_insert_ne.
  - rewrite Hout; [apply (holds_null _ _ H) | |].
    + intros Hx. apply (Hnn nullptr); [|done]. eapply seg_dom; [by eapply holds_seg | done].
    + intros Hx. apply (Hnn nullptr); [|done]. apply Hin in Hx as [Hx|[? _]]; [|done].
      eapply seg_dom; [by eapply holds_seg | set_solver].
Qed.

(** ** The operations on queues *)

Lemma next_ok s a n : hooks s !! a = Some n -> next s a = Val n.
Proof. unfold next. by intros ->. Qed.

Lemma queue_set_next_ok s a n :
  is_Some (hooks s !! a) -> set_next s a n = Val (mkStore (<[a := n]> (hooks s)) (tails s)).
Proof. intros [m Hm]. unfold set_next, next. by rewrite Hm. Qed.

Lemma queue_holds_Empty s qs q l : holds s qs -> qs !! q = Some l -> Empty s q = Val (bool_decide (l = [])).
Proof.
  intros H Hl. pose proof (seg_first _ _ _ (holds_seg _ _ H _ _ Hl)) as Hn.
  unfold Empty. rewrite (next_ok _ _ _ Hn), bind_val. f_equal. destruct l as [|x l].
  - rewrite bool_decide_eq_true_2 by done. apply Z.eqb_refl.
  - rewrite bool_decide_eq_false_2 by done. simpl. apply Z.eqb_neq.
    pose proof (holds_nodup _ _ H _ _ Hl) as HN. apply NoDup_cons in HN. set_solver.
Qed.

Lemma queue_holds_not_null s qs q l x : holds s qs -> qs !! q = Some l -> x ∈ q :: l -> x <> nullptr.
Proof.
  intros H Hl Hx ->. destruct (seg_dom (hooks s) q l q nullptr) as [? Hn];
    [by eapply holds_seg | done |]. by rewrite (holds_null _ _ H) in Hn.
Qed.

Lemma holds_InQueue s qs x :
  holds s qs -> is_Some (hooks s !! x) -> qs !! x = None ->
  (InQueue s x = Val false /\ free s qs x) \/
  (InQueue s x = Val true /\ exists q l, qs !! q = Some l /\ x ∈ l).
Proof.
  intros H Hd Hx. unfold InQueue.
  destruct (decide (map_Exists (fun _ l => x ∈ l) qs)) as [(q & l & Hl & Hin)|Hno].
  - right. split; [|eauto]. pose proof (holds_seg _ _ H _ _ Hl) as HL.
    apply list_elem_of_split in Hin as (l1 & l2 & ->). apply seg_app in HL as [_ HL].
    pose proof HL as Hn. apply (seg_app (hooks s) x [] l2 q) in Hn as [Hn _]. simpl in Hn.
    rewrite (next_ok _ _ _ Hn), bind_val.
    rewrite (proj2 (Z.eqb_neq _ nullptr)); [done|].
    eapply queue_holds_not_null; [done | exact Hl |]. destruct l2; simpl; set_solver.
  - left. assert (free s qs x) as Hf.
    { split; [done|]. intros q l Hl [->|Hin]%elem_of_cons; [congruence|].
      apply Hno. exists q, l. auto. }
    split; [|done]. by rewrite (next_ok _ _ _ (holds_free _ _ H _ Hf)).
Qed.

Lemma holds_push s qs q l e :
  holds s qs -> qs !! q = Some l -> free s qs e -> e <> nullptr -> InQueue s e = Val false ->
  exists s', PushBack s q e = Val (s', true) /\ holds s' (<[q := l ++ [e]]> qs).
Proof.
  intros H Hl Hfree Hne Hiq. pose proof Hfree as [Hed Hef].
  pose proof (holds_seg _ _ H _ _ Hl) as HL. pose proof (holds_nodup _ _ H _ _ Hl) as HN.
  pose proof (Hef _ _ Hl) as He. pose proof (tail_in q l) as Ht.
  assert (tail_of q l <> e) as Hte by (intros <-; done).
  unfold PushBack. rewrite (proj2 (Z.eqb_neq e nullptr)) by done. rewrite Hiq, bind_val.
  unfold tail_. rewrite (holds_tail _ _ H _ _ Hl), bind_val.
  rewrite queue_set_next_ok, bind_val by (by eapply seg_dom).
  rewrite queue_set_next_ok, bind_val; simpl hooks; [|by rewrite lookup_insert_ne].
  eexists. split; [reflexivity|].
  eapply queue_holds_update; [exact H | exact Hl | | | | | |].
  - simpl hooks. apply seg_app. simpl. split.
    + eapply seg_agree; [|eapply seg_redirect; eauto].
      intros x Hx. apply lookup_insert_ne. intros ->. done.
    + apply lookup_insert_eq.
  - rewrite app_comm_cons. apply NoDup_app. split_and!; [done | set_solver | apply NoDup_singleton].
  - simpl. unfold tail_of. by rewrite last_snoc.
  - intros x [Hx| ->%list_elem_of_singleton]%elem_of_app; auto.
  - intros x Hx1 Hx2. simpl. rewrite !lookup_insert_ne; [done | set_solver | set_solver].
  - intros x Hx1 Hx2. set_solver.
Qed.

Lemma tail_app q l1 l2 : tail_of q (l1 ++ l2) = tail_of (tail_of q l1) l2.
Proof.
  revert q. induction l1 as [|y l1 IH]; intros q; simpl; [done|]. by rewrite !tail_of_cons, IH.
Qed.

(** Unlinking an element behind its predecessor. *)
Lemma holds_remove s qs q l1 x l2 :
  holds s qs -> qs !! q = Some (l1 ++ x :: l2) ->
  let nxt := default q (head l2) in
  hooks s !! x = Some nxt /\
  hooks s !! tail_of q l1 = Some x /\
  holds (mkStore (<[x := nullptr]> (<[tail_of q l1 := nxt]> (hooks s)))
           (<[q := tail_of q (l1 ++ l2)]> (tails s))) (<[q := l1 ++ l2]> qs).
Proof.
  intros H Hl nxt. pose proof (holds_seg _ _ H _ _ Hl) as HL.
  pose proof (holds_nodup _ _ H _ _ Hl) as HN.
  assert (NoDup (q :: l1 ++ l2) /\ (x ∉ q :: l1 ++ l2)) as [HN' Hx].
  { rewrite app_comm_cons in HN. rewrite <- Permutation_middle in HN.
    apply NoDup_cons in HN as [? ?]. auto. }
  assert (NoDup (q :: l1)) as HN1.
  { rewrite app_comm_cons in HN'. apply NoDup_app in HN' as (? & _ & _). done. }
  assert (forall y, y ∈ l2 -> y ∉ q :: l1) as H12.
  { rewrite app_comm_cons in HN'. apply NoDup_app in HN' as (_ & HD & _). intros y Hy Hy'.
    by apply (HD y). }
  pose proof (tail_in q l1) as Ht.
  apply seg_app in HL as [L1 L2]. simpl in L1.
  pose proof L2 as L3. apply (seg_app (hooks s) x [] l2 q) in L3 as [L3 L4]. simpl in L3.
  split_and!; [done | |].
  { clear -L1. revert q L1. induction l1 as [|y l1 IH]; intros q; [done|].
    intros [_ L]. rewrite tail_of_cons. by apply IH. }
  eapply queue_holds_update; [exact H | exact Hl | | done | done | | |]; simpl hooks.
  - apply seg_app. split.
    + eapply seg_agree; [|eapply seg_redirect; [done | exact L1]].
      intros y Hy. apply lookup_insert_ne. set_solver.
    + destruct l2 as [|z l2]; [done|]. eapply seg_agree; [|exact L4].
      intros y Hy. rewrite !lookup_insert_ne; [done | | set_solver].
      intros <-. by apply (H12 (tail_of q l1)).
  - intros y Hy. left. set_solver.
  - intros y Hy1 Hy2. rewrite !lookup_insert_ne; [done | set_solver | set_solver].
  - intros y Hy1 Hy2. assert (y = x) as -> by set_solver. apply lookup_insert_eq.
Qed.

Lemma head_tail_nil (q : Z) (l : list Z) : NoDup (q :: l) -> default q (head l) = q -> l = [].
Proof. destruct l; simpl; [done|]. intros HN ->. apply NoDup_cons in HN. set_solver. Qed.

Lemma holds_pop s qs q x l :
  holds s qs -> qs !! q = Some (x :: l) ->
  exists s', PopFront s q = Val (s', x) /\ holds s' (<[q := l]> qs).
Proof.
  intros H Hl. destruct (holds_remove s qs q [] x l H Hl) as (Hn & Hq & H').
  cbn [app] in H'. change (tail_of q []) with q in *. pose proof (holds_nodup _ _ H _ _ Hl) as HN.
  unfold PopFront. rewrite (next_ok _ _ _ Hq), bind_val.
  assert (x <> q) as Hxq by (apply NoDup_cons in HN; set_solver).
  rewrite (proj2 (Z.eqb_neq x q)) by done. rewrite (next_ok _ _ _ Hn), bind_val.
  rewrite queue_set_next_ok, bind_val by eauto. unfold clear_hook.
  rewrite queue_set_next_ok, bind_val; simpl hooks; [|rewrite lookup_insert_ne; eauto].
  eexists. split; [reflexivity|].
  assert (NoDup (q :: l)) as HN' by (apply NoDup_cons in HN as [? HN]; apply NoDup_cons in HN;
    apply NoDup_cons; set_solver).
  destruct (default q (head l) =? q) eqn:E.
  - apply Z.eqb_eq in E. apply head_tail_nil in E; [|done]. subst l. exact H'.
  - apply Z.eqb_neq in E. rewrite (insert_id (tails s)) in H'; [exact H'|].
    rewrite (holds_tail _ _ H _ _ Hl). f_equal. rewrite tail_of_cons.
    destruct l as [|y l]; [done|]. by rewrite !tail_of_cons.
Qed.

Lemma foreach_loop_ok fn q todo : forall fuel s qs kept,
  holds s qs -> qs !! q = Some (kept ++ todo) -> (length todo < fuel)%nat ->
  exists s', foreach_loop fuel fn s q (tail_of q kept) (default q (head todo)) = Val s' /\
    holds s' (<[q := kept ++ List.filter (fun x => negb (fn x)) todo]> qs).
Proof.
  induction todo as [|x todo IH]; intros fuel s qs kept H Hl Hf;
    (destruct fuel as [|fuel]; [simpl in Hf; lia|]).
  - exists s. simpl. rewrite Z.eqb_refl. split; [done|]. by rewrite insert_id.
  - destruct (holds_remove _ _ _ _ _ _ H Hl) as (Hn & Hp & H').
    pose proof (holds_nodup _ _ H _ _ Hl) as HN.
    assert (q <> x) as Hne by (apply NoDup_cons in HN; set_solver).
    pose proof (holds_tail _ _ H _ _ Hl) as Ht. rewrite tail_app, tail_of_cons in Ht.
    cbn [foreach_loop head default from_option id option_map].
    change (default q (Some x)) with x.
    rewrite (proj2 (Z.eqb_neq x q)) by done. rewrite (next_ok _ _ _ Hn), bind_val.
    simpl List.filter. destruct (fn x) eqn:Hfn; cbn [negb].
    + rewrite queue_set_next_ok, bind_val by eauto. unfold tail_ at 1. simpl tails. rewrite Ht, bind_val.
      assert (is_Some (<[tail_of q kept := default q (head todo)]> (hooks s) !! x)) as Hx.
      { destruct (decide (tail_of q kept = x)) as [->|?];
          [rewrite lookup_insert_eq | rewrite lookup_insert_ne by done]; eauto. }
      unfold clear_hook. rewrite queue_set_next_ok, bind_val by (by destruct (_ =? _)).
      destruct (IH fuel (mkStore (<[x := nullptr]> (<[tail_of q kept := default q (head todo)]> (hooks s)))
        (<[q := tail_of q (kept ++ todo)]> (tails s))) (<[q := kept ++ todo]> qs) kept)
        as (s' & Hrun & Hs'); [done | apply lookup_insert_eq | simpl in Hf; lia |].
      exists s'. rewrite insert_insert_eq in Hs'. split; [|done]. rewrite <- Hrun.
      f_equal. f_equal; [by destruct (_ =? _)|]. destruct (tail_of x todo =? x) eqn:E; simpl.
      * apply Z.eqb_eq in E. rewrite app_comm_cons in HN.
        apply NoDup_app in HN as (_ & _ & HN). destruct todo as [|z todo].
        { by rewrite app_nil_r. }
        rewrite tail_of_cons in E. pose proof (tail_in z todo). rewrite E in *.
        apply NoDup_cons in HN. set_solver.
      * apply Z.eqb_neq in E. rewrite tail_app. destruct todo as [|z todo]; [done|].
        rewrite !tail_of_cons in *. by rewrite insert_id.
    + destruct (IH fuel s qs (kept ++ [x])) as (s' & Hrun & Hs').
      { done. } { by rewrite <- app_assoc. } { simpl in Hf. lia. }
      exists s'. rewrite tail_app in Hrun. split; [done|]. by rewrite <- app_assoc in Hs'.
Qed.

Lemma queue_clear_loop_ok q l : forall fuel s cur,
  seg (hooks s) cur l q -> NoDup (cur :: l) -> (q ∉ cur :: l) -> (S (length l) < fuel)%nat ->
  exists h', clear_loop fuel s q cur = Val (mkStore h' (tails s)) /\
    (forall x, x ∈ cur :: l -> h' !! x = Some nullptr) /\
    (forall x, x ∉ cur :: l -> h' !! x = hooks s !! x).
Proof.
  induction l as [|y l IH]; intros fuel s cur HL HN Hq Hf;
    (destruct fuel as [|fuel]; [simpl in Hf; lia|]); cbn [clear_loop seg] in *;
    rewrite (proj2 (Z.eqb_neq cur q)) by set_solver.
  - rewrite (next_ok _ _ _ HL), bind_val. unfold clear_hook. rewrite queue_set_next_ok, bind_val by eauto.
    destruct fuel; [simpl in Hf; lia|]. cbn [clear_loop]. rewrite Z.eqb_refl.
    eexists. split; [reflexivity|]. split; intros x Hx.
    + replace x with cur by set_solver. apply lookup_insert_eq.
    + apply lookup_insert_ne. set_solver.
  - destruct HL as [Hc HL]. rewrite (next_ok _ _ _ Hc), bind_val. unfold clear_hook.
    rewrite queue_set_next_ok, bind_val by eauto. apply NoDup_cons in HN as [HcN HN].
    destruct (IH fuel (mkStore (<[cur := nullptr]> (hooks s)) (tails s)) y) as (h' & Hrun & Hin & Hout);
      [ | done | set_solver | simpl in Hf; lia |].
    { eapply seg_agree; [|exact HL]. intros x Hx. apply lookup_insert_ne. set_solver. }
    exists h'. rewrite Hrun. split_and!; [done | |].
    + intros x [->|Hx]%elem_of_cons; [|by apply Hin]. rewrite Hout by done. apply lookup_insert_eq.
    + intros x Hx. rewrite Hout by set_solver. apply lookup_insert_ne. set_solver.
Qed.

Lemma queue_holds_Clear s qs q l :
  holds s qs -> qs !! q = Some l ->
  exists s', Clear s q = Val s' /\ holds s' (<[q := []]> qs) /\
    hooks s' !! q = Some q /\ (forall x, x ∈ l -> hooks s' !! x = Some nullptr) /\
    (forall x, x ∉ q :: l -> hooks s' !! x = hooks s !! x) /\
    tails s' = <[q := q]> (tails s).
Proof.
  intros H Hl. pose proof (holds_nodup _ _ H _ _ Hl) as HN.
  pose proof (holds_seg _ _ H _ _ Hl) as HL. pose proof (queue_holds_length _ _ _ _ H Hl) as Hlen.
  pose proof (seg_first _ _ _ HL) as Hq. apply NoDup_cons in HN as [Hhd HN].
  assert (exists h1, clear_loop (S (size (hooks s))) s q (default q (head l)) =
    Val (mkStore h1 (tails s)) /\ (forall x, x ∈ l -> h1 !! x = Some nullptr) /\
    (forall x, x ∉ l -> h1 !! x = hooks s !! x)) as (h1 & Hrun & Hin & Hout).
  { destruct l as [|x l].
    - exists (hooks s). simpl. rewrite Z.eqb_refl. split_and!; [by destruct s | set_solver | done].
    - destruct HL as [_ HL]. apply queue_clear_loop_ok; auto. }
  unfold Clear. rewrite (next_ok _ _ _ Hq), bind_val, Hrun, bind_val. unfold Reset.
  rewrite queue_set_next_ok, bind_val by (simpl; rewrite Hout by done; eauto).
  eexists. split; [reflexivity|]. simpl. split_and!.
  - eapply queue_holds_update; [exact H | exact Hl | | | | | |]; simpl.
    + apply lookup_insert_eq.
    + apply NoDup_singleton.
    + done.
    + set_solver.
    + intros x Hx _. rewrite lookup_insert_ne by set_solver. apply Hout. set_solver.
    + intros x Hx _. rewrite lookup_insert_ne by set_solver. by apply Hin.
  - apply lookup_insert_eq.
  - intros x Hx. rewrite lookup_insert_ne by set_solver. by apply Hin.
  - intros x Hx. rewrite lookup_insert_ne by set_solver. apply Hout. set_solver.
  - done.
Qed.

Lemma queue_holds_Splice s qs q other l1 l2 :
  holds s qs -> q <> other -> qs !! q = Some l1 -> qs !! other = Some l2 ->
  exists s', Splice s q other = Val s' /\ holds s' (<[q := l1 ++ l2]> (<[other := []]> qs)).
Proof.
  intros H Hne H1 H2. pose proof (queue_holds_Empty _ _ _ _ H H2) as HE.
  unfold Splice. rewrite (proj2 (Z.eqb_neq other q)) by done. rewrite HE, bind_val.
  destruct l2 as [|f l].
  { exists s. split; [done|]. rewrite app_nil_r, (insert_id _ other), insert_id; done. }
  rewrite bool_decide_eq_false_2 by done.
  pose proof (holds_seg _ _ H _ _ H1) as HL1. pose proof (holds_seg _ _ H _ _ H2) as HL2.
  pose proof (holds_nodup _ _ H _ _ H1) as HN1. pose proof (holds_nodup _ _ H _ _ H2) as HN2.
  assert (forall x y, x ∈ q :: l1 -> y ∈ other :: f :: l -> x <> y) as D
    by (intros x y; by eapply queue_holds_apart).
  pose proof (tail_in q l1) as Tin. pose proof (tail_in f l) as Lin.
  destruct HL2 as [Ho HL2]. rewrite (next_ok _ _ _ Ho), bind_val.
  unfold tail_. rewrite (holds_tail _ _ H _ _ H1), (holds_tail _ _ H _ _ H2), !bind_val, tail_of_cons.
  rewrite queue_set_next_ok, bind_val by (eapply seg_dom; [exact HL1 | exact Tin]).
  assert (tail_of q l1 <> tail_of f l) as Htl by (apply D; set_solver).
  rewrite queue_set_next_ok, bind_val; simpl hooks;
    [|rewrite lookup_insert_ne by done; eapply seg_dom; [exact HL2 | exact Lin]].
  unfold Reset, set_tail. apply NoDup_cons in HN2 as [Hof HN2].
  assert (tail_of f l <> other) as Hlo by (intros E; by rewrite E in Lin).
  assert (tail_of q l1 <> other) as Hto by (apply D; set_solver).
  rewrite queue_set_next_ok, bind_val; simpl;
    [|rewrite !lookup_insert_ne by done; eauto].
  eexists. split; [reflexivity|].
  destruct (queue_holds_Clear _ _ _ _ H H2) as (sm & _ & Hm & Hmo & Hmc & Hmf & Hmt).
  eapply queue_holds_update; [exact Hm | | | | | | |]; simpl.
  - rewrite lookup_insert_ne by done. exact H1.
  - apply seg_app. split.
    + eapply seg_agree; [|eapply seg_redirect; [exact HN1 | exact HL1]].
      intros x Hx. rewrite (lookup_insert_ne _ other) by (apply not_eq_sym, D; set_solver).
      apply lookup_insert_ne, not_eq_sym, D; set_solver.
    + eapply seg_agree; [|eapply seg_redirect; [exact HN2 | exact HL2]].
      intros x Hx. rewrite lookup_insert_ne by set_solver.
      destruct (decide (tail_of f l = x)) as [->|Hxl]; [by rewrite !lookup_insert_eq|].
      rewrite !lookup_insert_ne; [done | done | apply D; set_solver | done].
  - apply NoDup_cons in HN1 as [? ?].
    apply NoDup_cons. split; [|apply NoDup_app; split_and!; [done | | done]].
    + intros [?|Hx]%elem_of_app; [done|]. eapply (D q q); set_solver.
    + intros x Hx Hx2. eapply (D x x); set_solver.
  - rewrite Hmt, tail_app, tail_of_cons. apply insert_insert_ne. done.
  - intros x [Hx|Hx]%elem_of_app; [by left|]. right. split; [rewrite Hmc by done; eauto|].
    intros q2 l2 [[<- <-]|[Hne2 Hl2]]%lookup_insert_Some Hin; [set_solver|].
    apply Hne2. eapply (holds_disjoint s qs); eauto. set_solver.
  - intros x Hx1 Hx2. destruct (decide (x = other)) as [->|Hxo].
    + by rewrite lookup_insert_eq.
    + rewrite Hmf by set_solver. rewrite !lookup_insert_ne; [done | set_solver | set_solver | done].
  - intros x Hx1 Hx2. set_solver.
Qed.

(** ** Operations as a sequence *)

Inductive op :=
| OpPushBack (q e : Z) | OpPopFront (q : Z) | OpClear (q : Z) | OpSplice (q other : Z)
| OpForEachSafe (q : Z) (fn : Z -> bool) | OpFront (q : Z) | OpEmpty (q : Z).

Inductive resp := RBool (b : bool) | RPtr (p : Z) | RUnit.

Definition exec (s : store) (o : op) : outcome (store * resp) :=
  match o with
  | OpPushBack q e => '(s, b) ← PushBack s q e; Val (s, RBool b)
  | OpPopFront q => '(s, p) ← PopFront s q; Val (s, RPtr p)
  | OpClear q => s ← Clear s q; Val (s, RUnit)
  | OpSplice q other => s ← Splice s q other; Val (s, RUnit)
  | OpForEachSafe q fn => s ← ForEachSafe s q fn; Val (s, RUnit)
  | OpFront q => p ← Front s q; Val (s, RPtr p)
  | OpEmpty q => b ← Empty s q; Val (s, RBool b)
  end.

Definition linked (qs : queues) (x : Z) : bool := bool_decide (map_Exists (fun _ l => x ∈ l) qs).

Definition seq_of (qs : queues) (q : Z) : list Z := default [] (qs !! q).

(** The same operations on plain FIFO lists, keyed by sentinel. *)
Definition spec (qs : queues) (o : op) : queues * resp :=
  match o with
  | OpPushBack q e =>
      if (e =? nullptr) || linked qs e then (qs, RBool false)
      else (<[q := seq_of qs q ++ [e]]> qs, RBool true)
  | OpPopFront q =>
      match seq_of qs q with
      | [] => (qs, RPtr nullptr)
      | x :: l => (<[q := l]> qs, RPtr x)
      end
  | OpClear q => (<[q := []]> qs, RUnit)
  | OpSplice q other =>
      if other =? q then (qs, RUnit)
      else (<[q := seq_of qs q ++ seq_of qs other]> (<[other := []]> qs), RUnit)
  | OpForEachSafe q fn => (<[q := List.filter (fun x => negb (fn x)) (seq_of qs q)]> qs, RUnit)
  | OpFront q => (qs, RPtr (default nullptr (head (seq_of qs q))))
  | OpEmpty q => (qs, RBool (bool_decide (seq_of qs q = [])))
  end.

Definition legal (nodes : gset Z) (qs : queues) (o : op) : Prop :=
  match o with
  | OpPushBack q e => is_Some (qs !! q) /\ (e = nullptr \/ (e ∈ nodes /\ qs !! e = None))
  | OpPopFront q | OpClear q | OpForEachSafe q _ | OpFront q | OpEmpty q => is_Some (qs !! q)
  | OpSplice q other => is_Some (qs !! q) /\ is_Some (qs !! other)
  end.

Fixpoint exec_all (s : store) (os : list op) : outcome (store * list resp) :=
  match os with
  | [] => Val (s, [])
  | o :: os => '(s, r) ← exec s o; '(s, rs) ← exec_all s os; Val (s, r :: rs)
  end.

Fixpoint spec_all (qs : queues) (os : list op) : queues * list resp :=
  match os with
  | [] => (qs, [])
  | o :: os => let '(qs, r) := spec qs o in let '(qs, rs) := spec_all qs os in (qs, r :: rs)
  end.

Fixpoint legal_all (nodes : gset Z) (qs : queues) (os : list op) : Prop :=
  match os with
  | [] => True
  | o :: os => legal nodes qs o /\ legal_all nodes (fst (spec qs o)) os
  end.

Lemma queue_set_next_dom s a n s' : set_next s a n = Val s' -> dom (hooks s') = dom (hooks s).
Proof.
  unfold set_next, next. destruct (hooks s !! a) eqn:E; [|done]. intros [= <-].
  apply dom_insert_lookup_L. eauto.
Qed.

Lemma Reset_dom s q s' : Reset s q = Val s' -> dom (hooks s') = dom (hooks s).
Proof. unfold Reset. intros H. outcome_inv. by apply queue_set_next_dom in H0. Qed.

Lemma queue_clear_loop_dom fuel s q c s' : clear_loop fuel s q c = Val s' -> dom (hooks s') = dom (hooks s).
Proof.
  revert s c. induction fuel as [|fuel IH]; simpl; intros s c H; [done|].
  destruct (c =? q); [congruence|]. unfold clear_hook in *. outcome_inv.
  match goal with Hr : clear_loop _ _ _ _ = Val _ |- _ => apply IH in Hr as -> end.
  by eapply queue_set_next_dom.
Qed.

Lemma foreach_loop_dom fuel fn q : forall s p c s',
  foreach_loop fuel fn s q p c = Val s' -> dom (hooks s') = dom (hooks s).
Proof.
  induction fuel as [|fuel IH]; simpl; intros s p c s' H; [done|].
  destruct (c =? q); [congruence|]. unfold clear_hook in *. outcome_inv.
  destruct (fn c); outcome_inv; [|by eapply IH].
  repeat match goal with
  | Hr : foreach_loop _ _ _ _ _ _ = Val _ |- _ => apply IH in Hr
  | Hr : set_next _ _ _ = Val _ |- _ => apply queue_set_next_dom in Hr
  | Hr : context [if ?b then _ else _] |- _ => destruct b; simpl in Hr
  end; congruence.
Qed.

Lemma queue_exec_dom s o s' r : exec s o = Val (s', r) -> dom (hooks s') = dom (hooks s).
Proof.
  destruct o; simpl; unfold PushBack, PopFront, Clear, Splice, ForEachSafe, clear_hook; intros H;
  repeat match goal with
  | H : context [if ?b then _ else _] |- _ => destruct b
  | H : (let '(_, _) := ?x in _) = _ |- _ => destruct x
  | _ => progress outcome_inv
  | Hr : set_next _ _ _ = Val _ |- _ => apply queue_set_next_dom in Hr
  | Hr : Reset _ _ = Val _ |- _ => apply Reset_dom in Hr
  | Hr : clear_loop _ _ _ _ = Val _ |- _ => apply queue_clear_loop_dom in Hr
  | Hr : foreach_loop _ _ _ _ _ _ = Val _ |- _ => apply foreach_loop_dom in Hr
  | _ => progress simplify_eq
  end; simpl in *; try destruct (_ =? _); simpl; congruence.
Qed.

Lemma queue_exec_push s qs q e l :
  holds s qs -> qs !! q = Some l -> e = nullptr \/ (e ∈ dom (hooks s) /\ qs !! e = None) ->
  exists s', PushBack s q e = Val (s', negb ((e =? nullptr) || linked qs e)) /\
    holds s' (if (e =? nullptr) || linked qs e then qs else <[q := l ++ [e]]> qs).
Proof.
  intros H Hl [->|[Hd Hn]]; [exists s; auto|]. apply elem_of_dom in Hd.
  assert (e <> nullptr) as Hne by (intros ->; rewrite (holds_null _ _ H) in Hd; by destruct Hd).
  rewrite (proj2 (Z.eqb_neq e nullptr)) by done. cbn [orb].
  destruct (holds_InQueue _ _ _ H Hd Hn) as [[Hi Hf]|[Hi (q2 & l2 & Hl2 & Hin)]].
  - assert (linked qs e = false) as ->.
    { apply bool_decide_eq_false_2. intros (q2 & l2 & Hl2 & Hx). destruct Hf as [_ Hf].
      apply (Hf q2 l2 Hl2). set_solver. }
    by apply holds_push.
  - assert (linked qs e = true) as ->.
    { apply bool_decide_eq_true_2. exists q2, l2. auto. }
    exists s. unfold PushBack. rewrite (proj2 (Z.eqb_neq e nullptr)) by done. rewrite Hi. auto.
Qed.

Lemma queue_seq_of_Some qs q l : qs !! q = Some l -> seq_of qs q = l.
Proof. unfold seq_of. by intros ->. Qed.

Lemma queue_exec_ok s qs o :
  holds s qs -> legal (dom (hooks s)) qs o ->
  exists s', exec s o = Val (s', snd (spec qs o)) /\ holds s' (fst (spec qs o)).
Proof.
  intros H. destruct o as [q e|q|q|q other|q fn|q|q]; cbn [legal exec spec].
  - intros [[l Hl] He]. rewrite (queue_seq_of_Some _ _ _ Hl).
    destruct (queue_exec_push s qs q e l H Hl He) as (s' & -> & H'). exists s'.
    destruct ((e =? nullptr) || linked qs e); auto.
  - intros [l Hl]. rewrite (queue_seq_of_Some _ _ _ Hl). destruct l as [|x l].
    + exists s. unfold PopFront. pose proof (holds_seg _ _ H _ _ Hl) as Hn. simpl in Hn.
      rewrite (next_ok _ _ _ Hn), bind_val, Z.eqb_refl. auto.
    + destruct (holds_pop _ _ _ _ _ H Hl) as (s' & -> & H'). exists s'. auto.
  - intros [l Hl]. destruct (queue_holds_Clear _ _ _ _ H Hl) as (s' & -> & H' & _). exists s'. auto.
  - intros [[l1 H1] [l2 H2]]. rewrite (queue_seq_of_Some _ _ _ H1), (queue_seq_of_Some _ _ _ H2).
    destruct (other =? q) eqn:E.
    + exists s. unfold Splice. rewrite E. auto.
    + apply Z.eqb_neq in E. destruct (queue_holds_Splice s qs q other l1 l2 H) as (s' & -> & H');
        auto. exists s'. auto.
  - intros [l Hl]. rewrite (queue_seq_of_Some _ _ _ Hl). unfold ForEachSafe.
    pose proof (seg_first _ _ _ (holds_seg _ _ H _ _ Hl)) as Hn.
    pose proof (queue_holds_length _ _ _ _ H Hl) as Hlen. rewrite (next_ok _ _ _ Hn), bind_val.
    destruct (foreach_loop_ok fn q l (S (size (hooks s))) s qs [] H Hl) as (s' & Hrun & H'); [lia|].
    change (tail_of q []) with q in Hrun. rewrite Hrun. exists s'. auto.
  - intros [l Hl]. rewrite (queue_seq_of_Some _ _ _ Hl). unfold Front.
    rewrite (queue_holds_Empty _ _ _ _ H Hl), bind_val. exists s.
    destruct l; [auto|]. rewrite bool_decide_eq_false_2 by done.
    by rewrite (next_ok _ _ _ (seg_first _ _ _ (holds_seg _ _ H _ _ Hl))).
  - intros [l Hl]. rewrite (queue_seq_of_Some _ _ _ Hl), (queue_holds_Empty _ _ _ _ H Hl). exists s. auto.
Qed.

(** Any number of intrusive queues over one heap of nodes behave, under any
    sequence of pushes, pops, clears, splices and filtering traversals, as plain
    FIFO lists: a push is refused exactly for a null or already queued node, pops
    come in push order, a splice appends in constant time everything the other
    queue held, no pointer is followed to nothing, every walk ends, and the hooks
    of nodes in no queue are reset. *)
Theorem intrusive_queues_refine_fifo s qs os :
  holds s qs -> legal_all (dom (hooks s)) qs os ->
  exists s', exec_all s os = Val (s', snd (spec_all qs os)) /\
    holds s' (fst (spec_all qs os)) /\ dom (hooks s') = dom (hooks s).
Proof.
  revert s qs. induction os as [|o os IH]; intros s qs H; simpl.
  - intros _. eauto.
  - intros [Ho Hos]. destruct (queue_exec_ok s qs o H Ho) as (s1 & Hrun & H1).
    pose proof (queue_exec_dom _ _ _ _ Hrun) as Hdom. rewrite <- Hdom in Hos.
    destruct (IH s1 _ H1 Hos) as (s' & Hrun' & H' & Hd').
    rewrite Hrun, bind_val. destruct (spec qs o) as [qs1 r]. simpl in *.
    rewrite Hrun'. destruct (spec_all qs1 os) as [qs2 rs]. simpl in *.
    exists s'. split_and!; [done | done | congruence].
Qed.

(** Two empty queues (sentinels 8 and 16) and three unlinked nodes. *)
Definition example_store : store :=
  mkStore (<[8 := 8]> (<[16 := 16]> (<[24 := 0]> (<[32 := 0]> (<[40 := 0]> ∅)))))
    (<[8 := 8]> (<[16 := 16]> ∅)).

Definition example_queues : queues := <[8 := []]> (<[16 := []]> ∅).

Ltac two_queues H :=
  apply lookup_insert_Some in H as [[<- <-]|[_ H]];
    [|apply lookup_insert_Some in H as [[<- <-]|[_ H]]; [|by simplify_map_eq]].

Lemma queue_example_holds : holds example_store example_queues.
Proof.
  unfold example_queues. split.
  - intros q l H. two_queues H; done.
  - intros q l H. two_queues H; done.
  - intros q l H. two_queues H; apply NoDup_singleton.
  - intros q1 q2 l1 l2 x H1 H2. two_queues H1; two_queues H2; set_solver.
  - intros x [[n Hn] Hf]. rewrite Hn. simpl in Hn.
    apply lookup_insert_Some in Hn as [[<- <-]|[_ Hn]].
    { exfalso. apply (Hf 8 []); [done | set_solver]. }
    apply lookup_insert_Some in Hn as [[<- <-]|[_ Hn]].
    { exfalso. apply (Hf 16 []); [done | set_solver]. }
    repeat (apply lookup_insert_Some in Hn as [[<- <-]|[_ Hn]]; [done|]). by simplify_map_eq.
  - done.
Qed.

(** Pushes to two queues, a refused second push, a splice and a traversal. *)
Lemma intrusive_queues_refine_fifo_witness :
  exists s', exec_all example_store
    [OpPushBack 8 24; OpPushBack 16 32; OpPushBack 16 24; OpPushBack 16 40; OpSplice 8 16;
     OpForEachSafe 8 (fun x => x =? 40); OpPopFront 8; OpPushBack 8 40; OpFront 8] =
    Val (s', [RBool true; RBool true; RBool false; RBool true; RUnit; RUnit; RPtr 24;
              RBool true; RPtr 32]) /\
    holds s' (<[8 := [32; 40]]> (<[16 := []]> ∅)).
Proof.
  set (os := [OpPushBack 8 24; OpPushBack 16 32; OpPushBack 16 24; OpPushBack 16 40; OpSplice 8 16;
     OpForEachSafe 8 (fun x => x =? 40); OpPopFront 8; OpPushBack 8 40; OpFront 8]).
  destruct (intrusive_queues_refine_fifo example_store example_queues os queue_example_holds)
    as (s' & Hrun & H' & _).
  - unfold os, legal_all, legal.
    repeat (apply conj || (eexists; reflexivity)).
    all: try (right; split; [apply elem_of_dom; vm_compute; by eauto | reflexivity]).
  - exists s'. split; [exact Hrun|].
    assert (fst (spec_all example_queues os) = <[8 := [32; 40]]> (<[16 := []]> ∅)) as <-
      by (vm_compute; reflexivity).
    exact H'.
Defined.

End IntrusiveQueue.
