(* ===== verification/RBTree.v ===== *)
(** * The intrusive red-black tree (include/alyrn/detail/intrusive_rbtree.h)

    A node is the hook [RBTreeNode]: the word that packs the parent address with
    the colour and linked bits, and the two child pointers. Nodes, the sentinel
    included, live in a heap from addresses to hooks; the tree is the address of
    its sentinel and [size_]. Following a pointer to no node is a [Panic], and so
    is a failing [assert]: the definitions are those of a debug build, and a
    release build differs only in that it skips checks the theorems show to hold.

    Loops carry fuel computed from [size_]; running out of it is a [Panic] too,
    and the theorems show it never happens. [kLess] is a parameter of the class
    template and of this file. *)

From S2P Require Import Prelude.

Module RBTree.

Definition nullptr : Z := 0.

(** ** The node *)

Definition kRed : Z := 1.
Definition kLinked : Z := Z.shiftl 1 1.
Definition kReserved : Z := Z.shiftl 1 2.
Definition kFlagMask : Z := Z.lor kRed (Z.lor kLinked kReserved).

(** [~] on [std::uintptr_t]. *)
Definition bnot (z : Z) : Z := Z.lxor z size_max.

Record node := mkNode { parent_and_flags_ : Z; left_ : Z; right_ : Z }.

#[global] Instance node_eq_dec : EqDecision node.
Proof. solve_decision. Defined.

Definition node_parent (n : node) : Z := Z.land (parent_and_flags_ n) (bnot kFlagMask).

Definition node_set_parent (n : node) (parent : Z) : outcome node :=
  ALYRN_CHECK (Z.land parent kFlagMask =? 0);;
  Val (mkNode (Z.lor parent (Z.land (parent_and_flags_ n) kFlagMask)) (left_ n) (right_ n)).

Definition node_red (n : node) : bool := negb (Z.land (parent_and_flags_ n) kRed =? 0).

Definition node_set_red (n : node) (red : bool) : node :=
  mkNode (if red then Z.lor (parent_and_flags_ n) kRed else Z.land (parent_and_flags_ n) (bnot kRed))
    (left_ n) (right_ n).

Definition node_linked (n : node) : bool := negb (Z.land (parent_and_flags_ n) kLinked =? 0).

Definition node_set_linked (n : node) (linked : bool) : node :=
  mkNode (if linked then Z.lor (parent_and_flags_ n) kLinked
          else Z.land (parent_and_flags_ n) (bnot kLinked)) (left_ n) (right_ n).

Definition node_clear_hook : node := mkNode 0 nullptr nullptr.

(** ** The heap *)

Abbreviation heap := (gmap Z node).

Definition load (h : heap) (a : Z) : outcome node :=
  match h !! a with Some n => Val n | None => Panic end.

Definition parent (h : heap) (a : Z) : outcome Z := n ← load h a; Val (node_parent n).
Definition left (h : heap) (a : Z) : outcome Z := n ← load h a; Val (left_ n).
Definition right (h : heap) (a : Z) : outcome Z := n ← load h a; Val (right_ n).
Definition InTree (h : heap) (a : Z) : outcome bool := n ← load h a; Val (node_linked n).

Definition set_parent (h : heap) (a p : Z) : outcome heap :=
  n ← load h a; n ← node_set_parent n p; Val (<[a := n]> h).

Definition set_left (h : heap) (a p : Z) : outcome heap :=
  n ← load h a; Val (<[a := mkNode (parent_and_flags_ n) p (right_ n)]> h).

Definition set_right (h : heap) (a p : Z) : outcome heap :=
  n ← load h a; Val (<[a := mkNode (parent_and_flags_ n) (left_ n) p]> h).

Definition set_red (h : heap) (a : Z) (red : bool) : outcome heap :=
  n ← load h a; Val (<[a := node_set_red n red]> h).

Definition set_linked (h : heap) (a : Z) (linked : bool) : outcome heap :=
  n ← load h a; Val (<[a := node_set_linked n linked]> h).

Definition clear_hook (h : heap) (a : Z) : outcome heap :=
  load h a;; Val (<[a := node_clear_hook]> h).

Definition Red (h : heap) (a : Z) : outcome heap := set_red h a true.
Definition Black (h : heap) (a : Z) : outcome heap := set_red h a false.
Definition IsRed (h : heap) (a : Z) : outcome bool := n ← load h a; Val (node_red n).
Definition IsBlack (h : heap) (a : Z) : outcome bool := b ← IsRed h a; Val (negb b).
Definition CopyColor (h : heap) (dst src : Z) : outcome heap := b ← IsRed h src; set_red h dst b.

(** [assert] of a debug build, on a condition that reads the heap. *)
Definition assert (m : outcome bool) : outcome unit := b ← m; ALYRN_CHECK b.

Definition eqp (m : outcome Z) (a : Z) : outcome bool := x ← m; Val (x =? a).
Definition neqp (m : outcome Z) (a : Z) : outcome bool := x ← m; Val (negb (x =? a)).
Definition orp (m1 m2 : outcome bool) : outcome bool := b ← m1; if (b : bool) then Val true else m2.
Definition andp (m1 m2 : outcome bool) : outcome bool := b ← m1; if (b : bool) then m2 else Val false.

(** ** The tree *)

Record tree := mkTree { sentinel : Z; size_ : Z }.

Definition loop_fuel (t : tree) : nat := Z.to_nat (size_ t) + 4.

Definition root (h : heap) (t : tree) : outcome Z := parent h (sentinel t).

Definition set_root (h : heap) (t : tree) (a : Z) : outcome heap :=
  h ← set_parent h (sentinel t) a; set_parent h a (sentinel t).

Definition tree_min (h : heap) (t : tree) : outcome Z := left h (sentinel t).
Definition set_min (h : heap) (t : tree) (a : Z) : outcome heap := set_left h (sentinel t) a.

(** The constructor, on memory for the sentinel whose hook is default-initialised. *)
Definition new_tree (h : heap) (s : Z) : outcome (heap * tree) :=
  h ← set_left h s s;
  h ← set_right h s s;
  h ← set_parent h s s;
  h ← set_red h s false;
  Val (h, mkTree s 0).

Definition Empty (t : tree) : bool := size_ t =? 0.
Definition Size (t : tree) : Z := size_ t.

Definition Earliest (h : heap) (t : tree) : outcome Z :=
  m ← tree_min h t; Val (if m =? sentinel t then nullptr else m).

Definition IsHeader (h : heap) (a : Z) : outcome bool :=
  if a =? nullptr then Val false else eqp (right h a) a.

Fixpoint header_loop (steps : nat) (h : heap) (a : Z) : outcome Z :=
  match steps with
  | O => Val nullptr
  | S steps =>
      b ← IsHeader h a;
      if (b : bool) then Val a else
      p ← parent h a;
      if p =? nullptr then Val nullptr else header_loop steps h p
  end.

Definition HeaderOf (h : heap) (t : tree) (a : Z) : outcome Z :=
  if a =? nullptr then Val nullptr else
  b ← InTree h a;
  if negb (b : bool) then Val nullptr else header_loop (Z.to_nat (size_ t) + 1) h a.

Fixpoint minimum_loop (fuel : nat) (h : heap) (s a : Z) : outcome Z :=
  match fuel with
  | O => Panic
  | S fuel => l ← left h a; if l =? s then Val a else minimum_loop fuel h s l
  end.

Definition Minimum (h : heap) (t : tree) (a : Z) : outcome Z :=
  ALYRN_CHECK (negb (a =? sentinel t));;
  minimum_loop (loop_fuel t) h (sentinel t) a.

Fixpoint next_loop (fuel : nat) (h : heap) (s a : Z) : outcome Z :=
  match fuel with
  | O => Panic
  | S fuel =>
      p ← parent h a;
      if p =? s then Val s else
      l ← left h p;
      if a =? l then Val p else next_loop fuel h s p
  end.

Definition Next (h : heap) (t : tree) (a : Z) : outcome Z :=
  ALYRN_CHECK (negb (a =? sentinel t));;
  r ← right h a;
  if negb (r =? sentinel t) then Minimum h t r else
  rt ← root h t;
  if a =? rt then Val (sentinel t) else next_loop (loop_fuel t) h (sentinel t) a.

Definition Transplant (h : heap) (t : tree) (src dst : Z) : outcome heap :=
  ALYRN_CHECK (negb (src =? sentinel t));;
  p ← parent h src;
  h ← (if p =? sentinel t then set_root h t dst
       else l ← left h p; if src =? l then set_left h p dst else set_right h p dst);
  if negb (dst =? sentinel t) then set_parent h dst p else Val h.

Definition LeftRotate (h : heap) (t : tree) (pivot : Z) : outcome heap :=
  ALYRN_CHECK (negb (pivot =? sentinel t));;
  new_top ← right h pivot;
  ntl ← left h new_top;
  h ← set_right h pivot ntl;
  ntl ← left h new_top;
  h ← (if negb (ntl =? sentinel t) then set_parent h ntl pivot else Val h);
  h ← Transplant h t pivot new_top;
  h ← set_left h new_top pivot;
  set_parent h pivot new_top.

Definition RightRotate (h : heap) (t : tree) (pivot : Z) : outcome heap :=
  ALYRN_CHECK (negb (pivot =? sentinel t));;
  new_top ← left h pivot;
  ntr ← right h new_top;
  h ← set_left h pivot ntr;
  ntr ← right h new_top;
  h ← (if negb (ntr =? sentinel t) then set_parent h ntr pivot else Val h);
  h ← Transplant h t pivot new_top;
  h ← set_right h new_top pivot;
  set_parent h pivot new_top.

(** *** Insertion *)

(** The branch [parent == grandparent->left()] of one iteration of InsertFixup. *)
Definition insert_fixup_left (h : heap) (t : tree) (a p g : Z) : outcome (heap * Z) :=
  uncle ← right h g;
  ru ← IsRed h uncle;
  if (ru : bool) then
    h ← Black h p;
    h ← Black h uncle;
    h ← Red h g;
    Val (h, g)
  else
    pr ← right h p;
    '(h, a, p) ← (if a =? pr then
                    h ← LeftRotate h t p;
                    p' ← parent h p;
                    Val (h, p, p')
                  else Val (h, a, p));
    h ← Black h p;
    h ← Red h g;
    h ← RightRotate h t g;
    Val (h, a).

(** Its mirror image. *)
Definition insert_fixup_right (h : heap) (t : tree) (a p g : Z) : outcome (heap * Z) :=
  uncle ← left h g;
  ru ← IsRed h uncle;
  if (ru : bool) then
    h ← Black h p;
    h ← Black h uncle;
    h ← Red h g;
    Val (h, g)
  else
    pl ← left h p;
    '(h, a, p) ← (if a =? pl then
                    h ← RightRotate h t p;
                    p' ← parent h p;
                    Val (h, p, p')
                  else Val (h, a, p));
    h ← Black h p;
    h ← Red h g;
    h ← LeftRotate h t g;
    Val (h, a).

Fixpoint insert_fixup_loop (fuel : nat) (h : heap) (t : tree) (a : Z) : outcome heap :=
  match fuel with
  | O => Panic
  | S fuel =>
      rt ← root h t;
      go ← andp (Val (negb (a =? rt))) (p ← parent h a; IsRed h p);
      if negb (go : bool) then Val h else
      p ← parent h a;
      ALYRN_CHECK (negb (p =? nullptr));;
      ALYRN_CHECK (negb (p =? sentinel t));;
      assert (orp (eqp (left h p) a) (eqp (right h p) a));;
      assert (IsRed h p);;
      g ← parent h p;
      ALYRN_CHECK (negb (g =? nullptr));;
      ALYRN_CHECK (negb (g =? sentinel t));;
      assert (orp (eqp (left h g) p) (eqp (right h g) p));;
      assert (IsBlack h g);;
      gl ← left h g;
      '(h, a) ← (if p =? gl then insert_fixup_left h t a p g else insert_fixup_right h t a p g);
      insert_fixup_loop fuel h t a
  end.

Definition InsertFixup (h : heap) (t : tree) (a : Z) : outcome heap :=
  ALYRN_CHECK (negb (a =? nullptr));;
  ALYRN_CHECK (negb (a =? sentinel t));;
  assert (InTree h a);;
  assert (IsRed h a);;
  assert (neqp (root h t) (sentinel t));;
  assert (IsBlack h (sentinel t));;
  assert (eqp (left h a) (sentinel t));;
  assert (eqp (right h a) (sentinel t));;
  h ← insert_fixup_loop (loop_fuel t) h t a;
  rt ← root h t;
  Black h rt.

Section less.
Context (kLess : Z -> Z -> bool).

(** The descent of Insert from [cursor]; returns the parent it ends at. *)
Fixpoint insert_descend (fuel : nat) (h : heap) (t : tree) (elem p cursor : Z) : outcome Z :=
  match fuel with
  | O => Panic
  | S fuel =>
      if cursor =? sentinel t then Val p else
      assert (InTree h cursor);;
      assert (neqp (left h cursor) nullptr);;
      assert (neqp (right h cursor) nullptr);;
      next ← (if kLess elem cursor then left h cursor else right h cursor);
      insert_descend fuel h t elem cursor next
  end.

Definition Insert (h : heap) (t : tree) (elem : Z) : outcome (heap * tree * bool) :=
  if elem =? nullptr then Val (h, t, false) else
  ALYRN_CHECK (negb (elem =? sentinel t));;
  linked ← InTree h elem;
  if (linked : bool) then Val (h, t, false) else
  assert (eqp (left h elem) nullptr);;
  assert (eqp (right h elem) nullptr);;
  assert (eqp (parent h elem) nullptr);;
  assert (IsBlack h elem);;
  h ← set_linked h elem true;
  h ← set_left h elem (sentinel t);
  h ← set_right h elem (sentinel t);
  h ← set_parent h elem (sentinel t);
  h ← Red h elem;
  rt ← root h t;
  p ← insert_descend (loop_fuel t) h t elem (sentinel t) rt;
  h ← set_parent h elem p;
  h ← (if p =? sentinel t then
         assert (eqp (root h t) (sentinel t));;
         set_root h t elem
       else if kLess elem p then
         assert (eqp (left h p) (sentinel t));;
         set_left h p elem
       else
         assert (eqp (right h p) (sentinel t));;
         set_right h p elem);
  m ← tree_min h t;
  h ← (if (m =? sentinel t) || kLess elem m then set_min h t elem else Val h);
  h ← InsertFixup h t elem;
  let t := mkTree (sentinel t) (usize (size_ t + 1)) in
  rt ← root h t;
  ALYRN_CHECK (negb (rt =? sentinel t));;
  assert (eqp (parent h rt) (sentinel t));;
  assert (IsBlack h rt);;
  assert (neqp (tree_min h t) (sentinel t));;
  assert (IsHeader h (sentinel t));;
  assert (InTree h elem);;
  Val (h, t, true).

End less.

(** *** Deletion *)

(** The branch [node == parent->left()] of DeleteFixup: case 1 ... *)
Definition delete_left_case1 (h : heap) (t : tree) (p : Z) : outcome (heap * Z) :=
  sibling ← right h p;
  ALYRN_CHECK (negb (sibling =? sentinel t));;
  rs ← IsRed h sibling;
  if (rs : bool) then
    h ← Black h sibling;
    h ← Red h p;
    h ← LeftRotate h t p;
    sibling ← right h p;
    ALYRN_CHECK (negb (sibling =? sentinel t));;
    Val (h, sibling)
  else Val (h, sibling).

(** ... and cases 2 to 4, which return the next node and its parent. *)
Definition delete_left_cases (h : heap) (t : tree) (p sibling : Z) : outcome (heap * Z * Z) :=
  sibling_left ← left h sibling;
  sibling_right ← right h sibling;
  both ← andp (IsBlack h sibling_left) (IsBlack h sibling_right);
  if (both : bool) then
    h ← Red h sibling;
    pp ← parent h p;
    Val (h, p, pp)
  else
    b ← IsBlack h sibling_right;
    '(h, sibling) ← (if (b : bool) then
                       h ← Black h sibling_left;
                       h ← Red h sibling;
                       h ← RightRotate h t sibling;
                       sibling ← right h p;
                       ALYRN_CHECK (negb (sibling =? sentinel t));;
                       Val (h, sibling)
                     else Val (h, sibling));
    h ← CopyColor h sibling p;
    h ← Black h p;
    sr ← right h sibling;
    h ← Black h sr;
    h ← LeftRotate h t p;
    rt ← root h t;
    Val (h, rt, sentinel t).

(** Mirror images. *)
Definition delete_right_case1 (h : heap) (t : tree) (p : Z) : outcome (heap * Z) :=
  sibling ← left h p;
  ALYRN_CHECK (negb (sibling =? sentinel t));;
  rs ← IsRed h sibling;
  if (rs : bool) then
    h ← Black h sibling;
    h ← Red h p;
    h ← RightRotate h t p;
    sibling ← left h p;
    ALYRN_CHECK (negb (sibling =? sentinel t));;
    Val (h, sibling)
  else Val (h, sibling).

Definition delete_right_cases (h : heap) (t : tree) (p sibling : Z) : outcome (heap * Z * Z) :=
  sibling_left ← left h sibling;
  sibling_right ← right h sibling;
  both ← andp (IsBlack h sibling_left) (IsBlack h sibling_right);
  if (both : bool) then
    h ← Red h sibling;
    pp ← parent h p;
    Val (h, p, pp)
  else
    b ← IsBlack h sibling_left;
    '(h, sibling) ← (if (b : bool) then
                       h ← Black h sibling_right;
                       h ← Red h sibling;
                       h ← LeftRotate h t sibling;
                       sibling ← left h p;
                       ALYRN_CHECK (negb (sibling =? sentinel t));;
                       Val (h, sibling)
                     else Val (h, sibling));
    h ← CopyColor h sibling p;
    h ← Black h p;
    sl ← left h sibling;
    h ← Black h sl;
    h ← RightRotate h t p;
    rt ← root h t;
    Val (h, rt, sentinel t).

Fixpoint delete_fixup_loop (fuel : nat) (h : heap) (t : tree) (a p : Z) : outcome (heap * Z) :=
  match fuel with
  | O => Panic
  | S fuel =>
      rt ← root h t;
      go ← andp (Val (negb (a =? rt))) (IsBlack h a);
      if negb (go : bool) then Val (h, a) else
      ALYRN_CHECK (negb (p =? sentinel t));;
      l ← left h p;
      if a =? l then
        '(h, sibling) ← delete_left_case1 h t p;
        '(h, a, p) ← delete_left_cases h t p sibling;
        delete_fixup_loop fuel h t a p
      else
        assert (eqp (right h p) a);;
        '(h, sibling) ← delete_right_case1 h t p;
        '(h, a, p) ← delete_right_cases h t p sibling;
        delete_fixup_loop fuel h t a p
  end.

Definition DeleteFixup (h : heap) (t : tree) (a p : Z) : outcome heap :=
  ALYRN_CHECK (negb (a =? nullptr));;
  ALYRN_CHECK (negb (p =? nullptr));;
  '(h, a) ← delete_fixup_loop (loop_fuel t) h t a p;
  Black h a.

(** The child of a parent, or the root. *)
Definition assert_child (h : heap) (t : tree) (p a : Z) : outcome unit :=
  ALYRN_CHECK (negb (p =? nullptr));;
  assert (orp (Val (p =? sentinel t)) (orp (eqp (left h p) a) (eqp (right h p) a))).

(** The successor is not the target's right child: it is cut out and takes over the
    right subtree. *)
Definition erase_detach_deep (h : heap) (t : tree) (target detach orphan dp : Z) : outcome heap :=
  ALYRN_CHECK (negb (dp =? nullptr));;
  ALYRN_CHECK (negb (dp =? sentinel t));;
  assert (eqp (left h dp) detach);;
  assert (eqp (right h detach) orphan);;
  h ← Transplant h t detach orphan;
  r ← right h target;
  h ← set_right h detach r;
  r ← right h detach;
  h ← set_parent h r detach;
  assert (neqp (right h detach) (sentinel t));;
  assert (r ← right h detach; eqp (parent h r) detach);;
  Val h.

(** The successor takes the place, the left subtree and the
    colour of the target. *)
Definition erase_take_place (h : heap) (t : tree) (target detach : Z) : outcome heap :=
  h ← Transplant h t target detach;
  assert (orp (p ← parent h target; eqp (parent h detach) p) (eqp (parent h detach) (sentinel t)));;
  l ← left h target;
  h ← set_left h detach l;
  l ← left h detach;
  h ← set_parent h l detach;
  assert (neqp (left h detach) (sentinel t));;
  assert (l ← left h detach; eqp (parent h l) detach);;
  CopyColor h detach target.

(** Erase of a target with two children: its successor takes its place. Returns
    the orphan, its parent and the successor's colour. *)
Definition erase_two_children (h : heap) (t : tree) (target : Z) : outcome (heap * Z * Z * bool) :=
  assert (neqp (left h target) (sentinel t));;
  assert (neqp (right h target) (sentinel t));;
  r ← right h target;
  detach ← Minimum h t r;
  ALYRN_CHECK (negb (detach =? sentinel t));;
  assert (eqp (left h detach) (sentinel t));;
  was_red ← IsRed h detach;
  orphan ← right h detach;
  dp ← parent h detach;
  '(h, orphan_parent) ←
    (if dp =? target then
       h ← (if negb (orphan =? sentinel t) then
              h ← set_parent h orphan detach;
              assert (eqp (parent h orphan) detach);;
              Val h
            else Val h);
       Val (h, detach)
     else
       h ← erase_detach_deep h t target detach orphan dp;
       Val (h, dp));
  h ← erase_take_place h t target detach;
  Val (h, orphan, orphan_parent, was_red).

(** Taking the target out of its place; returns the orphan, its parent and the
    colour of the node that left its position. *)
Definition erase_splice (h : heap) (t : tree) (target : Z) : outcome (heap * Z * Z * bool) :=
  was_red ← IsRed h target;
  l ← left h target;
  if l =? sentinel t then
    r ← right h target;
    p ← parent h target;
    assert_child h t p target;;
    h ← Transplant h t target r;
    Val (h, r, p, was_red)
  else
    r ← right h target;
    if r =? sentinel t then
      p ← parent h target;
      assert_child h t p target;;
      h ← Transplant h t target l;
      Val (h, l, p, was_red)
    else erase_two_children h t target.

Definition Erase (h : heap) (t : tree) (elem : Z) : outcome (heap * tree * bool) :=
  if elem =? nullptr then Val (h, t, false) else
  ALYRN_CHECK (negb (elem =? sentinel t));;
  linked ← InTree h elem;
  if negb (linked : bool) then Val (h, t, false) else
  assert (eqp (HeaderOf h t elem) (sentinel t));;
  assert (neqp (root h t) (sentinel t));;
  ALYRN_CHECK (0 <? size_ t);;
  assert (neqp (left h elem) nullptr);;
  assert (neqp (right h elem) nullptr);;
  assert (neqp (parent h elem) nullptr);;
  m ← tree_min h t;
  h ← (if elem =? m then nm ← Next h t m; set_min h t nm else Val h);
  '(h, orphan, orphan_parent, was_red) ← erase_splice h t elem;
  ALYRN_CHECK (negb (orphan =? nullptr));;
  ALYRN_CHECK (negb (orphan_parent =? nullptr));;
  h ← (if negb (was_red : bool) then DeleteFixup h t orphan orphan_parent else Val h);
  h ← clear_hook h elem;
  let t := mkTree (sentinel t) (usize (size_ t - 1)) in
  (if size_ t =? 0 then
     assert (eqp (root h t) (sentinel t));;
     assert (eqp (tree_min h t) (sentinel t))
   else
     rt ← root h t;
     ALYRN_CHECK (negb (rt =? sentinel t));;
     assert (eqp (parent h rt) (sentinel t));;
     assert (neqp (tree_min h t) (sentinel t)));;
  assert (IsHeader h (sentinel t));;
  Val (h, t, true).

(** *** Draining a prefix *)

(** The callback [on_pop] may use the tree: it gets and returns the whole state;
    [pred] may read the state outside of the tree. *)
Fixpoint extract_loop {W} (fuel : nat) (pred : W -> Z -> bool)
    (on_pop : heap -> tree -> W -> Z -> outcome (heap * tree * W))
    (h : heap) (t : tree) (w : W) (popped : Z) : outcome (heap * tree * W * Z) :=
  match fuel with
  | O => Panic
  | S fuel =>
      if Empty t then Val (h, t, w, popped) else
      elem ← Earliest h t;
      if negb (pred w elem) then Val (h, t, w, popped) else
      '(h, t, erased) ← Erase h t elem;
      ALYRN_CHECK erased;;
      '(h, t, w) ← on_pop h t w elem;
      extract_loop fuel pred on_pop h t w (usize (popped + 1))
  end.

Definition ExtractPrefixImpl {W} (fuel : nat) (pred : W -> Z -> bool)
    (on_pop : heap -> tree -> W -> Z -> outcome (heap * tree * W))
    (h : heap) (t : tree) (w : W) : outcome (heap * tree * W * Z) :=
  extract_loop fuel pred on_pop h t w 0.

(** The vector-returning form of ExtractPrefix and PopWhile. *)
Definition ExtractPrefix (pred : Z -> bool) (h : heap) (t : tree)
    : outcome (heap * tree * list Z) :=
  '(h, t, result, _) ←
    ExtractPrefixImpl (loop_fuel t) (fun _ => pred) (fun h t result elem => Val (h, t, result ++ [elem])) h t [];
  Val (h, t, result).

(** *** Clear *)

Fixpoint clear_loop (fuel : nat) (h : heap) (s a : Z) : outcome heap :=
  match fuel with
  | O => Panic
  | S fuel =>
      if a =? s then Val h else
      ALYRN_CHECK (negb (a =? nullptr));;
      assert (InTree h a);;
      assert (neqp (left h a) nullptr);;
      assert (neqp (right h a) nullptr);;
      l ← left h a;
      if negb (l =? s) then clear_loop fuel h s l else
      r ← right h a;
      if negb (r =? s) then clear_loop fuel h s r else
      p ← parent h a;
      h ← (if negb (p =? s) then
             ALYRN_CHECK (negb (p =? nullptr));;
             pl ← left h p;
             if pl =? a then set_left h p s
             else assert (eqp (right h p) a);; set_right h p s
           else Val h);
      h ← clear_hook h a;
      clear_loop fuel h s p
  end.

Definition Clear (h : heap) (t : tree) : outcome (heap * tree) :=
  if Empty t then Val (h, t) else
  rt ← root h t;
  h ← clear_loop (2 * loop_fuel t) h (sentinel t) rt;
  h ← set_parent h (sentinel t) (sentinel t);
  h ← set_left h (sentinel t) (sentinel t);
  h ← set_right h (sentinel t) (sentinel t);
  h ← set_red h (sentinel t) false;
  Val (h, mkTree (sentinel t) 0).

(** *** The invariant checker *)

Record CheckResult := mkCheck { ok : bool; black_height : Z; count : Z; cmin : Z }.

Definition check_failed : CheckResult := mkCheck false 0 0 nullptr.

Section checker.
Context (kLess : Z -> Z -> bool).

Fixpoint CheckSubtree (fuel : nat) (h : heap) (t : tree) (a p lower upper : Z) : outcome CheckResult :=
  match fuel with
  | O => Panic
  | S fuel =>
      if a =? sentinel t then Val (mkCheck true 0 0 nullptr) else
      if (a =? nullptr) || (p =? nullptr) then Val check_failed else
      it ← InTree h a;
      hd ← IsHeader h a;
      if negb it || hd then Val check_failed else
      ap ← parent h a;
      if negb (ap =? p) then Val check_failed else
      l ← left h a;
      r ← right h a;
      if (l =? nullptr) || (r =? nullptr) then Val check_failed else
      if kLess a a then Val check_failed else
      if negb (lower =? nullptr) && negb (kLess lower a) then Val check_failed else
      if negb (upper =? nullptr) && negb (kLess a upper) then Val check_failed else
      bad ← andp (IsRed h a) (orp (IsRed h l) (IsRed h r));
      if (bad : bool) then Val check_failed else
      cl ← CheckSubtree fuel h t l a lower a;
      if negb (ok cl) then Val check_failed else
      cr ← CheckSubtree fuel h t r a a upper;
      if negb (ok cr) then Val check_failed else
      if negb (black_height cl =? black_height cr) then Val check_failed else
      b ← IsBlack h a;
      Val (mkCheck true (black_height cl + (if (b : bool) then 1 else 0))
             (usize (count cl + count cr + 1)) (if count cl =? 0 then a else cmin cl))
  end.

Definition CheckInvariants (h : heap) (t : tree) : outcome bool :=
  bs ← IsBlack h (sentinel t);
  it ← InTree h (sentinel t);
  hd ← IsHeader h (sentinel t);
  if negb bs || it || negb hd then Val false else
  rt ← root h t;
  m ← tree_min h t;
  if (rt =? nullptr) || (m =? nullptr) then Val false else
  if rt =? sentinel t then Val ((size_ t =? 0) && (m =? sentinel t)) else
  rp ← parent h rt;
  rr ← IsRed h rt;
  if (size_ t =? 0) || (m =? sentinel t) || negb (rp =? sentinel t) || rr then Val false else
  hr ← HeaderOf h t rt;
  hm ← HeaderOf h t m;
  if negb (hr =? sentinel t) || negb (hm =? sentinel t) then Val false else
  result ← CheckSubtree (loop_fuel t) h t rt (sentinel t) nullptr nullptr;
  Val (ok result && (count result =? size_ t) && (cmin result =? m)).

End checker.

End RBTree.
