(* ===== verification/RBTreeRep.v ===== *)
(** * Red-black trees in the heap: representation and primitives

    The packed node word, the predicate that a heap represents a binary tree at a
    position inside a larger tree (a zipper), and what the pointer primitives of
    RBTree.v, rotations and [Transplant] included, do to such a tree. *)

From S2P Require Import Prelude RBTree.

Import RBTree.

Module RBTreeRep.

(** ** The node word *)

(** Addresses of hooks: non-null, 8-byte aligned, 64 bits wide. *)
Definition is_addr (a : Z) : Prop := 0 < a < 2 ^ 64 /\ a mod 8 = 0.

Definition word_of (p : Z) (red linked : bool) : Z :=
  p + (if red then 1 else 0) + (if linked then 2 else 0).

Definition mk (p : Z) (red linked : bool) (l r : Z) : node := mkNode (word_of p red linked) l r.

(** A pointer that may be stored as a parent: an address or null. *)
Definition is_ptr (a : Z) : Prop := 0 <= a < 2 ^ 64 /\ a mod 8 = 0.

Lemma is_addr_ptr a : is_addr a -> is_ptr a.
Proof. unfold is_addr, is_ptr. lia. Qed.

Lemma small_bits z n i : 0 <= z < 2 ^ n -> 0 <= n <= i -> Z.testbit z i = false.
Proof.
  intros Hz Hi. destruct (decide (z = 0)) as [->|]; [apply Z.bits_0|].
  apply Z.bits_above_log2; [lia|]. apply Z.log2_lt_pow2; [lia|].
  eapply Z.lt_le_trans; [apply Hz|]. apply Z.pow_le_mono_r; lia.
Qed.

Lemma ptr_low p i : is_ptr p -> 0 <= i < 3 -> Z.testbit p i = false.
Proof.
  intros [_ Hm] Hi. rewrite <- (Z.mod_pow2_bits_low p 3 i) by lia.
  change (2 ^ 3) with 8. rewrite Hm. apply Z.bits_0.
Qed.

Lemma ptr_high p i : is_ptr p -> 64 <= i -> Z.testbit p i = false.
Proof. intros [Hp _] Hi. apply (small_bits p 64); lia. Qed.

Definition flags (red linked : bool) : Z := (if red then 1 else 0) + (if linked then 2 else 0).

Lemma flags_bits red linked i :
  0 <= i -> Z.testbit (flags red linked) i = ((i =? 0) && red) || ((i =? 1) && linked).
Proof.
  intros Hi. destruct (decide (i < 2)).
  - assert (i = 0 \/ i = 1) as [-> | ->] by lia; by destruct red, linked.
  - rewrite (small_bits _ 2) by (destruct red, linked; unfold flags; lia).
    rewrite (proj2 (Z.eqb_neq i 0)), (proj2 (Z.eqb_neq i 1)) by lia. done.
Qed.

Lemma word_bits p red linked i :
  is_ptr p -> 0 <= i ->
  Z.testbit (word_of p red linked) i = ((i =? 0) && red) || ((i =? 1) && linked) || Z.testbit p i.
Proof.
  intros Hp Hi.
  assert (Z.land p (flags red linked) = 0) as Hland.
  { apply Z.bits_inj'. intros j Hj. rewrite Z.land_spec, Z.bits_0, flags_bits by done.
    destruct (decide (j < 3)); [by rewrite ptr_low|].
    rewrite (proj2 (Z.eqb_neq j 0)), (proj2 (Z.eqb_neq j 1)) by lia. apply andb_false_r. }
  assert (word_of p red linked = Z.lor p (flags red linked)) as ->.
  { rewrite <- (Z.add_0_r (Z.lor _ _)), <- Hland, Z.add_lor_land. unfold word_of, flags. lia. }
  rewrite Z.lor_spec, flags_bits by done. apply orb_comm.
Qed.

Lemma size_max_bits i : 0 <= i -> Z.testbit size_max i = (i <? 64).
Proof.
  intros Hi. change size_max with (Z.ones 64). destruct (Z.ltb_spec i 64).
  - apply Z.ones_spec_low. lia.
  - apply Z.ones_spec_high. lia.
Qed.

Lemma mask_bits i : 0 <= i -> Z.testbit kFlagMask i = (i <? 3).
Proof.
  intros Hi. change kFlagMask with (Z.ones 3). destruct (Z.ltb_spec i 3).
  - apply Z.ones_spec_low. lia.
  - apply Z.ones_spec_high. lia.
Qed.

Lemma kRed_bits i : 0 <= i -> Z.testbit kRed i = (i =? 0).
Proof. intros Hi. change kRed with (2 ^ 0). rewrite Z.pow2_bits_eqb by lia. apply Z.eqb_sym. Qed.

Lemma kLinked_bits i : 0 <= i -> Z.testbit kLinked i = (i =? 1).
Proof. intros Hi. change kLinked with (2 ^ 1). rewrite Z.pow2_bits_eqb by lia. apply Z.eqb_sym. Qed.

(** Compare two words bit by bit. *)
Ltac by_bits :=
  apply Z.bits_inj'; let i := fresh "i" in intros i ?;
  unfold bnot;
  repeat (rewrite ?Z.land_spec, ?Z.lor_spec, ?Z.lxor_spec, ?Z.bits_0, ?word_bits, ?size_max_bits,
    ?mask_bits, ?kRed_bits, ?kLinked_bits by done);
  destruct (Z.ltb_spec i 3);
  [ assert (i = 0 \/ i = 1 \/ i = 2) as [->|[->| ->]] by lia; rewrite ?ptr_low by (done || lia); simpl;
    repeat match goal with b : bool |- _ => destruct b end; done
  | rewrite ?(proj2 (Z.eqb_neq i 0)), ?(proj2 (Z.eqb_neq i 1)) by lia;
    destruct (Z.ltb_spec i 64);
    rewrite ?(fun p H => ptr_high p i H) by (done || lia); simpl;
    rewrite ?andb_true_r, ?andb_false_r, ?orb_false_r; done ].

Lemma mk_parent p red linked l r : is_ptr p -> node_parent (mk p red linked l r) = p.
Proof. intros Hp. unfold node_parent, mk. simpl. by_bits. Qed.

Lemma mk_red p red linked l r : is_ptr p -> node_red (mk p red linked l r) = red.
Proof.
  intros Hp. unfold node_red, mk. simpl.
  assert (Z.land (word_of p red linked) kRed = if red then kRed else 0) as ->
    by (destruct red; by_bits).
  by destruct red.
Qed.

Lemma mk_linked p red linked l r : is_ptr p -> node_linked (mk p red linked l r) = linked.
Proof.
  intros Hp. unfold node_linked, mk. simpl.
  assert (Z.land (word_of p red linked) kLinked = if linked then kLinked else 0) as ->
    by (destruct linked; by_bits).
  by destruct linked.
Qed.

Lemma mk_set_parent p red linked l r q :
  is_ptr p -> is_ptr q -> node_set_parent (mk p red linked l r) q = Val (mk q red linked l r).
Proof.
  intros Hp Hq. unfold node_set_parent, mk. simpl.
  assert (Z.land q kFlagMask = 0) as -> by by_bits. simpl. do 2 f_equal. by_bits.
Qed.

Lemma mk_set_red p red linked l r b :
  is_ptr p -> node_set_red (mk p red linked l r) b = mk p b linked l r.
Proof. intros Hp. unfold node_set_red, mk. simpl. f_equal. destruct b; by_bits. Qed.

Lemma mk_set_linked p red linked l r b :
  is_ptr p -> node_set_linked (mk p red linked l r) b = mk p red b l r.
Proof. intros Hp. unfold node_set_linked, mk. simpl. f_equal. destruct b; by_bits. Qed.

Lemma mk_clear : node_clear_hook = mk nullptr false false nullptr nullptr.
Proof. reflexivity. Qed.

(** ** Reading and writing a node of known contents *)

Section access.
Context (h : heap) (a q : Z) (b : bool) (p l r : Z) (red linked : bool).
Hypothesis (Ha : h !! a = Some (mk p red linked l r)) (Hp : is_ptr p).

Lemma ld_parent : parent h a = Val p.
Proof. unfold parent, load. rewrite Ha. simpl. by rewrite mk_parent. Qed.
Lemma ld_left : left h a = Val l.
Proof. unfold left, load. by rewrite Ha. Qed.
Lemma ld_right : right h a = Val r.
Proof. unfold right, load. by rewrite Ha. Qed.
Lemma ld_linked : InTree h a = Val linked.
Proof. unfold InTree, load. rewrite Ha. simpl. by rewrite mk_linked. Qed.
Lemma ld_red : IsRed h a = Val red.
Proof. unfold IsRed, load. rewrite Ha. simpl. by rewrite mk_red. Qed.
Lemma ld_black : IsBlack h a = Val (negb red).
Proof. unfold IsBlack. by rewrite ld_red. Qed.
Lemma st_parent : is_ptr q -> set_parent h a q = Val (<[a := mk q red linked l r]> h).
Proof. intros Hq. unfold set_parent, load. rewrite Ha. simpl. by rewrite mk_set_parent. Qed.
Lemma st_left : set_left h a q = Val (<[a := mk p red linked q r]> h).
Proof. unfold set_left, load. by rewrite Ha. Qed.
Lemma st_right : set_right h a q = Val (<[a := mk p red linked l q]> h).
Proof. unfold set_right, load. by rewrite Ha. Qed.
Lemma st_red : set_red h a b = Val (<[a := mk p b linked l r]> h).
Proof. unfold set_red, load. rewrite Ha. simpl. by rewrite mk_set_red. Qed.
Lemma st_linked : set_linked h a b = Val (<[a := mk p red b l r]> h).
Proof. unfold set_linked, load. rewrite Ha. simpl. by rewrite mk_set_linked. Qed.
Lemma st_clear : clear_hook h a = Val (<[a := mk nullptr false false nullptr nullptr]> h).
Proof. unfold clear_hook, load. by rewrite Ha. Qed.
End access.

Lemma st_Red h a p l r red linked :
  h !! a = Some (mk p red linked l r) -> is_ptr p -> Red h a = Val (<[a := mk p true linked l r]> h).
Proof. intros. by eapply st_red. Qed.
Lemma st_Black h a p l r red linked :
  h !! a = Some (mk p red linked l r) -> is_ptr p -> Black h a = Val (<[a := mk p false linked l r]> h).
Proof. intros. by eapply st_red. Qed.

(** ** Trees and zippers *)

Inductive tr := E | N (red : bool) (l : tr) (a : Z) (r : tr).

(** One step of the path from a subtree to the root: the subtree is the left
    child ([FL]) or the right child ([FR]) of node [a]. *)
Inductive frame := FL (red : bool) (a : Z) (r : tr) | FR (red : bool) (l : tr) (a : Z).

Abbreviation ctx := (list frame).

Fixpoint inorder (t : tr) : list Z :=
  match t with E => [] | N _ l a r => inorder l ++ a :: inorder r end.

Definition plug1 (f : frame) (t : tr) : tr :=
  match f with FL c a r => N c t a r | FR c l a => N c l a t end.

Fixpoint plug (k : ctx) (t : tr) : tr :=
  match k with [] => t | f :: k => plug k (plug1 f t) end.

(** The nodes before and after the hole, in order. *)
Fixpoint lefts (k : ctx) : list Z :=
  match k with
  | [] => []
  | FL _ _ _ :: k => lefts k
  | FR _ l a :: k => lefts k ++ inorder l ++ [a]
  end.

Fixpoint rights (k : ctx) : list Z :=
  match k with
  | [] => []
  | FL _ a r :: k => a :: inorder r ++ rights k
  | FR _ _ _ :: k => rights k
  end.

Definition faddr (f : frame) : Z := match f with FL _ a _ | FR _ _ a => a end.
Definition fred (f : frame) : bool := match f with FL c _ _ | FR c _ _ => c end.
Definition tred (t : tr) : bool := match t with E => false | N c _ _ _ => c end.

Definition addr (s : Z) (t : tr) : Z := match t with E => s | N _ _ a _ => a end.
Definition pa (s : Z) (k : ctx) : Z := match k with [] => s | f :: _ => faddr f end.

Fixpoint rep (h : heap) (s p : Z) (t : tr) : Prop :=
  match t with
  | E => True
  | N c l a r =>
      h !! a = Some (mk p c true (addr s l) (addr s r)) /\ rep h s a l /\ rep h s a r
  end.

(** The path, whose hole holds the node [x]; the sentinel caches root and minimum. *)
Fixpoint repc (h : heap) (s m : Z) (k : ctx) (x : Z) : Prop :=
  match k with
  | [] => h !! s = Some (mk x false false m s)
  | FL c a r :: k =>
      h !! a = Some (mk (pa s k) c true x (addr s r)) /\ rep h s a r /\ repc h s m k a
  | FR c l a :: k =>
      h !! a = Some (mk (pa s k) c true (addr s l) x) /\ rep h s a l /\ repc h s m k a
  end.

Definition wf (s : Z) (l : list Z) : Prop := NoDup (s :: l) /\ Forall is_addr (s :: l).

(** The heap holds the tree [plug k t], seen from its subtree [t]. *)
Record focus (h : heap) (s m : Z) (t : tr) (k : ctx) : Prop := {
  focus_rep : rep h s (pa s k) t;
  focus_repc : repc h s m k (addr s t);
  focus_wf : wf s (lefts k ++ inorder t ++ rights k);
}.

Lemma inorder_plug k t : inorder (plug k t) = lefts k ++ inorder t ++ rights k.
Proof.
  revert t. induction k as [|[c a r|c l a] k IH]; intros t; simpl; [by rewrite app_nil_r| |];
    rewrite IH; simpl; by rewrite <- !app_assoc.
Qed.

Lemma focus_move h s m t f k : focus h s m t (f :: k) <-> focus h s m (plug1 f t) k.
Proof.
  assert (lefts (f :: k) ++ inorder t ++ rights (f :: k) = lefts k ++ inorder (plug1 f t) ++ rights k)
    as Hio by (destruct f; simpl; by rewrite <- !app_assoc).
  destruct f as [c a r|c l a]; split; intros [H1 H2 H3]; simpl in H1, H2;
    (split; [simpl; tauto | simpl; tauto | congruence]).
Qed.

Lemma focus_plug h s m t k k' : focus h s m t (k ++ k') <-> focus h s m (plug k t) k'.
Proof.
  revert t. induction k as [|f k IH]; intros t; [done|]. simpl. by rewrite focus_move, IH.
Qed.

Lemma plug_app k k' t : plug (k ++ k') t = plug k' (plug k t).
Proof. revert t. induction k as [|f k IH]; intros t; simpl; [done|]. apply IH. Qed.

Lemma rep_frame h h' s p t :
  (forall x, x ∈ inorder t -> h' !! x = h !! x) -> rep h s p t -> rep h' s p t.
Proof.
  revert p. induction t as [|c l IHl a r IHr]; intros p Hag; simpl; [done|].
  intros (Ha & Hl & Hr). simpl in Hag. split_and!.
  - rewrite Hag by set_solver. done.
  - apply IHl; [intros; apply Hag; set_solver | done].
  - apply IHr; [intros; apply Hag; set_solver | done].
Qed.

Lemma repc_frame h h' s m k x :
  (forall y, y ∈ s :: lefts k ++ rights k -> h' !! y = h !! y) -> repc h s m k x -> repc h' s m k x.
Proof.
  revert x. induction k as [|[c a r|c l a] k IH]; intros x Hag; simpl in *.
  - rewrite Hag by set_solver. done.
  - rewrite Hag by set_solver. intros (Ha & Hr & Hk). split_and!; [done| |].
    + eapply rep_frame; [|done]. intros; apply Hag; set_solver.
    + apply IH; [intros; apply Hag; set_solver | done].
  - rewrite Hag by set_solver. intros (Ha & Hr & Hk). split_and!; [done| |].
    + eapply rep_frame; [|done]. intros; apply Hag; set_solver.
    + apply IH; [intros; apply Hag; set_solver | done].
Qed.

Lemma pa_in s k : pa s k ∈ s :: lefts k ++ rights k.
Proof. destruct k as [|[] k]; simpl; set_solver. Qed.

Lemma addr_in s t : addr s t ∈ s :: inorder t.
Proof. destruct t; simpl; set_solver. Qed.

Lemma wf_addr s l x : wf s l -> x ∈ s :: l -> is_addr x.
Proof. intros [_ HF] Hx. rewrite Forall_forall in HF. by apply HF. Qed.

Lemma wf_ptr s l x : wf s l -> x ∈ s :: l -> is_ptr x.
Proof. eauto using wf_addr, is_addr_ptr. Qed.

(** ** Symbolic execution *)

#[global] Arguments mk : simpl never.

Ltac ne := first [assumption | apply not_eq_sym; assumption | congruence].
Ltac lk :=
  repeat first
    [ eassumption
    | rewrite lookup_insert_eq; reflexivity
    | rewrite lookup_insert_ne by ne ].
Ltac xside := solve [lk | assumption].

Ltac xs1 :=
  match goal with
  | |- context [parent ?h ?a] => erewrite (ld_parent h a) by xside
  | |- context [left ?h ?a] => erewrite (ld_left h a) by xside
  | |- context [right ?h ?a] => erewrite (ld_right h a) by xside
  | |- context [InTree ?h ?a] => erewrite (ld_linked h a) by xside
  | |- context [IsRed ?h ?a] => erewrite (ld_red h a) by xside
  | |- context [IsBlack ?h ?a] => erewrite (ld_black h a) by xside
  | |- context [set_parent ?h ?a ?q] => erewrite (st_parent h a q) by xside
  | |- context [set_left ?h ?a ?q] => erewrite (st_left h a q) by xside
  | |- context [set_right ?h ?a ?q] => erewrite (st_right h a q) by xside
  | |- context [set_red ?h ?a ?q] => erewrite (st_red h a q) by xside
  | |- context [set_linked ?h ?a ?q] => erewrite (st_linked h a q) by xside
  | |- context [Red ?h ?a] => erewrite (st_Red h a) by xside
  | |- context [Black ?h ?a] => erewrite (st_Black h a) by xside
  | |- context [clear_hook ?h ?a] => erewrite (st_clear h a) by xside
  end.

Ltac xb :=
  repeat first
    [ rewrite bind_val
    | rewrite check_true
    | progress cbn [negb andb orb]
    | match goal with
      | |- context [?x =? ?x] => rewrite (Z.eqb_refl x)
      | H : ?x <> ?y |- context [?x =? ?y] => rewrite (proj2 (Z.eqb_neq x y) H)
      | H : ?y <> ?x |- context [?x =? ?y] => rewrite (proj2 (Z.eqb_neq x y) (not_eq_sym H))
      end ].

Ltac xs := xb; repeat (xs1; xb).

(** Distinctness facts from a duplicate-free list of tree nodes. *)
Lemma wf_parts s l1 x l2 :
  wf s (l1 ++ x :: l2) -> is_addr x /\ x <> s /\ (x ∉ l1) /\ (x ∉ l2).
Proof.
  intros [HN HF]. apply NoDup_cons in HN as [Hs HN]. apply NoDup_app in HN as (_ & H12 & HN).
  apply NoDup_cons in HN as [Hx _]. rewrite Forall_forall in HF.
  split_and!; [apply HF; set_solver | set_solver | | done]. intros Hx1. by apply (H12 x Hx1), elem_of_cons; left.
Qed.

Lemma wf_nodup s l : wf s l -> NoDup l /\ (s ∉ l).
Proof. intros [HN _]. apply NoDup_cons in HN. tauto. Qed.

(** [Transplant] moves [dst] into the hole of a path that held [src]. *)
Lemma Transplant_ok h t m k src dst c0 l0 r0 ls :
  let s := sentinel t in
  repc h s m k src ->
  h !! src = Some (mk (pa s k) c0 true l0 r0) ->
  wf s ls -> (forall x, x ∈ lefts k ++ rights k -> x ∈ ls) -> NoDup (lefts k ++ rights k) ->
  is_ptr src -> src <> s -> (src ∉ lefts k ++ rights k) -> src <> dst ->
  forall p' c' l' r',
  dst = s \/ (dst <> s /\ (dst ∉ lefts k ++ rights k) /\ is_ptr dst /\ is_ptr p' /\
              h !! dst = Some (mk p' c' true l' r')) ->
  exists h', Transplant h t src dst = Val h' /\
    repc h' s m k dst /\
    (dst <> s -> h' !! dst = Some (mk (pa s k) c' true l' r')) /\
    (forall x, x <> pa s k -> x <> dst \/ x = s -> h' !! x = h !! x).
Proof.
  intros s Hk Hsrc Hwf Hls Hnd Psrc Hs Hout Hne p' c' l' r' Hdst.
  assert (is_ptr s) as Ps by (eapply wf_ptr; [done | set_solver]).
  assert (is_ptr dst) as Pd by (destruct Hdst as [->|?]; tauto).
  assert (forall x, x ∈ lefts k ++ rights k -> is_ptr x /\ x <> s) as Pk.
  { intros x Hx. apply Hls in Hx. split; [eapply wf_ptr; [done | set_solver]|].
    intros ->. apply wf_nodup in Hwf. tauto. }
  assert (is_ptr (pa s k)) as Ppk.
  { pose proof (pa_in s k) as Hin. apply elem_of_cons in Hin as [->|Hin]; [done|]. by apply Pk. }
  assert (forall x, x ∈ lefts k ++ rights k -> x <> dst \/ x = s) as Hnot.
  { intros x Hx. destruct Hdst as [->|(_ & Ho & _)]; [left; by apply Pk|]. left. by intros ->. }
  unfold Transplant. fold s. destruct k as [|f k].
  { simpl in Hk, Hsrc. unfold set_root. fold s. xs.
    destruct Hdst as [->|(Hds & Hdo & _ & Pp & Hd)]; xs.
    - eexists. split; [reflexivity|]. simpl. split_and!; [lk | done |].
      intros x Hx _. rewrite !lookup_insert_ne; done.
    - eexists. split; [reflexivity|]. simpl. split_and!; [lk | intros _; lk |].
      intros x Hx1 [Hx2| ->]; [|done]. rewrite !lookup_insert_ne; done. }
  set (a := faddr f) in *.
  assert (a ∈ lefts (f :: k) ++ rights (f :: k)) as Hain by (destruct f; simpl; set_solver).
  destruct (Pk a Hain) as [Pa Has]. assert (a <> src) as Hasrc by (intros E0; by rewrite E0 in Hain).
  assert (a <> dst) as Had by (destruct (Hnot a Hain); done).
  change (pa s (f :: k)) with a in *.
  assert (exists n0 n1 : node, h !! a = Some n0 /\
    (if src =? left_ n0 then set_left h a dst else set_right h a dst) = Val (<[a := n1]> h) /\
    left h a = Val (left_ n0) /\
    forall h', (forall x, x <> a -> x <> dst \/ x = s -> h' !! x = h !! x) ->
      h' !! a = Some n1 -> repc h' s m (f :: k) dst) as (n0 & n1 & Hn0 & Hset & Hleft & Hfin).
  { assert (is_ptr (pa s k)) as Ppk2.
    { pose proof (pa_in s k) as Hin. apply elem_of_cons in Hin as [->|Hin]; [done|]. apply Pk.
      destruct f; simpl; set_solver. }
    destruct f as [c a' r|c l a']; simpl in Hk; unfold a in *; simpl in *; destruct Hk as (Ha & Hsub & Hk);
      (eexists _, _; split_and!; [exact Ha | | by erewrite ld_left |]).
    - cbn [left_ mk]. rewrite Z.eqb_refl. by erewrite st_left.
    - intros h' Hfr Ha'. split_and!; [exact Ha' | |].
      + eapply rep_frame; [|done]. intros x Hx. apply Hfr; [|apply Hnot; set_solver].
        intros ->. apply NoDup_app in Hnd as (_ & _ & Hnd). apply NoDup_cons in Hnd. set_solver.
      + eapply repc_frame; [|done]. intros x Hx. apply Hfr.
        * intros ->. apply NoDup_app in Hnd as (_ & Hd & Hnd). apply NoDup_cons in Hnd. set_solver.
        * apply elem_of_cons in Hx as [->|Hx]; [by right|]. apply Hnot. set_solver.
    - cbn [left_ mk]. rewrite (proj2 (Z.eqb_neq _ _)).
      + by erewrite st_right.
      + unfold mk. simpl. intros E0. pose proof (addr_in s l) as Hin. rewrite <- E0 in Hin. set_solver.
    - intros h' Hfr Ha'. rewrite <- app_assoc in Hnd. split_and!; [exact Ha' | |].
      + eapply rep_frame; [|done]. intros x Hx. apply Hfr; [|apply Hnot; set_solver].
        intros ->. apply NoDup_app in Hnd as (_ & _ & Hnd). rewrite <- app_assoc in Hnd.
        apply NoDup_app in Hnd as (_ & Hnd & _). set_solver.
      + eapply repc_frame; [|done]. intros x Hx. apply Hfr.
        * intros ->. apply NoDup_app in Hnd as (_ & Hd & Hnd). rewrite <- app_assoc in Hnd.
          apply NoDup_app in Hnd as (_ & _ & Hnd). apply NoDup_cons in Hnd. set_solver.
        * apply elem_of_cons in Hx as [->|Hx]; [by right|]. apply Hnot. set_solver. }
  xs. rewrite Hleft, bind_val, Hset, bind_val.
  destruct Hdst as [->|(Hds & Hdo & _ & Pp & Hd)]; xs.
  - eexists. split; [reflexivity|]. split_and!; [|done|].
    + apply Hfin; [|lk]. intros x Hx _. by apply lookup_insert_ne.
    + intros x Hx _. by apply lookup_insert_ne.
  - eexists. split; [reflexivity|]. split_and!; [|intros _; lk|].
    + apply Hfin; [|lk]. intros x Hx [Hx2| ->]; rewrite !lookup_insert_ne; done.
    + intros x Hx1 [Hx2| ->]; rewrite !lookup_insert_ne; done.
Qed.

(** Distinctness around a node: its subtrees and its surroundings. *)
Lemma wf_node s (L A B R : list Z) x :
  wf s (L ++ (A ++ x :: B) ++ R) ->
  is_addr x /\ x <> s /\ (x ∉ s :: L ++ R) /\ NoDup (L ++ R) /\
  (forall z, z ∈ A -> z <> x /\ (z ∉ s :: L ++ R) /\ (z ∉ B)) /\
  (forall z, z ∈ B -> z <> x /\ (z ∉ s :: L ++ R) /\ (z ∉ A)).
Proof.
  intros [HN HF]. rewrite Forall_forall in HF.
  apply NoDup_cons in HN as [Hs HN]. apply NoDup_app in HN as (HL & DL & HN).
  apply NoDup_app in HN as (HN & DR & HR). apply NoDup_app in HN as (HA & DA & HN).
  apply NoDup_cons in HN as [Hx HB].
  assert (is_addr x) as Hxa by (apply HF; set_solver). clear HF.
  split_and!; [done | set_solver | set_solver | | |].
  - apply NoDup_app. split_and!; [done | | done]. intros z Hz. specialize (DL z Hz). set_solver.
  - intros z Hz. specialize (DA z Hz). split_and!; [set_solver | | set_solver].
    specialize (DR z). set_solver.
  - intros z Hz. split_and!; [set_solver | | set_solver].
    specialize (DR z). set_solver.
Qed.

(** Nothing outside the tree changes. *)
Definition only (h h' : heap) (s : Z) (l : list Z) : Prop :=
  forall z, z ∉ s :: l -> h' !! z = h !! z.

Lemma only_refl h s l : only h h s l.
Proof. by intros z _. Qed.

Lemma only_trans h1 h2 h3 s l : only h1 h2 s l -> only h2 h3 s l -> only h1 h3 s l.
Proof. intros H12 H23 z Hz. by rewrite H23, H12. Qed.

(** Giving a subtree another parent, where the code guards against the sentinel. *)
Lemma reparent_ok h s p q t :
  rep h s p t -> is_ptr p -> is_ptr q -> NoDup (inorder t) -> (s ∉ inorder t) ->
  exists h', (if negb (addr s t =? s) then set_parent h (addr s t) q else Val h) = Val h' /\
    rep h' s q t /\ (forall z, z ∉ inorder t -> h' !! z = h !! z).
Proof.
  intros Ht Pp Pq HN Hs. destruct t as [|c l a r]; simpl in *.
  - rewrite Z.eqb_refl. eauto.
  - destruct Ht as (Ha & Hl & Hr). assert (a <> s) as Has by set_solver. xs.
    apply NoDup_app in HN as (HNl & HD & HN). apply NoDup_cons in HN as [Hna HNr].
    eexists. split; [reflexivity|]. split_and!; [lk | | |].
    + eapply rep_frame; [|done]. intros z Hz. apply lookup_insert_ne. intros <-.
      apply (HD a Hz). set_solver.
    + eapply rep_frame; [|done]. intros z Hz. apply lookup_insert_ne. intros <-. done.
    + intros z Hz. apply lookup_insert_ne. set_solver.
Qed.

Lemma wf_two s (L A B G R : list Z) x y :
  wf s (L ++ (A ++ x :: B ++ y :: G) ++ R) ->
  is_ptr s /\ is_ptr x /\ is_ptr y /\ x <> s /\ y <> s /\ x <> y /\ (x ∉ L ++ R) /\ (y ∉ L ++ R) /\
  NoDup (L ++ R) /\ NoDup B /\ (s ∉ B) /\ (x ∉ B) /\ (y ∉ B) /\
  (forall z, z ∈ A -> z <> x /\ z <> y /\ (z ∉ B) /\ z <> s /\ (z ∉ L ++ R)) /\
  (forall z, z ∈ B -> z <> x /\ z <> y /\ z <> s /\ (z ∉ L ++ R)) /\
  (forall z, z ∈ G -> z <> x /\ z <> y /\ (z ∉ B) /\ z <> s /\ (z ∉ L ++ R)).
Proof.
  intros H. pose proof (wf_ptr _ _ s H ltac:(set_solver)) as Ps.
  pose proof (wf_node s L A (B ++ y :: G) R x H) as (Ax & Hxs & HxLR & HLR & DA & DB).
  assert (wf s ((L ++ A ++ [x]) ++ (B ++ y :: G) ++ R)) as H2.
  { revert H. list_simplifier. done. }
  pose proof (wf_node s (L ++ A ++ [x]) B G R y H2) as (Ay & Hys & HyLR & _ & DB2 & DG).
  assert (NoDup B) as HB.
  { apply wf_nodup in H2 as [H2 _]. apply NoDup_app in H2 as (_ & _ & H2).
    apply NoDup_app in H2 as (H2 & _ & _). by apply NoDup_app in H2 as (? & _ & _). }
  assert (forall z, z ∈ B -> z <> x) as DBx by (intros z Hz; apply DB; set_solver).
  assert (forall z, z ∈ B -> z <> y) as DBy by (intros z Hz; by apply DB2).
  split_and!; eauto using is_addr_ptr.
  1-4: set_solver.
  - intros Hx. by apply (DBx x).
  - intros Hy. by apply (DBy y).
  - intros z Hz. pose proof (DA z Hz) as (? & ? & ?). split_and!; [done | set_solver ..].
  - intros z Hz. pose proof (DB z) as HH. destruct HH as (? & ? & ?); [set_solver|].
    split_and!; [done | auto | set_solver | set_solver].
  - intros z Hz. pose proof (DG z Hz) as (? & ? & ?). split_and!; [set_solver | done | done | set_solver ..].
Qed.

Lemma focus_ptr h s m t k : focus h s m t k -> is_ptr (pa s k).
Proof.
  intros H. eapply wf_ptr; [by apply focus_wf in H|]. pose proof (pa_in s k). set_solver.
Qed.

Lemma LeftRotate_ok h t m k c a x c2 b y g :
  let s := sentinel t in
  focus h s m (N c a x (N c2 b y g)) k ->
  exists h', LeftRotate h t x = Val h' /\ focus h' s m (N c2 (N c a x b) y g) k /\
    only h h' s (lefts k ++ inorder (N c a x (N c2 b y g)) ++ rights k).
Proof.
  intros s H. pose proof (focus_ptr _ _ _ _ _ H) as Ppk. destruct H as [Ht Hk Hwf].
  simpl in Ht, Hk. destruct Ht as (Hx & Ha & Hy & Hb & Hg). pose proof Hwf as Hwf0. simpl in Hwf.
  destruct (wf_two _ _ _ _ _ _ _ _ Hwf) as
    (Ps & Px & Py & Hxs & Hys & Hxy & HxLR & HyLR & HLR & HNb & Hsb & Hxb & Hyb & DA & DB & DG).
  pose proof (pa_in s k) as Hpk.
  assert (forall z, z <> s -> (z ∉ lefts k ++ rights k) -> z <> pa s k) as Dpa by set_solver.
  unfold LeftRotate. fold s. xs.
  destruct (reparent_ok (<[x := mk (pa s k) c true (addr s a) (addr s b)]> h) s y x b)
    as (h1 & Hrun1 & Hb1 & Hf1); [ | done | done | done | done |].
  { eapply rep_frame; [|exact Hb]. intros z Hz. apply lookup_insert_ne. by apply not_eq_sym, DB. }
  rewrite Hrun1, bind_val.
  assert (h1 !! x = Some (mk (pa s k) c true (addr s a) (addr s b))) as Hx1 by (rewrite Hf1 by done; lk).
  assert (h1 !! y = Some (mk x c2 true (addr s b) (addr s g))) as Hy1 by (rewrite Hf1 by done; lk).
  assert (repc h1 s m k x) as Hk1.
  { eapply repc_frame; [|exact Hk]. intros z Hz. rewrite Hf1; [apply lookup_insert_ne; set_solver|].
    intros Hzb. apply DB in Hzb as (_ & _ & ? & ?). set_solver. }
  destruct (Transplant_ok h1 t m k x y c (addr s a) (addr s b) _ Hk1 Hx1 Hwf
    ltac:(set_solver) HLR Px Hxs HxLR Hxy x c2 (addr s b) (addr s g)) as (h2 & -> & Hk2 & Hy2 & Hf2).
  { right. auto. }
  fold s in Hk2, Hy2, Hf2. rewrite bind_val. specialize (Hy2 Hys).
  assert (h2 !! x = Some (mk (pa s k) c true (addr s a) (addr s b))) as Hx2.
  { rewrite Hf2; [done | by apply Dpa | by left]. }
  xs. eexists. split; [reflexivity|].
  assert (forall z, z <> x -> z <> y -> z <> s -> (z ∉ lefts k ++ rights k) -> (z ∉ inorder b) ->
    <[x := mk y c true (addr s a) (addr s b)]> (<[y := mk (pa s k) c2 true x (addr s g)]> h2) !! z =
    h !! z) as Hfr.
  { intros z ? ? ? ? ?. rewrite !lookup_insert_ne by done. rewrite Hf2; [|by apply Dpa|by left].
    rewrite Hf1 by done. by rewrite lookup_insert_ne. }
  split.
  - split; [| |by revert Hwf0; simpl; list_simplifier].
    + simpl. split_and!; [lk | lk | | |].
      * eapply rep_frame; [|exact Ha]. intros z Hz. apply Hfr; by apply DA.
      * eapply rep_frame; [|exact Hb1]. intros z Hz. destruct (DB z Hz) as (? & ? & ? & ?).
        rewrite !lookup_insert_ne by done. apply Hf2; [by apply Dpa | by left].
      * eapply rep_frame; [|exact Hg]. intros z Hz. apply Hfr; by apply DG.
    + eapply repc_frame; [|exact Hk2]. intros z Hz. rewrite !lookup_insert_ne; [done | set_solver | set_solver].
  - intros z Hz. simpl in Hz. apply Hfr; set_solver.
Qed.

Lemma RightRotate_ok h t m k c g x c2 b y a :
  let s := sentinel t in
  focus h s m (N c (N c2 g y b) x a) k ->
  exists h', RightRotate h t x = Val h' /\ focus h' s m (N c2 g y (N c b x a)) k /\
    only h h' s (lefts k ++ inorder (N c (N c2 g y b) x a) ++ rights k).
Proof.
  intros s H. pose proof (focus_ptr _ _ _ _ _ H) as Ppk. destruct H as [Ht Hk Hwf].
  simpl in Ht, Hk. destruct Ht as (Hx & (Hy & Hg & Hb) & Ha). pose proof Hwf as Hwf0. simpl in Hwf.
  rewrite <- (app_assoc (inorder g)) in Hwf. simpl in Hwf.
  destruct (wf_two _ _ _ _ _ _ _ _ Hwf) as
    (Ps & Py & Px & Hys & Hxs & Hyx & HyLR & HxLR & HLR & HNb & Hsb & Hyb & Hxb & DG & DB & DA).
  pose proof (pa_in s k) as Hpk.
  assert (forall z, z <> s -> (z ∉ lefts k ++ rights k) -> z <> pa s k) as Dpa by set_solver.
  unfold RightRotate. fold s. xs.
  destruct (reparent_ok (<[x := mk (pa s k) c true (addr s b) (addr s a)]> h) s y x b)
    as (h1 & Hrun1 & Hb1 & Hf1); [ | done | done | done | done |].
  { eapply rep_frame; [|exact Hb]. intros z Hz. apply lookup_insert_ne. by apply not_eq_sym, DB. }
  rewrite Hrun1, bind_val.
  assert (h1 !! x = Some (mk (pa s k) c true (addr s b) (addr s a))) as Hx1 by (rewrite Hf1 by done; lk).
  assert (h1 !! y = Some (mk x c2 true (addr s g) (addr s b))) as Hy1 by (rewrite Hf1 by done; lk).
  assert (repc h1 s m k x) as Hk1.
  { eapply repc_frame; [|exact Hk]. intros z Hz. rewrite Hf1; [apply lookup_insert_ne; set_solver|].
    intros Hzb. apply DB in Hzb as (_ & _ & ? & ?). set_solver. }
  destruct (Transplant_ok h1 t m k x y c (addr s b) (addr s a) _ Hk1 Hx1 Hwf
    ltac:(set_solver) HLR Px Hxs HxLR (not_eq_sym Hyx) x c2 (addr s g) (addr s b))
    as (h2 & -> & Hk2 & Hy2 & Hf2).
  { right. auto. }
  fold s in Hk2, Hy2, Hf2. rewrite bind_val. specialize (Hy2 Hys).
  assert (h2 !! x = Some (mk (pa s k) c true (addr s b) (addr s a))) as Hx2.
  { rewrite Hf2; [done | by apply Dpa | by left; apply not_eq_sym]. }
  xs. eexists. split; [reflexivity|].
  assert (forall z, z <> x -> z <> y -> z <> s -> (z ∉ lefts k ++ rights k) -> (z ∉ inorder b) ->
    <[x := mk y c true (addr s b) (addr s a)]> (<[y := mk (pa s k) c2 true (addr s g) x]> h2) !! z =
    h !! z) as Hfr.
  { intros z ? ? ? ? ?. rewrite !lookup_insert_ne by done. rewrite Hf2; [|by apply Dpa|by left].
    rewrite Hf1 by done. by rewrite lookup_insert_ne. }
  split.
  - split; [| |by revert Hwf0; simpl; list_simplifier].
    + simpl. split_and!; [lk | | lk | |].
      * eapply rep_frame; [|exact Hg]. intros z Hz. apply Hfr; by apply DG.
      * eapply rep_frame; [|exact Hb1]. intros z Hz. destruct (DB z Hz) as (? & ? & ? & ?).
        rewrite !lookup_insert_ne by done. apply Hf2; [by apply Dpa | by left].
      * eapply rep_frame; [|exact Ha]. intros z Hz. apply Hfr; by apply DA.
    + eapply repc_frame; [|exact Hk2]. intros z Hz. rewrite !lookup_insert_ne; [done | set_solver | set_solver].
  - intros z Hz. simpl in Hz. apply Hfr; set_solver.
Qed.

End RBTreeRep.
