(* ===== verification/RBTreeInsert.v ===== *)
(** * Red-black insertion

    Colour and black-height invariants of trees and zippers, and the proof that
    [InsertFixup] restores them, without moving a node in the order and without
    touching memory outside the tree. *)

From S2P Require Import Prelude RBTree RBTreeRep.

Import RBTree RBTreeRep.

Module RBTreeInsert.

(** ** The red-black invariants *)

(** [t] has black height [n] and no red node with a red child. *)
Fixpoint is_rb (t : tr) (n : nat) : Prop :=
  match t with
  | E => n = 0%nat
  | N true l _ r => is_rb l n /\ is_rb r n /\ tred l = false /\ tred r = false
  | N false l _ r => match n with O => False | S n => is_rb l n /\ is_rb r n end
  end.

Definition sib (f : frame) : tr := match f with FL _ _ r => r | FR _ l _ => l end.

Definition top_black (k : ctx) : Prop := match k with [] => False | f :: _ => fred f = false end.

(** A path whose hole expects a subtree of black height [n]; a red node on it has
    a black parent, so the outermost node is black. *)
Fixpoint ctx_rb (k : ctx) (n : nat) : Prop :=
  match k with
  | [] => True
  | f :: k =>
      is_rb (sib f) n /\
      (if fred f then tred (sib f) = false /\ top_black k /\ ctx_rb k n else ctx_rb k (S n))
  end.

Definition blacken (t : tr) : tr := match t with E => E | N _ l a r => N false l a r end.

Lemma is_rb_plug k : forall t n,
  is_rb t n -> ctx_rb k n -> (tred t = false \/ top_black k) -> exists n', is_rb (plug k t) n'.
Proof.
  induction k as [|f k IH]; intros t n Ht Hk Hc; [simpl; eauto|].
  simpl in Hk. destruct Hk as [Hs Hk]. simpl plug. destruct (fred f) eqn:Hf.
  - destruct Hk as (Hsc & Htop & Hk). apply (IH (plug1 f t) n); [|done|by right].
    destruct Hc as [Hc|Hc]; [|simpl in Hc; congruence].
    destruct f as [[] a r|[] l a]; simpl in *; try done; tauto.
  - apply (IH (plug1 f t) (S n)); [|done|left; by destruct f as [[] a r|[] l a]].
    destruct f as [[] a r|[] l a]; simpl in *; try done; tauto.
Qed.

Lemma plug_top k : forall t n, k <> [] -> ctx_rb k n -> tred (plug k t) = false.
Proof.
  induction k as [|f k IH]; intros t n Hne Hk; [done|].
  simpl in Hk. destruct Hk as [_ Hk]. simpl plug. destruct k as [|f2 k].
  - destruct (fred f) eqn:Hf; [simpl in Hk; tauto|]. by destruct f as [[] ? ?|[] ? ?].
  - destruct (fred f); [eapply IH; [done | apply Hk] | by eapply IH].
Qed.

Lemma is_rb_blacken t n : is_rb t n -> exists n', is_rb (blacken t) n'.
Proof.
  destruct t as [|[] l a r]; simpl; [eauto| |eauto]. intros (? & ? & ? & ?). exists (S n). auto.
Qed.

(** Splitting a valid tree with a black root at a subtree. *)
Lemma is_rb_unplug k : forall t n,
  is_rb (plug k t) n -> tred (plug k t) = false ->
  exists n', is_rb t n' /\ ctx_rb k n' /\ (tred t = false \/ top_black k).
Proof.
  induction k as [|f k IH]; intros t n Ht Hb; simpl in *; [eauto|].
  destruct (IH _ _ Ht Hb) as (n1 & H1 & Hk & Hc).
  destruct f as [[] a r|[] l a]; simpl in H1, Hc |- *.
  - exists n1. destruct H1 as (? & ? & ? & ?). destruct Hc as [?|?]; [done|]. auto 10.
  - destruct n1 as [|n1]; [done|]. exists n1. destruct H1. auto.
  - exists n1. destruct H1 as (? & ? & ? & ?). destruct Hc as [?|?]; [done|]. auto 10.
  - destruct n1 as [|n1]; [done|]. exists n1. destruct H1. auto.
Qed.

(** ** Reading and recolouring at a focus *)

Lemma focus_node h s m c l a r k :
  focus h s m (N c l a r) k ->
  h !! a = Some (mk (pa s k) c true (addr s l) (addr s r)) /\ is_ptr (pa s k) /\ is_ptr a /\ a <> s.
Proof.
  intros H. pose proof (focus_ptr _ _ _ _ _ H). destruct H as [Ht _ Hwf]. simpl in Ht, Hwf.
  destruct (wf_node _ _ _ _ _ _ Hwf) as (Ha & Has & _). split_and!; [tauto|done|by apply is_addr_ptr|done].
Qed.

Lemma focus_up h s m t k : focus h s m t k -> focus h s m (plug k t) [].
Proof. intros H. rewrite <- (app_nil_r k) in H. by apply focus_plug in H. Qed.

Lemma focus_down h s m t k : focus h s m (plug k t) [] -> focus h s m t k.
Proof. intros H. rewrite <- (app_nil_r k). by apply focus_plug. Qed.

Lemma focus_sentinel h s m t k :
  focus h s m t k -> h !! s = Some (mk (addr s (plug k t)) false false m s) /\ is_ptr (addr s (plug k t)).
Proof.
  intros H. apply focus_up in H. destruct H as [_ Hk Hwf]. simpl in Hk, Hwf.
  split; [done|]. eapply wf_ptr; [done|]. pose proof (addr_in s (plug k t)). set_solver.
Qed.

Lemma focus_root h t m u k : focus h (sentinel t) m u k -> root h t = Val (addr (sentinel t) (plug k u)).
Proof.
  intros H. destruct (focus_sentinel _ _ _ _ _ H) as [Hs Hp]. unfold root. by erewrite ld_parent.
Qed.

Lemma focus_IsRed h s m t k : focus h s m t k -> IsRed h (addr s t) = Val (tred t).
Proof.
  intros H. destruct t as [|c l a r]; simpl.
  - destruct (focus_sentinel _ _ _ _ _ H) as [Hs Hp]. by erewrite ld_red.
  - destruct (focus_node _ _ _ _ _ _ _ _ H) as (Ha & Pp & _). by erewrite ld_red.
Qed.

Lemma focus_IsBlack h s m t k : focus h s m t k -> IsBlack h (addr s t) = Val (negb (tred t)).
Proof. intros H. unfold IsBlack. by rewrite (focus_IsRed _ _ _ _ _ H). Qed.

Lemma focus_color h s m c c' l a r k :
  focus h s m (N c l a r) k ->
  exists h', set_red h a c' = Val h' /\ focus h' s m (N c' l a r) k /\
    only h h' s (lefts k ++ inorder (N c l a r) ++ rights k).
Proof.
  intros H. destruct (focus_node _ _ _ _ _ _ _ _ H) as (Ha & Pp & Pa & Has).
  destruct H as [Ht Hk Hwf]. pose proof Hwf as Hwf0. simpl in Ht, Hk, Hwf.
  destruct (wf_node _ _ _ _ _ _ Hwf) as (_ & _ & Hout & _ & DA & DB). destruct Ht as (_ & Hl & Hr).
  erewrite st_red by done. eexists. split; [reflexivity|]. split.
  - split; [| |done].
    + simpl. split_and!; [apply lookup_insert_eq | |].
      * eapply rep_frame; [|exact Hl]. intros z Hz. apply lookup_insert_ne, not_eq_sym. by apply DA.
      * eapply rep_frame; [|exact Hr]. intros z Hz. apply lookup_insert_ne, not_eq_sym. by apply DB.
    + eapply repc_frame; [|exact Hk]. intros z Hz. apply lookup_insert_ne. intros ->. done.
  - intros z Hz. apply lookup_insert_ne. simpl in Hz. set_solver.
Qed.

(** The root's address tells whether the focus is at the root. *)
Lemma plug_addr s k : forall t, k <> [] -> addr s (plug k t) ∈ lefts k ++ rights k.
Proof.
  induction k as [|f k IH]; intros t Hne; [done|]. simpl plug.
  assert (faddr f ∈ lefts (f :: k) ++ rights (f :: k)) as Hin by (destruct f; simpl; set_solver).
  destruct k as [|f2 k]; [by destruct f|].
  specialize (IH (plug1 f t) ltac:(done)). revert IH. generalize (f2 :: k). intros k' IH.
  destruct f; simpl; set_solver.
Qed.

Lemma focus_at_root h s m u k :
  focus h s m u k -> k = [] \/ addr s u <> addr s (plug k u).
Proof.
  intros [_ _ [HN _]]. destruct k as [|f k]; [by left|]. right. intros Heq.
  pose proof (plug_addr s (f :: k) u ltac:(done)) as Hin. rewrite <- Heq in Hin.
  pose proof (addr_in s u) as Hu.
  apply NoDup_cons in HN as [Hs HN]. apply NoDup_app in HN as (_ & HL & HN).
  apply NoDup_app in HN as (_ & HR & _).
  apply elem_of_cons in Hu as [Hu|Hu]; [rewrite Hu in Hin; set_solver|].
  apply elem_of_app in Hin as [Hin|Hin]; [apply (HL _ Hin); set_solver | by apply (HR _ Hu)].
Qed.

(** ** Steps of the rebalancing loops

    [At h m u k]: the heap [h] holds the tree with the nodes [W] in order, seen
    from its subtree [u], and differs from [h0] only inside it. *)
Section steps.
Context (h0 : heap) (t : tree) (W : list Z).

Definition At (h : heap) (m : Z) (u : tr) (k : ctx) : Prop :=
  focus h (sentinel t) m u k /\ only h0 h (sentinel t) W /\ inorder (plug k u) = W.

Lemma At_move h m u f k : At h m u (f :: k) <-> At h m (plug1 f u) k.
Proof. unfold At. by rewrite focus_move. Qed.

Lemma At_plug h m u k k' : At h m u (k ++ k') <-> At h m (plug k u) k'.
Proof. unfold At. by rewrite focus_plug, plug_app. Qed.

Lemma At_focus h m u k : At h m u k -> focus h (sentinel t) m u k.
Proof. by intros [? _]. Qed.

Lemma At_color c' h m c l a r k :
  At h m (N c l a r) k -> exists h', set_red h a c' = Val h' /\ At h' m (N c' l a r) k.
Proof.
  intros (H & Ho & HW). destruct (focus_color _ _ _ _ c' _ _ _ _ H) as (h' & -> & H' & Ho').
  exists h'. split; [done|]. split; [done|]. rewrite inorder_plug in HW. split.
  - eapply only_trans; [exact Ho|]. by rewrite HW in Ho'.
  - by rewrite inorder_plug.
Qed.

Lemma At_left_rotate h m k c a x c2 b y g :
  At h m (N c a x (N c2 b y g)) k ->
  exists h', LeftRotate h t x = Val h' /\ At h' m (N c2 (N c a x b) y g) k.
Proof.
  intros (H & Ho & HW). destruct (LeftRotate_ok _ _ _ _ _ _ _ _ _ _ _ H) as (h' & -> & H' & Ho').
  exists h'. split; [done|]. split; [done|]. rewrite inorder_plug in HW. split.
  - eapply only_trans; [exact Ho|]. by rewrite HW in Ho'.
  - rewrite inorder_plug. rewrite <- HW. simpl. by list_simplifier.
Qed.

Lemma At_right_rotate h m k c g x c2 b y a :
  At h m (N c (N c2 g y b) x a) k ->
  exists h', RightRotate h t x = Val h' /\ At h' m (N c2 g y (N c b x a)) k.
Proof.
  intros (H & Ho & HW). destruct (RightRotate_ok _ _ _ _ _ _ _ _ _ _ _ H) as (h' & -> & H' & Ho').
  exists h'. split; [done|]. split; [done|]. rewrite inorder_plug in HW. split.
  - eapply only_trans; [exact Ho|]. by rewrite HW in Ho'.
  - rewrite inorder_plug. rewrite <- HW. simpl. by list_simplifier.
Qed.

Lemma At_node h m c l a r k :
  At h m (N c l a r) k ->
  h !! a = Some (mk (pa (sentinel t) k) c true (addr (sentinel t) l) (addr (sentinel t) r)) /\
  is_ptr (pa (sentinel t) k) /\ is_ptr a /\ a <> sentinel t.
Proof. intros [H _]. by eapply focus_node. Qed.

Lemma addr_neq h m c l a r f k :
  At h m (N c l a r) (f :: k) -> addr (sentinel t) (sib f) <> a /\ faddr f <> a.
Proof.
  intros [[_ _ Hwf] _]. simpl in Hwf. destruct (wf_node _ _ _ _ _ _ Hwf) as (_ & Has & Hout & _).
  pose proof (addr_in (sentinel t) (sib f)). destruct f; simpl in *; set_solver.
Qed.

(** *** The iteration of InsertFixup *)

(** Case 1: parent and uncle are red; the violation moves to the grandparent. *)
Lemma insert_left_case1 h m x pl p pr g ul u ur k :
  At h m (N true pl p pr) (FL false g (N true ul u ur) :: k) ->
  exists h', insert_fixup_left h t x p g = Val (h', g) /\
    At h' m (N true (N false pl p pr) g (N false ul u ur)) k.
Proof.
  intros H. destruct (At_color false _ _ _ _ _ _ _ H) as (h1 & Hb1 & H1).
  apply At_move in H1. simpl in H1.
  apply (At_move h1 m (N true ul u ur) (FR false (N false pl p pr) g) k) in H1.
  destruct (At_color false _ _ _ _ _ _ _ H1) as (h2 & Hb2 & H2).
  apply At_move in H2. simpl in H2.
  destruct (At_color true _ _ _ _ _ _ _ H2) as (h3 & Hb3 & H3).
  exists h3. split; [|done]. apply At_move in H. simpl in H.
  destruct (At_node _ _ _ _ _ _ _ H) as (Hg & Pk & _). simpl in Hg.
  unfold insert_fixup_left. erewrite (ld_right h g) by done. rewrite bind_val.
  apply (At_move h m (N true ul u ur) (FR false (N true pl p pr) g) k) in H.
  destruct (At_node _ _ _ _ _ _ _ H) as (Hu & Pu & _). erewrite (ld_red h u) by done. rewrite bind_val.
  unfold Black, Red. rewrite Hb1, bind_val, Hb2, bind_val, Hb3. done.
Qed.

Lemma insert_right_case1 h m x pl p pr g ul u ur k :
  At h m (N true pl p pr) (FR false (N true ul u ur) g :: k) ->
  exists h', insert_fixup_right h t x p g = Val (h', g) /\
    At h' m (N true (N false ul u ur) g (N false pl p pr)) k.
Proof.
  intros H. destruct (At_color false _ _ _ _ _ _ _ H) as (h1 & Hb1 & H1).
  apply At_move in H1. simpl in H1.
  apply (At_move h1 m (N true ul u ur) (FL false g (N false pl p pr)) k) in H1.
  destruct (At_color false _ _ _ _ _ _ _ H1) as (h2 & Hb2 & H2).
  apply At_move in H2. simpl in H2.
  destruct (At_color true _ _ _ _ _ _ _ H2) as (h3 & Hb3 & H3).
  exists h3. split; [|done]. apply At_move in H. simpl in H.
  destruct (At_node _ _ _ _ _ _ _ H) as (Hg & Pk & _). simpl in Hg.
  unfold insert_fixup_right. erewrite (ld_left h g) by done. rewrite bind_val.
  apply (At_move h m (N true ul u ur) (FL false g (N true pl p pr)) k) in H.
  destruct (At_node _ _ _ _ _ _ _ H) as (Hu & Pu & _). erewrite (ld_red h u) by done. rewrite bind_val.
  unfold Black, Red. rewrite Hb1, bind_val, Hb2, bind_val, Hb3. done.
Qed.

(** Case 3: recolour and rotate the grandparent. *)
Lemma insert_left_case3 h m X p u1 g U k :
  At h m X (FL true p u1 :: FL false g U :: k) ->
  exists h', (h ← Black h p; h ← Red h g; h ← RightRotate h t g; Val (h, addr (sentinel t) X)) =
      Val (h', addr (sentinel t) X) /\
    At h' m X (FL false p (N true u1 g U) :: k).
Proof.
  intros H. apply At_move in H. simpl in H.
  destruct (At_color false _ _ _ _ _ _ _ H) as (h1 & Hb1 & H1). apply At_move in H1. simpl in H1.
  destruct (At_color true _ _ _ _ _ _ _ H1) as (h2 & Hb2 & H2).
  destruct (At_right_rotate _ _ _ _ _ _ _ _ _ _ H2) as (h3 & Hr & H3).
  exists h3. unfold Black, Red. rewrite Hb1, bind_val, Hb2, bind_val, Hr. split; [done|].
  by apply At_move.
Qed.

Lemma insert_right_case3 h m X p u1 g U k :
  At h m X (FR true u1 p :: FR false U g :: k) ->
  exists h', (h ← Black h p; h ← Red h g; h ← LeftRotate h t g; Val (h, addr (sentinel t) X)) =
      Val (h', addr (sentinel t) X) /\
    At h' m X (FR false (N true U g u1) p :: k).
Proof.
  intros H. apply At_move in H. simpl in H.
  destruct (At_color false _ _ _ _ _ _ _ H) as (h1 & Hb1 & H1). apply At_move in H1. simpl in H1.
  destruct (At_color true _ _ _ _ _ _ _ H1) as (h2 & Hb2 & H2).
  destruct (At_left_rotate _ _ _ _ _ _ _ _ _ _ H2) as (h3 & Hr & H3).
  exists h3. unfold Black, Red. rewrite Hb1, bind_val, Hb2, bind_val, Hr. split; [done|].
  by apply At_move.
Qed.

(** Cases 2 and 3 in the left branch, the uncle being black. The node that is
    red under a black parent afterwards is the old node or the old parent. *)
Lemma insert_left_cases23 h m l x r f g U k :
  At h m (N true l x r) (f :: FL false g U :: k) -> fred f = true -> tred U = false ->
  exists h' l' x' r' p' u', insert_fixup_left h t x (faddr f) g = Val (h', x') /\
    At h' m (N true l' x' r') (FL false p' (N true u' g U) :: k) /\
    match f with
    | FL _ p pr => l' = l /\ r' = r /\ u' = pr
    | FR _ pl p => l' = pl /\ r' = l /\ u' = r
    end.
Proof.
  intros H Hf HU. pose proof H as H0. apply At_move in H0.
  remember (plug1 f (N true l x r)) as P eqn:HP. apply At_move in H0. simpl in H0.
  destruct (At_node _ _ _ _ _ _ _ H0) as (Hg & Pk & _ & Hgs).
  unfold insert_fixup_left. erewrite (ld_right h g) by done. rewrite bind_val.
  apply (At_move h m U (FR false P g) k) in H0.
  rewrite (focus_IsRed _ _ _ _ _ (At_focus _ _ _ _ H0)), HU, bind_val.
  pose proof H as H1. apply At_move in H1. pose proof (addr_neq _ _ _ _ _ _ _ _ H) as [Hsib Hfx].
  destruct f as [[] p pr|[] pl p]; [|done| |done]; simpl in H1, Hsib, Hfx |- *;
    destruct (At_node _ _ _ _ _ _ _ H1) as (Hp & Pp & _ & _); simpl in Hp;
    erewrite (ld_right h p) by done; rewrite bind_val.
  - rewrite (proj2 (Z.eqb_neq x _)) by done. rewrite bind_val.
    destruct (insert_left_case3 _ _ _ _ _ _ _ _ H) as (h' & Hrun & H'). simpl in Hrun. rewrite Hrun.
    exists h', l, x, r, p, pr. auto.
  - rewrite Z.eqb_refl. destruct (At_left_rotate _ _ _ _ _ _ _ _ _ _ H1) as (h1 & Hr & H2).
    rewrite Hr, bind_val. apply (At_move h1 m (N true pl p l) (FL true x r)) in H2.
    destruct (At_node _ _ _ _ _ _ _ H2) as (Hp2 & Pp2 & _). simpl in Hp2, Pp2.
    erewrite (ld_parent h1 p) by done. rewrite !bind_val.
    destruct (insert_left_case3 _ _ _ _ _ _ _ _ H2) as (h' & Hrun & H'). simpl in Hrun. rewrite Hrun.
    exists h', pl, p, l, x, r. auto.
Qed.

Lemma insert_right_cases23 h m l x r f g U k :
  At h m (N true l x r) (f :: FR false U g :: k) -> fred f = true -> tred U = false ->
  exists h' l' x' r' p' u', insert_fixup_right h t x (faddr f) g = Val (h', x') /\
    At h' m (N true l' x' r') (FR false (N true U g u') p' :: k) /\
    match f with
    | FR _ pl p => l' = l /\ r' = r /\ u' = pl
    | FL _ p pr => l' = r /\ r' = pr /\ u' = l
    end.
Proof.
  intros H Hf HU. pose proof H as H0. apply At_move in H0.
  remember (plug1 f (N true l x r)) as P eqn:HP. apply At_move in H0. simpl in H0.
  destruct (At_node _ _ _ _ _ _ _ H0) as (Hg & Pk & _ & Hgs).
  unfold insert_fixup_right. erewrite (ld_left h g) by done. rewrite bind_val.
  apply (At_move h m U (FL false g P) k) in H0.
  rewrite (focus_IsRed _ _ _ _ _ (At_focus _ _ _ _ H0)), HU, bind_val.
  pose proof H as H1. apply At_move in H1. pose proof (addr_neq _ _ _ _ _ _ _ _ H) as [Hsib Hfx].
  destruct f as [[] p pr|[] pl p]; [|done| |done]; simpl in H1, Hsib, Hfx |- *;
    destruct (At_node _ _ _ _ _ _ _ H1) as (Hp & Pp & _ & _); simpl in Hp;
    erewrite (ld_left h p) by done; rewrite bind_val.
  - rewrite Z.eqb_refl. destruct (At_right_rotate _ _ _ _ _ _ _ _ _ _ H1) as (h1 & Hr & H2).
    rewrite Hr, bind_val. apply (At_move h1 m (N true r p pr) (FR true l x)) in H2.
    destruct (At_node _ _ _ _ _ _ _ H2) as (Hp2 & Pp2 & _). simpl in Hp2, Pp2.
    erewrite (ld_parent h1 p) by done. rewrite !bind_val.
    destruct (insert_right_case3 _ _ _ _ _ _ _ _ H2) as (h' & Hrun & H'). simpl in Hrun. rewrite Hrun.
    exists h', r, p, pr, x, l. auto.
  - rewrite (proj2 (Z.eqb_neq x _)) by done. rewrite bind_val.
    destruct (insert_right_case3 _ _ _ _ _ _ _ _ H) as (h' & Hrun & H'). simpl in Hrun. rewrite Hrun.
    exists h', l, x, r, p, pl. auto.
Qed.

Lemma At_not_null h m c l a r k : At h m (N c l a r) k -> a <> nullptr.
Proof.
  intros [[_ _ Hwf] _]. simpl in Hwf. destruct (wf_node _ _ _ _ _ _ Hwf) as ([? _] & _).
  unfold nullptr. lia.
Qed.

(** A node is one of its parent's children, as the code asserts. *)
Lemma assert_child_ok h m u f k :
  At h m u (f :: k) ->
  assert (orp (eqp (left h (faddr f)) (addr (sentinel t) u))
              (eqp (right h (faddr f)) (addr (sentinel t) u))) = Val tt.
Proof.
  intros H. apply At_move in H. destruct f as [c p pr|c pl p]; simpl in H |- *;
    destruct (At_node _ _ _ _ _ _ _ H) as (Hp & Pp & _ & _); unfold assert, orp, eqp;
    erewrite (ld_left h p) by done; rewrite !bind_val.
  - rewrite Z.eqb_refl. done.
  - erewrite (ld_right h p) by done. rewrite !bind_val, Z.eqb_refl. by destruct (_ =? _).
Qed.

(** One iteration with a red parent: either the violation moves two levels up, or
    it is gone and the next test stops the loop. *)
Lemma insert_step h m l x r f f2 k n :
  At h m (N true l x r) (f :: f2 :: k) -> fred f = true -> ctx_rb (f :: f2 :: k) n ->
  is_rb l n -> is_rb r n -> tred l = false -> tred r = false ->
  exists h' l' x' r' k' n',
    (gl ← left h (faddr f2);
     if faddr f =? gl then insert_fixup_left h t x (faddr f) (faddr f2)
     else insert_fixup_right h t x (faddr f) (faddr f2)) = Val (h', x') /\
    At h' m (N true l' x' r') k' /\ (length k' < length (f :: f2 :: k))%nat /\ ctx_rb k' n' /\
    is_rb l' n' /\ is_rb r' n' /\ tred l' = false /\ tred r' = false.
Proof.
  intros H Hf Hk Hl Hr Hlc Hrc. pose proof H as HP. apply At_move in HP.
  assert (exists pl pr, plug1 f (N true l x r) = N true pl (faddr f) pr) as (pl & pr & EP).
  { destruct f as [[] ? ?|[] ? ?]; simpl in *; try done; eauto. }
  rewrite EP in HP. simpl in Hk. rewrite Hf in Hk. destruct Hk as (Hs1 & Hs1c & Hf2 & Hk).
  simpl in Hf2. rewrite Hf2 in Hk. destruct Hk as [Hs2 Hk].
  pose proof (addr_neq _ _ _ _ _ _ _ _ HP) as [Hsib _].
  pose proof HP as HG. apply At_move in HG.
  destruct f2 as [[] g U|[] U g]; try done; simpl in HG, Hsib, Hs2 |- *;
    destruct (At_node _ _ _ _ _ _ _ HG) as (Hg & Pg & _ & _);
    erewrite (ld_left h g) by done; rewrite bind_val; simpl.
  - rewrite Z.eqb_refl. destruct (tred U) eqn:HU.
    + destruct U as [|[] ul u ur]; try done.
      destruct (insert_left_case1 h m x pl (faddr f) pr g ul u ur k HP) as (h' & -> & H').
      eexists h', _, g, _, k, (S n). split_and!; [done | exact H' | simpl; lia | done | | | done | done].
      * destruct f as [[] ? ?|[] ? ?]; simpl in *; try done; simplify_eq; split_and!; simpl; auto.
      * destruct Hs2 as (? & ? & ? & ?). simpl. auto.
    + destruct (insert_left_cases23 _ _ _ _ _ _ _ _ _ H Hf HU) as (h' & l' & x' & r' & p' & u' & -> & H' & Hcase).
      exists h', l', x', r', (FL false p' (N true u' g U) :: k), n.
      destruct f as [[] ? ?|[] ? ?]; try done; simpl in *; destruct_and!; subst;
        split_and!; auto; lia.
  - rewrite (proj2 (Z.eqb_neq _ _)) by (intros Heq; by rewrite Heq in Hsib). destruct (tred U) eqn:HU.
    + destruct U as [|[] ul u ur]; try done.
      destruct (insert_right_case1 h m x pl (faddr f) pr g ul u ur k HP) as (h' & -> & H').
      eexists h', _, g, _, k, (S n). split_and!; [done | exact H' | simpl; lia | done | | | done | done].
      * destruct Hs2 as (? & ? & ? & ?). simpl. auto.
      * destruct f as [[] ? ?|[] ? ?]; simpl in *; try done; simplify_eq; split_and!; simpl; auto.
    + destruct (insert_right_cases23 _ _ _ _ _ _ _ _ _ H Hf HU) as (h' & l' & x' & r' & p' & u' & -> & H' & Hcase).
      exists h', l', x', r', (FR false (N true U g u') p' :: k), n.
      destruct f as [[] ? ?|[] ? ?]; try done; simpl in *; destruct_and!; subst;
        split_and!; auto; lia.
Qed.

Lemma insert_fixup_loop_ok m fuel : forall h l x r k n,
  (length k < fuel)%nat ->
  At h m (N true l x r) k -> ctx_rb k n ->
  is_rb l n -> is_rb r n -> tred l = false -> tred r = false ->
  exists h' T, insert_fixup_loop fuel h t x = Val h' /\ At h' m T [] /\ T <> E /\
    exists n', is_rb (blacken T) n'.
Proof.
  induction fuel as [|fuel IH]; intros h l x r k n Hfuel H Hk Hl Hr Hlc Hrc; [lia|].
  pose proof (At_focus _ _ _ _ H) as HF. cbn [insert_fixup_loop].
  rewrite (focus_root _ _ _ _ _ HF), bind_val.
  destruct (At_node _ _ _ _ _ _ _ H) as (Hx & Pp & Px & Hxs).
  assert ((k = [] \/ (exists f k', k = f :: k' /\ fred f = false)) ->
    exists h' T, Val h = Val h' /\ At h' m T [] /\ T <> E /\ exists n', is_rb (blacken T) n') as Hstop.
  { intros Hcase. exists h, (plug k (N true l x r)). split; [done|].
    rewrite <- (app_nil_r k) in H. apply At_plug in H. split; [done|]. split.
    { intros E0. apply (f_equal inorder) in E0. rewrite inorder_plug in E0. simpl in E0.
      destruct (lefts k); [destruct (inorder l)|]; done. }
    destruct Hcase as [->|(f & k' & -> & Hf)].
    - exists (S n). simpl. auto.
    - destruct (is_rb_plug (f :: k') (N true l x r) n) as (n' & Hn'); [by simpl|done|by right|].
      eapply is_rb_blacken. exact Hn'. }
  destruct (focus_at_root _ _ _ _ _ HF) as [->|Hroot].
  { simpl. rewrite Z.eqb_refl. simpl. apply Hstop. by left. }
  change (addr (sentinel t) (N true l x r)) with x in Hroot.
  unfold andp. rewrite (proj2 (Z.eqb_neq _ _) Hroot). cbn [negb]. rewrite bind_val.
  erewrite (ld_parent h x) by done. xb.
  destruct k as [|f k]; [done|]. cbn [pa] in *.
  assert (IsRed h (faddr f) = Val (fred f)) as Hred.
  { pose proof H as HP. apply At_move in HP.
    assert (faddr f = addr (sentinel t) (plug1 f (N true l x r))) as -> by (by destruct f).
    rewrite (focus_IsRed _ _ _ _ _ (At_focus _ _ _ _ HP)). by destruct f. }
  rewrite Hred. xb. destruct (fred f) eqn:Hf; cbn [negb].
  2: { apply Hstop. right. eauto. }
  destruct k as [|f2 k]; [simpl in Hk; rewrite Hf in Hk; tauto|].
  pose proof H as HP. apply At_move in HP.
  assert (exists pl pr, plug1 f (N true l x r) = N true pl (faddr f) pr) as (pl & pr & EP).
  { destruct f as [[] ? ?|[] ? ?]; simpl in *; try done; eauto. }
  rewrite EP in HP. destruct (At_node _ _ _ _ _ _ _ HP) as (Hp & Pf2 & _ & Hps). cbn [pa] in Hp, Pf2.
  pose proof (At_not_null _ _ _ _ _ _ _ HP) as Hp0.
  pose proof HP as HG. apply At_move in HG.
  assert (exists gl gr, plug1 f2 (N true pl (faddr f) pr) = N false gl (faddr f2) gr) as (gl & gr & EG).
  { simpl in Hk. rewrite Hf in Hk. destruct Hk as (_ & _ & Hf2 & _).
    destruct f2 as [[] ? ?|[] ? ?]; simpl in *; try done; eauto. }
  rewrite EG in HG. destruct (At_node _ _ _ _ _ _ _ HG) as (Hg & Pg & _ & Hgs).
  pose proof (At_not_null _ _ _ _ _ _ _ HG) as Hg0.
  xb. pose proof (assert_child_ok _ _ _ _ _ H) as Has. simpl addr in Has. rewrite Has, bind_val.
  unfold assert at 1. xb.
  erewrite (ld_parent h (faddr f)) by done. xb.
  pose proof (assert_child_ok _ _ _ _ _ HP) as Has2. simpl addr in Has2. rewrite Has2, bind_val.
  unfold assert at 1. erewrite (ld_black h (faddr f2)) by done. xb.
  destruct (insert_step h m l x r f f2 k n H Hf Hk Hl Hr Hlc Hrc)
    as (h' & l' & x' & r' & k' & n' & Hrun & H' & Hlen & Hk' & Hl' & Hr' & Hlc' & Hrc').
  rewrite (ld_left _ _ _ _ _ _ _ Hg), bind_val in Hrun. rewrite (ld_left _ _ _ _ _ _ _ Hg), bind_val, Hrun, bind_val.
  eapply (IH h' l' x' r' k' n'); auto. simpl in Hfuel, Hlen. lia.
Qed.

End steps.

End RBTreeInsert.
