(* ===== verification/RBTreeOrder.v ===== *)
(** * The red-black tree as an ordered sequence: insertion

    What it means that a tree object in the heap holds a sorted sequence of
    elements, and the proof that [Insert] adds an element to that sequence behind
    all elements that are not greater. *)

From S2P Require Import Prelude RBTree RBTreeRep RBTreeInsert.
From Stdlib Require Import Sorting.Sorted.

Import RBTree RBTreeRep RBTreeInsert.

Module RBTreeOrder.

(** Assertions on known values. *)
Lemma eqp_val x a : eqp (Val x) a = Val (x =? a).
Proof. done. Qed.
Lemma neqp_val x a : neqp (Val x) a = Val (negb (x =? a)).
Proof. done. Qed.
Lemma assert_val b : assert (Val b) = ALYRN_CHECK b.
Proof. done. Qed.

Ltac xa := xs; repeat (progress (rewrite ?eqp_val, ?neqp_val, ?assert_val; xs)).

(** The node above the hole of a path, the hole holding [x]. *)
Definition cnode (s m : Z) (k : ctx) (x : Z) : node :=
  match k with
  | [] => mk x false false m s
  | FL c a r :: k => mk (pa s k) c true x (addr s r)
  | FR c l a :: k => mk (pa s k) c true (addr s l) x
  end.

Lemma wf_length s l : wf s l -> Z.of_nat (length l) < 2 ^ 61.
Proof.
  intros [HN HF].
  assert (NoDup ((fun a => a / 8) <$> (s :: l))) as HN'.
  { apply NoDup_fmap_2_strong; [|done]. intros x y Hx Hy Heq. rewrite Forall_forall in HF.
    destruct (HF x Hx) as [_ Mx], (HF y Hy) as [_ My].
    pose proof (Z.div_mod x 8). pose proof (Z.div_mod y 8). lia. }
  apply (NoDup_submseteq _ (seqZ 1 (2 ^ 61 - 1))) in HN'.
  - apply submseteq_length in HN'. rewrite length_fmap, length_seqZ in HN'. simpl length in HN'.
    rewrite Nat2Z.inj_le in HN'. rewrite Z2Nat.id in HN' by lia. lia.
  - intros y Hy. apply list_elem_of_fmap in Hy as (x & -> & Hx). rewrite Forall_forall in HF.
    destruct (HF x Hx) as [Rx Mx]. apply elem_of_seqZ. pose proof (Z.div_mod x 8). lia.
Qed.

Lemma length_ctx k t : (length k + length (inorder t) <= length (inorder (plug k t)))%nat.
Proof.
  rewrite inorder_plug, !length_app.
  assert (length k <= length (lefts k) + length (rights k))%nat as Hk.
  { induction k as [|[] k IH]; simpl; rewrite ?length_app; simpl; rewrite ?length_app; simpl; lia. }
  lia.
Qed.

(** Changing the cached minimum. *)
Lemma focus_set_min h s m m' u k :
  focus h s m u k -> exists h', set_left h s m' = Val h' /\ focus h' s m' u k /\
    (forall z, z <> s -> h' !! z = h !! z).
Proof.
  intros H. destruct (focus_sentinel _ _ _ _ _ H) as [Hs Pr]. erewrite st_left by done.
  eexists. split; [reflexivity|]. split; [|intros z Hz; by apply lookup_insert_ne].
  apply focus_up in H. apply focus_down. destruct H as [Ht Hk Hwf]. split; [| |done].
  - eapply rep_frame; [|exact Ht]. intros z Hz. apply lookup_insert_ne. intros <-.
    apply wf_nodup in Hwf. set_solver.
  - simpl. apply lookup_insert_eq.
Qed.

Lemma focus_frame h h' s m u k :
  focus h s m u k -> (forall z, z ∈ s :: lefts k ++ inorder u ++ rights k -> h' !! z = h !! z) ->
  focus h' s m u k.
Proof.
  intros [Ht Hk Hwf] Hfr. split; [| |done].
  - eapply rep_frame; [|exact Ht]. intros z Hz. apply Hfr. set_solver.
  - eapply repc_frame; [|exact Hk]. intros z Hz. apply Hfr. set_solver.
Qed.

Lemma subtree_at e T : e ∈ inorder T -> exists k c l r, plug k (N c l e r) = T.
Proof.
  induction T as [|c l IHl a r IHr]; simpl; intros Hin; [set_solver|].
  apply elem_of_app in Hin as [Hin|[->|Hin]%elem_of_cons].
  - destruct (IHl Hin) as (k & c' & l' & r' & E0). exists (k ++ [FL c a r]), c', l', r'.
    by rewrite plug_app, E0.
  - by exists [], c, l, r.
  - destruct (IHr Hin) as (k & c' & l' & r' & E0). exists (k ++ [FR c l a]), c', l', r'.
    by rewrite plug_app, E0.
Qed.

Lemma focus_InTree h s m T e : focus h s m T [] -> e ∈ inorder T -> InTree h e = Val true.
Proof.
  intros HF Hin. destruct (subtree_at e T Hin) as (k & c & l & r & <-).
  apply focus_down in HF. destruct (focus_node _ _ _ _ _ _ _ _ HF) as (He & Pp & _).
  by erewrite ld_linked.
Qed.

Lemma repc_cnode h s m k x : repc h s m k x -> h !! pa s k = Some (cnode s m k x).
Proof. destruct k as [|[] k]; simpl; tauto. Qed.

Lemma repc_set h h' s m k x x' :
  NoDup (s :: lefts k ++ rights k) -> repc h s m k x ->
  (forall z, z ∈ s :: lefts k ++ rights k -> z <> pa s k -> h' !! z = h !! z) ->
  h' !! pa s k = Some (cnode s m k x') -> repc h' s m k x'.
Proof.
  intros HN Hk Hfr Ha. apply NoDup_cons in HN as [Hs HN].
  destruct k as [|[c a r|c l a] k]; simpl in *; [done| |]; destruct Hk as (_ & Ht & Hk);
    (split_and!; [done | |]).
  - eapply rep_frame; [|exact Ht]. apply NoDup_app in HN as (_ & _ & HN).
    apply NoDup_cons in HN as [Hna _]. intros z Hz. apply Hfr; set_solver.
  - eapply repc_frame; [|exact Hk]. apply NoDup_app in HN as (_ & HD & HN).
    apply NoDup_cons in HN as [Hna _]. intros z Hz. apply Hfr; set_solver.
  - eapply rep_frame; [|exact Ht]. rewrite <- app_assoc in HN. apply NoDup_app in HN as (_ & _ & HN).
    rewrite <- app_assoc in HN. apply NoDup_app in HN as (_ & HD & _).
    intros z Hz. specialize (HD z Hz). apply Hfr; set_solver.
  - eapply repc_frame; [|exact Hk]. rewrite <- app_assoc in HN. apply NoDup_app in HN as (_ & HD & HN).
    rewrite <- app_assoc in HN. apply NoDup_app in HN as (_ & _ & HN).
    apply NoDup_cons in HN as [Hna _]. intros z Hz. apply Hfr; set_solver.
Qed.

Lemma wf_insert s l1 l2 e : wf s (l1 ++ l2) -> is_addr e -> e <> s -> (e ∉ l1 ++ l2) -> wf s (l1 ++ e :: l2).
Proof.
  intros [HN HF] Ha Hs He. split.
  - rewrite app_comm_cons, <- Permutation_middle. apply NoDup_cons. split; [set_solver | done].
  - rewrite Forall_forall in HF |- *. intros x Hx.
    destruct (decide (x = e)) as [->|]; [done|]. apply HF. set_solver.
Qed.

(** The contract of [kLess]: a strict weak order. *)
Class StrictWeakOrder (less : Z -> Z -> bool) : Prop := {
  less_irrefl : forall x, less x x = false;
  less_trans : forall x y z, less x y = true -> less y z = true -> less x z = true;
  less_cotrans : forall x y z, less x z = true -> less x y = true \/ less y z = true;
}.

Section order.
Context (kLess : Z -> Z -> bool) `{!StrictWeakOrder kLess}.

Definition sorted (l : list Z) : Prop := StronglySorted (fun x y => kLess y x = false) l.

(** Insertion behind all elements that are not greater. *)
Fixpoint insert_sorted (e : Z) (l : list Z) : list Z :=
  match l with
  | [] => [e]
  | x :: l => if kLess e x then e :: x :: l else x :: insert_sorted e l
  end.

Lemma less_asym x y : kLess x y = true -> kLess y x = false.
Proof.
  intros H. destruct (kLess y x) eqn:E; [|done].
  pose proof (less_trans x y x H E) as Hc. by rewrite less_irrefl in Hc.
Qed.

Lemma insert_sorted_split e l1 l2 :
  (forall x, x ∈ l1 -> kLess e x = false) -> (forall x, x ∈ l2 -> kLess e x = true) ->
  insert_sorted e (l1 ++ l2) = l1 ++ e :: l2.
Proof.
  intros H1 H2. induction l1 as [|y l1 IH]; simpl.
  - destruct l2 as [|z l2]; simpl; [done|]. by rewrite H2 by set_solver.
  - rewrite H1 by set_solver. f_equal. apply IH. set_solver.
Qed.

Lemma sorted_app l1 l2 :
  sorted (l1 ++ l2) <-> sorted l1 /\ sorted l2 /\
    (forall x y, x ∈ l1 -> y ∈ l2 -> kLess y x = false).
Proof.
  unfold sorted. induction l1 as [|a l1 IH]; simpl.
  - split; [intros H; split_and!; [constructor | done | set_solver] | tauto].
  - split.
    + intros H. inversion H as [|? ? HS HF]; subst. apply IH in HS as (S1 & S2 & D).
      rewrite Forall_forall in HF. split_and!.
      * constructor; [done|]. apply Forall_forall. intros x Hx. apply HF. set_solver.
      * done.
      * intros x y [->|Hx]%elem_of_cons Hy; [apply HF; set_solver | by apply D].
    + intros (S1 & S2 & D). inversion S1 as [|? ? HS HF]; subst. constructor.
      * apply IH. split_and!; [done | done |]. intros; apply D; set_solver.
      * rewrite Forall_forall in HF |- *. intros x [Hx|Hx]%elem_of_app; [by apply HF|].
        apply D; set_solver.
Qed.

Lemma sorted_cons a l : sorted (a :: l) <-> (forall x, x ∈ l -> kLess x a = false) /\ sorted l.
Proof.
  unfold sorted. split.
  - intros H. inversion H as [|? ? HS HF]; subst. rewrite Forall_forall in HF. auto.
  - intros [HF HS]. constructor; [done|]. by apply Forall_forall.
Qed.

(** The tree object [t] holds the sorted sequence [l]. *)
Definition tree_holds (h : heap) (t : tree) (l : list Z) : Prop :=
  exists T n, focus h (sentinel t) (default (sentinel t) (head l)) T [] /\
    inorder T = l /\ is_rb T n /\ tred T = false /\ size_ t = Z.of_nat (length l) /\ sorted l.

(** ** The descent *)

Lemma insert_descend_ok h t m e : forall u k fuel,
  focus h (sentinel t) m u k ->
  sorted (inorder (plug k u)) ->
  (forall x, x ∈ lefts k -> kLess e x = false) -> (forall x, x ∈ rights k -> kLess e x = true) ->
  (length (inorder u) < fuel)%nat ->
  exists k', insert_descend kLess fuel h t e (pa (sentinel t) k) (addr (sentinel t) u) =
      Val (pa (sentinel t) k') /\
    focus h (sentinel t) m E k' /\ plug k' E = plug k u /\
    (forall x, x ∈ lefts k' -> kLess e x = false) /\ (forall x, x ∈ rights k' -> kLess e x = true).
Proof.
  induction u as [|c l IHl a r IHr]; intros k fuel H HS HL HR Hf;
    (destruct fuel as [|fuel]; [simpl in Hf; lia|]); cbn [insert_descend addr].
  - rewrite Z.eqb_refl. exists k. auto.
  - destruct (focus_node _ _ _ _ _ _ _ _ H) as (Ha & Pp & Pa & Has). xb.
    assert (forall u, u = l \/ u = r -> addr (sentinel t) u <> nullptr) as Hnn.
    { intros u Hu Hz. destruct H as [_ _ Hwf].
      assert (is_addr (addr (sentinel t) u)) as [? _]; [|unfold nullptr in Hz; lia].
      eapply wf_addr; [exact Hwf|]. pose proof (addr_in (sentinel t) u). simpl.
      destruct Hu; subst; set_solver. }
    unfold assert, neqp. xs. rewrite !(proj2 (Z.eqb_neq _ nullptr)) by auto. xb.
    pose proof HS as HS0. rewrite inorder_plug in HS. simpl in HS. apply sorted_app in HS as (_ & HS & _). rewrite <- app_assoc in HS.
    apply sorted_app in HS as (_ & HS & HD). simpl in HS. apply sorted_cons in HS as [HF HS].
    simpl in Hf. rewrite length_app in Hf. simpl in Hf.
    destruct (kLess e a) eqn:Hea; xs.
    + apply (focus_move h (sentinel t) m l (FL c a r) k) in H.
      apply (IHl (FL c a r :: k) fuel); [exact H | | done | | lia].
      * exact HS0.
      * simpl. intros x [->|[Hx|Hx]%elem_of_app]%elem_of_cons; [done | | by apply HR].
        destruct (less_cotrans e x a Hea) as [?|Hxa]; [done|].
        rewrite HF in Hxa by set_solver. done.
    + apply (focus_move h (sentinel t) m r (FR c l a) k) in H.
      apply (IHr (FR c l a :: k) fuel); [exact H | | | done | lia].
      * exact HS0.
      * simpl. intros x Hx. apply elem_of_app in Hx as [Hx|[Hx|Hx]%elem_of_app]; [by apply HL | |].
        -- destruct (kLess e x) eqn:Hex; [|done].
           destruct (less_cotrans e a x Hex) as [?|Hax]; [congruence|].
           rewrite HD in Hax by set_solver. done.
        -- apply list_elem_of_singleton in Hx as ->. done.
Qed.

(** ** Linking the new leaf *)

Definition link_leaf (h : heap) (t : tree) (e p : Z) : outcome heap :=
  if p =? sentinel t then
    assert (eqp (root h t) (sentinel t));;
    set_root h t e
  else if kLess e p then
    assert (eqp (left h p) (sentinel t));;
    set_left h p e
  else
    assert (eqp (right h p) (sentinel t));;
    set_right h p e.

Lemma link_leaf_ok h t m k e :
  let s := sentinel t in
  focus h s m E k -> is_addr e -> e <> s -> (e ∉ lefts k ++ rights k) ->
  h !! e = Some (mk (pa s k) true true s s) ->
  (forall x, x ∈ lefts k -> kLess e x = false) -> (forall x, x ∈ rights k -> kLess e x = true) ->
  exists h', link_leaf h t e (pa s k) = Val h' /\ focus h' s m (N true E e E) k /\
    (forall z, (z ∉ s :: lefts k ++ e :: rights k) -> h' !! z = h !! z).
Proof.
  intros s H Ae Hes Hout He HL HR. pose proof (focus_ptr _ _ _ _ _ H) as Ppk.
  destruct (focus_sentinel _ _ _ _ _ H) as [Hs Pr].
  pose proof (is_addr_ptr _ Ae) as Pe. destruct H as [_ Hk Hwf]. simpl in Hk, Hwf.
  assert (is_ptr s) as Ps by (eapply wf_ptr; [exact Hwf | set_solver]).
  pose proof (pa_in s k) as Hpk. assert (pa s k <> e) as Hpe by (intros E0; rewrite E0 in Hpk; set_solver).
  assert (exists h', link_leaf h t e (pa s k) = Val h' /\
    h' !! pa s k = Some (cnode s m k e) /\ h' !! e = Some (mk (pa s k) true true s s) /\
    (forall z, z <> pa s k -> z <> e -> h' !! z = h !! z)) as (h' & Hrun & H1 & H2 & H3).
  { pose proof (repc_cnode _ _ _ _ _ Hk) as Hp. unfold link_leaf, assert, eqp, set_root, root. fold s.
    pose proof (wf_nodup _ _ Hwf) as [_ Hsl].
    destruct k as [|[c a r|c l a] k]; simpl in Hp, HL, HR, He, Hpe, Hsl |- *.
    - xs. eexists. split_and!; [reflexivity | lk | lk |]. intros z Hz Hze. by rewrite !lookup_insert_ne.
    - assert (a <> s) as Has by set_solver.
      assert (is_ptr (pa s k)) as Pk.
      { eapply wf_ptr; [exact Hwf|]. pose proof (pa_in s k). simpl. set_solver. }
      rewrite HR by set_solver. xs. eexists.
      split_and!; [reflexivity | lk | lk |]. intros z Hz Hze. by rewrite !lookup_insert_ne.
    - assert (a <> s) as Has by set_solver.
      assert (is_ptr (pa s k)) as Pk.
      { eapply wf_ptr; [exact Hwf|]. pose proof (pa_in s k). simpl. set_solver. }
      rewrite HL by set_solver. xs. eexists.
      split_and!; [reflexivity | lk | lk |]. intros z Hz Hze. by rewrite !lookup_insert_ne. }
  exists h'. split; [done|]. split.
  - split.
    + simpl. auto.
    + simpl. eapply repc_set; [apply Hwf | exact Hk | | done]. intros z Hz Hzp. apply H3; [done | set_solver].
    + simpl. by apply wf_insert.
  - intros z Hz. apply H3; [|set_solver]. intros ->. set_solver.
Qed.

(** ** Insert *)

Lemma InsertFixup_ok h0 t W h m e k :
  At h0 t W h m (N true E e E) k -> ctx_rb k 0 -> (length k < loop_fuel t)%nat ->
  exists h' T n, InsertFixup h t e = Val h' /\ At h0 t W h' m T [] /\ T <> E /\
    is_rb T n /\ tred T = false.
Proof.
  intros H Hk Hf. destruct (At_node _ _ _ _ _ _ _ _ _ _ H) as (He & Pp & Pe & Hes). simpl in He.
  pose proof (At_not_null _ _ _ _ _ _ _ _ _ _ H) as He0.
  pose proof (At_focus _ _ _ _ _ _ _ H) as HF.
  destruct (focus_sentinel _ _ _ _ _ HF) as [Hs Pr].
  assert (addr (sentinel t) (plug k (N true E e E)) <> sentinel t) as Hrt.
  { destruct HF as [_ _ Hwf]. pose proof (wf_nodup _ _ Hwf) as [_ Hsl].
    destruct k as [|f k]; [done|].
    pose proof (plug_addr (sentinel t) (f :: k) (N true E e E) ltac:(done)). intros Heq. rewrite Heq in *.
    set_solver. }
  destruct (insert_fixup_loop_ok h0 t W m (loop_fuel t) h E e E k 0 Hf H Hk eq_refl eq_refl eq_refl eq_refl)
    as (h1 & T & Hloop & H1 & HT & n & Hn).
  unfold InsertFixup, assert, eqp, neqp, root. xs. rewrite Hloop, bind_val.
  pose proof (focus_root _ _ _ _ _ (At_focus _ _ _ _ _ _ _ H1)) as Hroot. unfold root in Hroot.
  rewrite Hroot, bind_val. simpl plug. destruct T as [|c l a r]; [done|].
  destruct (At_color _ _ _ false _ _ _ _ _ _ _ H1) as (h2 & Hb & H2). unfold Black. simpl addr.
  exists h2, (N false l a r), n. auto.
Qed.

Lemma holds_not_in h t l e p c x y :
  tree_holds h t l -> h !! e = Some (mk p c false x y) -> is_ptr p -> e ∉ l.
Proof.
  intros (T & n & HF & HT & _) He Pp Hin. subst l.
  destruct (subtree_at e T Hin) as (k & c' & l' & r' & <-).
  apply focus_down in HF. destruct (focus_node _ _ _ _ _ _ _ _ HF) as (He' & Pp' & _).
  rewrite He' in He. injection He as He.
  pose proof (mk_linked _ c' true nullptr nullptr Pp') as L1.
  pose proof (mk_linked _ c false nullptr nullptr Pp) as L2.
  unfold node_linked, mk in L1, L2. simpl in L1, L2. rewrite He in L1. congruence.
Qed.

Lemma head_insert e l1 l2 s :
  (forall x, x ∈ l1 -> kLess e x = false) -> (forall x, x ∈ l2 -> kLess e x = true) ->
  (s ∉ l1 ++ l2) ->
  let m := default s (head (l1 ++ l2)) in
  default s (head (l1 ++ e :: l2)) = if (m =? s) || kLess e m then e else m.
Proof.
  intros H1 H2 Hs. destruct l1 as [|y l1]; simpl.
  - destruct l2 as [|z l2]; simpl; [by rewrite Z.eqb_refl|].
    rewrite H2 by set_solver. by rewrite orb_true_r.
  - rewrite H1 by set_solver. rewrite (proj2 (Z.eqb_neq y s)) by set_solver. done.
Qed.

Lemma sorted_insert e l1 l2 :
  sorted (l1 ++ l2) ->
  (forall x, x ∈ l1 -> kLess e x = false) -> (forall x, x ∈ l2 -> kLess e x = true) ->
  sorted (l1 ++ e :: l2).
Proof.
  intros HS H1 H2. apply sorted_app in HS as (S1 & S2 & D). apply sorted_app. split_and!; [done | |].
  - apply sorted_cons. split; [|done]. intros x Hx. by apply less_asym, H2.
  - intros x y Hx [->|Hy]%elem_of_cons; [by apply H1 | by apply D].
Qed.

Lemma Insert_ok h t l e :
  tree_holds h t l -> is_addr e -> e <> sentinel t ->
  h !! e = Some (mk nullptr false false nullptr nullptr) ->
  exists h', Insert kLess h t e = Val (h', mkTree (sentinel t) (size_ t + 1), true) /\
    tree_holds h' (mkTree (sentinel t) (size_ t + 1)) (insert_sorted e l) /\
    only h h' (sentinel t) (insert_sorted e l).
Proof.
  intros Hold Ae Hes He. set (s := sentinel t) in *.
  assert (is_ptr nullptr) as P0 by (by unfold is_ptr, nullptr).
  pose proof (holds_not_in _ _ _ _ _ _ _ _ Hold He P0) as Hel.
  destruct Hold as (T & n & HF & HT & Hrb & HTb & Hsz & HS).
  pose proof (is_addr_ptr _ Ae) as Pe. assert (e <> nullptr) as He0 by (destruct Ae; unfold nullptr; lia).
  assert (is_ptr s) as Ps by (eapply wf_ptr; [apply HF | set_solver]).
  unfold Insert. fold s. xa. rewrite !insert_insert_eq.
  set (h1 := <[e := mk s true true s s]> h).
  assert (focus h1 s (default s (head l)) T []) as HF1.
  { eapply focus_frame; [exact HF|]. intros z Hz. apply lookup_insert_ne. simpl in Hz.
    rewrite app_nil_r, HT in Hz. set_solver. }
  rewrite (focus_root _ _ _ _ _ HF1), bind_val. simpl plug.
  destruct (insert_descend_ok h1 t (default s (head l)) e T [] (loop_fuel t) HF1)
    as (k & Hrun & HFk & Hpk & HL & HR).
  { simpl. by rewrite HT. } { set_solver. } { set_solver. }
  { rewrite HT. unfold loop_fuel. rewrite Hsz, Nat2Z.id. lia. }
  fold s in HFk. change (pa (sentinel t) []) with s in Hrun. rewrite Hrun, bind_val. fold s.
  assert (l = lefts k ++ rights k) as Hl.
  { rewrite <- HT. simpl in Hpk. rewrite <- Hpk, inorder_plug. done. }
  assert (h1 !! e = Some (mk s true true s s)) as He1 by (unfold h1; lk).
  pose proof (focus_ptr _ _ _ _ _ HFk) as Ppk.
  erewrite (st_parent h1 e (pa s k)) by done. rewrite bind_val. unfold h1. rewrite !insert_insert_eq. fold h1.
  set (h2 := <[e := mk (pa s k) true true s s]> h).
  assert (focus h2 s (default s (head l)) E k) as HFk2.
  { eapply focus_frame; [exact HFk|]. intros z Hz. simpl in Hz.
    assert (e <> z) as Hez by (intros ->; rewrite Hl in Hel; set_solver).
    unfold h1, h2. by rewrite !lookup_insert_ne. }
  destruct (link_leaf_ok h2 t (default s (head l)) k e HFk2 Ae Hes) as (h3 & Hlink & HF3 & Hf3);
    [by rewrite <- Hl | unfold h2; lk | done | done |].
  unfold link_leaf in Hlink. fold s in Hlink. rewrite Hlink, bind_val. fold s in HF3, Hf3.
  destruct (focus_sentinel _ _ _ _ _ HF3) as [Hs3 Pr3].
  unfold tree_min. fold s. erewrite (ld_left h3 s) by done. rewrite bind_val.
  pose proof (head_insert e (lefts k) (rights k) s HL HR) as Hmin. rewrite <- Hl in Hmin.
  specialize (Hmin ltac:(destruct HF as [_ _ Hwf]; simpl in Hwf; rewrite app_nil_r, HT in Hwf;
    by apply wf_nodup in Hwf as [_ ?])).
  assert (exists h4, (if (default s (head l) =? s) || kLess e (default s (head l)) then set_min h3 t e
                      else Val h3) = Val h4 /\
    focus h4 s (default s (head (lefts k ++ e :: rights k))) (N true E e E) k /\
    (forall z, z <> s -> h4 !! z = h3 !! z)) as (h4 & Hsm & HF4 & Hf4).
  { simpl in Hmin. rewrite Hmin. destruct ((_ =? _) || _); [|eauto].
    unfold set_min. fold s. by apply (focus_set_min h3 s (default s (head l))). }
  rewrite Hsm, bind_val.
  assert (At h t (lefts k ++ e :: rights k) h4 (default s (head (lefts k ++ e :: rights k)))
    (N true E e E) k) as HA.
  { split; [exact HF4|]. split; [|by rewrite inorder_plug]. intros z Hz.
    rewrite Hf4 by set_solver. rewrite Hf3 by set_solver. apply lookup_insert_ne. set_solver. }
  destruct (is_rb_unplug k E n) as (n' & Hn' & Hck & _).
  { simpl in Hpk. by rewrite Hpk. } { simpl in Hpk. by rewrite Hpk. } simpl in Hn'. subst n'.
  destruct (InsertFixup_ok _ _ _ _ _ _ _ HA Hck) as (h5 & T5 & n5 & Hfix & (HF5 & Ho5 & Hio5) & HT5 & Hrb5 & Hc5).
  { pose proof (length_ctx k E) as Hlen. rewrite inorder_plug in Hlen. simpl in Hlen. rewrite <- Hl in Hlen.
    unfold loop_fuel. rewrite Hsz, Nat2Z.id. lia. }
  rewrite Hfix, bind_val. fold s in HF5, Ho5.
  destruct T5 as [|c5 l5 a5 r5]; [done|]. simpl in Hc5. subst c5.
  destruct (focus_sentinel _ _ _ _ _ HF5) as [Hs5 Pr5]. simpl in Hs5, Pr5.
  destruct (focus_node _ _ _ _ _ _ _ _ HF5) as (Ha5 & _ & Pa5 & Has5). simpl in Ha5.
  simpl in Hio5. assert (e ∈ inorder l5 ++ a5 :: inorder r5) as Hein by (rewrite Hio5; set_solver).
  assert (InTree h5 e = Val true) as Hit5.
  { eapply focus_InTree; [exact HF5 | done]. }
  assert (default s (head (lefts k ++ e :: rights k)) <> s) as Hms.
  { destruct HF5 as [_ _ Hwf]. simpl in Hwf. rewrite app_nil_r, Hio5 in Hwf.
    apply wf_nodup in Hwf as [_ Hwf]. destruct (lefts k); simpl; set_solver. }
  replace (insert_sorted e l) with (lefts k ++ e :: rights k) by (rewrite Hl; by rewrite insert_sorted_split).
  assert (Z.of_nat (length (lefts k ++ e :: rights k)) < 2 ^ 61) as Hlt.
  { apply (wf_length s). destruct HF5 as [_ _ Hwf]. simpl in Hwf. by rewrite app_nil_r, Hio5 in Hwf. }
  assert (length (lefts k ++ e :: rights k) = S (length l)) as Hlen5
    by (rewrite Hl, !length_app; simpl; lia).
  rewrite usize_small.
  2: { unfold is_usize, size_max. rewrite Hsz. lia. }
  unfold IsHeader, root, tree_min. cbn [sentinel].
  assert (s <> nullptr) as Hs0.
  { destruct HF as [_ _ Hwf]. destruct (wf_addr _ _ s Hwf ltac:(set_solver)). unfold nullptr. lia. }
  xa. rewrite Hit5. xa. eexists. split; [reflexivity|]. split; [|done].
  exists (N false l5 a5 r5), n5. split_and!; [exact HF5 | exact Hio5 | done | done | |].
  - simpl size_. rewrite Hsz, Hlen5. lia.
  - rewrite Hl in HS. by apply sorted_insert.
Qed.

End order.

End RBTreeOrder.
