(* ===== verification/RBTreeErase.v ===== *)
(** * Red-black deletion: DeleteFixup

    The subtree at the focus is one black node short; each iteration either
    repairs the tree or moves the deficit one level up. *)

From S2P Require Import Prelude RBTree RBTreeRep RBTreeInsert RBTreeOrder.

Import RBTree RBTreeRep RBTreeInsert RBTreeOrder.

Module RBTreeErase.

(** Symbolic execution of reads only. *)
Ltac xr1 :=
  match goal with
  | |- context [parent ?h ?a] => erewrite (ld_parent h a) by xside
  | |- context [left ?h ?a] => erewrite (ld_left h a) by xside
  | |- context [right ?h ?a] => erewrite (ld_right h a) by xside
  | |- context [IsRed ?h ?a] => erewrite (ld_red h a) by xside
  | |- context [IsBlack ?h ?a] => erewrite (ld_black h a) by xside
  end.
Ltac xr := xb; repeat (xr1; xb).

Section steps.
Context (h0 : heap) (t : tree) (W : list Z).

Abbreviation At := (At h0 t W).
Abbreviation s := (sentinel t).

Lemma At_IsBlack h m u k : At h m u k -> IsBlack h (addr s u) = Val (negb (tred u)).
Proof. intros H. eapply focus_IsBlack. by eapply At_focus. Qed.

Lemma At_root h m u k : At h m u k -> root h t = Val (addr s (plug k u)).
Proof. intros H. eapply focus_root. by eapply At_focus. Qed.

(** *** Case 1: a red sibling is rotated away *)

Lemma delete_left_case1_black h m u c p sl a sr k :
  At h m u (FL c p (N false sl a sr) :: k) -> delete_left_case1 h t p = Val (h, a).
Proof.
  intros H. pose proof H as HP. apply At_move in HP. simpl in HP.
  destruct (At_node _ _ _ _ _ _ _ _ _ _ HP) as (Hp & Pp & _ & _).
  apply (At_move _ _ _ h m (N false sl a sr) (FR c u p) k) in HP.
  destruct (At_node _ _ _ _ _ _ _ _ _ _ HP) as (Ha & Pa & _ & Has). simpl in Hp, Pa.
  unfold delete_left_case1. xs. done.
Qed.

Lemma delete_left_case1_red h m u p sl a sr k :
  At h m u (FL false p (N true sl a sr) :: k) -> sl <> E ->
  exists h', delete_left_case1 h t p = Val (h', addr s sl) /\
    At h' m u (FL true p sl :: FL false a sr :: k).
Proof.
  intros H Hsl. pose proof H as HP. apply At_move in HP. simpl in HP.
  destruct (At_node _ _ _ _ _ _ _ _ _ _ HP) as (Hp & Pp & _ & _).
  apply (At_move _ _ _ h m (N true sl a sr) (FR false u p) k) in HP.
  destruct (At_node _ _ _ _ _ _ _ _ _ _ HP) as (Ha & Pa & _ & Has). simpl in Hp, Pa.
  destruct (At_color _ _ _ false _ _ _ _ _ _ _ HP) as (h1 & Hb1 & H1).
  apply At_move in H1. simpl in H1.
  destruct (At_color _ _ _ true _ _ _ _ _ _ _ H1) as (h2 & Hb2 & H2).
  destruct (At_left_rotate _ _ _ _ _ _ _ _ _ _ _ _ _ H2) as (h3 & Hr & H3).
  apply (At_move _ _ _ h3 m (N true u p sl) (FL false a sr) k) in H3.
  destruct (At_node _ _ _ _ _ _ _ _ _ _ H3) as (Hp3 & _ & _ & _).
  exists h3. unfold delete_left_case1. xr.
  unfold Black, Red. rewrite Hb1, bind_val, Hb2, bind_val, Hr, bind_val. xr.
  assert (addr s sl <> s) as Hne.
  { apply (At_move _ _ _ h3 m sl (FR true u p)) in H3. destruct sl; [done|].
    by destruct (At_node _ _ _ _ _ _ _ _ _ _ H3) as (_ & _ & _ & ?). }
  xs. split; [done|]. by apply At_move.
Qed.

Lemma delete_right_case1_black h m u c p sl a sr k :
  At h m u (FR c (N false sl a sr) p :: k) -> delete_right_case1 h t p = Val (h, a).
Proof.
  intros H. pose proof H as HP. apply At_move in HP. simpl in HP.
  destruct (At_node _ _ _ _ _ _ _ _ _ _ HP) as (Hp & Pp & _ & _).
  apply (At_move _ _ _ h m (N false sl a sr) (FL c p u) k) in HP.
  destruct (At_node _ _ _ _ _ _ _ _ _ _ HP) as (Ha & Pa & _ & Has). simpl in Hp, Pa.
  unfold delete_right_case1. xs. done.
Qed.

Lemma delete_right_case1_red h m u p sl a sr k :
  At h m u (FR false (N true sl a sr) p :: k) -> sr <> E ->
  exists h', delete_right_case1 h t p = Val (h', addr s sr) /\
    At h' m u (FR true sr p :: FR false sl a :: k).
Proof.
  intros H Hsr. pose proof H as HP. apply At_move in HP. simpl in HP.
  destruct (At_node _ _ _ _ _ _ _ _ _ _ HP) as (Hp & Pp & _ & _).
  apply (At_move _ _ _ h m (N true sl a sr) (FL false p u) k) in HP.
  destruct (At_node _ _ _ _ _ _ _ _ _ _ HP) as (Ha & Pa & _ & Has). simpl in Hp, Pa.
  destruct (At_color _ _ _ false _ _ _ _ _ _ _ HP) as (h1 & Hb1 & H1).
  apply At_move in H1. simpl in H1.
  destruct (At_color _ _ _ true _ _ _ _ _ _ _ H1) as (h2 & Hb2 & H2).
  destruct (At_right_rotate _ _ _ _ _ _ _ _ _ _ _ _ _ H2) as (h3 & Hr & H3).
  apply (At_move _ _ _ h3 m (N true sr p u) (FR false sl a) k) in H3.
  destruct (At_node _ _ _ _ _ _ _ _ _ _ H3) as (Hp3 & _ & _ & _).
  exists h3. unfold delete_right_case1. xr.
  unfold Black, Red. rewrite Hb1, bind_val, Hb2, bind_val, Hr, bind_val. xr.
  assert (addr s sr <> s) as Hne.
  { apply (At_move _ _ _ h3 m sr (FL true p u)) in H3. destruct sr; [done|].
    by destruct (At_node _ _ _ _ _ _ _ _ _ _ H3) as (_ & _ & _ & ?). }
  xs. split; [done|]. by apply At_move.
Qed.

(** *** Case 2: the sibling is recoloured and the deficit moves to the parent *)

Lemma At_sib_children h m u f k a cs sl sr :
  At h m u (f :: k) -> sib f = N cs sl a sr ->
  h !! a = Some (mk (faddr f) cs true (addr s sl) (addr s sr)) /\ is_ptr (faddr f) /\
  IsBlack h (addr s sl) = Val (negb (tred sl)) /\ IsBlack h (addr s sr) = Val (negb (tred sr)).
Proof.
  intros H Hs. apply At_move in H.
  assert (At h m (N cs sl a sr) (match f with FL c p _ => FR c u p | FR c _ p => FL c p u end :: k)) as HS.
  { destruct f as [c p r|c l p]; simpl in Hs, H; subst; by apply At_move. }
  destruct (At_node _ _ _ _ _ _ _ _ _ _ HS) as (Ha & Pa & _ & _).
  pose proof HS as HL. apply (At_move _ _ _ h m sl (FL cs a sr)) in HL.
  pose proof HS as HR. apply (At_move _ _ _ h m sr (FR cs sl a)) in HR.
  pose proof (At_IsBlack _ _ _ _ HL). pose proof (At_IsBlack _ _ _ _ HR).
  by destruct f.
Qed.

Lemma delete_left_case2 h m u c p sl a sr k :
  At h m u (FL c p (N false sl a sr) :: k) -> tred sl = false -> tred sr = false ->
  exists h', delete_left_cases h t p a = Val (h', p, pa s k) /\
    At h' m (N c u p (N true sl a sr)) k.
Proof.
  intros H Hsl Hsr. destruct (At_sib_children _ _ _ _ _ _ _ _ _ H eq_refl) as (Ha & Pa & Bl & Br).
  rewrite Hsl in Bl. rewrite Hsr in Br. simpl in Bl, Br, Ha, Pa.
  apply At_move in H. simpl in H. apply (At_move _ _ _ h m (N false sl a sr) (FR c u p) k) in H.
  destruct (At_color _ _ _ true _ _ _ _ _ _ _ H) as (h1 & Hb1 & H1). apply At_move in H1. simpl in H1.
  destruct (At_node _ _ _ _ _ _ _ _ _ _ H1) as (Hp & Pp & _ & _).
  exists h1. split; [|done]. unfold delete_left_cases, andp.
  erewrite (ld_left h a), (ld_right h a) by done. rewrite !bind_val, Bl, bind_val, Br, bind_val.
  unfold Red. rewrite Hb1, bind_val. xs. done.
Qed.

Lemma delete_right_case2 h m u c p sl a sr k :
  At h m u (FR c (N false sl a sr) p :: k) -> tred sl = false -> tred sr = false ->
  exists h', delete_right_cases h t p a = Val (h', p, pa s k) /\
    At h' m (N c (N true sl a sr) p u) k.
Proof.
  intros H Hsl Hsr. destruct (At_sib_children _ _ _ _ _ _ _ _ _ H eq_refl) as (Ha & Pa & Bl & Br).
  rewrite Hsl in Bl. rewrite Hsr in Br. simpl in Bl, Br, Ha, Pa.
  apply At_move in H. simpl in H. apply (At_move _ _ _ h m (N false sl a sr) (FL c p u) k) in H.
  destruct (At_color _ _ _ true _ _ _ _ _ _ _ H) as (h1 & Hb1 & H1). apply At_move in H1. simpl in H1.
  destruct (At_node _ _ _ _ _ _ _ _ _ _ H1) as (Hp & Pp & _ & _).
  exists h1. split; [|done]. unfold delete_right_cases, andp.
  erewrite (ld_left h a), (ld_right h a) by done. rewrite !bind_val, Bl, bind_val, Br, bind_val.
  unfold Red. rewrite Hb1, bind_val. xs. done.
Qed.

(** *** Cases 3 and 4: the deficit is repaired *)

(** The tail of the branch, from a sibling whose far child is red. *)
Lemma delete_left_case4 h m u c p sl a srl x srr k cs :
  At h m u (FL c p (N cs sl a (N true srl x srr)) :: k) ->
  exists h',
    (h ← CopyColor h a p;
     h ← Black h p;
     sr ← right h a;
     h ← Black h sr;
     h ← LeftRotate h t p;
     rt ← root h t;
     Val (h, rt, s)) =
    Val (h', addr s (plug k (N c (N false u p sl) a (N false srl x srr))), s) /\
    At h' m (N c (N false u p sl) a (N false srl x srr)) k.
Proof.
  intros H. apply At_move in H. simpl in H.
  destruct (At_node _ _ _ _ _ _ _ _ _ _ H) as (Hp & Pp & _ & _).
  apply (At_move _ _ _ h m (N cs sl a (N true srl x srr)) (FR c u p) k) in H.
  destruct (At_color _ _ _ c _ _ _ _ _ _ _ H) as (h1 & Hb1 & H1). apply At_move in H1. simpl in H1.
  destruct (At_color _ _ _ false _ _ _ _ _ _ _ H1) as (h2 & Hb2 & H2).
  apply (At_move _ _ _ h2 m (N c sl a (N true srl x srr)) (FR false u p) k) in H2.
  destruct (At_node _ _ _ _ _ _ _ _ _ _ H2) as (Ha2 & Pa2 & _ & _). simpl in Ha2, Pa2.
  apply (At_move _ _ _ h2 m (N true srl x srr) (FR c sl a)) in H2.
  destruct (At_color _ _ _ false _ _ _ _ _ _ _ H2) as (h3 & Hb3 & H3).
  apply At_move in H3. simpl in H3. apply At_move in H3. simpl in H3.
  destruct (At_left_rotate _ _ _ _ _ _ _ _ _ _ _ _ _ H3) as (h4 & Hr & H4).
  exists h4. split; [|done]. unfold CopyColor, Black. erewrite (ld_red h p) by done.
  rewrite bind_val, Hb1, bind_val, Hb2, bind_val. erewrite (ld_right h2 a) by done.
  rewrite bind_val, Hb3, bind_val, Hr, bind_val, (At_root _ _ _ _ H4), bind_val. done.
Qed.

Lemma delete_right_case4 h m u c p sll x slr a sr k cs :
  At h m u (FR c (N cs (N true sll x slr) a sr) p :: k) ->
  exists h',
    (h ← CopyColor h a p;
     h ← Black h p;
     sl ← left h a;
     h ← Black h sl;
     h ← RightRotate h t p;
     rt ← root h t;
     Val (h, rt, s)) =
    Val (h', addr s (plug k (N c (N false sll x slr) a (N false sr p u))), s) /\
    At h' m (N c (N false sll x slr) a (N false sr p u)) k.
Proof.
  intros H. apply At_move in H. simpl in H.
  destruct (At_node _ _ _ _ _ _ _ _ _ _ H) as (Hp & Pp & _ & _).
  apply (At_move _ _ _ h m (N cs (N true sll x slr) a sr) (FL c p u) k) in H.
  destruct (At_color _ _ _ c _ _ _ _ _ _ _ H) as (h1 & Hb1 & H1). apply At_move in H1. simpl in H1.
  destruct (At_color _ _ _ false _ _ _ _ _ _ _ H1) as (h2 & Hb2 & H2).
  apply (At_move _ _ _ h2 m (N c (N true sll x slr) a sr) (FL false p u) k) in H2.
  destruct (At_node _ _ _ _ _ _ _ _ _ _ H2) as (Ha2 & Pa2 & _ & _). simpl in Ha2, Pa2.
  apply (At_move _ _ _ h2 m (N true sll x slr) (FL c a sr)) in H2.
  destruct (At_color _ _ _ false _ _ _ _ _ _ _ H2) as (h3 & Hb3 & H3).
  apply At_move in H3. simpl in H3. apply At_move in H3. simpl in H3.
  destruct (At_right_rotate _ _ _ _ _ _ _ _ _ _ _ _ _ H3) as (h4 & Hr & H4).
  exists h4. split; [|done]. unfold CopyColor, Black. erewrite (ld_red h p) by done.
  rewrite bind_val, Hb1, bind_val, Hb2, bind_val. erewrite (ld_left h2 a) by done.
  rewrite bind_val, Hb3, bind_val, Hr, bind_val, (At_root _ _ _ _ H4), bind_val. done.
Qed.

(** The repaired subtree has the parent's colour and the black height the path
    expects. *)
Lemma delete_left_cases34 h m u c p sl a sr k n :
  At h m u (FL c p (N false sl a sr) :: k) -> tred sl = true \/ tred sr = true ->
  is_rb u n -> is_rb (N false sl a sr) (S n) -> (c = true -> tred u = false) ->
  exists h' v, delete_left_cases h t p a = Val (h', addr s (plug k v), s) /\ At h' m v k /\
    tred v = c /\ (if c then is_rb v (S n) else is_rb v (S (S n))).
Proof.
  intros H Hred Hu [Hsl Hsr] Huc.
  destruct (At_sib_children _ _ _ _ _ _ _ _ _ H eq_refl) as (Ha & Pa & Bl & Br).
  simpl in Ha, Pa. unfold delete_left_cases, andp.
  erewrite (ld_left h a), (ld_right h a) by done. rewrite !bind_val, Bl, bind_val, !Br.
  replace (if negb (tred sl) then Val (negb (tred sr)) else Val false) with (Val false)
    by (destruct (tred sl), (tred sr); simpl; try done; by destruct Hred).
  rewrite !bind_val. destruct (tred sr) eqn:Esr; cbn [negb]; rewrite ?bind_val.
  - destruct sr as [|[] srl x srr]; try done.
    destruct (delete_left_case4 _ _ _ _ _ _ _ _ _ _ _ _ H) as (h' & Hrun & H').
    rewrite Hrun. eexists h', _. split_and!; [done | exact H' | done |].
    destruct Hsr as (? & ? & ? & ?). destruct c; simpl; auto 10.
  - destruct Hred as [Esl|]; [|done]. destruct sl as [|[] sll y slr]; try done.
    apply At_move in H. simpl in H.
    apply (At_move _ _ _ h m (N false (N true sll y slr) a sr) (FR c u p) k) in H.
    apply (At_move _ _ _ h m (N true sll y slr) (FL false a sr)) in H.
    destruct (At_color _ _ _ false _ _ _ _ _ _ _ H) as (h1 & Hb1 & H1). apply At_move in H1. simpl in H1.
    destruct (At_color _ _ _ true _ _ _ _ _ _ _ H1) as (h2 & Hb2 & H2).
    destruct (At_right_rotate _ _ _ _ _ _ _ _ _ _ _ _ _ H2) as (h3 & Hr & H3).
    pose proof H3 as HP3. apply At_move in HP3. simpl in HP3.
    destruct (At_node _ _ _ _ _ _ _ _ _ _ HP3) as (Hp3 & _ & _ & _).
    destruct (At_node _ _ _ _ _ _ _ _ _ _ H3) as (_ & _ & _ & Hys). simpl in Hp3.
    simpl addr. change (Black h y) with (set_red h y false). rewrite Hb1, bind_val.
    change (Red h1 a) with (set_red h1 a true). rewrite Hb2, bind_val, Hr, bind_val.
    erewrite (ld_right h3 p) by done. rewrite bind_val.
    rewrite (proj2 (Z.eqb_neq _ _) Hys). cbn [negb]. rewrite check_true, ?bind_val.
    apply (At_move _ _ _ h3 m u (FL c p _) k) in HP3.
    destruct (delete_left_case4 _ _ _ _ _ _ _ _ _ _ _ _ HP3) as (h' & Hrun & H').
    rewrite Hrun. eexists h', _. split_and!; [done | exact H' | done |].
    destruct Hsl as (? & ? & ? & ?). destruct c; simpl; auto 10.
Qed.

Lemma delete_right_cases34 h m u c p sl a sr k n :
  At h m u (FR c (N false sl a sr) p :: k) -> tred sl = true \/ tred sr = true ->
  is_rb u n -> is_rb (N false sl a sr) (S n) -> (c = true -> tred u = false) ->
  exists h' v, delete_right_cases h t p a = Val (h', addr s (plug k v), s) /\ At h' m v k /\
    tred v = c /\ (if c then is_rb v (S n) else is_rb v (S (S n))).
Proof.
  intros H Hred Hu [Hsl Hsr] Huc.
  destruct (At_sib_children _ _ _ _ _ _ _ _ _ H eq_refl) as (Ha & Pa & Bl & Br).
  simpl in Ha, Pa. unfold delete_right_cases, andp.
  erewrite (ld_left h a), (ld_right h a) by done. rewrite !bind_val, Bl, bind_val, !Br.
  replace (if negb (tred sl) then Val (negb (tred sr)) else Val false) with (Val false)
    by (destruct (tred sl), (tred sr); simpl; try done; by destruct Hred).
  rewrite !bind_val. destruct (tred sl) eqn:Esl; cbn [negb]; rewrite ?bind_val.
  - destruct sl as [|[] sll x slr]; try done.
    destruct (delete_right_case4 _ _ _ _ _ _ _ _ _ _ _ _ H) as (h' & Hrun & H').
    rewrite Hrun. eexists h', _. split_and!; [done | exact H' | done |].
    destruct Hsl as (? & ? & ? & ?). destruct c; simpl; auto 10.
  - destruct Hred as [|Esr]; [done|]. destruct sr as [|[] srl y srr]; try done.
    apply At_move in H. simpl in H.
    apply (At_move _ _ _ h m (N false sl a (N true srl y srr)) (FL c p u) k) in H.
    apply (At_move _ _ _ h m (N true srl y srr) (FR false sl a)) in H.
    destruct (At_color _ _ _ false _ _ _ _ _ _ _ H) as (h1 & Hb1 & H1). apply At_move in H1. simpl in H1.
    destruct (At_color _ _ _ true _ _ _ _ _ _ _ H1) as (h2 & Hb2 & H2).
    destruct (At_left_rotate _ _ _ _ _ _ _ _ _ _ _ _ _ H2) as (h3 & Hr & H3).
    pose proof H3 as HP3. apply At_move in HP3. simpl in HP3.
    destruct (At_node _ _ _ _ _ _ _ _ _ _ HP3) as (Hp3 & _ & _ & _).
    destruct (At_node _ _ _ _ _ _ _ _ _ _ H3) as (_ & _ & _ & Hys). simpl in Hp3.
    simpl addr. change (Black h y) with (set_red h y false). rewrite Hb1, bind_val.
    change (Red h1 a) with (set_red h1 a true). rewrite Hb2, bind_val, Hr, bind_val.
    erewrite (ld_left h3 p) by done. rewrite bind_val.
    rewrite (proj2 (Z.eqb_neq _ _) Hys). cbn [negb]. rewrite check_true, ?bind_val.
    apply (At_move _ _ _ h3 m u (FR c _ p) k) in HP3.
    destruct (delete_right_case4 _ _ _ _ _ _ _ _ _ _ _ _ HP3) as (h' & Hrun & H').
    rewrite Hrun. eexists h', _. split_and!; [done | exact H' | done |].
    destruct Hsr as (? & ? & ? & ?). destruct c; simpl; auto 10.
Qed.

(** *** The loop *)

(** [u] is one black node short of [S n]; a red root makes up for it. *)
Definition short (u : tr) (n : nat) : Prop := if tred u then is_rb (blacken u) (S n) else is_rb u n.

(** Iterations left: none after a red node, at most the depth otherwise. *)
Definition rounds (u : tr) (k : ctx) : nat := if tred u then 1 else length k + 2.

Lemma At_whole h m v k n c :
  At h m v k -> tred v = c -> is_rb v n -> ctx_rb k n -> (c = true -> top_black k) ->
  exists n', At h m (plug k v) [] /\ short (plug k v) n' /\ tred (plug k v) = false.
Proof.
  intros H Hc Hv Hk Htop.
  destruct (is_rb_plug k v n Hv Hk) as (n' & Hn').
  { subst c. destruct (tred v); [right; by apply Htop | by left]. }
  assert (tred (plug k v) = false) as Hb.
  { destruct k as [|f k]; [|by eapply plug_top]. simpl. destruct (tred v) eqn:E0; [|done].
    exfalso. by apply Htop. }
  exists n'. split_and!; [|unfold short; by rewrite Hb | done].
  rewrite <- (app_nil_r k) in H. by apply At_plug in H.
Qed.

(** Cases 2 to 4 with a black sibling. *)
Lemma delete_left_round h m u c p S0 k n :
  At h m u (FL c p S0 :: k) -> tred u = false -> tred S0 = false -> is_rb u n ->
  is_rb S0 (S n) -> (if c then top_black k /\ ctx_rb k (S n) else ctx_rb k (S (S n))) ->
  exists h' v k' n', delete_left_cases h t p (addr s S0) = Val (h', addr s v, pa s k') /\
    At h' m v k' /\ short v n' /\ ctx_rb k' (S n') /\ (rounds v k' <= if c then 2 else length k + 2)%nat.
Proof.
  intros H Hu HS0 Hun HS Hk. destruct S0 as [|[] sl a sr]; try done. cbn [addr].
  destruct (tred sl || tred sr) eqn:Ered.
  - apply orb_true_iff in Ered.
    destruct (delete_left_cases34 _ _ _ _ _ _ _ _ _ _ H Ered Hun HS (fun _ => Hu))
      as (h' & v & -> & H' & Hvc & Hv).
    destruct (At_whole h' m v k (if c then S n else S (S n)) c H' Hvc) as (n' & HA & Hsh & Hb).
    { by destruct c. } { destruct c; tauto. } { intros ->. tauto. }
    exists h', (plug k v), [], n'. unfold rounds. rewrite Hb. split_and!; [done|done|done|done|destruct c; simpl; lia].
  - apply orb_false_iff in Ered as [Hsl Hsr].
    destruct (delete_left_case2 _ _ _ _ _ _ _ _ _ H Hsl Hsr) as (h' & -> & H').
    exists h', (N c u p (N true sl a sr)), k, (if c then n else S n).
    simpl in HS. destruct HS as [Hsl' Hsr'].
    split_and!; [done | done | | by destruct c as [|]; [apply Hk|] | unfold rounds; destruct c; simpl; lia].
    unfold short. destruct c; simpl; auto 10.
Qed.

Lemma delete_right_round h m u c p S0 k n :
  At h m u (FR c S0 p :: k) -> tred u = false -> tred S0 = false -> is_rb u n ->
  is_rb S0 (S n) -> (if c then top_black k /\ ctx_rb k (S n) else ctx_rb k (S (S n))) ->
  exists h' v k' n', delete_right_cases h t p (addr s S0) = Val (h', addr s v, pa s k') /\
    At h' m v k' /\ short v n' /\ ctx_rb k' (S n') /\ (rounds v k' <= if c then 2 else length k + 2)%nat.
Proof.
  intros H Hu HS0 Hun HS Hk. destruct S0 as [|[] sl a sr]; try done. cbn [addr].
  destruct (tred sl || tred sr) eqn:Ered.
  - apply orb_true_iff in Ered.
    destruct (delete_right_cases34 _ _ _ _ _ _ _ _ _ _ H Ered Hun HS (fun _ => Hu))
      as (h' & v & -> & H' & Hvc & Hv).
    destruct (At_whole h' m v k (if c then S n else S (S n)) c H' Hvc) as (n' & HA & Hsh & Hb).
    { by destruct c. } { destruct c; tauto. } { intros ->. tauto. }
    exists h', (plug k v), [], n'. unfold rounds. rewrite Hb. split_and!; [done|done|done|done|destruct c; simpl; lia].
  - apply orb_false_iff in Ered as [Hsl Hsr].
    destruct (delete_right_case2 _ _ _ _ _ _ _ _ _ H Hsl Hsr) as (h' & -> & H').
    exists h', (N c (N true sl a sr) p u), k, (if c then n else S n).
    simpl in HS. destruct HS as [Hsl' Hsr'].
    split_and!; [done | done | | by destruct c as [|]; [apply Hk|] | unfold rounds; destruct c; simpl; lia].
    unfold short. destruct c; simpl; auto 10.
Qed.

(** One iteration below [f], case 1 included. *)
Lemma delete_step h m u f k n :
  At h m u (f :: k) -> tred u = false -> is_rb u n -> ctx_rb (f :: k) (S n) ->
  exists h' v k' n',
    (match f with
     | FL _ p _ => '(h, sb) ← delete_left_case1 h t p; delete_left_cases h t p sb
     | FR _ _ p => '(h, sb) ← delete_right_case1 h t p; delete_right_cases h t p sb
     end) = Val (h', addr s v, pa s k') /\
    At h' m v k' /\ short v n' /\ ctx_rb k' (S n') /\ (rounds v k' <= length k + 2)%nat.
Proof.
  intros H Hu Hun [HS Hk]. destruct (tred (sib f)) eqn:Hsc.
  - destruct (fred f) eqn:Hfc; [destruct Hk; congruence|].
    destruct f as [[] p S0|[] S0 p]; try done; simpl in HS, Hsc, Hk;
      destruct S0 as [|[] sl a sr]; try done; destruct HS as (Hsl & Hsr & Hslc & Hsrc).
    + assert (sl <> E) as Hne by (intros ->; done).
      destruct (delete_left_case1_red _ _ _ _ _ _ _ _ H Hne) as (h1 & -> & H1). rewrite bind_val.
      destruct (delete_left_round _ _ _ _ _ _ _ n H1 Hu Hslc Hun Hsl) as (h' & v & k' & n' & Hrun & HA & Hv & Hk' & Hr).
      { simpl. auto. }
      exists h', v, k', n'. split_and!; auto. lia.
    + assert (sr <> E) as Hne by (intros ->; done).
      destruct (delete_right_case1_red _ _ _ _ _ _ _ _ H Hne) as (h1 & -> & H1). rewrite bind_val.
      destruct (delete_right_round _ _ _ _ _ _ _ n H1 Hu Hsrc Hun Hsr) as (h' & v & k' & n' & Hrun & HA & Hv & Hk' & Hr).
      { simpl. auto. }
      exists h', v, k', n'. split_and!; auto. lia.
  - destruct f as [c p S0|c S0 p]; simpl in HS, Hsc, Hk;
      destruct S0 as [|[] sl a sr]; try done.
    + rewrite (delete_left_case1_black _ _ _ _ _ _ _ _ _ H), bind_val.
      destruct (delete_left_round h m u c p (N false sl a sr) k n) as (h' & v & k' & n' & Hrun & HA & Hv & Hk' & Hr);
        auto; [destruct c; tauto|].
      exists h', v, k', n'. split_and!; auto. destruct c; lia.
    + rewrite (delete_right_case1_black _ _ _ _ _ _ _ _ _ H), bind_val.
      destruct (delete_right_round h m u c p (N false sl a sr) k n) as (h' & v & k' & n' & Hrun & HA & Hv & Hk' & Hr);
        auto; [destruct c; tauto|].
      exists h', v, k', n'. split_and!; auto. destruct c; lia.
Qed.

Lemma delete_fixup_loop_ok m fuel : forall h u k n,
  (rounds u k <= fuel)%nat -> At h m u k -> short u n -> ctx_rb k (S n) ->
  exists h' u' k' n', delete_fixup_loop fuel h t (addr s u) (pa s k) = Val (h', addr s u') /\
    At h' m u' k' /\ is_rb (plug k' (blacken u')) n' /\ tred (plug k' (blacken u')) = false.
Proof.
  induction fuel as [|fuel IH]; intros h u k n Hf H Hu Hk; [unfold rounds in Hf; destruct (tred u); lia|].
  cbn [delete_fixup_loop]. rewrite (At_root _ _ _ _ H), bind_val. unfold andp.
  assert (tred (blacken u) = false) as Hbb by (by destruct u as [|[] ? ? ?]).
  pose proof (focus_at_root _ _ _ _ _ (At_focus _ _ _ _ _ _ _ H)) as Hroot.
  destruct k as [|f k].
  { cbn [plug]. rewrite (Z.eqb_refl (addr s u)). cbn [negb]. rewrite !bind_val. unfold short in Hu.
    assert (exists n', is_rb (blacken u) n') as (n' & Hn').
    { destruct (tred u); [eauto|]. by apply is_rb_blacken in Hu. }
    exists h, u, [], n'. split_and!; auto. }
  destruct Hroot as [?|Hroot]; [done|]. rewrite (proj2 (Z.eqb_neq _ _) Hroot). cbn [negb].
  rewrite bind_val, (At_IsBlack _ _ _ _ H), bind_val. unfold short in Hu.
  destruct (tred u) eqn:Huc; cbn [negb].
  { destruct (is_rb_plug (f :: k) (blacken u) (S n) Hu Hk (or_introl Hbb)) as (n' & Hn').
    exists h, u, (f :: k), n'. split_and!; auto. by eapply plug_top. }
  destruct (delete_step _ _ _ _ _ _ H Huc Hu Hk) as (h' & v & k' & n' & Hrun & HA & Hv & Hk' & Hr).
  assert (rounds v k' <= fuel)%nat as Hf'.
  { unfold rounds in Hf. rewrite Huc in Hf. simpl in Hf. lia. }
  destruct (IH h' v k' n' Hf' HA Hv Hk') as (h2 & u2 & k2 & n2 & Hrun2 & Hrest).
  pose proof H as HP. apply At_move in HP. destruct Hk as [HS _].
  assert (sib f <> E) as Hne by (intros E0; rewrite E0 in HS; done).
  pose proof H as HS2. apply At_move in HS2.
  destruct f as [c p S0|c S0 p]; cbn [pa faddr plug1 sib] in *;
    destruct (At_node _ _ _ _ _ _ _ _ _ _ HP) as (Hp & Pp & _ & Hps);
    erewrite (ld_left h p) by done; xb.
  - apply bind_Val_inv in Hrun as ([h1 sb] & Hc1 & Hc2).
    rewrite Hc1, bind_val, Hc2, bind_val. eauto 10.
  - assert (addr s S0 <> addr s u) as Hau.
    { destruct S0 as [|c0 l0 a0 r0]; [done|].
      apply (At_move _ _ _ h m (N c0 l0 a0 r0) (FL c p u)) in HS2. simpl.
      destruct (At_node _ _ _ _ _ _ _ _ _ _ HS2) as (_ & _ & _ & Has).
      destruct u as [|cu lu au ru]; [done|].
      pose proof (addr_neq _ _ _ _ _ _ _ _ _ _ _ H) as [Hx _]. done. }
    rewrite (proj2 (Z.eqb_neq _ _) (not_eq_sym Hau)).
    unfold assert, eqp. erewrite (ld_right h p) by done. xb.
    apply bind_Val_inv in Hrun as ([h1 sb] & Hc1 & Hc2).
    rewrite Hc1, bind_val, Hc2, bind_val. eauto 10.
Qed.

Lemma DeleteFixup_ok h m u k n :
  At h m u k -> short u n -> ctx_rb k (S n) -> (length k + 2 <= loop_fuel t)%nat ->
  exists h' T n', DeleteFixup h t (addr s u) (pa s k) = Val h' /\ At h' m T [] /\
    is_rb T n' /\ tred T = false.
Proof.
  intros H Hu Hk Hf.
  assert (forall x, x ∈ s :: inorder (plug k u) -> x <> nullptr) as Hnn.
  { intros x Hx. destruct H as [[_ _ Hwf] _]. rewrite <- inorder_plug in Hwf.
    destruct (wf_addr _ _ x Hwf Hx). unfold nullptr. lia. }
  unfold DeleteFixup. rewrite inorder_plug in Hnn.
  rewrite (proj2 (Z.eqb_neq (addr s u) nullptr)) by (apply Hnn; pose proof (addr_in s u); set_solver).
  rewrite (proj2 (Z.eqb_neq (pa s k) nullptr)) by (apply Hnn; pose proof (pa_in s k); set_solver). xb.
  destruct (delete_fixup_loop_ok m (loop_fuel t) h u k n) as (h1 & u1 & k1 & n1 & -> & H1 & Hrb & Hb); auto.
  { unfold rounds. destruct (tred u); lia. }
  rewrite bind_val. unfold Black. destruct u1 as [|c l a r].
  - destruct (focus_sentinel _ _ _ _ _ (At_focus _ _ _ _ _ _ _ H1)) as [Hs Pr]. cbn [addr].
    erewrite (st_red h1 s) by done. rewrite insert_id by done.
    rewrite <- (app_nil_r k1) in H1. apply At_plug in H1. eauto 10.
  - cbn [addr]. destruct (At_color _ _ _ false _ _ _ _ _ _ _ H1) as (h2 & Hb2 & H2). rewrite Hb2.
    rewrite <- (app_nil_r k1) in H2. apply At_plug in H2. eauto 10.
Qed.

End steps.

End RBTreeErase.
