(* ===== verification/RBTreeRemove.v ===== *)
(** * The red-black tree as an ordered sequence: removal

    Successors, the header walk, splicing a node out, and the proof that [Erase]
    removes exactly its element from the sequence a tree holds. *)

From S2P Require Import Prelude RBTree RBTreeRep RBTreeInsert RBTreeOrder RBTreeErase.

Import RBTree RBTreeRep RBTreeInsert RBTreeOrder RBTreeErase.

Module RBTreeRemove.

(** ** Walks *)

Lemma focus_not_null h s m u k x :
  focus h s m u k -> x ∈ s :: lefts k ++ inorder u ++ rights k -> x <> nullptr.
Proof. intros [_ _ Hwf] Hx. destruct (wf_addr _ _ x Hwf Hx). unfold nullptr. lia. Qed.

Lemma focus_pa_not_null h s m u k : focus h s m u k -> pa s k <> nullptr.
Proof. intros H. eapply focus_not_null; [exact H|]. pose proof (pa_in s k). set_solver. Qed.

(** The leftmost node of a subtree, as a path of left steps. *)
Lemma minimum_loop_ok h s m : forall l c a r k fuel,
  focus h s m (N c l a r) k -> (length (inorder l) < fuel)%nat ->
  exists kr cd d rd, minimum_loop fuel h s a = Val d /\
    N c l a r = plug kr (N cd E d rd) /\ lefts kr = [].
Proof.
  induction l as [|c1 l1 IH1 a1 r1 _]; intros c a r k fuel H Hf;
    (destruct fuel as [|fuel]; [lia|]); cbn [minimum_loop];
    destruct (focus_node _ _ _ _ _ _ _ _ H) as (Ha & Pp & _ & _);
    erewrite ld_left by done; rewrite bind_val; cbn [addr].
  - rewrite Z.eqb_refl. by exists [], c, a, r.
  - apply (focus_move h s m (N c1 l1 a1 r1) (FL c a r)) in H.
    destruct (focus_node _ _ _ _ _ _ _ _ H) as (_ & _ & _ & Has).
    rewrite (proj2 (Z.eqb_neq _ _) Has). simpl in Hf. rewrite length_app in Hf. simpl in Hf.
    destruct (IH1 c1 a1 r1 _ fuel H) as (kr & cd & d & rd & Hrun & Heq & Hkr); [lia|].
    exists (kr ++ [FL c a r]), cd, d, rd. split; [done|]. split.
    + by rewrite plug_app, <- Heq.
    + clear -Hkr. induction kr as [|[] kr IH]; simpl in *; [done | by apply IH |].
      destruct (lefts kr); [destruct (inorder l)|]; done.
Qed.

Lemma next_loop_ok h s m k : forall c l a r fuel,
  focus h s m (N c l a r) k -> (length k < fuel)%nat ->
  next_loop fuel h s a = Val (default s (head (rights k))).
Proof.
  induction k as [|f k IH]; intros c l a r fuel H Hf;
    (destruct fuel as [|fuel]; [simpl in Hf; lia|]); cbn [next_loop];
    destruct (focus_node _ _ _ _ _ _ _ _ H) as (Ha & Pp & _ & Has);
    erewrite ld_parent by done; rewrite bind_val.
  - simpl. by rewrite Z.eqb_refl.
  - pose proof H as HP. apply focus_move in HP. destruct f as [c1 p r1|c1 l1 p]; cbn [plug1 pa faddr] in *;
      destruct (focus_node _ _ _ _ _ _ _ _ HP) as (Hp & Ppp & _ & Hps);
      rewrite (proj2 (Z.eqb_neq _ _) Hps); erewrite ld_left by done; rewrite bind_val; cbn [addr].
    + by rewrite Z.eqb_refl.
    + rewrite (proj2 (Z.eqb_neq _ _)).
      * simpl rights. eapply IH; [exact HP | simpl in Hf; lia].
      * intros Heq. destruct H as [_ _ Hwf]. simpl in Hwf.
        destruct (wf_node _ _ _ _ _ _ Hwf) as (_ & _ & Hout & _). apply Hout.
        rewrite Heq. pose proof (addr_in s l1). simpl. set_solver.
Qed.

Lemma Next_ok h t m c l a r k :
  focus h (sentinel t) m (N c l a r) k ->
  (length (inorder (plug k (N c l a r))) <= Z.to_nat (size_ t))%nat ->
  Next h t a = Val (default (sentinel t) (head (inorder r ++ rights k))).
Proof.
  intros H Hsz. pose proof (length_ctx k (N c l a r)) as Hlen. simpl in Hlen.
  rewrite length_app in Hlen. simpl in Hlen.
  destruct (focus_node _ _ _ _ _ _ _ _ H) as (Ha & Pp & _ & Has).
  unfold Next. xb. erewrite ld_right by done. rewrite bind_val.
  destruct r as [|c1 l1 a1 r1]; cbn [addr].
  - rewrite Z.eqb_refl. cbn [negb]. rewrite (focus_root _ _ _ _ _ H), bind_val.
    destruct (focus_at_root _ _ _ _ _ H) as [->|Hrt].
    + simpl. by rewrite Z.eqb_refl.
    + simpl addr in Hrt. rewrite (proj2 (Z.eqb_neq _ _) Hrt). simpl app.
      eapply next_loop_ok; [exact H|]. unfold loop_fuel. lia.
  - apply (focus_move h (sentinel t) m (N c1 l1 a1 r1) (FR c l a)) in H.
    destruct (focus_node _ _ _ _ _ _ _ _ H) as (_ & _ & _ & Ha1s).
    unfold Minimum. xb.
    destruct (minimum_loop_ok h (sentinel t) m l1 c1 a1 r1 _ (loop_fuel t) H) as (kr & cd & d & rd & Hrun & Heq & Hkr).
    { unfold loop_fuel. simpl in Hlen. rewrite length_app in Hlen. simpl in Hlen. lia. }
    rewrite Hrun. apply (f_equal inorder) in Heq. rewrite inorder_plug, Hkr in Heq. simpl in Heq.
    simpl inorder. rewrite Heq. done.
Qed.

Lemma focus_child_neq h s m c l a r k :
  focus h s m (N c l a r) k -> addr s l <> a /\ addr s r <> a.
Proof.
  intros [_ _ Hwf]. change (wf s (lefts k ++ (inorder l ++ a :: inorder r) ++ rights k)) in Hwf.
  destruct (wf_node _ _ _ _ _ _ Hwf) as (_ & Has & _ & _ & DA & DB).
  pose proof (addr_in s l) as Hl. pose proof (addr_in s r) as Hr.
  split; intros Heq; [rewrite Heq in Hl | rewrite Heq in Hr];
    [apply elem_of_cons in Hl as [?|Hl] | apply elem_of_cons in Hr as [?|Hr]]; try done.
  - by destruct (DA a Hl).
  - by destruct (DB a Hr).
Qed.

Lemma ld_header h a p c b l r :
  h !! a = Some (mk p c b l r) -> a <> nullptr -> IsHeader h a = Val (r =? a).
Proof.
  intros Ha Hn. unfold IsHeader, eqp. rewrite (proj2 (Z.eqb_neq _ _) Hn). by erewrite ld_right.
Qed.

Lemma header_loop_ok h s m k : forall c l a r steps,
  focus h s m (N c l a r) k -> (length k + 2 <= steps)%nat -> header_loop steps h a = Val s.
Proof.
  induction k as [|f k IH]; intros c l a r steps H Hf;
    (destruct steps as [|steps]; [simpl in Hf; lia|]); cbn [header_loop];
    destruct (focus_node _ _ _ _ _ _ _ _ H) as (Ha & Pp & _ & Has);
    assert (a <> nullptr) as Ha0 by (eapply focus_not_null; [exact H | simpl; set_solver]);
    destruct (focus_child_neq _ _ _ _ _ _ _ _ H) as [_ Hra];
    erewrite ld_header by done; rewrite bind_val, (proj2 (Z.eqb_neq _ _) Hra);
    erewrite ld_parent by done; rewrite bind_val;
    pose proof (focus_pa_not_null _ _ _ _ _ H) as Hpa;
    rewrite (proj2 (Z.eqb_neq _ _) Hpa).
  - destruct steps as [|steps]; [simpl in Hf; lia|]. cbn [header_loop pa] in *.
    destruct (focus_sentinel _ _ _ _ _ H) as [Hs Pr].
    erewrite ld_header by done. rewrite bind_val, Z.eqb_refl. done.
  - apply focus_move in H. destruct f as [c1 p r1|c1 l1 p]; cbn [plug1 pa faddr] in *;
      (eapply IH; [exact H | simpl in Hf; lia]).
Qed.

Lemma HeaderOf_ok h t m c l a r k :
  focus h (sentinel t) m (N c l a r) k ->
  (length (inorder (plug k (N c l a r))) <= Z.to_nat (size_ t))%nat ->
  HeaderOf h t a = Val (sentinel t).
Proof.
  intros H Hsz. pose proof (length_ctx k (N c l a r)) as Hlen. simpl in Hlen.
  rewrite length_app in Hlen. simpl in Hlen.
  destruct (focus_node _ _ _ _ _ _ _ _ H) as (Ha & Pp & _ & Has).
  assert (a <> nullptr) as Ha0 by (eapply focus_not_null; [exact H | simpl; set_solver]).
  unfold HeaderOf. rewrite (proj2 (Z.eqb_neq _ _) Ha0). erewrite ld_linked by done. rewrite bind_val.
  cbn [negb]. eapply header_loop_ok; [exact H | lia].
Qed.

(** ** Splicing out *)

(** [Transplant] of a node by one of its subtrees. *)
Lemma transplant_child h t m k a c l0 r0 u :
  let s := sentinel t in
  let W := lefts k ++ inorder u ++ rights k in
  repc h s m k a -> h !! a = Some (mk (pa s k) c true l0 r0) -> rep h s a u ->
  wf s W -> (a ∉ s :: W) -> is_ptr a ->
  exists h', Transplant h t a (addr s u) = Val h' /\ focus h' s m u k /\ only h h' s W.
Proof.
  intros s W Hk Ha Hu Hwf Hout Pa.
  assert (NoDup (lefts k ++ rights k)) as HLR.
  { apply wf_nodup in Hwf as [HN _]. apply NoDup_app in HN as (? & HD & HN).
    apply NoDup_app in HN as (? & ? & ?). apply NoDup_app. split_and!; [done| |done].
    intros z Hz Hz2. apply (HD z Hz). set_solver. }
  assert (exists p' c' l' r', addr s u = s \/ (addr s u <> s /\ (addr s u ∉ lefts k ++ rights k) /\
    is_ptr (addr s u) /\ is_ptr p' /\ h !! addr s u = Some (mk p' c' true l' r') /\
    u = N c' (match u with N _ l _ _ => l | E => E end) (addr s u) (match u with N _ _ _ r => r | E => E end) /\
    l' = addr s (match u with N _ l _ _ => l | E => E end) /\
    r' = addr s (match u with N _ _ _ r => r | E => E end) )) as (p' & c' & l' & r' & Hdst).
  { destruct u as [|cu lu au ru]; simpl.
    - exists s, false, s, s. by left.
    - destruct Hu as (Hau & _). exists a, cu, (addr s lu), (addr s ru). right.
      unfold W in Hwf. simpl in Hwf. destruct (wf_node _ _ _ _ _ _ Hwf) as (Aau & Hus & Huo & _).
      split_and!; auto using is_addr_ptr. set_solver. }
  destruct (Transplant_ok h t m k a (addr s u) c l0 r0 W Hk Ha Hwf) with (p' := p') (c' := c') (l' := l') (r' := r')
    as (h' & Hrun & Hk' & Hd' & Hf'); [set_solver | done | done | set_solver | set_solver | | |].
  { intros ->. pose proof (addr_in s u). apply Hout. unfold W. set_solver. }
  { destruct Hdst as [?|?]; [by left | right; tauto]. }
  fold s in Hk', Hd', Hf'. exists h'. split; [done|]. split.
  - split; [|done|done]. destruct u as [|cu lu au ru]; [done|]. simpl in *.
    unfold W in Hwf. simpl in Hwf. destruct (wf_node _ _ _ _ _ _ Hwf) as (Aau & Hus & Huo & _ & DA & DB).
    destruct Hdst as [?|(_ & _ & _ & _ & _ & [= <-] & -> & ->)]; [done|]. split_and!; [by apply Hd' | |].
    + eapply rep_frame; [|apply Hu]. intros z Hz. destruct (DA z Hz) as (? & Hz2 & _).
      apply Hf'; [|by left]. pose proof (pa_in s k). intros ->. set_solver.
    + eapply rep_frame; [|apply Hu]. intros z Hz. destruct (DB z Hz) as (? & Hz2 & _).
      apply Hf'; [|by left]. pose proof (pa_in s k). intros ->. set_solver.
  - intros z Hz. pose proof (pa_in s k) as Hpk. pose proof (addr_in s u) as Hau.
    apply Hf'; [|left]; intros ->; apply Hz; unfold W; set_solver.
Qed.

(** The successor [d] takes the place, the left subtree and the colour of [a]. *)
Lemma take_place_ok h t m k c l a x cd d y p' r' :
  let s := sentinel t in
  let W := lefts k ++ (inorder l ++ d :: inorder r') ++ rights k in
  repc h s m k a -> h !! a = Some (mk (pa s k) c true (addr s l) x) -> rep h s a l -> l <> E ->
  h !! d = Some (mk p' cd true y (addr s r')) -> is_ptr p' -> rep h s d r' ->
  wf s W -> (a ∉ s :: W) -> is_ptr a ->
  exists h', erase_take_place h t a d = Val h' /\ focus h' s m (N c l d r') k /\ only h h' s W.
Proof.
  intros s W Hk Ha Hl Hne Hd Pp' Hr Hwf Hout Pa.
  destruct (wf_node _ _ _ _ _ _ Hwf) as (Ad & Hds & Hdo & HLR & DA & DB).
  pose proof (is_addr_ptr _ Ad) as Pd. pose proof (pa_in s k) as Hpk.
  assert (a <> s /\ a <> d /\ a <> pa s k) as (Has & Had & Hap) by (unfold W in Hout; set_solver).
  assert (is_ptr (pa s k)) as Ppk by (eapply wf_ptr; [exact Hwf | unfold W; set_solver]).
  assert (NoDup (inorder l) /\ (s ∉ inorder l)) as [HNl Hsl].
  { pose proof (wf_nodup _ _ Hwf) as [HN Hs]. apply NoDup_app in HN as (_ & _ & HN).
    apply NoDup_app in HN as (HN & _ & _). apply NoDup_app in HN as (HN & _ & _). unfold W in Hs. set_solver. }
  assert (forall z, (z ∉ s :: lefts k ++ rights k) -> z <> pa s k) as Dpa by (intros z Hz ->; done).
  destruct (Transplant_ok h t m k a d c (addr s l) x W Hk Ha Hwf) with (p' := p') (c' := cd) (l' := y) (r' := addr s r')
    as (h1 & Hrun & Hk1 & Hd1 & Hf1); [unfold W; set_solver | done | done | done | unfold W in Hout; set_solver | done | |].
  { right. split_and!; auto. set_solver. }
  fold s in Hk1, Hd1, Hf1. specialize (Hd1 Hds).
  assert (h1 !! a = Some (mk (pa s k) c true (addr s l) x)) as Ha1 by (rewrite Hf1; auto).
  set (h2 := <[d := mk (pa s k) cd true (addr s l) (addr s r')]> h1).
  assert (rep h2 s a l) as Hl2.
  { eapply rep_frame; [|exact Hl]. intros z Hz. destruct (DA z Hz) as (? & Hzo & _).
    unfold h2. rewrite lookup_insert_ne by done. apply Hf1; [by apply Dpa | by left]. }
  destruct (reparent_ok h2 s a d l Hl2 Pa Pd HNl Hsl) as (h3 & Hrun3 & Hl3 & Hf3).
  assert (addr s l <> s) as Hls.
  { destruct l; [done|]. simpl in Hsl |- *. set_solver. }
  rewrite (proj2 (Z.eqb_neq _ _) Hls) in Hrun3. cbn [negb] in Hrun3.
  assert (d ∉ inorder l) as Hdl by (intros Hx; by destruct (DA d Hx)).
  assert (a ∉ inorder l) as Hal by (unfold W in Hout; set_solver).
  assert (h3 !! d = Some (mk (pa s k) cd true (addr s l) (addr s r'))) as Hd3
    by (rewrite Hf3 by done; unfold h2; lk).
  assert (h3 !! a = Some (mk (pa s k) c true (addr s l) x)) as Ha3
    by (rewrite Hf3 by done; unfold h2; lk).
  assert (exists cl x1 x2, h3 !! addr s l = Some (mk d cl true x1 x2)) as (cl & x1 & x2 & Hl3n).
  { destruct l; [done|]. simpl in Hl3. destruct Hl3 as (? & _). eauto. }
  unfold erase_take_place. fold s. rewrite Hrun, bind_val.
  erewrite (ld_parent h1 a), (ld_parent h1 d), (ld_left h1 a) by done.
  unfold orp. rewrite !bind_val, !eqp_val, bind_val, Z.eqb_refl, assert_val. xb.
  erewrite (st_left h1 d) by done. rewrite bind_val. fold h2.
  erewrite (ld_left h2 d) by (unfold h2; lk). rewrite bind_val, Hrun3, bind_val.
  erewrite !(ld_left h3 d) by done. rewrite neqp_val, assert_val. xb.
  erewrite (ld_parent h3) by done. rewrite eqp_val, assert_val. xb. unfold CopyColor. erewrite (ld_red h3 a) by done. rewrite bind_val.
  erewrite (st_red h3 d) by done. eexists. split; [reflexivity|].
  assert (forall z, z <> d -> z <> pa s k -> (z ∉ inorder l) ->
    <[d := mk (pa s k) c true (addr s l) (addr s r')]> h3 !! z = h !! z) as Hfr.
  { intros z Hz1 Hz2 Hz3. rewrite lookup_insert_ne by done. rewrite Hf3 by done. unfold h2.
    rewrite lookup_insert_ne by done. apply Hf1; [done | by left]. }
  split.
  - split; [| |done].
    + simpl. split_and!; [lk | |].
      * eapply rep_frame; [|exact Hl3]. intros z Hz. apply lookup_insert_ne. intros <-. done.
      * eapply rep_frame; [|exact Hr]. intros z Hz. destruct (DB z Hz) as (? & Hzo & ?).
        apply Hfr; [done | by apply Dpa | done].
    + eapply repc_frame; [|exact Hk1]. intros z Hz. rewrite lookup_insert_ne by (intros <-; done).
      rewrite Hf3. { unfold h2. rewrite lookup_insert_ne; [done|]. intros <-. done. }
      intros Hx. by destruct (DA z Hx) as (_ & ? & _).
  - intros z Hz. unfold W in Hz. apply Hfr; [set_solver | set_solver | set_solver].
Qed.

Lemma wf_remove s l1 x l2 : wf s (l1 ++ x :: l2) -> wf s (l1 ++ l2) /\ (x ∉ s :: l1 ++ l2) /\ is_ptr x.
Proof.
  intros H. destruct (wf_parts _ _ _ _ H) as (Ax & Hxs & Hx1 & Hx2). destruct H as [HN HF].
  split; [|split; [set_solver | by apply is_addr_ptr]]. split.
  - rewrite app_comm_cons in HN. rewrite <- Permutation_middle in HN. by apply NoDup_cons in HN as [_ ?].
  - rewrite Forall_forall in HF |- *. intros z Hz. apply HF. set_solver.
Qed.

Lemma focus_addr_not_s h s m u k : focus h s m u k -> u <> E -> addr s u <> s.
Proof.
  intros H Hu. destruct u as [|c l a r]; [done|]. by destruct (focus_node _ _ _ _ _ _ _ _ H) as (_ & _ & _ & ?).
Qed.

(** The successor is the right child itself: nothing moves below it. *)
Lemma detach_right_child h t m c l a cd d rd k :
  let s := sentinel t in
  focus h s m (N c l a (N cd E d rd)) k ->
  (if negb (addr s rd =? s) then
     h ← set_parent h (addr s rd) d;
     assert (eqp (parent h (addr s rd)) d);;
     Val h
   else Val h) = Val h.
Proof.
  intros s H. apply (focus_move h s m (N cd E d rd) (FR c l a)) in H.
  apply (focus_move h s m rd (FR cd E d)) in H. destruct rd as [|c1 l1 a1 r1]; cbn [addr].
  - by rewrite Z.eqb_refl.
  - destruct (focus_node _ _ _ _ _ _ _ _ H) as (Ha1 & Pd & _ & Ha1s). cbn [pa faddr] in Ha1, Pd.
    xb. erewrite (st_parent h a1) by done. rewrite insert_id by done. rewrite bind_val.
    erewrite (ld_parent h a1) by done. by rewrite eqp_val, assert_val, Z.eqb_refl.
Qed.

(** The successor is deeper: it is cut out and takes over the right subtree. *)
Lemma detach_deep_ok h t m c l a f kr cd d rd k :
  let s := sentinel t in
  let r' := plug (f :: kr) rd in
  focus h s m (N cd E d rd) ((f :: kr) ++ FR c l a :: k) -> lefts (f :: kr) = [] ->
  exists h', erase_detach_deep h t a d (addr s rd) (faddr f) = Val h' /\
    repc h' s m k a /\ h' !! a = Some (mk (pa s k) c true (addr s l) (addr s r')) /\ rep h' s a l /\
    h' !! d = Some (mk (faddr f) cd true s (addr s r')) /\ rep h' s d r' /\
    (forall z, (z ∉ s :: lefts k ++ (inorder l ++ a :: d :: inorder r') ++ rights k) -> h' !! z = h !! z).
Proof.
  intros s r' H Hlk. pose proof H as H0. destruct (focus_node _ _ _ _ _ _ _ _ H) as (Hd & Pdp & Pd & Hds).
  pose proof (focus_pa_not_null _ _ _ _ _ H) as Hdp0. cbn [pa app] in Hd, Pdp, Hdp0.
  destruct f as [cf p rf|]; [|simpl in Hlk; by destruct (lefts kr); [destruct (inorder l0)|]]. cbn [faddr] in *.
  pose proof H as HP. simpl app in HP. apply focus_move in HP. cbn [plug1] in HP.
  destruct (focus_node _ _ _ _ _ _ _ _ HP) as (Hp & Ppp & _ & Hps). cbn [addr] in Hp.
  set (K := (FL cf p rf :: kr) ++ FR c l a :: k) in *.
  destruct H as [[_ [_ Hrd]] Hrk Hwf]. cbn [addr inorder app] in Hrk, Hwf.
  destruct (wf_remove _ _ _ _ Hwf) as (Hwf1 & Hdout & _).
  destruct (transplant_child h t m K d cd s (addr s rd) rd Hrk Hd Hrd Hwf1 Hdout Pd)
    as (h1 & Hrun1 & HF1 & Ho1). fold s in Hrun1, HF1, Ho1.
  assert (h1 !! d = Some (mk p cd true s (addr s rd))) as Hd1 by (rewrite Ho1 by done; done).
  apply focus_plug in HF1. fold r' in HF1. apply focus_move in HF1. cbn [plug1] in HF1.
  assert (lefts K ++ inorder rd ++ rights K = lefts k ++ (inorder l ++ a :: inorder r') ++ rights k) as HW.
  { rewrite <- !inorder_plug. unfold K. rewrite plug_app. fold r'. simpl plug.
    by rewrite inorder_plug. }
  rewrite HW in Hwf1, Hdout, Ho1.
  destruct (focus_node _ _ _ _ _ _ _ _ HF1) as (Ha1 & Ppk & Pa & Has).
  destruct HF1 as [(_ & Hl1 & Hr1) Hk1 Hwf2]. cbn [addr] in Hk1.
  change (wf s (lefts k ++ (inorder l ++ a :: inorder r') ++ rights k)) in Hwf2.
  destruct (wf_node _ _ _ _ _ _ Hwf2) as (_ & _ & Hao & _ & DA & DB).
  set (h2 := <[d := mk p cd true s (addr s r')]> h1).
  assert (rep h2 s a r') as Hr2.
  { eapply rep_frame; [|exact Hr1]. intros z Hz. apply lookup_insert_ne. intros <-. set_solver. }
  assert (NoDup (inorder r') /\ (s ∉ inorder r')) as [HNr Hsr].
  { pose proof (wf_nodup _ _ Hwf2) as [HN Hs]. apply NoDup_app in HN as (_ & _ & HN).
    apply NoDup_app in HN as (HN & _ & _). apply NoDup_app in HN as (_ & _ & HN).
    apply NoDup_cons in HN. set_solver. }
  destruct (reparent_ok h2 s a d r' Hr2 Pa Pd HNr Hsr) as (h3 & Hrun3 & Hr3 & Hf3).
  assert (r' <> E) as Hne.
  { unfold r'. intros E0. apply (f_equal inorder) in E0. rewrite inorder_plug in E0. simpl in E0.
    destruct (lefts kr); [destruct (inorder rd)|]; done. }
  assert (addr s r' <> s) as Hrs.
  { destruct r'; [done|]. simpl in Hsr |- *. set_solver. }
  rewrite (proj2 (Z.eqb_neq _ _) Hrs) in Hrun3. cbn [negb] in Hrun3.
  assert (h3 !! d = Some (mk p cd true s (addr s r'))) as Hd3.
  { rewrite Hf3 by set_solver. unfold h2. lk. }
  assert (exists cl x1 x2, h3 !! addr s r' = Some (mk d cl true x1 x2)) as (cl & x1 & x2 & Hr3n).
  { destruct r'; [done|]. simpl in Hr3. destruct Hr3 as (? & _). eauto. }
  exists h3. unfold erase_detach_deep. fold s. split_and!.
  - xb. erewrite (ld_left h p), (ld_right h d) by done. rewrite !eqp_val, !assert_val. xb.
    rewrite Hrun1, bind_val. erewrite (ld_right h1 a) by done. rewrite bind_val.
    erewrite (st_right h1 d) by done. rewrite bind_val. fold h2.
    erewrite (ld_right h2 d) by (unfold h2; lk). rewrite bind_val, Hrun3, bind_val.
    erewrite !(ld_right h3 d) by done. rewrite neqp_val, assert_val. xb.
    erewrite (ld_parent h3) by done. rewrite eqp_val, assert_val. xb. done.
  - eapply repc_frame; [|exact Hk1]. intros z Hz.
    rewrite Hf3; [|intros Hx; by destruct (DB z Hx) as (_ & ? & _)].
    unfold h2. apply lookup_insert_ne. intros <-. set_solver.
  - rewrite Hf3; [|intros Hx; by destruct (DB a Hx) as (? & _)].
    unfold h2. rewrite lookup_insert_ne; [done|]. intros ->. set_solver.
  - eapply rep_frame; [|exact Hl1]. intros z Hz.
    rewrite Hf3; [|intros Hx; by destruct (DB z Hx) as (_ & _ & ?)].
    unfold h2. apply lookup_insert_ne. intros <-. set_solver.
  - done.
  - done.
  - intros z Hz. rewrite Hf3 by set_solver. unfold h2. rewrite lookup_insert_ne by set_solver.
    apply Ho1. set_solver.
Qed.

End RBTreeRemove.
