(* ===== verification/RBTreeSeq.v ===== *)
(** * The red-black tree as an ordered sequence: Erase *)

From S2P Require Import Prelude RBTree RBTreeRep RBTreeInsert RBTreeOrder RBTreeErase RBTreeRemove.

Import RBTree RBTreeRep RBTreeInsert RBTreeOrder RBTreeErase RBTreeRemove.

Module RBTreeSeq.

(** A target with two children: its successor [d] takes its place; the focus
    ends at the orphan, where a black node may be missing. *)
Lemma erase_two_children_ok h t m c l a r k :
  let s := sentinel t in
  focus h s m (N c l a r) k -> l <> E -> r <> E ->
  (length (inorder (plug k (N c l a r))) <= Z.to_nat (size_ t))%nat ->
  exists h' kr cd d rd,
    erase_two_children h t a = Val (h', addr s rd, pa s (kr ++ FR c l d :: k), cd) /\
    r = plug kr (N cd E d rd) /\ inorder r = d :: inorder (plug kr rd) /\
    focus h' s m rd (kr ++ FR c l d :: k) /\
    is_Some (h' !! a) /\
    (forall z, (z ∉ s :: lefts k ++ (inorder l ++ a :: inorder r) ++ rights k) -> h' !! z = h !! z).
Proof.
  intros s H Hl Hr Hsz. pose proof (length_ctx k (N c l a r)) as Hlen. simpl in Hlen.
  rewrite length_app in Hlen. simpl in Hlen.
  destruct (focus_node _ _ _ _ _ _ _ _ H) as (Ha & Pp & Pa & Has).
  assert (addr s l <> s) as Hls.
  { eapply focus_addr_not_s; [apply (focus_move h s m l (FL c a r) k); exact H | done]. }
  pose proof H as HR. apply (focus_move h s m r (FR c l a) k) in HR.
  pose proof (focus_addr_not_s _ _ _ _ _ HR Hr) as Hrs.
  destruct r as [|cr lr ar rr]; [done|]. cbn [addr] in Hrs.
  destruct (minimum_loop_ok h s m lr cr ar rr _ (loop_fuel t) HR) as (kr & cd & d & rd & Hmin & Heq & Hkr).
  { unfold loop_fuel. simpl in Hlen. rewrite length_app in Hlen. simpl in Hlen. lia. }
  pose proof HR as HD. rewrite Heq in HD. apply (focus_plug h s m (N cd E d rd) kr (FR c l a :: k)) in HD.
  destruct (focus_node _ _ _ _ _ _ _ _ HD) as (Hd & Pdp & Pd & Hds).
  assert (inorder (N cr lr ar rr) = d :: inorder (plug kr rd)) as Hio.
  { rewrite Heq, !inorder_plug, Hkr. done. }
  assert (wf s (lefts k ++ (inorder l ++ d :: inorder (plug kr rd)) ++ rights k) /\
    (a ∉ s :: lefts k ++ (inorder l ++ d :: inorder (plug kr rd)) ++ rights k)) as [Hwf Haout].
  { pose proof (focus_wf _ _ _ _ _ H) as Hwf. 
    change (wf s (lefts k ++ (inorder l ++ a :: inorder (N cr lr ar rr)) ++ rights k)) in Hwf. rewrite Hio in Hwf.
    rewrite <- (app_assoc (inorder l)), app_assoc in Hwf.
    destruct (wf_remove s (lefts k ++ inorder l) a ((d :: inorder (plug kr rd)) ++ rights k) Hwf) as (H1 & H2 & _).
    revert H1 H2. by list_simplifier. }
  unfold erase_two_children. fold s. cbn [addr] in Ha.
  assert (forall h2 (op x p' : Z), repc h2 s m k a -> h2 !! a = Some (mk (pa s k) c true (addr s l) x) -> rep h2 s a l ->
    h2 !! d = Some (mk p' cd true s (addr s (plug kr rd))) -> is_ptr p' -> rep h2 s d (plug kr rd) ->
    exists h', (h ← erase_take_place h2 t a d; Val (h, addr s rd, op, cd)) = Val (h', addr s rd, op, cd) /\
      focus h' s m rd (kr ++ FR c l d :: k) /\
      only h2 h' s (lefts k ++ (inorder l ++ d :: inorder (plug kr rd)) ++ rights k)) as Hfinish.
  { intros h2 op x p' Hk2 Ha2 Hl2 Hd2 Pp2 Hr2.
    destruct (take_place_ok h2 t m k c l a x cd d s p' (plug kr rd) Hk2 Ha2 Hl2 Hl Hd2 Pp2 Hr2 Hwf Haout Pa)
      as (h' & -> & HF' & Ho'). exists h'. split; [done|]. split; [|done].
    apply focus_plug. by apply (focus_move h' s m (plug kr rd) (FR c l d) k). }
  assert (Minimum h t ar = Val d) as HM.
  { unfold Minimum. fold s. xb. exact Hmin. }
  enough (exists h', erase_two_children h t a = Val (h', addr s rd, pa s (kr ++ FR c l d :: k), cd) /\
    focus h' s m rd (kr ++ FR c l d :: k) /\
    is_Some (h' !! a) /\
    (forall z, (z ∉ s :: lefts k ++ (inorder l ++ a :: d :: inorder (plug kr rd)) ++ rights k) -> h' !! z = h !! z))
    as (h' & Hrun & HF' & Ho').
  { exists h', kr, cd, d, rd. rewrite Hio. auto 10. }
  unfold erase_two_children. fold s.
  erewrite (ld_left h a), !(ld_right h a) by done. rewrite !neqp_val, !assert_val. xb. rewrite HM, bind_val. xb.
  erewrite (ld_left h d), (ld_red h d), (ld_right h d), (ld_parent h d) by done.
  rewrite eqp_val, assert_val. change (addr s E) with s. xb. destruct kr as [|f kr].
  - cbn [app pa faddr]. rewrite Z.eqb_refl. simpl in Heq. rewrite Heq in H.
    pose proof (detach_right_child h t m c l a cd d rd k H) as Hdr. cbv zeta in Hdr. fold s in Hdr.
    rewrite Hdr, !bind_val.
    destruct H as [(_ & Hl0 & _ & _ & Hrd0) Hk0 _].
    destruct (Hfinish h d d a Hk0) as (h' & -> & HF' & Ho'); auto. { by injection Heq as -> -> -> ->. }
    exists h'. split_and!; [done | done | rewrite Ho' by done; eauto |]. intros z Hz. apply Ho'. set_solver.
  - cbn [app pa]. rewrite (proj2 (Z.eqb_neq (faddr f) a)).
    2: { intros E0. apply Haout. rewrite <- E0. rewrite inorder_plug. destruct f; simpl; set_solver. }
    destruct (detach_deep_ok h t m c l a f kr cd d rd k HD Hkr) as (h2 & Hrun2 & Hk2 & Ha2 & Hl2 & Hd2 & Hr2 & Hf2).
    fold s in Hrun2, Hk2, Ha2, Hl2, Hd2, Hr2, Hf2. rewrite Hrun2, !bind_val.
    destruct (Hfinish h2 (faddr f) _ (faddr f) Hk2 Ha2 Hl2 Hd2) as (h' & -> & HF' & Ho'); auto.
    exists h'. split_and!; [done | done | rewrite Ho' by done; eauto |].
    intros z Hz. rewrite Ho' by set_solver. by apply Hf2.
Qed.

Lemma erase_assert_child_ok h t m c l a r k :
  focus h (sentinel t) m (N c l a r) k -> assert_child h t (pa (sentinel t) k) a = Val tt.
Proof.
  intros H. pose proof (focus_pa_not_null _ _ _ _ _ H) as Hp0. unfold assert_child. xb.
  destruct k as [|f k]; cbn [pa].
  - by rewrite Z.eqb_refl.
  - pose proof H as HP. apply focus_move in HP. unfold orp. rewrite bind_val.
    destruct f as [c1 p r1|c1 l1 p]; cbn [plug1 faddr] in *;
      destruct (focus_node _ _ _ _ _ _ _ _ HP) as (Hp & Pp & _ & Hps);
      rewrite (proj2 (Z.eqb_neq _ _) Hps); erewrite ld_left by done; erewrite ld_right by done;
      rewrite !eqp_val, !bind_val; cbn [addr]; rewrite ?Z.eqb_refl; [done|].
    by destruct (addr _ l1 =? a).
Qed.

Lemma ctx_rb_rename kr : forall c l a d k n,
  ctx_rb (kr ++ FR c l a :: k) n -> ctx_rb (kr ++ FR c l d :: k) n.
Proof.
  induction kr as [|f kr IH]; intros c l a d k n; simpl; [done|].
  intros [Hs Hk]. split; [done|]. destruct (fred f).
  - destruct Hk as (? & Ht & Hk). split_and!; [done | | by eapply IH]. by destruct kr.
  - by eapply IH.
Qed.

Lemma is_rb_short u n : is_rb u n -> short u n.
Proof. intros H. unfold short. destruct u as [|[] l a r]; simpl in *; tauto. Qed.

(** A removed leaf position: what the orphan and its path satisfy. *)
Lemma removed_balance c d u K n :
  (c = true -> top_black K) ->
  is_rb (N c E d u) n \/ is_rb (N c u d E) n -> ctx_rb K n ->
  if c then is_rb u n /\ tred u = false /\ K <> [] else exists n', n = S n' /\ is_rb u n'.
Proof.
  intros Ht Hn Hk. destruct c.
  - split_and!; [destruct Hn as [Hn|Hn]; simpl in Hn; tauto .. |]. intros ->. by apply Ht.
  - destruct n as [|n']; [by destruct Hn|]. exists n'. destruct Hn as [[? ?]|[? ?]]; auto.
Qed.

Lemma erase_splice_ok h t m c l a r k n :
  let s := sentinel t in
  focus h s m (N c l a r) k ->
  (length (inorder (plug k (N c l a r))) <= Z.to_nat (size_ t))%nat ->
  is_rb (plug k (N c l a r)) n -> tred (plug k (N c l a r)) = false ->
  exists h' u K wr n',
    erase_splice h t a = Val (h', addr s u, pa s K, wr) /\ focus h' s m u K /\
    inorder (plug K u) = lefts k ++ (inorder l ++ inorder r) ++ rights k /\ is_Some (h' !! a) /\
    (forall z, (z ∉ s :: lefts k ++ (inorder l ++ a :: inorder r) ++ rights k) -> h' !! z = h !! z) /\
    (if wr then is_rb u n' /\ tred u = false /\ K <> [] /\ ctx_rb K n'
     else short u n' /\ ctx_rb K (S n')).
Proof.
  intros s H Hsz Hrb Hb. destruct (focus_node _ _ _ _ _ _ _ _ H) as (Ha & Pp & Pa & Has).
  destruct (is_rb_unplug k _ n Hrb Hb) as (n1 & Hn1 & Hk1 & Hc1).
  assert (c = true -> top_black k) as Htop by (intros ->; simpl in Hc1; by destruct Hc1).
  pose proof (erase_assert_child_ok _ _ _ _ _ _ _ _ H) as Hac. fold s in Hac.
  pose proof (focus_wf _ _ _ _ _ H) as Hwf.
  change (wf s (lefts k ++ (inorder l ++ a :: inorder r) ++ rights k)) in Hwf.
  unfold erase_splice. fold s. erewrite ld_red, ld_left, !ld_right, !ld_parent by done. rewrite !bind_val.
  assert (forall u, (u = l /\ r = E) \/ (u = r /\ l = E) ->
    exists h', Transplant h t a (addr s u) = Val h' /\ focus h' s m u k /\
      only h h' s (lefts k ++ inorder u ++ rights k) /\ (a ∉ s :: lefts k ++ inorder u ++ rights k)) as Hone.
  { intros u Hu.
    assert (wf s (lefts k ++ inorder u ++ rights k) /\ (a ∉ s :: lefts k ++ inorder u ++ rights k)) as [Hwf' Hout].
    { rewrite <- (app_assoc (inorder l)), app_assoc in Hwf.
      destruct (wf_remove s (lefts k ++ inorder l) a (inorder r ++ rights k) Hwf) as (H1 & H2 & _).
      destruct Hu as [[-> ->]|[-> ->]]; revert H1 H2; by list_simplifier. }
    destruct H as [(_ & Hl & Hr) Hk _].
    destruct (transplant_child h t m k a c (addr s l) (addr s r) u Hk Ha) as (h' & ? & ? & ?); auto.
    - by destruct Hu as [[-> _]|[-> _]].
    - exists h'. auto. }
  assert (forall u h', (u = l /\ r = E) \/ (u = r /\ l = E) -> focus h' s m u k ->
    only h h' s (lefts k ++ inorder u ++ rights k) -> (a ∉ s :: lefts k ++ inorder u ++ rights k) ->
    exists h2 u2 K wr n', Val (h', addr s u, pa s k, c) = Val (h2, addr s u2, pa s K, wr) /\ focus h2 s m u2 K /\
    inorder (plug K u2) = lefts k ++ (inorder l ++ inorder r) ++ rights k /\ is_Some (h2 !! a) /\
    (forall z, (z ∉ s :: lefts k ++ (inorder l ++ a :: inorder r) ++ rights k) -> h2 !! z = h !! z) /\
    (if wr then is_rb u2 n' /\ tred u2 = false /\ K <> [] /\ ctx_rb K n'
     else short u2 n' /\ ctx_rb K (S n'))) as Hfin.
  { intros u h' Hu HF Ho Hout.
    pose proof (removed_balance c a u k n1 Htop) as Hbal.
    assert (is_rb (N c E a u) n1 \/ is_rb (N c u a E) n1) as Hshape
      by (destruct Hu as [[-> ->]|[-> ->]]; auto).
    specialize (Hbal Hshape Hk1).
    exists h', u, k, c, (if c then n1 else pred n1). split_and!; [done | done | | | |].
    - rewrite inorder_plug. destruct Hu as [[-> ->]|[-> ->]]; simpl; by rewrite ?app_nil_r.
    - rewrite Ho by done. eauto.
    - intros z Hz. apply Ho. destruct Hu as [[-> ->]|[-> ->]]; set_solver.
    - destruct c; [tauto|]. destruct Hbal as (n' & -> & Hn'). simpl. split; [by apply is_rb_short | done]. }
  destruct l as [|cl ll al rl].
  - cbn [addr]. rewrite Z.eqb_refl, Hac, bind_val.
    destruct (Hone r) as (h' & -> & HF & Ho & Hout); [auto|]. rewrite bind_val. apply Hfin; auto.
  - pose proof H as HL. apply (focus_move h s m (N cl ll al rl) (FL c a r) k) in HL.
    destruct (focus_node _ _ _ _ _ _ _ _ HL) as (_ & _ & _ & Hals). cbn [addr].
    rewrite (proj2 (Z.eqb_neq _ _) Hals). destruct r as [|cr lr ar rr].
    + cbn [addr]. rewrite Z.eqb_refl, Hac, bind_val.
      destruct (Hone (N cl ll al rl)) as (h' & Hrun & HF & Ho & Hout); [auto|]. cbn [addr] in Hrun.
      rewrite Hrun, bind_val. apply (Hfin (N cl ll al rl)); auto.
    + pose proof H as HR. apply (focus_move h s m (N cr lr ar rr) (FR c (N cl ll al rl) a) k) in HR.
      destruct (focus_node _ _ _ _ _ _ _ _ HR) as (_ & _ & _ & Hars). cbn [addr].
      rewrite (proj2 (Z.eqb_neq _ _) Hars).
      destruct (erase_two_children_ok h t m c (N cl ll al rl) a (N cr lr ar rr) k H) as
        (h' & kr & cd & d & rd & Hrun & Heq & Hio & HF & Hsome & Hf); [done | done | done |].
      fold s in Hrun, HF, Hf. rewrite Hrun.
      assert (plug k (N c (N cl ll al rl) a (N cr lr ar rr)) =
        plug (kr ++ FR c (N cl ll al rl) a :: k) (N cd E d rd)) as Hwhole.
      { rewrite plug_app. simpl plug. by rewrite <- Heq. }
      rewrite Hwhole in Hrb, Hb. destruct (is_rb_unplug _ _ n Hrb Hb) as (n2 & Hn2 & Hk2 & Hc2).
      apply (ctx_rb_rename kr c (N cl ll al rl) a d k) in Hk2.
      exists h', rd, (kr ++ FR c (N cl ll al rl) d :: k), cd, (if cd then n2 else pred n2).
      split_and!; [done | done | | done | done |].
      * rewrite plug_app. simpl plug. rewrite inorder_plug, Hio. done.
      * assert (cd = true -> top_black (kr ++ FR c (N cl ll al rl) d :: k)) as Htop2.
        { intros ->. simpl in Hc2. destruct Hc2 as [?|Hc2]; [done|]. by destruct kr. }
        pose proof (removed_balance cd d rd _ n2 Htop2 (or_introl Hn2) Hk2) as Hbal.
        destruct cd; [tauto|]. destruct Hbal as (n' & -> & Hn'). simpl. split; [by apply is_rb_short | done].
Qed.

(** ** Erase *)

Lemma default_head_not_s (s : Z) (l : list Z) : (s ∉ l) -> default s (head l) = s -> l = [].
Proof. destruct l; simpl; [done|]. intros Hs ->. set_solver. Qed.

(** The assertions at the end of Erase. *)
Lemma erase_final_asserts h s (l : list Z) T n :
  focus h s (default s (head l)) T [] -> inorder T = l -> s <> nullptr ->
  let t := mkTree s n in n = Z.of_nat (length l) ->
  (if n =? 0 then assert (eqp (root h t) s);; assert (eqp (tree_min h t) s)
   else
     rt ← root h t;
     ALYRN_CHECK (negb (rt =? s));;
     assert (eqp (parent h rt) s);;
     assert (neqp (tree_min h t) s)) = Val tt /\
  assert (IsHeader h s) = Val tt.
Proof.
  intros HF HT Hs0 t Hn. destruct (focus_sentinel _ _ _ _ _ HF) as [Hs Pr]. simpl in Hs, Pr.
  pose proof (focus_wf _ _ _ _ _ HF) as Hwf. simpl in Hwf. rewrite app_nil_r, HT in Hwf.
  apply wf_nodup in Hwf as [_ Hsl].
  assert (IsHeader h s = Val true) as Hh by (erewrite ld_header by done; by rewrite Z.eqb_refl).
  rewrite Hh. split; [|done]. unfold root, tree_min. cbn [sentinel].
  erewrite ld_parent, ld_left by done. rewrite eqp_val, neqp_val, assert_val, bind_val.
  destruct T as [|c lt a rt]; simpl in HT; subst l.
  - simpl in Hn. subst n. simpl. by rewrite !Z.eqb_refl.
  - rewrite (proj2 (Z.eqb_neq n 0)) by (rewrite Hn, length_app; simpl; lia).
    destruct (focus_node _ _ _ _ _ _ _ _ HF) as (Ha & Pp & _ & Has). cbn [addr pa] in *.
    erewrite ld_parent by done. rewrite eqp_val, !assert_val.
    rewrite (proj2 (Z.eqb_neq (default _ _) s)); [xb; done|].
    intros E0. apply default_head_not_s in E0; [|done]. by destruct (inorder lt).
Qed.

(** The fixup after the splice, needed only when a black node left. *)
Lemma erase_fixup_ok h t m u K (wr : bool) n :
  let s := sentinel t in
  focus h s m u K -> (length (inorder (plug K u)) < Z.to_nat (size_ t))%nat ->
  (if wr then is_rb u n /\ tred u = false /\ K <> [] /\ ctx_rb K n else short u n /\ ctx_rb K (S n)) ->
  exists h' T n', (if negb wr then DeleteFixup h t (addr s u) (pa s K) else Val h) = Val h' /\
    focus h' s m T [] /\ inorder T = inorder (plug K u) /\ is_rb T n' /\ tred T = false /\
    only h h' s (inorder (plug K u)).
Proof.
  intros s HF Hlen Hw. pose proof (length_ctx K u) as Hlc. destruct wr; cbn [negb].
  - destruct Hw as (Hu & Huc & HK & Hk).
    destruct (is_rb_plug K u n Hu Hk (or_introl Huc)) as (n' & Hn').
    exists h, (plug K u), n'. split_and!; [done | by apply focus_up | done | done | by eapply plug_top | apply only_refl].
  - destruct Hw as [Hu Hk].
    destruct (DeleteFixup_ok h t (inorder (plug K u)) h m u K n) as (h' & T & n' & Hrun & (HF' & Ho & Hio) & Hrb & Hb).
    + split; [done|]. split; [apply only_refl | done].
    + done.
    + done.
    + unfold loop_fuel. lia.
    + exists h', T, n'. split_and!; auto.
Qed.

Section erase.
Context (kLess : Z -> Z -> bool) `{!StrictWeakOrder kLess}.

Lemma sorted_remove l1 a l2 : sorted kLess (l1 ++ a :: l2) -> sorted kLess (l1 ++ l2).
Proof.
  rewrite !(sorted_app kLess), (sorted_cons kLess). intros (S1 & [_ S2] & D).
  split_and!; [done | done |]. intros x y Hx Hy. apply D; set_solver.
Qed.

Lemma split_unique (a : Z) l1 l2 l1' l2' :
  l1 ++ a :: l2 = l1' ++ a :: l2' -> (a ∉ l1) -> (a ∉ l1') -> l1 = l1' /\ l2 = l2'.
Proof.
  revert l1'. induction l1 as [|x l1 IH]; intros [|y l1'] Heq H1 H2; simplify_eq/=; auto.
  - set_solver.
  - set_solver.
  - destruct (IH l1') as [-> ->]; auto; set_solver.
Qed.

(** The cached minimum moves to the successor when the minimum leaves. *)
Lemma erase_min_ok h t l1 a l2 c l r k :
  let s := sentinel t in
  focus h s (default s (head (l1 ++ a :: l2))) (N c l a r) k ->
  lefts k ++ inorder l = l1 -> inorder r ++ rights k = l2 ->
  (length (l1 ++ a :: l2) <= Z.to_nat (size_ t))%nat ->
  exists h', (m ← tree_min h t; if a =? m then nm ← Next h t m; set_min h t nm else Val h) = Val h' /\
    focus h' s (default s (head (l1 ++ l2))) (N c l a r) k /\ (forall z, z <> s -> h' !! z = h !! z).
Proof.
  intros s HF Hl1 Hl2 Hsz. destruct (focus_sentinel _ _ _ _ _ HF) as [Hs Pr].
  unfold tree_min. fold s. erewrite ld_left by done. rewrite bind_val.
  assert (inorder (plug k (N c l a r)) = l1 ++ a :: l2) as Hio.
  { rewrite inorder_plug. simpl. subst l1 l2. by list_simplifier. }
  destruct l1 as [|x l1].
  - cbn [app head default from_option id]. change (default s (Some a)) with a. rewrite Z.eqb_refl.
    rewrite (Next_ok _ _ _ _ _ _ _ _ HF) by (by rewrite Hio). fold s. rewrite bind_val, Hl2.
    unfold set_min. fold s. by eapply focus_set_min.
  - cbn [app head]. change (default s (Some x)) with x. rewrite (proj2 (Z.eqb_neq a x)).
    + exists h. split; [done|]. split; [exact HF | done].
    + pose proof (focus_wf _ _ _ _ _ HF) as [HN _]. rewrite <- inorder_plug, Hio in HN.
      apply NoDup_cons in HN as [_ HN]. simpl in HN. apply NoDup_cons in HN as [HN _]. set_solver.
Qed.

Lemma Erase_ok h t l1 a l2 :
  tree_holds kLess h t (l1 ++ a :: l2) ->
  exists h', Erase h t a = Val (h', mkTree (sentinel t) (size_ t - 1), true) /\
    tree_holds kLess h' (mkTree (sentinel t) (size_ t - 1)) (l1 ++ l2) /\
    h' !! a = Some (mk nullptr false false nullptr nullptr) /\
    only h h' (sentinel t) (l1 ++ a :: l2).
Proof.
  intros (T & n & HF & HT & Hrb & HTb & Hsz & HS). set (s := sentinel t) in *.
  destruct (subtree_at a T) as (k & c & l & r & HTk); [rewrite HT; set_solver|]. subst T.
  pose proof (focus_wf _ _ _ _ _ HF) as Hwf. simpl in Hwf. rewrite app_nil_r, HT in Hwf.
  apply focus_down in HF. pose proof (focus_wf _ _ _ _ _ HF) as Hwf2.
  change (wf s (lefts k ++ (inorder l ++ a :: inorder r) ++ rights k)) in Hwf2.
  assert (lefts k ++ inorder l = l1 /\ inorder r ++ rights k = l2) as [Hl1 Hl2].
  { rewrite inorder_plug in HT. simpl in HT. rewrite <- (app_assoc (inorder l)), app_assoc in HT. simpl in HT.
    apply (split_unique a); [done | |].
    - rewrite <- (app_assoc (inorder l)), app_assoc in Hwf2. by destruct (wf_parts _ _ _ _ Hwf2) as (_ & _ & ? & _).
    - by destruct (wf_parts _ _ _ _ Hwf) as (_ & _ & ? & _). }
  destruct (focus_node _ _ _ _ _ _ _ _ HF) as (Ha & Pp & Pa & Has).
  assert (forall x, x ∈ s :: lefts k ++ inorder (N c l a r) ++ rights k -> x <> nullptr) as Hnn.
  { intros x Hx. by eapply focus_not_null. }
  assert (a <> nullptr) as Ha0 by (apply Hnn; simpl; set_solver).
  assert (addr s l <> nullptr) as Hl0 by (apply Hnn; pose proof (addr_in s l); simpl; set_solver).
  assert (addr s r <> nullptr) as Hr0 by (apply Hnn; pose proof (addr_in s r); simpl; set_solver).
  assert (s <> nullptr) as Hs0 by (apply Hnn; set_solver).
  pose proof (focus_pa_not_null _ _ _ _ _ HF) as Hp0.
  assert (length (l1 ++ a :: l2) <= Z.to_nat (size_ t))%nat as Hlen by (rewrite Hsz, Nat2Z.id; done).
  assert (addr s (plug k (N c l a r)) <> s) as Hrt.
  { eapply focus_addr_not_s; [by apply focus_up|]. intros E0. rewrite E0 in HT.
    destruct l1; done. }
  unfold Erase. fold s. xb. erewrite ld_linked by done. xb.
  rewrite (HeaderOf_ok _ _ _ _ _ _ _ _ HF) by (by rewrite HT). rewrite eqp_val, assert_val. fold s. xb.
  rewrite (focus_root _ _ _ _ _ HF). fold s. rewrite neqp_val, assert_val. xb.
  rewrite (proj2 (Z.ltb_lt 0 (size_ t))) by (rewrite Hsz, length_app; simpl; lia). xb.
  erewrite ld_left, ld_right, ld_parent by done. rewrite !neqp_val, !assert_val. xb.
  destruct (erase_min_ok h t l1 a l2 c l r k HF Hl1 Hl2 Hlen) as (h1 & Hmin & HF1 & Hf1).
  fold s in HF1, Hf1. apply bind_Val_inv in Hmin as (m & Hm & Hmin). rewrite Hm, bind_val, Hmin, bind_val.
  destruct (erase_splice_ok h1 t _ c l a r k n HF1) as
    (h2 & u & K & wr & n2 & Hsp & HF2 & Hio2 & Hsome & Hf2 & Hw); [by rewrite HT | done | done |].
  fold s in Hsp, HF2, Hf2. rewrite Hsp, bind_val.
  assert (inorder (plug K u) = l1 ++ l2) as Hio.
  { rewrite Hio2. subst l1 l2. by list_simplifier. }
  assert (forall x, x ∈ s :: lefts K ++ inorder u ++ rights K -> x <> nullptr) as Hnn2.
  { intros x Hx. by eapply focus_not_null. }
  rewrite (proj2 (Z.eqb_neq (addr s u) nullptr)) by (apply Hnn2; pose proof (addr_in s u); set_solver).
  rewrite (proj2 (Z.eqb_neq (pa s K) nullptr)) by (apply Hnn2; pose proof (pa_in s K); set_solver). xb.
  destruct (erase_fixup_ok h2 t _ u K wr n2 HF2) as (h3 & T3 & n3 & Hfix & HF3 & Hio3 & Hrb3 & Hb3 & Ho3).
  { rewrite Hio, length_app. rewrite length_app in Hlen. simpl in Hlen. lia. } { done. }
  fold s in Hfix, HF3, Ho3. rewrite Hfix, bind_val. rewrite Hio in Ho3, Hio3.
  destruct (wf_remove _ _ _ _ Hwf) as (Hwf' & Haout & _).
  assert (is_Some (h3 !! a)) as [na Hna] by (rewrite Ho3 by done; done).
  assert (clear_hook h3 a = Val (<[a := mk nullptr false false nullptr nullptr]> h3)) as ->.
  { unfold clear_hook, load. by rewrite Hna. }
  rewrite bind_val. set (h4 := <[a := mk nullptr false false nullptr nullptr]> h3).
  assert (focus h4 s (default s (head (l1 ++ l2))) T3 []) as HF4.
  { eapply focus_frame; [exact HF3|]. intros z Hz. apply lookup_insert_ne. simpl in Hz.
    rewrite app_nil_r, Hio3 in Hz. intros <-. done. }
  rewrite usize_small.
  2: { pose proof (wf_length _ _ Hwf). unfold is_usize, size_max. rewrite Hsz.
       rewrite length_app in *. simpl in *. lia. }
  assert (size_ t - 1 = Z.of_nat (length (l1 ++ l2))) as Hsz'.
  { rewrite Hsz, !length_app. simpl. lia. }
  destruct (erase_final_asserts h4 s (l1 ++ l2) T3 (size_ t - 1) HF4 Hio3 Hs0 Hsz') as [Hend1 Hend2].
  cbn [size_ sentinel]. rewrite Hend1, bind_val, Hend2, bind_val.
  exists h4. split; [done|]. split_and!.
  - exists T3, n3. cbn [sentinel size_]. split_and!; auto. by eapply sorted_remove.
  - apply lookup_insert_eq.
  - intros z Hz. unfold h4. rewrite lookup_insert_ne by set_solver. rewrite Ho3 by set_solver.
    rewrite Hf2. { apply Hf1. set_solver. } subst l1 l2. revert Hz. list_simplifier. done.
Qed.

End erase.

End RBTreeSeq.
