(* ===== verification/RBTreeProps.v ===== *)
(** * The red-black tree refines a sorted sequence

    [Clear], [ExtractPrefix] and [CheckInvariants], the operations as a sequence,
    and the theorems about the tree as its users see it. *)

From S2P Require Import Prelude RBTree RBTreeRep RBTreeInsert RBTreeOrder RBTreeErase RBTreeRemove RBTreeSeq.
From Stdlib Require Import Sorting.Sorted.

Import RBTree RBTreeRep RBTreeInsert RBTreeOrder RBTreeErase RBTreeRemove RBTreeSeq.

Module RBTreeProps.

Abbreviation unlinked := (mk nullptr false false nullptr nullptr).

(** ** Clear *)

(** The last step on a subtree: a leaf is unlinked from its parent and reset. *)
Lemma clear_leaf h s m c a k :
  focus h s m (N c E a E) k ->
  exists h', (forall fuel, clear_loop (S fuel) h s a = clear_loop fuel h' s (pa s k)) /\
    (k <> [] -> focus h' s m E k) /\ h' !! a = Some unlinked /\
    (forall z, z <> a -> z <> pa s k -> h' !! z = h !! z) /\ (k = [] -> h' !! s = h !! s).
Proof.
  intros H. destruct (focus_node _ _ _ _ _ _ _ _ H) as (Ha & Pp & Pa & Has). cbn [addr] in Ha.
  assert (a <> nullptr) as Ha0 by (eapply focus_not_null; [exact H | simpl; set_solver]).
  assert (s <> nullptr) as Hs0 by (eapply focus_not_null; [exact H | set_solver]).
  pose proof (focus_pa_not_null _ _ _ _ _ H) as Hp0.
  pose proof H as [_ Hk Hwf]. cbn [addr inorder app] in Hk, Hwf.
  destruct (wf_remove _ _ _ _ Hwf) as (Hwf' & Haout & _).
  pose proof (pa_in s k) as Hpin. assert (pa s k <> a) as Hpa by (intros E0; rewrite E0 in Hpin; done).
  assert (exists h1, (if negb (pa s k =? s) then
      ALYRN_CHECK (negb (pa s k =? nullptr));;
      pl ← left h (pa s k);
      if pl =? a then set_left h (pa s k) s else assert (eqp (right h (pa s k)) a);; set_right h (pa s k) s
    else Val h) = Val h1 /\ (k <> [] -> h1 !! pa s k = Some (cnode s m k s)) /\
    (forall z, z <> pa s k -> h1 !! z = h !! z) /\ (k = [] -> h1 = h)) as (h1 & Hrun & Hc1 & Hf1 & Hn1).
  { destruct k as [|f k]; [exists h; simpl; rewrite Z.eqb_refl; by split_and!|]. cbn [pa] in *.
    pose proof H as HP. apply focus_move in HP.
    destruct f as [c1 p r1|c1 l1 p]; cbn [plug1 faddr] in *;
      destruct (focus_node _ _ _ _ _ _ _ _ HP) as (Hp & Ppp & _ & Hps); cbn [addr] in Hp; xb;
      erewrite ld_left by done; rewrite bind_val.
    - rewrite Z.eqb_refl. erewrite st_left by done. eexists. split; [reflexivity|].
      split_and!; [intros _; by rewrite lookup_insert_eq | intros z Hz; by apply lookup_insert_ne | done].
    - rewrite (proj2 (Z.eqb_neq (addr s l1) a)).
      2: { intros E0. pose proof (addr_in s l1) as Hin. rewrite E0 in Hin. apply Haout. simpl. set_solver. }
      erewrite ld_right by done. rewrite eqp_val, assert_val. xb.
      erewrite st_right by done. eexists. split; [reflexivity|].
      split_and!; [intros _; by rewrite lookup_insert_eq | intros z Hz; by apply lookup_insert_ne | done]. }
  assert (h1 !! a = h !! a) as Ha1 by (apply Hf1; done).
  exists (<[a := unlinked]> h1). split_and!.
  - intros fuel. cbn [clear_loop]. xb. erewrite ld_linked by done. rewrite assert_val. xb.
    erewrite !ld_left, !ld_right by done. rewrite !neqp_val, !assert_val. xb.
    erewrite ld_parent by done. rewrite bind_val, Hrun, bind_val.
    erewrite st_clear by (rewrite Ha1; exact Ha). rewrite bind_val. done.
  - intros Hne. split; [done | | done]. cbn [addr].
    eapply repc_set; [apply Hwf' | exact Hk | |].
    + intros z Hz Hzp. rewrite lookup_insert_ne by (intros <-; done). by apply Hf1.
    + rewrite lookup_insert_ne by done. by apply Hc1.
  - apply lookup_insert_eq.
  - intros z Hz1 Hz2. rewrite lookup_insert_ne by done. by apply Hf1.
  - intros ->. rewrite lookup_insert_ne by done. by rewrite Hn1.
Qed.

(** What clearing the subtree [u] does, [fuel] being left over. *)
Definition clears (s m : Z) (u : tr) : Prop := forall h k,
  focus h s m u k -> u <> E ->
  exists h', (forall fuel, clear_loop (2 * length (inorder u) - 1 + fuel) h s (addr s u) =
      clear_loop fuel h' s (pa s k)) /\
    (k <> [] -> focus h' s m E k) /\ (forall z, z ∈ inorder u -> h' !! z = Some unlinked) /\
    (forall z, (z ∉ inorder u) -> z <> pa s k -> h' !! z = h !! z) /\ (k = [] -> h' !! s = h !! s).

Lemma inorder_nil u : inorder u = [] -> u = E.
Proof. destruct u as [|c l a r]; [done|]. simpl. by destruct (inorder l). Qed.

Lemma clear_enter h s m c l a r k fuel :
  focus h s m (N c l a r) k ->
  (l <> E -> clear_loop (S fuel) h s a = clear_loop fuel h s (addr s l)) /\
  (l = E -> r <> E -> clear_loop (S fuel) h s a = clear_loop fuel h s (addr s r)).
Proof.
  intros H. destruct (focus_node _ _ _ _ _ _ _ _ H) as (Ha & Pp & Pa & Has).
  assert (forall x, x ∈ s :: lefts k ++ inorder (N c l a r) ++ rights k -> x <> nullptr) as Hnn
    by (intros x Hx; by eapply focus_not_null).
  assert (a <> nullptr) as Ha0 by (apply Hnn; simpl; set_solver).
  assert (addr s l <> nullptr) as Hl0 by (apply Hnn; pose proof (addr_in s l); simpl; set_solver).
  assert (addr s r <> nullptr) as Hr0 by (apply Hnn; pose proof (addr_in s r); simpl; set_solver).
  cbn [clear_loop]. xb. erewrite ld_linked by done. rewrite assert_val. xb.
  erewrite !ld_left, !ld_right by done. rewrite !neqp_val, !assert_val. xb. split.
  - intros Hl. apply (focus_move h s m l (FL c a r) k) in H.
    rewrite (proj2 (Z.eqb_neq _ _) (focus_addr_not_s _ _ _ _ _ H Hl)). done.
  - intros -> Hr. apply (focus_move h s m r (FR c E a) k) in H. cbn [addr]. rewrite Z.eqb_refl.
    rewrite (proj2 (Z.eqb_neq _ _) (focus_addr_not_s _ _ _ _ _ H Hr)). done.
Qed.

Lemma clear_descend_left h s m c l a r k :
  focus h s m (N c l a r) k -> clears s m l ->
  exists h1, (forall f, clear_loop (2 * length (inorder l) + f) h s a = clear_loop f h1 s a) /\
    focus h1 s m (N c E a r) k /\ (forall z, z ∈ inorder l -> h1 !! z = Some unlinked) /\
    (forall z, (z ∉ inorder l) -> z <> a -> h1 !! z = h !! z).
Proof.
  intros H Hcl. destruct (decide (inorder l = [])) as [Hl|Hl].
  { apply inorder_nil in Hl as ->. exists h. split_and!; auto; set_solver. }
  assert (l <> E) as Hne by (by intros ->).
  pose proof (fun f => proj1 (clear_enter h s m c l a r k f H) Hne) as Hstep.
  apply (focus_move h s m l (FL c a r) k) in H.
  destruct (Hcl _ _ H Hne) as (h1 & Hrun & HF & Hc & Hf & _). specialize (HF ltac:(done)).
  apply focus_move in HF. exists h1. split_and!; auto.
  intros f. assert (0 < length (inorder l))%nat as Hlen by (destruct (inorder l); [done | simpl; lia]).
  replace (2 * length (inorder l) + f)%nat with (S (2 * length (inorder l) - 1 + f)) by lia.
  rewrite Hstep. apply Hrun.
Qed.

Lemma clear_descend_right h s m c a r k :
  focus h s m (N c E a r) k -> clears s m r ->
  exists h1, (forall f, clear_loop (2 * length (inorder r) + f) h s a = clear_loop f h1 s a) /\
    focus h1 s m (N c E a E) k /\ (forall z, z ∈ inorder r -> h1 !! z = Some unlinked) /\
    (forall z, (z ∉ inorder r) -> z <> a -> h1 !! z = h !! z).
Proof.
  intros H Hcl. destruct (decide (inorder r = [])) as [Hr|Hr].
  { apply inorder_nil in Hr as ->. exists h. split_and!; auto; set_solver. }
  assert (r <> E) as Hne by (by intros ->).
  pose proof (fun f => proj2 (clear_enter h s m c E a r k f H) eq_refl Hne) as Hstep.
  apply (focus_move h s m r (FR c E a) k) in H.
  destruct (Hcl _ _ H Hne) as (h1 & Hrun & HF & Hc & Hf & _). specialize (HF ltac:(done)).
  apply focus_move in HF. exists h1. split_and!; auto.
  intros f. assert (0 < length (inorder r))%nat as Hlen by (destruct (inorder r); [done | simpl; lia]).
  replace (2 * length (inorder r) + f)%nat with (S (2 * length (inorder r) - 1 + f)) by lia.
  rewrite Hstep. apply Hrun.
Qed.

Lemma clear_loop_clears s m u : clears s m u.
Proof.
  induction u as [|c l IHl a r IHr]; intros h k H Hne; [done|]. clear Hne. cbn [addr].
  assert (NoDup (inorder l ++ a :: inorder r) /\ (pa s k ∉ inorder l ++ a :: inorder r)) as [HN Hpk].
  { pose proof (focus_wf _ _ _ _ _ H) as [HN _]. simpl in HN. apply NoDup_cons in HN as [Hs HN].
    apply NoDup_app in HN as (_ & DL & HN). apply NoDup_app in HN as (HN & DR & _).
    split; [done|]. pose proof (pa_in s k) as Hin. intros Hx.
    apply elem_of_cons in Hin as [E0|[Hin|Hin]%elem_of_app].
    - rewrite E0 in Hx. set_solver.
    - apply (DL _ Hin). set_solver.
    - by apply (DR _ Hx). }
  apply NoDup_app in HN as (_ & DLR & HN). apply NoDup_cons in HN as [Har _].
  destruct (clear_descend_left h s m c l a r k H IHl) as (h1 & Hrun1 & H1 & Hc1 & Hf1).
  destruct (clear_descend_right h1 s m c a r k H1 IHr) as (h2 & Hrun2 & H2 & Hc2 & Hf2).
  destruct (clear_leaf h2 s m c a k H2) as (h3 & Hrun3 & H3 & Hc3 & Hf3 & Hs3).
  assert (forall z, z ∈ inorder l -> z <> a /\ (z ∉ inorder r)) as Dl.
  { intros z Hz. specialize (DLR z Hz). set_solver. }
  exists h3. split_and!.
  - intros fuel. simpl inorder. rewrite length_app. simpl length.
    replace (2 * (length (inorder l) + S (length (inorder r))) - 1 + fuel)%nat
      with (2 * length (inorder l) + (2 * length (inorder r) + S fuel))%nat by lia.
    by rewrite Hrun1, Hrun2, Hrun3.
  - done.
  - simpl. intros z [Hz|[->|Hz]%elem_of_cons]%elem_of_app.
    + destruct (Dl z Hz). rewrite Hf3, Hf2; auto. set_solver.
    + done.
    + rewrite Hf3; [auto | set_solver | set_solver].
  - simpl. intros z Hz1 Hz2. rewrite Hf3, Hf2, Hf1; auto; set_solver.
  - intros ->. rewrite Hs3 by done. cbn [pa] in Hpk. rewrite Hf2, Hf1; auto; set_solver.
Qed.

Section props.
Context (kLess : Z -> Z -> bool) `{!StrictWeakOrder kLess}.

Lemma Clear_ok h t l :
  tree_holds kLess h t l ->
  exists h', Clear h t = Val (h', mkTree (sentinel t) 0) /\
    tree_holds kLess h' (mkTree (sentinel t) 0) [] /\
    (forall z, z ∈ l -> h' !! z = Some unlinked) /\ only h h' (sentinel t) l.
Proof.
  intros Hold. pose proof Hold as (T & n & HF & HT & Hrb & HTb & Hsz & HS). set (s := sentinel t) in *.
  unfold Clear, Empty. destruct l as [|x l].
  - rewrite Hsz. exists h. destruct t as [st sz]. simpl in Hsz. subst sz.
    split_and!; [done | done | set_solver | apply only_refl].
  - rewrite Hsz, (proj2 (Z.eqb_neq _ 0)) by (simpl; lia). rewrite (focus_root _ _ _ _ _ HF), bind_val. fold s.
    simpl plug. assert (T <> E) as HTE by (intros ->; done).
    destruct (clear_loop_clears s _ T _ _ HF HTE) as (h1 & Hrun & _ & Hc & Hf & Hs1). rewrite HT in *.
    specialize (Hs1 eq_refl). cbn [pa] in *.
    destruct (focus_sentinel _ _ _ _ _ HF) as [Hs Pr]. rewrite <- Hs1 in Hs. cbn [plug] in Hs, Pr.
    pose proof (focus_wf _ _ _ _ _ HF) as Hwf. simpl in Hwf. rewrite app_nil_r, HT in Hwf.
    assert (is_ptr s) as Ps by (eapply wf_ptr; [exact Hwf | set_solver]).
    assert (2 * loop_fuel t = 2 * length (x :: l) - 1 + S (2 * loop_fuel t - 2 * length (x :: l)))%nat as ->.
    { unfold loop_fuel. rewrite Hsz, Nat2Z.id. simpl. lia. }
    rewrite Hrun. cbn [clear_loop]. rewrite Z.eqb_refl, bind_val. xs. rewrite !insert_insert_eq.
    exists (<[s := mk s false false s s]> h1). split_and!; [done | | |].
    + exists E, 0%nat. split_and!; try done.
      * split; [done | simpl; apply lookup_insert_eq |]. destruct Hwf as [_ HFa]. simpl.
        split; [apply NoDup_singleton|]. apply Forall_cons in HFa as [? _]. by apply Forall_singleton.
      * constructor.
    + intros z Hz. rewrite lookup_insert_ne; [by apply Hc|]. intros <-. apply wf_nodup in Hwf. tauto.
    + intros z Hz. rewrite lookup_insert_ne by set_solver. apply Hf; set_solver.
Qed.

(** ** ExtractPrefix *)

Fixpoint take_while (p : Z -> bool) (l : list Z) : list Z :=
  match l with [] => [] | x :: l => if p x then x :: take_while p l else [] end.

Fixpoint drop_while (p : Z -> bool) (l : list Z) : list Z :=
  match l with [] => [] | x :: l => if p x then drop_while p l else x :: l end.

Lemma Earliest_ok h t l :
  tree_holds kLess h t l -> Earliest h t = Val (default nullptr (head l)).
Proof.
  intros (T & n & HF & HT & _). destruct (focus_sentinel _ _ _ _ _ HF) as [Hs Pr].
  unfold Earliest, tree_min. erewrite ld_left by done. rewrite bind_val.
  destruct l as [|x l]; simpl; [by rewrite Z.eqb_refl|].
  rewrite (proj2 (Z.eqb_neq _ _)); [done|]. pose proof (focus_wf _ _ _ _ _ HF) as Hwf.
  simpl in Hwf. rewrite app_nil_r, HT in Hwf. apply wf_nodup in Hwf as [_ Hwf]. set_solver.
Qed.

Lemma extract_loop_ok pred l : forall fuel h t w popped,
  tree_holds kLess h t l -> (length l < fuel)%nat ->
  exists h' t' popped',
    extract_loop fuel (fun _ => pred) (fun h t result elem => Val (h, t, result ++ [elem])) h t w popped =
      Val (h', t', w ++ take_while pred l, popped') /\
    sentinel t' = sentinel t /\ tree_holds kLess h' t' (drop_while pred l) /\
    (forall z, z ∈ take_while pred l -> h' !! z = Some unlinked) /\
    only h h' (sentinel t) l.
Proof.
  induction l as [|x l IH]; intros fuel h t w popped H Hf; (destruct fuel as [|fuel]; [simpl in Hf; lia|]);
    cbn [extract_loop]; pose proof H as (_ & _ & _ & _ & _ & _ & Hsz & _); unfold Empty.
  - rewrite Hsz. exists h, t, popped. rewrite app_nil_r. split_and!; [done | done | done | set_solver | apply only_refl].
  - rewrite Hsz, (proj2 (Z.eqb_neq _ 0)) by (simpl; lia). rewrite (Earliest_ok _ _ _ H), bind_val. simpl default.
    simpl take_while. simpl drop_while. destruct (pred x) eqn:Hp; cbn [negb].
    + destruct (Erase_ok kLess h t [] x l H) as (h1 & -> & H1 & Hx & Ho1). rewrite !bind_val, check_true, !bind_val.
      destruct (IH fuel h1 (mkTree (sentinel t) (size_ t - 1)) (w ++ [x]) (usize (popped + 1)) H1)
        as (h' & t' & popped' & -> & Hs' & H' & Hu & Ho'); [simpl in Hf; lia|].
      exists h', t', popped'. rewrite <- app_assoc. split_and!; [done | done | done | |].
      * intros z [->|Hz]%elem_of_cons; [|by apply Hu]. rewrite Ho'; [done|].
        destruct H as (T & n & HF & HT & _). pose proof (focus_wf _ _ _ _ _ HF) as [HN _].
        simpl in HN. rewrite app_nil_r, HT in HN. cbn [sentinel].
        apply NoDup_cons in HN as [Hs HN]. apply NoDup_cons in HN. set_solver.
      * intros z Hz. rewrite Ho' by set_solver. apply Ho1. set_solver.
    + exists h, t, popped. rewrite app_nil_r. split_and!; [done | done | done | set_solver | apply only_refl].
Qed.

(** ** Operations as a sequence *)

Inductive op :=
| OInsert (e : Z) | OErase (e : Z) | OEarliest | OSize | OExtractPrefix (pred : Z -> bool) | OClear.

Inductive resp := RBool (b : bool) | RPtr (p : Z) | RSize (z : Z) | RElems (l : list Z) | RUnit.

Definition exec (h : heap) (t : tree) (o : op) : outcome (heap * tree * resp) :=
  match o with
  | OInsert e => '(h, t, b) ← Insert kLess h t e; Val (h, t, RBool b)
  | OErase e => '(h, t, b) ← Erase h t e; Val (h, t, RBool b)
  | OEarliest => p ← Earliest h t; Val (h, t, RPtr p)
  | OSize => Val (h, t, RSize (Size t))
  | OExtractPrefix pred => '(h, t, l) ← ExtractPrefix pred h t; Val (h, t, RElems l)
  | OClear => '(h, t) ← Clear h t; Val (h, t, RUnit)
  end.

(** The same operations on a sorted list of elements. *)
Definition spec (l : list Z) (o : op) : list Z * resp :=
  match o with
  | OInsert e =>
      if (e =? nullptr) || bool_decide (e ∈ l) then (l, RBool false)
      else (insert_sorted kLess e l, RBool true)
  | OErase e => (List.filter (fun x => negb (x =? e)) l, RBool (bool_decide (e ∈ l)))
  | OEarliest => (l, RPtr (default nullptr (head l)))
  | OSize => (l, RSize (Z.of_nat (length l)))
  | OExtractPrefix pred => (drop_while pred l, RElems (take_while pred l))
  | OClear => ([], RUnit)
  end.

Fixpoint exec_all (h : heap) (t : tree) (os : list op) : outcome (heap * tree * list resp) :=
  match os with
  | [] => Val (h, t, [])
  | o :: os => '(h, t, r) ← exec h t o; '(h, t, rs) ← exec_all h t os; Val (h, t, r :: rs)
  end.

Fixpoint spec_all (l : list Z) (os : list op) : list Z * list resp :=
  match os with
  | [] => (l, [])
  | o :: os => let '(l, r) := spec l o in let '(l, rs) := spec_all l os in (l, r :: rs)
  end.

(** The tree holds [l], and the other elements of [elems] have reset hooks. *)
Record rb_state (elems : gset Z) (h : heap) (t : tree) (l : list Z) : Prop := {
  rb_holds : tree_holds kLess h t l;
  rb_elems : forall e, e ∈ l -> e ∈ elems;
  rb_addr : forall e, e ∈ elems -> is_addr e /\ e <> sentinel t;
  rb_free : forall e, e ∈ elems -> (e ∉ l) -> h !! e = Some unlinked;
}.

(** The caller passes null or an element object. *)
Definition legal (elems : gset Z) (o : op) : Prop :=
  match o with OInsert e | OErase e => e = nullptr \/ e ∈ elems | _ => True end.

Lemma insert_sorted_elem e l x : x ∈ insert_sorted kLess e l <-> x = e \/ x ∈ l.
Proof.
  induction l as [|y l IH]; simpl; [set_solver|]. destruct (kLess e y); set_solver.
Qed.

Lemma tree_holds_nodup h t l : tree_holds kLess h t l -> NoDup l.
Proof.
  intros (T & n & HF & HT & _). pose proof (focus_wf _ _ _ _ _ HF) as Hwf.
  simpl in Hwf. rewrite app_nil_r, HT in Hwf. by apply wf_nodup in Hwf as [? _].
Qed.

Lemma filter_ne_absent (e : Z) l : (e ∉ l) -> List.filter (fun x => negb (x =? e)) l = l.
Proof.
  induction l as [|x l IH]; simpl; intros Hl; [done|].
  rewrite (proj2 (Z.eqb_neq x e)) by set_solver. simpl. f_equal. apply IH. set_solver.
Qed.

Lemma filter_ne_app (e : Z) l1 l2 :
  NoDup (l1 ++ e :: l2) -> List.filter (fun x => negb (x =? e)) (l1 ++ e :: l2) = l1 ++ l2.
Proof.
  intros HN. apply NoDup_app in HN as (_ & H12 & HN). apply NoDup_cons in HN as [He _].
  rewrite List.filter_app. simpl. rewrite Z.eqb_refl. simpl.
  rewrite !filter_ne_absent; [done | done |]. intros Hin. apply (H12 e Hin). set_solver.
Qed.

Lemma take_drop_elem pred l x : x ∈ l <-> x ∈ take_while pred l \/ x ∈ drop_while pred l.
Proof. induction l as [|y l IH]; simpl; [set_solver|]. destruct (pred y); set_solver. Qed.

Lemma exec_insert_ok elems h t l e :
  rb_state elems h t l -> e = nullptr \/ e ∈ elems ->
  exists h' t', exec h t (OInsert e) = Val (h', t', snd (spec l (OInsert e))) /\
    sentinel t' = sentinel t /\ rb_state elems h' t' (fst (spec l (OInsert e))).
Proof.
  intros [H He Ha Hfr] Hleg. simpl. unfold Insert.
  destruct Hleg as [->|Hin].
  { exists h, t. simpl. split_and!; [done | done |]. by split. }
  destruct (Ha e Hin) as [Ae Hes]. assert (e <> nullptr) as He0 by (destruct Ae; unfold nullptr; lia).
  rewrite (proj2 (Z.eqb_neq _ _) He0). cbn [orb]. case_bool_decide as Hel.
  - destruct H as (T & n & HF & HT & Hrest). xb.
    assert (InTree h e = Val true) as -> by (eapply focus_InTree; [exact HF | by rewrite HT]). rewrite !bind_val.
    exists h, t. split_and!; [done | done |]. split; auto. exists T, n. auto.
  - pose proof (Hfr e Hin Hel) as Hu.
    destruct (Insert_ok kLess h t l e H Ae Hes Hu) as (h' & Hrun & H' & Ho).
    unfold Insert in Hrun. rewrite (proj2 (Z.eqb_neq _ _) He0) in Hrun. rewrite Hrun, bind_val.
    exists h', (mkTree (sentinel t) (size_ t + 1)). split_and!; [done | done |]. split; auto.
    + intros x Hx. apply insert_sorted_elem in Hx as [->|Hx]; auto.
    + intros x Hx Hxl. cbn [fst] in Hxl. rewrite insert_sorted_elem in Hxl. rewrite Ho; [apply Hfr; tauto|].
      rewrite elem_of_cons, insert_sorted_elem. destruct (Ha x Hx). tauto.
Qed.

Lemma exec_erase_ok elems h t l e :
  rb_state elems h t l -> e = nullptr \/ e ∈ elems ->
  exists h' t', exec h t (OErase e) = Val (h', t', snd (spec l (OErase e))) /\
    sentinel t' = sentinel t /\ rb_state elems h' t' (fst (spec l (OErase e))).
Proof.
  intros [H He Ha Hfr] Hleg. simpl.
  destruct (decide (e ∈ l)) as [Hel|Hel].
  - rewrite bool_decide_eq_true_2 by done. pose proof (tree_holds_nodup _ _ _ H) as HN.
    apply list_elem_of_split in Hel as (l1 & l2 & ->).
    destruct (Erase_ok kLess h t l1 e l2 H) as (h' & -> & H' & Hu & Ho). rewrite bind_val, filter_ne_app by done.
    exists h', (mkTree (sentinel t) (size_ t - 1)). split_and!; [done | done |]. split; auto.
    + intros x Hx. apply He. set_solver.
    + intros x Hx Hxl. destruct (decide (x = e)) as [->|Hne]; [done|].
      destruct (Ha x Hx). rewrite Ho; [apply Hfr; set_solver | set_solver].
  - rewrite bool_decide_eq_false_2, filter_ne_absent by done. exists h, t. unfold Erase.
    assert ((if e =? nullptr then Val (h, t, false) else _) = Val (h, t, false)) as ->; [|by split_and!].
    destruct (e =? nullptr) eqn:E0; [done|]. apply Z.eqb_neq in E0. destruct Hleg as [?|Hin]; [done|].
    destruct (Ha e Hin) as [Ae Hes]. pose proof (Hfr e Hin Hel) as Hu.
    rewrite (proj2 (Z.eqb_neq _ _) Hes). xb.
    by rewrite (ld_linked _ _ _ _ _ _ _ Hu ltac:(by unfold is_ptr)).
Qed.

Lemma rb_exec_ok elems h t l o :
  rb_state elems h t l -> legal elems o ->
  exists h' t', exec h t o = Val (h', t', snd (spec l o)) /\
    sentinel t' = sentinel t /\ rb_state elems h' t' (fst (spec l o)).
Proof.
  intros Hst Hleg. destruct o as [e|e| | |pred|]; [by apply exec_insert_ok | by apply exec_erase_ok | | | |];
    pose proof Hst as [H He Ha Hfr]; cbn [exec spec fst snd].
  - rewrite (Earliest_ok _ _ _ H). exists h, t. auto.
  - exists h, t. destruct H as (T & n & HF & HT & Hrb & HTb & Hsz & HS). unfold Size. rewrite Hsz. auto.
  - unfold ExtractPrefix, ExtractPrefixImpl.
    destruct (extract_loop_ok pred l (loop_fuel t) h t [] 0 H) as (h' & t' & popped & -> & Hs & H' & Hu & Ho).
    { destruct H as (T & n & _ & _ & _ & _ & Hsz & _). unfold loop_fuel. rewrite Hsz, Nat2Z.id. lia. }
    rewrite !bind_val. exists h', t'. split_and!; [done | done |]. split; auto.
    + intros x Hx. apply He. apply (take_drop_elem pred). auto.
    + by rewrite Hs.
    + intros x Hx Hxl. destruct (decide (x ∈ take_while pred l)) as [Ht|Ht]; [by apply Hu|].
      assert (x ∉ l) as Hxn by (rewrite (take_drop_elem pred); tauto).
      destruct (Ha x Hx). rewrite Ho; [by apply Hfr | set_solver].
  - destruct (Clear_ok h t l H) as (h' & -> & H' & Hu & Ho). rewrite bind_val.
    exists h', (mkTree (sentinel t) 0). split_and!; [done | done |]. split; auto.
    + set_solver.
    + intros x Hx _. destruct (decide (x ∈ l)) as [Hl|Hl]; [by apply Hu|].
      destruct (Ha x Hx). rewrite Ho; [by apply Hfr | set_solver].
Qed.

(** C4. Under any sequence of Insert, Erase, Earliest, Size, ExtractPrefix and
    Clear, the intrusive red-black tree answers as a sorted list does: an insertion
    goes behind all elements that are not greater and is refused exactly for null
    or linked elements, an erasure removes exactly its element, the cached minimum
    is the head, and draining returns the prefix in order. No pointer is followed
    to nothing, no assertion fails, every loop ends, and the resulting heap again
    holds a valid tree, with the hooks of all other elements reset. *)
Theorem rbtree_refines_sorted_list elems h t l os :
  rb_state elems h t l -> Forall (legal elems) os ->
  exists h' t', exec_all h t os = Val (h', t', snd (spec_all l os)) /\
    sentinel t' = sentinel t /\ rb_state elems h' t' (fst (spec_all l os)).
Proof.
  revert h t l. induction os as [|o os IH]; intros h t l Hst HF; simpl; [by exists h, t|].
  apply Forall_cons in HF as [Ho HF].
  destruct (rb_exec_ok elems h t l o Hst Ho) as (h1 & t1 & Hrun & Hs1 & H1). rewrite Hrun, bind_val.
  destruct (spec l o) as [l1 r]. cbn [fst snd] in *.
  destruct (IH h1 t1 l1 H1 HF) as (h' & t' & Hrun' & Hs' & H'). rewrite Hrun', bind_val.
  destruct (spec_all l1 os) as [l2 rs]. exists h', t'. split_and!; [done | congruence | done].
Qed.

(** ** The checker *)

Definition strict (l : list Z) : Prop := StronglySorted (fun x y => kLess x y = true) l.

Lemma strict_parts l1 a l2 :
  strict (l1 ++ a :: l2) -> strict l1 /\ strict l2 /\
    (forall x, x ∈ l1 -> kLess x a = true) /\ (forall x, x ∈ l2 -> kLess a x = true).
Proof.
  unfold strict. induction l1 as [|y l1 IH]; simpl; intros H; inversion H as [|? ? HS HF]; subst;
    rewrite Forall_forall in HF.
  - split_and!; [constructor | done | set_solver | auto].
  - destruct (IH HS) as (S1 & S2 & D1 & D2). split_and!; [|done| |done].
    + constructor; [done|]. apply Forall_forall. intros x Hx. apply HF. set_solver.
    + intros x [->|Hx]%elem_of_cons; [apply HF; set_solver | auto].
Qed.

Lemma total_strict l :
  sorted kLess l -> NoDup l ->
  (forall x y, x ∈ l -> y ∈ l -> x <> y -> kLess x y = true \/ kLess y x = true) -> strict l.
Proof.
  induction l as [|a l IH]; intros HS HN Ht; [constructor|].
  apply (sorted_cons kLess) in HS as [HF HS]. apply NoDup_cons in HN as [Ha HN]. constructor.
  - apply IH; auto. intros x y Hx Hy. apply Ht; set_solver.
  - apply Forall_forall. intros x Hx. destruct (Ht a x) as [?|Hc]; [set_solver | set_solver | set_solver | done |].
    rewrite HF in Hc by done. done.
Qed.

Lemma CheckSubtree_ok h t m u : forall k fuel lower upper n,
  focus h (sentinel t) m u k -> is_rb u n -> strict (inorder u) ->
  (lower = nullptr \/ forall x, x ∈ inorder u -> kLess lower x = true) ->
  (upper = nullptr \/ forall x, x ∈ inorder u -> kLess x upper = true) ->
  (length (inorder u) < fuel)%nat ->
  CheckSubtree kLess fuel h t (addr (sentinel t) u) (pa (sentinel t) k) lower upper =
    Val (mkCheck true (Z.of_nat n) (Z.of_nat (length (inorder u))) (default nullptr (head (inorder u)))).
Proof.
  induction u as [|c l IHl a r IHr]; intros k fuel lower upper n H Hrb HS Hlo Hup Hf;
    (destruct fuel as [|fuel]; [simpl in Hf; lia|]); cbn [CheckSubtree addr].
  - rewrite Z.eqb_refl. simpl in Hrb. by subst n.
  - destruct (focus_node _ _ _ _ _ _ _ _ H) as (Ha & Pp & Pa & Has).
    assert (forall x, x ∈ sentinel t :: lefts k ++ inorder (N c l a r) ++ rights k -> x <> nullptr) as Hnn
      by (intros x Hx; by eapply focus_not_null).
    assert (a <> nullptr) as Ha0 by (apply Hnn; simpl; set_solver).
    assert (addr (sentinel t) l <> nullptr) as Hl0
      by (apply Hnn; pose proof (addr_in (sentinel t) l); simpl; set_solver).
    assert (addr (sentinel t) r <> nullptr) as Hr0
      by (apply Hnn; pose proof (addr_in (sentinel t) r); simpl; set_solver).
    pose proof (focus_pa_not_null _ _ _ _ _ H) as Hp0.
    destruct (focus_child_neq _ _ _ _ _ _ _ _ H) as [_ Hra].
    simpl in HS. destruct (strict_parts _ _ _ HS) as (HSl & HSr & Dl & Dr).
    pose proof (wf_length _ _ (focus_wf _ _ _ _ _ H)) as Hwl.
    rewrite !length_app in Hwl. simpl in Hwl, Hf. rewrite !length_app in Hwl, Hf. simpl in Hwl, Hf.
    xb. cbn [orb]. erewrite ld_linked, ld_header, ld_parent, ld_left, ld_right by done. rewrite !bind_val.
    rewrite (proj2 (Z.eqb_neq _ _) Hra). cbn [negb orb]. xb. cbn [orb].
    rewrite less_irrefl.
    assert (negb (lower =? nullptr) && negb (kLess lower a) = false) as ->.
    { destruct Hlo as [->|Hlo]; [done|]. rewrite Hlo by (simpl; set_solver). apply andb_false_r. }
    assert (negb (upper =? nullptr) && negb (kLess a upper) = false) as ->.
    { destruct Hup as [->|Hup]; [done|]. rewrite Hup by (simpl; set_solver). apply andb_false_r. }
    pose proof H as HL. apply (focus_move h (sentinel t) m l (FL c a r) k) in HL.
    pose proof H as HR. apply (focus_move h (sentinel t) m r (FR c l a) k) in HR.
    unfold andp, orp. erewrite (ld_red h a), (ld_black h a) by done.
    rewrite (focus_IsRed _ _ _ _ _ HL), (focus_IsRed _ _ _ _ _ HR), !bind_val.
    assert (exists nl, is_rb l nl /\ is_rb r nl /\ Z.of_nat n = Z.of_nat nl + (if c then 0 else 1) /\
      (c = true -> tred l = false /\ tred r = false)) as (nl & Hnl & Hnr & Hn & Hcc).
    { destruct c; simpl in Hrb; [exists n; split_and!; tauto || lia|].
      destruct n as [|n']; [done|]. exists n'. split_and!; tauto || lia || done. }
    assert ((if c then if tred l then Val true else Val (tred r) else Val false) = Val false) as ->.
    { destruct c; [|done]. by destruct (Hcc eq_refl) as [-> ->]. }
    assert (lower = nullptr \/ forall x, x ∈ inorder l -> kLess lower x = true) as Hlo'.
    { destruct Hlo as [->|Hlo]; [by left|]. right. intros x Hx. apply Hlo. simpl. set_solver. }
    assert (upper = nullptr \/ forall x, x ∈ inorder r -> kLess x upper = true) as Hup'.
    { destruct Hup as [->|Hup]; [by left|]. right. intros x Hx. apply Hup. simpl. set_solver. }
    pose proof (IHl (FL c a r :: k) fuel lower a nl HL Hnl HSl Hlo' (or_intror Dl) ltac:(lia)) as Hcl.
    pose proof (IHr (FR c l a :: k) fuel a upper nl HR Hnr HSr (or_intror Dr) Hup' ltac:(lia)) as Hcr.
    cbn [pa faddr] in Hcl, Hcr. rewrite bind_val, Hcl, bind_val. cbn [ok negb black_height count cmin].
    rewrite Hcr, bind_val. cbn [ok negb black_height count cmin]. rewrite Z.eqb_refl. cbn [negb]. rewrite !bind_val.
    do 2 f_equal.
    + destruct c; simpl; lia.
    + rewrite usize_small by (unfold is_usize, size_max; lia). cbn [inorder]. rewrite length_app. simpl. lia.
    + cbn [inorder]. by destruct (inorder l).
Qed.

Fixpoint height (u : tr) : Z :=
  match u with E => 0 | N _ l _ r => 1 + Z.max (height l) (height r) end.

Lemma is_rb_height u : forall n, is_rb u n ->
  height u <= 2 * Z.of_nat n + (if tred u then 1 else 0) /\ 2 ^ Z.of_nat n <= Z.of_nat (length (inorder u)) + 1.
Proof.
  induction u as [|c l IHl a r IHr]; intros n Hn; simpl in Hn.
  - subst n. simpl. lia.
  - simpl. rewrite length_app. simpl. destruct c.
    + destruct Hn as (Hl & Hr & Cl & Cr). destruct (IHl n Hl) as [H1 H2], (IHr n Hr) as [H3 H4].
      rewrite Cl in H1. rewrite Cr in H3. lia.
    + destruct n as [|n]; [done|]. destruct Hn as [Hl Hr].
      destruct (IHl n Hl) as [H1 H2], (IHr n Hr) as [H3 H4].
      rewrite Nat2Z.inj_succ, Z.pow_succ_r by lia. destruct (tred l), (tred r); lia.
Qed.

(** In every state the operations reach, when [kLess] orders all elements,
    the tree's own checker accepts: colours, black heights, order, parent links,
    element count, cached root and minimum and the header are as it demands; and
    no node lies deeper than twice the logarithm of the number of elements. *)
Theorem rbtree_checked_and_balanced elems h t l :
  rb_state elems h t l ->
  (forall x y, x ∈ l -> y ∈ l -> x <> y -> kLess x y = true \/ kLess y x = true) ->
  CheckInvariants kLess h t = Val true /\
  exists T, focus h (sentinel t) (default (sentinel t) (head l)) T [] /\ inorder T = l /\
    height T <= 2 * Z.log2 (Size t + 1).
Proof.
  intros [H _ _ _] Htot. pose proof (tree_holds_nodup _ _ _ H) as HN.
  destruct H as (T & n & HF & HT & Hrb & HTb & Hsz & HS). set (s := sentinel t) in *.
  pose proof (total_strict l HS HN Htot) as Hst.
  destruct (is_rb_height T n Hrb) as [Hh Hpow]. rewrite HTb in Hh. rewrite HT in Hpow. split.
  2: { exists T. split_and!; [done | done|]. unfold Size. rewrite Hsz.
       assert (Z.of_nat n <= Z.log2 (Z.of_nat (length l) + 1)) by (apply Z.log2_le_pow2; lia). lia. }
  destruct (focus_sentinel _ _ _ _ _ HF) as [Hs Pr]. cbn [plug] in Hs, Pr.
  assert (s <> nullptr) as Hs0 by (eapply focus_not_null; [exact HF | set_solver]).
  assert (forall x, x ∈ l -> x <> nullptr /\ x <> s) as Hl0.
  { intros x Hx. split; [eapply focus_not_null; [exact HF|]; simpl; rewrite HT; set_solver|].
    pose proof (focus_wf _ _ _ _ _ HF) as Hwf. simpl in Hwf. rewrite app_nil_r, HT in Hwf.
    apply wf_nodup in Hwf as [_ Hwf]. by intros ->. }
  unfold CheckInvariants, root, tree_min. fold s.
  erewrite ld_black, ld_linked, ld_header, ld_parent, ld_left by done. rewrite !bind_val, Z.eqb_refl. cbn [negb orb].
  destruct T as [|c lt a rt].
  - simpl in HT. subst l. cbn [addr head default from_option id]. change (default s None) with s.
    rewrite (proj2 (Z.eqb_neq _ _) Hs0), Z.eqb_refl, Hsz. cbn [orb]. by rewrite Z.eqb_refl.
  - destruct (focus_node _ _ _ _ _ _ _ _ HF) as (Ha & Pp & _ & Has). cbn [pa addr] in *.
    assert (exists m0, head l = Some m0 /\ m0 ∈ l) as (m0 & Hm & Hml).
    { destruct l as [|y l]; [by apply inorder_nil in HT|]. exists y. set_solver. }
    rewrite Hm in *. change (default s (Some m0)) with m0 in *. destruct (Hl0 m0 Hml) as [Hm0 Hms].
    assert (a ∈ l) as Hal by (rewrite <- HT; simpl; set_solver). destruct (Hl0 a Hal) as [Ha0 _].
    rewrite (proj2 (Z.eqb_neq _ _) Ha0), (proj2 (Z.eqb_neq _ _) Hm0). cbn [orb].
    rewrite (proj2 (Z.eqb_neq _ _) Has). erewrite ld_parent, ld_red by done. rewrite !bind_val.
    simpl in HTb. subst c.
    assert ((size_ t =? 0) = false) as ->.
    { apply Z.eqb_neq. rewrite Hsz. destruct l; simpl in *; [done | lia]. }
    rewrite (proj2 (Z.eqb_neq _ _) Hms), Z.eqb_refl. cbn [orb negb].
    assert (length l <= Z.to_nat (size_ t))%nat as Hlen by (rewrite Hsz; lia).
    rewrite (HeaderOf_ok _ _ _ _ _ _ _ _ HF) by (simpl plug; by rewrite HT). rewrite bind_val. fold s.
    assert (HeaderOf h t m0 = Val s) as ->.
    { destruct (subtree_at m0 (N false lt a rt)) as (k & c & l' & r' & Heq); [by rewrite HT|].
      rewrite <- Heq in HF. apply focus_down in HF.
      rewrite (HeaderOf_ok _ _ _ _ _ _ _ _ HF); [done|]. by rewrite Heq, HT. }
    rewrite bind_val, !Z.eqb_refl. cbn [orb negb].
    pose proof (CheckSubtree_ok h t m0 (N false lt a rt) [] (loop_fuel t) nullptr nullptr n HF Hrb) as Hchk.
    rewrite HT in Hchk. cbn [addr pa] in Hchk. fold s in Hchk. rewrite Hchk; auto.
    + rewrite bind_val. cbn [ok count cmin]. rewrite Hsz, Z.eqb_refl, Hm. simpl. by rewrite Z.eqb_refl.
    + unfold loop_fuel. lia.
Qed.

End props.

(** ** A concrete tree *)

#[global] Instance ltb_order : StrictWeakOrder Z.ltb.
Proof.
  split; intros *.
  - apply Z.ltb_irrefl.
  - rewrite !Z.ltb_lt. lia.
  - rewrite !Z.ltb_lt. lia.
Qed.

Definition example_elems : gset Z := {[16; 24; 32; 40; 48]}.

(** An empty tree with its sentinel at 8 and five element objects. *)
Definition example_heap : heap :=
  <[8 := mk 8 false false 8 8]> (gset_to_gmap unlinked example_elems).

Lemma example_addr e : e ∈ example_elems -> is_addr e /\ e <> 8.
Proof.
  unfold example_elems, is_addr. rewrite !elem_of_union, !elem_of_singleton.
  intros H. destruct_or!; subst; repeat split; try lia; done.
Qed.

Lemma example_state : rb_state Z.ltb example_elems example_heap (mkTree 8 0) [].
Proof.
  split.
  - exists E, 0%nat. split_and!; try done; [|constructor].
    split; [done | apply lookup_insert_eq |].
    split; [apply NoDup_singleton|]. apply Forall_singleton. by unfold is_addr.
  - set_solver.
  - intros e He. by apply example_addr.
  - intros e He _. unfold example_heap. rewrite lookup_insert_ne by (apply not_eq_sym; by apply example_addr).
    by apply lookup_gset_to_gmap_Some.
Qed.

(** Five insertions, one of them repeated, an erasure and a drained prefix. *)
Definition example_ops : list op :=
  [OInsert 32; OInsert 16; OInsert 48; OInsert 24; OInsert 24; OInsert 40; OErase 32; OEarliest;
   OExtractPrefix (fun x => x <? 40); OSize; OErase 16].

Lemma example_legal : Forall (legal example_elems) example_ops.
Proof. unfold example_ops, legal. repeat constructor; right; vm_compute; done. Qed.

Lemma rbtree_refines_sorted_list_witness :
  exists h' t', exec_all Z.ltb example_heap (mkTree 8 0) example_ops =
    Val (h', t', [RBool true; RBool true; RBool true; RBool true; RBool false; RBool true; RBool true;
                  RPtr 16; RElems [16; 24]; RSize 2; RBool false]) /\
    rb_state Z.ltb example_elems h' t' [40; 48].
Proof.
  destruct (rbtree_refines_sorted_list Z.ltb example_elems example_heap (mkTree 8 0) [] example_ops
    example_state example_legal) as (h' & t' & Hrun & _ & H').
  exists h', t'. split; [exact Hrun | exact H'].
Defined.

(** Two elements that a strict weak order does not separate are both accepted by
    Insert, but the checker demands a strict order and then reports a violation. *)
Example rbtree_checker_rejects_ties :
  ('(h, t, _) ← exec_all (fun _ _ => false) example_heap (mkTree 8 0) [OInsert 16; OInsert 24];
   CheckInvariants (fun _ _ => false) h t) = Val false.
Proof. vm_compute. reflexivity. Qed.

(** A tree of three nodes: 24 black at the root, 16 and 32 red below. *)
Definition example_tree : tr := N false (N true E 16 E) 24 (N true E 32 E).

Definition example_tree_heap : heap :=
  <[8 := mk 24 false false 16 8]> (<[16 := mk 24 true true 8 8]> (<[24 := mk 8 false true 16 32]>
    (<[32 := mk 24 true true 8 8]> (gset_to_gmap unlinked example_elems)))).

Lemma example_tree_focus : focus example_tree_heap 8 16 example_tree [].
Proof.
  split; [done | done |]. split.
  - refine (bool_decide_unpack _ _). vm_compute. done.
  - simpl. repeat constructor; unfold is_addr; lia || done.
Qed.

Lemma example_tree_state : rb_state Z.ltb example_elems example_tree_heap (mkTree 8 3) [16; 24; 32].
Proof.
  split.
  - exists example_tree, 1%nat. split_and!; try done; [apply example_tree_focus|]. repeat constructor.
  - intros e He. unfold example_elems. set_solver.
  - intros e He. by apply example_addr.
  - intros e He Hel. unfold example_tree_heap. rewrite !lookup_insert_ne; try set_solver.
Qed.

Lemma rbtree_checked_and_balanced_witness :
  CheckInvariants Z.ltb example_tree_heap (mkTree 8 3) = Val true.
Proof.
  apply (rbtree_checked_and_balanced Z.ltb example_elems example_tree_heap (mkTree 8 3) [16; 24; 32]
    example_tree_state).
  intros x y _ _ Hne. rewrite !Z.ltb_lt. lia.
Defined.

End RBTreeProps.
