(* ===== verification/MemoryPool.v ===== *)
(** * The fixed-size memory pool (include/alyrn/detail/memory_pool.h)

    A [MemoryPool] is one allocation of [kCapacity] slots. Free slots form an
    intrusive list: the first word of a free slot holds the address of the next.
    Two bit arrays record which slots are allocated and which are being released.

    The pool's memory is a map from addresses to the word stored there; the
    holders of allocated slots write to it at will. The reference is a stack of
    free slot numbers with two sets, and the theorem says that the pool and the
    reference agree on every sequence of calls, calls that abort included. *)

From S2P Require Import Prelude.

Module MemoryPool.

Definition nullptr : Z := 0.

(** ** The class template *)

(** Its arguments, and the address [::operator new] returned for the buffer. *)
Record params := mkParams { BlockSize : Z; Alignment : Z; kCapacity : Z; buffer : Z }.

Definition sizeof_ptr : Z := 8.

Section pool.
Context (P : params).

Definition kAlignment : Z := Z.max (Alignment P) sizeof_ptr.
Definition kRawSlotSize : Z := Z.max (BlockSize P) sizeof_ptr.
Definition kSlotSize : Z := usize (kRawSlotSize + kAlignment - 1) / kAlignment * kAlignment.
Definition kStateWordBits : Z := 64.
Definition kStateWordCount : Z := (kCapacity P + kStateWordBits - 1) / kStateWordBits.

(** The [static_assert]s of the template. *)
Definition static_asserts : bool :=
  (0 <? BlockSize P) && (0 <? kCapacity P) &&
  ((0 <? Alignment P) && (Z.land (Alignment P) (Alignment P - 1) =? 0)) &&
  (kRawSlotSize <=? size_max - (kAlignment - 1)) &&
  (kSlotSize <=? size_max / kCapacity P).

Record pool := mkPool {
  buffer_ : Z;
  free_list_head_ : Z;
  free_count_ : Z;
  allocated_slots_ : list Z;
  releasing_slots_ : list Z;
  memory : gmap Z Z;  (* the words of the buffer *)
}.

(** ** The slot states *)

Definition SlotIndex (p : pool) (ptr : Z) : Z := usize (ptr - buffer_ p) / kSlotSize.

(** [words[i]], an index outside of the array being undefined behaviour. *)
Definition word_at (words : list Z) (i : Z) : outcome Z :=
  match words !! Z.to_nat i with Some w => Val w | None => Panic end.

Definition bit_test (words : list Z) (slot : Z) : outcome bool :=
  let word := slot / kStateWordBits in
  let bit := slot mod kStateWordBits in
  w ← word_at words word;
  Val (negb (Z.land w (Z.shiftl 1 bit) =? 0)).

Definition bit_set (words : list Z) (slot : Z) : outcome (list Z) :=
  let word := slot / kStateWordBits in
  let bit := slot mod kStateWordBits in
  w ← word_at words word;
  Val (<[Z.to_nat word := Z.lor w (Z.shiftl 1 bit)]> words).

Definition bit_clear (words : list Z) (slot : Z) : outcome (list Z) :=
  let word := slot / kStateWordBits in
  let bit := slot mod kStateWordBits in
  w ← word_at words word;
  Val (<[Z.to_nat word := Z.land w (Z.lxor size_max (Z.shiftl 1 bit))]> words).

Definition SlotAllocated (p : pool) (slot : Z) : outcome bool := bit_test (allocated_slots_ p) slot.
Definition SlotReleasing (p : pool) (slot : Z) : outcome bool := bit_test (releasing_slots_ p) slot.

Definition set_slots (p : pool) (allocated releasing : list Z) : pool :=
  mkPool (buffer_ p) (free_list_head_ p) (free_count_ p) allocated releasing (memory p).

Definition MarkSlotAllocated (p : pool) (slot : Z) : outcome pool :=
  releasing ← SlotReleasing p slot;
  ALYRN_CHECK (negb releasing);;
  allocated ← bit_set (allocated_slots_ p) slot;
  Val (set_slots p allocated (releasing_slots_ p)).

Definition MarkSlotReleasing (p : pool) (slot : Z) : outcome pool :=
  allocated ← bit_clear (allocated_slots_ p) slot;
  releasing ← bit_set (releasing_slots_ p) slot;
  Val (set_slots p allocated releasing).

Definition MarkSlotFree (p : pool) (slot : Z) : outcome pool :=
  releasing ← bit_clear (releasing_slots_ p) slot;
  Val (set_slots p (allocated_slots_ p) releasing).

(** ** The operations *)

Definition load (p : pool) (a : Z) : outcome Z :=
  match memory p !! a with Some w => Val w | None => Panic end.

Definition Allocate (p : pool) : outcome (pool * Z) :=
  if free_list_head_ p =? nullptr then Val (p, nullptr) else
  let ptr := free_list_head_ p in
  next ← load p ptr;
  let p := mkPool (buffer_ p) next (free_count_ p) (allocated_slots_ p) (releasing_slots_ p) (memory p) in
  let slot := SlotIndex p ptr in
  allocated ← SlotAllocated p slot;
  releasing ← SlotReleasing p slot;
  ALYRN_CHECK (negb allocated && negb releasing);;
  p ← MarkSlotAllocated p slot;
  Val (mkPool (buffer_ p) (free_list_head_ p) (usize (free_count_ p - 1)) (allocated_slots_ p)
         (releasing_slots_ p) (memory p), ptr).

Definition Owns (p : pool) (ptr : Z) : bool :=
  if (ptr =? nullptr) || (buffer_ p =? nullptr) then false else
  let begin := buffer_ p in
  let finish := usize (begin + usize (kSlotSize * kCapacity P)) in
  if (ptr <? begin) || (finish <=? ptr) then false else
  usize (ptr - begin) mod kSlotSize =? 0.

Definition ClaimDeallocationLocked (p : pool) (ptr : Z) : outcome pool :=
  let slot := SlotIndex p ptr in
  allocated ← SlotAllocated p slot;
  ALYRN_CHECK allocated;;
  MarkSlotReleasing p slot.

Definition FinishDeallocationLocked (p : pool) (ptr : Z) : outcome pool :=
  let slot := SlotIndex p ptr in
  releasing ← SlotReleasing p slot;
  ALYRN_CHECK releasing;;
  p ← MarkSlotFree p slot;
  Val (mkPool (buffer_ p) ptr (usize (free_count_ p + 1)) (allocated_slots_ p) (releasing_slots_ p)
         (<[ptr := free_list_head_ p]> (memory p))).

Definition Deallocate (p : pool) (ptr : Z) : outcome pool :=
  if ptr =? nullptr then Val p else
  ALYRN_CHECK (Owns p ptr);;
  p ← ClaimDeallocationLocked p ptr;
  FinishDeallocationLocked p ptr.

Definition ClaimDeallocation (p : pool) (ptr : Z) : outcome pool :=
  ALYRN_CHECK (Owns p ptr);;
  ClaimDeallocationLocked p ptr.

Definition FinishDeallocation (p : pool) (ptr : Z) : outcome pool :=
  ALYRN_CHECK (Owns p ptr);;
  FinishDeallocationLocked p ptr.

Definition Capacity : Z := kCapacity P.
Definition FreeCount (p : pool) : Z := free_count_ p.
Definition UsedCount (p : pool) : Z := usize (kCapacity P - free_count_ p).

(** The loop of Initialize threads the slots from [current] on. *)
Fixpoint initialize_loop (n : nat) (current : Z) (m : gmap Z Z) : Z * gmap Z Z :=
  match n with
  | O => (current, m)
  | S n => let next := current + kSlotSize in initialize_loop n next (<[current := next]> m)
  end.

Definition Initialize : pool :=
  let '(current, m) := initialize_loop (Z.to_nat (kCapacity P - 1)) (buffer P) ∅ in
  mkPool (buffer P) (buffer P) (kCapacity P) (replicate (Z.to_nat kStateWordCount) 0)
    (replicate (Z.to_nat kStateWordCount) 0) (<[current := nullptr]> m).

(** The holder of a slot writes a word of it; any other write to the buffer is
    undefined behaviour. *)
Definition Write (p : pool) (a v : Z) : outcome pool :=
  held ← SlotAllocated p (SlotIndex p a);
  ALYRN_CHECK (held && (buffer_ p <=? a) && (a <? buffer_ p + kSlotSize * kCapacity P));;
  Val (mkPool (buffer_ p) (free_list_head_ p) (free_count_ p) (allocated_slots_ p) (releasing_slots_ p)
         (<[a := v]> (memory p))).

End pool.

End MemoryPool.
