(* ===== verification/MemoryPoolProps.v ===== *)
(** * The memory pool refines a stack of free slots

    The representation predicate of the pool, its preservation by every
    operation, and the theorems about sequences of calls. *)

From S2P Require Import Prelude MemoryPool.

Import MemoryPool.

Module MemoryPoolProps.

(** ** Bits of a word array *)

Lemma land_bit w b : 0 <= b -> negb (Z.land w (Z.shiftl 1 b) =? 0) = Z.testbit w b.
Proof.
  intros Hb. rewrite Z.shiftl_1_l. destruct (Z.testbit w b) eqn:E.
  - apply negb_true_iff, Z.eqb_neq. intros H. assert (Z.testbit (Z.land w (2 ^ b)) b = true) as H1.
    { by rewrite Z.land_spec, E, Z.pow2_bits_true. }
    rewrite H, Z.bits_0 in H1. done.
  - apply negb_false_iff, Z.eqb_eq. apply Z.bits_inj_iff. intros i.
    rewrite Z.land_spec, Z.bits_0, Z.pow2_bits_eqb by lia.
    destruct (Z.eqb_spec b i) as [->|]; [by rewrite E | apply andb_false_r].
Qed.

Lemma bit_lor w b i : 0 <= b -> Z.testbit (Z.lor w (Z.shiftl 1 b)) i = (b =? i) || Z.testbit w i.
Proof. intros Hb. by rewrite Z.lor_spec, Z.shiftl_1_l, Z.pow2_bits_eqb, orb_comm by lia. Qed.

Lemma bit_land_not w b i : 0 <= b -> 0 <= i < 64 ->
  Z.testbit (Z.land w (Z.lxor size_max (Z.shiftl 1 b))) i = negb (b =? i) && Z.testbit w i.
Proof.
  intros Hb Hi. rewrite Z.land_spec, Z.lxor_spec, Z.shiftl_1_l, Z.pow2_bits_eqb by lia.
  assert (Z.testbit size_max i = true) as ->.
  { change size_max with (Z.ones 64). apply Z.ones_spec_low. lia. }
  rewrite andb_comm. by destruct (b =? i).
Qed.

(** The first [n] bits of [words] are the characteristic function of [X]. *)
Record bits_are (n : Z) (words : list Z) (X : gset Z) : Prop := {
  bits_length : n <= 64 * Z.of_nat (length words);
  bits_test s : 0 <= s < n -> bit_test words s = Val (bool_decide (s ∈ X));
}.

Lemma word_at_in n words X s : bits_are n words X -> 0 <= s < n ->
  exists w, words !! Z.to_nat (s / 64) = Some w.
Proof.
  intros [HL _] Hs. apply lookup_lt_is_Some_2. pose proof (Z.div_pos s 64). pose proof (Z.div_lt_upper_bound s 64).
  apply Nat2Z.inj_lt. rewrite Z2Nat.id by lia. apply Z.div_lt_upper_bound; lia.
Qed.

Lemma same_word s s' : 0 <= s -> 0 <= s' ->
  Z.to_nat (s / 64) = Z.to_nat (s' / 64) -> s mod 64 = s' mod 64 -> s = s'.
Proof.
  intros H1 H2 Hd Hm. apply Z2Nat.inj in Hd; try (apply Z.div_pos; lia).
  rewrite (Z.div_mod s 64), (Z.div_mod s' 64) by lia. by rewrite Hd, Hm.
Qed.

(** Writing one word changes the bits of that word only. *)
Lemma bits_update n words X X' s f :
  bits_are n words X -> 0 <= s < n ->
  (forall w i, 0 <= i < 64 -> words !! Z.to_nat (s / 64) = Some w ->
     Z.testbit (f w) i = if s mod 64 =? i then bool_decide (s ∈ X') else Z.testbit w i) ->
  (forall s', s' <> s -> s' ∈ X <-> s' ∈ X') ->
  bits_are n (<[Z.to_nat (s / 64) := f (default 0 (words !! Z.to_nat (s / 64)))]> words) X'.
Proof.
  intros HB Hs Hf HX. destruct (word_at_in _ _ _ _ HB Hs) as [w Hw]. rewrite Hw. simpl.
  destruct HB as [HL HT]. split; [by rewrite length_insert|]. intros s' Hs'.
  specialize (HT s' Hs'). unfold bit_test, word_at, kStateWordBits in *.
  pose proof (Z.mod_pos_bound s' 64 eq_refl) as Hm'.
  destruct (decide (Z.to_nat (s / 64) = Z.to_nat (s' / 64))) as [He|He].
  - rewrite <- He in *. rewrite list_lookup_insert_eq by (by eapply lookup_lt_Some). rewrite Hw in HT.
    rewrite bind_val in *. rewrite land_bit in * by lia. rewrite (Hf w) by (done || lia).
    destruct (Z.eqb_spec (s mod 64) (s' mod 64)) as [Hm|Hm].
    + assert (s = s') as -> by (apply same_word; lia || done). done.
    + injection HT as HT. f_equal. rewrite HT. apply bool_decide_ext, HX. by intros ->.
  - rewrite list_lookup_insert_ne by done. rewrite HT. do 2 f_equal. apply bool_decide_ext, HX. by intros ->.
Qed.

Lemma bit_set_ok n words X s : bits_are n words X -> 0 <= s < n ->
  exists words', bit_set words s = Val words' /\ bits_are n words' ({[s]} ∪ X).
Proof.
  intros HB Hs. destruct (word_at_in _ _ _ _ HB Hs) as [w Hw].
  unfold bit_set, word_at, kStateWordBits. rewrite Hw, bind_val. eexists. split; [reflexivity|].
  pose proof (Z.mod_pos_bound s 64 eq_refl) as Hm.
  pose proof (bits_update n words X ({[s]} ∪ X) s (fun w => Z.lor w (Z.shiftl 1 (s mod 64))) HB Hs) as H.
  rewrite Hw in H. apply H; [|set_solver]. intros w' i Hi _. rewrite bit_lor by lia.
  destruct (s mod 64 =? i); [|done]. symmetry. apply bool_decide_eq_true_2. set_solver.
Qed.

Lemma bit_clear_ok n words X s : bits_are n words X -> 0 <= s < n ->
  exists words', bit_clear words s = Val words' /\ bits_are n words' (X ∖ {[s]}).
Proof.
  intros HB Hs. destruct (word_at_in _ _ _ _ HB Hs) as [w Hw].
  unfold bit_clear, word_at, kStateWordBits. rewrite Hw, bind_val. eexists. split; [reflexivity|].
  pose proof (Z.mod_pos_bound s 64 eq_refl) as Hm.
  pose proof (bits_update n words X (X ∖ {[s]}) s
    (fun w => Z.land w (Z.lxor size_max (Z.shiftl 1 (s mod 64)))) HB Hs) as H.
  rewrite Hw in H. apply H; [|set_solver]. intros w' i Hi _. rewrite bit_land_not by lia.
  destruct (s mod 64 =? i); [|done]. symmetry. apply bool_decide_eq_false_2. set_solver.
Qed.

(** ** The reference: a stack of free slots *)

Record ref := mkRef { free : list Z; held : gset Z; releasing : gset Z }.

Section props.
Context (P : params).

(** What the template's assertions and [::operator new] guarantee. *)
Record params_ok : Prop := {
  ok_asserts : static_asserts P = true;
  ok_buffer : 0 < buffer P;
  ok_aligned : buffer P mod kAlignment P = 0;
  ok_end : buffer P + kSlotSize P * kCapacity P <= size_max;
}.

Definition slot_addr (s : Z) : Z := buffer P + kSlotSize P * s.

(** The slot that starts at an address. *)
Definition slot_at (a : Z) : option Z :=
  if (buffer P <=? a) && (a <? buffer P + kSlotSize P * kCapacity P) && ((a - buffer P) mod kSlotSize P =? 0)
  then Some ((a - buffer P) / kSlotSize P) else None.

Fixpoint chain (m : gmap Z Z) (head : Z) (l : list Z) : Prop :=
  match l with
  | [] => head = nullptr
  | s :: l => head = slot_addr s /\ exists next, m !! head = Some next /\ chain m next l
  end.

Record ref_ok (r : ref) : Prop := {
  rf_nodup : NoDup (free r);
  rf_range s : 0 <= s < kCapacity P <-> s ∈ free r \/ s ∈ held r \/ s ∈ releasing r;
  rf_free s : s ∈ free r -> (s ∉ held r) /\ (s ∉ releasing r);
  rf_disj : held r ## releasing r;
}.

Record pool_rep (p : pool) (r : ref) : Prop := {
  pr_ok : ref_ok r;
  pr_buffer : buffer_ p = buffer P;
  pr_chain : chain (memory p) (free_list_head_ p) (free r);
  pr_count : free_count_ p = Z.of_nat (length (free r));
  pr_alloc : bits_are (kCapacity P) (allocated_slots_ p) (held r);
  pr_rel : bits_are (kCapacity P) (releasing_slots_ p) (releasing r);
}.

Inductive op :=
| OAllocate | ODeallocate (a : Z) | OClaim (a : Z) | OFinish (a : Z) | OWrite (a v : Z)
| OOwns (a : Z) | OFreeCount | OUsedCount.

Inductive resp := RPtr (a : Z) | RBool (b : bool) | RCount (n : Z) | RUnit.

Definition exec (p : pool) (o : op) : outcome (pool * resp) :=
  match o with
  | OAllocate => '(p, a) ← Allocate P p; Val (p, RPtr a)
  | ODeallocate a => p ← Deallocate P p a; Val (p, RUnit)
  | OClaim a => p ← ClaimDeallocation P p a; Val (p, RUnit)
  | OFinish a => p ← FinishDeallocation P p a; Val (p, RUnit)
  | OWrite a v => p ← Write P p a v; Val (p, RUnit)
  | OOwns a => Val (p, RBool (Owns P p a))
  | OFreeCount => Val (p, RCount (FreeCount p))
  | OUsedCount => Val (p, RCount (UsedCount P p))
  end.

Fixpoint exec_all (p : pool) (ops : list op) : outcome (pool * list resp) :=
  match ops with
  | [] => Val (p, [])
  | o :: ops => '(p, x) ← exec p o; '(p, xs) ← exec_all p ops; Val (p, x :: xs)
  end.

Definition spec_claim (r : ref) (s : Z) : outcome ref :=
  if decide (s ∈ held r) then Val (mkRef (free r) (held r ∖ {[s]}) ({[s]} ∪ releasing r)) else Panic.

Definition spec_finish (r : ref) (s : Z) : outcome ref :=
  if decide (s ∈ releasing r) then Val (mkRef (s :: free r) (held r) (releasing r ∖ {[s]})) else Panic.

Definition spec_owned (r : ref) (a : Z) (f : ref -> Z -> outcome ref) : outcome (ref * resp) :=
  match slot_at a with Some s => r ← f r s; Val (r, RUnit) | None => Panic end.

(** The calls on the reference; [Panic] where the pool has to abort. *)
Definition spec (r : ref) (o : op) : outcome (ref * resp) :=
  match o with
  | OAllocate =>
      match free r with
      | [] => Val (r, RPtr nullptr)
      | s :: f => Val (mkRef f ({[s]} ∪ held r) (releasing r), RPtr (slot_addr s))
      end
  | ODeallocate a =>
      if a =? nullptr then Val (r, RUnit) else
      spec_owned r a (fun r s => r ← spec_claim r s; spec_finish r s)
  | OClaim a => spec_owned r a spec_claim
  | OFinish a => spec_owned r a spec_finish
  | OWrite a v =>
      if (buffer P <=? a) && (a <? buffer P + kSlotSize P * kCapacity P) &&
         bool_decide ((a - buffer P) / kSlotSize P ∈ held r)
      then Val (r, RUnit) else Panic
  | OOwns a => Val (r, RBool (bool_decide (is_Some (slot_at a))))
  | OFreeCount => Val (r, RCount (Z.of_nat (length (free r))))
  | OUsedCount => Val (r, RCount (Z.of_nat (size (held r ∪ releasing r))))
  end.

Fixpoint spec_all (r : ref) (ops : list op) : outcome (ref * list resp) :=
  match ops with
  | [] => Val (r, [])
  | o :: ops => '(r, x) ← spec r o; '(r, xs) ← spec_all r ops; Val (r, x :: xs)
  end.

Definition initial : ref := mkRef (seqZ 0 (kCapacity P)) ∅ ∅.

(** [m] does what the reference does: the same abort, or the same response and
    a state that represents the new reference. *)
Definition agrees {A} (m : outcome (pool * A)) (s : outcome (ref * A)) : Prop :=
  match s with
  | Panic => m = Panic
  | Val (r, x) => exists p, m = Val (p, x) /\ pool_rep p r
  end.

(** ** Sizes and addresses *)

Section sizes.
Context (HP : params_ok).

Lemma slot_size_facts :
  0 < kCapacity P /\ sizeof_ptr <= kAlignment P /\ kRawSlotSize P <= kSlotSize P /\
  kSlotSize P mod kAlignment P = 0 /\ BlockSize P <= kSlotSize P /\ sizeof_ptr <= kSlotSize P.
Proof.
  destruct HP as [HA _ _ _]. unfold static_asserts in HA. bool_prop.
  assert (sizeof_ptr <= kAlignment P) as Hal by (unfold kAlignment; lia).
  assert (0 < kAlignment P) as Hpos by (unfold sizeof_ptr in Hal; lia).
  assert (0 <= kRawSlotSize P) as Hr by (unfold kRawSlotSize, sizeof_ptr; lia).
  assert (kSlotSize P = (kRawSlotSize P + kAlignment P - 1) / kAlignment P * kAlignment P) as HS.
  { unfold kSlotSize. rewrite usize_small; [done|]. unfold is_usize. lia. }
  pose proof (Z.div_mod (kRawSlotSize P + kAlignment P - 1) (kAlignment P) ltac:(lia)) as Hd.
  pose proof (Z.mod_pos_bound (kRawSlotSize P + kAlignment P - 1) (kAlignment P) Hpos) as Hm.
  assert (kRawSlotSize P <= kSlotSize P) as Hle by (rewrite HS; lia).
  split_and!; auto; [rewrite HS; by apply Z_mod_mult | | ]; unfold kRawSlotSize in *; lia.
Qed.

Lemma slot_size_pos : 0 < kSlotSize P.
Proof. pose proof slot_size_facts. unfold sizeof_ptr in *. lia. Qed.

Lemma slot_addr_range s : 0 <= s < kCapacity P ->
  buffer P <= slot_addr s /\ slot_addr s + kSlotSize P <= buffer P + kSlotSize P * kCapacity P.
Proof. intros Hs. unfold slot_addr. pose proof slot_size_pos. nia. Qed.

Lemma slot_addr_not_null s : 0 <= s < kCapacity P -> slot_addr s <> nullptr.
Proof. intros Hs. pose proof (slot_addr_range s Hs). destruct HP. unfold nullptr. lia. Qed.

Lemma SlotIndex_in p a : buffer_ p = buffer P -> buffer P <= a < buffer P + kSlotSize P * kCapacity P ->
  SlotIndex P p a = (a - buffer P) / kSlotSize P.
Proof.
  intros HB Ha. unfold SlotIndex. rewrite HB, usize_small; [done|].
  destruct HP. unfold is_usize. lia.
Qed.

Lemma index_range a : buffer P <= a < buffer P + kSlotSize P * kCapacity P ->
  0 <= (a - buffer P) / kSlotSize P < kCapacity P.
Proof.
  intros Ha. pose proof slot_size_pos. split; [apply Z.div_pos; lia|].
  apply Z.div_lt_upper_bound; lia.
Qed.

Lemma index_addr s : (slot_addr s - buffer P) / kSlotSize P = s.
Proof.
  unfold slot_addr. pose proof slot_size_pos.
  replace (buffer P + kSlotSize P * s - buffer P) with (s * kSlotSize P) by lia. apply Z.div_mul. lia.
Qed.

Lemma SlotIndex_addr p s : buffer_ p = buffer P -> 0 <= s < kCapacity P -> SlotIndex P p (slot_addr s) = s.
Proof.
  intros HB Hs. pose proof (slot_addr_range s Hs). pose proof slot_size_pos.
  rewrite SlotIndex_in by (done || lia). apply index_addr.
Qed.

Lemma slot_addr_inj s s' : slot_addr s = slot_addr s' -> s = s'.
Proof. intros H. rewrite <- (index_addr s), H. apply index_addr. Qed.

Lemma slot_at_Some a s : slot_at a = Some s <-> a = slot_addr s /\ 0 <= s < kCapacity P.
Proof.
  unfold slot_at. pose proof slot_size_pos. split.
  - split_if; [|done]. intros [= <-]. bool_prop. split; [|apply index_range; lia].
    unfold slot_addr. rewrite <- Z_div_exact_2 by lia. lia.
  - intros [-> Hs]. pose proof (slot_addr_range s Hs) as [H1 H2].
    assert ((slot_addr s - buffer P) mod kSlotSize P = 0) as ->.
    { unfold slot_addr. replace (buffer P + kSlotSize P * s - buffer P) with (s * kSlotSize P) by lia.
      apply Z_mod_mult. }
    rewrite (proj2 (Z.leb_le _ _)), (proj2 (Z.ltb_lt _ _)) by lia. simpl. by rewrite index_addr.
Qed.

Lemma Owns_ok p a : buffer_ p = buffer P -> Owns P p a = bool_decide (is_Some (slot_at a)).
Proof.
  intros HB. destruct HP as [_ H0 _ He]. pose proof slot_size_pos as Hs. pose proof slot_size_facts as [Hc _].
  unfold Owns, slot_at. rewrite HB, (proj2 (Z.eqb_neq (buffer P) nullptr)) by (unfold nullptr; lia).
  rewrite orb_false_r. assert (0 <= kSlotSize P * kCapacity P) by nia.
  rewrite (usize_small (kSlotSize P * kCapacity P)), usize_small by (unfold is_usize; lia).
  destruct (Z.eqb_spec a nullptr) as [->|Ha].
  - rewrite (proj2 (Z.leb_gt (buffer P) nullptr)) by (unfold nullptr; lia). done.
  - rewrite !Z.ltb_antisym. destruct (Z.leb_spec (buffer P) a); [|done].
    destruct (Z.leb_spec (buffer P + kSlotSize P * kCapacity P) a); [done|].
    cbn [negb orb andb]. rewrite usize_small by (unfold is_usize; lia).
    by destruct ((a - buffer P) mod kSlotSize P =? 0).
Qed.

Lemma chain_frame m a v head l :
  chain m head l -> (forall s, s ∈ l -> slot_addr s <> a) -> chain (<[a := v]> m) head l.
Proof.
  revert head. induction l as [|s l IH]; intros head H Hn; [done|]. destruct H as (-> & next & Hm & Hc).
  split; [done|]. exists next. split.
  - rewrite lookup_insert_ne; [done|]. apply not_eq_sym, Hn. set_solver.
  - apply IH; [done|]. set_solver.
Qed.

Lemma free_count_range r : ref_ok r -> Z.of_nat (length (free r)) <= kCapacity P.
Proof.
  intros [HN HR _ _]. pose proof slot_size_facts as [Hc _].
  rewrite <- (Z2Nat.id (kCapacity P)) by lia. apply inj_le.
  rewrite <- (length_seqZ 0 (kCapacity P)). apply submseteq_length, NoDup_submseteq; [done|].
  intros s Hs. apply elem_of_seqZ. assert (0 <= s < kCapacity P) by (apply HR; auto). lia.
Qed.

Lemma capacity_usize : is_usize (kCapacity P).
Proof.
  pose proof slot_size_facts as (Hc & _ & _ & _ & _ & Hs). destruct HP as [_ H0 _ He].
  unfold is_usize, sizeof_ptr in *. nia.
Qed.

Lemma used_slots r : ref_ok r ->
  kCapacity P - Z.of_nat (length (free r)) = Z.of_nat (size (held r ∪ releasing r)).
Proof.
  intros [HN HR HF HD]. pose proof slot_size_facts as [Hc _].
  assert (length (free r) + size (held r ∪ releasing r) = Z.to_nat (kCapacity P))%nat as H; [|lia].
  rewrite <- (length_seqZ 0 (kCapacity P)), <- (size_list_to_set (C := gset Z) (free r) HN).
  rewrite <- (size_list_to_set (C := gset Z) (seqZ 0 (kCapacity P))) by apply NoDup_seqZ.
  rewrite <- size_union by set_solver. f_equal. apply set_eq. intros s.
  rewrite !elem_of_union, !elem_of_list_to_set, elem_of_seqZ, Z.add_0_l. symmetry. apply HR.
Qed.

(** ** The operations *)

Lemma Allocate_ok p r : pool_rep p r -> agrees ('(p, a) ← Allocate P p; Val (p, RPtr a)) (spec r OAllocate).
Proof.
  intros [HR HB HC HN HA HL]. unfold Allocate. simpl. destruct (free r) as [|s f] eqn:Ef; simpl in HC.
  - rewrite HC. simpl. exists p. split; [done|]. split; auto; by rewrite Ef.
  - destruct HC as (Hh & next & Hm & HC). pose proof HR as [HD HRg HF Hdis]. rewrite Ef in *.
    assert (0 <= s < kCapacity P) as Hs by (apply HRg; set_solver).
    destruct (HF s ltac:(set_solver)) as [Hs1 Hs2]. apply NoDup_cons in HD as [Hsf HD].
    rewrite Hh in *. rewrite (proj2 (Z.eqb_neq _ _)) by (by apply slot_addr_not_null).
    unfold load. rewrite Hm, bind_val. rewrite SlotIndex_addr by done.
    unfold SlotAllocated, SlotReleasing, MarkSlotAllocated. cbn [allocated_slots_ releasing_slots_].
    rewrite (bits_test _ _ _ HA), (bits_test _ _ _ HL) by done.
    rewrite !bool_decide_eq_false_2 by done. rewrite !bind_val. cbn [negb andb]. rewrite check_true, bind_val.
    unfold SlotReleasing. cbn [allocated_slots_ releasing_slots_].
    rewrite (bits_test _ _ _ HL), bool_decide_eq_false_2 by done. rewrite bind_val. cbn [negb]. rewrite check_true, bind_val.
    destruct (bit_set_ok _ _ _ _ HA Hs) as (w & -> & HA'). rewrite !bind_val.
    eexists. split; [reflexivity|]. unfold set_slots. split; cbn; auto.
    + split; cbn; auto.
      * intros s'. rewrite HRg. set_solver.
      * intros s' Hs'. destruct (HF s' ltac:(set_solver)). set_solver.
      * set_solver.
    + pose proof (free_count_range r HR) as Hle. rewrite HN. rewrite Ef in Hle. simpl length in *.
      pose proof capacity_usize. unfold is_usize in *. rewrite usize_small by (unfold is_usize; lia). lia.
Qed.

Lemma Claim_ok p r s : pool_rep p r -> 0 <= s < kCapacity P ->
  match spec_claim r s with
  | Panic => ClaimDeallocationLocked P p (slot_addr s) = Panic
  | Val r' => exists p', ClaimDeallocationLocked P p (slot_addr s) = Val p' /\ pool_rep p' r'
  end.
Proof.
  intros [HR HB HC HN HA HL] Hs. unfold spec_claim, ClaimDeallocationLocked. rewrite SlotIndex_addr by done.
  unfold SlotAllocated. rewrite (bits_test _ _ _ HA) by done. rewrite bind_val.
  case_decide as Hin; [rewrite bool_decide_eq_true_2 by done | by rewrite bool_decide_eq_false_2].
  rewrite check_true, bind_val. unfold MarkSlotReleasing.
  destruct (bit_clear_ok _ _ _ _ HA Hs) as (w & -> & HA'). rewrite bind_val.
  destruct (bit_set_ok _ _ _ _ HL Hs) as (w' & -> & HL'). rewrite bind_val.
  eexists. split; [reflexivity|]. split; cbn; auto.
  destruct HR as [HD HRg HF Hdis]. split; cbn; auto.
  - intros s'. rewrite HRg. destruct (decide (s' = s)); set_solver.
  - intros s' Hs'. destruct (HF s' Hs'). set_solver.
  - set_solver.
Qed.

Lemma Finish_ok p r s : pool_rep p r -> 0 <= s < kCapacity P ->
  match spec_finish r s with
  | Panic => FinishDeallocationLocked P p (slot_addr s) = Panic
  | Val r' => exists p', FinishDeallocationLocked P p (slot_addr s) = Val p' /\ pool_rep p' r'
  end.
Proof.
  intros [HR HB HC HN HA HL] Hs. unfold spec_finish, FinishDeallocationLocked. rewrite SlotIndex_addr by done.
  unfold SlotReleasing. rewrite (bits_test _ _ _ HL) by done. rewrite bind_val.
  case_decide as Hin; [rewrite bool_decide_eq_true_2 by done | by rewrite bool_decide_eq_false_2].
  rewrite check_true, bind_val. unfold MarkSlotFree.
  destruct (bit_clear_ok _ _ _ _ HL Hs) as (w & -> & HL'). rewrite !bind_val.
  destruct HR as [HD HRg HF Hdis].
  assert (s ∉ free r) as Hsf by (intros Hx; by destruct (HF s Hx)).
  assert (ref_ok (mkRef (s :: free r) (held r) (releasing r ∖ {[s]}))) as HR'.
  { split; cbn.
    - by apply NoDup_cons.
    - intros s'. rewrite HRg. destruct (decide (s' = s)); set_solver.
    - intros s' [->|Hs']%elem_of_cons; [set_solver|]. destruct (HF s' Hs'). set_solver.
    - set_solver. }
  eexists. split; [reflexivity|]. split; cbn; auto.
  - split; [done|]. exists (free_list_head_ p). split; [apply lookup_insert_eq|].
    apply chain_frame; [done|]. intros s' Hs' E. apply slot_addr_inj in E. by subst.
  - pose proof (free_count_range _ HR') as Hle. simpl length in *. rewrite HN.
    pose proof capacity_usize. unfold is_usize in *. rewrite usize_small by (unfold is_usize; lia). lia.
Qed.

Lemma spec_owned_agrees p r a f g :
  pool_rep p r ->
  (forall s, 0 <= s < kCapacity P -> a = slot_addr s ->
     match f r s with Panic => g p = Panic | Val r' => exists p', g p = Val p' /\ pool_rep p' r' end) ->
  agrees (p ← (ALYRN_CHECK (Owns P p a);; g p); Val (p, RUnit)) (spec_owned r a f).
Proof.
  intros HR H. unfold spec_owned. rewrite (Owns_ok p a) by apply HR.
  destruct (slot_at a) as [s|] eqn:E.
  - apply slot_at_Some in E as [-> Hs]. rewrite bool_decide_eq_true_2 by done. rewrite check_true, bind_val.
    specialize (H s Hs eq_refl). destruct (f r s) as [r'|]; simpl; [|by rewrite H].
    destruct H as (p' & -> & H'). by exists p'.
  - rewrite bool_decide_eq_false_2 by (by intros [? ?]). done.
Qed.

Lemma Deallocate_ok p r a :
  pool_rep p r -> agrees (p ← Deallocate P p a; Val (p, RUnit)) (spec r (ODeallocate a)).
Proof.
  intros HR. unfold Deallocate. cbn [spec]. destruct (a =? nullptr); [by exists p|].
  apply spec_owned_agrees with (g := fun p => p ← ClaimDeallocationLocked P p a; FinishDeallocationLocked P p a);
    [done|]. intros s Hs ->. pose proof (Claim_ok p r s HR Hs) as H.
  destruct (spec_claim r s) as [r1|]; [|by rewrite H]. destruct H as (p1 & -> & HR1). rewrite !bind_val.
  by apply Finish_ok.
Qed.

Lemma Write_ok p r a v : pool_rep p r -> agrees (p ← Write P p a v; Val (p, RUnit)) (spec r (OWrite a v)).
Proof.
  intros [HR HB HC HN HA HL]. unfold Write. cbn [spec].
  destruct ((buffer P <=? a) && (a <? buffer P + kSlotSize P * kCapacity P)) eqn:Hr; cbn [andb].
  - assert (buffer P <= a < buffer P + kSlotSize P * kCapacity P) as Ha by (bool_prop; lia).
    rewrite SlotIndex_in by done. pose proof (index_range a Ha) as Hs.
    unfold SlotAllocated. rewrite (bits_test _ _ _ HA) by done. rewrite bind_val, HB, <- andb_assoc, Hr, andb_true_r.
    case_bool_decide as Hin; [|done]. rewrite check_true, !bind_val.
    eexists. split; [reflexivity|]. split; cbn; auto. apply chain_frame; [done|].
    intros s Hsf <-. rewrite index_addr in Hin. by destruct (rf_free _ HR _ Hsf).
  - simpl. destruct (SlotAllocated p (SlotIndex P p a)); [|done].
    rewrite bind_val, HB, <- andb_assoc, Hr, andb_false_r. done.
Qed.

Lemma exec_agrees p r o : pool_rep p r -> agrees (exec p o) (spec r o).
Proof.
  intros HR. destruct o; cbn [exec].
  - by apply Allocate_ok.
  - by apply Deallocate_ok.
  - apply spec_owned_agrees with (g := fun p => ClaimDeallocationLocked P p a); [done|].
    intros s Hs ->. by apply Claim_ok.
  - apply spec_owned_agrees with (g := fun p => FinishDeallocationLocked P p a); [done|].
    intros s Hs ->. by apply Finish_ok.
  - by apply Write_ok.
  - exists p. rewrite Owns_ok by apply HR. done.
  - exists p. unfold FreeCount. by rewrite (pr_count _ _ HR).
  - exists p. unfold UsedCount. rewrite (pr_count _ _ HR). rewrite <- used_slots by apply HR.
    rewrite usize_small; [done|]. pose proof capacity_usize. pose proof (free_count_range r (pr_ok _ _ HR)).
    unfold is_usize in *. lia.
Qed.

Lemma exec_all_agrees ops : forall p r, pool_rep p r -> agrees (exec_all p ops) (spec_all r ops).
Proof.
  induction ops as [|o ops IH]; intros p r HR; cbn [exec_all spec_all]; [by exists p|].
  pose proof (exec_agrees p r o HR) as H. destruct (spec r o) as [[r1 x]|]; cbn [agrees] in H; [|by rewrite H].
  destruct H as (p1 & -> & HR1). rewrite !bind_val. specialize (IH p1 r1 HR1).
  destruct (spec_all r1 ops) as [[r2 xs]|]; cbn [agrees] in IH |- *; [|by rewrite IH].
  destruct IH as (p2 & -> & HR2). by exists p2.
Qed.

(** ** Initialisation *)

Lemma initialize_loop_ok n : forall i m, 0 <= i ->
  initialize_loop P n (slot_addr i) m =
    (slot_addr (i + Z.of_nat n), (initialize_loop P n (slot_addr i) m).2) /\
  (forall m', (forall s, i <= s < i + Z.of_nat n ->
      m' !! slot_addr s = (initialize_loop P n (slot_addr i) m).2 !! slot_addr s) ->
    m' !! slot_addr (i + Z.of_nat n) = Some nullptr ->
    chain m' (slot_addr i) (seqZ i (Z.of_nat (S n)))) /\
  (forall s, s < i -> (initialize_loop P n (slot_addr i) m).2 !! slot_addr s = m !! slot_addr s).
Proof.
  induction n as [|n IH]; intros i m Hi.
  - cbn [initialize_loop snd]. rewrite Z.add_0_r. split_and!; [done| |done]. intros m' _ Hl. simpl seqZ.
    change (seqZ i (Z.of_nat 1)) with [Z.of_nat 0 + i]. rewrite Z.add_0_l.
    split; [done|]. by exists nullptr.
  - cbn [initialize_loop]. assert (slot_addr i + kSlotSize P = slot_addr (Z.succ i)) as ->
      by (unfold slot_addr; lia).
    destruct (IH (Z.succ i) (<[slot_addr i := slot_addr (Z.succ i)]> m) ltac:(lia)) as (H1 & H2 & H3).
    set (res := initialize_loop P n _ _) in *. rewrite H1. cbn [snd].
    replace (i + Z.of_nat (S n)) with (Z.succ i + Z.of_nat n) by lia. split_and!; [done| |].
    + intros m' Hm Hl. rewrite seqZ_cons by lia. split; [done|]. exists (slot_addr (Z.succ i)).
      rewrite Hm by lia. rewrite H3 by lia. rewrite lookup_insert_eq. split; [done|].
      replace (Z.pred (Z.of_nat (S (S n)))) with (Z.of_nat (S n)) by lia. apply H2; [|done].
      intros s Hs. apply Hm. lia.
    + intros s Hs. rewrite H3 by lia. rewrite lookup_insert_ne; [done|].
      intros E. apply slot_addr_inj in E. lia.
Qed.

Lemma zero_bits n k : n <= 64 * Z.of_nat k -> bits_are n (replicate k 0) ∅.
Proof.
  intros Hn. split; [by rewrite length_replicate|]. intros s Hs. unfold bit_test, word_at, kStateWordBits.
  rewrite lookup_replicate_2; [done|]. apply Nat2Z.inj_lt. pose proof (Z.div_pos s 64).
  rewrite Z2Nat.id by lia. apply Z.div_lt_upper_bound; lia.
Qed.

Lemma Initialize_ok : pool_rep (Initialize P) initial.
Proof.
  pose proof slot_size_facts as [Hc _].
  destruct (initialize_loop_ok (Z.to_nat (kCapacity P - 1)) 0 ∅ ltac:(lia)) as (H1 & H2 & H3).
  assert (slot_addr 0 = buffer P) as H0 by (unfold slot_addr; lia).
  unfold Initialize. rewrite <- H0, H1. rewrite Z.add_0_l in *. rewrite Z2Nat.id in * by lia.
  assert (kCapacity P <= 64 * Z.of_nat (Z.to_nat (kStateWordCount P))) as Hw.
  { unfold kStateWordCount, kStateWordBits.
    pose proof (Z.div_mod (kCapacity P + 64 - 1) 64 ltac:(lia)).
    pose proof (Z.mod_pos_bound (kCapacity P + 64 - 1) 64 eq_refl). lia. }
  split; cbn; auto using zero_bits.
  - split; cbn; [apply NoDup_seqZ | intros s; rewrite elem_of_seqZ; set_solver by lia | set_solver | set_solver].
  - replace (kCapacity P) with (Z.of_nat (S (Z.to_nat (kCapacity P - 1)))) at 3 by lia. apply H2.
    + intros s Hs. rewrite lookup_insert_ne; [done|]. intros E. apply slot_addr_inj in E. lia.
    + apply lookup_insert_eq.
  - rewrite length_seqZ. lia.
Qed.

(** ** Blocks in the hands of callers *)

(** The pointers handed out and not yet returned, read off a sequence of calls. *)
Definition outstanding_step (L : gset Z) (o : op) (x : resp) : gset Z :=
  match o, x with
  | OAllocate, RPtr a => if a =? nullptr then L else {[a]} ∪ L
  | (ODeallocate a | OFinish a), _ => L ∖ {[a]}
  | _, _ => L
  end.

Fixpoint outstanding (L : gset Z) (ops : list op) (xs : list resp) : gset Z :=
  match ops, xs with
  | o :: ops, x :: xs => outstanding (outstanding_step L o x) ops xs
  | _, _ => L
  end.

Definition blocks (r : ref) : gset Z := set_map slot_addr (held r ∪ releasing r).

Lemma elem_of_blocks r s : slot_addr s ∈ blocks r <-> s ∈ held r \/ s ∈ releasing r.
Proof.
  unfold blocks. rewrite elem_of_map. split.
  - intros (s' & He & Hs'). apply slot_addr_inj in He as ->. set_solver.
  - intros Hs. exists s. set_solver.
Qed.

(** A set is [blocks r'] when it has the right slot addresses and nothing else. *)
Lemma blocks_eq (L : gset Z) r' :
  (forall a, a ∈ L -> exists s, a = slot_addr s) ->
  (forall s, slot_addr s ∈ L <-> s ∈ held r' \/ s ∈ releasing r') -> L = blocks r'.
Proof.
  intros H1 H2. apply set_eq. intros a. split.
  - intros Ha. destruct (H1 a Ha) as [s ->]. by apply elem_of_blocks, H2.
  - unfold blocks. rewrite elem_of_map. intros (s & -> & Hs). apply H2. set_solver.
Qed.

Lemma blocks_addr r a : a ∈ blocks r -> exists s, a = slot_addr s.
Proof. unfold blocks. rewrite elem_of_map. intros (s & -> & _). eauto. Qed.

Lemma outstanding_step_ok r o r' x : ref_ok r -> spec r o = Val (r', x) ->
  outstanding_step (blocks r) o x = blocks r'.
Proof.
  intros HR Hsp. pose proof (fun s => elem_of_blocks r s) as HE.
  assert (forall s, slot_addr s ∈ blocks r -> (slot_addr s =? nullptr) = false) as Hnn.
  { intros s Hs. apply Z.eqb_neq, slot_addr_not_null, (rf_range _ HR). apply elem_of_blocks in Hs. tauto. }
  destruct o; simpl in Hsp |- *.
  - destruct (free r) as [|s f] eqn:Ef; injection Hsp as <- <-; [done|].
    rewrite (proj2 (Z.eqb_neq _ _)) by (apply slot_addr_not_null, (rf_range _ HR); rewrite Ef; left; set_solver).
    apply blocks_eq; cbn [held releasing].
    + intros a [->%elem_of_singleton|Ha]%elem_of_union; [eauto | by eapply blocks_addr].
    + intros s'. rewrite elem_of_union, elem_of_singleton, HE. split; [|set_solver].
      intros [He|?]; [apply slot_addr_inj in He as ->|]; set_solver.
  - destruct (Z.eqb_spec a nullptr) as [->|Ha].
    + injection Hsp as <- <-. apply set_eq. intros b. rewrite elem_of_difference, elem_of_singleton.
      split; [tauto|]. intros Hb. split; [done|]. intros ->. destruct (blocks_addr _ _ Hb) as [s Hs].
      rewrite Hs in Hb. apply Hnn in Hb. rewrite <- Hs in Hb. done.
    + unfold spec_owned in Hsp. destruct (slot_at a) as [s|] eqn:Es; [|done].
      apply slot_at_Some in Es as [-> Hs]. unfold spec_claim, spec_finish in Hsp.
      case_decide; [|done]. cbn in Hsp. case_decide; [|done]. cbn in Hsp. injection Hsp as <- <-.
      apply blocks_eq; cbn [held releasing]; [intros b Hb; apply (blocks_addr r); set_solver|].
      intros s'. rewrite elem_of_difference, elem_of_singleton, HE. split; [|].
      * intros [? Hne]. assert (s' <> s) by (by intros ->). set_solver.
      * intros Hs'. split; [set_solver|]. intros E. apply slot_addr_inj in E. set_solver.
  - unfold spec_owned in Hsp. destruct (slot_at a) as [s|] eqn:Es; [|done].
    unfold spec_claim in Hsp. case_decide; [|done]. cbn in Hsp. injection Hsp as <- <-.
    apply blocks_eq; cbn [held releasing]; [intros b Hb; by apply (blocks_addr r)|].
    intros s'. rewrite HE. destruct (decide (s' = s)); set_solver.
  - unfold spec_owned in Hsp. destruct (slot_at a) as [s|] eqn:Es; [|done].
    apply slot_at_Some in Es as [-> Hs]. unfold spec_finish in Hsp.
    case_decide; [|done]. cbn in Hsp. injection Hsp as <- <-. pose proof (rf_disj _ HR).
    apply blocks_eq; cbn [held releasing]; [intros b Hb; apply (blocks_addr r); set_solver|].
    intros s'. rewrite elem_of_difference, elem_of_singleton, HE. split; [|].
    * intros [? Hne]. assert (s' <> s) by (by intros ->). set_solver.
    * intros Hs'. split; [set_solver|]. intros E. apply slot_addr_inj in E. set_solver.
  - case_match; by simplify_eq.
  - by simplify_eq.
  - by simplify_eq.
  - by simplify_eq.
Qed.

Lemma outstanding_ok ops : forall p r p' xs, pool_rep p r -> exec_all p ops = Val (p', xs) ->
  exists r', pool_rep p' r' /\ outstanding (blocks r) ops xs = blocks r'.
Proof.
  induction ops as [|o ops IH]; intros p r p' xs HR Hex; cbn [exec_all] in Hex.
  - simplify_eq. by exists r.
  - pose proof (exec_agrees p r o HR) as H. destruct (spec r o) as [[r1 x]|] eqn:Esp; cbn [agrees] in H.
    2: by rewrite H in Hex.
    destruct H as (p1 & E1 & HR1). rewrite E1, bind_val in Hex.
    apply bind_Val_inv in Hex as ([p2 xs'] & E2 & Hex). simplify_eq. cbn [outstanding].
    rewrite (outstanding_step_ok r o r1 x (pr_ok _ _ HR) Esp). by apply (IH p1).
Qed.

Lemma blocks_initial : blocks initial = ∅.
Proof. done. Qed.

Lemma slot_addr_aligned s : slot_addr s mod kAlignment P = 0.
Proof.
  pose proof slot_size_facts as (_ & Hal & _ & Hd & _). destruct HP as [_ _ Hb _]. unfold sizeof_ptr in Hal.
  unfold slot_addr. rewrite Z.add_mod, Z.mul_mod, Hd, Hb by lia. done.
Qed.

Lemma size_blocks r : size (blocks r) = size (held r ∪ releasing r).
Proof.
  unfold blocks. generalize (held r ∪ releasing r) as X. intros X.
  induction X as [|x X Hx IH] using set_ind_L; [done|].
  rewrite set_map_union_L, set_map_singleton_L, !size_union, !size_singleton, IH; [done | set_solver |].
  apply disjoint_singleton_l. rewrite elem_of_map. intros (s & He & Hs). apply slot_addr_inj in He. set_solver.
Qed.

Lemma allocate_fresh p r : pool_rep p r ->
  exists p' a, Allocate P p = Val (p', a) /\
    (Z.of_nat (size (blocks r)) = kCapacity P /\ a = nullptr \/
     Z.of_nat (size (blocks r)) < kCapacity P /\ a <> nullptr /\ (a ∉ blocks r)).
Proof.
  intros HR. pose proof (Allocate_ok p r HR) as H. rewrite size_blocks.
  pose proof (used_slots r (pr_ok _ _ HR)) as Hu. pose proof (pr_ok _ _ HR) as HR'. simpl in H.
  destruct (free r) as [|s f] eqn:Ef; simpl in H; destruct H as (p' & H & _);
    apply bind_Val_inv in H as ([p2 a] & E & H); injection H as -> ->; eexists _, _; (split; [exact E|]);
    simpl in Hu; [left; split; [lia | done]|].
  right. assert (s ∈ free r) as Hs by (rewrite Ef; set_solver). split_and!; [lia | |].
  - apply slot_addr_not_null, (rf_range _ HR'). auto.
  - rewrite elem_of_blocks. destruct (rf_free _ HR' s Hs). tauto.
Qed.

End sizes.

(** C12. The pool refines a stack of free slots. For every sequence of calls on
    a fresh pool, interleaved with arbitrary writes of the holders to their
    slots, the responses are those of the reference, and the pool aborts exactly
    where the reference says so: on a foreign or misaligned pointer, a double
    free, a release that was not claimed. *)
Theorem memory_pool_refines_free_stack ops :
  params_ok -> agrees (exec_all (Initialize P) ops) (spec_all initial ops).
Proof. intros HP. apply exec_all_agrees; [done|]. by apply Initialize_ok. Qed.

(** After any sequence of calls that does not abort, the blocks handed out
    and not yet returned are aligned, lie inside the buffer and do not overlap;
    the pool counts them; and the next allocation fails exactly when they fill
    the capacity, and otherwise returns a block that is not among them. *)
Theorem memory_pool_blocks_disjoint ops p xs :
  params_ok -> exec_all (Initialize P) ops = Val (p, xs) ->
  let L := outstanding ∅ ops xs in
  (forall a, a ∈ L -> a mod kAlignment P = 0 /\
     buffer P <= a /\ a + BlockSize P <= buffer P + kSlotSize P * kCapacity P) /\
  (forall a b, a ∈ L -> b ∈ L -> a <> b -> a + BlockSize P <= b \/ b + BlockSize P <= a) /\
  UsedCount P p = Z.of_nat (size L) /\
  exists p' a, Allocate P p = Val (p', a) /\
    (Z.of_nat (size L) = kCapacity P /\ a = nullptr \/
     Z.of_nat (size L) < kCapacity P /\ a <> nullptr /\ (a ∉ L)).
Proof.
  intros HP Hex L. destruct (outstanding_ok HP ops _ initial p xs (Initialize_ok HP) Hex) as (r & HR & HL).
  rewrite blocks_initial in HL. subst L. rewrite HL. pose proof (pr_ok _ _ HR) as HO.
  assert (forall a, a ∈ blocks r -> exists s, a = slot_addr s /\ 0 <= s < kCapacity P) as Hb.
  { intros a Ha. destruct (blocks_addr _ _ Ha) as [s ->]. exists s. split; [done|].
    apply (rf_range _ HO). apply elem_of_blocks in Ha; [tauto | done]. }
  pose proof (slot_size_facts HP) as (_ & _ & _ & _ & Hbs & _). split_and!.
  - intros a Ha. destruct (Hb a Ha) as (s & -> & Hs). destruct (slot_addr_range HP s Hs).
    split_and!; [by apply slot_addr_aligned | lia | lia].
  - intros a b Ha Hb' Hne. destruct (Hb a Ha) as (s & -> & Hs), (Hb b Hb') as (s' & -> & Hs').
    assert (s <> s') by (by intros ->). unfold slot_addr. pose proof (slot_size_pos HP). nia.
  - unfold UsedCount. rewrite (pr_count _ _ HR), size_blocks, <- used_slots by done.
    rewrite usize_small; [done|]. pose proof (capacity_usize HP). pose proof (free_count_range HP r HO).
    unfold is_usize in *. lia.
  - by apply allocate_fresh.
Qed.

End props.

(** ** A concrete pool: 16-byte blocks, three of them, at address 4096 *)

Definition example_params : params := mkParams 12 8 3 4096.

Lemma example_params_ok : params_ok example_params.
Proof. split; vm_compute; done. Qed.

(** All three slots taken, a write through one, one returned and taken again. *)
Definition example_ops : list op :=
  [OAllocate; OAllocate; OWrite 4112 77; OAllocate; OAllocate; ODeallocate 4112; OUsedCount; OAllocate].

Lemma memory_pool_refines_free_stack_witness :
  (exists p, exec_all example_params (Initialize example_params) example_ops =
    Val (p, [RPtr 4096; RPtr 4112; RUnit; RPtr 4128; RPtr 0; RUnit; RCount 2; RPtr 4112])) /\
  exec_all example_params (Initialize example_params) [OAllocate; ODeallocate 4096; ODeallocate 4096] = Panic.
Proof.
  split.
  - destruct (memory_pool_refines_free_stack example_params example_ops example_params_ok) as (p & H & _).
    exists p. exact H.
  - exact (memory_pool_refines_free_stack example_params [OAllocate; ODeallocate 4096; ODeallocate 4096]
      example_params_ok).
Defined.

Lemma memory_pool_blocks_disjoint_witness :
  exists p xs, exec_all example_params (Initialize example_params) [OAllocate; OAllocate] = Val (p, xs) /\
    UsedCount example_params p = 2 /\
    exists p' a, Allocate example_params p = Val (p', a) /\ a <> nullptr.
Proof.
  destruct (exec_all example_params (Initialize example_params) [OAllocate; OAllocate]) as [[p xs]|] eqn:H;
    [|vm_compute in H; discriminate].
  exists p, xs. split; [reflexivity|].
  destruct (memory_pool_blocks_disjoint example_params [OAllocate; OAllocate] p xs
    example_params_ok H) as (_ & _ & Hu & p' & a & E & Hc).
  vm_compute in H. injection H as <- <-. split; [exact Hu|]. exists p', a. split; [exact E|].
  destruct Hc as [[Hs _]|(_ & Hn & _)]; [vm_compute in Hs; discriminate | exact Hn].
Defined.

End MemoryPoolProps.
