(* ===== verification/ObjectPool.v ===== *)
(** * The object pool (include/alyrn/detail/object_pool.h)

    Objects live in slots of a [MemoryPool]; when it is exhausted, in overflow
    nodes on a singly linked list. [nodes] holds the allocated overflow nodes
    with their [next] fields. Where [new OverflowNode] places a node is up to the
    system allocator, a parameter of the model.

    The destructor of an object is arbitrary code that may use the pool again:
    [Release] takes it as an argument and runs it between claiming the storage
    and returning it. A constructor that throws is a flag of [Acquire]. *)

From S2P Require Import Prelude MemoryPool.

Import MemoryPool.

Module ObjectPool.

Section pool.
Context (P : params).

(** The address [operator new] gives to the next overflow node, or none when it
    throws [std::bad_alloc]; and the offset of the node's [storage] member. *)
Context (new_node : gmap Z Z -> option Z) (storage_offset : Z).

Record opool := mkOPool {
  pool_ : pool;
  overflow_count_ : Z;
  overflow_head_ : Z;
  nodes : gmap Z Z;
}.

Definition new_pool : opool := mkOPool (Initialize P) 0 nullptr ∅.

(** OverflowNode::Storage and ::Object. *)
Definition Object (node : Z) : Z := node + storage_offset.

(** The result of a call that may throw. *)
Inductive acquired := Acquired (ptr : Z) | Threw.

Definition Acquire (p : opool) (throws : bool) : outcome (opool * acquired) :=
  '(pl, mem) ← Allocate P (pool_ p);
  let p := mkOPool pl (overflow_count_ p) (overflow_head_ p) (nodes p) in
  if negb (mem =? nullptr) then
    if throws then
      pl ← Deallocate P (pool_ p) mem;
      Val (mkOPool pl (overflow_count_ p) (overflow_head_ p) (nodes p), Threw)
    else Val (p, Acquired mem)
  else
    match new_node (nodes p) with
    | None => Val (p, Threw)
    | Some overflow =>
        if throws then Val (p, Threw) else
        Val (mkOPool (pool_ p) (usize (overflow_count_ p + 1)) overflow
               (<[overflow := overflow_head_ p]> (nodes p)), Acquired (Object overflow))
    end.

(** A location [OverflowNode**]: the head or the [next] field of a node. *)
Inductive link := LHead | LNext (node : Z).

Definition read_link (p : opool) (l : link) : outcome Z :=
  match l with
  | LHead => Val (overflow_head_ p)
  | LNext n => match nodes p !! n with Some next => Val next | None => Panic end
  end.

Definition write_link (p : opool) (l : link) (v : Z) : outcome opool :=
  match l with
  | LHead => Val (mkOPool (pool_ p) (overflow_count_ p) v (nodes p))
  | LNext n =>
      match nodes p !! n with
      | Some _ => Val (mkOPool (pool_ p) (overflow_count_ p) (overflow_head_ p) (<[n := v]> (nodes p)))
      | None => Panic
      end
  end.

Fixpoint take_loop (fuel : nat) (p : opool) (l : link) (object : Z) : outcome (opool * Z) :=
  match fuel with
  | O => Panic
  | S fuel =>
      current ← read_link p l;
      if current =? nullptr then Val (p, nullptr) else
      if Object current =? object then
        next ← read_link p (LNext current);
        p ← write_link p l next;
        p ← write_link p (LNext current) nullptr;
        Val (p, current)
      else take_loop fuel p (LNext current) object
  end.

Definition TakeOverflow (p : opool) (object : Z) : outcome (opool * Z) :=
  take_loop (S (size (nodes p))) p LHead object.

(** [destroy] is the destructor of the object at [ptr]; [W] is what it reports. *)
Definition Release {W} (destroy : opool -> outcome (opool * W)) (p : opool) (ptr : Z)
    : outcome (opool * option W) :=
  if ptr =? nullptr then Val (p, None) else
  if Owns P (pool_ p) ptr then
    pl ← ClaimDeallocation P (pool_ p) ptr;
    '(p, w) ← destroy (mkOPool pl (overflow_count_ p) (overflow_head_ p) (nodes p));
    pl ← FinishDeallocation P (pool_ p) ptr;
    Val (mkOPool pl (overflow_count_ p) (overflow_head_ p) (nodes p), Some w)
  else
    '(p, overflow) ← TakeOverflow p ptr;
    ALYRN_CHECK (negb (overflow =? nullptr));;
    '(p, w) ← destroy p;
    Val (mkOPool (pool_ p) (overflow_count_ p) (overflow_head_ p) (delete overflow (nodes p)), Some w).

Definition OwnsObject (p : opool) (ptr : Z) : bool := Owns P (pool_ p) ptr.
Definition OverflowCount (p : opool) : Z := overflow_count_ p.

(** The destructor of the pool. *)
Definition destroy_pool (p : opool) : outcome unit :=
  ALYRN_CHECK (UsedCount P (pool_ p) =? 0);;
  ALYRN_CHECK (overflow_head_ p =? nullptr).

(** AcquireScoped and the deleter of its [ScopedPtr], run at the end of the scope. *)
Definition AcquireScoped (p : opool) (throws : bool) : outcome (opool * acquired) := Acquire p throws.

Definition deleter {W} (destroy : opool -> outcome (opool * W)) (has_pool : bool) (p : opool) (ptr : Z)
    : outcome (opool * option W) :=
  if has_pool && negb (ptr =? nullptr) then Release destroy p ptr else Val (p, None).

(** ** Scripts

    A client names objects by their position among the objects acquired so far;
    the destructor of an object is itself a script. *)

Inductive oop :=
| OAcquire (throws : bool)
| ORelease (k : nat) (destructor : list oop).

Fixpoint oexec (o : oop) (p : opool) (handles : list Z) : outcome (opool * list Z) :=
  match o with
  | OAcquire throws =>
      '(p, r) ← Acquire p throws;
      Val (p, match r with Acquired a => handles ++ [a] | Threw => handles end)
  | ORelease k destructor =>
      match handles !! k with
      | None => Panic
      | Some a =>
          '(p, r) ← Release (fun p =>
              (fix go (l : list oop) (p : opool) (hs : list Z) : outcome (opool * list Z) :=
                 match l with [] => Val (p, hs) | o :: l => '(p, hs) ← oexec o p hs; go l p hs end)
              destructor p handles) p a;
          Val (p, default handles r)
      end
  end.

Fixpoint oexec_all (l : list oop) (p : opool) (handles : list Z) : outcome (opool * list Z) :=
  match l with [] => Val (p, handles) | o :: l => '(p, handles) ← oexec o p handles; oexec_all l p handles end.

End pool.

(** The abstract life of the objects: alive, in the destructor, or gone. *)
Inductive life := Live | Dying | Dead.

#[global] Instance life_eq_dec : EqDecision life.
Proof. solve_decision. Defined.

(** [None] when the script releases an object that is not alive. *)
Fixpoint ospec (o : oop) (s : list life) : option (list life) :=
  match o with
  | OAcquire throws => Some (if throws then s else s ++ [Live])
  | ORelease k destructor =>
      match s !! k with
      | Some Live =>
          s' ← (fix go (l : list oop) (s : list life) : option (list life) :=
             match l with [] => Some s | o :: l => s ← ospec o s; go l s end)
            destructor (<[k := Dying]> s);
          Some (<[k := Dead]> s')
      | _ => None
      end
  end.

Fixpoint ospec_all (l : list oop) (s : list life) : option (list life) :=
  match l with [] => Some s | o :: l => s ← ospec o s; ospec_all l s end.

End ObjectPool.
