(* ===== verification/ObjectPoolProps.v ===== *)
(** * The object pool: one life per object

    Against the memory pool's refinement, the storage of live objects and of
    objects in their destructor is kept apart; clients that release what they
    hold never abort, and a release of anything else aborts before the
    destructor runs. *)

From S2P Require Import Prelude MemoryPool MemoryPoolProps ObjectPool.

Import MemoryPool MemoryPoolProps ObjectPool.

Module ObjectPoolProps.

Section props.
Context (P : params) (HP : params_ok P).
Context (new_node : gmap Z Z -> option Z) (storage_offset : Z) (room : Z).

Abbreviation Object := (Object storage_offset).

(** The system allocator: it has room for some nodes; a new node is none of the
    allocated ones, and its storage is not part of the pool's buffer. *)
Record new_node_ok : Prop := {
  nn_room N : Z.of_nat (size N) < room -> is_Some (new_node N);
  nn_fresh N n : new_node N = Some n -> N !! n = None;
  nn_null N n : new_node N = Some n -> n <> nullptr /\ Object n <> nullptr;
  nn_apart N n : new_node N = Some n -> slot_at P (Object n) = None;
}.
Context (HN : new_node_ok).

Fixpoint ochain (N : gmap Z Z) (head : Z) (l : list Z) : Prop :=
  match l with
  | [] => head = nullptr
  | n :: l => head = n /\ exists next, N !! n = Some next /\ ochain N next l
  end.

(** The memory pool holds [r], the overflow list is [ov], and the objects of the
    nodes [dv] are being destroyed. *)
Record pool_state (p : opool) (r : ref) (ov : list Z) (dv : gset Z) : Prop := {
  ps_pool : pool_rep P (pool_ p) r;
  ps_chain : ochain (nodes p) (overflow_head_ p) ov;
  ps_nodup : NoDup ov;
  ps_dom n : is_Some (nodes p !! n) <-> n ∈ ov \/ n ∈ dv;
  ps_disj n : n ∈ ov -> n ∉ dv;
  ps_node n : n ∈ ov \/ n ∈ dv -> n <> nullptr /\ Object n <> nullptr /\ slot_at P (Object n) = None;
}.

(** Live objects and objects in their destructor. *)
Definition live (r : ref) (ov : list Z) : gset Z :=
  set_map (slot_addr P) (held r) ∪ set_map Object (list_to_set ov : gset Z).
Definition dying (r : ref) (dv : gset Z) : gset Z :=
  set_map (slot_addr P) (releasing r) ∪ set_map Object dv.

Definition holds (p : opool) (L D : gset Z) : Prop :=
  exists r ov dv, pool_state p r ov dv /\ L = live r ov /\ D = dying r dv.

Lemma elem_of_live r ov a : a ∈ live r ov <->
  (exists s, a = slot_addr P s /\ s ∈ held r) \/ (exists n, a = Object n /\ n ∈ ov).
Proof. unfold live. rewrite elem_of_union, !elem_of_map. set_solver. Qed.

Lemma elem_of_dying r dv a : a ∈ dying r dv <->
  (exists s, a = slot_addr P s /\ s ∈ releasing r) \/ (exists n, a = Object n /\ n ∈ dv).
Proof. unfold dying. rewrite elem_of_union, !elem_of_map. set_solver. Qed.

Lemma Object_inj n n' : Object n = Object n' -> n = n'.
Proof. unfold ObjectPool.Object. lia. Qed.

Lemma slot_not_object p r ov dv s n :
  pool_state p r ov dv -> 0 <= s < kCapacity P -> n ∈ ov \/ n ∈ dv -> slot_addr P s <> Object n.
Proof.
  intros HS Hs Hn E. destruct (ps_node _ _ _ _ HS n Hn) as (_ & _ & H). rewrite <- E in H.
  assert (slot_at P (slot_addr P s) = Some s) as H' by (by apply slot_at_Some). congruence.
Qed.

Lemma slot_range p r ov dv s : pool_state p r ov dv ->
  s ∈ free r \/ s ∈ held r \/ s ∈ releasing r -> 0 <= s < kCapacity P.
Proof. intros HS Hs. by apply (rf_range _ _ (pr_ok _ _ _ (ps_pool _ _ _ _ HS))). Qed.

(** Membership of a slot or a node, given where the other kind may be. *)
Lemma live_slot p r ov dv s : pool_state p r ov dv -> 0 <= s < kCapacity P ->
  slot_addr P s ∈ live r ov <-> s ∈ held r.
Proof.
  intros HS Hs. rewrite elem_of_live. split; [|eauto].
  intros [(s' & E & H)|(n & E & Hn)]; [apply slot_addr_inj in E; [by subst|done]|].
  exfalso. eapply slot_not_object; eauto.
Qed.

Lemma dying_slot p r ov dv s : pool_state p r ov dv -> 0 <= s < kCapacity P ->
  slot_addr P s ∈ dying r dv <-> s ∈ releasing r.
Proof.
  intros HS Hs. rewrite elem_of_dying. split; [|eauto].
  intros [(s' & E & H)|(n & E & Hn)]; [apply slot_addr_inj in E; [by subst|done]|].
  exfalso. eapply slot_not_object; eauto.
Qed.

Lemma live_node r ov p dv n : pool_state p r ov dv -> slot_at P (Object n) = None ->
  Object n ∈ live r ov <-> n ∈ ov.
Proof.
  intros HS Hn. rewrite elem_of_live. split; [|eauto].
  intros [(s & E & H)|(n' & E & Hn')]; [|apply Object_inj in E; by subst].
  exfalso. assert (slot_at P (Object n) = Some s) as H'; [|congruence].
  apply slot_at_Some; [done|]. split; [done|]. eapply slot_range; eauto.
Qed.

Lemma dying_node r ov p dv n : pool_state p r ov dv -> slot_at P (Object n) = None ->
  Object n ∈ dying r dv <-> n ∈ dv.
Proof.
  intros HS Hn. rewrite elem_of_dying. split; [|eauto].
  intros [(s & E & H)|(n' & E & Hn')]; [|apply Object_inj in E; by subst].
  exfalso. assert (slot_at P (Object n) = Some s) as H'; [|congruence].
  apply slot_at_Some; [done|]. split; [done|]. eapply slot_range; eauto.
Qed.

(** Steps of the memory pool, as the object pool uses them. *)
Lemma with_pool p r ov dv pl r' :
  pool_state p r ov dv -> pool_rep P pl r' ->
  pool_state (mkOPool pl (overflow_count_ p) (overflow_head_ p) (nodes p)) r' ov dv.
Proof. intros [] H. by split. Qed.

Lemma Allocate_state p r : pool_rep P p r ->
  exists p', match free r with
  | [] => Allocate P p = Val (p', nullptr) /\ pool_rep P p' r
  | s :: f => Allocate P p = Val (p', slot_addr P s) /\
      pool_rep P p' (mkRef f ({[s]} ∪ held r) (releasing r))
  end.
Proof.
  intros HR. pose proof (Allocate_ok P HP p r HR) as H. simpl in H.
  destruct (free r) as [|s f]; destruct H as (p' & H & HR'); exists p';
    apply bind_Val_inv in H as ([p1 a] & E & H); injection H as -> ->; by split.
Qed.

Lemma set_eq_by (X Y : gset Z) : (forall a, a ∈ X <-> a ∈ Y) -> X = Y.
Proof. intros H. by apply set_eq. Qed.

Lemma ochain_frame N n v : forall l head, ochain N head l -> n ∉ l -> ochain (<[n := v]> N) head l.
Proof.
  induction l as [|m l IH]; intros head H Hn; [done|]. destruct H as (-> & next & Hm & H).
  split; [done|]. exists next. split; [rewrite lookup_insert_ne by set_solver; done|]. apply IH; set_solver.
Qed.

(** A new overflow node at the head of the list. *)
Lemma push_node p r ov dv n : new_node (nodes p) = Some n ->
  pool_state p r ov dv ->
  pool_state (mkOPool (pool_ p) (usize (overflow_count_ p + 1)) n (<[n := overflow_head_ p]> (nodes p)))
    r (n :: ov) dv /\ (Object n ∉ live r ov) /\ (Object n ∉ dying r dv).
Proof.
  intros Hnew HS. pose proof (nn_fresh HN _ _ Hnew) as Hf. destruct (nn_null HN _ _ Hnew) as [Hn0 Ho0].
  pose proof (nn_apart HN _ _ Hnew) as Hap.
  assert (~ (n ∈ ov \/ n ∈ dv)) as Hnin by (rewrite <- (ps_dom _ _ _ _ HS), Hf; by intros [? ?]).
  rewrite (live_node r ov _ dv n HS Hap), (dying_node r ov _ dv n HS Hap). split; [|tauto].
  destruct HS as [H1 H2 H3 H4 H5 H6]. split; cbn.
  - done.
  - split; [done|]. exists (overflow_head_ p). split; [apply lookup_insert_eq|]. apply ochain_frame; tauto.
  - apply NoDup_cons. tauto.
  - intros m. destruct (decide (m = n)) as [->|Hm].
    { rewrite lookup_insert_eq. split; [set_solver | done]. }
    rewrite lookup_insert_ne, H4 by done. set_solver.
  - intros m [->|Hm]%elem_of_cons; [tauto | auto].
  - intros m [[->|Hm]%elem_of_cons|Hm]; auto.
Qed.

(** A slot just allocated is returned. *)
Lemma Deallocate_state pl s f h rel :
  pool_rep P pl (mkRef f ({[s]} ∪ h) rel) -> 0 <= s < kCapacity P -> (s ∉ h) -> (s ∉ rel) ->
  exists pl', Deallocate P pl (slot_addr P s) = Val pl' /\ pool_rep P pl' (mkRef (s :: f) h rel).
Proof.
  intros HR Hs Hh Hr. pose proof (Deallocate_ok P HP _ _ (slot_addr P s) HR) as Hd. cbn [spec] in Hd.
  rewrite (proj2 (Z.eqb_neq _ _) (slot_addr_not_null P HP s Hs)) in Hd. unfold spec_owned in Hd.
  rewrite (proj2 (slot_at_Some P HP _ _) (conj eq_refl Hs)) in Hd.
  unfold spec_claim in Hd. cbn [held free releasing] in Hd. rewrite decide_True in Hd by set_solver.
  rewrite bind_val in Hd. unfold spec_finish in Hd. cbn [held free releasing] in Hd.
  rewrite decide_True in Hd by set_solver. rewrite bind_val in Hd. destruct Hd as (pl' & Hd & Hpl').
  apply bind_Val_inv in Hd as (pl2 & E & Hd). injection Hd as ->. exists pl'. split; [done|].
  replace (({[s]} ∪ h) ∖ {[s]}) with h in Hpl' by set_solver.
  by replace (({[s]} ∪ rel) ∖ {[s]}) with rel in Hpl' by set_solver.
Qed.

(** Every overflow node belongs to an object. *)
Lemma nodes_le_objects p r ov dv : pool_state p r ov dv ->
  (size (nodes p) <= size (live r ov) + size (dying r dv))%nat.
Proof.
  intros HS. assert (forall X : gset Z, size (set_map (D := gset Z) Object X) = size X) as Hinj.
  { intros X. induction X as [|x X Hx IH] using set_ind_L; [done|].
    rewrite set_map_union_L, set_map_singleton_L, !size_union, !size_singleton, IH; [done | set_solver |].
    apply disjoint_singleton_l. rewrite elem_of_map. intros (n & He & Hn). apply Object_inj in He. set_solver. }
  assert (dom (nodes p) = list_to_set ov ∪ dv) as Hdom.
  { apply set_eq. intros n. rewrite elem_of_dom, (ps_dom _ _ _ _ HS), elem_of_union, elem_of_list_to_set. done. }
  rewrite <- size_dom, Hdom, size_union by (intros n Hn; apply elem_of_list_to_set in Hn; by apply (ps_disj _ _ _ _ HS)).
  rewrite <- (Hinj (list_to_set ov)), <- (Hinj dv).
  apply Nat.add_le_mono; apply subseteq_size; unfold live, dying; set_solver.
Qed.

Lemma Acquire_ok p L D throws : holds p L D ->
  exists p' x, Acquire P new_node storage_offset p throws = Val (p', x) /\
    match x with
    | Threw => (throws = true \/ room <= Z.of_nat (size L + size D)) /\ holds p' L D
    | Acquired a => throws = false /\ a <> nullptr /\ (a ∉ L) /\ (a ∉ D) /\ holds p' ({[a]} ∪ L) D /\
        ((exists s, 0 <= s < kCapacity P /\ a = slot_addr P s) \/ exists N n, new_node N = Some n /\ a = Object n)
    end.
Proof.
  intros (r & ov & dv & HS & -> & ->). unfold Acquire.
  destruct (Allocate_state _ _ (ps_pool _ _ _ _ HS)) as (pl & H). destruct (free r) as [|s f] eqn:Ef;
    destruct H as [-> Hpl]; rewrite bind_val; cbn [pool_ nodes overflow_head_ overflow_count_];
    pose proof (with_pool _ _ _ _ _ _ HS Hpl) as HS'.
  - rewrite Z.eqb_refl. cbn [negb]. destruct (new_node (nodes p)) as [n|] eqn:Hnew.
    2: { eexists _, _. split; [reflexivity|]. split; [right | by exists r, ov, dv].
         apply Z.nlt_ge. intros Hlt. destruct (nn_room HN (nodes p)) as [? ?]; [|congruence].
         pose proof (nodes_le_objects _ _ _ _ HS). lia. }
    destruct throws; (eexists _, _; split; [reflexivity|]); (split; [by auto|]).
    { by exists r, ov, dv. }
    destruct (push_node (mkOPool pl (overflow_count_ p) (overflow_head_ p) (nodes p)) r ov dv n Hnew HS') as (HS2 & Hl & Hd).
    split_and!; [by apply (nn_null HN _ _ Hnew) | done | done | | by eauto].
    eexists r, _, dv. split; [exact HS2|]. split; [|done].
    apply set_eq_by. intros a. rewrite elem_of_union, elem_of_singleton, !elem_of_live. set_solver.
  - assert (s ∈ free r) as Hsf by (rewrite Ef; set_solver).
    assert (0 <= s < kCapacity P) as Hs by (apply (slot_range p r ov dv s HS); auto).
    pose proof (slot_addr_not_null P HP s Hs) as Hn0. rewrite (proj2 (Z.eqb_neq _ _) Hn0). cbn [negb].
    destruct (rf_free _ _ (pr_ok _ _ _ (ps_pool _ _ _ _ HS)) s Hsf) as [Hh Hr]. destruct throws.
    + destruct (Deallocate_state _ _ _ _ _ Hpl Hs Hh Hr) as (pl' & -> & Hpl'). rewrite bind_val.
      eexists _, _. split; [reflexivity|]. split; [by left|]. eexists _, ov, dv.
      split; [by eapply (with_pool p); eauto|]. done.
    + eexists _, _. split; [reflexivity|].
      split_and!; [done | done | by rewrite (live_slot p r ov dv s HS Hs)
                  | by rewrite (dying_slot p r ov dv s HS Hs) | | by eauto].
      eexists _, ov, dv. split; [exact HS'|]. split; [|done].
      apply set_eq_by. intros a. rewrite elem_of_union, elem_of_singleton, !elem_of_live. cbn [held]. set_solver.
Qed.

(** ** Release *)

(** The loop of TakeOverflow, from the link to the nodes [l] still to visit. *)
Definition link_to (p : opool) (k : link) (l : list Z) : Prop :=
  exists head, read_link p k = Val head /\ ochain (nodes p) head l.

Lemma take_loop_none p object : forall l fuel k,
  link_to p k l -> (forall n, n ∈ l -> n <> nullptr /\ Object n <> object) -> (length l < fuel)%nat ->
  take_loop storage_offset fuel p k object = Val (p, nullptr).
Proof.
  induction l as [|n l IH]; intros fuel k (head & Hk & Hc) Hn Hf; (destruct fuel as [|fuel]; [simpl in Hf; lia|]);
    cbn [take_loop]; rewrite Hk, bind_val; simpl in Hc.
  - subst. done.
  - destruct Hc as (-> & next & Hm & Hc). destruct (Hn n ltac:(set_solver)) as [Hn0 Ho].
    rewrite (proj2 (Z.eqb_neq _ _) Hn0), (proj2 (Z.eqb_neq _ _) Ho). apply IH; [|set_solver | simpl in Hf; lia].
    exists next. split; [|done]. simpl. by rewrite Hm.
Qed.

(** Unlinking [n] from the middle: everything before it is kept. *)
Lemma take_loop_found p object n l2 : Object n = object -> forall l1 fuel k,
  link_to p k (l1 ++ n :: l2) -> NoDup (l1 ++ n :: l2) ->
  (forall m, m ∈ l1 ++ n :: l2 -> m <> nullptr) ->
  match k with LNext m => m ∉ l1 ++ n :: l2 | LHead => True end -> (length l1 < fuel)%nat ->
  exists p', take_loop storage_offset fuel p k object = Val (p', n) /\
    pool_ p' = pool_ p /\ overflow_count_ p' = overflow_count_ p /\
    link_to p' k (l1 ++ l2) /\ nodes p' !! n = Some nullptr /\
    (forall m, is_Some (nodes p' !! m) <-> is_Some (nodes p !! m)) /\
    (forall m, (m ∉ l1 ++ n :: l2) -> k <> LNext m -> nodes p' !! m = nodes p !! m) /\
    (k <> LHead -> overflow_head_ p' = overflow_head_ p).
Proof.
  intros Ho. induction l1 as [|m l1 IH]; intros fuel k (head & Hk & Hc) HD Hn Hkn Hf;
    (destruct fuel as [|fuel]; [simpl in Hf; lia|]); cbn [take_loop app] in *; rewrite Hk, bind_val;
    destruct Hc as (-> & next & Hm & Hc); apply NoDup_cons in HD as [Hnin HD].
  - rewrite (proj2 (Z.eqb_neq _ _) (Hn n ltac:(set_solver))), Ho, Z.eqb_refl.
    cbn [read_link]. rewrite Hm, bind_val.
    assert (forall q, nodes q !! n = Some next -> write_link q (LNext n) nullptr =
      Val (mkOPool (pool_ q) (overflow_count_ q) (overflow_head_ q) (<[n := nullptr]> (nodes q)))) as Hw
      by (intros q Hq; unfold write_link; by rewrite Hq).
    destruct k as [|m]; cbn [write_link read_link] in *.
    + rewrite bind_val, Hw by done. rewrite bind_val. eexists. split; [reflexivity|]. cbn.
      split_and!; try done.
      * exists next. split; [done|]. apply ochain_frame; [done | set_solver].
      * apply lookup_insert_eq.
      * intros m. rewrite lookup_insert_is_Some'. split; [intros [<-|?] | ]; eauto.
      * intros m Hm' _. rewrite lookup_insert_ne; [done | set_solver].
    + destruct (nodes p !! m) as [x|] eqn:Ex; [|done]. rewrite bind_val.
      assert (m <> n) as Hmn by set_solver. rewrite Hw by (cbn; by rewrite lookup_insert_ne).
      rewrite bind_val. eexists. split; [reflexivity|]. cbn. split_and!; try done.
      * exists next. cbn. rewrite lookup_insert_ne, lookup_insert_eq by done. split; [done|].
        apply ochain_frame; [apply ochain_frame; [done | set_solver] | set_solver].
      * apply lookup_insert_eq.
      * intros m'. rewrite !lookup_insert_is_Some'. split; [intros [<-|[<-|?]] | ]; eauto.
      * intros m' Hm' Hk'. rewrite !lookup_insert_ne; [done | by intros -> | set_solver].
  - rewrite (proj2 (Z.eqb_neq _ _) (Hn m ltac:(set_solver))).
    assert (m <> n) as Hmn by (intros ->; apply Hnin; set_solver).
    rewrite (proj2 (Z.eqb_neq (Object m) object)) by (intros E; apply Hmn, Object_inj; congruence).
    destruct (IH fuel (LNext m)) as (p' & -> & H1 & H2 & (head & H3 & H3') & H4 & H5 & H6 & H7);
      [exists next; split; [cbn; by rewrite Hm | done] | done | set_solver | set_solver | simpl in Hf; lia |].
    exists p'. split_and!; auto.
    + exists m. split; [|]. 2: { split; [done|]. exists head. cbn in H3.
        destruct (nodes p' !! m); [|done]. injection H3 as ->. done. }
      destruct k as [|k]; cbn in *; [by rewrite H7|]. rewrite H6; [done | set_solver |].
      intros [= ->]. set_solver.
    + intros m' Hm' Hk'. apply H6; [set_solver|]. intros [= ->]. set_solver.
Qed.

Lemma nodes_size p r ov dv : pool_state p r ov dv -> (length ov < S (size (nodes p)))%nat.
Proof.
  intros HS. apply Nat.lt_succ_r. rewrite <- size_dom.
  rewrite <- (size_list_to_set (C := gset Z) ov) by apply HS. apply subseteq_size.
  intros n Hn. apply elem_of_list_to_set in Hn. apply elem_of_dom, (ps_dom _ _ _ _ HS). auto.
Qed.

Lemma TakeOverflow_none p r ov dv a : pool_state p r ov dv -> (forall n, n ∈ ov -> Object n <> a) ->
  TakeOverflow storage_offset p a = Val (p, nullptr).
Proof.
  intros HS Ha. apply take_loop_none with (l := ov).
  - exists (overflow_head_ p). split; [done | apply HS].
  - intros n Hn. split; [by apply (ps_node _ _ _ _ HS); left | auto].
  - by eapply nodes_size.
Qed.

Lemma TakeOverflow_found p r l1 n l2 dv : pool_state p r (l1 ++ n :: l2) dv ->
  exists p', TakeOverflow storage_offset p (Object n) = Val (p', n) /\
    pool_state p' r (l1 ++ l2) ({[n]} ∪ dv).
Proof.
  intros HS. pose proof (nodes_size _ _ _ _ HS) as Hsz. rewrite length_app in Hsz. simpl in Hsz.
  pose proof HS as [H1 H2 H3 H4 H5 H6].
  destruct (take_loop_found p (Object n) n l2 eq_refl l1 (S (size (nodes p))) LHead)
    as (p' & E & K1 & K2 & (head & K3 & K3') & K4 & K5 & K6 & K7); auto; [| |lia|].
  - exists (overflow_head_ p). by split.
  - intros m Hm. apply H6. auto.
  - exists p'. split; [done|]. apply NoDup_app in H3 as (N1 & N2 & N3).
    apply NoDup_cons in N3 as [N3 N4]. injection K3 as <-. split.
    + by rewrite K1.
    + done.
    + apply NoDup_app. split_and!; [done | set_solver | done].
    + intros m. rewrite K5, H4. set_solver.
    + intros m Hm Hin. apply elem_of_union in Hin as [->%elem_of_singleton|Hin]; [set_solver|].
      apply (H5 m); set_solver.
    + intros m Hm. apply H6. set_solver.
Qed.

Lemma Claim_state pl r s : pool_rep P pl r -> s ∈ held r ->
  exists pl', ClaimDeallocation P pl (slot_addr P s) = Val pl' /\
    pool_rep P pl' (mkRef (free r) (held r ∖ {[s]}) ({[s]} ∪ releasing r)).
Proof.
  intros HR Hs. assert (0 <= s < kCapacity P) as Hr by (apply (rf_range _ _ (pr_ok _ _ _ HR)); auto).
  unfold ClaimDeallocation. rewrite (Owns_ok P HP), (proj2 (slot_at_Some P HP _ _) (conj eq_refl Hr)) by apply HR.
  rewrite bool_decide_eq_true_2 by done. rewrite check_true, bind_val.
  pose proof (Claim_ok P HP pl r s HR Hr) as H. unfold spec_claim in H. by rewrite decide_True in H.
Qed.

Lemma Finish_state pl r s : pool_rep P pl r -> s ∈ releasing r ->
  exists pl', FinishDeallocation P pl (slot_addr P s) = Val pl' /\
    pool_rep P pl' (mkRef (s :: free r) (held r) (releasing r ∖ {[s]})).
Proof.
  intros HR Hs. assert (0 <= s < kCapacity P) as Hr by (apply (rf_range _ _ (pr_ok _ _ _ HR)); auto).
  unfold FinishDeallocation. rewrite (Owns_ok P HP), (proj2 (slot_at_Some P HP _ _) (conj eq_refl Hr)) by apply HR.
  rewrite bool_decide_eq_true_2 by done. rewrite check_true, bind_val.
  pose proof (Finish_ok P HP pl r s HR Hr) as H. unfold spec_finish in H. by rewrite decide_True in H.
Qed.

(** What a destructor has to do for [Release] to succeed: run from the state in
    which its object is being destroyed, and leave that object alone. *)
Definition destroys {W} (destroy : opool -> outcome (opool * W)) (a : Z) (L D : gset Z)
    (Q : W -> gset Z -> gset Z -> Prop) : Prop :=
  forall p, holds p (L ∖ {[a]}) ({[a]} ∪ D) ->
  exists p' w L' D', destroy p = Val (p', w) /\ holds p' L' D' /\ a ∈ D' /\ Q w L' (D' ∖ {[a]}).

Lemma release_slot {W} (destroy : opool -> outcome (opool * W)) p r ov dv s Q :
  pool_state p r ov dv -> s ∈ held r -> destroys destroy (slot_addr P s) (live r ov) (dying r dv) Q ->
  exists p' w L' D', Release P storage_offset destroy p (slot_addr P s) = Val (p', Some w) /\ holds p' L' D' /\
    Q w L' D'.
Proof.
  intros HS Hs Hd. assert (0 <= s < kCapacity P) as Hr by (eapply slot_range; eauto). unfold Release.
  rewrite (proj2 (Z.eqb_neq _ _) (slot_addr_not_null P HP s Hr)).
  rewrite (Owns_ok P HP), (proj2 (slot_at_Some P HP _ _) (conj eq_refl Hr)) by apply HS.
  rewrite bool_decide_eq_true_2 by done.
  destruct (Claim_state _ _ _ (ps_pool _ _ _ _ HS) Hs) as (pl & -> & Hpl). rewrite bind_val.
  pose proof (with_pool _ _ _ _ _ _ HS Hpl) as HS1.
  destruct (Hd (mkOPool pl (overflow_count_ p) (overflow_head_ p) (nodes p)))
    as (p2 & w & L' & D' & -> & (r2 & ov2 & dv2 & HS2 & -> & ->) & Ha & HQ).
  { eexists _, ov, dv. split; [exact HS1|]. split; apply set_eq_by; intros a.
    - rewrite elem_of_difference, elem_of_singleton, !elem_of_live. cbn [held]. split.
      + intros [[(s' & -> & Hs')|?] Hne]; [|by right]. left. exists s'. set_solver.
      + intros [(s' & -> & Hs')|(n & -> & Hn)].
        * split; [left; exists s'; set_solver|]. intros E. apply slot_addr_inj in E; [set_solver | done].
        * split; [eauto|]. intros E. symmetry in E. revert E. eapply slot_not_object; eauto.
    - rewrite elem_of_union, elem_of_singleton, !elem_of_dying. cbn [releasing]. set_solver. }
  rewrite bind_val. apply (dying_slot _ _ _ _ _ HS2 Hr) in Ha.
  destruct (Finish_state _ _ _ (ps_pool _ _ _ _ HS2) Ha) as (pl3 & -> & Hpl3). rewrite bind_val.
  eexists _, w, _, _. split; [reflexivity|]. split; [|exact HQ].
  eexists _, ov2, dv2. split; [by eapply (with_pool p2); eauto|]. split; [done|].
  apply set_eq_by. intros a. rewrite elem_of_difference, elem_of_singleton, !elem_of_dying. cbn [releasing].
  split.
  - intros [[(s' & -> & Hs')|?] Hne]; [|by right]. left. exists s'. set_solver.
  - intros [(s' & -> & Hs')|(n & -> & Hn)].
    + split; [left; exists s'; set_solver|]. intros E. apply slot_addr_inj in E; [set_solver | done].
    + split; [eauto|]. intros E. symmetry in E. revert E. eapply slot_not_object; eauto.
Qed.

Lemma release_node {W} (destroy : opool -> outcome (opool * W)) p r ov dv n Q :
  pool_state p r ov dv -> n ∈ ov -> destroys destroy (Object n) (live r ov) (dying r dv) Q ->
  exists p' w L' D', Release P storage_offset destroy p (Object n) = Val (p', Some w) /\ holds p' L' D' /\
    Q w L' D'.
Proof.
  intros HS Hn Hd. destruct (ps_node _ _ _ _ HS n (or_introl Hn)) as (Hn0 & Ho0 & Hap). unfold Release.
  rewrite (proj2 (Z.eqb_neq _ _) Ho0), (Owns_ok P HP), Hap by apply HS. rewrite bool_decide_eq_false_2 by (by intros [? ?]).
  apply list_elem_of_split in Hn as (l1 & l2 & ->).
  destruct (TakeOverflow_found _ _ _ _ _ _ HS) as (p1 & -> & HS1).
  rewrite bind_val, (proj2 (Z.eqb_neq _ _) Hn0). cbn [negb]. rewrite check_true, bind_val.
  assert (n ∉ l1 ++ l2) as Hnl.
  { pose proof (ps_nodup _ _ _ _ HS) as HD. apply NoDup_app in HD as (_ & HD1 & HD2).
    apply NoDup_cons in HD2 as [HD2 _]. set_solver. }
  assert (forall s, 0 <= s < kCapacity P -> slot_addr P s <> Object n) as Hslot.
  { intros s Hs. eapply slot_not_object; [exact HS | done | left; set_solver]. }
  destruct (Hd p1) as (p2 & w & L' & D' & -> & (r2 & ov2 & dv2 & HS2 & -> & ->) & Ha & HQ).
  { eexists r, (l1 ++ l2), ({[n]} ∪ dv). split; [exact HS1|]. split; apply set_eq_by; intros a.
    - rewrite elem_of_difference, elem_of_singleton, !elem_of_live. split.
      + intros [[?|(n' & -> & Hn')] Hne]; [by left|]. right. exists n'. set_solver.
      + intros [(s' & -> & Hs')|(n' & -> & Hn')].
        * split; [eauto|]. apply Hslot. eapply slot_range; [exact HS | auto].
        * split; [right; exists n'; set_solver|]. intros E. apply Object_inj in E. by subst.
    - rewrite elem_of_union, elem_of_singleton, !elem_of_dying. set_solver. }
  rewrite bind_val. apply (dying_node _ _ _ _ _ HS2 Hap) in Ha.
  eexists _, w, _, _. split; [reflexivity|]. split; [|exact HQ].
  exists r2, ov2, (dv2 ∖ {[n]}). split; [|split; [done|]].
  - destruct HS2 as [H1 H2 H3 H4 H5 H6]. assert (n ∉ ov2) as Hno by (intros Hx; by apply (H5 n)).
    split; cbn; auto.
    + clear -H2 Hno. revert H2. generalize (overflow_head_ p2). induction ov2 as [|m l IH]; intros hd H; [done|].
      destruct H as (-> & next & Hm & H). split; [done|]. exists next.
      rewrite lookup_delete_ne by set_solver. split; [done|]. apply IH; set_solver.
    + intros m. destruct (decide (m = n)) as [->|Hm].
      * rewrite lookup_delete_eq. split; [by intros [? ?] | set_solver].
      * rewrite lookup_delete_ne, H4 by done. set_solver.
    + intros m Hm. specialize (H5 m Hm). set_solver.
    + intros m Hm. apply H6. set_solver.
  - apply set_eq_by. intros a. rewrite elem_of_difference, elem_of_singleton, !elem_of_dying. split.
    + intros [[?|(n' & -> & Hn')] Hne]; [by left|]. right. exists n'. set_solver.
    + intros [(s' & -> & Hs')|(n' & -> & Hn')].
      * split; [eauto|]. apply Hslot. eapply slot_range; [exact HS2 | auto].
      * split; [right; exists n'; set_solver|]. intros E. apply Object_inj in E. set_solver.
Qed.

Lemma Release_ok {W} (destroy : opool -> outcome (opool * W)) p L D a Q :
  holds p L D -> a ∈ L -> destroys destroy a L D Q ->
  exists p' w L' D', Release P storage_offset destroy p a = Val (p', Some w) /\ holds p' L' D' /\ Q w L' D'.
Proof.
  intros (r & ov & dv & HS & -> & ->) [(s & -> & Hs)|(n & -> & Hn)]%elem_of_live Hd;
    [by eapply release_slot | by eapply release_node].
Qed.

(** A pointer that is no live object: the destructor is not reached. *)
Lemma Release_misuse {W} (destroy : opool -> outcome (opool * W)) p L D a :
  holds p L D -> (a ∉ L) -> a <> nullptr -> Release P storage_offset destroy p a = Panic.
Proof.
  intros (r & ov & dv & HS & -> & ->) Ha Ha0. unfold Release. rewrite (proj2 (Z.eqb_neq _ _) Ha0).
  rewrite (Owns_ok P HP) by apply HS. destruct (slot_at P a) as [s|] eqn:Es.
  - rewrite bool_decide_eq_true_2 by done. pose proof Es as Es'. apply (slot_at_Some P HP) in Es as [-> Hr].
    unfold ClaimDeallocation. rewrite (Owns_ok P HP), Es' by apply HS. rewrite bool_decide_eq_true_2 by done.
    rewrite check_true, bind_val. pose proof (Claim_ok P HP _ _ s (ps_pool _ _ _ _ HS) Hr) as H.
    unfold spec_claim in H. rewrite decide_False in H; [by rewrite H|].
    by rewrite (live_slot _ _ _ _ _ HS Hr) in Ha.
  - rewrite bool_decide_eq_false_2 by (by intros [? ?]).
    rewrite (TakeOverflow_none p r ov dv a HS); [done|].
    intros n Hn E. apply Ha. rewrite elem_of_live. eauto.
Qed.

Lemma live_not_null p L D a : holds p L D -> a ∈ L -> a <> nullptr.
Proof.
  intros (r & ov & dv & HS & -> & _) [(s & -> & Hs)|(n & -> & Hn)]%elem_of_live.
  - apply slot_addr_not_null; [done|]. eapply slot_range; eauto.
  - apply (ps_node _ _ _ _ HS). auto.
Qed.

Lemma new_pool_holds : holds (new_pool P) ∅ ∅.
Proof.
  exists (initial P), [], ∅. split; [|done]. split; cbn.
  - by apply Initialize_ok.
  - done.
  - constructor.
  - intros n. rewrite lookup_empty. split; [by intros [? ?] | set_solver].
  - set_solver.
  - set_solver.
Qed.

Lemma destroy_pool_ok p L : holds p L ∅ ->
  destroy_pool P p = if decide (L = ∅) then Val tt else Panic.
Proof.
  intros (r & ov & dv & HS & -> & HD). unfold destroy_pool, UsedCount.
  pose proof (ps_pool _ _ _ _ HS) as HR. pose proof (pr_ok _ _ _ HR) as HO.
  assert (releasing r = ∅) as Hrel.
  { apply set_eq_by. intros s. split; [|set_solver]. intros Hs. exfalso.
    assert (slot_addr P s ∈ dying r dv) as Hx by (apply elem_of_dying; eauto). rewrite <- HD in Hx. set_solver. }
  rewrite (pr_count _ _ _ HR), (used_slots P HP) by done. rewrite Hrel, union_empty_r_L.
  pose proof (used_slots P HP r HO) as Hu. rewrite Hrel, union_empty_r_L in Hu.
  pose proof (capacity_usize P HP) as Hc. unfold is_usize in Hc.
  rewrite usize_small by (unfold is_usize; lia). pose proof (ps_chain _ _ _ _ HS) as HC.
  assert (live r ov = ∅ <-> held r = ∅ /\ ov = []) as Hlive.
  { split; [|intros [H ->]; unfold live; rewrite H; set_solver]. intros H.
    split; [apply set_eq_by; intros s; split; [|set_solver]; intros Hs|destruct ov as [|n ov]; [done|]]; exfalso.
    - assert (slot_addr P s ∈ live r ov) by (apply elem_of_live; eauto). set_solver.
    - assert (Object n ∈ live r (n :: ov)) by (apply elem_of_live; right; exists n; set_solver). set_solver. }
  destruct (decide (held r = ∅)) as [Hh|Hh].
  - rewrite Hh, size_empty. change (Z.of_nat 0 =? 0) with true. rewrite check_true, bind_val. destruct ov as [|n ov]; cbn in HC.
    + by rewrite HC, decide_True by tauto.
    + destruct HC as [-> _]. rewrite decide_False by naive_solver.
      rewrite (proj2 (Z.eqb_neq n nullptr)); [done|]. apply (ps_node _ _ _ _ HS). set_solver.
  - rewrite decide_False by tauto. rewrite (proj2 (Z.eqb_neq (Z.of_nat (size (held r))) 0)); [done|].
    intros E. apply Hh, leibniz_equiv, size_empty_inv. lia.
Qed.

(** ** Scripts *)

Abbreviation oexec := (oexec P new_node storage_offset).
Abbreviation oexec_all := (oexec_all P new_node storage_offset).

(** Some handle in the state [x] of life is [a]. *)
Definition at_state (hs : list Z) (ls : list life) (x : life) (a : Z) : Prop :=
  exists k, hs !! k = Some a /\ ls !! k = Some x.

(** The handles name the objects: those alive make up [L], those in their
    destructor [D], without repetition. *)
Record named (hs : list Z) (ls : list life) (L D : gset Z) : Prop := {
  nm_length : length hs = length ls;
  nm_live a : a ∈ L <-> at_state hs ls Live a;
  nm_dying a : a ∈ D <-> at_state hs ls Dying a;
  nm_inj k k' a x x' : hs !! k = Some a -> hs !! k' = Some a -> ls !! k = Some x -> ls !! k' = Some x' ->
    x <> Dead -> x' <> Dead -> k = k';
}.

(** Looking up one of two lists of the same length, extended. *)
Lemma lookup_snoc_pair (hs : list Z) (ls : list life) a y k b x : length hs = length ls ->
  (hs ++ [a]) !! k = Some b /\ (ls ++ [y]) !! k = Some x <->
  hs !! k = Some b /\ ls !! k = Some x \/ k = length hs /\ b = a /\ x = y.
Proof.
  intros Hlen. rewrite !lookup_app_Some, !list_lookup_singleton_Some. split.
  - intros [[H1|(? & ? & <-)] [H2|(? & ? & <-)]]; [by left | | |].
    + apply lookup_lt_Some in H1. lia.
    + apply lookup_lt_Some in H2. lia.
    + right. split; [lia | done].
  - intros [[? ?]|(-> & -> & ->)]; [auto|]. split; right; (split; [lia|split; [lia|done]]).
Qed.

Lemma named_acquire hs ls L D a : named hs ls L D -> (a ∉ L) -> (a ∉ D) ->
  named (hs ++ [a]) (ls ++ [Live]) ({[a]} ∪ L) D.
Proof.
  intros [H1 H2 H3 H4] HL HD.
  assert (forall x b, at_state (hs ++ [a]) (ls ++ [Live]) x b <-> at_state hs ls x b \/ b = a /\ x = Live) as E.
  { intros x b. unfold at_state. setoid_rewrite lookup_snoc_pair; [|done]. clear. split.
    - intros (k & [?|(_ & -> & ->)]); eauto.
    - intros [(k & ?)|[-> ->]]; [eauto | exists (length hs); auto]. }
  assert (forall k x, hs !! k = Some a -> ls !! k = Some x -> x <> Dead -> False) as Hno.
  { intros j y Hj Hy Hd. destruct y; [apply HL, H2 | apply HD, H3 | done]; by exists j. }
  split.
  - rewrite !length_app. simpl. lia.
  - intros b. rewrite E, elem_of_union, elem_of_singleton, H2. clear. naive_solver.
  - intros b. rewrite E, H3. clear. naive_solver.
  - intros k k' b x x' A B C F Hx Hx'.
    pose proof (proj1 (lookup_snoc_pair hs ls a Live k b x H1) (conj A C)) as K.
    pose proof (proj1 (lookup_snoc_pair hs ls a Live k' b x' H1) (conj B F)) as K'.
    destruct K as [[? ?]|(-> & -> & ->)], K' as [[? ?]|(-> & Hb & ?)]; subst; auto.
    + by eapply H4.
    + exfalso. by eapply Hno.
    + exfalso. by eapply Hno.
Qed.

(** An object changes from one state of life to the next. *)
Lemma named_move hs ls L D k a x y : named hs ls L D -> hs !! k = Some a -> ls !! k = Some x -> x <> Dead ->
  named hs (<[k := y]> ls)
    (if decide (y = Live) then {[a]} ∪ L else L ∖ {[a]})
    (if decide (y = Dying) then {[a]} ∪ D else D ∖ {[a]}).
Proof.
  intros [H1 H2 H3 H4] Hk Hx Hd. assert (k < length ls)%nat as Hlt by (by eapply lookup_lt_Some).
  assert (forall j b z, hs !! j = Some b -> z <> Dead ->
    <[k := y]> ls !! j = Some z <-> (b = a /\ j = k /\ z = y) \/ (b <> a /\ ls !! j = Some z)) as E.
  { intros j b z Hj Hz. destruct (decide (j = k)) as [->|Hne].
    - rewrite list_lookup_insert_eq by done. rewrite Hk in Hj. injection Hj as <-. clear. naive_solver.
    - rewrite list_lookup_insert_ne by done. split; [|by intros [(_ & ? & _)|[_ ?]]]. intros Hjz. right.
      split; [|done]. intros ->. apply Hne. by eapply H4. }
  assert (forall z b, z <> Dead -> at_state hs (<[k := y]> ls) z b <->
    (b = a /\ z = y) \/ (b <> a /\ at_state hs ls z b)) as E'.
  { intros z b Hz. split.
    - intros (j & Hj & Hl). apply (E j b) in Hl as [(-> & _ & ->)|[? ?]]; [by left | right; split; [done|]; by exists j | done | done].
    - intros [[-> ->]|[Hb (j & Hj & Hl)]]; [exists k | exists j]; (split; [done|]); apply E with (1 := Hk) || apply E with (1 := Hj); auto. }
  split.
  - by rewrite length_insert.
  - intros b. rewrite E' by done. rewrite <- H2. clear. case_decide; set_unfold; destruct (decide (b = a)); naive_solver.
  - intros b. rewrite E' by done. rewrite <- H3. clear. case_decide; set_unfold; destruct (decide (b = a)); naive_solver.
  - intros j j' b z z' Hj Hj' Hz Hz' N N'. apply (E j b) in Hz; [|done|done]. apply (E j' b) in Hz'; [|done|done].
    destruct Hz as [(? & -> & _)|[? ?]], Hz' as [(? & -> & _)|[? ?]]; (by eapply H4) || done.
Qed.

Lemma size_list_to_set_le (l : list Z) : (size (list_to_set l : gset Z) <= length l)%nat.
Proof.
  induction l as [|x l IH]; cbn; [by rewrite size_empty|].
  pose proof (size_union_alt ({[x]} : gset Z) (list_to_set l)) as H. rewrite H, size_singleton.
  pose proof (subseteq_size (list_to_set l ∖ {[x]}) (list_to_set l : gset Z) ltac:(set_solver)). lia.
Qed.

(** There are no more objects than handles. *)
Lemma named_size hs ls L D : named hs ls L D -> (size L + size D <= length hs)%nat.
Proof.
  intros [H1 H2 H3 H4]. rewrite <- size_union.
  - rewrite <- (size_list_to_set_le hs). apply subseteq_size. intros a Ha. apply elem_of_list_to_set.
    apply elem_of_union in Ha as [(k & Hk & _)%H2|(k & Hk & _)%H3]; by eapply list_elem_of_lookup_2.
  - intros a (k & Hk & Hl)%H2 (k' & Hk' & Hl')%H3. assert (k = k') as <- by (by eapply H4). congruence.
Qed.

(** Objects in their destructor when a script starts stay there until it ends,
    and no other object is left there. *)
Definition keeps_dying (ls ls' : list life) : Prop :=
  forall k, ls !! k = Some Dying <-> ls' !! k = Some Dying.

Definition runs (exec : opool -> list Z -> outcome (opool * list Z)) (ls ls' : list life) : Prop :=
  forall p hs L D, Z.of_nat (length ls') <= room -> holds p L D -> named hs ls L D ->
  exists p' hs' L' D', exec p hs = Val (p', hs') /\ holds p' L' D' /\ named hs' ls' L' D' /\
    keeps_dying ls ls' /\ hs `prefix_of` hs'.

Lemma runs_seq e1 e2 l1 l2 l3 : (length l2 <= length l3)%nat -> runs e1 l1 l2 -> runs e2 l2 l3 ->
  runs (fun p hs => '(p, hs) ← e1 p hs; e2 p hs) l1 l3.
Proof.
  intros Hle H1 H2 p hs L D Hr Hh Hn.
  destruct (H1 p hs L D ltac:(lia) Hh Hn) as (p1 & hs1 & L1 & D1 & -> & Hh1 & Hn1 & K1 & P1).
  destruct (H2 p1 hs1 L1 D1 Hr Hh1 Hn1) as (p2 & hs2 & L2 & D2 & E & Hh2 & Hn2 & K2 & P2).
  exists p2, hs2, L2, D2. rewrite bind_val. split_and!; [done | done | done | | by etrans].
  intros k. by rewrite (K1 k).
Qed.

Lemma runs_acquire throws ls : runs (oexec (OAcquire throws)) ls (if throws then ls else ls ++ [Live]).
Proof.
  intros p hs L D Hr Hh Hn. cbn [ObjectPool.oexec].
  destruct (Acquire_ok p L D throws Hh) as (p' & x & -> & Hx). rewrite bind_val.
  destruct x as [a|]; [destruct Hx as (-> & _ & HL & HD & Hh' & _) | destruct Hx as (Ht & Hh')].
  - eexists p', _, _, _. split; [reflexivity|]. split_and!; [exact Hh' | by apply named_acquire | | by exists [a]].
    intros k. rewrite lookup_snoc_Some. split; [|naive_solver].
    intros Hk. left. split; [by eapply lookup_lt_Some | done].
  - assert (throws = true) as ->; [|eexists p', _, _, _; split; [reflexivity|]; by split_and!].
    destruct Ht as [Ht|Ht]; [done|]. destruct throws; [done|]. rewrite length_app in Hr. simpl in Hr.
    pose proof (named_size _ _ _ _ Hn). pose proof (nm_length _ _ _ _ Hn). lia.
Qed.

Lemma runs_release k destructor ls ls' :
  ls !! k = Some Live -> runs (oexec_all destructor) (<[k := Dying]> ls) ls' ->
  runs (oexec (ORelease k destructor)) ls (<[k := Dead]> ls').
Proof.
  intros Hk Hd p hs L D Hr Hh Hn. cbn [ObjectPool.oexec]. rewrite length_insert in Hr.
  destruct (lookup_lt_is_Some_2 hs k) as [a Ha]; [rewrite (nm_length _ _ _ _ Hn); by eapply lookup_lt_Some|].
  rewrite Ha. assert (a ∈ L) as HaL by (apply (nm_live _ _ _ _ Hn); by exists k).
  destruct (Release_ok (fun p => oexec_all destructor p hs) p L D a (fun hs' L' D' =>
      named hs' (<[k := Dead]> ls') L' D' /\ keeps_dying ls (<[k := Dead]> ls') /\ hs `prefix_of` hs') Hh HaL)
    as (p' & hs' & L' & D' & E & Hh' & Hn' & K & Hp).
  - intros p1 Hh1. pose proof (named_move _ _ _ _ k a Live Dying Hn Ha Hk ltac:(done)) as Hn1.
    rewrite decide_False, decide_True in Hn1 by done.
    destruct (Hd p1 hs _ _ Hr Hh1 Hn1) as (p2 & hs2 & L2 & D2 & E2 & Hh2 & Hn2 & K2 & P2).
    assert (hs2 !! k = Some a) as Ha2 by (by eapply prefix_lookup_Some).
    assert (ls' !! k = Some Dying) as Hk2.
    { apply K2, list_lookup_insert_eq. by eapply lookup_lt_Some. }
    exists p2, hs2, L2, D2. split_and!; [done | done | | | | done].
    + apply (nm_dying _ _ _ _ Hn2). by exists k.
    + pose proof (named_move _ _ _ _ k a Dying Dead Hn2 Ha2 Hk2 ltac:(done)) as Hn3.
      rewrite !decide_False in Hn3 by done. replace (L2 ∖ {[a]}) with L2 in Hn3; [done|].
      apply set_eq_by. intros b. split; [|set_solver]. intros Hb. apply elem_of_difference. split; [done|].
      rewrite elem_of_singleton. intros ->. apply (nm_live _ _ _ _ Hn2) in Hb as (j & Hj & Hl).
      assert (j = k) as -> by (by eapply (nm_inj _ _ _ _ Hn2)). congruence.
    + intros j. destruct (decide (j = k)) as [->|Hne].
      * rewrite Hk, list_lookup_insert_eq by (by eapply lookup_lt_Some). done.
      * rewrite list_lookup_insert_ne by done. rewrite <- (K2 j). by rewrite list_lookup_insert_ne.
  - exists p', hs', L', D'. split; [|done].
    match goal with |- context [Release _ _ ?f p a] => assert (f = fun p => oexec_all destructor p hs) as -> end.
    2: { rewrite E. done. }
    reflexivity.
Qed.

Lemma ospec_length : forall o ls ls', ospec o ls = Some ls' -> (length ls <= length ls')%nat.
Proof.
  fix IH 1. intros [throws|k destructor] ls ls'; cbn [ospec].
  - intros [= <-]. destruct throws; [done|]. rewrite length_app. lia.
  - destruct (ls !! k) as [[]|] eqn:Hk; try done. intros Hs. apply bind_Some in Hs as (ls1 & Hs & Heq).
    injection Heq as <-. rewrite length_insert, <- (length_insert ls k Dying). revert Hs. generalize (<[k := Dying]> ls).
    clear Hk ls. revert ls1. induction destructor as [|o l IHl]; intros ls1 ls Hs.
    + by injection Hs as <-.
    + apply bind_Some in Hs as (ls2 & Hs1 & Hs2). etrans; [by apply (IH o) | by apply IHl].
Qed.

Lemma ospec_all_length l : forall ls ls', ospec_all l ls = Some ls' -> (length ls <= length ls')%nat.
Proof.
  induction l as [|o l IH]; intros ls ls'; cbn [ospec_all]; [by intros [= <-]|].
  intros Hs. apply bind_Some in Hs as (ls2 & Hs1 & Hs2). etrans; [by eapply ospec_length | by apply IH].
Qed.

Lemma oexec_runs : forall o ls ls', ospec o ls = Some ls' -> runs (oexec o) ls ls'.
Proof.
  fix IH 1. intros [throws|k destructor] ls ls'; cbn [ospec].
  - intros [= <-]. apply runs_acquire.
  - destruct (ls !! k) as [[]|] eqn:Hk; try done. intros Hs. apply bind_Some in Hs as (ls1 & Hs & Heq).
    injection Heq as <-. apply runs_release; [done|]. revert Hs. generalize (<[k := Dying]> ls).
    clear Hk ls. revert ls1. induction destructor as [|o l IHl]; intros ls1 ls Hs.
    + injection Hs as <-. intros p hs L D Hr Hh Hn. by exists p, hs, L, D.
    + apply bind_Some in Hs as (ls2 & Hs1 & Hs2).
      eapply runs_seq; [by eapply (ospec_all_length l) | by apply (IH o) | by apply IHl].
Qed.

Lemma oexec_all_runs script : forall ls ls', ospec_all script ls = Some ls' -> runs (oexec_all script) ls ls'.
Proof.
  induction script as [|o script IH]; intros ls ls'; cbn [ospec_all].
  - intros [= <-] p hs L D Hr Hh Hn. by exists p, hs, L, D.
  - intros Hs. apply bind_Some in Hs as (ls2 & Hs1 & Hs2).
    eapply runs_seq; [by eapply ospec_all_length | by apply oexec_runs | by apply IH].
Qed.

End props.

(** Clients that release each object once, in any order and from inside
    the destructors of other objects, with constructors that may throw and with
    more objects than the pool has slots as long as the system allocator has room
    for them, never make the pool abort. The objects
    alive have distinct addresses, none of them null; the destructor of the pool
    accepts exactly when all objects are gone; and releasing an address that is
    no live object, be it foreign, stale or of an object already in its
    destructor, aborts whatever the destructor would do. *)
Theorem object_pool_one_life_per_object P new_node storage_offset room script ls :
  params_ok P -> new_node_ok P new_node storage_offset room -> ospec_all script [] = Some ls ->
  Z.of_nat (length ls) <= room ->
  exists p hs, oexec_all P new_node storage_offset script (new_pool P) [] = Val (p, hs) /\
    length hs = length ls /\
    (forall k a, hs !! k = Some a -> ls !! k = Some Live -> a <> nullptr) /\
    (forall k k' a, hs !! k = Some a -> hs !! k' = Some a -> ls !! k = Some Live -> ls !! k' = Some Live -> k = k') /\
    destroy_pool P p = (if decide (Live ∈ ls) then Panic else Val tt) /\
    (forall W (destroy : opool -> outcome (opool * W)) a, a <> nullptr ->
       (forall k, hs !! k = Some a -> ls !! k <> Some Live) -> Release P storage_offset destroy p a = Panic).
Proof.
  intros HP HN Hs Hroom. assert (holds P storage_offset (new_pool P) ∅ ∅) as H0 by (by eapply new_pool_holds).
  destruct (oexec_all_runs P HP new_node storage_offset room HN script _ _ Hs (new_pool P) [] ∅ ∅ Hroom H0) as (p & hs & L & D & E & Hh & Hn & K & _).
  { split; [done | | |done]; intros a; (split; [set_solver | by intros (k & Hk & _)]). }
  exists p, hs. split_and!; [done | apply Hn | | | |].
  - intros k a Hk H1. eapply live_not_null with (L := L); eauto. apply (nm_live _ _ _ _ Hn). by exists k.
  - intros k k' a Hk Hk' H1 H2. by eapply (nm_inj _ _ _ _ Hn).
  - assert (D = ∅) as ->.
    { apply set_eq_by. intros a. split; [|set_solver]. intros (k & Hk & Hd)%(nm_dying _ _ _ _ Hn).
      apply K in Hd. done. }
    erewrite destroy_pool_ok by done. destruct (decide (Live ∈ ls)) as [Hl|Hl].
    + rewrite decide_False; [done|]. intros ->. apply list_elem_of_lookup in Hl as [k Hk].
      destruct (lookup_lt_is_Some_2 hs k) as [a Ha]; [rewrite (nm_length _ _ _ _ Hn); by eapply lookup_lt_Some|].
      assert (a ∈ (∅ : gset Z)) by (apply (nm_live _ _ _ _ Hn); by exists k). set_solver.
    + rewrite decide_True; [done|]. apply set_eq_by. intros a. split; [|set_solver].
      intros (k & Hk & Hd)%(nm_live _ _ _ _ Hn). exfalso. apply Hl. by eapply list_elem_of_lookup_2.
  - intros W destroy a Ha Hno. eapply Release_misuse with (L := L); eauto.
    intros (k & Hk & Hl)%(nm_live _ _ _ _ Hn). by apply (Hno k).
Qed.

(** ** A concrete pool of three slots and an allocator with eight places *)

(** The first of eight places that is not taken. *)
Definition example_places : list Z := [65536; 65600; 65664; 65728; 65792; 65856; 65920; 65984].
Definition example_new_node (N : gmap Z Z) : option Z :=
  head (List.filter (fun n => bool_decide (N !! n = None)) example_places).

Lemma example_new_node_in N n : example_new_node N = Some n -> n ∈ example_places /\ N !! n = None.
Proof.
  unfold example_new_node. destruct (List.filter _ example_places) as [|m l] eqn:E; [done|].
  intros [= ->]. assert (In n (List.filter (fun n => bool_decide (N !! n = None)) example_places)) as Hin
    by (rewrite E; by left).
  apply List.filter_In in Hin as [Hin Hn]. rewrite list_elem_of_In. by apply bool_decide_eq_true_1 in Hn.
Qed.

Lemma example_new_node_ok : new_node_ok example_params example_new_node 8 8.
Proof.
  split.
  - intros N Hs. unfold example_new_node. destruct (List.filter _ example_places) as [|m l] eqn:E; [|done].
    exfalso. assert (list_to_set example_places ⊆ dom N) as Hsub.
    { intros n Hn. apply elem_of_list_to_set in Hn. apply elem_of_dom, not_eq_None_Some. intros Hno.
      assert (In n []) as []. rewrite <- E. apply List.filter_In. split; [by apply list_elem_of_In|].
      by apply bool_decide_eq_true_2. }
    apply subseteq_size in Hsub. rewrite size_dom in Hsub. change (size (list_to_set example_places : gset Z)) with 8%nat in Hsub. lia.
  - intros N n H. by apply example_new_node_in in H as [_ H].
  - intros N n H. apply example_new_node_in in H as [H _]. unfold example_places, ObjectPool.Object, nullptr in *.
    set_unfold. lia.
  - intros N n H. apply example_new_node_in in H as [H _]. unfold example_places in H. set_unfold.
    destruct_or!; by subst.
Qed.

(** Four objects, one of them in an overflow node; the destructor of the second
    releases the fourth and acquires a fifth. *)
Definition example_script : list oop :=
  [OAcquire false; OAcquire false; OAcquire true; OAcquire false; OAcquire false;
   ORelease 1 [ORelease 3 []; OAcquire false]; ORelease 0 []].

Lemma object_pool_one_life_per_object_witness :
  exists p hs, oexec_all example_params example_new_node 8 example_script (new_pool example_params) [] = Val (p, hs) /\
    length hs = 5%nat /\ destroy_pool example_params p = Panic.
Proof.
  destruct (object_pool_one_life_per_object example_params example_new_node 8 8 example_script
    [Dead; Dead; Live; Dead; Live] example_params_ok example_new_node_ok eq_refl ltac:(done)) as (p & hs & E & Hl & _ & _ & Hd & _).
  exists p, hs. split; [exact E|]. split; [exact Hl | exact Hd].
Defined.

End ObjectPoolProps.
