(* ===== verification/Timers.v ===== *)
(** * Timers, the ordered index and the interfaces of the timer queues
    (include/alyrn/detail/timer.h, include/alyrn/detail/timer_index.h,
    include/alyrn/time/clock.h, include/alyrn/time/timer_id.h)

    A [Timer] is an object of the heap, named by its address; the index links
    timers through an intrusive hook. A callback is arbitrary user code; what
    matters of it is the calls it makes on the queue that runs it, so it is a
    finite interaction: it may add timers, cancel them, read the clock, let time
    pass, and choose how to go on by the answers.

    Times and durations are counts of nanoseconds of the steady clock. The clock
    advances between the operations of a script and inside callbacks. *)

From S2P Require Import Prelude RBTree RBTreeRep RBTreeOrder RBTreeProps MemoryPool MemoryPoolProps ObjectPool ObjectPoolProps.
From Stdlib Require Import Sorting.Sorted.

Import RBTreeRep RBTreeOrder.

Module Timers.

Definition kNanosPerMicro : Z := 1000.
Definition nullptr : Z := 0.

(** TimerId, by its sequence number. *)
Definition kInvalid : Z := -1.
Definition TimerId_Valid (sequence : Z) : bool := negb (sequence =? kInvalid).

Inductive callback :=
| CReturn
| CAddTimer (cb : callback) (when interval : Z) (k : ResultE Z -> callback)
| CCancel (id : Z) (k : ResultE unit -> callback)
| CNow (k : Z -> callback)
| CElapse (d : BinNums.N) (k : callback).

Record Timer := mkTimer {
  timer_callback_ : option callback;  (* a [std::function], possibly empty *)
  expiration_ : Z;
  interval_ : Z;
  repeat_ : bool;
  sequence_ : Z;
}.

(** The constructor; [sequence] comes from the shared counter. *)
Definition new_Timer (callback : option callback) (when interval sequence : Z) : Timer :=
  mkTimer callback when interval (0 <? interval) sequence.

Definition expiration (t : Timer) : Z := expiration_ t.
Definition repeat (t : Timer) : bool := repeat_ t.
Definition sequence (t : Timer) : Z := sequence_ t.

Definition Restart (t : Timer) (now : Z) : Timer :=
  mkTimer (timer_callback_ t) (now + interval_ t) (interval_ t) (repeat_ t) (sequence_ t).

(** What [Run] invokes. *)
Definition Run (t : Timer) : callback := default CReturn (timer_callback_ t).

(** The order of the index, on timer objects. *)
Definition timer_less (a b : Timer) : bool :=
  if expiration a <? expiration b then true
  else if expiration b <? expiration a then false
  else sequence a <? sequence b.

Abbreviation store := (gmap Z Timer).

Definition no_timer : Timer := mkTimer None 0 0 false 0.

(** TimerLess dereferences its arguments. *)
Definition TimerLess (st : store) (a b : Z) : bool :=
  timer_less (default no_timer (st !! a)) (default no_timer (st !! b)).

Lemma timer_less_spec a b : timer_less a b = true <->
  expiration a < expiration b \/ expiration a = expiration b /\ sequence a < sequence b.
Proof.
  unfold timer_less. destruct (Z.ltb_spec (expiration a) (expiration b)); [lia|].
  destruct (Z.ltb_spec (expiration b) (expiration a)); [lia|]. rewrite Z.ltb_lt. lia.
Qed.

#[global] Instance TimerLess_order st : StrictWeakOrder (TimerLess st).
Proof.
  split; unfold TimerLess; intros.
  - apply not_true_iff_false. rewrite timer_less_spec. lia.
  - rewrite timer_less_spec in *. lia.
  - rewrite !timer_less_spec in *. lia.
Qed.

(** ** The index interface

    What a timer queue needs of [TimerIndex]. [pop_loop] is the loop of
    ExtractPrefix with a callback that may use the index. [construct] and
    [destroy] stand for the life of the hook inside a timer object. *)

Class TimerIndexOps (Ix : Type) := {
  idx_Empty : Ix -> bool;
  idx_Earliest : Ix -> outcome Z;
  idx_Insert : (Z -> Z -> bool) -> Ix -> Z -> outcome (Ix * bool);
  idx_Erase : Ix -> Z -> outcome (Ix * bool);
  idx_Clear : Ix -> outcome Ix;
  idx_pop_loop : forall W, nat -> (W -> Z -> bool) -> (Ix -> W -> Z -> outcome (Ix * W)) ->
    Ix -> W -> Z -> outcome (Ix * W * Z);
  idx_construct : Ix -> Z -> Ix;
  idx_destroy : Ix -> Z -> Ix;
}.

(** PopWhile with a callback. *)
Definition PopWhile `{TimerIndexOps Ix} {W} (fuel : nat) (pred : W -> Z -> bool)
    (on_pop : Ix -> W -> Z -> outcome (Ix * W)) (i : Ix) (w : W) : outcome (Ix * W * Z) :=
  idx_pop_loop W fuel pred on_pop i w 0.

Definition pop_body `{TimerIndexOps Ix} {W} (again : Ix -> W -> Z -> outcome (Ix * W * Z)) (pred : W -> Z -> bool)
    (on_pop : Ix -> W -> Z -> outcome (Ix * W)) (i : Ix) (w : W) (popped : Z) : outcome (Ix * W * Z) :=
  if idx_Empty i then Val (i, w, popped) else
  elem ← idx_Earliest i;
  if negb (pred w elem) then Val (i, w, popped) else
  '(i, erased) ← idx_Erase i elem;
  ALYRN_CHECK erased;;
  '(i, w) ← on_pop i w elem;
  again i w (usize (popped + 1)).

(** The laws: with the timer objects [A] constructed, the index holds the
    sequence [l], sorted by the order given. [region] are the addresses at which
    timers may be placed. *)
Class TimerIndex (Ix : Type) `{!TimerIndexOps Ix} (region : Z -> Prop) := {
  holds : (Z -> Z -> bool) -> Ix -> gset Z -> list Z -> Prop;
  region_null : ~ region nullptr;
  holds_in less i A l : holds less i A l -> NoDup l /\ sorted less l /\
    (forall a, a ∈ l -> a ∈ A) /\ (forall a, a ∈ A -> region a);
  holds_order less less' i A l : StrictWeakOrder less' -> holds less i A l ->
    (forall a b, a ∈ l -> b ∈ l -> less a b = less' a b) -> holds less' i A l;
  idx_Empty_ok less i A l : holds less i A l -> idx_Empty i = bool_decide (l = []);
  idx_Earliest_ok less i A l : StrictWeakOrder less -> holds less i A l -> idx_Earliest i = Val (default nullptr (head l));
  idx_Insert_ok less i A l a : StrictWeakOrder less -> holds less i A l -> a ∈ A -> (a ∉ l) ->
    exists i', idx_Insert less i a = Val (i', true) /\ holds less i' A (insert_sorted less a l);
  idx_Erase_ok less i A l a : StrictWeakOrder less -> holds less i A l -> a ∈ l ->
    exists i', idx_Erase i a = Val (i', true) /\ holds less i' A (List.filter (fun x => negb (x =? a)) l);
  idx_Clear_ok less i A l : StrictWeakOrder less -> holds less i A l ->
    exists i', idx_Clear i = Val i' /\ holds less i' A [];
  idx_construct_ok less i A l a : holds less i A l -> (a ∉ A) -> region a ->
    holds less (idx_construct i a) ({[a]} ∪ A) l;
  idx_destroy_ok less i A l a : holds less i A l -> a ∈ A -> (a ∉ l) ->
    holds less (idx_destroy i a) (A ∖ {[a]}) l;
  idx_pop_loop_eq W fuel pred on_pop i w popped :
    idx_pop_loop W (S fuel) pred on_pop i w popped =
      pop_body (idx_pop_loop W fuel pred on_pop) pred on_pop i w popped;
}.

(** ** The pool interface: where timer objects come from *)

Class TimerPoolOps (Pl : Type) := {
  pool_Acquire : Pl -> outcome (Pl * Z);
  pool_Release : Pl -> Z -> outcome Pl;
}.

(** The pool has room for a number of live timers, at addresses of the region. *)
Class TimerPool (Pl : Type) `{!TimerPoolOps Pl} (region : Z -> Prop) (room : Z) := {
  pool_live : Pl -> gset Z -> Prop;
  pool_Acquire_ok p L : pool_live p L -> Z.of_nat (size L) < room ->
    exists p' a, pool_Acquire p = Val (p', a) /\ (a ∉ L) /\ region a /\ pool_live p' ({[a]} ∪ L);
  pool_Release_ok p L a : pool_live p L -> a ∈ L ->
    exists p', pool_Release p a = Val p' /\ pool_live p' (L ∖ {[a]});
}.

(** ** The red-black tree is such an index *)

Section rbtree.
Context (header : Z).

(** Timers are objects apart from the tree's own sentinel. *)
Definition rb_region (a : Z) : Prop := is_addr a /\ a <> header.

#[global] Instance rbtree_ops : TimerIndexOps (gmap Z RBTree.node * RBTree.tree) := {
  idx_Empty '(h, t) := RBTree.Empty t;
  idx_Earliest '(h, t) := RBTree.Earliest h t;
  idx_Insert less '(h, t) a := '(h, t, b) ← RBTree.Insert less h t a; Val ((h, t), b);
  idx_Erase '(h, t) a := '(h, t, b) ← RBTree.Erase h t a; Val ((h, t), b);
  idx_Clear '(h, t) := '(h, t) ← RBTree.Clear h t; Val (h, t);
  idx_pop_loop W fuel pred on_pop '(h, t) w popped :=
    '(h, t, w, n) ← RBTree.extract_loop fuel pred
      (fun h t w a => '((h, t), w) ← on_pop (h, t) w a; Val (h, t, w)) h t w popped;
    Val ((h, t), w, n);
  idx_construct '(h, t) a := (<[a := RBTree.node_clear_hook]> h, t);
  idx_destroy '(h, t) a := (delete a h, t);
}.

Import RBTreeProps.

Definition rb_holds (less : Z -> Z -> bool) (i : gmap Z RBTree.node * RBTree.tree) (A : gset Z) (l : list Z) : Prop :=
  rb_state less A i.1 i.2 l /\ RBTree.sentinel i.2 = header /\ header <> nullptr.

Lemma rb_state_order less less' A h t l :
  rb_state less A h t l -> (forall a b, a ∈ l -> b ∈ l -> less a b = less' a b) -> rb_state less' A h t l.
Proof.
  intros [(T & n & HF & HT & Hrb & HTb & Hsz & HS) He Ha Hf] Hag. split; auto.
  exists T, n. split_and!; auto. clear -HS Hag. induction l as [|a l IH]; [constructor|].
  unfold sorted in *. inversion HS as [|? ? HS' HF]; subst. constructor.
  - apply IH; [done|]. intros; apply Hag; set_solver.
  - rewrite Forall_forall in HF |- *. intros x Hx. rewrite <- Hag by set_solver. by apply HF.
Qed.

(** A change of the heap outside of the tree. *)
Lemma rb_state_heap less A A' h h' t l :
  rb_state less A h t l -> (forall x, x ∈ RBTree.sentinel t :: l -> h' !! x = h !! x) ->
  (forall e, e ∈ l -> e ∈ A') -> (forall e, e ∈ A' -> is_addr e /\ e <> RBTree.sentinel t) ->
  (forall e, e ∈ A' -> (e ∉ l) -> h' !! e = Some unlinked) -> rb_state less A' h' t l.
Proof.
  intros [(T & n & HF & HT & Hrb & HTb & Hsz & HS) He Ha Hf] Hag H1 H2 H3. split; auto.
  exists T, n. split_and!; auto. destruct HF as [K1 K2 K3]. split; [| |done].
  - eapply rep_frame; [|exact K1]. intros x Hx. apply Hag. rewrite <- HT. set_solver.
  - eapply repc_frame; [|exact K2]. intros x Hx. apply Hag. simpl in Hx. set_solver.
Qed.

#[global] Instance rbtree_index : TimerIndex (gmap Z RBTree.node * RBTree.tree) rb_region.
Proof.
  refine {| holds := rb_holds |}.
  - intros [[H _] _]. unfold nullptr in H. lia.
  - intros less [h t] A l (HS & Hh & _). cbn in *. pose proof HS as [H1 H2 H3 H4].
    split_and!; [by eapply tree_holds_nodup | | done | intros a Ha; unfold rb_region; rewrite <- Hh; by apply H3].
    by destruct H1 as (T & n & _ & _ & _ & _ & _ & HS').
  - intros less less' [h t] A l Hw (HS & Hh) Hag. split; [|done]. by eapply rb_state_order.
  - intros less [h t] A l (HS & _). cbn in *. destruct HS as [(T & n & _ & _ & _ & _ & Hsz & _) _ _ _].
    unfold RBTree.Empty. rewrite Hsz. by destruct l.
  - intros less [h t] A l Hw (HS & _). cbn in *. by apply (RBTreeProps.Earliest_ok less), HS.
  - intros less [h t] A l a Hw (HS & Hh & H0) Ha Hal. cbn [fst snd] in *.
    destruct (rb_exec_ok less A h t l (OInsert a) HS (or_intror Ha)) as (h' & t' & E & Hs & HS').
    cbn [spec] in *. assert ((a =? RBTree.nullptr) || bool_decide (a ∈ l) = false) as Hf.
    { rewrite bool_decide_eq_false_2 by done. rewrite orb_false_r. apply Z.eqb_neq.
      destruct (rb_addr _ _ _ _ _ HS a Ha) as [[? _] _]. unfold RBTree.nullptr. lia. }
    rewrite Hf in *. cbn [exec fst snd] in *. apply bind_Val_inv in E as ([[h1 t1] b] & E & Eq).
    injection Eq as -> -> ->. exists (h', t'). cbn. rewrite E, bind_val. split; [done|].
    split_and!; [done | cbn; congruence | done].
  - intros less [h t] A l a Hw (HS & Hh & H0) Hal. cbn [fst snd] in *.
    assert (a ∈ A) as Ha by (by apply (rb_elems _ _ _ _ _ HS)).
    destruct (rb_exec_ok less A h t l (OErase a) HS (or_intror Ha)) as (h' & t' & E & Hs & HS').
    cbn [exec spec fst snd] in *. apply bind_Val_inv in E as ([[h1 t1] b] & E & Eq).
    rewrite bool_decide_eq_true_2 in Eq by done. injection Eq as -> -> ->.
    exists (h', t'). cbn. rewrite E, bind_val. split; [done|]. split_and!; [done | cbn; congruence | done].
  - intros less [h t] A l Hw (HS & Hh & H0). cbn [fst snd] in *.
    destruct (rb_exec_ok less A h t l OClear HS Logic.I) as (h' & t' & E & Hs & HS').
    cbn [exec spec fst snd] in *. apply bind_Val_inv in E as ([h1 t1] & E & Eq). injection Eq as -> ->.
    exists (h', t'). cbn. rewrite E, bind_val. split; [done|]. split_and!; [done | cbn; congruence | done].
  - intros less [h t] A l a (HS & Hh & H0) HaA [Haddr Hah]. cbn [fst snd] in *. split_and!; [|done|done].
    cbn. subst header. pose proof HS as [H1 H2 H3 H4]. eapply rb_state_heap; [exact HS| | | |].
    + intros x Hx. rewrite lookup_insert_ne; [done|]. intros <-. apply elem_of_cons in Hx as [Hx|Hx]; [done|].
      by apply HaA, H2.
    + set_solver.
    + intros e [->%elem_of_singleton|He]%elem_of_union; [done | by apply H3].
    + intros e He Hel. destruct (decide (e = a)) as [->|Hne]; [by rewrite lookup_insert_eq|].
      rewrite lookup_insert_ne by done. apply H4; [set_solver | done].
  - intros less [h t] A l a (HS & Hh & H0) HaA Hal. cbn [fst snd] in *. split_and!; [|done|done].
    cbn. subst header. pose proof HS as [H1 H2 H3 H4]. destruct (H3 a HaA) as [_ Hah].
    eapply rb_state_heap; [exact HS| | | |].
    + intros x Hx. rewrite lookup_delete_ne; [done|]. intros <-. apply elem_of_cons in Hx as [Hx|Hx]; done.
    + intros e He. specialize (H2 e He). set_solver.
    + intros e He. apply H3. set_solver.
    + intros e He Hel. rewrite lookup_delete_ne by set_solver. apply H4; [set_solver | done].
  - intros W fuel pred on_pop [h t] w popped. cbn. unfold pop_body. cbn.
    destruct (RBTree.Empty t); [done|]. destruct (RBTree.Earliest h t) as [e|]; [|done]. cbn.
    destruct (pred w e); [|done]. cbn. destruct (RBTree.Erase h t e) as [[[h1 t1] b]|]; [|done]. cbn.
    destruct b; [|done]. cbn. destruct (on_pop (h1, t1) w e) as [[[h2 t2] w2]|]; [|done]. done.
Defined.

End rbtree.

(** ** The object pool is such a pool *)

Section objects.
Context (P : MemoryPool.params) (new_node : gmap Z Z -> option Z) (storage_offset : Z).

(** The constructor of a timer does not throw, and its destructor does not use
    the pool. *)
#[global] Instance object_pool_ops : TimerPoolOps ObjectPool.opool := {
  pool_Acquire p :=
    '(p, r) ← ObjectPool.Acquire P new_node storage_offset p false;
    match r with ObjectPool.Acquired a => Val (p, a) | ObjectPool.Threw => Panic end;
  pool_Release p a :=
    '(p, _) ← ObjectPool.Release P storage_offset (fun p => Val (p, tt)) p a; Val p;
}.

Context (region : Z -> Prop) (room : Z).

(** The storage the pool hands out lies in the region. *)
Record storage_in_region : Prop := {
  sr_params : MemoryPoolProps.params_ok P;
  sr_new : ObjectPoolProps.new_node_ok P new_node storage_offset room;
  sr_slots s : 0 <= s < MemoryPool.kCapacity P -> region (MemoryPoolProps.slot_addr P s);
  sr_nodes N n : new_node N = Some n -> region (ObjectPool.Object storage_offset n);
}.

Lemma object_pool_laws : storage_in_region -> TimerPool ObjectPool.opool region room.
Proof.
  intros HR. refine {| pool_live p L := ObjectPoolProps.holds P storage_offset p L ∅ |};
    destruct HR as [HP HN Hs Hn].
  - intros p L H Hr. destruct (ObjectPoolProps.Acquire_ok P HP new_node storage_offset room HN p L ∅ false H)
      as (p' & x & E & Hx). destruct x as [a|]; [|rewrite size_empty in Hx; destruct Hx as [[?|?] _]; [done | lia]].
    destruct Hx as (_ & _ & HL & _ & H' & Ha). exists p', a. cbn. rewrite E, bind_val.
    split_and!; [done | done | | done]. destruct Ha as [(s & Hs' & ->)|(N & n & Hnew & ->)]; eauto.
  - intros p L a H Ha. destruct (ObjectPoolProps.Release_ok P HP new_node storage_offset room HN (fun p => Val (p, tt)) p L ∅ a
      (fun _ L' D' => L' = L ∖ {[a]} /\ D' = ∅) H Ha) as (p' & w & L' & D' & E & H' & -> & ->).
    + intros p1 H1. exists p1, tt, (L ∖ {[a]}), ({[a]} ∪ ∅). split_and!; [done | done | set_solver | done | set_solver].
    + exists p'. cbn. rewrite E, bind_val. done.
Defined.

End objects.

End Timers.
