(* ===== verification/Multiset.v ===== *)
(** * The multiset extension of a well-founded relation

    Replacing one element of a list by any number of smaller ones, and dropping
    elements, terminates. Loops whose body may add work use it as their measure. *)

From S2P Require Import Prelude.

Module Multiset.

Section multiset.
Context {A : Type} (R : A -> A -> Prop).

Definition mless (l' l : list A) : Prop :=
  exists x l1 ys, l ≡ₚ x :: l1 /\ l' ⊆+ ys ++ l1 /\ forall y, y ∈ ys -> R y x.

Lemma mless_sub l'' l' l : mless l'' l' -> l' ⊆+ l -> mless l'' l.
Proof.
  intros (x & l1 & ys & Hp & Hs & HR) Hl. apply submseteq_Permutation in Hl as [k Hk].
  exists x, (l1 ++ k), ys. split_and!; [by rewrite Hk, Hp | | done].
  rewrite Hs, app_assoc. apply submseteq_inserts_r. done.
Qed.

Lemma Acc_sub l l' : Acc mless l -> l' ⊆+ l -> Acc mless l'.
Proof. intros [H] Hs. constructor. intros l'' Hl. apply H. by eapply mless_sub. Qed.

Lemma Acc_app_smaller x l ys :
  (forall y, R y x -> forall l, Acc mless l -> Acc mless (y :: l)) -> Acc mless l ->
  (forall y, y ∈ ys -> R y x) -> Acc mless (ys ++ l).
Proof.
  intros Hx Hl. induction ys as [|y ys IH]; intros Hys; [done|]. simpl. apply Hx; [apply Hys; set_solver|].
  apply IH. intros; apply Hys; set_solver.
Qed.

Lemma Acc_cons x : Acc R x -> forall l, Acc mless l -> Acc mless (x :: l).
Proof.
  intros HR. induction HR as [x _ IHx]. intros l HW. pose proof HW as HW0. induction HW as [l HW IHl].
  constructor. intros l'' (z & l1 & ys & Hp & Hs & HR').
  destruct (Permutation_cons_inv_r _ _ _ Hp) as (k1 & k2 & Heq & Hk).
  destruct k1 as [|w k1]; injection Heq as -> ->.
  - eapply Acc_sub; [|exact Hs]. apply Acc_app_smaller with (x := z); [done | | done].
    eapply Acc_sub; [exact HW0|]. simpl in Hk. by rewrite Hk.
  - eapply Acc_sub; [apply (IHl (ys ++ k1 ++ k2))|].
    + exists z, (k1 ++ k2), ys. split_and!; [by rewrite Permutation_middle | done | done].
    + apply HW. exists z, (k1 ++ k2), ys. split_and!; [by rewrite Permutation_middle | done | done].
    + rewrite Hs, Hk. simpl. by rewrite (Permutation_middle ys (k1 ++ k2)).
Qed.

Theorem mless_wf : well_founded R -> well_founded mless.
Proof.
  intros HR l. induction l as [|x l IH].
  - constructor. intros l' (x & l1 & ys & Hp & _). by apply Permutation_nil_cons in Hp.
  - by apply Acc_cons.
Qed.

End multiset.

End Multiset.
