(* ===== verification/TimerAgenda.v ===== *)
(** * The agenda: what a timer queue promises

    An abstract timer queue: the pending timers in order, the identity of the
    timer whose callback runs, the clock, the sequence counter, and the record of
    the timers fired. No addresses, no pool. What drives the queue from outside
    is an abstract backend, which is told the earliest expiration after every
    change and may refuse an addition. The queues of both I/O backends are shown
    to behave like the agenda; here are the facts about it, among them that
    draining the due timers terminates even though callbacks may add timers that
    are already due. *)

From S2P Require Import Prelude Timers Multiset.
From Stdlib Require Import Sorting.Sorted.

Import Timers Multiset.

Module TimerAgenda.

(** Insertion behind the timers that are not later. *)
Fixpoint insert_timer (t : Timer) (l : list Timer) : list Timer :=
  match l with
  | [] => [t]
  | x :: l => if timer_less t x then t :: x :: l else x :: insert_timer t l
  end.

Definition drop_timer (id : Z) (l : list Timer) : list Timer :=
  List.filter (fun t => negb (sequence t =? id)) l.

Definition has_timer (id : Z) (l : list Timer) : bool := existsb (fun t => sequence t =? id) l.

Definition earliest (l : list Timer) : option Z := expiration <$> head l.

#[global] Arguments has_timer : simpl never.
#[global] Arguments drop_timer : simpl never.

(** What drives the queue. *)
Class Backend (D : Type) := {
  (* a timer was added; the addition is refused with an error *)
  bk_added : D -> option Z -> D * option Error;
  (* a timer was removed *)
  bk_cancelled : D -> option Z -> D;
  (* what Cancel answers: was the timer pending, or is it in its callback? *)
  bk_answer : bool -> option Timer -> ResultE unit;
  (* events from outside: an event that applies may fire the due timers, and the
     backend goes on from what is left *)
  bk_event : Type;
  bk_begin : D -> bk_event -> option (D * bool);
  bk_end : D -> bk_event -> option Z -> D;
}.

Section agenda.
Context {D : Type} `{!Backend D}.

Record agenda := mkAgenda {
  pending : list Timer;
  running : option Timer;   (* the timer in its callback *)
  run_cancelled : bool;     (* it was cancelled meanwhile *)
  now : Z;
  next_sequence : Z;
  fired : list (Z * Z);     (* sequence and expiration of the timers fired so far *)
  backend : D;
}.

Definition set_pending (ag : agenda) (l : list Timer) : agenda :=
  mkAgenda l (running ag) (run_cancelled ag) (now ag) (next_sequence ag) (fired ag) (backend ag).
Definition set_running (ag : agenda) (r : option Timer) (c : bool) : agenda :=
  mkAgenda (pending ag) r c (now ag) (next_sequence ag) (fired ag) (backend ag).
Definition set_now (ag : agenda) (t : Z) : agenda :=
  mkAgenda (pending ag) (running ag) (run_cancelled ag) t (next_sequence ag) (fired ag) (backend ag).
Definition set_backend (ag : agenda) (d : D) : agenda :=
  mkAgenda (pending ag) (running ag) (run_cancelled ag) (now ag) (next_sequence ag) (fired ag) d.
Definition set_next (ag : agenda) (n : Z) : agenda :=
  mkAgenda (pending ag) (running ag) (run_cancelled ag) (now ag) n (fired ag) (backend ag).

Definition ag_add (ag : agenda) (cb : option callback) (when interval : Z) : agenda * ResultE Z :=
  let id := next_sequence ag in
  let l := insert_timer (new_Timer cb when interval id) (pending ag) in
  let '(d, refused) := bk_added (backend ag) (earliest l) in
  let ag := set_backend (set_next ag (id + 1)) d in
  match refused with
  | None => (set_pending ag l, Ok id)
  | Some e => (ag, Err e)
  end.

Definition ag_cancel (ag : agenda) (id : Z) : agenda * ResultE unit :=
  if has_timer id (pending ag) then
    let l := drop_timer id (pending ag) in
    (set_backend (set_pending ag l) (bk_cancelled (backend ag) (earliest l)), bk_answer true None)
  else match running ag with
  | Some t => if sequence t =? id then (set_running ag (Some t) true, bk_answer false (Some t))
              else (ag, bk_answer false None)
  | None => (ag, bk_answer false None)
  end.

Fixpoint ag_run (cb : callback) (ag : agenda) : agenda :=
  match cb with
  | CReturn => ag
  | CAddTimer cb when interval k => let '(ag, r) := ag_add ag (Some cb) when interval in ag_run (k r) ag
  | CCancel id k => let '(ag, r) := ag_cancel ag id in ag_run (k r) ag
  | CNow k => ag_run (k (now ag)) ag
  | CElapse d k => ag_run k (set_now ag (now ag + Z.of_N d))
  end.

(** One timer is taken off the agenda and fired at time [at]. *)
Definition ag_start (ag : agenda) (t : Timer) (rest : list Timer) : agenda :=
  mkAgenda rest (Some t) false (now ag) (next_sequence ag) (fired ag ++ [(sequence t, expiration t)]) (backend ag).

Definition ag_finish (ag : agenda) (t : Timer) (at_ : Z) : agenda :=
  let again := repeat t && negb (run_cancelled ag) in
  let ag := set_running ag None false in
  if again then set_pending ag (insert_timer (Restart t at_) (pending ag)) else ag.

(** All timers due at [at_], with their callbacks; [None] when [fuel] runs out. *)
Fixpoint ag_fire (fuel : nat) (at_ : Z) (ag : agenda) : option agenda :=
  match fuel with
  | O => None
  | S fuel =>
      match pending ag with
      | [] => Some ag
      | t :: rest =>
          if expiration t <=? at_ then
            ag_fire fuel at_ (ag_finish (ag_run (Run t) (ag_start ag t rest)) t at_)
          else Some ag
      end
  end.

(** ** Termination *)

(** [spawns c p]: running [p] may add a timer with the callback [c]. *)
Inductive spawns (c : callback) : callback -> Prop :=
| spawn_here w i k : spawns c (CAddTimer c w i k)
| spawn_add cb w i k r : spawns c (k r) -> spawns c (CAddTimer cb w i k)
| spawn_cancel id k r : spawns c (k r) -> spawns c (CCancel id k)
| spawn_now k t : spawns c (k t) -> spawns c (CNow k)
| spawn_elapse d k : spawns c k -> spawns c (CElapse d k).

Lemma spawns_wf : well_founded spawns.
Proof.
  intros cb. induction cb as [|cb IHcb w i k IHk|id k IHk|k IHk|d k IHk]; constructor; intros c H;
    inversion H; subst; auto.
  - by apply (IHk r).
  - by apply (IHk r).
  - by apply (IHk t).
  - by apply IHk.
Qed.

Lemma insert_timer_perm t l : insert_timer t l ≡ₚ t :: l.
Proof.
  induction l as [|x l IH]; simpl; [done|]. destruct (timer_less t x); [done|]. rewrite IH. apply Permutation_swap.
Qed.

Lemma drop_timer_sub id l : drop_timer id l ⊆+ l.
Proof.
  unfold drop_timer. induction l as [|x l IH]; simpl; [done|]. destruct (negb _).
  - by apply submseteq_skip.
  - by apply submseteq_cons.
Qed.

Definition due (at_ : Z) (l : list Timer) : list callback :=
  map Run (List.filter (fun t => expiration t <=? at_) l).

Lemma filter_sub {A} (f : A -> bool) l l' : l ⊆+ l' -> List.filter f l ⊆+ List.filter f l'.
Proof.
  induction 1 as [|x l l' _ IH|x y l|x l l' _ IH|l l' l'' _ IH1 _ IH2]; simpl.
  - done.
  - destruct (f x); [by apply submseteq_skip | done].
  - destruct (f x), (f y); try done. apply submseteq_swap.
  - destruct (f x); [by apply submseteq_cons | done].
  - by etrans.
Qed.

Lemma map_sub {A B} (f : A -> B) l l' : l ⊆+ l' -> map f l ⊆+ map f l'.
Proof.
  induction 1; simpl; [done | by apply submseteq_skip | apply submseteq_swap | by apply submseteq_cons | by etrans].
Qed.

Lemma due_sub at_ l l' : l ⊆+ l' -> due at_ l ⊆+ due at_ l'.
Proof. intros H. apply map_sub, filter_sub, H. Qed.

Lemma ag_add_pending ag cb w i ag' r : ag_add ag cb w i = (ag', r) ->
  pending ag' ⊆+ new_Timer cb w i (next_sequence ag) :: pending ag.
Proof.
  unfold ag_add. destruct (bk_added _ _) as [d [e|]]; intros [= <- <-]; cbn.
  - by apply submseteq_cons.
  - by rewrite insert_timer_perm.
Qed.

Lemma ag_cancel_pending ag id : pending (ag_cancel ag id).1 ⊆+ pending ag.
Proof. unfold ag_cancel. repeat case_match; cbn; done || apply drop_timer_sub. Qed.

(** A callback adds timers it spawns and drops others. *)
Lemma ag_run_pending cb ag : exists new,
  pending (ag_run cb ag) ⊆+ new ++ pending ag /\
  (forall t, t ∈ new -> repeat t = (0 <? interval_ t) /\ exists c, timer_callback_ t = Some c /\ spawns c cb).
Proof.
  revert ag. induction cb as [|cb IHcb w i k IHk|id k IHk|k IHk|d k IHk]; intros ag; cbn [ag_run].
  - exists []. split; [done | set_solver].
  - destruct (ag_add ag (Some cb) w i) as [ag1 r] eqn:Ea. destruct (IHk r ag1) as (new & Hs & Hn).
    exists (new ++ [new_Timer (Some cb) w i (next_sequence ag)]). split.
    + rewrite Hs, <- app_assoc. apply submseteq_skips_l. apply (ag_add_pending ag (Some cb) w i ag1 r Ea).
    + intros t [Ht|Ht%list_elem_of_singleton]%elem_of_app.
      * destruct (Hn t Ht) as (Hr & c & Hc & Hsp). split; [done|]. exists c. split; [done|]. by eapply spawn_add.
      * subst t. cbn. split; [done|]. exists cb. split; [done | constructor].
  - destruct (ag_cancel ag id) as [ag1 r] eqn:Ea. destruct (IHk r ag1) as (new & Hs & Hn). exists new. split.
    + rewrite Hs. apply submseteq_skips_l. replace ag1 with (ag_cancel ag id).1 by (by rewrite Ea).
      apply ag_cancel_pending.
    + intros t Ht. destruct (Hn t Ht) as (Hr & c & Hc & Hsp). split; [done|]. exists c. split; [done|].
      by eapply spawn_cancel.
  - destruct (IHk (now ag) ag) as (new & Hs & Hn). exists new. split; [done|].
    intros t Ht. destruct (Hn t Ht) as (Hr & c & Hc & Hsp). split; [done|]. exists c. split; [done|].
    by eapply spawn_now.
  - destruct (IHk (set_now ag (now ag + Z.of_N d))) as (new & Hs & Hn). exists new. split; [done|].
    intros t Ht. destruct (Hn t Ht) as (Hr & c & Hc & Hsp). split; [done|]. exists c. split; [done|].
    by apply spawn_elapse.
Qed.

(** Repeating timers have a positive interval. *)
Definition intervals_ok (l : list Timer) : Prop := forall t, t ∈ l -> repeat t = true -> 0 < interval_ t.

Lemma ag_run_intervals cb ag : intervals_ok (pending ag) -> intervals_ok (pending (ag_run cb ag)).
Proof.
  intros H t Ht Hr. destruct (ag_run_pending cb ag) as (new & Hs & Hn).
  assert (t ∈ new ++ pending ag) as Hin by (by eapply elem_of_submseteq).
  apply elem_of_app in Hin as [Hin|Hin]; [|by apply H].
  destruct (Hn t Hin) as (Hr' & _). rewrite Hr in Hr'. symmetry in Hr'. by apply Z.ltb_lt in Hr'.
Qed.

Lemma fire_step_less at_ ag t rest :
  pending ag = t :: rest -> expiration t <= at_ -> intervals_ok (pending ag) ->
  mless spawns (due at_ (pending (ag_finish (ag_run (Run t) (ag_start ag t rest)) t at_))) (due at_ (pending ag)) /\
  intervals_ok (pending (ag_finish (ag_run (Run t) (ag_start ag t rest)) t at_)).
Proof.
  intros Hp He Hi. destruct (ag_run_pending (Run t) (ag_start ag t rest)) as (new & Hs & Hn). cbn [ag_start pending] in Hs.
  assert (intervals_ok (pending (ag_start ag t rest))) as Hi1.
  { cbn. intros x Hx. apply Hi. rewrite Hp. set_solver. }
  pose proof (ag_run_intervals (Run t) _ Hi1) as Hi2. set (ag1 := ag_run (Run t) (ag_start ag t rest)) in *.
  assert (repeat t = true -> 0 < interval_ t) as Hit by (apply Hi; rewrite Hp; set_solver).
  assert (due at_ (pending (ag_finish ag1 t at_)) ⊆+ due at_ (pending ag1)) as Hfin.
  { unfold ag_finish. destruct (repeat t) eqn:Hr; [|done]. destruct (run_cancelled ag1); [done|]. cbn.
    etrans; [apply due_sub; rewrite insert_timer_perm; reflexivity|]. unfold due. cbn [List.filter].
    assert ((expiration (Restart t at_) <=? at_) = false) as ->; [|done].
    apply Z.leb_gt. cbn. specialize (Hit eq_refl). lia. }
  split.
  - exists (Run t), (due at_ rest), (due at_ new). split_and!.
    + rewrite Hp. unfold due. cbn [List.filter]. by rewrite (proj2 (Z.leb_le _ _) He).
    + rewrite Hfin. etrans; [apply due_sub, Hs|]. unfold due. rewrite List.filter_app. by rewrite map_app.
    + intros c Hc. unfold due in Hc. apply list_elem_of_fmap in Hc as (x & -> & Hx).
      apply list_elem_of_In, List.filter_In in Hx as [Hx _]. apply list_elem_of_In in Hx.
      destruct (Hn x Hx) as (_ & c & Hc & Hsp). unfold Run at 1. by rewrite Hc.
  - unfold ag_finish. destruct (repeat t && negb (run_cancelled ag1)) eqn:Hr; [|done]. cbn.
    intros x Hx. rewrite insert_timer_perm in Hx. apply elem_of_cons in Hx as [->|Hx]; [|by apply Hi2].
    cbn. apply andb_true_iff in Hr as [Hr _]. intros _. by apply Hit.
Qed.

Lemma ag_fire_terminates at_ ag : intervals_ok (pending ag) ->
  exists fuel ag', forall more, ag_fire (fuel + more) at_ ag = Some ag'.
Proof.
  remember (due at_ (pending ag)) as d eqn:Hd. revert ag Hd.
  induction (mless_wf spawns spawns_wf d) as [d _ IH]. intros ag -> Hi.
  destruct (pending ag) as [|t rest] eqn:Hp.
  { exists 1%nat, ag. intros more. simpl. by rewrite Hp. }
  destruct (Z.leb_spec (expiration t) at_) as [He|He].
  - rewrite <- Hp in *. destruct (fire_step_less at_ ag t rest Hp He Hi) as [Hl Hi'].
    destruct (IH _ Hl _ eq_refl Hi') as (fuel & ag' & Hf). exists (S fuel), ag'. intros more. simpl.
    rewrite Hp, (proj2 (Z.leb_le _ _) He). apply Hf.
  - exists 1%nat, ag. intros more. simpl. rewrite Hp, (proj2 (Z.leb_gt _ _) He). done.
Qed.

Lemma ag_fire_more fuel k at_ : forall ag ag', ag_fire fuel at_ ag = Some ag' -> ag_fire (fuel + k) at_ ag = Some ag'.
Proof.
  induction fuel as [|fuel IH]; intros ag ag' Hf; [done|]. cbn [ag_fire Nat.add] in *.
  destruct (pending ag) as [|t rest]; [done|]. destruct (expiration t <=? at_); auto.
Qed.

(** ** The invariant of the agenda *)

Definition later (x y : Timer) : Prop := timer_less y x = false.

Record ag_ok (ag : agenda) : Prop := {
  ao_sorted : StronglySorted later (pending ag);
  ao_nodup : NoDup (map sequence (pending ag));
  ao_bound t : t ∈ pending ag -> sequence t < next_sequence ag;
  ao_intervals : intervals_ok (pending ag);
  ao_running t : running ag = Some t -> sequence t < next_sequence ag /\ has_timer (sequence t) (pending ag) = false;
}.

Lemma has_timer_true id l : has_timer id l = true <-> exists t, t ∈ l /\ sequence t = id.
Proof.
  unfold has_timer. rewrite existsb_exists. split; intros (t & H1 & H2); exists t.
  - by rewrite list_elem_of_In, <- Z.eqb_eq.
  - by rewrite <- list_elem_of_In, Z.eqb_eq.
Qed.

Lemma has_timer_false id l : has_timer id l = false <-> id ∉ map sequence l.
Proof.
  rewrite <- not_true_iff_false, has_timer_true, list_elem_of_fmap. naive_solver.
Qed.

Lemma elem_of_drop id l t : t ∈ drop_timer id l <-> t ∈ l /\ sequence t <> id.
Proof.
  unfold drop_timer. rewrite !list_elem_of_In, List.filter_In, negb_true_iff, Z.eqb_neq. done.
Qed.

Lemma later_trans x y z : later x y -> later y z -> later x z.
Proof. unfold later. rewrite <- !not_true_iff_false, !timer_less_spec. lia. Qed.

Lemma insert_timer_sorted t l : StronglySorted later l -> StronglySorted later (insert_timer t l).
Proof.
  induction 1 as [|x l HS IH HF]; simpl; [repeat constructor|]. destruct (timer_less t x) eqn:E.
  - assert (later t x) as Hl.
    { unfold later. apply not_true_iff_false. rewrite timer_less_spec in *. lia. }
    constructor; [by constructor|]. constructor; [done|]. eapply Forall_impl; [done|].
    intros y Hy. by eapply later_trans.
  - constructor; [done|]. apply Forall_forall. intros y Hy. rewrite insert_timer_perm in Hy.
    apply elem_of_cons in Hy as [->|Hy]; [done|]. rewrite Forall_forall in HF. by apply HF.
Qed.

Lemma drop_timer_sorted id l : StronglySorted later l -> StronglySorted later (drop_timer id l).
Proof.
  induction 1 as [|x l HS IH HF]; [constructor|]. unfold drop_timer. cbn [List.filter].
  destruct (negb _); [|done]. constructor; [done|].
  apply Forall_forall. intros y Hy. apply elem_of_drop in Hy as [Hy _]. rewrite Forall_forall in HF. by apply HF.
Qed.

Lemma ag_insert_ok ag t :
  ag_ok ag -> sequence t < next_sequence ag -> has_timer (sequence t) (pending ag) = false ->
  (forall u, running ag = Some u -> sequence u <> sequence t) -> (repeat t = true -> 0 < interval_ t) ->
  ag_ok (set_pending ag (insert_timer t (pending ag))).
Proof.
  intros [H1 H2 H3 H4 H5] Hb Hn Hr Hi. assert (forall x, x ∈ insert_timer t (pending ag) -> x = t \/ x ∈ pending ag) as Hin.
  { intros x Hx. rewrite insert_timer_perm in Hx. by apply elem_of_cons in Hx. }
  split; cbn.
  - by apply insert_timer_sorted.
  - rewrite insert_timer_perm. cbn. apply NoDup_cons. by rewrite <- has_timer_false.
  - intros x [->|Hx]%Hin; auto.
  - intros x [->|Hx]%Hin; auto.
  - intros u Hu. destruct (H5 u Hu) as [Hlt Hno]. split; [done|]. rewrite has_timer_false in *.
    rewrite insert_timer_perm. cbn. rewrite not_elem_of_cons. split; [|done]. by apply Hr.
Qed.

Lemma ag_backend_ok ag d : ag_ok ag -> ag_ok (set_backend ag d).
Proof. intros [H1 H2 H3 H4 H5]. by split. Qed.

Lemma ag_now_ok ag t : ag_ok ag -> ag_ok (set_now ag t).
Proof. intros [H1 H2 H3 H4 H5]. by split. Qed.

Lemma ag_next_ok ag : ag_ok ag -> ag_ok (set_next ag (next_sequence ag + 1)).
Proof.
  intros [H1 H2 H3 H4 H5]. split; cbn; auto; [intros t Ht; specialize (H3 t Ht); lia|].
  intros t Ht. destruct (H5 t Ht). split; [lia|done].
Qed.

(** The new timer can be inserted. *)
Lemma ag_insert_new_ok ag cb w i (t := new_Timer cb w i (next_sequence ag)) : ag_ok ag ->
  ag_ok (set_pending (set_next ag (next_sequence ag + 1)) (insert_timer t (pending ag))).
Proof.
  intros H. pose proof H as [H1 H2 H3 H4 H5]. apply (ag_insert_ok _ t (ag_next_ok ag H)); cbn.
  - lia.
  - apply has_timer_false. intros (x & Hs & Hx)%list_elem_of_fmap. specialize (H3 x Hx). lia.
  - intros u Hu. destruct (H5 _ Hu). lia.
  - apply Z.ltb_lt.
Qed.

Lemma ag_add_ok ag cb w i : ag_ok ag -> ag_ok (ag_add ag cb w i).1.
Proof.
  intros H. unfold ag_add. destruct (bk_added _ _) as [d [e|]]; cbn.
  - by apply ag_backend_ok, ag_next_ok.
  - by apply (ag_backend_ok _ d (ag_insert_new_ok ag cb w i H)).
Qed.

(** What adding and cancelling leave alone. *)
Lemma ag_add_frame ag cb w i (ag' := (ag_add ag cb w i).1) :
  running ag' = running ag /\ run_cancelled ag' = run_cancelled ag /\ now ag' = now ag /\
  next_sequence ag' = next_sequence ag + 1 /\ fired ag' = fired ag.
Proof. subst ag'. unfold ag_add. by destruct (bk_added _ _) as [d [e|]]. Qed.

Lemma ag_cancel_frame ag id (ag' := (ag_cancel ag id).1) :
  running ag' = running ag /\ now ag' = now ag /\ next_sequence ag' = next_sequence ag /\ fired ag' = fired ag.
Proof. subst ag'. unfold ag_cancel. by repeat case_match. Qed.

Lemma ag_drop_ok ag id : ag_ok ag -> ag_ok (set_pending ag (drop_timer id (pending ag))).
Proof.
  intros [H1 H2 H3 H4 H5]. split; cbn.
  - by apply drop_timer_sorted.
  - destruct (submseteq_Permutation _ _ (map_sub sequence _ _ (drop_timer_sub id (pending ag)))) as [k Hk].
    rewrite Hk in H2. by apply NoDup_app in H2 as [? _].
  - intros t [Ht _]%elem_of_drop. auto.
  - intros t [Ht _]%elem_of_drop. auto.
  - intros i Hi. destruct (H5 i Hi) as [? Hn]. split; [done|]. rewrite has_timer_false in *.
    intros (x & Hs & Hx)%list_elem_of_fmap. apply elem_of_drop in Hx as [Hx _]. apply Hn.
    apply list_elem_of_fmap. eauto.
Qed.

Lemma ag_cancel_ok ag id : ag_ok ag -> ag_ok (ag_cancel ag id).1.
Proof.
  intros H. unfold ag_cancel. destruct (has_timer id (pending ag)); cbn.
  - by apply (ag_backend_ok _ _ (ag_drop_ok ag id H)).
  - destruct (running ag) as [t|] eqn:E; [|done]. destruct (sequence t =? id); [|done].
    destruct H as [H1 H2 H3 H4 H5]. split; cbn; try done. intros u [= <-]. by apply H5.
Qed.

(** What a callback leaves alone. *)
Lemma ag_run_ok cb : forall ag, ag_ok ag ->
  ag_ok (ag_run cb ag) /\ running (ag_run cb ag) = running ag /\ fired (ag_run cb ag) = fired ag /\
  next_sequence ag <= next_sequence (ag_run cb ag) /\ now ag <= now (ag_run cb ag).
Proof.
  induction cb as [|cb IHcb w i k IHk|id k IHk|k IHk|d k IHk]; intros ag Hok; cbn [ag_run].
  - split_and!; done || lia.
  - pose proof (ag_add_ok ag (Some cb) w i Hok) as Hok'. pose proof (ag_add_frame ag (Some cb) w i) as (E1 & _ & E2 & E3 & E4).
    destruct (ag_add ag (Some cb) w i) as [ag1 r]. cbn in *. destruct (IHk r _ Hok') as (K1 & K2 & K3 & K4 & K5).
    split_and!; congruence || lia || done.
  - pose proof (ag_cancel_ok ag id Hok) as Hok'. pose proof (ag_cancel_frame ag id) as (E1 & E2 & E3 & E4).
    destruct (ag_cancel ag id) as [ag1 r]. cbn in *. destruct (IHk r _ Hok') as (K1 & K2 & K3 & K4 & K5).
    split_and!; congruence || lia || done.
  - by apply IHk.
  - destruct (IHk _ (ag_now_ok ag (now ag + Z.of_N d) Hok)) as (K1 & K2 & K3 & K4 & K5). cbn in *. split_and!; try done. lia.
Qed.

Lemma ag_start_ok ag t rest : ag_ok ag -> pending ag = t :: rest -> ag_ok (ag_start ag t rest).
Proof.
  intros [H1 H2 H3 H4 H5] Hp. rewrite Hp in *. inversion H1; subst. apply NoDup_cons in H2 as [H2 H2'].
  split; cbn; auto.
  - intros x Hx. apply H3. set_solver.
  - intros x Hx. apply H4. set_solver.
  - intros u [= <-]. split; [apply H3; set_solver | by apply has_timer_false].
Qed.

Lemma ag_finish_ok ag t at_ :
  ag_ok ag -> running ag = Some t -> (repeat t = true -> 0 < interval_ t) -> ag_ok (ag_finish ag t at_).
Proof.
  intros Hok Hr Hi. pose proof Hok as [H1 H2 H3 H4 H5]. destruct (H5 _ Hr) as [Hlt Hn].
  assert (ag_ok (set_running ag None false)) as Hok' by (by split).
  unfold ag_finish. destruct (repeat t && _) eqn:E; [|done].
  apply (ag_insert_ok _ (Restart t at_) Hok'); cbn; try done.
Qed.

(** One round of the loop of [ag_fire]. *)
Lemma ag_round_ok ag t rest at_ : ag_ok ag -> pending ag = t :: rest ->
  ag_ok (ag_finish (ag_run (Run t) (ag_start ag t rest)) t at_).
Proof.
  intros Hok Hp. destruct (ag_run_ok (Run t) _ (ag_start_ok ag t rest Hok Hp)) as (K1 & K2 & _).
  apply ag_finish_ok; [done | done |]. apply (ao_intervals _ Hok). rewrite Hp. set_solver.
Qed.

(** Draining: what was due is fired, and nothing due is left. *)
Lemma ag_fire_spec fuel at_ : forall ag ag', ag_ok ag -> running ag = None -> ag_fire fuel at_ ag = Some ag' ->
  ag_ok ag' /\ running ag' = None /\ (forall t, t ∈ pending ag' -> at_ < expiration t) /\
  exists ext, fired ag' = fired ag ++ ext /\ Forall (fun x => x.2 <= at_) ext.
Proof.
  induction fuel as [|fuel IH]; intros ag ag' Hok Hr Hf; [done|]. cbn [ag_fire] in Hf.
  destruct (pending ag) as [|t rest] eqn:Hp.
  - injection Hf as <-. split_and!; [done | done | rewrite Hp; set_solver | exists []; by rewrite app_nil_r].
  - destruct (Z.leb_spec (expiration t) at_) as [He|He].
    + pose proof (ag_round_ok ag t rest at_ Hok Hp) as Hok'.
      destruct (ag_run_ok (Run t) _ (ag_start_ok ag t rest Hok Hp)) as (K1 & K2 & K3 & _).
      set (ag1 := ag_run (Run t) (ag_start ag t rest)) in *.
      assert (running (ag_finish ag1 t at_) = None /\ fired (ag_finish ag1 t at_) = fired ag1) as [E1 E2].
      { unfold ag_finish. by destruct (repeat t && _). }
      destruct (IH _ _ Hok' E1 Hf) as (H1 & H2 & H3 & ext & H4 & H5). split_and!; [done | done | done |].
      exists ((sequence t, expiration t) :: ext). rewrite H4, E2, K3. cbn. rewrite <- app_assoc.
      split; [done | by constructor].
    + injection Hf as <-. split_and!; [done | done | | exists []; by rewrite app_nil_r].
      pose proof (ao_sorted _ Hok) as HS. rewrite Hp in HS |- *. inversion HS as [|? ? _ HF]; subst.
      intros x [->|Hx]%elem_of_cons; [done|]. rewrite Forall_forall in HF. specialize (HF x Hx).
      unfold later in HF. rewrite <- not_true_iff_false, timer_less_spec in HF. lia.
Qed.

(** Sequence numbers only grow. *)
Lemma ag_finish_next ag t at_ : next_sequence (ag_finish ag t at_) = next_sequence ag.
Proof. unfold ag_finish. by destruct (repeat t && _). Qed.

Lemma ag_fire_next fuel at_ : forall ag ag', ag_ok ag -> ag_fire fuel at_ ag = Some ag' ->
  next_sequence ag <= next_sequence ag'.
Proof.
  induction fuel as [|fuel IH]; intros ag ag' Hok Hf; [done|]. cbn [ag_fire] in Hf.
  destruct (pending ag) as [|t rest] eqn:Hp; [injection Hf as <-; lia|].
  destruct (expiration t <=? at_); [|injection Hf as <-; lia].
  destruct (ag_run_ok (Run t) _ (ag_start_ok ag t rest Hok Hp)) as (_ & _ & _ & K & _). cbn in K.
  pose proof (IH _ _ (ag_round_ok ag t rest at_ Hok Hp) Hf) as H. rewrite ag_finish_next in H. lia.
Qed.

(** ** A cancelled timer stays cancelled *)

Definition gone (id : Z) (ag : agenda) : Prop :=
  id < next_sequence ag /\ has_timer id (pending ag) = false /\
  (forall t, running ag = Some t -> sequence t = id -> run_cancelled ag = true).

Lemma gone_add id ag cb w i : gone id ag -> gone id (ag_add ag cb w i).1.
Proof.
  intros (H1 & H2 & H3). unfold gone, ag_add. destruct (bk_added _ _) as [d [e|]]; cbn; [split_and!; [lia | done | done]|].
  split_and!; [lia | | done]. rewrite has_timer_false in *.
  rewrite insert_timer_perm. cbn. rewrite not_elem_of_cons. split; [lia | done].
Qed.

Lemma gone_cancel id ag j : gone id ag -> gone id (ag_cancel ag j).1.
Proof.
  intros (H1 & H2 & H3). unfold gone, ag_cancel. destruct (has_timer j (pending ag)); cbn.
  - split_and!; [done | | done]. rewrite has_timer_false in *. intros (x & Hs & Hx)%list_elem_of_fmap.
    apply elem_of_drop in Hx as [Hx _]. apply H2, list_elem_of_fmap. eauto.
  - destruct (running ag) as [t|] eqn:E; cbn; rewrite ?E; [|done]. destruct (sequence t =? j); cbn; rewrite ?E; split_and!; try done; by intros u [= <-] <-.
Qed.

Lemma cancel_gone id ag : ag_ok ag -> id < next_sequence ag -> gone id (ag_cancel ag id).1.
Proof.
  intros Hok Hid. unfold gone, ag_cancel. destruct (has_timer id (pending ag)) eqn:E; cbn.
  - split_and!; [done | |]; [|intros t Hr <-; destruct (ao_running _ Hok _ Hr); congruence].
    apply has_timer_false. intros (x & Hs & Hx)%list_elem_of_fmap. by apply elem_of_drop in Hx as [_ Hx].
  - destruct (running ag) as [t|] eqn:Er; cbn; rewrite ?Er; [|done].
    destruct (Z.eqb_spec (sequence t) id) as [Heq|Hne]; cbn; rewrite ?Er; [done|]. split_and!; [done | done|]. by intros u [= <-].
Qed.

Lemma gone_run id cb : forall ag, gone id ag -> gone id (ag_run cb ag).
Proof.
  induction cb as [|cb IHcb w i k IHk|j k IHk|k IHk|d k IHk]; intros ag Hg; cbn [ag_run]; auto.
  - pose proof (gone_add id ag (Some cb) w i Hg). destruct (ag_add ag (Some cb) w i). by apply IHk.
  - pose proof (gone_cancel id ag j Hg). destruct (ag_cancel ag j). by apply IHk.
Qed.

Lemma gone_finish id ag t at_ : gone id ag -> running ag = Some t -> gone id (ag_finish ag t at_).
Proof.
  intros (H1 & H2 & H3) Hr. unfold gone, ag_finish. destruct (repeat t && _) eqn:E; cbn; [|done].
  split_and!; [done | | done]. rewrite has_timer_false in *. rewrite insert_timer_perm. cbn.
  rewrite not_elem_of_cons. split; [|done]. intros ->. change (sequence (Restart t at_)) with (sequence t) in *.
  specialize (H3 t Hr eq_refl). rewrite H3 in E. by rewrite andb_false_r in E.
Qed.

Lemma gone_fire id fuel at_ : forall ag ag', ag_ok ag -> running ag = None -> gone id ag ->
  ag_fire fuel at_ ag = Some ag' ->
  gone id ag' /\ exists ext, fired ag' = fired ag ++ ext /\ (id ∉ ext.*1).
Proof.
  induction fuel as [|fuel IH]; intros ag ag' Hok Hr Hg Hf; [done|]. cbn [ag_fire] in Hf.
  destruct (pending ag) as [|t rest] eqn:Hp.
  { injection Hf as <-. split; [done|]. exists []. rewrite app_nil_r. set_solver. }
  destruct (expiration t <=? at_).
  2: { injection Hf as <-. split; [done|]. exists []. rewrite app_nil_r. set_solver. }
  pose proof Hg as (G1 & G2 & G3). rewrite has_timer_false, Hp in G2. cbn in G2. apply not_elem_of_cons in G2 as [G2 G2'].
  assert (gone id (ag_start ag t rest)) as Hg1.
  { split_and!; cbn; [done | by apply has_timer_false | by intros u [= <-] ?]. }
  pose proof (ag_round_ok ag t rest at_ Hok Hp) as Hok'.
  destruct (ag_run_ok (Run t) _ (ag_start_ok ag t rest Hok Hp)) as (K1 & K2 & K3 & _).
  pose proof (gone_finish id _ t at_ (gone_run id (Run t) _ Hg1) K2) as Hg2.
  set (ag1 := ag_run (Run t) (ag_start ag t rest)) in *.
  assert (running (ag_finish ag1 t at_) = None /\ fired (ag_finish ag1 t at_) = fired ag1) as [E1 E2].
  { unfold ag_finish. by destruct (repeat t && _). }
  destruct (IH _ _ Hok' E1 Hg2 Hf) as (H1 & ext & H2 & H3). split; [done|].
  exists ((sequence t, expiration t) :: ext). rewrite H2, E2, K3. cbn. rewrite <- app_assoc. split; [done|].
  rewrite not_elem_of_cons. done.
Qed.

(** ** Scripts of operations *)

Inductive top := TAdd (cb : option callback) (when interval : Z) | TCancel (id : Z) | TElapse (d : BinNums.N) | TFire (ev : bk_event).

Definition ag_event (fuel : nat) (ev : bk_event) (ag : agenda) : option agenda :=
  match bk_begin (backend ag) ev with
  | None => Some ag
  | Some (d, fires) =>
      ag1 ← (if (fires : bool) then ag_fire fuel (now ag) (set_backend ag d) else Some (set_backend ag d));
      Some (set_backend ag1 (bk_end (backend ag1) ev (earliest (pending ag1))))
  end.

Definition ag_op (fuel : nat) (o : top) (ag : agenda) : option agenda :=
  match o with
  | TAdd cb w i => Some (ag_add ag cb w i).1
  | TCancel id => Some (ag_cancel ag id).1
  | TElapse d => Some (set_now ag (now ag + Z.of_N d))
  | TFire ev => ag_event fuel ev ag
  end.

Fixpoint ag_run_all (fuel : nat) (ops : list top) (ag : agenda) : option agenda :=
  match ops with [] => Some ag | o :: ops => ag ← ag_op fuel o ag; ag_run_all fuel ops ag end.

(** The agenda of a queue without timers. *)
Definition empty_agenda (t seq : Z) (d : D) : agenda := mkAgenda [] None false t seq [] d.

Definition idle (ag : agenda) : Prop := ag_ok ag /\ running ag = None.

Lemma empty_idle t seq d : idle (empty_agenda t seq d).
Proof. split; [|done]. split; cbn; [constructor | constructor | set_solver | intros ? ?; set_solver | done]. Qed.

Lemma idle_backend ag d : idle ag -> idle (set_backend ag d).
Proof. intros [H1 H2]. split; [by apply ag_backend_ok | done]. Qed.

(** What an event does: nothing, a change of the backend, or firing in between. *)
Lemma ag_event_cases fuel ev ag ag' : ag_event fuel ev ag = Some ag' ->
  ag' = ag \/ exists d d' ag1, ag' = set_backend ag1 d' /\
    (ag1 = set_backend ag d \/ ag_fire fuel (now ag) (set_backend ag d) = Some ag1).
Proof.
  unfold ag_event. destruct (bk_begin (backend ag) ev) as [[d fires]|]; [|intros [= ->]; auto].
  destruct fires; cbn.
  - destruct (ag_fire fuel (now ag) (set_backend ag d)) as [ag1|] eqn:E; [|done]. intros [= <-]. right. eauto 10.
  - intros [= <-]. right. eauto 10.
Qed.

Lemma ag_op_idle fuel o ag ag' : idle ag -> ag_op fuel o ag = Some ag' -> idle ag'.
Proof.
  intros [Hok Hr] Ho. destruct o as [cb w i|id|d|ev]; cbn [ag_op] in Ho.
  - injection Ho as <-. split; [by apply ag_add_ok|]. pose proof (ag_add_frame ag cb w i) as (E & _). congruence.
  - injection Ho as <-. split; [by apply ag_cancel_ok|]. pose proof (ag_cancel_frame ag id) as (E & _). congruence.
  - injection Ho as <-. split; [by apply ag_now_ok | done].
  - apply ag_event_cases in Ho as [->|(d & d' & ag1 & -> & [->|Hf])]; [done | by do 2 apply idle_backend |].
    apply idle_backend. by destruct (ag_fire_spec _ _ _ _ (ag_backend_ok _ d Hok) Hr Hf) as (? & ? & _).
Qed.

Lemma ag_op_next fuel o ag ag' : idle ag -> ag_op fuel o ag = Some ag' -> next_sequence ag <= next_sequence ag'.
Proof.
  intros [Hok Hr] Ho. destruct o as [cb w i|id|d|ev]; cbn [ag_op] in Ho.
  - injection Ho as <-. pose proof (ag_add_frame ag cb w i) as (_ & _ & _ & E & _). lia.
  - injection Ho as <-. pose proof (ag_cancel_frame ag id) as (_ & _ & E & _). lia.
  - injection Ho as <-. done.
  - apply ag_event_cases in Ho as [->|(d & d' & ag1 & -> & [->|Hf])]; [done | done |].
    apply (ag_fire_next _ _ _ _ (ag_backend_ok _ d Hok) Hf).
Qed.

Lemma ag_op_total o ag : idle ag -> exists fuel ag', forall more, ag_op (fuel + more) o ag = Some ag'.
Proof.
  intros [Hok _]. destruct o as [cb w i|id|d|ev]; try (by eexists 0%nat, _). cbn [ag_op]. unfold ag_event.
  destruct (bk_begin (backend ag) ev) as [[d fires]|]; [|by eexists 0%nat, _].
  destruct fires; [|by eexists 0%nat, _].
  destruct (ag_fire_terminates (now ag) (set_backend ag d)) as (fuel & ag1 & Hf); [apply Hok|].
  eexists fuel, _. intros more. by rewrite Hf.
Qed.

Lemma ag_op_gone id fuel o ag ag' : idle ag -> gone id ag -> ag_op fuel o ag = Some ag' ->
  gone id ag' /\ exists ext, fired ag' = fired ag ++ ext /\ (id ∉ ext.*1).
Proof.
  intros [Hok Hr] Hg Ho. assert (forall a : agenda, fired a = fired ag -> exists ext, fired a = fired ag ++ ext /\ (id ∉ ext.*1)) as Hnone.
  { intros a ->. exists []. rewrite app_nil_r. set_solver. }
  destruct o as [cb w i|j|d|ev]; cbn [ag_op] in Ho.
  - injection Ho as <-. split; [by apply gone_add|]. apply Hnone. apply ag_add_frame.
  - injection Ho as <-. split; [by apply gone_cancel|]. apply Hnone. apply ag_cancel_frame.
  - injection Ho as <-. split; [done|]. by apply Hnone.
  - apply ag_event_cases in Ho as [->|(d & d' & ag1 & -> & [->|Hf])]; [by auto | by auto |].
    by apply (gone_fire id fuel _ _ _ (ag_backend_ok _ d Hok) Hr Hg Hf).
Qed.

Lemma ag_run_all_idle fuel ops : forall ag ag', idle ag -> ag_run_all fuel ops ag = Some ag' -> idle ag'.
Proof.
  induction ops as [|o ops IH]; intros ag ag' Hi Ho; cbn [ag_run_all] in Ho; [by injection Ho as <-|].
  apply bind_Some in Ho as (ag1 & Ho & Ho'). eapply IH; [|exact Ho']. by eapply ag_op_idle.
Qed.

Lemma ag_run_all_next fuel ops : forall ag ag', idle ag -> ag_run_all fuel ops ag = Some ag' ->
  next_sequence ag <= next_sequence ag'.
Proof.
  induction ops as [|o ops IH]; intros ag ag' Hi Ho; cbn [ag_run_all] in Ho; [injection Ho as <-; lia|].
  apply bind_Some in Ho as (ag1 & Ho & Ho'). etrans; [by eapply ag_op_next|].
  eapply IH; [|exact Ho']. by eapply ag_op_idle.
Qed.

(** Some fuel is enough for a whole script. *)
Lemma ag_run_all_total ops : forall ag, idle ag ->
  exists fuel ag', forall more, ag_run_all (fuel + more) ops ag = Some ag'.
Proof.
  induction ops as [|o ops IH]; intros ag Hi; [by exists 0%nat, ag|].
  destruct (ag_op_total o ag Hi) as (f1 & ag1 & H1).
  assert (idle ag1) as Hi1 by (eapply ag_op_idle; [exact Hi | apply (H1 0%nat)]).
  destruct (IH ag1 Hi1) as (f2 & ag2 & H2). exists (f1 + f2)%nat, ag2. intros more. cbn [ag_run_all].
  rewrite <- Nat.add_assoc, H1. cbn. replace (f1 + (f2 + more))%nat with (f2 + (f1 + more))%nat by lia. apply H2.
Qed.

Lemma ag_run_all_gone id fuel ops : forall ag ag', idle ag -> gone id ag -> ag_run_all fuel ops ag = Some ag' ->
  exists ext, fired ag' = fired ag ++ ext /\ (id ∉ ext.*1).
Proof.
  induction ops as [|o ops IH]; intros ag ag' Hi Hg Ho; cbn [ag_run_all] in Ho.
  - injection Ho as <-. exists []. rewrite app_nil_r. set_solver.
  - apply bind_Some in Ho as (ag1 & Ho & Ho').
    destruct (ag_op_gone _ _ _ _ _ Hi Hg Ho) as (Hg1 & ext1 & E1 & N1).
    destruct (IH ag1 ag' (ag_op_idle _ _ _ _ Hi Ho) Hg1 Ho') as (ext2 & E2 & N2).
    exists (ext1 ++ ext2). rewrite E2, E1, app_assoc. split; [done|]. rewrite fmap_app. set_solver.
Qed.

End agenda.

#[global] Arguments agenda : clear implicits.
#[global] Arguments top : clear implicits.
#[global] Arguments top D {_}.

End TimerAgenda.
