(* ===== verification/TimerStore.v ===== *)
(** * Timer objects, their index and the table of active timers

    What the queues of both backends have in common: timer objects at addresses
    obtained from an allocator, an intrusive index over them, and the table from
    sequence numbers to the objects. [tracks] says that these three hold the timers
    [ts] in order, at the addresses [l], and besides them the objects [free],
    which are alive but linked nowhere. The lemmas give the effect of each
    primitive step; both simulations are put together from them. *)

From S2P Require Import Prelude RBTreeOrder Timers TimerAgenda.

Import RBTreeOrder Timers TimerAgenda.

Module TimerStore.

(** ** Addresses and the timers they name *)

Section lists.
Context (st : store).

(** The addresses [l] name the timers [ts]. *)
Definition names (l : list Z) (ts : list Timer) : Prop := Forall2 (fun a t => st !! a = Some t) l ts.

Lemma names_elem l ts a : names l ts -> a ∈ l -> exists t, st !! a = Some t /\ t ∈ ts.
Proof.
  induction 1 as [|x t l ts Hx H IH]; [set_solver|]. intros [->|Ha]%elem_of_cons.
  - exists t. set_solver.
  - destruct (IH Ha) as (t' & ? & ?). exists t'. set_solver.
Qed.

Lemma names_elem_r l ts t : names l ts -> t ∈ ts -> exists a, a ∈ l /\ st !! a = Some t.
Proof.
  induction 1 as [|x t' l ts Hx H IH]; [set_solver|]. intros [->|Ht]%elem_of_cons.
  - exists x. set_solver.
  - destruct (IH Ht) as (a & ? & ?). exists a. set_solver.
Qed.

Lemma names_insert a t l ts : st !! a = Some t -> names l ts ->
  names (insert_sorted (TimerLess st) a l) (insert_timer t ts).
Proof.
  intros Ha. induction 1 as [|x t' l ts Hx H IH]; simpl; [by repeat constructor|].
  unfold TimerLess at 1. rewrite Ha, Hx. simpl. destruct (timer_less t t'); by repeat constructor.
Qed.

Lemma names_drop a t l ts : st !! a = Some t -> names l ts ->
  (forall x t', x ∈ l -> st !! x = Some t' -> sequence t' = sequence t -> x = a) ->
  names (List.filter (fun x => negb (x =? a)) l) (drop_timer (sequence t) ts).
Proof.
  intros Ha H. induction H as [|x t' l ts Hx H IH]; intros Hinj; [constructor|]. unfold drop_timer. cbn [List.filter].
  destruct (Z.eqb_spec x a) as [->|Hne].
  - rewrite Ha in Hx. injection Hx as <-. rewrite Z.eqb_refl. cbn. apply IH. intros; eapply Hinj; eauto; set_solver.
  - rewrite (proj2 (Z.eqb_neq _ _)) by (intros E; apply Hne; eapply Hinj; eauto; set_solver). cbn.
    constructor; [done|]. apply IH. intros; eapply Hinj; eauto; set_solver.
Qed.

Lemma names_seq_inj l ts : names l ts -> NoDup (map sequence ts) -> forall x y t t',
  x ∈ l -> y ∈ l -> st !! x = Some t -> st !! y = Some t' -> sequence t = sequence t' -> x = y.
Proof.
  induction 1 as [|z u l ts Hz H IH]; intros HN x y t t' Hx Hy Ex Ey Es; [set_solver|].
  cbn in HN. apply NoDup_cons in HN as [Hnin HN].
  assert (forall w tw, w ∈ l -> st !! w = Some tw -> sequence tw <> sequence u) as Hno.
  { intros w tw Hw Ew E. apply Hnin. destruct (names_elem _ _ _ H Hw) as (t2 & E2 & Ht2).
    rewrite Ew in E2. injection E2 as <-. rewrite <- E. apply list_elem_of_fmap. eauto. }
  apply elem_of_cons in Hx as [->|Hx], Hy as [->|Hy]; auto.
  - rewrite Hz in Ex. injection Ex as <-. exfalso. by apply (Hno y t').
  - rewrite Hz in Ey. injection Ey as <-. exfalso. by apply (Hno x t).
  - by eapply IH.
Qed.

End lists.

Lemma names_store st st' l ts : names st l ts -> (forall a, a ∈ l -> st' !! a = st !! a) -> names st' l ts.
Proof.
  induction 1 as [|x t l ts Hx H IH]; intros Hag; constructor; [rewrite Hag by set_solver; done|].
  apply IH. intros; apply Hag; set_solver.
Qed.

Lemma filter_neq_elem (a x : Z) l : x ∈ List.filter (fun y => negb (y =? a)) l <-> x ∈ l /\ x <> a.
Proof. rewrite !list_elem_of_In, List.filter_In, negb_true_iff, Z.eqb_neq. done. Qed.

Lemma filter_head (a : Z) l : (a ∉ l) -> List.filter (fun x => negb (x =? a)) (a :: l) = l.
Proof.
  intros Ha. cbn. rewrite Z.eqb_refl. cbn. induction l as [|x l IH]; [done|]. cbn.
  rewrite (proj2 (Z.eqb_neq x a)) by set_solver. cbn. f_equal. apply IH. set_solver.
Qed.

Lemma drop_head t ts : NoDup (map sequence (t :: ts)) -> drop_timer (sequence t) (t :: ts) = ts.
Proof.
  intros HN. cbn in HN. apply NoDup_cons in HN as [Hn _]. unfold drop_timer. cbn. rewrite Z.eqb_refl. cbn.
  induction ts as [|u ts IH]; [done|]. cbn in Hn |- *. apply not_elem_of_cons in Hn as [Hn Hn'].
  rewrite (proj2 (Z.eqb_neq _ _)) by congruence. cbn. f_equal. by apply IH.
Qed.

Lemma insert_sorted_perm less a l : insert_sorted less a l ≡ₚ a :: l.
Proof. induction l as [|x l IH]; simpl; [done|]. destruct (less a x); [done|]. rewrite IH. apply Permutation_swap. Qed.

Lemma order_agree (st st' : store) (l : list Z) : (forall a, a ∈ l -> st' !! a = st !! a) ->
  forall a b, a ∈ l -> b ∈ l -> TimerLess st a b = TimerLess st' a b.
Proof. intros H a b Ha Hb. unfold TimerLess. by rewrite !H. Qed.

Lemma delete_size (st : store) a (k n : Z) :
  k + Z.of_nat (size (dom st)) <= n -> k + Z.of_nat (size (dom (delete a st))) <= n.
Proof. rewrite dom_delete_L. pose proof (subseteq_size (dom st ∖ {[a]}) (dom st) ltac:(set_solver)). lia. Qed.

(** ** The three structures together *)

Section tracks.
Context {Ix Pl : Type} (region : Z -> Prop) (room : Z).
Context `{!TimerIndexOps Ix} `{!TimerIndex Ix region} `{!TimerPoolOps Pl} `{!TimerPool Pl region room}.
Implicit Types (i : Ix) (p : Pl) (act : gmap Z Z) (st : store) (l : list Z) (ts : list Timer) (free : list (Z * Timer)).

Record tracks i act p st l ts free : Prop := {
  tr_index : holds (TimerLess st) i (dom st) l;
  tr_names : names st l ts;
  tr_active k a : act !! k = Some a <-> a ∈ l /\ exists t, st !! a = Some t /\ sequence t = k;
  tr_pool : pool_live p (dom st);
  tr_objects a : a ∈ dom st <-> a ∈ l \/ a ∈ free.*1;
  tr_free a t : (a, t) ∈ free -> (a ∉ l) /\ st !! a = Some t;
  tr_nodup : NoDup free.*1;
}.

Lemma tracks_empty i p : holds (TimerLess ∅) i ∅ [] -> pool_live p ∅ -> tracks i ∅ p ∅ [] [] [].
Proof.
  intros HI HP. split; cbn; rewrite ?dom_empty_L; auto.
  - constructor.
  - intros k a. rewrite lookup_empty. split; [done | intros [? _]; set_solver].
  - set_solver.
  - set_solver.
  - constructor.
Qed.

Lemma tracks_deref i act p st l ts free a : tracks i act p st l ts free -> a ∈ l ->
  exists t, st !! a = Some t /\ t ∈ ts.
Proof. intros H. apply names_elem, H. Qed.

Lemma tracks_Empty i act p st l ts free : tracks i act p st l ts free -> idx_Empty i = bool_decide (ts = []).
Proof. intros H. rewrite (idx_Empty_ok _ _ _ _ (tr_index _ _ _ _ _ _ _ H)). by destruct (tr_names _ _ _ _ _ _ _ H). Qed.

(** The earliest timer. *)
Lemma tracks_Earliest i act p st l ts free : tracks i act p st l ts free ->
  match ts with
  | [] => l = [] /\ idx_Earliest i = Val nullptr
  | t :: _ => exists a l', l = a :: l' /\ idx_Earliest i = Val a /\ st !! a = Some t /\ act !! sequence t = Some a
  end.
Proof.
  intros H. rewrite (idx_Earliest_ok _ _ _ _ _ (tr_index _ _ _ _ _ _ _ H)).
  pose proof (tr_names _ _ _ _ _ _ _ H) as HN. inversion HN as [|a t l' ts' Ha _]; subst; [done|].
  exists a, l'. split_and!; try done. apply (tr_active _ _ _ _ _ _ _ H). split; [set_solver|]. eauto.
Qed.

Lemma tracks_region i act p st l ts free a : tracks i act p st l ts free -> a ∈ dom st -> a <> nullptr.
Proof.
  intros H Ha ->. destruct (holds_in _ _ _ _ (tr_index _ _ _ _ _ _ _ H)) as (_ & _ & _ & Hr). by apply region_null, Hr.
Qed.

Lemma tracks_has_timer i act p st l ts free id : tracks i act p st l ts free ->
  has_timer id ts = bool_decide (is_Some (act !! id)).
Proof.
  intros H. apply eq_bool_prop_intro. rewrite !Is_true_true, bool_decide_eq_true, has_timer_true. split.
  - intros (t & Ht & Hs). destruct (names_elem_r _ _ _ _ (tr_names _ _ _ _ _ _ _ H) Ht) as (a & Ha & E).
    exists a. apply (tr_active _ _ _ _ _ _ _ H). eauto.
  - intros [a Ha]. apply (tr_active _ _ _ _ _ _ _ H) in Ha as [Ha (t & Ht & Hs)].
    destruct (tracks_deref _ _ _ _ _ _ _ _ H Ha) as (t' & Ht' & Hin). rewrite Ht in Ht'. injection Ht' as <-. eauto.
Qed.

Lemma tracks_seq_inj i act p st l ts free x y t u : tracks i act p st l ts free -> NoDup (map sequence ts) ->
  x ∈ l -> y ∈ l -> st !! x = Some t -> st !! y = Some u -> sequence t = sequence u -> x = y.
Proof. intros H HN. eapply names_seq_inj; [apply H | done]. Qed.

(** A new object, linked nowhere. *)
Lemma tracks_acquire i act p st l ts free t :
  tracks i act p st l ts free -> Z.of_nat (size (dom st)) < room ->
  exists p' a, pool_Acquire p = Val (p', a) /\ (a ∉ dom st) /\
    tracks (idx_construct i a) act p' (<[a := t]> st) l ts ((a, t) :: free).
Proof.
  intros H Hr. destruct (pool_Acquire_ok _ _ (tr_pool _ _ _ _ _ _ _ H) Hr) as (p' & a & E & Ha & Hreg & HP).
  exists p', a. split_and!; [done | done |].
  assert (a ∉ l) as Hal by (intros Hx; apply Ha, (tr_objects _ _ _ _ _ _ _ H); auto).
  assert (a ∉ free.*1) as Haf by (intros Hx; apply Ha, (tr_objects _ _ _ _ _ _ _ H); auto).
  assert (forall x, x ∈ dom st -> <[a := t]> st !! x = st !! x) as Hst.
  { intros x Hx. rewrite lookup_insert_ne; [done|]. by intros ->. }
  assert (forall x, x ∈ l -> x ∈ dom st) as Hl by (intros x Hx; apply (tr_objects _ _ _ _ _ _ _ H); auto).
  split.
  - rewrite dom_insert_L. eapply holds_order; [apply _ | by apply idx_construct_ok; [apply H | |] |].
    apply order_agree. auto.
  - eapply names_store; [apply H|]. auto.
  - intros k b. rewrite (tr_active _ _ _ _ _ _ _ H). split; intros [Hb (u & Hu & Hs)]; (split; [done|]); exists u.
    + by rewrite Hst by auto.
    + by rewrite Hst in Hu by auto.
  - by rewrite dom_insert_L.
  - intros b. rewrite dom_insert_L, elem_of_union, elem_of_singleton, (tr_objects _ _ _ _ _ _ _ H). cbn.
    rewrite elem_of_cons. tauto.
  - intros b u [[= -> ->]|Hb]%elem_of_cons; [by rewrite lookup_insert_eq|].
    destruct (tr_free _ _ _ _ _ _ _ H b u Hb) as [H1 H2]. split; [done|]. rewrite Hst; [done|]. by apply elem_of_dom.
  - cbn. apply NoDup_cons. split; [done | apply H].
Qed.

(** A free object is entered into the index and the table. *)
Lemma tracks_link i act p st l ts free a t :
  tracks i act p st l ts ((a, t) :: free) -> act !! sequence t = None ->
  exists i', idx_Insert (TimerLess st) i a = Val (i', true) /\
    tracks i' (<[sequence t := a]> act) p st (insert_sorted (TimerLess st) a l) (insert_timer t ts) free.
Proof.
  intros H Hact. destruct (tr_free _ _ _ _ _ _ _ H a t ltac:(set_solver)) as [Hal Ht].
  assert (a ∈ dom st) as Had by (by apply elem_of_dom).
  destruct (idx_Insert_ok _ _ _ _ a _ (tr_index _ _ _ _ _ _ _ H) Had Hal) as (i' & E & HI). exists i'. split; [done|].
  assert (forall b, b ∈ insert_sorted (TimerLess st) a l <-> b = a \/ b ∈ l) as Hin.
  { intros b. by rewrite insert_sorted_perm, elem_of_cons. }
  pose proof (tr_nodup _ _ _ _ _ _ _ H) as HN. cbn in HN. apply NoDup_cons in HN as [Haf HN].
  split; auto; try apply H.
  - apply names_insert; [done | apply H].
  - intros k b. rewrite Hin. destruct (decide (k = sequence t)) as [->|Hk].
    + rewrite lookup_insert_eq. split; [intros [= <-]; split; [by left | eauto]|].
      intros [[->|Hb] (u & Hu & Hs)]; [done|]. exfalso.
      assert (act !! sequence t = Some b) by (apply (tr_active _ _ _ _ _ _ _ H); eauto). congruence.
    + rewrite lookup_insert_ne, (tr_active _ _ _ _ _ _ _ H) by done. split; [intros [? ?]; auto|].
      intros [[->|Hb] (u & Hu & Hs)]; [|eauto]. exfalso. congruence.
  - intros b. rewrite (tr_objects _ _ _ _ _ _ _ H), Hin. cbn. rewrite elem_of_cons. tauto.
  - intros b u Hb. rewrite Hin. destruct (tr_free _ _ _ _ _ _ _ H b u ltac:(set_solver)) as [H1 H2].
    split; [|done]. intros [->|?]; [|done]. apply Haf. apply list_elem_of_fmap. by exists (a, u).
Qed.

(** An active timer leaves the index and the table; its object lives on. *)
Lemma tracks_unlink i act p st l ts free a id :
  tracks i act p st l ts free -> NoDup (map sequence ts) -> act !! id = Some a ->
  exists i' t, idx_Erase i a = Val (i', true) /\ st !! a = Some t /\ sequence t = id /\
    tracks i' (delete id act) p st (List.filter (fun x => negb (x =? a)) l) (drop_timer id ts) ((a, t) :: free).
Proof.
  intros H HN Ha. apply (tr_active _ _ _ _ _ _ _ H) in Ha as [Hal (t & Ht & <-)].
  destruct (idx_Erase_ok _ _ _ _ a _ (tr_index _ _ _ _ _ _ _ H) Hal) as (i' & E & HI). exists i', t. split_and!; try done.
  assert (forall x u, x ∈ l -> st !! x = Some u -> sequence u = sequence t -> x = a) as Hinj.
  { intros x u Hx Hu Hs. by eapply (tracks_seq_inj _ _ _ _ _ _ _ x a u t H). }
  split; auto; try apply H.
  - apply names_drop; [done | apply H | done].
  - intros k b. rewrite filter_neq_elem. destruct (decide (k = sequence t)) as [->|Hk].
    + rewrite lookup_delete_eq. split; [done|]. intros [[Hb Hne] (u & Hu & Hs)]. exfalso. by apply Hne, (Hinj b u).
    + rewrite lookup_delete_ne, (tr_active _ _ _ _ _ _ _ H) by done. split.
      * intros [Hb (u & Hu & Hs)]. assert (b <> a) by (intros ->; rewrite Ht in Hu; congruence). eauto.
      * intros [[Hb _] Hu]. auto.
  - intros b. rewrite (tr_objects _ _ _ _ _ _ _ H), filter_neq_elem. cbn. rewrite elem_of_cons.
    destruct (decide (b = a)) as [->|]; tauto.
  - intros b u [[= -> ->]|Hb]%elem_of_cons; rewrite filter_neq_elem; [tauto|].
    destruct (tr_free _ _ _ _ _ _ _ H b u Hb). tauto.
  - cbn. apply NoDup_cons. split; [|apply H]. intros (x & -> & Hx)%list_elem_of_fmap. destruct x as [b u].
    by destruct (tr_free _ _ _ _ _ _ _ H b u Hx).
Qed.

(** A free object is given back. *)
Lemma tracks_release i act p st l ts free a t :
  tracks i act p st l ts ((a, t) :: free) ->
  exists p', pool_Release p a = Val p' /\ tracks (idx_destroy i a) act p' (delete a st) l ts free.
Proof.
  intros H. destruct (tr_free _ _ _ _ _ _ _ H a t ltac:(set_solver)) as [Hal Ht].
  assert (a ∈ dom st) as Had by (by apply elem_of_dom).
  destruct (pool_Release_ok _ _ a (tr_pool _ _ _ _ _ _ _ H) Had) as (p' & E & HP). exists p'. split; [done|].
  pose proof (tr_nodup _ _ _ _ _ _ _ H) as HN. cbn in HN. apply NoDup_cons in HN as [Haf HN].
  assert (forall x, x ∈ l -> delete a st !! x = st !! x) as Hst.
  { intros x Hx. rewrite lookup_delete_ne; [done|]. by intros ->. }
  split; auto.
  - rewrite dom_delete_L. eapply holds_order; [apply _ | by apply idx_destroy_ok; [apply H | |] |].
    by apply order_agree.
  - eapply names_store; [apply H | done].
  - intros k b. rewrite (tr_active _ _ _ _ _ _ _ H). split; intros [Hb (u & Hu & Hs)]; (split; [done|]); exists u.
    + by rewrite Hst.
    + by rewrite Hst in Hu.
  - by rewrite dom_delete_L.
  - intros b. rewrite dom_delete_L, elem_of_difference, elem_of_singleton, (tr_objects _ _ _ _ _ _ _ H). cbn.
    rewrite elem_of_cons. split; [tauto|]. intros [Hb|Hb]; (split; [auto|]); intros ->; done.
  - intros b u Hb. destruct (tr_free _ _ _ _ _ _ _ H b u ltac:(set_solver)) as [H1 H2]. split; [done|].
    rewrite lookup_delete_ne; [done|]. intros <-. apply Haf, list_elem_of_fmap. by exists (a, u).
Qed.

(** A free object changes. *)
Lemma tracks_restart i act p st l ts free a t t' :
  tracks i act p st l ts ((a, t) :: free) -> tracks i act p (<[a := t']> st) l ts ((a, t') :: free).
Proof.
  intros H. destruct (tr_free _ _ _ _ _ _ _ H a t ltac:(set_solver)) as [Hal Ht].
  pose proof (tr_nodup _ _ _ _ _ _ _ H) as HN. cbn in HN. apply NoDup_cons in HN as [Haf HN].
  assert (forall x, x ∈ l -> <[a := t']> st !! x = st !! x) as Hst.
  { intros x Hx. rewrite lookup_insert_ne; [done|]. by intros ->. }
  assert (dom (<[a := t']> st) = dom st) as Hdom by (apply dom_insert_lookup_L; eauto).
  split; rewrite ?Hdom; try apply H.
  - eapply holds_order; [apply _ | apply H |]. by apply order_agree.
  - eapply names_store; [apply H | done].
  - intros k b. rewrite (tr_active _ _ _ _ _ _ _ H). split; intros [Hb (u & Hu & Hs)]; (split; [done|]); exists u.
    + by rewrite Hst.
    + by rewrite Hst in Hu.
  - intros b u [[= -> ->]|Hb]%elem_of_cons; [by rewrite lookup_insert_eq|].
    destruct (tr_free _ _ _ _ _ _ _ H b u ltac:(set_solver)) as [H1 H2]. split; [done|].
    rewrite lookup_insert_ne; [done|]. intros <-. apply Haf, list_elem_of_fmap. by exists (a, u).
Qed.

(** The table is as large as the list. *)
Lemma tracks_size i act p st l ts free : tracks i act p st l ts free -> NoDup (map sequence ts) ->
  (length ts <= size act)%nat.
Proof.
  intros H HS. rewrite <- (length_map sequence), <- size_dom.
  rewrite <- (size_list_to_set (C := gset Z) (map sequence ts) HS). apply subseteq_size. intros k Hk.
  apply elem_of_list_to_set, list_elem_of_fmap in Hk as (t & -> & Ht). apply elem_of_dom.
  destruct (names_elem_r _ _ _ _ (tr_names _ _ _ _ _ _ _ H) Ht) as (a & Ha & Ea). exists a.
  apply (tr_active _ _ _ _ _ _ _ H). eauto.
Qed.

(** No timers and no free objects: nothing is left. *)
Lemma tracks_nil i act p st l : tracks i act p st l [] [] -> act = ∅ /\ st = ∅.
Proof.
  intros H. pose proof (tr_names _ _ _ _ _ _ _ H) as HN. inversion HN; subst. split; apply map_eq; intros k; rewrite lookup_empty.
  - destruct (act !! k) as [a|] eqn:E; [|done]. apply (tr_active _ _ _ _ _ _ _ H) in E as [? _]. set_solver.
  - destruct (st !! k) as [u|] eqn:E; [|done]. assert (k ∈ dom st) as Hd by (by apply elem_of_dom).
    apply (tr_objects _ _ _ _ _ _ _ H) in Hd. cbn in Hd. set_solver.
Qed.

(** The head of the index is unlinked: what PopWhile does before its callback. *)
Lemma tracks_pop i act p st l t ts free :
  tracks i act p st l (t :: ts) free -> NoDup (map sequence (t :: ts)) ->
  exists a l' i', l = a :: l' /\ idx_Earliest i = Val a /\ st !! a = Some t /\ act !! sequence t = Some a /\
    idx_Erase i a = Val (i', true) /\ tracks i' (delete (sequence t) act) p st l' ts ((a, t) :: free).
Proof.
  intros H HN. destruct (tracks_Earliest _ _ _ _ _ _ _ H) as (a & l' & -> & E & Ht & Hact).
  destruct (tracks_unlink _ _ _ _ _ _ _ _ _ H HN Hact) as (i' & u & E' & Hu & _ & H').
  rewrite Ht in Hu. injection Hu as <-.
  destruct (holds_in _ _ _ _ (tr_index _ _ _ _ _ _ _ H)) as (HD & _). apply NoDup_cons in HD as [Hal _].
  rewrite filter_head, drop_head in H' by done. exists a, l', i'. done.
Qed.

End tracks.

End TimerStore.
