(* ===== verification/EpollTimers.v ===== *)
(** * The epoll timer queue (src/epoll/timer_queue.cc)

    One queue with the timers it owns: the objects of the heap ([objects], by
    address), the index that orders them, the pool they come from, the table of
    active timers by sequence number and the timer whose callback is running.
    [timerfd] is what the kernel was last asked: when, and after how long to
    fire. Results of the system calls are inputs of the model. *)

From S2P Require Import Prelude Timers.

Import Timers.

Module EpollTimers.

Definition EINTR : Z := 4.
Definition EWOULDBLOCK : Z := EAGAIN.

(** What [::read] on the timerfd may answer. *)
Inductive read_result := RBytes (n : Z) | RErrno (e : Z).

(** [std::atomic<std::int64_t>::fetch_add] wraps around. *)
Definition int64_wrap (z : Z) : Z := (z + 2 ^ 63) mod 2 ^ 64 - 2 ^ 63.

Section queue.
Context {Ix Pl : Type} `{!TimerIndexOps Ix} `{!TimerPoolOps Pl}.

Record queue := mkQueue {
  timers_ : Ix;
  timer_pool_ : Pl;
  active_timers_ : gmap Z Z;
  processing_timer_ : Z;
  processing_timer_cancelled_ : bool;
  objects : store;
  timerfd : option (Z * Z);      (* the time of the last settime and its relative value *)
  time : Z;                      (* the steady clock *)
  next_sequence_ : Z;
  log : list (Z * Z);            (* the callbacks run: sequence and expiration *)
  settime_results : list Z;      (* 0 or an errno for each settime; success when used up *)
  read_results : list read_result;
}.

Definition set_timers (q : queue) (i : Ix) : queue :=
  mkQueue i (timer_pool_ q) (active_timers_ q) (processing_timer_ q) (processing_timer_cancelled_ q) (objects q)
    (timerfd q) (time q) (next_sequence_ q) (log q) (settime_results q) (read_results q).
Definition set_pool (q : queue) (p : Pl) : queue :=
  mkQueue (timers_ q) p (active_timers_ q) (processing_timer_ q) (processing_timer_cancelled_ q) (objects q)
    (timerfd q) (time q) (next_sequence_ q) (log q) (settime_results q) (read_results q).
Definition set_active (q : queue) (m : gmap Z Z) : queue :=
  mkQueue (timers_ q) (timer_pool_ q) m (processing_timer_ q) (processing_timer_cancelled_ q) (objects q)
    (timerfd q) (time q) (next_sequence_ q) (log q) (settime_results q) (read_results q).
Definition set_processing (q : queue) (t : Z) (c : bool) : queue :=
  mkQueue (timers_ q) (timer_pool_ q) (active_timers_ q) t c (objects q)
    (timerfd q) (time q) (next_sequence_ q) (log q) (settime_results q) (read_results q).
Definition set_objects (q : queue) (st : store) : queue :=
  mkQueue (timers_ q) (timer_pool_ q) (active_timers_ q) (processing_timer_ q) (processing_timer_cancelled_ q) st
    (timerfd q) (time q) (next_sequence_ q) (log q) (settime_results q) (read_results q).
Definition set_timerfd (q : queue) (fd : option (Z * Z)) (rs : list Z) : queue :=
  mkQueue (timers_ q) (timer_pool_ q) (active_timers_ q) (processing_timer_ q) (processing_timer_cancelled_ q)
    (objects q) fd (time q) (next_sequence_ q) (log q) rs (read_results q).
Definition set_reads (q : queue) (fd : option (Z * Z)) (rs : list read_result) : queue :=
  mkQueue (timers_ q) (timer_pool_ q) (active_timers_ q) (processing_timer_ q) (processing_timer_cancelled_ q)
    (objects q) fd (time q) (next_sequence_ q) (log q) (settime_results q) rs.
Definition set_time (q : queue) (t : Z) : queue :=
  mkQueue (timers_ q) (timer_pool_ q) (active_timers_ q) (processing_timer_ q) (processing_timer_cancelled_ q)
    (objects q) (timerfd q) t (next_sequence_ q) (log q) (settime_results q) (read_results q).
Definition set_sequence (q : queue) (n : Z) : queue :=
  mkQueue (timers_ q) (timer_pool_ q) (active_timers_ q) (processing_timer_ q) (processing_timer_cancelled_ q)
    (objects q) (timerfd q) (time q) n (log q) (settime_results q) (read_results q).
Definition add_log (q : queue) (e : Z * Z) : queue :=
  mkQueue (timers_ q) (timer_pool_ q) (active_timers_ q) (processing_timer_ q) (processing_timer_cancelled_ q)
    (objects q) (timerfd q) (time q) (next_sequence_ q) (log q ++ [e]) (settime_results q) (read_results q).

Definition SteadyNow (q : queue) : Z := time q.

(** [*timer]. *)
Definition deref (q : queue) (a : Z) : outcome Timer :=
  match objects q !! a with Some t => Val t | None => Panic end.

(** ** The timerfd *)

(** The [itimerspec] of SetTimerfd: seconds and nanoseconds. *)
Definition timerfd_spec (expiration now : Z) : Z * Z :=
  let us := Z.quot (expiration - now) kNanosPerMicro in
  let us := if us <? 100 then 100 else us in
  (us / 1000000, us mod 1000000 * 1000).

Fixpoint settime_loop (rs : list Z) : outcome (list Z) :=
  match rs with
  | [] => Val []
  | r :: rs => if r =? 0 then Val rs else if r =? EINTR then settime_loop rs else Panic
  end.

Definition SetTimerfd (q : queue) (expiration : Z) : outcome queue :=
  let '(sec, nsec) := timerfd_spec expiration (SteadyNow q) in
  rs ← settime_loop (settime_results q);
  Val (set_timerfd q (Some (time q, sec * 1000000000 + nsec)) rs).

Definition ResetTimerfd (q : queue) (expiration : Z) : outcome queue := SetTimerfd q expiration.

(** A full read finds the one-shot timer expired, and so disarmed. *)
Fixpoint read_loop (fd : option (Z * Z)) (rs : list read_result) : outcome (option (Z * Z) * list read_result) :=
  match rs with
  | [] => Val (None, [])
  | RBytes n :: rs => if n =? 8 then Val (None, rs) else Panic
  | RErrno e :: rs =>
      if e =? EINTR then read_loop fd rs
      else if (e =? EAGAIN) || (e =? EWOULDBLOCK) then Val (fd, rs) else Panic
  end.

Definition ReadTimerfd (q : queue) : outcome queue :=
  '(fd, rs) ← read_loop (timerfd q) (read_results q);
  Val (set_reads q fd rs).

(** ** The operations *)

(** timer_pool_.Acquire: storage and the constructor of the timer. *)
Definition AcquireTimer (q : queue) (cb : option callback) (when interval : Z) : outcome (queue * Z) :=
  '(p, a) ← pool_Acquire (timer_pool_ q);
  let q := set_pool q p in
  let t := new_Timer cb when interval (next_sequence_ q) in
  let q := set_sequence q (int64_wrap (next_sequence_ q + 1)) in
  let q := set_objects q (<[a := t]> (objects q)) in
  Val (set_timers q (idx_construct (timers_ q) a), a).

(** timer_pool_.Release. *)
Definition ReleaseTimer (q : queue) (a : Z) : outcome queue :=
  p ← pool_Release (timer_pool_ q) a;
  let q := set_pool q p in
  let q := set_objects q (delete a (objects q)) in
  Val (set_timers q (idx_destroy (timers_ q) a)).

Definition index_insert (q : queue) (a : Z) : outcome (queue * bool) :=
  '(i, b) ← idx_Insert (TimerLess (objects q)) (timers_ q) a; Val (set_timers q i, b).

Definition index_erase (q : queue) (a : Z) : outcome (queue * bool) :=
  '(i, b) ← idx_Erase (timers_ q) a; Val (set_timers q i, b).

(** [active_timers_.emplace(..).second] and [active_timers_.erase(key) == 1]. *)
Definition active_emplace (q : queue) (k a : Z) : queue * bool :=
  match active_timers_ q !! k with
  | Some _ => (q, false)
  | None => (set_active q (<[k := a]> (active_timers_ q)), true)
  end.

Definition active_erase (q : queue) (k : Z) : queue * bool :=
  match active_timers_ q !! k with
  | Some _ => (set_active q (delete k (active_timers_ q)), true)
  | None => (q, false)
  end.

Definition AddTimer (q : queue) (cb : option callback) (when interval : Z) : outcome (queue * Z) :=
  '(q, a) ← AcquireTimer q cb when interval;
  t ← deref q a;
  earliest_changed ← (if idx_Empty (timers_ q) then Val true else
    e ← idx_Earliest (timers_ q); et ← deref q e; Val (expiration t <? expiration et));
  '(q, inserted) ← index_insert q a;
  ALYRN_CHECK inserted;;
  let '(q, emplaced) := active_emplace q (sequence t) a in
  ALYRN_CHECK emplaced;;
  q ← (if (earliest_changed : bool) then ResetTimerfd q (expiration t) else Val q);
  Val (q, sequence t).

Definition Cancel (q : queue) (id : Z) : outcome queue :=
  match active_timers_ q !! id with
  | Some active_timer =>
      e ← idx_Earliest (timers_ q);
      let earliest_removed := active_timer =? e in
      let q := set_active q (delete id (active_timers_ q)) in
      '(q, erased) ← index_erase q active_timer;
      ALYRN_CHECK erased;;
      q ← ReleaseTimer q active_timer;
      if earliest_removed && negb (idx_Empty (timers_ q)) then
        e ← idx_Earliest (timers_ q); et ← deref q e; ResetTimerfd q (expiration et)
      else Val q
  | None =>
      if negb (processing_timer_ q =? nullptr) then
        t ← deref q (processing_timer_ q);
        if sequence t =? id then Val (set_processing q (processing_timer_ q) true) else Val q
      else Val q
  end.

(** A callback runs against the queue it belongs to. *)
Fixpoint run_callback (cb : callback) (q : queue) : outcome queue :=
  match cb with
  | CReturn => Val q
  | CAddTimer cb when interval k =>
      '(q, id) ← AddTimer q (Some cb) when interval; run_callback (k (Ok id)) q
  | CCancel id k => q ← Cancel q id; run_callback (k (Ok tt)) q
  | CNow k => run_callback (k (SteadyNow q)) q
  | CElapse d k => run_callback k (set_time q (time q + Z.of_N d))
  end.

(** The first half of the callback of PopWhile, up to [timer->Run()] ... *)
Definition pop_start (q : queue) (a : Z) : outcome (queue * Timer) :=
  t ← deref q a;
  let '(q, erased) := active_erase q (sequence t) in
  ALYRN_CHECK erased;;
  Val (add_log (set_processing q a false) (sequence t, expiration t), t).

(** ... and what follows it. *)
Definition pop_finish (q : queue) (now a : Z) : outcome queue :=
  let cancelled := processing_timer_cancelled_ q in
  let q := set_processing q nullptr false in
  t ← deref q a;
  if repeat t && negb cancelled then
    let q := set_objects q (<[a := Restart t now]> (objects q)) in
    '(q, inserted) ← index_insert q a;
    ALYRN_CHECK inserted;;
    let '(q, emplaced) := active_emplace q (sequence t) a in
    ALYRN_CHECK emplaced;;
    Val q
  else ReleaseTimer q a.

Definition on_pop (now : Z) (q : queue) (a : Z) : outcome queue :=
  '(q, t) ← pop_start q a;
  q ← run_callback (Run t) q;
  pop_finish q now a.

Definition is_due (now : Z) (q : queue) (a : Z) : bool :=
  match objects q !! a with Some t => expiration t <=? now | None => false end.

Definition HandleRead (fuel : nat) (q : queue) : outcome queue :=
  let now := SteadyNow q in
  q ← ReadTimerfd q;
  '(i, q, _) ← PopWhile fuel (is_due now)
    (fun i q a => q ← on_pop now (set_timers q i) a; Val (timers_ q, q)) (timers_ q) q;
  let q := set_timers q i in
  if negb (idx_Empty (timers_ q)) then
    e ← idx_Earliest (timers_ q); et ← deref q e; ResetTimerfd q (expiration et)
  else Val q.

(** The loop of the destructor. *)
Fixpoint destroy_loop (fuel : nat) (q : queue) : outcome queue :=
  match fuel with
  | O => Panic
  | S fuel =>
      if idx_Empty (timers_ q) then Val q else
      a ← idx_Earliest (timers_ q);
      t ← deref q a;
      let '(q, erased) := active_erase q (sequence t) in
      ALYRN_CHECK erased;;
      '(q, erased) ← index_erase q a;
      ALYRN_CHECK erased;;
      q ← ReleaseTimer q a;
      destroy_loop fuel q
  end.

Definition destroy_queue (q : queue) : outcome queue := destroy_loop (S (size (active_timers_ q))) q.

Definition new_queue (i : Ix) (p : Pl) (now seq : Z) (rs : list Z) (rd : list read_result) : queue :=
  mkQueue i p ∅ nullptr false ∅ None now seq [] rs rd.

End queue.

#[global] Arguments queue : clear implicits.

End EpollTimers.
