(* ===== verification/EpollTimersProps.v ===== *)
(** * The epoll timer queue behaves like the agenda

    A simulation between the queue of src/epoll/timer_queue.cc, over any index
    and any pool that obey the interfaces, and the abstract agenda; with it, that
    the timerfd is always armed in time. *)

From S2P Require Import Prelude RBTree RBTreeRep RBTreeOrder RBTreeProps MemoryPool MemoryPoolProps ObjectPool ObjectPoolProps Timers TimerAgenda TimerStore EpollTimers.

Import RBTreeOrder Timers TimerAgenda TimerStore EpollTimers.

Module EpollTimersProps.

(** The timerfd never refuses a timer, Cancel answers nothing, and a readable
    timerfd fires the due timers. *)
#[global] Instance timerfd_backend : Backend unit := {
  bk_added d _ := (d, None);
  bk_cancelled d _ := d;
  bk_answer _ _ := Ok tt;
  bk_event := unit;
  bk_begin d _ := Some (d, true);
  bk_end d _ _ := d;
}.

(** ** The timerfd *)

(** The kernel was asked, at [t0], to fire after [rel]: not never, and no later
    than [e] or a tenth of a millisecond after the request. *)
Definition covers (fd : option (Z * Z)) (e : Z) : Prop :=
  exists t0 rel, fd = Some (t0, rel) /\ 0 < rel /\ t0 + rel <= Z.max e (t0 + 100000).

Lemma timerfd_spec_ok e now sec nsec : timerfd_spec e now = (sec, nsec) ->
  0 <= sec /\ 0 <= nsec < 1000000000 /\ covers (Some (now, sec * 1000000000 + nsec)) e.
Proof.
  unfold timerfd_spec, kNanosPerMicro. intros [= <- <-].
  set (us := if Z.quot (e - now) 1000 <? 100 then 100 else Z.quot (e - now) 1000).
  assert (100 <= us) as H1 by (subst us; destruct (Z.ltb_spec (Z.quot (e - now) 1000) 100); lia).
  assert (us * 1000 <= Z.max (e - now) 100000) as H2.
  { subst us. destruct (Z.ltb_spec (Z.quot (e - now) 1000) 100) as [|Hq]; [lia|].
    pose proof (Z.quot_rem' (e - now) 1000). destruct (Z.le_gt_cases 0 (e - now)) as [Hp|Hn].
    - pose proof (Z.rem_bound_pos (e - now) 1000 Hp). lia.
    - assert (Z.quot (e - now) 1000 <= 0); [|lia]. rewrite Z.quot_div by lia.
      pose proof (Z.div_pos (Z.abs (e - now)) (Z.abs 1000)). rewrite (Z.sgn_neg (e - now)) by lia. simpl. lia. }
  pose proof (Z.div_mod us 1000000 ltac:(lia)) as Hd. pose proof (Z.mod_pos_bound us 1000000 ltac:(lia)).
  pose proof (Z.div_pos us 1000000). split_and!; try lia. eexists _, _. split; [reflexivity|]. lia.
Qed.

Definition settime_ok (rs : list Z) : Prop := Forall (fun r => r = 0 \/ r = EINTR) rs.
Definition read_ok (rs : list read_result) : Prop :=
  Forall (fun r => r = RBytes 8 \/ r = RErrno EINTR \/ r = RErrno EAGAIN) rs.

Lemma settime_loop_ok rs : settime_ok rs -> exists rs', settime_loop rs = Val rs' /\ settime_ok rs'.
Proof.
  induction 1 as [|r rs Hr H IH]; [exists []; split; [done | constructor]|]. cbn.
  destruct Hr as [->| ->]; cbn; [by exists rs | done].
Qed.

Lemma read_loop_ok fd rs : read_ok rs -> exists fd' rs', read_loop fd rs = Val (fd', rs') /\ read_ok rs'.
Proof.
  induction 1 as [|r rs Hr H IH]; [eexists _, []; split; [done | constructor]|]. cbn. destruct Hr as [->|[->| ->]]; cbn; eauto.
Qed.

(** ** The simulation *)

Section sim.
Context {Ix Pl : Type} (region : Z -> Prop).
Context (room first : Z) (Hfirst : - 2 ^ 63 <= first /\ first + room < 2 ^ 63).
Context `{!TimerIndexOps Ix} `{!TimerIndex Ix region} `{!TimerPoolOps Pl} `{!TimerPool Pl region room}.
Abbreviation queue := (queue Ix Pl).
Implicit Types (q : queue) (ag : agenda unit).

(** [cur] is the timer whose callback runs, with its address. *)
Record sim q ag (l : list Z) (cur : option (Z * Timer)) : Prop := {
  sm_tracks : tracks region room (timers_ q) (active_timers_ q) (timer_pool_ q) (objects q) l (pending ag) (option_list cur);
  sm_processing : processing_timer_ q = default nullptr (fst <$> cur);
  sm_running : running ag = snd <$> cur;
  sm_cancelled : run_cancelled ag = processing_timer_cancelled_ q;
  sm_time : now ag = time q;
  sm_sequence : next_sequence ag = next_sequence_ q;
  sm_log : fired ag = log q;
  sm_settime : settime_ok (settime_results q);
  sm_reads : read_ok (read_results q);
  sm_ok : ag_ok ag;
  (* the sequence numbers from [first] on count the timers ever made *)
  sm_room : first <= next_sequence ag /\ first + Z.of_nat (size (dom (objects q))) <= next_sequence ag;
}.

(** All timers made so far fit into the pool. *)
Definition fits ag : Prop := next_sequence ag <= first + room.

Lemma int64_wrap_id z : - 2 ^ 63 <= z < 2 ^ 63 -> int64_wrap z = z.
Proof. intros Hz. unfold int64_wrap. rewrite Z.mod_small; lia. Qed.

(** The timerfd covers the first pending timer. *)
Definition armed q ag : Prop :=
  match pending ag with [] => True | t :: _ => covers (timerfd q) (expiration t) end.

Lemma sim_empty q ag l cur : sim q ag l cur -> idx_Empty (timers_ q) = bool_decide (pending ag = []).
Proof. intros H. eapply tracks_Empty, H. Qed.

Lemma ResetTimerfd_sim q ag l cur e : sim q ag l cur ->
  exists q', ResetTimerfd q e = Val q' /\ sim q' ag l cur /\ covers (timerfd q') e.
Proof.
  intros H. unfold ResetTimerfd, SetTimerfd. destruct (timerfd_spec e (SteadyNow q)) as [sec nsec] eqn:E.
  destruct (timerfd_spec_ok _ _ _ _ E) as (_ & _ & Hc).
  destruct (settime_loop_ok _ (sm_settime _ _ _ _ H)) as (rs & -> & Hrs). rewrite bind_val.
  eexists. split; [reflexivity|]. split; [|exact Hc]. destruct H. by split.
Qed.

(** Re-arming for the first pending timer, as Cancel and HandleRead do. *)
Lemma rearm_sim q ag l cur : sim q ag l cur -> pending ag <> [] ->
  exists q', (e ← idx_Earliest (timers_ q); et ← deref q e; ResetTimerfd q (expiration et)) = Val q' /\
    sim q' ag l cur /\ armed q' ag.
Proof.
  intros H Hp. pose proof (tracks_Earliest _ _ _ _ _ _ _ _ _ (sm_tracks _ _ _ _ H)) as He.
  unfold armed. destruct (pending ag) as [|t rest] eqn:Ep; [done|].
  destruct He as (a & l' & -> & -> & Ha & _). rewrite bind_val. unfold deref. rewrite Ha, bind_val.
  destruct (ResetTimerfd_sim _ _ _ _ (expiration t) H) as (q' & -> & H' & Hc). by exists q'.
Qed.

(** ** AddTimer *)

(** A fresh timer object, not yet in the index. *)
Lemma acquire_sim q ag l cur cb w i (t := new_Timer cb w i (next_sequence ag)) :
  sim q ag l cur -> fits (ag_add ag cb w i).1 ->
  exists p a, (a ∉ dom (objects q)) /\
    AcquireTimer q cb w i = Val (mkQueue (idx_construct (timers_ q) a) p (active_timers_ q) (processing_timer_ q)
      (processing_timer_cancelled_ q) (<[a := t]> (objects q)) (timerfd q) (time q) (next_sequence ag + 1) (log q)
      (settime_results q) (read_results q), a) /\
    tracks region room (idx_construct (timers_ q) a) (active_timers_ q) p (<[a := t]> (objects q)) l (pending ag)
      ((a, t) :: option_list cur).
Proof.
  intros H Hfit. unfold AcquireTimer. pose proof (sm_room _ _ _ _ H) as [Hf1 Hf2]. unfold fits in Hfit. cbn in Hfit.
  destruct (tracks_acquire _ _ _ _ _ _ _ _ _ t (sm_tracks _ _ _ _ H)) as (p & a & -> & Ha & HT); [lia|].
  rewrite bind_val. exists p, a. split_and!; [done | | done]. cbn. subst t. rewrite <- (sm_sequence _ _ _ _ H).
  rewrite int64_wrap_id by lia. done.
Qed.

(** The sequence number of a new timer is not in use. *)
Lemma sequence_unused q ag l cur id : sim q ag l cur -> next_sequence ag <= id -> active_timers_ q !! id = None.
Proof.
  intros H Hid. destruct (active_timers_ q !! id) as [b|] eqn:Eb; [|done]. exfalso.
  assert (has_timer id (pending ag) = true) as Ht.
  { erewrite tracks_has_timer by apply H. by rewrite Eb. }
  apply has_timer_true in Ht as (t & Ht & <-). pose proof (ao_bound _ (sm_ok _ _ _ _ H) t Ht). lia.
Qed.

(** Is the new timer the earliest one? *)
Lemma earliest_changed_sim q ag l free t : ag_ok ag -> sequence t = next_sequence ag ->
  tracks region room (timers_ q) (active_timers_ q) (timer_pool_ q) (objects q) l (pending ag) free ->
  exists ec, (if idx_Empty (timers_ q) then Val true else
      e ← idx_Earliest (timers_ q); et ← deref q e; Val (expiration t <? expiration et)) = Val ec /\
    if ec then exists rest, insert_timer t (pending ag) = t :: rest
    else head (insert_timer t (pending ag)) = head (pending ag).
Proof.
  intros Hok Hs HT. rewrite (tracks_Empty _ _ _ _ _ _ _ _ _ HT). pose proof (tracks_Earliest _ _ _ _ _ _ _ _ _ HT) as He.
  destruct (pending ag) as [|u ts] eqn:Ep; [exists true; split; [done|]; by eexists|].
  destruct He as (a & l' & -> & -> & Ha & _). cbn. unfold deref. rewrite Ha. eexists. split; [reflexivity|].
  destruct (Z.ltb_spec (expiration t) (expiration u)).
  - assert (timer_less t u = true) as -> by (apply timer_less_spec; lia). by eexists.
  - assert (timer_less t u = false) as ->; [|done]. apply not_true_iff_false. rewrite timer_less_spec, Hs.
    pose proof (ao_bound _ Hok u ltac:(rewrite Ep; set_solver)). lia.
Qed.

Lemma AddTimer_sim q ag l cur cb w i : sim q ag l cur -> fits (ag_add ag cb w i).1 ->
  exists q' l', AddTimer q cb w i = Val (q', next_sequence ag) /\
    sim q' (ag_add ag cb w i).1 l' cur /\ (armed q ag -> armed q' (ag_add ag cb w i).1).
Proof.
  intros H Hfit. unfold AddTimer. destruct (acquire_sim q ag l cur cb w i H Hfit) as (p & a & Had & -> & HT).
  set (t := new_Timer cb w i (next_sequence ag)) in *. set (q1 := mkQueue _ _ _ _ _ _ _ _ _ _ _ _). rewrite bind_val.
  assert (deref q1 a = Val t) as -> by (unfold deref; cbn; by rewrite lookup_insert_eq). rewrite bind_val.
  destruct (earliest_changed_sim q1 ag l _ t (sm_ok _ _ _ _ H) eq_refl HT) as (ec & -> & Hec). rewrite bind_val.
  destruct (tracks_link _ _ _ _ _ _ _ _ _ _ _ HT) as (i' & HI & HT').
  { apply (sequence_unused _ _ _ _ _ H). done. }
  change (idx_Insert (TimerLess (objects q1)) (timers_ q1) a = Val (i', true)) in HI.
  unfold index_insert. rewrite HI, !bind_val, check_true, bind_val.
  unfold active_emplace. cbn [active_timers_ set_timers]. change (active_timers_ q1) with (active_timers_ q).
  rewrite (sequence_unused _ _ _ _ (sequence t) H ltac:(done)), check_true, bind_val.
  set (q2 := set_active _ _).
  assert (sim q2 (ag_add ag cb w i).1 (insert_sorted (TimerLess (objects q1)) a l) cur) as Hs2.
  { pose proof (ag_add_ok ag cb w i (sm_ok _ _ _ _ H)) as Hok. pose proof (sm_room _ _ _ _ H).
    destruct H. split; cbn; auto. rewrite dom_insert_L, size_union, size_singleton by set_solver. lia. }
  destruct ec.
  - destruct (ResetTimerfd_sim _ _ _ _ (expiration t) Hs2) as (q' & -> & Hs' & Hc). rewrite bind_val.
    eexists q', _. split; [reflexivity|]. split; [exact Hs'|]. intros _. destruct Hec as (rest & Hec). unfold armed. cbn.
    fold t. by rewrite Hec.
  - eexists q2, _. split; [reflexivity|]. split; [exact Hs2|]. unfold armed. cbn. fold t.
    destruct (insert_timer t (pending ag)), (pending ag); try done. cbn in Hec. by injection Hec as ->.
Qed.

(** ** Cancel *)

(** Unlinking and releasing a timer of the index: the part of Cancel before the
    timerfd. *)
Lemma unlink_sim q ag l cur id a : sim q ag l cur -> active_timers_ q !! id = Some a ->
  exists q' l', ('(q, erased) ← index_erase (set_active q (delete id (active_timers_ q))) a;
       ALYRN_CHECK erased;; ReleaseTimer q a) = Val q' /\
    sim q' (set_pending ag (drop_timer id (pending ag))) l' cur /\ timerfd q' = timerfd q.
Proof.
  intros H Ha. unfold index_erase. cbn [timers_ set_active].
  destruct (tracks_unlink _ _ _ _ _ _ _ _ _ _ _ (sm_tracks _ _ _ _ H) (ao_nodup _ (sm_ok _ _ _ _ H)) Ha)
    as (i' & t & -> & Ht & Hs & HT). rewrite !bind_val, check_true, bind_val.
  destruct (tracks_release _ _ _ _ _ _ _ _ _ _ _ HT) as (p' & HP & HT').
  unfold ReleaseTimer. cbn [timer_pool_ set_timers set_active]. rewrite HP, bind_val.
  eexists _, _. split; [reflexivity|]. split; [|done].
  pose proof (ag_drop_ok ag id (sm_ok _ _ _ _ H)). pose proof (sm_room _ _ _ _ H) as [? ?].
  destruct H. split; cbn; try exact HT'; auto. split; [done | by apply delete_size].
Qed.

Lemma Cancel_sim q ag l cur id : sim q ag l cur ->
  exists q' l', Cancel q id = Val q' /\ sim q' (ag_cancel ag id).1 l' cur /\ (armed q ag -> armed q' (ag_cancel ag id).1).
Proof.
  intros H. unfold Cancel, ag_cancel. rewrite (tracks_has_timer _ _ _ _ _ _ _ _ _ id (sm_tracks _ _ _ _ H)).
  destruct (active_timers_ q !! id) as [a|] eqn:Ea.
  - rewrite bool_decide_eq_true_2 by done. cbn [fst bk_cancelled timerfd_backend].
    pose proof (tracks_Earliest _ _ _ _ _ _ _ _ _ (sm_tracks _ _ _ _ H)) as He.
    assert (exists e, idx_Earliest (timers_ q) = Val e /\
      (e <> a -> head (drop_timer id (pending ag)) = head (pending ag))) as (e & -> & Hhd).
    { destruct (pending ag) as [|u ts]; [by exists nullptr; destruct He|].
      destruct He as (x & l' & -> & E & Hx & Hax). exists x. split; [done|]. intros Hne. unfold drop_timer. cbn.
      rewrite (proj2 (Z.eqb_neq (sequence u) id)); [done|]. intros <-. congruence. }
    rewrite bind_val. destruct (unlink_sim _ _ _ _ _ _ H Ea) as (q1 & l1 & Hq1 & H1 & Hfd).
    apply bind_Val_inv in Hq1 as ([q2 b] & -> & Hq1). rewrite bind_val.
    apply bind_Val_inv in Hq1 as (u & -> & ->). rewrite !bind_val.
    assert (sim q1 (set_backend (set_pending ag (drop_timer id (pending ag))) (backend ag)) l1 cur) as H1'.
    { pose proof (ag_backend_ok _ (backend ag) (sm_ok _ _ _ _ H1)). destruct H1. by split. }
    rewrite (sim_empty _ _ _ _ H1). cbn [pending set_pending].
    destruct (Z.eqb_spec a e) as [->|Hne]; cbn [andb].
    + case_bool_decide as Hp; cbn [negb].
      * eexists q1, _. split; [done|]. split; [exact H1'|]. intros _. unfold armed. cbn. by rewrite Hp.
      * destruct (rearm_sim _ _ _ _ H1' Hp) as (q3 & -> & H3 & Harm). eexists q3, _. by split_and!.
    + eexists q1, _. split; [done|]. split; [exact H1'|]. unfold armed. rewrite Hfd. cbn.
      specialize (Hhd ltac:(congruence)). destruct (drop_timer id (pending ag)), (pending ag); try done.
      cbn in Hhd. by injection Hhd as ->.
  - rewrite bool_decide_eq_false_2 by (by intros [? ?]).
    rewrite (sm_processing _ _ _ _ H), (sm_running _ _ _ _ H). destruct cur as [[b u]|]; cbn [fmap option_fmap option_map default fst snd].
    + destruct (tr_free _ _ _ _ _ _ _ _ _ (sm_tracks _ _ _ _ H) b u ltac:(set_solver)) as [Hb Hu].
      assert (b <> nullptr) as Hb0 by (eapply tracks_region; [apply H|]; by apply elem_of_dom).
      cbn. rewrite (proj2 (Z.eqb_neq _ _) Hb0). cbn [negb]. unfold deref. rewrite Hu, bind_val.
      destruct (Z.eqb_spec (sequence u) id) as [<-|Hne]; [|by eexists q, l].
      eexists _, l. split; [reflexivity|]. split; [|done].
      pose proof (ag_cancel_ok ag (sequence u) (sm_ok _ _ _ _ H)) as Hok. unfold ag_cancel in Hok.
      rewrite (tracks_has_timer _ _ _ _ _ _ _ _ _ _ (sm_tracks _ _ _ _ H)), Ea, (sm_running _ _ _ _ H) in Hok. cbn in Hok.
      rewrite Z.eqb_refl in Hok. destruct H. by split.
    + by eexists q, l.
Qed.

(** ** Callbacks *)

Lemma fits_le ag ag' : fits ag' -> next_sequence ag <= next_sequence ag' -> fits ag.
Proof. unfold fits. lia. Qed.

Lemma elapse_sim q ag l cur d : sim q ag l cur -> sim (set_time q (time q + Z.of_N d)) (set_now ag (now ag + Z.of_N d)) l cur.
Proof. intros H. rewrite (sm_time _ _ _ _ H). pose proof (ag_now_ok ag (time q + Z.of_N d) (sm_ok _ _ _ _ H)). destruct H. by split. Qed.

Lemma run_sim cb : forall q ag l cur, sim q ag l cur -> fits (ag_run cb ag) ->
  exists q' l', run_callback cb q = Val q' /\ sim q' (ag_run cb ag) l' cur.
Proof.
  induction cb as [|cb IHcb w i k IHk|id k IHk|k IHk|d k IHk]; intros q ag l cur H Hfit; cbn [run_callback ag_run] in *.
  - by exists q, l.
  - pose proof (ag_add_ok ag (Some cb) w i (sm_ok _ _ _ _ H)) as Hok.
    pose proof (AddTimer_sim q ag l cur (Some cb) w i H) as HA.
    change (ag_add ag (Some cb) w i) with ((ag_add ag (Some cb) w i).1, @Ok Z Error (next_sequence ag)) in Hfit |- *.
    destruct (ag_run_ok (k (Ok (next_sequence ag))) _ Hok) as (_ & _ & _ & Hmono & _).
    destruct (HA (fits_le _ _ Hfit Hmono)) as (q1 & l1 & -> & H1 & _). rewrite bind_val. by eapply IHk.
  - destruct (Cancel_sim q ag l cur id H) as (q1 & l1 & -> & H1 & _). rewrite bind_val.
    assert (ag_cancel ag id = ((ag_cancel ag id).1, Ok tt)) as E by (unfold ag_cancel; by repeat case_match).
    rewrite E in Hfit |- *. by eapply IHk.
  - unfold SteadyNow. rewrite <- (sm_time _ _ _ _ H). by eapply IHk.
  - apply (IHk _ _ l); [|done]. by apply elapse_sim.
Qed.

(** ** HandleRead *)

(** The earliest timer leaves the index and the table. *)
Lemma pop_start_sim q ag l t rest : sim q ag l None -> pending ag = t :: rest ->
  exists a i' l' q', idx_Earliest (timers_ q) = Val a /\ objects q !! a = Some t /\ idx_Erase (timers_ q) a = Val (i', true) /\
    pop_start (set_timers q i') a = Val (q', t) /\ sim q' (ag_start ag t rest) l' (Some (a, t)).
Proof.
  intros H Hp. pose proof (sm_tracks _ _ _ _ H) as HT. pose proof (ao_nodup _ (sm_ok _ _ _ _ H)) as HN. rewrite Hp in HT, HN.
  destruct (tracks_pop _ _ _ _ _ _ _ _ _ _ HT HN) as (a & l' & i' & -> & E1 & Ht & Hact & E2 & HT').
  exists a, i', l'. unfold pop_start, deref. cbn [objects set_timers]. rewrite Ht, bind_val.
  unfold active_erase. cbn [active_timers_ set_timers]. rewrite Hact, check_true, bind_val.
  eexists. split_and!; [done | done | done | reflexivity|].
  pose proof (ag_start_ok ag t rest (sm_ok _ _ _ _ H) Hp). destruct H. split; cbn; auto. by f_equal.
Qed.

(** The callback is over: the timer is restarted or destroyed. *)
Lemma pop_finish_sim q ag l a t at_ : sim q ag l (Some (a, t)) -> (repeat t = true -> 0 < interval_ t) ->
  exists q' l', pop_finish q at_ a = Val q' /\ sim q' (ag_finish ag t at_) l' None.
Proof.
  intros H Hi. unfold pop_finish. pose proof (sm_tracks _ _ _ _ H) as HT. cbn [option_list] in HT.
  destruct (tr_free _ _ _ _ _ _ _ _ _ HT a t ltac:(set_solver)) as [Hal Ht].
  pose proof (ag_finish_ok ag t at_ (sm_ok _ _ _ _ H) (sm_running _ _ _ _ H) Hi) as Hok.
  unfold deref. cbn [objects set_processing]. rewrite Ht, bind_val. unfold ag_finish in *. rewrite (sm_cancelled _ _ _ _ H) in *.
  pose proof (sm_room _ _ _ _ H) as [? ?]. destruct (repeat t && negb (processing_timer_cancelled_ q)) eqn:Hrep.
  - assert (active_timers_ q !! sequence (Restart t at_) = None) as Hact.
    { destruct (ao_running _ (sm_ok _ _ _ _ H) _ (sm_running _ _ _ _ H)) as [_ Hno].
      rewrite (tracks_has_timer _ _ _ _ _ _ _ _ _ _ HT) in Hno. apply bool_decide_eq_false, eq_None_not_Some in Hno. done. }
    destruct (tracks_link _ _ _ _ _ _ _ _ _ _ _ (tracks_restart _ _ _ _ _ _ _ _ _ _ _ (Restart t at_) HT) Hact)
      as (i' & HI & HT').
    unfold index_insert. cbn [objects timers_ set_objects set_processing]. rewrite HI, !bind_val, check_true, bind_val.
    unfold active_emplace. cbn [active_timers_ set_timers set_objects set_processing].
    change (sequence (Restart t at_)) with (sequence t) in *. rewrite Hact, check_true, bind_val.
    eexists _, _. split; [reflexivity|]. destruct H. split; cbn; try exact HT'; auto. split; [done|].
    rewrite dom_insert_lookup_L by eauto. done.
  - destruct (tracks_release _ _ _ _ _ _ _ _ _ _ _ HT) as (p' & HP & HT').
    unfold ReleaseTimer. cbn [timer_pool_ set_processing]. rewrite HP, bind_val.
    eexists _, _. split; [reflexivity|]. destruct H. split; cbn; try exact HT'; auto. split; [done | by apply delete_size].
Qed.

Abbreviation popper := (fun at_ (i : Ix) q a => q ← on_pop at_ (set_timers q i) a; Val (timers_ q, q)).

Lemma pop_loop_sim at_ fuel : forall q ag ag' l popped,
  ag_fire fuel at_ ag = Some ag' -> sim q ag l None -> fits ag' ->
  exists q' l' n, idx_pop_loop queue fuel (is_due at_) (popper at_) (timers_ q) q popped = Val (timers_ q', q', n) /\
    sim q' ag' l' None.
Proof.
  induction fuel as [|fuel IH]; intros q ag ag' l popped Hf H Hfit; [done|]. rewrite idx_pop_loop_eq. unfold pop_body.
  cbn [ag_fire] in Hf. rewrite (sim_empty _ _ _ _ H). destruct (pending ag) as [|t rest] eqn:Hp.
  { injection Hf as <-. eexists q, l, _. split; [done | done]. }
  rewrite bool_decide_eq_false_2 by done.
  destruct (pop_start_sim _ _ _ _ _ H Hp) as (a & i' & l1 & q1 & -> & Ht & HE & Hst & H1).
  rewrite bind_val. unfold is_due at 1. rewrite Ht. destruct (expiration t <=? at_); cbn [negb].
  - rewrite HE, bind_val, check_true, bind_val. cbv beta.
    assert (fits (ag_run (Run t) (ag_start ag t rest))) as Hfit1.
    { eapply fits_le; [exact Hfit|]. rewrite <- (ag_finish_next _ t at_). eapply ag_fire_next; [|exact Hf].
      by apply ag_round_ok; [apply H|]. }
    destruct (run_sim (Run t) _ _ _ _ H1 Hfit1) as (q2 & l2 & E2 & H2).
    destruct (pop_finish_sim _ _ _ _ _ at_ H2) as (q3 & l3 & E3 & H3).
    { apply (ao_intervals _ (sm_ok _ _ _ _ H)). rewrite Hp. set_solver. }
    assert (on_pop at_ (set_timers q i') a = Val q3) as ->.
    { unfold on_pop. by rewrite Hst, bind_val, E2, bind_val. }
    rewrite !bind_val. by eapply IH.
  - injection Hf as <-. eexists q, _, _. split; [done | exact H].
Qed.

Lemma HandleRead_sim fuel q ag ag' l : sim q ag l None -> ag_fire fuel (now ag) ag = Some ag' -> fits ag' ->
  exists q' l', HandleRead fuel q = Val q' /\ sim q' ag' l' None /\ armed q' ag'.
Proof.
  intros H Hf Hfit. unfold HandleRead, ReadTimerfd, SteadyNow. rewrite <- (sm_time _ _ _ _ H).
  destruct (read_loop_ok (timerfd q) _ (sm_reads _ _ _ _ H)) as (fd & rs & -> & Hrs). rewrite !bind_val.
  assert (sim (set_reads q fd rs) ag l None) as H1 by (destruct H; by split).
  destruct (pop_loop_sim (now ag) fuel _ _ _ _ 0 Hf H1 Hfit) as (q2 & l2 & n & E & H2). unfold PopWhile. rewrite E, bind_val.
  assert (set_timers q2 (timers_ q2) = q2) as -> by (by destruct q2).
  rewrite (sim_empty _ _ _ _ H2). case_bool_decide as Hp; cbn [negb].
  - exists q2, l2. split_and!; [done | done|]. unfold armed. by rewrite Hp.
  - destruct (rearm_sim _ _ _ _ H2 Hp) as (q3 & -> & H3 & Ha). by exists q3, l2.
Qed.

(** ** The destructor *)

Lemma destroy_loop_sim fuel : forall q ag l, sim q ag l None -> (length (pending ag) < fuel)%nat ->
  exists q' ag' l', destroy_loop fuel q = Val q' /\ sim q' ag' l' None /\ pending ag' = [].
Proof.
  induction fuel as [|fuel IH]; intros q ag l H Hf; [lia|]. cbn [destroy_loop]. rewrite (sim_empty _ _ _ _ H).
  pose proof (tracks_Earliest _ _ _ _ _ _ _ _ _ (sm_tracks _ _ _ _ H)) as He.
  destruct (pending ag) as [|t rest] eqn:Hp.
  { rewrite bool_decide_eq_true_2 by done. by exists q, ag, l. }
  rewrite bool_decide_eq_false_2 by done. destruct He as (a & l' & -> & -> & Ht & Hact).
  rewrite bind_val. unfold deref. rewrite Ht, bind_val. unfold active_erase. rewrite Hact, check_true, bind_val.
  destruct (unlink_sim _ _ _ _ _ _ H Hact) as (q1 & l1 & Hq1 & H1 & _).
  apply bind_Val_inv in Hq1 as ([q2 b] & -> & Hq1). rewrite bind_val.
  apply bind_Val_inv in Hq1 as (u & -> & ->). rewrite !bind_val. apply (IH _ _ _ H1).
  pose proof (ao_nodup _ (sm_ok _ _ _ _ H)) as HN. cbn. rewrite Hp in *. rewrite drop_head by done. cbn in Hf. lia.
Qed.

(** ** Scripts *)

Definition q_op (fuel : nat) (o : top unit) q : outcome queue :=
  match o with
  | TAdd cb w i => '(q, _) ← AddTimer q cb w i; Val q
  | TCancel id => Cancel q id
  | TElapse d => Val (set_time q (time q + Z.of_N d))
  | TFire _ => HandleRead fuel q
  end.

Fixpoint q_run (fuel : nat) (ops : list (top unit)) q : outcome queue :=
  match ops with [] => Val q | o :: ops => q ← q_op fuel o q; q_run fuel ops q end.

(** Between operations: no callback runs and the timerfd is armed in time. *)
Definition ready q ag : Prop := (exists l, sim q ag l None) /\ armed q ag.

Lemma set_unit ag (u : unit) : set_backend ag u = ag.
Proof. destruct ag as [p r c n s f []]. by destruct u. Qed.

Lemma q_op_sim fuel o q ag ag' : ready q ag -> ag_op fuel o ag = Some ag' -> fits ag' ->
  exists q', q_op fuel o q = Val q' /\ ready q' ag'.
Proof.
  intros [[l H] Ha] Ho Hfit. destruct o as [cb w i|id|d|ev]; cbn [ag_op q_op] in *.
  - injection Ho as <-. destruct (AddTimer_sim q ag l None cb w i H Hfit) as (q' & l' & -> & H' & Ha').
    rewrite bind_val. exists q'. split; [done|]. split; [by exists l' | auto].
  - destruct (Cancel_sim q ag l None id H) as (q' & l' & -> & H' & Ha'). injection Ho as <-.
    exists q'. split; [done|]. split; [by exists l' | auto].
  - injection Ho as <-. eexists. split; [reflexivity|]. split; [|done]. exists l. by apply elapse_sim.
  - unfold ag_event in Ho. cbn in Ho. rewrite set_unit in Ho.
    apply bind_Some in Ho as (ag1 & Ho & [= <-]). rewrite set_unit in Hfit |- *.
    destruct (HandleRead_sim fuel q ag ag1 l H Ho Hfit) as (q' & l' & -> & H' & Ha').
    exists q'. split; [done|]. split; [by exists l' | done].
Qed.

Lemma ready_idle q ag : ready q ag -> idle ag.
Proof. intros [[l H] _]. split; [apply H|]. by rewrite (sm_running _ _ _ _ H). Qed.

Lemma q_run_sim fuel ops : forall q ag ag', ready q ag -> ag_run_all fuel ops ag = Some ag' -> fits ag' ->
  exists q', q_run fuel ops q = Val q' /\ ready q' ag'.
Proof.
  induction ops as [|o ops IH]; intros q ag ag' Hr Ho Hfit; cbn [ag_run_all q_run] in *.
  - injection Ho as <-. by exists q.
  - apply bind_Some in Ho as (ag1 & Ho & Ho').
    assert (idle ag1) as Hi by (eapply ag_op_idle; [by eapply ready_idle | exact Ho]).
    destruct (q_op_sim fuel o q ag ag1 Hr Ho) as (q1 & -> & Hr1).
    { eapply fits_le; [exact Hfit|]. by eapply ag_run_all_next. }
    rewrite bind_val. by eapply IH.
Qed.

Abbreviation empty_agenda t := (empty_agenda t first tt).

Lemma new_queue_ready i p t rs rd :
  holds (TimerLess ∅) i ∅ [] -> pool_live p ∅ -> settime_ok rs -> read_ok rd ->
  ready (new_queue i p t first rs rd) (empty_agenda t).
Proof.
  intros HI HP Hs Hr. split; [|done]. exists []. split; cbn; try done.
  - by apply tracks_empty.
  - apply (empty_idle t first tt).
  - rewrite dom_empty_L, size_empty. lia.
Qed.

(** A fresh queue over an empty index and an empty pool, with system calls that
    fail only with EINTR or EAGAIN. *)
Record fresh (i : Ix) (p : Pl) (rs : list Z) (rd : list read_result) : Prop := {
  fr_index : holds (TimerLess ∅) i ∅ [];
  fr_pool : pool_live p ∅;
  fr_settime : settime_ok rs;
  fr_reads : read_ok rd;
}.

(** C17. The epoll timer queue, over any ordered index and any pool that obey
    their interfaces, behaves like the agenda. Every script of AddTimer, Cancel,
    passing time and timerfd events ends, whatever the callbacks do; as long as
    the pool has room for the timers it makes, the queue runs it without aborting,
    and the callbacks run are those of the agenda, in its order; whenever a timer
    is pending the timerfd is armed, for no later than its expiration or 100
    microseconds. Destroying the queue afterwards does not abort either. *)
Theorem epoll_timers_refine_agenda i p t rs rd ops :
  fresh i p rs rd ->
  (exists fuel ag, forall more, ag_run_all (fuel + more) ops (empty_agenda t) = Some ag) /\
  forall fuel ag, ag_run_all fuel ops (empty_agenda t) = Some ag -> fits ag ->
  exists q, q_run fuel ops (new_queue i p t first rs rd) = Val q /\
    log q = fired ag /\ time q = now ag /\
    (forall id, is_Some (active_timers_ q !! id) <-> has_timer id (pending ag) = true) /\ armed q ag /\
    exists q', destroy_queue q = Val q' /\ active_timers_ q' = ∅ /\ objects q' = ∅.
Proof.
  intros [HI HP Hs Hr]. pose proof (new_queue_ready i p t rs rd HI HP Hs Hr) as Hrd.
  split; [by eapply ag_run_all_total, ready_idle|]. intros fuel ag Hag Hfit.
  destruct (q_run_sim fuel ops _ _ ag Hrd Hag Hfit) as (q & Hq & [[l H] Ha]).
  exists q. split_and!; [done | by rewrite (sm_log _ _ _ _ H) | by rewrite (sm_time _ _ _ _ H) | | done |].
  - intros id. rewrite (tracks_has_timer _ _ _ _ _ _ _ _ _ _ (sm_tracks _ _ _ _ H)). by rewrite bool_decide_eq_true.
  - pose proof (tracks_size _ _ _ _ _ _ _ _ _ (sm_tracks _ _ _ _ H) (ao_nodup _ (sm_ok _ _ _ _ H))) as Hsz.
    destruct (destroy_loop_sim (S (size (active_timers_ q))) q ag l H ltac:(lia)) as (q2 & ag2 & l2 & E & H2 & Hp).
    exists q2. split; [done|]. pose proof (sm_tracks _ _ _ _ H2) as HT. rewrite Hp in HT. by eapply tracks_nil.
Qed.

(** C18. Handling a timerfd event terminates, although the callbacks it runs may
    add timers that are already due and repeating timers go back into the index:
    after any script some fuel is enough, and more changes nothing. It runs only
    timers that were due at its start, and leaves none that was. *)
Theorem epoll_handle_read_terminates i p t rs rd ops fuel0 ag :
  fresh i p rs rd -> ag_run_all fuel0 ops (empty_agenda t) = Some ag -> fits ag ->
  exists q, q_run fuel0 ops (new_queue i p t first rs rd) = Val q /\
  exists fuel ag', forall more, ag_fire (fuel + more) (now ag) ag = Some ag' /\
    (fits ag' -> exists q' ext, HandleRead (fuel + more) q = Val q' /\
      log q' = log q ++ ext /\ Forall (fun x => x.2 <= time q) ext /\
      (forall id a u, active_timers_ q' !! id = Some a -> objects q' !! a = Some u -> time q < expiration u)).
Proof.
  intros [HI HP Hs Hr] Hag Hfit. pose proof (new_queue_ready i p t rs rd HI HP Hs Hr) as Hrd.
  destruct (q_run_sim fuel0 ops _ _ ag Hrd Hag Hfit) as (q & Hq & [[l H] Ha]). exists q. split; [done|].
  destruct (ag_fire_terminates (now ag) ag (ao_intervals _ (sm_ok _ _ _ _ H))) as (fuel & ag' & Hf).
  exists fuel, ag'. intros more. specialize (Hf more). split; [done|]. intros Hfit'.
  destruct (HandleRead_sim _ q ag ag' l H Hf Hfit') as (q' & l' & E & H' & _).
  destruct (ag_fire_spec _ _ _ _ (sm_ok _ _ _ _ H) (sm_running _ _ _ _ H) Hf) as (_ & _ & Hlate & ext & Hext & Hdue).
  exists q', ext. rewrite <- (sm_log _ _ _ _ H), <- (sm_log _ _ _ _ H'), <- (sm_time _ _ _ _ H).
  split_and!; [done | done | done |]. intros id a u Hact Hu.
  pose proof (sm_tracks _ _ _ _ H') as HT. apply (tr_active _ _ _ _ _ _ _ _ _ HT) in Hact as [Hal _].
  destruct (tracks_deref _ _ _ _ _ _ _ _ _ _ HT Hal) as (v & Hv & Hin). rewrite Hu in Hv. injection Hv as <-.
  by apply Hlate.
Qed.

(** A timer that was cancelled never fires again: after Cancel with an id
    issued before, no later script, however its callbacks behave, runs the
    callback of that timer; a stale id hits no newer timer. *)
Theorem epoll_cancelled_timer_never_fires i p t rs rd ops1 id ops2 fuel ag1 ag2 :
  fresh i p rs rd -> ag_run_all fuel ops1 (empty_agenda t) = Some ag1 ->
  ag_run_all fuel (TCancel id :: ops2) ag1 = Some ag2 -> fits ag2 -> id < next_sequence ag1 ->
  exists q1 q2 ext, q_run fuel ops1 (new_queue i p t first rs rd) = Val q1 /\
    q_run fuel (TCancel id :: ops2) q1 = Val q2 /\ log q2 = log q1 ++ ext /\ (id ∉ ext.*1).
Proof.
  intros [HI HP Hs Hr] Hag1 Hag2 Hfit Hid. pose proof (new_queue_ready i p t rs rd HI HP Hs Hr) as Hrd.
  assert (idle ag1) as Hi by (eapply ag_run_all_idle; [by eapply ready_idle | exact Hag1]).
  destruct (q_run_sim fuel ops1 _ _ ag1 Hrd Hag1) as (q1 & Hq1 & Hrd1).
  { eapply fits_le; [exact Hfit|]. by eapply ag_run_all_next. }
  destruct (q_run_sim fuel (TCancel id :: ops2) q1 ag1 ag2 Hrd1 Hag2 Hfit) as (q2 & Hq2 & [[l' H'] _]).
  pose proof Hrd1 as [[l H] _]. cbn in Hag2.
  assert (gone id (ag_cancel ag1 id).1) as Hg by (apply cancel_gone; [apply H | done]).
  destruct (ag_run_all_gone id _ _ _ _ (ag_op_idle 0 (TCancel id) ag1 _ Hi eq_refl) Hg Hag2) as (ext & Hext & Hno).
  exists q1, q2, ext. rewrite <- (sm_log _ _ _ _ H), <- (sm_log _ _ _ _ H'). split_and!; [done | done | | done].
  rewrite Hext. f_equal. apply ag_cancel_frame.
Qed.

End sim.

(** ** A concrete queue

    A red-black tree with its header at 8, and an object pool with three slots at
    4096 and room for eight overflow nodes. *)

Definition example_index : gmap Z RBTree.node * RBTree.tree :=
  (<[8 := RBTreeRep.mk 8 false false 8 8]> ∅, RBTree.mkTree 8 0).

Lemma example_index_holds : rb_holds 8 (TimerLess ∅) example_index ∅ [].
Proof.
  split_and!; [|done|done]. split; [|set_solver|set_solver|set_solver]. exists RBTreeRep.E, 0%nat.
  split_and!; try done; [|constructor].
  split; [done | done |]. split; [apply NoDup_singleton|]. apply Forall_singleton. by unfold RBTreeRep.is_addr.
Qed.

Lemma example_storage : storage_in_region MemoryPoolProps.example_params ObjectPoolProps.example_new_node 8 (rb_region 8) 8.
Proof.
  split; [apply MemoryPoolProps.example_params_ok | apply ObjectPoolProps.example_new_node_ok | |].
  - intros s Hs. unfold rb_region, RBTreeRep.is_addr, MemoryPoolProps.slot_addr.
    change (MemoryPool.kSlotSize MemoryPoolProps.example_params) with 16.
    change (MemoryPool.buffer MemoryPoolProps.example_params) with 4096.
    change (MemoryPool.kCapacity MemoryPoolProps.example_params) with 3 in Hs.
    assert (s = 0 \/ s = 1 \/ s = 2) as Hc by lia.
    destruct Hc as [->|[->| ->]]; (split; [split; [lia | done] | done]).
  - intros N n H. apply ObjectPoolProps.example_new_node_in in H as [H _]. unfold ObjectPoolProps.example_places in H. set_unfold.
    unfold rb_region, RBTreeRep.is_addr, ObjectPool.Object.
    destruct_or!; subst; (split; [split; [lia | done] | done]).
Qed.

#[local] Existing Instance rbtree_ops.
#[local] Instance example_pool_ops : TimerPoolOps ObjectPool.opool :=
  object_pool_ops MemoryPoolProps.example_params ObjectPoolProps.example_new_node 8.
#[local] Instance example_rbtree : TimerIndex (gmap Z RBTree.node * RBTree.tree) (rb_region 8) := rbtree_index 8.
#[local] Instance example_pool : TimerPool ObjectPool.opool (rb_region 8) 8 :=
  object_pool_laws MemoryPoolProps.example_params ObjectPoolProps.example_new_node 8 (rb_region 8) 8 example_storage.

(** Five timers; the callback of the first cancels the third and adds one that is
    already due; the second repeats every 30 microseconds. *)
Definition example_callback : callback :=
  CCancel 2 (fun _ => CNow (fun t => CAddTimer CReturn (t - 5) 0 (fun _ => CReturn))).

Definition example_script : list (top unit) :=
  [TAdd (Some example_callback) 10000 0; TAdd (Some CReturn) 20000 30000; TAdd (Some CReturn) 25000 0; TAdd None 400000 0;
   TElapse 26000; TFire tt; TElapse 40000; TFire tt].

Definition example_rest : list (top unit) := [TElapse 40000; TFire tt].

Lemma example_fresh : fresh (rb_region 8) 8 example_index (ObjectPool.new_pool MemoryPoolProps.example_params) [EINTR; 0] [RErrno EINTR].
Proof.
  split.
  - apply example_index_holds.
  - cbn. eapply ObjectPoolProps.new_pool_holds; [apply MemoryPoolProps.example_params_ok | apply ObjectPoolProps.example_new_node_ok].
  - unfold settime_ok. rewrite !Forall_cons. split_and!; [by right | by left | constructor].
  - unfold read_ok. rewrite Forall_cons. split; [by right; left | constructor].
Qed.

Definition example_queue (rs : list Z) (rd : list read_result) : queue (gmap Z RBTree.node * RBTree.tree) ObjectPool.opool :=
  new_queue example_index (ObjectPool.new_pool MemoryPoolProps.example_params) 0 0 rs rd.

Definition example_agenda (ops : list (top unit)) : agenda unit := default (TimerAgenda.empty_agenda 0 0 tt) (ag_run_all 10 ops (TimerAgenda.empty_agenda 0 0 tt)).

Lemma epoll_timers_refine_agenda_witness :
  exists q, q_run 10 example_script (example_queue [EINTR; 0] [RErrno EINTR]) = Val q /\
    log q = [(0, 10000); (1, 20000); (4, 25995); (1, 56000)].
Proof.
  destruct (epoll_timers_refine_agenda (rb_region 8) 8 0 ltac:(lia) example_index
    (ObjectPool.new_pool MemoryPoolProps.example_params) 0 [EINTR; 0] [RErrno EINTR] example_script example_fresh) as [_ H].
  destruct (H 10%nat (example_agenda example_script)) as (q & Hq & Hlog & _).
  - vm_compute. reflexivity.
  - vm_compute. discriminate.
  - exists q. split; [exact Hq|]. rewrite Hlog. vm_compute. reflexivity.
Defined.

Lemma epoll_handle_read_terminates_witness :
  exists q, q_run 10 (take 5 example_script) (example_queue [] []) = Val q /\ exists fuel, no_panic (HandleRead fuel q).
Proof.
  assert (fresh (rb_region 8) 8 example_index (ObjectPool.new_pool MemoryPoolProps.example_params) [] []) as Hf.
  { destruct example_fresh as [H1 H2 _ _]. split; [exact H1 | exact H2 | constructor | constructor]. }
  destruct (epoll_handle_read_terminates (rb_region 8) 8 0 ltac:(lia) example_index
    (ObjectPool.new_pool MemoryPoolProps.example_params) 0 [] [] (take 5 example_script) 10
    (example_agenda (take 5 example_script)) Hf) as (q & Hq & fuel & ag' & H).
  - vm_compute. reflexivity.
  - vm_compute. discriminate.
  - exists q. split; [exact Hq|]. exists (fuel + 0)%nat. destruct (H 0%nat) as [_ Hrun].
    destruct Hrun as (q' & ext & E & _); [|exists q'; exact E].
    destruct (ag_fire 10 (now (example_agenda (take 5 example_script))) (example_agenda (take 5 example_script)))
      as [ag2|] eqn:E2; [|vm_compute in E2; discriminate].
    pose proof (ag_fire_more _ fuel _ _ _ E2) as E3. rewrite Nat.add_comm, (proj1 (H 10%nat)) in E3.
    injection E3 as ->. vm_compute in E2. injection E2 as <-. vm_compute. discriminate.
Defined.

(** The third timer is cancelled before it is due; the second one goes on. *)
Lemma epoll_cancelled_timer_never_fires_witness :
  exists q1 q2 ext, q_run 10 (take 3 example_script) (example_queue [] []) = Val q1 /\
    q_run 10 (TCancel 2 :: example_rest) q1 = Val q2 /\ log q2 = log q1 ++ ext /\ (2 ∉ ext.*1).
Proof.
  assert (fresh (rb_region 8) 8 example_index (ObjectPool.new_pool MemoryPoolProps.example_params) [] []) as Hf.
  { destruct example_fresh as [H1 H2 _ _]. split; [exact H1 | exact H2 | constructor | constructor]. }
  apply (epoll_cancelled_timer_never_fires (rb_region 8) 8 0 ltac:(lia) example_index
    (ObjectPool.new_pool MemoryPoolProps.example_params) 0 [] [] (take 3 example_script) 2 example_rest 10
    (example_agenda (take 3 example_script))
    (default (TimerAgenda.empty_agenda 0 0 tt) (ag_run_all 10 (TCancel 2 :: example_rest) (example_agenda (take 3 example_script)))) Hf).
  - vm_compute. reflexivity.
  - vm_compute. reflexivity.
  - vm_compute. discriminate.
  - vm_compute. reflexivity.
Defined.

End EpollTimersProps.
