(* ===== verification/Work.v ===== *)
(** * Schedulable work (include/alyrn/coro/work.h)

    [Work] keeps its action in one machine word: a callback address with the high
    bit clear, or a coroutine frame address with the high bit set. The queue hook
    of a work item is modelled with the intrusive queue. *)

From S2P Require Import Prelude.

Module Work.

Definition kResumeTag : Z := Z.shiftl 1 63.

(** [~] on [std::uintptr_t]. *)
Definition bnot (z : Z) : Z := Z.lxor z size_max.

Record t := mkWork { action_ : Z }.

(** Work() and ResumeWork(). *)
Definition new_Work : t := mkWork 0.
Definition ClearHandle (_ : t) : t := mkWork kResumeTag.
Definition new_ResumeWork : t := ClearHandle new_Work.

Definition SetRun (w : t) (run_fn : Z) : outcome t :=
  ALYRN_CHECK (negb (run_fn =? 0));;
  ALYRN_CHECK (Z.land run_fn kResumeTag =? 0);;
  Val (mkWork run_fn).

Definition SetHandle (w : t) (handle : Z) : outcome t :=
  ALYRN_CHECK (negb (handle =? 0));;
  ALYRN_CHECK (Z.land handle kResumeTag =? 0);;
  Val (mkWork (Z.lor handle kResumeTag)).

Definition IsResume (w : t) : bool := negb (Z.land (action_ w) kResumeTag =? 0).

Definition HasHandle (w : t) : bool :=
  IsResume w && negb (Z.land (action_ w) (bnot kResumeTag) =? 0).

Definition Handle (w : t) : outcome Z :=
  ALYRN_CHECK (HasHandle w);; Val (Z.land (action_ w) (bnot kResumeTag)).

(** What [Run] does: resume a coroutine or call a function with the work. *)
Inductive invoked := Resumed (handle : Z) | Called (run_fn : Z).

(** [done] tells which coroutines are at their final suspend point. *)
Definition Run (done : Z -> bool) (w : t) : outcome invoked :=
  if negb (Z.land (action_ w) kResumeTag =? 0) then
    let address := Z.land (action_ w) (bnot kResumeTag) in
    ALYRN_CHECK (negb (address =? 0));;
    ALYRN_CHECK (negb (done address));;
    Val (Resumed address)
  else
    ALYRN_CHECK (negb (action_ w =? 0));;
    Val (Called (action_ w)).

(** ** The tagged union the word stands for *)

Inductive action := ANone | ACleared | AResume (handle : Z) | ARun (run_fn : Z).

Inductive wop := WSetRun (run_fn : Z) | WSetHandle (handle : Z) | WClear.

Definition w_op (o : wop) (w : t) : outcome t :=
  match o with
  | WSetRun f => SetRun w f
  | WSetHandle h => SetHandle w h
  | WClear => Val (ClearHandle w)
  end.

(** Addresses of user space leave the high bit clear. *)
Definition user_address (a : Z) : bool := (0 <? a) && (a <? 2 ^ 63).

Definition action_op (o : wop) (a : action) : outcome action :=
  match o with
  | WSetRun f => if user_address f then Val (ARun f) else Panic
  | WSetHandle h => if user_address h then Val (AResume h) else Panic
  | WClear => Val ACleared
  end.

Definition action_run (done : Z -> bool) (a : action) : outcome invoked :=
  match a with
  | ANone | ACleared => Panic
  | AResume h => if done h then Panic else Val (Resumed h)
  | ARun f => Val (Called f)
  end.

Definition action_handle (a : action) : option Z :=
  match a with AResume h => Some h | _ => None end.

Fixpoint w_ops {A} (op : wop -> A -> outcome A) (os : list wop) (a : A) : outcome A :=
  match os with [] => Val a | o :: os => a ← op o a; w_ops op os a end.

(** An operation is given pointers: words of 64 bits. *)
Definition pointer_op (o : wop) : Prop :=
  match o with WSetRun p | WSetHandle p => is_usize p | WClear => True end.

(** The word of an action. *)
Definition encode (a : action) : Z :=
  match a with
  | ANone => 0
  | ACleared => kResumeTag
  | AResume h => Z.lor h kResumeTag
  | ARun f => f
  end.

Definition action_ok (a : action) : Prop :=
  match a with AResume p | ARun p => user_address p = true | _ => True end.

Lemma kResumeTag_eq : kResumeTag = 2 ^ 63.
Proof. reflexivity. Qed.

Lemma bnot_tag : bnot kResumeTag = Z.ones 63.
Proof. reflexivity. Qed.

Lemma user_address_spec a : user_address a = true <-> 0 < a < 2 ^ 63.
Proof. unfold user_address. rewrite andb_true_iff, !Z.ltb_lt. done. Qed.

(** A word has the high bit clear exactly when it is below 2^63. *)
Lemma tag_clear a : is_usize a -> (Z.land a kResumeTag =? 0) = (a <? 2 ^ 63).
Proof.
  unfold is_usize, size_max. intros Ha. rewrite kResumeTag_eq.
  destruct (Z.ltb_spec a (2 ^ 63)) as [Hlt|Hge].
  - apply Z.eqb_eq. apply Z.bits_inj'. intros n Hn. rewrite Z.land_spec, Z.bits_0, Z.pow2_bits_eqb by lia.
    destruct (Z.eqb_spec 63 n) as [<-|]; [|by rewrite andb_false_r].
    rewrite andb_true_r. destruct (decide (a = 0)) as [->|]; [apply Z.bits_0|]. apply Z.bits_above_log2; [lia|].
    apply Z.log2_lt_pow2; lia.
  - apply Z.eqb_neq. intros E. assert (Z.testbit a 63 = true) as Ht.
    { rewrite Z.testbit_true by lia. rewrite Z.mod_small; [|split; [apply Z.div_pos; lia | apply Z.div_lt_upper_bound; lia]].
      apply Z.le_antisymm; [|apply Z.div_le_lower_bound; lia].
      enough (a / 2 ^ 63 < 2) by lia. apply Z.div_lt_upper_bound; lia. }
    assert (Z.testbit (Z.land a (2 ^ 63)) 63 = true) as Hb by (rewrite Z.land_spec, Ht; reflexivity).
    rewrite E, Z.bits_0 in Hb. discriminate.
Qed.

Lemma land_or_tag a : 0 <= a < 2 ^ 63 ->
  Z.land (Z.lor a kResumeTag) kResumeTag = kResumeTag /\ Z.land (Z.lor a kResumeTag) (bnot kResumeTag) = a.
Proof.
  intros Ha. rewrite bnot_tag. split.
  - rewrite Z.land_lor_distr_l, Z.land_diag. assert (Z.land a kResumeTag = 0) as ->; [|done].
    apply Z.eqb_eq. rewrite tag_clear by (unfold is_usize, size_max; lia). apply Z.ltb_lt. lia.
  - rewrite Z.land_lor_distr_l. change (Z.land kResumeTag (Z.ones 63)) with 0. rewrite Z.lor_0_r, Z.land_ones by lia.
    apply Z.mod_small. lia.
Qed.

Lemma set_check p : is_usize p -> forall x : t,
  (ALYRN_CHECK (negb (p =? 0));; ALYRN_CHECK (Z.land p kResumeTag =? 0);; Val x) =
  (if user_address p then Val x else Panic).
Proof.
  intros Hp x. rewrite tag_clear by done. unfold user_address. unfold is_usize in Hp.
  destruct (Z.eqb_spec p 0) as [->|]; [done|]. rewrite (proj2 (Z.ltb_lt 0 p)) by lia. by destruct (p <? 2 ^ 63).
Qed.

Lemma w_op_encode o a : pointer_op o ->
  match action_op o a with
  | Val a' => w_op o (mkWork (encode a)) = Val (mkWork (encode a')) /\ action_ok a'
  | Panic => w_op o (mkWork (encode a)) = Panic
  end.
Proof.
  intros Hp. destruct o as [f|h|]; cbn [action_op w_op pointer_op] in *.
  - unfold SetRun. rewrite set_check by done. by destruct (user_address f) eqn:E.
  - unfold SetHandle. rewrite set_check by done. by destruct (user_address h) eqn:E.
  - done.
Qed.

Lemma encode_resume a : action_ok a ->
  (Z.land (encode a) kResumeTag =? 0) = match a with ANone | ARun _ => true | _ => false end.
Proof.
  destruct a as [| |h|f]; intros Ha; try reflexivity; cbn in *; apply user_address_spec in Ha.
  - by rewrite (proj1 (land_or_tag h ltac:(lia))).
  - rewrite tag_clear by (unfold is_usize, size_max; lia). apply Z.ltb_lt. lia.
Qed.

Lemma encode_run done a : action_ok a -> Run done (mkWork (encode a)) = action_run done a.
Proof.
  intros Ha. unfold Run. cbn [action_]. rewrite encode_resume by done.
  destruct a as [| |h|f]; try reflexivity; cbn in *; apply user_address_spec in Ha.
  - rewrite (proj2 (land_or_tag h ltac:(lia))), (proj2 (Z.eqb_neq h 0)) by lia. cbn. by destruct (done h).
  - by rewrite (proj2 (Z.eqb_neq f 0)) by lia.
Qed.

Lemma encode_handle a : action_ok a ->
  Handle (mkWork (encode a)) = match action_handle a with Some h => Val h | None => Panic end /\
  HasHandle (mkWork (encode a)) = bool_decide (is_Some (action_handle a)).
Proof.
  intros Ha. unfold Handle, HasHandle, IsResume. cbn [action_]. rewrite encode_resume by done.
  destruct a as [| |h|f]; try (split; reflexivity). cbn in *. apply user_address_spec in Ha.
  rewrite (proj2 (land_or_tag h ltac:(lia))), (proj2 (Z.eqb_neq h 0)) by lia. split; reflexivity.
Qed.

Lemma w_ops_encode os : Forall pointer_op os -> forall a, action_ok a ->
  match w_ops action_op os a with
  | Val a' => w_ops w_op os (mkWork (encode a)) = Val (mkWork (encode a')) /\ action_ok a'
  | Panic => w_ops w_op os (mkWork (encode a)) = Panic
  end.
Proof.
  induction 1 as [|o os Ho Hos IH]; intros a Ha; cbn [w_ops]; [done|].
  pose proof (w_op_encode o a Ho) as H. destruct (action_op o a) as [a'|]; [|by rewrite H].
  destruct H as [-> Ha']. rewrite !bind_val. by apply IH.
Qed.

(** C19. The action word of a work item is a well-typed tagged union. Whatever
    sequence of SetRun, SetHandle and ClearHandle is applied to a new work item,
    with arbitrary 64-bit pointers, it aborts exactly when a pointer is null or has
    the high bit set; otherwise the word denotes one action, the one last set: Run
    resumes exactly that coroutine or calls exactly that function, aborts exactly
    when nothing is set or the coroutine is done, and HasHandle and Handle answer
    for the coroutine alone. No callback is ever taken for a frame or a frame for
    a callback. *)
Theorem work_word_is_tagged_union (os : list wop) (done : Z -> bool) :
  Forall pointer_op os ->
  match w_ops action_op os ANone with
  | Panic => w_ops w_op os new_Work = Panic
  | Val a => exists w, w_ops w_op os new_Work = Val w /\ is_usize (action_ w) /\
      Run done w = action_run done a /\
      HasHandle w = bool_decide (is_Some (action_handle a)) /\
      Handle w = match action_handle a with Some h => Val h | None => Panic end
  end.
Proof.
  intros Hos. pose proof (w_ops_encode os Hos ANone Logic.I) as H. change (mkWork (encode ANone)) with new_Work in H.
  destruct (w_ops action_op os ANone) as [a|]; [|done]. destruct H as [H Ha]. eexists. split; [exact H|].
  destruct (encode_handle a Ha) as [H1 H2]. split_and!; [|by apply encode_run | done | done].
  cbn. unfold is_usize, size_max. destruct a as [| |h|f]; cbn in *; try (apply user_address_spec in Ha); try (rewrite kResumeTag_eq); try lia.
  split.
  - apply Z.lor_nonneg. lia.
  - enough (Z.lor h (2 ^ 63) < 2 ^ 64) by lia. apply Z.log2_lt_cancel. rewrite Z.log2_lor by lia.
    rewrite !Z.log2_pow2 by lia. pose proof (Z.log2_lt_pow2 h 63). lia.
Qed.

Lemma work_word_is_tagged_union_witness :
  exists w, w_ops w_op [WSetRun 4096; WClear; WSetHandle 8192] new_Work = Val w /\
    Run (fun _ => false) w = Val (Resumed 8192) /\ HasHandle w = true.
Proof.
  assert (Forall pointer_op [WSetRun 4096; WClear; WSetHandle 8192]) as H
    by (repeat constructor; vm_compute; discriminate).
  destruct (work_word_is_tagged_union _ (fun _ => false) H) as (w & E & _ & E1 & E2 & _).
  exists w. split; [exact E|]. split; [exact E1 | exact E2].
Defined.

End Work.
