(* ===== verification/UringOp.v ===== *)
(** * Ring operations (include/alyrn/uring/detail/op.h)

    The completion event a CQE carries, the kinds of operations and how each kind
    completes, the compact result cell and the operation object [Op]. Constants of
    the kernel interface have their values of the uapi header. *)

From S2P Require Import Prelude Lifecycles Work.

Module UringOp.

Definition IORING_CQE_F_BUFFER : Z := 1.
Definition IORING_CQE_F_MORE : Z := 2.
Definition IORING_CQE_F_NOTIF : Z := 8.
Definition IORING_CQE_F_BUF_MORE : Z := 16.
Definition IORING_CQE_BUFFER_SHIFT : Z := 16.
Definition IORING_NOTIF_USAGE_ZC_COPIED : Z := 2 ^ 31.

Definition flag_set (word flag : Z) : bool := negb (Z.land word flag =? 0).

Record CompletionEvent := mkEvent { event_result : Z; event_flags : Z }.

Definition More (e : CompletionEvent) : bool := flag_set (event_flags e) IORING_CQE_F_MORE.
Definition Notification (e : CompletionEvent) : bool := flag_set (event_flags e) IORING_CQE_F_NOTIF.
Definition BufferMore (e : CompletionEvent) : bool := flag_set (event_flags e) IORING_CQE_F_BUF_MORE.
Definition HasSelectedBuffer (e : CompletionEvent) : bool := flag_set (event_flags e) IORING_CQE_F_BUFFER.
Definition SelectedBufferId (e : CompletionEvent) : Z := Z.shiftr (event_flags e) IORING_CQE_BUFFER_SHIFT.
(** The result is converted to [std::uint32_t] first. *)
Definition ZeroCopyWasCopied (e : CompletionEvent) : bool :=
  flag_set (event_result e mod 2 ^ 32) IORING_NOTIF_USAGE_ZC_COPIED.

Inductive CompletionModel := kSingleShot | kEventStream | kSplitRelease.

#[global] Instance CompletionModel_eq_dec : EqDecision CompletionModel.
Proof. solve_decision. Defined.

Record CompletionDisposition := mkDisposition {
  kernel_request_terminal : bool;
  decrement_inflight : bool;
  resume_continuation : bool;
}.

Inductive OpKind :=
| kNone
| kAcceptComplete
| kAcceptSourceComplete
| kAcceptSourceCancelComplete
| kRecvSourceComplete
| kRecvSourceCancelComplete
| kSendZeroCopyComplete
| kListenerCloseComplete
| kReadComplete
| kRecvComplete
| kRecvCopyComplete
| kWriteComplete
| kStreamCloseComplete
| kStreamReadCancelComplete
| kStreamWriteCancelComplete
| kTimerDriverComplete
| kTimerControlComplete
| kConnect
| kConnectCancelComplete
| kWake
| kCancelAll
| kNop
| kCount.

#[global] Instance OpKind_eq_dec : EqDecision OpKind.
Proof. solve_decision. Defined.

Definition CompletionModelFor (kind : OpKind) : CompletionModel :=
  match kind with
  | kAcceptSourceComplete | kRecvSourceComplete => kEventStream
  | kSendZeroCopyComplete => kSplitRelease
  | _ => kSingleShot
  end.

Definition UsesCoupledSingleResultLifecycle (kind : OpKind) : bool :=
  match kind with
  | kReadComplete | kRecvComplete | kRecvCopyComplete | kWriteComplete | kAcceptComplete | kConnect => true
  | _ => false
  end.

Definition CqeResultDirectlyPublishesLogicalResult (kind : OpKind) : bool :=
  match kind with
  | kReadComplete | kRecvComplete | kWriteComplete => true
  | _ => false
  end.

(** ** CqeResult *)

Definition int32_min : Z := - 2 ^ 31.
Definition int32_max : Z := 2 ^ 31 - 1.
Definition kEmpty : Z := int32_min.

Record CqeResult := mkCqe { encoded_ : Z }.

Definition new_CqeResult : CqeResult := mkCqe kEmpty.
Definition HasValue (r : CqeResult) : bool := negb (encoded_ r =? kEmpty).
Definition cqe_assign (r : CqeResult) (value : Z) : outcome CqeResult :=
  ALYRN_CHECK (negb (value =? kEmpty));;
  ALYRN_CHECK (negb (HasValue r));;
  Val (mkCqe value).
Definition cqe_read (r : CqeResult) : outcome Z := ALYRN_CHECK (HasValue r);; Val (encoded_ r).
Definition cqe_Clear (_ : CqeResult) : CqeResult := mkCqe kEmpty.

(** ** Op *)

Record Op := mkOp {
  resume_work : Work.t;
  result : CqeResult;
  kind : OpKind;
  completion_slot_ : ReusableCompletionSlot.t;
  single_result_lifecycle_ : SingleResultLifecycle.t;
}.

Definition new_Op (k : OpKind) : Op :=
  mkOp Work.new_ResumeWork new_CqeResult k ReusableCompletionSlot.initial SingleResultLifecycle.initial.

Definition DispatchKind (o : Op) : OpKind := kind o.

Definition TryRecordCqeCompletion (o : Op) (cqe_res : Z) : outcome (Op * bool) :=
  let '(slot, won) := ReusableCompletionSlot.TryComplete (completion_slot_ o) in
  if negb won then Val (mkOp (resume_work o) (result o) (kind o) slot (single_result_lifecycle_ o), false) else
  r ← cqe_assign (result o) cqe_res;
  if CqeResultDirectlyPublishesLogicalResult (kind o) then
    let '(lc, b) := SingleResultLifecycle.TryAuthorizeResult (single_result_lifecycle_ o) in
    ALYRN_CHECK b;;
    Val (mkOp (resume_work o) r (kind o) slot lc, true)
  else Val (mkOp (resume_work o) r (kind o) slot (single_result_lifecycle_ o), true).

Definition TryMarkCompletionWithoutCqeResult (o : Op) : Op * bool :=
  let '(slot, won) := ReusableCompletionSlot.TryComplete (completion_slot_ o) in
  (mkOp (resume_work o) (result o) (kind o) slot (single_result_lifecycle_ o), won).

Definition SetImmediateSuccess (o : Op) : outcome Op :=
  r ← cqe_assign (result o) 0;
  Val (mkOp (resume_work o) r (kind o) (completion_slot_ o) (single_result_lifecycle_ o)).

Definition SetImmediateError (o : Op) (error : Error) : outcome Op :=
  ALYRN_CHECK (0 <? err_value error);;
  r ← cqe_assign (result o) (- err_value error);
  Val (mkOp (resume_work o) r (kind o) (completion_slot_ o) (single_result_lifecycle_ o)).

Definition CqeCompletionRecorded (o : Op) : bool := ReusableCompletionSlot.Completed (completion_slot_ o).

Definition with_lifecycle (o : Op) (r : SingleResultLifecycle.t * bool) : Op * bool :=
  (mkOp (resume_work o) (result o) (kind o) (completion_slot_ o) r.1, r.2).

Definition TryAuthorizeCoupledResult (o : Op) : outcome (Op * bool) :=
  ALYRN_CHECK (UsesCoupledSingleResultLifecycle (kind o));;
  Val (with_lifecycle o (SingleResultLifecycle.TryAuthorizeResult (single_result_lifecycle_ o))).
Definition TryAuthorizeCoupledRelease (o : Op) : outcome (Op * bool) :=
  ALYRN_CHECK (UsesCoupledSingleResultLifecycle (kind o));;
  Val (with_lifecycle o (SingleResultLifecycle.TryAuthorizeRelease (single_result_lifecycle_ o))).
Definition TryAuthorizeCoupledContinuation (o : Op) : outcome (Op * bool) :=
  ALYRN_CHECK (UsesCoupledSingleResultLifecycle (kind o));;
  Val (with_lifecycle o (SingleResultLifecycle.TryAuthorizeContinuation (single_result_lifecycle_ o))).

Definition CoupledResultReady (o : Op) : bool := SingleResultLifecycle.ResultReady (single_result_lifecycle_ o).
Definition CoupledReleaseAuthorized (o : Op) : bool :=
  SingleResultLifecycle.ReleaseAuthorized (single_result_lifecycle_ o).
Definition CoupledContinuationAuthorized (o : Op) : bool :=
  SingleResultLifecycle.ContinuationAuthorized (single_result_lifecycle_ o).

Definition BeginNextRequest (o : Op) : Op :=
  mkOp (Work.ClearHandle (resume_work o)) (cqe_Clear (result o)) (kind o)
    (ReusableCompletionSlot.BeginNextRequest (completion_slot_ o))
    (SingleResultLifecycle.Reset (single_result_lifecycle_ o)).

Definition IsExpectedCancelCqeResult (r : Z) : bool :=
  (0 <=? r) || (r =? - ENOENT) || (r =? - EALREADY) || (r =? - ECANCELED).

(** ** Facts *)

(** What the kernel may answer: a result or a negated errno, never INT_MIN. *)
Definition cqe_result_ok (r : Z) : Prop := int32_min < r <= int32_max.

Lemma BeginNextRequest_new o : BeginNextRequest o = new_Op (kind o).
Proof. reflexivity. Qed.

(** A request that has been started records its first completion ... *)
Lemma record_first k r : cqe_result_ok r ->
  exists o, TryRecordCqeCompletion (new_Op k) r = Val (o, true) /\ encoded_ (result o) = r /\
    HasValue (result o) = true /\ kind o = k /\ CqeCompletionRecorded o = true.
Proof.
  intros Hr. unfold cqe_result_ok in Hr. unfold TryRecordCqeCompletion. cbn -[kEmpty].
  unfold cqe_assign, HasValue. cbn [encoded_ new_CqeResult]. rewrite Z.eqb_refl.
  assert (r <> kEmpty) as Hne by (unfold kEmpty; lia). rewrite (proj2 (Z.eqb_neq _ _) Hne). cbn -[kEmpty].
  destruct (CqeResultDirectlyPublishesLogicalResult k); cbn -[kEmpty]; eexists; (split; [reflexivity|]); cbn -[kEmpty];
    rewrite ?(proj2 (Z.eqb_neq _ _) Hne); done.
Qed.

(** ... and no second one. *)
Lemma record_second o r : CqeCompletionRecorded o = true -> TryRecordCqeCompletion o r = Val (o, false).
Proof.
  unfold CqeCompletionRecorded, TryRecordCqeCompletion. destruct o as [w c k [[b]] l]. cbn. by intros ->.
Qed.

End UringOp.
