(* ===== verification/UringTimers.v ===== *)
(** * The io_uring timer queue (src/uring/timer_queue.cc)

    The timers live in user space: objects on the heap, an ordered index over
    them, the table of active timers and the repeating timer whose callback runs.
    The kernel is asked through two reusable operations, a driver timeout for the
    earliest deadline and a control operation that updates it or, where updates
    are refused, is a second timeout. [driver] is that half of the queue, with the
    requests the kernel holds; [queue] is the whole. The answers of SubmitOp are
    inputs of the model, as are the results of completions. *)

From S2P Require Import Prelude Lifecycles Work UringOp Timers.

Import Timers.

Module UringTimers.

(** ** The driver *)

(** A [__kernel_timespec]: seconds and nanoseconds. *)
Abbreviation timespec := (Z * Z)%type.

Definition ToKernelTimespec (deadline : Z) : timespec :=
  let clamped := Z.max 0 deadline in (clamped / 1000000000, clamped mod 1000000000).

Definition timespec_nanos (t : timespec) : Z := t.1 * 1000000000 + t.2.

(** The operation a request belongs to, and what the SQE asks for. The SQE holds
    the address of one of the timespec members of the queue. *)
Inductive op_name := DriverOp | ControlOp.
Inductive cell := driver_timespec | fallback_timespec | update_timespec.
Inductive sqe := PrepareAbsoluteTimeout (at_ : cell) | PrepareAbsoluteTimeoutUpdate (at_ : cell) (target : op_name).

#[global] Instance op_name_eq_dec : EqDecision op_name.
Proof. solve_decision. Defined.

Record driver := mkDriver {
  driver_armed_ : bool;
  control_pending_ : bool;
  control_is_fallback_ : bool;
  fallback_armed_ : bool;
  timeout_update_supported_ : bool;
  driver_deadline_ : Z;
  requested_deadline_ : Z;
  driver_timespec_ : timespec;
  fallback_timespec_ : timespec;
  update_timespec_ : timespec;
  driver_op : UringOp.Op;
  control_op : UringOp.Op;
  kernel : list (op_name * sqe);           (* requests without a final completion *)
  updated : option Z;                      (* the deadline the kernel last updated the driver to *)
  submit_answers : list (option Error);    (* of the next calls of SubmitOp; success when used up *)
  stop_requested : bool;                   (* RequestStop was called on the loop *)
}.

Definition new_driver (answers : list (option Error)) : driver :=
  mkDriver false false false false true 0 0 (0, 0) (0, 0) (0, 0)
    (UringOp.new_Op UringOp.kTimerDriverComplete) (UringOp.new_Op UringOp.kTimerControlComplete) [] None answers false.

Definition set_armed (d : driver) (armed : bool) (deadline : Z) : driver :=
  mkDriver armed (control_pending_ d) (control_is_fallback_ d) (fallback_armed_ d) (timeout_update_supported_ d)
    deadline (requested_deadline_ d) (driver_timespec_ d) (fallback_timespec_ d) (update_timespec_ d)
    (driver_op d) (control_op d) (kernel d) (updated d) (submit_answers d) (stop_requested d).
Definition set_control (d : driver) (pending fallback armed : bool) : driver :=
  mkDriver (driver_armed_ d) pending fallback armed (timeout_update_supported_ d)
    (driver_deadline_ d) (requested_deadline_ d) (driver_timespec_ d) (fallback_timespec_ d) (update_timespec_ d)
    (driver_op d) (control_op d) (kernel d) (updated d) (submit_answers d) (stop_requested d).
Definition set_supported (d : driver) (supported : bool) : driver :=
  mkDriver (driver_armed_ d) (control_pending_ d) (control_is_fallback_ d) (fallback_armed_ d) supported
    (driver_deadline_ d) (requested_deadline_ d) (driver_timespec_ d) (fallback_timespec_ d) (update_timespec_ d)
    (driver_op d) (control_op d) (kernel d) (updated d) (submit_answers d) (stop_requested d).
Definition set_requested (d : driver) (deadline : Z) : driver :=
  mkDriver (driver_armed_ d) (control_pending_ d) (control_is_fallback_ d) (fallback_armed_ d)
    (timeout_update_supported_ d) (driver_deadline_ d) deadline (driver_timespec_ d) (fallback_timespec_ d)
    (update_timespec_ d) (driver_op d) (control_op d) (kernel d) (updated d) (submit_answers d) (stop_requested d).
Definition set_specs (d : driver) (dr fb up : timespec) : driver :=
  mkDriver (driver_armed_ d) (control_pending_ d) (control_is_fallback_ d) (fallback_armed_ d)
    (timeout_update_supported_ d) (driver_deadline_ d) (requested_deadline_ d) dr fb up
    (driver_op d) (control_op d) (kernel d) (updated d) (submit_answers d) (stop_requested d).
Definition set_ops (d : driver) (dr ct : UringOp.Op) : driver :=
  mkDriver (driver_armed_ d) (control_pending_ d) (control_is_fallback_ d) (fallback_armed_ d)
    (timeout_update_supported_ d) (driver_deadline_ d) (requested_deadline_ d) (driver_timespec_ d)
    (fallback_timespec_ d) (update_timespec_ d) dr ct (kernel d) (updated d) (submit_answers d) (stop_requested d).
Definition set_kernel (d : driver) (k : list (op_name * sqe)) (u : option Z) (answers : list (option Error)) : driver :=
  mkDriver (driver_armed_ d) (control_pending_ d) (control_is_fallback_ d) (fallback_armed_ d)
    (timeout_update_supported_ d) (driver_deadline_ d) (requested_deadline_ d) (driver_timespec_ d)
    (fallback_timespec_ d) (update_timespec_ d) (driver_op d) (control_op d) k u answers (stop_requested d).
Definition RequestStop (d : driver) : driver :=
  mkDriver (driver_armed_ d) (control_pending_ d) (control_is_fallback_ d) (fallback_armed_ d)
    (timeout_update_supported_ d) (driver_deadline_ d) (requested_deadline_ d) (driver_timespec_ d)
    (fallback_timespec_ d) (update_timespec_ d) (driver_op d) (control_op d) (kernel d) (updated d) (submit_answers d) true.

(** What the kernel reads through the address in the SQE, whenever it does. *)
Definition cell_nanos (d : driver) (c : cell) : Z :=
  timespec_nanos match c with
  | driver_timespec => driver_timespec_ d
  | fallback_timespec => fallback_timespec_ d
  | update_timespec => update_timespec_ d
  end.

(** When the kernel completes the driver request. *)
Definition kernel_deadline (d : driver) : Z := default (cell_nanos d driver_timespec) (updated d).

(** A new driver request has not been updated. *)
Definition enter (d : driver) (o : op_name) (request : sqe) (rest : list (option Error)) : driver :=
  set_kernel d (kernel d ++ [(o, request)]) (match o with DriverOp => None | ControlOp => updated d end) rest.

(** LoopAccess::SubmitOp: the request reaches the ring or an error is returned. *)
Definition SubmitOp (d : driver) (o : op_name) (request : sqe) : driver * ResultE unit :=
  match submit_answers d with
  | Some e :: rest => (set_kernel d (kernel d) (updated d) rest, Err e)
  | None :: rest => (enter d o request rest, Ok tt)
  | [] => (enter d o request [], Ok tt)
  end.

Definition Arm (d : driver) (deadline : Z) : driver * ResultE unit :=
  let d := set_specs d (ToKernelTimespec deadline) (fallback_timespec_ d) (update_timespec_ d) in
  let d := set_ops d (UringOp.BeginNextRequest (driver_op d)) (control_op d) in
  match SubmitOp d DriverOp (PrepareAbsoluteTimeout driver_timespec) with
  | (d, Err e) => (d, Err e)
  | (d, Ok _) => (set_armed d true deadline, Ok tt)
  end.

Definition ArmFallback (d : driver) (deadline : Z) : driver * ResultE unit :=
  let d := set_specs d (driver_timespec_ d) (ToKernelTimespec deadline) (update_timespec_ d) in
  let d := set_ops d (driver_op d) (UringOp.BeginNextRequest (control_op d)) in
  let d := set_control d (control_pending_ d) true (fallback_armed_ d) in
  match SubmitOp d ControlOp (PrepareAbsoluteTimeout fallback_timespec) with
  | (d, Ok _) => (set_control d true (control_is_fallback_ d) true, Ok tt)
  | (d, Err e) => (set_control d (control_pending_ d) false (fallback_armed_ d), Err e)
  end.

Definition Update (d : driver) (deadline : Z) : driver * ResultE unit :=
  let d := set_specs d (driver_timespec_ d) (fallback_timespec_ d) (ToKernelTimespec deadline) in
  let d := set_requested d deadline in
  let d := set_ops d (driver_op d) (UringOp.BeginNextRequest (control_op d)) in
  let d := set_control d (control_pending_ d) false (fallback_armed_ d) in
  match SubmitOp d ControlOp (PrepareAbsoluteTimeoutUpdate update_timespec DriverOp) with
  | (d, Err e) => (set_requested d 0, Err e)
  | (d, Ok _) => (set_control d true (control_is_fallback_ d) (fallback_armed_ d), Ok tt)
  end.

(** Reconcile, given the expiration of the earliest timer. *)
Definition reconcile (d : driver) (earliest : option Z) : driver * ResultE unit :=
  if control_pending_ d then (d, Ok tt) else
  if negb (driver_armed_ d) then
    match earliest with Some e => Arm d e | None => (d, Ok tt) end
  else
    match earliest with
    | Some e =>
        if e <? driver_deadline_ d then
          if timeout_update_supported_ d then Update d e
          else if negb (fallback_armed_ d) then ArmFallback d e
          else (d, Ok tt)
        else (d, Ok tt)
    | None => (d, Ok tt)
    end.

(** ReconcileOrStop, likewise. *)
Definition reconcile_or_stop (d : driver) (earliest : option Z) : driver :=
  match reconcile d earliest with
  | (d, Ok _) => d
  | (d, Err _) => RequestStop d
  end.

(** The kernel gives up a request when it completes it. *)
Definition retire (o : op_name) (k : list (op_name * sqe)) : list (op_name * sqe) :=
  List.filter (fun r => negb (bool_decide (r.1 = o))) k.
Definition in_flight (d : driver) (o : op_name) : bool := existsb (fun r => bool_decide (r.1 = o)) (kernel d).
Definition op_of (d : driver) (o : op_name) : UringOp.Op :=
  match o with DriverOp => driver_op d | ControlOp => control_op d end.
Definition set_op (d : driver) (o : op_name) (op : UringOp.Op) : driver :=
  match o with DriverOp => set_ops d op (control_op d) | ControlOp => set_ops d (driver_op d) op end.

(** A successful timeout update has moved the driver. *)
Definition kernel_effect (d : driver) (o : op_name) (r : Z) : option Z :=
  match List.find (fun x => bool_decide (x.1 = o)) (kernel d) with
  | Some (_, PrepareAbsoluteTimeoutUpdate c _) => if r =? 0 then Some (cell_nanos d c) else updated d
  | _ => updated d
  end.

(** The kernel completes a request with the result [r]. *)
Definition kernel_completes (d : driver) (o : op_name) (r : Z) : driver :=
  set_kernel d (retire o (kernel d)) (kernel_effect d o r) (submit_answers d).

(** HandleCqe of the loop: the result is recorded once. *)
Definition record_cqe (d : driver) (o : op_name) (r : Z) : outcome (driver * bool) :=
  '(op, recorded) ← UringOp.TryRecordCqeCompletion (op_of d o) r;
  Val (set_op d o op, recorded).

(** The first half of HandleDriverComplete and of HandleControlComplete: whether
    timers are to be fired. *)
Definition driver_complete (d : driver) : outcome (driver * bool) :=
  ALYRN_CHECK (UringOp.HasValue (UringOp.result (driver_op d)));;
  r ← UringOp.cqe_read (UringOp.result (driver_op d));
  Val (set_armed d false 0, r =? - ETIME).

Definition control_complete (d : driver) : outcome (driver * bool) :=
  ALYRN_CHECK (UringOp.HasValue (UringOp.result (control_op d)));;
  let d := set_control d false (control_is_fallback_ d) (fallback_armed_ d) in
  r ← UringOp.cqe_read (UringOp.result (control_op d));
  if control_is_fallback_ d then
    Val (set_control d (control_pending_ d) false false, r =? - ETIME)
  else if UringOp.HasValue (UringOp.result (control_op d)) && (r =? 0) then
    Val (set_armed d (driver_armed_ d) (requested_deadline_ d), false)
  else Val (set_supported d false, false).

Definition op_complete (o : op_name) (d : driver) : outcome (driver * bool) :=
  match o with DriverOp => driver_complete d | ControlOp => control_complete d end.

(** ** The queue *)

Section queue.
Context {Ix Pl : Type} `{!TimerIndexOps Ix} `{!TimerPoolOps Pl}.

Record queue := mkQueue {
  timers_ : Ix;
  heap : Pl;                       (* where [new] finds room for timers *)
  active_ : gmap Z Z;
  processing_timer_ : Z;
  processing_timer_cancelled_ : bool;
  drv : driver;
  objects : store;
  time : Z;                        (* the steady clock *)
  next_sequence_ : Z;
  log : list (Z * Z);              (* the callbacks run: sequence and expiration *)
}.

Definition set_timers (q : queue) (i : Ix) : queue :=
  mkQueue i (heap q) (active_ q) (processing_timer_ q) (processing_timer_cancelled_ q) (drv q) (objects q)
    (time q) (next_sequence_ q) (log q).
Definition set_active (q : queue) (m : gmap Z Z) : queue :=
  mkQueue (timers_ q) (heap q) m (processing_timer_ q) (processing_timer_cancelled_ q) (drv q) (objects q)
    (time q) (next_sequence_ q) (log q).
Definition set_processing (q : queue) (t : Z) (c : bool) : queue :=
  mkQueue (timers_ q) (heap q) (active_ q) t c (drv q) (objects q) (time q) (next_sequence_ q) (log q).
Definition set_drv (q : queue) (d : driver) : queue :=
  mkQueue (timers_ q) (heap q) (active_ q) (processing_timer_ q) (processing_timer_cancelled_ q) d (objects q)
    (time q) (next_sequence_ q) (log q).
Definition set_objects (q : queue) (p : Pl) (i : Ix) (st : store) : queue :=
  mkQueue i p (active_ q) (processing_timer_ q) (processing_timer_cancelled_ q) (drv q) st
    (time q) (next_sequence_ q) (log q).
Definition set_time (q : queue) (t : Z) : queue :=
  mkQueue (timers_ q) (heap q) (active_ q) (processing_timer_ q) (processing_timer_cancelled_ q) (drv q) (objects q)
    t (next_sequence_ q) (log q).
Definition set_sequence (q : queue) (n : Z) : queue :=
  mkQueue (timers_ q) (heap q) (active_ q) (processing_timer_ q) (processing_timer_cancelled_ q) (drv q) (objects q)
    (time q) n (log q).
Definition add_log (q : queue) (e : Z * Z) : queue :=
  mkQueue (timers_ q) (heap q) (active_ q) (processing_timer_ q) (processing_timer_cancelled_ q) (drv q) (objects q)
    (time q) (next_sequence_ q) (log q ++ [e]).

Definition SteadyNow (q : queue) : Z := time q.

(** [*timer]. *)
Definition deref (q : queue) (a : Z) : outcome Timer :=
  match objects q !! a with Some t => Val t | None => Panic end.

(** [std::atomic<std::int64_t>::fetch_add] wraps around. *)
Definition int64_wrap (z : Z) : Z := (z + 2 ^ 63) mod 2 ^ 64 - 2 ^ 63.

(** [std::make_unique<Timer>] and the end of a [std::unique_ptr<Timer>]. *)
Definition make_timer (q : queue) (cb : option callback) (deadline interval : Z) : outcome (queue * Z) :=
  '(p, a) ← pool_Acquire (heap q);
  let t := new_Timer cb deadline interval (next_sequence_ q) in
  let q := set_sequence q (int64_wrap (next_sequence_ q + 1)) in
  Val (set_objects q p (idx_construct (timers_ q) a) (<[a := t]> (objects q)), a).

Definition delete_timer (q : queue) (a : Z) : outcome queue :=
  p ← pool_Release (heap q) a;
  Val (set_objects q p (idx_destroy (timers_ q) a) (delete a (objects q))).

Definition index_insert (q : queue) (a : Z) : outcome (queue * bool) :=
  '(i, b) ← idx_Insert (TimerLess (objects q)) (timers_ q) a; Val (set_timers q i, b).

Definition index_erase (q : queue) (a : Z) : outcome (queue * bool) :=
  '(i, b) ← idx_Erase (timers_ q) a; Val (set_timers q i, b).

(** The expiration of [timers_.Earliest()], if there is one. *)
Definition earliest_expiration (q : queue) : outcome (option Z) :=
  e ← idx_Earliest (timers_ q);
  if e =? nullptr then Val None else t ← deref q e; Val (Some (expiration t)).

Definition Reconcile (q : queue) : outcome (queue * ResultE unit) :=
  if control_pending_ (drv q) then Val (q, Ok tt) else
  e ← earliest_expiration q;
  let '(d, r) := reconcile (drv q) e in
  Val (set_drv q d, r).

Definition ReconcileOrStop (q : queue) : outcome queue :=
  '(q, r) ← Reconcile q;
  match r with
  | Ok _ => Val q
  | Err _ => Val (set_drv q (RequestStop (drv q)))
  end.

Definition AddTimer (q : queue) (cb : option callback) (deadline interval : Z) : outcome (queue * ResultE Z) :=
  '(q, a) ← make_timer q cb deadline interval;
  t ← deref q a;
  let id := sequence t in
  if bool_decide (is_Some (active_ q !! id)) then
    q ← delete_timer q a; Val (q, Err (Errno EEXIST))
  else
  let q := set_active q (<[id := a]> (active_ q)) in
  '(q, inserted) ← index_insert q a;
  if negb inserted then
    q ← delete_timer (set_active q (delete id (active_ q))) a; Val (q, Err (Errno EEXIST))
  else
  '(q, reconciled) ← Reconcile q;
  match reconciled with
  | Err e =>
      '(q, erased) ← index_erase q a;
      ALYRN_CHECK erased;;
      q ← delete_timer (set_active q (delete id (active_ q))) a;
      Val (q, Err e)
  | Ok _ => Val (q, Ok id)
  end.

Definition AddAfter (q : queue) (delay : Z) (cb : option callback) : outcome (queue * ResultE Z) :=
  AddTimer q cb (SteadyNow q + Z.max delay 0) 0.

Definition Cancel (q : queue) (id : Z) : outcome (queue * ResultE unit) :=
  processing ← (if negb (processing_timer_ q =? nullptr) then
    t ← deref q (processing_timer_ q); Val (sequence t =? id) else Val false);
  if (processing : bool) then Val (set_processing q (processing_timer_ q) true, Ok tt) else
  match active_ q !! id with
  | None => Val (q, Err (Errno ENOENT))
  | Some a =>
      '(q, erased) ← index_erase q a;
      ALYRN_CHECK erased;;
      q ← delete_timer (set_active q (delete id (active_ q))) a;
      q ← ReconcileOrStop q;
      Val (q, Ok tt)
  end.

(** A callback runs against the queue it belongs to. *)
Fixpoint run_callback (cb : callback) (q : queue) : outcome queue :=
  match cb with
  | CReturn => Val q
  | CAddTimer cb when interval k =>
      '(q, r) ← AddTimer q (Some cb) when interval; run_callback (k r) q
  | CCancel id k => '(q, r) ← Cancel q id; run_callback (k r) q
  | CNow k => run_callback (k (SteadyNow q)) q
  | CElapse d k => run_callback k (set_time q (time q + Z.of_N d))
  end.

(** The callback of PopWhile: [owned->Run()], and around it. *)
Definition pop_start (q : queue) (a : Z) : outcome (queue * Timer) :=
  t ← deref q a;
  ALYRN_CHECK (bool_decide (is_Some (active_ q !! sequence t)));;
  Val (set_active q (delete (sequence t) (active_ q)), t).

Definition pop_finish (q : queue) (now a : Z) : outcome queue :=
  let cancelled := processing_timer_cancelled_ q in
  let q := set_processing q nullptr false in
  if cancelled then delete_timer q a else
  t ← deref q a;
  let t := Restart t now in
  let q := set_objects q (heap q) (timers_ q) (<[a := t]> (objects q)) in
  ALYRN_CHECK (negb (bool_decide (is_Some (active_ q !! sequence t))));;
  let q := set_active q (<[sequence t := a]> (active_ q)) in
  '(q, inserted) ← index_insert q a;
  ALYRN_CHECK inserted;;
  Val q.

Definition on_pop (now : Z) (q : queue) (a : Z) : outcome queue :=
  '(q, t) ← pop_start q a;
  let q := add_log q (sequence t, expiration t) in
  if negb (repeat t) then
    q ← run_callback (Run t) q; delete_timer q a
  else
  let q := set_processing q a false in
  q ← run_callback (Run t) q;
  pop_finish q now a.

Definition is_due (now : Z) (q : queue) (a : Z) : bool :=
  match objects q !! a with Some t => expiration t <=? now | None => false end.

Definition ProcessExpired (fuel : nat) (q : queue) : outcome queue :=
  let now := SteadyNow q in
  '(i, q, _) ← PopWhile fuel (is_due now)
    (fun i q a => q ← on_pop now (set_timers q i) a; Val (timers_ q, q)) (timers_ q) q;
  Val (set_timers q i).

(** HandleDriverComplete and HandleControlComplete. *)
Definition HandleComplete (fuel : nat) (q : queue) (o : op_name) : outcome queue :=
  '(d, fires) ← op_complete o (drv q);
  let q := set_drv q d in
  q ← (if (fires : bool) then ProcessExpired fuel q else Val q);
  ReconcileOrStop q.

(** A completion of a request the kernel holds arrives at the loop. *)
Definition OnCqe (fuel : nat) (q : queue) (o : op_name) (r : Z) : outcome queue :=
  if negb (in_flight (drv q) o) then Val q else
  '(d, recorded) ← record_cqe (kernel_completes (drv q) o r) o r;
  let q := set_drv q d in
  if negb recorded then Val q else HandleComplete fuel q o.

(** The end of all the owned timers, in the order of the table. *)
Fixpoint delete_timers (q : queue) (l : list (Z * Z)) : outcome queue :=
  match l with
  | [] => Val q
  | (k, a) :: l => q ← delete_timer (set_active q (delete k (active_ q))) a; delete_timers q l
  end.

Definition DiscardAll (q : queue) : outcome queue :=
  i ← idx_Clear (timers_ q);
  q ← delete_timers (set_timers q i) (map_to_list (active_ q));
  let d := drv q in
  Val (set_drv q (set_requested (set_control (set_armed d false 0) false false false) 0)).

Definition destroy_queue (q : queue) : outcome queue :=
  q ← DiscardAll q;
  ALYRN_CHECK (idx_Empty (timers_ q));;
  ALYRN_CHECK (bool_decide (active_ q = ∅));;
  Val q.

Definition new_queue (i : Ix) (p : Pl) (now seq : Z) (answers : list (option Error)) : queue :=
  mkQueue i p ∅ nullptr false (new_driver answers) ∅ now seq [].

End queue.

#[global] Arguments queue : clear implicits.

End UringTimers.
