(* ===== verification/UringTimersProps.v ===== *)
(** * The io_uring timer queue behaves like the agenda

    The driver half of the queue is the backend of the agenda; the rest of the
    queue simulates the agenda itself. Shown besides: the two operations are never
    reused while the kernel holds them, the timespecs the kernel may read stay as
    they were requested, and the earliest timer is covered by a request, except
    while a control request is in flight. *)

From S2P Require Import Prelude RBTree RBTreeRep RBTreeOrder MemoryPool MemoryPoolProps ObjectPool ObjectPoolProps Lifecycles Work UringOp Timers TimerAgenda TimerStore UringTimers EpollTimersProps.

Import RBTreeOrder Timers TimerAgenda TimerStore UringTimers.

Module UringTimersProps.

(** ** The driver *)

Lemma ToKernelTimespec_nanos e : timespec_nanos (ToKernelTimespec e) = Z.max 0 e /\ 0 <= (ToKernelTimespec e).2 < 1000000000.
Proof.
  unfold timespec_nanos, ToKernelTimespec. cbn [fst snd]. pose proof (Z.div_mod (Z.max 0 e) 1000000000 ltac:(lia)).
  pose proof (Z.mod_pos_bound (Z.max 0 e) 1000000000 ltac:(lia)). lia.
Qed.

#[local] Opaque ToKernelTimespec timespec_nanos.

(** The requests the flags stand for. *)
Definition requests (d : driver) : list (op_name * sqe) :=
  (if driver_armed_ d then [(DriverOp, PrepareAbsoluteTimeout driver_timespec)] else []) ++
  (if control_pending_ d then
     [(ControlOp, if control_is_fallback_ d then PrepareAbsoluteTimeout fallback_timespec
                  else PrepareAbsoluteTimeoutUpdate update_timespec DriverOp)]
   else []).

Abbreviation driver_kind := UringOp.kTimerDriverComplete.
Abbreviation control_kind := UringOp.kTimerControlComplete.

Record driver_ok (d : driver) : Prop := {
  dk_kernel : kernel d = requests d \/ kernel d = rev (requests d);
  dk_fallback : fallback_armed_ d = control_pending_ d && control_is_fallback_ d;
  dk_is_fallback : control_is_fallback_ d = true -> control_pending_ d = true /\ timeout_update_supported_ d = false;
  dk_kinds : UringOp.kind (driver_op d) = driver_kind /\ UringOp.kind (control_op d) = control_kind;
  dk_driver_op : driver_armed_ d = true -> driver_op d = UringOp.new_Op driver_kind;
  dk_control_op : control_pending_ d = true -> control_op d = UringOp.new_Op control_kind;
  dk_deadline : driver_armed_ d = true -> kernel_deadline d = Z.max 0 (driver_deadline_ d);
  dk_update : control_pending_ d = true -> control_is_fallback_ d = false ->
    cell_nanos d update_timespec = Z.max 0 (requested_deadline_ d);
}.

(** The earliest deadline [e] is not lost. *)
Definition covered (d : driver) (e : option Z) : Prop :=
  stop_requested d = true \/ control_pending_ d = true \/
  match e with None => True | Some e => driver_armed_ d = true /\ driver_deadline_ d <= e end.

(** A refused submission changes none of what the kernel and the flags say. *)
Record same_requests (d d' : driver) : Prop := {
  sq_armed : driver_armed_ d' = driver_armed_ d;
  sq_deadline : driver_deadline_ d' = driver_deadline_ d;
  sq_control : control_pending_ d' = control_pending_ d;
  sq_stop : stop_requested d' = stop_requested d;
  sq_kernel : kernel d' = kernel d;
}.

Lemma begin_op o k : UringOp.kind o = k -> UringOp.BeginNextRequest o = UringOp.new_Op k.
Proof. intros <-. apply UringOp.BeginNextRequest_new. Qed.

(** Prove [driver_ok] of an explicit driver from that of another one. *)
Ltac driver_tac :=
  split; cbn in *; unfold requests, kernel_deadline, cell_nanos in *; cbn in *; subst; cbn in *;
  rewrite ?(proj1 (ToKernelTimespec_nanos _)) in *;
  repeat match goal with H : ?b = ?b -> _ |- _ => specialize (H eq_refl) end;
  repeat match goal with H : _ /\ _ |- _ => destruct H | H : _ \/ _ |- _ => destruct H end; subst;
  try solve [done | auto | by right | by left | intros; by apply begin_op | intuition congruence].

Lemma new_driver_ok answers : driver_ok (new_driver answers).
Proof. driver_tac. Qed.

(** The three submissions, written out. *)
Lemma Arm_eq armed pend isf farm sup dl rq ds fs us dop cop k u ans st e :
  Arm (mkDriver armed pend isf farm sup dl rq ds fs us dop cop k u ans st) e =
  match ans with
  | Some er :: rest => (mkDriver armed pend isf farm sup dl rq (ToKernelTimespec e) fs us
      (UringOp.BeginNextRequest dop) cop k u rest st, Err er)
  | _ => (mkDriver true pend isf farm sup e rq (ToKernelTimespec e) fs us (UringOp.BeginNextRequest dop) cop
      (k ++ [(DriverOp, PrepareAbsoluteTimeout driver_timespec)]) None (tail ans) st, Ok tt)
  end.
Proof. by destruct ans as [|[er|] rest]. Qed.

Lemma ArmFallback_eq armed pend isf farm sup dl rq ds fs us dop cop k u ans st e :
  ArmFallback (mkDriver armed pend isf farm sup dl rq ds fs us dop cop k u ans st) e =
  match ans with
  | Some er :: rest => (mkDriver armed pend false farm sup dl rq ds (ToKernelTimespec e) us
      dop (UringOp.BeginNextRequest cop) k u rest st, Err er)
  | _ => (mkDriver armed true true true sup dl rq ds (ToKernelTimespec e) us dop (UringOp.BeginNextRequest cop)
      (k ++ [(ControlOp, PrepareAbsoluteTimeout fallback_timespec)]) u (tail ans) st, Ok tt)
  end.
Proof. by destruct ans as [|[er|] rest]. Qed.

Lemma Update_eq armed pend isf farm sup dl rq ds fs us dop cop k u ans st e :
  Update (mkDriver armed pend isf farm sup dl rq ds fs us dop cop k u ans st) e =
  match ans with
  | Some er :: rest => (mkDriver armed pend false farm sup dl 0 ds fs (ToKernelTimespec e)
      dop (UringOp.BeginNextRequest cop) k u rest st, Err er)
  | _ => (mkDriver armed true false farm sup dl e ds fs (ToKernelTimespec e) dop (UringOp.BeginNextRequest cop)
      (k ++ [(ControlOp, PrepareAbsoluteTimeoutUpdate update_timespec DriverOp)]) u (tail ans) st, Ok tt)
  end.
Proof. by destruct ans as [|[er|] rest]. Qed.

Lemma Arm_ok d e d' r : driver_ok d -> driver_armed_ d = false -> control_pending_ d = false -> Arm d e = (d', r) ->
  driver_ok d' /\ (r = Ok tt -> covered d' (Some e)) /\ (r <> Ok tt -> same_requests d d').
Proof.
  destruct d as [armed pend isf farm sup dl rq ds fs us dop cop k u ans st]. intros H Ha Hc. cbn in Ha, Hc. subst armed pend.
  destruct H as [Hk Hf Hfb [Hk1 Hk2] Ho1 Ho2 Hd Hu]. rewrite Arm_eq. destruct ans as [|[er|] rest]; intros [= <- <-];
    (split; [driver_tac|]); (split; [try done | try done; intros _; by split]); intros _; right; right; cbn; (split; [done | lia]).
Qed.

Lemma ArmFallback_ok d e d' r : driver_ok d -> control_pending_ d = false -> timeout_update_supported_ d = false ->
  ArmFallback d e = (d', r) ->
  driver_ok d' /\ (r = Ok tt -> covered d' (Some e)) /\ (r <> Ok tt -> same_requests d d').
Proof.
  destruct d as [armed pend isf farm sup dl rq ds fs us dop cop k u ans st]. intros H Hc Hs. cbn in Hs, Hc. subst sup pend.
  destruct H as [Hk Hf Hfb [Hk1 Hk2] Ho1 Ho2 Hd Hu]. rewrite ArmFallback_eq. destruct armed, isf, ans as [|[er|] rest]; intros [= <- <-];
    (split; [driver_tac|]); (split; [try done; intros _; right; by left | try done; intros _; by split]).
Qed.

Lemma Update_ok d e d' r : driver_ok d -> control_pending_ d = false -> Update d e = (d', r) ->
  driver_ok d' /\ (r = Ok tt -> covered d' (Some e)) /\ (r <> Ok tt -> same_requests d d').
Proof.
  destruct d as [armed pend isf farm sup dl rq ds fs us dop cop k u ans st]. intros H Hc. cbn in Hc. subst pend.
  destruct H as [Hk Hf Hfb [Hk1 Hk2] Ho1 Ho2 Hd Hu]. rewrite Update_eq. destruct armed, isf, ans as [|[er|] rest]; intros [= <- <-];
    (split; [driver_tac|]); (split; [try done; intros _; right; by left | try done; intros _; by split]).
Qed.

Lemma same_requests_refl d : same_requests d d.
Proof. by split. Qed.

Lemma reconcile_ok d e d' r : driver_ok d -> reconcile d e = (d', r) ->
  driver_ok d' /\ (r = Ok tt -> covered d' e) /\ (r <> Ok tt -> same_requests d d').
Proof.
  intros H. unfold reconcile. destruct (control_pending_ d) eqn:Hc.
  { intros [= <- <-]. split_and!; [done | intros _; right; by left | done]. }
  destruct (driver_armed_ d) eqn:Ha; cbn [negb].
  - destruct e as [e|]; [|intros [= <- <-]; split_and!; [done | intros _; right; by right | done]].
    destruct (Z.ltb_spec e (driver_deadline_ d)).
    + destruct (timeout_update_supported_ d) eqn:Hs; [by apply Update_ok|].
      rewrite (dk_fallback _ H), Hc. cbn. by apply ArmFallback_ok.
    + intros [= <- <-]. split_and!; [done | intros _; right; by right | done].
  - destruct e as [e|]; [by apply Arm_ok|]. intros [= <- <-]. split_and!; [done | intros _; right; by right | done].
Qed.

Lemma RequestStop_ok d : driver_ok d -> driver_ok (RequestStop d).
Proof. by intros [H1 H2 H3 H4 H5 H6 H7 H8]. Qed.

Lemma reconcile_or_stop_ok d e : driver_ok d ->
  driver_ok (reconcile_or_stop d e) /\ covered (reconcile_or_stop d e) e.
Proof.
  intros H. unfold reconcile_or_stop. destruct (reconcile d e) as [d' r] eqn:E.
  destruct (reconcile_ok _ _ _ _ H E) as (H1 & H2 & _). destruct r as [[]|]; [auto|].
  split; [by apply RequestStop_ok | by left].
Qed.

(** ** Completions *)

Lemma in_flight_ok d o : driver_ok d ->
  in_flight d o = match o with DriverOp => driver_armed_ d | ControlOp => control_pending_ d end.
Proof.
  intros H. unfold in_flight. destruct (dk_kernel _ H) as [->| ->]; unfold requests;
    destruct (driver_armed_ d), (control_pending_ d), (control_is_fallback_ d), o; reflexivity.
Qed.

(** The operation in flight is fresh, so its completion is recorded. *)
Lemma record_ok d o r : driver_ok d -> in_flight d o = true -> UringOp.cqe_result_ok r ->
  exists op, record_cqe (kernel_completes d o r) o r = Val (set_op (kernel_completes d o r) o op, true) /\
    UringOp.encoded_ (UringOp.result op) = r /\ UringOp.HasValue (UringOp.result op) = true /\
    UringOp.kind op = match o with DriverOp => driver_kind | ControlOp => control_kind end.
Proof.
  intros H Hi Hr. rewrite (in_flight_ok _ _ H) in Hi. unfold record_cqe.
  assert (op_of (kernel_completes d o r) o = UringOp.new_Op (match o with DriverOp => driver_kind | ControlOp => control_kind end)) as ->.
  { destruct o; cbn; [by apply (dk_driver_op _ H) | by apply (dk_control_op _ H)]. }
  destruct (UringOp.record_first (match o with DriverOp => driver_kind | ControlOp => control_kind end) r Hr) as (op & -> & E1 & E2 & E3 & _).
  rewrite bind_val. by exists op.
Qed.

Lemma complete_ok d o r op : driver_ok d -> in_flight d o = true ->
  UringOp.encoded_ (UringOp.result op) = r -> UringOp.HasValue (UringOp.result op) = true ->
  UringOp.kind op = match o with DriverOp => driver_kind | ControlOp => control_kind end ->
  exists d' f, op_complete o (set_op (kernel_completes d o r) o op) = Val (d', f) /\ driver_ok d'.
Proof.
  intros H Hi Hr Hv Hkind. pose proof (in_flight_ok _ o H) as Hi'. rewrite Hi in Hi'. symmetry in Hi'.
  destruct d as [armed pend isf farm sup dl rq ds fs us dop cop k u ans st].
  destruct H as [Hk Hf Hfb [Hk1 Hk2] Ho1 Ho2 Hd Hu]. destruct o; cbn in *; subst.
  - unfold driver_complete, UringOp.cqe_read. cbn. rewrite Hv. cbn. eexists _, _. split; [reflexivity|].
    destruct pend, isf; destruct Hk as [->| ->]; driver_tac.
  - unfold control_complete, UringOp.cqe_read. cbn. rewrite Hv. cbn. destruct isf.
    + eexists _, _. split; [reflexivity|]. destruct armed; destruct Hk as [->| ->]; driver_tac.
    + destruct (Z.eqb_spec (UringOp.encoded_ (UringOp.result op)) 0) as [E|E]; eexists _, _; (split; [reflexivity|]);
        destruct armed; destruct Hk as [->| ->]; unfold kernel_effect in *; cbn in *; rewrite ?E in *; driver_tac;
        (intros _; unfold kernel_effect; cbn; by rewrite (proj2 (Z.eqb_neq _ _) E)).
Qed.

(** ** The driver as a backend of the agenda *)

Definition driver_added (d : driver) (e : option Z) : driver * option Error :=
  match reconcile d e with
  | (d, Ok _) => (d, None)
  | (d, Err er) => (d, Some er)
  end.

Definition driver_begin (d : driver) (ev : op_name * Z) : option (driver * bool) :=
  if in_flight d ev.1 then
    match ('(d, _) ← record_cqe (kernel_completes d ev.1 ev.2) ev.1 ev.2; op_complete ev.1 d) with
    | Val x => Some x
    | Panic => None
    end
  else None.

#[global] Instance uring_backend : Backend driver := {
  bk_added := driver_added;
  bk_cancelled := reconcile_or_stop;
  bk_answer found running :=
    if found || match running with Some t => repeat t | None => false end then Ok tt else Err (Errno ENOENT);
  bk_event := op_name * Z;
  bk_begin := driver_begin;
  bk_end d _ e := reconcile_or_stop d e;
}.

Lemma driver_added_ok d e : driver_ok d ->
  driver_ok (driver_added d e).1 /\
  match (driver_added d e).2 with
  | None => covered (driver_added d e).1 e
  | Some _ => same_requests d (driver_added d e).1
  end.
Proof.
  intros H. unfold driver_added. destruct (reconcile d e) as [d' r] eqn:E.
  destruct (reconcile_ok _ _ _ _ H E) as (H1 & H2 & H3). destruct r as [[]|]; cbn; auto.
Qed.

Lemma same_covered d d' e : same_requests d d' -> covered d e -> covered d' e.
Proof. intros [E1 E2 E3 E4 E5]. unfold covered. by rewrite E1, E2, E3, E4. Qed.

Section sim.
Context {Ix Pl : Type} (region : Z -> Prop).
Context (room first : Z) (Hfirst : - 2 ^ 63 <= first /\ first + room < 2 ^ 63).
Context `{!TimerIndexOps Ix} `{!TimerIndex Ix region} `{!TimerPoolOps Pl} `{!TimerPool Pl region room}.
Abbreviation queue := (queue Ix Pl).
Implicit Types (q : queue) (ag : agenda driver).

(** [cur] is the timer whose callback runs, with its address; Cancel can reach it
    only when it repeats. *)
Record sim q ag (l : list Z) (cur : option (Z * Timer)) : Prop := {
  sm_tracks : tracks region room (timers_ q) (active_ q) (heap q) (objects q) l (pending ag) (option_list cur);
  sm_processing : processing_timer_ q = match cur with Some (a, t) => if repeat t then a else nullptr | None => nullptr end;
  sm_running : running ag = snd <$> cur;
  sm_cancelled : processing_timer_cancelled_ q = match cur with Some (_, t) => repeat t && run_cancelled ag | None => false end;
  sm_driver : backend ag = drv q;
  sm_driver_ok : driver_ok (drv q);
  sm_time : now ag = time q;
  sm_sequence : next_sequence ag = next_sequence_ q;
  sm_log : fired ag = log q;
  sm_ok : ag_ok ag;
  sm_room : first <= next_sequence ag /\ first + Z.of_nat (size (dom (objects q))) <= next_sequence ag;
}.

(** All timers made so far fit into memory. *)
Definition fits ag : Prop := next_sequence ag <= first + room.

Lemma uring_fits_le ag ag' : fits ag' -> next_sequence ag <= next_sequence ag' -> fits ag.
Proof. unfold fits. lia. Qed.

Lemma wrap_id z : - 2 ^ 63 <= z < 2 ^ 63 -> int64_wrap z = z.
Proof. intros Hz. unfold int64_wrap. rewrite Z.mod_small; lia. Qed.

Lemma earliest_tracks q l ts free :
  tracks region room (timers_ q) (active_ q) (heap q) (objects q) l ts free ->
  earliest_expiration q = Val (earliest ts).
Proof.
  intros HT. unfold earliest_expiration. pose proof (tracks_Earliest _ _ _ _ _ _ _ _ _ HT) as He. destruct ts as [|t ts].
  - destruct He as [_ ->]. done.
  - destruct He as (a & l' & -> & -> & Ht & _). rewrite bind_val.
    rewrite (proj2 (Z.eqb_neq a nullptr)) by (eapply tracks_region; [exact HT | by apply elem_of_dom]).
    unfold deref. by rewrite Ht, bind_val.
Qed.

Lemma Reconcile_tracks q l ts free :
  tracks region room (timers_ q) (active_ q) (heap q) (objects q) l ts free ->
  Reconcile q = Val (set_drv q (reconcile (drv q) (earliest ts)).1, (reconcile (drv q) (earliest ts)).2).
Proof.
  intros HT. unfold Reconcile. destruct (control_pending_ (drv q)) eqn:Hc.
  - unfold reconcile. rewrite Hc. cbn. by destruct q.
  - rewrite (earliest_tracks _ _ _ _ HT), bind_val. by destruct (reconcile (drv q) (earliest ts)).
Qed.

Lemma ReconcileOrStop_tracks q l ts free :
  tracks region room (timers_ q) (active_ q) (heap q) (objects q) l ts free ->
  ReconcileOrStop q = Val (set_drv q (reconcile_or_stop (drv q) (earliest ts))).
Proof.
  intros HT. unfold ReconcileOrStop. rewrite (Reconcile_tracks _ _ _ _ HT), bind_val. unfold reconcile_or_stop.
  by destruct (reconcile (drv q) (earliest ts)) as [d [[]|e]].
Qed.

(** ** AddTimer *)

Lemma make_sim q ag l cur cb w i (t := new_Timer cb w i (next_sequence ag)) : sim q ag l cur -> next_sequence ag + 1 <= first + room ->
  exists p a, (a ∉ dom (objects q)) /\
    make_timer q cb w i = Val (mkQueue (idx_construct (timers_ q) a) p (active_ q) (processing_timer_ q)
      (processing_timer_cancelled_ q) (drv q) (<[a := t]> (objects q)) (time q) (next_sequence ag + 1) (log q), a) /\
    tracks region room (idx_construct (timers_ q) a) (active_ q) p (<[a := t]> (objects q)) l (pending ag)
      ((a, t) :: option_list cur).
Proof.
  intros H Hfit. unfold make_timer. pose proof (sm_room _ _ _ _ H) as [Hf1 Hf2].
  destruct (tracks_acquire _ _ _ _ _ _ _ _ _ t (sm_tracks _ _ _ _ H)) as (p & a & -> & Ha & HT); [lia|].
  rewrite bind_val. exists p, a. split_and!; [done | | done]. subst t. cbn. rewrite <- (sm_sequence _ _ _ _ H).
  rewrite wrap_id by lia. done.
Qed.

Lemma uring_sequence_unused q ag l cur id : sim q ag l cur -> next_sequence ag <= id -> active_ q !! id = None.
Proof.
  intros H Hid. destruct (active_ q !! id) as [b|] eqn:Eb; [|done]. exfalso.
  assert (has_timer id (pending ag) = true) as Ht by (erewrite tracks_has_timer by apply H; by rewrite Eb).
  apply has_timer_true in Ht as (t & Ht & <-). pose proof (ao_bound _ (sm_ok _ _ _ _ H) t Ht). lia.
Qed.

Lemma drop_insert t ts : has_timer (sequence t) ts = false -> drop_timer (sequence t) (insert_timer t ts) = ts.
Proof.
  rewrite has_timer_false. unfold drop_timer. induction ts as [|u ts IH]; intros Hn; cbn in *.
  - by rewrite Z.eqb_refl.
  - apply not_elem_of_cons in Hn as [Hn Hn']. specialize (IH Hn').
    assert (List.filter (fun x => negb (sequence x =? sequence t)) ts = ts) as Hid.
    { clear -Hn'. induction ts as [|x ts IH]; [done|]. cbn in *. apply not_elem_of_cons in Hn' as [H1 H2].
      rewrite (proj2 (Z.eqb_neq _ _)) by congruence. cbn. by rewrite IH. }
    destruct (timer_less t u); cbn; rewrite ?Z.eqb_refl, (proj2 (Z.eqb_neq (sequence u) (sequence t))) by congruence; cbn; congruence.
Qed.

Lemma uring_AddTimer_sim q ag l cur cb w i : sim q ag l cur -> fits (ag_add ag cb w i).1 ->
  exists q' l', AddTimer q cb w i = Val (q', (ag_add ag cb w i).2) /\ sim q' (ag_add ag cb w i).1 l' cur.
Proof.
  intros H Hfit. pose proof (ag_add_ok ag cb w i (sm_ok _ _ _ _ H)) as Hok. pose proof (ag_add_frame ag cb w i) as (_ & _ & _ & En & _).
  unfold fits in Hfit. rewrite En in Hfit. unfold AddTimer. destruct (make_sim q ag l cur cb w i H Hfit) as (p & a & Had & -> & HT).
  unfold ag_add in Hok |- *.
  set (t := new_Timer cb w i (next_sequence ag)) in *. set (q1 := mkQueue _ _ _ _ _ _ _ _ _ _). rewrite bind_val.
  assert (deref q1 a = Val t) as -> by (unfold deref; cbn; by rewrite lookup_insert_eq). rewrite bind_val.
  pose proof (uring_sequence_unused _ _ _ _ (sequence t) H ltac:(done)) as Hun.
  change (active_ q1) with (active_ q). rewrite bool_decide_eq_false_2 by (rewrite Hun; by intros [? ?]).
  destruct (tracks_link _ _ _ _ _ _ _ _ _ _ _ HT Hun) as (i' & HI & HT').
  change (idx_Insert (TimerLess (objects q1)) (timers_ q1) a = Val (i', true)) in HI.
  unfold index_insert. cbn [objects timers_ set_active]. rewrite HI, !bind_val. cbn [negb].
  set (q2 := set_timers _ i'). rewrite (Reconcile_tracks q2 _ _ _ HT'), bind_val.
  change (drv q2) with (drv q). rewrite (sm_driver _ _ _ _ H) in *. cbn [bk_added uring_backend] in *.
  destruct (driver_added_ok (drv q) (earliest (insert_timer t (pending ag))) (sm_driver_ok _ _ _ _ H)) as [Hdok _].
  unfold driver_added in *. destruct (reconcile (drv q) (earliest (insert_timer t (pending ag)))) as [d [[]|er]] eqn:Er; cbn [fst snd] in *.
  - eexists _, _. split; [reflexivity|]. pose proof (sm_room _ _ _ _ H). destruct H. split; cbn; try exact HT'; auto.
    rewrite dom_insert_L, size_union, size_singleton by set_solver. lia.
  - pose proof (ao_nodup _ (ag_insert_new_ok ag cb w i (sm_ok _ _ _ _ H))) as HN. cbn in HN. fold t in HN.
    assert (has_timer (sequence t) (pending ag) = false) as Hnt.
    { rewrite (tracks_has_timer _ _ _ _ _ _ _ _ _ (sequence t) (sm_tracks _ _ _ _ H)), Hun. done. }
    destruct (tracks_unlink _ _ _ _ _ _ _ _ _ a (sequence t) HT' HN ltac:(apply lookup_insert_eq)) as (i2 & u & HE & Hu & _ & HT2).
    rewrite delete_insert_id in HT2 by done. rewrite drop_insert in HT2 by done.
    destruct (tracks_release _ _ _ _ _ _ _ _ _ _ _ HT2) as (p2 & HP & HT3).
    unfold index_erase. cbn [timers_ set_drv]. change (timers_ q2) with i'. rewrite HE, !bind_val, check_true, bind_val.
    unfold delete_timer. cbn [heap set_active set_timers set_drv]. change (heap q2) with p. rewrite HP, !bind_val.
    eexists _, _. split; [reflexivity|]. pose proof (sm_room _ _ _ _ H). destruct H. split; cbn; auto.
    + rewrite delete_insert_id by done. exact HT3.
    + split; [lia|]. apply delete_size. rewrite dom_insert_L, size_union, size_singleton by set_solver. lia.
Qed.

(** ** Cancel *)

Lemma uring_Cancel_sim q ag l cur id : sim q ag l cur ->
  exists q' l', Cancel q id = Val (q', (ag_cancel ag id).2) /\ sim q' (ag_cancel ag id).1 l' cur.
Proof.
  intros H. pose proof (ag_cancel_ok ag id (sm_ok _ _ _ _ H)) as Hok. unfold Cancel, ag_cancel in *.
  rewrite (tracks_has_timer _ _ _ _ _ _ _ _ _ id (sm_tracks _ _ _ _ H)) in *.
  assert ((if negb (processing_timer_ q =? nullptr) then t ← deref q (processing_timer_ q); Val (sequence t =? id) else Val false) =
    Val (match cur with Some (_, t) => repeat t && (sequence t =? id) | None => false end)) as ->.
  { rewrite (sm_processing _ _ _ _ H). destruct cur as [[b u]|]; [|done]. destruct (repeat u); [|done].
    destruct (tr_free _ _ _ _ _ _ _ _ _ (sm_tracks _ _ _ _ H) b u ltac:(set_solver)) as [Hb Hu].
    rewrite (proj2 (Z.eqb_neq b nullptr)) by (eapply tracks_region; [apply H|]; by apply elem_of_dom).
    unfold deref. by rewrite Hu. }
  rewrite bind_val. rewrite (sm_running _ _ _ _ H) in *.
  destruct (active_ q !! id) as [a|] eqn:Ea; cbn [bool_decide] in *.
  - rewrite bool_decide_eq_true_2 in * by done.
    assert (match cur with Some (_, t) => repeat t && (sequence t =? id) | None => false end = false) as ->.
    { destruct cur as [[b u]|]; [|done]. destruct (Z.eqb_spec (sequence u) id) as [<-|]; [|by rewrite andb_false_r].
      destruct (ao_running _ (sm_ok _ _ _ _ H) u) as [_ Hno]; [by rewrite (sm_running _ _ _ _ H)|].
      rewrite (tracks_has_timer _ _ _ _ _ _ _ _ _ _ (sm_tracks _ _ _ _ H)), Ea in Hno. done. }
    destruct (tracks_unlink _ _ _ _ _ _ _ _ _ _ _ (sm_tracks _ _ _ _ H) (ao_nodup _ (sm_ok _ _ _ _ H)) Ea)
      as (i' & t & HE & Ht & Hs & HT).
    destruct (tracks_release _ _ _ _ _ _ _ _ _ _ _ HT) as (p' & HP & HT').
    unfold index_erase. rewrite HE, !bind_val, check_true, bind_val. unfold delete_timer. cbn [heap set_active set_timers].
    rewrite HP, !bind_val. set (q1 := set_objects _ _ _ _). rewrite (ReconcileOrStop_tracks q1 _ _ _ HT'), bind_val.
    eexists _, _. split; [reflexivity|]. cbn [fst snd] in *. pose proof (sm_room _ _ _ _ H) as [? ?].
    destruct (reconcile_or_stop_ok (drv q) (earliest (drop_timer id (pending ag))) (sm_driver_ok _ _ _ _ H)) as [Hd _].
    destruct H. split; cbn; try exact HT'; auto.
    + by rewrite sm_driver0.
    + split; [done | by apply delete_size].
  - rewrite bool_decide_eq_false_2 in * by (by intros [? ?]). destruct cur as [[b u]|]; cbn in *; [|by eexists q, l].
    destruct (sequence u =? id) eqn:Es; cbn in *; [|rewrite andb_false_r; by eexists q, l].
    destruct (repeat u) eqn:Hr; cbn; eexists _, l; (split; [reflexivity|]).
    + destruct H. split; cbn; auto. by rewrite Hr.
    + destruct H. split; cbn; auto. rewrite Hr in *. done.
Qed.

(** ** Callbacks *)

Lemma uring_elapse_sim q ag l cur d : sim q ag l cur -> sim (set_time q (time q + Z.of_N d)) (set_now ag (now ag + Z.of_N d)) l cur.
Proof. intros H. rewrite (sm_time _ _ _ _ H). pose proof (ag_now_ok ag (time q + Z.of_N d) (sm_ok _ _ _ _ H)). destruct H. by split. Qed.

Lemma uring_run_sim cb : forall q ag l cur, sim q ag l cur -> fits (ag_run cb ag) ->
  exists q' l', run_callback cb q = Val q' /\ sim q' (ag_run cb ag) l' cur.
Proof.
  induction cb as [|cb IHcb w i k IHk|id k IHk|k IHk|d k IHk]; intros q ag l cur H Hfit; cbn [run_callback ag_run] in *.
  - by exists q, l.
  - pose proof (ag_add_ok ag (Some cb) w i (sm_ok _ _ _ _ H)) as Hok. pose proof (uring_AddTimer_sim q ag l cur (Some cb) w i H) as HA.
    destruct (ag_add ag (Some cb) w i) as [ag1 r]. cbn in *.
    destruct (ag_run_ok (k r) _ Hok) as (_ & _ & _ & Hmono & _).
    destruct (HA (uring_fits_le _ _ Hfit Hmono)) as (q1 & l1 & -> & H1). rewrite bind_val. by eapply IHk.
  - destruct (uring_Cancel_sim q ag l cur id H) as (q1 & l1 & -> & H1). rewrite bind_val.
    destruct (ag_cancel ag id) as [ag1 r]. by eapply IHk.
  - unfold SteadyNow. rewrite <- (sm_time _ _ _ _ H). by eapply IHk.
  - apply (IHk _ _ l); [|done]. by apply uring_elapse_sim.
Qed.

(** ** ProcessExpired *)

(** The earliest timer leaves the index and the table, and its callback starts. *)
Lemma uring_pop_start_sim q ag l t rest : sim q ag l None -> pending ag = t :: rest ->
  exists a i' l' q1, idx_Earliest (timers_ q) = Val a /\ objects q !! a = Some t /\ idx_Erase (timers_ q) a = Val (i', true) /\
    pop_start (set_timers q i') a = Val (q1, t) /\
    let q2 := add_log q1 (sequence t, expiration t) in
    sim (if repeat t then set_processing q2 a false else q2) (ag_start ag t rest) l' (Some (a, t)).
Proof.
  intros H Hp. pose proof (sm_tracks _ _ _ _ H) as HT. pose proof (ao_nodup _ (sm_ok _ _ _ _ H)) as HN. rewrite Hp in HT, HN.
  destruct (tracks_pop _ _ _ _ _ _ _ _ _ _ HT HN) as (a & l' & i' & -> & E1 & Ht & Hact & E2 & HT').
  exists a, i', l'. unfold pop_start, deref. cbn [objects set_timers]. rewrite Ht, bind_val.
  cbn [active_ set_timers]. rewrite check_bool_decide, bind_val by (rewrite Hact; eauto).
  eexists. split_and!; [done | done | done | reflexivity|].
  pose proof (ag_start_ok ag t rest (sm_ok _ _ _ _ H) Hp). destruct H.
  destruct (repeat t) eqn:Hr; split; cbn; rewrite ?Hr; auto; by f_equal.
Qed.

(** The callback of a timer is over: the timer is restarted or destroyed. *)
Lemma pop_delete_sim q ag l a t at_ : sim q ag l (Some (a, t)) -> (repeat t && negb (run_cancelled ag)) = false ->
  exists q' l', delete_timer (set_processing q nullptr false) a = Val q' /\ sim q' (ag_finish ag t at_) l' None.
Proof.
  intros H Hr. pose proof (sm_tracks _ _ _ _ H) as HT. cbn [option_list] in HT. unfold ag_finish. rewrite Hr.
  destruct (tracks_release _ _ _ _ _ _ _ _ _ _ _ HT) as (p' & HP & HT').
  pose proof (ag_finish_ok ag t at_ (sm_ok _ _ _ _ H) (sm_running _ _ _ _ H)) as Hok. unfold ag_finish in Hok. rewrite Hr in Hok.
  unfold delete_timer. cbn [heap set_processing]. rewrite HP, bind_val. pose proof (sm_room _ _ _ _ H) as [? ?].
  eexists _, _. split; [reflexivity|]. assert (ag_ok (set_running ag None false)) by (destruct H as [? ? ? ? ? ? ? ? ? [] ?]; by split).
  destruct H. split; cbn; try exact HT'; auto. split; [done | by apply delete_size].
Qed.

Lemma uring_pop_finish_sim q ag l a t at_ : sim q ag l (Some (a, t)) -> repeat t = true -> 0 < interval_ t ->
  exists q' l', pop_finish q at_ a = Val q' /\ sim q' (ag_finish ag t at_) l' None.
Proof.
  intros H Hr Hi. unfold pop_finish. pose proof (sm_cancelled _ _ _ _ H) as Hc. cbn in Hc. rewrite Hr in Hc. cbn in Hc. rewrite Hc.
  destruct (run_cancelled ag) eqn:Hrc.
  { apply (pop_delete_sim _ _ l); [done|]. by rewrite Hrc, andb_false_r. }
  pose proof (sm_tracks _ _ _ _ H) as HT. cbn [option_list] in HT.
  destruct (tr_free _ _ _ _ _ _ _ _ _ HT a t ltac:(set_solver)) as [Hal Ht].
  pose proof (ag_finish_ok ag t at_ (sm_ok _ _ _ _ H) (sm_running _ _ _ _ H) (fun _ => Hi)) as Hok.
  unfold deref. cbn [objects set_processing]. rewrite Ht, bind_val. unfold ag_finish in *. rewrite Hr, Hrc in *. cbn [andb negb] in *.
  assert (active_ q !! sequence t = None) as Hact.
  { destruct (ao_running _ (sm_ok _ _ _ _ H) _ (sm_running _ _ _ _ H)) as [_ Hno].
    rewrite (tracks_has_timer _ _ _ _ _ _ _ _ _ _ HT) in Hno. apply bool_decide_eq_false, eq_None_not_Some in Hno. done. }
  destruct (tracks_link _ _ _ _ _ _ _ _ _ _ _ (tracks_restart _ _ _ _ _ _ _ _ _ _ _ (Restart t at_) HT) Hact) as (i' & HI & HT').
  change (sequence (Restart t at_)) with (sequence t) in *. cbn [active_ set_objects set_processing].
  rewrite bool_decide_eq_false_2 by (rewrite Hact; by intros [? ?]). cbn [negb]. rewrite check_true, bind_val.
  unfold index_insert. cbn [objects timers_ set_active set_objects set_processing]. rewrite HI, !bind_val, check_true, bind_val.
  pose proof (sm_room _ _ _ _ H) as [? ?]. eexists _, _. split; [reflexivity|].
  destruct H. split; cbn; try exact HT'; auto. split; [done|]. rewrite dom_insert_lookup_L by eauto. done.
Qed.

Lemma on_pop_sim q ag l t rest at_ : sim q ag l None -> pending ag = t :: rest -> fits (ag_run (Run t) (ag_start ag t rest)) ->
  exists a i' q' l', idx_Earliest (timers_ q) = Val a /\ objects q !! a = Some t /\ idx_Erase (timers_ q) a = Val (i', true) /\
    on_pop at_ (set_timers q i') a = Val q' /\ sim q' (ag_finish (ag_run (Run t) (ag_start ag t rest)) t at_) l' None.
Proof.
  intros H Hp Hfit. destruct (uring_pop_start_sim _ _ _ _ _ H Hp) as (a & i' & l1 & q1 & E1 & Ht & E2 & Hst & H1).
  exists a, i'. unfold on_pop. rewrite Hst, bind_val. destruct (repeat t) eqn:Hr; cbn [negb] in *.
  - destruct (uring_run_sim (Run t) _ _ _ _ H1 Hfit) as (q2 & l2 & -> & H2). rewrite bind_val.
    destruct (uring_pop_finish_sim _ _ _ _ _ at_ H2 Hr) as (q3 & l3 & E3 & H3); [|eauto 10].
    apply (ao_intervals _ (sm_ok _ _ _ _ H)); [rewrite Hp; set_solver | done].
  - destruct (uring_run_sim (Run t) _ _ _ _ H1 Hfit) as (q2 & l2 & -> & H2). rewrite bind_val.
    destruct (pop_delete_sim _ _ _ _ _ at_ H2) as (q3 & l3 & E3 & H3); [by rewrite Hr|].
    assert (set_processing q2 nullptr false = q2) as E4.
    { pose proof (sm_processing _ _ _ _ H2) as K1. pose proof (sm_cancelled _ _ _ _ H2) as K2. cbn in K1, K2. rewrite Hr in K1, K2.
      destruct q2. cbn in *. by subst. }
    rewrite E4 in E3. eauto 10.
Qed.

Abbreviation popper := (fun at_ (i : Ix) q a => q ← on_pop at_ (set_timers q i) a; Val (timers_ q, q)).

Lemma uring_pop_loop_sim at_ fuel : forall q ag ag' l popped,
  ag_fire fuel at_ ag = Some ag' -> sim q ag l None -> fits ag' ->
  exists q' l' n, idx_pop_loop queue fuel (is_due at_) (popper at_) (timers_ q) q popped = Val (timers_ q', q', n) /\
    sim q' ag' l' None.
Proof.
  induction fuel as [|fuel IH]; intros q ag ag' l popped Hf H Hfit; [done|]. rewrite idx_pop_loop_eq. unfold pop_body.
  cbn [ag_fire] in Hf. rewrite (tracks_Empty _ _ _ _ _ _ _ _ _ (sm_tracks _ _ _ _ H)). destruct (pending ag) as [|t rest] eqn:Hp.
  { injection Hf as <-. eexists q, l, _. split; [done | done]. }
  rewrite bool_decide_eq_false_2 by done. destruct (Z.leb_spec (expiration t) at_) as [Hle|Hgt].
  - assert (fits (ag_run (Run t) (ag_start ag t rest))) as Hfit1.
    { eapply uring_fits_le; [exact Hfit|]. rewrite <- (ag_finish_next _ t at_). eapply ag_fire_next; [|exact Hf].
      by apply ag_round_ok; [apply H|]. }
    destruct (on_pop_sim _ _ _ _ _ at_ H Hp Hfit1) as (a & i' & q1 & l1 & -> & Ht & HE & Hon & H1).
    rewrite bind_val. unfold is_due at 1. rewrite Ht, (proj2 (Z.leb_le _ _) Hle). cbn [negb].
    rewrite HE, bind_val, check_true, bind_val. cbv beta. rewrite Hon, !bind_val. by eapply IH.
  - pose proof (tracks_Earliest _ _ _ _ _ _ _ _ _ (sm_tracks _ _ _ _ H)) as He. rewrite Hp in He.
    destruct He as (a & l' & -> & -> & Ht & _). rewrite bind_val. unfold is_due at 1.
    rewrite Ht, (proj2 (Z.leb_gt _ _) Hgt). cbn [negb]. injection Hf as <-. eexists q, _, _. split; [done | exact H].
Qed.

Lemma ProcessExpired_sim fuel q ag ag' l : sim q ag l None -> ag_fire fuel (now ag) ag = Some ag' -> fits ag' ->
  exists q' l', ProcessExpired fuel q = Val q' /\ sim q' ag' l' None.
Proof.
  intros H Hf Hfit. unfold ProcessExpired, SteadyNow. rewrite <- (sm_time _ _ _ _ H).
  destruct (uring_pop_loop_sim (now ag) fuel _ _ _ _ 0 Hf H Hfit) as (q2 & l2 & n & E & H2). unfold PopWhile. rewrite E, bind_val.
  assert (set_timers q2 (timers_ q2) = q2) as -> by (by destruct q2). eauto.
Qed.

(** ** Completions *)

Lemma set_drv_sim q ag l cur d : sim q ag l cur -> driver_ok d -> sim (set_drv q d) (set_backend ag d) l cur.
Proof. intros H Hd. pose proof (ag_backend_ok ag d (sm_ok _ _ _ _ H)). destruct H. by split. Qed.

Definition event_ok (o : top driver) : Prop := match o with TFire ev => UringOp.cqe_result_ok ev.2 | _ => True end.

Lemma OnCqe_sim fuel q ag ag' l ev : sim q ag l None -> UringOp.cqe_result_ok ev.2 ->
  ag_event fuel ev ag = Some ag' -> fits ag' ->
  exists q' l', OnCqe fuel q ev.1 ev.2 = Val q' /\ sim q' ag' l' None /\
    (covered (backend ag) (earliest (pending ag)) -> covered (backend ag') (earliest (pending ag'))).
Proof.
  intros H Hr Hev Hfit. unfold OnCqe, ag_event in *. cbn [bk_begin uring_backend] in Hev. unfold driver_begin in Hev.
  rewrite (sm_driver _ _ _ _ H) in *. destruct (in_flight (drv q) ev.1) eqn:Hi; cbn [negb].
  2: { injection Hev as <-. exists q, l. rewrite (sm_driver _ _ _ _ H). done. }
  destruct (record_ok _ _ _ (sm_driver_ok _ _ _ _ H) Hi Hr) as (op & E & H1 & H2 & H3). rewrite E in Hev |- *.
  destruct (complete_ok _ _ _ op (sm_driver_ok _ _ _ _ H) Hi H1 H2 H3) as (d & f & E' & Hd).
  rewrite !bind_val in *. rewrite E' in Hev. unfold HandleComplete. cbn [negb drv set_drv]. rewrite E', bind_val.
  change (set_drv (set_drv q ?x) d) with (set_drv q d).
  pose proof (set_drv_sim _ _ _ _ d H Hd) as H4. set (ag1 := set_backend ag d) in *.
  assert (forall ag2 q2 l2, sim q2 ag2 l2 None -> exists q3, ReconcileOrStop q2 = Val q3 /\
    sim q3 (set_backend ag2 (reconcile_or_stop (backend ag2) (earliest (pending ag2)))) l2 None /\
    covered (reconcile_or_stop (backend ag2) (earliest (pending ag2))) (earliest (pending ag2))) as Hfin.
  { intros ag2 q2 l2 HS. rewrite (ReconcileOrStop_tracks _ _ _ _ (sm_tracks _ _ _ _ HS)). eexists. split; [reflexivity|].
    rewrite (sm_driver _ _ _ _ HS).
    destruct (reconcile_or_stop_ok (drv q2) (earliest (pending ag2)) (sm_driver_ok _ _ _ _ HS)) as [K1 K2].
    split; [by apply set_drv_sim | done]. }
  destruct f.
  - apply bind_Some in Hev as (ag2 & Hf & [= <-]).
    destruct (ProcessExpired_sim fuel _ ag1 ag2 l H4 Hf Hfit) as (q2 & l2 & -> & HS). rewrite bind_val.
    destruct (Hfin _ _ _ HS) as (q3 & -> & K1 & K2). eauto 10.
  - injection Hev as <-. rewrite bind_val. destruct (Hfin _ _ _ H4) as (q3 & -> & K1 & K2). eauto 10.
Qed.

(** ** The end of the queue *)

Lemma delete_timers_ok ps : forall q,
  holds (TimerLess (objects q)) (timers_ q) (dom (objects q)) [] -> pool_live (heap q) (dom (objects q)) ->
  NoDup ps.*1 -> NoDup ps.*2 -> (forall a, a ∈ dom (objects q) <-> a ∈ ps.*2) -> active_ q = list_to_map ps ->
  exists q', delete_timers q ps = Val q' /\ active_ q' = ∅ /\ objects q' = ∅ /\ holds (TimerLess ∅) (timers_ q') ∅ [] /\ drv q' = drv q.
Proof.
  induction ps as [|[k a] ps IH]; intros q HI HP HN1 HN2 Hd Ha; cbn [delete_timers] in *.
  - assert (objects q = ∅) as E by (apply dom_empty_inv_L; set_solver). rewrite E, dom_empty_L in *. by exists q.
  - cbn in HN1, HN2. apply NoDup_cons in HN1 as [Hk HN1], HN2 as [Han HN2].
    assert (a ∈ dom (objects q)) as Had by (apply Hd; set_solver).
    destruct (pool_Release_ok _ _ a HP Had) as (p' & E & HP'). unfold delete_timer. cbn [heap set_active]. rewrite E, !bind_val.
    match goal with |- context [delete_timers ?x ps] => destruct (IH x) as (q' & E1 & E2 & E3 & E4 & E5) end; cbn; try done.
    + rewrite dom_delete_L. eapply holds_order; [apply _ | by apply idx_destroy_ok; [exact HI | | set_solver] |]. set_solver.
    + by rewrite dom_delete_L.
    + intros b. rewrite dom_delete_L, elem_of_difference, elem_of_singleton, Hd. cbn. rewrite elem_of_cons.
      split; [tauto|]. intros Hb. split; [auto|]. by intros ->.
    + rewrite Ha. cbn. rewrite delete_insert_id; [done|]. by apply not_elem_of_list_to_map_1.
    + by exists q'.
Qed.

Lemma destroy_sim q ag l : sim q ag l None -> exists q', destroy_queue q = Val q' /\ active_ q' = ∅ /\ objects q' = ∅.
Proof.
  intros H. pose proof (sm_tracks _ _ _ _ H) as HT. unfold destroy_queue, DiscardAll.
  destruct (idx_Clear_ok _ _ _ _ _ (tr_index _ _ _ _ _ _ _ _ _ HT)) as (i' & -> & HI). rewrite !bind_val.
  destruct (delete_timers_ok (map_to_list (active_ q)) (set_timers q i')) as (q' & E & E1 & E2 & HI' & E3); cbn; auto.
  - apply HT.
  - apply NoDup_fst_map_to_list.
  - apply NoDup_fmap_2_strong; [|apply NoDup_map_to_list]. intros [k a] [k' a'] Hx Hy Ea. cbn in Ea. subst a'. f_equal.
    rewrite elem_of_map_to_list in Hx, Hy.
    apply (tr_active _ _ _ _ _ _ _ _ _ HT) in Hx as (_ & t & Ht & <-), Hy as (_ & t' & Ht' & <-). congruence.
  - intros a. rewrite (tr_objects _ _ _ _ _ _ _ _ _ HT). cbn. split.
    + intros [Ha|Ha]; [|set_solver]. destruct (tracks_deref _ _ _ _ _ _ _ _ _ _ HT Ha) as (t & Ht & _).
      apply list_elem_of_fmap. exists (sequence t, a). split; [done|]. apply elem_of_map_to_list, (tr_active _ _ _ _ _ _ _ _ _ HT). eauto.
    + intros ([k b] & -> & Hx%elem_of_map_to_list)%list_elem_of_fmap. left. by apply (tr_active _ _ _ _ _ _ _ _ _ HT) in Hx as [? _].
  - by rewrite list_to_map_to_list.
  - rewrite E, !bind_val. cbn. rewrite (idx_Empty_ok _ _ _ _ HI'). cbn. rewrite E1. eexists. split; [reflexivity|]. done.
Qed.

(** ** Scripts *)

Definition q_op (fuel : nat) (o : top driver) q : outcome queue :=
  match o with
  | TAdd cb w i => '(q, _) ← AddTimer q cb w i; Val q
  | TCancel id => '(q, _) ← Cancel q id; Val q
  | TElapse d => Val (set_time q (time q + Z.of_N d))
  | TFire ev => OnCqe fuel q ev.1 ev.2
  end.

Fixpoint q_run (fuel : nat) (ops : list (top driver)) q : outcome queue :=
  match ops with [] => Val q | o :: ops => q ← q_op fuel o q; q_run fuel ops q end.

(** Between operations. *)
Definition ready q ag : Prop := (exists l, sim q ag l None) /\ covered (backend ag) (earliest (pending ag)).

Lemma uring_ready_idle q ag : ready q ag -> idle ag.
Proof. intros [[l H] _]. split; [apply H|]. by rewrite (sm_running _ _ _ _ H). Qed.

Lemma add_covered ag cb w i : driver_ok (backend ag) -> covered (backend ag) (earliest (pending ag)) ->
  covered (backend (ag_add ag cb w i).1) (earliest (pending (ag_add ag cb w i).1)).
Proof.
  intros Hd Hc. unfold ag_add. cbn [bk_added uring_backend]. set (l := insert_timer _ _).
  destruct (driver_added_ok (backend ag) (earliest l) Hd) as [_ H]. destruct (driver_added (backend ag) (earliest l)) as [d [e|]]; cbn in *.
  - by eapply same_covered.
  - done.
Qed.

Lemma cancel_covered ag id : driver_ok (backend ag) -> covered (backend ag) (earliest (pending ag)) ->
  covered (backend (ag_cancel ag id).1) (earliest (pending (ag_cancel ag id).1)).
Proof.
  intros Hd Hc. unfold ag_cancel. repeat case_match; cbn; try done. by apply reconcile_or_stop_ok.
Qed.

Lemma uring_q_op_sim fuel o q ag ag' : ready q ag -> event_ok o -> ag_op fuel o ag = Some ag' -> fits ag' ->
  exists q', q_op fuel o q = Val q' /\ ready q' ag'.
Proof.
  intros [[l H] Hc] Hev Ho Hfit. pose proof (sm_driver_ok _ _ _ _ H) as Hd. rewrite <- (sm_driver _ _ _ _ H) in Hd.
  destruct o as [cb w i|id|d|ev]; cbn [ag_op q_op event_ok] in *.
  - injection Ho as <-. destruct (uring_AddTimer_sim q ag l None cb w i H Hfit) as (q' & l' & -> & H').
    rewrite bind_val. exists q'. split; [done|]. split; [by exists l' | by apply add_covered].
  - destruct (uring_Cancel_sim q ag l None id H) as (q' & l' & -> & H'). injection Ho as <-. rewrite bind_val.
    exists q'. split; [done|]. split; [by exists l' | by apply cancel_covered].
  - injection Ho as <-. eexists. split; [reflexivity|]. split; [|done]. exists l. by apply uring_elapse_sim.
  - destruct (OnCqe_sim fuel q ag ag' l ev H Hev Ho Hfit) as (q' & l' & -> & H' & Hc').
    exists q'. split; [done|]. split; [by exists l' | by auto].
Qed.

Lemma uring_q_run_sim fuel ops : forall q ag ag', ready q ag -> Forall event_ok ops -> ag_run_all fuel ops ag = Some ag' -> fits ag' ->
  exists q', q_run fuel ops q = Val q' /\ ready q' ag'.
Proof.
  induction ops as [|o ops IH]; intros q ag ag' Hr Hev Ho Hfit; cbn [ag_run_all q_run] in *.
  - injection Ho as <-. by exists q.
  - apply Forall_cons in Hev as [Hev Hevs]. apply bind_Some in Ho as (ag1 & Ho & Ho').
    assert (idle ag1) as Hi by (eapply ag_op_idle; [by eapply uring_ready_idle | exact Ho]).
    destruct (uring_q_op_sim fuel o q ag ag1 Hr Hev Ho) as (q1 & -> & Hr1).
    { eapply uring_fits_le; [exact Hfit|]. by eapply ag_run_all_next. }
    rewrite bind_val. by eapply IH.
Qed.

Definition start_agenda (t : Z) (answers : list (option Error)) : agenda driver := empty_agenda t first (new_driver answers).

(** An empty index and memory without timers. *)
Definition fresh (i : Ix) (p : Pl) : Prop := holds (TimerLess ∅) i ∅ [] /\ pool_live p ∅.

Lemma uring_new_queue_ready i p t answers : fresh i p -> ready (new_queue i p t first answers) (start_agenda t answers).
Proof.
  intros [HI HP]. split; [|by right; right]. exists []. split; cbn; try done.
  - by apply tracks_empty.
  - apply new_driver_ok.
  - apply (empty_idle t first (new_driver answers)).
  - rewrite dom_empty_L, size_empty. lia.
Qed.

(** The kernel wakes the loop in time for the deadline [e], or a control request
    is in flight whose completion will reconsider, or the loop is stopping. While
    timeout updates are supported the control request is an update, which
    completes at once. *)
Definition in_time (d : driver) (e : option Z) : Prop :=
  stop_requested d = true \/
  (in_flight d ControlOp = true /\
   (timeout_update_supported_ d = true -> (ControlOp, PrepareAbsoluteTimeoutUpdate update_timespec DriverOp) ∈ kernel d)) \/
  match e with None => True | Some e => in_flight d DriverOp = true /\ kernel_deadline d <= Z.max 0 e end.

Lemma covered_in_time d e : driver_ok d -> covered d e -> in_time d e.
Proof.
  intros Hd [H|[H|H]]; [by left | right; left | right; right].
  - rewrite (in_flight_ok _ _ Hd). split; [done|]. intros Hs.
    assert (control_is_fallback_ d = false) as Hf.
    { destruct (control_is_fallback_ d) eqn:E; [|done]. destruct (dk_is_fallback _ Hd E). congruence. }
    destruct (dk_kernel _ Hd) as [->| ->]; unfold requests; rewrite H, Hf; destruct (driver_armed_ d); cbn; set_solver.
  - destruct e as [e|]; [|done]. destruct H as [H1 H2]. rewrite (in_flight_ok _ _ Hd). split; [done|].
    rewrite (dk_deadline _ Hd H1). lia.
Qed.

(** What the kernel may be given: each operation at most once, with its result
    cell clear. *)
Definition requests_ok (d : driver) : Prop :=
  NoDup (kernel d).*1 /\
  forall o s, (o, s) ∈ kernel d ->
    UringOp.HasValue (UringOp.result (op_of d o)) = false /\ UringOp.CqeCompletionRecorded (op_of d o) = false.

Lemma driver_requests_ok d : driver_ok d -> requests_ok d.
Proof.
  intros Hd. assert (NoDup (requests d).*1) as HN.
  { unfold requests. destruct (driver_armed_ d), (control_pending_ d); cbn; repeat (apply NoDup_cons; split; [set_solver|]); constructor. }
  split.
  - destruct (dk_kernel _ Hd) as [->| ->]; [done|]. by rewrite <- (Permutation_rev (requests d)).
  - intros o s Hin. assert (in_flight d o = true) as Hi.
    { unfold in_flight. apply existsb_exists. exists (o, s). rewrite <- list_elem_of_In. split; [done|]. by apply bool_decide_eq_true. }
    rewrite (in_flight_ok _ _ Hd) in Hi. destruct o; cbn.
    + rewrite (dk_driver_op _ Hd Hi). done.
    + rewrite (dk_control_op _ Hd Hi). done.
Qed.

(** ** Who stops the loop

    The queue asks its loop to stop only after the ring refused one of its submissions. *)

Definition refusals (answers : list (option Error)) (d : driver) : Prop :=
  (forall e, Some e ∈ submit_answers d -> Some e ∈ answers) /\ (stop_requested d = true -> exists e, Some e ∈ answers).

Lemma refusals_same answers d d' : refusals answers d -> submit_answers d' = submit_answers d -> stop_requested d' = stop_requested d -> refusals answers d'.
Proof. intros [H1 H2] E1 E2. split; [by rewrite E1 | by rewrite E2]. Qed.

(** A submission is an answer taken; a refused one was among the answers. *)
Lemma SubmitOp_refusals answers d o request : refusals answers d ->
  refusals answers (SubmitOp d o request).1 /\ match (SubmitOp d o request).2 with Ok _ => True | Err e => Some e ∈ answers end.
Proof.
  intros [H1 H2]. unfold SubmitOp. destruct (submit_answers d) as [|[e|] rest] eqn:E; cbn; (split; [split; cbn; [|exact H2]|try done]).
  - intros e He. set_solver.
  - intros e' He. apply H1. set_solver.
  - apply H1. set_solver.
  - intros e' He. apply H1. set_solver.
Qed.

Lemma reconcile_refusals answers d e : refusals answers d ->
  refusals answers (reconcile d e).1 /\ match (reconcile d e).2 with Ok _ => True | Err er => Some er ∈ answers end.
Proof.
  intros H. assert (forall d0 o request (f g : driver -> driver), submit_answers d0 = submit_answers d -> stop_requested d0 = stop_requested d ->
    (forall x, submit_answers (f x) = submit_answers x /\ stop_requested (f x) = stop_requested x) -> (forall x, submit_answers (g x) = submit_answers x /\ stop_requested (g x) = stop_requested x) ->
    let r := match SubmitOp d0 o request with (d1, Ok _) => (f d1, Ok tt) | (d1, Err er) => (g d1, Err er) end in
    refusals answers r.1 /\ match r.2 with Ok _ => True | Err er => Some er ∈ answers end) as Hs.
  { intros d0 o request f g E1 E2 Hf Hg. destruct (SubmitOp_refusals answers d0 o request) as [S1 S2]; [by eapply refusals_same|]. destruct (SubmitOp d0 o request) as [d1 [[]|er]]; cbn in *; (split; [|done]); (eapply refusals_same; [done | apply Hf || apply Hg | apply Hf || apply Hg]). }
  unfold reconcile. destruct (control_pending_ d); [done|]. destruct (negb (driver_armed_ d)).
  - destruct e as [e|]; [|done]. unfold Arm. specialize (Hs (set_ops (set_specs d (ToKernelTimespec e) (fallback_timespec_ d) (update_timespec_ d)) (UringOp.BeginNextRequest (driver_op d)) (control_op d)) DriverOp (PrepareAbsoluteTimeout driver_timespec) (fun x => set_armed x true e) id eq_refl eq_refl ltac:(done) ltac:(done)). cbn in *. by destruct (SubmitOp _ _ _) as [d1 [[]|er]].
  - destruct e as [e|]; [|done]. destruct (e <? driver_deadline_ d); [|done]. destruct (timeout_update_supported_ d).
    + unfold Update. match goal with |- context [SubmitOp ?d0 ControlOp ?q] => specialize (Hs d0 ControlOp q (fun x => set_control x true (control_is_fallback_ x) (fallback_armed_ x)) (fun x => set_requested x 0) eq_refl eq_refl ltac:(done) ltac:(done)) end. cbn in *. by destruct (SubmitOp _ _ _) as [d1 [[]|er]].
    + destruct (negb (fallback_armed_ d)); [|done]. unfold ArmFallback. match goal with |- context [SubmitOp ?d0 ControlOp ?q] => specialize (Hs d0 ControlOp q (fun x => set_control x true (control_is_fallback_ x) true) (fun x => set_control x (control_pending_ x) false (fallback_armed_ x)) eq_refl eq_refl ltac:(done) ltac:(done)) end. cbn in *. by destruct (SubmitOp _ _ _) as [d1 [[]|er]].
Qed.

Lemma reconcile_or_stop_refusals answers d e : refusals answers d -> refusals answers (reconcile_or_stop d e).
Proof.
  intros H. destruct (reconcile_refusals answers d e H) as [H1 H2]. unfold reconcile_or_stop. destruct (reconcile d e) as [d1 [[]|er]]; cbn in *; [done|]. destruct H1 as [H1 _]. split; [done|]. by exists er.
Qed.

(** A completion takes no answer and asks for no stop: only the reconciliation after it does. *)
Lemma op_complete_same o d d' fires : op_complete o d = Val (d', fires) ->
  submit_answers d' = submit_answers d /\ stop_requested d' = stop_requested d.
Proof.
  destruct o; cbn [op_complete]; unfold driver_complete, control_complete, UringOp.cqe_read, ALYRN_CHECK; intros E;
    repeat (case_match; cbn in *; simplify_eq; try done).
Qed.
Lemma driver_begin_refusals answers d ev d' fires : refusals answers d -> driver_begin d ev = Some (d', fires) -> refusals answers d'.
Proof.
  intros H E. unfold driver_begin in E. destruct (in_flight d ev.1); [|done]. destruct ev as [o r]. cbn [fst snd] in E.
  unfold record_cqe in E. destruct (UringOp.TryRecordCqeCompletion _ _) as [[op b]|]; cbn in E; [|done].
  destruct (op_complete o _) as [x|] eqn:Eo; [|done]. injection E as ->. apply op_complete_same in Eo as [E1 E2].
  eapply refusals_same; [done | rewrite E1 | rewrite E2]; by destruct o.
Qed.

Section refusals.
Context (answers : list (option Error)).
Let R (ag : agenda driver) : Prop := refusals answers (backend ag).

Lemma add_refusals ag cb w i : R ag -> R (ag_add ag cb w i).1.
Proof.
  intros H. unfold ag_add, R. cbn [bk_added uring_backend]. unfold driver_added. match goal with |- context [reconcile ?d ?e] => destruct (reconcile_refusals answers d e H) as [H1 _]; destruct (reconcile d e) as [d1 [[]|er]] end; done.
Qed.
Lemma cancel_refusals ag id : R ag -> R (ag_cancel ag id).1.
Proof. intros H. unfold ag_cancel, R. repeat case_match; cbn; try done. by apply reconcile_or_stop_refusals. Qed.
Lemma run_refusals cb : forall ag, R ag -> R (ag_run cb ag).
Proof.
  induction cb as [|cb IHcb w i k IHk|id k IHk|k IHk|d k IHk]; intros ag H; cbn [ag_run]; [done | | | by apply IHk | by apply IHk].
  - pose proof (add_refusals ag (Some cb) w i H) as H1. destruct (ag_add ag (Some cb) w i) as [ag1 r]. by apply IHk.
  - pose proof (cancel_refusals ag id H) as H1. destruct (ag_cancel ag id) as [ag1 r]. by apply IHk.
Qed.
Lemma fire_refusals fuel at_ : forall ag ag', R ag -> ag_fire fuel at_ ag = Some ag' -> R ag'.
Proof.
  induction fuel as [|fuel IH]; intros ag ag' H E; [done|]. cbn [ag_fire] in E. destruct (pending ag) as [|t rest]; [by injection E as <-|]. destruct (expiration t <=? at_); [|by injection E as <-].
  eapply IH; [|exact E]. unfold ag_finish. case_match; apply (run_refusals (Run t) (ag_start ag t rest)); exact H.
Qed.
Lemma op_refusals fuel o ag ag' : R ag -> ag_op fuel o ag = Some ag' -> R ag'.
Proof.
  intros H E. destruct o as [cb w i|id|d|ev]; cbn [ag_op] in E; [injection E as <-; by apply add_refusals | injection E as <-; by apply cancel_refusals | by injection E as <-|].
  unfold ag_event in E. cbn [bk_begin bk_end uring_backend] in E. destruct (driver_begin (backend ag) ev) as [[d fires]|] eqn:Eb; [|by injection E as <-]. pose proof (driver_begin_refusals _ _ _ _ _ H Eb) as Hd.
  apply bind_Some in E as (ag1 & E1 & E). injection E as <-. apply reconcile_or_stop_refusals. destruct fires; [by eapply fire_refusals in E1 | by injection E1 as <-].
Qed.
Lemma run_all_refusals fuel ops : forall ag ag', R ag -> ag_run_all fuel ops ag = Some ag' -> R ag'.
Proof.
  induction ops as [|o ops IH]; intros ag ag' H E; cbn [ag_run_all] in E; [by injection E as <-|]. apply bind_Some in E as (ag1 & E1 & E). eapply IH; [|exact E]. by eapply op_refusals.
Qed.
End refusals.

(** C20. The io_uring timer queue, over any ordered index and any memory that obey
    their interfaces, behaves like the agenda driven by its two kernel requests.
    Every script of AddTimer, Cancel, passing time and completions of the requests
    in flight with any results ends, whatever the callbacks do and whichever
    submissions the ring refuses. As long as the timers made so far fit into memory and
    their sequence numbers into 64 bits ([fits]), the queue runs it without aborting, and
    the callbacks run are those of the agenda, in its order: a refused AddTimer leaves
    nothing behind. The kernel never holds an operation twice and never one whose
    result was recorded, and it is asked in time for the earliest timer, with two
    exceptions: while a control request is in flight, and once the queue has asked the
    loop to stop, which it does only after the ring refused a submission. Destroying the
    queue frees every timer. *)
Theorem uring_timers_refine_agenda i p t answers ops :
  fresh i p -> Forall event_ok ops ->
  (exists fuel ag, forall more, ag_run_all (fuel + more) ops (start_agenda t answers) = Some ag) /\
  forall fuel ag, ag_run_all fuel ops (start_agenda t answers) = Some ag -> fits ag ->
  exists q, q_run fuel ops (new_queue i p t first answers) = Val q /\
    log q = fired ag /\ time q = now ag /\ drv q = backend ag /\
    (forall id, is_Some (active_ q !! id) <-> has_timer id (pending ag) = true) /\
    requests_ok (drv q) /\ in_time (drv q) (earliest (pending ag)) /\
    (stop_requested (drv q) = true -> exists e, Some e ∈ answers) /\
    exists q', destroy_queue q = Val q' /\ active_ q' = ∅ /\ objects q' = ∅.
Proof.
  intros Hfr Hev. pose proof (uring_new_queue_ready i p t answers Hfr) as Hrd.
  split; [by eapply ag_run_all_total, uring_ready_idle|]. intros fuel ag Hag Hfit.
  destruct (uring_q_run_sim fuel ops _ _ ag Hrd Hev Hag Hfit) as (q & Hq & [[l H] Hc]). rewrite (sm_driver _ _ _ _ H) in Hc.
  pose proof (sm_driver_ok _ _ _ _ H) as Hd. exists q.
  split_and!; [done | by rewrite (sm_log _ _ _ _ H) | by rewrite (sm_time _ _ _ _ H) | by rewrite (sm_driver _ _ _ _ H) | | | | |].
  - intros id. rewrite (tracks_has_timer _ _ _ _ _ _ _ _ _ _ (sm_tracks _ _ _ _ H)). by rewrite bool_decide_eq_true.
  - by apply driver_requests_ok.
  - by apply covered_in_time.
  - rewrite <- (sm_driver _ _ _ _ H). apply (run_all_refusals answers fuel ops (start_agenda t answers) ag); [|done]. by split.
  - by eapply destroy_sim.
Qed.

(** The script of the next theorem: three timers, each earlier than the one
    before, and a failed timeout update after the second. *)
Definition late_script (d1 d2 d3 r : Z) : list (top driver) :=
  [TAdd None d1 0; TAdd None d2 0; TFire (ControlOp, r); TAdd None d3 0].

Definition late_driver (d1 d2 : Z) : driver :=
  mkDriver true true true true false d1 d2 (ToKernelTimespec d1) (ToKernelTimespec d2) (ToKernelTimespec d2)
    (UringOp.new_Op driver_kind) (UringOp.new_Op control_kind)
    [(DriverOp, PrepareAbsoluteTimeout driver_timespec); (ControlOp, PrepareAbsoluteTimeout fallback_timespec)]
    None [] false.

Lemma insert_earliest t u l : expiration t < expiration u -> insert_timer t (u :: l) = t :: u :: l.
Proof. intros H. cbn. assert (timer_less t u = true) as -> by (apply timer_less_spec; lia). done. Qed.

Definition first_driver (d1 : Z) : driver :=
  mkDriver true false false false true d1 0 (ToKernelTimespec d1) (0, 0) (0, 0)
    (UringOp.new_Op driver_kind) (UringOp.new_Op control_kind)
    [(DriverOp, PrepareAbsoluteTimeout driver_timespec)] None [] false.

Definition second_driver (d1 d2 : Z) : driver :=
  mkDriver true true false false true d1 d2 (ToKernelTimespec d1) (0, 0) (ToKernelTimespec d2)
    (UringOp.new_Op driver_kind) (UringOp.new_Op control_kind)
    [(DriverOp, PrepareAbsoluteTimeout driver_timespec); (ControlOp, PrepareAbsoluteTimeoutUpdate update_timespec DriverOp)]
    None [] false.

Lemma second_driver_ok d1 d2 : d2 < d1 -> driver_added (first_driver d1) (Some d2) = (second_driver d1 d2, None).
Proof. intros H. unfold driver_added, reconcile. cbn. by rewrite (proj2 (Z.ltb_lt _ _) H). Qed.

Lemma failed_update d1 d2 r : r <> 0 -> UringOp.cqe_result_ok r -> exists op, UringOp.kind op = control_kind /\
  driver_begin (second_driver d1 d2) (ControlOp, r) =
    Some (mkDriver true false false false false d1 d2 (ToKernelTimespec d1) (0, 0) (ToKernelTimespec d2)
      (UringOp.new_Op driver_kind) op [(DriverOp, PrepareAbsoluteTimeout driver_timespec)] None [] false, false).
Proof.
  intros Hr Hok. destruct (UringOp.record_first control_kind r Hok) as (op & E & E1 & E2 & E3 & _). exists op. split; [done|].
  assert (kernel_completes (second_driver d1 d2) ControlOp r =
    set_kernel (second_driver d1 d2) [(DriverOp, PrepareAbsoluteTimeout driver_timespec)] None []) as Ek.
  { unfold kernel_completes, kernel_effect.
    change (find _ _) with (Some (ControlOp, PrepareAbsoluteTimeoutUpdate update_timespec DriverOp)).
    cbv beta iota. by rewrite (proj2 (Z.eqb_neq _ _) Hr). }
  unfold driver_begin. cbn [fst snd]. rewrite Ek. change (in_flight (second_driver d1 d2) ControlOp) with true. cbv iota.
  unfold record_cqe. cbn [op_of control_op set_kernel second_driver]. rewrite E, !bind_val.
  unfold op_complete, control_complete, UringOp.cqe_read. cbn [set_op set_ops set_control control_op]. rewrite E2, E1, check_true, !bind_val.
  cbn [set_op set_ops set_control control_op control_is_fallback_ set_kernel second_driver]. rewrite ?E2. cbn [andb].
  by rewrite (proj2 (Z.eqb_neq _ _) Hr).
Qed.

Lemma fallback_after op d1 d2 : UringOp.kind op = control_kind -> d2 < d1 ->
  reconcile_or_stop (mkDriver true false false false false d1 d2 (ToKernelTimespec d1) (0, 0) (ToKernelTimespec d2)
      (UringOp.new_Op driver_kind) op [(DriverOp, PrepareAbsoluteTimeout driver_timespec)] None [] false) (Some d2) =
  late_driver d1 d2.
Proof.
  intros Hk H. unfold reconcile_or_stop, reconcile. cbn [control_pending_ driver_armed_ negb driver_deadline_ timeout_update_supported_ fallback_armed_].
  rewrite (proj2 (Z.ltb_lt _ _) H). unfold ArmFallback. cbn [set_specs set_ops set_control control_op]. rewrite (begin_op op _ Hk). reflexivity.
Qed.

Lemma late_agenda t d1 d2 d3 r : d3 < d2 -> d2 < d1 -> r <> 0 -> UringOp.cqe_result_ok r ->
  ag_run_all 1 (late_script d1 d2 d3 r) (start_agenda t []) =
  Some (mkAgenda [new_Timer None d3 0 (first + 1 + 1); new_Timer None d2 0 (first + 1); new_Timer None d1 0 first]
    None false t (first + 1 + 1 + 1) [] (late_driver d1 d2)).
Proof.
  intros H1 H2 Hr Hok. unfold late_script, start_agenda. cbn [ag_run_all ag_op mbind option_bind].
  change (ag_add (empty_agenda t first (new_driver [])) None d1 0).1 with
    (mkAgenda [new_Timer None d1 0 first] None false t (first + 1) [] (first_driver d1)).
  assert ((ag_add (mkAgenda [new_Timer None d1 0 first] None false t (first + 1) [] (first_driver d1)) None d2 0).1 =
    mkAgenda [new_Timer None d2 0 (first + 1); new_Timer None d1 0 first] None false t (first + 1 + 1) [] (second_driver d1 d2)) as ->.
  { unfold ag_add. cbn [pending next_sequence backend]. rewrite insert_earliest by (cbn; lia).
    cbn [earliest head fmap option_fmap option_map bk_added uring_backend]. change (expiration (new_Timer None d2 0 (first + 1))) with d2.
    by rewrite second_driver_ok. }
  destruct (failed_update d1 d2 r Hr Hok) as (op & Hk & Hb). unfold ag_event. cbn [bk_begin uring_backend backend]. rewrite Hb.
  transitivity (Some (ag_add (mkAgenda [new_Timer None d2 0 (first + 1); new_Timer None d1 0 first] None false t (first + 1 + 1) []
    (late_driver d1 d2)) None d3 0).1).
  { rewrite <- (fallback_after op d1 d2 Hk H2). reflexivity. }
  f_equal. unfold ag_add. cbn [pending next_sequence]. rewrite insert_earliest by (cbn; lia). reflexivity.
Qed.

(** C21. After one timeout update has failed, for whatever reason, an earlier timer
    may not be armed at all. With timers at [d1] and [d2] pending and the update
    for [d2] answered with any error, AddTimer for any deadline [d3] before [d2]
    succeeds and submits nothing: the timer is pending and earliest, the loop is
    not stopping, no submission has failed, yet the kernel holds only a driver
    timeout for [d1] and a fallback timeout for [d2]. The timer is [d2 - d3] late,
    however long that is. *)
Theorem uring_timer_late_after_failed_update i p t d1 d2 d3 r :
  fresh i p -> 3 <= room -> 0 <= d3 -> d3 < d2 -> d2 < d1 -> r <> 0 -> UringOp.cqe_result_ok r ->
  exists q a u, q_run 1 (late_script d1 d2 d3 r) (new_queue i p t first []) = Val q /\
    active_ q !! (first + 2) = Some a /\ objects q !! a = Some u /\ expiration u = d3 /\
    log q = [] /\ stop_requested (drv q) = false /\
    kernel (drv q) = [(DriverOp, PrepareAbsoluteTimeout driver_timespec); (ControlOp, PrepareAbsoluteTimeout fallback_timespec)] /\
    kernel_deadline (drv q) = d1 /\ cell_nanos (drv q) fallback_timespec = d2.
Proof.
  intros Hfr Hroom H0 H1 H2 Hr Hok. pose proof (uring_new_queue_ready i p t [] Hfr) as Hrd.
  pose proof (late_agenda t d1 d2 d3 r H1 H2 Hr Hok) as Hag.
  assert (Forall event_ok (late_script d1 d2 d3 r)) as Hev by (by repeat constructor; apply Hok).
  destruct (uring_q_run_sim 1 _ _ _ _ Hrd Hev Hag) as (q & Hq & [[l H] _]); [unfold fits; cbn; lia|].
  pose proof (tracks_Earliest _ _ _ _ _ _ _ _ _ (sm_tracks _ _ _ _ H)) as (a & l' & _ & _ & Hu & Ha). cbn in Ha.
  exists q, a, (new_Timer None d3 0 (first + 1 + 1)). rewrite <- (sm_driver _ _ _ _ H), <- (sm_log _ _ _ _ H).
  replace (first + 2) with (first + 1 + 1) by lia. split_and!; try done.
  - change (timespec_nanos (ToKernelTimespec d1) = d1). rewrite (proj1 (ToKernelTimespec_nanos d1)). lia.
  - change (timespec_nanos (ToKernelTimespec d2) = d2). rewrite (proj1 (ToKernelTimespec_nanos d2)). lia.
Qed.

End sim.

(** ** A concrete queue

    The red-black tree and the storage of the epoll example. *)

#[local] Existing Instance rbtree_ops.
#[local] Instance example_heap_ops : TimerPoolOps ObjectPool.opool :=
  object_pool_ops MemoryPoolProps.example_params ObjectPoolProps.example_new_node 8.
#[local] Instance example_rbtree : TimerIndex (gmap Z RBTree.node * RBTree.tree) (rb_region 8) := rbtree_index 8.
#[local] Instance example_heap : TimerPool ObjectPool.opool (rb_region 8) 8 :=
  object_pool_laws MemoryPoolProps.example_params ObjectPoolProps.example_new_node 8 (rb_region 8) 8 EpollTimersProps.example_storage.

Lemma example_fresh_queue : fresh (rb_region 8) 8 EpollTimersProps.example_index (ObjectPool.new_pool MemoryPoolProps.example_params).
Proof.
  split.
  - apply EpollTimersProps.example_index_holds.
  - cbn. eapply ObjectPoolProps.new_pool_holds; [apply MemoryPoolProps.example_params_ok | apply ObjectPoolProps.example_new_node_ok].
Qed.

(** A callback that cancels the third timer and adds one that is already due; a
    repeating timer that is found due together with it; one submission refused; the
    update cut short by the expiry of the driver. *)
Definition uring_script : list (top driver) :=
  [TAdd (Some (CCancel 2 (fun _ => CNow (fun t => CAddTimer CReturn (t - 5) 0 (fun _ => CReturn))))) 10000 0;
   TAdd (Some CReturn) 9000 30000; TAdd (Some CReturn) 25000 0; TElapse 26000;
   TFire (DriverOp, - ETIME); TFire (ControlOp, - ENOENT); TAdd None 5 0; TElapse 40000; TFire (DriverOp, - ETIME)].

Definition uring_answers : list (option Error) := [None; None; None; Some (Errno EAGAIN)].

Lemma uring_script_ok : Forall event_ok uring_script.
Proof. repeat constructor; vm_compute; done. Qed.

Definition uring_agenda : agenda driver :=
  default (start_agenda 0 0 []) (ag_run_all 10 uring_script (start_agenda 0 0 uring_answers)).

Lemma uring_timers_refine_agenda_witness :
  exists q, q_run 10 uring_script (new_queue EpollTimersProps.example_index (ObjectPool.new_pool MemoryPoolProps.example_params) 0 0 uring_answers) = Val q /\
    log q = [(1, 9000); (0, 10000); (3, 25995); (1, 56000)].
Proof.
  destruct (uring_timers_refine_agenda (rb_region 8) 8 0 ltac:(lia) EpollTimersProps.example_index
    (ObjectPool.new_pool MemoryPoolProps.example_params) 0 uring_answers uring_script example_fresh_queue uring_script_ok) as [_ H].
  destruct (H 10%nat uring_agenda) as (q & Hq & Hlog & _).
  - vm_compute. reflexivity.
  - vm_compute. discriminate.
  - exists q. split; [exact Hq|]. rewrite Hlog. vm_compute. reflexivity.
Defined.

(** Two hours, one hour and one second: the timer of one second waits an hour. *)
Lemma uring_timer_late_after_failed_update_witness :
  exists q a u, q_run 1 (late_script 7200000000000 3600000000000 1000000000 (- EINVAL))
      (new_queue EpollTimersProps.example_index (ObjectPool.new_pool MemoryPoolProps.example_params) 0 0 []) = Val q /\
    active_ q !! (0 + 2) = Some a /\ objects q !! a = Some u /\ expiration u = 1000000000 /\
    log q = [] /\ stop_requested (drv q) = false /\
    kernel (drv q) = [(DriverOp, PrepareAbsoluteTimeout driver_timespec); (ControlOp, PrepareAbsoluteTimeout fallback_timespec)] /\
    kernel_deadline (drv q) = 7200000000000 /\ cell_nanos (drv q) fallback_timespec = 3600000000000.
Proof.
  apply (uring_timer_late_after_failed_update (rb_region 8) 8 0 ltac:(lia)).
  - apply example_fresh_queue.
  - lia.
  - lia.
  - lia.
  - lia.
  - vm_compute. discriminate.
  - vm_compute. split; [reflexivity | discriminate].
Defined.

End UringTimersProps.
