(* ===== verification/UringLoop.v ===== *)
(** * The io_uring loop (src/uring/loop.cc, include/alyrn/uring/loop.h)

    One dispatcher with its ring: the operations by address, the two work queues,
    the counts of prepared and submitted requests and the flags of the loop's own
    wake and cancel operations. [sq] and [kernel] are the other side of the ring:
    the SQEs the kernel has not consumed yet and the requests it holds. What
    adapters and resumed coroutines do to the loop are [call]s; the results of
    io_uring_submit are inputs of the model. Everything here runs on the loop's
    thread; posting from other threads is modelled in Posting.v. *)

From S2P Require Import Prelude Lifecycles Work UringOp.

Import UringOp.

Module UringLoop.

Inductive LoopState := kCreated | kRunning | kStopping | kStopped.

#[global] Instance LoopState_eq_dec : EqDecision LoopState.
Proof. solve_decision. Defined.

Definition kMaxCqesPerTurn : Z := 256.
Definition kMaxReadyWorkPerTurn : Z := 256.
Definition kMaxCompletionWorkPerTurn : Z := 64.

Definition ENOSPC : Z := 28.

(** Addresses: null, and the operations inside the loop object. *)
Definition nullptr : Z := 0.
Definition wake_op_ : Z := 8.
Definition cancel_all_op_ : Z := 16.

Record loop := mkLoop {
  ops : gmap Z Op;
  ready_ : list Z;
  completion_ready_ : list Z;
  initialized_ : bool;
  pending_submit_ : Z;
  inflight_ : Z;
  state_ : LoopState;
  wake_pending_ : bool;
  wake_inflight_ : bool;
  cancel_all_pending_ : bool;
  wake_fd_ : Z;
  sq : list Z;
  kernel : list Z;
  sq_entries : Z;
  submit_results : list Z;      (* of io_uring_submit; everything is consumed when used up *)
}.

Definition set_ops (l : loop) (m : gmap Z Op) : loop :=
  mkLoop m (ready_ l) (completion_ready_ l) (initialized_ l) (pending_submit_ l) (inflight_ l) (state_ l)
    (wake_pending_ l) (wake_inflight_ l) (cancel_all_pending_ l) (wake_fd_ l) (sq l) (kernel l) (sq_entries l) (submit_results l).
Definition set_queues (l : loop) (ready completion : list Z) : loop :=
  mkLoop (ops l) ready completion (initialized_ l) (pending_submit_ l) (inflight_ l) (state_ l)
    (wake_pending_ l) (wake_inflight_ l) (cancel_all_pending_ l) (wake_fd_ l) (sq l) (kernel l) (sq_entries l) (submit_results l).
Definition set_counts (l : loop) (pending inflight : Z) : loop :=
  mkLoop (ops l) (ready_ l) (completion_ready_ l) (initialized_ l) pending inflight (state_ l)
    (wake_pending_ l) (wake_inflight_ l) (cancel_all_pending_ l) (wake_fd_ l) (sq l) (kernel l) (sq_entries l) (submit_results l).
Definition set_state (l : loop) (s : LoopState) : loop :=
  mkLoop (ops l) (ready_ l) (completion_ready_ l) (initialized_ l) (pending_submit_ l) (inflight_ l) s
    (wake_pending_ l) (wake_inflight_ l) (cancel_all_pending_ l) (wake_fd_ l) (sq l) (kernel l) (sq_entries l) (submit_results l).
Definition set_flags (l : loop) (wp wi ca : bool) : loop :=
  mkLoop (ops l) (ready_ l) (completion_ready_ l) (initialized_ l) (pending_submit_ l) (inflight_ l) (state_ l)
    wp wi ca (wake_fd_ l) (sq l) (kernel l) (sq_entries l) (submit_results l).
Definition set_ring (l : loop) (s k : list Z) (rs : list Z) : loop :=
  mkLoop (ops l) (ready_ l) (completion_ready_ l) (initialized_ l) (pending_submit_ l) (inflight_ l) (state_ l)
    (wake_pending_ l) (wake_inflight_ l) (cancel_all_pending_ l) (wake_fd_ l) s k (sq_entries l) rs.

Definition get_op (l : loop) (a : Z) : outcome Op :=
  match ops l !! a with Some o => Val o | None => Panic end.
Definition put_op (l : loop) (a : Z) (o : Op) : loop := set_ops l (<[a := o]> (ops l)).

(** ** Counts *)

Definition b2z (b : bool) : Z := if b then 1 else 0.

Definition PendingSubmitCount (l : loop) : Z := usize (pending_submit_ l - b2z (wake_pending_ l)).
Definition InflightCount (l : loop) : Z := usize (inflight_ l - b2z (wake_inflight_ l)).
Definition HasReadyWork (l : loop) : bool := negb (bool_decide (ready_ l = [])) || negb (bool_decide (completion_ready_ l = [])).
Definition IsDrained (l : loop) : bool :=
  negb (HasReadyWork l) && (PendingSubmitCount l =? 0) && (InflightCount l =? 0).

(** ** Work queues *)

(** IntrusiveQueue::PushBack refuses null and work that is queued already. *)
Definition queueable (l : loop) (w : Z) : bool :=
  negb (w =? nullptr) && bool_decide (w ∉ ready_ l) && bool_decide (w ∉ completion_ready_ l).

Definition Schedule (l : loop) (w : Z) : loop :=
  if queueable l w then set_queues l (ready_ l ++ [w]) (completion_ready_ l) else l.

Definition ScheduleCompletion (l : loop) (w : Z) : loop :=
  if queueable l w then set_queues l (ready_ l) (completion_ready_ l ++ [w]) else l.

(** ** Stopping *)

(** The state change of RequestStop; the wake-up write is modelled with Post. *)
Definition RequestStop (l : loop) : loop :=
  match state_ l with
  | kCreated | kRunning => set_state l kStopping
  | _ => l
  end.

(** Run takes the loop over: a loop that was asked to stop before is left alone. *)
Definition StartRun (l : loop) : loop :=
  match state_ l with kCreated => set_state l kRunning | _ => l end.

(** ** Submission *)

(** Ring::Submit: the kernel consumes the first SQEs. *)
Definition Submit (l : loop) : loop * ResultE Z :=
  match submit_results l with
  | r :: rs =>
      if r <? 0 then (set_ring l (sq l) (kernel l) rs, Err (NegErrno r))
      else (set_ring l (drop (Z.to_nat r) (sq l)) (kernel l ++ take (Z.to_nat r) (sq l)) rs, Ok r)
  | [] => (set_ring l [] (kernel l ++ sq l) [], Ok (Z.of_nat (length (sq l))))
  end.

Fixpoint flush_loop (fuel : nat) (l : loop) : outcome (loop * ResultE unit) :=
  if negb (0 <? pending_submit_ l) then Val (l, Ok tt) else
  match fuel with
  | O => Panic
  | S fuel =>
      let '(l, submitted) := Submit l in
      match submitted with
      | Err e => Val (l, Err e)
      | Ok n =>
          if n =? 0 then Val (l, Err (Errno EAGAIN)) else
          let count := Z.min n (pending_submit_ l) in
          let l := set_counts l (usize (pending_submit_ l - count)) (usize (inflight_ l + count)) in
          let l := if wake_pending_ l && (0 <? count) then set_flags l false true (cancel_all_pending_ l) else l in
          flush_loop fuel l
      end
  end.

(** Every round submits something, so as many rounds as requests are enough. *)
Definition FlushSubmit (l : loop) : outcome (loop * ResultE unit) := flush_loop (Z.to_nat (pending_submit_ l)) l.

(** Ring::GetSqe. *)
Definition GetSqe (l : loop) : bool := Z.of_nat (length (sq l)) <? sq_entries l.

(** The SQE is prepared and carries the operation as user data. *)
Definition prepare (l : loop) (op : Z) : loop :=
  set_counts (set_ring l (sq l ++ [op]) (kernel l) (submit_results l)) (usize (pending_submit_ l + 1)) (inflight_ l).

Definition refuses (l : loop) (op : Z) (k : OpKind) : bool :=
  let is_stream_deadline_cancel := bool_decide (k = kStreamReadCancelComplete) || bool_decide (k = kStreamWriteCancelComplete) in
  (bool_decide (state_ l = kStopping) || bool_decide (state_ l = kStopped)) &&
  negb (op =? cancel_all_op_) && negb (op =? wake_op_) && negb is_stream_deadline_cancel.

Definition SubmitOp (l : loop) (op : Z) : outcome (loop * ResultE unit) :=
  if negb (initialized_ l) then Val (l, Err (Errno EBADF)) else
  if op =? nullptr then Val (l, Err (Errno EINVAL)) else
  o ← get_op l op;
  if refuses l op (DispatchKind o) then Val (l, Err (Errno ECANCELED)) else
  if GetSqe l then Val (prepare l op, Ok tt) else
  '(l, flushed) ← FlushSubmit l;
  match flushed with
  | Err e => Val (l, Err e)
  | Ok _ => if GetSqe l then Val (prepare l op, Ok tt) else Val (l, Err (Errno ENOSPC))
  end.

Definition CancelPendingOperations (l : loop) : outcome (loop * ResultE unit) :=
  if cancel_all_pending_ l || ((PendingSubmitCount l =? 0) && (InflightCount l =? 0)) then Val (l, Ok tt) else
  o ← get_op l cancel_all_op_;
  let l := put_op l cancel_all_op_ (BeginNextRequest o) in
  '(l, submitted) ← SubmitOp l cancel_all_op_;
  match submitted with
  | Ok _ => Val (set_flags l (wake_pending_ l) (wake_inflight_ l) true, Ok tt)
  | Err e => Val (l, Err e)
  end.

Definition ArmWakePoll (l : loop) : outcome (loop * ResultE unit) :=
  if wake_fd_ l <? 0 then Val (l, Err (Errno EBADF)) else
  o ← get_op l wake_op_;
  let l := put_op l wake_op_ (mkOp (Work.ClearHandle (resume_work o)) (result o) kWake (completion_slot_ o) (single_result_lifecycle_ o)) in
  '(l, submitted) ← SubmitOp l wake_op_;
  match submitted with
  | Ok _ => Val (set_flags l true (wake_inflight_ l) (cancel_all_pending_ l), Ok tt)
  | Err e => Val (l, Err e)
  end.

(** ** What clients of the loop do *)

Inductive call :=
| CallBegin (op : Z) (k : OpKind)         (* a new Op, or BeginNextRequest on one *)
| CallSetHandle (op handle : Z)           (* resume_work.SetHandle *)
| CallClearHandle (op : Z)
| CallStoreResult (op value : Z)          (* op->result = value *)
| CallAuthorizeResult (op : Z)
| CallAuthorizeRelease (op : Z)
| CallSubmit (op : Z)
| CallSchedule (w : Z)
| CallScheduleCompletion (w : Z)
| CallFlush
| CallCancelPending
| CallRequestStop.

Definition set_work (o : Op) (w : Work.t) : Op :=
  mkOp w (result o) (kind o) (completion_slot_ o) (single_result_lifecycle_ o).
Definition set_result (o : Op) (r : CqeResult) : Op :=
  mkOp (resume_work o) r (kind o) (completion_slot_ o) (single_result_lifecycle_ o).

Definition do_call (l : loop) (c : call) : outcome loop :=
  match c with
  | CallBegin op k => Val (put_op l op (new_Op k))
  | CallSetHandle op h => o ← get_op l op; w ← Work.SetHandle (resume_work o) h; Val (put_op l op (set_work o w))
  | CallClearHandle op => o ← get_op l op; Val (put_op l op (set_work o (Work.ClearHandle (resume_work o))))
  | CallStoreResult op v => o ← get_op l op; r ← cqe_assign (result o) v; Val (put_op l op (set_result o r))
  | CallAuthorizeResult op => o ← get_op l op; '(o, b) ← TryAuthorizeCoupledResult o; ALYRN_CHECK b;; Val (put_op l op o)
  | CallAuthorizeRelease op => o ← get_op l op; '(o, b) ← TryAuthorizeCoupledRelease o; ALYRN_CHECK b;; Val (put_op l op o)
  | CallSubmit op => '(l, _) ← SubmitOp l op; Val l
  | CallSchedule w => Val (Schedule l w)
  | CallScheduleCompletion w => Val (ScheduleCompletion l w)
  | CallFlush => '(l, _) ← FlushSubmit l; Val l
  | CallCancelPending => '(l, _) ← CancelPendingOperations l; Val l
  | CallRequestStop => Val (RequestStop l)
  end.

Fixpoint do_calls (l : loop) (cs : list call) : outcome loop :=
  match cs with [] => Val l | c :: cs => l ← do_call l c; do_calls l cs end.

(** ** Completions *)

(** Kinds whose handler returns a disposition of its own. *)
Definition explicit_disposition (k : OpKind) : bool :=
  match k with
  | kStreamReadCancelComplete | kStreamWriteCancelComplete | kConnectCancelComplete
  | kAcceptSourceComplete | kRecvSourceComplete | kSendZeroCopyComplete => true
  | _ => false
  end.

(** Kinds without a handler. *)
Definition unhandled (k : OpKind) : bool :=
  match k with kNone | kWake | kCancelAll | kNop | kCount => true | _ => false end.

(** DispatchCompletion; the adapter's handler makes the calls [cs] and, where it
    returns one, decides on [d]. *)
Definition DispatchCompletion (l : loop) (op : Z) (cs : list call) (d : CompletionDisposition) :
    outcome (loop * CompletionDisposition) :=
  ALYRN_CHECK (negb (op =? nullptr));;
  o ← get_op l op;
  l ← (if unhandled (DispatchKind o) then Val l else do_calls l cs);
  if explicit_disposition (DispatchKind o) then Val (l, d) else
  o ← get_op l op;
  Val (l, mkDisposition true true (Work.HasHandle (resume_work o))).

(** The body of apply_disposition after the bookkeeping. *)
Definition resume_op (l : loop) (op : Z) : outcome loop :=
  o ← get_op l op;
  o ← (if UsesCoupledSingleResultLifecycle (DispatchKind o) then
         '(o, b) ← TryAuthorizeCoupledContinuation o; ALYRN_CHECK b;; Val o
       else Val o);
  let '(o, resume_gate_won) :=
    if CqeCompletionRecorded o then (o, true) else TryMarkCompletionWithoutCqeResult o in
  let l := put_op l op o in
  if resume_gate_won && Work.HasHandle (resume_work o) then Val (ScheduleCompletion l op) else Val l.

Definition apply_disposition (l : loop) (op : Z) (d : CompletionDisposition) : outcome loop :=
  (if kernel_request_terminal d then ALYRN_CHECK (decrement_inflight d) else Val tt);;
  l ← (if decrement_inflight d then
         ALYRN_CHECK (0 <? inflight_ l);; Val (set_counts l (pending_submit_ l) (usize (inflight_ l - 1)))
       else Val l);
  if resume_continuation d then resume_op l op else Val l.

(** HandleCqe for the user data [op]; [cs] are the calls of the handler, or of the
    posted callbacks for the wake operation. *)
Definition HandleCqe (l : loop) (op : Z) (event : CompletionEvent) (cs : list call) (d : CompletionDisposition) : outcome loop :=
  if op =? nullptr then
    if 0 <? inflight_ l then Val (set_counts l (pending_submit_ l) (usize (inflight_ l - 1))) else Val l
  else if op =? wake_op_ then
    l ← apply_disposition l op (mkDisposition true true false);
    let l := set_flags l (wake_pending_ l) false (cancel_all_pending_ l) in
    l ← do_calls l cs;
    if bool_decide (state_ l = kRunning) then
      o ← get_op l wake_op_;
      let l := put_op l wake_op_ (BeginNextRequest o) in
      '(l, armed) ← ArmWakePoll l;
      match armed with Ok _ => Val l | Err _ => Val (RequestStop l) end
    else Val l
  else if op =? cancel_all_op_ then
    let l := set_flags l (wake_pending_ l) (wake_inflight_ l) false in
    o ← get_op l op;
    '(o, _) ← TryRecordCqeCompletion o (event_result event);
    let l := put_op l op o in
    '(l, d) ← DispatchCompletion l op cs d;
    apply_disposition l op d
  else
    o ← get_op l op;
    if bool_decide (CompletionModelFor (DispatchKind o) = kSingleShot) then
      '(o, recorded) ← TryRecordCqeCompletion o (event_result event);
      let l := put_op l op o in
      if negb recorded then Val l else
      '(l, d) ← DispatchCompletion l op cs d; apply_disposition l op d
    else
      '(l, d) ← DispatchCompletion l op cs d; apply_disposition l op d.

(** ** Turns *)

(** [exec] runs one work item: it is user code. *)
Section turns.
Context (exec : loop -> Z -> outcome loop).

Fixpoint drain_loop (room : nat) (l : loop) : outcome loop :=
  match room, completion_ready_ l with
  | S room, w :: rest => l ← exec (set_queues l (ready_ l) rest) w; drain_loop room l
  | _, _ => Val l
  end.

Definition DrainCompletionReady (l : loop) : outcome loop := drain_loop (Z.to_nat kMaxCompletionWorkPerTurn) l.

Definition OnCqeHandled (l : loop) : outcome loop :=
  '(l, flushed) ← FlushSubmit l;
  match flushed with
  | Err _ => Val (RequestStop l)
  | Ok _ => DrainCompletionReady l
  end.

(** Which queue the next work comes from. *)
Definition run_completion (l : loop) (completion_resumed : Z) : bool :=
  let completion_available := negb (bool_decide (completion_ready_ l = [])) in
  let ready_available := negb (bool_decide (ready_ l = [])) in
  completion_available && (negb ready_available || (completion_resumed <? kMaxCompletionWorkPerTurn)).

(** The loop of RunReady; besides the loop it returns the work run from the
    completion queue and from the ready queue. *)
Fixpoint ready_loop (room : nat) (completion_resumed : Z) (cs rs : list Z) (l : loop) : outcome (loop * list Z * list Z) :=
  match room with
  | O => Val (l, cs, rs)
  | S room =>
      if run_completion l completion_resumed then
        match completion_ready_ l with
        | w :: rest => l ← exec (set_queues l (ready_ l) rest) w; ready_loop room (completion_resumed + 1) (cs ++ [w]) rs l
        | [] => Panic
        end
      else
        match ready_ l with
        | w :: rest => l ← exec (set_queues l rest (completion_ready_ l)) w; ready_loop room completion_resumed cs (rs ++ [w]) l
        | [] => Val (l, cs, rs)
        end
  end.

Definition RunReady (l : loop) : outcome (loop * list Z * list Z) :=
  ready_loop (Z.to_nat kMaxReadyWorkPerTurn) 0 [] [] l.

End turns.

(** ** A loop after Init *)

Definition new_loop (entries wake_fd : Z) (results : list Z) : loop :=
  mkLoop (<[wake_op_ := new_Op kWake]> (<[cancel_all_op_ := new_Op kCancelAll]> ∅)) [] [] false 0 0 kCreated
    false false false wake_fd [] [] entries results.

(** Init after the ring and the eventfd were created: the counts are cleared and
    the wake poll is armed. *)
Definition Init (l : loop) : outcome (loop * ResultE unit) :=
  if initialized_ l then Val (l, Err (Errno EALREADY)) else
  o ← get_op l cancel_all_op_;
  let l := mkLoop (<[cancel_all_op_ := BeginNextRequest o]> (ops l)) (ready_ l) (completion_ready_ l) true 0 0 (state_ l)
    false false false (wake_fd_ l) (sq l) (kernel l) (sq_entries l) (submit_results l) in
  '(l, armed) ← ArmWakePoll l;
  match armed with
  | Ok _ => Val (l, Ok tt)
  | Err e => Val (mkLoop (ops l) (ready_ l) (completion_ready_ l) false (pending_submit_ l) (inflight_ l) (state_ l)
      (wake_pending_ l) (wake_inflight_ l) (cancel_all_pending_ l) (-1) (sq l) (kernel l) (sq_entries l) (submit_results l), Err e)
  end.

End UringLoop.
