(* ===== verification/UringLoopProps.v ===== *)
(** * The io_uring loop: fairness of ready work and accounting of requests *)

From S2P Require Import Prelude Lifecycles Work UringOp UringLoop.

Import UringOp UringLoop.

Module UringLoopProps.

(** ** RunReady *)

Section ready.
Context (exec : loop -> Z -> outcome loop).

(** Running work reaches the queues only through Schedule and
    ScheduleCompletion, which append. *)
Definition appends : Prop := forall l w, exists l' xs ys, exec l w = Val l' /\
  ready_ l' = ready_ l ++ xs /\ completion_ready_ l' = completion_ready_ l ++ ys.

Definition budget (k : Z) : Z := Z.max 0 (kMaxCompletionWorkPerTurn - k).

Lemma run_completion_spec l k :
  run_completion l k = true <-> completion_ready_ l <> [] /\ (ready_ l = [] \/ k < kMaxCompletionWorkPerTurn).
Proof.
  unfold run_completion. rewrite andb_true_iff, orb_true_iff, negb_true_iff, bool_decide_eq_false, Z.ltb_lt, negb_involutive.
  by rewrite bool_decide_eq_true.
Qed.

(** What one call of the loop does, with [room] works left to run and [k]
    completions run before. *)
Record ready_result (room : nat) (k : Z) (l l' : loop) (dc dr : list Z) : Prop := {
  rr_completions : exists ys, dc ++ completion_ready_ l' = completion_ready_ l ++ ys;
  rr_ready : exists xs, dr ++ ready_ l' = ready_ l ++ xs;
  rr_room : (length dc + length dr <= room)%nat;
  rr_exhausted : (length dc + length dr < room)%nat -> completion_ready_ l' = [] /\ ready_ l' = [];
  rr_fair_ready : Z.min (Z.of_nat (length (ready_ l))) (Z.of_nat room - budget k) <= Z.of_nat (length dr);
  rr_fair_completions : Z.min (Z.of_nat (length (completion_ready_ l))) (Z.min (budget k) (Z.of_nat room)) <= Z.of_nat (length dc);
}.

Lemma ready_loop_ok : appends -> forall room k cs rs l, 0 <= k ->
  exists l' dc dr, ready_loop exec room k cs rs l = Val (l', cs ++ dc, rs ++ dr) /\ ready_result room k l l' dc dr.
Proof.
  intros Hex. induction room as [|room IH]; intros k cs rs l Hk; cbn [ready_loop].
  { exists l, [], []. rewrite !app_nil_r. split; [done|]. split; cbn; try lia; try (by exists []; rewrite app_nil_r); try (intros; lia); unfold budget; lia. }
  destruct (run_completion l k) eqn:Er.
  - apply run_completion_spec in Er as [Hne Hor]. destruct (completion_ready_ l) as [|w rest] eqn:Ec; [done|].
    destruct (Hex (set_queues l (ready_ l) rest) w) as (l1 & xs & ys & -> & E1 & E2). cbn in E1, E2. rewrite bind_val.
    destruct (IH (k + 1) (cs ++ [w]) rs l1 ltac:(lia)) as (l' & dc & dr & -> & [(ys' & H1) (xs' & H2) H3 H4 H5 H6]).
    exists l', (w :: dc), dr. rewrite <- app_assoc. split; [done|].
    unfold budget in *. rewrite E1, length_app in H5. rewrite E2, length_app in H6. split; cbn [app length]; unfold budget in *; try lia.
    + exists (ys ++ ys'). rewrite Ec. cbn. f_equal. by rewrite H1, E2, app_assoc.
    + exists (xs ++ xs'). by rewrite H2, E1, app_assoc.
    + intros Hlt. apply H4. lia.
    + destruct Hor as [E|Hlt]; [rewrite E; change (length []) with 0%nat|]; lia.
    + rewrite Ec. cbn. lia.
  - destruct (ready_ l) as [|w rest] eqn:Ey.
    + assert (completion_ready_ l = []) as Ec.
      { destruct (completion_ready_ l) as [|c r] eqn:Ec; [done|]. exfalso. apply not_true_iff_false in Er. apply Er.
        apply run_completion_spec. rewrite Ec, Ey. split; [done | by left]. }
      exists l, [], []. rewrite !app_nil_r. split; [done|]. split; cbn; rewrite ?Ec, ?Ey; cbn; try lia; try done; by exists []; rewrite ?app_nil_r.
    + destruct (Hex (set_queues l rest (completion_ready_ l)) w) as (l1 & xs & ys & -> & E1 & E2). cbn in E1, E2. rewrite bind_val.
      destruct (IH k cs (rs ++ [w]) l1 Hk) as (l' & dc & dr & -> & [(ys' & H1) (xs' & H2) H3 H4 H5 H6]).
      exists l', dc, (w :: dr). rewrite <- app_assoc. split; [done|].
      assert (completion_ready_ l = [] \/ kMaxCompletionWorkPerTurn <= k) as Hor.
      { destruct (completion_ready_ l) as [|c r] eqn:Ec; [by left|]. right. apply not_true_iff_false in Er.
        apply Z.nlt_ge. intros Hlt. apply Er. apply run_completion_spec. rewrite Ec. split; [done | by right]. }
      unfold budget in *. rewrite E1, length_app in H5. rewrite E2, length_app in H6. split; cbn [app length]; unfold budget in *; try lia.
      * exists (ys ++ ys'). by rewrite H1, E2, app_assoc.
      * exists (xs ++ xs'). rewrite Ey. cbn. f_equal. by rewrite H2, E1, app_assoc.
      * intros Hlt. apply H4. lia.
      * rewrite Ey. cbn. lia.
      * destruct Hor as [E|?]; [rewrite E; change (length []) with 0%nat|]; lia.
Qed.

(** C22. One call of RunReady ends, whatever the work it runs schedules, after at
    most 256 works, and stops before that only with both queues empty. Work runs in
    the order it was scheduled, each once: what was run, followed by what is still
    queued, is what was queued followed by what was scheduled meanwhile. Neither
    queue starves: of the ordinary work queued at the start at least 192 items run
    (or all of it), of the completions at least 64 (or all). *)
Theorem run_ready_bounded_and_fair (l : loop) :
  appends ->
  exists l' cs rs, RunReady exec l = Val (l', cs, rs) /\
    (exists ys, cs ++ completion_ready_ l' = completion_ready_ l ++ ys) /\
    (exists xs, rs ++ ready_ l' = ready_ l ++ xs) /\
    (length cs + length rs <= 256)%nat /\
    ((length cs + length rs < 256)%nat -> completion_ready_ l' = [] /\ ready_ l' = []) /\
    (Nat.min (length (ready_ l)) 192 <= length rs)%nat /\
    (Nat.min (length (completion_ready_ l)) 64 <= length cs)%nat.
Proof.
  intros Hex. unfold RunReady. change (Z.to_nat kMaxReadyWorkPerTurn) with 256%nat.
  destruct (ready_loop_ok Hex 256 0 [] [] l ltac:(lia)) as (l' & dc & dr & E & [H1 H2 H3 H4 H5 H6]). cbn [app] in E.
  exists l', dc, dr. rewrite E. unfold budget, kMaxCompletionWorkPerTurn in *. split_and!; auto; lia.
Qed.

End ready.

(** Three hundred completions and ten ordinary works; each work of even number
    schedules another ordinary work. *)
Definition example_exec (l : loop) (w : Z) : outcome loop :=
  Val (if Z.even w then set_queues l (ready_ l ++ [w + 1001]) (completion_ready_ l) else l).

Definition example_ready_loop : loop := set_queues (new_loop 64 5 []) (seqZ 5000 10) (seqZ 1 300).

Lemma run_ready_bounded_and_fair_witness :
  exists l' cs rs, RunReady example_exec example_ready_loop = Val (l', cs, rs) /\
    (Nat.min (length (ready_ example_ready_loop)) 192 <= length rs)%nat /\
    (Nat.min (length (completion_ready_ example_ready_loop)) 64 <= length cs)%nat.
Proof.
  destruct (run_ready_bounded_and_fair example_exec example_ready_loop) as (l' & cs & rs & H & _ & _ & _ & _ & H1 & H2).
  - intros l w. unfold example_exec. destruct (Z.even w).
    + eexists _, [w + 1001], []. split; [reflexivity|]. cbn. by rewrite app_nil_r.
    + eexists _, [], []. split; [reflexivity|]. by rewrite !app_nil_r.
  - exists l', cs, rs. split; [exact H|]. split; [exact H1 | exact H2].
Defined.

(** ** Accounting of requests *)

(** The requests the ring knows of. *)
Definition out (l : loop) : list Z := sq l ++ kernel l.

Definition fresh_op (o : Op) : Prop :=
  CqeCompletionRecorded o = false /\ HasValue (result o) = false /\
  SingleResultLifecycle.state_ (single_result_lifecycle_ o) = SingleResultLifecycle.kPending.

Definition single_shot (o : Op) : Prop := CompletionModelFor (kind o) = kSingleShot.

Definition is_op (a : Z) : Prop := 0 < a < size_max.
Definition internal (a : Z) : Prop := a = wake_op_ \/ a = cancel_all_op_.

(** The counters and the operations; [owed] completions were received whose
    request is not discounted yet. *)
Record core (owed : Z) (l : loop) : Prop := {
  co_pending : pending_submit_ l = Z.of_nat (length (sq l));
  co_inflight : inflight_ l = Z.of_nat (length (kernel l)) + owed;
  co_nodup : NoDup (out l);
  co_addr x : x ∈ out l -> is_op x;
  co_ops x : x ∈ out l -> exists o, ops l !! x = Some o /\ (single_shot o -> fresh_op o);
  co_wake : exists o, ops l !! wake_op_ = Some o /\ fresh_op o;
  co_cancel : exists o, ops l !! cancel_all_op_ = Some o /\ kind o = kCancelAll /\ Work.HasHandle (resume_work o) = false;
}.

(** The flags of the wake operation ([w]: is it somewhere in the ring?) and of the
    cancel operation. *)
Record flags (w c : bool) (l : loop) : Prop := {
  fg_wake : wake_pending_ l || wake_inflight_ l = w;
  fg_one : wake_pending_ l && wake_inflight_ l = false;
  fg_pending : wake_pending_ l = true -> wake_op_ ∈ sq l;
  fg_cancel : cancel_all_pending_ l = c;
}.

Definition inv (owed : Z) (l : loop) : Prop :=
  core owed l /\ flags (bool_decide (wake_op_ ∈ out l)) (bool_decide (cancel_all_op_ ∈ out l)) l.

(** There are fewer requests than addresses. *)
Lemma out_bound (xs : list Z) : NoDup xs -> (forall x, x ∈ xs -> is_op x) -> Z.of_nat (length xs) < size_max.
Proof.
  intros HN Hx. assert (xs ⊆+ seqZ 1 (size_max - 1)) as Hs.
  { apply NoDup_submseteq; [done|]. intros x H. apply elem_of_seqZ. specialize (Hx x H). unfold is_op in Hx. lia. }
  apply submseteq_length in Hs. rewrite length_seqZ in Hs. unfold size_max in *. lia.
Qed.

Lemma core_bound owed l : core owed l -> Z.of_nat (length (sq l)) + Z.of_nat (length (kernel l)) < size_max.
Proof.
  intros H. pose proof (out_bound (out l) (co_nodup _ _ H) (co_addr _ _ H)) as Hb. unfold out in Hb. rewrite length_app in Hb. lia.
Qed.

Lemma core_perm owed l l' : core owed l -> out l' ≡ₚ out l -> ops l' = ops l ->
  pending_submit_ l' = Z.of_nat (length (sq l')) -> inflight_ l' = Z.of_nat (length (kernel l')) + owed -> core owed l'.
Proof.
  intros [H1 H2 H3 H4 H5 H6 H7] Hp Ho Hs Hk. split; rewrite ?Ho; auto.
  - by rewrite Hp.
  - intros x. rewrite Hp. apply H4.
  - intros x. rewrite Hp. apply H5.
Qed.

(** What a flush leaves alone. *)
Record flushed_from (l l' : loop) : Prop := {
  ff_out : out l' ≡ₚ out l;
  ff_ops : ops l' = ops l;
  ff_queues : ready_ l' = ready_ l /\ completion_ready_ l' = completion_ready_ l;
  ff_state : state_ l' = state_ l /\ initialized_ l' = initialized_ l /\ sq_entries l' = sq_entries l /\ wake_fd_ l' = wake_fd_ l;
}.

Lemma flushed_refl l : flushed_from l l.
Proof. by split. Qed.

Lemma flushed_trans l1 l2 l3 : flushed_from l1 l2 -> flushed_from l2 l3 -> flushed_from l1 l3.
Proof.
  intros [A1 A2 [A3 A3'] (A4 & A5 & A6 & A7)] [B1 B2 [B3 B3'] (B4 & B5 & B6 & B7)]. split; [by rewrite B1 | congruence | split; congruence |].
  split_and!; congruence.
Qed.

(** One round of the loop of FlushSubmit that submits [n] requests. *)
Definition submitted (n : Z) (rs : list Z) (l : loop) : loop :=
  let count := Z.min n (pending_submit_ l) in
  let l := set_ring l (drop (Z.to_nat n) (sq l)) (kernel l ++ take (Z.to_nat n) (sq l)) rs in
  let l := set_counts l (usize (pending_submit_ l - count)) (usize (inflight_ l + count)) in
  if wake_pending_ l && (0 <? count) then set_flags l false true (cancel_all_pending_ l) else l.

Lemma submitted_ok owed w c n rs l : 0 <= owed <= 1 ->
  core owed l -> flags w c l -> 0 < n -> 0 < pending_submit_ l ->
  core owed (submitted n rs l) /\ flags w c (submitted n rs l) /\ flushed_from l (submitted n rs l) /\
  pending_submit_ (submitted n rs l) < pending_submit_ l.
Proof.
  intros Ho H [F1 F2 F3 F4] Hn Hp. pose proof (core_bound _ _ H) as Hb. pose proof (co_pending _ _ H) as Ep. pose proof (co_inflight _ _ H) as Ei.
  set (l1 := set_ring l (drop (Z.to_nat n) (sq l)) (kernel l ++ take (Z.to_nat n) (sq l)) rs).
  assert (out l1 ≡ₚ out l) as Hperm.
  { unfold out, l1. cbn. rewrite <- (take_drop (Z.to_nat n) (sq l)) at 3. solve_Permutation. }
  assert (length (sq l1) = (length (sq l) - Z.to_nat n)%nat) as Ls by (cbn; apply length_drop).
  assert (length (kernel l1) = (length (kernel l) + Nat.min (Z.to_nat n) (length (sq l)))%nat) as Lk.
  { cbn. by rewrite length_app, length_take. }
  unfold submitted. fold l1. change (pending_submit_ l1) with (pending_submit_ l). change (inflight_ l1) with (inflight_ l).
  set (count := Z.min n (pending_submit_ l)). unfold size_max in *.
  assert (usize (pending_submit_ l - count) = Z.of_nat (length (sq l1))) as E1 by (rewrite usize_small; unfold is_usize, size_max; lia).
  assert (usize (inflight_ l + count) = Z.of_nat (length (kernel l1)) + owed) as E2 by (rewrite usize_small; unfold is_usize, size_max; lia).
  rewrite E1, E2. set (l2 := set_counts l1 _ _). change (wake_pending_ l2) with (wake_pending_ l).
  rewrite (proj2 (Z.ltb_lt 0 count)), andb_true_r by lia.
  assert (core owed l2) as H2 by (eapply core_perm; [exact H | exact Hperm | done | done | done]).
  assert (Z.of_nat (length (sq l1)) < pending_submit_ l) as G2 by lia.
  destruct (wake_pending_ l) eqn:Ew; cbn in F1, F2.
  - split_and!; [| | by split | exact G2].
    + eapply core_perm; [exact H2 | done | done | apply H2 | apply H2].
    + subst w. by split.
  - split_and!; [done | | by split | exact G2]. split; [by cbn; rewrite Ew | by cbn; rewrite Ew | by cbn; rewrite Ew | done].
Qed.

Lemma Submit_cases l : 0 < pending_submit_ l -> pending_submit_ l = Z.of_nat (length (sq l)) ->
  (exists rs e, Submit l = (set_ring l (sq l) (kernel l) rs, Err e)) \/
  (exists n rs, 0 <= n /\ Submit l = (set_ring l (drop (Z.to_nat n) (sq l)) (kernel l ++ take (Z.to_nat n) (sq l)) rs, Ok n)).
Proof.
  intros Hp Ep. unfold Submit. destruct (submit_results l) as [|r rs].
  - right. exists (Z.of_nat (length (sq l))), []. split; [lia|]. rewrite Nat2Z.id, drop_all, firstn_all. done.
  - destruct (Z.ltb_spec r 0); [left; eauto | right; eauto].
Qed.

Lemma set_ring_ok owed w c l rs : core owed l -> flags w c l ->
  core owed (set_ring l (sq l) (kernel l) rs) /\ flags w c (set_ring l (sq l) (kernel l) rs) /\
  flushed_from l (set_ring l (sq l) (kernel l) rs).
Proof. intros [] []. split; [by split|]. split; by split. Qed.

Lemma flush_loop_ok owed w c fuel : 0 <= owed <= 1 -> forall l,
  core owed l -> flags w c l -> (Z.to_nat (pending_submit_ l) <= fuel)%nat ->
  exists l' r, flush_loop fuel l = Val (l', r) /\ core owed l' /\ flags w c l' /\ flushed_from l l' /\ (r = Ok tt -> sq l' = []).
Proof.
  intros Ho. induction fuel as [|fuel IH]; intros l H HF Hf; cbn [flush_loop]; pose proof (co_pending _ _ H) as Ep.
  - rewrite (proj2 (Z.ltb_ge 0 _)) by lia. exists l, (Ok tt). split_and!; auto using flushed_refl. intros _. apply length_zero_iff_nil. lia.
  - destruct (Z.ltb_spec 0 (pending_submit_ l)) as [Hp|Hp]; cbn [negb].
    2: { exists l, (Ok tt). split_and!; auto using flushed_refl. intros _. apply length_zero_iff_nil. lia. }
    destruct (Submit_cases l Hp Ep) as [(rs & e & ->)|(n & rs & Hn & ->)].
    + destruct (set_ring_ok _ _ _ _ rs H HF) as (K1 & K2 & K3). eexists _, _. split; [reflexivity|]. by split_and!.
    + destruct (Z.eqb_spec n 0) as [->|Hne].
      * change (Z.to_nat 0) with 0%nat. rewrite drop_0, take_0, app_nil_r.
        destruct (set_ring_ok _ _ _ _ rs H HF) as (K1 & K2 & K3). eexists _, _. split; [reflexivity|]. by split_and!.
      * destruct (submitted_ok owed w c n rs l Ho H HF ltac:(lia) Hp) as (K1 & K2 & K3 & K5).
        fold (submitted n rs l). destruct (IH (submitted n rs l) K1 K2 ltac:(lia)) as (l' & r & E & J1 & J2 & J3 & J4).
        exists l', r. split_and!; auto. by eapply flushed_trans.
Qed.

Lemma FlushSubmit_ok owed w c l : 0 <= owed <= 1 -> core owed l -> flags w c l ->
  exists l' r, FlushSubmit l = Val (l', r) /\ core owed l' /\ flags w c l' /\ flushed_from l l' /\ (r = Ok tt -> sq l' = []).
Proof. intros Ho H HF. by apply flush_loop_ok. Qed.

(** A request is prepared for an operation that is not in the ring. *)
Lemma prepare_ok owed w c l op : 0 <= owed <= 1 -> core owed l -> flags w c l -> is_op op -> (op ∉ out l) ->
  (exists o, ops l !! op = Some o /\ (single_shot o -> fresh_op o)) ->
  core owed (prepare l op) /\ flags w c (prepare l op) /\ out (prepare l op) ≡ₚ op :: out l.
Proof.
  intros Ho H [F1 F2 F3 F4] Ha Hn Hop. pose proof (core_bound _ _ H) as Hb. destruct H as [H1 H2 H3 H4 H5 H6 H7].
  assert (out (prepare l op) ≡ₚ op :: out l) as Hp by (unfold out, prepare; cbn; solve_Permutation).
  split_and!; [| |done].
  - split; try done.
    + cbn. rewrite length_app. cbn. rewrite usize_small; [lia|]. unfold is_usize. lia.
    + rewrite Hp. by apply NoDup_cons.
    + intros x. rewrite Hp. intros [->|Hx]%elem_of_cons; [done | by apply H4].
    + intros x. rewrite Hp. intros [->|Hx]%elem_of_cons; [done | by apply H5].
  - split; cbn; auto. intros E. apply elem_of_app. left. by apply F3.
Qed.

(** SubmitOp: either the request is prepared, or the ring knows what it knew. *)
Record submit_result (owed : Z) (w c : bool) (op : Z) (l l' : loop) (r : ResultE unit) : Prop := {
  sr_core : core owed l';
  sr_flags : flags w c l';
  sr_out : out l' ≡ₚ match r with Ok _ => op :: out l | Err _ => out l end;
  sr_sq : match r with Ok _ => op ∈ sq l' | Err _ => True end;
  sr_ops : ops l' = ops l;
}.

Lemma SubmitOp_ok owed w c l op : 0 <= owed <= 1 -> core owed l -> flags w c l -> is_op op -> (op ∉ out l) ->
  (exists o, ops l !! op = Some o /\ (single_shot o -> fresh_op o)) ->
  exists l' r, SubmitOp l op = Val (l', r) /\ submit_result owed w c op l l' r.
Proof.
  intros Ho H HF Ha Hn Hop. assert (forall e, submit_result owed w c op l l (Err e)) as Hkeep by (by split).
  unfold SubmitOp. destruct (initialized_ l); cbn [negb]; [|eauto].
  rewrite (proj2 (Z.eqb_neq op nullptr)) by (unfold is_op, nullptr in *; lia).
  destruct Hop as (o & Eo & Hf). unfold get_op. rewrite Eo, bind_val. destruct (refuses l op (DispatchKind o)); [eauto|].
  destruct (GetSqe l).
  - destruct (prepare_ok _ _ _ _ op Ho H HF Ha Hn ltac:(eauto)) as (K1 & K2 & K3). eexists _, _. split; [reflexivity|].
    split; try done. cbn. set_solver.
  - destruct (FlushSubmit_ok _ _ _ _ Ho H HF) as (l1 & r & -> & K1 & K2 & [K3 K4 K5 K6] & _). rewrite bind_val.
    destruct r as [[]|e]; [|eexists _, _; split; [reflexivity|]; by split].
    destruct (GetSqe l1); [|eexists _, _; split; [reflexivity|]; by split].
    destruct (prepare_ok _ _ _ l1 op Ho K1 K2 Ha) as (J1 & J2 & J3); [by rewrite K3 | rewrite K4; eauto|].
    eexists _, _. split; [reflexivity|]. split; try done; [by rewrite J3, K3 | cbn; set_solver].
Qed.

(** Changing an operation that is not in the ring. *)
Lemma put_op_core owed l op o : core owed l -> (op ∉ out l) ->
  (op = wake_op_ -> fresh_op o) -> (op = cancel_all_op_ -> kind o = kCancelAll /\ Work.HasHandle (resume_work o) = false) ->
  core owed (put_op l op o).
Proof.
  intros [H1 H2 H3 H4 H5 H6 H7] Hn Hw Hc. split; auto; cbn.
  - intros x Hx. rewrite lookup_insert_ne; [by apply H5|]. by intros ->.
  - destruct (decide (op = wake_op_)) as [->|]; [rewrite lookup_insert_eq; eauto | by rewrite lookup_insert_ne].
  - destruct (decide (op = cancel_all_op_)) as [->|]; [rewrite lookup_insert_eq; eauto | by rewrite lookup_insert_ne].
Qed.

(** Changing the continuation or the result of an operation of a client. *)
Lemma put_client_core owed l op o o' : core owed l -> ops l !! op = Some o -> ~ internal op ->
  (single_shot o' -> fresh_op o -> op ∈ out l -> fresh_op o') -> kind o' = kind o -> core owed (put_op l op o').
Proof.
  intros [H1 H2 H3 H4 H5 H6 H7] Ho Hi Hf Hk. unfold internal in Hi. split; auto; cbn.
  - intros x Hx. destruct (decide (op = x)) as [->|]; [|rewrite lookup_insert_ne by done; auto].
    rewrite lookup_insert_eq. eexists. split; [done|]. intros Hs. destruct (H5 x Hx) as (o2 & E & K). rewrite Ho in E. injection E as <-.
    apply Hf; [done | | done]. apply K. unfold single_shot in *. by rewrite <- Hk.
  - rewrite lookup_insert_ne by tauto. done.
  - rewrite lookup_insert_ne by tauto. done.
Qed.

Lemma put_op_flags w c l op o : flags w c l -> flags w c (put_op l op o).
Proof. intros []. by split. Qed.

(** ** Calls *)

(** The contract of the adapters: an operation is reset, submitted or authorised
    only while the ring does not know it, and submitted fresh. *)
Definition allowed (l : loop) (c : call) : Prop :=
  match c with
  | CallBegin op _ => is_op op /\ ~ internal op /\ (op ∉ out l)
  | CallSetHandle op h => is_Some (ops l !! op) /\ ~ internal op /\ Work.user_address h = true
  | CallClearHandle op => is_Some (ops l !! op) /\ ~ internal op
  | CallStoreResult op v => ~ internal op /\ v <> kEmpty /\
      exists o, ops l !! op = Some o /\ ~ single_shot o /\ HasValue (result o) = false
  | CallAuthorizeResult op => ~ internal op /\ (op ∉ out l) /\
      exists o, ops l !! op = Some o /\ UsesCoupledSingleResultLifecycle (kind o) = true /\ CoupledResultReady o = false
  | CallAuthorizeRelease op => ~ internal op /\ (op ∉ out l) /\
      exists o, ops l !! op = Some o /\ UsesCoupledSingleResultLifecycle (kind o) = true /\
        SingleResultLifecycle.state_ (single_result_lifecycle_ o) = SingleResultLifecycle.kResultReady
  | CallSubmit op => is_op op /\ ~ internal op /\ (op ∉ out l) /\ exists o, ops l !! op = Some o /\ fresh_op o
  | _ => True
  end.

Lemma inv_perm owed l l' : core owed l' ->
  flags (bool_decide (wake_op_ ∈ out l)) (bool_decide (cancel_all_op_ ∈ out l)) l' -> out l' ≡ₚ out l -> inv owed l'.
Proof.
  intros H HF Hp. split; [done|].
  rewrite (bool_decide_ext (wake_op_ ∈ out l') (wake_op_ ∈ out l)), (bool_decide_ext (cancel_all_op_ ∈ out l') (cancel_all_op_ ∈ out l)); [done | |];
    by rewrite Hp.
Qed.

(** A request of a client is submitted, or not. *)
Lemma submit_inv owed op l l' r : inv owed l -> ~ internal op ->
  submit_result owed (bool_decide (wake_op_ ∈ out l)) (bool_decide (cancel_all_op_ ∈ out l)) op l l' r -> inv owed l'.
Proof.
  intros [H HF] Hi [K1 K2 K3 K4 K5]. unfold internal in Hi. destruct r as [[]|e]; [|by apply (inv_perm owed l l')]. split; [done|].
  rewrite (bool_decide_ext (wake_op_ ∈ out l') (wake_op_ ∈ out l)), (bool_decide_ext (cancel_all_op_ ∈ out l') (cancel_all_op_ ∈ out l)); [done | |];
    rewrite K3, elem_of_cons; intuition congruence.
Qed.

Lemma queues_inv owed l a b : inv owed l -> inv owed (set_queues l a b).
Proof. intros [[] []]. split; by split. Qed.

Lemma state_inv owed l s : inv owed l -> inv owed (set_state l s).
Proof. intros [[] []]. split; by split. Qed.

Lemma stop_inv owed l : inv owed l -> inv owed (RequestStop l).
Proof. intros H. unfold RequestStop. destruct (state_ l); auto using state_inv. Qed.

Lemma put_client_inv owed l op o o' : inv owed l -> ops l !! op = Some o -> ~ internal op ->
  (single_shot o' -> fresh_op o -> op ∈ out l -> fresh_op o') -> kind o' = kind o -> inv owed (put_op l op o').
Proof. intros [H HF] Ho Hi Hf Hk. split; [by eapply put_client_core | by apply put_op_flags]. Qed.

(** Operations do not disappear, and the wake operation is armed by the loop only. *)
Definition extends (l l' : loop) : Prop :=
  (forall x, is_Some (ops l !! x) -> is_Some (ops l' !! x)) /\ (wake_op_ ∈ out l' -> wake_op_ ∈ out l).

Lemma extends_refl l : extends l l.
Proof. done. Qed.

Lemma extends_put l op o : extends l (put_op l op o).
Proof.
  split; [|done]. intros x Hx. cbn. destruct (decide (op = x)) as [->|]; [rewrite lookup_insert_eq; eauto | by rewrite lookup_insert_ne].
Qed.

Lemma extends_submit owed w c op l l' r : submit_result owed w c op l l' r -> op <> wake_op_ -> extends l l'.
Proof.
  intros [K1 K2 K3 K4 K5] Hne. split; [by rewrite K5|]. rewrite K3. destruct r; rewrite ?elem_of_cons; intuition congruence.
Qed.

Lemma extends_trans l1 l2 l3 : extends l1 l2 -> extends l2 l3 -> extends l1 l3.
Proof. intros [A1 A2] [B1 B2]. split; auto. Qed.

#[local] Hint Resolve extends_refl extends_put : core.

Lemma cancel_pending_ok owed l : 0 <= owed <= 1 -> inv owed l ->
  exists l' r, CancelPendingOperations l = Val (l', r) /\ inv owed l' /\ extends l l'.
Proof.
  intros Ho Hinv. pose proof Hinv as [H HF]. unfold CancelPendingOperations.
  destruct (cancel_all_pending_ l) eqn:Ec; cbn [orb]; [eauto|].
  assert (cancel_all_op_ ∉ out l) as Hc.
  { pose proof (fg_cancel _ _ _ HF) as E. rewrite Ec in E. symmetry in E. by apply bool_decide_eq_false in E. }
  destruct (_ && _); [eauto|]. destruct (co_cancel _ _ H) as (o & Eo & Hk & _). unfold get_op. rewrite Eo, bind_val.
  set (l1 := put_op l cancel_all_op_ (BeginNextRequest o)).
  assert (core owed l1) as H1 by (apply put_op_core; [done | done | done |]; by intros _; rewrite BeginNextRequest_new, Hk).
  destruct (SubmitOp_ok owed _ _ l1 cancel_all_op_ Ho H1 (put_op_flags _ _ _ _ _ HF)) as (l' & r & -> & HS).
  - done.
  - done.
  - cbn. rewrite lookup_insert_eq. eexists. split; [done|]. intros _. rewrite BeginNextRequest_new. done.
  - rewrite bind_val. assert (extends l l') as Hext by (eapply extends_trans; [apply extends_put | by eapply extends_submit]).
    destruct HS as [K1 K2 K3 K4 K5]. destruct r as [[]|e].
    + eexists _, _. split; [reflexivity|]. split; [|done]. split; [by destruct K1|]. destruct K2 as [F1 F2 F3 F4].
      split; cbn; auto; [|symmetry; apply bool_decide_eq_true_2; unfold out in *; cbn; rewrite K3; set_solver].
      rewrite F1. apply bool_decide_ext. unfold out in *. cbn. rewrite K3, elem_of_cons. cbn. intuition discriminate.
    + eexists _, _. split; [reflexivity|]. split; [by apply (inv_perm owed l l') | done].
Qed.

Lemma do_call_ok owed l c : 0 <= owed <= 1 -> inv owed l -> allowed l c ->
  exists l', do_call l c = Val l' /\ inv owed l' /\ extends l l'.
Proof.
  intros Ho Hinv Ha. pose proof Hinv as [H HF]. destruct c as [op k|op h|op|op v|op|op|op|w|w| | |]; cbn [do_call allowed] in *.
  - destruct Ha as (Ha & Hi & Hn). unfold internal in Hi. eexists. split; [reflexivity|]. split; [|auto]. split; [|by apply put_op_flags].
    apply put_op_core; [done | done | tauto | tauto].
  - destruct Ha as ([o Eo] & Hi & Hu). unfold get_op. rewrite Eo, bind_val. unfold Work.SetHandle.
    assert (is_usize h) as Hz by (apply Work.user_address_spec in Hu; unfold is_usize, size_max; lia).
    rewrite Work.set_check, Hu, bind_val by done. eexists. split; [reflexivity|]. split; [by eapply put_client_inv | auto].
  - destruct Ha as ([o Eo] & Hi). unfold get_op. rewrite Eo, bind_val. eexists. split; [reflexivity|]. split; [by eapply put_client_inv | auto].
  - destruct Ha as (Hi & Hv & o & Eo & Hs & Hr). unfold get_op, cqe_assign. rewrite Eo, bind_val, Hr.
    rewrite (proj2 (Z.eqb_neq _ _) Hv). cbn [negb]. rewrite !check_true, !bind_val. eexists. split; [reflexivity|].
    split; [|auto]. eapply put_client_inv; try done.
  - destruct Ha as (Hi & Hn & o & Eo & Hk & Hr). unfold get_op, TryAuthorizeCoupledResult. rewrite Eo, bind_val, Hk, check_true, !bind_val.
    unfold CoupledResultReady, SingleResultLifecycle.ResultReady, with_lifecycle, SingleResultLifecycle.TryAuthorizeResult in *.
    rewrite Hr. cbn. eexists. split; [reflexivity|]. split; [by eapply put_client_inv | auto].
  - destruct Ha as (Hi & Hn & o & Eo & Hk & Hr). unfold get_op, TryAuthorizeCoupledRelease. rewrite Eo, bind_val, Hk, check_true, !bind_val.
    unfold with_lifecycle, SingleResultLifecycle.TryAuthorizeRelease. rewrite bool_decide_eq_true_2 by done. cbn.
    eexists. split; [reflexivity|]. split; [by eapply put_client_inv | auto].
  - destruct Ha as (Ha & Hi & Hn & o & Eo & Hf).
    destruct (SubmitOp_ok owed _ _ l op Ho H HF Ha Hn ltac:(eauto)) as (l' & r & -> & K). rewrite bind_val. eexists. split; [reflexivity|].
    split; [by eapply submit_inv|]. eapply extends_submit; [done|]. unfold internal in Hi. tauto.
  - eexists. split; [reflexivity|]. unfold Schedule. destruct (queueable l w); (split; [auto using queues_inv | done]).
  - eexists. split; [reflexivity|]. unfold ScheduleCompletion. destruct (queueable l w); (split; [auto using queues_inv | done]).
  - destruct (FlushSubmit_ok owed _ _ l Ho H HF) as (l' & r & -> & K1 & K2 & [K3 K4 _ _] & _). rewrite bind_val.
    eexists. split; [reflexivity|]. split; [by apply (inv_perm owed l l')|]. split; [by rewrite K4 | by rewrite K3].
  - destruct (cancel_pending_ok owed l Ho Hinv) as (l' & r & -> & K & K'). rewrite bind_val. eauto.
  - eexists. split; [reflexivity|]. split; [by apply stop_inv|]. unfold RequestStop. by destruct (state_ l).
Qed.

(** A sequence of calls keeps to the contract. *)
Fixpoint calls_ok (l : loop) (cs : list call) : Prop :=
  match cs with
  | [] => True
  | c :: cs => allowed l c /\ forall l', do_call l c = Val l' -> calls_ok l' cs
  end.

Lemma do_calls_ok owed cs : 0 <= owed <= 1 -> forall l, inv owed l -> calls_ok l cs ->
  exists l', do_calls l cs = Val l' /\ inv owed l' /\ extends l l'.
Proof.
  intros Ho. induction cs as [|c cs IH]; intros l H Hc; cbn [do_calls calls_ok] in *; [by exists l|].
  destruct Hc as [Hc Hcs]. destruct (do_call_ok owed l c Ho H Hc) as (l1 & E & H1 & X1). rewrite E, bind_val.
  destruct (IH l1 H1 (Hcs l1 E)) as (l2 & E2 & H2 & X2). exists l2. split_and!; [done | done | by eapply extends_trans].
Qed.

(** ** Completions *)

(** The last completion of a request: the kernel forgets it. *)
Definition retire (l : loop) (op : Z) : loop :=
  set_ring l (sq l) (List.filter (fun x => negb (x =? op)) (kernel l)) (submit_results l).

Lemma filter_out_length (op : Z) k : NoDup k -> op ∈ k ->
  length k = S (length (List.filter (fun x => negb (x =? op)) k)).
Proof.
  induction k as [|x k IH]; [set_solver|]. intros [Hx HN]%NoDup_cons Hop. cbn. destruct (Z.eqb_spec x op) as [->|Hne]; cbn.
  - f_equal. clear IH Hop. induction k as [|y k IH]; [done|]. cbn. rewrite (proj2 (Z.eqb_neq y op)) by set_solver. cbn.
    f_equal. apply IH; [set_solver | by apply NoDup_cons in HN as [_ ?]].
  - f_equal. apply IH; [done | set_solver].
Qed.

Lemma elem_filter_out (op x : Z) k : x ∈ List.filter (fun y => negb (y =? op)) k <-> x ∈ k /\ x <> op.
Proof. by rewrite !list_elem_of_In, List.filter_In, negb_true_iff, Z.eqb_neq. Qed.

Lemma retire_core l op : core 0 l -> op ∈ kernel l -> core 1 (retire l op) /\ (op ∉ out (retire l op)) /\
  (forall x, x <> op -> x ∈ out (retire l op) <-> x ∈ out l).
Proof.
  intros [H1 H2 H3 H4 H5 H6 H7] Hop. unfold out in *. cbn in *. pose proof H3 as HN. apply NoDup_app in HN as (HN1 & HN2 & HN3).
  pose proof (filter_out_length op (kernel l) HN3 Hop) as Hlen.
  assert (forall x, x ∈ List.filter (fun y => negb (y =? op)) (kernel l) -> x ∈ kernel l) as Hsub by (intros x [? _]%elem_filter_out; done).
  split_and!.
  - split; unfold out; cbn; auto; try lia.
    + apply NoDup_app. split_and!; [done | intros x Hx Hf; by apply (HN2 x Hx), Hsub |].
      rewrite NoDup_ListNoDup in *. by apply List.NoDup_filter.
    + intros x Hx. apply H4. set_solver.
    + intros x Hx. apply H5. set_solver.
  - rewrite elem_of_app, elem_filter_out. intros [Hs|[_ Hne]]; [by apply (HN2 op Hs) | done].
  - intros x Hne. rewrite !elem_of_app, elem_filter_out. tauto.
Qed.

(** Flags of the loop after a request of a client was retired. *)
Lemma retire_client l op : inv 0 l -> op ∈ kernel l -> ~ internal op -> inv 1 (retire l op) /\ (op ∉ out (retire l op)).
Proof.
  intros [H HF] Hop Hi. destruct (retire_core l op H Hop) as (K1 & K2 & K3). split; [|done]. split; [done|]. unfold internal in Hi.
  rewrite (bool_decide_ext _ _ (K3 wake_op_ (fun E => Hi (or_introl (eq_sym E))))).
  rewrite (bool_decide_ext _ _ (K3 cancel_all_op_ (fun E => Hi (or_intror (eq_sym E))))). by destruct HF.
Qed.

(** The counters after apply_disposition. *)
Definition discounted (l : loop) : loop := set_counts l (pending_submit_ l) (usize (inflight_ l - 1)).

Lemma discount_core l : core 1 l -> (0 <? inflight_ l) = true /\ core 0 (discounted l).
Proof.
  intros H. pose proof (core_bound _ _ H) as Hb. destruct H as [H1 H2 H3 H4 H5 H6 H7]. split; [apply Z.ltb_lt; lia|].
  split; auto. cbn. rewrite usize_small; [lia|]. unfold is_usize. lia.
Qed.

Lemma resume_op_ok l op o : inv 0 l -> (op ∉ out l) -> ~ internal op -> ops l !! op = Some o ->
  (UsesCoupledSingleResultLifecycle (kind o) = true ->
   SingleResultLifecycle.state_ (single_result_lifecycle_ o) = SingleResultLifecycle.kReleaseAuthorized) ->
  exists l', resume_op l op = Val l' /\ inv 0 l'.
Proof.
  intros [H HF] Hn Hi Eo Hc. unfold internal in Hi. unfold resume_op, get_op. rewrite Eo, bind_val. unfold DispatchKind.
  assert (exists o', (if UsesCoupledSingleResultLifecycle (kind o) then
      '(o, b) ← TryAuthorizeCoupledContinuation o; ALYRN_CHECK b;; Val o else Val o) = Val o') as (o' & ->).
  { destruct (UsesCoupledSingleResultLifecycle (kind o)) eqn:Ek; [|eauto]. unfold TryAuthorizeCoupledContinuation. rewrite Ek, check_true, !bind_val.
    unfold with_lifecycle, SingleResultLifecycle.TryAuthorizeContinuation. rewrite bool_decide_eq_true_2 by auto. cbn. eauto. }
  rewrite bind_val. destruct (if CqeCompletionRecorded o' then _ else _) as [o2 won].
  assert (inv 0 (put_op l op o2)) as H2 by (split; [apply put_op_core; tauto | by apply put_op_flags]).
  destruct (won && _); eexists; (split; [reflexivity|]); [|done]. unfold ScheduleCompletion.
  destruct (queueable _ op); auto using queues_inv.
Qed.

(** apply_disposition, for a disposition that matches what the kernel did. *)
Lemma apply_ok l op d (final : bool) : inv (b2z final) l -> kernel_request_terminal d = final -> decrement_inflight d = final ->
  (resume_continuation d = true -> exists o, ops l !! op = Some o /\ (op ∉ out l) /\ ~ internal op /\
     (UsesCoupledSingleResultLifecycle (kind o) = true ->
      SingleResultLifecycle.state_ (single_result_lifecycle_ o) = SingleResultLifecycle.kReleaseAuthorized)) ->
  exists l', apply_disposition l op d = Val l' /\ inv 0 l'.
Proof.
  intros [H HF] Ht Hd Hr. unfold apply_disposition. rewrite Ht, Hd.
  assert (exists l1, (if final then ALYRN_CHECK (0 <? inflight_ l);; Val (discounted l) else Val l) = Val l1 /\ inv 0 l1 /\
    ops l1 = ops l /\ out l1 = out l) as (l1 & E & H1 & Eo & Eu).
  { destruct final; cbn in H; [|by exists l]. destruct (discount_core l H) as [-> H1]. exists (discounted l). split; [done|].
    split; [|done]. split; [done | by destruct HF]. }
  assert ((if final then ALYRN_CHECK final else Val tt) = Val tt) as -> by (by destruct final). rewrite bind_val.
  unfold discounted in E. rewrite E, bind_val. destruct (resume_continuation d); [|eauto].
  destruct (Hr eq_refl) as (o & Ho & Hn & Hi & Hc). rewrite <- Eo in Ho. rewrite <- Eu in Hn. by apply (resume_op_ok l1 op o).
Qed.

Lemma explicit_or_single k : explicit_disposition k = false -> CompletionModelFor k = kSingleShot.
Proof. by destruct k. Qed.

(** The contract of a handler: its calls, the bookkeeping it reports, and that a
    continuation is resumed only after the release of the operation. *)
Record handler_ok (l : loop) (op : Z) (k : OpKind) (final : bool) (cs : list call) (d : CompletionDisposition) : Prop := {
  ho_calls : unhandled k = false -> calls_ok l cs;
  ho_terminal : explicit_disposition k = true -> kernel_request_terminal d = final /\ decrement_inflight d = final;
  ho_resume l' o : (if unhandled k then l' = l else do_calls l cs = Val l') -> ops l' !! op = Some o ->
    (if explicit_disposition k then resume_continuation d else Work.HasHandle (resume_work o)) = true ->
    (op ∉ out l') /\ (UsesCoupledSingleResultLifecycle (kind o) = true ->
      SingleResultLifecycle.state_ (single_result_lifecycle_ o) = SingleResultLifecycle.kReleaseAuthorized);
}.

Lemma dispatch_ok l op o final cs d : inv (b2z final) l -> ops l !! op = Some o -> op <> nullptr -> ~ internal op ->
  (CompletionModelFor (kind o) = kSingleShot -> final = true) -> handler_ok l op (kind o) final cs d ->
  exists l', ('(l, d) ← DispatchCompletion l op cs d; apply_disposition l op d) = Val l' /\ inv 0 l'.
Proof.
  intros H Eo Hz Hi Hs [A1 A2 A3]. unfold DispatchCompletion, get_op. rewrite (proj2 (Z.eqb_neq _ _) Hz). cbn [negb].
  rewrite check_true, bind_val, Eo, bind_val.
  unfold DispatchKind.
  assert (exists l1, (if unhandled (kind o) then Val l else do_calls l cs) = Val l1 /\ inv (b2z final) l1 /\
    is_Some (ops l1 !! op) /\ (if unhandled (kind o) then l1 = l else do_calls l cs = Val l1)) as (l1 & -> & H1 & [o1 Eo1] & E1).
  { destruct (unhandled (kind o)); [by exists l; eauto|].
    destruct (do_calls_ok (b2z final) cs ltac:(by destruct final) l H (A1 eq_refl)) as (l1 & E & H1 & X1 & _). exists l1.
    split_and!; [done | done | apply X1; eauto | done]. }
  specialize (A3 l1 o1 E1 Eo1). rewrite bind_val. destruct (explicit_disposition (kind o)) eqn:Ex.
  - rewrite bind_val. destruct (A2 eq_refl). apply (apply_ok l1 op d final); auto. intros Hr. exists o1. destruct (A3 Hr). auto.
  - rewrite Eo1, !bind_val. specialize (Hs (explicit_or_single _ Ex)). subst final. apply (apply_ok l1 op _ true); auto.
    cbn. intros Hr. exists o1. destruct (A3 Hr). auto.
Qed.

(** The state in which the handler of an operation runs. *)
Definition recorded (l : loop) (op : Z) (o : Op) (r : Z) : loop :=
  if bool_decide (single_shot o) then
    match TryRecordCqeCompletion o r with Val (o', _) => put_op l op o' | Panic => l end
  else l.

Definition after_kernel (l : loop) (op : Z) (event : CompletionEvent) : loop := if More event then l else retire l op.

(** What the kernel and the clients promise about a completion. *)
Definition cqe_ok (l : loop) (op : Z) (event : CompletionEvent) (cs : list call) (d : CompletionDisposition) : Prop :=
  op ∈ kernel l /\ cqe_result_ok (event_result event) /\
  if decide (op = wake_op_) then More event = false /\
    calls_ok (set_flags (discounted (retire l op)) (wake_pending_ l) false (cancel_all_pending_ l)) cs
  else if decide (op = cancel_all_op_) then More event = false
  else exists o, ops l !! op = Some o /\ (single_shot o -> More event = false) /\
    handler_ok (recorded (after_kernel l op event) op o (event_result event)) op (kind o) (negb (More event)) cs d.

(** ** The loop's own operations *)

Lemma ArmWakePoll_ok l : inv 0 l -> (wake_op_ ∉ out l) -> exists l' r, ArmWakePoll l = Val (l', r) /\ inv 0 l'.
Proof.
  intros [H HF] Hn. unfold ArmWakePoll. destruct (wake_fd_ l <? 0); [by eexists _, _|].
  destruct (co_wake _ _ H) as (o & Eo & Hf). unfold get_op. rewrite Eo, bind_val. set (o' := mkOp _ _ _ _ _).
  assert (fresh_op o') as Hf' by done.
  assert (core 0 (put_op l wake_op_ o')) as H1 by (apply put_op_core; done).
  destruct (SubmitOp_ok 0 _ _ _ wake_op_ ltac:(lia) H1 (put_op_flags _ _ _ wake_op_ o' HF)) as (l' & r & -> & [K1 K2 K3 K4 K5]).
  - done.
  - done.
  - exists o'. split; [apply lookup_insert_eq | done].
  - rewrite bind_val. destruct r as [[]|e]; eexists _, _; (split; [reflexivity|]); [|by apply (inv_perm 0 l l')].
    assert (wake_op_ ∈ out l') as Hw by (rewrite K3; set_solver).
    split; [by destruct K1|]. destruct K2 as [F1 F2 F3 F4]. rewrite bool_decide_eq_false_2 in F1 by done. apply orb_false_iff in F1 as [F1 F1'].
    change (out (set_flags l' _ _ _)) with (out l'). split; cbn; rewrite ?F1'; try done; [by rewrite bool_decide_eq_true_2 |].
    rewrite F4. apply bool_decide_ext. rewrite K3, elem_of_cons. change (out (put_op l wake_op_ o')) with (out l). intuition discriminate.
Qed.

(** The flags after the wake poll was retired. *)
Lemma wake_retired l : inv 0 l -> wake_op_ ∈ kernel l ->
  (0 <? inflight_ (retire l wake_op_)) = true /\
  inv 0 (set_flags (discounted (retire l wake_op_)) (wake_pending_ l) false (cancel_all_pending_ l)) /\
  (wake_op_ ∉ out (retire l wake_op_)).
Proof.
  intros [H HF] Hw. destruct (retire_core l wake_op_ H Hw) as (K1 & K2 & K3). destruct (discount_core _ K1) as [E K4].
  split_and!; [done | | done]. split; [by destruct K4|].
  assert (wake_pending_ l = false) as Ep.
  { destruct (wake_pending_ l) eqn:Ep; [|done]. pose proof (fg_pending _ _ _ HF Ep) as Hs.
    pose proof (co_nodup _ _ H) as HN. apply NoDup_app in HN as (_ & HN & _). by destruct (HN wake_op_ Hs). }
  destruct HF as [F1 F2 F3 F4].
  change (out (set_flags _ _ _ _)) with (out (retire l wake_op_)). split; cbn; rewrite ?Ep; try done.
  - by rewrite bool_decide_eq_false_2.
  - rewrite F4. apply bool_decide_ext. by rewrite K3.
Qed.

Lemma handle_wake_ok l ev cs d : inv 0 l -> cqe_ok l wake_op_ ev cs d ->
  exists l', HandleCqe (after_kernel l wake_op_ ev) wake_op_ ev cs d = Val l' /\ inv 0 l'.
Proof.
  intros Hinv (Hk & _ & Hm & Hcs). unfold after_kernel. rewrite Hm. destruct (wake_retired l Hinv Hk) as (E & Hi & Hn).
  unfold HandleCqe, apply_disposition. cbn [kernel_request_terminal decrement_inflight resume_continuation wake_op_ nullptr Z.eqb Pos.eqb].
  rewrite E, !check_true, !bind_val. cbv zeta. change (set_counts _ _ _) with (discounted (retire l wake_op_)).
  change (wake_pending_ (discounted _)) with (wake_pending_ l). change (cancel_all_pending_ (discounted _)) with (cancel_all_pending_ l).
  destruct (do_calls_ok 0 cs ltac:(lia) _ Hi Hcs) as (l1 & -> & H1 & X1). rewrite bind_val.
  assert (wake_op_ ∉ out l1) as Hn1 by (intros Hw; by apply Hn, X1).
  destruct (bool_decide (state_ l1 = kRunning)); [|by eexists].
  destruct (co_wake _ _ (proj1 H1)) as (o & Eo & Hf). unfold get_op. rewrite Eo, bind_val.
  destruct (ArmWakePoll_ok (put_op l1 wake_op_ (BeginNextRequest o))) as (l2 & r & -> & H2).
  - destruct H1 as [H1 F1]. split; [by apply put_op_core | by apply put_op_flags].
  - done.
  - rewrite bind_val. destruct r as [[]|e]; eexists; (split; [reflexivity|]); [done | by apply stop_inv].
Qed.

Lemma record_fresh o r : fresh_op o -> cqe_result_ok r ->
  exists o', TryRecordCqeCompletion o r = Val (o', true) /\ kind o' = kind o /\ resume_work o' = resume_work o.
Proof.
  intros (H1 & H2 & H3) Hr. unfold cqe_result_ok in Hr. destruct o as [w c k [[b]] lc]. unfold CqeCompletionRecorded in H1. cbn in H1, H2, H3. subst b.
  unfold TryRecordCqeCompletion, cqe_assign. cbn -[kEmpty HasValue]. rewrite H2, (proj2 (Z.eqb_neq r kEmpty)) by (unfold kEmpty; lia).
  unfold SingleResultLifecycle.TryAuthorizeResult. cbn -[kEmpty]. rewrite bool_decide_eq_true_2 by done.
  destruct (CqeResultDirectlyPublishesLogicalResult k); cbn -[kEmpty]; eauto.
Qed.

Lemma handle_cancel_ok l ev cs d : inv 0 l -> cqe_ok l cancel_all_op_ ev cs d ->
  exists l', HandleCqe (after_kernel l cancel_all_op_ ev) cancel_all_op_ ev cs d = Val l' /\ inv 0 l'.
Proof.
  intros [H HF] (Hk & Hr & Hm). cbn in Hm. unfold after_kernel. rewrite Hm.
  destruct (retire_core l cancel_all_op_ H Hk) as (K1 & K2 & K3).
  destruct (co_cancel _ _ H) as (o & Eo & Ek & Eh). destruct (co_ops _ _ H cancel_all_op_) as (o' & Eo' & Hf).
  { unfold out. set_solver. }
  rewrite Eo in Eo'. injection Eo' as <-. assert (fresh_op o) as Hf' by (apply Hf; unfold single_shot; by rewrite Ek). clear Hf.
  destruct (record_fresh o _ Hf' Hr) as (o1 & E1 & Ek1 & Ew1).
  unfold HandleCqe. cbn [wake_op_ cancel_all_op_ nullptr Z.eqb Pos.eqb]. cbv zeta. unfold get_op. cbn [ops set_flags retire set_ring].
  change 16 with cancel_all_op_. rewrite Eo, bind_val, E1, bind_val. set (l1 := put_op _ cancel_all_op_ o1).
  assert (ops l1 !! cancel_all_op_ = Some o1) as El1 by apply lookup_insert_eq.
  assert (inv 1 l1) as Hi1.
  { split.
    - apply put_op_core; [by destruct K1 | done | done |]. by rewrite Ew1, Ek1.
    - destruct HF as [F1 F2 F3 F4]. change (out l1) with (out (retire l cancel_all_op_)). split; try done.
      + rewrite (bool_decide_ext _ (wake_op_ ∈ out l)) by (by rewrite K3). done.
      + by rewrite bool_decide_eq_false_2. }
  unfold DispatchCompletion, get_op. change (cancel_all_op_ =? nullptr) with false. cbn [negb]. rewrite check_true, El1, !bind_val.
  unfold DispatchKind. rewrite Ek1, Ek. cbn [unhandled explicit_disposition]. rewrite bind_val, El1, !bind_val, Ew1, Eh.
  by apply (apply_ok l1 cancel_all_op_ _ true).
Qed.

Lemma after_kernel_inv l op ev : inv 0 l -> op ∈ kernel l -> ~ internal op -> inv (b2z (negb (More ev))) (after_kernel l op ev).
Proof. intros H Hk Hi. unfold after_kernel. destruct (More ev); [done | by apply retire_client]. Qed.

Lemma handle_client_ok l op ev cs d : inv 0 l -> ~ internal op -> cqe_ok l op ev cs d ->
  exists l', HandleCqe (after_kernel l op ev) op ev cs d = Val l' /\ inv 0 l'.
Proof.
  intros Hinv Hi (Hk & Hr & Hc). unfold internal in Hi. rewrite decide_False, decide_False in Hc by tauto.
  destruct Hc as (o & Eo & Hm & Hh). pose proof Hinv as [H HF].
  assert (op ∈ out l) as Hout by (unfold out; set_solver).
  assert (op <> nullptr) as Hz by (pose proof (co_addr _ _ H op Hout); unfold is_op, nullptr in *; lia).
  unfold HandleCqe. rewrite !(proj2 (Z.eqb_neq _ _)) by tauto. unfold get_op.
  assert (ops (after_kernel l op ev) = ops l) as -> by (unfold after_kernel; by destruct (More ev)). rewrite Eo, bind_val.
  unfold recorded, single_shot, DispatchKind in *. destruct (bool_decide (CompletionModelFor (kind o) = kSingleShot)) eqn:Es.
  - apply bool_decide_eq_true in Es. destruct (co_ops _ _ H op Hout) as (o' & Eo' & Hf). rewrite Eo in Eo'. injection Eo' as <-.
    destruct (record_fresh o _ (Hf Es) Hr) as (o1 & E1 & Ek & _). rewrite E1 in Hh |- *. rewrite bind_val. cbn [negb].
    rewrite <- Ek in Hh. specialize (Hm Es). unfold after_kernel in *. rewrite Hm in Hh |- *.
    destruct (retire_client l op Hinv Hk ltac:(unfold internal; tauto)) as ([K1 K2] & K3).
    apply (dispatch_ok (put_op (retire l op) op o1) op o1 true cs d); auto.
    + split; [apply put_op_core; tauto | by apply put_op_flags].
    + apply lookup_insert_eq.
  - apply bool_decide_eq_false in Es. apply (dispatch_ok _ op o (negb (More ev)) cs d); auto.
    + by apply after_kernel_inv.
    + unfold after_kernel. by destruct (More ev).
Qed.

Lemma HandleCqe_ok l op ev cs d : inv 0 l -> cqe_ok l op ev cs d ->
  exists l', HandleCqe (after_kernel l op ev) op ev cs d = Val l' /\ inv 0 l'.
Proof.
  intros H Hc. destruct (decide (op = wake_op_)) as [->|Hw]; [by apply handle_wake_ok|].
  destruct (decide (op = cancel_all_op_)) as [->|Hn]; [by apply handle_cancel_ok|].
  apply handle_client_ok; auto. unfold internal. tauto.
Qed.

(** ** Runs of a loop *)

(** What happens on the thread of the loop after Init: Run takes the loop over, the
    kernel posts a completion, the loop takes work from one of its queues, code on
    the thread calls the loop. *)
Inductive event :=
| EStart
| ECqe (op : Z) (ev : CompletionEvent) (cs : list call) (d : CompletionDisposition)
| EPopReady
| EPopCompletion
| ECall (c : call).

Definition step (l : loop) (e : event) : outcome loop :=
  match e with
  | EStart => Val (StartRun l)
  | ECqe op ev cs d => HandleCqe (after_kernel l op ev) op ev cs d
  | EPopReady => Val (set_queues l (tail (ready_ l)) (completion_ready_ l))
  | EPopCompletion => Val (set_queues l (ready_ l) (tail (completion_ready_ l)))
  | ECall c => do_call l c
  end.

Definition event_ok (l : loop) (e : event) : Prop :=
  match e with
  | ECqe op ev cs d => cqe_ok l op ev cs d
  | ECall c => allowed l c
  | _ => True
  end.

Fixpoint run (l : loop) (es : list event) : outcome loop :=
  match es with [] => Val l | e :: es => l ← step l e; run l es end.

Fixpoint run_ok (l : loop) (es : list event) : Prop :=
  match es with
  | [] => True
  | e :: es => event_ok l e /\ forall l', step l e = Val l' -> run_ok l' es
  end.

Lemma step_ok l e : inv 0 l -> event_ok l e -> exists l', step l e = Val l' /\ inv 0 l'.
Proof.
  intros H He. destruct e as [|op ev cs d| | |c]; cbn [step event_ok] in *.
  - eexists. split; [done|]. unfold StartRun. destruct (state_ l); auto using state_inv.
  - by apply HandleCqe_ok.
  - eauto using queues_inv.
  - eauto using queues_inv.
  - destruct (do_call_ok 0 l c ltac:(lia) H He) as (l' & E & H' & _). eauto.
Qed.

Lemma run_inv es : forall l, inv 0 l -> run_ok l es -> exists l', run l es = Val l' /\ inv 0 l'.
Proof.
  induction es as [|e es IH]; intros l H Hok; cbn [run run_ok] in *; [eauto|].
  destruct Hok as [He Hes]. destruct (step_ok l e H He) as (l1 & E & H1). rewrite E, bind_val. by apply IH; [|apply Hes].
Qed.

Lemma Init_ok entries fd results : exists l r, Init (new_loop entries fd results) = Val (l, r) /\ (r = Ok tt -> inv 0 l).
Proof.
  unfold Init, get_op. cbn [initialized_ new_loop ops]. rewrite lookup_insert_ne, lookup_insert_eq, bind_val by done.
  set (l0 := mkLoop _ _ _ _ _ _ _ _ _ _ _ _ _ _ _).
  assert (inv 0 l0) as H0.
  { split; [|by split]. split; try done; cbn; try set_solver; try constructor.
    rewrite lookup_insert_ne, lookup_insert_eq by done. by eexists. }
  destruct (ArmWakePoll_ok l0 H0 ltac:(set_solver)) as (l' & r & -> & H'). rewrite bind_val. destruct r as [[]|e]; by eexists _, _.
Qed.

Lemma usize_minus n (b : bool) : 0 <= n < size_max -> usize (n - b2z b) = 0 <-> n = b2z b.
Proof.
  intros Hn. unfold usize, size_max in *. destruct b; cbn [b2z]; [|rewrite Z.mod_small; lia].
  destruct (Z.eq_dec n 0) as [->|]; [split; [discriminate | lia] | rewrite Z.mod_small; lia].
Qed.

(** The counts without the wake operation. *)
Lemma drained_counts l : inv 0 l -> IsDrained l = true <->
  ready_ l = [] /\ completion_ready_ l = [] /\ Z.of_nat (length (sq l)) = b2z (wake_pending_ l) /\
  Z.of_nat (length (kernel l)) = b2z (wake_inflight_ l).
Proof.
  intros [H HF]. pose proof (core_bound _ _ H) as Hb. destruct H as [H1 H2 _ _ _ _ _]. unfold IsDrained, HasReadyWork, PendingSubmitCount, InflightCount.
  rewrite H1, H2, !andb_true_iff, negb_true_iff, orb_false_iff, !negb_false_iff, !bool_decide_eq_true, !Z.eqb_eq.
  rewrite !usize_minus by lia. rewrite Z.add_0_r. tauto.
Qed.

Lemma alone (xs : list Z) x : NoDup xs -> (forall y, y ∈ xs -> y = x) -> xs = [] \/ xs = [x].
Proof.
  destruct xs as [|a [|b xs]]; intros HN Hx; [by left | right; f_equal; apply Hx; set_solver |].
  rewrite (Hx a), (Hx b) in HN by set_solver. apply NoDup_cons in HN as [HN _]. set_solver.
Qed.

(** What IsDrained says: nothing is queued, and the ring holds the wake poll at most. *)
Lemma drained_ring l : inv 0 l -> IsDrained l = true -> ready_ l = [] /\ completion_ready_ l = [] /\ forall x, x ∈ out l -> x = wake_op_.
Proof.
  intros Hinv (A & B & C & D)%drained_counts; [|done]. split_and!; [done | done |]. destruct Hinv as [_ [F1 F2 F3 _]].
  assert (Z.of_nat (length (out l)) = b2z (bool_decide (wake_op_ ∈ out l))) as Hl.
  { unfold out at 1. rewrite length_app, Nat2Z.inj_add, C, D, <- F1. by destruct (wake_pending_ l), (wake_inflight_ l). }
  intros x Hx. destruct (out l) as [|y [|z ys]]; [by apply elem_of_nil in Hx | |].
  - destruct (bool_decide (wake_op_ ∈ [y])) eqn:E; [|cbn in Hl; lia]. apply bool_decide_eq_true in E. set_solver.
  - destruct (bool_decide (wake_op_ ∈ y :: z :: ys)); cbn in Hl; lia.
Qed.

Lemma ring_drained l : inv 0 l -> ready_ l = [] -> completion_ready_ l = [] -> sq l = [] -> (forall x, x ∈ kernel l -> x = wake_op_) ->
  IsDrained l = true.
Proof.
  intros Hinv A B C D. apply drained_counts; [done|]. split_and!; [done | done | |]; destruct Hinv as [H [F1 F2 F3 _]];
    (assert (wake_pending_ l = false) as Ep by (apply not_true_iff_false; intros E; specialize (F3 E); rewrite C in F3; set_solver));
    [by rewrite C, Ep|].
  pose proof (co_nodup _ _ H) as HN. unfold out in *. rewrite C, Ep in *. cbn in *. rewrite F1.
  destruct (alone _ _ HN D) as [-> | ->]; done.
Qed.

(** C23. The loop's account of its requests is exact. On every run after Init in
    which the adapters submit an operation only while the ring does not hold it and
    the kernel completes only requests it holds, no internal check of the loop fails,
    whatever io_uring_submit answers (errors and partial submissions included). At
    every point pending_submit_ counts the prepared SQEs, inflight_ the requests in
    the kernel, no operation is in the ring twice, and IsDrained reports true only
    when nothing but the loop's own wake poll is left and both queues are empty; when
    all that is left is submitted and is the wake poll it does report true. *)
Theorem request_accounting (entries fd : Z) (results : list Z) (l0 : loop) (es : list event) :
  Init (new_loop entries fd results) = Val (l0, Ok tt) -> run_ok l0 es ->
  exists l, run l0 es = Val l /\
    pending_submit_ l = Z.of_nat (length (sq l)) /\ inflight_ l = Z.of_nat (length (kernel l)) /\ NoDup (sq l ++ kernel l) /\
    (IsDrained l = true -> ready_ l = [] /\ completion_ready_ l = [] /\ forall x, x ∈ sq l ++ kernel l -> x = wake_op_) /\
    (ready_ l = [] -> completion_ready_ l = [] -> sq l = [] -> (forall x, x ∈ kernel l -> x = wake_op_) -> IsDrained l = true).
Proof.
  intros Hi Hok. destruct (Init_ok entries fd results) as (l0' & r & E & H). rewrite Hi in E. injection E as <- <-.
  destruct (run_inv es l0 (H eq_refl) Hok) as (l & Hr & Hl). exists l. pose proof Hl as [[H1 H2 H3 _ _ _ _] _].
  split_and!; [done | done | lia | done | by apply drained_ring | by apply ring_drained].
Qed.

(** A read and a receive source on a ring of two entries whose first submission is
    partial; a source completion with more to come, the end of both requests, and
    the stop of the loop from a posted callback. *)
Definition example_script : list event :=
  [ EStart;
    ECall (CallBegin 1000 kReadComplete); ECall (CallSetHandle 1000 4096); ECall (CallSubmit 1000);
    ECall (CallBegin 2000 kRecvSourceComplete); ECall (CallSubmit 2000);
    ECall CallFlush;
    ECqe 2000 (mkEvent 7 IORING_CQE_F_MORE) [CallSchedule 500] (mkDisposition false false false);
    ECqe 1000 (mkEvent 5 0) [CallAuthorizeRelease 1000] (mkDisposition true true true);
    EPopCompletion; EPopReady;
    ECqe wake_op_ (mkEvent 1 0) [CallRequestStop; CallCancelPending; CallFlush] (mkDisposition true true false);
    ECqe 2000 (mkEvent (- 125) 0) [] (mkDisposition true true false);
    ECqe cancel_all_op_ (mkEvent 1 0) [] (mkDisposition true true false) ].

Definition example_init : loop :=
  match Init (new_loop 2 5 [1; 1]) with Val (l, _) => l | Panic => new_loop 2 5 [] end.

Lemma run_ok_cons l e es : event_ok l e -> (forall l', step l e = Val l' -> run_ok l' es) -> run_ok l (e :: es).
Proof. by split. Qed.

Lemma calls_ok_cons l c cs : allowed l c -> (forall l', do_call l c = Val l' -> calls_ok l' cs) -> calls_ok l (c :: cs).
Proof. by split. Qed.

(** Decides the contract of a concrete script, one event after the other. *)
Ltac concrete_next := let l := fresh in let E := fresh in intros l E; vm_compute in E; injection E as <-.

Ltac decide_concretely := match goal with |- ?P => apply (bool_decide_unpack P); vm_compute; exact I end.

Ltac concrete_contract :=
  repeat match goal with
  | |- _ /\ _ => split
  | |- True => exact I
  | |- calls_ok _ [] => exact I
  | |- calls_ok _ (_ :: _) => apply calls_ok_cons; [cbn [allowed] | concrete_next]
  | |- _ -> calls_ok _ _ => intros _
  | |- is_op _ => unfold is_op, size_max; lia
  | |- ~ internal _ => unfold internal, wake_op_, cancel_all_op_; lia
  | |- _ ∈ _ => decide_concretely
  | |- ~ (_ ∈ _) => decide_concretely
  | |- is_Some _ => eexists; vm_compute; reflexivity
  | |- exists o, _ /\ _ => eexists; split; [vm_compute; reflexivity |]
  | |- fresh_op _ => split_and!; vm_compute; reflexivity
  | |- cqe_result_ok _ => unfold cqe_result_ok, int32_min, int32_max; cbn; lia
  | |- if decide _ then _ else _ => first [rewrite decide_True by reflexivity | rewrite decide_False by discriminate]
  | |- single_shot _ -> _ => first [intros _; vm_compute; reflexivity | intros E; vm_compute in E; discriminate E]
  | |- _ = true -> _ => first [intros E; vm_compute in E; discriminate E | intros _]
  | |- handler_ok _ _ _ _ _ _ => split
  | |- forall l' o, _ -> _ -> _ =>
      let E1 := fresh in let E2 := fresh in
      intros ? ? E1 E2; vm_compute in E1; injection E1 as <-; vm_compute in E2; injection E2 as <-
  | |- _ = _ => vm_compute; reflexivity
  end.

Ltac concrete_run :=
  match goal with
  | |- run_ok _ [] => exact I
  | |- run_ok _ (_ :: _) => apply run_ok_cons; [cbn [event_ok allowed]; unfold cqe_ok; concrete_contract | concrete_next; concrete_run]
  end.

Lemma example_script_ok : run_ok example_init example_script.
Proof. unfold example_script. let l := eval vm_compute in example_init in change example_init with l. concrete_run. Qed.

Lemma request_accounting_witness :
  exists l, run example_init example_script = Val l /\ sq l ++ kernel l = [] /\ IsDrained l = true /\
    pending_submit_ l = 0 /\ inflight_ l = 0.
Proof.
  destruct (request_accounting 2 5 [1; 1] example_init example_script) as (l & E & H1 & H2 & _ & _ & H).
  - vm_compute. reflexivity.
  - exact example_script_ok.
  - exists l. split; [exact E|]. vm_compute in E. injection E as <-. split; [reflexivity|].
    split; [apply H; try reflexivity; intros x Hx; inversion Hx | split; [exact H1 | exact H2]].
Defined.

End UringLoopProps.
