(* ===== verification/Posting.v ===== *)
(** * Posting work to a loop from other threads

    Post, RequestStop, RunPosted, DrainPostedAndClose and the wake-up descriptor of
    both loops (src/uring/loop.cc, src/epoll/loop.cc). The owner thread is a program
    counter over the atomic actions of Run; other threads take steps between any two
    of them: the critical section of a Post, the state change of RequestStop, and the
    write to the eventfd that may follow either. Callbacks are identifiers; [accepted]
    and [executed] record which posts were accepted and which callbacks have run. *)

From S2P Require Import Prelude Lifecycles Work UringOp UringLoop.

Module Posting.

Import UringLoop.

Inductive backend := Epoll | Uring.

#[global] Instance backend_eq_dec : EqDecision backend.
Proof. solve_decision. Defined.

Inductive owner :=
| OCreated                          (* Run was not called *)
| OCheck                            (* while (State() == kRunning) *)
| OPoll                             (* blocked on the poller or the ring *)
| ODrain                            (* reading the wake-up descriptor *)
| OSwap                             (* before the critical section of RunPosted *)
| ORun (batch : list Z)             (* the callbacks RunPosted has left *)
| OShutdown                         (* BeginShutdown and the drains of its operations *)
| OClose                            (* before the critical section of DrainPostedAndClose *)
| OCloseRun (batch : list Z)
| OClosed                           (* before state_.store(kStopped) *)
| OStopped.

#[global] Instance owner_eq_dec : EqDecision owner.
Proof. solve_decision. Defined.

Record sys := mkSys {
  posted_ : list Z;
  post_closed_ : bool;
  state_ : LoopState;
  fd_open : bool;                   (* the eventfd exists *)
  counter : Z;                      (* the value of the eventfd *)
  pc : owner;
  waking : gset Z;                  (* threads about to write to the eventfd *)
  accepted : list Z;
  executed : list Z;
  dropped : bool;                   (* a write was given up since the owner last took the queue *)
}.

Definition set_pc (s : sys) (p : owner) : sys :=
  mkSys (posted_ s) (post_closed_ s) (state_ s) (fd_open s) (counter s) p (waking s) (accepted s) (executed s) (dropped s).
Definition set_state (s : sys) (x : LoopState) : sys :=
  mkSys (posted_ s) (post_closed_ s) x (fd_open s) (counter s) (pc s) (waking s) (accepted s) (executed s) (dropped s).
Definition set_counter (s : sys) (n : Z) : sys :=
  mkSys (posted_ s) (post_closed_ s) (state_ s) (fd_open s) n (pc s) (waking s) (accepted s) (executed s) (dropped s).
Definition set_waking (s : sys) (w : gset Z) : sys :=
  mkSys (posted_ s) (post_closed_ s) (state_ s) (fd_open s) (counter s) (pc s) w (accepted s) (executed s) (dropped s).

Definition set_dropped (s : sys) (d : bool) : sys :=
  mkSys (posted_ s) (post_closed_ s) (state_ s) (fd_open s) (counter s) (pc s) (waking s) (accepted s) (executed s) d.

(** ** Other threads *)

(** The critical section of Post, by thread [t]. *)
Definition Post (s : sys) (t callback : Z) : sys * ResultE unit :=
  if post_closed_ s then (s, Err (Errno ECANCELED)) else
  let wake := bool_decide (posted_ s = []) in
  (mkSys (posted_ s ++ [callback]) false (state_ s) (fd_open s) (counter s) (pc s)
     (if wake then {[t]} ∪ waking s else waking s) (accepted s ++ [callback]) (executed s) (dropped s), Ok tt).

Definition RequestStop (s : sys) (t : Z) : sys :=
  match state_ s with
  | kCreated | kRunning => set_waking (set_state s kStopping) ({[t]} ∪ waking s)
  | _ => s
  end.

(** eventfd(2): a write of 1 is refused with EAGAIN when it would overflow. A write may also
    be interrupted or fail otherwise. *)
Definition eventfd_max : Z := 2 ^ 64 - 2.

Inductive answer := Written | Again | Interrupted | Failed.

Definition write_answer (n : Z) (a : answer) : bool :=
  match a with
  | Written => n <? eventfd_max
  | Again => eventfd_max <=? n
  | Interrupted | Failed => true
  end.

(** Wake of the io_uring loop: one write. EAGAIN and EINTR are ignored; any other error asks
    the loop to stop, which wakes again unless the loop is stopping already. A write that is
    given up is recorded in [dropped]. *)
Definition Wake (s : sys) (t : Z) (a : answer) : outcome sys :=
  let s' := set_waking s (waking s ∖ {[t]}) in
  if negb (fd_open s) then Val s' else
  match a with
  | Written => Val (set_counter s' (counter s + 1))
  | Again => Val s'
  | Interrupted => Val (set_dropped s' true)
  | Failed => let s' := RequestStop s' t in Val (if bool_decide (t ∈ waking s') then s' else set_dropped s' true)
  end.

(** Wakeup of the epoll loop retries an interrupted write and aborts on other errors. *)
Definition Wakeup (s : sys) (t : Z) (a : answer) : outcome sys :=
  match a with
  | Written => Val (set_waking (set_counter s (counter s + 1)) (waking s ∖ {[t]}))
  | Interrupted => Val s
  | Again => Val (set_waking s (waking s ∖ {[t]}))
  | Failed => ALYRN_CHECK false;; Val s
  end.

Definition do_wake (b : backend) : sys -> Z -> answer -> outcome sys := match b with Uring => Wake | Epoll => Wakeup end.

(** ** The owner thread *)

(** Run until its loop: the io_uring loop first runs what was posted before Init,
    which could not signal the descriptor. *)
Definition Run_uring (s : sys) : option sys :=
  if negb (fd_open s) then None else
  Some (set_pc (set_state s (match state_ s with kCreated => kRunning | x => x end)) OSwap).
Definition Run_epoll (s : sys) : option sys :=
  Some (set_pc (set_state s (match state_ s with kCreated => kRunning | x => x end)) OCheck).

Definition RunPosted_swap (s : sys) : sys :=
  mkSys [] (post_closed_ s) (state_ s) (fd_open s) (counter s) (ORun (posted_ s)) (waking s) (accepted s) (executed s) false.

(** One critical section of DrainPostedAndClose. *)
Definition DrainPostedAndClose_swap (s : sys) : sys :=
  match posted_ s with
  | [] => mkSys [] true (state_ s) (fd_open s) (counter s) OClosed (waking s) (accepted s) (executed s) false
  | batch => mkSys [] (post_closed_ s) (state_ s) (fd_open s) (counter s) (OCloseRun batch) (waking s) (accepted s) (executed s) false
  end.

Definition callback (s : sys) (w : Z) (p : owner) : sys :=
  mkSys (posted_ s) (post_closed_ s) (state_ s) (fd_open s) (counter s) p (waking s) (accepted s) (executed s ++ [w]) (dropped s).

(** The next action of the owner; [None] when it is blocked or done. *)
Definition owner_step (b : backend) (s : sys) : option sys :=
  match pc s with
  | OCreated => match b with Uring => Run_uring s | Epoll => Run_epoll s end
  | OCheck => Some (set_pc s (if bool_decide (state_ s = kRunning) then OPoll else OShutdown))
  | OPoll => if 0 <? counter s then Some (set_pc s ODrain) else None
  | ODrain => if 0 <? counter s then Some (set_counter s 0) else Some (set_pc s OSwap)
  | OSwap => Some (RunPosted_swap s)
  | ORun (w :: rest) => Some (callback s w (ORun rest))
  | ORun [] => Some (set_pc s OCheck)
  | OShutdown => Some (set_pc s OClose)
  | OClose => Some (DrainPostedAndClose_swap s)
  | OCloseRun (w :: rest) => Some (callback s w (OCloseRun rest))
  | OCloseRun [] => Some (set_pc s OClose)
  | OClosed => Some (set_pc (set_state s kStopped) OStopped)
  | OStopped => None
  end.

(** ** The system *)

Inductive step (b : backend) : sys -> sys -> Prop :=
| StepOwner s s' : owner_step b s = Some s' -> step b s s'
| StepTimeout s : pc s = OPoll -> step b s (set_pc s OCheck)          (* other events, the poll timeout *)
| StepShutdownWake s : pc s = OShutdown -> 0 < counter s -> step b s (set_pc s ODrain)
| StepInit s : pc s = OCreated -> fd_open s = false ->
    step b s (mkSys (posted_ s) (post_closed_ s) (state_ s) true 0 (pc s) (waking s) (accepted s) (executed s) (dropped s))
| StepPost s t w : t ∉ waking s -> step b s (Post s t w).1
| StepStop s t : t ∉ waking s -> step b s (RequestStop s t)
| StepDrainCut s : b = Uring -> pc s = ODrain -> step b s (set_pc s OSwap)    (* an interrupted read ends the loop of reads *)
| StepWake s t a s' : t ∈ waking s -> write_answer (counter s) a = true -> do_wake b s t a = Val s' -> step b s s'.

Definition initial (b : backend) : sys :=
  mkSys [] false kCreated (bool_decide (b = Epoll)) 0 OCreated ∅ [] [] false.

Definition reachable (b : backend) (s : sys) : Prop := rtc (step b) (initial b) s.

(** ** The invariant *)

(** Callbacks the owner took and has not run. *)
Definition batch (s : sys) : list Z := match pc s with ORun l | OCloseRun l => l | _ => [] end.

(** The owner will look at the queue before it blocks again. *)
Definition will_swap (b : backend) (p : owner) : bool :=
  match p with
  | ODrain | OSwap | OShutdown | OClose | OCloseRun _ => true
  | OCreated => bool_decide (b = Uring)
  | _ => false
  end.

Definition signalled (s : sys) : Prop := 0 < counter s \/ waking s <> ∅.

Record inv (b : backend) (s : sys) : Prop := {
  i_log : executed s ++ batch s ++ posted_ s = accepted s;
  i_wake : posted_ s <> [] -> dropped s = false -> signalled s \/ will_swap b (pc s) = true;
  i_stop : state_ s = kStopping -> pc s = OPoll -> dropped s = false -> signalled s;
  i_fd : fd_open s = false -> pc s = OCreated /\ b = Uring;
  i_open : post_closed_ s = true <-> pc s = OClosed \/ pc s = OStopped;
  i_closed : post_closed_ s = true -> posted_ s = [];
  i_state : (pc s = OPoll -> state_ s = kRunning \/ state_ s = kStopping) /\ (state_ s = kCreated -> pc s = OCreated) /\
    (state_ s = kStopped -> pc s = OStopped);
  i_counter : 0 <= counter s;
  i_dropped : b = Epoll -> dropped s = false;
}.

Lemma initial_inv b : inv b (initial b).
Proof. split; cbn; try done; try (by destruct b); try (split; [done | by intros [|]]). Qed.

(** A write that leaves the counter positive. *)
Lemma written_inv b s n W : inv b s -> 0 < n -> counter s <= n -> inv b (set_waking (set_counter s n) W).
Proof. intros [H1 H2 H3 H4 H5 H6 H7 H8 H9] Hn Hc. split; cbn; auto; [intros _ _; left; by left | intros _ _ _; by left | lia]. Qed.

(** A write that is given up. *)
Lemma dropped_inv s W : inv Uring s -> inv Uring (set_dropped (set_waking s W) true).
Proof. intros [H1 H2 H3 H4 H5 H6 H7 H8 H9]. by split. Qed.

(** A stop request whose thread is about to wake the loop. *)
Lemma stopping_inv b s t W : inv b s -> state_ s = kCreated \/ state_ s = kRunning -> inv b (set_waking (set_state s kStopping) ({[t]} ∪ W)).
Proof.
  intros [H1 H2 H3 H4 H5 H6 (H7 & H7' & H7'') H8 H9] Hs. assert (signalled (set_waking (set_state s kStopping) ({[t]} ∪ W))) as Hsig by (right; cbn; set_solver).
  split; cbn; auto. split_and!; auto; discriminate.
Qed.

Lemma wake_inv b s t a s' : inv b s -> write_answer (counter s) a = true -> do_wake b s t a = Val s' -> inv b s'.
Proof.
  intros H Ha E. pose proof (i_counter _ _ H) as Hc. destruct b; cbn in E.
  - destruct a; cbn in E, Ha; [| |by injection E as <-|done]; injection E as <-.
    + apply (written_inv Epoll s (counter s + 1) _ H); lia.
    + apply Z.leb_le in Ha. apply (written_inv Epoll s (counter s) _ H); unfold eventfd_max in *; lia.
  - unfold Wake in E. destruct (fd_open s) eqn:Ef; cbn in E.
    2: { injection E as <-. destruct H as [H1 H2 H3 H4 H5 H6 H7 H8 H9]. destruct (H4 Ef) as [Ep _]. split; cbn; try done; auto; [by right; rewrite Ep | by intros _ Hp; rewrite Ep in Hp]. }
    destruct a; cbn in Ha; injection E as <-.
    + apply (written_inv Uring s (counter s + 1) _ H); lia.
    + apply Z.leb_le in Ha. apply (written_inv Uring s (counter s) _ H); unfold eventfd_max in *; lia.
    + by apply dropped_inv.
    + unfold RequestStop. cbn. destruct (state_ s) eqn:Es; cbn.
      1-2: rewrite bool_decide_true by set_solver; apply (stopping_inv Uring s t (waking s ∖ {[t]}) H); auto.
      1-2: rewrite bool_decide_false by set_solver; by apply dropped_inv.
Qed.

Lemma signalled_union s s' t : counter s' = counter s -> waking s' = {[t]} ∪ waking s -> signalled s'.
Proof. intros _ E. right. rewrite E. set_solver. Qed.

Lemma post_inv b s t w : inv b s -> inv b (Post s t w).1.
Proof.
  intros H. pose proof H as [H1 H2 H3 H4 H5 H6 H7 H8 H9]. unfold Post. destruct (post_closed_ s) eqn:Ec; [exact H|]. cbn. clear H.
  assert (forall s', counter s' = counter s -> waking s' = (if bool_decide (posted_ s = []) then {[t]} ∪ waking s else waking s) ->
    signalled s -> signalled s') as Hmono.
  { intros s' E1 E2 [Hc|Hw]; [left; by rewrite E1 | right; rewrite E2; case_bool_decide; set_solver]. }
  split; cbn; auto.
  - unfold batch in *. cbn. by rewrite <- H1, !app_assoc.
  - intros _ Hd. destruct (decide (posted_ s = [])) as [E|E].
    + left. eapply (signalled_union s); [done|]. cbn. by rewrite bool_decide_eq_true_2.
    + destruct (H2 E Hd) as [Hs|]; [left; by eapply Hmono | by right].
  - done.
Qed.

Lemma request_stop_inv b s t : inv b s -> inv b (RequestStop s t).
Proof. intros H. unfold RequestStop. destruct (state_ s) eqn:Es; try done; apply stopping_inv; auto. Qed.

Lemma Run_inv b s s' : inv b s -> pc s = OCreated -> match b with Uring => Run_uring s | Epoll => Run_epoll s end = Some s' -> inv b s'.
Proof.
  intros [H1 H2 H3 H4 H5 H6 (H7 & H7' & H7'') H8 H9] Ep Hs. unfold batch in *. rewrite Ep in *. cbn in *.
  destruct b; [|unfold Run_uring in Hs; destruct (fd_open s) eqn:Ef; [|done]]; injection Hs as <-;
    (split; cbn in *; auto; try (destruct (state_ s); intuition congruence)).
Qed.

Lemma owner_inv b s s' : inv b s -> owner_step b s = Some s' -> inv b s'.
Proof.
  intros H Hs. destruct (decide (pc s = OCreated)) as [Ec|Hne].
  { unfold owner_step in Hs. rewrite Ec in Hs. by apply (Run_inv b s). }
  destruct H as [H1 H2 H3 H4 H5 H6 (H7 & H7' & H7'') H8 H9].
  destruct s as [posted closed st fd n p wk acc ex dr]. unfold owner_step, batch, signalled, DrainPostedAndClose_swap in *. cbn in *.
  destruct p as [| | | | |[|w rest]| | |[|w rest]| |]; try done;
    try (case_bool_decide); try (destruct (Z.ltb_spec 0 n)); try destruct posted; try discriminate; injection Hs as <-;
    (split; unfold batch, signalled; cbn in *; rewrite <- ?app_assoc, ?app_nil_r in *; cbn; auto;
     try (intuition (congruence || lia))).
Qed.

Lemma step_inv b s s' : inv b s -> step b s s' -> inv b s'.
Proof.
  intros H Hs. destruct Hs as [s s' E|s E|s E Hc|s E Ef|s t w _|s t _|s _ E|s t a s' _ Ha E];
    [by eapply owner_inv | | | | by apply post_inv | by apply request_stop_inv | | by eapply wake_inv];
    destruct H as [H1 H2 H3 H4 H5 H6 (H7 & H7' & H7'') H8 H9]; unfold batch in *; rewrite E in *;
    (split; unfold batch, signalled in *; cbn in *; rewrite ?E; auto; try (intuition (congruence || lia))).
  - intros Hp _. right. by destruct (H4 Ef) as [_ ->].
Qed.

Lemma reachable_inv b s : reachable b s -> inv b s.
Proof. unfold reachable. generalize (initial_inv b). generalize (initial b). intros s0 H0. induction 1; eauto using step_inv. Qed.

(** ** Progress *)

Definition owner_turn (b : backend) (s : sys) : sys := default s (owner_step b s).

(** Within [n] steps of the owner alone everything accepted so far has run. *)
Definition within (b : backend) (n : nat) (s : sys) : Prop :=
  exists k, (k <= n)%nat /\ executed (Nat.iter k (owner_turn b) s) = accepted s.

Lemma within_now b n s : executed s = accepted s -> within b n s.
Proof. intros H. exists 0%nat. split; [lia | done]. Qed.

Lemma within_step b n s s' : owner_step b s = Some s' -> accepted s' = accepted s -> within b n s' -> within b (S n) s.
Proof.
  intros E Ha (k & Hk & H). exists (S k). split; [lia|]. rewrite Nat.iter_succ_r. unfold owner_turn at 2. rewrite E. cbn. congruence.
Qed.

Lemma within_le b n m s : (n <= m)%nat -> within b n s -> within b m s.
Proof. intros Hle (k & Hk & H). exists k. split; [lia | done]. Qed.

(** Running a batch. *)
Lemma within_run b n : forall l s, pc s = ORun l -> (forall s', pc s' = ORun [] -> posted_ s' = posted_ s -> counter s' = counter s ->
    waking s' = waking s -> accepted s' = accepted s -> executed s' = executed s ++ l -> within b n s') ->
  within b (length l + n) s.
Proof.
  induction l as [|w l IH]; intros s Ep H; [apply H; auto; by rewrite app_nil_r|].
  apply (within_step b _ s (callback s w (ORun l))); [unfold owner_step; by rewrite Ep | done |].
  apply IH; [done|]. cbn. intros s' E1 E2 E3 E4 E5 E6. apply H; auto. by rewrite E6, <- app_assoc.
Qed.

Lemma within_close_run b n : forall l s, pc s = OCloseRun l -> (forall s', pc s' = OCloseRun [] -> posted_ s' = posted_ s ->
    accepted s' = accepted s -> executed s' = executed s ++ l -> within b n s') ->
  within b (length l + n) s.
Proof.
  induction l as [|w l IH]; intros s Ep H; [apply H; auto; by rewrite app_nil_r|].
  apply (within_step b _ s (callback s w (OCloseRun l))); [unfold owner_step; by rewrite Ep | done |].
  apply IH; [done|]. cbn. intros s' E1 E2 E3 E4. apply H; auto. by rewrite E4, <- app_assoc.
Qed.

Lemma within_swap b s : pc s = OSwap -> executed s ++ posted_ s = accepted s -> within b (S (length (posted_ s))) s.
Proof.
  intros Ep H. apply (within_step b _ s (RunPosted_swap s)); [unfold owner_step; by rewrite Ep | done |].
  apply (within_le _ (length (posted_ s) + 0)); [lia|]. apply within_run; [done|]. intros s' _ _ _ _ E5 E6. apply within_now. by rewrite E6, E5.
Qed.

Lemma within_close b s : pc s = OClose -> executed s ++ posted_ s = accepted s -> within b (S (length (posted_ s))) s.
Proof.
  intros Ep H. destruct (posted_ s) as [|w l] eqn:El; [apply within_now; by rewrite <- H, app_nil_r|].
  apply (within_step b _ s (DrainPostedAndClose_swap s)); [unfold owner_step; by rewrite Ep | unfold DrainPostedAndClose_swap; by rewrite El |].
  unfold DrainPostedAndClose_swap. rewrite El. apply (within_le _ (length (w :: l) + 0)); [lia|].
  apply within_close_run; [done|]. cbn. intros s' _ _ E3 E4. apply within_now. by rewrite E4, E3.
Qed.

Lemma within_drain b s : pc s = ODrain -> executed s ++ posted_ s = accepted s -> within b (3 + length (posted_ s)) s.
Proof.
  intros Ep H.
  assert (forall s, pc s = ODrain -> counter s <= 0 -> executed s ++ posted_ s = accepted s -> within b (2 + length (posted_ s)) s) as Hlast.
  { clear. intros s Ep Hc H. apply (within_step b _ s (set_pc s OSwap)); [unfold owner_step; rewrite Ep; by rewrite (proj2 (Z.ltb_ge _ _)) | done |].
    by apply (within_swap b (set_pc s OSwap)). }
  destruct (Z.ltb_spec 0 (counter s)) as [Hc|Hc]; [|apply (within_le _ (2 + length (posted_ s))); [lia | auto]].
  apply (within_step b _ s (set_counter s 0)); [unfold owner_step; rewrite Ep; by rewrite (proj2 (Z.ltb_lt _ _)) | done |].
  by apply (Hlast (set_counter s 0)).
Qed.

Lemma within_check b s : pc s = OCheck -> executed s ++ posted_ s = accepted s -> (posted_ s <> [] -> 0 < counter s) ->
  within b (5 + length (posted_ s)) s.
Proof.
  intros Ep H Hc. destruct (decide (posted_ s = [])) as [E|Hne]; [apply within_now; by rewrite <- H, E, app_nil_r|]. specialize (Hc Hne).
  eapply within_step; [unfold owner_step; by rewrite Ep | done |]. case_bool_decide.
  - apply (within_step b _ _ (set_pc s ODrain)); [cbn; by rewrite (proj2 (Z.ltb_lt _ _)) | done |].
    by apply (within_drain b (set_pc s ODrain)).
  - apply (within_step b _ _ (set_pc s OClose)); [done | done |]. apply (within_le _ (S (length (posted_ s)))); [lia|].
    by apply (within_close b (set_pc s OClose)).
Qed.

Lemma within_poll b s : pc s = OPoll -> executed s ++ posted_ s = accepted s -> (posted_ s <> [] -> 0 < counter s) ->
  within b (4 + length (posted_ s)) s.
Proof.
  intros Ep H Hc. destruct (decide (posted_ s = [])) as [E|Hne]; [apply within_now; by rewrite <- H, E, app_nil_r|].
  apply (within_step b _ s (set_pc s ODrain)); [unfold owner_step; rewrite Ep; rewrite (proj2 (Z.ltb_lt _ _)); auto | done |].
  by apply (within_drain b (set_pc s ODrain)).
Qed.

Lemma within_start b s : pc s = OCreated -> fd_open s = true -> executed s ++ posted_ s = accepted s ->
  (b = Epoll -> posted_ s <> [] -> 0 < counter s) -> within b (6 + length (posted_ s)) s.
Proof.
  intros Ep Hf H Hc. destruct b.
  - eapply within_step; [unfold owner_step, Run_epoll; by rewrite Ep | done |].
    apply (within_check Epoll (set_pc (set_state s _) OCheck)); auto.
  - eapply within_step; [unfold owner_step, Run_uring; by rewrite Ep, Hf | done |].
    apply (within_le _ (S (length (posted_ s)))); [lia|]. by apply (within_swap Uring (set_pc (set_state s _) OSwap)).
Qed.

Lemma within_all b s : inv b s -> waking s = ∅ -> dropped s = false -> (pc s = OCreated -> fd_open s = true) ->
  within b (length (batch s) + length (posted_ s) + 7) s.
Proof.
  intros [H1 H2 _ _ H5 H6 _ _ _] Hw Hd Hf.
  assert (will_swap b (pc s) = false -> posted_ s <> [] -> 0 < counter s) as Hc.
  { intros Hn Hp. destruct (H2 Hp Hd) as [[|]|]; [done | done | congruence]. } clear H2.
  unfold batch in *. destruct (pc s) as [| | | | |l| | |l| |] eqn:Ep; cbn [app length Nat.add] in *.
  - apply (within_le _ (6 + length (posted_ s))); [lia|]. apply within_start; auto. intros ->. auto.
  - apply (within_le _ (5 + length (posted_ s))); [lia|]. apply within_check; auto.
  - apply (within_le _ (4 + length (posted_ s))); [lia|]. apply within_poll; auto.
  - apply (within_le _ (3 + length (posted_ s))); [lia|]. by apply within_drain.
  - apply (within_le _ (S (length (posted_ s)))); [lia|]. by apply within_swap.
  - apply (within_le _ (length l + (6 + length (posted_ s)))); [lia|]. apply within_run; [done|]. intros s' E1 E2 E3 _ E5 E6.
    apply (within_step b _ s' (set_pc s' OCheck)); [unfold owner_step; by rewrite E1 | done |]. rewrite <- E2.
    apply (within_check b (set_pc s' OCheck)); [done | cbn; by rewrite E5, E6, E2, <- app_assoc | cbn; rewrite E2, E3; auto].
  - apply (within_le _ (2 + length (posted_ s))); [lia|].
    apply (within_step b _ s (set_pc s OClose)); [unfold owner_step; by rewrite Ep | done | by apply (within_close b (set_pc s OClose))].
  - apply (within_le _ (S (length (posted_ s)))); [lia|]. by apply within_close.
  - apply (within_le _ (length l + (2 + length (posted_ s)))); [lia|]. apply within_close_run; [done|]. intros s' E1 E2 E5 E6.
    apply (within_step b _ s' (set_pc s' OClose)); [unfold owner_step; by rewrite E1 | done |]. rewrite <- E2.
    apply (within_close b (set_pc s' OClose)); [done | cbn; by rewrite E5, E6, E2, <- app_assoc].
  - apply within_now. rewrite H6, app_nil_r in H1 by (apply H5; by left). done.
  - apply within_now. rewrite H6, app_nil_r in H1 by (apply H5; by right). done.
Qed.

(** ** A wake-up that is given up

    Callbacks are queued, the loop runs and is idle, and nobody is about to wake it. *)
Definition stranded (s : sys) : Prop :=
  posted_ s <> [] /\ state_ s = kRunning /\ (pc s = OPoll \/ pc s = OCheck) /\ post_closed_ s = false /\ counter s = 0 /\ waking s = ∅.

(** Later posts find the queue non-empty and wake nobody; the poll timeout does not look at
    the queue. Only a stop request ends it. *)
Lemma stranded_step s s' : stranded s -> step Uring s s' -> (stranded s' /\ executed s' = executed s) \/ exists t, s' = RequestStop s t.
Proof.
  intros (Hp & Hs & Hpc & Hcl & Hc & Hw) Hst. destruct Hst as [s s' E|s E|s E Hc'|s E Ef|s t w _|s t _|s _ E|s t a s' Ht _ _]; try (destruct Hpc; congruence); try (right; by eexists).
  - left. unfold owner_step in E. destruct Hpc as [Hpc|Hpc]; rewrite Hpc in E; [by rewrite Hc in E|]. injection E as <-. rewrite bool_decide_true by done. split; [|done]. repeat split; cbn; auto.
  - left. split; [|done]. repeat split; cbn; auto.
  - left. unfold Post. rewrite Hcl. cbn. split; [|done]. rewrite bool_decide_false by done. repeat split; cbn; auto. by destruct (posted_ s).
  - set_solver.
Qed.

(** C6. Posting across threads, for both loops and every interleaving of the owner
    with posting and stopping threads, whatever their writes to the eventfd return (an
    epoll loop whose write fails for good ends the process, and the run with it):
    accepted callbacks run in the order in which they were accepted and each exactly
    once, what has run, what the owner took and what is queued making up the accepted
    posts. When the queue is closed every accepted callback has run, and every later
    Post fails with ECANCELED without changing anything. Unless a write was given up
    since the owner last took the queue, no wake-up is lost: once every poster has
    finished its write, the owner alone runs everything accepted within a bounded number
    of its own steps, never blocking with callbacks queued, and an owner blocked in a
    stopping loop has been or is about to be woken. The epoll loop never gives a write
    up. The io_uring loop does on EINTR, and callbacks that are stranded by that stay
    where they are, whatever is posted later, until the loop is asked to stop. *)
Theorem posts_run_once_in_order (b : backend) (s : sys) :
  reachable b s ->
  executed s ++ batch s ++ posted_ s = accepted s /\
  (post_closed_ s = true -> executed s = accepted s /\ forall t w, Post s t w = (s, Err (Errno ECANCELED))) /\
  (dropped s = false -> waking s = ∅ -> (pc s = OCreated -> fd_open s = true) ->
   within b (length (batch s) + length (posted_ s) + 7) s) /\
  (dropped s = false -> state_ s = kStopping -> pc s = OPoll -> 0 < counter s \/ waking s <> ∅) /\
  (b = Epoll -> dropped s = false) /\
  (b = Uring -> stranded s -> forall s', step Uring s s' ->
   (stranded s' /\ executed s' = executed s) \/ exists t, s' = RequestStop s t).
Proof.
  intros H%reachable_inv. split_and!; [apply H | | by intros; apply within_all | by intros Hd Hs Hp; apply (i_stop _ _ H) | apply H | intros _ Hs s'; by apply stranded_step].
  intros Hc. split; [|intros t w; unfold Post; by rewrite Hc]. pose proof (i_closed _ _ H Hc) as Hp.
  assert (batch s = []) as Hb by (unfold batch; destruct (proj1 (i_open _ _ H) Hc) as [-> | ->]; done).
  rewrite <- (i_log _ _ H), Hb, Hp. by rewrite app_nil_r.
Qed.

(** Scripts of steps. *)
Inductive action := AOwner | AInit | APost (t w : Z) | AStop (t : Z) | AWake (t : Z) (a : answer).

Definition act (b : backend) (s : sys) (x : action) : option sys :=
  match x with
  | AOwner => owner_step b s
  | AInit =>
      if bool_decide (pc s = OCreated) && negb (fd_open s) then
        Some (mkSys (posted_ s) (post_closed_ s) (state_ s) true 0 (pc s) (waking s) (accepted s) (executed s) (dropped s))
      else None
  | APost t w => if bool_decide (t ∉ waking s) then Some (Post s t w).1 else None
  | AStop t => if bool_decide (t ∉ waking s) then Some (RequestStop s t) else None
  | AWake t a => if bool_decide (t ∈ waking s) && write_answer (counter s) a then match do_wake b s t a with Val s => Some s | Panic => None end else None
  end.

Lemma act_step b s x s' : act b s x = Some s' -> step b s s'.
Proof.
  destruct x; cbn; intros E; [by constructor | | | | ].
  - case_bool_decide; [|done]. destruct (fd_open s) eqn:Ef; [done|]. injection E as <-. by constructor.
  - case_bool_decide; [|done]. injection E as <-. by constructor.
  - case_bool_decide; [|done]. injection E as <-. by constructor.
  - case_bool_decide; [|done]. destruct (write_answer (counter s) a) eqn:Ea; [|done]. cbn in E. destruct (do_wake b s t a) as [s1|] eqn:Ew; [|done]. injection E as <-. by eapply StepWake.
Qed.

Fixpoint acts (b : backend) (s : sys) (xs : list action) : option sys :=
  match xs with [] => Some s | x :: xs => match act b s x with Some s => acts b s xs | None => None end end.

Lemma acts_rtc b xs : forall s s', acts b s xs = Some s' -> rtc (step b) s s'.
Proof.
  induction xs as [|x xs IH]; cbn; intros s s' E; [injection E as <-; apply rtc_refl|].
  destruct (act b s x) as [s1|] eqn:Ex; [|done]. eapply rtc_l; [by eapply act_step | by apply IH].
Qed.

(** Two posts before Init, a stop request and a post while the owner runs them. *)
Definition example_posts : list action :=
  [APost 1 10; AWake 1 Written; APost 2 20; AInit; AOwner; AOwner; APost 1 30; AOwner; AStop 2; AWake 1 Written; AOwner; AWake 2 Written].

Definition example_sys : sys := default (initial Uring) (acts Uring (initial Uring) example_posts).

(** The write of the only poster is interrupted while the loop is idle. *)
Definition interrupted_posts : list action := [AInit; AOwner; AOwner; AOwner; AOwner; APost 1 10; AWake 1 Interrupted].
Definition interrupted_sys : sys := default (initial Uring) (acts Uring (initial Uring) interrupted_posts).

Lemma interrupted_stranded : reachable Uring interrupted_sys /\ stranded interrupted_sys.
Proof. split; [apply (acts_rtc Uring interrupted_posts); vm_compute; reflexivity|]. repeat split; try (vm_compute; done). by left. Qed.

Lemma posts_run_once_in_order_witness :
  accepted example_sys = [10; 20; 30] /\ executed example_sys = [10; 20] /\ posted_ example_sys = [30] /\
  within Uring 8 example_sys /\
  stranded interrupted_sys /\ stranded (Post interrupted_sys 2 20).1.
Proof.
  split; [vm_compute; reflexivity|]. split; [vm_compute; reflexivity|]. split; [vm_compute; reflexivity|]. split; [|split; [apply interrupted_stranded|]].
  - apply (posts_run_once_in_order Uring example_sys).
    + apply (acts_rtc Uring example_posts). vm_compute. reflexivity.
    + vm_compute. reflexivity.
    + vm_compute. reflexivity.
    + vm_compute. discriminate.
  - destruct interrupted_stranded as [Hr Hs]. destruct (posts_run_once_in_order Uring interrupted_sys Hr) as (_ & _ & _ & _ & _ & H).
    destruct (H eq_refl Hs _ (StepPost Uring interrupted_sys 2 20 ltac:(vm_compute; discriminate))) as [[H1 _]|[t E]]; [exact H1|]. exfalso. apply (f_equal state_) in E. vm_compute in E. discriminate E.
Defined.

End Posting.
