(* ===== verification/EpollPoller.v ===== *)
(** * Channels, the poller and dispatch of the epoll loop
    (src/epoll/channel.cc, src/epoll/epoll_poller.cc, src/epoll/poller.cc)

    Channels live at addresses of a store: an address that is not there is freed
    memory. [kernel] is the interest list of the epoll instance, by descriptor: the
    event mask and the pointer it was given. epoll_ctl refuses to add a descriptor
    twice and to change one that is not there; running out of kernel memory is left
    out. Callbacks with their context are identifiers, and running one is a
    parameter, since it is code of the channel's owner. *)

From S2P Require Import Prelude.

Module EpollPoller.

Definition EPOLLIN : Z := 1.
Definition EPOLLPRI : Z := 2.
Definition EPOLLOUT : Z := 4.
Definition EPOLLERR : Z := 8.
Definition EPOLLHUP : Z := 16.
Definition EPOLLRDHUP : Z := 2 ^ 13.
Definition EPOLLET : Z := 2 ^ 31.

Definition EINTR : Z := 4.

Inductive TriggerMode := kLevelTriggered | kEdgeTriggered.

#[global] Instance TriggerMode_eq_dec : EqDecision TriggerMode.
Proof. solve_decision. Defined.

(** ** Channel *)

Definition kNoneEvent : Z := 0.
Definition kReadEvent : Z := 1.
Definition kWriteEvent : Z := 2.
Definition kErrorEvent : Z := 4.
Definition kHupEvent : Z := 8.

Definition has (word flag : Z) : bool := negb (Z.land word flag =? 0).

Record Channel := mkChannel {
  loop_ : bool;                       (* is there an owner loop? *)
  fd_ : Z;
  events_ : Z;
  revents_ : Z;
  index_ : Z;
  trigger_mode_ : TriggerMode;
  read_callback_ : option Z;
  write_callback_ : option Z;
  close_callback_ : option Z;
  error_callback_ : option Z;
}.

Definition set_events (c : Channel) (e : Z) : Channel :=
  mkChannel (loop_ c) (fd_ c) e (revents_ c) (index_ c) (trigger_mode_ c) (read_callback_ c) (write_callback_ c) (close_callback_ c) (error_callback_ c).
Definition SetRevents (c : Channel) (e : Z) : Channel :=
  mkChannel (loop_ c) (fd_ c) (events_ c) e (index_ c) (trigger_mode_ c) (read_callback_ c) (write_callback_ c) (close_callback_ c) (error_callback_ c).
Definition set_index (c : Channel) (i : Z) : Channel :=
  mkChannel (loop_ c) (fd_ c) (events_ c) (revents_ c) i (trigger_mode_ c) (read_callback_ c) (write_callback_ c) (close_callback_ c) (error_callback_ c).
Definition SetEdgeTriggered (c : Channel) (et_mode : bool) : Channel :=
  mkChannel (loop_ c) (fd_ c) (events_ c) (revents_ c) (index_ c) (if et_mode then kEdgeTriggered else kLevelTriggered)
    (read_callback_ c) (write_callback_ c) (close_callback_ c) (error_callback_ c).
Definition SetCallbacks (c : Channel) (r w cl e : option Z) : Channel :=
  mkChannel (loop_ c) (fd_ c) (events_ c) (revents_ c) (index_ c) (trigger_mode_ c) r w cl e.

Definition IsNoneEvent (c : Channel) : bool := events_ c =? kNoneEvent.
Definition IsWriting (c : Channel) : bool := has (events_ c) kWriteEvent.
Definition IsReading (c : Channel) : bool := has (events_ c) kReadEvent.
Definition IsEdgeTriggered (c : Channel) : bool := bool_decide (trigger_mode_ c = kEdgeTriggered).

(** Channel(loop, fd). *)
Definition new_Channel (fd : Z) : outcome Channel :=
  ALYRN_CHECK (0 <=? fd);;
  Val (mkChannel true fd kNoneEvent kNoneEvent (-1) kLevelTriggered None None None None).

(** What std::exchange leaves behind in a moved-from channel. *)
Definition moved_from : Channel := mkChannel false (-1) kNoneEvent kNoneEvent (-1) kLevelTriggered None None None None.

(** ** Registration states *)

Definition kNew : Z := -1.
Definition kAdded : Z := 1.
Definition kDeleted : Z := 2.

Definition ToEpollEvents (abstract_events : Z) : Z :=
  let event := if has abstract_events kReadEvent then Z.lor 0 (Z.lor (Z.lor EPOLLIN EPOLLPRI) EPOLLRDHUP) else 0 in
  if has abstract_events kWriteEvent then Z.lor event EPOLLOUT else event.

Definition FromEpollEvents (epoll_events : Z) : Z :=
  let event := if has epoll_events (Z.lor EPOLLIN EPOLLPRI) then kReadEvent else 0 in
  let event := if has epoll_events EPOLLOUT then Z.lor event kWriteEvent else event in
  let event := if has epoll_events EPOLLERR then Z.lor event kErrorEvent else event in
  if has epoll_events (Z.lor EPOLLHUP EPOLLRDHUP) then Z.lor event kHupEvent else event.

(** ** The poller and the channels of one loop *)

Record world := mkWorld {
  store : gmap Z Channel;
  channels_ : gmap Z Z;
  kernel : gmap Z (Z * Z);
  event_list_size : Z;                (* events_.size() *)
  active_channels_ : list Z;
}.

Definition set_store (w : world) (s : gmap Z Channel) : world :=
  mkWorld s (channels_ w) (kernel w) (event_list_size w) (active_channels_ w).
Definition set_channels (w : world) (m : gmap Z Z) : world :=
  mkWorld (store w) m (kernel w) (event_list_size w) (active_channels_ w).
Definition set_kernel (w : world) (k : gmap Z (Z * Z)) : world :=
  mkWorld (store w) (channels_ w) k (event_list_size w) (active_channels_ w).
Definition set_active (w : world) (n : Z) (l : list Z) : world :=
  mkWorld (store w) (channels_ w) (kernel w) n l.

Definition kInitEventListSize : Z := 16.
Definition new_world : world := mkWorld ∅ ∅ ∅ kInitEventListSize [].

Definition deref (w : world) (a : Z) : outcome Channel :=
  match store w !! a with Some c => Val c | None => Panic end.
Definition put (w : world) (a : Z) (c : Channel) : world := set_store w (<[a := c]> (store w)).

Inductive ctl := EPOLL_CTL_ADD | EPOLL_CTL_MOD | EPOLL_CTL_DEL.

(** epoll_ctl(2); [None] is an error. *)
Definition epoll_ctl (op : ctl) (fd : Z) (event : Z * Z) (k : gmap Z (Z * Z)) : option (gmap Z (Z * Z)) :=
  match op, k !! fd with
  | EPOLL_CTL_ADD, None | EPOLL_CTL_MOD, Some _ => Some (<[fd := event]> k)
  | EPOLL_CTL_DEL, Some _ => Some (delete fd k)
  | _, _ => None
  end.

Definition event_mask (c : Channel) : Z :=
  let events := ToEpollEvents (events_ c) in
  if IsEdgeTriggered c then Z.lor events EPOLLET else events.

(** EPollPoller::Update *)
Definition Update (w : world) (operation : ctl) (a : Z) : outcome world :=
  c ← deref w a;
  match epoll_ctl operation (fd_ c) (event_mask c, a) (kernel w) with
  | Some k => Val (set_kernel w k)
  | None => ALYRN_CHECK false;; Val w
  end.

Definition UpdateChannel (w : world) (a : Z) : outcome world :=
  c ← deref w a;
  if (index_ c =? kNew) || (index_ c =? kDeleted) then
    let w := if index_ c =? kNew then set_channels w (<[fd_ c := a]> (channels_ w)) else w in
    Update (put w a (set_index c kAdded)) EPOLL_CTL_ADD a
  else if IsNoneEvent c then
    w ← Update w EPOLL_CTL_DEL a;
    c ← deref w a;
    Val (put w a (set_index c kDeleted))
  else Update w EPOLL_CTL_MOD a.

Definition RemoveChannel (w : world) (a : Z) : outcome world :=
  c ← deref w a;
  let w := set_channels w (delete (fd_ c) (channels_ w)) in
  w ← (if index_ c =? kAdded then Update w EPOLL_CTL_DEL a else Val w);
  c ← deref w a;
  Val (put w a (set_index c kNew)).

Definition HasChannel (w : world) (a : Z) : outcome bool :=
  c ← deref w a; Val (bool_decide (channels_ w !! fd_ c = Some a)).

(** Channel::EnableReading and the others: the new interest set, then Update. *)
Definition change_events (w : world) (a : Z) (f : Z -> Z) : outcome world :=
  c ← deref w a;
  let c := set_events c (f (events_ c)) in
  ALYRN_CHECK (loop_ c);;
  UpdateChannel (put w a c) a.

Definition EnableReading (w : world) (a : Z) : outcome world := change_events w a (fun e => Z.lor e kReadEvent).
Definition DisableReading (w : world) (a : Z) : outcome world := change_events w a (fun e => Z.land e (Z.lnot kReadEvent)).
Definition EnableWriting (w : world) (a : Z) : outcome world := change_events w a (fun e => Z.lor e kWriteEvent).
Definition DisableWriting (w : world) (a : Z) : outcome world := change_events w a (fun e => Z.land e (Z.lnot kWriteEvent)).
Definition DisableAll (w : world) (a : Z) : outcome world := change_events w a (fun _ => kNoneEvent).

(** Channel::Remove *)
Definition Remove (w : world) (a : Z) : outcome world :=
  c ← deref w a;
  ALYRN_CHECK (loop_ c);;
  ALYRN_CHECK (IsNoneEvent c);;
  RemoveChannel w a.

(** loop_->HasChannel(this): a null loop is dereferenced. *)
Definition IsRegistered (w : world) (a : Z) : outcome bool :=
  c ← deref w a; ALYRN_CHECK (loop_ c);; HasChannel w a.

(** Channel(Channel&&), into fresh memory, and operator=(Channel&&). *)
Definition move_construct (w : world) (dst src : Z) : outcome world :=
  c ← deref w src;
  ALYRN_CHECK (index_ c =? -1);;
  Val (put (put w dst c) src moved_from).

Definition move_assign (w : world) (dst src : Z) : outcome world :=
  if dst =? src then Val w else
  d ← deref w dst;
  c ← deref w src;
  ALYRN_CHECK (index_ d =? -1);;
  ALYRN_CHECK (index_ c =? -1);;
  Val (put (put w dst c) src moved_from).

(** ** Waiting and dispatch *)

(** The channels of [ready], with their events, are made active. *)
Fixpoint FillActiveChannels (w : world) (ready : list (Z * Z)) : outcome world :=
  match ready with
  | [] => Val w
  | (ev, a) :: ready =>
      c ← deref w a;
      let w := put w a (SetRevents c (FromEpollEvents ev)) in
      FillActiveChannels (set_active w (event_list_size w) (active_channels_ w ++ [a])) ready
  end.

(** The result of epoll_wait: the ready events, or an error number. *)
Definition Poll (w : world) (answer : list (Z * Z) + Z) : outcome world :=
  let max_events := event_list_size w in
  match answer with
  | inl ready =>
      let num_events := Z.of_nat (length ready) in
      if 0 <? num_events then
        w ← FillActiveChannels w ready;
        if num_events =? max_events then Val (set_active w (event_list_size w * 2) (active_channels_ w)) else Val w
      else Val w
  | inr error => if error =? EINTR then Val w else ALYRN_CHECK false;; Val w
  end.

(** Dispatch runs in whatever state [W] the callbacks work on; [view] is the loop's
    part of it. *)
Section dispatch.
Context {W : Type} (view : W -> world) (invoke : W -> Z -> outcome W).

Definition invoke_if (w : W) (a : Z) (cond : Channel -> bool) (callback : Channel -> option Z) : outcome W :=
  c ← deref (view w) a;
  if cond c then match callback c with Some f => invoke w f | None => Val w end else Val w.

Definition HandleEventUnchecked (w : W) (a : Z) : outcome W :=
  w ← invoke_if w a (fun c => has (revents_ c) kHupEvent && negb (has (revents_ c) kReadEvent)) close_callback_;
  w ← invoke_if w a (fun c => has (revents_ c) kErrorEvent) error_callback_;
  w ← invoke_if w a (fun c => has (revents_ c) kReadEvent) read_callback_;
  invoke_if w a (fun c => has (revents_ c) kWriteEvent) write_callback_.

(** The dispatch loop of Loop::Run over active_channels_. *)
Fixpoint handle_active (w : W) (l : list Z) : outcome W :=
  match l with [] => Val w | a :: l => w ← HandleEventUnchecked w a; handle_active w l end.

End dispatch.

(** One round of Loop::Run: wait, then dispatch what became active. *)
Definition poll_round (invoke : world -> Z -> outcome world) (w : world) (answer : list (Z * Z) + Z) : outcome world :=
  w ← Poll (set_active w (event_list_size w) []) answer;
  handle_active id invoke w (active_channels_ w).

End EpollPoller.
