(* ===== verification/EpollPollerProps.v ===== *)
(** * The poller's interest list follows the channels *)

From S2P Require Import Prelude EpollPoller.

Import EpollPoller.

Module EpollPollerProps.

(** ** The invariant *)

Record chan_ok (w : world) (a : Z) (c : Channel) : Prop := {
  ck_index : index_ c = kNew \/ index_ c = kAdded \/ index_ c = kDeleted;
  ck_map : index_ c <> kNew <-> channels_ w !! fd_ c = Some a;
  ck_kernel : index_ c = kAdded -> kernel w !! fd_ c = Some (event_mask c, a);
  ck_events : index_ c <> kAdded -> events_ c = kNoneEvent;
  ck_loop : index_ c <> kNew -> loop_ c = true;
}.

Record inv (w : world) : Prop := {
  iv_chan a c : store w !! a = Some c -> chan_ok w a c;
  iv_map fd a : channels_ w !! fd = Some a -> exists c, store w !! a = Some c /\ fd_ c = fd /\ index_ c <> kNew;
  iv_kernel fd ev a : kernel w !! fd = Some (ev, a) ->
    exists c, store w !! a = Some c /\ fd_ c = fd /\ index_ c = kAdded /\ ev = event_mask c;
}.

Lemma inv_new : inv new_world.
Proof. split; cbn; intros *; rewrite lookup_empty; done. Qed.

(** A descriptor has one registered channel. *)
Lemma inv_unique w a b c d : inv w -> store w !! a = Some c -> store w !! b = Some d ->
  index_ c <> kNew -> index_ d <> kNew -> fd_ c = fd_ d -> a = b.
Proof.
  intros H Ha Hb Hc Hd E. pose proof (proj1 (ck_map _ _ _ (iv_chan _ H a c Ha)) Hc) as E1.
  pose proof (proj1 (ck_map _ _ _ (iv_chan _ H b d Hb)) Hd) as E2. rewrite E in E1. congruence.
Qed.

(** The descriptor of a channel that is not added is not in the kernel, unless
    another channel is registered for it. *)
Lemma kernel_free w a c : inv w -> store w !! a = Some c -> index_ c <> kAdded ->
  (index_ c = kNew -> channels_ w !! fd_ c = None) -> kernel w !! fd_ c = None.
Proof.
  intros H Ha Hi Hn. destruct (kernel w !! fd_ c) as [[ev b]|] eqn:E; [|done]. exfalso.
  destruct (iv_kernel _ H _ _ _ E) as (d & Hb & Ef & Ei & _).
  assert (index_ d <> kNew) as Hd by (rewrite Ei; discriminate).
  destruct (Z.eq_dec (index_ c) kNew) as [En|En].
  - apply (ck_map _ _ _ (iv_chan _ H b d Hb)) in Hd. rewrite Ef, (Hn En) in Hd. discriminate.
  - assert (a = b) as -> by by eapply inv_unique. congruence.
Qed.

(** Registering channel [a], or changing its registration. *)
Definition registered (w : world) (a fd : Z) (c : Channel) : world :=
  mkWorld (<[a := c]> (store w)) (<[fd := a]> (channels_ w))
    (if index_ c =? kAdded then <[fd := (event_mask c, a)]> (kernel w) else delete fd (kernel w))
    (event_list_size w) (active_channels_ w).

Lemma registered_inv w a c c' : inv w -> store w !! a = Some c -> fd_ c' = fd_ c -> loop_ c' = true ->
  index_ c' = kAdded \/ index_ c' = kDeleted /\ events_ c' = kNoneEvent ->
  (index_ c = kNew -> channels_ w !! fd_ c = None) -> inv (registered w a (fd_ c) c').
Proof.
  intros H Ha Ef El Hi Hn.
  assert (index_ c' <> kNew) as Hnew by (destruct Hi as [->|[-> _]]; discriminate).
  assert (forall b d, b <> a -> store w !! b = Some d -> index_ d <> kNew -> fd_ d <> fd_ c) as Hother.
  { intros b d Hne Hb Hd E. pose proof (proj1 (ck_map _ _ _ (iv_chan _ H b d Hb)) Hd) as E1. rewrite E in E1.
    destruct (Z.eq_dec (index_ c) kNew) as [En|En]; [rewrite (Hn En) in E1; discriminate|].
    apply (ck_map _ _ _ (iv_chan _ H a c Ha)) in En. congruence. }
  split; cbn.
  - intros b d. destruct (decide (b = a)) as [->|Hne].
    + rewrite lookup_insert_eq. intros [= <-]. split; cbn; rewrite ?Ef.
      * destruct Hi as [->|[-> _]]; auto.
      * by rewrite lookup_insert_eq.
      * intros ->. cbn. by rewrite lookup_insert_eq.
      * destruct Hi as [->|[_ ->]]; done.
      * done.
    + rewrite lookup_insert_ne by done. intros Hb. destruct (iv_chan _ H b d Hb) as [K1 K2 K3 K4 K5]. split; cbn; auto.
      * destruct (decide (fd_ c = fd_ d)) as [E|E]; [|by rewrite lookup_insert_ne]. rewrite E, lookup_insert_eq.
        split; [intros Hd; destruct (Hother b d Hne Hb Hd); done | intros [= ->]; done].
      * intros Ea. assert (fd_ d <> fd_ c) as E by (eapply Hother; eauto; rewrite Ea; discriminate).
        destruct (index_ c' =? kAdded); [rewrite lookup_insert_ne by done | rewrite lookup_delete_ne by done]; auto.
  - intros fd b. destruct (decide (fd = fd_ c)) as [->|Hne].
    + rewrite lookup_insert_eq. intros [= <-]. exists c'. rewrite lookup_insert_eq. auto.
    + rewrite lookup_insert_ne by done. intros Hb. destruct (iv_map _ H fd b Hb) as (d & Hd & Efd & Hdn).
      exists d. rewrite lookup_insert_ne; [auto|]. intros <-. rewrite Ha in Hd. injection Hd as <-. done.
  - intros fd ev b Hk. destruct (decide (fd = fd_ c)) as [->|Hne].
    + destruct (Z.eqb_spec (index_ c') kAdded) as [Ei|]; [|by rewrite lookup_delete_eq in Hk].
      rewrite lookup_insert_eq in Hk. injection Hk as <- <-. exists c'. rewrite lookup_insert_eq. auto.
    + assert (kernel w !! fd = Some (ev, b)) as Hk'.
      { by destruct (index_ c' =? kAdded); [rewrite lookup_insert_ne in Hk | rewrite lookup_delete_ne in Hk]. }
      destruct (iv_kernel _ H _ _ _ Hk') as (d & Hd & Efd & Ed & Em). exists d. rewrite lookup_insert_ne; [auto|].
      intros <-. rewrite Ha in Hd. injection Hd as <-. done.
Qed.

Lemma registered_same w a c c' : inv w -> store w !! a = Some c -> index_ c <> kNew ->
  registered w a (fd_ c) c' = set_kernel (put w a c')
    (if index_ c' =? kAdded then <[fd_ c := (event_mask c', a)]> (kernel w) else delete (fd_ c) (kernel w)).
Proof.
  intros H Ha Hn. apply (ck_map _ _ _ (iv_chan _ H a c Ha)) in Hn. unfold registered, set_kernel, put, set_store. cbn.
  by rewrite (insert_id _ _ _ Hn).
Qed.

Lemma change_events_ok w a c f : inv w -> store w !! a = Some c -> loop_ c = true ->
  (index_ c = kNew -> channels_ w !! fd_ c = None) ->
  exists i, let c' := set_index (set_events c (f (events_ c))) i in
    change_events w a f = Val (registered w a (fd_ c) c') /\ inv (registered w a (fd_ c) c') /\ i <> kNew.
Proof.
  intros H Ha Hl Hn. pose proof (iv_chan _ H a c Ha) as [K1 K2 K3 K4 K5].
  unfold change_events, deref. rewrite Ha, bind_val. cbn [loop_ set_events]. rewrite Hl, check_true, bind_val.
  set (c1 := set_events c (f (events_ c))).
  unfold UpdateChannel, deref. cbn [store put set_store]. rewrite lookup_insert_eq, bind_val. cbn [index_ c1 set_events].
  destruct (Z.eq_dec (index_ c) kAdded) as [Ea|Ea].
  - rewrite Ea. cbn [kNew kAdded kDeleted Z.eqb Pos.eqb orb]. specialize (K3 Ea). destruct (IsNoneEvent c1) eqn:E0.
    + apply Z.eqb_eq in E0. exists kDeleted. cbn zeta. fold c1.
      assert (inv (registered w a (fd_ c) (set_index c1 kDeleted))) as Hinv by (apply registered_inv; auto).
      split; [|auto]. rewrite registered_same by (done || (rewrite Ea; discriminate)). unfold Update, deref. cbn [store put set_store].
      rewrite lookup_insert_eq, bind_val. unfold epoll_ctl. cbn [kernel put set_store fd_ c1 set_events]. rewrite K3, bind_val. unfold deref.
      cbn [store set_kernel put set_store]. rewrite lookup_insert_eq, bind_val. unfold put, set_store, set_kernel. cbn. by rewrite insert_insert_eq.
    + exists kAdded. cbn zeta. fold c1. assert (index_ c1 = kAdded) as E1 by done.
      assert (set_index c1 kAdded = c1) as -> by (rewrite <- E1; by destruct c1).
      assert (inv (registered w a (fd_ c) c1)) as Hinv by (apply registered_inv; auto).
      split; [|auto]. rewrite registered_same by (done || (rewrite Ea; discriminate)). unfold Update, deref. cbn [store put set_store].
      rewrite lookup_insert_eq, bind_val. unfold epoll_ctl. cbn [kernel put set_store fd_ c1 set_events]. rewrite K3, E1.
      done.
  - exists kAdded. cbn zeta. fold c1.
    assert (inv (registered w a (fd_ c) (set_index c1 kAdded))) as Hinv by (apply registered_inv; auto).
    split; [|auto]. pose proof (kernel_free w a c H Ha Ea Hn) as Hk.
    assert ((index_ c =? kNew) || (index_ c =? kDeleted) = true) as -> by (destruct K1 as [->|[E| ->]]; done).
    match goal with |- Update (put ?x _ _) _ _ = _ => set (w1 := x) end.
    assert (w1 = put (set_channels w (<[fd_ c := a]> (channels_ w))) a c1) as ->.
    { unfold w1. destruct (Z.eqb_spec (index_ c) kNew) as [|Hne]; [done|]. apply K2 in Hne.
      unfold put, set_channels, set_store. cbn. by rewrite (insert_id _ _ _ Hne). }
    unfold Update, deref. cbn [store put set_store set_channels]. rewrite lookup_insert_eq, bind_val. unfold epoll_ctl.
    cbn [kernel put set_store set_channels fd_ c1 set_events set_index]. rewrite Hk. unfold registered, set_kernel, put, set_store, set_channels. cbn.
    by rewrite insert_insert_eq.
Qed.

(** Changes of a channel that the poller does not see. *)
Lemma put_inv w a c c' : inv w -> store w !! a = Some c -> fd_ c' = fd_ c -> index_ c' = index_ c -> loop_ c' = loop_ c ->
  events_ c' = events_ c -> (index_ c = kAdded -> event_mask c' = event_mask c) -> inv (put w a c').
Proof.
  intros H Ha Ef Ei El Ee Em. split; cbn.
  - intros b d. destruct (decide (b = a)) as [->|Hne].
    + rewrite lookup_insert_eq. intros [= <-]. destruct (iv_chan _ H a c Ha) as [K1 K2 K3 K4 K5].
      split; cbn; rewrite ?Ef, ?Ei, ?El, ?Ee; auto. intros Hk. rewrite (Em Hk). auto.
    + rewrite lookup_insert_ne by done. intros Hb. by destruct (iv_chan _ H b d Hb); split.
  - intros fd b Hb. destruct (iv_map _ H fd b Hb) as (d & Hd & E & Hn). destruct (decide (b = a)) as [->|Hne].
    + rewrite Ha in Hd. injection Hd as <-. exists c'. rewrite lookup_insert_eq, Ef, Ei. auto.
    + exists d. rewrite lookup_insert_ne by done. auto.
  - intros fd ev b Hb. destruct (iv_kernel _ H fd ev b Hb) as (d & Hd & E & Hi & Hm). destruct (decide (b = a)) as [->|Hne].
    + rewrite Ha in Hd. injection Hd as <-. exists c'. rewrite lookup_insert_eq, Ef, Ei, (Em Hi). auto.
    + exists d. rewrite lookup_insert_ne by done. auto.
Qed.

(** Memory without a registered channel. *)
Definition detached (w : world) (a : Z) : Prop := forall c, store w !! a = Some c -> index_ c = kNew.

Lemma detached_map w a : inv w -> detached w a ->
  (forall fd, channels_ w !! fd <> Some a) /\ (forall fd ev, kernel w !! fd <> Some (ev, a)).
Proof.
  intros H Ha. split.
  - intros fd Hf. destruct (iv_map _ H fd a Hf) as (c & Hc & _ & Hn). by apply Hn, Ha.
  - intros fd ev Hf. destruct (iv_kernel _ H fd ev a Hf) as (c & Hc & _ & Hi & _). rewrite (Ha c Hc) in Hi. discriminate.
Qed.

Lemma put_new_inv w a c : inv w -> detached w a -> index_ c = kNew -> events_ c = kNoneEvent -> inv (put w a c).
Proof.
  intros H Ha Hi He. destruct (detached_map w a H Ha) as [Hm Hk]. split; cbn.
  - intros b d. destruct (decide (b = a)) as [->|Hne].
    + rewrite lookup_insert_eq. intros [= <-]. split; cbn; rewrite ?Hi; auto; try done. split; [done|]. intros E. by destruct (Hm (fd_ c)).
    + rewrite lookup_insert_ne by done. intros Hb. by destruct (iv_chan _ H b d Hb); split.
  - intros fd b Hb. destruct (iv_map _ H fd b Hb) as (d & Hd & E & Hn). exists d. rewrite lookup_insert_ne; [auto|]. intros <-. by destruct (Hm fd).
  - intros fd ev b Hb. destruct (iv_kernel _ H fd ev b Hb) as (d & Hd & E). exists d. rewrite lookup_insert_ne; [auto|]. intros <-. by destruct (Hk fd ev).
Qed.

Definition free_channel (w : world) (a : Z) : world := set_store w (delete a (store w)).

Lemma free_inv w a : inv w -> detached w a -> inv (free_channel w a).
Proof.
  intros H Ha. destruct (detached_map w a H Ha) as [Hm Hk]. split; cbn.
  - intros b d [Hne Hb]%lookup_delete_Some. by destruct (iv_chan _ H b d Hb); split.
  - intros fd b Hb. destruct (iv_map _ H fd b Hb) as (d & Hd & E & Hn). exists d. rewrite lookup_delete_ne; [auto|]. intros <-. by destruct (Hm fd).
  - intros fd ev b Hb. destruct (iv_kernel _ H fd ev b Hb) as (d & Hd & E). exists d. rewrite lookup_delete_ne; [auto|]. intros <-. by destruct (Hk fd ev).
Qed.

(** Taking a channel out. *)
Definition unregistered (w : world) (a : Z) (c : Channel) : world :=
  mkWorld (<[a := set_index c kNew]> (store w)) (delete (fd_ c) (channels_ w)) (delete (fd_ c) (kernel w))
    (event_list_size w) (active_channels_ w).

Lemma Remove_ok w a c : inv w -> store w !! a = Some c -> index_ c <> kNew -> events_ c = kNoneEvent ->
  Remove w a = Val (unregistered w a c) /\ inv (unregistered w a c).
Proof.
  intros H Ha Hn He. pose proof (iv_chan _ H a c Ha) as [K1 K2 K3 K4 K5]. split.
  - unfold Remove, deref. rewrite Ha, bind_val, (K5 Hn). unfold IsNoneEvent. rewrite He, !check_true, !bind_val.
    unfold RemoveChannel, deref. rewrite Ha, bind_val. destruct (Z.eqb_spec (index_ c) kAdded) as [Ea|Ea].
    + unfold Update, deref. cbn [store set_channels]. rewrite Ha, bind_val. unfold epoll_ctl. cbn [kernel set_channels].
      rewrite (K3 Ea), bind_val. cbn [store set_kernel set_channels]. rewrite Ha. done.
    + rewrite bind_val. cbn [store set_channels]. rewrite Ha, bind_val. unfold unregistered, put, set_store. cbn. do 2 f_equal.
      symmetry. apply delete_id. by apply (kernel_free w a c).
  - pose proof (proj1 K2 Hn) as Hm. split; cbn.
    + intros b d. destruct (decide (b = a)) as [->|Hne].
      * rewrite lookup_insert_eq. intros [= <-]. split; cbn; auto; try done. split; [done|]. by rewrite lookup_delete_eq.
      * rewrite lookup_insert_ne by done. intros Hb. destruct (iv_chan _ H b d Hb) as [J1 J2 J3 J4 J5].
        assert (index_ d <> kNew -> fd_ c <> fd_ d) as Hfd by (intros Hd E; apply Hne; symmetry; by eapply inv_unique).
        split; cbn; auto.
        -- destruct (decide (fd_ c = fd_ d)) as [E|E]; [|by rewrite lookup_delete_ne]. rewrite E, lookup_delete_eq.
           split; [intros Hd; by destruct (Hfd Hd) | done].
        -- intros Hd. rewrite lookup_delete_ne; [auto|]. apply Hfd. rewrite Hd. discriminate.
    + intros fd b [Hne Hb]%lookup_delete_Some. destruct (iv_map _ H fd b Hb) as (d & Hd & E & Hdn). exists d.
      rewrite lookup_insert_ne; [auto|]. intros <-. rewrite Ha in Hd. injection Hd as <-. done.
    + intros fd ev b [Hne Hb]%lookup_delete_Some. destruct (iv_kernel _ H fd ev b Hb) as (d & Hd & E & Hdn). exists d.
      rewrite lookup_insert_ne; [auto|]. intros <-. rewrite Ha in Hd. injection Hd as <-. done.
Qed.

(** ** Sequences of operations *)

Inductive op :=
| ONew (a fd : Z)
| OMoveConstruct (dst src : Z)
| OMoveAssign (dst src : Z)
| OEnableReading (a : Z) | ODisableReading (a : Z) | OEnableWriting (a : Z) | ODisableWriting (a : Z) | ODisableAll (a : Z)
| ORemove (a : Z)
| OSetEdgeTriggered (a : Z) (et : bool)
| OSetCallbacks (a : Z) (r w c e : option Z)
| ODestroy (a : Z)
| OPoll (answer : list (Z * Z) + Z).

Definition do_op (w : world) (o : op) : outcome world :=
  match o with
  | ONew a fd => c ← new_Channel fd; Val (put w a c)
  | OMoveConstruct dst src => move_construct w dst src
  | OMoveAssign dst src => move_assign w dst src
  | OEnableReading a => EnableReading w a
  | ODisableReading a => DisableReading w a
  | OEnableWriting a => EnableWriting w a
  | ODisableWriting a => DisableWriting w a
  | ODisableAll a => DisableAll w a
  | ORemove a => Remove w a
  | OSetEdgeTriggered a et => c ← deref w a; Val (put w a (SetEdgeTriggered c et))
  | OSetCallbacks a r wr cl e => c ← deref w a; Val (put w a (SetCallbacks c r wr cl e))
  | ODestroy a => c ← deref w a; Val (free_channel w a)
  | OPoll answer => Poll (set_active w (event_list_size w) []) answer
  end.

(** A channel may be registered when no other one is registered for its descriptor. *)
Definition may_register (w : world) (a : Z) : Prop :=
  exists c, store w !! a = Some c /\ loop_ c = true /\ (index_ c = kNew -> channels_ w !! fd_ c = None).

(** What the owners of channels and the kernel promise. *)
Definition op_ok (w : world) (o : op) : Prop :=
  match o with
  | ONew a fd => store w !! a = None /\ 0 <= fd
  | OMoveConstruct dst src => store w !! dst = None /\ exists c, store w !! src = Some c /\ index_ c = kNew
  | OMoveAssign dst src => exists d c, store w !! dst = Some d /\ store w !! src = Some c /\ index_ d = kNew /\ index_ c = kNew
  | OEnableReading a | ODisableReading a | OEnableWriting a | ODisableWriting a | ODisableAll a => may_register w a
  | ORemove a => exists c, store w !! a = Some c /\ index_ c <> kNew /\ events_ c = kNoneEvent
  | OSetEdgeTriggered a _ => exists c, store w !! a = Some c /\ index_ c <> kAdded
  | OSetCallbacks a _ _ _ _ => is_Some (store w !! a)
  | ODestroy a => exists c, store w !! a = Some c /\ index_ c = kNew
  | OPoll (inl ready) => Forall (fun e => exists fd ev, kernel w !! fd = Some (ev, e.2)) ready
  | OPoll (inr error) => error = EINTR
  end.

(** ** Waiting *)

(** What Poll does to the channels: each ready one gets its translated events. *)
Fixpoint mark_ready (s : gmap Z Channel) (ready : list (Z * Z)) : gmap Z Channel :=
  match ready with
  | [] => s
  | (ev, a) :: ready => mark_ready (alter (fun c => SetRevents c (FromEpollEvents ev)) a s) ready
  end.

Lemma mark_ready_dom ready : forall s a, is_Some (mark_ready s ready !! a) <-> is_Some (s !! a).
Proof. induction ready as [|[ev b] ready IH]; intros s a; cbn; [done|]. rewrite IH. apply lookup_alter_is_Some. Qed.

Lemma active_inv w n l : inv w -> inv (set_active w n l).
Proof. intros [H1 H2 H3]. split; [|exact H2 | exact H3]. intros a c Hc. by destruct (H1 a c Hc); split. Qed.

Lemma alter_put w a c f : store w !! a = Some c -> alter f a (store w) = <[a := f c]> (store w).
Proof.
  intros Ha. apply map_eq. intros b. destruct (decide (b = a)) as [->|].
  - by rewrite lookup_alter_eq, lookup_insert_eq, Ha.
  - by rewrite lookup_alter_ne, lookup_insert_ne.
Qed.

Lemma Fill_ok (ready : list (Z * Z)) : forall w, inv w -> Forall (fun e => is_Some (store w !! e.2)) ready ->
  exists w', FillActiveChannels w ready = Val w' /\ inv w' /\
    w' = set_active (set_store w (mark_ready (store w) ready)) (event_list_size w) (active_channels_ w ++ ready.*2).
Proof.
  induction ready as [|[ev a] ready IH]; intros w H Hr; cbn [FillActiveChannels mark_ready fmap list_fmap].
  { exists w. rewrite app_nil_r. split; [done|]. split; [done|]. by destruct w. }
  apply Forall_cons in Hr as [[c Ha] Hr]. cbn in Ha. unfold deref. rewrite Ha, bind_val.
  set (c' := SetRevents c (FromEpollEvents ev)).
  assert (inv (put w a c')) as H1 by (by apply (put_inv w a c)).
  destruct (IH (set_active (put w a c') (event_list_size w) (active_channels_ w ++ [a]))) as (w' & E & Hw' & Ew').
  - by apply active_inv.
  - eapply Forall_impl; [exact Hr|]. cbn. intros [ev' b] Hb. cbn in *. destruct (decide (b = a)) as [->|]; [rewrite lookup_insert_eq; eauto | by rewrite lookup_insert_ne].
  - exists w'. split; [exact E|]. split; [done|]. rewrite Ew'. unfold set_active, set_store, put. cbn.
    by rewrite <- app_assoc, (alter_put w a c _ Ha).
Qed.

Lemma ready_alive w (ready : list (Z * Z)) : inv w -> Forall (fun e => exists fd ev, kernel w !! fd = Some (ev, e.2)) ready ->
  Forall (fun e => is_Some (store w !! e.2)) ready.
Proof.
  intros H Hr. eapply Forall_impl; [exact Hr|]. cbn. intros [ev a] (fd & ev' & Hk). destruct (iv_kernel _ H _ _ _ Hk) as (c & Hc & _). eauto.
Qed.

Lemma Poll_ok w (ready : list (Z * Z)) : inv w -> Forall (fun e => exists fd ev, kernel w !! fd = Some (ev, e.2)) ready ->
  exists w' n, Poll (set_active w (event_list_size w) []) (inl ready) = Val w' /\ inv w' /\
    w' = set_active (set_store w (mark_ready (store w) ready)) n (ready.*2).
Proof.
  intros H Hr. pose proof (ready_alive w ready H Hr) as Hs.
  destruct (Fill_ok ready (set_active w (event_list_size w) []) (active_inv _ _ _ H) Hs) as (w1 & E & H1 & E1).
  unfold Poll. destruct (Z.ltb_spec 0 (Z.of_nat (length ready))) as [Hl|Hl].
  - rewrite E, bind_val. destruct (_ =? _).
    + eexists _, _. split; [reflexivity|]. split; [by apply active_inv|]. by rewrite E1.
    + eexists _, _. split; [reflexivity|]. split; [done|]. by rewrite E1.
  - destruct ready; [|cbn in Hl; lia]. eexists _, _. split; [reflexivity|]. split; [by apply active_inv|]. by destruct w.
Qed.

(** ** Every operation keeps the invariant *)

Lemma change_ok w a f : inv w -> may_register w a -> exists w', change_events w a f = Val w' /\ inv w'.
Proof. intros H (c & Ha & Hl & Hn). destruct (change_events_ok w a c f H Ha Hl Hn) as (i & E & H' & _). eauto. Qed.

Lemma moved_inv w dst src c : inv w -> detached w dst -> dst <> src -> store w !! src = Some c -> index_ c = kNew ->
  inv (put (put w dst c) src moved_from).
Proof.
  intros H Hd Hne Hs Hi. pose proof (ck_events _ _ _ (iv_chan _ H src c Hs)) as He. rewrite Hi in He.
  apply put_new_inv; [|intros d|done|done].
  - apply put_new_inv; auto.
  - cbn. rewrite lookup_insert_ne by done. rewrite Hs. by intros [= <-].
Qed.

Lemma do_op_ok w o : inv w -> op_ok w o -> exists w', do_op w o = Val w' /\ inv w'.
Proof.
  intros H Ho. destruct o as [a fd|dst src|dst src|a|a|a|a|a|a|a et|a r wr cl e|a|[ready|error]]; cbn [do_op op_ok] in *;
    try (by apply change_ok).
  - destruct Ho as [Ha Hf]. unfold new_Channel. rewrite (proj2 (Z.leb_le 0 fd)), check_true, !bind_val by done.
    eexists. split; [reflexivity|]. apply put_new_inv; try done. intros c Hc. congruence.
  - destruct Ho as (Hd & c & Hs & Hi). unfold move_construct, deref. rewrite Hs, bind_val, Hi. eexists. split; [reflexivity|].
    apply moved_inv; auto; [intros d Hd'|]; congruence.
  - destruct Ho as (d & c & Hd & Hs & Hi & Hj). unfold move_assign, deref. destruct (Z.eqb_spec dst src); [eauto|].
    rewrite Hd, Hs, !bind_val, Hi, Hj. eexists. split; [reflexivity|]. apply moved_inv; auto. intros d' Hd'. congruence.
  - destruct Ho as (c & Ha & Hn & He). destruct (Remove_ok w a c H Ha Hn He). eauto.
  - destruct Ho as (c & Ha & Hn). unfold deref. rewrite Ha, bind_val. eexists. split; [reflexivity|]. by apply (put_inv w a c).
  - destruct Ho as [c Ha]. unfold deref. rewrite Ha, bind_val. eexists. split; [reflexivity|]. by apply (put_inv w a c).
  - destruct Ho as (c & Ha & Hn). unfold deref. rewrite Ha, bind_val. eexists. split; [reflexivity|]. apply free_inv; [done|].
    intros c' Hc'. congruence.
  - destruct (Poll_ok w ready H Ho) as (w' & n & E & H' & _). eauto.
  - subst error. eexists. split; [reflexivity|]. by apply active_inv.
Qed.

Fixpoint run (w : world) (os : list op) : outcome world :=
  match os with [] => Val w | o :: os => w ← do_op w o; run w os end.

Fixpoint run_ok (w : world) (os : list op) : Prop :=
  match os with [] => True | o :: os => op_ok w o /\ forall w', do_op w o = Val w' -> run_ok w' os end.

Lemma poller_run_inv os : forall w, inv w -> run_ok w os -> exists w', run w os = Val w' /\ inv w'.
Proof.
  induction os as [|o os IH]; intros w H Hok; cbn [run run_ok] in *; [eauto|]. destruct Hok as [Ho Hos].
  destruct (do_op_ok w o H Ho) as (w1 & E & H1). rewrite E, bind_val. auto.
Qed.


(** ** Dispatch *)

(** The callbacks the events of a channel ask for, in their order. *)
Definition due (c : Channel) : list Z :=
  let if_set (b : bool) (f : option Z) := if b then option_list f else [] in
  if_set (has (revents_ c) kHupEvent && negb (has (revents_ c) kReadEvent)) (close_callback_ c) ++
  if_set (has (revents_ c) kErrorEvent) (error_callback_ c) ++
  if_set (has (revents_ c) kReadEvent) (read_callback_ c) ++
  if_set (has (revents_ c) kWriteEvent) (write_callback_ c).

(** A callback that leaves channel [c] at [a] allocated, with its events and callbacks. *)
Definition same_dispatch (c d : Channel) : Prop :=
  revents_ d = revents_ c /\ read_callback_ d = read_callback_ c /\ write_callback_ d = write_callback_ c /\
  close_callback_ d = close_callback_ c /\ error_callback_ d = error_callback_ c.

Section order.
Context (invoke : world -> Z -> outcome world).

(** Runs a callback and writes it down. *)
Definition logged (s : world * list Z) (f : Z) : outcome (world * list Z) :=
  w ← invoke s.1 f; Val (w, s.2 ++ [f]).

(** Callbacks neither abort nor free, move or rebind the channels of [batch]. *)
Definition keeps (batch : list Z) : Prop := forall w f, exists w', invoke w f = Val w' /\
  forall a c, a ∈ batch -> store w !! a = Some c -> exists d, store w' !! a = Some d /\ same_dispatch c d.

Lemma same_trans c d e : same_dispatch c d -> same_dispatch d e -> same_dispatch c e.
Proof. unfold same_dispatch. intros (-> & -> & -> & -> & ->) (-> & -> & -> & -> & ->). done. Qed.

(** The channels of the batch, in this state. *)
Definition batch_at (batch : list Z) (s0 : gmap Z Channel) (s : world * list Z) : Prop :=
  forall a c, a ∈ batch -> s0 !! a = Some c -> exists d, store s.1 !! a = Some d /\ same_dispatch c d.

Lemma invoke_if_ok batch s0 s a c (cond : Channel -> bool) (cb : Channel -> option Z) (l : list Z) : keeps batch -> batch_at batch s0 s -> a ∈ batch -> s0 !! a = Some c ->
  (forall d, same_dispatch c d -> (if cond d then option_list (cb d) else []) = l) ->
  exists w, invoke_if fst logged s a cond cb = Val (w, s.2 ++ l) /\ batch_at batch s0 (w, s.2 ++ l).
Proof.
  intros Hk Hb Ha Hc Hl. destruct (Hb a c Ha Hc) as (d & Hd & Hs). specialize (Hl d Hs). unfold invoke_if, deref. rewrite Hd, bind_val.
  destruct (cond d); [destruct (cb d) as [f|]|]; subst l; cbn [option_list].
  - unfold logged. destruct (Hk s.1 f) as (w' & -> & Hw). rewrite bind_val. exists w'. split; [done|].
    intros a' c' Ha' Hc'. destruct (Hb a' c' Ha' Hc') as (d' & Hd' & Hs'). destruct (Hw a' d' Ha' Hd') as (e & He & Hse).
    exists e. split; [done | by eapply same_trans].
  - rewrite app_nil_r. exists s.1. by destruct s.
  - rewrite app_nil_r. exists s.1. by destruct s.
Qed.

Lemma handle_event_ok batch s0 s a c : keeps batch -> batch_at batch s0 s -> a ∈ batch -> s0 !! a = Some c ->
  exists w, HandleEventUnchecked fst logged s a = Val (w, s.2 ++ due c) /\ batch_at batch s0 (w, s.2 ++ due c).
Proof.
  intros Hk Hb Ha Hc. unfold HandleEventUnchecked, due.
  match goal with |- context [invoke_if _ _ ?s' a ?cond ?cb] => edestruct (invoke_if_ok batch s0 s' a c cond cb) as (w1 & -> & H1) end;
    [done | exact Hb | done | done | intros d (E1 & E2 & E3 & E4 & E5); rewrite E1, E4; reflexivity |]. rewrite bind_val.
  match goal with |- context [invoke_if _ _ ?s' a ?cond ?cb] => edestruct (invoke_if_ok batch s0 s' a c cond cb) as (w2 & -> & H2) end;
    [done | exact H1 | done | done | intros d (E1 & E2 & E3 & E4 & E5); rewrite E1, E5; reflexivity |]. rewrite bind_val.
  match goal with |- context [invoke_if _ _ ?s' a ?cond ?cb] => edestruct (invoke_if_ok batch s0 s' a c cond cb) as (w3 & -> & H3) end;
    [done | exact H2 | done | done | intros d (E1 & E2 & E3 & E4 & E5); rewrite E1, E2; reflexivity |]. rewrite bind_val.
  match goal with |- context [invoke_if _ _ ?s' a ?cond ?cb] => edestruct (invoke_if_ok batch s0 s' a c cond cb) as (w4 & -> & H4) end;
    [done | exact H3 | done | done | intros d (E1 & E2 & E3 & E4 & E5); rewrite E1, E3; reflexivity |].
  exists w4. cbn in *. rewrite <- !app_assoc in *. done.
Qed.

Lemma handle_active_ok batch s0 l : keeps batch -> forall s, batch_at batch s0 s -> (forall a, a ∈ l -> a ∈ batch /\ is_Some (s0 !! a)) ->
  exists w, handle_active fst logged s l = Val (w, s.2 ++ flat_map (fun a => from_option due [] (s0 !! a)) l).
Proof.
  intros Hk. induction l as [|a l IH]; intros s Hb Hl; cbn [handle_active flat_map].
  { rewrite app_nil_r. by destruct s; eexists. }
  destruct (Hl a ltac:(left)) as [Ha [c Hc]]. destruct (handle_event_ok batch s0 s a c Hk Hb Ha Hc) as (w & -> & Hw). rewrite bind_val, Hc.
  destruct (IH _ Hw) as (w' & ->); [intros b Hin; apply Hl; by right|]. exists w'. cbn. by rewrite <- app_assoc.
Qed.

End order.

(** The end of an owner such as a stream: its channel is detached and its memory
    goes away. *)
Definition destroy_owner (w : world) (a : Z) : outcome world :=
  w ← DisableAll w a; w ← Remove w a; Val (free_channel w a).

Lemma destroy_ok w a c : inv w -> store w !! a = Some c -> index_ c = kAdded ->
  exists w', destroy_owner w a = Val w' /\ store w' !! a = None /\ forall b, b <> a -> store w' !! b = store w !! b.
Proof.
  intros H Ha Hi. pose proof (iv_chan _ H a c Ha) as [_ _ _ _ Hl].
  assert (index_ c <> kNew) as Hn by (rewrite Hi; discriminate).
  destruct (change_events_ok w a c (fun _ => kNoneEvent) H Ha (Hl Hn) ltac:(done)) as (i & E & H1 & Hn').
  unfold destroy_owner, DisableAll. rewrite E, bind_val. set (c' := set_index _ i) in *.
  assert (store (registered w a (fd_ c) c') !! a = Some c') as Ha' by apply lookup_insert_eq.
  destruct (Remove_ok _ a c' H1 Ha' Hn' eq_refl) as [-> _]. rewrite bind_val. eexists. split; [reflexivity|]. cbn. split.
  - by rewrite lookup_delete_eq.
  - intros b Hne. by rewrite lookup_delete_ne, !lookup_insert_ne by done.
Qed.

(** The callback [f] destroys the owner of channel [b]; the others do nothing. *)
Definition destroying (f b : Z) (w : world) (g : Z) : outcome world := if g =? f then destroy_owner w b else Val w.

Lemma has_lor x f g : has x (Z.lor f g) = has x f || has x g.
Proof.
  unfold has. rewrite Z.land_lor_distr_r. destruct (Z.eqb_spec (Z.land x f) 0) as [->|Hf]; cbn [negb orb]; [by rewrite Z.lor_0_l|].
  destruct (Z.eqb_spec (Z.lor (Z.land x f) (Z.land x g)) 0) as [E|]; [|done]. by apply Z.lor_eq_0_iff in E as [? _].
Qed.

Lemma From_read ev : has ev EPOLLIN = true -> has (FromEpollEvents ev) kReadEvent = true.
Proof.
  intros H. unfold FromEpollEvents. rewrite (has_lor ev EPOLLIN), H. cbn [orb].
  by destruct (has ev EPOLLOUT), (has ev EPOLLERR), (has ev (Z.lor EPOLLHUP EPOLLRDHUP)).
Qed.

Lemma From_error ev : has (FromEpollEvents ev) kErrorEvent = has ev EPOLLERR.
Proof.
  unfold FromEpollEvents.
  by destruct (has ev (Z.lor EPOLLIN EPOLLPRI)), (has ev EPOLLOUT), (has ev EPOLLERR), (has ev (Z.lor EPOLLHUP EPOLLRDHUP)).
Qed.

Lemma wanted_registered w a c : inv w -> store w !! a = Some c -> events_ c <> kNoneEvent ->
  index_ c = kAdded /\ kernel w !! fd_ c = Some (event_mask c, a).
Proof.
  intros H Ha He. destruct (iv_chan _ H a c Ha) as [K1 K2 K3 K4 K5].
  destruct (Z.eq_dec (index_ c) kAdded) as [Hi|Hn]; [auto | by destruct (He (K4 Hn))].
Qed.

Lemma invoke_if_eq invoke w a c cond cb : store w !! a = Some c ->
  invoke_if id invoke w a cond cb = if cond c then match cb c with Some f => invoke w f | None => Val w end else Val w.
Proof. intros Ha. unfold invoke_if, deref, id. by rewrite Ha. Qed.

(** A readable channel whose read callback destroys the owner of [b]. *)
Lemma handle_destroying w a b ca f : store w !! a = Some ca -> has (revents_ ca) kReadEvent = true -> has (revents_ ca) kErrorEvent = false ->
  read_callback_ ca = Some f -> HandleEventUnchecked id (destroying f b) w a =
    w ← destroy_owner w b; invoke_if id (destroying f b) w a (fun c => has (revents_ c) kWriteEvent) write_callback_.
Proof.
  intros Ha Hr He Hf. unfold HandleEventUnchecked. rewrite (invoke_if_eq _ w a ca _ close_callback_ Ha), Hr, andb_false_r, bind_val.
  rewrite (invoke_if_eq _ w a ca _ error_callback_ Ha), He, bind_val.
  rewrite (invoke_if_eq _ w a ca _ read_callback_ Ha), Hr, Hf.
  change (destroying f b w f) with (if f =? f then destroy_owner w b else Val w). by rewrite Z.eqb_refl.
Qed.

Lemma dangling w a b ca cb f ea eb : inv w -> a <> b -> store w !! a = Some ca -> store w !! b = Some cb ->
  events_ ca <> kNoneEvent -> events_ cb <> kNoneEvent -> read_callback_ ca = Some f -> has ea EPOLLIN = true -> has ea EPOLLERR = false ->
  poll_round (destroying f b) w (inl [(ea, a); (eb, b)]) = Panic.
Proof.
  intros H Hne Ha Hb Ea Eb Hf Hr He.
  destruct (wanted_registered w a ca H Ha Ea) as [Ia Ka]. destruct (wanted_registered w b cb H Hb Eb) as [Ib Kb].
  destruct (Poll_ok w [(ea, a); (eb, b)] H) as (w1 & n & E1 & H1 & Ew1); [repeat constructor; eauto|].
  unfold poll_round. rewrite E1, bind_val.
  assert (store w1 !! a = Some (SetRevents ca (FromEpollEvents ea))) as Ha1.
  { rewrite Ew1. cbn. by rewrite lookup_alter_ne, lookup_alter_eq, Ha by done. }
  assert (store w1 !! b = Some (SetRevents cb (FromEpollEvents eb))) as Hb1.
  { rewrite Ew1. cbn. by rewrite lookup_alter_eq, lookup_alter_ne, Hb by done. }
  replace (active_channels_ w1) with [a; b] by (by rewrite Ew1). cbn [handle_active].
  rewrite (handle_destroying w1 a b _ f Ha1 (From_read _ Hr) ltac:(cbn; by rewrite From_error) Hf).
  destruct (destroy_ok w1 b _ H1 Hb1 Ib) as (w2 & -> & Hgone & Hother). rewrite bind_val.
  rewrite (invoke_if_eq _ w2 a _ _ _ (eq_trans (Hother a Hne) Ha1)).
  assert (forall w, store w !! b = None -> HandleEventUnchecked id (destroying f b) w b = Panic) as Hpanic.
  { intros w' E. unfold HandleEventUnchecked, invoke_if, deref, id. by rewrite E. }
  destruct (has _ kWriteEvent); [destruct (write_callback_ _) as [g|]|]; rewrite ?bind_val, ?Hpanic; auto.
  change (destroying f b w2 g) with (if g =? f then destroy_owner w2 b else Val w2). destruct (g =? f); rewrite ?bind_val, ?Hpanic; auto.
  unfold destroy_owner, DisableAll, change_events, deref. by rewrite Hgone.
Qed.

(** C25. Dispatch of one wait. As long as callbacks keep the channels of the
    batch alive, the loop runs exactly the callbacks the reported events ask for,
    channel by channel in the reported order and close, error, read, write within a
    channel. The batch is a list of raw pointers, however: when the read callback
    of one channel (a timer or posted callback of the user, say) ends the owner of
    another channel of the same batch in the prescribed way, interest disabled and
    channel removed first, the loop goes on to that freed channel. *)
Theorem dispatch_order_and_dangling_channels (os : list op) (w : world) :
  run_ok new_world os -> run new_world os = Val w ->
  (forall invoke (ready : list (Z * Z)), keeps invoke ready.*2 ->
     Forall (fun e => exists fd ev, kernel w !! fd = Some (ev, e.2)) ready ->
     let s := mark_ready (store w) ready in
     exists w1 w2, Poll (set_active w (event_list_size w) []) (inl ready) = Val w1 /\
       handle_active fst (logged invoke) (w1, []) (active_channels_ w1) =
         Val (w2, flat_map (fun a => from_option due [] (s !! a)) ready.*2)) /\
  (forall a b ca cb f ea eb, a <> b -> store w !! a = Some ca -> store w !! b = Some cb ->
     events_ ca <> kNoneEvent -> events_ cb <> kNoneEvent -> read_callback_ ca = Some f -> has ea EPOLLIN = true -> has ea EPOLLERR = false ->
     no_panic (destroy_owner w b) /\
     poll_round (destroying f b) w (inl [(ea, a); (eb, b)]) = Panic).
Proof.
  intros Hok Hrun. destruct (poller_run_inv os new_world inv_new Hok) as (w' & E & H). rewrite Hrun in E. injection E as <-. split.
  - intros invoke ready Hk Hr s. destruct (Poll_ok w ready H Hr) as (w1 & n & E & _ & Ew). exists w1.
    destruct (handle_active_ok invoke ready.*2 s ready.*2 Hk (w1, [])) as (w2 & E2).
    + intros a c _ Hc. exists c. split; [by rewrite Ew | done].
    + intros a Ha. split; [done|]. apply mark_ready_dom. apply list_elem_of_fmap in Ha as ([ev b] & -> & Hin).
      by apply (proj1 (Forall_forall _ _) (ready_alive w ready H Hr) _ Hin).
    + exists w2. split; [exact E|]. rewrite Ew at 2. exact E2.
  - intros a b ca cb f ea eb Hne Ha Hb Ea Eb Hf Hr He. split; [|by eapply dangling].
    destruct (wanted_registered w b cb H Hb Eb) as [Ib _]. destruct (destroy_ok w b cb H Hb Ib) as (w' & E & _). by exists w'.
Qed.

(** ** Examples *)

(** A timer channel, a stream channel that is paused and resumed, moved while it is
    detached, and a third one that is destroyed. *)
Definition example_ops : list op :=
  [ONew 100 3; OSetCallbacks 100 (Some 7) None None None; OEnableReading 100;
   ONew 200 4; OSetEdgeTriggered 200 true; OEnableReading 200; OEnableWriting 200; ODisableAll 200; ORemove 200;
   OMoveConstruct 300 200; ODestroy 200; OEnableReading 300; ODisableReading 300; OEnableWriting 300;
   OPoll (inl [(EPOLLOUT, 300)]); OPoll (inr EINTR)].

Lemma poller_run_ok_cons w o os : op_ok w o -> (forall w', do_op w o = Val w' -> run_ok w' os) -> run_ok w (o :: os).
Proof. by split. Qed.

Lemma example_ops_ok : run_ok new_world example_ops.
Proof.
  unfold example_ops.
  repeat (apply poller_run_ok_cons; [cbn [op_ok]; unfold may_register | let w := fresh in let E := fresh in intros w E; vm_compute in E; injection E as <-]);
    repeat match goal with
    | |- _ /\ _ => split
    | |- exists c, _ /\ _ => eexists; split; [vm_compute; reflexivity|]
    | |- is_Some _ => eexists; vm_compute; reflexivity
    | |- Forall _ _ => repeat constructor; exists 4; eexists; vm_compute; reflexivity
    | |- _ = _ -> _ => first [let E := fresh in intros E; vm_compute in E; discriminate E | intros _]
    | |- _ <> _ => discriminate
    | |- _ <= _ => lia
    | |- _ = _ => vm_compute; reflexivity
    | |- run_ok _ [] => exact I
    end.
Qed.

Definition example_world : world := match run new_world example_ops with Val w => w | Panic => new_world end.


Lemma dispatch_order_and_dangling_channels_witness :
  poll_round (destroying 7 300) example_world (inl [(EPOLLIN, 100); (EPOLLOUT, 300)]) = Panic.
Proof.
  eapply (dispatch_order_and_dangling_channels example_ops example_world example_ops_ok); try (vm_compute; reflexivity); vm_compute; discriminate.
Defined.

End EpollPollerProps.
