(* ===== verification/EpollStream.v ===== *)
(** * The epoll stream (src/epoll/stream.cc, include/alyrn/epoll/stream.h)

    One stream with its channel in the poller's world, its read and write awaiters
    by address, and the loop it lives on: state, queue of scheduled continuations,
    timers and clock. What the socket answers to recv, recvmsg and send, whether
    memory for a timer or a buffer is found, and the pending socket error are inputs.
    Bytes the socket took and handed out are recorded. A suspended operation resumes
    when the loop takes its work from the queue. *)

From Stdlib Require Import Strings.Byte.
From S2P Require Import Prelude Lifecycles ResultCells StreamLifecycle Buffer BufferProofs UringLoop EpollPoller.

Module EpollStream.

Import UringLoop(LoopState, kCreated, kRunning, kStopping, kStopped).
Import EpollPoller(TriggerMode, kEdgeTriggered, kLevelTriggered).

Definition EINTR : Z := 4.
Definition ETIMEDOUT : Z := 110.
Definition kRecvMaxIov : nat := 16.
Definition kIovMax : nat := 1024.
Definition kInvalidTimer : Z := -1.
Definition uint64 (z : Z) : Z := z mod 2 ^ 64.

(** ** Non-blocking I/O *)

Inductive recv_answer := RecvData (bytes : list byte) | RecvErrno (error : Z).
Inductive send_answer := SendCount (n : nat) | SendErrno (error : Z).

Inductive IoAttempt := Completed (result : ResultE N) | WouldBlock.

Definition IsWouldBlock (error : Z) : bool := error =? EAGAIN.

(** recv or recvmsg with room for [room] bytes, retried while interrupted: the
    attempt, the bytes stored, and what the socket still has. *)
Fixpoint TryRecv (room : nat) (answers : list recv_answer) : IoAttempt * list byte * list recv_answer :=
  match answers with
  | [] => (WouldBlock, [], [])
  | RecvData bytes :: rest =>
      let got := take room bytes in
      (Completed (Ok (N.of_nat (length got))), got,
       if (room <? length bytes)%nat then RecvData (drop room bytes) :: rest else rest)
  | RecvErrno error :: rest =>
      if error =? EINTR then TryRecv room rest
      else if IsWouldBlock error then (WouldBlock, [], rest)
      else (Completed (Err (Errno error)), [], rest)
  end.

Definition CheckedIovCount (count : nat) : ResultE nat :=
  if (kIovMax <? count)%nat then Err (Errno EINVAL) else Ok count.

Definition TryReadv (iovs : list Buffer.iovec) (answers : list recv_answer) : IoAttempt * list byte * list recv_answer :=
  match iovs with
  | [] => (Completed (Ok 0%N), [], answers)
  | _ =>
      match CheckedIovCount (length iovs) with
      | Err e => (Completed (Err e), [], answers)
      | Ok _ => TryRecv (Buffer.iov_total iovs) answers
      end
  end.

(** send of [bytes]: the attempt and the remaining answers. *)
Fixpoint TryWrite (bytes : list byte) (answers : list send_answer) : IoAttempt * list send_answer :=
  match answers with
  | [] => (WouldBlock, [])
  | SendCount n :: rest => (Completed (Ok (N.of_nat (Nat.min n (length bytes)))), rest)
  | SendErrno error :: rest =>
      if error =? EINTR then TryWrite bytes rest
      else if IsWouldBlock error then (WouldBlock, rest)
      else (Completed (Err (Errno error)), rest)
  end.

(** SO_ERROR after an error event: the answer of getsockopt. *)
Definition ErrorFromSocketErrorEvent (answer : Z + Z) : Error :=
  match answer with
  | inl errno => Errno errno
  | inr err => Errno (if err =? 0 then EIO else err)
  end.

(** ** State *)

Inductive PendingReadKind := kNone | kRead | kRecv | kRecvCopy.

#[global] Instance PendingReadKind_eq_dec : EqDecision PendingReadKind.
Proof. solve_decision. Defined.

(** ReadAwaiter, RecvAwaiter and RecvCopyAwaiter over ReadAwaiterState. *)
Record Reader := mkReader {
  r_kind : PendingReadKind;
  r_stream : bool;                            (* stream_ != nullptr *)
  r_continuation : option Z;
  r_lifecycle : SingleResultLifecycle.t;
  r_result : IoResultState.t;
  r_span : nat;                               (* size of the borrowed buffer *)
  r_data : list byte;                         (* what the last attempt stored *)
  r_buffer : Buffer.t;                        (* the owned buffer *)
  r_reserve : nat;
  r_reservation_active : bool;
  r_initial : Buffer.t;                       (* the buffer handed in; never read *)
}.

Record Writer := mkWriter {
  w_stream : bool;
  w_continuation : option Z;
  w_lifecycle : SingleResultLifecycle.t;
  w_result : IoResultState.t;
  w_buffer : list byte;                       (* what is left to send *)
  w_total : list byte;                        (* the whole buffer; never read *)
}.

Record Stream := mkStream {
  s_loop : bool;
  s_socket : Z;
  s_channel : Z;                              (* address of the channel *)
  s_pending_read : Z;
  s_pending_read_kind : PendingReadKind;
  s_pending_write : Z;
  s_read_deadline : option Z;
  s_write_deadline : option Z;
  s_read_timer : Z;
  s_write_timer : Z;
  s_read_generation : Z;
  s_write_generation : Z;
  s_lifecycle : StreamLifecycle.t;
  s_participant : bool;                       (* registered for the stop of the loop *)
}.

(** The loop: work is a reader ([true]) or a writer at its address; a timer has its
    deadline, its direction and the generation its callback was given. *)
Record Loop := mkLoop {
  l_state : LoopState;
  l_work : list (bool * Z);
  l_timers : gmap Z (Z * bool * Z);
  l_next_timer : Z;
  l_now : Z;
  l_room : list bool;                         (* is there memory for the next timer? *)
}.

Record Socket := mkSocket {
  k_recv : list recv_answer;
  k_send : list send_answer;
  k_received : list byte;                     (* bytes handed out *)
  k_sent : list byte;                         (* bytes taken *)
}.

Record world := mkWorld {
  st : Stream;
  poller : EpollPoller.world;
  readers : gmap Z Reader;
  writers : gmap Z Writer;
  lp : Loop;
  sock : Socket;
}.

Definition set_st (w : world) (s : Stream) : world := mkWorld s (poller w) (readers w) (writers w) (lp w) (sock w).
Definition set_poller (w : world) (p : EpollPoller.world) : world := mkWorld (st w) p (readers w) (writers w) (lp w) (sock w).
Definition set_readers (w : world) (m : gmap Z Reader) : world := mkWorld (st w) (poller w) m (writers w) (lp w) (sock w).
Definition set_writers (w : world) (m : gmap Z Writer) : world := mkWorld (st w) (poller w) (readers w) m (lp w) (sock w).
Definition set_lp (w : world) (l : Loop) : world := mkWorld (st w) (poller w) (readers w) (writers w) l (sock w).
Definition set_sock (w : world) (k : Socket) : world := mkWorld (st w) (poller w) (readers w) (writers w) (lp w) k.

Definition nullptr : Z := 0.

Definition get_reader (w : world) (a : Z) : outcome Reader := match readers w !! a with Some r => Val r | None => Panic end.
Definition put_reader (w : world) (a : Z) (r : Reader) : world := set_readers w (<[a := r]> (readers w)).
Definition get_writer (w : world) (a : Z) : outcome Writer := match writers w !! a with Some x => Val x | None => Panic end.
Definition put_writer (w : world) (a : Z) (x : Writer) : world := set_writers w (<[a := x]> (writers w)).

Definition set_read_slot (s : Stream) (a : Z) (k : PendingReadKind) : Stream :=
  mkStream (s_loop s) (s_socket s) (s_channel s) a k (s_pending_write s) (s_read_deadline s) (s_write_deadline s)
    (s_read_timer s) (s_write_timer s) (s_read_generation s) (s_write_generation s) (s_lifecycle s) (s_participant s).
Definition set_write_slot (s : Stream) (a : Z) : Stream :=
  mkStream (s_loop s) (s_socket s) (s_channel s) (s_pending_read s) (s_pending_read_kind s) a (s_read_deadline s) (s_write_deadline s)
    (s_read_timer s) (s_write_timer s) (s_read_generation s) (s_write_generation s) (s_lifecycle s) (s_participant s).
Definition set_timer (dir : bool) (s : Stream) (timer generation : Z) : Stream :=
  if dir then
    mkStream (s_loop s) (s_socket s) (s_channel s) (s_pending_read s) (s_pending_read_kind s) (s_pending_write s) (s_read_deadline s)
      (s_write_deadline s) timer (s_write_timer s) generation (s_write_generation s) (s_lifecycle s) (s_participant s)
  else
    mkStream (s_loop s) (s_socket s) (s_channel s) (s_pending_read s) (s_pending_read_kind s) (s_pending_write s) (s_read_deadline s)
      (s_write_deadline s) (s_read_timer s) timer (s_read_generation s) generation (s_lifecycle s) (s_participant s).
Definition set_deadline (dir : bool) (s : Stream) (d : option Z) : Stream :=
  if dir then
    mkStream (s_loop s) (s_socket s) (s_channel s) (s_pending_read s) (s_pending_read_kind s) (s_pending_write s) d
      (s_write_deadline s) (s_read_timer s) (s_write_timer s) (s_read_generation s) (s_write_generation s) (s_lifecycle s) (s_participant s)
  else
    mkStream (s_loop s) (s_socket s) (s_channel s) (s_pending_read s) (s_pending_read_kind s) (s_pending_write s) (s_read_deadline s)
      d (s_read_timer s) (s_write_timer s) (s_read_generation s) (s_write_generation s) (s_lifecycle s) (s_participant s).
Definition set_life (s : Stream) (l : StreamLifecycle.t) : Stream :=
  mkStream (s_loop s) (s_socket s) (s_channel s) (s_pending_read s) (s_pending_read_kind s) (s_pending_write s) (s_read_deadline s)
    (s_write_deadline s) (s_read_timer s) (s_write_timer s) (s_read_generation s) (s_write_generation s) l (s_participant s).
Definition set_socket (s : Stream) (fd : Z) : Stream :=
  mkStream (s_loop s) fd (s_channel s) (s_pending_read s) (s_pending_read_kind s) (s_pending_write s) (s_read_deadline s)
    (s_write_deadline s) (s_read_timer s) (s_write_timer s) (s_read_generation s) (s_write_generation s) (s_lifecycle s) (s_participant s).

Definition timer_of (dir : bool) (s : Stream) : Z := if dir then s_read_timer s else s_write_timer s.
Definition generation_of (dir : bool) (s : Stream) : Z := if dir then s_read_generation s else s_write_generation s.
Definition deadline_of (dir : bool) (s : Stream) : option Z := if dir then s_read_deadline s else s_write_deadline s.
Definition pending_of (dir : bool) (s : Stream) : Z := if dir then s_pending_read s else s_pending_write s.

(** ** The loop's services *)

(** RunAt; [None] when memory runs out. *)
Definition RunAt (l : Loop) (deadline : Z) (dir : bool) (generation : Z) : option (Loop * Z) :=
  match l_room l with
  | false :: _ => None
  | _ =>
      Some (mkLoop (l_state l) (l_work l) (<[l_next_timer l := (deadline, dir, generation)]> (l_timers l)) (l_next_timer l + 1)
              (l_now l) (tail (l_room l)), l_next_timer l)
  end.

Definition Cancel (l : Loop) (id : Z) : Loop :=
  mkLoop (l_state l) (l_work l) (delete id (l_timers l)) (l_next_timer l) (l_now l) (l_room l).

(** Loop::Schedule *)
Definition Schedule (w : world) (work : bool * Z) : outcome world :=
  ALYRN_CHECK (bool_decide (work ∉ l_work (lp w)));;
  let l := lp w in
  Val (set_lp w (mkLoop (l_state l) (l_work l ++ [work]) (l_timers l) (l_next_timer l) (l_now l) (l_room l))).

(** SchedulerContinuation, on the loop's own thread. *)
Definition Bind (continuation : option Z) (handle : Z) : outcome (option Z) :=
  ALYRN_CHECK (bool_decide (continuation = None));;
  ALYRN_CHECK (negb (handle =? nullptr));;
  Val (Some handle).

(** The channel's interest, through its operations. *)
Definition channel (w : world) : outcome EpollPoller.Channel := EpollPoller.deref (poller w) (s_channel (st w)).
Definition channel_do (w : world) (f : EpollPoller.world -> Z -> outcome EpollPoller.world) : outcome world :=
  p ← f (poller w) (s_channel (st w)); Val (set_poller w p).
Definition disable_reading (w : world) : outcome world :=
  c ← channel w; if EpollPoller.IsReading c then channel_do w EpollPoller.DisableReading else Val w.
Definition disable_writing (w : world) : outcome world :=
  c ← channel w; if EpollPoller.IsWriting c then channel_do w EpollPoller.DisableWriting else Val w.

(** CancelReadDeadline, CancelWriteDeadline *)
Definition CancelDeadline (dir : bool) (w : world) : world :=
  let s := st w in
  let timer := timer_of dir s in
  let w := set_st w (set_timer dir s kInvalidTimer (uint64 (generation_of dir s + 1))) in
  if negb (timer =? kInvalidTimer) then set_lp w (Cancel (lp w) timer) else w.

(** ** Awaiters *)

Definition set_r_life (r : Reader) (l : SingleResultLifecycle.t) : Reader :=
  mkReader (r_kind r) (r_stream r) (r_continuation r) l (r_result r) (r_span r) (r_data r) (r_buffer r) (r_reserve r) (r_reservation_active r) (r_initial r).
Definition set_r_result (r : Reader) (c : IoResultState.t) : Reader :=
  mkReader (r_kind r) (r_stream r) (r_continuation r) (r_lifecycle r) c (r_span r) (r_data r) (r_buffer r) (r_reserve r) (r_reservation_active r) (r_initial r).
Definition set_r_stream (r : Reader) (b : bool) : Reader :=
  mkReader (r_kind r) b (r_continuation r) (r_lifecycle r) (r_result r) (r_span r) (r_data r) (r_buffer r) (r_reserve r) (r_reservation_active r) (r_initial r).
Definition set_r_continuation (r : Reader) (c : option Z) : Reader :=
  mkReader (r_kind r) (r_stream r) c (r_lifecycle r) (r_result r) (r_span r) (r_data r) (r_buffer r) (r_reserve r) (r_reservation_active r) (r_initial r).
Definition set_r_data (r : Reader) (d : list byte) : Reader :=
  mkReader (r_kind r) (r_stream r) (r_continuation r) (r_lifecycle r) (r_result r) (r_span r) d (r_buffer r) (r_reserve r) (r_reservation_active r) (r_initial r).
Definition set_r_buffer (r : Reader) (b : Buffer.t) (active : bool) : Reader :=
  mkReader (r_kind r) (r_stream r) (r_continuation r) (r_lifecycle r) (r_result r) (r_span r) (r_data r) b (r_reserve r) active (r_initial r).

Definition new_Reader (k : PendingReadKind) (span : nat) (buffer : Buffer.t) (reserve : nat) : Reader :=
  mkReader k true None SingleResultLifecycle.initial IoResultState.new span [] buffer reserve false buffer.

Definition TryAuthorizeResult (r : Reader) : Reader * bool :=
  let '(l, b) := SingleResultLifecycle.TryAuthorizeResult (r_lifecycle r) in (set_r_life r l, b).
Definition TryAuthorizeRelease (r : Reader) : Reader * bool :=
  let '(l, b) := SingleResultLifecycle.TryAuthorizeRelease (r_lifecycle r) in (set_r_life r l, b).
Definition TryAuthorizeContinuation (r : Reader) : Reader * bool :=
  let '(l, b) := SingleResultLifecycle.TryAuthorizeContinuation (r_lifecycle r) in (set_r_life r l, b).

Definition SetResult (r : Reader) (result : ResultE N) : outcome Reader :=
  c ← IoResultState.SetResult result (r_result r); Val (set_r_result r c).

Definition CompleteStoredInline (r : Reader) : outcome Reader :=
  let '(r, b) := TryAuthorizeResult r in ALYRN_CHECK b;;
  let '(r, b) := TryAuthorizeRelease r in ALYRN_CHECK b;;
  Val r.

Definition CompleteInline (r : Reader) (result : ResultE N) : outcome Reader :=
  r ← SetResult r result; CompleteStoredInline r.

(** FinishAttempt of the owning awaiters. *)
Definition FinishAttempt (r : Reader) (result : ResultE N) : outcome Reader :=
  ALYRN_CHECK (r_reservation_active r);;
  b ← match result with
      | Ok n => Buffer.CommitWrite (N.to_nat n) (r_buffer r)
      | Err _ => Val (Buffer.AbortWrite (r_buffer r))
      end;
  SetResult (set_r_buffer r b false) result.

(** CompleteResultImpl of each awaiter. *)
Definition CompleteResult (r : Reader) (result : ResultE N) : outcome (Reader * bool) :=
  let '(r, b) := TryAuthorizeResult r in
  if negb b then Val (r, false) else
  match r_kind r with
  | kRead => r ← SetResult (set_r_stream r false) result; Val (r, true)
  | _ => r ← FinishAttempt r result; Val (set_r_stream r false, true)
  end.

(** ** Completion *)

Definition terminal (result : ResultE N) : bool := match result with Ok n => (n =? 0)%N | Err _ => true end.

Definition CompleteRead (w : world) (result : ResultE N) : outcome world :=
  let awaiter := s_pending_read (st w) in
  let kind := s_pending_read_kind (st w) in
  if awaiter =? nullptr then Val w else
  let w := CancelDeadline true w in
  ALYRN_CHECK (negb (bool_decide (kind = kNone)));;
  r ← get_reader w awaiter;
  ALYRN_CHECK (bool_decide (r_kind r = kind));;                (* the cast in the source *)
  '(r, result_authorized) ← CompleteResult r result;
  ALYRN_CHECK result_authorized;;
  let '(r, b) := TryAuthorizeRelease r in
  ALYRN_CHECK b;;
  ALYRN_CHECK ((s_pending_read (st w) =? awaiter) && bool_decide (s_pending_read_kind (st w) = kind));;
  let w := set_st w (set_read_slot (st w) nullptr kNone) in
  let w := put_reader w awaiter r in
  w ← (if terminal result then disable_reading w else Val w);
  r ← get_reader w awaiter;
  let '(r, b) := TryAuthorizeContinuation r in
  ALYRN_CHECK b;;
  ALYRN_CHECK (bool_decide (r_continuation r <> None));;
  Schedule (put_reader w awaiter r) (true, awaiter).

Definition set_w_life (x : Writer) (l : SingleResultLifecycle.t) : Writer :=
  mkWriter (w_stream x) (w_continuation x) l (w_result x) (w_buffer x) (w_total x).
Definition set_w_buffer (x : Writer) (b : list byte) : Writer :=
  mkWriter (w_stream x) (w_continuation x) (w_lifecycle x) (w_result x) b (w_total x).
Definition new_Writer (bytes : list byte) : Writer :=
  mkWriter true None SingleResultLifecycle.initial IoResultState.new bytes bytes.

Definition write_authorize (x : Writer) (f : SingleResultLifecycle.t -> SingleResultLifecycle.t * bool) : Writer * bool :=
  let '(l, b) := f (w_lifecycle x) in (set_w_life x l, b).

(** WriteAwaiter::CompleteInline *)
Definition write_CompleteInline (x : Writer) (result : ResultE N) : outcome Writer :=
  c ← IoResultState.SetResult result (w_result x);
  let x := mkWriter (w_stream x) (w_continuation x) (w_lifecycle x) c (w_buffer x) (w_total x) in
  let '(x, b) := write_authorize x SingleResultLifecycle.TryAuthorizeResult in ALYRN_CHECK b;;
  let '(x, b) := write_authorize x SingleResultLifecycle.TryAuthorizeRelease in ALYRN_CHECK b;;
  Val x.

(** WriteAwaiter::CompleteResultImpl *)
Definition write_CompleteResult (x : Writer) (result : ResultE N) : outcome (Writer * bool) :=
  let '(x, b) := write_authorize x SingleResultLifecycle.TryAuthorizeResult in
  if negb b then Val (x, false) else
  c ← IoResultState.SetResult result (w_result x);
  Val (mkWriter false (w_continuation x) (w_lifecycle x) c (w_buffer x) (w_total x), true).

Definition CompleteWrite (w : world) (result : ResultE N) : outcome world :=
  let awaiter := s_pending_write (st w) in
  if awaiter =? nullptr then Val w else
  let w := CancelDeadline false w in
  x ← get_writer w awaiter;
  '(x, b) ← write_CompleteResult x result;
  ALYRN_CHECK b;;
  let '(x, b) := write_authorize x SingleResultLifecycle.TryAuthorizeRelease in
  ALYRN_CHECK b;;
  ALYRN_CHECK (s_pending_write (st w) =? awaiter);;
  let w := set_st w (set_write_slot (st w) nullptr) in
  let w := put_writer w awaiter x in
  w ← disable_writing w;
  x ← get_writer w awaiter;
  let '(x, b) := write_authorize x SingleResultLifecycle.TryAuthorizeContinuation in
  ALYRN_CHECK b;;
  ALYRN_CHECK (bool_decide (w_continuation x <> None));;
  Schedule (put_writer w awaiter x) (false, awaiter).

Definition Complete (dir : bool) (w : world) (result : ResultE N) : outcome world :=
  if dir then CompleteRead w result else CompleteWrite w result.

(** ** Deadlines *)

(** ArmReadDeadline, ArmWriteDeadline *)
Definition ArmDeadline (dir : bool) (w : world) : outcome (world * bool) :=
  let s := st w in
  match deadline_of dir s with
  | None => Val (w, true)
  | Some d =>
      if pending_of dir s =? nullptr then Val (w, true) else
      if d <=? l_now (lp w) then w ← Complete dir w (Err (Errno ETIMEDOUT)); Val (w, true) else
      let generation := uint64 (generation_of dir s + 1) in
      let w := set_st w (set_timer dir s (timer_of dir s) generation) in
      match RunAt (lp w) d dir generation with
      | Some (l, id) => Val (set_lp (set_st w (set_timer dir (st w) id generation)) l, true)
      | None => Val (w, false)
      end
  end.

(** HandleReadDeadline, HandleWriteDeadline *)
Definition HandleDeadline (dir : bool) (w : world) (generation : Z) : outcome world :=
  if negb (generation =? generation_of dir (st w)) then Val w else
  let w := set_st w (set_timer dir (st w) kInvalidTimer (generation_of dir (st w))) in
  if negb (pending_of dir (st w) =? nullptr) then Complete dir w (Err (Errno ETIMEDOUT)) else Val w.

(** SetReadDeadline, SetWriteDeadline *)
Definition SetDirDeadline (dir : bool) (w : world) (deadline : option Z) : outcome (world * ResultE unit) :=
  ALYRN_CHECK (s_loop (st w));;
  let w := CancelDeadline dir w in
  let w := set_st w (set_deadline dir (st w) deadline) in
  if pending_of dir (st w) =? nullptr then Val (w, Ok tt) else
  '(w, armed) ← ArmDeadline dir w;
  if (armed : bool) then Val (w, Ok tt) else
  w ← Complete dir w (Err (Errno ENOMEM)); Val (w, Err (Errno ENOMEM)).

Definition SetDeadline (w : world) (deadline : option Z) : outcome (world * ResultE unit) :=
  '(w, r) ← SetDirDeadline true w deadline;
  match r with Err e => Val (w, Err e) | Ok _ => SetDirDeadline false w deadline end.

(** ** Reading *)

Section reading.
Context (junk : byte).                        (* what fresh storage holds *)

Definition stopping (w : world) : bool := bool_decide (l_state (lp w) = kStopping) || bool_decide (l_state (lp w) = kStopped).

(** The checks of BeginRead: an immediate result, or the continuation is bound. *)
Definition begin_read_refusal (w : world) : option (ResultE N) :=
  if stopping w then Some (Err (Errno ECANCELED)) else
  match StreamLifecycle.ValidateRead (s_lifecycle (st w)) with
  | Err e => Some (Err e)
  | Ok _ =>
      if s_socket (st w) <? 0 then Some (Err (Errno EBADF)) else
      if StreamLifecycle.IsReadShutdown (s_lifecycle (st w)) then Some (Ok 0%N) else
      if negb (s_pending_read (st w) =? nullptr) then Some (Err (Errno EBUSY)) else None
  end.

Definition BeginRead (w : world) (r : Reader) (handle : Z) : outcome (Reader * bool) :=
  ALYRN_CHECK (s_loop (st w));;
  match begin_read_refusal w with
  | Some result => r ← CompleteInline r result; Val (r, false)
  | None => c ← Bind (r_continuation r) handle; Val (set_r_continuation r c, true)
  end.

Definition SuspendForRead (w : world) (a : Z) (k : PendingReadKind) : outcome world :=
  let w := set_st w (set_read_slot (st w) a k) in
  c ← channel w;
  w ← (if negb (EpollPoller.IsReading c) then channel_do w EpollPoller.EnableReading else Val w);
  '(w, armed) ← ArmDeadline true w;
  if (armed : bool) then Val w else CompleteRead w (Err (Errno ENOMEM)).

(** One attempt of a reader: the bytes land in its span or in its reservation. *)
Definition attempt_read (w : world) (r : Reader) : outcome (world * Reader * IoAttempt) :=
  match r_kind r with
  | kRead =>
      let '(attempt, got, rest) := TryRecv (r_span r) (k_recv (sock w)) in
      Val (set_sock w (mkSocket rest (k_send (sock w)) (k_received (sock w) ++ got) (k_sent (sock w))), set_r_data r got, attempt)
  | _ =>
      iovs ← Buffer.ReservedWriteIov kRecvMaxIov (r_buffer r);
      let '(attempt, got, rest) := TryReadv iovs (k_recv (sock w)) in
      let b := Buffer.set_blocks (readv iovs got (Buffer.blocks_ (r_buffer r))) (r_buffer r) in
      Val (set_sock w (mkSocket rest (k_send (sock w)) (k_received (sock w) ++ got) (k_sent (sock w))),
           set_r_data (set_r_buffer r b (r_reservation_active r)) got, attempt)
  end.

(** PrepareReservation; [memory] says whether the allocation succeeds. *)
Definition PrepareReservation (r : Reader) (memory : bool) : outcome (Reader * bool) :=
  if negb memory then
    r ← SetResult (set_r_buffer r (Buffer.AbortWrite (r_buffer r)) (r_reservation_active r)) (Err (Errno ENOMEM)); Val (r, false)
  else
    '(iovs, b) ← Buffer.PrepareWrite junk (r_reserve r) kRecvMaxIov (r_buffer r);
    match iovs with
    | [] => r ← SetResult (set_r_buffer r (Buffer.AbortWrite b) (r_reservation_active r)) (Err (Errno ENOMEM)); Val (r, false)
    | _ => Val (set_r_buffer r b true, true)
    end.

(** await_suspend of the awaiter at [a]; [true] when it stays suspended. *)
Definition read_await_suspend (w : world) (a handle : Z) (memory : bool) : outcome (world * bool) :=
  r ← get_reader w a;
  '(r, begun) ← BeginRead w r handle;
  if negb begun then Val (put_reader w a r, false) else
  '(r, prepared) ← (if bool_decide (r_kind r = kRead) then Val (r, true) else PrepareReservation r memory);
  if negb prepared then r ← CompleteStoredInline r; Val (put_reader w a r, false) else
  '(w, r, attempt) ← attempt_read w r;
  match attempt with
  | Completed result =>
      r ← (if bool_decide (r_kind r = kRead) then CompleteInline r result
           else r ← FinishAttempt r result; CompleteStoredInline r);
      Val (put_reader w a r, false)
  | WouldBlock => w ← SuspendForRead (put_reader w a r) a (r_kind r); Val (w, true)
  end.

(** OnReadyImpl *)
Definition read_OnReady (w : world) (a : Z) : outcome world :=
  r ← get_reader w a;
  ALYRN_CHECK (r_stream r);;
  '(w, r, attempt) ← attempt_read w r;
  let w := put_reader w a r in
  match attempt with WouldBlock => Val w | Completed result => CompleteRead w result end.

(** ~RecvAwaiter and ~ReadAwaiterState; the memory goes away. *)
Definition destroy_reader (w : world) (a : Z) : outcome world :=
  r ← get_reader w a;
  let w := set_readers w (delete a (readers w)) in
  if negb (r_stream r) || negb (s_pending_read (st w) =? a) then Val w else
  let w := CancelDeadline true w in
  let w := set_st w (set_read_slot (st w) nullptr kNone) in
  disable_reading w.

End reading.

(** What await_resume gives to the coroutine. *)
Inductive delivery :=
| ReadResult (result : ResultE N) (data : list byte)
| RecvOutcome (result : ResultE N) (buffer : Buffer.t)
| RecvCopyResult (result : @Result Buffer.t Error)
| WriteResult (result : ResultE unit).

Definition read_await_resume (r : Reader) : outcome delivery :=
  '(result, _) ← IoResultState.Take (r_result r);
  Val (match r_kind r with
       | kRecv => RecvOutcome result (r_buffer r)
       | kRecvCopy => RecvCopyResult (match result with Ok _ => Ok (r_buffer r) | Err e => Err e end)
       | _ => ReadResult result (r_data r)
       end).

(** ** Writing *)

(** How a round of sending ended. *)
Inductive write_end := WriteDone (result : ResultE N) | WriteBlocked.

(** The loop of await_suspend and of OnReadyImpl: sends until nothing is left, the
    socket blocks or fails. Every round sends a byte at least. *)
Fixpoint write_loop (fuel : nat) (k : Socket) (buffer : list byte) : outcome (Socket * list byte * write_end) :=
  match buffer, fuel with
  | [], _ => Val (k, [], WriteDone (Ok 0%N))
  | _, O => Panic
  | _, S fuel =>
      let '(attempt, rest) := TryWrite buffer (k_send k) in
      match attempt with
      | WouldBlock => Val (mkSocket (k_recv k) rest (k_received k) (k_sent k), buffer, WriteBlocked)
      | Completed (Err e) => Val (mkSocket (k_recv k) rest (k_received k) (k_sent k), buffer, WriteDone (Err e))
      | Completed (Ok n) =>
          if (n =? 0)%N then Val (mkSocket (k_recv k) rest (k_received k) (k_sent k), buffer, WriteDone (Err (Errno EPIPE)))
          else write_loop fuel (mkSocket (k_recv k) rest (k_received k) (k_sent k ++ take (N.to_nat n) buffer)) (drop (N.to_nat n) buffer)
      end
  end.

Definition write_refusal (w : world) : option (ResultE N) :=
  if stopping w then Some (Err (Errno ECANCELED)) else
  match StreamLifecycle.ValidateWrite (s_lifecycle (st w)) with
  | Err e => Some (Err e)
  | Ok _ =>
      if s_socket (st w) <? 0 then Some (Err (Errno EBADF)) else
      if negb (s_pending_write (st w) =? nullptr) then Some (Err (Errno EBUSY)) else None
  end.

Definition SuspendForWrite (w : world) (a : Z) : outcome world :=
  let w := set_st w (set_write_slot (st w) a) in
  c ← channel w;
  w ← (if negb (EpollPoller.IsWriting c) then channel_do w EpollPoller.EnableWriting else Val w);
  '(w, armed) ← ArmDeadline false w;
  if (armed : bool) then Val w else CompleteWrite w (Err (Errno ENOMEM)).

(** WriteAwaiter::await_suspend *)
Definition write_await_suspend (w : world) (a handle : Z) : outcome (world * bool) :=
  x ← get_writer w a;
  ALYRN_CHECK (s_loop (st w));;
  match write_refusal w with
  | Some result => x ← write_CompleteInline x result; Val (put_writer w a x, false)
  | None =>
      c ← Bind (w_continuation x) handle;
      let x := mkWriter (w_stream x) c (w_lifecycle x) (w_result x) (w_buffer x) (w_total x) in
      '(k, buffer, ended) ← write_loop (length (w_buffer x)) (sock w) (w_buffer x);
      let w := set_sock w k in
      let x := set_w_buffer x buffer in
      match ended with
      | WriteDone result => x ← write_CompleteInline x result; Val (put_writer w a x, false)
      | WriteBlocked => w ← SuspendForWrite (put_writer w a x) a; Val (w, true)
      end
  end.

(** WriteAwaiter::OnReadyImpl *)
Definition write_OnReady (w : world) (a : Z) : outcome world :=
  x ← get_writer w a;
  ALYRN_CHECK (w_stream x);;
  '(k, buffer, ended) ← write_loop (length (w_buffer x)) (sock w) (w_buffer x);
  let w := put_writer (set_sock w k) a (set_w_buffer x buffer) in
  match ended with WriteBlocked => Val w | WriteDone result => CompleteWrite w result end.

(** ~WriteAwaiter *)
Definition destroy_writer (w : world) (a : Z) : outcome world :=
  x ← get_writer w a;
  let w := set_writers w (delete a (writers w)) in
  if negb (w_stream x) || negb (s_pending_write (st w) =? a) then Val w else
  let w := CancelDeadline false w in
  let w := set_st w (set_write_slot (st w) nullptr) in
  disable_writing w.

Definition write_await_resume (x : Writer) : outcome delivery :=
  '(result, _) ← IoResultState.Take (w_result x);
  Val (WriteResult (match result with Ok _ => Ok tt | Err e => Err e end)).

(** ** Events of the channel *)

Definition HandleRead (w : world) : outcome world :=
  if s_pending_read (st w) =? nullptr then
    c ← channel w;
    if negb (EpollPoller.IsEdgeTriggered c) && EpollPoller.IsReading c then channel_do w EpollPoller.DisableReading else Val w
  else
    match s_pending_read_kind (st w) with
    | kNone => Val w
    | k => r ← get_reader w (s_pending_read (st w)); ALYRN_CHECK (bool_decide (r_kind r = k));; read_OnReady w (s_pending_read (st w))
    end.

Definition HandleWrite (w : world) : outcome world :=
  if s_pending_write (st w) =? nullptr then Val w else write_OnReady w (s_pending_write (st w)).

Definition HandleClose (w : world) : outcome world :=
  w ← CompleteRead w (Ok 0%N); CompleteWrite w (Err (Errno EPIPE)).

Definition HandleError (w : world) (answer : Z + Z) : outcome world :=
  let error := ErrorFromSocketErrorEvent answer in
  w ← CompleteRead w (Err error); CompleteWrite w (Err error).

(** BindChannelCallbacks: identifiers of the four callbacks. *)
Definition kOnRead : Z := 1.
Definition kOnWrite : Z := 2.
Definition kOnClose : Z := 3.
Definition kOnError : Z := 4.

Definition BindChannelCallbacks (c : EpollPoller.Channel) : EpollPoller.Channel :=
  EpollPoller.SetCallbacks c (Some kOnRead) (Some kOnWrite) (Some kOnClose) (Some kOnError).

Definition invoke (so_error : Z + Z) (w : world) (f : Z) : outcome world :=
  if f =? kOnRead then HandleRead w else
  if f =? kOnWrite then HandleWrite w else
  if f =? kOnClose then HandleClose w else
  if f =? kOnError then HandleError w so_error else Panic.

(** ** Closing *)

Definition DetachChannel (w : world) : outcome world :=
  c ← channel w;
  w ← (if negb (EpollPoller.IsNoneEvent c) then channel_do w EpollPoller.DisableAll else Val w);
  b ← EpollPoller.IsRegistered (poller w) (s_channel (st w));
  if (b : bool) then channel_do w EpollPoller.Remove else Val w.

Definition Close_socket (w : world) : world := set_st w (set_socket (st w) (-1)).

Definition CloseNow (w : world) : outcome world :=
  let '(close_prepared, life) := StreamLifecycle.PrepareClose (s_lifecycle (st w)) in
  match close_prepared with
  | Err _ | Ok false => Val w
  | Ok true =>
      let w := set_st w (set_life (st w) life) in
      w ← (if negb (s_pending_read (st w) =? nullptr) then CompleteRead w (Err (Errno ECANCELED)) else Val w);
      w ← (if negb (s_pending_write (st w) =? nullptr) then CompleteWrite w (Err (Errno ECANCELED)) else Val w);
      w ← DetachChannel w;
      let w := Close_socket w in
      Val (set_st w (set_life (st w) (StreamLifecycle.MarkClosed (s_lifecycle (st w)))))
  end.

(** CloseWrite and CloseRead; [errno] is what shutdown(2) reports, 0 for success. *)
Definition CloseWrite (w : world) (errno : Z) : outcome (world * ResultE unit) :=
  ALYRN_CHECK (s_loop (st w));;
  if s_socket (st w) <? 0 then Val (w, Err (Errno EBADF)) else
  let '(prepare, life) := StreamLifecycle.PrepareShutdown (negb (s_pending_write (st w) =? nullptr)) (s_lifecycle (st w)) in
  let w := set_st w (set_life (st w) life) in
  match prepare with
  | Err e => Val (w, Err e)
  | Ok false => Val (w, Ok tt)
  | Ok true =>
      if negb (errno =? 0) then
        life ← StreamLifecycle.AbortShutdownPreparation (s_lifecycle (st w)); Val (set_st w (set_life (st w) life), Err (Errno errno))
      else
        life ← StreamLifecycle.CommitShutdown (s_lifecycle (st w)); Val (set_st w (set_life (st w) life), Ok tt)
  end.

Definition CloseRead (w : world) (errno : Z) : outcome (world * ResultE unit) :=
  ALYRN_CHECK (s_loop (st w));;
  if s_socket (st w) <? 0 then Val (w, Err (Errno EBADF)) else
  let '(prepare, life) := StreamLifecycle.PrepareCloseRead (negb (s_pending_read (st w) =? nullptr)) (s_lifecycle (st w)) in
  let w := set_st w (set_life (st w) life) in
  match prepare with
  | Err e => Val (w, Err e)
  | Ok false => Val (w, Ok tt)
  | Ok true =>
      if negb (errno =? 0) then
        life ← StreamLifecycle.AbortCloseReadPreparation (s_lifecycle (st w)); Val (set_st w (set_life (st w) life), Err (Errno errno))
      else
        life ← StreamLifecycle.CommitCloseRead (s_lifecycle (st w));
        w ← disable_reading (set_st w (set_life (st w) life));
        Val (w, Ok tt)
  end.

Definition Close (w : world) : outcome (world * ResultE unit) :=
  ALYRN_CHECK (s_loop (st w));; w ← CloseNow w; Val (w, Ok tt).

(** DispatchLoopStop *)
Definition DispatchLoopStop (w : world) : outcome world := CloseNow w.

Definition set_owner (s : Stream) (loop participant : bool) (channel : Z) : Stream :=
  mkStream loop (s_socket s) channel (s_pending_read s) (s_pending_read_kind s) (s_pending_write s) (s_read_deadline s)
    (s_write_deadline s) (s_read_timer s) (s_write_timer s) (s_read_generation s) (s_write_generation s) (s_lifecycle s) participant.

(** ~Stream *)
Definition destroy_stream (w : world) : outcome world :=
  if negb (s_loop (st w)) then Val w else
  w ← CloseNow w;
  ALYRN_CHECK (s_participant (st w));;
  Val (set_st w (set_owner (st w) (s_loop (st w)) false (s_channel (st w)))).

(** Stream(Stream&&): the stream moves into an object whose channel is at [dst];
    timers and generations are those of a new object. *)
Definition move_stream (w : world) (dst : Z) : outcome world :=
  ALYRN_CHECK (s_loop (st w));;
  ALYRN_CHECK (s_pending_read (st w) =? nullptr);;
  ALYRN_CHECK (s_pending_write (st w) =? nullptr);;
  w ← DetachChannel w;
  ALYRN_CHECK (s_participant (st w));;
  p ← EpollPoller.move_construct (poller w) dst (s_channel (st w));
  c ← EpollPoller.deref p dst;
  let s := st w in
  Val (set_poller
    (set_st w (mkStream true (s_socket s) dst nullptr kNone nullptr (s_read_deadline s) (s_write_deadline s)
       kInvalidTimer kInvalidTimer 0 0 (s_lifecycle s) true))
    (EpollPoller.put p dst (BindChannelCallbacks c))).

(** ResetForMove: the target of an assignment gives up its descriptor. *)
Definition ResetForMove (w : world) : outcome world :=
  ALYRN_CHECK (s_loop (st w));;
  ALYRN_CHECK (s_pending_read (st w) =? nullptr);;
  ALYRN_CHECK (s_pending_write (st w) =? nullptr);;
  ALYRN_CHECK (s_participant (st w));;
  w ← DetachChannel w;
  Val (Close_socket w).

(** operator=(Stream&&): [d] is the target; the timers of the target stay. *)
Definition move_assign_stream (w : world) (d : Stream) : outcome world :=
  ALYRN_CHECK (s_loop (st w));;
  ALYRN_CHECK (s_pending_read (st w) =? nullptr);;
  ALYRN_CHECK (s_pending_write (st w) =? nullptr);;
  w ← DetachChannel w;
  ALYRN_CHECK (s_participant (st w));;
  let s := st w in
  w ← (if s_loop d then w ← ResetForMove (set_st w d); Val (set_st w s) else Val w);
  p ← EpollPoller.move_assign (poller w) (s_channel d) (s_channel s);
  c ← EpollPoller.deref p (s_channel d);
  Val (set_poller
    (set_st w (mkStream true (s_socket s) (s_channel d) nullptr (s_pending_read_kind d) nullptr (s_read_deadline s) (s_write_deadline s)
       (s_read_timer d) (s_write_timer d) (s_read_generation d) (s_write_generation d) (s_lifecycle s) true))
    (EpollPoller.put p (s_channel d) (BindChannelCallbacks c))).

(** Stream(loop, fd): the channel is constructed at [chan]. *)
Definition new_stream (p : EpollPoller.world) (chan fd : Z) (et : bool) : outcome (Stream * EpollPoller.world) :=
  c ← EpollPoller.new_Channel fd;
  let c := BindChannelCallbacks (EpollPoller.SetEdgeTriggered c et) in
  Val (mkStream true fd chan nullptr kNone nullptr None None kInvalidTimer kInvalidTimer 0 0 StreamLifecycle.new true,
       EpollPoller.put p chan c).

End EpollStream.
