(* ===== verification/EpollStreamProps.v ===== *)
(** * The epoll stream: every operation completes once, with its own bytes *)

From Stdlib Require Import Strings.Byte.
From S2P Require Import Prelude Lifecycles ResultCells StreamLifecycle Buffer BufferProofs UringLoop EpollPoller EpollPollerProps EpollStream.

Import EpollStream.

Module EpollStreamProps.

Module P := EpollPoller.
Module PP := EpollPollerProps.
Module SL := StreamLifecycle.

(** ** The channel of the stream *)

Definition bound (c : P.Channel) : Prop :=
  P.read_callback_ c = Some kOnRead /\ P.write_callback_ c = Some kOnWrite /\
  P.close_callback_ c = Some kOnClose /\ P.error_callback_ c = Some kOnError.

(** [rd] and [wr]: is a read, a write waiting for events? *)
Record chan_ok (rd wr : bool) (fd : Z) (p : P.world) (a : Z) (c : P.Channel) : Prop := {
  ch_at : P.store p !! a = Some c;
  ch_loop : P.loop_ c = true;
  ch_bound : bound c;
  ch_closed : fd < 0 -> P.index_ c = P.kNew;
  ch_open : 0 <= fd -> P.fd_ c = fd /\ (P.index_ c = P.kNew -> P.channels_ p !! fd = None);
  ch_reading : rd = true -> P.IsReading c = true;
  ch_writing : wr = true -> P.IsWriting c = true;
}.

Definition chan (rd wr : bool) (fd : Z) (p : P.world) (a : Z) : Prop := PP.inv p /\ exists c, chan_ok rd wr fd p a c.

Lemma chan_weaken rd wr rd' wr' fd p a : chan rd wr fd p a -> (rd' = true -> rd = true) -> (wr' = true -> wr = true) -> chan rd' wr' fd p a.
Proof. intros [H (c & [K1 K2 K3 K4 K5 K6 K7])] Hr Hw. split; [done|]. exists c. split; auto. Qed.

(** The bits of the interest set. *)
Lemma has_bit e i : 0 <= i -> P.has e (2 ^ i) = Z.testbit e i.
Proof.
  intros Hi. unfold P.has. destruct (Z.testbit e i) eqn:E.
  - apply negb_true_iff, Z.eqb_neq. intros H0. assert (Z.testbit (Z.land e (2 ^ i)) i = false) as H1 by (rewrite H0; apply Z.bits_0).
    rewrite Z.land_spec, E, Z.pow2_bits_true in H1 by done. discriminate.
  - apply negb_false_iff, Z.eqb_eq. apply Z.bits_inj'. intros j Hj. rewrite Z.land_spec, Z.bits_0, Z.pow2_bits_eqb by done.
    destruct (Z.eqb_spec i j) as [->|]; [by rewrite E | by rewrite andb_false_r].
Qed.

Lemma reading_bit c : P.IsReading c = Z.testbit (P.events_ c) 0.
Proof. exact (has_bit (P.events_ c) 0 ltac:(lia)). Qed.
Lemma writing_bit c : P.IsWriting c = Z.testbit (P.events_ c) 1.
Proof. exact (has_bit (P.events_ c) 1 ltac:(lia)). Qed.

Lemma set_bits e f : Z.testbit (Z.lor e f) 0 = Z.testbit e 0 || Z.testbit f 0 /\ Z.testbit (Z.lor e f) 1 = Z.testbit e 1 || Z.testbit f 1.
Proof. split; apply Z.lor_spec. Qed.

Lemma clear_bits e f : Z.testbit (Z.land e (Z.lnot f)) 0 = Z.testbit e 0 && negb (Z.testbit f 0) /\
  Z.testbit (Z.land e (Z.lnot f)) 1 = Z.testbit e 1 && negb (Z.testbit f 1).
Proof. split; rewrite Z.land_spec, Z.lnot_spec by lia; done. Qed.

(** Changing the interest set of an open stream. *)
Lemma change_chan rd wr rd' wr' fd p a f : chan rd wr fd p a -> 0 <= fd ->
  (forall c, chan_ok rd wr fd p a c -> (rd' = true -> Z.testbit (f (P.events_ c)) 0 = true) /\ (wr' = true -> Z.testbit (f (P.events_ c)) 1 = true)) ->
  exists p', P.change_events p a f = Val p' /\ chan rd' wr' fd p' a.
Proof.
  intros [H (c & Hc)] Hfd Hb. destruct (Hb c Hc) as [Hb0 Hb1]. destruct Hc as [K1 K2 K3 K4 K5 K6 K7]. destruct (K5 Hfd) as [Ef Hn].
  destruct (PP.change_events_ok p a c f H K1 K2 ltac:(by rewrite Ef)) as (i & E & H' & Hi).
  eexists. split; [exact E|]. split; [exact H'|]. eexists. split; [apply lookup_insert_eq | done | done | lia | | | ].
  - cbn. intros _. split; [done | by intros ->].
  - intros Hr. rewrite reading_bit. cbn. auto.
  - intros Hr. rewrite writing_bit. cbn. auto.
Qed.

Lemma enable_reading_ok rd wr fd p a : chan rd wr fd p a -> 0 <= fd -> exists p', P.EnableReading p a = Val p' /\ chan true wr fd p' a.
Proof.
  intros H Hfd. apply (change_chan rd wr); [done | done |]. intros c [_ _ _ _ _ _ Hw]. destruct (set_bits (P.events_ c) P.kReadEvent) as [-> ->].
  split; [intros _; apply orb_true_r | intros Hwr; by rewrite <- writing_bit, (Hw Hwr)].
Qed.

Lemma enable_writing_ok rd wr fd p a : chan rd wr fd p a -> 0 <= fd -> exists p', P.EnableWriting p a = Val p' /\ chan rd true fd p' a.
Proof.
  intros H Hfd. apply (change_chan rd wr); [done | done |]. intros c [_ _ _ _ _ Hr _]. destruct (set_bits (P.events_ c) P.kWriteEvent) as [-> ->].
  split; [intros Hrd; by rewrite <- reading_bit, (Hr Hrd) | intros _; apply orb_true_r].
Qed.

Lemma disable_reading_ok rd wr fd p a : chan rd wr fd p a -> 0 <= fd -> exists p', P.DisableReading p a = Val p' /\ chan false wr fd p' a.
Proof.
  intros H Hfd. apply (change_chan rd wr); [done | done |]. intros c [_ _ _ _ _ _ Hw]. destruct (clear_bits (P.events_ c) P.kReadEvent) as [-> ->].
  split; [done | intros Hwr; by rewrite <- writing_bit, (Hw Hwr)].
Qed.

Lemma disable_writing_ok rd wr fd p a : chan rd wr fd p a -> 0 <= fd -> exists p', P.DisableWriting p a = Val p' /\ chan rd false fd p' a.
Proof.
  intros H Hfd. apply (change_chan rd wr); [done | done |]. intros c [_ _ _ _ _ Hr _]. destruct (clear_bits (P.events_ c) P.kWriteEvent) as [-> ->].
  split; [intros Hrd; by rewrite <- reading_bit, (Hr Hrd) | done].
Qed.

(** ** Completion of an awaiter *)

(** Results the sockets produce: a byte count or an errno. *)
Definition encodable (result : ResultE N) : Prop :=
  match result with
  | Ok n => Z.of_N n <= IoResultState.int64_max
  | Err e => err_category e = system_category /\ 0 < err_value e < 2 ^ 31
  end.

(** The result cell after a result was stored. *)
Definition stored (result : ResultE N) : IoResultState.t :=
  match result with Ok n => IoResultState.mk (Z.of_N n) | Err e => IoResultState.mk (- err_value e) end.

Lemma store_result result : encodable result -> IoResultState.SetResult result IoResultState.new = Val (stored result).
Proof.
  unfold encodable, IoResultState.SetResult, IoResultState.SetSuccess, IoResultState.SetError. destruct result as [n|[v cat]]; cbn -[IoResultState.int64_max].
  - intros H. by rewrite (proj2 (Z.leb_le _ _) H).
  - intros [-> H]. by rewrite (proj2 (Z.ltb_lt _ _) (proj1 H)).
Qed.

Lemma take_result result : encodable result -> exists c, IoResultState.Take (stored result) = Val (result, c).
Proof.
  unfold encodable, IoResultState.Take, IoResultState.HasResult, IoResultState.kPending. destruct result as [n|[v cat]]; cbn -[IoResultState.int64_max].
  - intros H. rewrite (proj2 (Z.eqb_neq _ _)) by lia. cbn. rewrite (proj2 (Z.leb_le _ _)) by lia. rewrite N2Z.id. eauto.
  - intros [-> H]. rewrite (proj2 (Z.eqb_neq _ _)) by lia. cbn. rewrite (proj2 (Z.leb_gt _ _)) by lia. rewrite Z.opp_involutive. eauto.
Qed.

Definition fits (result : ResultE N) (data : list byte) : Prop :=
  match result with Ok n => n = N.of_nat (length data) | Err _ => data = [] end.

(** A reader whose operation is open; its last attempt stored [r_data]. *)
Record open_reader (r : Reader) : Prop := {
  rd_kind : r_kind r <> kNone;
  rd_stream : r_stream r = true;
  rd_life : r_lifecycle r = SingleResultLifecycle.initial;
  rd_cell : r_result r = IoResultState.new;
  rd_span : r_kind r = kRead -> (length (r_data r) <= r_span r)%nat;
  rd_active : r_kind r <> kRead -> r_reservation_active r = true;
  rd_reserved : r_kind r <> kRead -> reserved_buffer (r_initial r) (r_buffer r);
  rd_iov : r_kind r <> kRead -> r_data r = [] ->
    (length (filter (fun blk => Buffer.reserved_for_write blk = true) (Buffer.blocks_ (r_buffer r))) <= kRecvMaxIov)%nat /\
    Buffer.reserved_bytes_ (r_buffer r) = Buffer.iov_total (Buffer.FillReservedWriteIov kRecvMaxIov (r_buffer r));
  rd_room : r_kind r <> kRead -> (length (r_data r) <= Buffer.reserved_bytes_ (r_buffer r))%nat;
  rd_filled : r_kind r <> kRead -> take (length (r_data r)) (rooms (Buffer.blocks_ (r_buffer r))) = r_data r;
}.

(** A reader with its result, its buffer given back. *)
Record finished (result : ResultE N) (r : Reader) : Prop := {
  fn_kind : r_kind r <> kNone;
  fn_cell : r_result r = stored result;
  fn_encodable : encodable result;
  fn_fits : fits result (r_data r);
  fn_span : r_kind r = kRead -> (length (r_data r) <= r_span r)%nat;
  fn_buffer : r_kind r <> kRead -> idle (r_buffer r) /\ content (r_buffer r) = content (r_initial r) ++ r_data r;
}.

Lemma FinishAttempt_ok result r l : open_reader r -> fits result (r_data r) -> encodable result -> r_kind r <> kRead ->
  exists b, FinishAttempt (set_r_life r l) result = Val (set_r_result (set_r_buffer (set_r_life r l) b false) (stored result)) /\
    idle b /\ content b = content (r_initial r) ++ r_data r.
Proof.
  intros [_ _ _ K4 _ K7 K8 _ K9 K10] K5 He Hk. destruct (K8 Hk) as [W1 W2 W3 W4].
  unfold FinishAttempt. cbn [r_reservation_active r_buffer set_r_life]. rewrite (K7 Hk), check_true, bind_val.
  assert (exists b, match result with Ok n => Buffer.CommitWrite (N.to_nat n) (r_buffer r) | Err _ => Val (Buffer.AbortWrite (r_buffer r)) end = Val b /\
    idle b /\ content b = content (r_initial r) ++ r_data r) as (b & -> & Hi & Hc).
  { destruct result as [n|e]; cbn in K5.
    - subst n. rewrite Nat2N.id. destruct (CommitWrite_spec (length (r_data r)) (r_buffer r) W1 W2 (K9 Hk)) as (b & E & Hi & Hc & _).
      exists b. split_and!; [done | done |]. by rewrite Hc, W3, (K10 Hk).
    - destruct (AbortWrite_spec (r_buffer r) W1 W2) as (Hi & Hc & _). exists (Buffer.AbortWrite (r_buffer r)). split_and!; [done | done |].
      by rewrite Hc, W3, K5, app_nil_r. }
  rewrite bind_val. unfold SetResult. cbn [r_result set_r_buffer set_r_life]. rewrite K4, (store_result _ He), bind_val. eauto.
Qed.

(** The fields of a reader that completion does not change. *)
Definition r_request (r : Reader) : option Z * PendingReadKind * nat * Buffer.t := (r_continuation r, r_kind r, r_span r, r_initial r).
Definition w_request (x : Writer) : option Z * list byte := (w_continuation x, w_total x).

Definition same_operation (r r' : Reader) : Prop := r_request r' = r_request r /\ r_data r' = r_data r.

(** CompleteResult of the awaiter. *)
Lemma CompleteResult_ok result r : open_reader r -> fits result (r_data r) -> encodable result ->
  exists r', CompleteResult r result = Val (r', true) /\ finished result r' /\ same_operation r r' /\
    r_lifecycle r' = SingleResultLifecycle.mk SingleResultLifecycle.kResultReady /\ r_stream r' = false.
Proof.
  intros H K5 He. pose proof H as [K1 K2 K3 K4 K6 K7 K8 _ K9 K10]. unfold CompleteResult.
  set (r1 := set_r_life r (SingleResultLifecycle.mk SingleResultLifecycle.kResultReady)).
  assert (TryAuthorizeResult r = (r1, true)) as -> by (unfold TryAuthorizeResult; by rewrite K3). cbn [negb].
  destruct (decide (r_kind r = kRead)) as [Ek|Ek].
  - change (r_kind r1) with (r_kind r). rewrite Ek. unfold SetResult. cbn [r_result set_r_stream r1 set_r_life]. rewrite K4, (store_result _ He), !bind_val.
    eexists. split; [reflexivity|]. split_and!; try done.
  - destruct (FinishAttempt_ok result r (SingleResultLifecycle.mk SingleResultLifecycle.kResultReady) H K5 He Ek) as (b & E & Hi & Hc). fold r1 in E.
    assert (match r_kind r1 with
      | kRead => r ← SetResult (set_r_stream r1 false) result; Val (r, true)
      | _ => r ← FinishAttempt r1 result; Val (set_r_stream r false, true) end = Val (set_r_stream (set_r_result (set_r_buffer r1 b false) (stored result)) false, true)) as ->.
    { rewrite E. change (r_kind r1) with (r_kind r). by destruct (r_kind r). }
    eexists. split; [reflexivity|]. split_and!; try done.
Qed.

(** ** Writers *)

(** What the socket took of the operation. *)
Definition w_sent (x : Writer) : list byte := take (length (w_total x) - length (w_buffer x)) (w_total x).

Record open_writer (x : Writer) : Prop := {
  wr_stream : w_stream x = true;
  wr_life : w_lifecycle x = SingleResultLifecycle.initial;
  wr_cell : w_result x = IoResultState.new;
  wr_suffix : w_total x = w_sent x ++ w_buffer x;
}.

Record finished_writer (result : ResultE N) (x : Writer) : Prop := {
  fw_cell : w_result x = stored result;
  fw_encodable : encodable result;
  fw_sent : match result with Ok _ => w_sent x = w_total x | Err _ => w_sent x `prefix_of` w_total x end;
}.

(** A write succeeds when nothing is left to send. *)
Definition write_fits (result : ResultE N) (x : Writer) : Prop :=
  match result with Ok n => w_buffer x = [] | Err _ => True end.

Lemma sent_finished result x : w_total x = w_sent x ++ w_buffer x -> write_fits result x ->
  match result with Ok _ => w_sent x = w_total x | Err _ => w_sent x `prefix_of` w_total x end.
Proof. intros E Hf. destruct result; cbn in Hf; [rewrite E at 1; rewrite Hf, app_nil_r; unfold w_sent; by rewrite Hf | by exists (w_buffer x)]. Qed.

Lemma write_CompleteResult_ok result x : open_writer x -> write_fits result x -> encodable result ->
  exists x', write_CompleteResult x result = Val (x', true) /\ finished_writer result x' /\ w_continuation x' = w_continuation x /\
    w_sent x' = w_sent x /\ w_total x' = w_total x /\ w_lifecycle x' = SingleResultLifecycle.mk SingleResultLifecycle.kResultReady /\ w_stream x' = false.
Proof.
  intros [K1 K2 K3 K4] Hf He. unfold write_CompleteResult, write_authorize. rewrite K2.
  change (SingleResultLifecycle.TryAuthorizeResult SingleResultLifecycle.initial) with (SingleResultLifecycle.mk SingleResultLifecycle.kResultReady, true).
  cbn [negb w_result set_w_life]. rewrite K3, (store_result _ He), bind_val. eexists. split; [reflexivity|]. split_and!; try done. split; try done. by apply (sent_finished result x).
Qed.

(** ** The invariant *)

(** Timers of the two directions ([true] reads). [u] may lack its timer. *)
Record timers_ok (u : option bool) (s : Stream) (l : Loop) : Prop := {
  tm_armed dir : timer_of dir s <> kInvalidTimer ->
    pending_of dir s <> nullptr /\ exists d, deadline_of dir s = Some d /\ l_timers l !! timer_of dir s = Some (d, dir, generation_of dir s);
  tm_all id d dir g : l_timers l !! id = Some (d, dir, g) -> id = timer_of dir s /\ 0 <= id < l_next_timer l;
  tm_next : 0 <= l_next_timer l;
  tm_required dir : u <> Some dir -> pending_of dir s <> nullptr -> deadline_of dir s <> None -> timer_of dir s <> kInvalidTimer;
}.

(** A reader waits in the stream's slot, or its work is in the queue. *)
Record readers_ok (s : Stream) (work : list (bool * Z)) (m : gmap Z Reader) : Prop := {
  ro_null : m !! nullptr = None;
  ro_pending : s_pending_read s <> nullptr -> exists r, m !! s_pending_read s = Some r /\ open_reader r /\
    r_continuation r <> None /\ r_kind r = s_pending_read_kind s /\ (true, s_pending_read s) ∉ work;
  ro_work a : (true, a) ∈ work -> exists r result, m !! a = Some r /\ finished result r;
  ro_all a r : m !! a = Some r -> a = s_pending_read s \/ (true, a) ∈ work;
}.

Record writers_ok (s : Stream) (work : list (bool * Z)) (m : gmap Z Writer) : Prop := {
  wo_null : m !! nullptr = None;
  wo_pending : s_pending_write s <> nullptr -> exists x, m !! s_pending_write s = Some x /\ open_writer x /\
    w_continuation x <> None /\ (false, s_pending_write s) ∉ work;
  wo_work a : (false, a) ∈ work -> exists x result, m !! a = Some x /\ finished_writer result x;
  wo_all a x : m !! a = Some x -> a = s_pending_write s \/ (false, a) ∈ work;
}.

Definition is_pending (dir : bool) (s : Stream) : bool := negb (pending_of dir s =? nullptr).

Definition life_ok (s : Stream) : Prop :=
  match SL.resource_ (s_lifecycle s) with
  | SL.ResourceState.kClosed => s_socket s = -1 /\ (forall dir, pending_of dir s = nullptr)
  | _ => 0 <= s_socket s
  end.

(** Promises of the kernel: errno values, and counts that fit ssize_t. *)
Definition errno_ok (error : Z) : Prop := 0 < error < 2 ^ 31.
Definition recv_ok (a : recv_answer) : Prop :=
  match a with RecvData bytes => Z.of_nat (length bytes) <= IoResultState.int64_max | RecvErrno error => errno_ok error end.
Definition send_ok (a : send_answer) : Prop := match a with SendCount _ => True | SendErrno error => errno_ok error end.

Record core (u : option bool) (w : world) : Prop := {
  co_owner : s_loop (st w) = true /\ s_participant (st w) = true;
  co_chan : chan (is_pending true (st w)) (is_pending false (st w)) (s_socket (st w)) (poller w) (s_channel (st w));
  co_life : life_ok (st w);
  co_timers : timers_ok u (st w) (lp w);
  co_readers : readers_ok (st w) (l_work (lp w)) (readers w);
  co_writers : writers_ok (st w) (l_work (lp w)) (writers w);
  co_nodup : NoDup (l_work (lp w));
  co_recv : Forall recv_ok (k_recv (sock w));
  co_send : Forall send_ok (k_send (sock w));
}.

Lemma pending_open w u dir : core u w -> pending_of dir (st w) <> nullptr -> 0 <= s_socket (st w).
Proof. intros H Hp. pose proof (co_life _ _ H) as Hl. unfold life_ok in Hl. destruct (SL.resource_ _); try done. by destruct Hl as [_ Hl]; rewrite Hl in Hp. Qed.

(** *** Timers *)

Definition clear_slot (dir : bool) (s : Stream) : Stream := if dir then set_read_slot s nullptr kNone else set_write_slot s nullptr.

Lemma drop_timer u dir s l g : timers_ok u s l -> u <> Some (negb dir) ->
  timers_ok (Some dir) (set_timer dir s kInvalidTimer g) (if negb (timer_of dir s =? kInvalidTimer) then Cancel l (timer_of dir s) else l).
Proof.
  intros [K1 K2 K3 K4] Hu. set (s' := set_timer dir s kInvalidTimer g).
  assert (forall d, pending_of d s' = pending_of d s /\ deadline_of d s' = deadline_of d s) as Hs by (by destruct dir; intros []).
  assert (forall d, d <> dir -> timer_of d s' = timer_of d s /\ generation_of d s' = generation_of d s) as Ho by (by destruct dir; intros []).
  assert (timer_of dir s' = kInvalidTimer) as Hd by (by destruct dir).
  assert (forall d, Some dir <> Some d -> pending_of d s' <> nullptr -> deadline_of d s' <> None -> timer_of d s' <> kInvalidTimer) as H4.
  { intros d Hn. destruct (decide (d = dir)) as [->|Hne]; [done|]. destruct (Ho d Hne) as [-> _], (Hs d) as [-> ->]. apply K4. destruct d, dir; try done; intros ->; by destruct Hu. }
  destruct (Z.eqb_spec (timer_of dir s) kInvalidTimer) as [E|E]; cbn [negb]; split; try done.
  - intros d Ht. destruct (decide (d = dir)) as [->|Hne]; [done|]. destruct (Ho d Hne) as [Et Eg], (Hs d) as [-> ->]. rewrite Et, Eg in *. auto.
  - intros id d dr gg Hg. destruct (K2 id d dr gg Hg) as [Ei Hi]. destruct (decide (dr = dir)) as [->|Hne]; [rewrite E in Ei; subst; unfold kInvalidTimer in *; lia|].
    destruct (Ho dr Hne) as [-> _]. auto.
  - intros d Ht. destruct (decide (d = dir)) as [->|Hne]; [done|]. destruct (Ho d Hne) as [Et Eg], (Hs d) as [-> ->]. rewrite Et, Eg in *.
    destruct (K1 d Ht) as (Hp & dl & Hdl & Hl). split; [done|]. exists dl. split; [done|]. cbn. rewrite lookup_delete_ne; [done|].
    intros Eq. destruct (K1 dir E) as (_ & dl' & _ & Hl'). rewrite Eq, Hl in Hl'. by injection Hl' as _ ->.
  - intros id d dr gg. cbn [l_timers l_next_timer Cancel]. intros [Hne Hg]%lookup_delete_Some. destruct (K2 id d dr gg Hg) as [Ei Hi].
    destruct (decide (dr = dir)) as [->|Hne']; [by subst|]. destruct (Ho dr Hne') as [-> _]. auto.
Qed.

Lemma cancel_timers u dir w : timers_ok u (st w) (lp w) -> u <> Some (negb dir) ->
  timers_ok (Some dir) (st (CancelDeadline dir w)) (lp (CancelDeadline dir w)) /\ timer_of dir (st (CancelDeadline dir w)) = kInvalidTimer.
Proof.
  intros H Hu. pose proof (drop_timer u dir _ _ (uint64 (generation_of dir (st w) + 1)) H Hu) as Hd. unfold CancelDeadline.
  revert Hd. destruct (negb (timer_of dir (st w) =? kInvalidTimer)); intros Hd; (split; [exact Hd | by destruct dir]).
Qed.

Lemma clear_timers dir s l : timers_ok (Some dir) s l -> timer_of dir s = kInvalidTimer -> timers_ok None (clear_slot dir s) l.
Proof.
  intros [K1 K2 K3 K4] E. split; [| |done|].
  - intros d. specialize (K1 d). destruct dir, d; cbn in *; auto; done.
  - intros id d dr gg Hg. destruct (K2 id d dr gg Hg). by destruct dir, dr.
  - intros d _. specialize (K4 d). destruct dir, d; cbn in *; auto; done.
Qed.

(** What a direction without a pending operation may lack is nothing. *)
Lemma timers_idle u dir s l : timers_ok u s l -> u <> Some (negb dir) -> pending_of dir s = nullptr -> timers_ok None s l.
Proof.
  intros [K1 K2 K3 K4] Hu Hp. split; try done. intros d _ Hd. apply K4; [|done]. intros ->. apply Hu. f_equal. by destruct d, dir.
Qed.

(** ** Completion *)

(** The bytes of the operation at [p]. *)
Definition seg (w : world) (p : bool * Z) : list byte :=
  if p.1 then from_option r_data [] (readers w !! p.2) else from_option w_sent [] (writers w !! p.2).

(** What is unchanged when operations complete or deadlines move. *)
Record stable (w w' : world) : Prop := {
  sb_life : s_lifecycle (st w') = s_lifecycle (st w);
  sb_socket : s_socket (st w') = s_socket (st w);
  sb_channel : s_channel (st w') = s_channel (st w);
  sb_sock : sock w' = sock w;
  sb_loop : l_state (lp w') = l_state (lp w) /\ l_now (lp w') = l_now (lp w);
  sb_seg p : seg w' p = seg w p;
  sb_readers : r_request <$> readers w' = r_request <$> readers w;
  sb_writers : w_request <$> writers w' = w_request <$> writers w;
}.

#[global] Instance stable_refl : Reflexive stable.
Proof. by split. Qed.

#[global] Instance stable_trans : Transitive stable.
Proof. intros w1 w2 w3 [A1 A2 A3 A4 A5 A6 A7 A8] [B1 B2 B3 B4 B5 B6 B7 B8]. split; try congruence. destruct A5, B5; split; congruence. Qed.

(** The pending operation of direction [dir] moves to the end of the queue. *)
Record completes (dir : bool) (w w' : world) : Prop := {
  cp_stable : stable w w';
  cp_pending : pending_of dir (st w') = nullptr;
  cp_other : pending_of (negb dir) (st w') = pending_of (negb dir) (st w);
  cp_deadline d : deadline_of d (st w') = deadline_of d (st w);
  cp_work : l_work (lp w') = l_work (lp w) ++ (if is_pending dir (st w) then [(dir, pending_of dir (st w))] else []);
}.

Lemma cancel_shape dir w : exists l, CancelDeadline dir w = set_lp (set_st w (set_timer dir (st w) kInvalidTimer (uint64 (generation_of dir (st w) + 1)))) l /\
  l_work l = l_work (lp w) /\ l_state l = l_state (lp w) /\ l_now l = l_now (lp w).
Proof. unfold CancelDeadline. destruct (negb _); [eexists; split; [reflexivity|]; done | exists (lp w); by destruct w]. Qed.

Lemma disable_reading_w rd wr w : chan rd wr (s_socket (st w)) (poller w) (s_channel (st w)) -> 0 <= s_socket (st w) ->
  exists p, disable_reading w = Val (set_poller w p) /\ chan false wr (s_socket (st w)) p (s_channel (st w)).
Proof.
  intros H Hs. pose proof H as [_ (c & Hc)]. unfold disable_reading, channel, EpollPoller.deref. rewrite (ch_at _ _ _ _ _ _ Hc), bind_val.
  destruct (EpollPoller.IsReading c).
  - destruct (disable_reading_ok _ _ _ _ _ H Hs) as (p & E & Hp). unfold channel_do. rewrite E, bind_val. eauto.
  - exists (poller w). split; [by destruct w|]. by eapply chan_weaken.
Qed.

Lemma disable_writing_w rd wr w : chan rd wr (s_socket (st w)) (poller w) (s_channel (st w)) -> 0 <= s_socket (st w) ->
  exists p, disable_writing w = Val (set_poller w p) /\ chan rd false (s_socket (st w)) p (s_channel (st w)).
Proof.
  intros H Hs. pose proof H as [_ (c & Hc)]. unfold disable_writing, channel, EpollPoller.deref. rewrite (ch_at _ _ _ _ _ _ Hc), bind_val.
  destruct (EpollPoller.IsWriting c).
  - destruct (disable_writing_ok _ _ _ _ _ H Hs) as (p & E & Hp). unfold channel_do. rewrite E, bind_val. eauto.
  - exists (poller w). split; [by destruct w|]. by eapply chan_weaken.
Qed.

Definition push_work (l : Loop) (p : bool * Z) : Loop :=
  mkLoop (l_state l) (l_work l ++ [p]) (l_timers l) (l_next_timer l) (l_now l) (l_room l).

Lemma Schedule_ok w p : p ∉ l_work (lp w) -> Schedule w p = Val (set_lp w (push_work (lp w) p)).
Proof. intros H. unfold Schedule. by rewrite bool_decide_true, check_true, bind_val. Qed.

Lemma push_nodup l p : NoDup (l_work l) -> p ∉ l_work l -> NoDup (l_work (push_work l p)).
Proof. intros H Hp. apply NoDup_app. split_and!; [done| |apply NoDup_singleton]. by intros x Hx ->%list_elem_of_singleton. Qed.

(** Readers after the pending one completed. *)
Lemma complete_readers s work m r' result : readers_ok s work m -> s_pending_read s <> nullptr -> finished result r' ->
  readers_ok (set_read_slot s nullptr kNone) (work ++ [(true, s_pending_read s)]) (<[s_pending_read s := r']> m).
Proof.
  intros [K1 K2 K3 K4] Hp Hf. split; cbn [s_pending_read set_read_slot]; [| done | |].
  - by rewrite lookup_insert_ne.
  - intros a Ha. destruct (decide (a = s_pending_read s)) as [->|Hne]; [by rewrite lookup_insert_eq; eexists _, result|]. rewrite lookup_insert_ne by done.
    apply K3. apply elem_of_app in Ha as [|Ha%list_elem_of_singleton]; [done | by injection Ha].
  - intros a r Ha. right. apply elem_of_app. destruct (decide (a = s_pending_read s)) as [->|Hne]; [right; by apply list_elem_of_singleton|].
    rewrite lookup_insert_ne in Ha by done. destruct (K4 a r Ha); [done | auto].
Qed.

Lemma complete_writers s work m x' result : writers_ok s work m -> s_pending_write s <> nullptr -> finished_writer result x' ->
  writers_ok (set_write_slot s nullptr) (work ++ [(false, s_pending_write s)]) (<[s_pending_write s := x']> m).
Proof.
  intros [K1 K2 K3 K4] Hp Hf. split; cbn [s_pending_write set_write_slot]; [| done | |].
  - by rewrite lookup_insert_ne.
  - intros a Ha. destruct (decide (a = s_pending_write s)) as [->|Hne]; [by rewrite lookup_insert_eq; eexists _, result|]. rewrite lookup_insert_ne by done.
    apply K3. apply elem_of_app in Ha as [|Ha%list_elem_of_singleton]; [done | by injection Ha].
  - intros a r Ha. right. apply elem_of_app. destruct (decide (a = s_pending_write s)) as [->|Hne]; [right; by apply list_elem_of_singleton|].
    rewrite lookup_insert_ne in Ha by done. destruct (K4 a r Ha); [done | auto].
Qed.

(** Work of the other direction does not matter. *)
Lemma readers_frame s s' work work' m : readers_ok s work m -> s_pending_read s' = s_pending_read s -> s_pending_read_kind s' = s_pending_read_kind s ->
  (forall a, (true, a) ∈ work' <-> (true, a) ∈ work) -> readers_ok s' work' m.
Proof. intros [K1 K2 K3 K4] E1 E2 Hw. split; rewrite ?E1, ?E2; [done | | |]; setoid_rewrite Hw; auto. Qed.

Lemma writers_frame s s' work work' m : writers_ok s work m -> s_pending_write s' = s_pending_write s ->
  (forall a, (false, a) ∈ work' <-> (false, a) ∈ work) -> writers_ok s' work' m.
Proof. intros [K1 K2 K3 K4] E1 Hw. split; rewrite ?E1; [done | | |]; setoid_rewrite Hw; auto. Qed.

Lemma other_work (dir : bool) (a : Z) (p : bool * Z) work : p.1 <> dir -> (dir, a) ∈ work ++ [p] <-> (dir, a) ∈ work.
Proof. intros Hne. rewrite elem_of_app, list_elem_of_singleton. split; [|auto]. intros [|<-]; [done | by destruct Hne]. Qed.

Lemma is_pending_true dir s : is_pending dir s = true <-> pending_of dir s <> nullptr.
Proof. unfold is_pending. by rewrite negb_true_iff, Z.eqb_neq. Qed.

Lemma is_pending_false dir s : is_pending dir s = false <-> pending_of dir s = nullptr.
Proof. unfold is_pending. by rewrite negb_false_iff, Z.eqb_eq. Qed.

Lemma core_idle u dir w : core u w -> u <> Some (negb dir) -> pending_of dir (st w) = nullptr -> core None w.
Proof. intros [K1 K2 K3 K4 K5 K6 K7 K8 K9] Hu Hp. split; try done. by eapply timers_idle. Qed.

Lemma completes_refl dir w : pending_of dir (st w) = nullptr -> completes dir w w.
Proof. intros Hp. split; try done. by rewrite (proj2 (is_pending_false _ _) Hp), app_nil_r. Qed.

(** The bytes of an operation do not change when its awaiter completes. *)
Lemma seg_insert_reader (m : gmap Z Reader) a r r' b : m !! a = Some r -> r_data r' = r_data r ->
  from_option r_data [] (<[a := r']> m !! b) = from_option r_data [] (m !! b).
Proof. intros Ha E. destruct (decide (b = a)) as [->|]; [rewrite lookup_insert_eq, Ha; exact E | by rewrite lookup_insert_ne]. Qed.

Lemma seg_insert_writer (m : gmap Z Writer) a x x' b : m !! a = Some x -> w_sent x' = w_sent x ->
  from_option w_sent [] (<[a := x']> m !! b) = from_option w_sent [] (m !! b).
Proof. intros Ha E. destruct (decide (b = a)) as [->|]; [rewrite lookup_insert_eq, Ha; exact E | by rewrite lookup_insert_ne]. Qed.

Lemma fmap_insert_same {A B} (f : A -> B) (m : gmap Z A) a x x' : m !! a = Some x -> f x' = f x -> f <$> <[a := x']> m = f <$> m.
Proof. intros Ha E. rewrite fmap_insert, E. apply insert_id. by rewrite lookup_fmap, Ha. Qed.

Definition read_fits (result : ResultE N) (w : world) : Prop :=
  forall r, readers w !! s_pending_read (st w) = Some r -> fits result (r_data r).
Definition written (result : ResultE N) (w : world) : Prop :=
  forall x, writers w !! s_pending_write (st w) = Some x -> write_fits result x.

Definition authorized (r : Reader) : Reader := set_r_life r (SingleResultLifecycle.mk SingleResultLifecycle.kContinuationAuthorized).

(** The state after the pending read completed. *)
Definition read_completed (w : world) (l : Loop) (p : P.world) (r : Reader) : world :=
  mkWorld (set_read_slot (set_timer true (st w) kInvalidTimer (uint64 (generation_of true (st w) + 1))) nullptr kNone) p
    (<[s_pending_read (st w) := r]> (readers w)) (writers w) (push_work l (true, s_pending_read (st w))) (sock w).

Lemma CompleteRead_run u w result r r1 : core u w -> s_pending_read (st w) <> nullptr -> readers w !! s_pending_read (st w) = Some r ->
  r_kind r = s_pending_read_kind (st w) -> r_kind r <> kNone -> r_continuation r <> None -> (true, s_pending_read (st w)) ∉ l_work (lp w) ->
  CompleteResult r result = Val (r1, true) -> same_operation r r1 -> r_lifecycle r1 = SingleResultLifecycle.mk SingleResultLifecycle.kResultReady ->
  exists l p, CompleteRead w result = Val (read_completed w l p (authorized r1)) /\
    CancelDeadline true w = set_lp (set_st w (set_timer true (st w) kInvalidTimer (uint64 (generation_of true (st w) + 1)))) l /\
    l_work l = l_work (lp w) /\ l_state l = l_state (lp w) /\ l_now l = l_now (lp w) /\
    chan false (is_pending false (st w)) (s_socket (st w)) p (s_channel (st w)).
Proof.
  intros H Hp Hr Ek Hk Hc Hn Ec [Eq E3] El. injection Eq as E2 E1 _ _. destruct (cancel_shape true w) as (l & Ew & Hl). unfold CompleteRead.
  rewrite (proj2 (Z.eqb_neq _ _) Hp), Ew. unfold get_reader. cbn [readers set_lp set_st].
  rewrite (bool_decide_false (s_pending_read_kind (st w) = kNone)) by congruence. cbn [negb]. rewrite check_true, bind_val.
  rewrite Hr, bind_val, (bool_decide_true (r_kind r = s_pending_read_kind (st w)) Ek), check_true, bind_val.
  rewrite Ec, bind_val, check_true, bind_val. unfold TryAuthorizeRelease. rewrite El.
  change (SingleResultLifecycle.TryAuthorizeRelease (SingleResultLifecycle.mk SingleResultLifecycle.kResultReady)) with (SingleResultLifecycle.mk SingleResultLifecycle.kReleaseAuthorized, true).
  cbv beta iota. rewrite check_true, bind_val. cbn [st set_lp set_st set_timer s_pending_read s_pending_read_kind].
  rewrite Z.eqb_refl, (bool_decide_true (s_pending_read_kind (st w) = _) eq_refl). cbn [andb]. rewrite check_true, bind_val.
  set (w1 := put_reader _ _ _).
  assert (exists p, (if terminal result then disable_reading w1 else Val w1) = Val (set_poller w1 p) /\
    chan false (is_pending false (st w)) (s_socket (st w)) p (s_channel (st w))) as (p & -> & Hch).
  { pose proof (pending_open w u true H Hp) as Hs. destruct (terminal result).
    - exact (disable_reading_w (is_pending true (st w)) (is_pending false (st w)) w1 (co_chan _ _ H) Hs).
    - exists (poller w). split; [done|]. eapply chan_weaken; [exact (co_chan _ _ H) | done | done]. }
  rewrite bind_val. cbn [readers set_poller put_reader set_readers w1]. rewrite lookup_insert_eq, bind_val.
  change (TryAuthorizeContinuation (set_r_life r1 (SingleResultLifecycle.mk SingleResultLifecycle.kReleaseAuthorized))) with (authorized r1, true).
  cbv beta iota. rewrite check_true, bind_val. cbn [r_continuation authorized set_r_life]. rewrite E2, bool_decide_true, check_true, bind_val by done.
  exists l, p. split; [|by destruct Hl as (? & ? & ?)]. rewrite Schedule_ok.
  - unfold read_completed, put_reader, w1. cbn. by rewrite insert_insert_eq.
  - cbn. by destruct Hl as [-> _].
Qed.

Lemma CompleteRead_ok u w result : core u w -> u <> Some false -> read_fits result w -> encodable result ->
  exists w', CompleteRead w result = Val w' /\ core None w' /\ completes true w w'.
Proof.
  intros H Hu Hf He. destruct (decide (s_pending_read (st w) = nullptr)) as [Hp|Hp].
  { exists w. unfold CompleteRead. rewrite Hp. split; [done|]. split; [by apply (core_idle u true) | by apply completes_refl]. }
  destruct (ro_pending _ _ _ (co_readers _ _ H) Hp) as (r & Hr & Ho & Hc & Ek & Hn).
  destruct (CompleteResult_ok result r Ho (Hf r Hr) He) as (r1 & Ec & Hfin & Hsame & El & _).
  destruct (CompleteRead_run u w result r r1) as (l & p & E & Ew & Ewk & Els & Eln & Hch); try done; [apply Ho|].
  destruct Hsame as [Eq E3].
  exists (read_completed w l p (authorized r1)). split; [exact E|]. clear E. pose proof H as [K1 K2 K3 K4 K5 K6 K7 K8 K9].
  destruct (cancel_timers u true w K4 Hu) as [Ht Ht0]. rewrite Ew in Ht, Ht0. cbn [st lp set_lp set_st] in Ht, Ht0. split.
  - split; cbn [st poller readers writers lp sock read_completed]; try done.
    + unfold life_ok in *. cbn -[pending_of]. destruct (SL.resource_ _); try done. destruct K3 as [? K3]. by destruct (Hp (K3 true)).
    + pose proof (clear_timers true _ _ Ht Ht0) as []. by split.
    + eapply readers_frame; [exact (complete_readers _ _ _ (authorized r1) result K5 Hp ltac:(by destruct Hfin; split)) | done | done |].
      intros b. cbn. by rewrite Ewk.
    + eapply writers_frame; [exact K6 | done |]. intros b. cbn [l_work push_work]. rewrite Ewk. by apply other_work.
    + apply push_nodup; by rewrite Ewk.
  - split; [split|..]; try done.
    + intros [[] b]; cbn; [|done]. by apply (seg_insert_reader _ _ r).
    + cbn. by apply (fmap_insert_same _ _ _ r).
    + cbn [l_work lp read_completed push_work]. rewrite (proj2 (is_pending_true true _) Hp), Ewk. done.
Qed.

(** The state after the pending write completed. *)
Definition write_completed (w : world) (l : Loop) (p : P.world) (x : Writer) : world :=
  mkWorld (set_write_slot (set_timer false (st w) kInvalidTimer (uint64 (generation_of false (st w) + 1))) nullptr) p
    (readers w) (<[s_pending_write (st w) := x]> (writers w)) (push_work l (false, s_pending_write (st w))) (sock w).

Definition write_authorized (x : Writer) : Writer := set_w_life x (SingleResultLifecycle.mk SingleResultLifecycle.kContinuationAuthorized).

Lemma CompleteWrite_run u w result x x1 : core u w -> s_pending_write (st w) <> nullptr -> writers w !! s_pending_write (st w) = Some x ->
  w_continuation x <> None -> (false, s_pending_write (st w)) ∉ l_work (lp w) ->
  write_CompleteResult x result = Val (x1, true) -> w_continuation x1 = w_continuation x -> w_lifecycle x1 = SingleResultLifecycle.mk SingleResultLifecycle.kResultReady ->
  exists l p, CompleteWrite w result = Val (write_completed w l p (write_authorized x1)) /\
    CancelDeadline false w = set_lp (set_st w (set_timer false (st w) kInvalidTimer (uint64 (generation_of false (st w) + 1)))) l /\
    l_work l = l_work (lp w) /\ l_state l = l_state (lp w) /\ l_now l = l_now (lp w) /\
    chan (is_pending true (st w)) false (s_socket (st w)) p (s_channel (st w)).
Proof.
  intros H Hp Hr Hc Hn Ec E2 El. destruct (cancel_shape false w) as (l & Ew & Hl). unfold CompleteWrite.
  rewrite (proj2 (Z.eqb_neq _ _) Hp), Ew. unfold get_writer. cbn [writers set_lp set_st].
  rewrite Hr, bind_val, Ec, bind_val, check_true, bind_val. unfold write_authorize at 1. rewrite El.
  change (SingleResultLifecycle.TryAuthorizeRelease (SingleResultLifecycle.mk SingleResultLifecycle.kResultReady)) with (SingleResultLifecycle.mk SingleResultLifecycle.kReleaseAuthorized, true).
  cbv beta iota. rewrite check_true, bind_val. cbn [st set_lp set_st set_timer s_pending_write]. rewrite Z.eqb_refl, check_true, bind_val.
  set (w1 := put_writer _ _ _).
  destruct (disable_writing_w (is_pending true (st w)) (is_pending false (st w)) w1 (co_chan _ _ H) (pending_open w u false H Hp)) as (p & -> & Hch).
  rewrite bind_val. cbn [writers set_poller put_writer set_writers w1]. rewrite lookup_insert_eq, bind_val.
  change (write_authorize (set_w_life x1 (SingleResultLifecycle.mk SingleResultLifecycle.kReleaseAuthorized)) SingleResultLifecycle.TryAuthorizeContinuation) with (write_authorized x1, true).
  cbv beta iota. rewrite check_true, bind_val. cbn [w_continuation write_authorized set_w_life]. rewrite E2, bool_decide_true, check_true, bind_val by done.
  exists l, p. split; [|by destruct Hl as (? & ? & ?)]. rewrite Schedule_ok.
  - unfold write_completed, put_writer, w1. cbn. by rewrite insert_insert_eq.
  - cbn. by destruct Hl as [-> _].
Qed.

Lemma CompleteWrite_ok u w result : core u w -> u <> Some true -> written result w -> encodable result ->
  exists w', CompleteWrite w result = Val w' /\ core None w' /\ completes false w w'.
Proof.
  intros H Hu Hf He. destruct (decide (s_pending_write (st w) = nullptr)) as [Hp|Hp].
  { exists w. unfold CompleteWrite. rewrite Hp. split; [done|]. split; [by apply (core_idle u false) | by apply completes_refl]. }
  destruct (wo_pending _ _ _ (co_writers _ _ H) Hp) as (x & Hr & Ho & Hc & Hn).
  destruct (write_CompleteResult_ok result x Ho (Hf x Hr) He) as (x1 & Ec & Hfin & E1 & E2 & E3 & El & _).
  destruct (CompleteWrite_run u w result x x1) as (l & p & E & Ew & Ewk & Els & Eln & Hch); try done.
  exists (write_completed w l p (write_authorized x1)). split; [exact E|]. clear E. pose proof H as [K1 K2 K3 K4 K5 K6 K7 K8 K9].
  destruct (cancel_timers u false w K4 Hu) as [Ht Ht0]. rewrite Ew in Ht, Ht0. cbn [st lp set_lp set_st] in Ht, Ht0. split.
  - split; cbn [st poller readers writers lp sock write_completed]; try done.
    + unfold life_ok in *. cbn -[pending_of]. destruct (SL.resource_ _); try done. destruct K3 as [? K3]. by destruct (Hp (K3 false)).
    + pose proof (clear_timers false _ _ Ht Ht0) as []. by split.
    + eapply readers_frame; [exact K5 | done | done |]. intros b. cbn [l_work push_work]. rewrite Ewk. by apply other_work.
    + eapply writers_frame; [exact (complete_writers _ _ _ (write_authorized x1) result K6 Hp ltac:(by destruct Hfin; split)) | done |].
      intros b. cbn. by rewrite Ewk.
    + apply push_nodup; by rewrite Ewk.
  - split; [split|..]; try done.
    + intros [[] b]; cbn; [done|]. by apply (seg_insert_writer _ _ x).
    + cbn. apply (fmap_insert_same _ _ _ x); [done|]. unfold w_request. cbn. by rewrite E1, E3.
    + cbn [l_work lp write_completed push_work]. rewrite (proj2 (is_pending_true false _) Hp), Ewk. done.
Qed.

Lemma Complete_err dir u w e : core u w -> u <> Some (negb dir) -> (forall r, readers w !! s_pending_read (st w) = Some r -> r_data r = []) ->
  encodable (Err e) -> exists w', Complete dir w (Err e) = Val w' /\ core None w' /\ completes dir w w'.
Proof. intros H Hu Hq He. destruct dir; [apply (CompleteRead_ok u); try done; intros r Hr; cbn; auto | by apply (CompleteWrite_ok u)]. Qed.

(** ** The ledger of bytes *)

Definition of_dir (dir : bool) (p : bool * Z) : Prop := p.1 = dir.
#[global] Instance of_dir_dec dir p : Decision (of_dir dir p).
Proof. unfold of_dir. solve_decision. Defined.

Definition bytes_of (dir : bool) (k : Socket) : list byte := if dir then k_received k else k_sent k.
Definition scheduled (dir : bool) (w : world) : list (list byte) := seg w <$> filter (of_dir dir) (l_work (lp w)).

(** The bytes that passed are the whole segments of the delivered operations [log]
    and of the scheduled ones, then those of the pending one. *)
Definition led (dir : bool) (log : list (list byte)) (w : world) : Prop :=
  exists segs, bytes_of dir (sock w) = concat segs ++ seg w (dir, pending_of dir (st w)) /\ segs ≡ₚ log ++ scheduled dir w.

(** No attempt left bytes with the pending reader. *)
Definition quiet (w : world) : Prop := seg w (true, s_pending_read (st w)) = [].

Lemma null_seg u w dir : core u w -> seg w (dir, nullptr) = [].
Proof. intros H. unfold seg. cbn. destruct dir; [by rewrite (ro_null _ _ _ (co_readers _ _ H)) | by rewrite (wo_null _ _ _ (co_writers _ _ H))]. Qed.

Lemma quiet_reader w r : quiet w -> readers w !! s_pending_read (st w) = Some r -> r_data r = [].
Proof. unfold quiet, seg. cbn. intros Hq Hr. by rewrite Hr in Hq. Qed.

Record keeps (w w' : world) : Prop := {
  kp_stable : stable w w';
  kp_led dir log : led dir log w -> led dir log w';
  kp_quiet : quiet w -> quiet w';
}.

#[global] Instance keeps_refl : Reflexive keeps.
Proof. by split. Qed.

#[global] Instance keeps_trans : Transitive keeps.
Proof. intros w1 w2 w3 [A1 A2 A3] [B1 B2 B3]. split; [by etrans | auto | auto]. Qed.

Lemma scheduled_app dir w w' l : (forall p, seg w' p = seg w p) -> l_work (lp w') = l_work (lp w) ++ l ->
  scheduled dir w' = scheduled dir w ++ (seg w <$> filter (of_dir dir) l).
Proof. intros Hs Hw. unfold scheduled. rewrite Hw, filter_app, fmap_app. f_equal; apply list_fmap_ext; auto. Qed.

Lemma completes_keeps dir u w w' : completes dir w w' -> core u w' -> keeps w w'.
Proof.
  intros [K1 K2 K3 K4 K5] H'. pose proof K1 as [_ _ _ Ek _ Es _ _]. split; [done | |].
  - intros d log (segs & E & Hp). rewrite <- Ek in E. destruct (decide (d = dir)) as [->|Hne].
    + exists (segs ++ (seg w <$> filter (of_dir dir) (if is_pending dir (st w) then [(dir, pending_of dir (st w))] else []))).
      rewrite (scheduled_app dir w w' _ Es K5), K2, (null_seg u w' dir H'), app_nil_r, concat_app. split; [|by rewrite Hp, app_assoc].
      rewrite E. f_equal. destruct (is_pending dir (st w)) eqn:Ep.
      * rewrite filter_cons_True by done. cbn. by rewrite app_nil_r.
      * apply is_pending_false in Ep. rewrite Ep, <- (Es (dir, nullptr)). by rewrite (null_seg u w').
    + assert (d = negb dir) as -> by (by destruct d, dir). exists segs. rewrite K3, Es, (scheduled_app _ w w' _ Es K5). split; [done|].
      rewrite Hp. f_equiv. destruct (is_pending dir (st w)); [|by rewrite app_nil_r]. rewrite filter_cons_False; [by rewrite app_nil_r|].
      unfold of_dir. cbn. by destruct dir.
  - unfold quiet. destruct dir; cbn in K2, K3; [intros _; rewrite K2; by apply (null_seg u) | by rewrite K3, Es].
Qed.

(** Changing deadlines and timers. *)
Record retimed (w w' : world) : Prop := {
  rt_stable : stable w w';
  rt_pending dir : pending_of dir (st w') = pending_of dir (st w);
  rt_work : l_work (lp w') = l_work (lp w);
}.

Lemma retimed_keeps w w' : retimed w w' -> keeps w w'.
Proof.
  intros [K1 K2 K3]. pose proof K1 as [_ _ _ Ek _ Es _ _]. split; [done | |].
  - intros d log (segs & E & Hp). exists segs. rewrite Ek, K2, Es. split; [done|]. unfold scheduled. rewrite K3.
    rewrite Hp. f_equiv. unfold scheduled. erewrite list_fmap_ext; [reflexivity|]. auto.
  - unfold quiet. pose proof (K2 true) as E. cbn in E. by rewrite E, Es.
Qed.

(** ** Deadlines *)

Lemma ETIMEDOUT_ok : encodable (Err (Errno ETIMEDOUT)). Proof. done. Qed.
Lemma ENOMEM_ok : encodable (Err (Errno ENOMEM)). Proof. done. Qed.
Lemma ECANCELED_ok : encodable (Err (Errno ECANCELED)). Proof. done. Qed.

Lemma arm_timers dir s l d : timers_ok (Some dir) s l -> timer_of dir s = kInvalidTimer -> deadline_of dir s = Some d -> pending_of dir s <> nullptr ->
  forall g room, timers_ok None (set_timer dir s (l_next_timer l) g)
    (mkLoop (l_state l) (l_work l) (<[l_next_timer l := (d, dir, g)]> (l_timers l)) (l_next_timer l + 1) (l_now l) room).
Proof.
  intros [K1 K2 K3 K4] Ht Hd Hp g room. set (s' := set_timer dir s (l_next_timer l) g).
  assert (forall d, pending_of d s' = pending_of d s /\ deadline_of d s' = deadline_of d s) as Hs by (by destruct dir; intros []).
  assert (forall d, d <> dir -> timer_of d s' = timer_of d s /\ generation_of d s' = generation_of d s) as Ho by (by destruct dir; intros []).
  assert (timer_of dir s' = l_next_timer l /\ generation_of dir s' = g) as [Hd1 Hd2] by (by destruct dir).
  split; cbn [l_timers l_next_timer]; [| |lia|].
  - intros dr Hne. destruct (Hs dr) as [-> ->]. destruct (decide (dr = dir)) as [->|Hn].
    + split; [done|]. exists d. rewrite Hd1, Hd2, lookup_insert_eq. done.
    + destruct (Ho dr Hn) as [Et Eg]. rewrite Et, Eg in *. destruct (K1 dr Hne) as (Hpp & d' & Hd' & Hl). split; [done|]. exists d'. split; [done|].
      rewrite lookup_insert_ne; [done|]. destruct (K2 _ _ _ _ Hl) as [_ ?]. lia.
  - intros id dd dr gg Hg. destruct (decide (id = l_next_timer l)) as [->|Hn].
    + rewrite lookup_insert_eq in Hg. injection Hg as <- <- <-. rewrite Hd1. lia.
    + rewrite lookup_insert_ne in Hg by done. destruct (K2 _ _ _ _ Hg) as [E ?]. destruct (decide (dr = dir)) as [->|Hn'].
      * rewrite Ht in E. unfold kInvalidTimer in E. lia.
      * destruct (Ho dr Hn') as [-> _]. lia.
  - intros dr _. destruct (Hs dr) as [-> ->]. destruct (decide (dr = dir)) as [->|Hn].
    + intros _ _. rewrite Hd1. unfold kInvalidTimer. lia.
    + destruct (Ho dr Hn) as [-> _]. apply K4. congruence.
Qed.

Lemma ArmDeadline_ok dir w : core (Some dir) w -> timer_of dir (st w) = kInvalidTimer -> quiet w ->
  exists w' b, ArmDeadline dir w = Val (w', b) /\ keeps w w' /\ if (b : bool) then core None w' else core (Some dir) w'.
Proof.
  intros H Ht Hq. unfold ArmDeadline. pose proof H as [K1 K2 K3 K4 K5 K6 K7 K8 K9].
  destruct (deadline_of dir (st w)) as [d|] eqn:Ed.
  2: { eexists _, true. split; [reflexivity|]. split; [done|]. split; try done. pose proof K4 as [T1 T2 T3 T4]. split; try done. intros dr _ Hp Hd. apply T4; congruence. }
  destruct (Z.eqb_spec (pending_of dir (st w)) nullptr) as [Hp|Hp].
  { eexists _, true. split; [reflexivity|]. split; [done|]. apply (core_idle (Some dir) dir); try done. by destruct dir. }
  destruct (Z.leb_spec d (l_now (lp w))).
  { destruct (Complete_err dir (Some dir) w (Errno ETIMEDOUT) H ltac:(by destruct dir) ltac:(intros r; by apply quiet_reader) ETIMEDOUT_ok) as (w' & -> & H' & Hc).
    rewrite bind_val. eexists _, true. split; [reflexivity|]. split; [by eapply completes_keeps | done]. }
  set (g := uint64 (generation_of dir (st w) + 1)). pose proof (arm_timers dir (st w) (lp w) d K4 Ht Ed Hp g) as Ha.
  unfold RunAt. cbn [lp set_st]. destruct (l_room (lp w)) as [|[] room] eqn:Er.
  1, 2: eexists _, true; split; [reflexivity|]; split; [apply retimed_keeps; destruct dir; split; try done; try (by split); by intros [] |].
  1, 2: destruct dir; split; try done; try (exact (Ha _)); try (by eapply readers_frame); try (by eapply writers_frame).
  eexists _, false. split; [reflexivity|]. split; [apply retimed_keeps; destruct dir; split; try done; try (by split); by intros []|].
  pose proof K4 as [T1 T2 T3 T4].
  assert (timers_ok (Some dir) (set_timer dir (st w) (timer_of dir (st w)) g) (lp w)).
  { split; [intros dr Hn; specialize (T1 dr) | | done | intros dr Hn; specialize (T4 dr)]; [destruct dir, dr; cbn in *; auto; done | | destruct dir, dr; cbn in *; auto; done].
    intros id dd dr gg Hg. specialize (T2 id dd dr gg Hg). by destruct dir, dr. }
  destruct dir; split; try done; [by eapply readers_frame | by eapply writers_frame | by eapply readers_frame | by eapply writers_frame].
Qed.

Lemma arm_or_fail dir w : core (Some dir) w -> timer_of dir (st w) = kInvalidTimer -> quiet w ->
  exists w1 b, ArmDeadline dir w = Val (w1, b) /\ exists w', (if (b : bool) then Val w1 else Complete dir w1 (Err (Errno ENOMEM))) = Val w' /\ core None w' /\ keeps w w'.
Proof.
  intros H Ht Hq. destruct (ArmDeadline_ok dir w H Ht Hq) as (w1 & b & E & Hk & H1). exists w1, b. split; [done|]. destruct b; [eauto|].
  destruct (Complete_err dir (Some dir) w1 (Errno ENOMEM) H1 ltac:(by destruct dir)) as (w' & Ew & H' & Hc).
  - intros r. apply quiet_reader. by apply (kp_quiet _ _ Hk).
  - apply ENOMEM_ok.
  - exists w'. split; [done|]. split; [done|]. etrans; [exact Hk|]. by eapply completes_keeps.
Qed.

(** Another loop and stream, the same operations. *)
Lemma core_retime u u' w s l : core u w -> timers_ok u' s l -> (forall dir, pending_of dir s = pending_of dir (st w)) ->
  s_pending_read_kind s = s_pending_read_kind (st w) -> s_loop s = s_loop (st w) -> s_participant s = s_participant (st w) ->
  s_socket s = s_socket (st w) -> s_channel s = s_channel (st w) -> s_lifecycle s = s_lifecycle (st w) -> l_work l = l_work (lp w) ->
  core u' (set_lp (set_st w s) l).
Proof.
  intros [K1 K2 K3 K4 K5 K6 K7 K8 K9] Ht Hp Ek El Epa Es Ec Elf Ew. split; cbn [st poller readers writers lp sock set_lp set_st]; try done.
  - by rewrite El, Epa.
  - unfold is_pending in *. by rewrite !Hp, Es, Ec.
  - unfold life_ok in *. rewrite Elf, Es. destruct (SL.resource_ _); try done. split; [apply K3|]. intros d. rewrite Hp. apply K3.
  - eapply readers_frame; [exact K5 | exact (Hp true) | done |]. by rewrite Ew.
  - eapply writers_frame; [exact K6 | exact (Hp false) |]. by rewrite Ew.
  - by rewrite Ew.
Qed.

Lemma fire_ok w id d dir g : core None w -> quiet w -> l_timers (lp w) !! id = Some (d, dir, g) ->
  exists w', HandleDeadline dir (set_lp w (Cancel (lp w) id)) g = Val w' /\ core None w' /\ keeps w w'.
Proof.
  intros H Hq Hl. destruct (tm_all _ _ _ (co_timers _ _ H) _ _ _ _ Hl) as [Ei Hi].
  destruct (tm_armed _ _ _ (co_timers _ _ H) dir) as (Hp & d' & Hd & Hl'); [unfold kInvalidTimer; lia|]. rewrite <- Ei, Hl in Hl'. injection Hl' as <- ->.
  unfold HandleDeadline. cbn [st set_lp]. rewrite Z.eqb_refl. cbn [negb].
  set (s' := set_timer dir (st w) kInvalidTimer (generation_of dir (st w))).
  cbn [st set_st set_lp]. assert (pending_of dir s' = pending_of dir (st w)) as -> by (by destruct dir). rewrite (proj2 (Z.eqb_neq _ _) Hp). cbn [negb].
  pose proof (drop_timer None dir (st w) (lp w) (generation_of dir (st w)) (co_timers _ _ H) ltac:(done)) as Ht.
  rewrite (proj2 (Z.eqb_neq _ _)), <- Ei in Ht by (unfold kInvalidTimer; lia).
  assert (core (Some dir) (set_lp (set_st w s') (Cancel (lp w) id))) as H1.
  { eapply core_retime; [exact H | exact Ht | ..]; try done; by destruct dir; try intros []. }
  assert (keeps w (set_lp (set_st w s') (Cancel (lp w) id))) as Hk.
  { apply retimed_keeps. split; try done; [by destruct dir; split | by destruct dir; intros []]. }
  destruct (Complete_err dir (Some dir) _ (Errno ETIMEDOUT) H1 ltac:(by destruct dir)) as (w' & Ew & H' & Hc).
  - intros r. apply quiet_reader. by apply (kp_quiet _ _ Hk).
  - apply ETIMEDOUT_ok.
  - exists w'. split; [exact Ew|]. split; [done|]. etrans; [exact Hk|]. by eapply completes_keeps.
Qed.

Lemma SetDirDeadline_ok dir w deadline : core None w -> quiet w ->
  exists w' result, SetDirDeadline dir w deadline = Val (w', result) /\ core None w' /\ keeps w w'.
Proof.
  intros H Hq. unfold SetDirDeadline. rewrite (proj1 (co_owner _ _ H)), check_true, bind_val.
  destruct (cancel_timers None dir w (co_timers _ _ H) ltac:(done)) as [Ht Ht0]. destruct (cancel_shape dir w) as (l & Ew & Hl & Hls & Hln).
  rewrite Ew in *. cbn [st lp set_lp set_st] in *. set (s1 := set_timer dir (st w) _ _) in *. set (s2 := set_deadline dir s1 deadline).
  assert (timers_ok (Some dir) s2 l) as Ht2.
  { destruct Ht as [T1 T2 T3 T4]. split; try done.
    - intros dr. specialize (T1 dr). by destruct dir, dr.
    - intros id dd dr gg Hg. specialize (T2 id dd dr gg Hg). by destruct dir, dr.
    - intros dr. specialize (T4 dr). by destruct dir, dr. }
  set (w2 := set_st _ s2).
  assert (core (Some dir) w2) as H2 by (change (core (Some dir) (set_lp (set_st w s2) l)); eapply core_retime; [exact H | exact Ht2 | ..]; try done; by destruct dir; try intros []).
  assert (keeps w w2) as Hk by (apply retimed_keeps; split; try done; [by destruct dir; split | by destruct dir; intros []]).
  destruct (Z.eqb_spec (pending_of dir s2) nullptr) as [Hp|Hp].
  - eexists _, _. split; [reflexivity|]. split; [|done]. apply (core_idle (Some dir) dir); [done | by destruct dir | done].
  - destruct (arm_or_fail dir w2 H2) as (w3 & b & -> & w' & E & H' & Hk'); [by destruct dir | by apply (kp_quiet _ _ Hk) |].
    rewrite bind_val. destruct b; [injection E as -> | rewrite E, bind_val]; (eexists _, _; split; [reflexivity|]; split; [done | by etrans]).
Qed.

Lemma SetDeadline_ok w deadline : core None w -> quiet w ->
  exists w' result, SetDeadline w deadline = Val (w', result) /\ core None w' /\ keeps w w'.
Proof.
  intros H Hq. unfold SetDeadline. destruct (SetDirDeadline_ok true w deadline H Hq) as (w1 & r1 & -> & H1 & Hk1). rewrite bind_val.
  destruct r1 as [[]|e]; [|eauto]. destruct (SetDirDeadline_ok false w1 deadline H1 (kp_quiet _ _ Hk1 Hq)) as (w2 & r2 & -> & H2 & Hk2).
  eexists _, _. split; [reflexivity|]. split; [done | by etrans].
Qed.

(** ** Attempts to read *)

Definition attempt_ok (attempt : IoAttempt) (got : list byte) : Prop :=
  match attempt with Completed result => fits result got /\ encodable result | WouldBlock => got = [] end.

Lemma TryRecv_ok room answers : Forall recv_ok answers ->
  exists attempt got rest, TryRecv room answers = (attempt, got, rest) /\ Forall recv_ok rest /\ (length got <= room)%nat /\ attempt_ok attempt got.
Proof.
  intros H. induction H as [|[bytes|error] rest Ha Hr IH]; cbn [TryRecv].
  - eexists _, _, _. split; [reflexivity|]. cbn. split_and!; [done | lia | done].
  - eexists _, _, _. split; [reflexivity|]. pose proof (length_take bytes room) as Hl. cbn [recv_ok] in Ha. split_and!; [|lia | split; [done|]].
    + destruct (room <? length bytes)%nat; [|done]. constructor; [|done]. cbn. rewrite length_drop. lia.
    + cbn -[IoResultState.int64_max]. lia.
  - destruct (_ =? EINTR); [exact IH|]. destruct (IsWouldBlock error); (eexists _, _, _; split; [reflexivity|]; cbn; split_and!; try done; try lia; by destruct Ha).
Qed.

Lemma TryReadv_ok iovs answers : Forall recv_ok answers ->
  exists attempt got rest, TryReadv iovs answers = (attempt, got, rest) /\ Forall recv_ok rest /\ (length got <= Buffer.iov_total iovs)%nat /\ attempt_ok attempt got.
Proof.
  intros H. unfold TryReadv. destruct iovs as [|i iovs]; [eexists _, _, _; split; [reflexivity|]; cbn; split_and!; try done; lia|].
  unfold CheckedIovCount. destruct (kIovMax <? _)%nat; [|by apply TryRecv_ok].
  eexists _, _, _. split; [reflexivity|]. cbn [length]. split_and!; try done. lia.
Qed.

Lemma readv_nil iovs : forall blocks, readv iovs [] blocks = blocks.
Proof.
  induction iovs as [|v iovs IH]; intros blocks; cbn; [done|]. rewrite drop_nil, take_nil, IH. apply list_eq. intros i.
  destruct (decide (i = Buffer.iov_block v)) as [->|]; [|by rewrite list_lookup_alter_ne]. rewrite list_lookup_alter_eq.
  destruct (blocks !! _) as [b|]; [|done]. cbn. unfold blk_store. cbn. rewrite Nat.add_0_r, take_drop. by destruct b.
Qed.

(** What one attempt does. *)
Record attempted (w : world) (r : Reader) (k : Socket) (r' : Reader) (attempt : IoAttempt) : Prop := {
  at_open : open_reader r';
  at_ok : attempt_ok attempt (r_data r');
  at_request : r_request r' = r_request r;
  at_received : k_received k = k_received (sock w) ++ r_data r';
  at_sent : k_sent k = k_sent (sock w);
  at_recv : Forall recv_ok (k_recv k);
  at_send : k_send k = k_send (sock w);
}.

Lemma attempt_read_ok w r : Forall recv_ok (k_recv (sock w)) -> open_reader r -> r_data r = [] ->
  exists k r' attempt, attempt_read w r = Val (set_sock w k, r', attempt) /\ attempted w r k r' attempt.
Proof.
  intros Hk [K1 K2 K3 K4 K5 K6 K7 K8 K9 K10] Hd. unfold attempt_read. destruct (decide (r_kind r = kRead)) as [Ek|Ek].
  - rewrite Ek. destruct (TryRecv_ok (r_span r) _ Hk) as (attempt & got & rest & -> & Hr & Hl & Ha).
    eexists _, _, _. split; [reflexivity|]. split; cbn; try done.
  - destruct (K7 Ek) as [W1 W2 W3 W4]. destruct (K8 Ek Hd) as [Hlen Htot]. set (iovs := Buffer.FillReservedWriteIov kRecvMaxIov (r_buffer r)) in *.
    destruct (TryReadv_ok iovs _ Hk) as (attempt & got & rest & E & Hr & Hl & Ha).
    assert (Buffer.ReservedWriteIov kRecvMaxIov (r_buffer r) = Val iovs) as Ev by (unfold Buffer.ReservedWriteIov; by rewrite W2, check_true, bind_val).
    set (k := mkSocket rest (k_send (sock w)) (k_received (sock w) ++ got) (k_sent (sock w))).
    set (b := Buffer.set_blocks (readv iovs got (Buffer.blocks_ (r_buffer r))) (r_buffer r)).
    exists k, (set_r_data (set_r_buffer r b (r_reservation_active r)) got), attempt.
    split; [rewrite Ev, bind_val, E; by destruct (r_kind r)|]. split; cbn; try done. rewrite <- Htot in Hl.
    pose proof (readv_spec kRecvMaxIov (r_buffer r) got W1 W2 Hlen Hl) as (V1 & V2 & V3 & V4). fold iovs b in V1, V2, V3, V4.
    split; cbn; try done.
    + intros _. split; try done. by rewrite V3.
    + intros _ ->. unfold b. rewrite readv_nil. split; [done|]. exact Htot.
Qed.

(** ** Steps *)

Record advances (w w' : world) : Prop := {
  av_life : s_lifecycle (st w') = s_lifecycle (st w);
  av_socket : s_socket (st w') = s_socket (st w);
  av_channel : s_channel (st w') = s_channel (st w);
  av_loop : l_state (lp w') = l_state (lp w) /\ l_now (lp w') = l_now (lp w);
  av_led dir log : led dir log w -> led dir log w';
  av_readers : r_request <$> readers w' = r_request <$> readers w;
  av_writers : w_request <$> writers w' = w_request <$> writers w;
}.

#[global] Instance advances_refl : Reflexive advances.
Proof. by split. Qed.

#[global] Instance advances_trans : Transitive advances.
Proof. intros w1 w2 w3 [A1 A2 A3 A4 A5 A6 A7] [B1 B2 B3 B4 B5 B6 B7]. split; try congruence; [destruct A4, B4; split; congruence | auto]. Qed.

Lemma keeps_advances w w' : keeps w w' -> advances w w'.
Proof. intros [[] Hl _]. by split. Qed.

(** A step that leaves the stream in order. *)
Definition steps (w : world) (o : outcome world) : Prop :=
  exists w', o = Val w' /\ core None w' /\ quiet w' /\ advances w w'.

Lemma steps_bind w o f : steps w o -> (forall w', core None w' -> quiet w' -> advances w w' -> steps w' (f w')) -> steps w (o ≫= f).
Proof.
  intros (w' & -> & H & Hq & Ha) Hf. rewrite bind_val. destruct (Hf w' H Hq Ha) as (w2 & -> & H2 & Hq2 & Ha2).
  exists w2. split_and!; try done. by etrans.
Qed.

Lemma steps_val w : core None w -> quiet w -> steps w (Val w).
Proof. intros H Hq. exists w. done. Qed.

Lemma steps_keeps w w' : core None w' -> keeps w w' -> quiet w -> steps w (Val w').
Proof. intros H Hk Hq. exists w'. split_and!; try done; [by apply (kp_quiet _ _ Hk) | by apply keeps_advances]. Qed.

Lemma quiet_fits w e : quiet w -> read_fits (Err e) w.
Proof. intros Hq r Hr. cbn. by eapply quiet_reader. Qed.

Lemma quiet_eof w : quiet w -> read_fits (Ok 0%N) w.
Proof. intros Hq r Hr. cbn. by rewrite (quiet_reader w r Hq Hr). Qed.

Lemma CompleteRead_steps w result : core None w -> read_fits result w -> encodable result ->
  exists w', CompleteRead w result = Val w' /\ core None w' /\ quiet w' /\ keeps w w' /\ pending_of true (st w') = nullptr /\ completes true w w'.
Proof.
  intros H Hf He. destruct (CompleteRead_ok None w result H ltac:(done) Hf He) as (w' & E & H' & Hc). exists w'. pose proof (completes_keeps _ _ _ _ Hc H') as Hk.
  split_and!; try done; [|apply Hc]. unfold quiet. pose proof (cp_pending _ _ _ Hc) as Hp. cbn in Hp. rewrite Hp. by apply (null_seg None).
Qed.

(** The pending reader after an attempt. *)
Definition after_attempt (w : world) (k : Socket) (r : Reader) : world := put_reader (set_sock w k) (s_pending_read (st w)) r.

Lemma attempted_core w r k r' attempt : core None w -> quiet w -> s_pending_read (st w) <> nullptr -> readers w !! s_pending_read (st w) = Some r ->
  attempted w r k r' attempt -> core None (after_attempt w k r') /\ advances w (after_attempt w k r').
Proof.
  intros H Hq Hp Hr [A1 A2 Aq A6 A7 A8 A9]. pose proof Aq as Aq'. injection Aq' as A4 A3 _ _. pose proof H as [K1 K2 K3 K4 K5 K6 K7 K8 K9].
  destruct (ro_pending _ _ _ K5 Hp) as (r0 & Hr0 & Ho & Hc & Ek & Hn). assert (r0 = r) as -> by congruence. split.
  - split; try done.
    + destruct K5 as [R1 R2 R3 R4]. split; cbn.
      * by rewrite lookup_insert_ne.
      * intros _. exists r'. rewrite lookup_insert_eq. by rewrite A4, A3.
      * intros b Hb. rewrite lookup_insert_ne by (intros <-; done). auto.
      * intros b r1 Hb. destruct (decide (b = s_pending_read (st w))) as [->|]; [auto|]. rewrite lookup_insert_ne in Hb by done. eauto.
    + cbn. by rewrite A9.
  - split; try done.
    + intros dir log (segs & E & Hpm). exists segs. destruct dir; cbn [bytes_of sock after_attempt put_reader set_readers set_sock st pending_of] in *.
      * unfold seg. cbn. rewrite lookup_insert_eq. cbn. split.
        -- rewrite A6, E. f_equal. unfold quiet in Hq. by rewrite Hq, app_nil_r.
        -- rewrite Hpm. f_equiv. unfold scheduled. cbn. erewrite list_fmap_ext; [reflexivity|]. intros i [d b] Hi. cbn.
           destruct d; [|done]. cbn. rewrite lookup_insert_ne; [done|]. intros <-. apply Hn.
           apply list_elem_of_lookup_2 in Hi. by apply list_elem_of_filter in Hi as [_ ?].
      * rewrite A7. split; [done|]. rewrite Hpm. f_equiv. unfold scheduled. cbn. erewrite list_fmap_ext; [reflexivity|]. intros i [d b] Hi.
        apply list_elem_of_lookup_2, list_elem_of_filter in Hi as [Hd _]. unfold of_dir in Hd. cbn in Hd. by subst d.
    + cbn. by apply (fmap_insert_same _ _ _ r).
Qed.

Lemma read_OnReady_steps w : core None w -> quiet w -> s_pending_read (st w) <> nullptr -> steps w (read_OnReady w (s_pending_read (st w))).
Proof.
  intros H Hq Hp. destruct (ro_pending _ _ _ (co_readers _ _ H) Hp) as (r & Hr & Ho & Hc & Ek & Hn).
  unfold read_OnReady, get_reader. rewrite Hr, bind_val, (rd_stream _ Ho), check_true, bind_val.
  destruct (attempt_read_ok w r (co_recv _ _ H) Ho (quiet_reader w r Hq Hr)) as (k & r' & attempt & -> & Ha). rewrite bind_val.
  destruct (attempted_core w r k r' attempt H Hq Hp Hr Ha) as [H1 Hadv]. fold (after_attempt w k r').
  assert (readers (after_attempt w k r') !! s_pending_read (st w) = Some r') as Hl by apply lookup_insert_eq.
  pose proof (at_ok _ _ _ _ _ Ha) as Hok. destruct attempt as [result|]; cbn in Hok.
  - destruct (CompleteRead_steps (after_attempt w k r') result H1) as (w' & -> & H' & Hq' & Hk & _); [|apply Hok|].
    + intros r2 Hr2. cbn [st after_attempt put_reader set_readers set_sock] in Hr2. rewrite Hl in Hr2. injection Hr2 as <-. apply Hok.
    + exists w'. split_and!; try done. etrans; [exact Hadv|]. by apply keeps_advances.
  - exists (after_attempt w k r'). split_and!; try done. unfold quiet, seg. cbn. rewrite lookup_insert_eq. exact Hok.
Qed.

(** *** Writing *)

Record sent_out (k k' : Socket) (buffer buffer' sent : list byte) (ended : write_end) : Prop := {
  so_split : buffer = sent ++ buffer';
  so_sent : k_sent k' = k_sent k ++ sent;
  so_recv : k_recv k' = k_recv k;
  so_received : k_received k' = k_received k;
  so_send : Forall send_ok (k_send k');
  so_end : match ended with WriteDone result => encodable result /\ (match result with Ok _ => buffer' = [] | Err _ => True end) | WriteBlocked => True end;
}.

Lemma TryWrite_ok bytes answers : Forall send_ok answers ->
  exists attempt rest, TryWrite bytes answers = (attempt, rest) /\ Forall send_ok rest /\
    match attempt with Completed (Ok n) => (N.to_nat n <= length bytes)%nat | Completed (Err e) => encodable (Err e) | WouldBlock => True end.
Proof.
  intros H. induction H as [|[n|error] rest Ha Hr IH]; cbn [TryWrite].
  - eexists _, _. split; [reflexivity|]. done.
  - eexists _, _. split; [reflexivity|]. split; [done|]. cbn. lia.
  - destruct (_ =? EINTR); [exact IH|]. destruct (IsWouldBlock error); (eexists _, _; split; [reflexivity|]; done).
Qed.

Lemma write_loop_ok fuel : forall k buffer, (length buffer <= fuel)%nat -> Forall send_ok (k_send k) ->
  exists k' buffer' ended sent, write_loop fuel k buffer = Val (k', buffer', ended) /\ sent_out k k' buffer buffer' sent ended.
Proof.
  induction fuel as [|fuel IH]; intros k [|b buffer] Hl Hk; try (cbn in Hl; lia).
  1, 2: eexists _, _, _, []; split; [reflexivity|]; split; rewrite ?app_nil_r; try done.
  cbn [write_loop]. destruct (TryWrite_ok (b :: buffer) _ Hk) as (attempt & rest & -> & Hr & Ha). destruct attempt as [[n|e]|].
  - destruct (N.eqb_spec n 0) as [->|Hn]; [eexists _, _, _, []; split; [reflexivity|]; split; rewrite ?app_nil_r; done|].
    set (m := N.to_nat n) in *. assert (0 < m)%nat as Hm by lia.
    destruct (IH (mkSocket (k_recv k) rest (k_received k) (k_sent k ++ take m (b :: buffer))) (drop m (b :: buffer))) as (k' & buffer' & ended & sent & E & [S1 S2 S3 S4 S5 S6]); [|done|].
    + rewrite length_drop. cbn in *. lia.
    + exists k', buffer', ended, (take m (b :: buffer) ++ sent). split; [exact E|]. cbn in S2. split; try done.
      * by rewrite <- app_assoc, <- S1, take_drop.
      * by rewrite S2, <- app_assoc.
  - eexists _, _, _, []; split; [reflexivity|]; split; rewrite ?app_nil_r; done.
  - eexists _, _, _, []; split; [reflexivity|]; split; rewrite ?app_nil_r; done.
Qed.

Lemma sent_advance x buffer' sent : w_total x = w_sent x ++ w_buffer x -> w_buffer x = sent ++ buffer' ->
  w_sent (set_w_buffer x buffer') = w_sent x ++ sent /\ w_total x = w_sent (set_w_buffer x buffer') ++ buffer'.
Proof.
  intros E Eb. assert (w_sent (set_w_buffer x buffer') = w_sent x ++ sent) as Es.
  { unfold w_sent at 1. cbn. rewrite E, Eb. rewrite !length_app.
    replace (_ - _)%nat with (length (w_sent x ++ sent)) by (rewrite length_app; lia). by rewrite app_assoc, take_app_length. }
  split; [done|]. by rewrite Es, <- app_assoc, <- Eb.
Qed.

Definition after_send (w : world) (k : Socket) (x : Writer) : world := put_writer (set_sock w k) (s_pending_write (st w)) x.

Lemma sent_core w x k buffer' sent ended : core None w -> quiet w -> s_pending_write (st w) <> nullptr -> writers w !! s_pending_write (st w) = Some x ->
  sent_out (sock w) k (w_buffer x) buffer' sent ended ->
  core None (after_send w k (set_w_buffer x buffer')) /\ quiet (after_send w k (set_w_buffer x buffer')) /\ advances w (after_send w k (set_w_buffer x buffer')).
Proof.
  intros H Hq Hp Hr [A1 A2 A3 A4 A5 A6]. pose proof H as [K1 K2 K3 K4 K5 K6 K7 K8 K9].
  destruct (wo_pending _ _ _ K6 Hp) as (x0 & Hr0 & Ho & Hc & Hn). assert (x0 = x) as -> by congruence. pose proof Ho as [O1 O2 O3 O4].
  destruct (sent_advance x buffer' sent O4 A1) as [Es Et]. split_and!.
  - split; try done.
    + destruct K6 as [R1 R2 R3 R4]. split; cbn.
      * by rewrite lookup_insert_ne.
      * intros _. eexists. rewrite lookup_insert_eq. split; [reflexivity|]. done.
      * intros b Hb. rewrite lookup_insert_ne by (intros <-; done). auto.
      * intros b r1 Hb. destruct (decide (b = s_pending_write (st w))) as [->|]; [auto|]. rewrite lookup_insert_ne in Hb by done. eauto.
    + cbn. by rewrite A3.
  - done.
  - split; try done.
    + intros dir log (segs & E & Hpm). exists segs. destruct dir; cbn [bytes_of sock after_send put_writer set_writers set_sock st pending_of] in *.
      * rewrite A4. split; [done|]. rewrite Hpm. f_equiv. unfold scheduled. cbn. erewrite list_fmap_ext; [reflexivity|]. intros i [d b] Hi.
        apply list_elem_of_lookup_2, list_elem_of_filter in Hi as [Hd _]. unfold of_dir in Hd. cbn in Hd. by subst d.
      * unfold seg. cbn [fst snd writers set_writers set_sock after_send put_writer]. rewrite lookup_insert_eq. cbn [from_option]. split.
        -- rewrite A2, E, Es, <- app_assoc. do 2 f_equal. unfold seg. cbn [fst snd]. by rewrite Hr.
        -- rewrite Hpm. f_equiv. unfold scheduled. cbn. erewrite list_fmap_ext; [reflexivity|]. intros i [d b] Hi. cbn.
           destruct d; [done|]. cbn. rewrite lookup_insert_ne; [done|]. intros <-. apply Hn.
           apply list_elem_of_lookup_2 in Hi. by apply list_elem_of_filter in Hi as [_ ?].
    + cbn. by apply (fmap_insert_same _ _ _ x).
Qed.

Lemma CompleteWrite_steps w result : core None w -> quiet w -> written result w -> encodable result ->
  exists w', CompleteWrite w result = Val w' /\ core None w' /\ quiet w' /\ keeps w w' /\ pending_of false (st w') = nullptr /\ completes false w w'.
Proof.
  intros H Hq Hf He. destruct (CompleteWrite_ok None w result H ltac:(done) Hf He) as (w' & E & H' & Hc). exists w'.
  pose proof (completes_keeps _ _ _ _ Hc H') as Hk. split_and!; try done; [by apply (kp_quiet _ _ Hk) | apply Hc].
Qed.

Lemma write_OnReady_steps w : core None w -> quiet w -> s_pending_write (st w) <> nullptr -> steps w (write_OnReady w (s_pending_write (st w))).
Proof.
  intros H Hq Hp. destruct (wo_pending _ _ _ (co_writers _ _ H) Hp) as (x & Hr & Ho & Hc & Hn).
  unfold write_OnReady, get_writer. rewrite Hr, bind_val, (wr_stream _ Ho), check_true, bind_val.
  destruct (write_loop_ok (length (w_buffer x)) (sock w) (w_buffer x) ltac:(lia) (co_send _ _ H)) as (k & buffer' & ended & sent & -> & Hs). rewrite bind_val.
  destruct (sent_core w x k buffer' sent ended H Hq Hp Hr Hs) as (H1 & Hq1 & Hadv). fold (after_send w k (set_w_buffer x buffer')).
  pose proof (so_end _ _ _ _ _ _ Hs) as Hok. destruct ended as [result|].
  - destruct (CompleteWrite_steps (after_send w k (set_w_buffer x buffer')) result H1 Hq1) as (w' & -> & H' & Hq' & Hk & _); [|apply Hok|].
    + intros x2 Hx2. cbn in Hx2. rewrite lookup_insert_eq in Hx2. injection Hx2 as <-. by destruct Hok, result.
    + exists w'. split_and!; try done. etrans; [exact Hadv|]. by apply keeps_advances.
  - exists (after_send w k (set_w_buffer x buffer')). split_and!; done.
Qed.

(** *** Events of the channel *)

Lemma HandleClose_steps w : core None w -> quiet w -> steps w (HandleClose w).
Proof.
  intros H Hq. destruct (CompleteRead_steps w (Ok 0%N) H (quiet_eof w Hq) ltac:(done)) as (w1 & E1 & H1 & Hq1 & Hk1 & _).
  destruct (CompleteWrite_steps w1 (Err (Errno EPIPE)) H1 Hq1 ltac:(done) ltac:(done)) as (w2 & E2 & H2 & Hq2 & Hk2 & _).
  unfold HandleClose. rewrite E1, bind_val, E2. apply steps_keeps; [done | by etrans | done].
Qed.

Definition so_error_ok (answer : Z + Z) : Prop :=
  match answer with inl errno => errno_ok errno | inr err => 0 <= err < 2 ^ 31 end.

Lemma HandleError_steps w answer : core None w -> quiet w -> so_error_ok answer -> steps w (HandleError w answer).
Proof.
  intros H Hq Ha. assert (encodable (Err (ErrorFromSocketErrorEvent answer))) as He.
  { destruct answer as [errno|err]; cbn in *; [done|]. split; [done|]. destruct (Z.eqb_spec err 0); unfold EIO; cbn; lia. }
  destruct (CompleteRead_steps w _ H (quiet_fits w _ Hq) He) as (w1 & E1 & H1 & Hq1 & Hk1 & _).
  destruct (CompleteWrite_steps w1 (Err (ErrorFromSocketErrorEvent answer)) H1 Hq1 ltac:(done) He) as (w2 & E2 & H2 & Hq2 & Hk2 & _).
  unfold HandleError. rewrite E1, bind_val, E2. apply steps_keeps; [done | by etrans | done].
Qed.

(** Interest may be dropped when nothing is pending. *)
Lemma set_poller_core w p : core None w -> chan (is_pending true (st w)) (is_pending false (st w)) (s_socket (st w)) p (s_channel (st w)) -> core None (set_poller w p).
Proof. intros [K1 K2 K3 K4 K5 K6 K7 K8 K9] Hp. by split. Qed.

Lemma set_poller_keeps w p : keeps w (set_poller w p).
Proof. by split. Qed.

Lemma HandleRead_steps w : core None w -> quiet w -> steps w (HandleRead w).
Proof.
  intros H Hq. unfold HandleRead. destruct (Z.eqb_spec (s_pending_read (st w)) nullptr) as [Hp|Hp].
  - destruct (co_chan _ _ H) as [Hi (c & Hc)] eqn:Ech. unfold channel, EpollPoller.deref. rewrite (ch_at _ _ _ _ _ _ Hc), bind_val.
    destruct (negb _ && _) eqn:E; [|by apply steps_val]. apply andb_true_iff in E as [_ E].
    assert (0 <= s_socket (st w)) as Hs.
    { destruct (Z.le_gt_cases 0 (s_socket (st w))) as [|Hneg]; [done|]. exfalso. pose proof (ch_closed _ _ _ _ _ _ Hc Hneg) as Hx.
      pose proof (PP.ck_events _ _ _ (PP.iv_chan _ Hi _ _ (ch_at _ _ _ _ _ _ Hc))) as He. rewrite Hx in He. unfold EpollPoller.IsReading in E. by rewrite He in E. }
    destruct (disable_reading_ok _ _ _ _ _ (co_chan _ _ H) Hs) as (p & Ep & Hpc). unfold channel_do. rewrite Ep, bind_val.
    apply steps_keeps; [|apply set_poller_keeps | done]. apply set_poller_core; [done|]. by rewrite (proj2 (is_pending_false true _) Hp).
  - destruct (ro_pending _ _ _ (co_readers _ _ H) Hp) as (r & Hr & Ho & Hc & Ek & Hn). unfold get_reader. rewrite Hr.
    pose proof (rd_kind _ Ho) as Hk. rewrite Ek in Hk. destruct (s_pending_read_kind (st w)) eqn:Esk; [done|..].
    all: rewrite bind_val, bool_decide_true, check_true, bind_val by done; by apply read_OnReady_steps.
Qed.

Lemma HandleWrite_steps w : core None w -> quiet w -> steps w (HandleWrite w).
Proof.
  intros H Hq. unfold HandleWrite. destruct (Z.eqb_spec (s_pending_write (st w)) nullptr) as [Hp|Hp]; [by apply steps_val | by apply write_OnReady_steps].
Qed.

Lemma invoke_if_steps so w cond callback f : core None w -> quiet w ->
  (forall c, bound c -> callback c = Some f) -> (core None w -> quiet w -> steps w (invoke so w f)) ->
  steps w (EpollPoller.invoke_if poller (invoke so) w (s_channel (st w)) cond callback).
Proof.
  intros H Hq Hb Hf. destruct (co_chan _ _ H) as [Hi (c & Hc)]. unfold EpollPoller.invoke_if, EpollPoller.deref. rewrite (ch_at _ _ _ _ _ _ Hc), bind_val.
  destruct (cond c); [|by apply steps_val]. rewrite (Hb c (ch_bound _ _ _ _ _ _ Hc)). auto.
Qed.

(** All the callbacks of one round of events. *)
Lemma events_steps so w : core None w -> quiet w -> so_error_ok so -> steps w (EpollPoller.HandleEventUnchecked poller (invoke so) w (s_channel (st w))).
Proof.
  intros H Hq Hso. unfold EpollPoller.HandleEventUnchecked.
  eapply steps_bind; [by apply (invoke_if_steps so w _ _ kOnClose); [| |intros c (?&?&?&?)|apply HandleClose_steps]|]. intros w1 H1 Hq1 A1. rewrite <- (av_channel _ _ A1).
  eapply steps_bind; [by apply (invoke_if_steps so w1 _ _ kOnError); [| |intros c (?&?&?&?)|intros; apply HandleError_steps]|]. intros w2 H2 Hq2 A2. rewrite <- (av_channel _ _ A2).
  eapply steps_bind; [by apply (invoke_if_steps so w2 _ _ kOnRead); [| |intros c (?&?&?&?)|apply HandleRead_steps]|]. intros w3 H3 Hq3 A3. rewrite <- (av_channel _ _ A3).
  by apply (invoke_if_steps so w3 _ _ kOnWrite); [| |intros c (?&?&?&?)|apply HandleWrite_steps].
Qed.

End EpollStreamProps.
