(* ===== verification/EpollStreamRuns.v ===== *)
(** * The epoll stream: scripts of operations and events

    Starting, resuming and dropping reads and writes, events, timers and closing,
    in any order; the log of what every operation delivered. *)

From Stdlib Require Import Strings.Byte.
From S2P Require Import Prelude Lifecycles ResultCells StreamLifecycle Buffer BufferProofs UringLoop EpollPoller EpollPollerProps EpollStream EpollStreamProps.

Import EpollStream EpollStreamProps.

Module EpollStreamRuns.

Module P := EpollPoller.
Module PP := EpollPollerProps.
Module SL := StreamLifecycle.

(** ** Starting an operation *)

(** What starting leaves alone. *)
Record carries (w w' : world) : Prop := {
  cr_life : s_lifecycle (st w') = s_lifecycle (st w);
  cr_socket : s_socket (st w') = s_socket (st w);
  cr_channel : s_channel (st w') = s_channel (st w);
  cr_loop : l_state (lp w') = l_state (lp w) /\ l_now (lp w') = l_now (lp w);
}.

Lemma advances_carries w w' : advances w w' -> carries w w'.
Proof. intros []. by split. Qed.

#[global] Instance carries_trans : Transitive carries.
Proof. intros w1 w2 w3 [A1 A2 A3 A4] [B1 B2 B3 B4]. split; try congruence. destruct A4, B4; split; congruence. Qed.

(** The reader at [a] takes the empty slot. *)
Definition slot_reader (w : world) (a : Z) (r : Reader) (p : P.world) : world :=
  set_poller (set_st (put_reader w a r) (set_read_slot (st w) a (r_kind r))) p.

Lemma fresh_work_r u w a : core u w -> readers w !! a = None -> (true, a) ∉ l_work (lp w).
Proof. intros H Ha Hw. destruct (ro_work _ _ _ (co_readers _ _ H) a Hw) as (r & _ & Hr & _). congruence. Qed.
Lemma fresh_work_w u w a : core u w -> writers w !! a = None -> (false, a) ∉ l_work (lp w).
Proof. intros H Ha Hw. destruct (wo_work _ _ _ (co_writers _ _ H) a Hw) as (r & _ & Hr & _). congruence. Qed.

(** Segments of work that is in the queue. *)
Lemma scheduled_ext dir w w' : l_work (lp w') = l_work (lp w) -> (forall a, (dir, a) ∈ l_work (lp w) -> seg w' (dir, a) = seg w (dir, a)) ->
  scheduled dir w' = scheduled dir w.
Proof.
  intros E Hs. unfold scheduled. rewrite E. apply list_fmap_ext. intros i [d a] Hi. apply list_elem_of_lookup_2, list_elem_of_filter in Hi as [Hd Hi].
  unfold of_dir in Hd. cbn in Hd. subst d. auto.
Qed.

Lemma slot_reader_core w a r p : core None w -> a <> nullptr -> readers w !! a = None -> s_pending_read (st w) = nullptr -> 0 <= s_socket (st w) ->
  SL.resource_ (s_lifecycle (st w)) <> SL.ResourceState.kClosed ->
  open_reader r -> r_continuation r <> None ->
  chan true (is_pending false (st w)) (s_socket (st w)) p (s_channel (st w)) -> core (Some true) (slot_reader w a r p).
Proof.
  intros H Ha Hn Hp Hs Hl Ho Hc Hch. pose proof (fresh_work_r _ _ _ H Hn) as Hw. pose proof H as [K1 K2 K3 K4 K5 K6 K7 K8 K9].
  split; cbn [st poller readers writers lp sock slot_reader put_reader set_readers set_st set_poller]; try done.
  - unfold is_pending at 1. cbn. rewrite (proj2 (Z.eqb_neq a nullptr) Ha). exact Hch.
  - unfold life_ok in *. cbn. by destruct (SL.resource_ _).
  - destruct K4 as [T1 T2 T3 T4]. split; try done.
    + intros dr Ht. destruct dr; [|exact (T1 false Ht)]. destruct (T1 true Ht) as [Hx _]. by destruct (Hx Hp).
    + intros [] Hne; [done|]. exact (T4 false ltac:(done)).
  - destruct K5 as [R1 R2 R3 R4]. split; cbn [s_pending_read s_pending_read_kind set_read_slot].
    + by rewrite lookup_insert_ne.
    + intros _. exists r. rewrite lookup_insert_eq. done.
    + intros b Hb. rewrite lookup_insert_ne by (intros <-; done). auto.
    + intros b r1 Hb. destruct (decide (b = a)) as [->|]; [auto|]. rewrite lookup_insert_ne in Hb by done.
      destruct (R4 b r1 Hb) as [->|]; [|auto]. rewrite Hp in Hb. congruence.
  - by eapply writers_frame.
Qed.

Lemma slot_reader_led w a r p dir log : core None w -> s_pending_read (st w) = nullptr -> readers w !! a = None -> r_data r = [] -> led dir log w -> led dir log (slot_reader w a r p).
Proof.
  intros H Hp Hn Hd (segs & E & Hpm). exists segs.
  assert (scheduled dir (slot_reader w a r p) = scheduled dir w) as ->.
  { apply scheduled_ext; [done|]. intros b Hb. destruct dir; [|done]. unfold seg. cbn. rewrite lookup_insert_ne; [done|].
    intros <-. by apply (fresh_work_r _ _ _ H Hn). }
  split; [|done]. destruct dir; [|exact E]. cbn [bytes_of sock slot_reader put_reader set_readers set_st set_poller st pending_of s_pending_read set_read_slot] in *.
  rewrite E, Hp, (null_seg None w true H). f_equal. unfold seg. cbn. by rewrite lookup_insert_eq.
Qed.

Lemma enable_reading_w w : core None w -> 0 <= s_socket (st w) -> forall w1, poller w1 = poller w -> s_channel (st w1) = s_channel (st w) ->
  exists p, (c ← channel w1; if negb (EpollPoller.IsReading c) then channel_do w1 EpollPoller.EnableReading else Val w1) = Val (set_poller w1 p) /\
    chan true (is_pending false (st w)) (s_socket (st w)) p (s_channel (st w)).
Proof.
  intros H Hs w1 Ep Ec. destruct (co_chan _ _ H) as [Hi (c & Hc)] eqn:Ech. unfold channel, channel_do, EpollPoller.deref. rewrite Ep, Ec, (ch_at _ _ _ _ _ _ Hc), bind_val.
  destruct (EpollPoller.IsReading c) eqn:Er; cbn [negb].
  - exists (poller w). split; [rewrite <- Ep; by destruct w1|]. split; [done|]. exists c. destruct Hc. by split.
  - destruct (enable_reading_ok _ _ _ _ _ (co_chan _ _ H) Hs) as (p & -> & Hp). rewrite bind_val. eauto.
Qed.

Lemma enable_writing_w w : core None w -> 0 <= s_socket (st w) -> forall w1, poller w1 = poller w -> s_channel (st w1) = s_channel (st w) ->
  exists p, (c ← channel w1; if negb (EpollPoller.IsWriting c) then channel_do w1 EpollPoller.EnableWriting else Val w1) = Val (set_poller w1 p) /\
    chan (is_pending true (st w)) true (s_socket (st w)) p (s_channel (st w)).
Proof.
  intros H Hs w1 Ep Ec. destruct (co_chan _ _ H) as [Hi (c & Hc)] eqn:Ech. unfold channel, channel_do, EpollPoller.deref. rewrite Ep, Ec, (ch_at _ _ _ _ _ _ Hc), bind_val.
  destruct (EpollPoller.IsWriting c) eqn:Er; cbn [negb].
  - exists (poller w). split; [rewrite <- Ep; by destruct w1|]. split; [done|]. exists c. destruct Hc. by split.
  - destruct (enable_writing_ok _ _ _ _ _ (co_chan _ _ H) Hs) as (p & -> & Hp). rewrite bind_val. eauto.
Qed.

(** The operation is open afterwards, or its result is already scheduled. *)
Record started_read (w : world) (a : Z) (r : Reader) (w' : world) : Prop := {
  sr_core : core None w';
  sr_quiet : quiet w';
  sr_carries : carries w w';
  sr_led dir log : led dir log w -> led dir log w';
  sr_readers : r_request <$> readers w' = <[a := r_request r]> (r_request <$> readers w);
  sr_writers : w_request <$> writers w' = w_request <$> writers w;
}.

Lemma SuspendForRead_ok w a r : core None w -> quiet w -> a <> nullptr -> readers w !! a = None -> s_pending_read (st w) = nullptr -> 0 <= s_socket (st w) ->
  SL.resource_ (s_lifecycle (st w)) <> SL.ResourceState.kClosed -> open_reader r -> r_data r = [] -> r_continuation r <> None ->
  exists w', SuspendForRead (put_reader w a r) a (r_kind r) = Val w' /\ started_read w a r w'.
Proof.
  intros H Hq Ha Hn Hp Hs Hl Ho Hd Hc. unfold SuspendForRead. set (w1 := set_st _ _).
  destruct (enable_reading_w w H Hs w1 eq_refl eq_refl) as (p & E & Hch).
  set (w2 := slot_reader w a r p). assert (core (Some true) w2) as H2 by (by apply slot_reader_core).
  assert (quiet w2) as Hq2 by (unfold quiet, seg; cbn; by rewrite lookup_insert_eq).
  assert (timer_of true (st w2) = kInvalidTimer) as Ht.
  { destruct (Z.eq_dec (timer_of true (st w)) kInvalidTimer) as [|Hne]; [done|]. destruct (tm_armed _ _ _ (co_timers _ _ H) true Hne) as [Hx _]. by destruct (Hx Hp). }
  destruct (arm_or_fail true w2 H2 Ht Hq2) as (w3 & b & Ea & w' & Ew & H' & Hk).
  exists w'. split.
  { revert E. destruct (channel w1) as [c|]; [rewrite !bind_val|done]. intros ->. rewrite bind_val. change (set_poller w1 p) with w2. rewrite Ea, bind_val. exact Ew. }
  split; try done.
  - by apply (kp_quiet _ _ Hk).
  - destruct (kp_stable _ _ Hk). by split.
  - intros dir log Hled. apply (kp_led _ _ Hk). by apply slot_reader_led.
  - rewrite (sb_readers _ _ (kp_stable _ _ Hk)). cbn. by rewrite fmap_insert.
  - by rewrite (sb_writers _ _ (kp_stable _ _ Hk)).
Qed.

(** ** Delivery *)

(** What a finished read gives to its coroutine, in terms of the bytes it took. *)
Definition read_delivered (r : Reader) (d : delivery) : Prop :=
  match d with
  | ReadResult result data => r_kind r = kRead /\ data = r_data r /\ fits result data /\ (length data <= r_span r)%nat
  | RecvOutcome result b => r_kind r = kRecv /\ fits result (r_data r) /\ idle b /\ content b = content (r_initial r) ++ r_data r
  | RecvCopyResult (Ok b) => r_kind r = kRecvCopy /\ idle b /\ content b = content (r_initial r) ++ r_data r
  | RecvCopyResult (Err _) => r_kind r = kRecvCopy /\ r_data r = []
  | WriteResult _ => False
  end.

Lemma read_resume_ok result r : finished result r -> exists d, read_await_resume r = Val d /\ read_delivered r d.
Proof.
  intros [K1 K2 K3 K4 K5 K6]. unfold read_await_resume. rewrite K2. destruct (take_result result K3) as (c & ->). rewrite bind_val.
  eexists. split; [reflexivity|]. destruct (r_kind r) eqn:Ek; try done; cbn.
  - split_and!; auto.
  - destruct (K6 ltac:(done)). auto.
  - destruct (K6 ltac:(done)). destruct result; cbn in K4; auto.
Qed.

(** ** Reads that end at once *)

Definition released (r : Reader) : Reader := set_r_life r (SingleResultLifecycle.mk SingleResultLifecycle.kReleaseAuthorized).

Lemma CompleteStoredInline_ok r : r_lifecycle r = SingleResultLifecycle.initial -> CompleteStoredInline r = Val (released r).
Proof. intros E. unfold CompleteStoredInline, TryAuthorizeResult. rewrite E. done. Qed.

Lemma CompleteInline_ok r result : r_lifecycle r = SingleResultLifecycle.initial -> r_result r = IoResultState.new -> encodable result ->
  CompleteInline r result = Val (released (set_r_result r (stored result))).
Proof. intros El Er He. unfold CompleteInline, SetResult. rewrite Er, (store_result _ He), !bind_val. by apply CompleteStoredInline_ok. Qed.

Lemma refusal_ok w result : begin_read_refusal w = Some result -> encodable result /\ fits result [].
Proof.
  unfold begin_read_refusal, SL.ValidateRead, SL.ValidateResource.
  destruct (stopping w); [intros [= <-]; done|]. destruct (SL.resource_ _); try (intros [= <-]; done).
  destruct (bool_decide _); [intros [= <-]; done|]. destruct (_ <? 0); [intros [= <-]; done|].
  destruct (SL.IsReadShutdown _); [intros [= <-]; done|]. destruct (negb _); [intros [= <-]; done | done].
Qed.

Lemma no_refusal w : begin_read_refusal w = None ->
  SL.resource_ (s_lifecycle (st w)) = SL.ResourceState.kOpen /\ 0 <= s_socket (st w) /\ s_pending_read (st w) = nullptr.
Proof.
  unfold begin_read_refusal, SL.ValidateRead, SL.ValidateResource. destruct (stopping w); [done|]. destruct (SL.resource_ _); try done.
  destruct (bool_decide _); [done|]. destruct (Z.ltb_spec (s_socket (st w)) 0); [done|]. destruct (SL.IsReadShutdown _); [done|].
  destruct (Z.eqb_spec (s_pending_read (st w)) nullptr); done.
Qed.

Section read.
Context (junk : byte).

(** The awaiter at [a] resumes: its result is taken, then it is destroyed. *)
Definition finish_read (w : world) (a : Z) : outcome (world * (delivery * Reader)) :=
  r ← get_reader w a;
  d ← read_await_resume r;
  w ← destroy_reader w a;
  Val (w, (d, r)).

(** [co_await stream.Read(...)], Recv or RecvCopy, at address [a]. *)
Definition start_read (w : world) (a handle : Z) (k : PendingReadKind) (span : nat) (buffer : Buffer.t) (reserve : nat) (memory : bool) : outcome (world * option (delivery * Reader)) :=
  '(w, suspended) ← read_await_suspend junk (put_reader w a (new_Reader k span buffer reserve)) a handle memory;
  if (suspended : bool) then Val (w, None) else
  '(w, out) ← finish_read w a; Val (w, Some out).

Record ended_read (w : world) (r : Reader) (d : delivery) (w' : world) : Prop := {
  er_core : core None w';
  er_quiet : quiet w';
  er_carries : carries w w';
  er_read log : led true log w -> led true (log ++ [r_data r]) w';
  er_write log : led false log w -> led false log w';
  er_maps : readers w' = readers w /\ writers w' = writers w;
  er_delivered : read_delivered r d;
}.

(** A read that does not suspend: the socket has moved on to [k]. *)
Lemma ended_read_ok w a k r result : core None w -> quiet w -> a <> nullptr -> readers w !! a = None ->
  finished result r -> Forall recv_ok (k_recv k) -> Forall send_ok (k_send k) -> k_received k = k_received (sock w) ++ r_data r -> k_sent k = k_sent (sock w) ->
  s_pending_read (st w) = nullptr \/ r_data r = [] ->
  exists d, finish_read (put_reader (set_sock w k) a r) a = Val (set_sock w k, (d, r)) /\ ended_read w r d (set_sock w k).
Proof.
  intros H Hq Ha Hn Hf Hk1 Hk2 Hk3 Hk4 Hp. unfold finish_read, get_reader. cbn [readers put_reader set_readers set_sock]. rewrite lookup_insert_eq, bind_val.
  destruct (read_resume_ok result r Hf) as (d & -> & Hd). rewrite bind_val. unfold destroy_reader, get_reader.
  cbn [readers put_reader set_readers set_sock st]. rewrite lookup_insert_eq, bind_val, delete_insert_eq, (delete_id _ _ Hn).
  assert (s_pending_read (st w) <> a) as Hne.
  { intros E. destruct (decide (s_pending_read (st w) = nullptr)) as [|Hp']; [congruence|]. destruct (ro_pending _ _ _ (co_readers _ _ H) Hp') as (r0 & Hr & _). congruence. }
  rewrite (proj2 (Z.eqb_neq _ _) Hne), orb_true_r, bind_val. exists d. split; [by destruct w|].
  pose proof H as [K1 K2 K3 K4 K5 K6 K7 K8 K9]. split; try done.
  - intros log (segs & E & Hpm). exists (segs ++ [r_data r]). cbn [bytes_of sock set_sock st pending_of] in *. split.
    + change (seg (set_sock w k)) with (seg w). rewrite Hk3, E, concat_app. change (concat [r_data r]) with (r_data r ++ []). rewrite app_nil_r. destruct Hp as [-> | ->]; [|by rewrite !app_nil_r].
      by rewrite (null_seg None w true H), !app_nil_r.
    + change (scheduled true (set_sock w k)) with (scheduled true w). rewrite Hpm. solve_Permutation.
  - intros log (segs & E & Hpm). exists segs. cbn [bytes_of sock set_sock] in *. by rewrite Hk4.
Qed.

Lemma put_put w a r r' k : put_reader (set_sock (put_reader w a r) k) a r' = put_reader (set_sock w k) a r'.
Proof. unfold put_reader, set_readers, set_sock. cbn. by rewrite insert_insert_eq. Qed.

Lemma set_sock_id w : set_sock w (sock w) = w.
Proof. by destruct w. Qed.

(** The socket moved on without giving or taking bytes. *)
Lemma set_sock_core w k : core None w -> quiet w -> Forall recv_ok (k_recv k) -> Forall send_ok (k_send k) ->
  k_received k = k_received (sock w) -> k_sent k = k_sent (sock w) -> core None (set_sock w k) /\ quiet (set_sock w k) /\ advances w (set_sock w k).
Proof.
  intros [K1 K2 K3 K4 K5 K6 K7 K8 K9] Hq Hr Hs E1 E2. split_and!; [by split | done |]. split; try done.
  intros dir log (segs & E & Hpm). exists segs. split; [|done]. destruct dir; cbn [bytes_of sock set_sock] in *; by rewrite ?E1, ?E2.
Qed.

(** The awaiter once its storage is reserved. *)
Lemma reserve_ok k span buffer reserve handle (memory : bool) : k <> kNone -> (k <> kRead -> idle buffer) ->
  let r := set_r_continuation (new_Reader k span buffer reserve) (Some handle) in
  exists r' b, (if bool_decide (r_kind r = kRead) then Val (r, true) else PrepareReservation junk r memory) = Val (r', b) /\
    r_request r' = r_request r /\ r_data r' = [] /\ r_lifecycle r' = SingleResultLifecycle.initial /\
    if (b : bool) then open_reader r' else finished (Err (Errno ENOMEM)) r'.
Proof.
  intros Hk Hi r. change (r_kind r) with k. destruct (bool_decide_reflect (k = kRead)) as [Ek|Ek].
  - exists r, true. split_and!; try done. split; cbn; try done. lia.
  - unfold PrepareReservation. specialize (Hi Ek). destruct memory; cbn [negb].
    + destruct (PrepareWrite_spec junk reserve kRecvMaxIov buffer Hi ltac:(unfold kRecvMaxIov; lia)) as (iovs & b & E & Hrb & Hb & Hl & _ & Hiov & Hf).
      cbn [r_reserve r_buffer r set_r_continuation new_Reader]. rewrite E, bind_val. destruct iovs as [|i iovs]; [cbn in Hl; lia|].
      eexists _, true. split; [reflexivity|]. split_and!; try done. split; cbn; try done; [|lia].
      intros _ _. by rewrite <- Hiov.
    + assert (Buffer.AbortWrite buffer = buffer) as Eb by (destruct Hi as [_ Hw]; unfold Buffer.AbortWrite, Buffer.ClearWriteReservation; by rewrite Hw).
      eexists _, false. split; [reflexivity|]. split_and!; try done. split; cbn; try done. intros _. rewrite Eb, app_nil_r. done.
Qed.

(** The end of an attempt that completed. *)
Lemma finish_inline result r : open_reader r -> fits result (r_data r) -> encodable result ->
  exists r', (if bool_decide (r_kind r = kRead) then CompleteInline r result else r ← FinishAttempt r result; CompleteStoredInline r) = Val r' /\
    finished result r' /\ r_request r' = r_request r /\ r_data r' = r_data r.
Proof.
  intros Ho Hf He. pose proof Ho as [K1 K2 K3 K4 K5 _ _ _ _ _]. destruct (bool_decide_reflect (r_kind r = kRead)) as [Ek|Ek].
  - rewrite (CompleteInline_ok r result K3 K4 He). eexists. split; [reflexivity|]. by split_and!.
  - destruct (FinishAttempt_ok result r (r_lifecycle r) Ho Hf He Ek) as (b & E & Hi & Hc).
    assert (set_r_life r (r_lifecycle r) = r) as Er by (by destruct r). rewrite Er in E. rewrite E, bind_val, CompleteStoredInline_ok by done.
    eexists. split; [reflexivity|]. by split_and!.
Qed.

Definition read_outcome (w : world) (a : Z) (request : option Z * PendingReadKind * nat * Buffer.t) (w' : world) (out : option (delivery * Reader)) : Prop :=
  match out with
  | None => exists r, r_request r = request /\ started_read w a r w'
  | Some (d, r) => (r_kind r, r_span r, r_initial r) = (request.1.1.2, request.1.2, request.2) /\ ended_read w r d w'
  end.

Lemma get_put w a r : get_reader (put_reader w a r) a = Val r.
Proof. unfold get_reader. cbn. by rewrite lookup_insert_eq. Qed.

Lemma start_read_ok w a handle k span buffer reserve memory : core None w -> quiet w -> a <> nullptr -> readers w !! a = None -> handle <> nullptr ->
  k <> kNone -> (k <> kRead -> idle buffer) ->
  exists w' out, start_read w a handle k span buffer reserve memory = Val (w', out) /\ read_outcome w a (Some handle, k, span, buffer) w' out.
Proof.
  intros H Hq Ha Hn Hh Hk Hb. unfold start_read, read_await_suspend. rewrite get_put, bind_val.
  unfold BeginRead. cbn [st put_reader set_readers]. rewrite (proj1 (co_owner _ _ H)), check_true, bind_val.
  change (begin_read_refusal (put_reader w a _)) with (begin_read_refusal w). set (r0 := new_Reader k span buffer reserve).
  destruct (begin_read_refusal w) as [result|] eqn:Er.
  { destruct (refusal_ok w result Er) as [He Hf]. rewrite CompleteInline_ok by done. rewrite !bind_val. cbn [negb]. rewrite bind_val.
    set (r := released _). assert (finished result r) as Hfin by (split; cbn; try done; [lia|]; intros Hkk; rewrite app_nil_r; auto).
    pose proof (put_put w a r0 r (sock w)) as Ep. rewrite set_sock_id in Ep. change (set_sock (put_reader w a r0) (sock w)) with (put_reader w a r0) in Ep. rewrite Ep.
    destruct (ended_read_ok w a (sock w) r result) as (d & E & He'); try done; try apply H; [by rewrite app_nil_r | by right |].
    rewrite !set_sock_id in *. rewrite E, bind_val. eexists _, _. split; [reflexivity|]. done. }
  destruct (no_refusal w Er) as (Hl & Hs & Hp). unfold Bind. rewrite bool_decide_true, check_true, bind_val by done.
  rewrite (proj2 (Z.eqb_neq _ _) Hh). cbn [negb]. rewrite check_true, !bind_val. cbn [negb].
  destruct (reserve_ok k span buffer reserve handle memory Hk Hb) as (r & b & E & Erq & Ed & Elf & Hr). fold r0 in E. rewrite E, bind_val. clear E.
  destruct b; cbn [negb].
  - destruct (attempt_read_ok (put_reader w a r0) r (co_recv _ _ H) Hr Ed) as (kk & r' & attempt & -> & [A1 A2 Aq A6 A7 A8 A9]). rewrite bind_val.
    cbn [sock put_reader set_readers] in *. assert (Forall send_ok (k_send kk)) as A10 by (rewrite A9; apply H).
    destruct attempt as [result|].
    + destruct A2 as [Hf He]. destruct (finish_inline result r' A1 Hf He) as (r2 & -> & Hfin & Eq2 & Ed2). rewrite !bind_val, put_put.
      destruct (ended_read_ok w a kk r2 result) as (d & E & He'); try done; [by rewrite Ed2 | by left |].
      rewrite E, bind_val. eexists _, _. split; [reflexivity|]. split; [|done]. rewrite Aq, Erq in Eq2. by injection Eq2 as _ -> -> ->.
    + cbn in A2. rewrite A2, app_nil_r in A6. rewrite put_put. destruct (set_sock_core w kk H Hq A8 A10 A6 A7) as (H1 & Hq1 & Hadv).
      destruct (SuspendForRead_ok (set_sock w kk) a r') as (w' & -> & S); try done; [cbn [st set_sock]; by rewrite Hl | |].
      { pose proof Aq as Aq'. rewrite Erq in Aq'. injection Aq' as -> _ _ _. done. }
      rewrite !bind_val. eexists _, None. split; [reflexivity|]. exists r'. split; [by rewrite Aq, Erq|].
      destruct S as [S1 S2 S3 S4 S5 S6]. split; try done; [by destruct S3; split|]. intros dir log Hled. apply S4. by apply (av_led _ _ Hadv).
  - rewrite CompleteStoredInline_ok by done. rewrite !bind_val.
    pose proof (put_put w a r0 (released r) (sock w)) as Ep. rewrite set_sock_id in Ep. change (set_sock (put_reader w a r0) (sock w)) with (put_reader w a r0) in Ep. rewrite Ep.
    destruct (ended_read_ok w a (sock w) (released r) (Err (Errno ENOMEM))) as (d & E & He'); try done; try apply H; [by destruct Hr; split | cbn; by rewrite Ed, app_nil_r | by left |].
    rewrite !set_sock_id in *. rewrite E, bind_val. eexists _, _. split; [reflexivity|]. split; [|done]. injection Erq as _ E1 E2 E3. cbn. by rewrite E1, E2, E3.
Qed.

End read.

(** ** Writes *)

Definition write_delivered (x : Writer) (d : delivery) : Prop :=
  match d with
  | WriteResult (Ok _) => w_sent x = w_total x
  | WriteResult (Err _) => w_sent x `prefix_of` w_total x
  | _ => False
  end.

Lemma write_resume_ok result x : finished_writer result x -> exists d, write_await_resume x = Val d /\ write_delivered x d.
Proof.
  intros [K1 K2 K3]. unfold write_await_resume. rewrite K1. destruct (take_result result K2) as (c & ->). rewrite bind_val.
  eexists. split; [reflexivity|]. by destruct result.
Qed.

Definition slot_writer (w : world) (a : Z) (x : Writer) (p : P.world) : world :=
  set_poller (set_st (put_writer w a x) (set_write_slot (st w) a)) p.

(** The ledger of the writes when the writer at [a] has sent [bytes]. *)
Lemma slot_writer_core w a x p : core None w -> a <> nullptr -> writers w !! a = None -> s_pending_write (st w) = nullptr -> 0 <= s_socket (st w) ->
  SL.resource_ (s_lifecycle (st w)) <> SL.ResourceState.kClosed ->
  open_writer x -> w_continuation x <> None ->
  chan (is_pending true (st w)) true (s_socket (st w)) p (s_channel (st w)) -> core (Some false) (slot_writer w a x p).
Proof.
  intros H Ha Hn Hp Hs Hl Ho Hc Hch. pose proof (fresh_work_w _ _ _ H Hn) as Hw. pose proof H as [K1 K2 K3 K4 K5 K6 K7 K8 K9].
  split; cbn [st poller readers writers lp sock slot_writer put_writer set_writers set_st set_poller]; try done.
  - unfold is_pending at 2. cbn. rewrite (proj2 (Z.eqb_neq a nullptr) Ha). exact Hch.
  - unfold life_ok in *. cbn. by destruct (SL.resource_ _).
  - destruct K4 as [T1 T2 T3 T4]. split; try done.
    + intros dr Ht. destruct dr; [exact (T1 true Ht)|]. destruct (T1 false Ht) as [Hx _]. by destruct (Hx Hp).
    + intros [] Hne; [|done]. exact (T4 true ltac:(done)).
  - by eapply readers_frame.
  - destruct K6 as [R1 R2 R3 R4]. split; cbn [s_pending_write set_write_slot].
    + by rewrite lookup_insert_ne.
    + intros _. exists x. rewrite lookup_insert_eq. done.
    + intros b Hb. rewrite lookup_insert_ne by (intros <-; done). auto.
    + intros b r1 Hb. destruct (decide (b = a)) as [->|]; [auto|]. rewrite lookup_insert_ne in Hb by done.
      destruct (R4 b r1 Hb) as [->|]; [|auto]. rewrite Hp in Hb. congruence.
Qed.

Record started_write (w : world) (a : Z) (x : Writer) (w' : world) : Prop := {
  sw_core : core None w';
  sw_quiet : quiet w';
  sw_carries : carries w w';
  sw_led dir log : led dir log w -> led dir log w';
  sw_readers : r_request <$> readers w' = r_request <$> readers w;
  sw_writers : w_request <$> writers w' = <[a := w_request x]> (w_request <$> writers w);
}.

Lemma slot_writer_led w k a x p dir log : core None w -> s_pending_write (st w) = nullptr -> writers w !! a = None ->
  k_sent k = k_sent (sock w) ++ w_sent x -> k_received k = k_received (sock w) -> led dir log w -> led dir log (slot_writer (set_sock w k) a x p).
Proof.
  intros H Hp Hn Hs Hr (segs & E & Hpm). exists segs.
  assert (scheduled dir (slot_writer (set_sock w k) a x p) = scheduled dir w) as ->.
  { apply scheduled_ext; [done|]. intros b Hb. destruct dir; [done|]. unfold seg. cbn -[w_sent]. rewrite lookup_insert_ne; [done|].
    intros <-. by apply (fresh_work_w _ _ _ H Hn). }
  split; [|done]. destruct dir; cbn [bytes_of sock slot_writer put_writer set_writers set_st set_poller set_sock st pending_of s_pending_write set_write_slot] in *.
  - by rewrite Hr.
  - rewrite Hs, E, Hp, (null_seg None w false H), app_nil_r. f_equal. unfold seg. cbn -[w_sent]. by rewrite lookup_insert_eq.
Qed.

(** [k] is the socket after the first round of sending. *)
Lemma SuspendForWrite_ok w k a x : core None w -> quiet w -> a <> nullptr -> writers w !! a = None -> s_pending_write (st w) = nullptr -> 0 <= s_socket (st w) ->
  SL.resource_ (s_lifecycle (st w)) <> SL.ResourceState.kClosed -> open_writer x -> w_continuation x <> None ->
  Forall recv_ok (k_recv k) -> Forall send_ok (k_send k) -> k_sent k = k_sent (sock w) ++ w_sent x -> k_received k = k_received (sock w) ->
  exists w', SuspendForWrite (put_writer (set_sock w k) a x) a = Val w' /\ started_write w a x w'.
Proof.
  intros H Hq Ha Hn Hp Hs Hl Ho Hc Hk1 Hk2 Hk3 Hk4. unfold SuspendForWrite. set (w1 := set_st _ _).
  assert (core None (set_sock w k)) as H0 by (destruct H; by split).
  destruct (enable_writing_w _ H0 Hs w1 eq_refl eq_refl) as (p & E & Hch).
  set (w2 := slot_writer (set_sock w k) a x p). assert (core (Some false) w2) as H2 by (by apply slot_writer_core).
  assert (quiet w2) as Hq2 by done.
  assert (timer_of false (st w2) = kInvalidTimer) as Ht.
  { destruct (Z.eq_dec (timer_of false (st w)) kInvalidTimer) as [|Hne]; [done|]. destruct (tm_armed _ _ _ (co_timers _ _ H) false Hne) as [Hx _]. by destruct (Hx Hp). }
  destruct (arm_or_fail false w2 H2 Ht Hq2) as (w3 & b & Ea & w' & Ew & H' & Hk).
  exists w'. split.
  { revert E. destruct (channel w1) as [c|]; [rewrite !bind_val|done]. intros ->. rewrite bind_val. change (set_poller w1 p) with w2. rewrite Ea, bind_val. exact Ew. }
  split; try done.
  - by apply (kp_quiet _ _ Hk).
  - destruct (kp_stable _ _ Hk). by split.
  - intros dir log Hled. apply (kp_led _ _ Hk). by apply slot_writer_led.
  - by rewrite (sb_readers _ _ (kp_stable _ _ Hk)).
  - rewrite (sb_writers _ _ (kp_stable _ _ Hk)). cbn. by rewrite fmap_insert.
Qed.

Definition finish_write (w : world) (a : Z) : outcome (world * (delivery * Writer)) :=
  x ← get_writer w a;
  d ← write_await_resume x;
  w ← destroy_writer w a;
  Val (w, (d, x)).

(** [co_await stream.Write(bytes)] at address [a]. *)
Definition start_write (w : world) (a handle : Z) (bytes : list byte) : outcome (world * option (delivery * Writer)) :=
  '(w, suspended) ← write_await_suspend (put_writer w a (new_Writer bytes)) a handle;
  if (suspended : bool) then Val (w, None) else
  '(w, out) ← finish_write w a; Val (w, Some out).

Record ended_write (w : world) (x : Writer) (d : delivery) (w' : world) : Prop := {
  ew_core : core None w';
  ew_quiet : quiet w';
  ew_carries : carries w w';
  ew_read log : led true log w -> led true log w';
  ew_write log : led false log w -> led false (log ++ [w_sent x]) w';
  ew_maps : readers w' = readers w /\ writers w' = writers w;
  ew_delivered : write_delivered x d;
}.

Lemma ended_write_ok w a k x result : core None w -> quiet w -> a <> nullptr -> writers w !! a = None ->
  finished_writer result x -> Forall recv_ok (k_recv k) -> Forall send_ok (k_send k) -> k_received k = k_received (sock w) -> k_sent k = k_sent (sock w) ++ w_sent x ->
  s_pending_write (st w) = nullptr \/ w_sent x = [] ->
  exists d, finish_write (put_writer (set_sock w k) a x) a = Val (set_sock w k, (d, x)) /\ ended_write w x d (set_sock w k).
Proof.
  intros H Hq Ha Hn Hf Hk1 Hk2 Hk3 Hk4 Hp. unfold finish_write, get_writer. cbn [writers put_writer set_writers set_sock]. rewrite lookup_insert_eq, bind_val.
  destruct (write_resume_ok result x Hf) as (d & -> & Hd). rewrite bind_val. unfold destroy_writer, get_writer.
  cbn [writers put_writer set_writers set_sock st]. rewrite lookup_insert_eq, bind_val, delete_insert_eq, (delete_id _ _ Hn).
  assert (s_pending_write (st w) <> a) as Hne.
  { intros E. destruct (decide (s_pending_write (st w) = nullptr)) as [|Hp']; [congruence|]. destruct (wo_pending _ _ _ (co_writers _ _ H) Hp') as (r0 & Hr & _). congruence. }
  rewrite (proj2 (Z.eqb_neq _ _) Hne), orb_true_r, bind_val. exists d. split; [by destruct w|].
  pose proof H as [K1 K2 K3 K4 K5 K6 K7 K8 K9]. split; try done.
  - intros log (segs & E & Hpm). exists segs. cbn [bytes_of sock set_sock] in *. by rewrite Hk3.
  - intros log (segs & E & Hpm). exists (segs ++ [w_sent x]). cbn [bytes_of sock set_sock st pending_of] in *. split.
    + change (seg (set_sock w k)) with (seg w). rewrite Hk4, E, concat_app. change (concat [w_sent x]) with (w_sent x ++ []). rewrite app_nil_r.
      destruct Hp as [-> | ->]; [|by rewrite !app_nil_r]. by rewrite (null_seg None w false H), !app_nil_r.
    + change (scheduled false (set_sock w k)) with (scheduled false w). rewrite Hpm. solve_Permutation.
Qed.

Lemma write_refusal_ok w result : write_refusal w = Some result -> exists e, result = Err e /\ encodable (Err e).
Proof.
  unfold write_refusal, SL.ValidateWrite, SL.ValidateResource.
  destruct (stopping w); [intros [= <-]; by eexists|]. destruct (SL.resource_ _); try (intros [= <-]; by eexists).
  destruct (bool_decide _); [intros [= <-]; by eexists|]. destruct (bool_decide _); [intros [= <-]; by eexists|].
  destruct (_ <? 0); [intros [= <-]; by eexists|]. destruct (negb _); [intros [= <-]; by eexists | done].
Qed.

Lemma no_write_refusal w : write_refusal w = None ->
  SL.resource_ (s_lifecycle (st w)) = SL.ResourceState.kOpen /\ 0 <= s_socket (st w) /\ s_pending_write (st w) = nullptr.
Proof.
  unfold write_refusal, SL.ValidateWrite, SL.ValidateResource. destruct (stopping w); [done|]. destruct (SL.resource_ _); try done.
  destruct (bool_decide _); [done|]. destruct (bool_decide _); [done|]. destruct (Z.ltb_spec (s_socket (st w)) 0); [done|].
  destruct (Z.eqb_spec (s_pending_write (st w)) nullptr); done.
Qed.

Lemma write_CompleteInline_ok x result : w_lifecycle x = SingleResultLifecycle.initial -> w_result x = IoResultState.new -> encodable result ->
  w_total x = w_sent x ++ w_buffer x -> write_fits result x ->
  exists x', write_CompleteInline x result = Val x' /\ finished_writer result x' /\ w_sent x' = w_sent x /\ w_total x' = w_total x.
Proof.
  intros El Er He Et Hf. unfold write_CompleteInline. rewrite Er, (store_result _ He), bind_val. unfold write_authorize. cbn [w_lifecycle]. rewrite El.
  eexists. split; [reflexivity|]. split_and!; try done. split; try done. by apply (sent_finished result x).
Qed.

Lemma new_writer_sent bytes : w_sent (new_Writer bytes) = [].
Proof. unfold w_sent. cbn. by rewrite Nat.sub_diag. Qed.

Definition write_outcome (w : world) (a handle : Z) (bytes : list byte) (w' : world) (out : option (delivery * Writer)) : Prop :=
  match out with
  | None => exists x, w_request x = (Some handle, bytes) /\ started_write w a x w'
  | Some (d, x) => w_total x = bytes /\ ended_write w x d w'
  end.

Lemma put_put_w w a x x' k : put_writer (set_sock (put_writer w a x) k) a x' = put_writer (set_sock w k) a x'.
Proof. unfold put_writer, set_writers, set_sock. cbn. by rewrite insert_insert_eq. Qed.

Lemma get_put_w w a x : get_writer (put_writer w a x) a = Val x.
Proof. unfold get_writer. cbn. by rewrite lookup_insert_eq. Qed.

Lemma start_write_ok w a handle bytes : core None w -> quiet w -> a <> nullptr -> writers w !! a = None -> handle <> nullptr ->
  exists w' out, start_write w a handle bytes = Val (w', out) /\ write_outcome w a handle bytes w' out.
Proof.
  intros H Hq Ha Hn Hh. unfold start_write, write_await_suspend. rewrite get_put_w, bind_val.
  cbn [st put_writer set_writers]. rewrite (proj1 (co_owner _ _ H)), check_true, bind_val.
  change (write_refusal (put_writer w a _)) with (write_refusal w). set (x0 := new_Writer bytes). pose proof (new_writer_sent bytes) as Es0. fold x0 in Es0.
  destruct (write_refusal w) as [result|] eqn:Er.
  { destruct (write_refusal_ok w result Er) as (e & -> & He).
    destruct (write_CompleteInline_ok x0 (Err e)) as (x & -> & Hfin & Es & Et); try done; [by rewrite Es0|]. rewrite !bind_val.
    pose proof (put_put_w w a x0 x (sock w)) as Ep. rewrite set_sock_id in Ep. change (set_sock (put_writer w a x0) (sock w)) with (put_writer w a x0) in Ep. rewrite Ep.
    destruct (ended_write_ok w a (sock w) x (Err e)) as (d & E & He'); try done; try apply H; [by rewrite Es, Es0, app_nil_r | right; by rewrite Es, Es0 |].
    rewrite !set_sock_id in *. rewrite E, bind_val. eexists _, _. split; [reflexivity|]. done. }
  destruct (no_write_refusal w Er) as (Hl & Hs & Hp). unfold Bind. rewrite bool_decide_true, check_true, bind_val by done.
  rewrite (proj2 (Z.eqb_neq _ _) Hh). cbn [negb]. rewrite check_true, !bind_val.
  cbn [w_stream w_lifecycle w_result w_buffer w_total x0 new_Writer]. set (x1 := mkWriter true (Some handle) _ _ _ _).
  destruct (write_loop_ok (length bytes) (sock (put_writer w a x0)) bytes ltac:(lia) (co_send _ _ H)) as (k & buffer' & ended & sent & -> & Hso). rewrite bind_val.
  destruct Hso as [S1 S2 S3 S4 S5 S6]. cbn [sock put_writer set_writers] in *.
  destruct (sent_advance x1 buffer' sent) as [Ea Et]; [by rewrite (new_writer_sent bytes : w_sent x1 = []) | done |].
  rewrite (new_writer_sent bytes : w_sent x1 = []) in Ea. cbn [app] in Ea. assert (Forall recv_ok (k_recv k)) as S7 by (rewrite S3; apply H).
  destruct ended as [result|].
  - destruct S6 as [He Hf]. destruct (write_CompleteInline_ok (set_w_buffer x1 buffer') result) as (x & -> & Hfin & Es & Etot); try done. rewrite !bind_val, put_put_w.
    destruct (ended_write_ok w a k x result) as (d & E & He'); try done; [by rewrite Es, Ea | by left |].
    rewrite E, bind_val. eexists _, _. split; [reflexivity|]. split; [by rewrite Etot | done].
  - rewrite put_put_w. destruct (SuspendForWrite_ok w k a (set_w_buffer x1 buffer')) as (w' & -> & S); try done; [by rewrite Hl | by rewrite Ea |].
    rewrite !bind_val. eexists _, None. split; [reflexivity|]. eexists. by split; [|exact S].
Qed.

End EpollStreamRuns.
