(* ===== verification/EpollStreamClose.v ===== *)
(** * The epoll stream: resuming, dropping, closing and moving *)

From Stdlib Require Import Strings.Byte.
From S2P Require Import Prelude Lifecycles ResultCells StreamLifecycle Buffer BufferProofs UringLoop EpollPoller EpollPollerProps EpollStream EpollStreamProps EpollStreamRuns.

Import EpollStream EpollStreamProps EpollStreamRuns.

Module EpollStreamClose.

Module P := EpollPoller.
Module PP := EpollPollerProps.
Module SL := StreamLifecycle.

(** ** The loop takes work from its queue *)

Definition pop_work (w : world) (rest : list (bool * Z)) : world :=
  let l := lp w in set_lp w (mkLoop (l_state l) rest (l_timers l) (l_next_timer l) (l_now l) (l_room l)).

Lemma scheduled_pop dir a rest w w' : l_work (lp w) = (dir, a) :: rest -> l_work (lp w') = rest -> NoDup ((dir, a) :: rest) ->
  (forall p, p <> (dir, a) -> seg w' p = seg w p) ->
  scheduled dir w = seg w (dir, a) :: scheduled dir w' /\ scheduled (negb dir) w = scheduled (negb dir) w'.
Proof.
  intros E E' Hnd Hs. apply NoDup_cons in Hnd as [Hn _]. unfold scheduled. rewrite E, E'. rewrite filter_cons_True by done.
  rewrite filter_cons_False by (unfold of_dir; cbn; by destruct dir). rewrite fmap_cons. split; [f_equal|]; apply list_fmap_ext; intros i p Hi.
  - symmetry. apply Hs. intros ->. apply Hn. apply list_elem_of_lookup_2, list_elem_of_filter in Hi as [_ ?]. done.
  - symmetry. apply Hs. intros ->. apply list_elem_of_lookup_2, list_elem_of_filter in Hi as [Hd _]. unfold of_dir in Hd. by destruct dir.
Qed.

Lemma led_pop dir a rest w w' : l_work (lp w) = (dir, a) :: rest -> l_work (lp w') = rest -> NoDup ((dir, a) :: rest) ->
  (forall p, p <> (dir, a) -> seg w' p = seg w p) -> sock w' = sock w -> (forall d, pending_of d (st w') = pending_of d (st w)) -> pending_of dir (st w) <> a ->
  (forall log, led dir log w -> led dir (log ++ [seg w (dir, a)]) w') /\ (forall log, led (negb dir) log w -> led (negb dir) log w').
Proof.
  intros E E' Hnd Hs Ek Hp Hne. destruct (scheduled_pop dir a rest w w' E E' Hnd Hs) as [S1 S2]. split; intros log (segs & Eb & Hpm); exists segs.
  - rewrite Ek, Hp, Hs by congruence. split; [done|]. rewrite Hpm, S1. solve_Permutation.
  - rewrite Ek, Hp, Hs by (by destruct dir). split; [done|]. by rewrite Hpm, S2.
Qed.

Record resumed (w w' : world) : Prop := {
  rs_core : core None w';
  rs_quiet : quiet w';
  rs_st : st w' = st w;
}.

Lemma resume_read_ok w a rest : core None w -> quiet w -> l_work (lp w) = (true, a) :: rest ->
  exists w' d r, finish_read (pop_work w rest) a = Val (w', (d, r)) /\ resumed w w' /\ readers w !! a = Some r /\ read_delivered r d /\
    readers w' = delete a (readers w) /\ writers w' = writers w /\
    (forall log, led true log w -> led true (log ++ [r_data r]) w') /\ (forall log, led false log w -> led false log w').
Proof.
  intros H Hq E. pose proof H as [K1 K2 K3 K4 K5 K6 K7 K8 K9]. destruct (ro_work _ _ _ K5 a) as (r & result & Hr & Hf); [rewrite E; left|].
  destruct (read_resume_ok result r Hf) as (d & Er & Hd).
  assert (s_pending_read (st w) <> a) as Hne.
  { intros Ea. assert (a <> nullptr) as Hz by (intros ->; by rewrite (ro_null _ _ _ K5) in Hr). destruct (ro_pending _ _ _ K5) as (_ & _ & _ & _ & _ & Hx); [congruence|].
    apply Hx. rewrite Ea, E. left. }
  rewrite E in K7. pose proof K7 as [Hnr _]%NoDup_cons.
  set (w' := set_readers (pop_work w rest) (delete a (readers w))). exists w', d, r. split.
  { unfold finish_read, get_reader. cbn [readers pop_work set_lp]. rewrite Hr, bind_val, Er, bind_val. unfold destroy_reader, get_reader.
    cbn [readers pop_work set_lp st set_readers]. rewrite Hr, bind_val, (proj2 (Z.eqb_neq _ _) Hne), orb_true_r. done. }
  destruct (led_pop true a rest w w') as [L1 L2]; try done.
  { intros [[] b] Hb; cbn; [|done]. rewrite lookup_delete_ne; [done|]. congruence. }
  assert (seg w (true, a) = r_data r) as Es by (unfold seg; cbn; by rewrite Hr). rewrite Es in L1.
  split_and!; try done. split; [|unfold quiet, seg in *; cbn in *; by rewrite lookup_delete_ne | done].
  split; cbn; try done.
  - destruct K4 as [T1 T2 T3 T4]. by split.
  - destruct K5 as [R1 R2 R3 R4]. split; cbn.
    + by rewrite lookup_delete_None; right.
    + intros Hp. destruct (R2 Hp) as (r0 & Hr0 & Ho & Hc & Ek & Hn). exists r0. rewrite lookup_delete_ne by done. split_and!; try done.
      intros Hx. apply Hn. rewrite E. by right.
    + intros b Hb. rewrite lookup_delete_ne by (intros <-; done). apply R3. rewrite E. by right.
    + intros b r0 [Hne' Hb]%lookup_delete_Some. destruct (R4 b r0 Hb) as [|Hw]; [auto|]. right. rewrite E in Hw.
      apply elem_of_cons in Hw as [[= ->]|]; [done | done].
  - eapply writers_frame; [exact K6 | done|]. intros b. rewrite E, elem_of_cons. split; [auto | by intros [|]].
  - by apply NoDup_cons in K7 as [_ ?].
Qed.

Lemma resume_write_ok w a rest : core None w -> quiet w -> l_work (lp w) = (false, a) :: rest ->
  exists w' d x, finish_write (pop_work w rest) a = Val (w', (d, x)) /\ resumed w w' /\ writers w !! a = Some x /\ write_delivered x d /\
    readers w' = readers w /\ writers w' = delete a (writers w) /\
    (forall log, led true log w -> led true log w') /\ (forall log, led false log w -> led false (log ++ [w_sent x]) w').
Proof.
  intros H Hq E. pose proof H as [K1 K2 K3 K4 K5 K6 K7 K8 K9]. destruct (wo_work _ _ _ K6 a) as (x & result & Hr & Hf); [rewrite E; left|].
  destruct (write_resume_ok result x Hf) as (d & Er & Hd).
  assert (s_pending_write (st w) <> a) as Hne.
  { intros Ea. assert (a <> nullptr) as Hz by (intros ->; by rewrite (wo_null _ _ _ K6) in Hr). destruct (wo_pending _ _ _ K6) as (_ & _ & _ & _ & Hx); [congruence|].
    apply Hx. rewrite Ea, E. left. }
  rewrite E in K7. pose proof K7 as [Hnr _]%NoDup_cons.
  set (w' := set_writers (pop_work w rest) (delete a (writers w))). exists w', d, x. split.
  { unfold finish_write, get_writer. cbn [writers pop_work set_lp]. rewrite Hr, bind_val, Er, bind_val. unfold destroy_writer, get_writer.
    cbn [writers pop_work set_lp st set_writers]. rewrite Hr, bind_val, (proj2 (Z.eqb_neq _ _) Hne), orb_true_r. done. }
  destruct (led_pop false a rest w w') as [L1 L2]; try done.
  { intros [[] b] Hb; cbn -[w_sent]; [done|]. rewrite lookup_delete_ne; [done|]. congruence. }
  assert (seg w (false, a) = w_sent x) as Es by (unfold seg; cbn -[w_sent]; by rewrite Hr). rewrite Es in L1.
  split_and!; try done. split; [|done | done].
  split; cbn; try done.
  - destruct K4 as [T1 T2 T3 T4]. by split.
  - eapply readers_frame; [exact K5 | done | done|]. intros b. rewrite E, elem_of_cons. split; [auto | by intros [|]].
  - destruct K6 as [R1 R2 R3 R4]. split; cbn.
    + by rewrite lookup_delete_None; right.
    + intros Hp. destruct (R2 Hp) as (r0 & Hr0 & Ho & Hc & Hn). exists r0. rewrite lookup_delete_ne by done. split_and!; try done.
      intros Hx. apply Hn. rewrite E. by right.
    + intros b Hb. rewrite lookup_delete_ne by (intros <-; done). apply R3. rewrite E. by right.
    + intros b r0 [Hne' Hb]%lookup_delete_Some. destruct (R4 b r0 Hb) as [|Hw]; [auto|]. right. rewrite E in Hw.
      apply elem_of_cons in Hw as [[= ->]|]; [done | done].
  - by apply NoDup_cons in K7 as [_ ?].
Qed.

(** ** A pending operation is dropped *)

(** The ledger when the pending operation of [dir] is taken out. *)
Lemma led_drop dir w w' : l_work (lp w') = l_work (lp w) -> (dir, pending_of dir (st w)) ∉ l_work (lp w) ->
  (forall p, p <> (dir, pending_of dir (st w)) -> seg w' p = seg w p) -> sock w' = sock w ->
  pending_of dir (st w') = nullptr -> pending_of (negb dir) (st w') = pending_of (negb dir) (st w) -> seg w' (dir, nullptr) = [] ->
  (forall log, led dir log w -> led dir (log ++ [seg w (dir, pending_of dir (st w))]) w') /\ (forall log, led (negb dir) log w -> led (negb dir) log w').
Proof.
  intros E Hn Hs Ek Hp Hp' H0.
  assert (forall d, scheduled d w' = scheduled d w) as Hsch.
  { intros d. apply scheduled_ext; [done|]. intros a Ha. apply Hs. intros [= -> ->]. done. }
  split; intros log (segs & Eb & Hpm).
  - exists (segs ++ [seg w (dir, pending_of dir (st w))]). rewrite Ek, Hp, H0, app_nil_r, concat_app, Hsch. split; [rewrite Eb; cbn; by rewrite app_nil_r|].
    rewrite Hpm. solve_Permutation.
  - exists segs. rewrite Ek, Hp', Hs, Hsch by (by destruct dir). done.
Qed.

Lemma drop_read_ok w : core None w -> quiet w -> s_pending_read (st w) <> nullptr ->
  exists w' r, destroy_reader w (s_pending_read (st w)) = Val w' /\ readers w !! s_pending_read (st w) = Some r /\ r_data r = [] /\
    core None w' /\ quiet w' /\ carries w w' /\ readers w' = delete (s_pending_read (st w)) (readers w) /\ writers w' = writers w /\
    (forall log, led true log w -> led true (log ++ [[]]) w') /\ (forall log, led false log w -> led false log w').
Proof.
  intros H Hq Hp. pose proof H as [K1 K2 K3 K4 K5 K6 K7 K8 K9]. destruct (ro_pending _ _ _ K5 Hp) as (r & Hr & Ho & Hc & Ek & Hn).
  pose proof (pending_open w None true H Hp) as Hs. destruct (cancel_timers None true w K4 ltac:(done)) as [Ht Ht0].
  destruct (cancel_shape true w) as (l & Ew & Hl & Hls & Hln). rewrite Ew in Ht, Ht0. cbn [st lp set_lp set_st] in Ht, Ht0.
  set (s1 := set_timer true _ _ _) in *. set (w1 := set_st (set_lp (set_st (set_readers w (delete (s_pending_read (st w)) (readers w))) s1) l) (set_read_slot s1 nullptr kNone)).
  destruct (disable_reading_w (is_pending true (st w)) (is_pending false (st w)) w1 K2 Hs) as (p & E & Hch).
  exists (set_poller w1 p), r. split.
  { unfold destroy_reader, get_reader. rewrite Hr, bind_val, (rd_stream _ Ho). cbn [st set_readers]. rewrite Z.eqb_refl. cbn [negb orb].
    destruct (cancel_shape true (set_readers w (delete (s_pending_read (st w)) (readers w)))) as (l' & Ew' & _). rewrite Ew'.
    assert (l' = l) as ->. { revert Ew Ew'. unfold CancelDeadline. cbn. destruct (negb _); intros [= <-] [= <-]; done. }
    exact E. }
  split; [done|]. split; [by apply (quiet_reader w)|].
  assert (core None (set_poller w1 p)) as H'.
  { split; cbn [st poller readers writers lp sock w1 set_poller set_st set_lp set_readers]; try done.
    - unfold life_ok in *. cbn. destruct (SL.resource_ _); try done. destruct K3 as [_ K3]. by destruct (Hp (K3 true)).
    - exact (clear_timers true _ _ Ht Ht0).
    - rewrite Hl. destruct K5 as [R1 R2 R3 R4]. split; cbn; try done.
      + by rewrite lookup_delete_None; right.
      + intros b Hb. rewrite lookup_delete_ne by (intros <-; done). auto.
      + intros b r0 [Hne Hb]%lookup_delete_Some. destruct (R4 b r0 Hb); [congruence | auto].
    - eapply writers_frame; [exact K6 | done|]. by rewrite Hl.
    - by rewrite Hl. }
  destruct (led_drop true w (set_poller w1 p)) as [L1 L2]; try done.
  { intros [[] b] Hb; cbn; [|done]. rewrite lookup_delete_ne; [done|]. cbn in Hb. congruence. }
  { by apply (null_seg None). }
  cbn [pending_of] in L1. rewrite Hq in L1. split_and!; try done. apply (null_seg None _ true H').
Qed.

Lemma drop_write_ok w : core None w -> quiet w -> s_pending_write (st w) <> nullptr ->
  exists w' x, destroy_writer w (s_pending_write (st w)) = Val w' /\ writers w !! s_pending_write (st w) = Some x /\ w_sent x `prefix_of` w_total x /\
    core None w' /\ quiet w' /\ carries w w' /\ readers w' = readers w /\ writers w' = delete (s_pending_write (st w)) (writers w) /\
    (forall log, led true log w -> led true log w') /\ (forall log, led false log w -> led false (log ++ [w_sent x]) w').
Proof.
  intros H Hq Hp. pose proof H as [K1 K2 K3 K4 K5 K6 K7 K8 K9]. destruct (wo_pending _ _ _ K6 Hp) as (x & Hr & Ho & Hc & Hn).
  pose proof (pending_open w None false H Hp) as Hs. destruct (cancel_timers None false w K4 ltac:(done)) as [Ht Ht0].
  destruct (cancel_shape false w) as (l & Ew & Hl & Hls & Hln). rewrite Ew in Ht, Ht0. cbn [st lp set_lp set_st] in Ht, Ht0.
  set (s1 := set_timer false _ _ _) in *. set (w1 := set_st (set_lp (set_st (set_writers w (delete (s_pending_write (st w)) (writers w))) s1) l) (set_write_slot s1 nullptr)).
  destruct (disable_writing_w (is_pending true (st w)) (is_pending false (st w)) w1 K2 Hs) as (p & E & Hch).
  exists (set_poller w1 p), x. split.
  { unfold destroy_writer, get_writer. rewrite Hr, bind_val, (wr_stream _ Ho). cbn [st set_writers]. rewrite Z.eqb_refl. cbn [negb orb].
    destruct (cancel_shape false (set_writers w (delete (s_pending_write (st w)) (writers w)))) as (l' & Ew' & _). rewrite Ew'.
    assert (l' = l) as ->. { revert Ew Ew'. unfold CancelDeadline. cbn. destruct (negb _); intros [= <-] [= <-]; done. }
    exact E. }
  split; [done|]. split; [exists (w_buffer x); apply Ho|].
  assert (core None (set_poller w1 p)) as H'.
  { split; cbn [st poller readers writers lp sock w1 set_poller set_st set_lp set_writers]; try done.
    - unfold life_ok in *. cbn. destruct (SL.resource_ _); try done. destruct K3 as [_ K3]. by destruct (Hp (K3 false)).
    - exact (clear_timers false _ _ Ht Ht0).
    - eapply readers_frame; [exact K5 | done | done|]. by rewrite Hl.
    - rewrite Hl. destruct K6 as [R1 R2 R3 R4]. split; cbn; try done.
      + by rewrite lookup_delete_None; right.
      + intros b Hb. rewrite lookup_delete_ne by (intros <-; done). auto.
      + intros b r0 [Hne Hb]%lookup_delete_Some. destruct (R4 b r0 Hb); [congruence | auto].
    - by rewrite Hl. }
  destruct (led_drop false w (set_poller w1 p)) as [L1 L2]; try done.
  { intros [[] b] Hb; cbn -[w_sent]; [done|]. rewrite lookup_delete_ne; [done|]. cbn in Hb. congruence. }
  { by apply (null_seg None). }
  cbn [pending_of] in L1. assert (seg w (false, s_pending_write (st w)) = w_sent x) as Es by (unfold seg; cbn -[w_sent]; by rewrite Hr). rewrite Es in L1. split_and!; done.
Qed.

(** ** Closing *)

Definition steady (l : SL.t) : Prop :=
  SL.resource_ l <> SL.ResourceState.kClosing /\ SL.read_ l <> SL.ReadState.kShutdownPreparing /\ SL.write_ l <> SL.WriteState.kShutdownPreparing.

(** The channel after DetachChannel. *)
Definition detached_chan (fd : Z) (p : P.world) (a : Z) : Prop :=
  PP.inv p /\ exists c, P.store p !! a = Some c /\ P.loop_ c = true /\ bound c /\ P.index_ c = P.kNew /\ (0 <= fd -> P.fd_ c = fd /\ P.channels_ p !! fd = None).

Lemma DetachChannel_ok rd wr w : chan rd wr (s_socket (st w)) (poller w) (s_channel (st w)) ->
  exists p, DetachChannel w = Val (set_poller w p) /\ detached_chan (s_socket (st w)) p (s_channel (st w)) /\
    (forall b, b <> s_channel (st w) -> P.store p !! b = P.store (poller w) !! b) /\ (forall f, P.channels_ (poller w) !! f = None -> P.channels_ p !! f = None).
Proof.
  intros [Hi (c & [C1 C2 C3 C4 C5 _ _])]. unfold DetachChannel, channel, EpollPoller.deref. rewrite C1, bind_val.
  pose proof (PP.iv_chan _ Hi _ _ C1) as [I1 I2 I3 I4 I5]. set (a := s_channel (st w)) in *. set (fd := s_socket (st w)) in *.
  assert (forall q d, PP.inv q -> P.store q !! a = Some d -> P.loop_ d = true -> bound d -> P.fd_ d = P.fd_ c -> P.events_ d = P.kNoneEvent -> P.index_ d <> P.kNew ->
    exists p, (b ← EpollPoller.IsRegistered q a; if (b : bool) then p ← EpollPoller.Remove q a; Val (set_poller w p) else Val (set_poller w q)) = Val (set_poller w p) /\ detached_chan fd p a /\
    (forall b, b <> a -> P.store p !! b = P.store q !! b) /\ P.channels_ p = delete (P.fd_ c) (P.channels_ q)) as Hrem.
  { intros q d Hq Hd Hl Hb Hf He Hx. destruct (PP.Remove_ok q a d Hq Hd Hx He) as [-> Hinv]. unfold EpollPoller.IsRegistered, EpollPoller.HasChannel, EpollPoller.deref.
    rewrite Hd, !bind_val, Hl, check_true, ?bind_val. rewrite bool_decide_true by (by apply (PP.iv_chan _ Hq _ _ Hd)).
    eexists. split; [reflexivity|]. split; [|split; [intros b Hba; cbn; by rewrite lookup_insert_ne | cbn; by rewrite Hf]]. split; [exact Hinv|]. exists (P.set_index d P.kNew). cbn. rewrite lookup_insert_eq. split_and!; try done; try apply Hb.
    intros Hfd. destruct (C5 Hfd) as [Ef _]. split; [congruence|]. rewrite <- Ef, Hf. apply lookup_delete_eq. }
  destruct (EpollPoller.IsNoneEvent c) eqn:En; cbn [negb].
  - rewrite bind_val. apply Z.eqb_eq in En. destruct (Z.eq_dec (P.index_ c) P.kNew) as [Ex|Ex].
    + exists (poller w). split.
      * unfold EpollPoller.IsRegistered, EpollPoller.HasChannel, EpollPoller.deref. fold a. rewrite C1, !bind_val, C2, check_true, !bind_val.
        rewrite bool_decide_false by (intros Hm; by apply I2 in Hm). by destruct w.
      * split; [|done]. split; [done|]. exists c. split_and!; try done; try apply C3; intros Hfd; destruct (C5 Hfd); auto.
    + destruct (Hrem (poller w) c Hi C1 C2 C3 eq_refl En Ex) as (p & E & Hp & Ho & Hch). exists p. split; [|split_and!; [done | done | intros f Hfn; rewrite Hch; by apply lookup_delete_None; right]]. rewrite <- E. fold a. unfold channel_do. fold a. by destruct w.
  - assert (P.index_ c = P.kAdded) as Ex. { destruct (Z.eq_dec (P.index_ c) P.kAdded) as [|Hne]; [done|]. unfold EpollPoller.IsNoneEvent in En. by rewrite (I4 Hne) in En. }
    destruct (PP.change_events_ok (poller w) a c (fun _ => P.kNoneEvent) Hi C1 C2 ltac:(by rewrite Ex)) as (i & E & Hinv & Hni).
    unfold channel_do. fold a. unfold EpollPoller.DisableAll. rewrite E, !bind_val.
    destruct (Hrem _ (P.set_index (P.set_events c P.kNoneEvent) i) Hinv ltac:(apply lookup_insert_eq) C2 C3 eq_refl eq_refl Hni) as (p & Ep & Hp & Ho & Hch). exists p. split; [exact Ep|]. split_and!; [done | |].
    + intros b Hb. rewrite (Ho b Hb). cbn. by rewrite lookup_insert_ne.
    + intros f Hfn. rewrite Hch. cbn. destruct (decide (f = P.fd_ c)) as [->|Hn]; [apply lookup_delete_eq|]. by rewrite lookup_delete_ne, lookup_insert_ne.
Qed.

(** Steps that leave the operations and their bytes alone. *)
Record preserves (w w' : world) : Prop := {
  pv_core : core None w';
  pv_quiet : quiet w';
  pv_led dir log : led dir log w -> led dir log w';
  pv_readers : r_request <$> readers w' = r_request <$> readers w;
  pv_writers : w_request <$> writers w' = w_request <$> writers w;
}.

Lemma advances_preserves w w' : core None w' -> quiet w' -> advances w w' -> preserves w w'.
Proof. intros H Hq []. by split. Qed.

Lemma keeps_preserves w w' : core None w' -> quiet w -> keeps w w' -> preserves w w'.
Proof. intros H Hq Hk. apply advances_preserves; [done | by apply (kp_quiet _ _ Hk) | by apply keeps_advances]. Qed.

Lemma preserves_trans w1 w2 w3 : preserves w1 w2 -> preserves w2 w3 -> preserves w1 w3.
Proof. intros [A1 A2 A3 A4 A5] [B1 B2 B3 B4 B5]. split; try done; [auto | congruence | congruence]. Qed.

(** Another state of the half-closes. *)
Lemma set_life_ok w l : core None w -> quiet w -> SL.resource_ l <> SL.ResourceState.kClosed -> 0 <= s_socket (st w) -> preserves w (set_st w (set_life (st w) l)).
Proof.
  intros [K1 K2 K3 K4 K5 K6 K7 K8 K9] Hq Hl Hs. split; try done. split; try done.
  - unfold life_ok. cbn. by destruct (SL.resource_ l).
  - destruct K4 as [T1 T2 T3 T4]. by split.
  - by eapply readers_frame.
  - by eapply writers_frame.
Qed.

Lemma complete_if w result : (if negb (s_pending_read (st w) =? nullptr) then CompleteRead w result else Val w) = CompleteRead w result.
Proof. unfold CompleteRead. by destruct (_ =? _). Qed.
Lemma complete_write_if w result : (if negb (s_pending_write (st w) =? nullptr) then CompleteWrite w result else Val w) = CompleteWrite w result.
Proof. unfold CompleteWrite. by destruct (_ =? _). Qed.

Definition closed_stream (w : world) (p : P.world) : world :=
  set_st (Close_socket (set_poller w p)) (set_life (set_socket (st w) (-1)) (SL.MarkClosed (s_lifecycle (st w)))).

Lemma closed_stream_ok w p : core None w -> quiet w -> (forall dir, pending_of dir (st w) = nullptr) -> detached_chan (s_socket (st w)) p (s_channel (st w)) ->
  preserves w (closed_stream w p).
Proof.
  intros [K1 K2 K3 K4 K5 K6 K7 K8 K9] Hq Hp [Hi (c & C1 & C2 & C3 & C4 & _)]. split; try done. split; try done.
  - unfold is_pending. cbn. pose proof (Hp true) as E1. pose proof (Hp false) as E2. cbn in E1, E2. rewrite E1, E2.
    split; [done|]. exists c. split; try done.
  - destruct K4 as [T1 T2 T3 T4]. by split.
  - by eapply readers_frame.
  - by eapply writers_frame.
Qed.

Lemma CloseNow_ok w : core None w -> quiet w -> steady (s_lifecycle (st w)) ->
  exists w', CloseNow w = Val w' /\ preserves w w' /\ steady (s_lifecycle (st w')) /\ SL.resource_ (s_lifecycle (st w')) = SL.ResourceState.kClosed.
Proof.
  intros H Hq (S1 & S2 & S3). unfold CloseNow, SL.PrepareClose. destruct (SL.resource_ (s_lifecycle (st w))) eqn:Er; [|done|].
  2: { exists w. split; [done|]. split; [by apply keeps_preserves|]. unfold steady. by rewrite Er. }
  rewrite !bool_decide_false by done. cbn [orb].
  assert (0 <= s_socket (st w)) as Hs by (pose proof (co_life _ _ H) as Hl; unfold life_ok in Hl; by rewrite Er in Hl).
  set (l := SL.set_resource SL.ResourceState.kClosing (s_lifecycle (st w))). pose proof (set_life_ok w l H Hq ltac:(done) Hs) as P1.
  set (w1 := set_st w _) in *. rewrite complete_if.
  destruct (CompleteRead_steps w1 (Err (Errno ECANCELED)) (pv_core _ _ P1) (quiet_fits w1 _ (pv_quiet _ _ P1)) ECANCELED_ok) as (w2 & -> & H2 & Hq2 & Hk2 & Hp2 & Hc2).
  rewrite bind_val, complete_write_if.
  destruct (CompleteWrite_steps w2 (Err (Errno ECANCELED)) H2 Hq2 ltac:(done) ECANCELED_ok) as (w3 & -> & H3 & Hq3 & Hk3 & Hp3 & Hc3). rewrite bind_val.
  destruct (DetachChannel_ok _ _ w3 (co_chan _ _ H3)) as (p & -> & Hd & _). rewrite bind_val.
  assert (forall dir, pending_of dir (st w3) = nullptr) as Hp. { intros []; [|done]. by rewrite (cp_other _ _ _ Hc3 : pending_of true _ = _). }
  exists (closed_stream w3 p). split; [done|]. split.
  - eapply preserves_trans; [exact P1|]. eapply preserves_trans; [exact (keeps_preserves w1 w2 H2 (pv_quiet _ _ P1) Hk2)|].
    eapply preserves_trans; [exact (keeps_preserves w2 w3 H3 Hq2 Hk3)|]. by apply closed_stream_ok.
  - pose proof (sb_life _ _ (kp_stable _ _ Hk2)) as E2. pose proof (sb_life _ _ (kp_stable _ _ Hk3)) as E3. split; [|done].
    unfold steady. cbn. rewrite E3, E2. done.
Qed.

Lemma open_socket w : core None w -> 0 <= s_socket (st w) -> SL.resource_ (s_lifecycle (st w)) <> SL.ResourceState.kClosed.
Proof. intros H Hs E. pose proof (co_life _ _ H) as Hl. unfold life_ok in Hl. rewrite E in Hl. lia. Qed.

Lemma steady_open w : core None w -> 0 <= s_socket (st w) -> steady (s_lifecycle (st w)) -> SL.resource_ (s_lifecycle (st w)) = SL.ResourceState.kOpen.
Proof. intros H Hs (S1 & _). pose proof (open_socket w H Hs). by destruct (SL.resource_ _). Qed.

(** A state of the half-closes of an open stream. *)
Ltac life Ho :=
  match goal with |- preserves ?w (set_st _ (set_life _ ?l)) => refine (set_life_ok w l _ _ _ _); [done | done | cbn; by rewrite Ho | done] end.

Lemma CloseWrite_ok w errno : core None w -> quiet w -> steady (s_lifecycle (st w)) ->
  exists w' result, CloseWrite w errno = Val (w', result) /\ preserves w w' /\ steady (s_lifecycle (st w')).
Proof.
  intros H Hq Hst. unfold CloseWrite. rewrite (proj1 (co_owner _ _ H)), check_true, bind_val.
  assert (preserves w w) as Prefl by (by apply keeps_preserves).
  destruct (Z.ltb_spec (s_socket (st w)) 0) as [|Hs]; [eexists _, _; split; [reflexivity|]; done|]. pose proof (steady_open w H Hs Hst) as Ho. destruct Hst as (S1 & S2 & S3).
  unfold SL.PrepareShutdown, SL.ValidateResource. rewrite Ho.
  assert (set_st w (set_life (st w) (s_lifecycle (st w))) = w) as Eid by (by destruct w as [[]]).
  destruct (bool_decide _) eqn:Eb; [rewrite Eid; eexists _, _; split; [reflexivity|]; done|]. rewrite bool_decide_false by done.
  destruct (negb _); [rewrite Eid; eexists _, _; split; [reflexivity|]; done|].
  unfold SL.AbortShutdownPreparation, SL.CommitShutdown. cbn [st set_st set_life s_lifecycle SL.set_write SL.resource_ SL.write_]. rewrite Ho.
  destruct (negb (errno =? 0)); rewrite !bool_decide_true, !check_true, !bind_val by done; (eexists _, _; split; [reflexivity|]);
    (split; [life Ho | by split_and!; cbn; rewrite ?Ho]).
Qed.

Lemma CloseRead_ok w errno : core None w -> quiet w -> steady (s_lifecycle (st w)) ->
  exists w' result, CloseRead w errno = Val (w', result) /\ preserves w w' /\ steady (s_lifecycle (st w')).
Proof.
  intros H Hq Hst. unfold CloseRead. rewrite (proj1 (co_owner _ _ H)), check_true, bind_val.
  assert (preserves w w) as Prefl by (by apply keeps_preserves).
  destruct (Z.ltb_spec (s_socket (st w)) 0) as [|Hs]; [eexists _, _; split; [reflexivity|]; done|]. pose proof (steady_open w H Hs Hst) as Ho. destruct Hst as (S1 & S2 & S3).
  unfold SL.PrepareCloseRead, SL.ValidateRead, SL.ValidateResource. rewrite Ho, (bool_decide_false (SL.read_ _ = SL.ReadState.kShutdownPreparing)) by done.
  assert (set_st w (set_life (st w) (s_lifecycle (st w))) = w) as Eid by (by destruct w as [[]]).
  destruct (bool_decide _) eqn:Eb; [rewrite Eid; eexists _, _; split; [reflexivity|]; done|]. cbn [orb].
  destruct (Z.eqb_spec (s_pending_read (st w)) nullptr) as [Hp|Hp]; cbn [negb]; [|rewrite Eid; eexists _, _; split; [reflexivity|]; done].
  unfold SL.AbortCloseReadPreparation, SL.CommitCloseRead. cbn [st set_st set_life s_lifecycle SL.set_read SL.resource_ SL.read_]. rewrite Ho.
  destruct (negb (errno =? 0)); rewrite !bool_decide_true, !check_true, !bind_val by done.
  - eexists _, _. split; [reflexivity|]. split; [life Ho | by split_and!; cbn; rewrite ?Ho].
  - set (l := SL.set_read SL.ReadState.kShutdown (s_lifecycle (st w))). set (w1 := set_st (set_st _ _) _). assert (w1 = set_st w (set_life (st w) l)) as E1 by done.
    pose proof (set_life_ok w l H Hq ltac:(cbn; by rewrite Ho) Hs) as P1. rewrite <- E1 in P1.
    destruct (disable_reading_w _ _ w1 (co_chan _ _ (pv_core _ _ P1)) Hs) as (p & -> & Hch). rewrite bind_val. eexists _, _. split; [reflexivity|]. split.
    + eapply preserves_trans; [exact P1|]. apply keeps_preserves; [|apply P1 | apply set_poller_keeps]. apply set_poller_core; [apply P1|].
      by rewrite (proj2 (is_pending_false true _) (Hp : pending_of true (st w1) = nullptr)).
    + by split_and!; cbn; rewrite ?Ho.
Qed.

(** ** Moving *)

Lemma no_timers w : core None w -> (forall dir, pending_of dir (st w) = nullptr) -> l_timers (lp w) = ∅.
Proof.
  intros H Hp. apply map_eq. intros id. rewrite lookup_empty. destruct (l_timers (lp w) !! id) as [[[d dir] g]|] eqn:E; [|done].
  destruct (tm_all _ _ _ (co_timers _ _ H) _ _ _ _ E) as [Ei Hi]. destruct (tm_armed _ _ _ (co_timers _ _ H) dir) as [Hx _]; [unfold kInvalidTimer; lia|]. by destruct (Hx (Hp dir)).
Qed.

Lemma move_stream_ok w dst : core None w -> quiet w -> (forall dir, pending_of dir (st w) = nullptr) -> P.store (poller w) !! dst = None ->
  exists w', move_stream w dst = Val w' /\ preserves w w' /\ s_lifecycle (st w') = s_lifecycle (st w) /\ s_channel (st w') = dst.
Proof.
  intros H Hq Hp Hd. unfold move_stream. destruct (co_owner _ _ H) as [O1 O2].
  pose proof (Hp true : s_pending_read (st w) = nullptr) as E1. pose proof (Hp false : s_pending_write (st w) = nullptr) as E2.
  rewrite O1, check_true, bind_val, E1, Z.eqb_refl, check_true, bind_val, E2, Z.eqb_refl, check_true, bind_val.
  destruct (DetachChannel_ok _ _ w (co_chan _ _ H)) as (p & -> & (Hi & c & C1 & C2 & C3 & C4 & C5) & Hst & _). rewrite bind_val. cbn [st set_poller]. rewrite O2, check_true, bind_val.
  assert (dst <> s_channel (st w)) as Hne by (intros ->; destruct (co_chan _ _ H) as [_ (c0 & Hc0)]; rewrite (ch_at _ _ _ _ _ _ Hc0) in Hd; done).
  rewrite <- (Hst dst Hne) in Hd. cbn [poller set_poller]. unfold EpollPoller.move_construct, EpollPoller.deref. rewrite C1, !bind_val, C4. change (P.kNew =? -1) with true. rewrite check_true, !bind_val.
  cbn [EpollPoller.store EpollPoller.put EpollPoller.set_store]. rewrite lookup_insert_ne, lookup_insert_eq, bind_val by done.
  assert (PP.inv (P.put (P.put p dst c) (s_channel (st w)) P.moved_from)) as Hm by (apply PP.moved_inv; try done; intros d Hd'; congruence).
  eexists. split; [reflexivity|]. split; [|done]. pose proof H as [K1 K2 K3 K4 K5 K6 K7 K8 K9].
  split; try done; [|by unfold quiet; cbn; rewrite (ro_null _ _ _ K5)|].
  - split; cbn [st poller readers writers lp sock set_poller set_st]; try done.
    + split; [apply (PP.put_inv _ dst c); [done | cbn; by rewrite lookup_insert_ne, lookup_insert_eq by done | done..]|].
      eexists. split; [apply lookup_insert_eq | done | done | done | | done | done]. cbn. intros Hs. destruct (C5 Hs) as [Ef Em]. done.
    + unfold life_ok in *. cbn. destruct (SL.resource_ _); try done. split; [apply K3 | by intros []].
    + split; try done; try (by intros []); [|apply K4]. rewrite (no_timers w H Hp). intros id d dir g. by rewrite lookup_empty.
    + destruct K5 as [R1 R2 R3 R4]. split; cbn; try done. rewrite E1 in R4. exact R4.
    + destruct K6 as [R1 R2 R3 R4]. split; cbn; try done. rewrite E2 in R4. exact R4.
  - intros dir log (segs & Eb & Hpm). exists segs. split; [|done]. rewrite Hp in Eb. by destruct dir.
Qed.

(** The channels of the two streams after both are detached. *)
Lemma ResetForMove_ok w d : chan false false (s_socket d) (poller w) (s_channel d) -> s_loop d = true -> s_participant d = true ->
  (forall dir, pending_of dir d = nullptr) ->
  exists p, ResetForMove (set_st w d) = Val (Close_socket (set_poller (set_st w d) p)) /\ detached_chan (s_socket d) p (s_channel d) /\
    (forall b, b <> s_channel d -> P.store p !! b = P.store (poller w) !! b) /\ (forall f, P.channels_ (poller w) !! f = None -> P.channels_ p !! f = None).
Proof.
  intros Hc Hl Hpa Hp. unfold ResetForMove. cbn [st set_st]. pose proof (Hp true : s_pending_read d = nullptr) as E1. pose proof (Hp false : s_pending_write d = nullptr) as E2.
  rewrite Hl, Hpa, E1, E2, Z.eqb_refl, check_true, !bind_val. destruct (DetachChannel_ok false false (set_st w d) Hc) as (p & -> & H). rewrite bind_val. eauto.
Qed.

(** Assigning to an idle stream [d] of the same loop: [d]'s channel goes on for the
    assigned descriptor, and nothing of the old one is registered. *)
Lemma move_assign_stream_ok w d : core None w -> quiet w -> (forall dir, pending_of dir (st w) = nullptr) ->
  chan false false (s_socket d) (poller w) (s_channel d) -> s_channel d <> s_channel (st w) -> s_loop d = true -> s_participant d = true ->
  (forall dir, pending_of dir d = nullptr /\ timer_of dir d = kInvalidTimer) ->
  exists w', move_assign_stream w d = Val w' /\ preserves w w' /\ s_lifecycle (st w') = s_lifecycle (st w) /\ s_channel (st w') = s_channel d.
Proof.
  intros H Hq Hp Hcd Hne Hl Hpa Hd. unfold move_assign_stream. destruct (co_owner _ _ H) as [O1 O2].
  pose proof (Hp true : s_pending_read (st w) = nullptr) as E1. pose proof (Hp false : s_pending_write (st w) = nullptr) as E2.
  rewrite O1, check_true, bind_val, E1, Z.eqb_refl, check_true, bind_val, E2, Z.eqb_refl, check_true, bind_val.
  destruct (DetachChannel_ok _ _ w (co_chan _ _ H)) as (p & -> & (Hi & c & C1 & C2 & C3 & C4 & C5) & Hst & Hch). rewrite bind_val. cbn [st set_poller]. rewrite O2, check_true, bind_val, Hl.
  assert (chan false false (s_socket d) p (s_channel d)) as Hcd'.
  { destruct Hcd as [_ (e & [D1 D2 D3 D4 D5 D6 D7])]. split; [done|]. exists e. split; try done; [by rewrite (Hst _ Hne)|].
    intros Hs. destruct (D5 Hs) as [D8 D9]. split; [done|]. intros Hx. by apply Hch, D9. }
  destruct (ResetForMove_ok (set_poller w p) d Hcd' Hl Hpa (fun dir => proj1 (Hd dir))) as (p2 & -> & (Hi2 & e & D1 & D2 & D3 & D4 & D5) & Hst2 & Hch2).
  rewrite !bind_val. cbn [poller set_st Close_socket set_poller st]. unfold EpollPoller.move_assign, EpollPoller.deref. rewrite (proj2 (Z.eqb_neq _ _) Hne).
  rewrite D1, (Hst2 (s_channel (st w))) by done. cbn [poller set_poller]. rewrite C1, !bind_val, C4, D4. change (P.kNew =? -1) with true. rewrite check_true, !bind_val.
  cbn [EpollPoller.store EpollPoller.put EpollPoller.set_store]. rewrite lookup_insert_ne, lookup_insert_eq, bind_val by done.
  assert (P.store p2 !! s_channel (st w) = Some c) as C1' by (by rewrite (Hst2 (s_channel (st w)))).
  assert (PP.inv (P.put (P.put p2 (s_channel d) c) (s_channel (st w)) P.moved_from)) as Hm by (apply PP.moved_inv; try done; intros d' Hd'; congruence).
  eexists. split; [reflexivity|]. split; [|done]. pose proof H as [K1 K2 K3 K4 K5 K6 K7 K8 K9].
  split; try done; [|by unfold quiet; cbn; rewrite (ro_null _ _ _ K5)|].
  - split; cbn [st poller readers writers lp sock set_poller set_st Close_socket]; try done.
    + split; [apply (PP.put_inv _ (s_channel d) c); [done | cbn; by rewrite lookup_insert_ne, lookup_insert_eq by done | done..]|].
      eexists. split; [apply lookup_insert_eq | done | done | done | | done | done]. cbn. intros Hs. destruct (C5 Hs) as [Ef Em]. split; [done|]. intros _. by apply Hch2.
    + unfold life_ok in *. cbn. destruct (SL.resource_ _); try done. split; [apply K3 | by intros []].
    + pose proof (proj2 (Hd true)) as T1. pose proof (proj2 (Hd false)) as T2. cbn in T1, T2. split; cbn; [intros [] Ht; cbn in Ht; congruence | | apply K4 | by intros []].
      rewrite (no_timers w H Hp). intros id d' dir g. by rewrite lookup_empty.
    + destruct K5 as [R1 R2 R3 R4]. split; cbn; try done. rewrite E1 in R4. exact R4.
    + destruct K6 as [R1 R2 R3 R4]. split; cbn; try done. rewrite E2 in R4. exact R4.
  - intros dir log (segs & Eb & Hpm). exists segs. split; [|done]. rewrite Hp in Eb. by destruct dir.
Qed.

End EpollStreamClose.
