(* ===== verification/EpollStreamSys.v ===== *)
(** * The epoll stream under arbitrary scripts

    A stream from its construction, with any sequence of operations, events, timers,
    closes and moves; every operation that was started is delivered once, and the
    bytes of the socket are those of the operations. *)

From Stdlib Require Import Strings.Byte.
From S2P Require Import Prelude Lifecycles ResultCells StreamLifecycle Buffer BufferProofs UringLoop EpollPoller EpollPollerProps EpollStream EpollStreamProps EpollStreamRuns EpollStreamClose.

Import EpollStream EpollStreamProps EpollStreamRuns EpollStreamClose.

Module EpollStreamSys.

Module P := EpollPoller.
Module PP := EpollPollerProps.
Module SL := StreamLifecycle.
Import UringLoop(kStopping).

(** ** Requests and the log *)

(** What an operation was asked to do; its coroutine comes first. *)
Definition request : Type := (option Z * PendingReadKind * nat * Buffer.t) + (option Z * list byte).

(** An operation that ended: [e_out] is [None] when it was dropped. *)
Record entry := mkEntry { e_request : request; e_out : option delivery; e_segment : list byte }.

Definition entry_ok (e : entry) : Prop :=
  match e_request e, e_out e with
  | inl (_, k, span, initial), Some (ReadResult result data) => k = kRead /\ data = e_segment e /\ fits result data /\ (length data <= span)%nat
  | inl (_, k, span, initial), Some (RecvOutcome result b) => k = kRecv /\ fits result (e_segment e) /\ idle b /\ content b = content initial ++ e_segment e
  | inl (_, k, span, initial), Some (RecvCopyResult (Ok b)) => k = kRecvCopy /\ idle b /\ content b = content initial ++ e_segment e
  | inl (_, k, span, initial), Some (RecvCopyResult (Err _)) => k = kRecvCopy /\ e_segment e = []
  | inl _, None => e_segment e = []
  | inr (_, bytes), Some (WriteResult (Ok _)) => e_segment e = bytes
  | inr (_, bytes), Some (WriteResult (Err _)) => e_segment e `prefix_of` bytes
  | inr (_, bytes), None => e_segment e `prefix_of` bytes
  | _, _ => False
  end.

Definition is_read (e : entry) : bool := match e_request e with inl _ => true | inr _ => false end.
Definition of_dir_entry (dir : bool) (e : entry) : Prop := is_read e = dir.
#[global] Instance of_dir_entry_dec dir e : Decision (of_dir_entry dir e).
Proof. unfold of_dir_entry. solve_decision. Defined.
Definition segments (dir : bool) (log : list entry) : list (list byte) := e_segment <$> filter (of_dir_entry dir) log.

(** Operations that have not ended. *)
Definition live (w : world) : list request :=
  (inl <$> (map_to_list (r_request <$> readers w)).*2) ++ (inr <$> (map_to_list (w_request <$> writers w)).*2).

Record sys := mkSys { sw : world; log : list entry; started : list request }.

(** ** Events *)

Inductive event :=
| EvRead (a handle : Z) (k : PendingReadKind) (span : nat) (buffer : Buffer.t) (reserve : nat) (memory : bool)
| EvWrite (a handle : Z) (bytes : list byte)
| EvResume
| EvDropRead | EvDropWrite
| EvReady (revents : Z) (so_error : Z + Z)
| EvTimer (id : Z)
| EvLoop (now : Z) (room : list bool)
| EvPeer (recv : list recv_answer) (send : list send_answer)
| EvDirDeadline (dir : bool) (d : option Z) | EvDeadline (d : option Z)
| EvCloseRead (errno : Z) | EvCloseWrite (errno : Z) | EvClose | EvStop
| EvMove (dst : Z).

Definition set_loop (w : world) (state : UringLoop.LoopState) (now : Z) (room : list bool) : world :=
  let l := lp w in set_lp w (mkLoop state (l_work l) (l_timers l) (l_next_timer l) now room).

Definition set_revents (w : world) (c : P.Channel) (revents : Z) : world := set_poller w (P.put (poller w) (s_channel (st w)) (P.SetRevents c revents)).

Definition more (w : world) (recv : list recv_answer) (send : list send_answer) : world :=
  let k := sock w in set_sock w (mkSocket (k_recv k ++ recv) (k_send k ++ send) (k_received k) (k_sent k)).

Section script.
Context (junk : byte).

Definition do_event (s : sys) (e : event) : outcome sys :=
  let w := sw s in
  let keep (w : world) := mkSys w (log s) (started s) in
  match e with
  | EvRead a handle k span buffer reserve memory =>
      '(w, out) ← start_read junk w a handle k span buffer reserve memory;
      let rq := inl (Some handle, k, span, buffer) in
      Val (mkSys w (log s ++ match out with Some (d, r) => [mkEntry rq (Some d) (r_data r)] | None => [] end) (started s ++ [rq]))
  | EvWrite a handle bytes =>
      '(w, out) ← start_write w a handle bytes;
      let rq := inr (Some handle, bytes) in
      Val (mkSys w (log s ++ match out with Some (d, x) => [mkEntry rq (Some d) (w_sent x)] | None => [] end) (started s ++ [rq]))
  | EvResume =>
      match l_work (lp w) with
      | [] => Val s
      | (true, a) :: rest =>
          '(w, (d, r)) ← finish_read (pop_work w rest) a; Val (mkSys w (log s ++ [mkEntry (inl (r_request r)) (Some d) (r_data r)]) (started s))
      | (false, a) :: rest =>
          '(w, (d, x)) ← finish_write (pop_work w rest) a; Val (mkSys w (log s ++ [mkEntry (inr (w_request x)) (Some d) (w_sent x)]) (started s))
      end
  | EvDropRead =>
      if s_pending_read (st w) =? nullptr then Val s else
      r ← get_reader w (s_pending_read (st w));
      w ← destroy_reader w (s_pending_read (st w)); Val (mkSys w (log s ++ [mkEntry (inl (r_request r)) None (r_data r)]) (started s))
  | EvDropWrite =>
      if s_pending_write (st w) =? nullptr then Val s else
      x ← get_writer w (s_pending_write (st w));
      w ← destroy_writer w (s_pending_write (st w)); Val (mkSys w (log s ++ [mkEntry (inr (w_request x)) None (w_sent x)]) (started s))
  | EvReady revents so_error =>
      c ← channel w;
      w ← P.HandleEventUnchecked poller (invoke so_error) (set_revents w c revents) (s_channel (st w)); Val (keep w)
  | EvTimer id =>
      match l_timers (lp w) !! id with
      | Some (_, dir, generation) => w ← HandleDeadline dir (set_lp w (Cancel (lp w) id)) generation; Val (keep w)
      | None => Val s
      end
  | EvLoop now room => Val (keep (set_loop w (l_state (lp w)) now room))
  | EvPeer recv send => Val (keep (more w recv send))
  | EvDirDeadline dir d => '(w, _) ← SetDirDeadline dir w d; Val (keep w)
  | EvDeadline d => '(w, _) ← SetDeadline w d; Val (keep w)
  | EvCloseRead errno => '(w, _) ← CloseRead w errno; Val (keep w)
  | EvCloseWrite errno => '(w, _) ← CloseWrite w errno; Val (keep w)
  | EvClose => '(w, _) ← Close w; Val (keep w)
  | EvStop => w ← DispatchLoopStop (set_loop w kStopping (l_now (lp w)) (l_room (lp w))); Val (keep w)
  | EvMove dst => w ← move_stream w dst; Val (keep w)
  end.

(** What callers and the kernel promise: fresh awaiters, owned buffers that are not
    reserved, errno values, and moves only when nothing is pending. *)
Definition event_ok (s : sys) (e : event) : Prop :=
  match e with
  | EvRead a handle k span buffer _ _ => a <> nullptr /\ readers (sw s) !! a = None /\ handle <> nullptr /\ k <> kNone /\ (k <> kRead -> idle buffer)
  | EvWrite a handle _ => a <> nullptr /\ writers (sw s) !! a = None /\ handle <> nullptr
  | EvReady _ so_error => so_error_ok so_error
  | EvPeer recv send => Forall recv_ok recv /\ Forall send_ok send
  | EvMove dst => (forall dir, pending_of dir (st (sw s)) = nullptr) /\ P.store (poller (sw s)) !! dst = None
  | _ => True
  end.

Fixpoint run_script (s : sys) (es : list event) : outcome sys :=
  match es with [] => Val s | e :: es => s ← do_event s e; run_script s es end.

Fixpoint script_ok (s : sys) (es : list event) : Prop :=
  match es with [] => True | e :: es => event_ok s e /\ forall s', do_event s e = Val s' -> script_ok s' es end.

(** ** The invariant of a run *)

Record sys_inv (s : sys) : Prop := {
  sy_core : core None (sw s);
  sy_quiet : quiet (sw s);
  sy_steady : steady (s_lifecycle (st (sw s)));
  sy_led dir : led dir (segments dir (log s)) (sw s);
  sy_log : Forall entry_ok (log s);
  sy_live : started s ≡ₚ (e_request <$> log s) ++ live (sw s);
}.

Lemma live_preserves w w' : preserves w w' -> live w' = live w.
Proof. intros [_ _ _ E1 E2]. unfold live. by rewrite E1, E2. Qed.

Lemma keep_inv s w' : sys_inv s -> preserves (sw s) w' -> steady (s_lifecycle (st w')) -> sys_inv (mkSys w' (log s) (started s)).
Proof.
  intros [K1 K2 K3 K4 K5 K6] Hp Hs. pose proof (live_preserves _ _ Hp) as El. destruct Hp as [P1 P2 P3 _ _]. split; cbn [sw log started]; try done; [|by rewrite El].
  intros dir. by apply P3.
Qed.

Lemma segments_app dir l l' : segments dir (l ++ l') = segments dir l ++ segments dir l'.
Proof. unfold segments. by rewrite filter_app, fmap_app. Qed.

(** The log grows by one operation. *)
Lemma log_inv s w' e : sys_inv s -> core None w' -> quiet w' -> steady (s_lifecycle (st w')) -> entry_ok e ->
  (forall dir log, led dir log (sw s) -> led dir (log ++ segments dir [e]) w') ->
  forall st', st' ≡ₚ (e_request <$> log s) ++ e_request e :: live w' -> sys_inv (mkSys w' (log s ++ [e]) st').
Proof.
  intros [K1 K2 K3 K4 K5 K6] P1 P2 P3 He Hl st' Hst. split; cbn [sw log started]; try done.
  - intros dir. rewrite segments_app. auto.
  - apply Forall_app. by split; [|constructor].
  - rewrite Hst, fmap_app. cbn. by rewrite <- app_assoc.
Qed.

Lemma led_split b e w w' : is_read e = b -> (forall log, led b log w -> led b (log ++ [e_segment e]) w') -> (forall log, led (negb b) log w -> led (negb b) log w') ->
  forall dir log, led dir log w -> led dir (log ++ segments dir [e]) w'.
Proof.
  intros Eb H1 H2 dir log Hl. unfold segments. destruct (decide (dir = b)) as [->|Hne].
  - rewrite filter_cons_True by done. cbn. auto.
  - rewrite filter_cons_False by (unfold of_dir_entry; congruence). cbn. rewrite app_nil_r. assert (dir = negb b) as -> by (by destruct b, dir). auto.
Qed.

(** Fresh and ended operations in the list of the live ones. *)
Lemma live_insert_r w w' a (rq : option Z * PendingReadKind * nat * Buffer.t) : readers w !! a = None -> r_request <$> readers w' = <[a := rq]> (r_request <$> readers w) ->
  w_request <$> writers w' = w_request <$> writers w -> live w' ≡ₚ inl rq :: live w.
Proof.
  intros Ha E1 E2. unfold live. rewrite E1, E2. rewrite map_to_list_insert by (by rewrite lookup_fmap, Ha). done.
Qed.

Lemma live_insert_w w w' a (rq : option Z * list byte) : writers w !! a = None -> w_request <$> writers w' = <[a := rq]> (w_request <$> writers w) ->
  r_request <$> readers w' = r_request <$> readers w -> live w' ≡ₚ inr rq :: live w.
Proof.
  intros Ha E1 E2. unfold live. rewrite E1, E2. rewrite map_to_list_insert by (by rewrite lookup_fmap, Ha). cbn. solve_Permutation.
Qed.

Lemma live_delete_r w w' a r : readers w !! a = Some r -> readers w' = delete a (readers w) -> writers w' = writers w -> live w ≡ₚ inl (r_request r) :: live w'.
Proof.
  intros Ha E1 E2. unfold live. rewrite E1, E2, fmap_delete. rewrite <- (map_to_list_delete (r_request <$> readers w) a (r_request r)) by (by rewrite lookup_fmap, Ha). done.
Qed.

Lemma live_delete_w w w' a x : writers w !! a = Some x -> writers w' = delete a (writers w) -> readers w' = readers w -> live w ≡ₚ inr (w_request x) :: live w'.
Proof.
  intros Ha E1 E2. unfold live. rewrite E1, E2, fmap_delete. rewrite <- (map_to_list_delete (w_request <$> writers w) a (w_request x)) by (by rewrite lookup_fmap, Ha).
  cbn. solve_Permutation.
Qed.

Lemma start_steady w w' : carries w w' -> steady (s_lifecycle (st w)) -> steady (s_lifecycle (st w')).
Proof. by intros [-> _ _ _]. Qed.

Lemma read_event_inv s a handle k span buffer reserve memory : sys_inv s -> event_ok s (EvRead a handle k span buffer reserve memory) ->
  exists s', do_event s (EvRead a handle k span buffer reserve memory) = Val s' /\ sys_inv s'.
Proof.
  intros H (Ha & Hn & Hh & Hk & Hb). pose proof H as [K1 K2 K3 K4 K5 K6].
  destruct (start_read_ok junk (sw s) a handle k span buffer reserve memory K1 K2 Ha Hn Hh Hk Hb) as (w' & out & E & Ho).
  cbn [do_event]. rewrite E, bind_val. eexists. split; [reflexivity|]. set (rq := (Some handle, k, span, buffer)) in *. destruct out as [[d r]|].
  - destruct Ho as [Er [E1 E2 E3 E4 E5 [E6 E7] E8]]. cbn [fst snd rq] in Er. injection Er as Ek Esp Ei. apply (log_inv s); try done.
    + by apply (start_steady (sw s)).
    + unfold entry_ok. cbn. unfold read_delivered in E8. rewrite Ek, Esp, Ei in E8. exact E8.
    + by apply (led_split true).
    + rewrite K6. unfold live. rewrite E6, E7. cbn. solve_Permutation.
  - destruct Ho as (r & Er & [S1 S2 S3 S4 S5 S6]). rewrite app_nil_r. split; cbn [sw log started]; try done.
    + by apply (start_steady (sw s)).
    + intros dir. by apply S4.
    + rewrite Er in S5. rewrite K6, (live_insert_r _ _ _ _ Hn S5 S6). solve_Permutation.
Qed.

Lemma write_event_inv s a handle bytes : sys_inv s -> event_ok s (EvWrite a handle bytes) -> exists s', do_event s (EvWrite a handle bytes) = Val s' /\ sys_inv s'.
Proof.
  intros H (Ha & Hn & Hh). pose proof H as [K1 K2 K3 K4 K5 K6].
  destruct (start_write_ok (sw s) a handle bytes K1 K2 Ha Hn Hh) as (w' & out & E & Ho).
  cbn [do_event]. rewrite E, bind_val. eexists. split; [reflexivity|]. destruct out as [[d x]|].
  - destruct Ho as [Er [E1 E2 E3 E4 E5 [E6 E7] E8]]. apply (log_inv s); try done.
    + by apply (start_steady (sw s)).
    + unfold entry_ok. cbn -[w_sent]. unfold write_delivered in E8. rewrite Er in E8. exact E8.
    + by apply (led_split false).
    + rewrite K6. unfold live. rewrite E6, E7. cbn. solve_Permutation.
  - destruct Ho as (x & Er & [S1 S2 S3 S4 S5 S6]). rewrite app_nil_r. split; cbn [sw log started]; try done.
    + by apply (start_steady (sw s)).
    + intros dir. by apply S4.
    + rewrite Er in S6. rewrite K6, (live_insert_w _ _ _ _ Hn S6 S5). solve_Permutation.
Qed.

Lemma resume_event_inv s : sys_inv s -> exists s', do_event s EvResume = Val s' /\ sys_inv s'.
Proof.
  intros H. pose proof H as [K1 K2 K3 K4 K5 K6]. cbn [do_event]. destruct (l_work (lp (sw s))) as [|[[] a] rest] eqn:E; [eauto|..].
  - destruct (resume_read_ok (sw s) a rest K1 K2 E) as (w' & d & r & -> & [R1 R2 R3] & Hr & Hd & E1 & E2 & L1 & L2). rewrite bind_val.
    eexists. split; [reflexivity|]. apply (log_inv s); try done.
    + by rewrite R3.
    + by apply (led_split true).
    + rewrite K6, (live_delete_r _ _ _ _ Hr E1 E2). done.
  - destruct (resume_write_ok (sw s) a rest K1 K2 E) as (w' & d & x & -> & [R1 R2 R3] & Hr & Hd & E1 & E2 & L1 & L2). rewrite bind_val.
    eexists. split; [reflexivity|]. apply (log_inv s); try done.
    + by rewrite R3.
    + by apply (led_split false).
    + rewrite K6, (live_delete_w _ _ _ _ Hr E2 E1). done.
Qed.

Lemma drop_event_inv s e : sys_inv s -> e = EvDropRead \/ e = EvDropWrite -> exists s', do_event s e = Val s' /\ sys_inv s'.
Proof.
  intros H He. pose proof H as [K1 K2 K3 K4 K5 K6]. destruct He as [-> | ->]; cbn [do_event].
  - destruct (Z.eqb_spec (s_pending_read (st (sw s))) nullptr) as [Hp|Hp]; [eauto|].
    destruct (drop_read_ok (sw s) K1 K2 Hp) as (w' & r & -> & Hr & Hd & R1 & R2 & R3 & E1 & E2 & L1 & L2). unfold get_reader. rewrite Hr, !bind_val.
    eexists. split; [reflexivity|]. apply (log_inv s); try done.
    + by apply (start_steady (sw s)).
    + apply (led_split true); try done. cbn. by rewrite Hd.
    + rewrite K6, (live_delete_r _ _ _ _ Hr E1 E2). done.
  - destruct (Z.eqb_spec (s_pending_write (st (sw s))) nullptr) as [Hp|Hp]; [eauto|].
    destruct (drop_write_ok (sw s) K1 K2 Hp) as (w' & x & -> & Hr & Hd & R1 & R2 & R3 & E1 & E2 & L1 & L2). unfold get_writer. rewrite Hr, !bind_val.
    eexists. split; [reflexivity|]. apply (log_inv s); try done.
    + by apply (start_steady (sw s)).
    + by apply (led_split false).
    + rewrite K6, (live_delete_w _ _ _ _ Hr E2 E1). done.
Qed.

(** New readiness bits, another clock, more answers of the socket. *)
Lemma set_revents_ok w c revents : core None w -> quiet w -> channel w = Val c -> preserves w (set_revents w c revents).
Proof.
  intros H Hq Hc. destruct (co_chan _ _ H) as [Hi (c' & [C1 C2 C3 C4 C5 C6 C7])]. unfold channel, EpollPoller.deref in Hc. rewrite C1 in Hc. injection Hc as <-.
  apply keeps_preserves; [|done | apply set_poller_keeps]. apply set_poller_core; [done|]. split; [by apply (PP.put_inv _ _ c')|].
  eexists. split; [apply lookup_insert_eq | done..].
Qed.

Lemma set_loop_ok w state now room : core None w -> quiet w -> preserves w (set_loop w state now room).
Proof.
  intros [K1 K2 K3 K4 K5 K6 K7 K8 K9] Hq. split; try done. split; try done. destruct K4. by split.
Qed.

Lemma more_ok w recv send : core None w -> quiet w -> Forall recv_ok recv -> Forall send_ok send -> preserves w (more w recv send).
Proof.
  intros H Hq Hr Hs. destruct (set_sock_core w (sock (more w recv send)) H Hq) as (H1 & Hq1 & Ha); try done.
  - cbn. apply Forall_app. split; [apply H | done].
  - cbn. apply Forall_app. split; [apply H | done].
Qed.

Lemma do_event_inv s e : sys_inv s -> event_ok s e -> exists s', do_event s e = Val s' /\ sys_inv s'.
Proof.
  intros H He. pose proof H as [K1 K2 K3 K4 K5 K6].
  destruct e as [a h k span b rs m|a h bytes| | | |revents so|id|now room|recv send|dir d|d|errno|errno| | |dst]; try (by apply read_event_inv);
    try (by apply write_event_inv); try (by apply resume_event_inv); try (by apply drop_event_inv; auto); cbn [do_event event_ok] in *.
  - destruct (channel (sw s)) as [c|] eqn:Ec; [|destruct (co_chan _ _ K1) as [_ (c & Hc)]; unfold channel, EpollPoller.deref in Ec; by rewrite (ch_at _ _ _ _ _ _ Hc) in Ec].
    rewrite bind_val. pose proof (set_revents_ok (sw s) c revents K1 K2 Ec) as P1.
    destruct (events_steps so (set_revents (sw s) c revents) (pv_core _ _ P1) (pv_quiet _ _ P1) He) as (w' & Ew & H' & Hq' & Ha).
    change (s_channel (st (set_revents (sw s) c revents))) with (s_channel (st (sw s))) in Ew. rewrite Ew, bind_val. eexists. split; [reflexivity|].
    apply keep_inv; [done | eapply preserves_trans; [exact P1 | by apply advances_preserves] | by rewrite (av_life _ _ Ha)].
  - destruct (l_timers (lp (sw s)) !! id) as [[[d dir] g]|] eqn:E; [|eauto]. destruct (fire_ok (sw s) id d dir g K1 K2 E) as (w' & -> & H' & Hk). rewrite bind_val.
    eexists. split; [reflexivity|]. apply keep_inv; [done | by apply keeps_preserves | by rewrite (sb_life _ _ (kp_stable _ _ Hk))].
  - eexists. split; [reflexivity|]. apply keep_inv; [done | by apply set_loop_ok | done].
  - eexists. split; [reflexivity|]. apply keep_inv; [done | by destruct He; apply more_ok | done].
  - destruct (SetDirDeadline_ok dir (sw s) d K1 K2) as (w' & r & -> & H' & Hk). rewrite bind_val.
    eexists. split; [reflexivity|]. apply keep_inv; [done | by apply keeps_preserves | by rewrite (sb_life _ _ (kp_stable _ _ Hk))].
  - destruct (SetDeadline_ok (sw s) d K1 K2) as (w' & r & -> & H' & Hk). rewrite bind_val.
    eexists. split; [reflexivity|]. apply keep_inv; [done | by apply keeps_preserves | by rewrite (sb_life _ _ (kp_stable _ _ Hk))].
  - destruct (CloseRead_ok (sw s) errno K1 K2 K3) as (w' & r & -> & Hp & Hs). rewrite bind_val. eexists. split; [reflexivity|]. by apply keep_inv.
  - destruct (CloseWrite_ok (sw s) errno K1 K2 K3) as (w' & r & -> & Hp & Hs). rewrite bind_val. eexists. split; [reflexivity|]. by apply keep_inv.
  - unfold Close. rewrite (proj1 (co_owner _ _ K1)), check_true, bind_val.
    destruct (CloseNow_ok (sw s) K1 K2 K3) as (w' & -> & Hp & Hs & _). rewrite !bind_val. eexists. split; [reflexivity|]. by apply keep_inv.
  - pose proof (set_loop_ok (sw s) kStopping (l_now (lp (sw s))) (l_room (lp (sw s))) K1 K2) as P1. set (w1 := set_loop _ _ _ _) in *. unfold DispatchLoopStop.
    destruct (CloseNow_ok w1 (pv_core _ _ P1) (pv_quiet _ _ P1) K3) as (w' & -> & Hp & Hs & _). rewrite !bind_val. eexists. split; [reflexivity|].
    apply keep_inv; [done | by eapply preserves_trans | done].
  - destruct He as [Hp Hd]. destruct (move_stream_ok (sw s) dst K1 K2 Hp Hd) as (w' & -> & P1 & El & _). rewrite bind_val. eexists. split; [reflexivity|].
    apply keep_inv; [done | done | by rewrite El].
Qed.

Lemma script_inv es : forall s, sys_inv s -> script_ok s es -> exists s', run_script s es = Val s' /\ sys_inv s'.
Proof.
  induction es as [|e es IH]; intros s H Hok; cbn [run_script script_ok] in *; [eauto|]. destruct Hok as [He Hes].
  destruct (do_event_inv s e H He) as (s1 & E & H1). rewrite E, bind_val. auto.
Qed.

(** ** From construction *)

(** A stream for the descriptor [fd] of a connected socket, its channel at [a]. *)
Definition open_sys (p : P.world) (a fd : Z) (et : bool) (now : Z) (room : list bool) (recv : list recv_answer) (send : list send_answer) : outcome sys :=
  '(s, p) ← new_stream p a fd et;
  Val (mkSys (mkWorld s p ∅ ∅ (mkLoop UringLoop.kRunning [] ∅ 0 now room) (mkSocket recv send [] [])) [] []).

(** What the loop has when the stream is constructed. *)
Record placement (p : P.world) (a fd : Z) : Prop := {
  pl_inv : PP.inv p;
  pl_fresh : P.store p !! a = None;
  pl_free : P.channels_ p !! fd = None;
  pl_fd : 0 <= fd;
}.

Lemma open_sys_inv p a fd et now room recv send : placement p a fd -> Forall recv_ok recv -> Forall send_ok send ->
  exists s, open_sys p a fd et now room recv send = Val s /\ sys_inv s.
Proof.
  intros [L1 L2 L3 L4] Hr Hs. unfold open_sys, new_stream, EpollPoller.new_Channel. rewrite (proj2 (Z.leb_le 0 fd) L4), check_true, !bind_val.
  eexists. split; [reflexivity|]. split; cbn [sw log started]; try done.
  - split; cbn [st poller readers writers lp sock]; try done.
    + split; [apply PP.put_new_inv; try done; intros c Hc; congruence|]. eexists. split; [apply lookup_insert_eq | done..].
    + split; try done; try (by intros []).
    + split; cbn; try done. intros b Hb. by apply not_elem_of_nil in Hb.
    + split; cbn; try done. intros b Hb. by apply not_elem_of_nil in Hb.
    + constructor.
  - intros []; by exists [].
Qed.

(** A pending operation is watched: the poller reports its readiness, and its
    deadline has a timer. *)
Definition watched (dir : bool) (w : world) : Prop :=
  (exists c, P.store (poller w) !! s_channel (st w) = Some c /\ (if dir then P.IsReading c else P.IsWriting c) = true /\
     P.kernel (poller w) !! s_socket (st w) = Some (P.event_mask c, s_channel (st w))) /\
  (forall d, deadline_of dir (st w) = Some d -> exists id, l_timers (lp w) !! id = Some (d, dir, generation_of dir (st w))).

Lemma core_watched dir w : core None w -> pending_of dir (st w) <> nullptr -> watched dir w.
Proof.
  intros H Hp. split.
  - destruct (co_chan _ _ H) as [Hi (c & [C1 C2 C3 C4 C5 C6 C7])]. pose proof (proj2 (is_pending_true dir _) Hp) as Hb.
    destruct (C5 (pending_open w None dir H Hp)) as [Ef _]. assert ((if dir then P.IsReading c else P.IsWriting c) = true) as Hd by (destruct dir; auto).
    exists c. split_and!; try done. destruct (PP.iv_chan _ Hi _ _ C1) as [_ _ I3 I4 _]. rewrite <- Ef. apply I3.
    destruct (Z.eq_dec (P.index_ c) P.kAdded) as [|Hne]; [done|]. unfold EpollPoller.IsReading, EpollPoller.IsWriting in Hd. rewrite (I4 Hne) in Hd. by destruct dir.
  - intros d Hd. pose proof (tm_required _ _ _ (co_timers _ _ H) dir ltac:(done) Hp ltac:(by rewrite Hd)) as Ht.
    destruct (tm_armed _ _ _ (co_timers _ _ H) dir Ht) as (_ & d' & Hd' & Hl). rewrite Hd in Hd'. injection Hd' as <-. eauto.
Qed.

(** Nothing of the stream is left once it is closed. *)
Definition gone (w : world) : Prop :=
  (forall dir, pending_of dir (st w) = nullptr) /\ l_timers (lp w) = ∅ /\ s_socket (st w) = -1 /\
  (forall fd ev, P.kernel (poller w) !! fd <> Some (ev, s_channel (st w))).

Lemma core_gone w : core None w -> SL.resource_ (s_lifecycle (st w)) = SL.ResourceState.kClosed -> gone w.
Proof.
  intros H Hc. pose proof (co_life _ _ H) as Hl. unfold life_ok in Hl. rewrite Hc in Hl. destruct Hl as [Hs Hp]. split_and!; try done.
  - by apply no_timers.
  - intros fd ev Hk. destruct (co_chan _ _ H) as [Hi (c & [C1 _ _ C4 _ _ _])]. destruct (PP.iv_kernel _ Hi _ _ _ Hk) as (c' & Hc' & _ & Hx & _).
    rewrite C1 in Hc'. injection Hc' as <-. rewrite Hs in C4. rewrite (C4 ltac:(lia)) in Hx. discriminate.
Qed.

(** C1. An epoll stream never loses or repeats an operation. For every script of
    reads, writes, readiness events (with any bits, stale ones included), timers,
    deadlines, half-closes, closes, loop stops and moves, no check aborts, and the
    operations started so far are those delivered (or dropped by their owner), each
    once, and the live ones. A live one waits in its slot or is queued to resume
    once. A waiting one is watched by the poller with the right interest and, when
    there is a deadline, by a timer. Closing leaves no operation, timer, descriptor
    or registration behind. *)
Theorem stream_operations_end_once p a fd et now room recv send es :
  placement p a fd -> Forall recv_ok recv -> Forall send_ok send ->
  (forall s, open_sys p a fd et now room recv send = Val s -> script_ok s es) ->
  exists s, (s0 ← open_sys p a fd et now room recv send; run_script s0 es) = Val s /\
    started s ≡ₚ (e_request <$> log s) ++ live (sw s) /\
    NoDup (l_work (lp (sw s))) /\
    (forall b r, readers (sw s) !! b = Some r -> (b = s_pending_read (st (sw s)) <-> (true, b) ∉ l_work (lp (sw s)))) /\
    (forall b x, writers (sw s) !! b = Some x -> (b = s_pending_write (st (sw s)) <-> (false, b) ∉ l_work (lp (sw s)))) /\
    (forall dir, pending_of dir (st (sw s)) <> nullptr -> watched dir (sw s)) /\
    (SL.resource_ (s_lifecycle (st (sw s))) = SL.ResourceState.kClosed -> gone (sw s)).
Proof.
  intros Hpl Hr Hs Hok. destruct (open_sys_inv p a fd et now room recv send Hpl Hr Hs) as (s0 & E0 & H0). rewrite E0, bind_val.
  destruct (script_inv es s0 H0 (Hok s0 E0)) as (s & E & [K1 K2 K3 K4 K5 K6]). exists s. split_and!; try done.
  - apply K1.
  - intros b r Hb. destruct (co_readers _ _ K1) as [R1 R2 R3 R4]. split.
    + intros ->. destruct R2 as (_ & _ & _ & _ & _ & Hn); [intros E1; rewrite E1, R1 in Hb; discriminate | done].
    + intros Hn. by destruct (R4 b r Hb).
  - intros b x Hb. destruct (co_writers _ _ K1) as [R1 R2 R3 R4]. split.
    + intros ->. destruct R2 as (_ & _ & _ & _ & Hn); [intros E1; rewrite E1, R1 in Hb; discriminate | done].
    + intros Hn. by destruct (R4 b x Hb).
  - intros dir Hp. by apply core_watched.
  - by apply core_gone.
Qed.

(** C8. The bytes of an epoll stream are those of its operations. For every
    script, each delivered read or receive has exactly the bytes the socket handed
    out for it, appended to the buffer it was given; a write that reports success
    was sent in full, one that fails or is dropped in a prefix; and the bytes that
    crossed the socket are whole segments of the ended and queued operations, one
    after the other, then what the pending write has sent: nothing is lost,
    duplicated or interleaved. *)
Theorem stream_bytes_are_exact p a fd et now room recv send es :
  placement p a fd -> Forall recv_ok recv -> Forall send_ok send ->
  (forall s, open_sys p a fd et now room recv send = Val s -> script_ok s es) ->
  exists s rs ws, (s0 ← open_sys p a fd et now room recv send; run_script s0 es) = Val s /\
    Forall entry_ok (log s) /\
    k_received (sock (sw s)) = concat rs /\ rs ≡ₚ segments true (log s) ++ scheduled true (sw s) /\
    k_sent (sock (sw s)) = concat ws ++ seg (sw s) (false, s_pending_write (st (sw s))) /\ ws ≡ₚ segments false (log s) ++ scheduled false (sw s).
Proof.
  intros Hpl Hr Hs Hok. destruct (open_sys_inv p a fd et now room recv send Hpl Hr Hs) as (s0 & E0 & H0). rewrite E0, bind_val.
  destruct (script_inv es s0 H0 (Hok s0 E0)) as (s & E & [K1 K2 K3 K4 K5 K6]). destruct (K4 true) as (rs & E1 & P1), (K4 false) as (ws & E2 & P2).
  exists s, rs, ws. split_and!; try done. cbn [bytes_of pending_of] in E1. unfold quiet in K2. by rewrite K2, app_nil_r in E1.
Qed.

End script.

(** A read waits, its bytes arrive in two parts with a write in between that blocks
    half way; both resume, and the stream is closed. *)
Definition demo : list event :=
  [EvRead 8 100 kRead 4 (Buffer.Buffer_ 8) 0 true; EvDirDeadline true (Some 50); EvWrite 8 101 [x01; x02; x03];
   EvPeer [RecvData [x61; x62]] [SendCount 2; SendErrno EAGAIN; SendCount 5];
   EvReady 3 (inr 0); EvResume; EvReady 2 (inr 0); EvResume; EvClose].

Lemma open_demo : placement P.new_world 16 5.
Proof. split; [apply PP.inv_new | done..]. Qed.

Lemma demo_ok s : open_sys P.new_world 16 5 false 0 [] [] [] = Val s -> script_ok x00 s demo.
Proof.
  intros E. vm_compute in E. injection E as <-.
  do 9 (split; [try done; try (split_and!; try done); try (repeat constructor; done) | intros s' Es; vm_compute in Es; injection Es as <-]). done.
Qed.

Lemma stream_operations_end_once_witness :
  exists s, (s0 ← open_sys P.new_world 16 5 false 0 [] [] []; run_script x00 s0 demo) = Val s /\ gone (sw s).
Proof.
  destruct (stream_operations_end_once x00 P.new_world 16 5 false 0 [] [] [] demo) as (s & E & _ & _ & _ & _ & _ & Hg);
    [apply open_demo | constructor | constructor | apply demo_ok |].
  exists s. split; [exact E|]. apply Hg. vm_compute in E. by injection E as <-.
Defined.

Lemma stream_bytes_are_exact_witness :
  exists s rs, (s0 ← open_sys P.new_world 16 5 false 0 [] [] []; run_script x00 s0 demo) = Val s /\ k_received (sock (sw s)) = concat rs /\ k_sent (sock (sw s)) = [x01; x02; x03].
Proof.
  destruct (stream_bytes_are_exact x00 P.new_world 16 5 false 0 [] [] [] demo) as (s & rs & ws & E & _ & Er & _);
    [apply open_demo | constructor | constructor | apply demo_ok |].
  exists s, rs. split; [exact E|]. split; [exact Er|]. vm_compute in E. by injection E as <-.
Defined.

End EpollStreamSys.
