(* ===== verification/SpawnState.v ===== *)
(** * Spawned coroutines and their join handles
    (include/alyrn/coro/detail/spawn_state.h, spawn_root.h, include/alyrn/coro/spawn.h)

    The state that a root coroutine and its JoinHandle share lives in the frame of the
    root. The producer is the thread that runs the root, the consumer the one that
    holds the handle; they interleave at the granularity of the atomic operations and
    of the other accesses to the frame. A destroyed frame is [None]; touching it is
    [Panic], except for the notification in Finish: that access can come too late, is then
    recorded in [late_notify], and the run goes on. *)

From S2P Require Import Prelude.

Module SpawnState.

Inductive Phase := kRunningJoinable | kWaiterParked | kRunningDetached | kFinished | kCompletedWaiterScheduled.

#[global] Instance spawn_Phase_eq_dec : EqDecision Phase.
Proof. solve_decision. Defined.

Section spawn.
Context {V : Type}.

(** ** The frame: SpawnState with its ResultSlot *)

Record frame := mkFrame {
  root_work_ : bool;                    (* has the root's handle *)
  result_ : option V;
  waiter_scheduler_ : option Z;
  waiter_resume_ : option Z;            (* the joiner's handle *)
  phase_ : Phase;
}.

Definition set_phase (f : frame) (p : Phase) : frame := mkFrame (root_work_ f) (result_ f) (waiter_scheduler_ f) (waiter_resume_ f) p.
Definition set_waiter (f : frame) (scheduler resume : option Z) : frame := mkFrame (root_work_ f) (result_ f) scheduler resume (phase_ f).

(** Spawn: the frame as its root is scheduled. *)
Definition Spawn : frame := mkFrame true None None None kRunningJoinable.

Definition compare_exchange_strong (f : frame) (expected desired : Phase) : frame * bool :=
  if decide (phase_ f = expected) then (set_phase f desired, true) else (f, false).

(** StoreResult, ResultSlot::Set *)
Definition StoreResult (f : frame) (v : V) : outcome frame :=
  ALYRN_CHECK (match result_ f with None => true | Some _ => false end);;
  Val (mkFrame (root_work_ f) (Some v) (waiter_scheduler_ f) (waiter_resume_ f) (phase_ f)).

(** TakeResult, ResultSlot::Take *)
Definition TakeResult (f : frame) : outcome V :=
  match result_ f with Some v => Val v | None => ALYRN_CHECK false;; Panic end.

Definition IsFinished (f : frame) : bool := bool_decide (phase_ f = kFinished).

(** ** The two threads *)

(** Where the producer is; the last steps are those of Finish and of the final
    awaiter. *)
Inductive producer := PRunning | PFinish | PNotify | PMark | PSchedule | PDestroy | PDone.

(** Where the consumer is. [CIdle joined]: between operations; [joined] after it took
    the result. *)
Inductive consumer :=
| CIdle (joined : bool)
| CWaitLoad | CWaitCall | CBlocked                        (* Wait *)
| CReady | CPark (scheduler handle : Z) | CExchange | CUnpark | CParked | CTake    (* co_await *)
| CRelease | CDestroy                                     (* ReleaseHandle *)
| CDone.

Record sys := mkSys {
  mem : option frame;
  ppc : producer;
  cpc : consumer;
  queued : bool;                        (* waiter_resume_ is in its scheduler's queue *)
  stored : option V;
  delivered : list V;
  destroyed : nat;
  late_notify : bool;                   (* the notification touched a destroyed frame *)
}.

Definition deref (s : sys) : outcome frame := match mem s with Some f => Val f | None => Panic end.
Definition go_p (s : sys) (f : frame) (p : producer) : sys := mkSys (Some f) p (cpc s) (queued s) (stored s) (delivered s) (destroyed s) (late_notify s).
Definition go_c (s : sys) (f : frame) (c : consumer) : sys := mkSys (Some f) (ppc s) c (queued s) (stored s) (delivered s) (destroyed s) (late_notify s).

(** A step of the producer; [v] is the value the root returns. *)
Definition producer_step (s : sys) (v : V) : option (outcome sys) :=
  match ppc s with
  | PDone => None
  | PRunning => Some (f ← deref s; f ← StoreResult f v; let s := go_p s f PFinish in
                      Val (mkSys (mem s) (ppc s) (cpc s) (queued s) (Some v) (delivered s) (destroyed s) (late_notify s)))
  | PFinish => Some (
      f ← deref s;
      let '(g, exchanged) := compare_exchange_strong f kRunningJoinable kFinished in
      if (exchanged : bool) then Val (go_p s g PNotify) else
      if decide (phase_ f = kWaiterParked) then Val (go_p s f PMark) else
      ALYRN_CHECK (bool_decide (phase_ f = kRunningDetached));; Val (go_p s f PDestroy))
  | PNotify => Some (Val (mkSys (mem s) PDone (match cpc s with CBlocked => CWaitLoad | c => c end) (queued s) (stored s) (delivered s) (destroyed s)
                            (late_notify s || match mem s with None => true | Some _ => false end)))
  | PMark => Some (f ← deref s; Val (go_p s (set_phase f kCompletedWaiterScheduled) PSchedule))
  | PSchedule => Some (
      f ← deref s;
      ALYRN_CHECK (match waiter_scheduler_ f with Some _ => true | None => false end);;
      ALYRN_CHECK (negb (queued s));;
      Val (mkSys (mem s) PDone (cpc s) true (stored s) (delivered s) (destroyed s) (late_notify s)))
  | PDestroy => Some (f ← deref s; Val (mkSys None PDone (cpc s) (queued s) (stored s) (delivered s) (S (destroyed s)) (late_notify s)))
  end.

(** What an idle consumer starts: a look at IsFinished, Wait, co_await on the
    scheduler with the joiner's handle, or giving the handle up. *)
Inductive choice := Poll | Wait | Await (scheduler handle : Z) | Release.

(** A step of the consumer; [None] when it is blocked, suspended or done. *)
Definition consumer_step (s : sys) (c : choice) : option (outcome sys) :=
  match cpc s with
  | CDone | CBlocked => None
  | CIdle joined =>
      match c with
      | Poll => Some (f ← deref s; Val (go_c s f (CIdle joined)))
      | Wait => if joined then None else Some (f ← deref s; Val (go_c s f CWaitLoad))
      | Await _ _ => if joined then None else Some (f ← deref s; Val (go_c s f CReady))
      | Release => Some (f ← deref s; Val (go_c s f CRelease))
      end
  | CWaitLoad => Some (
      f ← deref s;
      if decide (phase_ f = kRunningJoinable) then Val (go_c s f CWaitCall) else
      ALYRN_CHECK (bool_decide (phase_ f = kFinished));;
      v ← TakeResult f;
      Val (mkSys (mem s) (ppc s) (CIdle true) (queued s) (stored s) (delivered s ++ [v]) (destroyed s) (late_notify s)))
  | CWaitCall => Some (f ← deref s; Val (go_c s f (if decide (phase_ f = kRunningJoinable) then CBlocked else CWaitLoad)))
  | CReady => match c with
              | Await scheduler handle => Some (f ← deref s; Val (go_c s f (if IsFinished f then CTake else CPark scheduler handle)))
              | _ => None
              end
  | CPark scheduler handle => Some (f ← deref s; Val (go_c s (set_waiter f (Some scheduler) (Some handle)) CExchange))
  | CExchange => Some (
      f ← deref s;
      let '(f, exchanged) := compare_exchange_strong f kRunningJoinable kWaiterParked in
      Val (go_c s f (if (exchanged : bool) then CParked else CUnpark)))
  | CUnpark => Some (f ← deref s; Val (go_c s (set_waiter f None None) CTake))
  | CParked => if queued s then Some (
                 f ← deref s;
                 ALYRN_CHECK (match waiter_resume_ f with Some _ => true | None => false end);;
                 Val (mkSys (mem s) (ppc s) CTake false (stored s) (delivered s) (destroyed s) (late_notify s)))
               else None
  | CTake => Some (f ← deref s; v ← TakeResult f;
                   Val (mkSys (mem s) (ppc s) (CIdle true) (queued s) (stored s) (delivered s ++ [v]) (destroyed s) (late_notify s)))
  | CRelease => Some (
      f ← deref s;
      let '(g, exchanged) := compare_exchange_strong f kRunningJoinable kRunningDetached in
      if (exchanged : bool) then Val (go_c s g CDone) else
      ALYRN_CHECK (bool_decide (phase_ f = kFinished) || bool_decide (phase_ f = kCompletedWaiterScheduled));;
      Val (go_c s f CDestroy))
  | CDestroy => Some (
      f ← deref s;
      ALYRN_CHECK (root_work_ f);;
      Val (mkSys None (ppc s) CDone (queued s) (stored s) (delivered s) (S (destroyed s)) (late_notify s)))
  end.

Inductive action := AProducer (v : V) | AConsumer (c : choice) | ASpurious.

(** atomic::wait may return without a notification. *)
Definition exec (s : sys) (a : action) : option (outcome sys) :=
  match a with
  | AProducer v => producer_step s v
  | AConsumer c => consumer_step s c
  | ASpurious => match cpc s with CBlocked => Some (Val (mkSys (mem s) (ppc s) CWaitLoad (queued s) (stored s) (delivered s) (destroyed s) (late_notify s))) | _ => None end
  end.

Definition initial : sys := mkSys (Some Spawn) PRunning (CIdle false) false None [] 0 false.

Inductive reachable : sys -> Prop :=
| reach_initial : reachable initial
| reach_step s a s' : reachable s -> exec s a = Some (Val s') -> reachable s'.

(** ** The invariant *)

(** Consumer positions in which the phase is still that of a running root. *)
Definition attached (c : consumer) : bool :=
  match c with CIdle false | CWaitLoad | CWaitCall | CReady | CPark _ _ | CExchange | CRelease => true | _ => false end.

Definition pair_ok (f : frame) (s : sys) : Prop :=
  match phase_ f with
  | kRunningJoinable => (ppc s = PRunning \/ ppc s = PFinish) /\ (attached (cpc s) = true \/ cpc s = CBlocked) /\ queued s = false /\
      (cpc s = CExchange -> is_Some (waiter_scheduler_ f) /\ is_Some (waiter_resume_ f))
  | kWaiterParked => (ppc s = PRunning \/ ppc s = PFinish \/ ppc s = PMark) /\ cpc s = CParked /\ queued s = false /\
      is_Some (waiter_scheduler_ f) /\ is_Some (waiter_resume_ f)
  | kRunningDetached => (ppc s = PRunning \/ ppc s = PFinish \/ ppc s = PDestroy) /\ cpc s = CDone
  | kFinished => (ppc s = PNotify \/ ppc s = PDone) /\ cpc s <> CDone /\ cpc s <> CParked /\ (cpc s = CBlocked -> ppc s = PNotify)
  | kCompletedWaiterScheduled =>
      (ppc s = PSchedule /\ cpc s = CParked /\ queued s = false /\ is_Some (waiter_scheduler_ f) /\ is_Some (waiter_resume_ f)) \/
      (ppc s = PDone /\ ((cpc s = CParked /\ queued s = true /\ is_Some (waiter_resume_ f)) \/
                         cpc s = CTake \/ cpc s = CIdle true \/ cpc s = CRelease \/ cpc s = CDestroy))
  end.

(** Has the consumer taken the result? *)
Definition has_joined (c : consumer) (n : nat) : Prop :=
  match c with CIdle joined => n = (if joined then 1 else 0)%nat | CRelease | CDestroy | CDone => (n <= 1)%nat | _ => n = 0%nat end.

Record inv (s : sys) : Prop := {
  in_live : match mem s with
            | Some f => destroyed s = 0%nat /\ root_work_ f = true /\ result_ f = stored s /\ pair_ok f s
            | None => destroyed s = 1%nat /\ cpc s = CDone /\ (ppc s = PDone \/ ppc s = PNotify)
            end;
  in_stored : stored s = None <-> ppc s = PRunning;
  in_delivered : has_joined (cpc s) (length (delivered s));
  in_value v : v ∈ delivered s -> stored s = Some v;
  in_taking : cpc s = CTake \/ cpc s = CUnpark -> ppc s <> PRunning;
  in_late : late_notify s = true -> mem s = None /\ ppc s = PDone;
}.

Ltac spawn_cases :=
  repeat match goal with
  | H : _ /\ _ |- _ => destruct H
  | H : _ \/ _ |- _ => destruct H
  | H : _ <-> _ |- _ => destruct H
  | H : ?A -> _, K : ?A |- _ => specialize (H K)
  end; simplify_eq/=; try done.
Ltac spawn_solve :=
  unfold pair_ok in *; cbn in *; spawn_cases;
  repeat match goal with |- _ /\ _ => split | |- _ <-> _ => split | |- _ -> _ => intros ? | |- ~ _ => intros ? end; spawn_cases; first [lia | solve [eauto 6] | solve [intuition]].
Ltac spawn_next := eexists; split; [reflexivity|]; split; try assumption; try solve [spawn_solve].

Lemma producer_step_inv s v o : inv s -> producer_step s v = Some o -> exists s', o = Val s' /\ inv s'.
Proof.
  destruct s as [[[rw res ws wr ph]|] p c q stv dl d ln]; intros [H1 H2 H3 H4 H5 H6] E; unfold producer_step, deref in E; cbn in *.
  - destruct ln; [by destruct (H6 eq_refl)|]. clear H6. unfold pair_ok in H1; cbn in H1. destruct H1 as (-> & -> & -> & H1). destruct p; simplify_eq/=.
    + assert (stv = None) as -> by (by apply H2). cbn. spawn_next.
      * cbn. split_and!; try done. unfold pair_ok. cbn. destruct ph; spawn_solve.
      * intros x Hx. cbn in Hx. by specialize (H4 x Hx).
    + unfold compare_exchange_strong. cbn. destruct ph; cbn; try (exfalso; by spawn_cases); spawn_next.
    + spawn_next; cbn in *.
      * split_and!; try done. unfold pair_ok. cbn. destruct ph; try (exfalso; by spawn_cases).
        destruct H1 as (_ & Hd & Hp & Hb). split_and!; [by right | by destruct c | by destruct c | by destruct c].
      * by destruct c.
    + destruct ph; try (exfalso; by spawn_cases); spawn_next.
    + destruct ph; try (exfalso; by spawn_cases). destruct H1 as [(_ & -> & -> & [sch ->] & [res' ->])|[? _]]; [|done]. cbn. spawn_next.
    + destruct ph; try (exfalso; by spawn_cases); spawn_next.
  - destruct H1 as (-> & -> & Hp). destruct p; simplify_eq/=; try (exfalso; by spawn_cases). spawn_next.
Qed.

Lemma consumer_step_inv s ch o : inv s -> consumer_step s ch = Some o -> exists s', o = Val s' /\ inv s'.
Proof.
  destruct s as [[[rw res ws wr ph]|] p c q stv dl d ln]; intros [H1 H2 H3 H4 H5 H6] E; unfold consumer_step, deref in E; cbn in *.
  2: { destruct H1 as (-> & -> & Hp). done. }
  destruct ln; [by destruct (H6 eq_refl)|]. clear H6. unfold pair_ok in H1; cbn in H1. destruct H1 as (-> & -> & -> & H1).
  assert (ppc_stored : p <> PRunning -> exists v, stv = Some v) by (intros Hp; destruct stv; [eauto | by destruct Hp; apply H2]).
  assert (snoc : forall v, stv = Some v -> has_joined (CTake) (length dl) -> has_joined (CIdle true) (length (dl ++ [v])) /\ (forall x, x ∈ dl ++ [v] -> stv = Some x)).
  { intros v Hv Hl. cbn in *. rewrite length_app, Hl. split; [done|]. intros x. rewrite elem_of_app, list_elem_of_singleton. naive_solver. }
  destruct c as [joined| | | | |sch hd| | | | | | |]; simplify_eq/=.
  - destruct ch, joined; simplify_eq/=; spawn_next; destruct ph; spawn_solve.
  - destruct ph; cbn; try (exfalso; by spawn_cases); [spawn_next|]. destruct ppc_stored as [v ->]; [naive_solver|]. cbn.
    destruct (snoc v eq_refl H3). spawn_next.
  - destruct ph; cbn; try (exfalso; by spawn_cases); spawn_next.
  - destruct ch; simplify_eq/=. destruct ph; cbn; try (exfalso; by spawn_cases); spawn_next.
  - destruct ph; cbn; try (exfalso; by spawn_cases); spawn_next.
  - unfold compare_exchange_strong. destruct ph; cbn; try (exfalso; by spawn_cases); spawn_next.
  - destruct ph; cbn; try (exfalso; by spawn_cases); spawn_next.
  - destruct q; simplify_eq/=. destruct ph; cbn; try (exfalso; by spawn_cases). destruct wr; [|exfalso; by spawn_cases]. cbn. spawn_next.
  - destruct ppc_stored as [v ->]; [naive_solver|]. cbn. destruct (snoc v eq_refl H3). spawn_next. destruct ph; spawn_solve.
  - unfold compare_exchange_strong. destruct ph; cbn; try (exfalso; by spawn_cases); spawn_next.
  - destruct ph; cbn; try (exfalso; by spawn_cases); spawn_next.
Qed.

Lemma exec_inv s a o : inv s -> exec s a = Some o -> exists s', o = Val s' /\ inv s'.
Proof.
  intros H E. destruct a as [v|c|]; cbn in E; [by eapply producer_step_inv | by eapply consumer_step_inv|].
  destruct s as [[[rw res ws wr ph]|] p c q stv dl d ln]; destruct H as [H1 H2 H3 H4 H5 H6]; cbn in *; destruct c; simplify_eq/=.
  - destruct ln; [by destruct (H6 eq_refl)|]. clear H6. unfold pair_ok in H1; cbn in H1. destruct H1 as (-> & -> & -> & H1). spawn_next. destruct ph; spawn_solve.
  - by spawn_cases.
Qed.

Lemma spawn_initial_inv : inv initial.
Proof.
  split; cbn; [|done | done | |by intros [?|?] | done].
  - split_and!; try done; try (by left).
  - intros v Hv. by apply not_elem_of_nil in Hv.
Qed.

Lemma spawn_reachable_inv s : reachable s -> inv s.
Proof. induction 1 as [|s a s' _ IH E]; [apply spawn_initial_inv|]. destruct (exec_inv s a _ IH E) as (s2 & [= <-] & H). done. Qed.

(** ** Progress *)

Definition p_rank (p : producer) : nat :=
  match p with PRunning => 4 | PFinish => 3 | PMark => 2 | PNotify | PSchedule | PDestroy => 1 | PDone => 0 end.

Definition c_rank (c : consumer) : nat :=
  match c with
  | CIdle false => 10 | CReady => 9 | CPark _ _ => 8 | CExchange => 7 | CBlocked | CWaitCall | CUnpark | CParked => 5 | CWaitLoad | CTake => 4
  | CIdle true => 3 | CRelease => 2 | CDestroy => 1 | CDone => 0
  end.

(** The producer never waits. *)
Lemma producer_progress s v : inv s -> ppc s <> PDone -> exists s', producer_step s v = Some (Val s') /\ (p_rank (ppc s') < p_rank (ppc s))%nat.
Proof.
  intros H Hp. destruct (producer_step s v) as [o|] eqn:E; [|unfold producer_step in E; by destruct (ppc s)].
  destruct (producer_step_inv s v o H E) as (s' & -> & H'). exists s'. split; [done|]. clear H H'.
  destruct s as [[[rw res ws wr ph]|] p c q stv dl d ln]; unfold producer_step, deref, StoreResult in E; cbn in *; destruct p; simplify_eq/=; try lia.
  - destruct res; simplify_eq/=. lia.
  - unfold compare_exchange_strong in E. cbn in E. repeat case_decide; simplify_eq/=; try lia.
  - destruct ws, q; simplify_eq/=. lia.
Qed.

(** Once the producer is done, neither is the consumer kept waiting: it can go on,
    and whatever it does except looking at IsFinished brings it closer to its end. *)
Lemma consumer_progress s : inv s -> ppc s = PDone -> cpc s <> CDone ->
  exists c s', consumer_step s c = Some (Val s') /\ (c_rank (cpc s') < c_rank (cpc s))%nat.
Proof.
  intros H Hp Hc. exists (match cpc s with CReady => Await 1 1 | _ => Release end).
  destruct (consumer_step s _) as [o|] eqn:E.
  - destruct (consumer_step_inv s _ o H E) as (s' & -> & H'). exists s'. split; [done|]. clear H'. destruct H as [H1 _ H3 _ _ _].
    destruct s as [[[rw res ws wr ph]|] p c q stv dl d ln]; cbn in Hp; subst p; cbn in *; [|by destruct H1 as (_ & -> & _)].
    destruct H1 as (-> & -> & -> & H1). unfold pair_ok, consumer_step, deref, compare_exchange_strong, TakeResult in *; cbn in *.
    destruct ph; try (exfalso; by spawn_cases); destruct c as [[]| | | | | | | | | | | |]; simplify_eq/=; try lia; try (exfalso; by spawn_cases);
      try (destruct stv; simplify_eq/=; lia); try (destruct q, wr; simplify_eq/=; lia).
  - exfalso. destruct H as [H1 _ _ _ _ _]. destruct s as [[[rw res ws wr ph]|] p c q stv dl d ln]; cbn in Hp; subst p; cbn in *; [|by destruct H1 as (_ & -> & _)].
    destruct H1 as (-> & -> & -> & H1). unfold pair_ok, consumer_step in *; cbn in *. destruct c as [[]| | | | | | | | | | | |]; try done.
    + destruct ph; try (by spawn_cases). destruct H1 as (_ & _ & _ & Hb). by specialize (Hb eq_refl).
    + destruct q; [done|]. destruct ph; by spawn_cases.
Qed.

Lemma consumer_decreases s c s' : inv s -> ppc s = PDone -> c <> Poll -> consumer_step s c = Some (Val s') -> (c_rank (cpc s') < c_rank (cpc s))%nat.
Proof.
  intros [H1 _ H3 _ _ _] Hp Hc E.
  destruct s as [[[rw res ws wr ph]|] p k q stv dl d ln]; cbn in Hp; subst p; cbn in *; [|by destruct H1 as (_ & -> & _)].
  destruct H1 as (-> & -> & -> & H1). unfold pair_ok, consumer_step, deref, compare_exchange_strong, TakeResult in *; cbn in *.
  destruct ph; try (exfalso; by spawn_cases); destruct k as [[]| | | | | | | | | | | |]; simplify_eq/=; try (destruct c; simplify_eq/=; lia); try lia;
    try (exfalso; by spawn_cases); try (destruct stv; simplify_eq/=; lia); try (destruct q, wr; simplify_eq/=; lia).
Qed.

(** What is left after the destruction: the notification in Finish, of a root whose joiner
    saw kFinished before it. *)
Lemma dead_frame_steps s a o : inv s -> mem s = None -> exec s a = Some o -> ppc s = PNotify /\ exists v, a = AProducer v.
Proof.
  intros [H1 _ _ _ _ _] Em E. rewrite Em in H1. destruct H1 as (_ & Hc & Hp). destruct a as [v|c|]; cbn in E.
  - destruct Hp as [Hp|Hp]; [unfold producer_step in E; by rewrite Hp in E | eauto].
  - unfold consumer_step in E. by rewrite Hc in E.
  - by rewrite Hc in E.
Qed.

Lemma both_done_frame_gone s : inv s -> ppc s = PDone -> cpc s = CDone -> mem s = None.
Proof.
  intros [H1 _ _ _ _ _] Hp Hc. destruct (mem s) as [f|]; [|done]. exfalso. destruct H1 as (_ & _ & _ & H1). unfold pair_ok in H1. rewrite Hp, Hc in H1. destruct (phase_ f); spawn_cases.
Qed.

(** C26. A spawned root and its handle agree on who destroys the frame. In every
    interleaving of the thread that finishes the root with the one that waits for,
    awaits, polls or drops the handle, no check aborts. The frame is destroyed once:
    not before the result is stored and the handle is given up, and at the latest when
    both threads are done. After that no thread uses the frame, with one exception: the
    notification with which Finish ends may still be to come, it is then the only step
    there is, and [late_notify] tells whether it found the frame gone. The result is taken
    at most once, and it is the value the root returned. *)
Theorem spawn_frame_destroyed_once s :
  reachable s ->
  (forall a o, exec s a = Some o -> exists s', o = Val s') /\
  (destroyed s <= 1)%nat /\ (mem s = None <-> destroyed s = 1%nat) /\
  (mem s = None -> cpc s = CDone /\ is_Some (stored s)) /\
  (mem s = None -> forall a o, exec s a = Some o -> ppc s = PNotify /\ exists v, a = AProducer v) /\
  (late_notify s = true -> mem s = None /\ ppc s = PDone) /\
  (ppc s = PDone -> cpc s = CDone -> mem s = None) /\
  (length (delivered s) <= 1)%nat /\ (forall v, v ∈ delivered s -> stored s = Some v).
Proof.
  intros H%spawn_reachable_inv. split.
  { intros a o E. destruct (exec_inv s a o H E) as (s' & -> & _). eauto. }
  pose proof (both_done_frame_gone s H) as Hgone. pose proof (fun a o => dead_frame_steps s a o H) as Hdead. pose proof H as [H1 H2 H3 H4 _ H6].
  assert (length (delivered s) <= 1)%nat as Hl by (destruct (cpc s) as [[]| | | | | | | | | | | |]; cbn in H3; lia).
  destruct (mem s) as [f|] eqn:Em.
  - destruct H1 as (E1 & _). rewrite E1. split_and!; try done. lia.
  - destruct H1 as (E1 & E2 & E3). rewrite E1, E2 in *. split_and!; try done; [|naive_solver]. intros _. split; [done|].
    destruct (stored s) as [v|] eqn:Es; [eauto|]. destruct H2 as [H2 _]. specialize (H2 eq_refl). destruct E3; congruence.
Qed.

(** C27. No join is lost. The producer never waits, and each of its steps brings it
    closer to its end. Once it is done the consumer is not kept blocked in Wait nor
    suspended in co_await: it always has a step, and every one that is not a look at
    IsFinished brings it closer to its end. When both are done the frame is gone, having
    been destroyed once. A consumer that is back from a join has exactly the value the root
    returned. *)
Theorem spawn_join_always_returns s :
  reachable s ->
  (forall v, ppc s <> PDone -> exists s', exec s (AProducer v) = Some (Val s') /\ (p_rank (ppc s') < p_rank (ppc s))%nat) /\
  (ppc s = PDone -> cpc s <> CDone -> exists c s', exec s (AConsumer c) = Some (Val s') /\ (c_rank (cpc s') < c_rank (cpc s))%nat) /\
  (forall c s', ppc s = PDone -> c <> Poll -> exec s (AConsumer c) = Some (Val s') -> (c_rank (cpc s') < c_rank (cpc s))%nat) /\
  (ppc s = PDone -> cpc s = CDone -> mem s = None /\ destroyed s = 1%nat) /\
  (cpc s = CIdle true -> exists v, stored s = Some v /\ delivered s = [v]).
Proof.
  intros H%spawn_reachable_inv. split_and!.
  - intros v Hp. by apply producer_progress.
  - intros Hp Hc. by apply consumer_progress.
  - intros c s' Hp Hc E. by eapply consumer_decreases.
  - intros Hp Hc. pose proof (both_done_frame_gone s H Hp Hc) as Em. split; [done|]. destruct H as [H1 _ _ _ _ _]. rewrite Em in H1. apply H1.
  - intros Hc. destruct H as [_ _ H3 H4 _ _]. rewrite Hc in H3. cbn in H3. destruct (delivered s) as [|v []] eqn:E; try done.
    exists v. split; [|done]. apply H4. left.
Qed.

(** A run, as long as its actions are enabled. *)
Fixpoint run_spawn (s : sys) (acts : list action) : option sys :=
  match acts with
  | [] => Some s
  | a :: acts => match exec s a with Some (Val s') => run_spawn s' acts | _ => None end
  end.

Lemma run_spawn_reachable acts : forall s s', reachable s -> run_spawn s acts = Some s' -> reachable s'.
Proof.
  induction acts as [|a acts IH]; intros s s' H E; cbn in E; [by injection E as <-|].
  destruct (exec s a) as [[s1|]|] eqn:Ex; try done. apply (IH s1); [by eapply reach_step | done].
Qed.

(** The root finishes, and between its exchange of the phase and its notification the
    consumer's Wait returns and the handle is dropped. *)
Definition late_notification (v : V) : list action :=
  [AProducer v; AProducer v; AConsumer Wait; AConsumer Wait; AConsumer Release; AConsumer Release; AConsumer Release; AProducer v].

(** C28. Finish notifies after it published kFinished, and the frame with the
    atomic it notifies may be gone by then: the consumer returns from Wait as soon as
    it sees kFinished and destroys the frame. *)
Theorem spawn_notification_after_destruction (v : V) :
  exists s, run_spawn initial (late_notification v) = Some s /\ reachable s /\ late_notify s = true /\ delivered s = [v] /\ mem s = None.
Proof. eexists. split; [reflexivity|]. split; [|done]. by apply (run_spawn_reachable (late_notification v) initial); [apply reach_initial|]. Qed.

End spawn.
Arguments frame : clear implicits.
Arguments sys : clear implicits.
Arguments action : clear implicits.

(** A joiner parks before the root finishes. *)
Definition parked_run : list (action nat) :=
  [AConsumer (Await 1 7); AConsumer (Await 1 7); AConsumer (Await 1 7); AConsumer (Await 1 7); AProducer 42; AProducer 42; AProducer 42; AProducer 42;
   AConsumer Poll; AConsumer Poll]%nat.

(** Then the handle is dropped. *)
Definition joined_run : list (action nat) := parked_run ++ [AConsumer Release; AConsumer Release; AConsumer Release].

Lemma spawn_frame_destroyed_once_witness :
  exists s, run_spawn initial joined_run = Some s /\ destroyed s = 1%nat /\ mem s = None /\ late_notify s = false /\ (length (delivered s) <= 1)%nat /\ stored s = Some 42%nat.
Proof.
  destruct (run_spawn initial joined_run) as [s|] eqn:E; [|discriminate E]. exists s. split; [done|].
  pose proof (run_spawn_reachable _ _ _ reach_initial E) as Hr. destruct (spawn_frame_destroyed_once s Hr) as (_ & _ & Hd & _ & _ & _ & Hm & Hl & Hv).
  assert (mem s = None) as Em by (apply Hm; by injection E as <-). split; [by apply Hd|]. split; [exact Em|]. split; [by injection E as <-|]. split; [exact Hl|]. apply Hv. injection E as <-. cbn. left.
Defined.

Lemma spawn_join_always_returns_witness :
  exists s, run_spawn initial parked_run = Some s /\ cpc s = CIdle true /\ delivered s = [42%nat].
Proof.
  destruct (run_spawn initial parked_run) as [s|] eqn:E; [|discriminate E]. exists s. split; [done|].
  pose proof (run_spawn_reachable _ _ _ reach_initial E) as Hr. destruct (spawn_join_always_returns s Hr) as (_ & _ & _ & _ & Hj).
  assert (cpc s = CIdle true) as Hc by (by injection E as <-). split; [done|]. destruct (Hj Hc) as (v & Hs & Hd). rewrite Hd. injection E as <-. cbn in Hs. by injection Hs as <-.
Defined.

End SpawnState.
