(* ===== verification/FrameMeta.v ===== *)
(** * Coroutine frames: metadata, size classes and heap frames
    (include/alyrn/coro/frame_allocator.h)

    The packed metadata word, the table of size classes, and frames that come from a
    memory resource with a header and a marker in front of them. *)

From S2P Require Import Prelude.

Module FrameMeta.

(** ** Packed metadata *)

Definition kFrameMetadataAlignmentBits : Z := 4.
Definition kFrameMetadataBytesBits : Z := 64 - kFrameMetadataAlignmentBits.
Definition kFrameMetadataBytesMask : Z := Z.shiftl 1 kFrameMetadataBytesBits - 1.
Definition kFrameMetadataMaxAlignmentExponent : Z := Z.shiftl 1 kFrameMetadataAlignmentBits - 1.

(** std::has_single_bit and std::countr_zero on a 64-bit word. *)
Definition has_single_bit (n : Z) : bool := (0 <? n) && (Z.land n (n - 1) =? 0).
Definition countr_zero (n : Z) : Z := if n =? 0 then 64 else Z.log2 (Z.land n (- n)).

Definition PackFrameMetadata (bytes alignment : Z) : outcome Z :=
  ALYRN_CHECK (bytes <=? kFrameMetadataBytesMask);;
  ALYRN_CHECK (negb (alignment =? 0) && has_single_bit alignment);;
  let exponent := countr_zero alignment in
  ALYRN_CHECK (exponent <=? kFrameMetadataMaxAlignmentExponent);;
  Val (Z.lor bytes (Z.shiftl exponent kFrameMetadataBytesBits)).

Definition UnpackFrameBytes (metadata : Z) : Z := Z.land metadata kFrameMetadataBytesMask.
Definition UnpackFrameAlignment (metadata : Z) : Z := Z.shiftl 1 (Z.shiftr metadata kFrameMetadataBytesBits).

Lemma has_single_bit_pow2 e : 0 <= e -> has_single_bit (2 ^ e) = true /\ countr_zero (2 ^ e) = e.
Proof.
  intros He. assert (0 < 2 ^ e) as Hp by lia. unfold has_single_bit, countr_zero. split.
  - rewrite (proj2 (Z.ltb_lt _ _) Hp). apply Z.eqb_eq. replace (2 ^ e - 1) with (Z.ones e) by (rewrite Z.ones_equiv; lia).
    rewrite Z.land_ones by done. apply Z.mod_same. lia.
  - rewrite (proj2 (Z.eqb_neq _ _)) by lia. replace (Z.land (2 ^ e) (- 2 ^ e)) with (2 ^ e); [by apply Z.log2_pow2|].
    apply Z.bits_inj'. intros i Hi. rewrite Z.land_spec, Z.pow2_bits_eqb by done. destruct (Z.eqb_spec e i) as [->|]; [|done].
    cbn. rewrite Z.bits_opp by done. replace (Z.pred (2 ^ i)) with (Z.ones i) by (rewrite Z.ones_equiv; lia). by rewrite Z.ones_spec_high by lia.
Qed.

Lemma has_single_bit_inv n : has_single_bit n = true -> exists e, 0 <= e /\ n = 2 ^ e.
Proof.
  unfold has_single_bit. intros [Hn%Z.ltb_lt Hl%Z.eqb_eq]%andb_true_iff. exists (Z.log2 n). split; [apply Z.log2_nonneg|].
  pose proof (Z.log2_spec n Hn) as [H1 H2]. destruct (Z.eq_dec n (2 ^ Z.log2 n)) as [|Hne]; [done|]. exfalso.
  assert (Z.testbit (Z.land n (n - 1)) (Z.log2 n) = true) as Hb; [|rewrite Hl, Z.bits_0 in Hb; discriminate].
  rewrite Z.land_spec, Z.bit_log2 by lia. cbn. assert (Z.log2 (n - 1) = Z.log2 n) as <-.
  { apply Z.log2_unique; [apply Z.log2_nonneg|]. split; lia. }
  apply Z.bit_log2. pose proof (Z.log2_nonneg n). assert (0 < 2 ^ Z.log2 n) by lia. lia.
Qed.

Lemma pack_disjoint b e : 0 <= b < 2 ^ 60 -> 0 <= e -> Z.land (Z.lor b (Z.shiftl e 60)) (Z.ones 60) = b /\ Z.shiftr (Z.lor b (Z.shiftl e 60)) 60 = e.
Proof.
  intros Hb He. split.
  - rewrite Z.land_lor_distr_l, Z.land_ones, Z.mod_small by lia. rewrite Z.land_ones by lia. rewrite Z.shiftl_mul_pow2, Z.mod_mul by lia. apply Z.lor_0_r.
  - rewrite Z.shiftr_lor, Z.shiftr_shiftl_l by lia. rewrite Z.shiftr_div_pow2, Z.div_small by lia. apply Z.shiftl_0_r.
Qed.

Lemma PackFrameMetadata_pow2 bytes e : 0 <= bytes < 2 ^ 60 -> 0 <= e <= 15 ->
  exists metadata, PackFrameMetadata bytes (2 ^ e) = Val metadata /\ 0 <= metadata < 2 ^ 64 /\ UnpackFrameBytes metadata = bytes /\ UnpackFrameAlignment metadata = 2 ^ e.
Proof.
  intros Hb He. unfold PackFrameMetadata, UnpackFrameBytes, UnpackFrameAlignment. exists (Z.lor bytes (Z.shiftl e 60)).
  change kFrameMetadataBytesMask with (Z.ones 60). change kFrameMetadataBytesBits with 60. change kFrameMetadataMaxAlignmentExponent with 15.
  destruct (pack_disjoint bytes e Hb ltac:(lia)) as [E1 E2]. destruct (has_single_bit_pow2 e ltac:(lia)) as [-> ->].
  rewrite (proj2 (Z.leb_le bytes _)) by (rewrite Z.ones_equiv; lia). rewrite (proj2 (Z.eqb_neq _ _)) by lia. rewrite (proj2 (Z.leb_le e 15)) by lia.
  split_and!; [done | | | exact E1 | by rewrite E2, Z.shiftl_1_l].
  - apply Z.lor_nonneg. split; [lia|]. apply Z.shiftl_nonneg. lia.
  - destruct (Z.eq_dec (Z.lor bytes (Z.shiftl e 60)) 0) as [->|Hz]; [lia|].
    assert (0 <= Z.lor bytes (Z.shiftl e 60)) by (apply Z.lor_nonneg; split; [lia | apply Z.shiftl_nonneg; lia]).
    apply Z.log2_lt_cancel. rewrite Z.log2_pow2 by lia.
    rewrite Z.log2_lor by (try apply Z.shiftl_nonneg; lia). apply Z.max_lub_lt.
    + destruct (Z.eq_dec bytes 0) as [->|]; [cbn; lia|]. assert (Z.log2 bytes < 60) by (apply Z.log2_lt_pow2; lia). lia.
    + destruct (Z.eq_dec e 0) as [->|]; [rewrite Z.shiftl_0_l; done|]. rewrite Z.log2_shiftl by lia. assert (Z.log2 e < 4) by (apply Z.log2_lt_pow2; lia). lia.
Qed.

(** A frame's size and alignment survive packing. The word is produced for
    every size below 2^60 and every power of two up to 2^15, it fits 64 bits, and
    the two are read back exactly; any other request stops the program. *)
Theorem frame_metadata_round_trip (bytes alignment : Z) :
  0 <= bytes < 2 ^ 64 -> 0 <= alignment < 2 ^ 64 ->
  match PackFrameMetadata bytes alignment with
  | Val metadata => 0 <= metadata < 2 ^ 64 /\ UnpackFrameBytes metadata = bytes /\ UnpackFrameAlignment metadata = alignment
  | Panic => 2 ^ 60 <= bytes \/ (forall e, 0 <= e <= 15 -> alignment <> 2 ^ e)
  end.
Proof.
  intros Hb Ha. destruct (Z.lt_ge_cases bytes (2 ^ 60)) as [Hs|Hs].
  - destruct (has_single_bit alignment) eqn:E.
    + destruct (has_single_bit_inv alignment E) as (e & He & ->). destruct (Z.le_gt_cases e 15) as [Hle|Hle].
      * destruct (PackFrameMetadata_pow2 bytes e ltac:(lia) ltac:(lia)) as (md & -> & Hm & E1 & E2). done.
      * unfold PackFrameMetadata. destruct (has_single_bit_pow2 e He) as [-> ->]. change kFrameMetadataMaxAlignmentExponent with 15.
        rewrite (proj2 (Z.leb_gt e 15)) by lia.
        destruct (bytes <=? kFrameMetadataBytesMask), (negb (2 ^ e =? 0)); right; intros e' He' Ee; apply Z.pow_inj_r in Ee; lia.
    + unfold PackFrameMetadata. rewrite E, andb_false_r.
      destruct (bytes <=? kFrameMetadataBytesMask); right; intros e He ->; destruct (has_single_bit_pow2 e ltac:(lia)); congruence.
  - unfold PackFrameMetadata. rewrite (proj2 (Z.leb_gt bytes _)) by (change kFrameMetadataBytesMask with (2 ^ 60 - 1); lia). by left.
Qed.

Lemma frame_metadata_round_trip_witness : exists m, PackFrameMetadata 4096 64 = Val m /\ UnpackFrameBytes m = 4096 /\ UnpackFrameAlignment m = 64.
Proof. eexists. split; [reflexivity|]. exact (proj2 (frame_metadata_round_trip 4096 64 ltac:(lia) ltac:(lia))). Defined.

(** ** Size classes *)

Definition kSizeClassCount : nat := 13.
Definition kChunkBytes : Z := 64 * 1024.
Definition kSlabHeaderBytes : Z := 64.
Definition kMaxPooledBytes : Z := 16 * 1024.
Definition kSlotAlignment : Z := 16.
Definition kSizeClasses : list Z := [64; 96; 128; 192; 256; 384; 512; 768; 1024; 2048; 4096; 8192; 16384].

Definition SlotsPerChunk (block_size : Z) : Z := (kChunkBytes - kSlabHeaderBytes) / block_size.

(** The inner and the outer loop that fill the table; [count] is the number of
    iterations the inner loop does. *)
Fixpoint fill_class (count : nat) (n : Z) (i : nat) (table : list nat) : list nat :=
  match count with O => table | S count => fill_class count (n + 1) i (<[Z.to_nat n := i]> table) end.

Fixpoint fill_classes (sizes : list Z) (start : Z) (i : nat) (table : list nat) : list nat :=
  match sizes with
  | [] => table
  | size :: sizes => fill_classes sizes (size + 1) (S i) (fill_class (Z.to_nat (size + 1 - start)) start i table)
  end.

Definition kClassByBytes : list nat :=
  fill_classes kSizeClasses 1 0 (replicate (Z.to_nat (kMaxPooledBytes + 1)) kSizeClassCount).

Definition FindSizeClass (bytes alignment : Z) : nat :=
  if (bytes =? 0) || (kMaxPooledBytes <? bytes) || (kSlotAlignment <? alignment) then kSizeClassCount
  else nth (Z.to_nat bytes) kClassByBytes kSizeClassCount.

(** The reference: the first class that is large enough. *)
Fixpoint first_fit (sizes : list Z) (n : Z) (i : nat) : option nat :=
  match sizes with [] => None | size :: sizes => if n <=? size then Some i else first_fit sizes n (S i) end.

Fixpoint increasing (start : Z) (sizes : list Z) : bool :=
  match sizes with [] => true | size :: sizes => (start <=? size + 1) && increasing (size + 1) sizes end.

Lemma fill_class_length count : forall n i t, length (fill_class count n i t) = length t.
Proof. induction count as [|count IH]; intros n i t; cbn [fill_class]; [done|]. by rewrite IH, length_insert. Qed.

Lemma fill_class_lookup count : forall n i t k, 0 <= n -> 0 <= k -> n + Z.of_nat count <= Z.of_nat (length t) ->
  fill_class count n i t !! Z.to_nat k = if decide (n <= k < n + Z.of_nat count) then Some i else t !! Z.to_nat k.
Proof.
  induction count as [|count IH]; intros n i t k Hn Hk Hl; cbn [fill_class]; [case_decide; [lia | done]|].
  rewrite IH by (rewrite ?length_insert; lia). destruct (Z.eq_dec k n) as [->|Hne].
  - rewrite decide_False by lia. rewrite decide_True by lia. apply list_lookup_insert_eq. lia.
  - rewrite list_lookup_insert_ne by lia. repeat case_decide; try done; lia.
Qed.

Lemma fill_classes_lookup sizes : forall start i t k, increasing start sizes = true -> (forall size, size ∈ sizes -> size < Z.of_nat (length t)) -> 0 <= start -> 0 <= k ->
  fill_classes sizes start i t !! Z.to_nat k = if k <? start then t !! Z.to_nat k else match first_fit sizes k i with Some j => Some j | None => t !! Z.to_nat k end.
Proof.
  induction sizes as [|size sizes IH]; intros start i t k Hi Hs Hst Hk; cbn [fill_classes first_fit]; [by destruct (k <? start)|].
  cbn [increasing] in Hi. apply andb_true_iff in Hi as [Hle%Z.leb_le Hi]. assert (size < Z.of_nat (length t)) as Hsz by (apply Hs; left).
  rewrite IH; [|done | intros z Hz; rewrite fill_class_length; apply Hs; by right | lia | done]. rewrite fill_class_lookup by lia.
  destruct (Z.ltb_spec k (size + 1)), (Z.ltb_spec k start), (Z.leb_spec k size); try lia; case_decide; try lia; done.
Qed.

Lemma first_fit_spec sizes : forall n i j, first_fit sizes n i = Some j ->
  exists size, (i <= j)%nat /\ sizes !! (j - i)%nat = Some size /\ n <= size /\ forall k s, (k < j - i)%nat -> sizes !! k = Some s -> s < n.
Proof.
  induction sizes as [|size sizes IH]; intros n i j E; cbn in E; [done|]. destruct (Z.leb_spec n size) as [Hn|Hn].
  - injection E as <-. exists size. rewrite Nat.sub_diag. split_and!; try done. lia.
  - destruct (IH n (S i) j E) as (s & Hj & Hs & Hle & Hall). exists s. replace (j - i)%nat with (S (j - S i)) by lia. split_and!; try done; [lia|].
    intros [|k] z Hk Hz; cbn in Hz; [by injection Hz as <-|]. apply (Hall k z); [lia | done].
Qed.

Lemma kSizeClasses_facts : Forall (fun z => 64 <= z <= 16384 /\ SlotsPerChunk z * z <= kChunkBytes - kSlabHeaderBytes /\ 0 < SlotsPerChunk z /\ z mod 16 = 0) kSizeClasses.
Proof. repeat constructor; vm_compute; done. Qed.

Lemma first_fit_exists n : n <= 16384 -> exists j, first_fit kSizeClasses n 0 = Some j.
Proof. intros Hn. cbn. repeat match goal with |- context [?a <=? ?b] => destruct (Z.leb_spec a b); [by eexists|] end. lia. Qed.

Lemma kClassByBytes_lookup n j : 1 <= n -> first_fit kSizeClasses n 0 = Some j -> kClassByBytes !! Z.to_nat n = Some j.
Proof.
  intros Hn Hj. unfold kClassByBytes. rewrite fill_classes_lookup; [| vm_compute; reflexivity | | lia | lia].
  - rewrite (proj2 (Z.ltb_ge n 1)) by lia. by rewrite Hj.
  - intros z Hz. rewrite length_replicate. pose proof kSizeClasses_facts as HF. rewrite Forall_forall in HF. destruct (HF z Hz) as (Hb & _).
    unfold kMaxPooledBytes. lia.
Qed.

#[global] Opaque kClassByBytes.

Lemma FindSizeClass_in_range bytes alignment : 1 <= bytes <= 16384 -> alignment <= 16 ->
  exists j size, FindSizeClass bytes alignment = j /\ kSizeClasses !! j = Some size /\ bytes <= size /\ forall k s, (k < j)%nat -> kSizeClasses !! k = Some s -> s < bytes.
Proof.
  intros Hb Ha. destruct (first_fit_exists bytes ltac:(lia)) as [j Hj]. pose proof (kClassByBytes_lookup bytes j ltac:(lia) Hj) as Hn.
  destruct (first_fit_spec _ _ _ _ Hj) as (size & _ & Hs & Hle & Hall). rewrite Nat.sub_0_r in Hs, Hall. exists j, size.
  refine (conj _ (conj Hs (conj Hle Hall))). unfold FindSizeClass, kMaxPooledBytes, kSlotAlignment.
  rewrite (proj2 (Z.eqb_neq bytes 0)), (proj2 (Z.ltb_ge _ bytes)), (proj2 (Z.ltb_ge _ alignment)) by lia. cbn [orb]. by apply nth_lookup_Some.
Qed.

(** C29. The table of size classes is right: a frame of 1 to 16384 bytes and
    ordinary alignment gets the smallest class that holds it, any other request none. *)
Theorem frame_size_class_is_first_fit (bytes alignment : Z) :
  0 <= bytes ->
  if (1 <=? bytes) && (bytes <=? 16384) && (alignment <=? 16)
  then exists size, kSizeClasses !! FindSizeClass bytes alignment = Some size /\ bytes <= size /\
         (forall j s, (j < FindSizeClass bytes alignment)%nat -> kSizeClasses !! j = Some s -> s < bytes) /\
         SlotsPerChunk size * size <= kChunkBytes - kSlabHeaderBytes /\ size mod kSlotAlignment = 0
  else FindSizeClass bytes alignment = kSizeClassCount.
Proof.
  intros Hb. destruct (Z.leb_spec 1 bytes), (Z.leb_spec bytes 16384), (Z.leb_spec alignment 16); cbn [andb];
    [| unfold FindSizeClass, kMaxPooledBytes, kSlotAlignment;
       destruct (Z.eqb_spec bytes 0), (Z.ltb_spec (16 * 1024) bytes), (Z.ltb_spec 16 alignment); (lia || reflexivity) ..].
  destruct (FindSizeClass_in_range bytes alignment) as (j & size & -> & Hs & Hle & Hall); [lia..|].
  pose proof kSizeClasses_facts as HF. rewrite Forall_lookup in HF. destruct (HF j size Hs) as (_ & H1' & _ & H2'). exists size.
  exact (conj Hs (conj Hle (conj Hall (conj H1' H2')))).
Qed.

Lemma frame_size_class_is_first_fit_witness : exists size, kSizeClasses !! FindSizeClass 97 16 = Some size /\ 97 <= size.
Proof. destruct (frame_size_class_is_first_fit 97 16 ltac:(lia)) as (size & Hs & Hle & _). exists size. exact (conj Hs Hle). Defined.

(** ** Memory

    Bytes at addresses; a word is eight bytes, least significant first. *)

Definition memory := Z -> Z.

Definition store_byte (m : memory) (a v : Z) : memory := fun x => if x =? a then v else m x.

Fixpoint store_bytes (n : nat) (m : memory) (a v : Z) : memory :=
  match n with O => m | S n => store_bytes n (store_byte m a (v mod 256)) (a + 1) (v / 256) end.

Fixpoint load_bytes (n : nat) (m : memory) (a : Z) : Z :=
  match n with O => 0 | S n => m a + 256 * load_bytes n m (a + 1) end.

Definition store64 : memory -> Z -> Z -> memory := store_bytes 8.
Definition load64 : memory -> Z -> Z := load_bytes 8.

Lemma store_bytes_outside n : forall m a v x, ~ (a <= x < a + Z.of_nat n) -> store_bytes n m a v x = m x.
Proof.
  induction n as [|n IH]; intros m a v x Hx; cbn [store_bytes]; [done|]. rewrite IH by lia. unfold store_byte. by rewrite (proj2 (Z.eqb_neq x a)) by lia.
Qed.

Lemma load_bytes_ext n : forall m m' a, (forall x, a <= x < a + Z.of_nat n -> m x = m' x) -> load_bytes n m a = load_bytes n m' a.
Proof.
  induction n as [|n IH]; intros m m' a H; cbn [load_bytes]; [done|]. rewrite (H a) by lia. rewrite (IH m m' (a + 1)); [done|]. intros x Hx. apply H. lia.
Qed.

Lemma load_store_bytes n : forall m a v, 0 <= v < 256 ^ Z.of_nat n -> load_bytes n (store_bytes n m a v) a = v.
Proof.
  induction n as [|n IH]; intros m a v Hv; cbn [load_bytes store_bytes]; [cbn in Hv; lia|].
  rewrite store_bytes_outside by lia. unfold store_byte at 1. rewrite Z.eqb_refl. rewrite IH.
  - pose proof (Z.div_mod v 256). lia.
  - rewrite Nat2Z.inj_succ, Z.pow_succ_r in Hv by lia. split; [apply Z.div_pos; lia|]. apply Z.div_lt_upper_bound; lia.
Qed.

Lemma load64_store64 m a v : 0 <= v < 2 ^ 64 -> load64 (store64 m a v) a = v.
Proof. intros Hv. apply load_store_bytes. exact Hv. Qed.

Lemma load64_store64_ne m a b v : b + 8 <= a \/ a + 8 <= b -> load64 (store64 m a v) b = load64 m b.
Proof. intros Hd. apply load_bytes_ext. intros x Hx. apply store_bytes_outside. lia. Qed.

(** ** Heap frames

    [resource->allocate(bytes, alignment)] is the parameter [allocate], which
    returns an address or throws; resources are identified by their address. *)

Record FrameAllocationHeader := { header_resource : Z; header_metadata : Z }.

Definition sizeof_FrameAllocationHeader : Z := 16.
Definition FrameAllocationMarkerSize : Z := 8.
Definition alignof_pointer : Z := 8.

Definition write_header (m : memory) (a : Z) (h : FrameAllocationHeader) : memory :=
  store64 (store64 m a (header_resource h)) (a + 8) (header_metadata h).
Definition read_header (m : memory) (a : Z) : FrameAllocationHeader :=
  {| header_resource := load64 m a; header_metadata := load64 m (a + 8) |}.

(** std::align on the pointer [p] with [space] bytes behind it. *)
Definition align (alignment size p space : Z) : option Z :=
  if space <? size then None
  else let aligned := Z.land (p - 1 + alignment) (- alignment) in
       if space - size <? aligned - p then None else Some aligned.

(** How AllocateHeapFrame ends: with a frame and the memory it wrote, or with
    std::bad_alloc, after returning an allocation to the resource or not. *)
Inductive heap_result := Frame (frame : Z) (m : memory) | BadAlloc (deallocated : option (Z * Z * Z * Z)).

Definition heap_prefix : Z := sizeof_FrameAllocationHeader + FrameAllocationMarkerSize.
Definition heap_alignment (frame_alignment : Z) : Z := Z.max frame_alignment (Z.max alignof_pointer alignof_pointer).
Definition heap_bytes (frame_size frame_alignment : Z) : Z := heap_prefix + frame_size + heap_alignment frame_alignment - 1.

Definition AllocateHeapFrame (resource : Z) (allocate : Z -> Z -> option Z) (frame_size frame_alignment : Z) (m : memory) : outcome heap_result :=
  let alignment := heap_alignment frame_alignment in
  let prefix := heap_prefix in
  if (size_max - prefix <? frame_size) || (size_max - (prefix + frame_size) <? alignment) then Val (BadAlloc None)
  else
  let bytes := prefix + frame_size + alignment - 1 in
  let alignment_exponent := countr_zero alignment in
  if (kFrameMetadataBytesMask <? bytes) || negb (has_single_bit alignment) || (kFrameMetadataMaxAlignmentExponent <? alignment_exponent) then Val (BadAlloc None)
  else
  match allocate bytes alignment with
  | None => Val (BadAlloc None)
  | Some allocation =>
      metadata ← PackFrameMetadata bytes alignment;
      let m := write_header m allocation {| header_resource := resource; header_metadata := metadata |} in
      match align frame_alignment frame_size (allocation + prefix) (bytes - prefix) with
      | None => Val (BadAlloc (Some (resource, allocation, bytes, alignment)))
      | Some frame => Val (Frame frame (store64 m (frame - FrameAllocationMarkerSize) allocation))
      end
  end.

(** DeallocateFrame of a frame that is no pooled slot: the call of
    resource->deallocate it makes. *)
Definition DeallocateHeapFrame (frame : Z) (m : memory) : option (Z * Z * Z * Z) :=
  if frame =? 0 then None
  else
  let header := load64 m (frame - FrameAllocationMarkerSize) in
  let resource := header_resource (read_header m header) in
  let allocation := header in
  let bytes := UnpackFrameBytes (header_metadata (read_header m header)) in
  let alignment := UnpackFrameAlignment (header_metadata (read_header m header)) in
  Some (resource, allocation, bytes, alignment).

Lemma land_neg_pow2 x e : 0 <= e -> Z.land x (- 2 ^ e) = x - x mod 2 ^ e.
Proof.
  intros He. replace (- 2 ^ e) with (Z.lnot (Z.ones e)) by (rewrite Z.ones_equiv; unfold Z.lnot; lia).
  rewrite <- Z.ldiff_land, Z.ldiff_ones_r, Z.shiftl_mul_pow2, Z.shiftr_div_pow2 by done. pose proof (Z.div_mod x (2 ^ e)). lia.
Qed.

(** std::align finds the first aligned address when the space exceeds the size by
    at least the alignment less one. *)
Lemma align_succeeds e size p space : 0 <= e -> size + 2 ^ e - 1 <= space ->
  exists q, align (2 ^ e) size p space = Some q /\ p <= q < p + 2 ^ e /\ q mod 2 ^ e = 0.
Proof.
  intros He Hs. unfold align. assert (0 < 2 ^ e) as Hp by lia. rewrite land_neg_pow2 by done.
  pose proof (Z.mod_pos_bound (p - 1 + 2 ^ e) (2 ^ e) Hp) as Hm. rewrite (proj2 (Z.ltb_ge space size)) by lia. rewrite (proj2 (Z.ltb_ge _ _)) by lia.
  eexists. split; [reflexivity|]. split; [lia|]. rewrite Zminus_mod, Zmod_mod, Z.sub_diag. apply Zmod_0_l.
Qed.

Lemma heap_alignment_pow2 e : 0 <= e -> exists e', 0 <= e' /\ heap_alignment (2 ^ e) = 2 ^ e' /\ e <= e' /\ (e' = e \/ e' = 3).
Proof.
  intros He. unfold heap_alignment, alignof_pointer. destruct (Z.le_gt_cases 3 e) as [H3|H3].
  - exists e. assert (2 ^ 3 <= 2 ^ e) by (apply Z.pow_le_mono_r; lia). change (2 ^ 3) with 8 in *. split_and!; [lia | lia | lia | by left].
  - exists 3. assert (2 ^ e <= 2 ^ 3) by (apply Z.pow_le_mono_r; lia). change (2 ^ 3) with 8 in *. split_and!; [lia | lia | lia | by right].
Qed.

Lemma DeallocateHeapFrame_reads frame m m' a resource metadata : 0 < frame -> 0 <= a < 2 ^ 64 -> 0 <= resource < 2 ^ 64 -> 0 <= metadata < 2 ^ 64 ->
  a + heap_prefix <= frame ->
  (forall x, x < frame -> m' x = store64 (write_header m a {| header_resource := resource; header_metadata := metadata |}) (frame - FrameAllocationMarkerSize) a x) ->
  DeallocateHeapFrame frame m' = Some (resource, a, UnpackFrameBytes metadata, UnpackFrameAlignment metadata).
Proof.
  unfold heap_prefix, sizeof_FrameAllocationHeader, FrameAllocationMarkerSize. intros Hf Ha Hr Hmd Hp Hm.
  unfold DeallocateHeapFrame. rewrite (proj2 (Z.eqb_neq _ _)) by lia. unfold FrameAllocationMarkerSize.
  assert (load64 m' (frame - 8) = a) as ->.
  { unfold load64. rewrite (load_bytes_ext 8 _ _ (frame - 8) (fun x Hx => Hm x ltac:(lia))). by apply load64_store64. }
  assert (read_header m' a = {| header_resource := resource; header_metadata := metadata |}) as ->; [|done].
  unfold read_header, load64. rewrite (load_bytes_ext 8 _ _ a (fun x Hx => Hm x ltac:(lia))), (load_bytes_ext 8 _ _ (a + 8) (fun x Hx => Hm x ltac:(lia))).
  fold (load64 (store64 (write_header m a {| header_resource := resource; header_metadata := metadata |}) (frame - 8) a)).
  rewrite !load64_store64_ne by lia. unfold write_header. cbn [header_resource header_metadata]. rewrite load64_store64 by done. rewrite load64_store64_ne by lia. by rewrite load64_store64.
Qed.

(** C30. A heap frame gives its allocation back exactly. For any frame size and any
    power-of-two alignment, AllocateHeapFrame stops on no check; it throws only when
    the request cannot be encoded (2^60 bytes or an alignment above 2^15) or the
    resource has no memory, and then nothing stays allocated. A frame it returns is
    aligned, lies with all its bytes inside the allocation and behind the header and
    the marker, and whatever the coroutine writes into its frame, DeallocateFrame
    returns to the same resource the same address, size and alignment. *)
Theorem heap_frame_gives_allocation_back resource allocate frame_size e m :
  0 <= frame_size < 2 ^ 64 -> 0 <= e < 64 -> 0 <= resource < 2 ^ 64 ->
  let bytes := heap_bytes frame_size (2 ^ e) in
  let alignment := heap_alignment (2 ^ e) in
  (forall a, allocate bytes alignment = Some a -> 0 < a /\ a + bytes <= 2 ^ 64) ->
  match AllocateHeapFrame resource allocate frame_size (2 ^ e) m with
  | Val (Frame frame m') =>
      exists a, allocate bytes alignment = Some a /\ frame mod 2 ^ e = 0 /\ a + heap_prefix <= frame /\ frame + frame_size <= a + bytes /\
        (forall x, ~ (a <= x < a + bytes) -> m' x = m x) /\
        forall m'', (forall x, ~ (frame <= x < frame + frame_size) -> m'' x = m' x) -> DeallocateHeapFrame frame m'' = Some (resource, a, bytes, alignment)
  | Val (BadAlloc deallocated) => deallocated = None /\ (2 ^ 60 <= bytes \/ 15 < e \/ allocate bytes alignment = None)
  | Panic => False
  end.
Proof.
  intros Hs He Hr bytes alignment Hal. destruct (heap_alignment_pow2 e ltac:(lia)) as (e' & He' & Ea & Hee & Hcase).
  assert (2 ^ e <= 2 ^ e') as Hpow by (apply Z.pow_le_mono_r; lia). assert (0 < 2 ^ e) by lia.
  subst alignment. unfold AllocateHeapFrame. rewrite Ea in *. assert (bytes = 24 + frame_size + 2 ^ e' - 1) as Eb by (unfold bytes, heap_bytes; rewrite Ea; done).
  change heap_prefix with 24. rewrite <- Eb. change kFrameMetadataBytesMask with (2 ^ 60 - 1). change kFrameMetadataMaxAlignmentExponent with 15. unfold size_max.
  destruct (has_single_bit_pow2 e' He') as [-> ->]. cbn [negb].
  destruct (Z.ltb_spec (2 ^ 64 - 1 - 24) frame_size); cbn [orb]; [split; [done | left; lia]|].
  destruct (Z.ltb_spec (2 ^ 64 - 1 - (24 + frame_size)) (2 ^ e')); [split; [done | left; lia]|].
  destruct (Z.ltb_spec (2 ^ 60 - 1) bytes); cbn [orb]; [split; [done | left; lia]|].
  destruct (Z.ltb_spec 15 e'); [split; [done | right; left; lia]|].
  destruct (allocate bytes (2 ^ e')) as [a|] eqn:E; [|split; [done | by right; right]]. destruct (Hal _ eq_refl) as [Ha1 Ha2].
  destruct (PackFrameMetadata_pow2 bytes e' ltac:(lia) ltac:(lia)) as (md & -> & Hmd & Eu1 & Eu2). rewrite bind_val.
  destruct (align_succeeds e frame_size (a + 24) (bytes - 24) ltac:(lia) ltac:(lia)) as (q & -> & Hq & Hqm).
  exists a. split_and!; [done | done | lia | lia | |].
  - intros x Hx. unfold write_header, store64. cbn [header_resource header_metadata]. rewrite !store_bytes_outside by (unfold FrameAllocationMarkerSize; lia). done.
  - intros m'' Hm''. rewrite (DeallocateHeapFrame_reads q m m'' a resource md); [by rewrite Eu1, Eu2 | lia | lia | done | done | unfold heap_prefix, sizeof_FrameAllocationHeader, FrameAllocationMarkerSize; lia|].
    intros x Hx. apply Hm''. lia.
Qed.

Lemma heap_frame_gives_allocation_back_witness :
  exists frame m', AllocateHeapFrame 4096 (fun _ _ => Some 65544) 100 (2 ^ 6) (fun _ => 0) = Val (Frame frame m') /\ frame = 65600 /\
    DeallocateHeapFrame frame (store64 m' frame 77) = Some (4096, 65544, 187, 64).
Proof.
  eexists _, _. split; [reflexivity|]. split; [reflexivity|].
  destruct (heap_frame_gives_allocation_back 4096 (fun _ _ => Some 65544) 100 6 (fun _ => 0)) as (a & Ha & _ & _ & _ & _ & Hd);
    [lia | lia | lia | intros a [= <-]; split; vm_compute; done | injection Ha as <-; apply Hd].
  intros x Hx. apply store_bytes_outside. lia.
Defined.

(** ** Selecting a resource

    [current_frame_resource] is thread-local; [default] is new_delete_resource(). *)

Definition NormalizeFrameResource (default resource : Z) : Z := if resource =? 0 then default else resource.
Definition SetCurrentFrameResource (default resource : Z) : Z := NormalizeFrameResource default resource.

Record FrameAllocatorScope := mkScope { previous_ : Z; changed_ : bool }.

(** The constructor: the scope and the resource that is current then. *)
Definition new_scope (default current resource : Z) : FrameAllocatorScope * Z :=
  let s := mkScope current (negb (current =? NormalizeFrameResource default resource)) in
  (s, if changed_ s then SetCurrentFrameResource default resource else current).

(** The destructor: the resource that is current afterwards. *)
Definition destroy_scope (default current : Z) (s : FrameAllocatorScope) : Z :=
  if changed_ s then SetCurrentFrameResource default (previous_ s) else current.

(** Nested scopes: what each body sees, and what is current when all have ended. *)
Fixpoint nested (default current : Z) (resources : list Z) : list Z * Z :=
  match resources with
  | [] => ([], current)
  | resource :: rest =>
      let '(s, inner) := new_scope default current resource in
      let '(seen, after) := nested default inner rest in
      (inner :: seen, destroy_scope default after s)
  end.

(** Frames created inside a scope come from the resource it names, whatever scopes are
    around it, and when the scopes have ended the selection is the one before. *)
Theorem frame_scopes_nest default resources : default <> 0 -> forall current, current <> 0 ->
  nested default current resources = (NormalizeFrameResource default <$> resources, current).
Proof.
  intros Hd. induction resources as [|r rs IH]; intros current Hc; cbn [nested fmap list_fmap]; [done|]. unfold new_scope. cbn [changed_].
  assert ((if negb (current =? NormalizeFrameResource default r) then SetCurrentFrameResource default r else current) = NormalizeFrameResource default r) as ->.
  { destruct (Z.eqb_spec current (NormalizeFrameResource default r)); done. }
  rewrite IH by (unfold NormalizeFrameResource; destruct (Z.eqb_spec r 0); done). f_equal. unfold destroy_scope. cbn [changed_ previous_].
  destruct (Z.eqb_spec current (NormalizeFrameResource default r)) as [E|E]; cbn [negb]; [done|]. unfold SetCurrentFrameResource, NormalizeFrameResource. by rewrite (proj2 (Z.eqb_neq current 0)).
Qed.

End FrameMeta.
