(* ===== verification/FramePool.v ===== *)
(** * The pool of coroutine frames (include/alyrn/coro/frame_allocator.h)

    CoroFramePoolResource: pools with their size classes, the slabs they carve, the
    two-level slab map all pools share, and the threads that use them. A thread that
    does not own a pool frees into the pool's remote stack; the threads interleave at
    the granularity of the atomic operations on the slab map and on the remote stacks,
    everything between two of them is private to the thread. The first word of a slot
    is its FreeNode while the slot is free and belongs to the frame while it is live,
    so a live frame may write it. *)

From stdpp Require Import functions.
From S2P Require Import Prelude FrameMeta.

Module FramePool.
Import FrameMeta.

Record SlabHeader := mkSlab {
  slab_next : Z;
  slab_owner : Z;
  size_class_index : nat;
  slot_size : Z;
  slot_count : Z;
}.

(** A size class of a pool: the address of the pool and the index. *)
Definition key : Type := Z * nat.

(** Where a slot is: on the local list, on the remote stack, in use, or held by a
    thread that is pushing it onto the remote stack. *)
Inductive place := Local (k : key) | Remote (k : key) | Live (k : key) | Pushing (t : nat) (k : key).

#[global] Instance place_eq_dec : EqDecision place.
Proof. solve_decision. Defined.

(** What a thread does after DrainRemote of one class: go on with AllocatePooled, or
    with the next class. *)
Inductive drain_cont := KAllocate | KNextClass.

(** Where a thread is inside an operation, between two atomic operations. *)
Inductive pc :=
| Idle
| Drain (k : key) (cont : drain_cont)        (* DrainRemote: remote was seen non-null *)
| DrainLoop (p : Z) (c : nat)                (* DrainRemote(): before class c *)
| Publish (k : key) (slab : Z)               (* RegisterSlab: a directory was created *)
| Enter (k : key) (slab : Z)                 (* RegisterSlab: before the entry's exchange *)
| PushLoad (k : key) (node : Z)              (* PushRemote: before the load *)
| PushCas (k : key) (node old : Z).          (* PushRemote: before the exchange *)

Record world := mkWorld {
  owner_thread_ : Z -> option nat;           (* of each pool *)
  free_list : key -> Z;
  slabs : key -> Z;
  remote : key -> Z;
  headers : gmap Z SlabHeader;               (* the slab headers in memory *)
  next : Z -> Z;                             (* the first word of each slot *)
  directories : gmap Z (gmap Z Z);           (* the slab map *)
  upstream : gset Z;                         (* chunks not yet given back *)
  current_pool_ : nat -> Z;                  (* thread-local *)
  thread : nat -> pc;
  places : gmap Z place;                     (* bookkeeping: where each slot is *)
  leaked : gset Z;                           (* bookkeeping: chunks lost by an exception *)
}.

Definition set_owner (w : world) v := mkWorld v (free_list w) (slabs w) (remote w) (headers w) (next w) (directories w) (upstream w) (current_pool_ w) (thread w) (places w) (leaked w).
Definition set_free_list (w : world) v := mkWorld (owner_thread_ w) v (slabs w) (remote w) (headers w) (next w) (directories w) (upstream w) (current_pool_ w) (thread w) (places w) (leaked w).
Definition set_slabs (w : world) v := mkWorld (owner_thread_ w) (free_list w) v (remote w) (headers w) (next w) (directories w) (upstream w) (current_pool_ w) (thread w) (places w) (leaked w).
Definition set_remote (w : world) v := mkWorld (owner_thread_ w) (free_list w) (slabs w) v (headers w) (next w) (directories w) (upstream w) (current_pool_ w) (thread w) (places w) (leaked w).
Definition set_headers (w : world) v := mkWorld (owner_thread_ w) (free_list w) (slabs w) (remote w) v (next w) (directories w) (upstream w) (current_pool_ w) (thread w) (places w) (leaked w).
Definition set_next (w : world) v := mkWorld (owner_thread_ w) (free_list w) (slabs w) (remote w) (headers w) v (directories w) (upstream w) (current_pool_ w) (thread w) (places w) (leaked w).
Definition set_directories (w : world) v := mkWorld (owner_thread_ w) (free_list w) (slabs w) (remote w) (headers w) (next w) v (upstream w) (current_pool_ w) (thread w) (places w) (leaked w).
Definition set_upstream (w : world) v := mkWorld (owner_thread_ w) (free_list w) (slabs w) (remote w) (headers w) (next w) (directories w) v (current_pool_ w) (thread w) (places w) (leaked w).
Definition set_current (w : world) v := mkWorld (owner_thread_ w) (free_list w) (slabs w) (remote w) (headers w) (next w) (directories w) (upstream w) v (thread w) (places w) (leaked w).
Definition set_thread (w : world) v := mkWorld (owner_thread_ w) (free_list w) (slabs w) (remote w) (headers w) (next w) (directories w) (upstream w) (current_pool_ w) v (places w) (leaked w).
Definition set_places (w : world) v := mkWorld (owner_thread_ w) (free_list w) (slabs w) (remote w) (headers w) (next w) (directories w) (upstream w) (current_pool_ w) (thread w) v (leaked w).
Definition set_leaked (w : world) v := mkWorld (owner_thread_ w) (free_list w) (slabs w) (remote w) (headers w) (next w) (directories w) (upstream w) (current_pool_ w) (thread w) (places w) v.

Definition goto (w : world) (t : nat) (p : pc) : world := set_thread w (<[t := p]> (thread w)).

(** What a step reports. *)
Inductive event := Silent | Returned (frame : Z) | Threw | Freed (pooled : bool).

(** ** The slab map *)

Definition kSlabShift : Z := 16.
Definition kL2Bits : Z := 16.
Definition kL1Bits : Z := 16.
Definition kL2Size : Z := Z.shiftl 1 kL2Bits.
Definition kL1Size : Z := Z.shiftl 1 kL1Bits.
Definition kCanonicalMask : Z := Z.shiftl 1 48 - 1.

Definition SlabMapIndex (addr : Z) : Z * Z :=
  let canonical := Z.land addr kCanonicalMask in
  (Z.shiftr canonical 32, Z.land (Z.shiftr canonical kSlabShift) (kL2Size - 1)).

#[global] Arguments SlabMapIndex : simpl never.

Definition LookupSlab (w : world) (pointer : Z) : Z :=
  let '(l1, l2) := SlabMapIndex pointer in
  if kL1Size <=? l1 then 0
  else match directories w !! l1 with
       | None => 0
       | Some directory => default 0 (directory !! l2)
       end.

Definition IsSlot (slab : Z) (h : SlabHeader) (pointer : Z) : bool :=
  let first := slab + kSlabHeaderBytes in
  if pointer <? first then false
  else
  let offset := pointer - first in
  if (slot_size h =? 0) || negb (offset mod slot_size h =? 0) then false
  else offset / slot_size h <? slot_count h.

Definition UnregisterSlab (w : world) (slab : Z) : world :=
  let '(l1, l2) := SlabMapIndex slab in
  if kL1Size <=? l1 then w
  else match directories w !! l1 with
       | None => w
       | Some directory => set_directories w (<[l1 := delete l2 directory]> (directories w))
       end.

(** ** Allocation *)

Definition BindOwnerThread (w : world) (t : nat) (p : Z) : world :=
  let w := match owner_thread_ w p with None => set_owner w (<[p := Some t]> (owner_thread_ w)) | Some _ => w end in
  if decide (owner_thread_ w p = Some t) then set_current w (<[t := p]> (current_pool_ w)) else w.

(** The end of AllocatePooled: the first node leaves the list. *)
Definition pop_node (w : world) (t : nat) (k : key) : outcome (world * event) :=
  let node := free_list w k in
  if node =? 0 then Panic
  else
  let w := set_free_list w (<[k := next w node]> (free_list w)) in
  let w := set_places w (<[node := Live k]> (places w)) in
  Val (goto w t Idle, Returned node).

(** AddChunk up to the load of the directory in RegisterSlab. [chunk] is what
    upstream_->allocate returns, [None] when it throws; [created] is false when
    new SlabDirectory throws. *)
Definition AddChunk (w : world) (t : nat) (k : key) (chunk : option Z) (created : bool) : outcome (world * event) :=
  let block_size := nth k.2 kSizeClasses 0 in
  let slot_count := SlotsPerChunk block_size in
  ALYRN_CHECK (0 <? slot_count);;
  match chunk with
  | None => Val (goto w t Idle, Threw)
  | Some allocation =>
      let w := set_upstream w ({[allocation]} ∪ upstream w) in
      ALYRN_CHECK (Z.land allocation (kChunkBytes - 1) =? 0);;
      let w := set_headers w (<[allocation := mkSlab (slabs w k) k.1 k.2 block_size slot_count]> (headers w)) in
      ALYRN_CHECK (Z.land allocation (kChunkBytes - 1) =? 0);;
      let '(l1, l2) := SlabMapIndex allocation in
      ALYRN_CHECK (l1 <? kL1Size);;
      match directories w !! l1 with
      | Some _ => Val (goto w t (Enter k allocation), Silent)
      | None =>
          if created then Val (goto w t (Publish k allocation), Silent)
          else Val (goto (set_leaked w ({[allocation]} ∪ leaked w)) t Idle, Threw)
      end
  end.

(** RegisterSlab: publish the created directory unless another thread was first. *)
Definition publish_directory (w : world) (t : nat) (k : key) (slab : Z) : outcome (world * event) :=
  let '(l1, l2) := SlabMapIndex slab in
  let w := match directories w !! l1 with
           | None => set_directories w (<[l1 := ∅]> (directories w))
           | Some _ => w
           end in
  Val (goto w t (Enter k slab), Silent).

(** The loop of AddChunk that puts the slots of the chunk on the list. *)
Fixpoint carve (count : nat) (i slot block_size : Z) (nx : Z -> Z) (head : Z) : (Z -> Z) * Z :=
  match count with
  | O => (nx, head)
  | S count => let node := slot + i * block_size in carve count (i + 1) slot block_size (<[node := head]> nx) node
  end.

(** The addresses of the slots, for the bookkeeping. *)
Definition slots_of (slab block_size count : Z) : list Z :=
  (fun i => slab + kSlabHeaderBytes + i * block_size) <$> seqZ 0 count.

Fixpoint place_all (xs : list Z) (pl : place) (m : gmap Z place) : gmap Z place :=
  match xs with [] => m | x :: xs => <[x := pl]> (place_all xs pl m) end.

(** The exchange of the entry, the end of AddChunk and of AllocatePooled. *)
Definition enter_slab (w : world) (t : nat) (k : key) (slab : Z) : outcome (world * event) :=
  let '(l1, l2) := SlabMapIndex slab in
  match directories w !! l1 with
  | None => Panic
  | Some directory =>
      ALYRN_CHECK (match directory !! l2 with None => true | Some _ => false end);;
      let w := goto w t Idle in
      let w := set_directories w (<[l1 := <[l2 := slab]> directory]> (directories w)) in
      let w := set_slabs w (<[k := slab]> (slabs w)) in
      let block_size := nth k.2 kSizeClasses 0 in
      let '(nx, head) := carve (Z.to_nat (SlotsPerChunk block_size)) 0 (slab + kSlabHeaderBytes) block_size (next w) (free_list w k) in
      let w := set_free_list (set_next w nx) (<[k := head]> (free_list w)) in
      let w := set_places w (place_all (slots_of slab block_size (SlotsPerChunk block_size)) (Local k) (places w)) in
      pop_node w t k
  end.

(** ** Draining *)

(** The loop of DrainRemote over the stolen chain. *)
Fixpoint drain_list (fuel : nat) (k : key) (list : Z) (w : world) : outcome world :=
  match fuel with
  | O => Panic
  | S fuel =>
      if list =? 0 then Val w
      else
      let nx := next w list in
      let w := set_next w (<[list := free_list w k]> (next w)) in
      let w := set_free_list w (<[k := list]> (free_list w)) in
      let w := set_places w (<[list := Local k]> (places w)) in
      drain_list fuel k nx w
  end.

(** No chain is longer than all slots of all slabs. *)
Definition kSlotsPerChunkMax : nat := 1023.
Definition drain_fuel (w : world) : nat := S (size (headers w) * kSlotsPerChunkMax).

(** The exchange that takes the whole stack, and the loop. *)
Definition drain_class (w : world) (k : key) : outcome world :=
  let list := remote w k in
  drain_list (drain_fuel w) k list (set_remote w (<[k := 0]> (remote w))).

(** AllocatePooled after the first test of the free list. *)
Definition allocate_after_drain (w : world) (t : nat) (k : key) (chunk : option Z) (created : bool) : outcome (world * event) :=
  if free_list w k =? 0 then AddChunk w t k chunk created else pop_node w t k.

(** AllocatePooled up to its first atomic operation. *)
Definition AllocatePooled (w : world) (t : nat) (p bytes alignment : Z) (chunk : option Z) (created : bool) : outcome (world * event) :=
  let w := BindOwnerThread w t p in
  let index := FindSizeClass bytes alignment in
  if (index =? kSizeClassCount)%nat then Val (w, Returned 0)
  else
  let k := (p, index) in
  if free_list w k =? 0
  then if remote w k =? 0 then allocate_after_drain w t k chunk created
       else Val (goto w t (Drain k KAllocate), Silent)
  else allocate_after_drain w t k chunk created.

(** DrainCurrent *)
Definition DrainCurrent (w : world) (t : nat) : outcome (world * event) :=
  if current_pool_ w t =? 0 then Val (w, Silent) else Val (goto w t (DrainLoop (current_pool_ w t) 0), Silent).

(** DrainRemote(): the load of the next class. *)
Definition drain_next (w : world) (t : nat) (p : Z) (c : nat) : outcome (world * event) :=
  if (c <? kSizeClassCount)%nat
  then if remote w (p, c) =? 0 then Val (goto w t (DrainLoop p (S c)), Silent) else Val (goto w t (Drain (p, c) KNextClass), Silent)
  else Val (goto w t Idle, Silent).

(** ** Deallocation *)

(** FreeSlot *)
Definition FreeSlot (w : world) (t : nat) (node : Z) (h : SlabHeader) : outcome (world * event) :=
  let k := (slab_owner h, size_class_index h) in
  if decide (owner_thread_ w (slab_owner h) = Some t)
  then
    let w := set_next w (<[node := free_list w k]> (next w)) in
    let w := set_free_list w (<[k := node]> (free_list w)) in
    Val (set_places w (<[node := Local k]> (places w)), Freed true)
  else Val (goto (set_places w (<[node := Pushing t k]> (places w))) t (PushLoad k node), Freed true).

Definition TryDeallocate (w : world) (t : nat) (frame : Z) : outcome (world * event) :=
  if frame =? 0 then Val (w, Freed false)
  else
  let slab := LookupSlab w frame in
  if slab =? 0 then Val (w, Freed false)
  else match headers w !! slab with
       | None => Panic
       | Some h => if IsSlot slab h frame then FreeSlot w t frame h else Val (w, Freed false)
       end.

(** PushRemote: the load, and the write of the node's next at the top of the loop. *)
Definition push_load (w : world) (t : nat) (k : key) (node : Z) : outcome (world * event) :=
  let old := remote w k in
  Val (goto (set_next w (<[node := old]> (next w))) t (PushCas k node old), Silent).

(** PushRemote: the weak exchange, which may fail without reason. *)
Definition push_cas (w : world) (t : nat) (k : key) (node old : Z) (spurious : bool) : outcome (world * event) :=
  if negb spurious && (remote w k =? old)
  then Val (goto (set_places (set_remote w (<[k := node]> (remote w))) (<[node := Remote k]> (places w))) t Idle, Silent)
  else push_load w t k node.

(** ** Destruction *)

(** ReleaseChunks, the loop over the slabs of a class. *)
Fixpoint release_slabs (fuel : nat) (slab : Z) (w : world) : outcome world :=
  match fuel with
  | O => Panic
  | S fuel =>
      if slab =? 0 then Val w
      else match headers w !! slab with
           | None => Panic
           | Some h =>
               let nx := slab_next h in
               let w := UnregisterSlab w slab in
               let w := set_headers w (delete slab (headers w)) in
               let w := set_upstream w (upstream w ∖ {[slab]}) in
               release_slabs fuel nx w
           end
  end.

Definition release_class (w : world) (k : key) : outcome world :=
  w ← release_slabs (S (size (headers w))) (slabs w k) w;
  let w := set_free_list w (<[k := 0]> (free_list w)) in
  let w := set_slabs w (<[k := 0]> (slabs w)) in
  Val (set_remote w (<[k := 0]> (remote w))).

Fixpoint each_class (f : world -> key -> outcome world) (p : Z) (cs : list nat) (w : world) : outcome world :=
  match cs with [] => Val w | c :: cs => w ← f w (p, c); each_class f p cs w end.

Definition DrainRemote (w : world) (p : Z) : outcome world :=
  each_class (fun w k => if remote w k =? 0 then Val w else drain_class w k) p (seq 0 kSizeClassCount) w.

Definition ReleaseChunks (w : world) (p : Z) : outcome world := each_class release_class p (seq 0 kSizeClassCount) w.

Definition place_key (pl : place) : key := match pl with Local k | Remote k | Live k | Pushing _ k => k end.

(** The destructor; nobody else uses the pool then. The storage may hold a new pool
    afterwards. *)
Definition Destroy (w : world) (t : nat) (p : Z) : outcome (world * event) :=
  let w := if current_pool_ w t =? p then set_current w (<[t := 0]> (current_pool_ w)) else w in
  w ← DrainRemote w p;
  w ← ReleaseChunks w p;
  let w := set_places w (filter (fun '(_, pl) => (place_key pl).1 <> p) (places w)) in
  Val (set_owner w (<[p := None]> (owner_thread_ w)), Silent).

(** ** The threads *)

Inductive action :=
| AAllocate (p bytes alignment : Z) (chunk : option Z) (created : bool)
| ADeallocate (frame : Z)
| AWrite (frame value : Z)                   (* a frame writes its first word *)
| ADrainCurrent
| ADestroy (p : Z)
| AExit                                      (* the thread ends *)
| AContinue (chunk : option Z) (created spurious : bool).

Definition exec (w : world) (t : nat) (a : action) : outcome (world * event) :=
  match a with
  | AAllocate p bytes alignment chunk created => AllocatePooled w t p bytes alignment chunk created
  | ADeallocate frame => TryDeallocate w t frame
  | AWrite frame value => Val (set_next w (<[frame := value]> (next w)), Silent)
  | ADrainCurrent => DrainCurrent w t
  | ADestroy p => Destroy w t p
  | AExit => Val (set_current w (<[t := 0]> (current_pool_ w)), Silent)
  | AContinue chunk created spurious =>
      match thread w t with
      | Idle => Val (w, Silent)
      | Drain k KAllocate => w ← drain_class w k; allocate_after_drain w t k chunk created
      | Drain k KNextClass => w ← drain_class w k; Val (goto w t (DrainLoop k.1 (S k.2)), Silent)
      | DrainLoop p c => drain_next w t p c
      | Publish k slab => publish_directory w t k slab
      | Enter k slab => enter_slab w t k slab
      | PushLoad k node => push_load w t k node
      | PushCas k node old => push_cas w t k node old spurious
      end
  end.

(** What the code relies on. Upstream returns aligned chunks of addresses below 2^48
    that it has not handed out already; a pool allocates for one thread; a frame is
    deleted once, by whoever holds it, and a pointer that is no pooled frame lies
    outside every chunk; a pool is destroyed when no frame of it is in use, no thread
    is working on it, and no other thread that will run again has it as its current
    pool. *)
Definition chunk_ok (w : world) (chunk : option Z) : Prop :=
  match chunk with None => True | Some s => 0 < s /\ s mod kChunkBytes = 0 /\ s + kChunkBytes <= 2 ^ 48 /\ s ∉ upstream w end.

Definition works_on (q : pc) : option Z :=
  match q with
  | Idle => None
  | Drain k _ | Publish k _ | Enter k _ | PushLoad k _ | PushCas k _ _ => Some k.1
  | DrainLoop p _ => Some p
  end.

Definition allowed (w : world) (t : nat) (a : action) : Prop :=
  match a with
  | AAllocate p bytes alignment chunk created =>
      thread w t = Idle /\ p <> 0 /\ (owner_thread_ w p = None \/ owner_thread_ w p = Some t) /\ 0 <= bytes /\ chunk_ok w chunk
  | ADeallocate frame =>
      thread w t = Idle /\ ((exists k, places w !! frame = Some (Live k)) \/ 0 <= frame < 2 ^ 48 /\ forall s, s ∈ upstream w -> ~ (s <= frame < s + kChunkBytes))
  | AWrite frame value => exists k, places w !! frame = Some (Live k)
  | ADrainCurrent => thread w t = Idle
  | ADestroy p =>
      thread w t = Idle /\ p <> 0 /\ (forall x pl, places w !! x = Some pl -> (place_key pl).1 = p -> exists c, pl = Local (p, c) \/ pl = Remote (p, c)) /\
      (forall u, works_on (thread w u) <> Some p) /\ (forall u, current_pool_ w u = p -> u = t)
  | AExit => thread w t = Idle
  | AContinue chunk created spurious => chunk_ok w chunk
  end.

Definition initial : world := mkWorld (fun _ => None) (fun _ => 0) (fun _ => 0) (fun _ => 0) ∅ (fun _ => 0) ∅ ∅ (fun _ => 0) (fun _ => Idle) ∅ ∅.

Inductive reachable : world -> Prop :=
| reach_initial : reachable initial
| reach_step w t a w' e : reachable w -> allowed w t a -> exec w t a = Val (w', e) -> reachable w'.

End FramePool.
