(* ===== verification/FramePoolInv.v ===== *)
(** * The pool of coroutine frames: geometry of slabs and the invariant

    Slots of a slab lie in its chunk and determine it; the slab map is injective on
    chunk addresses. The invariant says where every slot is, and every step of every
    thread keeps it. *)

From stdpp Require Import functions.
From S2P Require Import Prelude FrameMeta FramePool.

Module FramePoolInv.
Import FrameMeta FramePool.

(** ** Geometry *)

Definition chunk_at (s : Z) : Prop := 0 < s /\ s mod kChunkBytes = 0 /\ s + kChunkBytes <= 2 ^ 48.

Record good_slab (s : Z) (h : SlabHeader) : Prop := {
  gs_chunk : chunk_at s;
  gs_class : kSizeClasses !! size_class_index h = Some (slot_size h);
  gs_count : slot_count h = SlotsPerChunk (slot_size h);
  gs_owner : slab_owner h <> 0;
}.

Lemma size_class_facts c size : kSizeClasses !! c = Some size ->
  (c < kSizeClassCount)%nat /\ 64 <= size <= 16384 /\ SlotsPerChunk size * size <= kChunkBytes - kSlabHeaderBytes /\ 0 < SlotsPerChunk size <= 1023 /\ size mod 16 = 0.
Proof.
  intros E. pose proof kSizeClasses_facts as HF. rewrite Forall_lookup in HF. destruct (HF c size E) as (H1 & H2 & H3 & H4).
  apply lookup_lt_Some in E as Hc. split; [exact Hc|]. split_and!; try done; try lia. change (kChunkBytes - kSlabHeaderBytes) with 65472 in H2. nia.
Qed.

Lemma IsSlot_true s h x : 0 < slot_size h ->
  IsSlot s h x = true <-> exists i, 0 <= i < slot_count h /\ x = s + kSlabHeaderBytes + i * slot_size h.
Proof.
  intros Hz. unfold IsSlot. change kSlabHeaderBytes with 64. destruct (Z.ltb_spec x (s + 64)) as [Hx|Hx].
  { split; [done|]. intros (i & Hi & ->). nia. }
  rewrite (proj2 (Z.eqb_neq (slot_size h) 0)) by lia. cbn [orb]. destruct (Z.eqb_spec ((x - (s + 64)) mod slot_size h) 0) as [Hm|Hm]; cbn [negb].
  - pose proof (Z.div_mod (x - (s + 64)) (slot_size h) ltac:(lia)) as Hd. rewrite Z.ltb_lt. split.
    + intros Hc. exists ((x - (s + 64)) / slot_size h). split; [split; [apply Z.div_pos; lia | done] | lia].
    + intros (i & Hi & ->). replace (s + 64 + i * slot_size h - (s + 64)) with (i * slot_size h) by lia. rewrite Z.div_mul by lia. lia.
  - split; [done|]. intros (i & Hi & ->). destruct Hm. replace (s + 64 + i * slot_size h - (s + 64)) with (i * slot_size h) by lia. apply Z.mod_mul. lia.
Qed.

Lemma slots_of_spec s size count x : x ∈ slots_of s size count <-> exists i, 0 <= i < count /\ x = s + kSlabHeaderBytes + i * size.
Proof.
  unfold slots_of. rewrite list_elem_of_fmap. split.
  - intros (i & -> & Hi). apply elem_of_seqZ in Hi. exists i. split; [lia | done].
  - intros (i & Hi & ->). exists i. split; [done|]. apply elem_of_seqZ. lia.
Qed.

Lemma slots_of_NoDup s size count : 0 < size -> NoDup (slots_of s size count).
Proof. intros Hz. apply NoDup_fmap_2_strong; [|apply NoDup_seqZ]. intros i j _ _ E. nia. Qed.

Lemma good_size s h : good_slab s h -> 64 <= slot_size h <= 16384.
Proof. intros [_ Hc _ _]. by apply size_class_facts in Hc as (_ & ? & _). Qed.

Lemma good_slot_iff s h x : good_slab s h -> IsSlot s h x = true <-> x ∈ slots_of s (slot_size h) (slot_count h).
Proof. intros Hg. pose proof (good_size s h Hg). rewrite IsSlot_true by lia. by rewrite slots_of_spec. Qed.

(** A slot lies in its chunk, behind the header. *)
Lemma slot_bounds s h x : good_slab s h -> IsSlot s h x = true -> s + kSlabHeaderBytes <= x /\ x + slot_size h <= s + kChunkBytes.
Proof.
  intros Hg Hx. pose proof (good_size s h Hg) as Hz. apply IsSlot_true in Hx as (i & Hi & ->); [|lia]. destruct Hg as [_ Hc Hn _].
  apply size_class_facts in Hc as (_ & _ & Hf & _). rewrite <- Hn in Hf. change kChunkBytes with 65536 in *. change kSlabHeaderBytes with 64 in *. nia.
Qed.

Lemma slot_in_chunk s h x : good_slab s h -> IsSlot s h x = true -> s < x < s + kChunkBytes.
Proof. intros Hg Hx. pose proof (slot_bounds s h x Hg Hx). pose proof (good_size s h Hg). change kSlabHeaderBytes with 64 in *. lia. Qed.

Lemma chunks_disjoint s s' x : chunk_at s -> chunk_at s' -> s <= x < s + kChunkBytes -> s' <= x < s' + kChunkBytes -> s = s'.
Proof.
  intros (_ & H1 & _) (_ & H2 & _) Hx Hx'. change kChunkBytes with 65536 in *. apply Z.div_exact in H1; [|lia]. apply Z.div_exact in H2; [|lia]. nia.
Qed.

Lemma SlabMapIndex_spec a : 0 <= a < 2 ^ 48 -> SlabMapIndex a = (a / 65536 / 65536, (a / 65536) mod 65536).
Proof.
  intros Ha. unfold SlabMapIndex, kCanonicalMask, kSlabShift, kL2Size, kL2Bits. change (Z.shiftl 1 48 - 1) with (Z.ones 48). change (Z.shiftl 1 16 - 1) with (Z.ones 16).
  rewrite !Z.land_ones by lia. rewrite Z.mod_small by lia. rewrite !Z.shiftr_div_pow2 by lia. rewrite Z.div_div by lia. done.
Qed.

Lemma SlabMapIndex_slot s x : chunk_at s -> s <= x < s + kChunkBytes -> SlabMapIndex x = SlabMapIndex s.
Proof.
  intros (Hs & Hm & He) Hx. change kChunkBytes with 65536 in *. change (2 ^ 48) with 281474976710656 in *. rewrite !SlabMapIndex_spec by (change (2 ^ 48) with 281474976710656; lia).
  apply Z.div_exact in Hm; [|lia]. assert (x / 65536 = s / 65536) as ->; [|done]. symmetry. apply (Z.div_unique x 65536 _ (x - s)); lia.
Qed.

Lemma SlabMapIndex_range a : 0 <= a < 2 ^ 48 -> 0 <= (SlabMapIndex a).1 < kL1Size.
Proof.
  intros Ha. rewrite SlabMapIndex_spec by done. cbn [fst]. change kL1Size with 65536. change (2 ^ 48) with 281474976710656 in *. split; [apply Z.div_pos; [apply Z.div_pos; lia | lia]|].
  apply Z.div_lt_upper_bound; [lia|]. apply Z.div_lt_upper_bound; lia.
Qed.

Lemma SlabMapIndex_inj s x : chunk_at s -> 0 <= x < 2 ^ 48 -> SlabMapIndex x = SlabMapIndex s -> s <= x < s + kChunkBytes.
Proof.
  intros (Hs & Hm & He) Hx E. change kChunkBytes with 65536 in *. change (2 ^ 48) with 281474976710656 in *. rewrite !SlabMapIndex_spec in E by (change (2 ^ 48) with 281474976710656; lia).
  injection E as E1 E2. apply Z.div_exact in Hm; [|lia].
  assert (x / 65536 = s / 65536) as E.
  { rewrite (Z.div_mod (x / 65536) 65536), (Z.div_mod (s / 65536) 65536) by lia. by rewrite E1, E2. }
  pose proof (Z.div_mod x 65536 ltac:(lia)). pose proof (Z.mod_pos_bound x 65536 ltac:(lia)). lia.
Qed.

Lemma SlabMapIndex_chunk_inj s s' : chunk_at s -> chunk_at s' -> SlabMapIndex s = SlabMapIndex s' -> s = s'.
Proof.
  intros Hs Hs' E. apply (chunks_disjoint s s' s Hs Hs'); [change kChunkBytes with 65536; lia|]. destruct Hs as (H1 & H2 & H3). apply SlabMapIndex_inj; [done | change kChunkBytes with 65536 in *; lia | done].
Qed.

(** ** The invariant *)

Fixpoint chain (nx : Z -> Z) (head : Z) (l : list Z) : Prop :=
  match l with [] => head = 0 | x :: l => head = x /\ x <> 0 /\ chain nx (nx x) l end.

(** The list that starts at [head] holds exactly the nodes of [P], each once. *)
Definition list_ok (nx : Z -> Z) (head : Z) (P : Z -> Prop) : Prop :=
  exists L, chain nx head L /\ NoDup L /\ forall x, x ∈ L <-> P x.

Fixpoint slab_chain (hs : gmap Z SlabHeader) (head : Z) (l : list Z) : Prop :=
  match l with [] => head = 0 | s :: l => head = s /\ s <> 0 /\ exists h, hs !! s = Some h /\ slab_chain hs (slab_next h) l end.

Definition header_key (h : SlabHeader) : key := (slab_owner h, size_class_index h).

Definition registered (w : world) (s : Z) : Prop :=
  exists d, directories w !! (SlabMapIndex s).1 = Some d /\ d !! (SlabMapIndex s).2 = Some s.

(** [x] is a slot of a slab of the class [k]. *)
Definition belongs (w : world) (k : key) (x : Z) : Prop :=
  exists s h, registered w s /\ headers w !! s = Some h /\ header_key h = k /\ IsSlot s h x = true.

Definition holds_slab (q : pc) (s : Z) : Prop := exists k, q = Publish k s \/ q = Enter k s.
Definition pushes (q : pc) (k : key) (x : Z) : Prop := q = PushLoad k x \/ exists old, q = PushCas k x old.

Definition owns (w : world) (t : nat) (k : key) : Prop := owner_thread_ w k.1 = Some t /\ k.1 <> 0 /\ (k.2 < kSizeClassCount)%nat.

Definition pending_slab (w : world) (k : key) (s : Z) : Prop :=
  exists h, headers w !! s = Some h /\ header_key h = k /\ slab_next h = slabs w k /\ ~ registered w s.

Definition pc_ok (w : world) (t : nat) (q : pc) : Prop :=
  match q with
  | Idle => True
  | Drain k _ => owns w t k
  | DrainLoop p _ => owner_thread_ w p = Some t /\ p <> 0
  | Publish k s => owns w t k /\ pending_slab w k s
  | Enter k s => owns w t k /\ pending_slab w k s /\ is_Some (directories w !! (SlabMapIndex s).1)
  | PushLoad k x => places w !! x = Some (Pushing t k)
  | PushCas k x old => places w !! x = Some (Pushing t k) /\ next w x = old
  end.

Record Inv (w : world) : Prop := {
  i_header s h : headers w !! s = Some h -> good_slab s h;
  i_upstream s : s ∈ upstream w <-> is_Some (headers w !! s);
  i_dir l1 d l2 s : directories w !! l1 = Some d -> d !! l2 = Some s -> SlabMapIndex s = (l1, l2) /\ is_Some (headers w !! s);
  i_slabs k : exists S, slab_chain (headers w) (slabs w k) S /\ NoDup S /\
    forall s, s ∈ S <-> registered w s /\ exists h, headers w !! s = Some h /\ header_key h = k;
  i_state s : is_Some (headers w !! s) -> registered w s \/ s ∈ leaked w \/ exists t, holds_slab (thread w t) s;
  i_places x pl : places w !! x = Some pl -> belongs w (place_key pl) x;
  i_belongs k x : belongs w k x -> is_Some (places w !! x);
  i_local k : list_ok (next w) (free_list w k) (fun x => places w !! x = Some (Local k));
  i_remote k : list_ok (next w) (remote w k) (fun x => places w !! x = Some (Remote k));
  i_push x t k : places w !! x = Some (Pushing t k) -> pushes (thread w t) k x;
  i_thread t : pc_ok w t (thread w t);
  i_current t : current_pool_ w t <> 0 -> owner_thread_ w (current_pool_ w t) = Some t;
}.

Lemma pool_initial_inv : Inv initial.
Proof.
  split; cbn; try done.
  - intros s. split; [set_solver | by intros [? ?]].
  - intros k. exists []. split_and!; [done | constructor|]. intros s. split; [by intros ?%elem_of_nil|]. by intros [(d & Hd & _) _].
  - by intros s [? ?].
  - intros k x (s & h & (d & Hd & _) & _). done.
  - intros k. exists []. split_and!; [done | constructor|]. intros s. split; [by intros ?%elem_of_nil | done].
  - intros k. exists []. split_and!; [done | constructor|]. intros s. split; [by intros ?%elem_of_nil | done].
Qed.

(** *** Chains *)

Lemma chain_next_other nx x v l : forall head, x ∉ l -> chain nx head l -> chain (<[x := v]> nx) head l.
Proof.
  induction l as [|y l IH]; intros head Hx; cbn; [done|]. intros (-> & Hy & Hc). apply not_elem_of_cons in Hx as [Hne Hx].
  split_and!; [done | done|]. rewrite fn_lookup_insert_ne by done. by apply IH.
Qed.

Lemma chain_zero nx l : chain nx 0 l -> l = [].
Proof. destruct l; [done|]. by intros (<- & ? & _). Qed.

Lemma slab_chain_other hs s h l : forall head, s ∉ l -> slab_chain hs head l -> slab_chain (<[s := h]> hs) head l.
Proof.
  induction l as [|y l IH]; intros head Hx; cbn; [done|]. intros (-> & Hy & h' & Hh & Hc). apply not_elem_of_cons in Hx as [Hne Hx].
  split_and!; [done | done|]. exists h'. split; [by rewrite lookup_insert_ne by done|]. by apply IH.
Qed.

Section lists.
Context (nx : Z -> Z).

Lemma list_ok_ext h P Q : (forall x, P x <-> Q x) -> list_ok nx h P -> list_ok nx h Q.
Proof. intros HPQ (L & Hc & Hn & HL). exists L. split_and!; [done | done|]. intros x. by rewrite HL. Qed.

Lemma list_ok_write h P x v : ~ P x -> list_ok nx h P -> list_ok (<[x := v]> nx) h P.
Proof. intros HP (L & Hc & Hn & HL). exists L. split_and!; [|done | done]. apply chain_next_other; [by rewrite HL | done]. Qed.

Lemma list_ok_push h P x : ~ P x -> x <> 0 -> list_ok nx h P -> list_ok (<[x := h]> nx) x (fun y => y = x \/ P y).
Proof.
  intros HP H0 (L & Hc & Hn & HL). exists (x :: L). assert (x ∉ L) as Hx by (by rewrite HL). split_and!.
  - cbn. split_and!; [done | done|]. rewrite fn_lookup_insert. by apply chain_next_other.
  - by constructor.
  - intros y. by rewrite elem_of_cons, HL.
Qed.

Lemma list_ok_pop h P : h <> 0 -> list_ok nx h P -> P h /\ list_ok nx (nx h) (fun y => P y /\ y <> h).
Proof.
  intros H0 (L & Hc & Hn & HL). destruct L as [|x L]; [done|]. destruct Hc as (-> & _ & Hc). apply NoDup_cons in Hn as [Hx Hn]. split.
  - apply HL. by left.
  - exists L. split_and!; [done | done|]. intros y. rewrite <- HL, elem_of_cons. split; [intros Hy; split; [by right | by intros ->] | by intros [[->|] ?]].
Qed.

Lemma list_ok_nil P : list_ok nx 0 P -> forall x, ~ P x.
Proof. intros (L & Hc & _ & HL) x Hx. apply chain_zero in Hc as ->. apply HL in Hx. by apply elem_of_nil in Hx. Qed.

Lemma list_ok_empty P : (forall x, ~ P x) -> list_ok nx 0 P.
Proof. intros HP. exists []. split_and!; [done | constructor|]. intros x. split; [by intros ?%elem_of_nil | by intros ?%HP]. Qed.

End lists.

(** *** Slots and slabs *)

Section facts.
Context (w : world) (HI : Inv w).

Lemma belongs_nonzero k x : belongs w k x -> 0 < x < 2 ^ 48.
Proof.
  intros (s & h & _ & Hh & _ & Hx). pose proof (i_header w HI s h Hh) as Hg. pose proof (slot_in_chunk s h x Hg Hx). destruct (gs_chunk s h Hg) as (? & _ & ?). lia.
Qed.

Lemma place_nonzero x pl : places w !! x = Some pl -> x <> 0.
Proof. intros Hp. pose proof (belongs_nonzero _ _ (i_places w HI x pl Hp)). lia. Qed.

(** Two slabs with a common slot are the same. *)
Lemma slot_slab_unique s h s' h' x : headers w !! s = Some h -> headers w !! s' = Some h' -> IsSlot s h x = true -> IsSlot s' h' x = true -> s = s'.
Proof.
  intros Hh Hh' Hx Hx'. pose proof (i_header w HI s h Hh) as Hg. pose proof (i_header w HI s' h' Hh') as Hg'.
  pose proof (slot_in_chunk s h x Hg Hx). pose proof (slot_in_chunk s' h' x Hg' Hx').
  apply (chunks_disjoint s s' x); [apply (gs_chunk s h Hg) | apply (gs_chunk s' h' Hg') | lia | lia].
Qed.

Lemma belongs_key k k' x : belongs w k x -> belongs w k' x -> k = k'.
Proof.
  intros (s & h & _ & Hh & <- & Hx) (s' & h' & _ & Hh' & <- & Hx'). pose proof (slot_slab_unique s h s' h' x Hh Hh' Hx Hx') as ->. congruence.
Qed.

(** The slab map finds the slab of a slot. *)
Lemma LookupSlab_in s x : chunk_at s -> s <= x < s + kChunkBytes -> registered w s -> LookupSlab w x = s.
Proof.
  intros Hs Hx (d & Hd & He). unfold LookupSlab. rewrite (SlabMapIndex_slot s x Hs Hx). pose proof (SlabMapIndex_range s) as Hr.
  destruct (SlabMapIndex s) as [l1 l2]. cbn [fst snd] in *. rewrite (proj2 (Z.leb_gt kL1Size l1)); [by rewrite Hd, He|]. apply Hr. destruct Hs as (? & _ & ?). change kChunkBytes with 65536 in *. lia.
Qed.

Lemma LookupSlab_belongs k x : belongs w k x ->
  exists s h, LookupSlab w x = s /\ s <> 0 /\ headers w !! s = Some h /\ header_key h = k /\ IsSlot s h x = true.
Proof.
  intros (s & h & Hr & Hh & Hk & Hx). pose proof (i_header w HI s h Hh) as Hg. pose proof (slot_in_chunk s h x Hg Hx).
  exists s, h. split_and!; try done; [apply LookupSlab_in; [apply (gs_chunk s h Hg) | lia | done]|]. destruct (gs_chunk s h Hg). lia.
Qed.

(** ... and nothing else: an address outside the chunks has no slab. *)
Lemma LookupSlab_outside x : 0 <= x < 2 ^ 48 -> (forall s, s ∈ upstream w -> ~ (s <= x < s + kChunkBytes)) -> LookupSlab w x = 0.
Proof.
  intros Hx Hout. unfold LookupSlab. destruct (SlabMapIndex x) as [l1 l2] eqn:E. destruct (kL1Size <=? l1); [done|].
  destruct (directories w !! l1) as [d|] eqn:Hd; [|done]. destruct (d !! l2) as [s|] eqn:Hs; [|done]. exfalso.
  destruct (i_dir w HI l1 d l2 s Hd Hs) as [Es [h Hh]]. apply (Hout s); [apply (i_upstream w HI); by eexists|].
  apply SlabMapIndex_inj; [apply (gs_chunk s h), (i_header w HI s h Hh) | done | congruence].
Qed.

End facts.

(** ** Steps that move slots between lists *)

Lemma registered_eq w w' s : directories w' = directories w -> registered w' s <-> registered w s.
Proof. intros E. unfold registered. by rewrite E. Qed.

Lemma belongs_eq w w' k x : directories w' = directories w -> headers w' = headers w -> belongs w' k x <-> belongs w k x.
Proof. intros E1 E2. unfold belongs, registered. by rewrite E1, E2. Qed.

(** What a step leaves alone when it touches no slab. *)
Record same_slabs (w w' : world) : Prop := {
  ss_headers : headers w' = headers w;
  ss_upstream : upstream w' = upstream w;
  ss_directories : directories w' = directories w;
  ss_slabs : slabs w' = slabs w;
  ss_leaked : leaked w' = leaked w;
  ss_owner : owner_thread_ w' = owner_thread_ w;
  ss_current : current_pool_ w' = current_pool_ w;
}.

Lemma inv_lists w w' : Inv w -> same_slabs w w' ->
  (forall x pl, places w' !! x = Some pl -> exists pl0, places w !! x = Some pl0 /\ place_key pl0 = place_key pl) ->
  (forall x, is_Some (places w !! x) -> is_Some (places w' !! x)) ->
  (forall k, list_ok (next w') (free_list w' k) (fun x => places w' !! x = Some (Local k))) ->
  (forall k, list_ok (next w') (remote w' k) (fun x => places w' !! x = Some (Remote k))) ->
  (forall x t k, places w' !! x = Some (Pushing t k) -> pushes (thread w' t) k x) ->
  (forall t, pc_ok w' t (thread w' t)) ->
  (forall t s, holds_slab (thread w t) s -> holds_slab (thread w' t) s) -> Inv w'.
Proof.
  intros HI [E1 E2 E3 E4 E5 E6 E7] H1 H2 H3 H4 H5 H6 H7. split; try done.
  - rewrite E1. apply HI.
  - rewrite E1, E2. apply HI.
  - rewrite E1, E3. apply HI.
  - intros k. rewrite E1, E4. destruct (i_slabs w HI k) as (S & HS & Hn & Hin). exists S. split_and!; [done | done|]. intros s. by rewrite Hin, (registered_eq w w' s E3).
  - intros s. rewrite E1, E5, (registered_eq w w' s E3). intros Hs. destruct (i_state w HI s Hs) as [|[|[t Ht]]]; [auto..|]. right. right. exists t. by apply H7.
  - intros x pl Hp. destruct (H1 x pl Hp) as (pl0 & Hp0 & <-). apply (belongs_eq w w'); [done | done|]. by apply HI.
  - intros k x Hb. apply H2, (i_belongs w HI k). by apply (belongs_eq w w') in Hb.
  - rewrite E6, E7. apply HI.
Qed.

(** A pc that mentions neither places nor lists stays good. *)
Lemma pc_ok_same w w' t q : same_slabs w w' -> (forall k x, pushes q k x -> places w' !! x = places w !! x /\ next w' x = next w x) -> pc_ok w t q -> pc_ok w' t q.
Proof.
  intros [E1 E2 E3 E4 E5 E6 E7] Hp. destruct q; cbn; unfold owns, pending_slab, registered; rewrite ?E1, ?E3, ?E4, ?E6; try done.
  - destruct (Hp k node) as [-> _]; [by left | done].
  - destruct (Hp k node) as [-> ->]; [right; by eexists | done].
Qed.

Lemma thread_pushes w t k x : Inv w -> pushes (thread w t) k x -> places w !! x = Some (Pushing t k).
Proof. intros HI Hp. pose proof (i_thread w HI t) as Ht. destruct Hp as [E|[old E]]; rewrite E in Ht; [done | by destruct Ht]. Qed.

(** A step of thread [t] that moves the slot [x] to another place. *)
Lemma move_slot w w' t x pl0 pl1 : Inv w -> same_slabs w w' ->
  places w !! x = Some pl0 -> place_key pl1 = place_key pl0 -> places w' = <[x := pl1]> (places w) ->
  (forall y, y <> x -> next w' y = next w y) -> (forall u, u <> t -> thread w' u = thread w u) ->
  (forall u k, pl0 = Pushing u k -> u = t) -> (forall u k, pl1 = Pushing u k -> u = t /\ pushes (thread w' t) k x) ->
  (forall k, list_ok (next w') (free_list w' k) (fun y => places w' !! y = Some (Local k))) ->
  (forall k, list_ok (next w') (remote w' k) (fun y => places w' !! y = Some (Remote k))) ->
  pc_ok w' t (thread w' t) -> (forall s, holds_slab (thread w t) s -> holds_slab (thread w' t) s) ->
  (forall k y, y <> x -> pushes (thread w t) k y -> pushes (thread w' t) k y) -> Inv w'.
Proof.
  intros HI Hss Hx Hk Hpl Hnx Hth Hp0 Hp1 HL HR Ht Hh Hps. apply (inv_lists w w'); try done.
  - intros y pl. rewrite Hpl. destruct (decide (y = x)) as [->|Hne]; [|rewrite lookup_insert_ne by done; by exists pl]. rewrite lookup_insert_eq. intros [= <-]. by exists pl0.
  - intros y. rewrite Hpl. intros Hy. destruct (decide (y = x)) as [->|Hne]; [rewrite lookup_insert_eq; by eexists | by rewrite lookup_insert_ne by done].
  - intros y u k. rewrite Hpl. destruct (decide (y = x)) as [->|Hne].
    + rewrite lookup_insert_eq. intros [= ->]. by destruct (Hp1 u k eq_refl) as [-> ?].
    + rewrite lookup_insert_ne by done. intros Hy. pose proof (i_push w HI y u k Hy) as Hu. destruct (decide (u = t)) as [->|Hut]; [by apply Hps | by rewrite Hth].
  - intros u. destruct (decide (u = t)) as [->|Hut]; [done|]. rewrite Hth by done. apply (pc_ok_same w w'); [done | | apply HI].
    intros k y Hy%thread_pushes; [|done]. assert (y <> x) as Hne by (intros ->; apply Hut, (Hp0 u k); congruence). rewrite Hpl, lookup_insert_ne by done. split; [done | by apply Hnx].
  - intros u s Hu. destruct (decide (u = t)) as [->|Hut]; [by apply Hh | by rewrite Hth].
Qed.

(** Lists that a moved slot neither leaves nor joins. *)
Lemma list_ok_unmoved (nx : Z -> Z) (m : gmap Z place) h x v pl1 pl :
  m !! x <> Some pl -> pl1 <> pl -> list_ok nx h (fun y => m !! y = Some pl) -> list_ok (<[x := v]> nx) h (fun y => <[x := pl1]> m !! y = Some pl).
Proof.
  intros Hx Hp HL. apply list_ok_ext with (P := fun y => m !! y = Some pl); [|by apply list_ok_write].
  intros y. destruct (decide (y = x)) as [->|Hne]; [rewrite lookup_insert_eq; split; congruence | by rewrite lookup_insert_ne by done].
Qed.

Lemma list_ok_unmoved_same (nx : Z -> Z) (m : gmap Z place) h x pl1 pl :
  m !! x <> Some pl -> pl1 <> pl -> list_ok nx h (fun y => m !! y = Some pl) -> list_ok nx h (fun y => <[x := pl1]> m !! y = Some pl).
Proof.
  intros Hx Hp HL. apply list_ok_ext with (P := fun y => m !! y = Some pl); [|done].
  intros y. destruct (decide (y = x)) as [->|Hne]; [rewrite lookup_insert_eq; split; congruence | by rewrite lookup_insert_ne by done].
Qed.

(** A list that the slot joins, and one that it leaves from the front. *)
Lemma list_ok_join (nx : Z -> Z) (m : gmap Z place) h x pl :
  m !! x <> Some pl -> x <> 0 -> list_ok nx h (fun y => m !! y = Some pl) -> list_ok (<[x := h]> nx) x (fun y => <[x := pl]> m !! y = Some pl).
Proof.
  intros Hx H0 HL. apply list_ok_ext with (P := fun y => y = x \/ m !! y = Some pl); [|by apply list_ok_push].
  intros y. destruct (decide (y = x)) as [->|Hne]; [rewrite lookup_insert_eq; tauto | rewrite lookup_insert_ne by done; tauto].
Qed.

Lemma list_ok_leave (nx : Z -> Z) (m : gmap Z place) x pl1 pl :
  x <> 0 -> pl1 <> pl -> list_ok nx x (fun y => m !! y = Some pl) -> m !! x = Some pl /\ list_ok nx (nx x) (fun y => <[x := pl1]> m !! y = Some pl).
Proof.
  intros H0 Hp HL. destruct (list_ok_pop nx x _ H0 HL) as [Hx HL']. split; [done|]. apply list_ok_ext with (2 := HL').
  intros y. destruct (decide (y = x)) as [->|Hne]; [rewrite lookup_insert_eq; split; [by intros [_ ?] | congruence] | rewrite lookup_insert_ne by done; tauto].
Qed.

Ltac by_key k k' := destruct (decide (k' = k)) as [->|]; [rewrite ?fn_lookup_insert | rewrite ?fn_lookup_insert_ne by done].

(** AllocatePooled takes the first node. *)
Lemma pop_node_inv w t k : Inv w -> (thread w t = Idle \/ exists c, thread w t = Drain k c) -> free_list w k <> 0 ->
  exists w', pop_node w t k = Val (w', Returned (free_list w k)) /\ Inv w' /\ places w !! free_list w k = Some (Local k) /\ places w' !! free_list w k = Some (Live k).
Proof.
  intros HI Ht H0. unfold pop_node. rewrite (proj2 (Z.eqb_neq _ _)) by done. destruct (list_ok_leave (next w) (places w) (free_list w k) (Live k) (Local k) H0 ltac:(done) (i_local w HI k)) as [Hx HL].
  eexists. split; [reflexivity|]. split; [|split; [done | apply lookup_insert_eq]].
  apply (move_slot w _ t (free_list w k) (Local k) (Live k)); try done; cbn.
  - intros u Hu. by rewrite fn_lookup_insert_ne.
  - intros k'. by_key k k'; [done|]. apply list_ok_unmoved_same; [congruence | done | apply HI].
  - intros k'. apply list_ok_unmoved_same; [congruence | done | apply HI].
  - by rewrite fn_lookup_insert.
  - intros s [k' Hs]. destruct Ht as [Ht|[c Ht]]; rewrite Ht in Hs; by destruct Hs.
  - intros k' y _ [Hs|[old Hs]]; destruct Ht as [Ht|[c Ht]]; rewrite Ht in Hs; done.
Qed.

(** *** Freeing *)

Lemma FreeSlot_inv w t x k s h : Inv w -> thread w t = Idle -> places w !! x = Some (Live k) -> headers w !! s = Some h -> header_key h = k ->
  exists w', FreeSlot w t x h = Val (w', Freed true) /\ Inv w' /\
    places w' = <[x := if decide (owner_thread_ w k.1 = Some t) then Local k else Pushing t k]> (places w).
Proof.
  intros HI Ht Hx Hh Hk. unfold FreeSlot. unfold header_key in Hk. rewrite Hk. assert (slab_owner h = k.1) as -> by by subst k.
  pose proof (place_nonzero w HI x _ Hx) as H0. destruct (decide (owner_thread_ w k.1 = Some t)) as [Ho|Ho]; eexists; (split; [reflexivity|]); (split; [|done]).
  - apply (move_slot w _ t x (Live k) (Local k)); try done; cbn.
    + intros y Hy. by rewrite fn_lookup_insert_ne.
    + intros k'. by_key k k'; [apply list_ok_join; [congruence | done | apply HI] | apply list_ok_unmoved; [congruence | congruence | apply HI]].
    + intros k'. apply list_ok_unmoved; [congruence | done | apply HI].
    + by rewrite Ht.
  - apply (move_slot w _ t x (Live k) (Pushing t k)); try done; cbn.
    + intros u Hu. by rewrite fn_lookup_insert_ne.
    + intros u k' [= -> ->]. split; [done|]. rewrite fn_lookup_insert. by left.
    + intros k'. apply list_ok_unmoved_same; [congruence | done | apply HI].
    + intros k'. apply list_ok_unmoved_same; [congruence | done | apply HI].
    + rewrite fn_lookup_insert. cbn. apply lookup_insert_eq.
    + intros s' [k' Hs']. rewrite Ht in Hs'. by destruct Hs'.
    + intros k' y _ [Hs|[old Hs]]; by rewrite Ht in Hs.
Qed.

Lemma push_load_inv w t k x : Inv w -> pushes (thread w t) k x ->
  exists w', push_load w t k x = Val (w', Silent) /\ Inv w' /\ thread w' t = PushCas k x (remote w k) /\ places w' = places w /\ remote w' = remote w.
Proof.
  intros HI Hp. pose proof (thread_pushes w t k x HI Hp) as Hx. eexists. split; [reflexivity|]. split; [|cbn; by rewrite fn_lookup_insert].
  apply (inv_lists w); try done; cbn.
  - intros y pl Hy. by exists pl.
  - intros k'. apply list_ok_write; [congruence | apply HI].
  - intros k'. apply list_ok_write; [congruence | apply HI].
  - intros y u k' Hy. pose proof (i_push w HI y u k' Hy) as Hu. destruct (decide (u = t)) as [->|Hut]; [|by rewrite fn_lookup_insert_ne].
    rewrite fn_lookup_insert. right. exists (remote w k). destruct Hp as [E|[o E]], Hu as [E'|[o' E']]; congruence.
  - intros u. destruct (decide (u = t)) as [->|Hut].
    + rewrite fn_lookup_insert. cbn. by rewrite fn_lookup_insert.
    + rewrite fn_lookup_insert_ne by done. apply (pc_ok_same w); [done | | apply HI]. cbn. intros k' y Hy%thread_pushes; [|done]. split; [done|].
      rewrite fn_lookup_insert_ne; [done|]. intros ->. congruence.
  - intros u s [k' Hs]. destruct (decide (u = t)) as [->|Hut]; [|rewrite fn_lookup_insert_ne by done; by exists k'].
    destruct Hp as [E|[o E]], Hs as [E'|E']; congruence.
Qed.

Lemma push_cas_inv w t k x old spurious : Inv w -> thread w t = PushCas k x old ->
  exists w', push_cas w t k x old spurious = Val (w', Silent) /\ Inv w' /\
    (if negb spurious && (remote w k =? old) then places w' = <[x := Remote k]> (places w) /\ thread w' t = Idle else places w' = places w /\ thread w' t = PushCas k x (remote w k)).
Proof.
  intros HI Ht. assert (pushes (thread w t) k x) as Hp by (right; by exists old). unfold push_cas. destruct (negb spurious && (remote w k =? old)) eqn:E.
  - apply andb_true_iff in E as [_ E%Z.eqb_eq]. pose proof (thread_pushes w t k x HI Hp) as Hx. pose proof (place_nonzero w HI x _ Hx) as H0.
    pose proof (i_thread w HI t) as Hok. rewrite Ht in Hok. destruct Hok as [_ Hnx]. eexists. split; [reflexivity|]. split; [|split; [done | cbn; by rewrite fn_lookup_insert]].
    apply (move_slot w _ t x (Pushing t k) (Remote k)); try done; cbn.
    + intros u Hu. by rewrite fn_lookup_insert_ne.
    + by intros u k' [= <- _].
    + intros k'. apply list_ok_unmoved_same; [congruence | done | apply HI].
    + intros k'. by_key k k'; [|apply list_ok_unmoved_same; [congruence | congruence | apply HI]].
      destruct (i_remote w HI k) as (R & Hc & Hn & HR). rewrite E in Hc. exists (x :: R). assert (x ∉ R) as HxR by (rewrite HR; congruence). split_and!.
      * cbn. split_and!; [done | done | by rewrite Hnx].
      * by constructor.
      * intros y. rewrite elem_of_cons, HR. destruct (decide (y = x)) as [->|Hne]; [rewrite lookup_insert_eq; tauto | rewrite lookup_insert_ne by done; tauto].
    + by rewrite fn_lookup_insert.
    + intros s [k' Hs]. rewrite Ht in Hs. by destruct Hs.
    + intros k' y Hy [Hs|[o Hs]]; congruence.
  - destruct (push_load_inv w t k x HI Hp) as (w' & E1 & HI' & E2 & E3 & _). exists w'. done.
Qed.

Lemma write_inv w x k v : Inv w -> places w !! x = Some (Live k) -> Inv (set_next w (<[x := v]> (next w))).
Proof.
  intros HI Hx. apply (inv_lists w); try done; cbn.
  - intros y pl Hy. by exists pl.
  - intros k'. apply list_ok_write; [congruence | apply HI].
  - intros k'. apply list_ok_write; [congruence | apply HI].
  - apply HI.
  - intros u. apply (pc_ok_same w); [done | | apply HI]. cbn. intros k' y Hy%thread_pushes; [|done]. split; [done|]. rewrite fn_lookup_insert_ne; [done|]. intros ->. congruence.
Qed.

End FramePoolInv.
