(* ===== verification/FramePoolSlabs.v ===== *)
(** * The pool of coroutine frames: draining, adding chunks, destruction

    The steps that move whole chains or touch slabs, and their preservation of the
    invariant. *)

From stdpp Require Import functions.
From S2P Require Import Prelude FrameMeta FramePool FramePoolInv.

Module FramePoolSlabs.
Import FrameMeta FramePool FramePoolInv.

Ltac by_key k k' := destruct (decide (k' = k)) as [->|]; [rewrite ?fn_lookup_insert | rewrite ?fn_lookup_insert_ne by done].

(** ** DrainRemote *)

(** The effect of a drain on where the slots are. *)
Definition drained (k : key) (m m' : gmap Z place) : Prop :=
  forall x, m' !! x = (if decide (m !! x = Some (Remote k)) then Some (Local k) else m !! x).

Lemma inv_remote_ext w f : (forall k, f k = remote w k) -> Inv w -> Inv (set_remote w f).
Proof. intros Hf HI. destruct HI. split; try done. intros k. cbn. by rewrite Hf. Qed.

Lemma drain_list_inv fuel k : forall w list R, Inv (set_remote w (<[k := list]> (remote w))) -> remote w k = 0 -> chain (next w) list R -> (length R < fuel)%nat ->
  exists w', drain_list fuel k list w = Val w' /\ Inv w' /\ same_slabs w w' /\ thread w' = thread w /\ remote w' = remote w /\ drained k (places w) (places w').
Proof.
  induction fuel as [|fuel IH]; intros w list R HI Hr Hc Hf; [lia|]. cbn [drain_list]. destruct (Z.eqb_spec list 0) as [->|H0].
  - exists w. split; [done|]. split; [|split_and!; try done].
    + assert (Inv (set_remote (set_remote w (<[k := 0]> (remote w))) (remote w))) as HI'; [|by destruct HI'].
      apply inv_remote_ext; [|done]. intros k'. cbn. by_key k k'; done.
    + intros x. rewrite decide_False; [done|]. pose proof (i_remote _ HI k) as HR. cbn in HR. rewrite fn_lookup_insert in HR. exact (list_ok_nil _ _ HR x).
  - destruct R as [|x R]; [done|]. destruct Hc as (-> & _ & Hc). cbn in Hf. pose proof (i_remote _ HI k) as HR. cbn in HR. rewrite fn_lookup_insert in HR.
    destruct (list_ok_leave _ _ x (Local k) (Remote k) H0 ltac:(done) HR) as [Hx HR']. assert (x ∉ R) as HxR.
    { destruct HR as (R0 & Hc0 & Hn0 & _). destruct R0 as [|y R0]; [done|]. destruct Hc0 as (<- & _ & Hc0). apply NoDup_cons in Hn0 as [Hn _].
      assert (R0 = R) as <-; [|done]. clear -Hc0 Hc. revert Hc0 Hc. generalize (next w x). revert R. induction R0 as [|a R0 IH]; intros [|b R] h; cbn; try done.
      - by intros -> [<- [? _]].
      - by intros [-> [? _]] ->.
      - intros (-> & _ & Ha) (-> & _ & Hb). f_equal. by apply (IH R (next w b)). }
    edestruct (IH (set_places (set_free_list (set_next w (<[x := free_list w k]> (next w))) (<[k := x]> (free_list w))) (<[x := Local k]> (places w))) (next w x) R)
      as (w' & E & HI' & Hss & Hth & Hrm & Hd); [|done | cbn; by apply chain_next_other | lia|].
    + apply (move_slot (set_remote w (<[k := x]> (remote w))) _ 0 x (Remote k) (Local k)); try done; cbn.
      * intros y Hy. by rewrite fn_lookup_insert_ne.
      * intros k'. pose proof (i_local _ HI k') as HL. cbn in HL. by_key k k'; [apply list_ok_join; [congruence | done | done] | apply list_ok_unmoved; [congruence | congruence | done]].
      * intros k'. by_key k k'; [apply list_ok_write; [by rewrite lookup_insert_eq | done]|]. pose proof (i_remote _ HI k') as HL. cbn in HL. rewrite fn_lookup_insert_ne in HL by done.
        apply list_ok_unmoved; [congruence | congruence | done].
      * apply (pc_ok_same (set_remote w (<[k := x]> (remote w)))); [done | | apply (i_thread _ HI)]. cbn. intros k' y Hy%(thread_pushes _ _ _ _ HI). cbn in Hy.
        assert (y <> x) as Hne by (intros ->; congruence). rewrite lookup_insert_ne, fn_lookup_insert_ne by done. done.
    + exists w'. split; [exact E|]. split; [done|]. split_and!; [|done | done|].
      * by destruct Hss.
      * intros y. rewrite (Hd y). cbn. destruct (decide (y = x)) as [->|Hne]; [|by rewrite lookup_insert_ne by done].
        rewrite lookup_insert_eq. rewrite decide_False by done. by rewrite decide_True.
Qed.

(** ** No chain is longer than the fuel *)

Definition all_slots (w : world) : list Z := concat ((fun '(s, h) => slots_of s (slot_size h) (slot_count h)) <$> map_to_list (headers w)).

Lemma all_slots_length w : Inv w -> (length (all_slots w) <= size (headers w) * kSlotsPerChunkMax)%nat.
Proof.
  intros HI. unfold all_slots. rewrite <- length_map_to_list. assert (Forall (fun '(s, h) => (Z.to_nat (slot_count h) <= kSlotsPerChunkMax)%nat) (map_to_list (headers w))) as HF.
  { apply Forall_forall. intros [s h] Hin%elem_of_map_to_list. destruct (i_header w HI s h Hin) as [_ Hc Hn _]. apply size_class_facts in Hc as (_ & _ & _ & Hle & _). rewrite Hn. unfold kSlotsPerChunkMax. lia. }
  induction HF as [|[s h] l Hx _ IH]; cbn [fmap list_fmap concat length Nat.mul]; [done|]. rewrite length_app. unfold slots_of at 1. rewrite length_fmap, length_seqZ. lia.
Qed.

Lemma belongs_all_slots w k x : Inv w -> belongs w k x -> x ∈ all_slots w.
Proof.
  intros HI (s & h & _ & Hh & _ & Hx). unfold all_slots. apply list_elem_of_In, in_concat. exists (slots_of s (slot_size h) (slot_count h)). split; apply list_elem_of_In.
  - apply list_elem_of_fmap. exists (s, h). split; [done|]. by apply elem_of_map_to_list.
  - apply (good_slot_iff s h x); [by apply HI | done].
Qed.

Lemma nodes_bound w L : Inv w -> NoDup L -> (forall x, x ∈ L -> is_Some (places w !! x)) -> (length L < drain_fuel w)%nat.
Proof.
  intros HI Hn HL. unfold drain_fuel. pose proof (all_slots_length w HI). assert (length L <= length (all_slots w))%nat; [|lia].
  apply submseteq_length, NoDup_submseteq; [done|]. intros x Hx. destruct (HL x Hx) as [pl Hpl]. apply (belongs_all_slots w (place_key pl)); [done|]. by apply HI.
Qed.

Lemma drain_class_inv w k : Inv w ->
  exists w', drain_class w k = Val w' /\ Inv w' /\ same_slabs w w' /\ thread w' = thread w /\ remote w' = <[k := 0]> (remote w) /\ drained k (places w) (places w').
Proof.
  intros HI. destruct (i_remote w HI k) as (R & Hc & Hn & HR). unfold drain_class. cbn zeta.
  edestruct (drain_list_inv (drain_fuel w) k (set_remote w (<[k := 0]> (remote w))) (remote w k) R) as (w' & E & HI' & Hss & Hth & Hrm & Hd).
  - change (Inv (set_remote w (<[k := remote w k]> (<[k := 0]> (remote w))))). apply inv_remote_ext; [|done]. intros k'. by_key k k'; done.
  - cbn. by rewrite fn_lookup_insert.
  - done.
  - apply nodes_bound; [done | done|]. intros x Hx%HR. by rewrite Hx.
  - exists w'. split; [done|]. split; [done|]. split; [by destruct Hss | done].
Qed.

(** ** Threads and owners *)

Lemma goto_inv w t q : Inv w -> pc_ok w t q ->
  (forall s, holds_slab (thread w t) s -> holds_slab q s) -> (forall k x, pushes (thread w t) k x -> pushes q k x) -> Inv (goto w t q).
Proof.
  intros HI Hq Hh Hp. apply (inv_lists w); try done; try apply HI; cbn.
  - intros x pl Hx. by exists pl.
  - intros x u k Hx%(i_push w HI). by_key t u; [by apply Hp | done].
  - intros u. by_key t u; [done|]. apply HI.
  - intros u s Hs. by_key t u; [by apply Hh | done].
Qed.

Lemma pool_owner_inv w own cur : Inv w -> (forall q u, owner_thread_ w q = Some u -> own q = Some u) -> (forall u, cur u <> 0 -> own (cur u) = Some u) ->
  Inv (set_current (set_owner w own) cur).
Proof.
  intros HI Ho Hc. split; try apply HI; [|done]. cbn. intros t. pose proof (i_thread w HI t) as Ht. destruct (thread w t); cbn in *; unfold owns in *; cbn; intuition auto.
Qed.

Lemma bind_inv w t p : Inv w -> (owner_thread_ w p = None \/ owner_thread_ w p = Some t) -> exists own,
  BindOwnerThread w t p = set_current (set_owner w own) (<[t := p]> (current_pool_ w)) /\ Inv (set_current (set_owner w own) (<[t := p]> (current_pool_ w))) /\ own p = Some t.
Proof.
  intros HI Ho. unfold BindOwnerThread. destruct Ho as [Ho|Ho]; rewrite Ho; cbn [owner_thread_ set_owner].
  - rewrite fn_lookup_insert, decide_True by done. eexists. split; [reflexivity|]. split; [|apply fn_lookup_insert]. apply pool_owner_inv; [done | |].
    + intros q u Hq. by_key p q; [congruence | done].
    + intros u. cbn. by_key t u; [done|]. intros Hu%(i_current w HI). destruct (decide (current_pool_ w u = p)) as [E|]; [congruence | by rewrite fn_lookup_insert_ne].
  - rewrite decide_True by done. exists (owner_thread_ w). split; [by destruct w|]. split; [|done]. apply pool_owner_inv; [done | done|].
    intros u. by_key t u; [done|]. apply HI.
Qed.

(** ** Adding a chunk *)

Lemma registered_header w s : Inv w -> registered w s -> is_Some (headers w !! s).
Proof. intros HI (d & Hd & Hs). by destruct (i_dir w HI _ _ _ _ Hd Hs). Qed.

Definition new_header (w : world) (k : key) : SlabHeader := mkSlab (slabs w k) k.1 k.2 (nth k.2 kSizeClasses 0) (SlotsPerChunk (nth k.2 kSizeClasses 0)).

Lemma new_header_good w k a : chunk_at a -> k.1 <> 0 -> (k.2 < kSizeClassCount)%nat -> good_slab a (new_header w k).
Proof.
  intros Ha Hk Hc. split; [done | | done | done]. unfold new_header. cbn [size_class_index slot_size]. change kSizeClassCount with (length kSizeClasses) in Hc. destruct (lookup_lt_is_Some_2 _ _ Hc) as [z Hz]. by rewrite (nth_lookup_Some _ _ _ _ Hz).
Qed.

(** The world after AddChunk wrote the header of the chunk [a]. *)
Definition with_chunk (w : world) (k : key) (a : Z) (lk : gset Z) : world :=
  set_leaked (set_headers (set_upstream w ({[a]} ∪ upstream w)) (<[a := new_header w k]> (headers w))) lk.

Lemma with_chunk_registered w k a lk s : registered (with_chunk w k a lk) s <-> registered w s.
Proof. done. Qed.

Lemma with_chunk_pending w k a lk k' s : headers w !! a = None -> pending_slab w k' s -> pending_slab (with_chunk w k a lk) k' s.
Proof. intros Ha (h & Hh & ? & ? & ?). exists h. split; [|done]. cbn. rewrite lookup_insert_ne; [done|]. intros ->. congruence. Qed.

Lemma with_chunk_belongs w k a lk k' x : Inv w -> headers w !! a = None -> belongs (with_chunk w k a lk) k' x <-> belongs w k' x.
Proof.
  intros HI Ha. split.
  - intros (s & h & Hr & Hh & Hk & Hx). exists s, h. split; [done|]. split; [|done]. cbn in Hh. destruct (registered_header w s HI Hr) as [h' Hh']. rewrite lookup_insert_ne in Hh; [done|]. intros ->. congruence.
  - intros (s & h & Hr & Hh & Hk & Hx). exists s, h. split; [done|]. split; [|done]. cbn. rewrite lookup_insert_ne; [done|]. intros ->. congruence.
Qed.

Lemma add_chunk_inv w t k a lk q : Inv w -> headers w !! a = None -> chunk_at a -> k.1 <> 0 -> (k.2 < kSizeClassCount)%nat ->
  leaked w ⊆ lk -> (a ∈ lk \/ holds_slab q a) -> pc_ok (with_chunk w k a lk) t q ->
  (forall s, ~ holds_slab (thread w t) s) -> (forall k x, ~ pushes (thread w t) k x) -> Inv (goto (with_chunk w k a lk) t q).
Proof.
  intros HI Ha Hca Hk Hc Hlk Hq Hpc Hnh Hnp. split; cbn; try apply HI.
  - intros s h. destruct (decide (s = a)) as [->|Hne]; [rewrite lookup_insert_eq | rewrite lookup_insert_ne by done; apply HI]. intros [= <-]. by apply new_header_good.
  - intros s. rewrite elem_of_union, elem_of_singleton, (i_upstream w HI). destruct (decide (s = a)) as [->|Hne]; [rewrite lookup_insert_eq; split; eauto | rewrite lookup_insert_ne by done; tauto].
  - intros l1 d l2 s Hd Hs. destruct (i_dir w HI l1 d l2 s Hd Hs) as [E Hh]. split; [done|]. destruct (decide (s = a)) as [->|Hne]; [rewrite lookup_insert_eq; by eexists | by rewrite lookup_insert_ne by done].
  - intros k'. destruct (i_slabs w HI k') as (S & HS & Hn & Hin). exists S. split_and!; [|done|].
    + apply slab_chain_other; [|done]. intros [_ (h & Hh & _)]%Hin. congruence.
    + intros s. rewrite Hin. split; (intros (Hr & h & Hh & Hkh); split; [done|]; exists h; split; [|done]); destruct (registered_header w s HI Hr) as [h' Hh'];
        (rewrite lookup_insert_ne in * by (intros ->; congruence)); done.
  - intros s Hs. destruct (decide (s = a)) as [->|Hne].
    + right. destruct Hq as [?|?]; [by left|]. right. exists t. by rewrite fn_lookup_insert.
    + rewrite lookup_insert_ne in Hs by done. destruct (i_state w HI s Hs) as [?|[?|[u Hu]]]; [by left | right; left; set_solver|]. right. right. exists u. by_key t u; [by apply Hnh in Hu | done].
  - intros x pl Hx. apply (with_chunk_belongs w k a lk); [done | done|]. by apply HI.
  - intros k' x Hb. apply (i_belongs w HI k'). by apply (with_chunk_belongs w k a lk) in Hb.
  - intros x u k' Hx%(i_push w HI). by_key t u; [by apply Hnp in Hx | done].
  - intros u. by_key t u; [done|]. pose proof (i_thread w HI u) as Hu. destruct (thread w u); try done.
    + destruct Hu as [? ?]. split; [done|]. by apply (with_chunk_pending w k a lk).
    + destruct Hu as (? & ? & ?). split; [done|]. split; [|done]. by apply (with_chunk_pending w k a lk).
Qed.

(** ** Registering a slab *)

Lemma publish_registered w l1 s : directories w !! l1 = None -> registered (set_directories w (<[l1 := ∅]> (directories w))) s <-> registered w s.
Proof.
  intros Hl. unfold registered. cbn. destruct (decide ((SlabMapIndex s).1 = l1)) as [E|Hne].
  - rewrite E, lookup_insert_eq. split; [intros (d & [= <-] & Hd); by rewrite lookup_empty in Hd | intros (d & Hd & _); congruence].
  - by rewrite lookup_insert_ne by done.
Qed.

Lemma publish_inv w l1 : Inv w -> directories w !! l1 = None -> Inv (set_directories w (<[l1 := ∅]> (directories w))).
Proof.
  intros HI Hl. pose proof (fun s => publish_registered w l1 s Hl) as Hr. split; try apply HI.
  - cbn. intros l d l2 s. destruct (decide (l = l1)) as [->|Hne]; [rewrite lookup_insert_eq; intros [= <-]; by rewrite lookup_empty | rewrite lookup_insert_ne by done; apply HI].
  - intros k. destruct (i_slabs w HI k) as (S & HS & Hn & Hin). exists S. split_and!; [done | done|]. intros s. by rewrite Hin, Hr.
  - intros s Hs. rewrite Hr. by apply HI.
  - intros x pl (s & h & Hs & Hx)%(i_places w HI). exists s, h. by rewrite Hr.
  - intros k x (s & h & Hs & Hx). rewrite Hr in Hs. apply (i_belongs w HI k). by exists s, h.
  - intros t. pose proof (i_thread w HI t) as Ht. cbn [thread set_directories]. destruct (thread w t); cbn in *; unfold pending_slab in *; try setoid_rewrite Hr; try done.
    destruct Ht as (? & ? & ?). split_and!; [done | done|]. destruct (decide ((SlabMapIndex slab).1 = l1)) as [E|Hne]; [rewrite E, lookup_insert_eq; by eexists | by rewrite lookup_insert_ne by done].
Qed.

Lemma publish_directory_inv w t k s : Inv w -> thread w t = Publish k s ->
  exists w', publish_directory w t k s = Val (w', Silent) /\ Inv w' /\ places w' = places w /\ thread w' t = Enter k s.
Proof.
  intros HI Ht. unfold publish_directory. destruct (SlabMapIndex s) as [l1 l2] eqn:E. pose proof (i_thread w HI t) as Hok. rewrite Ht in Hok. destruct Hok as [Ho Hp].
  eexists. split; [reflexivity|]. split; [|destruct (directories w !! l1); cbn; by rewrite fn_lookup_insert].
  assert (forall w', Inv w' -> thread w' t = Publish k s -> owns w' t k -> pending_slab w' k s -> is_Some (directories w' !! l1) -> Inv (goto w' t (Enter k s))) as Hgo.
  { intros w' HI' Ht' Ho' Hp' Hd'. apply goto_inv; [done | | |].
    - cbn. rewrite E. done.
    - rewrite Ht'. intros s' [k' [[= -> ->]|?]]; [|done]. exists k'. by right.
    - rewrite Ht'. by intros k' x [?|[? ?]]. }
  destruct (directories w !! l1) as [d|] eqn:Hd; [apply Hgo; try done; by eexists|].
  apply Hgo; try done; [by apply publish_inv | | cbn; rewrite lookup_insert_eq; by eexists].
  destruct Hp as (h & ? & ? & ? & Hnr). exists h. split_and!; try done. by rewrite publish_registered.
Qed.

Lemma place_all_lookup xs pl m x : place_all xs pl m !! x = if decide (x ∈ xs) then Some pl else m !! x.
Proof.
  induction xs as [|y xs IH]; cbn [place_all]; [by rewrite decide_False by apply not_elem_of_nil|]. destruct (decide (x = y)) as [->|Hne].
  - rewrite lookup_insert_eq, decide_True; [done | by left].
  - rewrite lookup_insert_ne, IH by done. destruct (decide (x ∈ xs)); [rewrite decide_True; [done | by right] | rewrite decide_False; [done|]; by intros [?|?]%elem_of_cons].
Qed.

(** The loop of AddChunk puts the slots in front of the list and touches nothing else. *)
Lemma carve_spec slot size count : 0 < size -> forall i nx head nx' head' P,
  carve count i slot size nx head = (nx', head') -> (forall j, i <= j < i + Z.of_nat count -> slot + j * size <> 0 /\ ~ P (slot + j * size)) -> list_ok nx head P ->
  list_ok nx' head' (fun x => (exists j, i <= j < i + Z.of_nat count /\ x = slot + j * size) \/ P x) /\
  (forall x, (forall j, i <= j < i + Z.of_nat count -> x <> slot + j * size) -> nx' x = nx x) /\
  (forall h Q, (forall j, i <= j < i + Z.of_nat count -> ~ Q (slot + j * size)) -> list_ok nx h Q -> list_ok nx' h Q) /\ (count <> O -> head' <> 0).
Proof.
  intros Hz. induction count as [|count IH]; intros i nx head nx' head' P E Hd HL; cbn [carve] in E.
  - injection E as <- <-. split_and!; try done. eapply list_ok_ext; [|done]. intros x. split; [by right|]. intros [(j & ? & _)|?]; [lia | done].
  - destruct (Hd i ltac:(lia)) as [Hi0 HiP]. destruct (IH (i + 1) _ _ nx' head' (fun y => y = slot + i * size \/ P y) E) as (H1 & H2 & H3 & H4).
    + intros j Hj. destruct (Hd j ltac:(lia)) as [? HP]. split; [done|]. intros [?|?]; [nia | done].
    + by apply list_ok_push.
    + split_and!.
      * eapply list_ok_ext; [|exact H1]. intros x. split.
        -- intros [(j & Hj & ->)|[->|?]]; [left; exists j; split; [lia | done] | left; exists i; split; [lia | done] | by right].
        -- intros [(j & Hj & ->)|?]; [|by right; right]. destruct (decide (j = i)) as [->|]; [by right; left|]. left. exists j. split; [lia | done].
      * intros x Hx. rewrite H2 by (intros j Hj; apply Hx; lia). apply fn_lookup_insert_ne. pose proof (Hx i ltac:(lia)). congruence.
      * intros h Q HQ HLQ. apply H3; [intros j Hj; apply HQ; lia|]. apply list_ok_write; [apply HQ; lia | done].
      * intros _. destruct count as [|count]; [|by apply H4]. cbn in E. injection E as _ <-. done.
Qed.

Section enter.
Context (w : world) (HI : Inv w) (t : nat) (k : key) (s : Z).
Context (Ht : thread w t = Enter k s).
Context (h : SlabHeader) (Hh : headers w !! s = Some h) (Hk : header_key h = k) (Hsn : slab_next h = slabs w k) (Hnr : ~ registered w s).
Context (Ho : owns w t k) (d : gmap Z Z) (Hd : directories w !! (SlabMapIndex s).1 = Some d).

Let slots := slots_of s (slot_size h) (slot_count h).

Lemma enter_good : good_slab s h.
Proof. by apply HI. Qed.

Lemma enter_entry : d !! (SlabMapIndex s).2 = None.
Proof.
  destruct (d !! (SlabMapIndex s).2) as [s'|] eqn:E; [|done]. exfalso. destruct (i_dir w HI _ _ _ _ Hd E) as [Ei [h' Hh']]. apply Hnr.
  assert (s' = s) as ->; [|by exists d]. apply SlabMapIndex_chunk_inj; [apply (gs_chunk s' h'), (i_header w HI s' h' Hh') | apply (gs_chunk s h), enter_good|]. rewrite Ei. by destruct (SlabMapIndex s).
Qed.

Definition entered_dirs : gmap Z (gmap Z Z) := <[(SlabMapIndex s).1 := <[(SlabMapIndex s).2 := s]> d]> (directories w).

(** The world before AllocatePooled takes the first of the new slots. *)
Definition entered (nx : Z -> Z) (head : Z) : world :=
  set_places (set_free_list (set_next (set_slabs (set_directories (goto w t Idle) entered_dirs) (<[k := s]> (slabs w))) nx) (<[k := head]> (free_list w)))
    (place_all slots (Local k) (places w)).

Lemma entered_registered nx head s' : registered (entered nx head) s' <-> s' = s \/ registered w s'.
Proof.
  unfold registered. cbn. unfold entered_dirs. destruct (decide ((SlabMapIndex s').1 = (SlabMapIndex s).1)) as [E1|Hn1].
  - rewrite E1, lookup_insert_eq. destruct (decide ((SlabMapIndex s').2 = (SlabMapIndex s).2)) as [E2|Hn2].
    + rewrite E2. split; [intros (d' & [= <-] & Hs'); rewrite lookup_insert_eq in Hs'; left; congruence|]. intros [->|(d' & Hd' & Hs')]; [eexists; split; [done | by rewrite lookup_insert_eq]|].
      assert (d' = d) as -> by congruence. rewrite enter_entry in Hs'. done.
    + split.
      * intros (d' & [= <-] & Hs'). rewrite lookup_insert_ne in Hs' by done. right. by exists d.
      * intros [->|(d' & Hd' & Hs')]; [done|]. assert (d' = d) as -> by congruence. eexists. split; [done|]. by rewrite lookup_insert_ne by done.
  - rewrite lookup_insert_ne by done. split; [by right|]. by intros [->|?].
Qed.

Lemma entered_belongs nx head k' x : belongs (entered nx head) k' x <-> belongs w k' x \/ k' = k /\ x ∈ slots.
Proof.
  split.
  - intros (s' & h' & Hr & Hh' & Hk' & Hx). apply entered_registered in Hr as [->|Hr]; [|left; by exists s', h']. right.
    assert (h' = h) as -> by (cbn in Hh'; congruence). split; [congruence|]. by apply (good_slot_iff s h x enter_good).
  - intros [(s' & h' & Hr & Hh' & Hk' & Hx)|[-> Hx]]; [exists s', h'; split; [apply entered_registered; by right | done]|].
    exists s, h. split; [apply entered_registered; by left|]. split_and!; [done | done|]. by apply (good_slot_iff s h x enter_good).
Qed.

(** The new slots were nowhere before. *)
Lemma enter_slots_fresh x : x ∈ slots -> places w !! x = None.
Proof.
  intros Hx. destruct (places w !! x) as [pl|] eqn:Hp; [|done]. exfalso. apply (i_places w HI) in Hp as (s' & h' & Hr & Hh' & _ & Hx').
  apply (good_slot_iff s h x enter_good) in Hx. apply Hnr. by rewrite (slot_slab_unique w HI s h s' h' x Hh Hh' Hx Hx').
Qed.

Lemma entered_place nx head x pl : pl <> Local k -> places (entered nx head) !! x = Some pl <-> places w !! x = Some pl.
Proof.
  intros Hpl. cbn. rewrite place_all_lookup. destruct (decide (x ∈ slots)) as [Hx|Hx]; [|done]. rewrite (enter_slots_fresh x Hx). split; congruence.
Qed.

Lemma enter_size : 64 <= slot_size h /\ 0 < slot_count h.
Proof. pose proof enter_good as [_ Hc Hn _]. apply size_class_facts in Hc as (_ & ? & _ & ? & _). rewrite Hn. lia. Qed.

Lemma slots_index x : x ∈ slots <-> exists j, 0 <= j < 0 + Z.of_nat (Z.to_nat (slot_count h)) /\ x = s + kSlabHeaderBytes + j * slot_size h.
Proof. unfold slots. rewrite slots_of_spec. pose proof enter_size. split; intros (j & Hj & ->); exists j; (split; [lia | done]). Qed.

Lemma entered_inv nx head : carve (Z.to_nat (slot_count h)) 0 (s + kSlabHeaderBytes) (slot_size h) (next w) (free_list w k) = (nx, head) -> Inv (entered nx head) /\ head <> 0.
Proof.
  intros E. pose proof enter_size as [Hz Hcnt].
  assert (forall j, 0 <= j < 0 + Z.of_nat (Z.to_nat (slot_count h)) -> s + kSlabHeaderBytes + j * slot_size h ∈ slots) as Hin by (intros j Hj; apply slots_index; by exists j).
  destruct (carve_spec (s + kSlabHeaderBytes) (slot_size h) _ ltac:(lia) _ _ _ _ _ (fun x => places w !! x = Some (Local k)) E) as (H1 & H2 & H3 & H4); [|apply HI|].
  { intros j Hj. specialize (Hin j Hj). split; [|by rewrite (enter_slots_fresh _ Hin)]. pose proof (gs_chunk s h enter_good) as [? _].
    pose proof (Z.mul_nonneg_nonneg j (slot_size h) ltac:(lia) ltac:(lia)). change kSlabHeaderBytes with 64. lia. }
  split; [|apply H4; lia]. assert (forall x, x ∉ slots -> nx x = next w x) as Hnx by (intros x Hx; apply H2; intros j Hj ->; by apply Hx, Hin).
  split; try apply HI.
  - intros l1 d' l2 s'. cbn. unfold entered_dirs. destruct (decide (l1 = (SlabMapIndex s).1)) as [->|Hne]; [rewrite lookup_insert_eq; intros [= <-] | rewrite lookup_insert_ne by done; apply HI].
    destruct (decide (l2 = (SlabMapIndex s).2)) as [->|Hne2]; [rewrite lookup_insert_eq; intros [= <-]; split; [by destruct (SlabMapIndex s) | by eexists] | rewrite lookup_insert_ne by done; by apply HI].
  - intros k'. destruct (i_slabs w HI k') as (S & HS & Hn & HSin). cbn [slabs entered set_places set_free_list set_next set_slabs]. by_key k k'.
    + exists (s :: S). assert (s ∉ S) as HsS by (intros [? _]%HSin; done). split_and!.
      * cbn. split; [done|]. split; [destruct (gs_chunk s h enter_good); lia|]. exists h. split; [done|]. by rewrite Hsn.
      * by constructor.
      * intros s'. rewrite elem_of_cons, HSin, entered_registered. split; [intros [->|[? ?]]; [split; [by left | by exists h] | split; [by right | done]] | intros [[->|?] ?]; [by left | by right]].
    + exists S. split_and!; [done | done|]. intros s'. rewrite HSin, entered_registered. split; [by intros [? ?]; split; [right|]|]. intros [[->|?] (h' & Hh' & Hk')]; [|by split; [|exists h']].
      exfalso. assert (h' = h) as -> by (cbn in Hh'; congruence). congruence.
  - intros s' Hs'. destruct (i_state w HI s' Hs') as [?|[?|[u Hu]]]; [left; apply entered_registered; by right | by right; left|].
    destruct (decide (u = t)) as [->|Hut]; [|right; right; exists u; cbn; by rewrite fn_lookup_insert_ne]. left. apply entered_registered. left.
    rewrite Ht in Hu. destruct Hu as [k' [?|Eq]]; [done|]. congruence.
  - intros x pl Hp. apply entered_belongs. destruct (decide (pl = Local k)) as [->|Hne]; [|left; apply HI; by apply (entered_place nx head)].
    cbn in Hp. rewrite place_all_lookup in Hp. destruct (decide (x ∈ slots)); [by right | left; by apply (i_places w HI)].
  - intros k' x [Hb|[-> Hx]]%entered_belongs; cbn; rewrite place_all_lookup; destruct (decide (x ∈ slots)); try done. by apply (i_belongs w HI k').
  - intros k'. cbn. by_key k k'.
    + eapply list_ok_ext; [|exact H1]. intros x. rewrite place_all_lookup, <- slots_index. destruct (decide (x ∈ slots)) as [Hx|Hx]; [split; [done | by left] | split; [by intros [?|?] | by right]].
    + eapply list_ok_ext; [intros x; symmetry; apply (entered_place nx head x (Local k')); congruence|]. apply H3; [|apply HI]. intros j Hj. by rewrite (enter_slots_fresh _ (Hin j Hj)).
  - intros k'. eapply list_ok_ext; [intros x; symmetry; apply (entered_place nx head x (Remote k')); congruence|]. apply H3; [|apply HI]. intros j Hj. by rewrite (enter_slots_fresh _ (Hin j Hj)).
  - intros x u k' Hp. apply entered_place in Hp; [|done]. cbn. apply (i_push w HI) in Hp. destruct (decide (u = t)) as [->|Hut]; [rewrite Ht in Hp; by destruct Hp as [?|[? ?]] | by rewrite fn_lookup_insert_ne].
  - intros u. cbn [thread entered set_places set_free_list set_next set_slabs set_directories goto set_thread]. by_key t u; [done|]. pose proof (i_thread w HI u) as Hu.
    assert (forall k' s', owns w u k' -> pending_slab w k' s' -> pending_slab (entered nx head) k' s') as Hps.
    { intros k' s' Ho' (h' & Hh' & Hk' & Hn' & Hr'). assert (k' <> k) as Hkk by (intros ->; destruct Ho as [? _], Ho' as [? _]; congruence). exists h'. split_and!; try done.
      - cbn. by rewrite fn_lookup_insert_ne.
      - rewrite entered_registered. intros [->|?]; [|done]. congruence. }
    destruct (thread w u) eqn:Eu; try done.
    + destruct Hu as [? ?]. split; [done | by apply Hps].
    + destruct Hu as (? & ? & Hsome). split; [done|]. split; [by apply Hps|]. cbn. unfold entered_dirs. destruct (decide ((SlabMapIndex slab).1 = (SlabMapIndex s).1)) as [E1|?]; [rewrite E1, lookup_insert_eq; by eexists | by rewrite lookup_insert_ne by done].
    + apply (entered_place nx head); [done|]. exact Hu.
    + destruct Hu as [Hu Hn]. split; [by apply (entered_place nx head)|]. cbn. rewrite Hnx; [done|]. intros Hx%enter_slots_fresh. congruence.
Qed.

End enter.

End FramePoolSlabs.
