(* ===== verification/FramePoolSteps.v ===== *)
(** * The pool of coroutine frames: every step keeps the invariant

    Destruction, and the effect of every operation on the set of live frames. *)

From stdpp Require Import functions.
From S2P Require Import Prelude FrameMeta FramePool FramePoolInv FramePoolSlabs.

Module FramePoolSteps.
Import FrameMeta FramePool FramePoolInv FramePoolSlabs.

(** ** Releasing slabs *)

(** From [w] to [w'] the slabs [T] were unregistered and given back, and the lists of
    the classes [K] reset. *)
Record released (w w' : world) (T : list Z) (K : list key) : Prop := {
  r_headers s : headers w' !! s = if decide (s ∈ T) then None else headers w !! s;
  r_upstream s : s ∈ upstream w' <-> s ∈ upstream w /\ s ∉ T;
  r_l1 l1 : is_Some (directories w' !! l1) <-> is_Some (directories w !! l1);
  r_dir l1 l2 s : (exists d, directories w' !! l1 = Some d /\ d !! l2 = Some s) <->
    (exists d, directories w !! l1 = Some d /\ d !! l2 = Some s) /\ forall s0, s0 ∈ T -> SlabMapIndex s0 <> (l1, l2);
  r_free k : free_list w' k = if decide (k ∈ K) then 0 else free_list w k;
  r_slabs k : slabs w' k = if decide (k ∈ K) then 0 else slabs w k;
  r_remote k : remote w' k = if decide (k ∈ K) then 0 else remote w k;
  r_next : next w' = next w;
  r_places : places w' = places w;
  r_thread : thread w' = thread w;
  r_owner : owner_thread_ w' = owner_thread_ w;
  r_current : current_pool_ w' = current_pool_ w;
  r_leaked : leaked w' = leaked w;
}.

Lemma released_refl w : released w w [] [].
Proof.
  split; try done.
  - intros s. split; [intros ?; split; [done | apply not_elem_of_nil] | by intros [? _]].
  - intros l1 l2 s. split; [intros ?; split; [done | by intros s0 ?%elem_of_nil] | by intros [? _]].
Qed.

Lemma released_trans w w1 w2 T1 T2 K1 K2 : released w w1 T1 K1 -> released w1 w2 T2 K2 -> released w w2 (T1 ++ T2) (K1 ++ K2).
Proof.
  intros A B. split.
  - intros s. rewrite (r_headers _ _ _ _ B), (r_headers _ _ _ _ A). repeat case_decide; set_solver.
  - intros s. rewrite (r_upstream _ _ _ _ B), (r_upstream _ _ _ _ A). set_solver.
  - intros l1. by rewrite (r_l1 _ _ _ _ B), (r_l1 _ _ _ _ A).
  - intros l1 l2 s. rewrite (r_dir _ _ _ _ B), (r_dir _ _ _ _ A). split; [intros [[? ?] ?]; split; [done|]; intros s0 [?|?]%elem_of_app; auto|].
    intros [? Hs]. split_and!; [done | |]; intros s0 Hs0; apply Hs; set_solver.
  - intros k. rewrite (r_free _ _ _ _ B), (r_free _ _ _ _ A). repeat case_decide; set_solver.
  - intros k. rewrite (r_slabs _ _ _ _ B), (r_slabs _ _ _ _ A). repeat case_decide; set_solver.
  - intros k. rewrite (r_remote _ _ _ _ B), (r_remote _ _ _ _ A). repeat case_decide; set_solver.
  - by rewrite (r_next _ _ _ _ B), (r_next _ _ _ _ A).
  - by rewrite (r_places _ _ _ _ B), (r_places _ _ _ _ A).
  - by rewrite (r_thread _ _ _ _ B), (r_thread _ _ _ _ A).
  - by rewrite (r_owner _ _ _ _ B), (r_owner _ _ _ _ A).
  - by rewrite (r_current _ _ _ _ B), (r_current _ _ _ _ A).
  - by rewrite (r_leaked _ _ _ _ B), (r_leaked _ _ _ _ A).
Qed.

Definition remove_slab (w : world) (s : Z) : world :=
  let w := UnregisterSlab w s in
  let w := set_headers w (delete s (headers w)) in
  set_upstream w (upstream w ∖ {[s]}).

Lemma unregister_entry (D : gmap Z (gmap Z Z)) i1 i2 d0 l1 l2 s : D !! i1 = Some d0 ->
  (exists d, <[i1 := delete i2 d0]> D !! l1 = Some d /\ d !! l2 = Some s) <-> (exists d, D !! l1 = Some d /\ d !! l2 = Some s) /\ (i1, i2) <> (l1, l2).
Proof.
  intros H0. destruct (decide (l1 = i1)) as [->|Hne].
  - rewrite lookup_insert_eq, H0. destruct (decide (l2 = i2)) as [->|Hne2].
    + split; [intros (d & [= <-] & Hs); by rewrite lookup_delete_eq in Hs | by intros [_ ?]].
    + split; [intros (d & [= <-] & Hs); rewrite lookup_delete_ne in Hs by done; split; [by exists d0 | congruence]|]. intros [(d & [= <-] & Hs) _]. eexists. split; [done|]. by rewrite lookup_delete_ne by done.
  - rewrite lookup_insert_ne by done. split; [intros ?; split; [done | congruence] | by intros [? _]].
Qed.

Lemma released_slab w s : chunk_at s -> is_Some (directories w !! (SlabMapIndex s).1) -> released w (remove_slab w s) [s] [].
Proof.
  intros Hs [d Hd]. unfold remove_slab, UnregisterSlab. pose proof (SlabMapIndex_range s) as Hr. destruct (SlabMapIndex s) as [i1 i2] eqn:Ei. cbn [fst] in *.
  rewrite (proj2 (Z.leb_gt kL1Size i1)) by (apply Hr; destruct Hs as (? & _ & ?); change kChunkBytes with 65536 in *; lia). rewrite Hd. split; try done; cbn.
  - intros s'. destruct (decide (s' = s)) as [->|Hne]; [rewrite lookup_delete_eq, decide_True; [done | set_solver] | rewrite lookup_delete_ne, decide_False; [done | set_solver | done]].
  - intros s'. set_solver.
  - intros l1. destruct (decide (l1 = i1)) as [->|Hne]; [rewrite lookup_insert_eq, Hd; split; by eexists | by rewrite lookup_insert_ne by done].
  - intros l1 l2 s'. rewrite (unregister_entry _ i1 i2 d l1 l2 s' Hd). split; intros [? H2]; (split; [done|]); [intros s0 ->%list_elem_of_singleton; by rewrite Ei|].
    rewrite <- Ei. apply H2. by apply list_elem_of_singleton.
Qed.

Lemma slab_chain_released w w' T K l : released w w' T K -> forall head, (forall s, s ∈ l -> s ∉ T) -> slab_chain (headers w) head l -> slab_chain (headers w') head l.
Proof.
  intros HR. induction l as [|s l IH]; intros head Hl; cbn; [done|]. intros (-> & H0 & h & Hh & Hc). split_and!; [done | done|]. exists h. split.
  - rewrite (r_headers _ _ _ _ HR), decide_False; [done|]. apply Hl. by left.
  - apply IH; [|done]. intros s' Hs'. apply Hl. by right.
Qed.

Lemma release_slabs_spec fuel : forall w head S, slab_chain (headers w) head S -> NoDup S -> (length S < fuel)%nat ->
  (forall s, s ∈ S -> chunk_at s /\ is_Some (directories w !! (SlabMapIndex s).1)) -> exists w', release_slabs fuel head w = Val w' /\ released w w' S [].
Proof.
  induction fuel as [|fuel IH]; intros w head S Hc Hn Hf HS; [lia|]. cbn [release_slabs]. destruct S as [|s S]; cbn in Hc.
  - subst head. exists w. split; [done | apply released_refl].
  - destruct Hc as (-> & H0 & h & Hh & Hc). rewrite (proj2 (Z.eqb_neq s 0)) by done. rewrite Hh. apply NoDup_cons in Hn as [Hs Hn]. cbn in Hf.
    destruct (HS s) as [Hch Hl1]; [by left|]. pose proof (released_slab w s Hch Hl1) as HR.
    destruct (IH (remove_slab w s) (slab_next h) S) as (w' & E & HR').
    + apply (slab_chain_released w _ [s] []); [done | | done]. intros s' Hs' ->%list_elem_of_singleton. done.
    + done.
    + lia.
    + intros s' Hs'. destruct (HS s') as [? ?]; [by right|]. split; [done|]. by apply (r_l1 _ _ _ _ HR).
    + exists w'. split; [exact E|]. apply (released_trans w (remove_slab w s) w' [s] S [] [] HR HR').
Qed.

Lemma reset_lookup (f : key -> Z) k k' : (<[k := 0]> f) k' = if decide (k' ∈ [k]) then 0 else f k'.
Proof.
  destruct (decide (k' = k)) as [->|Hne]; [rewrite fn_lookup_insert, decide_True; [done | by apply list_elem_of_singleton]|].
  rewrite fn_lookup_insert_ne, decide_False; [done | by intros ?%list_elem_of_singleton | done].
Qed.

Lemma release_class_spec w k S : slab_chain (headers w) (slabs w k) S -> NoDup S -> (length S <= size (headers w))%nat ->
  (forall s, s ∈ S -> chunk_at s /\ is_Some (directories w !! (SlabMapIndex s).1)) -> exists w', release_class w k = Val w' /\ released w w' S [k].
Proof.
  intros Hc Hn Hf HS. unfold release_class. destruct (release_slabs_spec (Datatypes.S (size (headers w))) w (slabs w k) S Hc Hn ltac:(lia) HS) as (w1 & -> & HR). rewrite bind_val.
  eexists. split; [reflexivity|]. rewrite <- (app_nil_r S). change [k] with ([] ++ [k]). apply (released_trans w w1 _ S [] [] [k] HR). split; try done; cbn.
  - intros s. split; [intros ?; split; [done | apply not_elem_of_nil] | by intros [? _]].
  - intros l1 l2 s. split; [intros ?; split; [done | by intros s0 ?%elem_of_nil] | by intros [? _]].
  - intros k'. apply reset_lookup.
  - intros k'. apply reset_lookup.
  - intros k'. apply reset_lookup.
Qed.

(** A slab of a class of [K]. *)
Definition slab_of (w : world) (K : list key) (s : Z) : Prop := registered w s /\ exists h, headers w !! s = Some h /\ header_key h ∈ K.

Lemma release_classes_spec w p cs : Inv w -> forall w1 T K, released w w1 T K -> (forall s, s ∈ T <-> slab_of w K s) -> NoDup cs -> (forall c, c ∈ cs -> (p, c) ∉ K) ->
  exists w2 T2, each_class release_class p cs w1 = Val w2 /\ released w w2 T2 (K ++ ((fun c => (p, c)) <$> cs)) /\ forall s, s ∈ T2 <-> slab_of w (K ++ ((fun c => (p, c)) <$> cs)) s.
Proof.
  intros HI. induction cs as [|c cs IH]; intros w1 T K HR HT Hn HK; cbn [each_class fmap list_fmap].
  - exists w1, T. rewrite app_nil_r. done.
  - apply NoDup_cons in Hn as [Hc Hn]. destruct (i_slabs w HI (p, c)) as (S & HS & HnS & HSin).
    assert (forall s, s ∈ S -> s ∉ T) as HST.
    { intros s (_ & h & Hh & Hk)%HSin [_ (h' & Hh' & Hk')]%HT. apply (HK c); [by left|]. rewrite <- Hk. by replace h with h' by congruence. }
    destruct (release_class_spec w1 (p, c) S) as (w2 & -> & HR2).
    + rewrite (r_slabs _ _ _ _ HR), decide_False by (apply HK; by left). by apply (slab_chain_released w w1 T K).
    + done.
    + rewrite <- size_dom. assert (length S = size (list_to_set S : gset Z)) as -> by (by rewrite size_list_to_set). apply subseteq_size. intros s Hs%elem_of_list_to_set. apply elem_of_dom.
      rewrite (r_headers _ _ _ _ HR), decide_False by auto. apply HSin in Hs as (_ & h & Hh & _). by exists h.
    + intros s Hs. apply HSin in Hs as ((d & Hd & _) & h & Hh & _). split; [apply (gs_chunk s h), (i_header w HI s h Hh)|]. apply (r_l1 _ _ _ _ HR). by exists d.
    + rewrite bind_val. destruct (IH w2 (T ++ S) (K ++ [(p, c)])) as (w3 & T3 & E & HR3 & HT3).
      * exact (released_trans _ _ _ _ _ _ _ HR HR2).
      * intros s. rewrite elem_of_app, HT, HSin. unfold slab_of. split.
        -- intros [(Hr & h & Hh & Hk)|(Hr & h & Hh & Hk)]; (split; [done|]; exists h; split; [done|]); apply elem_of_app; [by left | right; by apply list_elem_of_singleton].
        -- intros (Hr & h & Hh & [Hk|Hk%list_elem_of_singleton]%elem_of_app); [left | right]; (split; [done|]; by exists h).
      * done.
      * intros c' Hc' [Hk|Hk%list_elem_of_singleton]%elem_of_app; [apply (HK c'); [by right | done] | congruence].
      * exists w3, T3. rewrite <- app_assoc in HR3, HT3. done.
Qed.

Definition pool_keys (p : Z) : list key := (fun c => (p, c)) <$> seq 0 kSizeClassCount.

Lemma pool_keys_spec p k : k ∈ pool_keys p <-> k.1 = p /\ (k.2 < kSizeClassCount)%nat.
Proof.
  unfold pool_keys. rewrite list_elem_of_fmap. split.
  - intros (c & -> & Hc). apply elem_of_seq in Hc. cbn [fst snd]. lia.
  - destruct k as [q c]. cbn [fst snd]. intros [-> Hc]. exists c. split; [done|]. apply elem_of_seq. lia.
Qed.

Lemma ReleaseChunks_spec w p : Inv w -> exists w' T, ReleaseChunks w p = Val w' /\ released w w' T (pool_keys p) /\ forall s, s ∈ T <-> slab_of w (pool_keys p) s.
Proof.
  intros HI. destruct (release_classes_spec w p (seq 0 kSizeClassCount) HI w [] []) as (w' & T & E & HR & HT).
  - apply released_refl.
  - intros s. split; [by intros ?%elem_of_nil|]. by intros (_ & h & _ & ?%elem_of_nil).
  - apply NoDup_seq.
  - intros c _. apply not_elem_of_nil.
  - by exists w', T.
Qed.

(** DrainRemote over all classes. *)
Lemma DrainRemote_spec w p cs : Inv w -> exists w', each_class (fun w k => if remote w k =? 0 then Val w else drain_class w k) p cs w = Val w' /\ Inv w' /\ same_slabs w w' /\ thread w' = thread w /\
  (forall x, places w' !! x = match places w !! x with Some (Remote k) => if decide (k.1 = p /\ k.2 ∈ cs) then Some (Local k) else Some (Remote k) | o => o end).
Proof.
  revert w. induction cs as [|c cs IH]; intros w HI; cbn [each_class].
  - exists w. split_and!; try done. intros x. destruct (places w !! x) as [[]|]; try done. rewrite decide_False; [done|]. by intros [_ ?%elem_of_nil].
  - assert (exists w1, (if remote w (p, c) =? 0 then Val w else drain_class w (p, c)) = Val w1 /\ Inv w1 /\ same_slabs w w1 /\ thread w1 = thread w /\ drained (p, c) (places w) (places w1)) as (w1 & -> & HI1 & Hss & Hth & Hd).
    { destruct (Z.eqb_spec (remote w (p, c)) 0) as [E|E].
      - exists w. split_and!; try done. intros x. rewrite decide_False; [done|]. pose proof (i_remote w HI (p, c)) as HR. rewrite E in HR. exact (list_ok_nil _ _ HR x).
      - destruct (drain_class_inv w (p, c) HI) as (w1 & ? & ? & ? & ? & _ & ?). by exists w1. }
    rewrite bind_val. destruct (IH w1 HI1) as (w' & E & HI' & Hss' & Hth' & Hpl). exists w'. split_and!; [done | done | | congruence|].
    + destruct Hss, Hss'. split; congruence.
    + intros x. rewrite (Hpl x), (Hd x). destruct (decide (places w !! x = Some (Remote (p, c)))) as [->|Hne].
      * rewrite decide_True; [done|]. split; [done | by left].
      * destruct (places w !! x) as [[k|k|k|u k]|]; try done. destruct (decide (k.1 = p /\ k.2 ∈ cs)) as [[? ?]|Hn]; [rewrite decide_True; [done|]; split; [done | by right]|].
        rewrite decide_False; [done|]. intros [H1 [H2|H2]%elem_of_cons]; [|by apply Hn]. apply Hne. destruct k as [q b]. cbn in *. by subst.
Qed.

(** ** Destruction *)

Section destroy.
Context (w w1 : world) (HI : Inv w) (p : Z) (T : list Z).
Context (HR : released w w1 T (pool_keys p)) (HT : forall s, s ∈ T <-> slab_of w (pool_keys p) s).
Context (Hth : forall u, works_on (thread w u) <> Some p) (Hcur : forall u, current_pool_ w u <> p).

Definition destroyed : world :=
  set_owner (set_places w1 (filter (fun '(_, pl) => (place_key pl).1 <> p) (places w1))) (<[p := None]> (owner_thread_ w1)).

Lemma destroyed_place x pl : places destroyed !! x = Some pl <-> places w !! x = Some pl /\ (place_key pl).1 <> p.
Proof. cbn. rewrite (r_places _ _ _ _ HR). rewrite map_lookup_filter_Some. done. Qed.

Lemma registered_chunk s : registered w s -> exists h, headers w !! s = Some h /\ good_slab s h.
Proof. intros Hr. destruct (registered_header w s HI Hr) as [h Hh]. exists h. split; [done | by apply HI]. Qed.

Lemma destroyed_registered s : registered destroyed s <-> registered w s /\ s ∉ T.
Proof.
  unfold registered. cbn. rewrite (r_dir _ _ _ _ HR). split.
  - intros [Hr Hs]. split; [done|]. intros HsT. apply (Hs s HsT). by destruct (SlabMapIndex s).
  - intros [Hr Hs]. split; [done|]. intros s0 Hs0 E. apply Hs. destruct (registered_chunk s Hr) as (h & Hh & Hg). apply HT in Hs0 as Hs1. destruct Hs1 as (Hr0 & _).
    destruct (registered_chunk s0 Hr0) as (h0 & Hh0 & Hg0). replace s with s0; [done|]. apply SlabMapIndex_chunk_inj; [apply (gs_chunk s0 h0 Hg0) | apply (gs_chunk s h Hg)|]. rewrite E. by destruct (SlabMapIndex s).
Qed.

Lemma destroyed_header s : headers destroyed !! s = if decide (s ∈ T) then None else headers w !! s.
Proof. apply HR. Qed.

Lemma released_owner s h : headers w !! s = Some h -> registered w s -> s ∈ T <-> slab_owner h = p.
Proof.
  intros Hh Hr. rewrite HT. unfold slab_of. split.
  - intros (_ & h' & Hh' & Hk). apply pool_keys_spec in Hk as [Hk _]. cbn in Hk. congruence.
  - intros Ho. split; [done|]. exists h. split; [done|]. apply pool_keys_spec. split; [done|]. apply (size_class_facts _ _ (gs_class s h (i_header w HI s h Hh))).
Qed.

Lemma destroyed_belongs k x : belongs destroyed k x <-> belongs w k x /\ k.1 <> p.
Proof.
  split.
  - intros (s & h & [Hr Hs]%destroyed_registered & Hh & <- & Hx). rewrite destroyed_header, decide_False in Hh by done. split; [by exists s, h|]. intros Ho. apply Hs. by apply (released_owner s h).
  - intros [(s & h & Hr & Hh & <- & Hx) Hk]. assert (s ∉ T) as Hs by (intros Ho%(released_owner s h Hh Hr); by apply Hk). exists s, h. split_and!; [by apply destroyed_registered | | done | done]. by rewrite destroyed_header, decide_False.
Qed.

Lemma destroyed_list (f : key -> Z) (f' : key -> Z) (P : key -> place) k : (forall k, place_key (P k) = k) -> (forall k, f' k = if decide (k ∈ pool_keys p) then 0 else f k) ->
  list_ok (next w) (f k) (fun x => places w !! x = Some (P k)) -> list_ok (next destroyed) (f' k) (fun x => places destroyed !! x = Some (P k)).
Proof.
  intros HP Hf HL. cbn [next destroyed set_owner set_places]. rewrite (r_next _ _ _ _ HR), Hf. destruct (decide (k ∈ pool_keys p)) as [Hk|Hk].
  - apply list_ok_empty. intros x [_ Hx]%destroyed_place. rewrite HP in Hx. by apply pool_keys_spec in Hk as [? _].
  - apply list_ok_ext with (2 := HL). intros x. rewrite destroyed_place, HP. split; [|by intros [? _]]. intros Hx. split; [done|]. intros Hkp. apply Hk, pool_keys_spec. split; [done|].
    destruct (i_places w HI x _ Hx) as (s & h & _ & Hh & Hkh & _). rewrite HP in Hkh. rewrite <- Hkh. apply (size_class_facts _ _ (gs_class s h (i_header w HI s h Hh))).
Qed.

Lemma destroyed_pending k s : k.1 <> p -> pending_slab w k s -> pending_slab destroyed k s.
Proof.
  intros Hk (h & Hh & Hkh & Hn & Hr). exists h. split_and!; [|done | |].
  - rewrite destroyed_header, decide_False; [done|]. by intros [? _]%HT.
  - cbn. rewrite (r_slabs _ _ _ _ HR), decide_False; [done|]. by intros [? _]%pool_keys_spec.
  - by intros [? _]%destroyed_registered.
Qed.

Lemma destroyed_owner q u : q <> p -> owner_thread_ w q = Some u -> owner_thread_ destroyed q = Some u.
Proof. intros Hq Ho. cbn. rewrite (r_owner _ _ _ _ HR). by rewrite fn_lookup_insert_ne. Qed.

Lemma destroyed_pc u : pc_ok destroyed u (thread w u).
Proof.
  pose proof (i_thread w HI u) as Hu. pose proof (Hth u) as Hw. destruct (thread w u) as [|k cont|q c|k s|k s|k x|k x old]; cbn in Hw; try done.
  - destruct Hu as (? & ? & ?). split_and!; try done. apply destroyed_owner; [congruence | done].
  - destruct Hu as (? & ?). split_and!; try done. apply destroyed_owner; [congruence | done].
  - destruct Hu as ((? & ? & ?) & ?). split; [split_and!; try done; apply destroyed_owner; [congruence | done]|]. apply destroyed_pending; [congruence | done].
  - destruct Hu as ((? & ? & ?) & ? & ?). split; [split_and!; try done; apply destroyed_owner; [congruence | done]|]. split; [apply destroyed_pending; [congruence | done]|]. by apply (r_l1 _ _ _ _ HR).
  - apply destroyed_place. split; [done|]. cbn. congruence.
  - destruct Hu as [? Hn]. split; [apply destroyed_place; split; [done|]; cbn; congruence|]. cbn. by rewrite (r_next _ _ _ _ HR).
Qed.

Lemma destroyed_inv : Inv destroyed.
Proof.
  assert (thread destroyed = thread w) as Et by apply HR. split; try rewrite Et.
  - intros s h. rewrite destroyed_header. case_decide; [done|]. apply HI.
  - intros s. rewrite destroyed_header. cbn. rewrite (r_upstream _ _ _ _ HR), (i_upstream w HI). case_decide; [split; [by intros [_ ?] | by intros [? ?]] | tauto].
  - intros l1 d l2 s Hd Hs. destruct (proj1 (r_dir _ _ _ _ HR l1 l2 s) (ex_intro _ d (conj Hd Hs))) as [(d0 & Hd0 & Hs0) Hns]. destruct (i_dir w HI _ _ _ _ Hd0 Hs0) as [Ei Hh]. split; [done|].
    rewrite destroyed_header, decide_False; [done|]. intros HsT. by apply (Hns s).
  - intros k. destruct (i_slabs w HI k) as (S & HS & Hn & Hin). cbn [slabs destroyed set_owner set_places]. rewrite (r_slabs _ _ _ _ HR). destruct (decide (k ∈ pool_keys p)) as [Hk|Hk].
    + exists []. split_and!; [done | constructor|]. intros s. split; [by intros ?%elem_of_nil|]. intros ([Hr Hs]%destroyed_registered & h & Hh & Hkh). exfalso. apply Hs, HT. split; [done|]. exists h. rewrite destroyed_header, decide_False in Hh by done. by rewrite Hkh.
    + assert (forall s, s ∈ S -> s ∉ T) as HST.
      { intros s (_ & h & Hh & Hkh)%Hin (_ & h' & Hh' & Hk')%HT. apply Hk. rewrite <- Hkh. by replace h with h' by congruence. }
      exists S. split_and!; [by apply (slab_chain_released w w1 T (pool_keys p)) | done|]. intros s. rewrite Hin, destroyed_registered, destroyed_header. split.
      * intros (Hr & h & Hh & Hkh). assert (s ∉ T) as Hs by (apply HST, Hin; split; [done | by exists h]). split; [done|]. exists h. by rewrite decide_False.
      * intros ([Hr Hs] & h & Hh & Hkh). rewrite decide_False in Hh by done. split; [done | by exists h].
  - intros s. rewrite destroyed_header. case_decide as Hs; [by intros [? ?]|]. intros Hh. rewrite destroyed_registered. cbn. rewrite (r_leaked _ _ _ _ HR).
    destruct (i_state w HI s Hh) as [?|[?|?]]; [left; done | by right; left | by right; right].
  - intros x pl [Hx Hk]%destroyed_place. apply destroyed_belongs. split; [by apply HI | done].
  - intros k x [Hb Hk]%destroyed_belongs. destruct (i_belongs w HI k x Hb) as [pl Hx]. exists pl. apply destroyed_place. split; [done|]. by rewrite (belongs_key w HI _ _ _ (i_places w HI x pl Hx) Hb).
  - intros k. apply (destroyed_list (free_list w) (free_list destroyed) Local k); [done | apply HR | apply HI].
  - intros k. apply (destroyed_list (remote w) (remote destroyed) Remote k); [done | apply HR | apply HI].
  - intros x u k [Hx _]%destroyed_place. by apply HI.
  - apply destroyed_pc.
  - intros u. cbn [current_pool_ destroyed set_owner set_places]. rewrite (r_current _ _ _ _ HR). intros Hu. apply destroyed_owner; [apply Hcur|]. by apply HI.
Qed.

End destroy.

Lemma Destroy_inv w t p : Inv w -> allowed w t (ADestroy p) ->
  exists w', Destroy w t p = Val (w', Silent) /\ Inv w' /\ thread w' = thread w /\ leaked w' = leaked w /\
    (forall x k, places w' !! x = Some (Live k) <-> places w !! x = Some (Live k)) /\
    (forall s, s ∈ upstream w' <-> s ∈ upstream w /\ ~ (registered w s /\ exists h, headers w !! s = Some h /\ slab_owner h = p)) /\
    (forall x pl, places w' !! x = Some pl -> (place_key pl).1 <> p).
Proof.
  intros HI (Ht & Hp0 & Hpl & Hth & Hcur). unfold Destroy.
  set (w0 := if current_pool_ w t =? p then set_current w (<[t := 0]> (current_pool_ w)) else w).
  assert (Inv w0 /\ same_slabs w (set_current w0 (current_pool_ w)) /\ thread w0 = thread w /\ places w0 = places w /\ forall u, current_pool_ w0 u <> p) as (HI0 & Hss & Eth & Epl & Hc0).
  { subst w0. destruct (Z.eqb_spec (current_pool_ w t) p) as [E|E].
    - split_and!; try done.
      + assert (Inv (set_current (set_owner w (owner_thread_ w)) (<[t := 0]> (current_pool_ w)))) as HI'; [|by destruct HI']. apply pool_owner_inv; [done | done|]. intros u. destruct (decide (u = t)) as [->|Hu]; [by rewrite fn_lookup_insert | rewrite fn_lookup_insert_ne by done; apply HI].
      + intros u. cbn. destruct (decide (u = t)) as [->|Hu]; [rewrite fn_lookup_insert; congruence | rewrite fn_lookup_insert_ne by done; intros ?; by apply Hu, Hcur].
    - split_and!; try done. intros u Hu. specialize (Hcur u Hu) as ->. done. }
  destruct (DrainRemote_spec w0 p (seq 0 kSizeClassCount) HI0) as (w1 & E1 & HI1 & Hss1 & Et1 & Hpl1). unfold DrainRemote. rewrite E1, bind_val.
  destruct (ReleaseChunks_spec w1 p HI1) as (w2 & T & E2 & HR & HT). rewrite E2, bind_val. exists (destroyed w2 p). split; [done|].
  assert (same_slabs w (set_current w1 (current_pool_ w))) as Hs1 by (destruct Hss, Hss1; split; cbn in *; congruence).
  split_and!.
  - apply (destroyed_inv w1 w2 HI1 p T HR HT); [intros u; by rewrite Et1, Eth | destruct Hss1 as [_ _ _ _ _ _ ->]; done].
  - cbn. rewrite (r_thread _ _ _ _ HR). congruence.
  - cbn. rewrite (r_leaked _ _ _ _ HR). by destruct Hs1.
  - intros x k. rewrite (destroyed_place w1 w2 p T HR). rewrite (Hpl1 x), Epl. split.
    + intros [Hx _]. destruct (places w !! x) as [[k'|k'|k'|u k']|]; try congruence. destruct (decide _); congruence.
    + intros Hx. rewrite Hx. split; [done|]. cbn. intros Hk. destruct (Hpl x (Live k) Hx Hk) as [c [?|?]]; done.
  - intros s. cbn. rewrite (r_upstream _ _ _ _ HR), HT. unfold slab_of. destruct Hs1 as [Eh Eu Ed _ _ _ _]. cbn in Eh, Eu, Ed. rewrite Eh, Eu, (registered_eq w w1 s Ed).
    split; intros [Hs Hns]; (split; [done|]); intros (Hr & h & Hh & Hk); apply Hns; (split; [done|]); exists h; (split; [done|]).
    + apply pool_keys_spec. split; [done|]. apply (size_class_facts _ _ (gs_class s h (i_header w HI s h Hh))).
    + by apply pool_keys_spec in Hk as [? _].
  - intros x pl Hx. by apply (destroyed_place w1 w2 p T HR) in Hx as [_ ?].
Qed.

(** ** The effect of the operations on the live frames *)

Definition lives (w : world) (x : Z) (k : key) : Prop := places w !! x = Some (Live k).

Definition same_live (w w' : world) : Prop := forall x k, lives w' x k <-> lives w x k.
Definition gains (w w' : world) (x : Z) (k : key) : Prop := (forall k', ~ lives w x k') /\ forall y k', lives w' y k' <-> lives w y k' \/ y = x /\ k' = k.
Definition loses (w w' : world) (x : Z) : Prop := forall y k', lives w' y k' <-> lives w y k' /\ y <> x.

Lemma same_live_places w w' : places w' = places w -> same_live w w'.
Proof. intros E x k. unfold lives. by rewrite E. Qed.

Lemma gains_insert w w' x k : (forall k', ~ lives w x k') -> places w' = <[x := Live k]> (places w) -> gains w w' x k.
Proof.
  intros Hx E. split; [done|]. intros y k'. unfold lives. rewrite E. destruct (decide (y = x)) as [->|Hne]; [rewrite lookup_insert_eq | rewrite lookup_insert_ne by done; intuition congruence].
  split; [intros [= ->]; by right|]. intros [?|[_ ->]]; [by destruct (Hx k') | done].
Qed.

Lemma same_live_insert w w' x pl : (forall k, ~ lives w x k) -> (forall k, pl <> Live k) -> places w' = <[x := pl]> (places w) -> same_live w w'.
Proof.
  intros Hx Hpl E y k. unfold lives. rewrite E. destruct (decide (y = x)) as [->|Hne]; [rewrite lookup_insert_eq | by rewrite lookup_insert_ne by done].
  split; [intros [= ->]; by destruct (Hpl k) | by intros ?%Hx].
Qed.

Lemma gains_after w w1 w' x k : same_live w w1 -> gains w1 w' x k -> gains w w' x k.
Proof. intros Hs [H1 H2]. split; [intros k' ?%Hs; by destruct (H1 k')|]. intros y k'. by rewrite H2, (Hs y k'). Qed.

Lemma same_live_trans w w1 w' : same_live w w1 -> same_live w1 w' -> same_live w w'.
Proof. intros H1 H2 x k. by rewrite (H2 x k), (H1 x k). Qed.

Lemma drained_live k w w' : drained k (places w) (places w') -> same_live w w'.
Proof. intros Hd x k'. unfold lives. rewrite (Hd x). case_decide as E; [rewrite E; split; congruence | done]. Qed.

(** How far an allocation is from its end. *)
Definition alloc_pc (q : pc) : option (key * nat) :=
  match q with Drain k KAllocate => Some (k, 3%nat) | Publish k _ => Some (k, 2%nat) | Enter k _ => Some (k, 1%nat) | _ => None end.

(** One step of an allocation in class [k]: it returns a frame that was not live, or
    is closer to its end, or throws, which it does only before it has a chunk. *)
Definition alloc_result (w w' : world) (t : nat) (k : key) (e : event) (n : nat) : Prop :=
  match e with
  | Returned x => x <> 0 /\ gains w w' x k /\ thread w' t = Idle
  | Silent => same_live w w' /\ exists n', alloc_pc (thread w' t) = Some (k, n') /\ (n' < n)%nat
  | Threw => same_live w w' /\ thread w' t = Idle /\ (3 <= n)%nat
  | Freed _ => False
  end.

Lemma alloc_result_after w w1 w' t k e n n1 : same_live w w1 -> (n1 <= n)%nat -> alloc_result w1 w' t k e n1 -> alloc_result w w' t k e n.
Proof.
  intros Hs Hn. destruct e as [|x| |b]; cbn; [|intros (? & ? & ?); split_and!; [done | by eapply gains_after | done] | intros (? & ? & ?); split_and!; [by eapply same_live_trans | done | lia] | done].
  intros [? (n' & ? & ?)]. split; [by eapply same_live_trans|]. exists n'. split; [done | lia].
Qed.

Lemma pop_node_result w t k n : Inv w -> (thread w t = Idle \/ exists c, thread w t = Drain k c) -> free_list w k <> 0 ->
  exists w' e, pop_node w t k = Val (w', e) /\ Inv w' /\ alloc_result w w' t k e n.
Proof.
  intros HI Ht H0. destruct (pop_node_inv w t k HI Ht H0) as (w' & E & HI' & Hx & _). exists w', (Returned (free_list w k)). split; [done|]. split; [done|].
  unfold pop_node in E. rewrite (proj2 (Z.eqb_neq _ _)) in E by done. injection E as <-. cbn. split_and!; [done | | by rewrite fn_lookup_insert].
  apply gains_insert; [|done]. intros k' Hl. unfold lives in Hl. congruence.
Qed.

Lemma enter_slab_result w t k s : Inv w -> thread w t = Enter k s -> exists w' e, enter_slab w t k s = Val (w', e) /\ Inv w' /\ alloc_result w w' t k e 1.
Proof.
  intros HI Ht. pose proof (i_thread w HI t) as Hok. rewrite Ht in Hok. destruct Hok as (Ho & (h & Hh & Hk & Hsn & Hnr) & [d Hd]).
  pose proof (i_header w HI s h Hh) as [_ Hcls Hcnt _]. assert (nth k.2 kSizeClasses 0 = slot_size h) as Enth.
  { apply nth_lookup_Some. by rewrite <- Hk. }
  unfold enter_slab. destruct (SlabMapIndex s) as [l1 l2] eqn:Ei. assert (directories w !! l1 = Some d) as Hd1 by exact Hd. rewrite <- Ei in Hd.
  pose proof (enter_entry w HI s h Hh Hnr d Hd) as He. rewrite Ei in He. cbn [snd] in He. rewrite Hd1, He, check_true, bind_val, Enth, <- Hcnt. cbn zeta.
  destruct (carve (Z.to_nat (slot_count h)) 0 (s + kSlabHeaderBytes) (slot_size h) (next w) (free_list w k)) as [nx head] eqn:Ec.
  destruct (entered_inv w HI t k s Ht h Hh Hk Hsn Hnr Ho d Hd nx head Ec) as [HI1 H0]. set (w1 := entered w t k s h d nx head) in *.
  cbn [next goto set_thread set_directories set_slabs free_list]. rewrite Ec.
  assert (exists w' e, pop_node w1 t k = Val (w', e) /\ Inv w' /\ alloc_result w1 w' t k e 1) as (w' & e & E & HI' & HA).
  { apply pop_node_result; [done | left; unfold w1; cbn; by rewrite fn_lookup_insert | unfold w1; cbn; by rewrite fn_lookup_insert]. }
  exists w', e. split; [|split; [done | apply (alloc_result_after w w1 w' t k e 1 1); [|done | done]]].
  - rewrite <- E. unfold w1, entered, entered_dirs. rewrite Ei. done.
  - intros x k'. unfold lives. unfold w1. by rewrite (entered_place w HI t k s h Hh Hnr d nx head x (Live k')).
Qed.

Lemma chunk_mask a : 0 <= a -> a mod kChunkBytes = 0 -> (Z.land a (kChunkBytes - 1) =? 0) = true.
Proof. intros Ha Hm. change (kChunkBytes - 1) with (Z.ones 16). rewrite Z.land_ones by lia. change (2 ^ 16) with kChunkBytes. by rewrite Hm. Qed.

Lemma class_slots_positive (k : key) : (k.2 < kSizeClassCount)%nat -> 0 < SlotsPerChunk (nth k.2 kSizeClasses 0).
Proof.
  intros Hc. change kSizeClassCount with (length kSizeClasses) in Hc. destruct (lookup_lt_is_Some_2 _ _ Hc) as [z Hz]. rewrite (nth_lookup_Some _ _ _ _ Hz). apply size_class_facts in Hz. lia.
Qed.

Lemma new_pending w k a lk : headers w !! a = None -> Inv w -> pending_slab (with_chunk w k a lk) k a.
Proof.
  intros Ha HI. exists (new_header w k). split_and!; [cbn; apply lookup_insert_eq | by destruct k | done|].
  intros Hr. destruct (registered_header w a HI Hr) as [h Hh]. congruence.
Qed.

Lemma AddChunk_result w t k chunk created : Inv w -> owns w t k -> (thread w t = Idle \/ exists c, thread w t = Drain k c) -> chunk_ok w chunk ->
  exists w' e, AddChunk w t k chunk created = Val (w', e) /\ Inv w' /\ alloc_result w w' t k e 3.
Proof.
  intros HI Ho Ht Hch. destruct Ho as (Ho1 & Ho2 & Ho3). unfold AddChunk. rewrite (proj2 (Z.ltb_lt 0 _) (class_slots_positive k Ho3)), check_true, bind_val.
  assert (forall s, ~ holds_slab (thread w t) s) as Hnh by (intros s [k' Hs]; destruct Ht as [E|[c E]]; rewrite E in Hs; by destruct Hs).
  assert (forall k' x, ~ pushes (thread w t) k' x) as Hnp by (intros k' x Hs; destruct Ht as [E|[c E]]; rewrite E in Hs; by destruct Hs as [?|[? ?]]).
  destruct chunk as [a|]; [|eexists _, _; split; [reflexivity|]; split; [apply goto_inv; [done | done | by intros s ?%Hnh | by intros k' x ?%Hnp] | cbn; split_and!; [done | by rewrite fn_lookup_insert | lia]]].
  destruct Hch as (Ha0 & Ham & Hae & Haf). assert (headers w !! a = None) as Hna.
  { destruct (headers w !! a) as [h|] eqn:E; [|done]. exfalso. apply Haf, (i_upstream w HI). by exists h. }
  assert (chunk_at a) as Hca by done. rewrite (chunk_mask a ltac:(lia) Ham), check_true, !bind_val. pose proof (SlabMapIndex_range a ltac:(change kChunkBytes with 65536 in *; lia)) as Hr.
  destruct (SlabMapIndex a) as [l1 l2] eqn:Ei. cbn [fst] in Hr. rewrite (proj2 (Z.ltb_lt l1 kL1Size)) by lia. rewrite check_true, bind_val. cbn [directories set_headers set_upstream].
  assert (forall q lk, leaked w ⊆ lk -> (a ∈ lk \/ holds_slab q a) -> pc_ok (with_chunk w k a lk) t q -> Inv (goto (with_chunk w k a lk) t q)) as Hadd
    by (intros q lk H1 H2 H3; by apply add_chunk_inv).
  assert (owns (with_chunk w k a (leaked w)) t k) as Ho' by done. pose proof (new_pending w k a (leaked w) Hna HI) as Hpend.
  destruct (directories w !! l1) as [d|] eqn:Hd; [|destruct created]; eexists _, _; (split; [reflexivity|]); (split; [|cbn]).
  - apply (Hadd (Enter k a) (leaked w)); [done | right; exists k; by right|]. split; [done|]. split; [done|]. rewrite Ei. cbn. rewrite Hd. by eexists.
  - split; [done|]. rewrite fn_lookup_insert. exists 1%nat. split; [done | lia].
  - apply (Hadd (Publish k a) (leaked w)); [done | right; exists k; by left|]. split; done.
  - split; [done|]. rewrite fn_lookup_insert. exists 2%nat. split; [done | lia].
  - apply (Hadd Idle ({[a]} ∪ leaked w)); [set_solver | left; set_solver | done].
  - split_and!; [done | by rewrite fn_lookup_insert | lia].
Qed.

Lemma allocate_after_drain_result w t k chunk created : Inv w -> owns w t k -> (thread w t = Idle \/ exists c, thread w t = Drain k c) -> chunk_ok w chunk ->
  exists w' e, allocate_after_drain w t k chunk created = Val (w', e) /\ Inv w' /\ alloc_result w w' t k e 3.
Proof.
  intros HI Ho Ht Hch. unfold allocate_after_drain. destruct (Z.eqb_spec (free_list w k) 0) as [E|E]; [by apply AddChunk_result | by apply pop_node_result].
Qed.

Lemma FindSizeClass_lt bytes alignment : 0 <= bytes -> FindSizeClass bytes alignment <> kSizeClassCount -> (FindSizeClass bytes alignment < kSizeClassCount)%nat.
Proof.
  intros Hb Hne. destruct (Z.le_gt_cases 1 bytes), (Z.le_gt_cases bytes 16384), (Z.le_gt_cases alignment 16).
  1: { destruct (FindSizeClass_in_range bytes alignment) as (j & size & -> & Hs & _); [lia | lia|]. by apply lookup_lt_Some in Hs. }
  all: destruct Hne; unfold FindSizeClass, kMaxPooledBytes, kSlotAlignment; destruct (Z.eqb_spec bytes 0), (Z.ltb_spec (16 * 1024) bytes), (Z.ltb_spec 16 alignment); (lia || reflexivity).
Qed.

Lemma AllocatePooled_result w t p bytes alignment chunk created : Inv w -> allowed w t (AAllocate p bytes alignment chunk created) ->
  exists w' e, AllocatePooled w t p bytes alignment chunk created = Val (w', e) /\ Inv w' /\
    (if decide (FindSizeClass bytes alignment = kSizeClassCount) then e = Returned 0 /\ same_live w w' /\ thread w' t = Idle else alloc_result w w' t (p, FindSizeClass bytes alignment) e 4).
Proof.
  intros HI (Ht & Hp & Ho & Hb & Hch). unfold AllocatePooled. destruct (bind_inv w t p HI Ho) as (own & -> & HI1 & Ho1). set (w1 := set_current (set_owner w own) _) in *.
  destruct (decide (FindSizeClass bytes alignment = kSizeClassCount)) as [Hc|Hc]; [rewrite Hc, Nat.eqb_refl; by exists w1, (Returned 0)|].
  rewrite (proj2 (Nat.eqb_neq _ _) Hc). pose proof (FindSizeClass_lt bytes alignment Hb Hc) as Hlt. generalize dependent (FindSizeClass bytes alignment). intros c Hc Hlt.
  assert (owns w1 t (p, c)) as Hown by done. assert (exists w' e, allocate_after_drain w1 t (p, c) chunk created = Val (w', e) /\ Inv w' /\ alloc_result w w' t (p, c) e 4) as Haft.
  { destruct (allocate_after_drain_result w1 t (p, c) chunk created HI1 Hown (or_introl Ht) Hch) as (w' & e & ? & ? & HA). exists w', e. split_and!; [done | done|]. by apply (alloc_result_after w w1 w' t (p, c) e 4 3); [| lia|]. }
  cbn zeta. destruct (free_list w1 (p, c) =? 0); [|done]. destruct (remote w1 (p, c) =? 0); [done|]. eexists _, Silent. split; [reflexivity|]. split; [|split; [done|]].
  - apply goto_inv; [done | done | |]; unfold w1; cbn; rewrite Ht; [by intros s [k [?|?]] | by intros k x [?|[? ?]]].
  - cbn. rewrite fn_lookup_insert. exists 3%nat. split; [done | lia].
Qed.

Lemma TryDeallocate_result w t x : Inv w -> allowed w t (ADeallocate x) ->
  exists w' e, TryDeallocate w t x = Val (w', e) /\ Inv w' /\ ((exists k, lives w x k) /\ e = Freed true /\ loses w w' x \/ (forall k, ~ lives w x k) /\ e = Freed false /\ w' = w).
Proof.
  intros HI [Ht [[k Hx]|[Hx Hout]]]; unfold TryDeallocate.
  - rewrite (proj2 (Z.eqb_neq x 0)) by exact (place_nonzero w HI x _ Hx). destruct (LookupSlab_belongs w HI k x (i_places w HI x _ Hx)) as (s & h & -> & Hs & Hh & Hk & His).
    rewrite (proj2 (Z.eqb_neq s 0) Hs), Hh, His. destruct (FreeSlot_inv w t x k s h HI Ht Hx Hh Hk) as (w' & E & HI' & Hpl). exists w', (Freed true). split_and!; [done | done|]. left. split_and!; [by exists k | done|].
    intros y k'. unfold lives. rewrite Hpl. destruct (decide (y = x)) as [->|Hne]; [rewrite lookup_insert_eq | rewrite lookup_insert_ne by done; tauto].
    destruct (decide (owner_thread_ w k.1 = Some t)); (split; [congruence | by intros [_ ?]]).
  - exists w, (Freed false). split; [|split; [done|]; right; split_and!; [|done | done]].
    + destruct (x =? 0); [done|]. by rewrite (LookupSlab_outside w HI x Hx Hout).
    + intros k Hl. destruct (i_places w HI x _ Hl) as (s & h & _ & Hh & _ & His). apply (Hout s); [apply (i_upstream w HI); by exists h|]. pose proof (slot_in_chunk s h x (i_header w HI s h Hh) His). lia.
Qed.

(** What each action does to the live frames. *)
Definition effect (w : world) (t : nat) (a : action) (w' : world) (e : event) : Prop :=
  match a with
  | AAllocate p bytes alignment _ _ =>
      if decide (FindSizeClass bytes alignment = kSizeClassCount) then e = Returned 0 /\ same_live w w' /\ thread w' t = Idle
      else alloc_result w w' t (p, FindSizeClass bytes alignment) e 4
  | ADeallocate x => (exists k, lives w x k) /\ e = Freed true /\ loses w w' x \/ (forall k, ~ lives w x k) /\ e = Freed false /\ w' = w
  | AContinue _ _ _ =>
      match alloc_pc (thread w t) with
      | Some (k, n) => alloc_result w w' t k e n
      | None => same_live w w' /\ e = Silent
      end
  | AWrite _ _ | ADrainCurrent | ADestroy _ | AExit => same_live w w' /\ e = Silent
  end.

Lemma exec_step w t a : Inv w -> allowed w t a -> exists w' e, exec w t a = Val (w', e) /\ Inv w' /\ effect w t a w' e.
Proof.
  intros HI Ha. destruct a as [p bytes alignment chunk created|x|x v| |p| |chunk created spurious]; cbn [exec effect].
  - by apply AllocatePooled_result.
  - by apply TryDeallocate_result.
  - destruct Ha as [k Hx]. eexists _, _. split; [reflexivity|]. split; [by apply (write_inv w x k) | done].
  - unfold DrainCurrent. cbn in Ha. destruct (Z.eqb_spec (current_pool_ w t) 0) as [E|E]; eexists _, _; (split; [reflexivity|]); [done|]. split; [|done].
    apply goto_inv; [done | split; [by apply HI | done] | |]; rewrite Ha; [by intros s [k [?|?]] | by intros k x [?|[? ?]]].
  - destruct (Destroy_inv w t p HI Ha) as (w' & E & HI' & _ & _ & Hl & _). exists w', Silent. split; [done|]. split; [done|]. split; [exact Hl | done].
  - eexists _, _. split; [reflexivity|]. split; [|done]. assert (Inv (set_current (set_owner w (owner_thread_ w)) (<[t := 0]> (current_pool_ w)))) as HI'; [|by destruct HI'].
    apply pool_owner_inv; [done | done|]. intros u. destruct (decide (u = t)) as [->|Hu]; [by rewrite fn_lookup_insert | rewrite fn_lookup_insert_ne by done; apply HI].
  - pose proof (i_thread w HI t) as Hok. destruct (thread w t) as [|k [|]|p c|k s|k s|k x|k x old] eqn:Et; cbn [alloc_pc].
    + by exists w, Silent.
    + destruct (drain_class_inv w k HI) as (w1 & -> & HI1 & Hss & Eth & _ & Hd). rewrite bind_val. destruct (allocate_after_drain_result w1 t k chunk created HI1) as (w' & e & E & HI' & HA).
      * destruct Hss as [_ _ _ _ _ Eo _]. unfold owns. by rewrite Eo.
      * right. exists KAllocate. by rewrite Eth.
      * destruct Hss as [_ Eu _ _ _ _ _]. destruct chunk as [a|]; [|done]. cbn in *. by rewrite Eu.
      * exists w', e. split_and!; [done | done|]. by apply (alloc_result_after w w1 w' t k e 3 3); [eapply drained_live | |].
    + destruct (drain_class_inv w k HI) as (w1 & -> & HI1 & Hss & Eth & _ & Hd). rewrite bind_val. eexists _, _. split; [reflexivity|]. split; [|split; [|done]].
      * apply goto_inv; [done | | |]; [|rewrite Eth, Et; by intros s [k' [?|?]] | rewrite Eth, Et; by intros k' x [?|[? ?]]]. destruct Hok as (? & ? & ?), Hss as [_ _ _ _ _ Eo _]. split; [by rewrite Eo | done].
      * exact (drained_live k w w1 Hd).
    + unfold drain_next. destruct (Nat.ltb_spec c kSizeClassCount) as [Hc|Hc]; [destruct (remote w (p, c) =? 0)|]; eexists _, _; (split; [reflexivity|]); (split; [|done]); (apply goto_inv; [done | | |]);
        rewrite ?Et; try (by intros s [k' [?|?]]); try (by intros k' x [?|[? ?]]); try done. destruct Hok. split_and!; done.
    + destruct (publish_directory_inv w t k s HI Et) as (w' & E & HI' & Hpl & Eth). exists w', Silent. split_and!; [done | done|]. cbn. split; [by apply same_live_places|]. rewrite Eth. exists 1%nat. split; [done | lia].
    + by apply enter_slab_result.
    + destruct (push_load_inv w t k x HI) as (w' & E & HI' & _ & Hpl & _); [rewrite Et; by left|]. exists w', Silent. split_and!; [done | done | by apply same_live_places | done].
    + destruct (push_cas_inv w t k x old spurious HI Et) as (w' & E & HI' & Hc). exists w', Silent. split; [done|]. split; [done|]. split; [|done].
      destruct (negb spurious && (remote w k =? old)); destruct Hc as [Hpl _]; [|by apply same_live_places]. destruct Hok as [Hx _]. apply (same_live_insert w w' x (Remote k)); [intros k'; unfold lives; congruence | done | done].
Qed.

Lemma pool_reachable_inv w : reachable w -> Inv w.
Proof.
  induction 1 as [|w t a w' e _ IH Ha E]; [apply pool_initial_inv|]. destruct (exec_step w t a IH Ha) as (w1 & e1 & E1 & HI & _). congruence.
Qed.

End FramePoolSteps.
