(* ===== verification/FramePoolProps.v ===== *)
(** * The pool of coroutine frames: what it promises

    The properties of CoroFramePoolResource over every interleaving of its threads. *)

From stdpp Require Import functions.
From S2P Require Import Prelude FrameMeta FramePool FramePoolInv FramePoolSlabs FramePoolSteps.

Module FramePoolProps.
Import FrameMeta FramePool FramePoolInv FramePoolSlabs FramePoolSteps.

(** The block of memory of a frame of class [k]. *)
Definition block_size (k : key) : Z := nth k.2 kSizeClasses 0.

Lemma lives_block w x k : Inv w -> lives w x k -> exists s h, s ∈ upstream w /\ headers w !! s = Some h /\ good_slab s h /\ IsSlot s h x = true /\ slot_size h = block_size k /\ header_key h = k.
Proof.
  intros HI Hx. destruct (i_places w HI x _ Hx) as (s & h & Hr & Hh & Hk & His). exists s, h. pose proof (i_header w HI s h Hh) as Hg. split_and!; try done.
  - apply (i_upstream w HI). by exists h.
  - symmetry. apply nth_lookup_Some. cbn in Hk. rewrite <- Hk. apply (gs_class s h Hg).
Qed.

Lemma slot_aligned s h x : good_slab s h -> IsSlot s h x = true -> x mod kSlotAlignment = 0.
Proof.
  intros Hg Hx. pose proof (good_size s h Hg). apply IsSlot_true in Hx as (i & _ & ->); [|lia]. destruct Hg as [(_ & Hm & _) Hc _ _]. apply size_class_facts in Hc as (_ & _ & _ & _ & H16).
  change kSlotAlignment with 16. change kSlabHeaderBytes with 64. change kChunkBytes with 65536 in Hm. rewrite Z.mod_eq in Hm, H16 by lia. rewrite Z.mod_eq by lia.
  assert (s = 16 * (4096 * (s / 65536))) as Es by lia. assert (slot_size h = 16 * (slot_size h / 16)) as Ez by lia.
  assert (s + 64 + i * slot_size h = 16 * (4096 * (s / 65536) + 4 + i * (slot_size h / 16))) as -> by (rewrite Es, Ez at 1; ring). rewrite (Z.mul_comm 16), Z.div_mul by lia. lia.
Qed.

Lemma blocks_disjoint s h x y : good_slab s h -> IsSlot s h x = true -> IsSlot s h y = true -> x <> y -> x + slot_size h <= y \/ y + slot_size h <= x.
Proof.
  intros Hg Hx Hy Hne. pose proof (good_size s h Hg). apply IsSlot_true in Hx as (i & _ & ->); [|lia]. apply IsSlot_true in Hy as (j & _ & ->); [|lia].
  assert (i <> j) by (intros ->; done). destruct (Z.lt_ge_cases i j); [left | right]; nia.
Qed.

(** ** The first allocations of a pool *)

Lemma AddChunk_first w t (k : key) a created : chunk_at a -> (k.2 < kSizeClassCount)%nat -> directories w !! (SlabMapIndex a).1 = None ->
  AddChunk w t k (Some a) created = Val (if created then (goto (with_chunk w k a (leaked w)) t (Publish k a), Silent) else (goto (with_chunk w k a ({[a]} ∪ leaked w)) t Idle, Threw)).
Proof.
  intros (Ha0 & Ham & Hae) Hk Hd. unfold AddChunk. rewrite (proj2 (Z.ltb_lt 0 _) (class_slots_positive k Hk)), check_true, bind_val, (chunk_mask a ltac:(lia) Ham), check_true, !bind_val.
  pose proof (SlabMapIndex_range a ltac:(change kChunkBytes with 65536 in *; lia)) as Hr. destruct (SlabMapIndex a) as [l1 l2] eqn:Ei. cbn [fst] in Hr, Hd. rewrite (proj2 (Z.ltb_lt l1 kL1Size)) by lia.
  rewrite check_true, bind_val. cbn [directories set_headers set_upstream]. rewrite Hd. by destruct created.
Qed.

Lemma FindSizeClass_64 : FindSizeClass 64 16 = 0%nat.
Proof. unfold FindSizeClass. cbn [orb]. apply nth_lookup_Some, (kClassByBytes_lookup 64 0); [lia | reflexivity]. Qed.

Lemma first_chunk : chunk_at kChunkBytes.
Proof. unfold chunk_at. change kChunkBytes with 65536. split_and!; [lia | reflexivity | lia]. Qed.

Lemma first_allowed created : allowed initial 0 (AAllocate 4096 64 16 (Some kChunkBytes) created).
Proof.
  destruct first_chunk as (H1 & H2 & H3). split; [reflexivity|]. split; [discriminate|]. split; [left; reflexivity|]. split; [lia|]. split; [exact H1|]. split; [exact H2|]. split; [exact H3|].
  apply not_elem_of_empty.
Qed.

Lemma first_allocation created : exists own w1, let w0 := set_current (set_owner initial own) (<[0%nat := 4096]> (current_pool_ initial)) in
  exec initial 0 (AAllocate 4096 64 16 (Some kChunkBytes) created) = Val (w1, if created then Silent else Threw) /\
  w1 = if created then goto (with_chunk w0 (4096, 0%nat) kChunkBytes (leaked w0)) 0 (Publish (4096, 0%nat) kChunkBytes) else goto (with_chunk w0 (4096, 0%nat) kChunkBytes ({[kChunkBytes]} ∪ leaked w0)) 0 Idle.
Proof.
  destruct (bind_inv initial 0 4096 pool_initial_inv (or_introl eq_refl)) as (own & Eb & HI0 & _). eexists own, _. cbn zeta. split; [|reflexivity].
  destruct created.
  all: cbn [exec]; unfold AllocatePooled; rewrite FindSizeClass_64, Eb; change ((0 =? kSizeClassCount)%nat) with false; unfold allocate_after_drain; cbn [free_list remote set_current set_owner initial];
    change (0 =? 0) with true; cbn iota; apply AddChunk_first; [exact first_chunk | exact (Nat.lt_0_succ 12) | apply lookup_empty].
Qed.

(** An allocation under way ends when its thread goes on. *)
Lemma allocation_ends w t k n : reachable w -> alloc_pc (thread w t) = Some (k, n) -> (n < 3)%nat -> exists w' x, reachable w' /\ lives w' x k.
Proof.
  revert w. induction n as [n IH] using lt_wf_ind. intros w HR HP Hn.
  destruct (exec_step w t (AContinue None true false) (pool_reachable_inv w HR) I) as (w' & e & E & _ & HF). pose proof (reach_step _ _ (AContinue None true false) _ _ HR I E) as HR'. clear E.
  cbn [effect] in HF. rewrite HP in HF. destruct e as [|x| |b]; cbn [alloc_result] in HF.
  - destruct HF as (_ & n' & HP' & Hn'). apply (IH n' Hn' w' HR' HP'). lia.
  - destruct HF as (_ & [_ Hg] & _). exists w', x. split; [exact HR'|]. apply Hg. right. split; reflexivity.
  - lia.
  - contradiction.
Qed.

Lemma some_live_frame : exists w x k, reachable w /\ lives w x k.
Proof.
  destruct (first_allocation true) as (own & w1 & E1 & Ew). pose proof (reach_step _ _ _ _ _ reach_initial (first_allowed true) E1) as R1. clear E1.
  destruct (allocation_ends w1 0 (4096, 0%nat) 2 R1) as (w & x & HR & Hx); [rewrite Ew; reflexivity | lia|]. exists w, x, (4096, 0%nat). exact (conj HR Hx).
Qed.

(** A pool that lost a chunk, ready for its destruction. *)
Lemma leaking_pool : exists w, exec initial 0 (AAllocate 4096 64 16 (Some kChunkBytes) false) = Val (w, Threw) /\ reachable w /\ kChunkBytes ∈ upstream w /\ allowed w 0 (ADestroy 4096) /\ ~ registered w kChunkBytes.
Proof.
  destruct (first_allocation false) as (own & w1 & E1 & Ew). exists w1. split; [exact E1|]. split; [exact (reach_step _ _ _ _ _ reach_initial (first_allowed false) E1)|]. clear E1. rewrite Ew.
  split; [apply elem_of_union_l, elem_of_singleton; reflexivity|]. split; [|intros (d & Hd & _); discriminate Hd].
  split; [reflexivity|]. split; [discriminate|]. split; [intros x pl Hx; discriminate Hx|]. split.
  - intros u. cbn. by destruct u.
  - intros u. cbn. destruct (decide (u = 0%nat)) as [->|Hu]; [done|]. by rewrite fn_lookup_insert_ne.
Qed.

(** C31. The frames the pools have handed out are sound, whatever the threads do: a
    live frame is aligned and lies, with the whole block of its size class, inside a
    chunk that its pool still holds, behind the slab header; the blocks of two live
    frames never overlap, of the same pool or not; and the slab map finds for the frame
    the pool and the class it came from. *)
Theorem frame_pool_live_frames_sound w x k :
  reachable w -> lives w x k ->
  (exists s h, s ∈ upstream w /\ LookupSlab w x = s /\ headers w !! s = Some h /\ (slab_owner h, size_class_index h) = k /\
     s + kSlabHeaderBytes <= x /\ x + block_size k <= s + kChunkBytes) /\
  x mod kSlotAlignment = 0 /\
  forall y k', lives w y k' -> y <> x -> x + block_size k <= y \/ y + block_size k' <= x.
Proof.
  intros HI%pool_reachable_inv Hx. destruct (lives_block w x k HI Hx) as (s & h & Hu & Hh & Hg & His & Hz & Hk). split_and!.
  - exists s, h. pose proof (slot_bounds s h x Hg His) as [H1 H2]. rewrite <- Hz. split_and!; try done. destruct (i_places w HI x _ Hx) as (s' & h' & Hr & Hh' & _ & His').
    apply (LookupSlab_in w s x); [apply (gs_chunk s h Hg) | pose proof (slot_in_chunk s h x Hg His); lia|]. by rewrite (slot_slab_unique w HI s h s' h' x Hh Hh' His His').
  - by apply (slot_aligned s h).
  - intros y k' Hy Hne. destruct (lives_block w y k' HI Hy) as (s' & h' & _ & Hh' & Hg' & His' & Hz' & Hk'). rewrite <- Hz, <- Hz'. destruct (decide (s' = s)) as [->|Hss].
    + assert (h' = h) as -> by congruence. by apply (blocks_disjoint s h x y).
    + pose proof (slot_bounds s h x Hg His). pose proof (slot_bounds s' h' y Hg' His'). destruct (gs_chunk s h Hg) as (_ & Hm & _), (gs_chunk s' h' Hg') as (_ & Hm' & _).
      change kChunkBytes with 65536 in *. change kSlabHeaderBytes with 64 in *. apply Z.div_exact in Hm; [|lia]. apply Z.div_exact in Hm'; [|lia]. nia.
Qed.

Lemma frame_pool_live_frames_sound_witness : exists w x k, reachable w /\ lives w x k /\ x mod kSlotAlignment = 0.
Proof. destruct some_live_frame as (w & x & k & HR & Hx). exists w, x, k. exact (conj HR (conj Hx (proj1 (proj2 (frame_pool_live_frames_sound w x k HR Hx))))). Defined.

(** C5. The pools implement a set of live frames, under every interleaving: no step
    stops on a check or touches freed memory; a deallocation of a live frame takes it
    out of the set and changes nothing else, one of any other pointer reports that it
    is not pooled and changes nothing; a write into a live frame, a drain, a push onto
    a remote stack and the destruction of a pool leave the set alone; and an allocation
    returns a frame of the requested class that was not live, and is then, or throws,
    after at most three further steps of its thread. *)
Theorem frame_pool_refines_live_set w t a :
  reachable w -> allowed w t a -> exists w' e, exec w t a = Val (w', e) /\ effect w t a w' e.
Proof. intros HI%pool_reachable_inv Ha. destruct (exec_step w t a HI Ha) as (w' & e & E & _ & He). by exists w', e. Qed.

Lemma frame_pool_refines_live_set_witness : exists w' e, exec initial 0 (AAllocate 4096 64 16 (Some kChunkBytes) true) = Val (w', e) /\ effect initial 0 (AAllocate 4096 64 16 (Some kChunkBytes) true) w' e.
Proof. exact (frame_pool_refines_live_set initial 0 _ reach_initial (first_allowed true)). Defined.

(** C32. No freed frame is lost and none is on a list twice. At every moment the slots
    of the registered slabs of a size class are exactly the nodes of its free list, of
    its remote stack, its live frames, and the slots a thread is about to push; the
    lists end, no slot is in two of these places, and two threads never push the same
    slot. A drain takes the whole stack, so when no push is under way every slot that
    is not live is on the free list again. *)
Theorem frame_pool_frees_not_lost w k :
  reachable w ->
  (exists L R, chain (next w) (free_list w k) L /\ chain (next w) (remote w k) R /\ NoDup (L ++ R) /\
     (forall x, belongs w k x <-> x ∈ L ++ R \/ lives w x k \/ exists t, pushes (thread w t) k x) /\
     (forall x, x ∈ L ++ R -> ~ lives w x k /\ forall t, ~ pushes (thread w t) k x) /\
     (forall x t, pushes (thread w t) k x -> ~ lives w x k /\ forall u, pushes (thread w u) k x -> u = t)) /\
  exists w', drain_class w k = Val w' /\ remote w' k = 0 /\
    ((forall t x, ~ pushes (thread w t) k x) ->
     exists L, chain (next w') (free_list w' k) L /\ NoDup L /\ forall x, belongs w k x <-> x ∈ L \/ lives w x k).
Proof.
  intros HI%pool_reachable_inv.
  assert (forall w, Inv w -> forall x, belongs w k x <-> places w !! x = Some (Local k) \/ places w !! x = Some (Remote k) \/ lives w x k \/ exists t, pushes (thread w t) k x) as Hsplit.
  { clear w HI. intros w HI x. split.
    - intros Hb. destruct (i_belongs w HI k x Hb) as [pl Hx]. pose proof (belongs_key w HI _ _ _ (i_places w HI x pl Hx) Hb) as Ek.
      destruct pl as [k'|k'|k'|t k']; cbn in Ek; subst k'; [by left | by right; left | by right; right; left|]. right. right. right. exists t. by apply HI.
    - intros [Hx|[Hx|[Hx|[t Hx%thread_pushes]]]]; try done; exact (i_places w HI x _ Hx). }
  destruct (i_local w HI k) as (L & HcL & HnL & HL), (i_remote w HI k) as (R & HcR & HnR & HR). split.
  - exists L, R. split_and!; [done | done | | | |].
    + apply NoDup_app. split_and!; [done | | done]. intros x Hx%HL Hy%HR. congruence.
    + intros x. rewrite (Hsplit w HI), elem_of_app, HL, HR. tauto.
    + intros x [Hx%HL|Hx%HR]%elem_of_app; (split; [unfold lives; congruence|]); intros t Hp%thread_pushes; [congruence | done | congruence | done].
    + intros x t Hp%thread_pushes; [|done]. split; [unfold lives; congruence|]. intros u Hu%thread_pushes; [congruence | done].
  - destruct (drain_class_inv w k HI) as (w' & E & HI' & Hss & Eth & Er & Hd). exists w'. split; [done|]. split; [rewrite Er; apply fn_lookup_insert|]. intros Hnp.
    destruct (i_local w' HI' k) as (L' & HcL' & HnL' & HL'). exists L'. split_and!; [done | done|]. intros x. destruct Hss as [Eh _ Ed _ _ _ _].
    rewrite <- (belongs_eq w w' k x Ed Eh), (Hsplit w' HI'), HL', (drained_live k w w' Hd x k), Eth. split; [|tauto].
    intros [?|[Hx|[?|[t Ht]]]]; [by left | | by right | by apply Hnp in Ht]. exfalso. pose proof (i_remote w' HI' k) as HR'. rewrite Er, fn_lookup_insert in HR'. exact (list_ok_nil _ _ HR' x Hx).
Qed.

Lemma frame_pool_frees_not_lost_witness : exists w x k, reachable w /\ lives w x k /\ exists w', drain_class w k = Val w' /\ remote w' k = 0.
Proof.
  destruct some_live_frame as (w & x & k & HR & Hx). exists w, x, k. split; [exact HR|]. split; [exact Hx|].
  destruct (proj2 (frame_pool_frees_not_lost w k HR)) as (w' & E & H0 & _). exact (ex_intro _ w' (conj E H0)).
Defined.

(** The destructor of a pool gives its chunks back. When no frame of the pool is
    in use and no thread works on it, it returns, every slab of the pool leaves the slab
    map and every chunk goes back to upstream, those of other pools and the live frames
    stay; the only chunks of the pool that remain allocated are those lost before, when
    the creation of a slab directory threw. *)
Theorem frame_pool_destruction_returns_chunks w t p :
  reachable w -> allowed w t (ADestroy p) ->
  exists w', Destroy w t p = Val (w', Silent) /\ same_live w w' /\
    (forall s h, headers w !! s = Some h -> s ∈ upstream w' <-> slab_owner h <> p \/ s ∈ leaked w /\ ~ registered w s) /\
    (forall x, 0 <= x < 2 ^ 48 -> forall h, headers w' !! LookupSlab w' x = Some h -> IsSlot (LookupSlab w' x) h x = true -> slab_owner h <> p).
Proof.
  intros HI%pool_reachable_inv Ha. destruct (Destroy_inv w t p HI Ha) as (w' & E & HI' & _ & El & Hl & Hu & Hpl). exists w'. split_and!; [done | done | |].
  - intros s h Hh. rewrite Hu, (i_upstream w HI). split.
    + intros [_ Hn]. destruct (decide (slab_owner h = p)) as [Ho|Ho]; [right | by left]. assert (~ registered w s) as Hr by (intros Hr; apply Hn; split; [done | by exists h]).
      split; [|done]. destruct (i_state w HI s (ex_intro _ h Hh)) as [?|[?|[u [k Hk]]]]; [done | done|]. exfalso. destruct Ha as (_ & _ & _ & Hw & _). apply (Hw u).
      pose proof (i_thread w HI u) as Hok. destruct Hk as [Hk|Hk]; rewrite Hk in Hok |- *; cbn; [destruct Hok as [_ (h' & Hh' & Hkh & _)] | destruct Hok as [_ [(h' & Hh' & Hkh & _) _]]]; rewrite <- Hkh; cbn; congruence.
    + intros Hs. split; [by exists h|]. intros (Hr & h' & Hh' & Ho). assert (h' = h) as -> by congruence. by destruct Hs as [?|[_ ?]].
  - intros x Hx h Hh His Ho. assert (LookupSlab w' x <> 0) as H0 by (intros H0; rewrite H0 in Hh; destruct (gs_chunk _ _ (i_header w' HI' _ _ Hh)); lia).
    assert (registered w' (LookupSlab w' x)) as Hr.
    { unfold LookupSlab in *. destruct (SlabMapIndex x) as [l1 l2] eqn:Ei. destruct (kL1Size <=? l1); [done|]. destruct (directories w' !! l1) as [d|] eqn:Hd; [|done]. destruct (d !! l2) as [s|] eqn:Hs; [|done]. cbn in *.
      exists d. destruct (i_dir w' HI' _ _ _ _ Hd Hs) as [-> _]. done. }
    destruct (i_belongs w' HI' (header_key h) x) as [pl Hp]; [by exists (LookupSlab w' x), h|]. apply (Hpl x pl Hp). rewrite (belongs_key w' HI' (place_key pl) (header_key h) x); [done | by apply HI' | by exists (LookupSlab w' x), h].
Qed.

Lemma frame_pool_destruction_returns_chunks_witness : exists w w', reachable w /\ allowed w 0 (ADestroy 4096) /\ Destroy w 0 4096 = Val (w', Silent) /\ same_live w w'.
Proof.
  destruct leaking_pool as (w & _ & HR & _ & Ha & _). destruct (frame_pool_destruction_returns_chunks w 0 4096 HR Ha) as (w' & E & Hl & _).
  exists w, w'. exact (conj HR (conj Ha (conj E Hl))).
Defined.

(** An exception loses a chunk: when the creation of a slab directory throws inside
    AddChunk, the chunk upstream has just returned is recorded nowhere, and even the
    destructor of the pool leaves it allocated. *)
Theorem frame_pool_failed_directory_leaks_chunk :
  exists w1 w2, exec initial 0 (AAllocate 4096 64 16 (Some kChunkBytes) false) = Val (w1, Threw) /\ kChunkBytes ∈ upstream w1 /\
    allowed w1 0 (ADestroy 4096) /\ exec w1 0 (ADestroy 4096) = Val (w2, Silent) /\ kChunkBytes ∈ upstream w2.
Proof.
  destruct leaking_pool as (w1 & E1 & HR & Hs & Ha & Hr). destruct (Destroy_inv w1 0 4096 (pool_reachable_inv w1 HR) Ha) as (w2 & E2 & _ & _ & _ & _ & Hu & _).
  exists w1, w2. split; [exact E1|]. split; [exact Hs|]. split; [exact Ha|]. split; [exact E2|]. apply Hu. split; [exact Hs|]. intros [Hr' _]. exact (Hr Hr').
Qed.

End FramePoolProps.
