(* ===== verification/EpollRecv.v ===== *)
(** * The epoll receive source (src/epoll/recv_source.cc, include/alyrn/epoll/recv_source.h)

    A source that drains its descriptor into its own buffers whenever the poller
    reports it readable, queues the received segments and hands them out as leases
    to one awaiter at a time. The admission machine is that of RecvSource.v; of the
    channel the source uses its interest in reading and its registration. What the
    socket answers and whether memory is found are inputs. Every call is made on the
    loop's thread, which [here] says. *)

From Stdlib Require Import Strings.Byte.
From S2P Require Import Prelude Lifecycles Sources RecvSource ResultCells UringLoop EpollStream.

Module EpollRecv.

Import UringLoop(LoopState, kCreated, kRunning, kStopping, kStopped).
Import EpollStream(recv_answer, RecvData, RecvErrno, TryRecv, IoAttempt, Completed, WouldBlock, ErrorFromSocketErrorEvent).

(** ** State *)

(** An event holds the lease of a buffer; the bytes received into it are recorded. *)
Record Event := mkEvent { e_buffer : Z; e_size : nat; e_bytes : list byte }.

Record NextAwaiter := mkNext { n_bound : bool; n_gate : CompletionGate.t; n_result : ValueResultState.t (option Event) }.
Record StopAwaiter := mkStop { p_bound : bool; p_gate : CompletionGate.t; p_result : option (ResultE unit) }.

Definition new_next : NextAwaiter := mkNext false CompletionGate.initial ValueResultState.kPending.
Definition new_stop : StopAwaiter := mkStop false CompletionGate.initial None.

Record source := mkSource {
  loop_ : bool;                               (* loop_ != nullptr *)
  fd_ : Z;
  state_ : RecvSource.t;
  reading : bool;                             (* channel_.IsReading() *)
  registered : bool;                          (* channel_.IsRegistered() *)
  events_ : list Event;
  terminal_error_ : option Error;
  pending_next_ : option nat;
  pending_stop_ : option nat;
  buffer_size_ : nat;
  storage_ : gmap Z (list byte);              (* by buffer *)
  available_buffers_ : list Z;                (* the last one is at the back *)
  participant : bool;                         (* registered for the stop of the loop *)
}.

Definition set_state (s : source) v := mkSource (loop_ s) (fd_ s) v (reading s) (registered s) (events_ s) (terminal_error_ s) (pending_next_ s) (pending_stop_ s) (buffer_size_ s) (storage_ s) (available_buffers_ s) (participant s).
Definition set_channel (s : source) (r g : bool) := mkSource (loop_ s) (fd_ s) (state_ s) r g (events_ s) (terminal_error_ s) (pending_next_ s) (pending_stop_ s) (buffer_size_ s) (storage_ s) (available_buffers_ s) (participant s).
Definition set_events (s : source) v := mkSource (loop_ s) (fd_ s) (state_ s) (reading s) (registered s) v (terminal_error_ s) (pending_next_ s) (pending_stop_ s) (buffer_size_ s) (storage_ s) (available_buffers_ s) (participant s).
Definition set_error (s : source) v := mkSource (loop_ s) (fd_ s) (state_ s) (reading s) (registered s) (events_ s) v (pending_next_ s) (pending_stop_ s) (buffer_size_ s) (storage_ s) (available_buffers_ s) (participant s).
Definition set_next (s : source) v := mkSource (loop_ s) (fd_ s) (state_ s) (reading s) (registered s) (events_ s) (terminal_error_ s) v (pending_stop_ s) (buffer_size_ s) (storage_ s) (available_buffers_ s) (participant s).
Definition set_stop (s : source) v := mkSource (loop_ s) (fd_ s) (state_ s) (reading s) (registered s) (events_ s) (terminal_error_ s) (pending_next_ s) v (buffer_size_ s) (storage_ s) (available_buffers_ s) (participant s).
Definition set_buffers (s : source) st av := mkSource (loop_ s) (fd_ s) (state_ s) (reading s) (registered s) (events_ s) (terminal_error_ s) (pending_next_ s) (pending_stop_ s) (buffer_size_ s) st av (participant s).

Record world := mkWorld {
  src : source;
  here : bool;                                (* loop_->IsInLoopThread() *)
  loop_state : LoopState;
  nexts : gmap nat NextAwaiter;
  stops : gmap nat StopAwaiter;
  work : list (bool * nat);                   (* scheduled continuations: of a Next, of a Stop *)
  sock : list recv_answer;
  out : list Event;                           (* leases handed out and not yet released *)
  received : list (list byte);                (* every segment the socket delivered *)
  taken : list (list byte);                   (* every segment handed out *)
  lost : list (list byte);                    (* segments dropped for lack of memory *)
}.

Definition set_src (w : world) v := mkWorld v (here w) (loop_state w) (nexts w) (stops w) (work w) (sock w) (out w) (received w) (taken w) (lost w).
Definition set_loop_state (w : world) v := mkWorld (src w) (here w) v (nexts w) (stops w) (work w) (sock w) (out w) (received w) (taken w) (lost w).
Definition set_nexts (w : world) v := mkWorld (src w) (here w) (loop_state w) v (stops w) (work w) (sock w) (out w) (received w) (taken w) (lost w).
Definition set_stops (w : world) v := mkWorld (src w) (here w) (loop_state w) (nexts w) v (work w) (sock w) (out w) (received w) (taken w) (lost w).
Definition set_work (w : world) v := mkWorld (src w) (here w) (loop_state w) (nexts w) (stops w) v (sock w) (out w) (received w) (taken w) (lost w).
Definition set_sock (w : world) v := mkWorld (src w) (here w) (loop_state w) (nexts w) (stops w) (work w) v (out w) (received w) (taken w) (lost w).
Definition log_received (w : world) (bytes : list byte) := mkWorld (src w) (here w) (loop_state w) (nexts w) (stops w) (work w) (sock w) (out w) (received w ++ [bytes]) (taken w) (lost w).
Definition set_out (w : world) v := mkWorld (src w) (here w) (loop_state w) (nexts w) (stops w) (work w) (sock w) v (received w) (taken w) (lost w).
Definition log_taken (w : world) (e : Event) := mkWorld (src w) (here w) (loop_state w) (nexts w) (stops w) (work w) (sock w) (out w ++ [e]) (received w) (taken w ++ [e_bytes e]) (lost w).
Definition log_lost (w : world) (bytes : list byte) := mkWorld (src w) (here w) (loop_state w) (nexts w) (stops w) (work w) (sock w) (out w) (received w ++ [bytes]) (taken w) (lost w ++ [bytes]).

Definition st (w : world) : SourceState := RecvSource.state_ (state_ (src w)).
Definition with_state (w : world) (s : RecvSource.t) : world := set_src w (set_state (src w) s).

Definition get_next (w : world) (a : nat) : outcome NextAwaiter := match nexts w !! a with Some n => Val n | None => Panic end.
Definition put_next (w : world) (a : nat) (n : NextAwaiter) : world := set_nexts w (<[a := n]> (nexts w)).
Definition get_stop (w : world) (a : nat) : outcome StopAwaiter := match stops w !! a with Some n => Val n | None => Panic end.
Definition put_stop (w : world) (a : nat) (n : StopAwaiter) : world := set_stops w (<[a := n]> (stops w)).

(** ** The channel *)

Definition EnableReading (w : world) : world := set_src w (set_channel (src w) true true).
Definition DisableReading (w : world) : world := set_src w (set_channel (src w) false (registered (src w))).

(** ** Completion of awaiters *)

(** NextAwaiter::Complete *)
Definition next_Complete (w : world) (a : nat) (result : ResultE (option Event)) : outcome world :=
  n ← get_next w a;
  let '(gate, first) := CompletionGate.TryComplete (n_gate n) in
  if negb first then Val w
  else
    cell ← ValueResultState.SetResult result (n_result n);
    ALYRN_CHECK (n_bound n);;
    let w := put_next w a (mkNext (n_bound n) gate cell) in
    Val (set_work w (work w ++ [(true, a)])).

(** StopAwaiter::Complete *)
Definition stop_Complete (w : world) (a : nat) (result : ResultE unit) : outcome world :=
  p ← get_stop w a;
  let '(gate, first) := CompletionGate.TryComplete (p_gate p) in
  if negb first then Val w
  else
    ALYRN_CHECK (p_bound p);;
    let w := put_stop w a (mkStop (p_bound p) gate (Some result)) in
    Val (set_work w (work w ++ [(false, a)])).

(** ** Admission and delivery *)

Definition EnsureAdmission (w : world) : world :=
  if negb (loop_ (src w)) || negb (here w) || negb (bool_decide (st w = kActive)) || negb (RecvSource.armed_requests_ (state_ (src w)) =? 0) then w
  else
    let '(s, armed) := RecvSource.TryArm (state_ (src w)) in
    let w := with_state w s in
    if armed then EnableReading w else w.

Definition CompleteReadiness (w : world) : outcome world :=
  let w := if reading (src w) then DisableReading w else w in
  if negb (RecvSource.armed_requests_ (state_ (src w)) =? 0) then
    let '(s, completed) := RecvSource.CompleteMultishotEvent EventDisposition.kNone MultishotRequestDisposition.kTerminal (state_ (src w)) in
    ALYRN_CHECK (match completed with Ok _ => true | Err _ => false end);;
    Val (with_state w s)
  else Val w.

Definition RequestBackendPause (w : world) : outcome world :=
  let '(s, paused) := RecvSource.RequestPause (state_ (src w)) in
  ALYRN_CHECK (match paused with Ok _ => true | Err _ => false end);;
  CompleteReadiness (with_state w s).

(** The result, when there is one. *)
Definition TryTakeNext (w : world) : outcome (world * option (ResultE (option Event))) :=
  match events_ (src w) with
  | event :: rest =>
      let w := set_src w (set_events (src w) rest) in
      let '(s, acquired) := RecvSource.AcquireEvent (state_ (src w)) in
      ALYRN_CHECK acquired;;
      let w := log_taken (with_state w s) event in
      let w := if bool_decide (st w = kPaused) then with_state w (RecvSource.TryResume (state_ (src w))).1 else w in
      Val (EnsureAdmission w, Some (Ok (Some event)))
  | [] =>
      if bool_decide (st w = kTerminal)
      then Val (w, Some (match terminal_error_ (src w) with Some error => Err error | None => Ok None end))
      else Val (w, None)
  end.

Definition DeliverNextIfReady (w : world) : outcome world :=
  match pending_next_ (src w) with
  | None => Val w
  | Some a =>
      '(w, result) ← TryTakeNext w;
      match result with
      | None => Val w
      | Some result => next_Complete (set_src w (set_next (src w) None)) a result
      end
  end.

Definition CompleteStopIfReady (w : world) : outcome world :=
  match pending_stop_ (src w) with
  | None => Val w
  | Some a =>
      if negb (bool_decide (st w = kTerminal)) || negb (RecvSource.armed_requests_ (state_ (src w)) =? 0) then Val w
      else stop_Complete (set_src w (set_stop (src w) None)) a (Ok tt)
  end.

Definition RequestBackendStop (w : world) (error : option Error) : outcome world :=
  let w := match error, terminal_error_ (src w) with
           | Some e, None => set_src w (set_error (src w) (Some e))
           | _, _ => w
           end in
  let '(s, stopped) := RecvSource.RequestStop (state_ (src w)) in
  ALYRN_CHECK (match stopped with Ok _ => true | Err _ => false end);;
  w ← CompleteReadiness (with_state w s);
  w ← DeliverNextIfReady w;
  CompleteStopIfReady w.

(** ReturnBuffer, which ReclaimBuffer calls for a released lease. *)
Definition ReturnBuffer (w : world) (buffer_id : Z) : outcome world :=
  ALYRN_CHECK (loop_ (src w) && here w);;
  let capacity := RecvSource.buffer_capacity (RecvSource.options_ (state_ (src w))) in
  ALYRN_CHECK (buffer_id <? capacity);;
  ALYRN_CHECK (Z.of_nat (length (available_buffers_ (src w))) <? capacity);;
  let w := set_src w (set_buffers (src w) (storage_ (src w)) (available_buffers_ (src w) ++ [buffer_id])) in
  let '(s, released) := RecvSource.ReleaseLease (state_ (src w)) in
  ALYRN_CHECK released;;
  let w := EnsureAdmission (with_state w s) in
  w ← DeliverNextIfReady w;
  CompleteStopIfReady w.

(** ** Starting and stopping *)

Definition Start (w : world) : world * ResultE unit :=
  if negb (bool_decide (st w = kIdle)) then (w, Err (Errno EALREADY))
  else
    let '(s, started) := RecvSource.Start (state_ (src w)) in
    let w := with_state w s in
    match started with
    | Err e => (w, Err e)
    | Ok _ =>
        let w := EnsureAdmission w in
        if RecvSource.armed_requests_ (state_ (src w)) =? 0 then (w, Err (Errno ENOBUFS)) else (w, Ok tt)
    end.

(** BeginStop: does the source still have work? *)
Definition BeginStop (w : world) : outcome (world * ResultE bool) :=
  let '(s, stopped) := RecvSource.RequestStop (state_ (src w)) in
  let w := with_state w s in
  match stopped with
  | Err e => Val (w, Err e)
  | Ok _ =>
      w ← CompleteReadiness w;
      w ← DeliverNextIfReady w;
      Val (w, Ok (negb (bool_decide (st w = kTerminal))))
  end.

Definition stopping (w : world) : bool := bool_decide (loop_state w = kStopping) || bool_decide (loop_state w = kStopped).

(** A result stored without suspending. *)
Definition next_inline (w : world) (a : nat) (result : ResultE (option Event)) : outcome (world * bool) :=
  n ← get_next w a;
  cell ← ValueResultState.SetResult result (n_result n);
  Val (put_next w a (mkNext (n_bound n) (CompletionGate.TryComplete (n_gate n)).1 cell), false).

(** NextAwaiter::await_suspend after the source has started. *)
Definition next_wait (w : world) (a : nat) : outcome (world * bool) :=
  '(w, result) ← TryTakeNext w;
  match result with
  | Some result => next_inline w a result
  | None =>
      n ← get_next w a;
      ALYRN_CHECK (negb (n_bound n));;
      let w := put_next w a (mkNext true (n_gate n) (n_result n)) in
      let w := set_src w (set_next (src w) (Some a)) in
      let w := EnsureAdmission w in
      '(w, result) ← TryTakeNext w;
      match result with
      | Some result => next_inline (set_src w (set_next (src w) None)) a result
      | None => Val (w, true)
      end
  end.

(** NextAwaiter::await_suspend: does the coroutine stay suspended? *)
Definition next_await_suspend (w : world) (a : nat) : outcome (world * bool) :=
  if negb (loop_ (src w)) || (fd_ (src w) <? 0) then next_inline w a (Err (Errno EBADF))
  else if negb (here w) then next_inline w a (Err (Errno EINVAL))
  else match pending_next_ (src w) with
  | Some _ => next_inline w a (Err (Errno EBUSY))
  | None =>
      if bool_decide (st w = kIdle) then
        if stopping w then next_inline w a (Err (Errno ECANCELED))
        else let '(w, started) := Start w in
             match started with
             | Err e => next_inline w a (Err e)
             | Ok _ => next_wait w a
             end
      else next_wait w a
  end.

(** NextAwaiter::await_resume *)
Definition next_await_resume (w : world) (a : nat) : outcome (world * ResultE (option Event)) :=
  n ← get_next w a;
  '(result, cell) ← ValueResultState.Take (n_result n);
  Val (put_next w a (mkNext (n_bound n) (n_gate n) cell), result).

Definition stop_inline (w : world) (a : nat) (result : ResultE unit) : outcome (world * bool) :=
  p ← get_stop w a;
  Val (put_stop w a (mkStop (p_bound p) (CompletionGate.TryComplete (p_gate p)).1 (Some result)), false).

(** StopAwaiter::await_suspend *)
Definition stop_await_suspend (w : world) (a : nat) : outcome (world * bool) :=
  match pending_stop_ (src w) with
  | Some _ => stop_inline w a (Err (Errno EBUSY))
  | None =>
      p ← get_stop w a;
      ALYRN_CHECK (negb (p_bound p));;
      let w := put_stop w a (mkStop true (p_gate p) (p_result p)) in
      let w := set_src w (set_stop (src w) (Some a)) in
      '(w, waiting) ← BeginStop w;
      match waiting with
      | Err e => stop_inline (set_src w (set_stop (src w) None)) a (Err e)
      | Ok false => stop_inline (set_src w (set_stop (src w) None)) a (Ok tt)
      | Ok true => Val (w, true)
      end
  end.

(** StopAwaiter::await_resume *)
Definition stop_await_resume (w : world) (a : nat) : outcome (ResultE unit) :=
  p ← get_stop w a;
  match p_result p with Some r => Val r | None => Panic end.

(** Stop: [None] while it waits. *)
Definition Stop (w : world) (a : nat) : outcome (world * option (ResultE unit)) :=
  if negb (loop_ (src w)) then Val (w, Some (Ok tt))
  else if negb (here w) then Val (w, Some (Err (Errno EINVAL)))
  else match pending_stop_ (src w) with
  | Some _ => Val (w, Some (Err (Errno EBUSY)))
  | None =>
      '(w, suspended) ← stop_await_suspend w a;
      if (suspended : bool) then Val (w, None)
      else r ← stop_await_resume w a; Val (w, Some r)
  end.

Definition RequestStop (w : world) : outcome (world * ResultE unit) :=
  if negb (loop_ (src w)) then Val (w, Ok tt)
  else if negb (here w) then Val (w, Err (Errno EINVAL))
  else
    '(w, waiting) ← BeginStop w;
    Val (w, match waiting with Err e => Err e | Ok _ => Ok tt end).

(** ** Events of the channel *)

(** One pass of the loop in OnReady; [room] is false when the queue finds no memory.
    [true] when the loop goes on. *)
Definition ready_step (w : world) (room : bool) : outcome (world * bool) :=
  match last (available_buffers_ (src w)) with
  | Some buffer_id =>
      if negb (RecvSource.CanQueueEvent (state_ (src w))) then w ← RequestBackendPause w; Val (w, false)
      else
      let s := src w in
      let rest := removelast (available_buffers_ s) in
      let w := set_src w (set_buffers s (storage_ s) rest) in
      let '(attempt, bytes, answers) := TryRecv (buffer_size_ s) (sock w) in
      match attempt with
      | WouldBlock =>
          let w := set_sock w answers in
          Val (set_src w (set_buffers (src w) (storage_ (src w)) (rest ++ [buffer_id])), false)
      | Completed (Err error) =>
          let w := set_sock w answers in
          w ← RequestBackendStop (set_src w (set_buffers (src w) (storage_ (src w)) (rest ++ [buffer_id]))) (Some error);
          Val (w, false)
      | Completed (Ok n) =>
          if (n =? 0)%N then
            let w := set_sock w answers in
            w ← RequestBackendStop (set_src w (set_buffers (src w) (storage_ (src w)) (rest ++ [buffer_id]))) None;
            Val (w, false)
          else
            let w := set_sock w answers in
            let data := bytes ++ drop (length bytes) (default [] (storage_ (src w) !! buffer_id)) in
            let w := set_src w (set_buffers (src w) (<[buffer_id := data]> (storage_ (src w))) rest) in
            let '(s, recorded) := RecvSource.CompleteMultishotEvent EventDisposition.kProduced MultishotRequestDisposition.kMore (state_ (src w)) in
            let w := with_state w s in
            match recorded with
            | Err error =>
                w ← RequestBackendStop (set_src w (set_buffers (src w) (storage_ (src w)) (rest ++ [buffer_id]))) (Some error);
                Val (log_lost w bytes, false)
            | Ok _ =>
                let event := mkEvent buffer_id (length bytes) bytes in
                if room then
                  let w := log_received (set_src w (set_events (src w) (events_ (src w) ++ [event]))) bytes in
                  match pending_next_ (src w) with
                  | Some _ => w ← DeliverNextIfReady w; Val (w, false)
                  | None => Val (w, true)
                  end
                else
                  (* the temporary event returns its buffer *)
                  w ← ReturnBuffer w buffer_id;
                  let '(s, discarded) := RecvSource.DiscardQueuedEvent (state_ (src w)) in
                  ALYRN_CHECK discarded;;
                  w ← RequestBackendStop (with_state w s) (Some (Errno ENOMEM));
                  Val (log_lost w bytes, false)
            end
      end
  | None => w ← RequestBackendPause w; Val (w, false)
  end.

(** The loop; [fuel] bounds the passes by the buffers there are. *)
Fixpoint ready_loop (fuel : nat) (w : world) (rooms : list bool) : outcome world :=
  match fuel with
  | O => Panic
  | S fuel =>
      if negb (bool_decide (st w = kActive)) then Val w
      else '(w, more) ← ready_step w (hd true rooms);
           if (more : bool) then ready_loop fuel w (tl rooms) else Val w
  end.

Definition OnReady (w : world) (rooms : list bool) : outcome world :=
  if negb (bool_decide (st w = kActive)) || (RecvSource.armed_requests_ (state_ (src w)) =? 0) then Val w
  else ready_loop (S (length (available_buffers_ (src w)))) w rooms.

Definition OnClose (w : world) : outcome world := RequestBackendStop w None.
Definition OnError (w : world) (answer : Z + Z) : outcome world := RequestBackendStop w (Some (ErrorFromSocketErrorEvent answer)).
Definition DispatchLoopStop (w : world) : outcome world := RequestBackendStop w None.

(** ** Creation, destruction and moves *)

Record RecvSourceOptions := mkOptions { source_options : RecvSource.RecvSourceOptions; buffer_size : nat }.

Definition uint32_max : Z := 2 ^ 32 - 1.

Definition Valid (o : RecvSourceOptions) : bool :=
  RecvSource.Valid (source_options o) && (RecvSource.pending_depth (source_options o) =? 1) && (0 <? buffer_size o)%nat && (RecvSource.buffer_capacity (source_options o) <=? uint32_max).

(** Create on a loop; [room] is false when the buffers find no memory. *)
Definition Create (loop here : bool) (fd : Z) (o : RecvSourceOptions) (room : bool) : ResultE source :=
  if negb loop || (fd <? 0) || negb here then Err (Errno EINVAL)
  else if negb (Valid o) then Err (Errno EINVAL)
  else if size_max / Z.of_nat (buffer_size o) <? RecvSource.buffer_capacity (source_options o) then Err (Errno EOVERFLOW)
  else match RecvSource.Create (source_options o) with
  | Err e => Err e
  | Ok state =>
      if negb room then Err (Errno ENOMEM)
      else Ok (mkSource true fd state false false [] None None None (buffer_size o) ∅ (seqZ 0 (RecvSource.buffer_capacity (source_options o))) true)
  end.

Definition movable (s : source) : bool :=
  bool_decide (pending_next_ s = None) && bool_decide (pending_stop_ s = None) &&
  (bool_decide (RecvSource.state_ (state_ s) = kIdle) || bool_decide (RecvSource.state_ (state_ s) = kTerminal)) &&
  (match events_ s with [] => true | _ => false end) && (RecvSource.outstanding_leases_ (state_ s) =? 0).

(** The destructor's checks, and DetachChannel. *)
Definition destroy (s : source) (here : bool) : outcome source :=
  if negb (loop_ s) then Val s
  else
    ALYRN_CHECK here;;
    ALYRN_CHECK (movable s);;
    ALYRN_CHECK (Z.of_nat (length (available_buffers_ s)) =? RecvSource.buffer_capacity (RecvSource.options_ (state_ s)));;
    Val (mkSource (loop_ s) (fd_ s) (state_ s) false false (events_ s) (terminal_error_ s) None None (buffer_size_ s) (storage_ s) (available_buffers_ s) false).

(** The move constructor: the new source and what is left of the other one. The channel
    is moved first, which asks that the poller does not know it. *)
Definition move_source (other : source) : outcome (source * source) :=
  ALYRN_CHECK (negb (registered other));;
  ALYRN_CHECK (movable other);;
  ALYRN_CHECK (loop_ other);;
  Val (mkSource (loop_ other) (fd_ other) (state_ other) (reading other) false (events_ other) (terminal_error_ other) None None (buffer_size_ other) (storage_ other) (available_buffers_ other) true,
       mkSource false (-1) (state_ other) false false [] (terminal_error_ other) None None 0 ∅ [] false).

(** The move assignment; a destination without a loop has nothing to give up. *)
Definition move_assign_source (self other : source) : outcome (source * source) :=
  ALYRN_CHECK (movable self);;
  ALYRN_CHECK (movable other);;
  ALYRN_CHECK (loop_ other);;
  ALYRN_CHECK (negb (registered other));;
  Val (mkSource true (fd_ other) (state_ other) (reading other) false [] (terminal_error_ other) None None (buffer_size_ other) (storage_ other) (available_buffers_ other) true,
       mkSource false (-1) (state_ other) false false [] (terminal_error_ other) None None 0 ∅ [] false).

(** ** Scripts *)

Inductive action :=
| ANext (a : nat)                             (* co_await Next() *)
| AResume                                     (* the loop runs the first scheduled continuation *)
| ARelease (buffer_id : Z)                    (* a lease is released *)
| AArrive (answers : list recv_answer)        (* the socket has more to answer *)
| AReady (rooms : list bool)
| AClose
| AError (answer : Z + Z)
| ALoopStop                                   (* the loop begins to stop *)
| AStop (a : nat)                             (* co_await Stop() *)
| ARequestStop.

(** The first event of a list with a given buffer, and the others. *)
Fixpoint take_lease (buffer_id : Z) (es : list Event) : option (Event * list Event) :=
  match es with
  | [] => None
  | e :: es =>
      if e_buffer e =? buffer_id then Some (e, es)
      else match take_lease buffer_id es with Some (f, rest) => Some (f, e :: rest) | None => None end
  end.

(** [None]: not a call a program can make in this state. *)
Definition exec (w : world) (c : action) : option (outcome world) :=
  match c with
  | ANext a =>
      match nexts w !! a with
      | Some _ => None
      | None => Some (
          '(w, suspended) ← next_await_suspend (put_next w a new_next) a;
          if (suspended : bool) then Val w else '(w, _) ← next_await_resume w a; Val w)
      end
  | AResume =>
      match work w with
      | [] => None
      | (true, a) :: rest => Some ('(w, _) ← next_await_resume (set_work w rest) a; Val w)
      | (false, a) :: rest => Some (_ ← stop_await_resume w a; Val (set_work w rest))
      end
  | ARelease buffer_id =>
      match take_lease buffer_id (out w) with
      | None => None
      | Some (e, rest) => Some (ReturnBuffer (set_out w rest) (e_buffer e))
      end
  | AArrive answers => Some (Val (set_sock w (sock w ++ answers)))
  | AReady rooms => Some (OnReady w rooms)
  | AClose => Some (OnClose w)
  | AError answer => Some (OnError w answer)
  | ALoopStop => Some (if participant (src w) then DispatchLoopStop (set_loop_state w kStopping) else Val (set_loop_state w kStopping))
  | AStop a =>
      match stops w !! a with
      | Some _ => None
      | None => Some ('(w, _) ← Stop (put_stop w a new_stop) a; Val w)
      end
  | ARequestStop => Some ('(w, _) ← RequestStop w; Val w)
  end.

Definition initial (s : source) : world := mkWorld s true kRunning ∅ ∅ [] [] [] [] [] [].

Inductive reachable (s : source) : world -> Prop :=
| reach_initial : reachable s (initial s)
| reach_step w c w' : reachable s w -> exec w c = Some (Val w') -> reachable s w'.

End EpollRecv.
