(* ===== verification/EpollRecvInv.v ===== *)
(** * The epoll receive source: its invariant

    What a source, its queue, its leases, its buffers and its awaiters agree on, kept
    by taking an event, by completing awaiters, by stopping and by returning a buffer. *)

From Stdlib Require Import Strings.Byte.
From S2P Require Import Prelude Lifecycles Sources RecvSource ResultCells UringLoop EpollStream EpollRecv.

Module EpollRecvInv.
Import EpollRecv.
Import EpollStream(recv_answer, RecvData, RecvErrno, TryRecv, IoAttempt, Completed, WouldBlock).

(** ** The admission machine, as the source uses it *)

Abbreviation q_of w := (RecvSource.queued_events_ (state_ (src w))).
Abbreviation a_of w := (RecvSource.armed_requests_ (state_ (src w))).
Abbreviation l_of w := (RecvSource.outstanding_leases_ (state_ (src w))).
Abbreviation o_of w := (RecvSource.options_ (state_ (src w))).

(** The state after a call that changed the counters of a machine with no armed
    request, or that is active. *)
Definition settle (st : SourceState) (q l : Z) : SourceState :=
  match st with
  | Sources.kStopping | kDraining => if (q =? 0) && (l =? 0) then kTerminal else kDraining
  | kPausing => kPaused
  | _ => st
  end.

Lemma reconcile_settles o st q l : RecvSource.ReconcileUnlessActive (RecvSource.mk o st q 0 l) = RecvSource.mk o (settle st q l) q 0 l.
Proof.
  unfold RecvSource.ReconcileUnlessActive, RecvSource.ReconcileStopping, RecvSource.ReconcilePause, RecvSource.set_state.
  destruct st; simpl; repeat (split_if; bool_prop; simplify_eq/=); try done; try lia.
Qed.

Lemma reconcile_active o q a l : RecvSource.ReconcileUnlessActive (RecvSource.mk o kActive q a l) = RecvSource.mk o kActive q a l.
Proof. done. Qed.

(** The core of the invariant: the machine agrees with the queue, the leases, the
    buffers and the channel, and the awaiters with the slots. *)
Record core (o : RecvSource.RecvSourceOptions) (size : nat) (w : world) : Prop := {
  c_loop : loop_ (src w) = true;
  c_here : here w = true;
  c_fd : 0 <= fd_ (src w);
  c_size : buffer_size_ (src w) = size;
  c_part : participant (src w) = true;
  c_options : o_of w = o;
  c_inv : RecvSource.inv (state_ (src w));
  c_state : st w = kIdle \/ st w = kActive \/ st w = kPaused \/ st w = kDraining \/ st w = kTerminal;
  c_reading : reading (src w) = negb (a_of w =? 0);
  c_queue : q_of w = Z.of_nat (length (events_ (src w)));
  c_leases : l_of w = Z.of_nat (length (events_ (src w)) + length (out w));
  c_buffers : available_buffers_ (src w) ++ (e_buffer <$> events_ (src w)) ++ (e_buffer <$> out w) ≡ₚ seqZ 0 (RecvSource.buffer_capacity o);
  c_bytes e : e ∈ events_ (src w) ++ out w ->
    e_size e = length (e_bytes e) /\ (0 < e_size e <= size)%nat /\ take (e_size e) (default [] (storage_ (src w) !! e_buffer e)) = e_bytes e;
  c_log : received w = taken w ++ (e_bytes <$> events_ (src w)) ++ lost w;
  c_lost : lost w <> [] -> stopped (st w) = true;
  c_next a : pending_next_ (src w) = Some a -> nexts w !! a = Some (mkNext true CompletionGate.initial ValueResultState.kPending);
  c_stop a : pending_stop_ (src w) = Some a -> stops w !! a = Some (mkStop true CompletionGate.initial None);
  c_work_next a : (true, a) ∈ work w -> exists n, nexts w !! a = Some n /\ ValueResultState.HasResult (n_result n) = true;
  c_work_stop a : (false, a) ∈ work w -> exists p r, stops w !! a = Some p /\ p_result p = Some r;
  c_work_nodup : NoDup (work w);
}.

Definition admitted (w : world) : Prop := st w = kActive -> a_of w = 0 -> RecvSource.CanArm (state_ (src w)) = false.

(** What a waiting Next and a waiting Stop wait for. *)
Definition next_waits (w : world) : Prop := forall a, pending_next_ (src w) = Some a -> events_ (src w) = [] /\ st w <> kTerminal /\ st w <> kIdle.
Definition stop_waits (w : world) : Prop := forall a, pending_stop_ (src w) = Some a -> st w = kDraining.

Section core.
Context (o : RecvSource.RecvSourceOptions) (Hone : RecvSource.pending_depth o = 1) (size : nat).

Abbreviation core := (core o size).

Lemma core_bounds w : core w -> 0 <= q_of w <= RecvSource.event_capacity o /\ 0 <= a_of w <= 1 /\ 0 <= l_of w <= RecvSource.buffer_capacity o /\
  RecvSource.event_capacity o <= RecvSource.buffer_capacity o <= size_max /\ 0 < RecvSource.event_capacity o /\ q_of w <= l_of w.
Proof.
  intros C. pose proof (c_inv _ _ _ C) as Hi. pose proof (RecvSource.recv_options_valid _ (RecvSource.inv_options _ Hi) (RecvSource.inv_valid _ Hi)) as Hv.
  destruct Hi as [_ _ Hq Ha Hl _]. rewrite (c_options _ _ _ C) in *. rewrite Hone in *. pose proof (c_queue _ _ _ C). pose proof (c_leases _ _ _ C). lia.
Qed.

(** Only an active source has an armed request. *)
Lemma core_armed w : core w -> a_of w <> 0 -> st w = kActive.
Proof.
  intros C Ha. pose proof (RecvSource.inv_state _ (c_inv _ _ _ C)) as Hc. destruct (c_state _ _ _ C) as [E|[E|[E|[E|E]]]]; unfold st in *; rewrite E in *; cbn in Hc; try done; lia.
Qed.

(** Fields of the world that the core does not read, or reads through one field. *)
Lemma core_state w s : core w -> RecvSource.inv s -> RecvSource.options_ s = o -> (RecvSource.state_ s = kIdle \/ RecvSource.state_ s = kActive \/ RecvSource.state_ s = kPaused \/ RecvSource.state_ s = kDraining \/ RecvSource.state_ s = kTerminal) ->
  RecvSource.armed_requests_ s = a_of w -> RecvSource.queued_events_ s = q_of w -> RecvSource.outstanding_leases_ s = l_of w -> (stopped (st w) = true -> stopped (RecvSource.state_ s) = true) -> core (with_state w s).
Proof. intros C Hi Ho Hs Ha Hq Hl Hst. destruct C. split; try done; cbn; rewrite ?Ha, ?Hq, ?Hl; auto. Qed.

Lemma TryArm_spec w : core w -> st w = kActive -> a_of w = 0 ->
  if RecvSource.CanArm (state_ (src w)) then RecvSource.TryArm (state_ (src w)) = (RecvSource.mk o kActive (q_of w) 1 (l_of w), true)
  else RecvSource.TryArm (state_ (src w)) = (state_ (src w), false).
Proof.
  intros C Hs Ha. unfold RecvSource.TryArm. destruct (RecvSource.CanArm (state_ (src w))); cbn [negb]; [|done]. rewrite Ha, (c_options _ _ _ C). unfold st in Hs. rewrite Hs. done.
Qed.

Lemma EnsureAdmission_core w : core w ->
  core (EnsureAdmission w) /\ admitted (EnsureAdmission w) /\ st (EnsureAdmission w) = st w /\ events_ (src (EnsureAdmission w)) = events_ (src w) /\
  pending_next_ (src (EnsureAdmission w)) = pending_next_ (src w) /\ pending_stop_ (src (EnsureAdmission w)) = pending_stop_ (src w) /\
  nexts (EnsureAdmission w) = nexts w /\ stops (EnsureAdmission w) = stops w /\ q_of (EnsureAdmission w) = q_of w /\ l_of (EnsureAdmission w) = l_of w.
Proof.
  intros C. unfold EnsureAdmission. rewrite (c_loop _ _ _ C), (c_here _ _ _ C). cbn [negb orb].
  destruct (bool_decide (st w = kActive)) eqn:Es; bool_prop; cbn [negb orb]; [|split_and!; try done; intros ?; congruence].
  destruct (Z.eqb_spec (a_of w) 0) as [Ea|Ea]; cbn [negb]; [|split_and!; try done; intros ? ?; congruence].
  pose proof (TryArm_spec w C Es Ea) as HT. destruct (RecvSource.CanArm (state_ (src w))) eqn:Ec; rewrite HT.
  - pose proof (RecvSource.recv_inv_call RecvSource.OTryArm _ (c_inv _ _ _ C)) as Hi. cbn in Hi. rewrite HT in Hi. cbn in Hi. destruct C. split_and!; try done.
    + split; try done; [cbn; by right; left|]. intros Hl. apply c_lost0 in Hl. by rewrite Es in Hl.
  - split_and!; try done; [by destruct w as [[]] | intros _ _; exact Ec].
Qed.

(** What stopping or pausing leaves: no interest, no armed request. *)
Definition quiet (w : world) (s : SourceState) : world :=
  set_src w (set_state (set_channel (src w) false (registered (src w))) (RecvSource.mk o s (q_of w) 0 (l_of w))).

Lemma CompleteReadiness_spec w s : core w -> (s = st w /\ a_of w = 0 \/ s <> kActive /\ a_of w <> 0 \/ a_of w = 0) ->
  CompleteReadiness (with_state w (RecvSource.mk o s (q_of w) (a_of w) (l_of w))) = Val (quiet w (if a_of w =? 0 then s else settle s (q_of w) (l_of w))).
Proof.
  intros C Hs. pose proof (core_bounds w C) as (Hq & Ha & Hl & Hcap & _). unfold CompleteReadiness. cbn [src with_state set_src reading set_state]. rewrite (c_reading _ _ _ C).
  destruct (Z.eqb_spec (a_of w) 0) as [E|E]; cbn [negb].
  - unfold with_state, quiet. cbn. rewrite E. cbn. pose proof (c_reading _ _ _ C) as Hr. rewrite E in Hr. cbn in Hr. rewrite <- Hr. by destruct w as [[]].
  - assert (a_of w = 1) as Ea by lia. cbn. rewrite Ea. unfold RecvSource.CompleteMultishotEvent. cbn.
    change (usize 0) with 0. rewrite reconcile_settles. cbn. done.
Qed.

Lemma quiet_core w s : core w -> (if (q_of w =? 0) && (l_of w =? 0) then s = kTerminal else s = kDraining) \/ s = kPaused /\ st w = kActive -> core (quiet w s).
Proof.
  intros C Hs. pose proof (core_bounds w C) as (Hq & Ha & Hl & Hcap & _). pose proof (c_inv _ _ _ C) as Hi. destruct C. split; try done; cbn.
  - destruct Hi as [I1 I2 I3 I4 I5 I6]. rewrite c_options0 in *. split; cbn; try done; [lia|]. destruct (Z.eqb_spec (q_of w) 0), (Z.eqb_spec (l_of w) 0); cbn in Hs; destruct Hs as [->|[-> _]]; cbn; lia.
  - destruct ((q_of w =? 0) && (l_of w =? 0)); destruct Hs as [->|[-> _]]; auto.
  - intros Hl'. apply c_lost0 in Hl'. destruct ((q_of w =? 0) && (l_of w =? 0)); destruct Hs as [->|[-> Hs]]; try done; by rewrite Hs in Hl'.
Qed.

Definition stop_state (w : world) : SourceState := if (q_of w =? 0) && (l_of w =? 0) then kTerminal else kDraining.

Lemma stopping_settles s q a l : (s = kActive \/ s = kPaused /\ a = 0) ->
  RecvSource.RequestStop (RecvSource.mk o s q a l) = (RecvSource.mk o (if a =? 0 then settle Sources.kStopping q l else Sources.kStopping) q a l, Ok tt).
Proof.
  intros [->|[-> ->]]; unfold RecvSource.RequestStop, RecvSource.ReconcileStopping, RecvSource.ReconcilePause, RecvSource.set_state; cbn; repeat (split_if; bool_prop; simplify_eq/=); try done; lia.
Qed.

Lemma core_machine w : core w -> state_ (src w) = RecvSource.mk o (st w) (q_of w) (a_of w) (l_of w).
Proof. intros C. rewrite <- (c_options _ _ _ C). unfold st. by destruct (state_ (src w)). Qed.

Lemma stop_quiets w : core w -> exists s, RecvSource.RequestStop (state_ (src w)) = (s, Ok tt) /\ CompleteReadiness (with_state w s) = Val (quiet w (stop_state w)) /\ core (quiet w (stop_state w)).
Proof.
  intros C. assert (core (quiet w (stop_state w))) as C'.
  { apply quiet_core; [done|]. left. unfold stop_state. by destruct ((q_of w =? 0) && (l_of w =? 0)). }
  pose proof (RecvSource.inv_state _ (c_inv _ _ _ C)) as Hco. pose proof (core_machine w C) as Em. fold (st w) in Hco.
  assert (forall s, RecvSource.RequestStop (state_ (src w)) = (RecvSource.mk o s (q_of w) (a_of w) (l_of w), Ok tt) -> (s = st w /\ a_of w = 0 \/ s <> kActive /\ a_of w <> 0 \/ a_of w = 0) -> (if a_of w =? 0 then s else settle s (q_of w) (l_of w)) = stop_state w ->
    exists s, RecvSource.RequestStop (state_ (src w)) = (s, Ok tt) /\ CompleteReadiness (with_state w s) = Val (quiet w (stop_state w)) /\ core (quiet w (stop_state w))) as K.
  { intros s Hr Hs E. eexists. split; [exact Hr|]. split; [|done]. rewrite (CompleteReadiness_spec w s C Hs), E. done. }
  destruct (c_state _ _ _ C) as [E|[E|[E|[E|E]]]]; rewrite E in Em, Hco; cbn in Hco.
  - destruct Hco as (Eq & Ea & El). apply (K kTerminal); [by rewrite Em|auto|]. unfold stop_state. by rewrite Ea, Eq, El.
  - destruct (Z.eqb_spec (a_of w) 0) as [Ea|Ea].
    + apply (K (stop_state w)); [rewrite Em, stopping_settles by auto; by rewrite Ea | auto | by destruct (a_of w =? 0)].
    + apply (K Sources.kStopping); [rewrite Em, stopping_settles by auto; cbn; by rewrite (proj2 (Z.eqb_neq _ _) Ea) | by right; left | done].
  - apply (K (stop_state w)); [rewrite Em, stopping_settles by auto; cbn; by rewrite Hco | auto | by rewrite Hco].
  - destruct Hco as [Ea Hne]. apply (K kDraining); [by rewrite Em | auto|]. rewrite Ea. cbn. unfold stop_state. destruct (Z.eqb_spec (q_of w) 0), (Z.eqb_spec (l_of w) 0); cbn; try done. exfalso. by apply Hne.
  - destruct Hco as (Ea & Eq & El). apply (K kTerminal); [by rewrite Em | auto|]. rewrite Ea. unfold stop_state. by rewrite Eq, El.
Qed.

(** ** Taking an event *)

(** What a call that hands out an event leaves alone. *)
Definition kept (w w' : world) : Prop :=
  pending_next_ (src w') = pending_next_ (src w) /\ pending_stop_ (src w') = pending_stop_ (src w) /\ nexts w' = nexts w /\ stops w' = stops w /\
  loop_state w' = loop_state w /\ terminal_error_ (src w') = terminal_error_ (src w).

Lemma core_queued w : core w -> events_ (src w) <> [] -> st w = kActive \/ a_of w = 0 /\ (st w = kPaused \/ st w = kDraining).
Proof.
  intros C Hne. pose proof (RecvSource.inv_state _ (c_inv _ _ _ C)) as Hco. pose proof (c_queue _ _ _ C) as Hq. fold (st w) in Hco.
  assert (length (events_ (src w)) <> 0%nat) by (by destruct (events_ (src w))).
  destruct (c_state _ _ _ C) as [E|[E|[E|[E|E]]]]; rewrite E in *; cbn in Hco; auto; [lia | right; tauto | lia].
Qed.

Lemma acquire_core w e rest : core w -> events_ (src w) = e :: rest ->
  RecvSource.AcquireEvent (state_ (src w)) = (RecvSource.mk o (st w) (q_of w - 1) (a_of w) (l_of w), true) /\
  core (log_taken (with_state (set_src w (set_events (src w) rest)) (RecvSource.mk o (st w) (q_of w - 1) (a_of w) (l_of w))) e).
Proof.
  intros C He. pose proof (core_bounds w C) as (Hq & Ha & Hl & Hcap & _ & Hql). pose proof (c_queue _ _ _ C) as Eq. rewrite He in Eq. cbn in Eq.
  assert (events_ (src w) <> []) as Hne by (by rewrite He). pose proof (core_queued w C Hne) as Hs.
  assert (RecvSource.AcquireEvent (state_ (src w)) = (RecvSource.mk o (st w) (q_of w - 1) (a_of w) (l_of w), true)) as EA.
  { unfold RecvSource.AcquireEvent. rewrite (proj2 (Z.eqb_neq (q_of w) 0)) by lia. rewrite usize_small by (unfold is_usize; lia). fold (st w). rewrite (c_options _ _ _ C). f_equal.
    destruct Hs as [E|[Ea [E|E]]]; rewrite E; [done| |]; rewrite Ea, reconcile_settles; cbn; [done|]. by rewrite (proj2 (Z.eqb_neq (l_of w) 0)), andb_false_r by lia. }
  split; [exact EA|]. pose proof (RecvSource.recv_inv_call RecvSource.OAcquireEvent _ (c_inv _ _ _ C)) as Hi. cbn in Hi. rewrite EA in Hi. cbn in Hi.
  destruct C. split; try done; cbn; rewrite ?length_app; cbn.
  - lia.
  - rewrite c_leases0, He. cbn. lia.
  - rewrite <- c_buffers0, He, fmap_app. cbn. rewrite (Permutation_app_comm (e_buffer <$> out w)). cbn. rewrite <- Permutation_middle. done.
  - intros f Hf. apply c_bytes0. rewrite He. set_solver.
  - rewrite c_log0, He. cbn. by rewrite <- !app_assoc.
Qed.

Lemma TryTakeNext_empty w : events_ (src w) = [] ->
  TryTakeNext w = Val (w, if bool_decide (st w = kTerminal) then Some (match terminal_error_ (src w) with Some error => Err error | None => Ok None end) else None).
Proof. intros He. unfold TryTakeNext. rewrite He. by destruct (bool_decide (st w = kTerminal)). Qed.

Lemma TryTakeNext_event w e rest : core w -> events_ (src w) = e :: rest ->
  exists w', TryTakeNext w = Val (w', Some (Ok (Some e))) /\ core w' /\ admitted w' /\ kept w w' /\ events_ (src w') = rest /\ taken w' = taken w ++ [e_bytes e] /\
    (st w' = st w \/ st w = kPaused /\ st w' = kActive) /\ work w' = work w.
Proof.
  intros C He. destruct (acquire_core w e rest C He) as [EA C1]. unfold TryTakeNext. rewrite He. cbn [src set_src set_events state_]. rewrite EA. cbn [mbind outcome_bind].
  set (w1 := log_taken _ _) in *. assert (st w1 = st w) as E1 by done.
  set (w2 := if bool_decide (st w1 = kPaused) then _ else w1).
  assert (core w2 /\ kept w w2 /\ events_ (src w2) = rest /\ taken w2 = taken w ++ [e_bytes e] /\ (st w2 = st w \/ st w = kPaused /\ st w2 = kActive) /\ work w2 = work w) as (C2 & K2 & R2 & T2 & S2 & W2).
  { subst w2. case_bool_decide as Ep; [|by split_and!; auto]. rewrite E1 in Ep. unfold RecvSource.TryResume. cbn. fold (st w). rewrite Ep. cbn. case_match; cbn.
    - split_and!; auto; try done. unfold w1 in *. rewrite Ep in C1. exact C1.
    - split_and!; auto; try done. apply core_state; try done; auto.
      + pose proof (c_inv _ _ _ C1) as [I1 I2 I3 I4 I5 I6]. by split.
      + cbn. rewrite Ep. done. }
  destruct (EnsureAdmission_core w2 C2) as (C3 & A3 & S3 & R3 & P3 & P3' & N3 & N3' & _). clearbody w2. clear EA.
  eexists. split; [reflexivity|]. split; [exact C3|]. split; [exact A3|]. destruct K2 as (K1 & K2 & K3 & K4 & K5 & K6).
  assert (taken (EnsureAdmission w2) = taken w2 /\ work (EnsureAdmission w2) = work w2 /\ loop_state (EnsureAdmission w2) = loop_state w2 /\ terminal_error_ (src (EnsureAdmission w2)) = terminal_error_ (src w2)) as (T3 & W3 & L3 & Te3).
  { unfold EnsureAdmission. destruct (_ || _); [done|]. destruct (RecvSource.TryArm _) as [s []]; done. }
  unfold kept. split_and!; congruence.
Qed.

(** ** Completing awaiters *)

Lemma core_set_next w v : core w -> (forall a, v = Some a -> nexts w !! a = Some (mkNext true CompletionGate.initial ValueResultState.kPending)) -> core (set_src w (set_next (src w) v)).
Proof. intros [] Hv. by split. Qed.

Lemma core_set_stop w v : core w -> (forall a, v = Some a -> stops w !! a = Some (mkStop true CompletionGate.initial None)) -> core (set_src w (set_stop (src w) v)).
Proof. intros [] Hv. by split. Qed.

(** An awaiter that is not the parked one can be replaced, as long as a scheduled one keeps a result. *)
Lemma core_put_next w a n : core w -> pending_next_ (src w) <> Some a -> ((true, a) ∈ work w -> ValueResultState.HasResult (n_result n) = true) -> core (put_next w a n).
Proof.
  intros C Hp Hw. destruct C. split; try done; cbn.
  - intros b Hb. rewrite lookup_insert_ne by congruence. auto.
  - intros b Hb. destruct (decide (a = b)) as [<-|Hne]; [rewrite lookup_insert_eq | rewrite lookup_insert_ne by done]; eauto.
Qed.

Lemma core_put_stop w a p : core w -> pending_stop_ (src w) <> Some a -> ((false, a) ∈ work w -> exists r, p_result p = Some r) -> core (put_stop w a p).
Proof.
  intros C Hp Hw. destruct C. split; try done; cbn.
  - intros b Hb. rewrite lookup_insert_ne by congruence. auto.
  - intros b Hb. destruct (decide (a = b)) as [<-|Hne]; [rewrite lookup_insert_eq | rewrite lookup_insert_ne by done]; [|eauto]. destruct (Hw Hb) as [r Hr]. eauto.
Qed.

Lemma core_schedule w k : core w -> k ∉ work w -> (forall a, k = (true, a) -> exists n, nexts w !! a = Some n /\ ValueResultState.HasResult (n_result n) = true) ->
  (forall a, k = (false, a) -> exists p r, stops w !! a = Some p /\ p_result p = Some r) -> core (set_work w (work w ++ [k])).
Proof.
  intros C Hk Hn Hs. destruct C. split; try done; cbn.
  - intros a [Ha|Ha%list_elem_of_singleton]%elem_of_app; eauto.
  - intros a [Ha|Ha%list_elem_of_singleton]%elem_of_app; eauto.
  - apply NoDup_app. split_and!; [done| |apply NoDup_singleton]. intros x Hx Hx'%list_elem_of_singleton. by subst.
Qed.

Lemma parked_not_scheduled w a : core w -> pending_next_ (src w) = Some a -> (true, a) ∉ work w.
Proof. intros C Hp Hw. apply (c_next _ _ _ C) in Hp. apply (c_work_next _ _ _ C) in Hw as (n & Hn & Hr). by simplify_eq. Qed.

Lemma parked_stop_not_scheduled w a : core w -> pending_stop_ (src w) = Some a -> (false, a) ∉ work w.
Proof. intros C Hp Hw. apply (c_stop _ _ _ C) in Hp. apply (c_work_stop _ _ _ C) in Hw as (n & r & Hn & Hr). by simplify_eq. Qed.

Lemma next_Complete_core w a r : core w -> pending_next_ (src w) = Some a ->
  exists w', next_Complete (set_src w (set_next (src w) None)) a r = Val w' /\ core w' /\ src w' = set_next (src w) None /\ stops w' = stops w.
Proof.
  intros C Hp. pose proof (c_next _ _ _ C a Hp) as Hn. pose proof (parked_not_scheduled w a C Hp) as Hw. unfold next_Complete, get_next. cbn. rewrite Hn. cbn.
  destruct r as [r|r]; cbn; (eexists; split; [reflexivity|]; split; [|done]; apply (core_schedule (put_next (set_src w (set_next (src w) None)) a _) (true, a));
    [ apply core_put_next; [by apply core_set_next | done | done] | done | intros b [= <-]; cbn; rewrite lookup_insert_eq; eauto | done ]).
Qed.

Lemma stop_Complete_core w a r : core w -> pending_stop_ (src w) = Some a ->
  exists w', stop_Complete (set_src w (set_stop (src w) None)) a r = Val w' /\ core w' /\ src w' = set_stop (src w) None.
Proof.
  intros C Hp. pose proof (c_stop _ _ _ C a Hp) as Hn. pose proof (parked_stop_not_scheduled w a C Hp) as Hw. unfold stop_Complete, get_stop. cbn. rewrite Hn. cbn.
  eexists; split; [reflexivity|]; split; [|done]. apply (core_schedule (put_stop (set_src w (set_stop (src w) None)) a _) (false, a));
    [ apply core_put_stop; [by apply core_set_stop | done | done] | done | done | intros b [= <-]; cbn; rewrite lookup_insert_eq; eauto ].
Qed.

(** ** Delivery *)

Definition steady (w w' : world) : Prop := st w' = st w \/ st w = kPaused /\ st w' = kActive.

Lemma DeliverNextIfReady_core w : core w -> (pending_next_ (src w) <> None -> st w <> kIdle) ->
  exists w', DeliverNextIfReady w = Val w' /\ core w' /\ next_waits w' /\ steady w w' /\ pending_stop_ (src w') = pending_stop_ (src w) /\ (admitted w -> admitted w').
Proof.
  intros C Hidle. unfold DeliverNextIfReady. destruct (pending_next_ (src w)) as [a|] eqn:Hp; [|exists w; split_and!; try done; [intros ?; congruence|by left]].
  destruct (events_ (src w)) as [|e rest] eqn:He.
  - rewrite TryTakeNext_empty by done. cbn. case_bool_decide as Et.
    + destruct (next_Complete_core w a (match terminal_error_ (src w) with Some error => Err error | None => Ok None end) C Hp) as (w' & -> & C' & Es & _). exists w'. split_and!; try done.
      * intros b. by rewrite Es. * left. unfold st. by rewrite Es. * by rewrite Es. * unfold admitted, st. by rewrite Es.
    + exists w. split_and!; try done; [|by left]. intros b Hb. split_and!; try done. by apply Hidle.
  - destruct (TryTakeNext_event w e rest C He) as (w1 & -> & C1 & A1 & K1 & R1 & _ & S1 & _). destruct K1 as (K1 & K2 & K3 & K4 & _). cbn.
    destruct (next_Complete_core w1 a (Ok (Some e)) C1) as (w' & -> & C' & Es & _); [congruence|]. exists w'. split_and!; try done.
    * intros b. by rewrite Es. * unfold steady, st in *. by rewrite Es. * by rewrite Es. * intros _. unfold admitted, st in *. by rewrite Es.
Qed.

Lemma CompleteStopIfReady_core w : core w -> admitted w -> next_waits w -> (pending_stop_ (src w) <> None -> stopped (st w) = true) ->
  exists w', CompleteStopIfReady w = Val w' /\ core w' /\ admitted w' /\ next_waits w' /\ stop_waits w' /\ st w' = st w.
Proof.
  intros C HA HN Hs. unfold CompleteStopIfReady. destruct (pending_stop_ (src w)) as [a|] eqn:Hp; [|exists w; split_and!; try done; intros ?; congruence].
  pose proof (RecvSource.inv_state _ (c_inv _ _ _ C)) as Hco. fold (st w) in Hco. pose proof (c_state _ _ _ C) as Hcs.
  case_bool_decide as Et; cbn [negb orb].
  - rewrite Et in Hco. destruct Hco as (-> & _). cbn. destruct (stop_Complete_core w a (Ok tt) C Hp) as (w' & -> & C' & Es). exists w'. unfold admitted, next_waits, stop_waits, st in *. rewrite Es. split_and!; try done.
  - exists w. split_and!; try done. intros b _. specialize (Hs ltac:(done)). destruct Hcs as [E|[E|[E|[E|E]]]]; rewrite E in Hs; done.
Qed.

(** ** The invariant *)

Record inv (w : world) : Prop := { i_core : core w; i_admitted : admitted w; i_next : next_waits w; i_stop : stop_waits w }.

Lemma core_set_error w v : core w -> core (set_src w (set_error (src w) v)).
Proof. intros []. by split. Qed.

Lemma stop_state_stopped w : stop_state w = kTerminal \/ stop_state w = kDraining.
Proof. unfold stop_state. destruct (_ && _); auto. Qed.

Lemma RequestBackendStop_inv w error : core w ->
  exists w', RequestBackendStop w error = Val w' /\ inv w' /\ stopped (st w') = true /\ (pending_next_ (src w) = None -> st w' = stop_state w).
Proof.
  intros C. unfold RequestBackendStop. set (w1 := match error with Some _ => _ | None => _ end).
  assert (core w1 /\ stop_state w1 = stop_state w /\ pending_next_ (src w1) = pending_next_ (src w)) as (C1 & E1 & P1).
  { subst w1. destruct error; [|done]. destruct (terminal_error_ (src w)); [done|]. split_and!; try done. by apply core_set_error. }
  clearbody w1. destruct (stop_quiets w1 C1) as (s & -> & HR & C2). cbn. rewrite HR. cbn. set (w2 := quiet w1 _) in *.
  assert (st w2 = stop_state w1) as E2 by done. pose proof (stop_state_stopped w1) as Hs.
  destruct (DeliverNextIfReady_core w2 C2) as (w3 & -> & C3 & N3 & S3 & P3 & _); [intros _; rewrite E2; destruct Hs as [->| ->]; done|].
  assert (st w3 = stop_state w1) as E3 by (unfold steady in S3; rewrite E2 in S3; destruct Hs as [Hs|Hs]; rewrite Hs in *; by destruct S3 as [|[? ?]]).
  assert (stopped (st w3) = true) as T3 by (rewrite E3; destruct Hs as [->| ->]; done). cbn.
  destruct (CompleteStopIfReady_core w3 C3) as (w4 & -> & C4 & A4 & N4 & S4 & E4); try done.
  - intros E. by rewrite E in T3.
  - exists w4. split; [done|]. split; [done|]. rewrite E4. split; [done|]. intros _. congruence.
Qed.

(** ** Returning a buffer *)

Lemma take_lease_spec b es e rest : take_lease b es = Some (e, rest) -> e_buffer e = b /\ es ≡ₚ e :: rest.
Proof.
  revert rest. induction es as [|f es IH]; intros rest; cbn; [done|]. destruct (Z.eqb_spec (e_buffer f) b); [by intros [= -> ->]|].
  destruct (take_lease b es) as [[g r]|]; [|done]. intros [= -> <-]. destruct (IH r eq_refl) as [Hb Hp]. split; [done|]. rewrite Hp. apply Permutation_swap.
Qed.

Lemma core_leased w : core w -> out w <> [] -> st w = kActive \/ a_of w = 0 /\ (st w = kPaused \/ st w = kDraining).
Proof.
  intros C Hne. pose proof (RecvSource.inv_state _ (c_inv _ _ _ C)) as Hco. pose proof (c_leases _ _ _ C) as Hl. fold (st w) in Hco.
  assert (length (out w) <> 0%nat) by (by destruct (out w)).
  destruct (c_state _ _ _ C) as [E|[E|[E|[E|E]]]]; rewrite E in *; cbn in Hco; auto; [lia | right; tauto | lia].
Qed.

Lemma buffers_length w : core w -> Z.of_nat (length (available_buffers_ (src w)) + length (events_ (src w)) + length (out w)) = RecvSource.buffer_capacity o.
Proof.
  intros C. pose proof (Permutation_length (c_buffers _ _ _ C)) as Hl. rewrite !length_app, !length_fmap, length_seqZ in Hl. pose proof (core_bounds w C). lia.
Qed.

Definition release_state (w : world) : SourceState := if bool_decide (st w = kActive) then kActive else settle (st w) (q_of w) (l_of w - 1).

Definition released (w : world) (b : Z) (rest : list Event) : world :=
  with_state (set_src (set_out w rest) (set_buffers (src w) (storage_ (src w)) (available_buffers_ (src w) ++ [b]))) (RecvSource.mk o (release_state w) (q_of w) (a_of w) (l_of w - 1)).

Lemma release_core w e rest : core w -> out w ≡ₚ e :: rest ->
  0 <= e_buffer e < RecvSource.buffer_capacity o /\ Z.of_nat (length (available_buffers_ (src w))) < RecvSource.buffer_capacity o /\
  RecvSource.ReleaseLease (state_ (src w)) = (RecvSource.mk o (release_state w) (q_of w) (a_of w) (l_of w - 1), true) /\ core (released w (e_buffer e) rest).
Proof.
  intros C Hp. pose proof (core_bounds w C) as (Hq & Ha & Hl & Hcap & _ & Hql). pose proof (c_leases _ _ _ C) as El. pose proof (Permutation_length Hp) as Hlen. cbn in Hlen.
  assert (out w <> []) as Hne by (intros E; by rewrite E in Hlen). pose proof (core_leased w C Hne) as Hs.
  assert (e_buffer e ∈ seqZ 0 (RecvSource.buffer_capacity o)) as Hb by (rewrite <- (c_buffers _ _ _ C), Hp; set_solver). apply elem_of_seqZ in Hb.
  pose proof (buffers_length w C) as Hbl.
  assert (RecvSource.ReleaseLease (state_ (src w)) = (RecvSource.mk o (release_state w) (q_of w) (a_of w) (l_of w - 1), true)) as EA.
  { unfold RecvSource.ReleaseLease. rewrite (proj2 (Z.eqb_neq (l_of w) 0)) by lia. rewrite usize_small by (unfold is_usize; lia). fold (st w). rewrite (c_options _ _ _ C). f_equal. unfold release_state.
    destruct Hs as [E|[Ea [E|E]]]; rewrite E; [done| |]; rewrite Ea, reconcile_settles; done. }
  split; [lia|]. split; [lia|]. split; [exact EA|]. pose proof (RecvSource.recv_inv_call RecvSource.OReleaseLease _ (c_inv _ _ _ C)) as Hi. cbn in Hi. rewrite EA in Hi. cbn in Hi.
  destruct C. split; try done; cbn; rewrite ?length_app; cbn.
  - unfold st, release_state, settle. cbn. destruct Hs as [->|[_ [->| ->]]]; cbn; repeat case_match; auto.
  - rewrite c_leases0. lia.
  - rewrite <- c_buffers0, Hp. cbn. rewrite <- !app_assoc. f_equiv. cbn. by rewrite Permutation_middle, <- (Permutation_middle (e_buffer <$> events_ (src w))).
  - intros f Hf. apply c_bytes0. rewrite Hp. set_solver.
  - intros Hlo. apply c_lost0 in Hlo. change (stopped (release_state w) = true). unfold release_state, settle. destruct Hs as [E|[_ [E|E]]]; rewrite E in *; try done. cbn. by destruct (_ && _).
Qed.

Lemma ReturnBuffer_inv w b e rest : inv w -> take_lease b (out w) = Some (e, rest) ->
  exists w', ReturnBuffer (set_out w rest) (e_buffer e) = Val w' /\ inv w'.
Proof.
  intros [C HA HN HS] Ht. apply take_lease_spec in Ht as [_ Hp]. destruct (release_core w e rest C Hp) as (Hb & Hl & HR & C1).
  unfold ReturnBuffer. cbn. rewrite (c_loop _ _ _ C), (c_here _ _ _ C), (c_options _ _ _ C), HR. rewrite (proj2 (Z.ltb_lt _ _) (proj2 Hb)), (proj2 (Z.ltb_lt _ _) Hl). cbn.
  fold (released w (e_buffer e) rest). set (w1 := released w (e_buffer e) rest) in *.
  assert (out w <> []) as Hne by (intros E; rewrite E in Hp; by apply Permutation_nil_cons in Hp). pose proof (core_leased w C Hne) as Hs.
  assert (st w1 = release_state w) as E1 by done. unfold release_state, settle in E1.
  destruct (EnsureAdmission_core w1 C1) as (C2 & A2 & S2 & R2 & P2 & Q2 & _).
  destruct (DeliverNextIfReady_core _ C2) as (w3 & -> & C3 & N3 & S3 & P3 & A3).
  { intros _. rewrite S2, E1. destruct Hs as [->|[_ [->| ->]]]; cbn; try done. by destruct (_ && _). }
  cbn. destruct (CompleteStopIfReady_core w3 C3 (A3 A2) N3) as (w4 & -> & C4 & A4 & N4 & S4 & E4).
  { rewrite P3, Q2. change (pending_stop_ (src w1)) with (pending_stop_ (src w)). destruct (pending_stop_ (src w)) as [a|] eqn:Ep; [|done]. intros _. pose proof (HS a Ep) as Ed.
    unfold steady in S3. rewrite S2, E1, Ed in S3. cbn in S3. destruct S3 as [->|[Hx _]]; [by destruct (_ && _) | by destruct (_ && _)]. }
  exists w4. by split.
Qed.

End core.

End EpollRecvInv.
