(* ===== verification/EpollRecvSteps.v ===== *)
(** * The epoll receive source: every step keeps the invariant

    Next, Stop, readiness and the moves of the loop, over every script. *)

From Stdlib Require Import Strings.Byte.
From S2P Require Import Prelude Lifecycles Sources RecvSource ResultCells UringLoop EpollStream EpollRecv EpollRecvInv.

Module EpollRecvSteps.
Import EpollRecv EpollRecvInv.
Import EpollStream(recv_answer, RecvData, RecvErrno, TryRecv, IoAttempt, Completed, WouldBlock).

Section steps.
Context (o : RecvSource.RecvSourceOptions) (Hone : RecvSource.pending_depth o = 1) (size : nat).

Abbreviation core := (core o size).
Abbreviation inv := (inv o size).

(** ** Awaiting Next *)

Definition fresh_next (w : world) (a : nat) (bound : bool) : Prop :=
  nexts w !! a = Some (mkNext bound CompletionGate.initial ValueResultState.kPending) /\ ~ ((true, a) ∈ work w) /\ pending_next_ (src w) <> Some a.

(** The awaiter is done without suspending and can be resumed. *)
Definition next_done (w : world) (a : nat) : Prop :=
  (exists n, nexts w !! a = Some n /\ ValueResultState.HasResult (n_result n) = true) /\ ~ ((true, a) ∈ work w) /\ pending_next_ (src w) <> Some a.

Lemma inv_put_next w a n : inv w -> pending_next_ (src w) <> Some a -> ~ ((true, a) ∈ work w) -> inv (put_next w a n).
Proof. intros [C HA HN HS] Hp Hw. split; try done. by apply core_put_next. Qed.

Lemma next_inline_inv w a bound r : inv w -> fresh_next w a bound -> exists w', next_inline w a r = Val (w', false) /\ inv w' /\ next_done w' a.
Proof.
  intros I (Hn & Hw & Hp). unfold next_inline, get_next. rewrite Hn. cbn.
  destruct r as [r|r]; cbn; (eexists; split; [reflexivity|]; split; [by apply inv_put_next|]; split_and!; [cbn; rewrite lookup_insert_eq; eauto | done | done]).
Qed.

Lemma next_await_resume_inv w a : inv w -> next_done w a -> exists w' r, next_await_resume w a = Val (w', r) /\ inv w'.
Proof.
  intros I ((n & Hn & Hr) & Hw & Hp). unfold next_await_resume, get_next. rewrite Hn. cbn. destruct (n_result n); try done; cbn; (eexists _, _; split; [reflexivity|]; by apply inv_put_next).
Qed.

Lemma EnsureAdmission_arms w : core w -> st w = kActive -> a_of w = 0 -> RecvSource.CanArm (state_ (src w)) = true ->
  EnsureAdmission w = EnableReading (with_state w (RecvSource.mk o kActive (q_of w) 1 (l_of w))).
Proof.
  intros C E Ea Hc. pose proof (TryArm_spec o size w C E Ea) as HT. rewrite Hc in HT. unfold EnsureAdmission. rewrite (c_loop _ _ _ C), (c_here _ _ _ C), E, Ea, HT. done.
Qed.

(** Starting an idle source arms it: ENOBUFS is never the answer. *)
Lemma Start_inv w : inv w -> st w = kIdle ->
  exists w', Start w = (w', Ok tt) /\ core w' /\ admitted w' /\ st w' = kActive /\ reading (src w') = true /\ kept w w' /\ work w' = work w.
Proof.
  intros [C HA HN HS] E. pose proof (RecvSource.inv_state _ (c_inv _ _ _ C)) as Hco. fold (st w) in Hco. rewrite E in Hco. destruct Hco as (Eq & Ea & El).
  pose proof (c_inv _ _ _ C) as Hi. pose proof (RecvSource.recv_inv_call RecvSource.OStart _ Hi) as Hi'. cbn in Hi'. unfold Start, RecvSource.Start in *. fold (st w) in *. rewrite E in *. rewrite bool_decide_eq_true_2 in * by done. cbn in *.
  set (w1 := with_state w (RecvSource.set_state kActive (state_ (src w)))). assert (core w1) as C1.
  { apply core_state; try done; [exact (c_options _ _ _ C)|by right; left|]. by rewrite E. }
  assert (a_of (EnsureAdmission w1) = 1) as Ha.
  { rewrite EnsureAdmission_arms; try done. apply RecvSource.recv_CanArm_spec. cbn.
    pose proof (RecvSource.recv_options_valid _ (RecvSource.inv_options _ Hi) (RecvSource.inv_valid _ Hi)) as (H1 & H2 & H3 & H4). rewrite Eq, Ea, El, usize_small, Z.sub_0_r, usize_small by (unfold is_usize; lia). split_and!; try done; lia. }
  destruct (EnsureAdmission_core o size w1 C1) as (C2 & A2 & S2 & R2 & P2 & Q2 & N2 & T2 & _). rewrite Ha. cbn. eexists. split; [reflexivity|]. split_and!; try done.
  - rewrite (c_reading _ _ _ C2), Ha. done.
  - unfold kept. unfold EnsureAdmission. destruct (_ || _); [done|]. destruct (RecvSource.TryArm _) as [s []]; done.
  - unfold EnsureAdmission. destruct (_ || _); [done|]. destruct (RecvSource.TryArm _) as [s []]; done.
Qed.

Lemma next_wait_inv w a : inv w -> st w <> kIdle -> pending_next_ (src w) = None -> fresh_next w a false ->
  exists w' b, next_wait w a = Val (w', b) /\ inv w' /\ (b = false -> next_done w' a) /\ (b = true -> pending_next_ (src w') = Some a).
Proof.
  intros I Hi Hp F. pose proof I as [C HA HN HS]. destruct F as (Hn & Hw & _). unfold next_wait. destruct (events_ (src w)) as [|e rest] eqn:He.
  - rewrite TryTakeNext_empty by done. cbn. case_bool_decide as Et.
    { destruct (next_inline_inv w a false (match terminal_error_ (src w) with Some error => Err error | None => Ok None end) I) as (w' & Hr & I' & D); [by split_and!; try rewrite Hp|].
      exists w', false. by rewrite Hr. }
    unfold get_next. rewrite Hn. cbn. set (w1 := set_src _ _).
    assert (core w1) as C1. { apply (core_set_next o size (put_next w a _)); [by apply core_put_next; [|rewrite Hp|]|]. intros b [= <-]. cbn. by rewrite lookup_insert_eq. }
    destruct (EnsureAdmission_core o size w1 C1) as (C2 & A2 & S2 & R2 & P2 & Q2 & N2 & T2 & _).
    rewrite TryTakeNext_empty by (by rewrite R2). rewrite S2. change (st w1) with (st w). rewrite bool_decide_eq_false_2 by done. cbn.
    eexists _, true. split; [reflexivity|]. split; [|split; [done|intros _; by rewrite P2]]. split; try done.
    + intros b Hb. rewrite R2, S2. by split_and!.
    + intros b Hb. rewrite Q2 in Hb. rewrite S2. exact (HS b Hb).
  - destruct (TryTakeNext_event o Hone size w e rest C He) as (w1 & HT & C1 & A1 & (K1 & K2 & K3 & K4 & K5 & K6) & R1 & _ & S1 & W1). rewrite HT. cbn.
    destruct (next_inline_inv w1 a false (Ok (Some e))) as (w' & Hr & I' & D).
    + split; try done; [intros b Hb; congruence|]. intros b Hb. rewrite K2 in Hb. pose proof (HS b Hb) as Ed. destruct S1 as [->|[S1 _]]; [done|congruence].
    + split_and!; [by rewrite K3 | by rewrite W1 | by rewrite K1, Hp].
    + exists w', false. by rewrite Hr.
Qed.

Lemma next_await_suspend_inv w a : inv w -> fresh_next w a false ->
  exists w' b, next_await_suspend w a = Val (w', b) /\ inv w' /\ (b = false -> next_done w' a) /\ (b = true -> pending_next_ (src w') = Some a).
Proof.
  intros I F. pose proof I as [C HA HN HS].
  assert (forall r, exists w' b, next_inline w a r = Val (w', b) /\ inv w' /\ (b = false -> next_done w' a) /\ (b = true -> pending_next_ (src w') = Some a)) as K.
  { intros r. destruct (next_inline_inv w a false r I F) as (w' & Hr & I' & D). by exists w', false. }
  unfold next_await_suspend. rewrite (c_loop _ _ _ C), (c_here _ _ _ C). pose proof (c_fd _ _ _ C). rewrite (proj2 (Z.ltb_ge _ _)) by lia. cbn.
  destruct (pending_next_ (src w)) as [b|] eqn:Hp; [apply K|]. case_bool_decide as Ei; [|by apply next_wait_inv]. destruct (stopping w); [apply K|].
  destruct (Start_inv w I Ei) as (w1 & -> & C1 & A1 & E1 & _ & (K1 & K2 & K3 & K4 & K5 & K6) & W1). apply next_wait_inv.
  - split; try done; [intros b Hb; congruence|]. intros b Hb. rewrite K2 in Hb. pose proof (HS b Hb). congruence.
  - by rewrite E1.
  - by rewrite K1, Hp.
  - destruct F as (F1 & F2 & F3). split_and!; [by rewrite K3 | by rewrite W1 | by rewrite K1, Hp].
Qed.

(** ** Stopping *)

Lemma BeginStop_inv w : core w -> exists w', BeginStop w = Val (w', Ok (negb (bool_decide (st w' = kTerminal)))) /\ core w' /\ admitted w' /\ next_waits w' /\ pending_stop_ (src w') = pending_stop_ (src w) /\
  (st w' = kTerminal \/ st w' = kDraining).
Proof.
  intros C. unfold BeginStop. destruct (stop_quiets o Hone size w C) as (s & -> & HR & C2). rewrite HR. cbn. set (w2 := quiet o w _) in *.
  assert (st w2 = stop_state w) as E2 by done. pose proof (stop_state_stopped w) as Hs.
  destruct (DeliverNextIfReady_core o Hone size w2 C2) as (w3 & -> & C3 & N3 & S3 & P3 & _); [intros _; rewrite E2; destruct Hs as [->| ->]; done|].
  assert (st w3 = stop_state w) as E3 by (unfold steady in S3; rewrite E2 in S3; destruct Hs as [Hs|Hs]; rewrite Hs in *; by destruct S3 as [|[? ?]]).
  exists w3. split; [done|]. split_and!; try done; [intros E; destruct Hs; congruence|]. by rewrite E3.
Qed.

Lemma RequestStop_inv w : inv w -> exists w', RequestStop w = Val (w', Ok tt) /\ inv w' /\ (st w' = kTerminal \/ st w' = kDraining).
Proof.
  intros [C HA HN HS]. unfold RequestStop. rewrite (c_loop _ _ _ C), (c_here _ _ _ C). cbn. destruct (BeginStop_inv w C) as (w' & HB & C' & A' & N' & P' & S'). rewrite HB. cbn.
  exists w'. split; [done|]. split; [|done]. split; try done. intros a Ha. destruct S' as [S'|]; [|done]. exfalso. rewrite P' in Ha. pose proof (HS a Ha) as Ed.
  (* a draining source cannot become terminal by a second request *)
  unfold BeginStop in HB. pose proof (core_machine o size w C) as Em. rewrite Ed in Em. rewrite Em in HB. cbn in HB. pose proof (RecvSource.inv_state _ (c_inv _ _ _ C)) as Hco. fold (st w) in Hco. rewrite Ed in Hco. destruct Hco as [Ea Hne].
  rewrite (CompleteReadiness_spec o Hone size w kDraining C (or_intror (or_intror Ea))), Ea in HB. cbn in HB.
  assert (core (quiet o w kDraining)) as C2. { apply quiet_core; [done|done|]. left. destruct (Z.eqb_spec (q_of w) 0), (Z.eqb_spec (l_of w) 0); cbn; try done. exfalso. by apply Hne. }
  destruct (DeliverNextIfReady_core o Hone size (quiet o w kDraining) C2) as (w3 & HD & _ & _ & S3 & _); [done|]. rewrite HD in HB. cbn in HB. simplify_eq. destruct S3 as [S3|[S3 _]]; [|done]. rewrite S3 in S'. done.
Qed.

Definition fresh_stop (w : world) (a : nat) : Prop := stops w !! a = Some new_stop /\ ~ ((false, a) ∈ work w) /\ pending_stop_ (src w) <> Some a.

Lemma inv_put_stop w a p : inv w -> pending_stop_ (src w) <> Some a -> (false, a) ∉ work w -> inv (put_stop w a p).
Proof. intros [C HA HN HS] Hp Hw. split; try done. by apply core_put_stop. Qed.

(** The awaiters that are scheduled, and every other stop, are left alone by BeginStop. *)
Lemma next_Complete_frame w a r w' : next_Complete w a r = Val w' -> stops w' = stops w /\ (forall b, (false, b) ∈ work w' -> (false, b) ∈ work w).
Proof.
  unfold next_Complete. destruct (get_next w a); cbn; [|done]. destruct (CompletionGate.TryComplete _) as [g []]; cbn; [|by intros [= <-]].
  destruct (ValueResultState.SetResult _ _); cbn; [|done]. destruct (n_bound _); cbn; [|done]. intros [= <-]. split; [done|]. cbn. intros b [Hb|Hb%list_elem_of_singleton]%elem_of_app; done.
Qed.

Lemma TryTakeNext_frame w w' r : TryTakeNext w = Val (w', r) -> stops w' = stops w /\ work w' = work w.
Proof.
  unfold TryTakeNext. destruct (events_ (src w)) as [|e rest]; [destruct (bool_decide _); by intros [= <- <-]|]. cbn. destruct (RecvSource.AcquireEvent _) as [s []]; cbn; [|done]. intros [= <- <-].
  set (w2 := if bool_decide _ then _ else _). assert (stops w2 = stops w /\ work w2 = work w) as [<- <-] by (subst w2; by destruct (bool_decide _)). clearbody w2.
  unfold EnsureAdmission. destruct (_ || _); [done|]. destruct (RecvSource.TryArm _) as [? []]; done.
Qed.

Lemma BeginStop_frame w w' r : BeginStop w = Val (w', r) -> stops w' = stops w /\ (forall b, (false, b) ∈ work w' -> (false, b) ∈ work w).
Proof.
  unfold BeginStop. destruct (RecvSource.RequestStop _) as [s [e|e]]; [|by intros [= <- <-]]. unfold CompleteReadiness. set (w1 := with_state w s).
  set (w2 := if reading (src w1) then _ else _). assert (stops w2 = stops w /\ work w2 = work w) as [E1 E2] by (subst w2; by destruct (reading _)). clearbody w2. clear w1.
  intros H. assert (exists w3, (w' ← DeliverNextIfReady w3; Val (w', Ok (negb (bool_decide (st w' = kTerminal))))) = Val (w', r) /\ stops w3 = stops w /\ work w3 = work w) as (w3 & H3 & E3 & E4).
  { destruct (negb _); [|by exists w2]. destruct (RecvSource.CompleteMultishotEvent _ _ _) as [s' []]; cbn in H; [|done]. by eexists. }
  unfold DeliverNextIfReady in H3. destruct (pending_next_ (src w3)) as [a|]; cbn in H3; [|by simplify_eq; rewrite E3, E4].
  destruct (TryTakeNext w3) as [[w4 r4]|] eqn:HT; cbn in H3; [|done]. apply TryTakeNext_frame in HT as [T1 T2]. destruct r4; cbn in H3; [|simplify_eq; by rewrite T1, T2, E3, E4].
  destruct (next_Complete _ _ _) eqn:HN; cbn in H3; [|done]. apply next_Complete_frame in HN as [N1 N2]. simplify_eq. rewrite N1. split; [by rewrite <- E3, <- T1|]. intros b Hb. apply N2 in Hb. cbn in Hb. by rewrite <- E4, <- T2.
Qed.

Lemma Stop_inv w a : inv w -> fresh_stop w a -> exists w' r, Stop w a = Val (w', r) /\ inv w' /\ (r = None -> pending_stop_ (src w') = Some a) /\ (pending_stop_ (src w) = None -> st w' = kTerminal \/ st w' = kDraining).
Proof.
  intros I (Hn & Hw & Hp). pose proof I as [C HA HN HS]. unfold Stop. rewrite (c_loop _ _ _ C), (c_here _ _ _ C). cbn. destruct (pending_stop_ (src w)) as [b|] eqn:Ep; [by eexists _, _; split_and!|].
  unfold stop_await_suspend. rewrite Ep. unfold get_stop. rewrite Hn. cbn. set (w1 := set_src _ _).
  assert (core w1) as C1. { apply (core_set_stop o size (put_stop w a _)); [by apply core_put_stop; [|rewrite Ep|]|]. intros b [= <-]. cbn. by rewrite lookup_insert_eq. }
  destruct (BeginStop_inv w1 C1) as (w2 & HB & C2 & A2 & N2 & P2 & S2). rewrite HB. cbn. apply BeginStop_frame in HB as [F1 F2]. case_bool_decide as Et; cbn.
  - unfold stop_inline, get_stop. cbn. rewrite F1. unfold w1. cbn. rewrite lookup_insert_eq. cbn. unfold stop_await_resume, get_stop. cbn. rewrite lookup_insert_eq. cbn. eexists _, _. split; [reflexivity|].
    split_and!; [|done|by left]. apply inv_put_stop; [|done|]. { split; try done. by apply core_set_stop. } cbn. intros Hb. by apply F2 in Hb.
  - eexists _, _. split; [reflexivity|]. split_and!; [|intros _; by rewrite P2|done]. split; try done. intros b Hb. by destruct S2.
Qed.

(** ** Readiness *)

Lemma pause_inv w : inv w -> st w = kActive -> a_of w <> 0 -> exists w', RequestBackendPause w = Val w' /\ inv w' /\ st w' = kPaused.
Proof.
  intros [C HA HN HS] E Ha. pose proof (core_machine o size w C) as Em. rewrite E in Em. pose proof (core_bounds o Hone size w C) as (_ & Hb & _). unfold RequestBackendPause. rewrite Em.
  assert (RecvSource.RequestPause (RecvSource.mk o kActive (q_of w) (a_of w) (l_of w)) = (RecvSource.mk o kPausing (q_of w) (a_of w) (l_of w), Ok tt)) as ->.
  { unfold RecvSource.RequestPause, RecvSource.ReconcilePause. cbn. rewrite (proj2 (Z.eqb_neq _ _) Ha). by rewrite andb_false_r. }
  cbn. rewrite (CompleteReadiness_spec o Hone size w kPausing C) by (right; left; done). rewrite (proj2 (Z.eqb_neq _ _) Ha). cbn. eexists. split; [reflexivity|]. split; [|done].
  split; try done; [by apply quiet_core; auto| |].
  - intros a Hn. destruct (HN a Hn) as (R & _). by split_and!.
  - intros a Hs. pose proof (HS a Hs). congruence.
Qed.

(** The buffer taken for a receive, given back unused. *)
Lemma core_sock w answers : core w -> core (set_sock w answers).
Proof. intros []. by split. Qed.

Lemma buffer_back w b answers : last (available_buffers_ (src w)) = Some b ->
  let w1 := set_sock (set_src w (set_buffers (src w) (storage_ (src w)) (removelast (available_buffers_ (src w))))) answers in
  set_src w1 (set_buffers (src w1) (storage_ (src w1)) (removelast (available_buffers_ (src w)) ++ [b])) = set_sock w answers.
Proof. intros Hl. apply last_Some in Hl as [av Hl]. rewrite Hl, removelast_last, <- Hl. by destruct w as [[]]. Qed.

(** A segment of received bytes, queued. *)
Definition produced (w : world) (b : Z) (bytes : list byte) (answers : list recv_answer) (es : list Event) : world :=
  let w := set_sock w answers in
  let w := set_src w (set_buffers (src w) (<[b := bytes ++ drop (length bytes) (default [] (storage_ (src w) !! b))]> (storage_ (src w))) (removelast (available_buffers_ (src w)))) in
  set_src w (set_events (set_state (src w) (RecvSource.mk o kActive (q_of w + 1) (a_of w) (l_of w + 1))) es).

Lemma produce_spec w : core w -> st w = kActive -> a_of w <> 0 -> RecvSource.CanQueueEvent (state_ (src w)) = true ->
  RecvSource.CompleteMultishotEvent EventDisposition.kProduced MultishotRequestDisposition.kMore (state_ (src w)) = (RecvSource.mk o kActive (q_of w + 1) (a_of w) (l_of w + 1), Ok tt).
Proof.
  intros C E Ha Hc. pose proof (core_bounds o Hone size w C) as (Hq & Hb & Hl & Hcap & _). unfold RecvSource.CompleteMultishotEvent. rewrite (proj2 (Z.eqb_neq _ _) Ha), Hc. cbn.
  unfold RecvSource.CanQueueEvent in Hc. bool_prop. rewrite (c_options _ _ _ C) in *. fold (st w). rewrite E, !usize_small by (unfold is_usize; lia). done.
Qed.

Lemma produced_core w b bytes answers : core w -> st w = kActive -> a_of w <> 0 -> RecvSource.CanQueueEvent (state_ (src w)) = true -> last (available_buffers_ (src w)) = Some b -> (0 < length bytes <= size)%nat -> lost w = [] ->
  core (log_received (produced w b bytes answers (events_ (src w) ++ [mkEvent b (length bytes) bytes])) bytes).
Proof.
  intros C E Ha Hc Hl Hb Hlo. pose proof (produce_spec w C E Ha Hc) as HP. pose proof (RecvSource.recv_inv_call (RecvSource.OCompleteMultishotEvent EventDisposition.kProduced MultishotRequestDisposition.kMore) _ (c_inv _ _ _ C)) as Hi. cbn in Hi. rewrite HP in Hi. cbn in Hi.
  apply last_Some in Hl as [av Hl]. assert (forall e, e ∈ events_ (src w) ++ out w -> e_buffer e <> b) as Hdis.
  { intros e He Heq. pose proof (NoDup_seqZ 0 (RecvSource.buffer_capacity o)) as Hnd. rewrite <- (c_buffers _ _ _ C), Hl in Hnd. rewrite <- fmap_app in Hnd. apply NoDup_app in Hnd as (_ & Hnd & _). apply (Hnd b); [set_solver|]. rewrite <- Heq. by apply list_elem_of_fmap_2. }
  destruct C. split; try done; cbn; rewrite ?length_app; cbn; try lia.
  - by right; left.
  - rewrite <- c_buffers0, Hl, removelast_last, fmap_app, <- !app_assoc. cbn. f_equiv. by rewrite Permutation_middle.
  - intros e He. assert (e = mkEvent b (length bytes) bytes \/ e ∈ events_ (src w) ++ out w) as [->|He'] by set_solver.
    + cbn. rewrite lookup_insert_eq. cbn. by rewrite take_app_length.
    + rewrite lookup_insert_ne by (intros Hx; by apply (Hdis e)). auto.
  - rewrite c_log0, Hlo, fmap_app, !app_nil_r, <- !app_assoc. done.
Qed.

Lemma TryRecv_bytes room answers n bytes rest : TryRecv room answers = (Completed (Ok n), bytes, rest) -> n = N.of_nat (length bytes) /\ (length bytes <= room)%nat.
Proof.
  induction answers as [|[d|e] answers IH]; cbn; [done| |].
  - intros [= <- <- <-]. rewrite length_take. lia.
  - repeat case_match; done.
Qed.

(** What a pass of the loop in OnReady leaves. *)
Definition step_ok (w w' : world) (more : bool) : Prop :=
  inv w' /\ (more = true -> st w' = kActive /\ a_of w' <> 0 /\ (length (available_buffers_ (src w')) < length (available_buffers_ (src w)))%nat).

Lemma stopped_step w0 w error : core w -> exists w' more, (w ← RequestBackendStop w error; Val (w, false)) = Val (w', more) /\ step_ok w0 w' more.
Proof. intros C. destruct (RequestBackendStop_inv o Hone size w error C) as (w' & -> & I & _). by exists w', false. Qed.

Lemma Deliver_waits w : (forall a, pending_next_ (src w) = Some a -> events_ (src w) = [] /\ st w <> kTerminal) -> DeliverNextIfReady w = Val w.
Proof.
  intros H. unfold DeliverNextIfReady. destruct (pending_next_ (src w)) as [a|]; [|done]. destruct (H a eq_refl) as [He Ht]. rewrite TryTakeNext_empty by done. by rewrite bool_decide_eq_false_2.
Qed.

Lemma CompleteStop_none w : pending_stop_ (src w) = None -> CompleteStopIfReady w = Val w.
Proof. intros H. unfold CompleteStopIfReady. by rewrite H. Qed.

Lemma EnsureAdmission_armed w : a_of w <> 0 -> EnsureAdmission w = w.
Proof. intros H. unfold EnsureAdmission. by rewrite (proj2 (Z.eqb_neq _ _) H), !orb_true_r. Qed.

Lemma release_active q a l : 0 <= l <= size_max -> RecvSource.ReleaseLease (RecvSource.mk o kActive q a (l + 1)) = (RecvSource.mk o kActive q a l, true).
Proof. intros Hl. unfold RecvSource.ReleaseLease. cbn [RecvSource.outstanding_leases_]. rewrite (proj2 (Z.eqb_neq (l + 1) 0)), Z.add_simpl_r, usize_small by (unfold is_usize; lia). done. Qed.

Lemma discard_active q a l : 0 <= q <= size_max -> RecvSource.DiscardQueuedEvent (RecvSource.mk o kActive (q + 1) a l) = (RecvSource.mk o kActive q a l, true).
Proof. intros Hl. unfold RecvSource.DiscardQueuedEvent. cbn [RecvSource.queued_events_]. rewrite (proj2 (Z.eqb_neq (q + 1) 0)), Z.add_simpl_r, usize_small by (unfold is_usize; lia). done. Qed.

(** The queue finds no memory: the buffer is back, the reservation undone, the bytes lost. *)
Lemma discard_room w b bytes answers : inv w -> st w = kActive -> a_of w <> 0 -> RecvSource.CanQueueEvent (state_ (src w)) = true -> last (available_buffers_ (src w)) = Some b ->
  let w1 := produced w b bytes answers (events_ (src w)) in
  exists w2, ReturnBuffer w1 b = Val w2 /\ w2 = set_src w1 (set_state (set_buffers (src w1) (storage_ (src w1)) (available_buffers_ (src w))) (RecvSource.mk o kActive (q_of w + 1) (a_of w) (l_of w))) /\
    RecvSource.DiscardQueuedEvent (state_ (src w2)) = (RecvSource.mk o kActive (q_of w) (a_of w) (l_of w), true).
Proof.
  intros I E Ha Hc Hl w1. pose proof I as [C HA HN HS]. pose proof (core_bounds o Hone size w C) as (Hq & Hb & Hll & Hcap & _). pose proof (buffers_length o Hone size w C) as Hbl.
  unfold RecvSource.CanQueueEvent in Hc. bool_prop. rewrite (c_options _ _ _ C) in *. apply last_Some in Hl as [av Hl]. rewrite Hl, length_app in Hbl. cbn in Hbl.
  assert (b ∈ seqZ 0 (RecvSource.buffer_capacity o)) as Hbs by (rewrite <- (c_buffers _ _ _ C), Hl; set_solver). apply elem_of_seqZ in Hbs.
  unfold ReturnBuffer. subst w1. cbn -[Z.add Z.sub usize]. rewrite (c_loop _ _ _ C), (c_here _ _ _ C), Hl, removelast_last. rewrite (proj2 (Z.ltb_lt b _)), (proj2 (Z.ltb_lt (Z.of_nat _) _)) by lia. cbn.
  rewrite release_active by lia.
  rewrite EnsureAdmission_armed by done. rewrite Deliver_waits by (intros a Hp; cbn; by destruct (HN a Hp)). cbn [mbind outcome_bind].
  assert (pending_stop_ (src w) = None) as Hs by (destruct (pending_stop_ (src w)) as [c|] eqn:Hs; [pose proof (HS c Hs); congruence|done]). rewrite CompleteStop_none by done.
  eexists. split; [reflexivity|]. split; [reflexivity|]. apply discard_active. lia.
Qed.

Lemma core_lost w bytes : core w -> stopped (st w) = true -> core (log_lost w bytes).
Proof. intros C Hs. destruct C. split; try done. cbn. by rewrite c_log0, <- !app_assoc. Qed.

Lemma core_storage w b bytes answers : core w -> b ∈ available_buffers_ (src w) ->
  core (set_src (set_sock w answers) (set_buffers (src w) (<[b := bytes]> (storage_ (src w))) (available_buffers_ (src w)))).
Proof.
  intros C Hb. destruct C. split; try done; cbn. intros e He. rewrite lookup_insert_ne; [auto|]. intros ->.
  pose proof (NoDup_seqZ 0 (RecvSource.buffer_capacity o)) as Hnd. rewrite <- c_buffers0, <- fmap_app in Hnd. apply NoDup_app in Hnd as (_ & Hnd & _). apply (Hnd (e_buffer e)); [done|]. by apply list_elem_of_fmap_2.
Qed.

Lemma ready_step_ok w room : inv w -> st w = kActive -> a_of w <> 0 -> lost w = [] -> exists w' more, ready_step w room = Val (w', more) /\ step_ok w w' more.
Proof.
  intros I E Ha Hlo. pose proof I as [C HA HN HS]. unfold ready_step. destruct (pause_inv w I E Ha) as (wp & HP & IP & _).
  destruct (last (available_buffers_ (src w))) as [b|] eqn:Hl; [|rewrite HP; by exists wp, false]. destruct (RecvSource.CanQueueEvent (state_ (src w))) eqn:Hc; cbn [negb]; [|rewrite HP; by exists wp, false].
  cbn [src set_src sock]. destruct (TryRecv (buffer_size_ (src w)) (sock w)) as [[attempt bytes] answers] eqn:HT.
  pose proof (buffer_back w b answers Hl) as HB. cbn zeta in HB. pose proof (core_sock w answers C) as Cs.
  destruct attempt as [[n|error]|]; [|rewrite HB; by apply stopped_step|rewrite HB; exists (set_sock w answers), false; split; [reflexivity|]; split; [split; [exact Cs|exact HA|exact HN|exact HS]|done]].
  apply TryRecv_bytes in HT as [-> Hn]. rewrite (c_size _ _ _ C) in Hn. destruct (N.eqb_spec (N.of_nat (length bytes)) 0) as [E0|E0]; [rewrite HB; by apply stopped_step|].
  cbn [src set_src set_buffers state_ set_sock]. rewrite (produce_spec w C E Ha Hc). cbn zeta iota. pose proof (produced_core w b bytes answers C E Ha Hc Hl ltac:(lia) Hlo) as C1.
  destruct room.
  - cbn [pending_next_ src set_src set_events set_state set_buffers with_state log_received events_ set_sock].
    change (set_src (with_state _ _) _) with (produced w b bytes answers (events_ (src w) ++ [mkEvent b (length bytes) bytes])). set (w1 := log_received _ _) in *.
    destruct (pending_next_ (src w)) as [a|] eqn:Hp.
    + destruct (DeliverNextIfReady_core o Hone size w1 C1) as (w2 & -> & C2 & N2 & S2 & P2 & A2); [done|]. exists w2, false. split; [done|]. split; [|done]. split; try done; [apply A2; intros _ E1; exfalso; exact (Ha E1)|]. intros c Hs. rewrite P2 in Hs. pose proof (HS c Hs). congruence.
    + exists w1, true. split; [done|]. split; [split; try done|].
      * intros _ E1; exfalso; exact (Ha E1). * intros a Hn'. cbn in Hn'. congruence. * intros c Hs. pose proof (HS c Hs). congruence.
      * intros _. split_and!; try done. cbn. apply last_Some in Hl as [av ->]. rewrite removelast_last, length_app. cbn. lia.
  - match goal with |- context [ReturnBuffer ?x b] => change x with (produced w b bytes answers (events_ (src w))) end. destruct (discard_room w b bytes answers I E Ha Hc Hl) as (w2 & -> & E2 & HD). cbn. rewrite HD. cbn.
    assert (core (with_state w2 (RecvSource.mk o kActive (q_of w) (a_of w) (l_of w)))) as C2.
    { pose proof (core_storage w b (bytes ++ drop (length bytes) (default [] (storage_ (src w) !! b))) answers C) as K. rewrite E2. pose proof (core_machine o size w C) as Em. rewrite E in Em.
      assert (b ∈ available_buffers_ (src w)) as Hb by (apply last_Some in Hl as [av ->]; set_solver). specialize (K Hb). unfold produced, with_state. cbn. destruct w as [[]]. cbn in *. rewrite <- Em. exact K. }
    destruct (RequestBackendStop_inv o Hone size _ (Some (Errno ENOMEM)) C2) as (w3 & -> & [C3 A3 N3 S3] & T3 & _). cbn. exists (log_lost w3 bytes), false. split; [done|]. split; [|done]. split; try done. by apply core_lost.
Qed.

Lemma lost_active w : inv w -> st w = kActive -> lost w = [].
Proof. intros I E. destruct (lost w) eqn:El; [done|]. exfalso. assert (stopped (st w) = true) as H by (apply (c_lost o size); [apply I | by rewrite El]). by rewrite E in H. Qed.

Lemma ready_loop_inv fuel w rooms : inv w -> st w = kActive -> a_of w <> 0 -> (length (available_buffers_ (src w)) < fuel)%nat -> exists w', ready_loop fuel w rooms = Val w' /\ inv w'.
Proof.
  revert w rooms. induction fuel as [|fuel IH]; intros w rooms I E Ha Hf; [lia|]. cbn [ready_loop]. rewrite E, bool_decide_eq_true_2 by done. cbn [negb].
  destruct (ready_step_ok w (hd true rooms) I E Ha (lost_active w I E)) as (w' & more & -> & I' & Hm). cbn [mbind outcome_bind]. destruct more; [|by exists w']. destruct (Hm eq_refl) as (E' & Ha' & Hlen). apply IH; try done. lia.
Qed.

Lemma OnReady_inv w rooms : inv w -> exists w', OnReady w rooms = Val w' /\ inv w'.
Proof.
  intros I. unfold OnReady. case_bool_decide as E; cbn [negb orb]; [|by exists w]. destruct (Z.eqb_spec (a_of w) 0) as [Ea|Ea]; [by exists w|]. apply ready_loop_inv; try done. lia.
Qed.

(** ** Every script *)

Lemma recv_exec_inv w c w' : inv w -> exec w c = Some w' -> exists w'', w' = Val w'' /\ inv w''.
Proof.
  intros I. pose proof I as [C HA HN HS]. destruct c as [a| |b|answers|rooms| |answer| |a|]; cbn.
  - destruct (nexts w !! a) eqn:En; [done|]. intros [= <-].
    assert (pending_next_ (src w) <> Some a /\ ~ ((true, a) ∈ work w)) as [Hp Hw]. { split; [intros Hp; apply (c_next _ _ _ C) in Hp; congruence | intros Hw; apply (c_work_next _ _ _ C) in Hw as (? & ? & _); congruence]. }
    destruct (next_await_suspend_inv (put_next w a new_next) a) as (w1 & b & -> & I1 & D & _); [by apply inv_put_next | by split_and!; [cbn; rewrite lookup_insert_eq|..] |]. cbn. destruct b; [by exists w1|].
    destruct (next_await_resume_inv w1 a I1 (D eq_refl)) as (w2 & r & -> & I2). by exists w2.
  - destruct (work w) as [|[[] a] rest] eqn:Ew; [done| |]; intros [= <-].
    + destruct (c_work_next _ _ _ C a) as (n & Hn & Hr); [rewrite Ew; by left|]. pose proof (c_work_nodup _ _ _ C) as Hnd. rewrite Ew in Hnd. apply NoDup_cons in Hnd as [Hni Hnd].
      assert (inv (set_work w rest)) as I1. { split; try done. destruct C. split; try done; cbn; intros b Hb; [apply c_work_next0 | apply c_work_stop0]; rewrite Ew; by right. }
      destruct (next_await_resume_inv (set_work w rest) a I1) as (w2 & r & -> & I2); [|by exists w2]. split_and!; [eauto|done|]. intros Hp. apply (c_next _ _ _ C) in Hp. by simplify_eq.
    + destruct (c_work_stop _ _ _ C a) as (p & r & Hn & Hr); [rewrite Ew; by left|]. unfold stop_await_resume, get_stop. rewrite Hn. cbn. rewrite Hr. cbn. eexists. split; [done|].
      pose proof (c_work_nodup _ _ _ C) as Hnd. rewrite Ew in Hnd. apply NoDup_cons in Hnd as [Hni Hnd]. split; try done. destruct C. split; try done; cbn; intros b Hb; [apply c_work_next0 | apply c_work_stop0]; rewrite Ew; by right.
  - destruct (take_lease b (out w)) as [[e rest]|] eqn:Ht; [|done]. intros [= <-]. destruct (ReturnBuffer_inv o Hone size w b e rest I Ht) as (w2 & -> & I2). by exists w2.
  - intros [= <-]. eexists. split; [done|]. split; try done. by apply core_sock.
  - intros [= <-]. destruct (OnReady_inv w rooms I) as (w2 & -> & I2). by exists w2.
  - intros [= <-]. destruct (RequestBackendStop_inv o Hone size w None C) as (w2 & H & I2 & _). unfold OnClose. rewrite H. by exists w2.
  - intros [= <-]. destruct (RequestBackendStop_inv o Hone size w (Some (EpollStream.ErrorFromSocketErrorEvent answer)) C) as (w2 & H & I2 & _). unfold OnError. rewrite H. by exists w2.
  - rewrite (c_part _ _ _ C). intros [= <-]. destruct (RequestBackendStop_inv o Hone size (set_loop_state w UringLoop.kStopping) None) as (w2 & H & I2 & _); [by destruct C|]. unfold DispatchLoopStop. rewrite H. by exists w2.
  - destruct (stops w !! a) eqn:En; [done|]. intros [= <-].
    assert (pending_stop_ (src w) <> Some a /\ ~ ((false, a) ∈ work w)) as [Hp Hw]. { split; [intros Hp; apply (c_stop _ _ _ C) in Hp; congruence | intros Hw; apply (c_work_stop _ _ _ C) in Hw as (? & ? & ? & _); congruence]. }
    destruct (Stop_inv (put_stop w a new_stop) a) as (w1 & r & -> & I1 & _); [by apply inv_put_stop | by split_and!; [cbn; rewrite lookup_insert_eq|..] |]. by exists w1.
  - intros [= <-]. destruct (RequestStop_inv w I) as (w1 & -> & I1 & _). by exists w1.
Qed.

End steps.

End EpollRecvSteps.
