(* ===== verification/EpollRecvProps.v ===== *)
(** * The epoll receive source: what it promises

    Over every script: nothing received is lost or changed, buffers are neither lost
    nor shared, what waits has something to wait for. And a pause that the return of
    the buffers does not end. *)

From Stdlib Require Import Strings.Byte.
From S2P Require Import Prelude Lifecycles Sources RecvSource ResultCells UringLoop EpollStream EpollRecv EpollRecvInv EpollRecvSteps.

Module EpollRecvProps.
Import EpollRecv EpollRecvInv EpollRecvSteps.
Import EpollStream(recv_answer, RecvData, RecvErrno).

Section created.
Context (fd : Z) (o : RecvSourceOptions) (s : source).
Context (Hr : RecvSource.options_in_range (source_options o)) (Hs : Create true true fd o true = Ok s).

Lemma create_inv : RecvSource.pending_depth (source_options o) = 1 /\ inv (source_options o) (buffer_size o) (initial s).
Proof.
  unfold Create in Hs. cbn in Hs. destruct (Z.ltb_spec fd 0) as [?|Hfd]; [done|]. cbn in Hs. destruct (Valid o) eqn:Hv; [|done]. cbn in Hs. destruct (_ <? RecvSource.buffer_capacity _); [done|].
  destruct (RecvSource.Create (source_options o)) as [m|] eqn:Hc; [|done]. injection Hs as <-. pose proof (RecvSource.recv_inv_Create _ _ Hr Hc) as Hi. unfold RecvSource.Create in Hc. destruct (RecvSource.Valid _); [|done]. injection Hc as <-.
  unfold Valid in Hv. bool_prop. split; [lia|]. split; try done. split; try done; cbn; auto; try set_solver; [by rewrite app_nil_r | apply NoDup_nil_2].
Qed.

Lemma recv_source_reachable_inv w : reachable s w -> inv (source_options o) (buffer_size o) w.
Proof.
  destruct create_inv as [H1 H0]. induction 1 as [|w c w' _ IH Hx]; [done|]. destruct (recv_exec_inv _ H1 _ w c _ IH Hx) as (w2 & [= <-] & I). done.
Qed.

End created.

(** The queue is empty and every buffer is back. *)
Lemma quiescent_destroy o size w : core o size w -> RecvSource.pending_depth o = 1 -> movable (src w) = true -> exists s', destroy (src w) (here w) = Val s' /\ reading s' = false /\ registered s' = false /\ participant s' = false.
Proof.
  intros C H1 Hm. unfold destroy. rewrite (c_loop _ _ _ C), (c_here _ _ _ C), Hm. pose proof (buffers_length o H1 size w C) as Hb. pose proof (c_leases _ _ _ C) as Hl. unfold movable in Hm.
  apply andb_true_iff in Hm as [_ Hm]. bool_prop. rewrite (c_options _ _ _ C), (proj2 (Z.eqb_eq _ _)) by lia. cbn. by eexists.
Qed.

(** C9. Over every script of calls, arrivals, readiness, errors, releases and stops on a
    source created with valid options, no check of the code fails and every call returns;
    each buffer is free, queued or leased and never two of these; the bytes under every
    queued segment and every outstanding lease are those received into it; the segments
    handed out are the segments received, in order, followed by the queued ones, and only
    a failure of memory that stops the source loses one; and an idle or terminal source
    at rest passes the checks of its destructor. *)
Theorem epoll_recv_exact (fd : Z) (o : RecvSourceOptions) (s : source) (w : world) :
  RecvSource.options_in_range (source_options o) -> Create true true fd o true = Ok s -> reachable s w ->
  (forall c r, exec w c = Some r -> exists w', r = Val w') /\
  available_buffers_ (src w) ++ (e_buffer <$> events_ (src w)) ++ (e_buffer <$> out w) ≡ₚ seqZ 0 (RecvSource.buffer_capacity (source_options o)) /\
  (forall e, e ∈ events_ (src w) ++ out w -> take (e_size e) (default [] (storage_ (src w) !! e_buffer e)) = e_bytes e /\ (0 < e_size e <= buffer_size o)%nat) /\
  received w = taken w ++ (e_bytes <$> events_ (src w)) ++ lost w /\ (lost w <> [] -> stopped (st w) = true) /\
  (movable (src w) = true -> exists s', destroy (src w) (here w) = Val s').
Proof.
  intros Hr Hs Hw. destruct (create_inv fd o s Hr Hs) as [H1 _]. pose proof (recv_source_reachable_inv fd o s Hr Hs w Hw) as I. pose proof (i_core _ _ _ I) as C. split_and!.
  - intros c r Hx. destruct (recv_exec_inv _ H1 _ w c r I Hx) as (w' & -> & _). by exists w'.
  - apply C.
  - intros e He. destruct (c_bytes _ _ _ C e He) as (E1 & E2 & E3). by rewrite E1 in *.
  - apply C.
  - apply C.
  - intros Hm. destruct (quiescent_destroy _ _ w C H1 Hm) as (s' & Hd & _). by exists s'.
Qed.

(** Options and scripts of the witnesses. *)
Definition example_options : RecvSourceOptions := mkOptions (RecvSource.mkOptions 1 2 2 0) 2.

Fixpoint run (w : world) (cs : list action) : option world :=
  match cs with
  | [] => Some w
  | c :: cs => match exec w c with Some (Val w') => run w' cs | _ => None end
  end.

Lemma run_reachable s w cs w' : reachable s w -> run w cs = Some w' -> reachable s w'.
Proof.
  revert w. induction cs as [|c cs IH]; intros w Hw; cbn; [by intros [= <-]|]. destruct (exec w c) as [[w1|]|] eqn:Hx; try done. intros H. eapply IH; [|exact H]. by eapply reach_step.
Qed.

Definition created (o : RecvSourceOptions) : source := match Create true true 3 o true with Ok s => s | Err _ => mkSource false (-1) (RecvSource.mk (source_options o) kIdle 0 0 0) false false [] None None None 0 ∅ [] false end.

(** The reached world of a script. *)
Definition after (o : RecvSourceOptions) (cs : list action) : world := default (initial (created o)) (run (initial (created o)) cs).

Lemma after_reachable o cs : Create true true 3 o true = Ok (created o) -> reachable (created o) (after o cs).
Proof.
  intros _. unfold after. destruct (run (initial (created o)) cs) as [w|] eqn:E; cbn; [|by apply reach_initial]. eapply run_reachable; [apply reach_initial | exact E].
Qed.

Lemma epoll_recv_exact_witness :
  let w := after example_options [ANext 1%nat; AArrive [RecvData ["a"; "b"; "c"]%byte; RecvData ["d"]%byte]; AReady []; AReady []; AResume] in
  taken w = [["a"; "b"]%byte] /\ (e_bytes <$> events_ (src w)) = [["c"]%byte] /\ length (out w) = 1%nat /\
  received w = taken w ++ (e_bytes <$> events_ (src w)) ++ lost w.
Proof.
  intros w. split; [vm_compute; reflexivity|]. split; [vm_compute; reflexivity|]. split; [vm_compute; reflexivity|].
  apply (epoll_recv_exact 3 example_options (created example_options) w); [repeat split; vm_compute; congruence | vm_compute; reflexivity | apply after_reachable; vm_compute; reflexivity].
Defined.

(** A source with no armed request but room to queue: a lease is held. *)
Lemma unarmed_leased o size w : RecvSource.pending_depth o = 1 -> inv o size w -> st w = kActive -> events_ (src w) = [] -> reading (src w) = true \/ out w <> [].
Proof.
  intros H1 I E He. pose proof (i_core _ _ _ I) as C. rewrite (c_reading _ _ _ C). destruct (Z.eqb_spec (a_of w) 0) as [Ea|Ea]; [|by left]. right. intros Ho.
  pose proof (i_admitted _ _ _ I E Ea) as Hf. assert (RecvSource.CanArm (state_ (src w)) = true); [|congruence]. apply RecvSource.recv_CanArm_spec.
  pose proof (c_queue _ _ _ C) as Hq. pose proof (c_leases _ _ _ C) as Hl. rewrite He, Ho in *. cbn in Hq, Hl. pose proof (c_inv _ _ _ C) as Hi. pose proof (RecvSource.recv_options_valid _ (RecvSource.inv_options _ Hi) (RecvSource.inv_valid _ Hi)) as (K1 & K2 & K3 & K4).
  rewrite Hq, Hl, Ea. cbn zeta. rewrite usize_small, Z.sub_0_r, usize_small by (unfold is_usize; lia). split_and!; try done; lia.
Qed.

(** C33. What waits has something to wait for. A Next that is parked finds the queue empty;
    the source is then not idle or terminal, and: an active one is watching its descriptor
    unless a lease is held, a draining one has a lease whose release ends the source. A
    Stop that is parked waits for a segment to be taken or a lease to be released. *)
Theorem epoll_recv_waits_for_something (fd : Z) (o : RecvSourceOptions) (s : source) (w : world) :
  RecvSource.options_in_range (source_options o) -> Create true true fd o true = Ok s -> reachable s w ->
  (forall a, pending_next_ (src w) = Some a ->
     nexts w !! a = Some (mkNext true CompletionGate.initial ValueResultState.kPending) /\ events_ (src w) = [] /\
     (st w = kActive /\ (reading (src w) = true \/ out w <> []) \/ st w = kPaused \/ st w = kDraining /\ out w <> [])) /\
  (forall a, pending_stop_ (src w) = Some a ->
     stops w !! a = Some (mkStop true CompletionGate.initial None) /\ st w = kDraining /\ events_ (src w) ++ out w <> []) /\
  (reading (src w) = true -> st w = kActive).
Proof.
  intros Hr Hs Hw. destruct (create_inv fd o s Hr Hs) as [H1 _]. pose proof (recv_source_reachable_inv fd o s Hr Hs w Hw) as I. pose proof (i_core _ _ _ I) as C.
  assert (st w = kDraining -> events_ (src w) ++ out w <> []) as HD.
  { intros Ed Hn. pose proof (RecvSource.inv_state _ (c_inv _ _ _ C)) as Hco. fold (st w) in Hco. rewrite Ed in Hco. destruct Hco as [_ Hne]. apply Hne. rewrite (c_queue _ _ _ C), (c_leases _ _ _ C). apply app_nil in Hn as [-> ->]. done. }
  split_and!.
  - intros a Ha. destruct (i_next _ _ _ I a Ha) as (He & Ht & Hi). split; [by apply C|]. split; [done|]. destruct (c_state _ _ _ C) as [E|[E|[E|[E|E]]]]; try done.
    + left. split; [done|]. by apply (unarmed_leased (source_options o) (buffer_size o)).
    + by right; left.
    + right; right. split; [done|]. intros Ho. apply (HD E). by rewrite He, Ho.
  - intros a Ha. pose proof (i_stop _ _ _ I a Ha) as Ed. split; [by apply C|]. split; [done|]. by apply HD.
  - rewrite (c_reading _ _ _ C). intros Hb. apply (core_armed _ _ _ C). destruct (Z.eqb_spec (a_of w) 0); [done|done].
Qed.

Lemma epoll_recv_waits_for_something_witness :
  let w := after example_options [ANext 1%nat; AArrive [RecvData ["a"]%byte]; AReady []; AResume; ANext 2%nat; AStop 7%nat] in
  pending_stop_ (src w) = Some 7%nat /\ pending_next_ (src w) = Some 2%nat /\ st w = kDraining /\ events_ (src w) ++ out w <> [].
Proof.
  intros w. split; [vm_compute; reflexivity|]. split; [vm_compute; reflexivity|]. split; [vm_compute; reflexivity|].
  apply (epoll_recv_waits_for_something 3 example_options (created example_options) w) with (a := 7%nat); [repeat split; vm_compute; congruence | vm_compute; reflexivity | apply after_reachable; vm_compute; reflexivity | vm_compute; reflexivity].
Defined.

(** ** The pause that is never left *)

(** Calls other than a stop, and events other than a close or an error. *)
Definition ordinary (c : action) : bool := match c with ANext _ | AResume | ARelease _ | AArrive _ | AReady _ => true | _ => false end.

(** Paused, with nothing queued and nothing leased. *)
Definition starved (w : world) : Prop := st w = kPaused /\ events_ (src w) = [] /\ out w = [] /\ reading (src w) = false.

Lemma starved_next w a : starved w -> loop_ (src w) = true -> here w = true -> nexts w !! a = Some new_next ->
  forall w' b, next_await_suspend w a = Val (w', b) -> starved w' /\ (pending_next_ (src w') = pending_next_ (src w) \/ pending_next_ (src w) = None).
Proof.
  intros (E & He & Ho & Hr) Hl Hh Hn w' b. unfold next_await_suspend. rewrite Hl, Hh. cbn [negb orb].
  assert (forall r, next_inline w a r = Val (w', b) -> starved w' /\ (pending_next_ (src w') = pending_next_ (src w) \/ pending_next_ (src w) = None)) as K.
  { intros r. unfold next_inline, get_next. rewrite Hn. destruct r; cbn; intros [= <- <-]; (split; [by split_and!|by left]). }
  destruct (fd_ (src w) <? 0); [apply K|]. destruct (pending_next_ (src w)) as [c|] eqn:Hp; [rewrite <- Hp in K |- *; intros H; apply K in H; by rewrite Hp in *|]. rewrite E. cbn.
  unfold next_wait. rewrite TryTakeNext_empty, E by done. cbn. unfold get_next. rewrite Hn. cbn. set (w1 := set_src _ _).
  assert (EnsureAdmission w1 = w1) as -> by (unfold EnsureAdmission; change (st w1) with (st w); rewrite E; cbn; by rewrite orb_true_r).
  rewrite TryTakeNext_empty by done. change (st w1) with (st w). rewrite E. cbn. intros [= <- <-]. split; [by split_and!|by right].
Qed.

Lemma starved_step o size w c w' : inv o size w -> starved w -> ordinary c = true -> exec w c = Some (Val w') ->
  starved w' /\ (forall a, pending_next_ (src w) = Some a -> pending_next_ (src w') = Some a).
Proof.
  intros I S Hc. pose proof S as (E & He & Ho & Hr). pose proof (i_core _ _ _ I) as C. destruct c as [a| |b|answers|rooms| | | | |]; try done; cbn.
  - destruct (nexts w !! a); [done|]. destruct (next_await_suspend (put_next w a new_next) a) as [[w1 b]|] eqn:HN; cbn; [|done].
    destruct (starved_next (put_next w a new_next) a) with (w' := w1) (b := b) as [S1 P1]; try done; [apply C | apply C | cbn; by rewrite lookup_insert_eq|]. cbn in P1.
    destruct b; [intros [= <-]; split; [done|]; intros c Hp; destruct P1; congruence|]. unfold next_await_resume. destruct (get_next w1 a) as [n|]; cbn; [|done]. destruct (ValueResultState.Take (n_result n)) as [[r cell]|]; cbn; [|done].
    intros [= <-]. split; [by destruct S1 as (? & ? & ? & ?)|]. intros c Hp. cbn. destruct P1; congruence.
  - destruct (work w) as [|[[] a] rest]; [done| |].
    + unfold next_await_resume. destruct (get_next (set_work w rest) a) as [n|]; cbn; [|done]. destruct (ValueResultState.Take (n_result n)) as [[r cell]|]; cbn; [|done]. intros [= <-]. by split.
    + destruct (stop_await_resume w a); cbn; [|done]. intros [= <-]. by split.
  - by rewrite Ho.
  - intros [= <-]. by split.
  - unfold OnReady. rewrite E. cbn. intros [= <-]. by split.
Qed.

(** C34. A source that was paused while every buffer was leased stays paused when they are
    all returned. From any reached world that is paused with an empty queue and no lease
    outstanding, whatever more is received on the socket and whatever calls of Next
    follow, the source watches its descriptor no more, queues nothing, and a Next that is
    parked stays parked until the source is stopped, closed or fails. *)
Theorem epoll_recv_pause_not_resumed (fd : Z) (o : RecvSourceOptions) (s : source) (w w' : world) (cs : list action) :
  RecvSource.options_in_range (source_options o) -> Create true true fd o true = Ok s -> reachable s w ->
  st w = kPaused -> events_ (src w) = [] -> out w = [] -> forallb ordinary cs = true -> run w cs = Some w' ->
  st w' = kPaused /\ reading (src w') = false /\ events_ (src w') = [] /\ (forall a, pending_next_ (src w) = Some a -> pending_next_ (src w') = Some a).
Proof.
  intros Hr Hs Hw E He Ho Hc Hx. destruct (create_inv fd o s Hr Hs) as [H1 _]. pose proof (recv_source_reachable_inv fd o s Hr Hs w Hw) as I. clear Hw.
  assert (starved w) as S. { split_and!; try done. rewrite (c_reading _ _ _ (i_core _ _ _ I)). pose proof (RecvSource.inv_state _ (c_inv _ _ _ (i_core _ _ _ I))) as Hco. fold (st w) in Hco. rewrite E in Hco. cbn in Hco. by rewrite Hco. }
  clear E He Ho. revert w I S Hx. induction cs as [|c cs IH]; intros w I S; cbn in *; [intros [= <-]; by destruct S as (? & ? & ? & ?)|]. bool_prop.
  destruct (exec w c) as [[w1|]|] eqn:Ex; try done. intros Hx. destruct (recv_exec_inv _ H1 _ w c _ I Ex) as (w2 & [= <-] & I1). destruct (starved_step _ _ w c w1 I S) as [S1 P1]; try done.
  destruct (IH H0 w1 I1 S1 Hx) as (R1 & R2 & R3 & R4). split_and!; auto.
Qed.

(** One buffer: the second segment arrives while the first is leased. *)
Definition one_buffer : RecvSourceOptions := mkOptions (RecvSource.mkOptions 1 1 1 0) 4.

Definition starving_script : list action :=
  [ANext 1%nat; AArrive [RecvData ["a"]%byte; RecvData ["b"]%byte]; AReady []; AResume; AReady []; ARelease 0; ANext 2%nat].

Lemma epoll_recv_pause_not_resumed_witness :
  let w := after one_buffer starving_script in
  pending_next_ (src w) = Some 2%nat /\ sock w = [RecvData ["b"]%byte] /\ available_buffers_ (src w) = [0] /\
  exists w', run w [AReady []; AArrive [RecvData ["c"]%byte]; ANext 3%nat; AReady []] = Some w' /\ st w' = kPaused /\ reading (src w') = false /\ pending_next_ (src w') = Some 2%nat.
Proof.
  intros w. split_and!; try (vm_compute; reflexivity). eexists. split; [vm_compute; reflexivity|].
  pose proof (fun w' => epoll_recv_pause_not_resumed 3 one_buffer (created one_buffer) w w' [AReady []; AArrive [RecvData ["c"]%byte]; ANext 3%nat; AReady []]) as T.
  specialize (T _ ltac:(repeat split; vm_compute; congruence) ltac:(vm_compute; reflexivity) (after_reachable one_buffer starving_script ltac:(vm_compute; reflexivity)) ltac:(vm_compute; reflexivity) ltac:(vm_compute; reflexivity) ltac:(vm_compute; reflexivity) ltac:(vm_compute; reflexivity) ltac:(vm_compute; reflexivity)).
  destruct T as (T1 & T2 & T3 & T4). split_and!; [exact T1 | exact T2 | apply T4; vm_compute; reflexivity].
Defined.

(** ** Moving a source *)

(** The move constructor takes an idle source that was never started as it is. *)
Theorem epoll_recv_idle_move (fd : Z) (o : RecvSourceOptions) (s : source) :
  Create true true fd o true = Ok s -> exists t rest, move_source s = Val (t, rest) /\ t = s /\ loop_ rest = false /\ destroy rest true = Val rest.
Proof.
  unfold Create. destruct (negb true || _ || _); [done|]. destruct (negb (Valid o)); [done|]. destruct (_ <? _); [done|]. destruct (RecvSource.Create (source_options o)) as [m|] eqn:Hc; [|done].
  unfold RecvSource.Create in Hc. destruct (negb _); [done|]. injection Hc as <-. intros [= <-]. by eexists _, _.
Qed.

(** But a source that has run and has come to rest, which every check of the constructor
    admits, aborts: its channel is still known to the poller. *)
Theorem epoll_recv_terminal_move_aborts :
  let w := after example_options [ANext 1%nat; AArrive [RecvData ["a"]%byte; RecvData []]; AReady []; AResume; AReady []; ARelease 1] in
  st w = kTerminal /\ movable (src w) = true /\ (exists s, destroy (src w) true = Val s) /\ move_source (src w) = Panic.
Proof. split_and!; [vm_compute; reflexivity | vm_compute; reflexivity | eexists; vm_compute; reflexivity | vm_compute; reflexivity]. Qed.

End EpollRecvProps.
