(* ===== verification/Endpoint.v ===== *)
(** * Endpoints (include/alyrn/net/endpoint.h)

    The address value of the networking layer: the families, ports in network order, the
    comparison and the textual form. [inet_pton] and [inet_ntop] are not part of the
    sources: they are parameters, with what their documentation promises as hypotheses. *)

From Stdlib Require Import Strings.String Strings.Ascii.
From stdpp Require Import strings pretty.
From S2P Require Import Prelude.

Module Endpoint.

(** ** Byte order *)

(** htons and ntohs on a little-endian machine *)
Definition htons (x : Z) : Z := Z.lor (Z.shiftl (Z.land x 255) 8) (Z.shiftr x 8).
Definition ntohs : Z -> Z := htons.
Definition htonl (x : Z) : Z :=
  Z.lor (Z.shiftl (Z.land x 255) 24) (Z.lor (Z.shiftl (Z.land (Z.shiftr x 8) 255) 16) (Z.lor (Z.shiftl (Z.land (Z.shiftr x 16) 255) 8) (Z.shiftr x 24))).

Definition is_u16 (x : Z) : Prop := 0 <= x < 2 ^ 16.

(** ** Addresses *)

Inductive Family := kIPv4 | kIPv6.

#[global] Instance Family_eq_dec : EqDecision Family.
Proof. solve_decision. Defined.

(** Multi-byte fields hold what is in memory, in network order; an IPv6 address is its
    sixteen bytes as one number. *)
Record sockaddr_in := mkIn { sin_port : Z; sin_addr : Z }.
Record sockaddr_in6 := mkIn6 { sin6_port : Z; sin6_flowinfo : Z; sin6_addr : Z; sin6_scope_id : Z }.

(** sockaddr_storage, by the family at its start *)
Inductive storage := AF_INET (address : sockaddr_in) | AF_INET6 (address : sockaddr_in6) | AF_OTHER (family : Z).

Record t := mk { addr_ : storage; addr_len_ : Z }.

Definition sizeof_in : Z := 16.
Definition sizeof_in6 : Z := 28.

Definition INADDR_LOOPBACK : Z := 2130706433.
Definition INADDR_ANY : Z := 0.
Definition in6addr_loopback : Z := 1.
Definition in6addr_any : Z := 0.

Definition Assign (address : sockaddr_in) : t := mk (AF_INET address) sizeof_in.
Definition Assign6 (address : sockaddr_in6) : t := mk (AF_INET6 address) sizeof_in6.

Definition Initialize (port : Z) (family : Family) (loopback : bool) : t :=
  match family with
  | kIPv4 => Assign (mkIn (htons port) (htonl (if loopback then INADDR_LOOPBACK else INADDR_ANY)))
  | kIPv6 => Assign6 (mkIn6 (htons port) 0 (if loopback then in6addr_loopback else in6addr_any) 0)
  end.

Definition Loopback (port : Z) (family : Family) : t := Initialize port family true.
Definition Any (port : Z) (family : Family) : t := Initialize port family false.

(** The constructor from what accept, getsockname or getpeername stored. *)
Definition from_sockaddr (address : option storage) (length : Z) : outcome t :=
  match address with
  | None => Panic
  | Some (AF_INET a) => ALYRN_CHECK (sizeof_in <=? length);; Val (mk (AF_INET a) sizeof_in)
  | Some (AF_INET6 a) => ALYRN_CHECK (sizeof_in6 <=? length);; Val (mk (AF_INET6 a) sizeof_in6)
  | Some (AF_OTHER _) => Panic
  end.

Definition WithPort (e : t) (port : Z) : t :=
  match addr_ e with
  | AF_INET a => mk (AF_INET (mkIn (htons port) (sin_addr a))) (addr_len_ e)
  | AF_INET6 a => mk (AF_INET6 (mkIn6 (htons port) (sin6_flowinfo a) (sin6_addr a) (sin6_scope_id a))) (addr_len_ e)
  | AF_OTHER _ => e
  end.

Definition ToPort (e : t) : Z :=
  match addr_ e with AF_INET a => ntohs (sin_port a) | AF_INET6 a => ntohs (sin6_port a) | AF_OTHER _ => 0 end.

(** NativeFamily *)
Definition same_family (x y : storage) : bool :=
  match x, y with
  | AF_INET _, AF_INET _ | AF_INET6 _, AF_INET6 _ => true
  | AF_OTHER a, AF_OTHER b => a =? b
  | _, _ => false
  end.

(** operator== *)
Definition equal (lhs rhs : t) : bool :=
  if negb (same_family (addr_ lhs) (addr_ rhs)) || negb (ToPort lhs =? ToPort rhs) then false
  else match addr_ lhs, addr_ rhs with
  | AF_INET a, AF_INET b => sin_addr a =? sin_addr b
  | AF_INET6 a, AF_INET6 b => (sin6_scope_id a =? sin6_scope_id b) && (sin6_addr a =? sin6_addr b)
  | _, _ => false
  end.

(** std::errc values have the generic category. *)
Definition generic_error (value : Z) : Error := mkError value other_category.

(** ip.contains(zero) *)
Fixpoint contains_nul (s : string) : bool :=
  match s with EmptyString => false | String c s => bool_decide (c = Ascii.zero) || contains_nul s end.

(** ** Text *)

Section text.
Context (ntop4 ntop6 : Z -> string) (pton4 pton6 : string -> option Z).

(** ToIp; the checked failure of inet_ntop does not occur with a buffer of its size. *)
Definition ToIp (e : t) : outcome string :=
  match addr_ e with AF_INET a => Val (ntop4 (sin_addr a)) | AF_INET6 a => Val (ntop6 (sin6_addr a)) | AF_OTHER _ => Panic end.

Definition ToIpPort (e : t) : outcome string :=
  ip ← ToIp e;
  Val (match addr_ e with
       | AF_INET6 _ => ("[" ++ ip ++ "]:" ++ pretty (ToPort e))%string
       | _ => (ip ++ ":" ++ pretty (ToPort e))%string
       end).

Definition ParseIpAddress (ip : string) (port : Z) : ResultE t :=
  if contains_nul ip then Err (generic_error EINVAL)
  else match pton4 ip with
  | Some a => Ok (Assign (mkIn (htons port) a))
  | None =>
      match pton6 ip with
      | Some a => Ok (Assign6 (mkIn6 (htons port) 0 a 0))
      | None => Err (generic_error EINVAL)
      end
  end.

End text.

(** ** Properties *)

Lemma htons_spec x : is_u16 x -> htons x = 256 * (x mod 256) + x / 256 /\ is_u16 (htons x).
Proof.
  unfold is_u16, htons. change (2 ^ 16) with 65536. intros Hx. change 255 with (Z.ones 8). rewrite Z.land_ones, Z.shiftr_div_pow2, Z.shiftl_mul_pow2 by lia. change (2 ^ 8) with 256.
  pose proof (Z.mod_pos_bound x 256 eq_refl). assert (0 <= x / 256 < 256) by (split; [apply Z.div_pos | apply Z.div_lt_upper_bound]; lia).
  assert (Z.lor (x mod 256 * 256) (x / 256) = 256 * (x mod 256) + x / 256) as ->; [|split; [done|]; lia].
  assert (Z.land (x mod 256 * 256) (x / 256) = 0) as Hl; [|pose proof (Z.add_lor_land (x mod 256 * 256) (x / 256)); lia].
  apply Z.bits_inj'. intros n Hn. rewrite Z.land_spec, Z.bits_0. change 256 with (2 ^ 8) at 2. destruct (Z.lt_ge_cases n 8).
  - by rewrite Z.mul_pow2_bits_low.
  - rewrite (Z.bits_above_log2 (x / 256) n), andb_false_r; [done | lia |]. destruct (Z.eq_dec (x / 256) 0) as [->|]; [cbn; lia|]. apply Z.log2_lt_pow2; [lia|]. apply Z.lt_le_trans with (2 ^ 8); [cbn; lia | apply Z.pow_le_mono_r; lia].
Qed.

Lemma ntohs_htons x : is_u16 x -> ntohs (htons x) = x.
Proof.
  intros Hx. destruct (htons_spec x Hx) as [E Hr]. destruct (htons_spec (htons x) Hr) as [E' _]. unfold ntohs. rewrite E', E. pose proof (Z.mod_pos_bound x 256 eq_refl). assert (0 <= x / 256 < 256) by (unfold is_u16 in Hx; change (2 ^ 16) with 65536 in Hx; split; [apply Z.div_pos | apply Z.div_lt_upper_bound]; lia).
  Z.div_mod_to_equations. lia.
Qed.

(** Both constructors and WithPort store the port they are given; WithPort keeps the rest. *)
Theorem endpoint_ports_round_trip (port : Z) (family : Family) (loopback : bool) (e : t) (other : Z) :
  is_u16 port -> ToPort (Initialize port family loopback) = port /\
  ((exists n, addr_ e = AF_OTHER n) \/ ToPort (WithPort e port) = port) /\ WithPort (WithPort e other) port = WithPort e port /\ addr_len_ (WithPort e port) = addr_len_ e.
Proof.
  intros Hp. split_and!.
  - by destruct family; apply ntohs_htons.
  - unfold ToPort, WithPort. destruct (addr_ e) as [a|a|n] eqn:E; cbn; [right; by apply ntohs_htons | right; by apply ntohs_htons | left; by exists n].
  - unfold WithPort. destruct e as [[a|a|n] l]; done.
  - unfold WithPort. by destruct (addr_ e).
Qed.

(** What operator== compares. *)
Definition key (e : t) : option (Family * Z * Z * Z) :=
  match addr_ e with
  | AF_INET a => Some (kIPv4, ToPort e, sin_addr a, 0)
  | AF_INET6 a => Some (kIPv6, ToPort e, sin6_addr a, sin6_scope_id a)
  | AF_OTHER _ => None
  end.

Lemma equal_key x y : equal x y = true <-> exists k, key x = Some k /\ key y = Some k.
Proof.
  unfold equal, key, same_family. destruct (addr_ x) as [a|a|n], (addr_ y) as [b|b|m]; cbn; try (split; [done|intros (? & ? & ?); congruence]).
  - destruct (Z.eqb_spec (ToPort x) (ToPort y)) as [->|?]; cbn; [|split; [done|]; intros (? & ? & ?); congruence]. rewrite Z.eqb_eq. split; [intros ->; eauto | intros (? & ? & ?); congruence].
  - destruct (Z.eqb_spec (ToPort x) (ToPort y)) as [->|?]; cbn; [|split; [done|]; intros (? & ? & ?); congruence]. destruct (Z.eqb_spec (sin6_scope_id a) (sin6_scope_id b)) as [->|?]; cbn; [|split; [done|]; intros (? & ? & ?); congruence]. rewrite Z.eqb_eq. split; [intros ->; eauto | intros (? & ? & ?); congruence].
  - destruct (n =? m), (ToPort x =? ToPort y); split; cbn; try done; by intros (? & ? & ?).
Qed.

(** operator== is a partial equivalence, reflexive on the endpoints of the two families. *)
Theorem endpoint_equality_is_equivalence (x y z : t) :
  (equal x y = true <-> equal y x = true) /\ (equal x y = true -> equal y z = true -> equal x z = true) /\ ((forall n, addr_ x <> AF_OTHER n) -> equal x x = true).
Proof.
  rewrite !equal_key. split_and!.
  - split; intros (k & ? & ?); eauto.
  - intros (k & ? & ?) (l & ? & ?). exists k. split; congruence.
  - unfold key. destruct (addr_ x) as [a|a|n]; eauto. intros H. by destruct (H n).
Qed.

(** The text of an endpoint without a scope reads back as an equal endpoint, whatever the
    conversions of the C library are, as long as reading undoes writing and a printed IPv6
    address is not read as IPv4. *)
Theorem endpoint_text_round_trip (ntop4 ntop6 : Z -> string) (pton4 pton6 : string -> option Z) (e : t) (ip : string) :
  (forall a, pton4 (ntop4 a) = Some a) -> (forall a, pton6 (ntop6 a) = Some a) -> (forall a, pton4 (ntop6 a) = None) ->
  (forall a, contains_nul (ntop4 a) = false) -> (forall a, contains_nul (ntop6 a) = false) ->
  match addr_ e with AF_INET a => is_u16 (sin_port a) | AF_INET6 a => is_u16 (sin6_port a) /\ sin6_scope_id a = 0 | AF_OTHER _ => False end ->
  ToIp ntop4 ntop6 e = Val ip ->
  exists e', ParseIpAddress pton4 pton6 ip (ToPort e) = Ok e' /\ equal e' e = true.
Proof.
  intros H4 H6 Hx Hn4 Hn6 He Hip. unfold ToIp, ParseIpAddress, ToPort, equal, same_family in *. destruct (addr_ e) as [a|a|n] eqn:E; [| |done]; injection Hip as <-.
  - rewrite Hn4, H4. eexists. split; [done|]. unfold ToPort. cbn. rewrite E. assert (ntohs (htons (ntohs (sin_port a))) = ntohs (sin_port a)) as -> by (apply ntohs_htons, htons_spec, He). by rewrite !Z.eqb_refl.
  - destruct He as [He Hs]. rewrite Hn6, Hx, H6. eexists. split; [done|]. unfold ToPort. cbn. rewrite E. assert (ntohs (htons (ntohs (sin6_port a))) = ntohs (sin6_port a)) as -> by (apply ntohs_htons, htons_spec, He). rewrite Hs. by rewrite !Z.eqb_refl.
Qed.

End Endpoint.
