(* ===== verification/Sockets.v ===== *)
(** * Socket options and descriptor ownership (include/alyrn/net/detail/socket.h, tcp_options.h)

    What the system calls answer is an input; the calls made are recorded. Linux is the
    platform: sockets are created non-blocking and close-on-exec. *)

From S2P Require Import Prelude Endpoint.

Module Sockets.
Import Endpoint(generic_error, storage, AF_INET, AF_INET6, AF_OTHER, from_sockaddr, equal).

Definition EAFNOSUPPORT : Z := 97.
Definition int_max : Z := 2 ^ 31 - 1.

(** ** Options *)

(** setsockopt with level, option and value. *)
Inductive sockopt :=
| SO_REUSEADDR (value : Z) | SO_REUSEPORT (value : Z) | TCP_NODELAY (value : Z) | SO_KEEPALIVE (value : Z)
| TCP_KEEPIDLE (value : Z) | SO_RCVBUF (value : Z) | SO_SNDBUF (value : Z).

#[global] Instance sockopt_eq_dec : EqDecision sockopt.
Proof. solve_decision. Defined.

Definition value_of (c : sockopt) : Z :=
  match c with SO_REUSEADDR v | SO_REUSEPORT v | TCP_NODELAY v | SO_KEEPALIVE v | TCP_KEEPIDLE v | SO_RCVBUF v | SO_SNDBUF v => v end.

(** The calls made so far, and the answers to come: [None] is success, otherwise errno. *)
Record kernel := mkKernel { calls : list sockopt; answers : list (option Z) }.

Definition SetSocketOptionValue (fd : Z) (c : sockopt) (k : kernel) : kernel * ResultE unit :=
  if fd <? 0 then (k, Err (Errno EBADF))
  else
    let k' := mkKernel (calls k ++ [c]) (tail (answers k)) in
    match head (answers k) with
    | Some (Some errno) => (k', Err (Errno errno))
    | _ => (k', Ok tt)
    end.

Definition flag (enabled : bool) : Z := if enabled then 1 else 0.

Definition CheckedSocketOptionSize (bytes : Z) : ResultE Z := if int_max <? bytes then Err (Errno EINVAL) else Ok bytes.

Definition SetNoDelay (fd : Z) (enabled : bool) (k : kernel) := SetSocketOptionValue fd (TCP_NODELAY (flag enabled)) k.
Definition SetKeepAlive (fd : Z) (enabled : bool) (k : kernel) := SetSocketOptionValue fd (SO_KEEPALIVE (flag enabled)) k.
Definition SetReuseAddr (fd : Z) (enabled : bool) (k : kernel) := SetSocketOptionValue fd (SO_REUSEADDR (flag enabled)) k.
Definition SetReusePort (fd : Z) (enabled : bool) (k : kernel) := SetSocketOptionValue fd (SO_REUSEPORT (flag enabled)) k.

Definition kNanosPerSecond : Z := 1000000000.

(** A duration is in nanoseconds; duration_cast truncates towards zero. *)
Definition SetKeepAlivePeriod (fd : Z) (period : Z) (k : kernel) : kernel * ResultE unit :=
  let seconds := Z.quot period kNanosPerSecond in
  if (seconds <=? 0) || (int_max <? seconds) then (k, Err (Errno EINVAL))
  else SetSocketOptionValue fd (TCP_KEEPIDLE seconds) k.

Definition SetReadBuffer (fd : Z) (bytes : Z) (k : kernel) : kernel * ResultE unit :=
  match CheckedSocketOptionSize bytes with Err e => (k, Err e) | Ok v => SetSocketOptionValue fd (SO_RCVBUF v) k end.
Definition SetWriteBuffer (fd : Z) (bytes : Z) (k : kernel) : kernel * ResultE unit :=
  match CheckedSocketOptionSize bytes with Err e => (k, Err e) | Ok v => SetSocketOptionValue fd (SO_SNDBUF v) k end.

Record TcpOptions := mkTcp {
  no_delay : option bool;
  keep_alive : option bool;
  keep_alive_period : option Z;
  read_buffer : option Z;
  write_buffer : option Z;
}.

(** One block of ApplyTcpOptions: an unset member is skipped, a failure returns. *)
Definition apply_option {A} (o : option A) (set : A -> kernel -> kernel * ResultE unit) (rest : kernel -> kernel * ResultE unit) (k : kernel) : kernel * ResultE unit :=
  match o with
  | None => rest k
  | Some v => let '(k, result) := set v k in match result with Err e => (k, Err e) | Ok _ => rest k end
  end.

Definition ApplyTcpOptions (fd : Z) (o : TcpOptions) : kernel -> kernel * ResultE unit :=
  apply_option (no_delay o) (SetNoDelay fd)
  (apply_option (keep_alive o) (SetKeepAlive fd)
  (apply_option (keep_alive_period o) (SetKeepAlivePeriod fd)
  (apply_option (read_buffer o) (SetReadBuffer fd)
  (apply_option (write_buffer o) (SetWriteBuffer fd)
  (fun k => (k, Ok tt)))))).

(** ** Errors of accept *)

Definition IsAcceptedConnectionError (error : Z) : bool :=
  bool_decide (error ∈ [103; 104; 107; 71; 1; 110; 100; 101; 92; 113; 112; 64]).

Definition ECONNABORTED : Z := 103.
Definition EMFILE : Z := 24.
Definition ENFILE : Z := 23.

Definition IsTransientAcceptResourceError (error : Z) : bool := bool_decide (error ∈ [EMFILE; ENFILE; ENOBUFS; ENOMEM]).

(** ** Descriptors *)

(** The answer of socket: a descriptor, or errno. *)
Definition CreateNonBlockingSocket (family : storage) (answer : Z + Z) : ResultE Z :=
  match family with
  | AF_OTHER _ => Err (generic_error EAFNOSUPPORT)
  | _ => match answer with inl fd => Ok fd | inr errno => Err (Errno errno) end
  end.

(** A Socket owns [sockfd_]; the descriptors it closes are recorded. *)
Definition Socket : Type := Z.
Definition Close (s : Socket) : Socket * list Z := if s <? 0 then (s, []) else (-1, [s]).
Definition destroy (s : Socket) : list Z := if 0 <=? s then [s] else [].
Definition Release (s : Socket) : Socket * Z := (-1, s).
Definition move_socket (other : Socket) : Socket * Socket := (other, -1).
Definition move_assign (self other : Socket) : Socket * Socket * list Z := let '(_, closed) := Close self in (other, -1, closed).

(** SetDescriptorFlag: the flags that fcntl read and what storing them answers; the flags
    stored, if any. *)
Definition SetDescriptorFlag (read : Z + Z) (stored : option Z) (flag : Z) (enabled : bool) : option Z * ResultE unit :=
  match read with
  | inr errno => (None, Err (Errno errno))
  | inl old_flags =>
      let new_flags := if enabled then Z.lor old_flags flag else Z.ldiff old_flags flag in
      if new_flags =? old_flags then (None, Ok tt)
      else (Some new_flags, match stored with Some errno => Err (Errno errno) | None => Ok tt end)
  end.

(** ShutdownRead and ShutdownWrite: is the call made, and its result. *)
Definition Shutdown (s : Socket) (answer : option Z) : bool * ResultE unit :=
  if s <? 0 then (false, Err (Errno EBADF))
  else (true, match answer with Some errno => Err (Errno errno) | None => Ok tt end).

(** GetEndpoint: the answer of getsockname or getpeername. *)
Definition GetEndpoint (answer : (storage * Z) + Z) : outcome (ResultE Endpoint.t) :=
  match answer with
  | inr errno => Val (Err (Errno errno))
  | inl (AF_OTHER _, _) => Val (Err (generic_error EAFNOSUPPORT))
  | inl (address, length) => e ← from_sockaddr (Some address) length; Val (Ok e)
  end.

Definition IsSelfConnected (local peer : (storage * Z) + Z) : outcome (ResultE bool) :=
  l ← GetEndpoint local;
  match l with
  | Err e => Val (Err e)
  | Ok l => p ← GetEndpoint peer; Val (match p with Err e => Err e | Ok p => Ok (equal l p) end)
  end.

(** TryCreateListenSocket (src/epoll/listener.cc): the calls after socket answer in
    [k], [bound] and [listening]. A failure destroys the socket. *)
Definition TryCreateListenSocket (family : storage) (answer : Z + Z) (reuse_addr reuse_port : bool) (k : kernel) (bound listening : option Z) : kernel * ResultE Socket * list Z :=
  match CreateNonBlockingSocket family answer with
  | Err e => (k, Err e, [])
  | Ok socket =>
      let '(k, set) := SetReuseAddr socket reuse_addr k in
      match set with
      | Err e => (k, Err e, destroy socket)
      | Ok _ =>
          let '(k, set) := if reuse_port then SetReusePort socket true k else (k, Ok tt) in
          match set with
          | Err e => (k, Err e, destroy socket)
          | Ok _ =>
              match bound, listening with
              | Some errno, _ => (k, Err (Errno errno), destroy socket)
              | None, Some errno => (k, Err (Errno errno), destroy socket)
              | None, None => (k, Ok socket, [])
              end
          end
      end
  end.

(** ** Reference: the options as a list *)

(** What each member asks for: a call, or an error before any call. *)
Definition wanted (o : TcpOptions) : list (ResultE sockopt) :=
  (match no_delay o with Some v => [Ok (TCP_NODELAY (flag v))] | None => [] end) ++
  (match keep_alive o with Some v => [Ok (SO_KEEPALIVE (flag v))] | None => [] end) ++
  (match keep_alive_period o with
   | Some p => [if (0 <? Z.quot p kNanosPerSecond) && (Z.quot p kNanosPerSecond <=? int_max) then Ok (TCP_KEEPIDLE (Z.quot p kNanosPerSecond)) else Err (Errno EINVAL)]
   | None => [] end) ++
  (match read_buffer o with Some b => [if b <=? int_max then Ok (SO_RCVBUF b) else Err (Errno EINVAL)] | None => [] end) ++
  (match write_buffer o with Some b => [if b <=? int_max then Ok (SO_SNDBUF b) else Err (Errno EINVAL)] | None => [] end).

(** The calls of a list of wishes, until the first failure. *)
Fixpoint perform (ws : list (ResultE sockopt)) (k : kernel) : kernel * ResultE unit :=
  match ws with
  | [] => (k, Ok tt)
  | Err e :: _ => (k, Err e)
  | Ok c :: ws =>
      let k' := mkKernel (calls k ++ [c]) (tail (answers k)) in
      match head (answers k) with Some (Some errno) => (k', Err (Errno errno)) | _ => perform ws k' end
  end.

Lemma apply_option_perform {A} (o : option A) set rest k (wish : A -> ResultE sockopt) ws :
  (forall v k, set v k = perform [wish v] k) -> (forall k, rest k = perform ws k) ->
  apply_option o set rest k = perform (match o with Some v => [wish v] | None => [] end ++ ws) k.
Proof.
  intros Hs Hr. unfold apply_option. destruct o as [v|]; cbn [app]; [|apply Hr]. rewrite Hs. cbn. destruct (wish v) as [c|e]; [|done]. destruct (head (answers k)) as [[errno|]|]; cbn; auto.
Qed.

(** ApplyTcpOptions on a valid descriptor makes exactly the calls of the members that are
    set, in the order of the list, and stops at the first that fails: with the answer of
    the kernel, or with EINVAL before the call for a period or a size that is no int. *)
Theorem tcp_options_applied_in_order (fd : Z) (o : TcpOptions) (k : kernel) : 0 <= fd -> ApplyTcpOptions fd o k = perform (wanted o) k.
Proof.
  intros Hfd. assert (forall c k, SetSocketOptionValue fd c k = perform [Ok c] k) as HS.
  { intros c k'. unfold SetSocketOptionValue. rewrite (proj2 (Z.ltb_ge fd 0)) by done. cbn. by destruct (head (answers k')) as [[errno|]|]. }
  unfold ApplyTcpOptions, wanted.
  apply (apply_option_perform _ _ _ _ (fun v => Ok (TCP_NODELAY (flag v)))); [intros; apply HS|]. intros k1.
  apply (apply_option_perform _ _ _ _ (fun v => Ok (SO_KEEPALIVE (flag v)))); [intros; apply HS|]. intros k2.
  apply (apply_option_perform _ _ _ _ (fun p => if (0 <? Z.quot p kNanosPerSecond) && (Z.quot p kNanosPerSecond <=? int_max) then Ok (TCP_KEEPIDLE (Z.quot p kNanosPerSecond)) else Err (Errno EINVAL))).
  { intros p k'. unfold SetKeepAlivePeriod. rewrite (Z.leb_antisym 0), (Z.ltb_antisym _ int_max), <- negb_andb. destruct (_ && _); cbn [negb]; [apply HS|done]. }
  intros k3. apply (apply_option_perform _ _ _ _ (fun b => if b <=? int_max then Ok (SO_RCVBUF b) else Err (Errno EINVAL))).
  { intros b k'. unfold SetReadBuffer, CheckedSocketOptionSize. rewrite (Z.ltb_antisym b int_max). destruct (b <=? int_max); cbn [negb]; [apply HS|done]. }
  intros k4. rewrite <- (app_nil_r (match write_buffer o with Some _ => _ | None => _ end)). apply (apply_option_perform _ _ _ _ (fun b => if b <=? int_max then Ok (SO_SNDBUF b) else Err (Errno EINVAL))); [|done].
  intros b k'. unfold SetWriteBuffer, CheckedSocketOptionSize. rewrite (Z.ltb_antisym b int_max). destruct (b <=? int_max); cbn [negb]; [apply HS|done].
Qed.

(** The descriptor of a listening socket is returned or closed, never both. *)
Theorem listen_socket_not_leaked (family : storage) (fd : Z) (reuse_addr reuse_port : bool) (k k' : kernel) (bound listening : option Z) (r : ResultE Socket) (closed : list Z) :
  0 <= fd -> TryCreateListenSocket family (inl fd) reuse_addr reuse_port k bound listening = (k', r, closed) ->
  match family with
  | AF_OTHER _ => r = Err (generic_error EAFNOSUPPORT) /\ closed = []
  | _ => r = Ok fd /\ closed = [] \/ (exists e, r = Err e) /\ closed = [fd]
  end.
Proof.
  intros Hfd. unfold TryCreateListenSocket, CreateNonBlockingSocket, destroy. destruct family; [| |by intros [= <- <- <-]]; rewrite (proj2 (Z.leb_le 0 fd)) by done;
    (destruct (SetReuseAddr fd reuse_addr k) as [k1 [u|e]]; [|intros [= <- <- <-]; by eauto]; destruct (if reuse_port then SetReusePort fd true k1 else (k1, Ok tt)) as [k2 [u'|e]]; [|intros [= <- <- <-]; by eauto]; destruct bound as [e|], listening as [e'|]; intros [= <- <- <-]; by eauto).
Qed.

(** A flag that was set with success is in the flags of the descriptor, and no other
    flag has changed. *)
Theorem descriptor_flag_is_set (old bit : Z) (stored saved : option Z) (enabled : bool) :
  0 <= bit -> SetDescriptorFlag (inl old) stored (2 ^ bit) enabled = (saved, Ok tt) ->
  forall i, 0 <= i -> Z.testbit (default old saved) i = if i =? bit then enabled else Z.testbit old i.
Proof.
  intros Hb H i Hi. assert (default old saved = if enabled then Z.lor old (2 ^ bit) else Z.ldiff old (2 ^ bit)) as ->.
  { unfold SetDescriptorFlag in H. destruct (_ =? old) eqn:E; [apply Z.eqb_eq in E; injection H as <-; by rewrite E|]. by destruct stored; injection H as <-. }
  destruct enabled; rewrite ?Z.lor_spec, ?Z.ldiff_spec, Z.pow2_bits_eqb, (Z.eqb_sym bit i) by done; destruct (i =? bit), (Z.testbit old i); done.
Qed.

End Sockets.
