(* ===== verification/EpollListener.v ===== *)
(** * The epoll listener and its accept sources (src/epoll/listener.cc, include/alyrn/epoll/listener.h)

    A listener accepts for one awaiter, or for one source at a time that queues the
    connections; any number of sources may exist. An accepted connection is named by its
    descriptor, which the Stream made of it owns. What accept and setsockopt answer and
    whether the queue finds memory are inputs; the admission machine is that of
    AcceptSource.v. *)

From S2P Require Import Prelude Lifecycles Sources AcceptSource ResultCells UringLoop EpollStream Endpoint Sockets.

Module EpollListener.

Import UringLoop(LoopState, kCreated, kRunning, kStopping, kStopped).
Import EpollStream(IsWouldBlock, ErrorFromSocketErrorEvent, EINTR).
Import Sockets(kernel, TryCreateListenSocket, GetEndpoint, TcpOptions, ApplyTcpOptions, mkKernel, IsAcceptedConnectionError, IsTransientAcceptResourceError, ECONNABORTED).

(** ** State *)

Record AcceptAwaiter := mkAccept { a_bound : bool; a_lifecycle : SingleResultLifecycle.t; a_result : ValueResultState.t Z }.
Record NextAwaiter := mkNext { n_source : nat; n_bound : bool; n_gate : CompletionGate.t; n_result : ValueResultState.t (option Z) }.

Definition new_accept : AcceptAwaiter := mkAccept false SingleResultLifecycle.initial ValueResultState.kPending.
Definition new_next (source_ : nat) : NextAwaiter := mkNext source_ false CompletionGate.initial ValueResultState.kPending.

Record source := mkSource {
  listener_ : bool;                           (* listener_ != nullptr *)
  state_ : AcceptSource.t;
  events_ : list Z;
  terminal_error_ : option Error;
  pending_next_ : option nat;
}.

Definition set_state (s : source) v := mkSource (listener_ s) v (events_ s) (terminal_error_ s) (pending_next_ s).
Definition set_events (s : source) v := mkSource (listener_ s) (state_ s) v (terminal_error_ s) (pending_next_ s).
Definition set_error (s : source) v := mkSource (listener_ s) (state_ s) (events_ s) v (pending_next_ s).
Definition set_next (s : source) v := mkSource (listener_ s) (state_ s) (events_ s) (terminal_error_ s) v.

Record listener := mkListener {
  loop_ : bool;                               (* loop_ != nullptr *)
  open : bool;                                (* socket_ holds a descriptor *)
  reading : bool;                             (* channel_.IsReading() *)
  registered : bool;                          (* channel_.IsRegistered() *)
  pending_accept_ : option nat;
  accept_source_ : option nat;
  closed_ : bool;
  participant : bool;                         (* registered for the stop of the loop *)
}.

Definition set_channel (l : listener) (r g : bool) := mkListener (loop_ l) (open l) r g (pending_accept_ l) (accept_source_ l) (closed_ l) (participant l).
Definition set_pending (l : listener) v := mkListener (loop_ l) (open l) (reading l) (registered l) v (accept_source_ l) (closed_ l) (participant l).
Definition set_source (l : listener) v := mkListener (loop_ l) (open l) (reading l) (registered l) (pending_accept_ l) v (closed_ l) (participant l).
Definition set_closed (l : listener) := mkListener (loop_ l) (open l) (reading l) (registered l) (pending_accept_ l) (accept_source_ l) true (participant l).
Definition close_socket (l : listener) := mkListener (loop_ l) false (reading l) (registered l) (pending_accept_ l) (accept_source_ l) (closed_ l) (participant l).

(** accept: a connection with the answers of its setsockopt calls, or errno. *)
Definition accept_answer : Type := (Z * list (option Z)) + Z.

(** The scheduled continuation of an Accept or of a Next. *)
Inductive task := ResumeAccept (a : nat) | ResumeNext (a : nat).

#[global] Instance task_eq_dec : EqDecision task.
Proof. solve_decision. Defined.

Record world := mkWorld {
  lst : listener;
  tcp_options_ : TcpOptions;
  here : bool;                                (* loop_->IsInLoopThread() *)
  loop_state : LoopState;
  sources : gmap nat source;
  accepts : gmap nat AcceptAwaiter;
  nexts : gmap nat NextAwaiter;
  work : list task;
  backlog : list accept_answer;
  accepted : list Z;                          (* every connection accepted *)
  delivered : list Z;                         (* handed to the application *)
  dropped : list Z;                           (* closed: not configured, no memory, or queued in a destroyed source *)
}.

Definition set_lst (w : world) v := mkWorld v (tcp_options_ w) (here w) (loop_state w) (sources w) (accepts w) (nexts w) (work w) (backlog w) (accepted w) (delivered w) (dropped w).
Definition set_loop_state (w : world) v := mkWorld (lst w) (tcp_options_ w) (here w) v (sources w) (accepts w) (nexts w) (work w) (backlog w) (accepted w) (delivered w) (dropped w).
Definition set_sources (w : world) v := mkWorld (lst w) (tcp_options_ w) (here w) (loop_state w) v (accepts w) (nexts w) (work w) (backlog w) (accepted w) (delivered w) (dropped w).
Definition set_accepts (w : world) v := mkWorld (lst w) (tcp_options_ w) (here w) (loop_state w) (sources w) v (nexts w) (work w) (backlog w) (accepted w) (delivered w) (dropped w).
Definition set_nexts (w : world) v := mkWorld (lst w) (tcp_options_ w) (here w) (loop_state w) (sources w) (accepts w) v (work w) (backlog w) (accepted w) (delivered w) (dropped w).
Definition set_work (w : world) v := mkWorld (lst w) (tcp_options_ w) (here w) (loop_state w) (sources w) (accepts w) (nexts w) v (backlog w) (accepted w) (delivered w) (dropped w).
Definition set_backlog (w : world) v := mkWorld (lst w) (tcp_options_ w) (here w) (loop_state w) (sources w) (accepts w) (nexts w) (work w) v (accepted w) (delivered w) (dropped w).
Definition log_accepted (w : world) fd := mkWorld (lst w) (tcp_options_ w) (here w) (loop_state w) (sources w) (accepts w) (nexts w) (work w) (backlog w) (accepted w ++ [fd]) (delivered w) (dropped w).
Definition log_delivered (w : world) fd := mkWorld (lst w) (tcp_options_ w) (here w) (loop_state w) (sources w) (accepts w) (nexts w) (work w) (backlog w) (accepted w) (delivered w ++ [fd]) (dropped w).
Definition log_dropped (w : world) fds := mkWorld (lst w) (tcp_options_ w) (here w) (loop_state w) (sources w) (accepts w) (nexts w) (work w) (backlog w) (accepted w) (delivered w) (dropped w ++ fds).

(** A pointer to an object that does not exist is not followed: [Panic]. *)
Definition get {A} (m : gmap nat A) (k : nat) : outcome A := match m !! k with Some x => Val x | None => Panic end.
Definition put_source (w : world) (k : nat) (s : source) : world := set_sources w (<[k := s]> (sources w)).
Definition put_accept (w : world) (a : nat) (x : AcceptAwaiter) : world := set_accepts w (<[a := x]> (accepts w)).
Definition put_next (w : world) (a : nat) (x : NextAwaiter) : world := set_nexts w (<[a := x]> (nexts w)).
Definition schedule (w : world) (t : task) : world := set_work w (work w ++ [t]).

Definition stopping (w : world) : bool := bool_decide (loop_state w = kStopping) || bool_decide (loop_state w = kStopped).

(** ** The channel *)

Definition EnableReading (w : world) : world := set_lst w (set_channel (lst w) true true).
Definition DisableReading (w : world) : world := if reading (lst w) then set_lst w (set_channel (lst w) false (registered (lst w))) else w.
Definition DetachChannel (w : world) : world := set_lst w (set_channel (lst w) false false).
Definition RequireOwnerLoop (w : world) : outcome unit := ALYRN_CHECK (loop_ (lst w));; ALYRN_CHECK (here w).

(** ** Accepting *)

(** accept, retried while interrupted: the answer and the backlog after it. *)
Fixpoint accept_loop (answers : list accept_answer) : accept_answer * list accept_answer :=
  match answers with
  | [] => (inr EAGAIN, [])
  | inr e :: rest => if e =? EINTR then accept_loop rest else (inr e, rest)
  | inl c :: rest => (inl c, rest)
  end.

(** TryAccept of an awaiter and of a source, which reports a connection that cannot be
    configured as [failure] says. *)
Definition try_accept (w : world) (failure : Error -> Error) : world * ResultE Z :=
  let '(answer, rest) := accept_loop (backlog w) in
  let w := set_backlog w rest in
  match answer with
  | inr e => (w, Err (Errno e))
  | inl (fd, answers) =>
      let w := log_accepted w fd in
      match (ApplyTcpOptions fd (tcp_options_ w) (mkKernel [] answers)).2 with
      | Err e => (log_dropped w [fd], Err (failure e))
      | Ok _ => (w, Ok fd)
      end
  end.

Definition TryAccept (w : world) : world * ResultE Z := try_accept w (fun e => e).
Definition source_TryAccept (w : world) : world * ResultE Z := try_accept w (fun _ => Errno ECONNABORTED).

Definition would_block (r : ResultE Z) : bool := match r with Err e => IsWouldBlock (err_value e) | Ok _ => false end.

(** A stream that is handed out with a result. *)
Definition deliver (w : world) (r : ResultE Z) : world := match r with Ok fd => log_delivered w fd | Err _ => w end.

(** ** Listener::AcceptAwaiter *)

(** CompleteInline *)
Definition accept_CompleteInline (w : world) (a : nat) (r : ResultE Z) : outcome world :=
  x ← get (accepts w) a;
  cell ← ValueResultState.SetResult r (a_result x);
  let '(lc, ok) := SingleResultLifecycle.TryAuthorizeResult (a_lifecycle x) in
  ALYRN_CHECK ok;;
  let '(lc, ok) := SingleResultLifecycle.TryAuthorizeRelease lc in
  ALYRN_CHECK ok;;
  Val (put_accept w a (mkAccept (a_bound x) lc cell)).

(** Listener::CompleteAccept *)
Definition CompleteAccept (w : world) (r : ResultE Z) : outcome world :=
  match pending_accept_ (lst w) with
  | None => Val w
  | Some a =>
      x ← get (accepts w) a;
      let '(lc, ok) := SingleResultLifecycle.TryAuthorizeResult (a_lifecycle x) in
      ALYRN_CHECK ok;;
      cell ← ValueResultState.SetResult r (a_result x);
      let '(lc, ok) := SingleResultLifecycle.TryAuthorizeRelease lc in
      ALYRN_CHECK ok;;
      let w := DisableReading (set_lst w (set_pending (lst w) None)) in
      let '(lc, ok) := SingleResultLifecycle.TryAuthorizeContinuation lc in
      ALYRN_CHECK ok;;
      ALYRN_CHECK (a_bound x);;
      Val (schedule (put_accept w a (mkAccept (a_bound x) lc cell)) (ResumeAccept a))
  end.

(** await_suspend: does the coroutine stay suspended? *)
Definition accept_await_suspend (w : world) (a : nat) : outcome (world * bool) :=
  RequireOwnerLoop w;;
  if stopping w then w ← accept_CompleteInline w a (Err (Errno ECANCELED)); Val (w, false)
  else match pending_accept_ (lst w) with
  | Some _ => w ← accept_CompleteInline w a (Err (Errno EBUSY)); Val (w, false)
  | None =>
      x ← get (accepts w) a;
      ALYRN_CHECK (negb (a_bound x));;
      let w := put_accept w a (mkAccept true (a_lifecycle x) (a_result x)) in
      let '(w, r) := TryAccept w in
      if negb (would_block r) then w ← accept_CompleteInline (deliver w r) a r; Val (w, false)
      else
        let w := set_lst w (set_pending (lst w) (Some a)) in
        Val (if reading (lst w) then w else EnableReading w, true)
  end.

Definition accept_await_resume (w : world) (a : nat) : outcome (world * ResultE Z) :=
  x ← get (accepts w) a;
  '(r, cell) ← ValueResultState.Take (a_result x);
  Val (put_accept w a (mkAccept (a_bound x) (a_lifecycle x) cell), r).

(** AcceptAwaiter::OnReady *)
Definition accept_OnReady (w : world) : outcome world :=
  let '(w, r) := TryAccept w in
  if would_block r then Val w else CompleteAccept (deliver w r) r.

(** Listener::Accept; [None] while it waits. *)
Definition Accept (w : world) (a : nat) : outcome (world * option (ResultE Z)) :=
  RequireOwnerLoop w;;
  if closed_ (lst w) then Val (w, Some (Err (Errno EBADF)))
  else match accept_source_ (lst w) with
  | Some _ => Val (w, Some (Err (Errno EBUSY)))
  | None =>
      '(w, suspended) ← accept_await_suspend w a;
      if (suspended : bool) then Val (w, None)
      else '(w, r) ← accept_await_resume w a; Val (w, Some r)
  end.

(** ** AcceptSource *)

(** NextAwaiter::Complete *)
Definition next_Complete (w : world) (a : nat) (r : ResultE (option Z)) : outcome world :=
  n ← get (nexts w) a;
  let '(gate, first) := CompletionGate.TryComplete (n_gate n) in
  if negb first then Val w
  else
    cell ← ValueResultState.SetResult r (n_result n);
    ALYRN_CHECK (n_bound n);;
    Val (schedule (put_next w a (mkNext (n_source n) (n_bound n) gate cell)) (ResumeNext a)).

Definition ReleaseListenerReservation (w : world) (k : nat) : outcome world :=
  s ← get (sources w) k;
  if listener_ s && bool_decide (AcceptSource.state_ (state_ s) = kTerminal) && bool_decide (accept_source_ (lst w) = Some k)
  then Val (set_lst w (set_source (lst w) None)) else Val w.

Definition EnsureAdmission (w : world) (k : nat) : outcome world :=
  s ← get (sources w) k;
  if negb (listener_ s) || closed_ (lst w) then Val w
  else if negb (bool_decide (AcceptSource.state_ (state_ s) = kActive)) then Val (DisableReading w)
  else
    let '(st, armed) := if AcceptSource.armed_requests_ (state_ s) =? 0 then AcceptSource.TryArm (state_ s) else (state_ s, false) in
    let w := put_source w k (set_state s st) in
    let w := if armed then EnableReading w else w in
    Val (if (AcceptSource.armed_requests_ st =? 0) && negb (AcceptSource.CanArm st) then DisableReading w else w).

(** The result, when there is one. *)
Definition TryTakeNext (w : world) (k : nat) : outcome (world * option (ResultE (option Z))) :=
  s ← get (sources w) k;
  match events_ s with
  | fd :: rest =>
      let '(st, consumed) := AcceptSource.ConsumeEvent (state_ s) in
      ALYRN_CHECK consumed;;
      let st := if bool_decide (AcceptSource.state_ st = kPaused) then (AcceptSource.TryResume st).1 else st in
      let w := log_delivered (put_source w k (set_state (set_events s rest) st)) fd in
      w ← EnsureAdmission w k;
      Val (w, Some (Ok (Some fd)))
  | [] =>
      if bool_decide (AcceptSource.state_ (state_ s) = kTerminal) then
        w ← ReleaseListenerReservation w k;
        Val (w, Some (match terminal_error_ s with Some error => Err error | None => Ok None end))
      else Val (w, None)
  end.

Definition DeliverNextIfReady (w : world) (k : nat) : outcome world :=
  s ← get (sources w) k;
  match pending_next_ s with
  | None => ReleaseListenerReservation w k
  | Some a =>
      '(w, r) ← TryTakeNext w k;
      match r with
      | None => Val w
      | Some r =>
          s ← get (sources w) k;
          next_Complete (put_source w k (set_next s None)) a r
      end
  end.

Definition Fail (w : world) (k : nat) (error : Error) : outcome world :=
  s ← get (sources w) k;
  let s := match terminal_error_ s with None => set_error s (Some error) | Some _ => s end in
  let w := DisableReading w in
  DeliverNextIfReady (put_source w k (set_state s (AcceptSource.RequestStop (state_ s)))) k.

(** [CompleteRequest(false)], which must succeed. *)
Definition finish_request (w : world) (k : nat) : outcome world :=
  s ← get (sources w) k;
  let '(st, completed) := AcceptSource.CompleteRequest false (state_ s) in
  ALYRN_CHECK (match completed with Ok _ => true | Err _ => false end);;
  Val (put_source w k (set_state s st)).

Inductive verdict := Continue | Break | Return.

(** One pass of the loop in OnReady; [room] is false when the queue finds no memory. *)
Definition ready_step (w : world) (k : nat) (room : bool) : outcome (world * verdict) :=
  let '(w, r) := source_TryAccept w in
  match r with
  | Err error =>
      w ← finish_request w k;
      if IsWouldBlock (err_value error) then Val (w, Break)
      else if IsAcceptedConnectionError (err_value error) then
        s ← get (sources w) k;
        let '(st, armed) := AcceptSource.TryArm (state_ s) in
        Val (put_source w k (set_state s st), if armed then Continue else Break)
      else w ← Fail w k error; Val (w, Return)
  | Ok fd =>
      if negb room then
        w ← finish_request w k;
        w ← Fail (log_dropped w [fd]) k (Errno ENOMEM);
        Val (w, Return)
      else
        s ← get (sources w) k;
        let '(st, completed) := AcceptSource.CompleteRequest true (state_ s) in
        ALYRN_CHECK (match completed with Ok _ => true | Err _ => false end);;
        let '(st, armed) := AcceptSource.TryArm st in
        let w := put_source w k (set_state (set_events s (events_ s ++ [fd])) st) in
        if armed then Val (w, Continue)
        else if AcceptSource.event_capacity (AcceptSource.options_ st) <=? AcceptSource.queued_events_ st then
          let '(st, paused) := AcceptSource.RequestPause st in
          ALYRN_CHECK (match paused with Ok _ => true | Err _ => false end);;
          Val (put_source w k (set_state (set_events s (events_ s ++ [fd])) st), Break)
        else Val (w, Break)
  end.

(** The loop; [fuel] bounds the passes by what the socket answers. *)
Fixpoint ready_loop (fuel : nat) (w : world) (k : nat) (rooms : list bool) : outcome (world * bool) :=
  match fuel with
  | O => Panic
  | S fuel =>
      s ← get (sources w) k;
      if negb (bool_decide (AcceptSource.state_ (state_ s) = kActive)) || (AcceptSource.armed_requests_ (state_ s) =? 0) then Val (w, true)
      else
        '(w, v) ← ready_step w k (hd true rooms);
        match v with
        | Continue => ready_loop fuel w k (tl rooms)
        | Break => Val (w, true)
        | Return => Val (w, false)
        end
  end.

(** AcceptSource::OnReady *)
Definition source_OnReady (w : world) (k : nat) (rooms : list bool) : outcome world :=
  s ← get (sources w) k;
  if negb (bool_decide (AcceptSource.state_ (state_ s) = kActive)) then Val w
  else
    let '(st, armed) := if AcceptSource.armed_requests_ (state_ s) =? 0 then AcceptSource.TryArm (state_ s) else (state_ s, true) in
    if negb armed then Val (DisableReading w)
    else
      '(w, more) ← ready_loop (S (S (length (backlog w)))) (put_source w k (set_state s st)) k rooms;
      if (more : bool) then w ← EnsureAdmission w k; DeliverNextIfReady w k
      else Val w.

Definition source_OnError (w : world) (k : nat) (error : Error) : outcome world :=
  s ← get (sources w) k;
  if negb (bool_decide (AcceptSource.state_ (state_ s) = kActive)) then Val w
  else
    w ← (if negb (AcceptSource.armed_requests_ (state_ s) =? 0) then finish_request w k else Val w);
    Fail w k error.

Definition OnListenerClosed (w : world) (k : nat) : outcome world :=
  s ← get (sources w) k;
  let w := DisableReading w in
  w ← (if negb (AcceptSource.armed_requests_ (state_ s) =? 0) then finish_request w k else Val w);
  s ← get (sources w) k;
  DeliverNextIfReady (put_source w k (set_state s (AcceptSource.RequestStop (state_ s)))) k.

(** A result stored without suspending. *)
Definition next_inline (w : world) (a : nat) (r : ResultE (option Z)) : outcome (world * bool) :=
  n ← get (nexts w) a;
  cell ← ValueResultState.SetResult r (n_result n);
  Val (put_next w a (mkNext (n_source n) (n_bound n) (CompletionGate.TryComplete (n_gate n)).1 cell), false).

(** NextAwaiter::await_suspend once the source has started. *)
Definition next_wait (w : world) (k a : nat) : outcome (world * bool) :=
  '(w, r) ← TryTakeNext w k;
  match r with
  | Some r => next_inline w a r
  | None =>
      n ← get (nexts w) a;
      ALYRN_CHECK (negb (n_bound n));;
      let w := put_next w a (mkNext (n_source n) true (n_gate n) (n_result n)) in
      s ← get (sources w) k;
      w ← EnsureAdmission (put_source w k (set_next s (Some a))) k;
      '(w, r) ← TryTakeNext w k;
      match r with
      | Some r => s ← get (sources w) k; next_inline (put_source w k (set_next s None)) a r
      | None => Val (w, true)
      end
  end.

(** NextAwaiter::await_suspend: does the coroutine stay suspended? *)
Definition next_await_suspend (w : world) (k a : nat) : outcome (world * bool) :=
  s ← get (sources w) k;
  if negb (listener_ s) then next_inline w a (Err (Errno EBADF))
  else
    ALYRN_CHECK (loop_ (lst w));;             (* listener_->loop_ is followed *)
    if negb (here w) then next_inline w a (Err (Errno EINVAL))
    else match pending_next_ s with
    | Some _ => next_inline w a (Err (Errno EBUSY))
    | None =>
        if bool_decide (AcceptSource.state_ (state_ s) = kIdle) then
          if stopping w then next_inline w a (Err (Errno ECANCELED))
          else if closed_ (lst w) then next_inline (put_source w k (set_state s (AcceptSource.RequestStop (state_ s)))) a (Ok None)
          else if negb (bool_decide (pending_accept_ (lst w) = None)) || negb (bool_decide (accept_source_ (lst w) = None) || bool_decide (accept_source_ (lst w) = Some k))
          then next_inline w a (Err (Errno EBUSY))
          else
            let '(st, started) := AcceptSource.Start (state_ s) in
            let w := put_source w k (set_state s st) in
            match started with
            | Err e => next_inline w a (Err e)
            | Ok _ => next_wait (set_lst w (set_source (lst w) (Some k))) k a
            end
        else next_wait w k a
    end.

Definition next_await_resume (w : world) (a : nat) : outcome (world * ResultE (option Z)) :=
  n ← get (nexts w) a;
  '(r, cell) ← ValueResultState.Take (n_result n);
  Val (put_next w a (mkNext (n_source n) (n_bound n) (n_gate n) cell), r).

(** AcceptSource::Stop *)
Definition Stop (w : world) (k : nat) : outcome (world * ResultE unit) :=
  s ← get (sources w) k;
  if negb (listener_ s) then Val (w, Ok tt)
  else
    ALYRN_CHECK (loop_ (lst w));;
    if negb (here w) then Val (w, Err (Errno EINVAL))
    else match AcceptSource.state_ (state_ s) with
    | kIdle =>
        w ← ReleaseListenerReservation (put_source w k (set_state s (AcceptSource.RequestStop (state_ s)))) k;
        Val (w, Ok tt)
    | kActive | kPausing | kPaused | Sources.kStopping =>
        let w := DisableReading w in
        let '(st, completed) := if negb (AcceptSource.armed_requests_ (state_ s) =? 0) then AcceptSource.CompleteRequest false (state_ s) else (state_ s, Ok tt) in
        match completed with
        | Err e => Val (put_source w k (set_state s st), Err e)
        | Ok _ =>
            w ← DeliverNextIfReady (put_source w k (set_state s (AcceptSource.RequestStop st))) k;
            w ← ReleaseListenerReservation w k;
            Val (w, Ok tt)
        end
    | kDraining | kTerminal =>
        w ← DeliverNextIfReady w k;
        w ← ReleaseListenerReservation w k;
        Val (w, Ok tt)
    end.

Definition running (s : SourceState) : bool := bool_decide (s = kActive) || bool_decide (s = Sources.kStopping).

(** AcceptSource(AcceptSource&&): source [k] is moved to [k']. *)
Definition move_source (w : world) (k k' : nat) : outcome world :=
  s ← get (sources w) k;
  ALYRN_CHECK (bool_decide (pending_next_ s = None));;
  ALYRN_CHECK (negb (running (AcceptSource.state_ (state_ s))));;
  let w := set_sources w (<[k' := mkSource (listener_ s) (state_ s) (events_ s) (terminal_error_ s) None]> (<[k := mkSource false (state_ s) [] (terminal_error_ s) None]> (sources w))) in
  Val (if listener_ s && bool_decide (accept_source_ (lst w) = Some k) then set_lst w (set_source (lst w) (Some k')) else w).

(** operator=(AcceptSource&&): the destination [k'] gives up what it has. *)
Definition move_assign_source (w : world) (k k' : nat) : outcome world :=
  d ← get (sources w) k';
  ALYRN_CHECK (bool_decide (pending_next_ d = None));;
  ALYRN_CHECK (negb (running (AcceptSource.state_ (state_ d))));;
  let w := if listener_ d && bool_decide (accept_source_ (lst w) = Some k') then set_lst w (set_source (lst w) None) else w in
  move_source (log_dropped w (events_ d)) k k'.

(** ~AcceptSource: queued connections are closed with their streams. *)
Definition destroy_source (w : world) (k : nat) : outcome world :=
  s ← get (sources w) k;
  let gone w := log_dropped (set_sources w (delete k (sources w))) (events_ s) in
  if negb (listener_ s) then Val (gone w)
  else
    ALYRN_CHECK (loop_ (lst w) && here w);;
    ALYRN_CHECK (bool_decide (pending_next_ s = None));;
    ALYRN_CHECK (bool_decide (AcceptSource.state_ (state_ s) ∈ [kIdle; kDraining; kTerminal]));;
    ALYRN_CHECK (AcceptSource.armed_requests_ (state_ s) =? 0);;
    let w := if bool_decide (accept_source_ (lst w) = Some k) then set_lst w (set_source (lst w) None) else w in
    Val (gone w).

(** ** Listener *)

Definition CreateAcceptSource (w : world) (k : nat) (o : AcceptSource.AcceptSourceOptions) : outcome (world * ResultE unit) :=
  RequireOwnerLoop w;;
  if stopping w then Val (w, Err (Errno ECANCELED))
  else if closed_ (lst w) then Val (w, Err (Errno EBADF))
  else if negb (bool_decide (pending_accept_ (lst w) = None)) || negb (bool_decide (accept_source_ (lst w) = None)) then Val (w, Err (Errno EBUSY))
  else match AcceptSource.Create o with
  | Err e => Val (w, Err e)
  | Ok state => Val (put_source w k (mkSource true state [] None None), Ok tt)
  end.

Definition CloseNow (w : world) : outcome world :=
  if closed_ (lst w) then Val w
  else
    let w := set_lst w (set_closed (lst w)) in
    w ← CompleteAccept w (Err (Errno ECANCELED));
    w ← match accept_source_ (lst w) with Some k => OnListenerClosed w k | None => Val w end;
    let w := DetachChannel w in
    Val (set_lst w (close_socket (lst w))).

Definition Close (w : world) : outcome world := RequireOwnerLoop w;; CloseNow w.

Definition HandleRead (w : world) (rooms : list bool) : outcome world :=
  match pending_accept_ (lst w), accept_source_ (lst w) with
  | Some _, _ => accept_OnReady w
  | None, Some k => source_OnReady w k rooms
  | None, None => Val w
  end.

Definition HandleError (w : world) (answer : Z + Z) : outcome world :=
  match pending_accept_ (lst w), accept_source_ (lst w) with
  | Some _, _ => CompleteAccept w (Err (ErrorFromSocketErrorEvent answer))
  | None, Some k => source_OnError w k (ErrorFromSocketErrorEvent answer)
  | None, None => Val w
  end.

Definition DispatchLoopStop (w : world) : outcome world := CloseNow w.

(** Create: [loop] is whether there is a loop; the answers are those of the calls on the
    listening socket. *)
Definition Create (loop here : bool) (family : Endpoint.storage) (answer : Z + Z) (reuse_addr reuse_port : bool) (k : kernel) (bound listening : option Z) : outcome (kernel * ResultE listener * list Z) :=
  if negb loop then Val (k, Err (Errno EINVAL), [])
  else
    let '(k, socket, closed) := TryCreateListenSocket family answer reuse_addr reuse_port k bound listening in
    match socket with
    | Err e => Val (k, Err e, closed)
    | Ok _ => ALYRN_CHECK here;; Val (k, Ok (mkListener true true false false None None false true), closed)
    end.

Definition LocalAddress (w : world) (answer : (Endpoint.storage * Z) + Z) : outcome (ResultE Endpoint.t) :=
  RequireOwnerLoop w;;
  if closed_ (lst w) then Val (Err (Errno EBADF)) else GetEndpoint answer.

(** ~Listener: the checks, and the descriptor of a socket that is still open. *)
Definition destroy_listener (l : listener) (here : bool) : outcome unit :=
  if negb (loop_ l) then Val tt
  else
    ALYRN_CHECK here;;
    ALYRN_CHECK (bool_decide (pending_accept_ l = None));;
    ALYRN_CHECK (bool_decide (accept_source_ l = None)).

(** PrepareMove and the move constructor: the new listener and what is left. *)
Definition move_listener (other : listener) (here : bool) : outcome (listener * listener) :=
  ALYRN_CHECK (loop_ other);;
  ALYRN_CHECK here;;
  ALYRN_CHECK (bool_decide (pending_accept_ other = None));;
  ALYRN_CHECK (bool_decide (accept_source_ other = None));;
  Val (mkListener true (open other) false false None None (closed_ other) true,
       mkListener false false false false None None true false).

(** operator=(Listener&&), which resets the destination first. *)
Definition move_assign_listener (self other : listener) (here : bool) : outcome (listener * listener) :=
  moved ← move_listener other here;
  if loop_ self then
    ALYRN_CHECK (bool_decide (pending_accept_ self = None));;
    ALYRN_CHECK (bool_decide (accept_source_ self = None));;
    Val moved
  else Val moved.

(** ** Scripts *)

Inductive action :=
| AAccept (a : nat)                           (* co_await Accept() *)
| ACreate (k : nat) (o : AcceptSource.AcceptSourceOptions)
| ANext (k a : nat)                           (* co_await Next() of source k *)
| AStop (k : nat)
| AMove (k k' : nat)
| ADestroy (k : nat)
| AResume                                     (* the loop runs the first scheduled continuation *)
| AArrive (answers : list accept_answer)      (* connections and errors for the listening socket *)
| AReady (rooms : list bool)
| AError (answer : Z + Z)
| AClose
| ALoopStop.

(** The options are of type std::size_t. *)
Definition typed_options (o : AcceptSource.AcceptSourceOptions) : bool :=
  forallb (fun x => (0 <=? x) && (x <=? size_max)) [AcceptSource.pending_depth o; AcceptSource.event_capacity o; AcceptSource.resume_threshold o].

(** [None]: not a call a program can make in this state. *)
Definition exec (w : world) (c : action) : option (outcome world) :=
  match c with
  | AAccept a => match accepts w !! a with Some _ => None | None => Some ('(w, _) ← Accept (put_accept w a new_accept) a; Val w) end
  | ACreate k o => match sources w !! k with Some _ => None | None => if typed_options o then Some ('(w, _) ← CreateAcceptSource w k o; Val w) else None end
  | ANext k a =>
      match sources w !! k, nexts w !! a with
      | Some _, None => Some ('(w, suspended) ← next_await_suspend (put_next w a (new_next k)) k a; if (suspended : bool) then Val w else '(w, _) ← next_await_resume w a; Val w)
      | _, _ => None
      end
  | AStop k => match sources w !! k with Some _ => Some ('(w, _) ← Stop w k; Val w) | None => None end
  | AMove k k' =>
      match sources w !! k, sources w !! k' with
      | Some s, None => if bool_decide (pending_next_ s = None) && negb (running (AcceptSource.state_ (state_ s))) then Some (move_source w k k') else None
      | _, _ => None
      end
  | ADestroy k =>
      match sources w !! k with
      | Some s => if bool_decide (pending_next_ s = None) && (negb (listener_ s) || bool_decide (AcceptSource.state_ (state_ s) ∈ [kIdle; kDraining; kTerminal])) then Some (destroy_source w k) else None
      | None => None
      end
  | AResume =>
      match work w with
      | [] => None
      | ResumeAccept a :: rest => Some ('(w, _) ← accept_await_resume (set_work w rest) a; Val w)
      | ResumeNext a :: rest => Some ('(w, _) ← next_await_resume (set_work w rest) a; Val w)
      end
  | AArrive answers => Some (Val (set_backlog w (backlog w ++ answers)))
  | AReady rooms => Some (if reading (lst w) then HandleRead w rooms else Val w)
  | AError answer => Some (if registered (lst w) then HandleError w answer else Val w)
  | AClose => Some (Close w)
  | ALoopStop => Some (DispatchLoopStop (set_loop_state w kStopping))
  end.

Definition initial (tcp : TcpOptions) : world := mkWorld (mkListener true true false false None None false true) tcp true kRunning ∅ ∅ ∅ [] [] [] [] [].

Inductive reachable (tcp : TcpOptions) : world -> Prop :=
| reach_initial : reachable tcp (initial tcp)
| reach_step w c w' : reachable tcp w -> exec w c = Some (Val w') -> reachable tcp w'.

End EpollListener.
