(* ===== verification/EpollListenerInv.v ===== *)
(** * The epoll listener: its invariant

    The admission machine as a source uses it, and what the listener, its sources, their
    queues and the awaiters agree on. *)

From S2P Require Import Prelude Lifecycles Sources AcceptSource ResultCells UringLoop EpollStream Sockets EpollListener.

Module EpollListenerInv.
Import EpollListener.

(** ** The machine *)

Abbreviation m_st := AcceptSource.state_.
Abbreviation m_q := AcceptSource.queued_events_.
Abbreviation m_a := AcceptSource.armed_requests_.
Abbreviation m_o := AcceptSource.options_.
Abbreviation m_cap m := (AcceptSource.event_capacity (AcceptSource.options_ m)).

(** At rest: no armed request unless active, and then at most one, with room for its event. *)
Record mok (m : AcceptSource.t) : Prop := {
  mok_inv : AcceptSource.inv m;
  mok_one : m_a m <= 1;
  mok_room : m_q m + m_a m <= m_cap m;
  mok_state : m_st m = kIdle \/ m_st m = kActive \/ m_st m = kPaused \/ m_st m = kDraining \/ m_st m = kTerminal;
}.

Definition settle (st : SourceState) (q : Z) : SourceState :=
  match st with Sources.kStopping | kDraining => if q =? 0 then kTerminal else kDraining | kPausing => kPaused | _ => st end.

Lemma accept_reconcile_settles o st q : AcceptSource.ReconcileStopping (AcceptSource.mk o st q 0) = AcceptSource.mk o (settle st q) q 0.
Proof.
  unfold AcceptSource.ReconcileStopping, AcceptSource.ReconcilePause, AcceptSource.set_state.
  destruct st; simpl; repeat (split_if; bool_prop; simplify_eq/=); try done; try lia.
Qed.

Lemma accept_reconcile_active o q a : AcceptSource.ReconcileStopping (AcceptSource.mk o kActive q a) = AcceptSource.mk o kActive q a.
Proof. done. Qed.

Lemma mok_eta m : m = AcceptSource.mk (m_o m) (m_st m) (m_q m) (m_a m).
Proof. by destruct m. Qed.

Lemma mok_bounds m : mok m -> 0 <= m_q m <= m_cap m /\ 0 <= m_a m <= 1 /\ m_q m + m_a m <= m_cap m /\ 0 < m_cap m <= size_max /\ 0 < AcceptSource.pending_depth (m_o m).
Proof.
  intros M. pose proof (AcceptSource.accept_inv_usize _ (mok_inv m M)) as (_ & _ & Hp). destruct M as [[(Hx & _) Hv Hq Ha _] H1 H2 _]. unfold AcceptSource.Valid in Hv. bool_prop; unfold AcceptSource.options_in_range, is_usize in *; lia.
Qed.

Lemma mok_unarmed m : mok m -> m_st m <> kActive -> m_a m = 0.
Proof.
  intros M Hs. pose proof (AcceptSource.inv_state _ (mok_inv m M)) as Hc. destruct (mok_state m M) as [E|[E|[E|[E|E]]]]; rewrite E in *; cbn in Hc; try done; tauto.
Qed.

(** The invariant of a machine with other counters in one of the states at rest. *)
Lemma mok_mk m st q a : mok m -> 0 <= q <= m_cap m -> 0 <= a <= 1 -> q + a <= m_cap m -> AcceptSource.state_coherent st q a ->
  (st = kIdle \/ st = kActive \/ st = kPaused \/ st = kDraining \/ st = kTerminal) -> mok (AcceptSource.mk (m_o m) st q a).
Proof.
  intros M Hq Ha Hr Hc Hs. pose proof (mok_bounds m M) as (_ & _ & _ & _ & Hp). destruct M as [[Ho Hv _ _ _] _ _ _]. split; cbn; try done; [|lia]. split; cbn; try done. lia.
Qed.

Lemma CanArm_active m : mok m -> m_st m = kActive -> m_a m = 0 -> AcceptSource.CanArm m = (m_q m <? m_cap m).
Proof.
  intros M E Ea. pose proof (mok_bounds m M) as (Hq & _ & _ & Hc & Hp). unfold AcceptSource.CanArm. rewrite E, Ea, Z.add_0_r, usize_small by (unfold is_usize; lia). rewrite (proj2 (Z.ltb_lt 0 _)) by lia. done.
Qed.

Lemma TryArm_active m : mok m -> m_st m = kActive -> m_a m = 0 ->
  AcceptSource.TryArm m = if m_q m <? m_cap m then (AcceptSource.mk (m_o m) kActive (m_q m) 1, true) else (m, false).
Proof.
  intros M E Ea. pose proof (mok_bounds m M) as (Hq & _ & _ & Hc & Hp). unfold AcceptSource.TryArm. rewrite E, Ea, Z.add_0_r, usize_small by (unfold is_usize; lia). rewrite (proj2 (Z.leb_gt _ 0)) by lia. cbn.
  rewrite Z.leb_antisym. destruct (m_q m <? m_cap m); done.
Qed.

Lemma armed_mok m : mok m -> m_q m < m_cap m -> mok (AcceptSource.mk (m_o m) kActive (m_q m) 1).
Proof. intros M Hq. pose proof (mok_bounds m M). apply mok_mk; try done; auto; lia. Qed.

Lemma unarmed_mok m : mok m -> mok (AcceptSource.mk (m_o m) kActive (m_q m) 0).
Proof. intros M. pose proof (mok_bounds m M). apply mok_mk; try done; auto; lia. Qed.

Lemma finish_active m : mok m -> m_st m = kActive -> m_a m <> 0 -> AcceptSource.CompleteRequest false m = (AcceptSource.mk (m_o m) kActive (m_q m) 0, Ok tt).
Proof.
  intros M E Ea. pose proof (mok_bounds m M). unfold AcceptSource.CompleteRequest. rewrite (proj2 (Z.eqb_neq _ _) Ea). cbn. rewrite E. assert (m_a m = 1) as -> by lia. done.
Qed.

Lemma produce_active m : mok m -> m_st m = kActive -> m_a m <> 0 ->
  AcceptSource.CompleteRequest true m = (AcceptSource.mk (m_o m) kActive (m_q m + 1) 0, Ok tt) /\ mok (AcceptSource.mk (m_o m) kActive (m_q m + 1) 0).
Proof.
  intros M E Ea. pose proof (mok_bounds m M) as (Hq & Ha & Hr & Hc & Hp). split; [|apply mok_mk; try done; auto; lia].
  unfold AcceptSource.CompleteRequest. rewrite (proj2 (Z.eqb_neq _ _) Ea). cbn. rewrite (proj2 (Z.leb_gt _ _)) by lia. rewrite E. assert (m_a m = 1) as -> by lia. rewrite usize_small by (unfold is_usize; lia). done.
Qed.

Lemma pause_active m : mok m -> m_st m = kActive -> m_a m = 0 -> AcceptSource.RequestPause m = (AcceptSource.mk (m_o m) kPaused (m_q m) 0, Ok tt) /\ mok (AcceptSource.mk (m_o m) kPaused (m_q m) 0).
Proof.
  intros M E Ea. pose proof (mok_bounds m M). split; [|apply mok_mk; try done; auto; lia]. rewrite (mok_eta m) at 1. by rewrite E, Ea.
Qed.

Lemma consume_spec m : mok m -> 0 < m_q m ->
  AcceptSource.ConsumeEvent m = (AcceptSource.mk (m_o m) (settle (m_st m) (m_q m - 1)) (m_q m - 1) (m_a m), true) /\ mok (AcceptSource.mk (m_o m) (settle (m_st m) (m_q m - 1)) (m_q m - 1) (m_a m)) /\
  (m_st m = kActive \/ m_st m = kPaused \/ m_st m = kDraining).
Proof.
  intros M Hq. pose proof (mok_bounds m M) as (Hb & Ha & Hr & Hc & Hp). pose proof (mok_unarmed m M) as Hu. pose proof (AcceptSource.inv_state _ (mok_inv m M)) as Hco.
  assert (m_st m = kActive \/ m_st m = kPaused \/ m_st m = kDraining) as Hs by (destruct (mok_state m M) as [E|[E|[E|[E|E]]]]; rewrite E in *; cbn in Hco; auto; lia).
  split_and!; [| |done].
  - unfold AcceptSource.ConsumeEvent. rewrite (proj2 (Z.eqb_neq (m_q m) 0)), usize_small by (unfold is_usize; lia). destruct Hs as [E|Hs]; [by rewrite E|]. rewrite Hu by (destruct Hs; congruence). by rewrite accept_reconcile_settles.
  - destruct Hs as [E|[E|E]]; rewrite E; cbn; [apply mok_mk; try done; auto; lia | rewrite (Hu ltac:(congruence)); apply mok_mk; try done; auto; lia |].
    rewrite (Hu ltac:(congruence)). destruct (Z.eqb_spec (m_q m - 1) 0); (apply mok_mk; try done; auto; cbn; lia).
Qed.

Lemma resume_mok m : mok m -> m_st m = kPaused -> mok (AcceptSource.TryResume m).1 /\ m_q (AcceptSource.TryResume m).1 = m_q m /\ (m_st (AcceptSource.TryResume m).1 = kPaused \/ m_st (AcceptSource.TryResume m).1 = kActive).
Proof.
  intros M E. pose proof (mok_bounds m M). pose proof (mok_unarmed m M ltac:(congruence)) as Ea. unfold AcceptSource.TryResume. destruct (_ || _); cbn; [auto|]. split_and!; auto. unfold AcceptSource.set_state. rewrite Ea. apply mok_mk; try done; auto; lia.
Qed.

(** The last queued event of a paused source resumes it. *)
Lemma resume_empty m : mok m -> m_st m = kPaused -> m_q m = 0 -> m_st (AcceptSource.TryResume m).1 = kActive.
Proof.
  intros M E Eq. unfold AcceptSource.TryResume. rewrite E, Eq. cbn. pose proof (mok_bounds m M) as (_ & _ & _ & Hc & _). pose proof (AcceptSource.inv_options _ (mok_inv m M)) as (_ & _ & Hr). unfold is_usize in Hr.
  assert (0 <= AcceptSource.ResumeThreshold (m_o m)). { unfold AcceptSource.ResumeThreshold. case_match; [apply Z.div_pos; lia | lia]. }
  by rewrite (proj2 (Z.ltb_ge _ _)).
Qed.

Definition stop_state (q : Z) : SourceState := if q =? 0 then kTerminal else kDraining.

Lemma stop_spec m : mok m -> m_a m = 0 -> AcceptSource.RequestStop m = AcceptSource.mk (m_o m) (stop_state (m_q m)) (m_q m) 0 /\ mok (AcceptSource.mk (m_o m) (stop_state (m_q m)) (m_q m) 0).
Proof.
  intros M Ea. pose proof (mok_bounds m M) as (Hq & _ & Hr & _). pose proof (AcceptSource.inv_state _ (mok_inv m M)) as Hco. split.
  - rewrite (mok_eta m) at 1. rewrite Ea. unfold AcceptSource.RequestStop, stop_state. destruct (mok_state m M) as [E|[E|[E|[E|E]]]]; rewrite E in *; cbn [AcceptSource.state_]; cbn in Hco.
    + by destruct Hco as [-> _]. + unfold AcceptSource.set_state. cbn. by rewrite accept_reconcile_settles. + unfold AcceptSource.set_state. cbn. by rewrite accept_reconcile_settles.
    + by rewrite (proj2 (Z.eqb_neq (m_q m) 0)) by tauto. + by destruct Hco as [_ ->].
  - unfold stop_state. destruct (Z.eqb_spec (m_q m) 0); (apply mok_mk; try done; auto; cbn; lia).
Qed.

Lemma start_spec m : mok m -> m_st m = kIdle -> AcceptSource.Start m = (AcceptSource.mk (m_o m) kActive 0 0, Ok tt) /\ m_q m = 0 /\ mok (AcceptSource.mk (m_o m) kActive 0 0).
Proof.
  intros M E. pose proof (mok_bounds m M) as (Hq & _ & Hr & Hc & _). pose proof (AcceptSource.inv_state _ (mok_inv m M)) as Hco. rewrite E in Hco. destruct Hco as [Eq Ea]. split_and!; [|done|apply mok_mk; try done; auto; lia].
  unfold AcceptSource.Start, AcceptSource.set_state. by rewrite E, Eq, Ea.
Qed.

(** ** The invariant *)

Definition queue (w : world) : list Z :=
  match accept_source_ (lst w) with Some k => match sources w !! k with Some s => events_ s | None => [] end | None => [] end.

Definition st_of (s : source) : SourceState := m_st (state_ s).

Record source_ok (w : world) (k : nat) (s : source) : Prop := {
  so_moved : listener_ s = false -> events_ s = [] /\ pending_next_ s = None;
  so_machine : listener_ s = true -> mok (state_ s);
  so_queue : listener_ s = true -> m_q (state_ s) = Z.of_nat (length (events_ s));
  so_reserved : listener_ s = true -> st_of s = kIdle \/ st_of s = kTerminal \/ accept_source_ (lst w) = Some k;
  so_paused : listener_ s = true -> st_of s = kPaused -> events_ s <> [];
  so_next a : pending_next_ s = Some a -> nexts w !! a = Some (mkNext k true CompletionGate.initial ValueResultState.kPending) /\ st_of s <> kIdle;
}.

Record core (w : world) : Prop := {
  c_loop : loop_ (lst w) = true;
  c_here : here w = true;
  c_source k s : sources w !! k = Some s -> source_ok w k s;
  c_reserved k : accept_source_ (lst w) = Some k -> exists s, sources w !! k = Some s /\ listener_ s = true /\ st_of s <> kIdle;
  c_pending a : pending_accept_ (lst w) = Some a -> accept_source_ (lst w) = None /\ accepts w !! a = Some (mkAccept true SingleResultLifecycle.initial ValueResultState.kPending);
  c_log : accepted w ≡ₚ delivered w ++ queue w ++ dropped w;
  c_order : sublist (delivered w ++ queue w) (accepted w);
  c_work_accept a : ResumeAccept a ∈ work w -> exists x, accepts w !! a = Some x /\ ValueResultState.HasResult (a_result x) = true;
  c_work_next a : ResumeNext a ∈ work w -> exists x, nexts w !! a = Some x /\ ValueResultState.HasResult (n_result x) = true;
  c_work_nodup : NoDup (work w);
}.

(** The source that accepts for the listener is armed. *)
Definition source_armed (w : world) : bool :=
  match accept_source_ (lst w) with
  | Some k => match sources w !! k with Some s => negb (m_a (state_ s) =? 0) | None => false end
  | None => false
  end.

(** A source has asked for all it may, and a parked Next has nothing to take. *)
Definition admitted (w : world) : Prop := forall k s, sources w !! k = Some s -> listener_ s = true -> st_of s = kActive -> m_a (state_ s) = 0 -> m_q (state_ s) = m_cap (state_ s).
Definition next_waits (w : world) : Prop := forall k s a, sources w !! k = Some s -> pending_next_ s = Some a -> events_ s = [] /\ st_of s <> kTerminal.

Record base (w : world) : Prop := {
  b_core : core w;
  b_admitted : admitted w;
  b_reading : reading (lst w) = match pending_accept_ (lst w) with Some _ => true | None => source_armed w end;
  b_registered : reading (lst w) = true -> registered (lst w) = true;
}.

(** A closed listener has given up its socket and its channel, and its sources are at their end. *)
Definition at_end (s : source) : Prop := st_of s = kIdle \/ st_of s = kDraining \/ st_of s = kTerminal.
Definition closed_ok (w : world) : Prop := closed_ (lst w) = true ->
  pending_accept_ (lst w) = None /\ open (lst w) = false /\ registered (lst w) = false /\ forall k s, sources w !! k = Some s -> listener_ s = true -> at_end s.

Record inv (w : world) : Prop := { i_base : base w; i_next : next_waits w; i_closed : closed_ok w }.

(** ** Changing one source *)

Lemma core_put w w' k s s' : core w -> sources w !! k = Some s -> sources w' = <[k := s']> (sources w) ->
  loop_ (lst w') = true -> here w' = true -> accept_source_ (lst w') = accept_source_ (lst w) -> pending_accept_ (lst w') = pending_accept_ (lst w) -> accepts w' = accepts w -> nexts w' = nexts w -> work w' = work w ->
  source_ok w' k s' -> (accept_source_ (lst w) = Some k -> listener_ s' = true /\ st_of s' <> kIdle) ->
  accepted w' ≡ₚ delivered w' ++ queue w' ++ dropped w' -> sublist (delivered w' ++ queue w') (accepted w') -> core w'.
Proof.
  intros C Hs Es Hl Hh Ea Ep Ec En Ew Ho Hr Hlog Hord. destruct C. split; rewrite ?Ea, ?Ep, ?Ec, ?En, ?Ew; try done.
  - rewrite Es. intros j t Hj. destruct (decide (j = k)) as [->|Hne]; [rewrite lookup_insert_eq in Hj; by simplify_eq|]. rewrite lookup_insert_ne in Hj by done. destruct (c_source0 j t Hj). split; rewrite ?Ea, ?En; done.
  - intros j Hj. destruct (c_reserved0 j Hj) as (t & Ht & Hr'). rewrite Es. destruct (decide (j = k)) as [->|Hne]; [rewrite lookup_insert_eq; exists s'; split; [done|auto] | rewrite lookup_insert_ne by done; eauto].
Qed.

(** The queue of the listener after one source changed. *)
Lemma queue_put w w' k s' : sources w' = <[k := s']> (sources w) -> accept_source_ (lst w') = accept_source_ (lst w) ->
  queue w' = if bool_decide (accept_source_ (lst w) = Some k) then events_ s' else queue w.
Proof.
  intros Es Ea. unfold queue. rewrite Ea, Es. case_bool_decide as E; [by rewrite E, lookup_insert_eq|]. destruct (accept_source_ (lst w)) as [j|]; [|done]. rewrite lookup_insert_ne by congruence. done.
Qed.

Lemma queue_reserved w k s : accept_source_ (lst w) = Some k -> sources w !! k = Some s -> queue w = events_ s.
Proof. intros Ea Es. unfold queue. by rewrite Ea, Es. Qed.

Lemma core_events w k s : core w -> sources w !! k = Some s -> events_ s <> [] -> accept_source_ (lst w) = Some k /\ queue w = events_ s.
Proof.
  intros C Hs He. destruct (c_source _ C k s Hs) as [H1 H2 H3 H4 _ _]. destruct (listener_ s); [|by destruct (H1 eq_refl)]. specialize (H2 eq_refl). specialize (H3 eq_refl). pose proof (AcceptSource.inv_state _ (mok_inv _ H2)) as Hco.
  assert (m_q (state_ s) <> 0) by (destruct (events_ s); cbn in H3; [done|lia]). destruct (H4 eq_refl) as [E|[E|E]]; unfold st_of in E; try (rewrite E in Hco; cbn in Hco; lia). split; [done|]. by eapply queue_reserved.
Qed.

(** ** The reserved source *)

(** Source [k] and the channel change; nothing else does. *)
Definition retune (w : world) (k : nat) (s : source) (r g : bool) : world := set_lst (put_source w k s) (set_channel (lst w) r g).

Lemma core_retune w k s s' r g : core w -> sources w !! k = Some s -> accept_source_ (lst w) = Some k -> listener_ s' = true -> mok (state_ s') ->
  m_q (state_ s') = Z.of_nat (length (events_ s')) -> st_of s' <> kIdle -> (forall a, pending_next_ s' = Some a -> nexts w !! a = Some (mkNext k true CompletionGate.initial ValueResultState.kPending)) ->
  (st_of s' = kPaused -> events_ s' <> []) -> events_ s' = events_ s -> core (retune w k s' r g).
Proof.
  intros C Hs Ha Hl Hm Hq Hi Hn Hpa He. assert (queue (retune w k s' r g) = queue w) as Hqu. { rewrite (queue_put w _ k s') by done. rewrite bool_decide_eq_true_2, He by done. symmetry. by apply (queue_reserved w k). }
  apply (core_put w _ k s s'); try done; try apply C.
  - split; try done; [congruence | by right; right | auto ].
  - rewrite Hqu. apply C.
  - rewrite Hqu. apply C.
Qed.

Lemma source_armed_put w w' k s' : sources w' = <[k := s']> (sources w) -> accept_source_ (lst w') = Some k -> source_armed w' = negb (m_a (state_ s') =? 0).
Proof. intros Es Ea. unfold source_armed. by rewrite Ea, Es, lookup_insert_eq. Qed.

(** Only the reserved source is active. *)
Lemma core_active w k s : core w -> sources w !! k = Some s -> listener_ s = true -> st_of s <> kIdle -> st_of s <> kTerminal -> accept_source_ (lst w) = Some k.
Proof. intros C Hs Hl Hi Ht. by destruct (so_reserved _ _ _ (c_source _ C k s Hs) Hl) as [|[|]]. Qed.

Lemma base_retune w w' k s' : core w' -> accept_source_ (lst w') = Some k -> sources w' = <[k := s']> (sources w) -> reading (lst w') = negb (m_a (state_ s') =? 0) -> (reading (lst w') = true -> registered (lst w') = true) ->
  (st_of s' = kActive -> m_a (state_ s') = 0 -> m_q (state_ s') = m_cap (state_ s')) -> base w'.
Proof.
  intros C Ha Es Hr Hg Had. split; try done.
  - intros j t Hj Hl Hs. assert (accept_source_ (lst w') = Some j) as Hj' by (apply (core_active w' j t C); try done; congruence). rewrite Ha in Hj'. injection Hj' as <-. rewrite Es, lookup_insert_eq in Hj. injection Hj as <-. auto.
  - destruct (pending_accept_ (lst w')) as [a|] eqn:Ep; [|by rewrite (source_armed_put w _ k s')]. destruct (c_pending _ C a Ep) as [En _]. congruence.
Qed.

Lemma put_same w k s : sources w !! k = Some s -> put_source w k s = w.
Proof. intros Hs. unfold put_source, set_sources. rewrite insert_id by done. by destruct w. Qed.

Lemma EnsureAdmission_spec w k s : core w -> sources w !! k = Some s -> listener_ s = true -> accept_source_ (lst w) = Some k -> closed_ (lst w) = false ->
  (m_a (state_ s) <> 0 -> reading (lst w) = true /\ registered (lst w) = true) ->
  exists m' r g, EnsureAdmission w k = Val (retune w k (set_state s m') r g) /\ core (retune w k (set_state s m') r g) /\ base (retune w k (set_state s m') r g) /\
    m_st m' = st_of s /\ m_q m' = m_q (state_ s) /\ m_o m' = m_o (state_ s).
Proof.
  intros C Hs Hl Ha Hc Hr. pose proof (c_source _ C k s Hs) as So. pose proof (so_machine _ _ _ So Hl) as M. pose proof (so_queue _ _ _ So Hl) as Q. pose proof (mok_bounds _ M) as (Hq & Hab & Hroom & Hcap & _).
  assert (st_of s <> kIdle) as Hi by (destruct (c_reserved _ C k Ha) as (t & Ht & _ & Hi); congruence).
  assert (forall m' r g, mok m' -> m_st m' = st_of s -> m_q m' = m_q (state_ s) -> m_o m' = m_o (state_ s) -> r = negb (m_a m' =? 0) -> (r = true -> g = true) -> (st_of s = kActive -> m_a m' = 0 -> m_q m' = m_cap m') ->
    EnsureAdmission w k = Val (retune w k (set_state s m') r g) ->
    exists m' r g, EnsureAdmission w k = Val (retune w k (set_state s m') r g) /\ core (retune w k (set_state s m') r g) /\ base (retune w k (set_state s m') r g) /\ m_st m' = st_of s /\ m_q m' = m_q (state_ s) /\ m_o m' = m_o (state_ s)) as K.
  { intros m' r g M' E1 E2 E3 E4 E5 E6 HE. exists m', r, g. assert (core (retune w k (set_state s m') r g)) as C'.
    { apply (core_retune w k s); try done; [cbn; by rewrite E2 | unfold st_of; cbn; by rewrite E1 | intros a Hp; by apply (so_next _ _ _ So) | unfold st_of; cbn; rewrite E1; by apply (so_paused _ _ _ So)]. }
    split_and!; try done. apply (base_retune w _ k (set_state s m')); try done. intros Hact. apply E6. unfold st_of in Hact. cbn in Hact. congruence. }
  assert (retune w k (set_state s (state_ s)) (reading (lst w)) (registered (lst w)) = w) as Hsame. { unfold retune. replace (set_state s (state_ s)) with s by (by destruct s). rewrite put_same by done. destruct w as [[]]; done. }
  unfold EnsureAdmission at 1 in K. unfold get in K. rewrite Hs in K. cbn in K. rewrite Hl, Hc in K. cbn in K. fold (st_of s) in K.
  destruct (bool_decide (st_of s = kActive)) eqn:E; bool_prop; cbn in K.
  - unfold st_of in E. destruct (Z.eqb_spec (m_a (state_ s)) 0) as [Ea|Ea].
    + rewrite (TryArm_active _ M E Ea) in K. destruct (Z.ltb_spec (m_q (state_ s)) (m_cap (state_ s))) as [Hlt|Hge]; cbn in K.
      * apply (K (AcceptSource.mk (m_o (state_ s)) kActive (m_q (state_ s)) 1) true true); try done; [by apply armed_mok].
      * rewrite Ea in K. rewrite (CanArm_active _ M E Ea), (proj2 (Z.ltb_ge _ _) Hge) in K. cbn in K. apply (K (state_ s) false (registered (lst w))); try done; [by rewrite Ea | intros _ _; lia|]. f_equal. unfold DisableReading, retune. cbn. destruct (reading (lst w)) eqn:Er; cbn; [done|]. rewrite <- Er. by destruct w as [[]].
    + cbn in K. rewrite (proj2 (Z.eqb_neq _ _) Ea) in K. cbn in K. destruct (Hr Ea) as [Hr1 Hr2]. apply (K (state_ s) (reading (lst w)) (registered (lst w))); try done; [by rewrite Hr1, (proj2 (Z.eqb_neq _ _) Ea)|]. f_equal. unfold retune. by destruct w as [[]].
  - apply (K (state_ s) false (registered (lst w))); try done; [by rewrite (mok_unarmed _ M E)|]. f_equal. unfold DisableReading. destruct (reading (lst w)) eqn:Er; [|by rewrite Hsame].
    unfold retune. replace (set_state s (state_ s)) with s by (by destruct s). by rewrite put_same.
Qed.

End EpollListenerInv.
