(* ===== verification/EpollListenerSteps.v ===== *)
(** * The epoll listener: every step keeps the invariant

    Taking and delivering connections, starting, stopping and failing a source, readiness,
    the listener's own Accept and Close, over every script. *)

From S2P Require Import Prelude Lifecycles Sources AcceptSource ResultCells UringLoop EpollStream Sockets EpollListener EpollListenerInv.

Module EpollListenerSteps.
Import EpollListener EpollListenerInv.
Import EpollStream(IsWouldBlock).

#[local] Arguments EnsureAdmission : simpl never.
#[local] Arguments TryTakeNext : simpl never.
#[local] Arguments DeliverNextIfReady : simpl never.
#[local] Arguments ReleaseListenerReservation : simpl never.
#[local] Arguments Fail : simpl never.
#[local] Arguments finish_request : simpl never.
#[local] Arguments CompleteAccept : simpl never.
#[local] Arguments next_wait : simpl never.
#[local] Arguments OnListenerClosed : simpl never.

(** ** Awaiters *)

Lemma accept_core_put_next w a n : core w -> (forall k s, sources w !! k = Some s -> pending_next_ s <> Some a) -> (ResumeNext a ∈ work w -> ValueResultState.HasResult (n_result n) = true) -> core (put_next w a n).
Proof.
  intros C Hp Hw. destruct C. split; try done; cbn.
  - intros k s Hs. destruct (c_source0 k s Hs) as [S1 S2 S3 S4 S6 S5]. split; try done. cbn. intros b Hb. rewrite lookup_insert_ne; [auto|]. intros ->. by apply (Hp k s Hs).
  - intros b Hb. destruct (decide (a = b)) as [<-|Hne]; [rewrite lookup_insert_eq | rewrite lookup_insert_ne by done]; eauto.
Qed.

Lemma core_put_accept w a x : core w -> pending_accept_ (lst w) <> Some a -> (ResumeAccept a ∈ work w -> ValueResultState.HasResult (a_result x) = true) -> core (put_accept w a x).
Proof.
  intros C Hp Hw. destruct C. split; try done; cbn.
  - intros k s Hs. by destruct (c_source0 k s Hs) as [S1 S2 S3 S4 S6 S5]; split.
  - intros b Hb. destruct (c_pending0 b Hb) as [H1 H2]. split; [done|]. rewrite lookup_insert_ne by congruence. done.
  - intros b Hb. destruct (decide (a = b)) as [<-|Hne]; [rewrite lookup_insert_eq | rewrite lookup_insert_ne by done]; eauto.
Qed.

Lemma accept_core_schedule w t : core w -> ~ (t ∈ work w) -> (forall a, t = ResumeAccept a -> exists x, accepts w !! a = Some x /\ ValueResultState.HasResult (a_result x) = true) ->
  (forall a, t = ResumeNext a -> exists x, nexts w !! a = Some x /\ ValueResultState.HasResult (n_result x) = true) -> core (schedule w t).
Proof.
  intros C Ht Ha Hn. destruct C. split; try done; cbn.
  - intros k s Hs. by destruct (c_source0 k s Hs) as [S1 S2 S3 S4 S6 S5]; split.
  - intros a [H|H%list_elem_of_singleton]%elem_of_app; eauto.
  - intros a [H|H%list_elem_of_singleton]%elem_of_app; eauto.
  - apply NoDup_app. split_and!; [done| |apply NoDup_singleton]. intros x Hx Hx'%list_elem_of_singleton. by subst.
Qed.

(** A parked Next belongs to one source and is not scheduled. *)
Lemma parked_once w k s a : core w -> sources w !! k = Some s -> pending_next_ s = Some a -> ~ (ResumeNext a ∈ work w) /\ forall j t, sources w !! j = Some t -> pending_next_ t = Some a -> j = k.
Proof.
  intros C Hs Hp. destruct (so_next _ _ _ (c_source _ C k s Hs) a Hp) as [Hn _]. split.
  - intros Hw. destruct (c_work_next _ C a Hw) as (x & Hx & Hr). by simplify_eq.
  - intros j t Ht Hq. destruct (so_next _ _ _ (c_source _ C j t Ht) a Hq) as [Hm _]. congruence.
Qed.

(** A source other than the queue and the machine changes. *)
Lemma accept_core_set_next w k s v : core w -> sources w !! k = Some s -> (forall a, v = Some a -> nexts w !! a = Some (mkNext k true CompletionGate.initial ValueResultState.kPending) /\ st_of s <> kIdle) -> (listener_ s = false -> v = None) ->
  core (put_source w k (set_next s v)).
Proof.
  intros C Hs Hv Hm. pose proof (c_source _ C k s Hs) as [S1 S2 S3 S4 S6 S5]. assert (queue (put_source w k (set_next s v)) = queue w) as Hq.
  { rewrite (queue_put w _ k (set_next s v)) by done. case_bool_decide as E; [|done]. symmetry. exact (queue_reserved w k s E Hs). }
  apply (core_put w _ k s (set_next s v)); try done; try apply C.
  - split; try done. cbn. intros Hl. destruct (S1 Hl). auto.
  - intros Ha. destruct (c_reserved _ C k Ha) as (t & Ht & H1 & H2). by simplify_eq.
  - rewrite Hq. apply C.
  - rewrite Hq. apply C.
Qed.

Lemma next_Complete_spec w k s a r : core w -> sources w !! k = Some s -> pending_next_ s = Some a ->
  exists x, next_Complete (put_source w k (set_next s None)) a r = Val (schedule (put_next (put_source w k (set_next s None)) a x) (ResumeNext a)) /\
    core (schedule (put_next (put_source w k (set_next s None)) a x) (ResumeNext a)).
Proof.
  intros C Hs Hp. pose proof (parked_once w k s a C Hs Hp) as [Hw Hu]. destruct (so_next _ _ _ (c_source _ C k s Hs) a Hp) as [Hn _].
  unfold next_Complete, get. cbn. rewrite Hn. cbn. assert (core (put_source w k (set_next s None))) as C1 by (by apply accept_core_set_next).
  destruct r as [r|r]; cbn; (eexists; split; [reflexivity|]; apply accept_core_schedule; [apply accept_core_put_next; [done| |done] | done | done | intros b [= <-]; cbn; rewrite lookup_insert_eq; eauto];
    intros j t Hj; cbn in Hj; destruct (decide (j = k)) as [->|Hne]; [rewrite lookup_insert_eq in Hj; by simplify_eq | rewrite lookup_insert_ne in Hj by done; intros Hq; apply Hne; by eapply Hu]).
Qed.

(** ** Taking a connection *)

Lemma base_core_eq w w' : base w -> core w' -> sources w' = sources w -> lst w' = lst w -> base w'.
Proof. intros [C A R G] C' Es El. split; try done; unfold admitted, source_armed in *; by rewrite ?Es, ?El. Qed.

Lemma base_reading w k s : base w -> accept_source_ (lst w) = Some k -> sources w !! k = Some s -> reading (lst w) = negb (m_a (state_ s) =? 0).
Proof.
  intros [C A R G] Ha Hs. rewrite R. destruct (pending_accept_ (lst w)) as [a|] eqn:Ep; [destruct (c_pending _ C a Ep); congruence|]. unfold source_armed. by rewrite Ha, Hs.
Qed.

Lemma core_take w k s fd rest m' : core w -> sources w !! k = Some s -> accept_source_ (lst w) = Some k -> listener_ s = true -> events_ s = fd :: rest -> mok m' -> m_q m' = Z.of_nat (length rest) -> m_st m' <> kIdle -> (m_st m' = kPaused -> rest <> []) ->
  core (log_delivered (put_source w k (set_state (set_events s rest) m')) fd).
Proof.
  intros C Hs Ha Hl He M Hq Hi Hpa. pose proof (c_source _ C k s Hs) as [S1 S2 S3 S4 S6 S5]. set (s' := set_state (set_events s rest) m').
  assert (queue (log_delivered (put_source w k s') fd) = rest) as Hqu by (rewrite (queue_put w _ k s') by done; by rewrite bool_decide_eq_true_2).
  pose proof (queue_reserved w k s Ha Hs) as Hq0. rewrite He in Hq0.
  apply (core_put w _ k s s'); try done; try apply C.
  - split; try done; [cbn; congruence | by right; right|]. intros a Hp. destruct (S5 a Hp). done.
  - rewrite Hqu. cbn. rewrite <- app_assoc. cbn. pose proof (c_log _ C) as Hlog. rewrite Hq0 in Hlog. exact Hlog.
  - rewrite Hqu. cbn. rewrite <- app_assoc. cbn. pose proof (c_order _ C) as Hord. by rewrite Hq0 in Hord.
Qed.

Lemma EnsureAdmission_closed w k s : sources w !! k = Some s -> closed_ (lst w) = true -> EnsureAdmission w k = Val w.
Proof. intros Hs Hc. unfold EnsureAdmission, get. rewrite Hs. cbn. by rewrite Hc, orb_true_r. Qed.

(** What a call on source [k] leaves. *)
Record post (k : nat) (s : source) (w w' : world) : Prop := {
  p_base : base w';
  p_others j : j <> k -> sources w' !! j = sources w !! j;
  p_self : exists s', sources w' !! k = Some s' /\ listener_ s' = true /\ (at_end s -> at_end s') /\ (st_of s' = kIdle -> st_of s = kIdle) /\ (forall a, pending_next_ s' = Some a -> events_ s' = [] /\ st_of s' <> kTerminal);
  p_closed : closed_ (lst w') = closed_ (lst w);
  p_open : open (lst w') = open (lst w);
  p_pending : pending_accept_ (lst w') = pending_accept_ (lst w);
  p_registered : closed_ (lst w) = true -> registered (lst w') = registered (lst w);
}.

Lemma accept_TryTakeNext_event w k s fd rest : base w -> sources w !! k = Some s -> listener_ s = true -> events_ s = fd :: rest -> (closed_ (lst w) = true -> at_end s) ->
  exists w' s', TryTakeNext w k = Val (w', Some (Ok (Some fd))) /\ base w' /\ sources w' = <[k := s']> (sources w) /\ listener_ s' = true /\ events_ s' = rest /\ pending_next_ s' = pending_next_ s /\
    (at_end s -> at_end s') /\ st_of s' <> kIdle /\ closed_ (lst w') = closed_ (lst w) /\ open (lst w') = open (lst w) /\ pending_accept_ (lst w') = pending_accept_ (lst w) /\ nexts w' = nexts w /\ accepts w' = accepts w /\ work w' = work w /\
    (closed_ (lst w) = true -> registered (lst w') = registered (lst w)) /\ accept_source_ (lst w') = Some k.
Proof.
  intros B Hs Hl He Hcl. pose proof (b_core _ B) as C. pose proof (c_source _ C k s Hs) as So. pose proof (so_machine _ _ _ So Hl) as M. pose proof (so_queue _ _ _ So Hl) as Q. rewrite He in Q. cbn in Q.
  destruct (core_events w k s C Hs) as [Ha _]; [by rewrite He|]. destruct (consume_spec _ M ltac:(lia)) as (HC & M1 & Hst). set (m1 := AcceptSource.mk _ _ _ _) in *.
  set (m2 := if bool_decide (m_st m1 = kPaused) then (AcceptSource.TryResume m1).1 else m1).
  assert (mok m2 /\ m_q m2 = Z.of_nat (length rest) /\ m_st m2 <> kIdle /\ (at_end s -> m_st m2 = kDraining \/ m_st m2 = kTerminal) /\ (m_st m2 = kActive -> st_of s = kActive \/ st_of s = kPaused) /\ (m_a m2 <> 0 -> m_a (state_ s) <> 0) /\ (m_st m2 = kPaused -> rest <> [])) as (M2 & Q2 & I2 & E2 & A2 & R2 & P2).
  { assert (m_q m1 = Z.of_nat (length rest)) as Q1 by (cbn; lia). unfold at_end, st_of. subst m2. case_bool_decide as Ep.
    - destruct (resume_mok m1 M1 Ep) as (M2 & Q2 & S2). assert (m_st (state_ s) = kPaused) as Ep'. { cbn in Ep. destruct Hst as [E|[E|E]]; rewrite E in *; cbn in Ep; try done. by case_match. }
      split_and!; [done | congruence | destruct S2 as [->| ->]; done | rewrite Ep'; by intros [?|[?|?]] | by right | |].
      + intros Hne. exfalso. apply Hne. pose proof (mok_unarmed m1 M1 ltac:(congruence)) as Hz. unfold AcceptSource.TryResume. by destruct (_ || _).
      + intros Hpz Hrest. subst rest. rewrite (resume_empty m1 M1 Ep Q1) in Hpz. done.
    - cbn. destruct Hst as [E|[E|E]]; rewrite E in *; cbn in *; split_and!; try done; try (by intros [?|[?|?]]); try (case_match; by auto); auto; try lia; intros _; by rewrite E in Ep. }
  unfold TryTakeNext, get. rewrite Hs. cbn. rewrite He, HC. cbn. set (s1 := set_state (set_events s rest) m2).
  pose proof (core_take w k s fd rest m2 C Hs Ha Hl He M2 Q2 I2 P2) as C1. fold s1 in C1. set (w1 := log_delivered (put_source w k s1) fd) in *. match goal with |- context [EnsureAdmission ?x k] => change x with w1 end.
  assert (sources w1 !! k = Some s1) as Hs1 by apply lookup_insert_eq. pose proof (base_reading w k s B Ha Hs) as Hr.
  destruct (closed_ (lst w)) eqn:Ec.
  - rewrite (EnsureAdmission_closed w1 k s1) by done. cbn. specialize (Hcl eq_refl). assert (m_a (state_ s) = 0) as Ea by (apply mok_unarmed; [done|]; fold (st_of s); destruct Hcl as [->|[->| ->]]; done). rewrite Ea in Hr. cbn in Hr.
    assert (m_a m2 = 0) as Ea2 by (destruct (Z.eq_dec (m_a m2) 0); [done|]; exfalso; by apply R2).
    assert (base w1) as B1. { apply (base_retune w _ k s1); try done; [cbn; by rewrite Hr, Ea2 | cbn; by rewrite Hr|]. intros Hact. exfalso. unfold st_of in Hact. cbn in Hact. destruct (E2 Hcl); congruence. }
    exists w1, s1. split_and!; try done. intros He'. unfold at_end, st_of. cbn. destruct (E2 He'); auto.
  - destruct (EnsureAdmission_spec w1 k s1 C1 Hs1 Hl Ha Ec) as (m' & r & g & HE & C2 & B2 & E3 & E4 & E5).
    { cbn. intros Hne. apply R2 in Hne. rewrite Hr. rewrite (proj2 (Z.eqb_neq _ _) Hne). split; [done|]. apply (b_registered _ B). by rewrite Hr, (proj2 (Z.eqb_neq _ _) Hne). }
    rewrite HE. cbn. exists (retune w1 k (set_state s1 m') r g), (set_state s1 m'). split_and!; try done; [cbn; by rewrite insert_insert_eq | |].
    + intros He'. unfold at_end, st_of in *. cbn. rewrite E3. cbn. destruct (E2 He'); auto.
    + unfold st_of in *. cbn in *. by rewrite E3.
Qed.

(** ** Delivering *)

Lemma base_set_next w w' k s v : base w -> core w' -> sources w !! k = Some s -> sources w' = <[k := set_next s v]> (sources w) -> lst w' = lst w -> base w'.
Proof.
  intros [C A R G] C' Hs Es El. split; try done; [|rewrite El, R; case_match; [done|] | by rewrite El].
  - intros j t Hj. rewrite Es in Hj. destruct (decide (j = k)) as [->|Hne]; [rewrite lookup_insert_eq in Hj; injection Hj as <-; exact (A k s Hs) | rewrite lookup_insert_ne in Hj by done; by apply (A j)].
  - unfold source_armed. rewrite El, Es. destruct (accept_source_ (lst w)) as [j|]; [|done]. destruct (decide (j = k)) as [->|Hne]; [by rewrite lookup_insert_eq, Hs | by rewrite lookup_insert_ne].
Qed.

Lemma Release_spec w k s : base w -> sources w !! k = Some s -> listener_ s = true ->
  exists w', ReleaseListenerReservation w k = Val w' /\ base w' /\ sources w' = sources w /\ nexts w' = nexts w /\ accepts w' = accepts w /\ work w' = work w /\
    (w' = w \/ w' = set_lst w (set_source (lst w) None) /\ st_of s = kTerminal).
Proof.
  intros B Hs Hl. unfold ReleaseListenerReservation, get. rewrite Hs. cbn. rewrite Hl. cbn. fold (st_of s). case_bool_decide as Et; cbn; [|by exists w; split_and!; auto]. case_bool_decide as Ea; [|by exists w; split_and!; auto].
  eexists. split; [reflexivity|]. split_and!; auto. pose proof B as [C A R G]. pose proof (c_source _ C k s Hs) as So. pose proof (so_machine _ _ _ So Hl) as M. pose proof (AcceptSource.inv_state _ (mok_inv _ M)) as Hco. fold (st_of s) in Hco. rewrite Et in Hco. destruct Hco as [Hz Hq].
  assert (events_ s = []) as He by (pose proof (so_queue _ _ _ So Hl) as Q; destruct (events_ s); [done|cbn in Q; lia]). pose proof (queue_reserved w k s Ea Hs) as Hqu. rewrite He in Hqu.
  assert (core (set_lst w (set_source (lst w) None))) as C'.
  { destruct C. split; try done; cbn.
    - intros j t Hj. destruct (c_source0 j t Hj) as [S1 S2 S3 S4 S6 S5]. split; try done. cbn. intros Hjl. destruct (S4 Hjl) as [H|[H|H]]; auto. rewrite Ea in H. injection H as <-. rewrite Hs in Hj. injection Hj as <-. auto.
    - intros a Hp. destruct (c_pending0 a Hp). done.
    - rewrite Hqu in c_log0. exact c_log0.
    - rewrite Hqu in c_order0. exact c_order0. }
  split; try done. cbn. rewrite R. case_match; [done|]. unfold source_armed. cbn. by rewrite Ea, Hs, Hz.
Qed.

Lemma Deliver_post w k s : base w -> sources w !! k = Some s -> listener_ s = true -> (closed_ (lst w) = true -> at_end s) -> exists w', DeliverNextIfReady w k = Val w' /\ post k s w w'.
Proof.
  intros B Hs Hl Hcl. pose proof (b_core _ B) as C. unfold DeliverNextIfReady, get. rewrite Hs. cbn. destruct (pending_next_ s) as [a|] eqn:Hp.
  - destruct (events_ s) as [|fd rest] eqn:He.
    + unfold TryTakeNext, get. rewrite Hs. cbn. rewrite He. fold (st_of s). case_bool_decide as Et.
      * destruct (Release_spec w k s B Hs Hl) as (w1 & -> & B1 & Es & En & _ & Ew & Hw1). cbn. rewrite Es, Hs. cbn. rewrite <- Es in Hs.
        destruct (next_Complete_spec w1 k s a (match terminal_error_ s with Some error => Err error | None => Ok None end) (b_core _ B1) Hs Hp) as (x & -> & C2). eexists. split; [reflexivity|]. split.
        -- by apply (base_set_next w1 _ k s None).
        -- intros j Hj. cbn. rewrite Es. by apply lookup_insert_ne.
        -- exists (set_next s None). cbn. rewrite lookup_insert_eq. by split_and!.
        -- by destruct Hw1 as [->|[-> _]].
        -- by destruct Hw1 as [->|[-> _]].
        -- by destruct Hw1 as [->|[-> _]].
        -- by destruct Hw1 as [->|[-> _]].
      * exists w. split; [done|]. split; try done. exists s. split_and!; try done.
    + destruct (accept_TryTakeNext_event w k s fd rest B Hs Hl He Hcl) as (w1 & s1 & -> & B1 & Es & Hl1 & He1 & Hp1 & Hae & Hi & Ec & Eo & Epa & En & Eac & Ew & Hrg & Hre). cbn. rewrite Es, lookup_insert_eq. cbn.
      assert (sources w1 !! k = Some s1) as Hs1 by (rewrite Es; apply lookup_insert_eq). rewrite Hp in Hp1.
      destruct (next_Complete_spec w1 k s1 a (Ok (Some fd)) (b_core _ B1) Hs1 Hp1) as (x & -> & C2). eexists. split; [reflexivity|]. split; try done.
      * by apply (base_set_next w1 _ k s1 None).
      * intros j Hj. cbn. rewrite Es, !lookup_insert_ne by done. done.
      * exists (set_next s1 None). cbn. rewrite lookup_insert_eq. split_and!; try done.
  - destruct (Release_spec w k s B Hs Hl) as (w1 & -> & B1 & Es & En & _ & Ew & Hw1). exists w1. split; [done|]. split; try done.
    + intros j Hj. by rewrite Es.
    + exists s. rewrite Es. split_and!; try done. congruence.
    + by destruct Hw1 as [->|[-> _]].
    + by destruct Hw1 as [->|[-> _]].
    + by destruct Hw1 as [->|[-> _]].
    + by destruct Hw1 as [->|[-> _]].
Qed.

(** The invariant after a call on one source. *)
Lemma accept_post_inv w w' k s : inv w -> sources w !! k = Some s -> listener_ s = true -> post k s w w' -> inv w'.
Proof.
  intros [B N Z] Hs Hl [B' Ho (s' & Hs' & Hl' & He' & _ & Hn') Ec Eo Ep Er]. split; try done.
  - intros j t a Hj. destruct (decide (j = k)) as [->|Hne]; [rewrite Hs' in Hj; injection Hj as <-; apply Hn' | rewrite Ho in Hj by done; by apply (N j)].
  - intros Hc. rewrite Ec in Hc. destruct (Z Hc) as (Z1 & Z2 & Z3 & Z4). rewrite Ep, Eo, (Er Hc). split_and!; try done. intros j t Hj Hlt. destruct (decide (j = k)) as [->|Hne]; [rewrite Hs' in Hj; injection Hj as <- | rewrite Ho in Hj by done; by apply (Z4 j)].
    apply He'. by apply (Z4 k).
Qed.

(** Steps of a call before the part that leaves the base invariant. *)
Lemma post_trans k s s1 w w1 w' : (forall j, j <> k -> sources w1 !! j = sources w !! j) -> (at_end s -> at_end s1) -> (st_of s1 = kIdle -> st_of s = kIdle) ->
  closed_ (lst w1) = closed_ (lst w) -> open (lst w1) = open (lst w) -> pending_accept_ (lst w1) = pending_accept_ (lst w) -> (closed_ (lst w) = true -> registered (lst w1) = registered (lst w)) ->
  post k s1 w1 w' -> post k s w w'.
Proof.
  intros H1 H2 H3 H4 H5 H6 H7 [P1 P2 (s' & Q1 & Q2 & Q3 & Q4 & Q5) P4 P5 P6 P7]. split; try congruence.
  - intros j Hj. rewrite P2, H1 by done. done.
  - exists s'. split_and!; auto.
  - intros Hc. rewrite P7, H7 by congruence. done.
Qed.

(** ** Failing *)

Lemma stop_at_end m q : m_st m = stop_state q -> m_st m = kDraining \/ m_st m = kTerminal.
Proof. unfold stop_state. case_match; auto. Qed.

(** A reserved source without an armed request is stopped, and its Next is told. *)
Lemma stopped_post w k s s1 g : core w -> sources w !! k = Some s -> accept_source_ (lst w) = Some k -> listener_ s = true -> m_a (state_ s) = 0 -> st_of s <> kIdle ->
  listener_ s1 = true -> state_ s1 = AcceptSource.RequestStop (state_ s) -> events_ s1 = events_ s -> pending_next_ s1 = pending_next_ s -> (closed_ (lst w) = true -> g = registered (lst w)) ->
  exists w', DeliverNextIfReady (retune w k s1 false g) k = Val w' /\ post k s w w' /\ (exists s', sources w' !! k = Some s' /\ at_end s').
Proof.
  intros C Hs Ha Hl Hz Hi Hl1 Em Ee Ep Hg. pose proof (c_source _ C k s Hs) as So. pose proof (so_machine _ _ _ So Hl) as M. destruct (stop_spec _ M Hz) as [Est Mst]. rewrite Est in Em.
  assert (at_end s1) as Hend by (unfold at_end, st_of; rewrite Em; unfold stop_state; cbn; case_match; auto).
  assert (core (retune w k s1 false g)) as C1. { apply (core_retune w k s); try done; [by rewrite Em | rewrite Em, Ee; cbn; by apply (so_queue _ _ _ So) | unfold st_of; rewrite Em; cbn; unfold stop_state; by case_match | intros a Hp; rewrite Ep in Hp; by apply (so_next _ _ _ So) | unfold st_of; rewrite Em; cbn; unfold stop_state; by case_match]. }
  assert (base (retune w k s1 false g)) as B1. { apply (base_retune w _ k s1); try done; [by rewrite Em|]. intros Hact. exfalso. destruct Hend as [E|[E|E]]; congruence. }
  destruct (Deliver_post (retune w k s1 false g) k s1 B1) as (w' & HD & P); [cbn; apply lookup_insert_eq | done | done |].
  exists w'. split; [done|]. split; [|destruct (p_self _ _ _ _ P) as (s' & Hs' & _ & He' & _); eauto]. apply (post_trans k s s1 w (retune w k s1 false g)); try done.
  - intros j Hj. cbn. by apply lookup_insert_ne.
  - intros E1. exfalso. unfold st_of in E1. rewrite Em in E1. cbn in E1. unfold stop_state in E1. by case_match.
Qed.

Lemma DisableReading_retune w k s : sources w !! k = Some s -> forall s', put_source (DisableReading w) k s' = retune w k s' false (registered (lst w)).
Proof. intros Hs s'. unfold DisableReading, retune. destruct (reading (lst w)) eqn:Er; [done|]. destruct w as [[]]; cbn in *. by subst. Qed.

Lemma Fail_post w k s e : core w -> sources w !! k = Some s -> accept_source_ (lst w) = Some k -> listener_ s = true -> m_a (state_ s) = 0 -> st_of s <> kIdle -> exists w', Fail w k e = Val w' /\ post k s w w'.
Proof.
  intros C Hs Ha Hl Hz Hi. unfold Fail, get. rewrite Hs. cbn. rewrite (DisableReading_retune w k s Hs).
  destruct (stopped_post w k s (set_state (match terminal_error_ s with None => set_error s (Some e) | Some _ => s end) (AcceptSource.RequestStop (state_ (match terminal_error_ s with None => set_error s (Some e) | Some _ => s end)))) (registered (lst w))) as (w' & HD & P & _); try done; try (by destruct (terminal_error_ s)). by exists w'.
Qed.

Lemma finish_spec w k s : core w -> sources w !! k = Some s -> accept_source_ (lst w) = Some k -> listener_ s = true -> st_of s = kActive -> m_a (state_ s) <> 0 ->
  let s' := set_state s (AcceptSource.mk (m_o (state_ s)) kActive (m_q (state_ s)) 0) in finish_request w k = Val (put_source w k s') /\ core (put_source w k s').
Proof.
  intros C Hs Ha Hl E Hz s'. pose proof (c_source _ C k s Hs) as So. pose proof (so_machine _ _ _ So Hl) as M. split.
  - unfold finish_request, get. rewrite Hs. cbn. by rewrite (finish_active _ M E Hz).
  - assert (put_source w k s' = retune w k s' (reading (lst w)) (registered (lst w))) as -> by (unfold retune; by destruct w as [[]]). apply (core_retune w k s); try done; [by apply unarmed_mok | by apply (so_queue _ _ _ So) | intros a Hp; by apply (so_next _ _ _ So)].
Qed.

(** ** Readiness *)

Lemma accept_loop_spec answers : let '(r, rest) := accept_loop answers in (length rest < length answers)%nat \/ r = inr EAGAIN /\ rest = [].
Proof.
  induction answers as [|[c|e] answers IH]; cbn; [by right | left; lia |]. destruct (e =? EpollStream.EINTR); [|left; cbn; lia]. destruct (accept_loop answers) as [r rest]. destruct IH as [IH|IH]; [left; lia | by right].
Qed.

Inductive tried (w : world) (f : Error -> Error) : world -> ResultE Z -> Prop :=
| tried_none rest e : ((length rest < length (backlog w))%nat \/ e = Errno EAGAIN) -> tried w f (set_backlog w rest) (Err e)
| tried_bad rest fd e : (length rest < length (backlog w))%nat -> tried w f (log_dropped (log_accepted (set_backlog w rest) fd) [fd]) (Err (f e))
| tried_one rest fd : (length rest < length (backlog w))%nat -> tried w f (log_accepted (set_backlog w rest) fd) (Ok fd).

Lemma try_accept_tried w f : let '(w', r) := try_accept w f in tried w f w' r.
Proof.
  unfold try_accept. pose proof (accept_loop_spec (backlog w)) as H. destruct (accept_loop (backlog w)) as [[[fd answers]|e] rest].
  - destruct H as [H|[H _]]; [|done]. cbn zeta. destruct ((Sockets.ApplyTcpOptions _ _ _).2); by constructor.
  - apply tried_none. destruct H as [H|[[= ->] _]]; auto.
Qed.

(** The logs of a world with a connection that is neither queued nor handed out yet. *)
Lemma core_backlog w rest : core w -> core (set_backlog w rest).
Proof. intros C. destruct C. split; try done. intros k s Hs. by destruct (c_source0 k s Hs); split. Qed.

Lemma core_bad w fd : core w -> core (log_dropped (log_accepted w fd) [fd]).
Proof.
  intros C. destruct C. split; try done; cbn.
  - intros k s Hs. by destruct (c_source0 k s Hs); split.
  - change (queue (log_dropped (log_accepted w fd) [fd])) with (queue w). rewrite c_log0. by rewrite <- !app_assoc.
  - change (queue (log_dropped (log_accepted w fd) [fd])) with (queue w). rewrite <- (app_nil_r (_ ++ queue w)). apply sublist_app; [done|]. apply sublist_nil_l.
Qed.

Lemma core_push w k s s' fd : core w -> sources w !! k = Some s -> accept_source_ (lst w) = Some k -> listener_ s = true -> listener_ s' = true -> mok (state_ s') -> m_q (state_ s') = Z.of_nat (S (length (events_ s))) -> st_of s' <> kIdle ->
  pending_next_ s' = pending_next_ s -> events_ s' = events_ s ++ [fd] -> core (put_source (log_accepted w fd) k s').
Proof.
  intros C Hs Ha Hl Hl' M Q Hi Hp He. pose proof (c_source _ C k s Hs) as So. assert (queue (put_source (log_accepted w fd) k s') = events_ s ++ [fd]) as Hqu by (rewrite (queue_put w _ k s') by done; by rewrite bool_decide_eq_true_2, He).
  pose proof (queue_reserved w k s Ha Hs) as Hq0. apply (core_put w _ k s s'); try done; try apply C.
  - split; try done; [congruence | rewrite He, length_app; cbn; lia | by right; right | rewrite He; by destruct (events_ s) |]. intros a Hx. rewrite Hp in Hx. destruct (so_next _ _ _ So a Hx). done.
  - rewrite Hqu. cbn. rewrite (c_log _ C), Hq0, <- !app_assoc. do 2 f_equiv. by rewrite Permutation_app_comm.
  - rewrite Hqu. cbn. rewrite app_assoc. apply sublist_app; [|done]. pose proof (c_order _ C) as Ho. by rewrite Hq0 in Ho.
Qed.

(** The loop of OnReady between two passes, and after it. *)
Record mid (k : nat) (s : source) (w w' : world) (s' : source) : Prop := {
  d_core : core w';
  d_sources : sources w' = <[k := s']> (sources w);
  d_lst : lst w' = lst w;
  d_listener : listener_ s' = true;
  d_state : st_of s' = kActive \/ st_of s' = kPaused;
}.

Lemma accept_put_put w k s s' : put_source (put_source w k s) k s' = put_source w k s'.
Proof. unfold put_source, set_sources. cbn. by rewrite insert_insert_eq. Qed.

Lemma ready_step_spec w k s room : core w -> sources w !! k = Some s -> accept_source_ (lst w) = Some k -> listener_ s = true -> st_of s = kActive -> m_a (state_ s) <> 0 ->
  exists w' v, ready_step w k room = Val (w', v) /\
    match v with
    | Continue => (length (backlog w') < length (backlog w))%nat /\ exists s', mid k s w w' s' /\ st_of s' = kActive /\ m_a (state_ s') <> 0
    | Break => exists s', mid k s w w' s' /\ m_a (state_ s') = 0
    | Return => post k s w w'
    end.
Proof.
  intros C Hs Ha Hl E Hz. pose proof (c_source _ C k s Hs) as So. pose proof (so_machine _ _ _ So Hl) as M. pose proof (so_queue _ _ _ So Hl) as Q. set (s0 := set_state s (AcceptSource.mk (m_o (state_ s)) kActive (m_q (state_ s)) 0)).
  unfold ready_step, source_TryAccept. pose proof (try_accept_tried w (fun _ => Errno Sockets.ECONNABORTED)) as HT. destruct (try_accept w _) as [w1 r].
  assert (forall e, core w1 -> sources w1 = sources w -> lst w1 = lst w -> ((length (backlog w1) < length (backlog w))%nat \/ e = Errno EAGAIN) -> r = Err e -> exists w' v,
    match r with Err error => w ← finish_request w1 k; if IsWouldBlock (err_value error) then Val (w, Break) else if Sockets.IsAcceptedConnectionError (err_value error) then s ← get (sources w) k; let '(st, armed) := AcceptSource.TryArm (state_ s) in Val (put_source w k (set_state s st), if armed then Continue else Break) else w ← Fail w k error; Val (w, Return) | Ok _ => Panic end = Val (w', v) /\
    match v with
    | Continue => (length (backlog w') < length (backlog w))%nat /\ exists s', mid k s w w' s' /\ st_of s' = kActive /\ m_a (state_ s') <> 0
    | Break => exists s', mid k s w w' s' /\ m_a (state_ s') = 0
    | Return => post k s w w'
    end) as K.
  { intros e C1 Es El Hlen ->. rewrite <- Es in Hs. rewrite <- El in Ha. destruct (finish_spec w1 k s C1 Hs Ha Hl E Hz) as [-> C2]. fold s0 in C2 |- *. cbn [mbind outcome_bind].
    assert (mid k s w (put_source w1 k s0) s0) as D0 by (split; try done; [cbn; by rewrite Es | by left]).
    destruct (IsWouldBlock (err_value e)) eqn:Ew; [by eexists _, _; split; [reflexivity|]; exists s0|]. assert ((length (backlog w1) < length (backlog w))%nat) as Hlt by (destruct Hlen as [|He]; [done|]; subst e; done).
    destruct (Sockets.IsAcceptedConnectionError (err_value e)).
    - unfold get. cbn. rewrite lookup_insert_eq. cbn. pose proof (mok_bounds _ M) as (Hq & Hab & Hroom & _). rewrite (TryArm_active (AcceptSource.mk (m_o (state_ s)) kActive (m_q (state_ s)) 0)) by (done || by apply unarmed_mok). cbn. rewrite (proj2 (Z.ltb_lt _ _)) by lia.
      eexists _, _. split; [reflexivity|]. split; [done|]. set (s2 := set_state s0 _). exists s2. split; [|done]. assert (put_source (put_source w1 k s0) k s2 = retune w1 k s2 (reading (lst w1)) (registered (lst w1))) as ->.
      { unfold retune, put_source, set_sources. cbn. rewrite insert_insert_eq. by destruct w1 as [[]]. }
      split; try done; [|cbn; by rewrite Es | rewrite <- El; cbn; by destruct (lst w1) | by left]. apply (core_retune w1 k s); try done; [apply armed_mok; [done|lia] | intros a Hp; by apply (so_next _ _ _ (c_source _ C1 k s Hs))].
    - destruct (Fail_post (put_source w1 k s0) k s0 e C2) as (w' & -> & P); try done; [cbn; apply lookup_insert_eq|]. cbn. eexists _, _. split; [reflexivity|]. apply (post_trans k s s0 w (put_source w1 k s0)); try done; try (cbn; by rewrite El).
      + intros j Hj. cbn. rewrite Es. by apply lookup_insert_ne.
      + intros [H|[H|H]]; congruence. }
  destruct HT as [rest e Hlen|rest fd e Hlt|rest fd Hlt].
  - apply (K e); try done. by apply core_backlog.
  - apply (K (Errno Sockets.ECONNABORTED)); try done; [apply core_bad; by apply core_backlog | by left].
  - clear K. destruct room; cbn [negb].
    + unfold get. cbn. rewrite Hs. cbn. destruct (produce_active _ M E Hz) as [HP M1]. rewrite HP. cbn [ALYRN_CHECK mbind outcome_bind]. set (m1 := AcceptSource.mk (m_o (state_ s)) kActive (m_q (state_ s) + 1) 0) in *. pose proof (mok_bounds _ M1) as (Hq & _). rewrite (TryArm_active m1 M1) by done.
      destruct (Z.ltb_spec (m_q m1) (m_cap m1)) as [Hlt'|Hge].
      * eexists _, _. split; [reflexivity|]. split; [done|]. eexists. split; [split|]; [|reflexivity|done|done|by left|done]. apply (core_push (set_backlog w rest) k s); try done; [by apply core_backlog | by apply armed_mok | cbn; lia].
      * destruct (pause_active m1 M1 eq_refl eq_refl) as [HPa M2]. assert ((m_cap m1 <=? m_q m1) = true) as -> by (by apply Z.leb_le). rewrite HPa. cbn [ALYRN_CHECK mbind outcome_bind]. rewrite accept_put_put. eexists _, _. split; [reflexivity|]. eexists. split; [split|]; [|reflexivity|done|done|by right|done].
        apply (core_push (set_backlog w rest) k s); try done; [by apply core_backlog | cbn; lia].
    + destruct (finish_spec (set_backlog w rest) k s (core_backlog w rest C) Hs Ha Hl E Hz) as [HF C2]. fold s0 in HF, C2.
      assert (finish_request (log_accepted (set_backlog w rest) fd) k = Val (put_source (log_accepted (set_backlog w rest) fd) k s0)) as ->.
      { unfold finish_request, get. cbn. rewrite Hs. cbn. by rewrite (finish_active _ M E Hz). }
      cbn [mbind outcome_bind]. destruct (Fail_post (log_dropped (put_source (log_accepted (set_backlog w rest) fd) k s0) [fd]) k s0 (Errno ENOMEM)) as (w' & -> & P); try done; [exact (core_bad _ fd C2) | cbn; apply lookup_insert_eq|].
      cbn. eexists _, _. split; [reflexivity|]. eapply (post_trans k s s0 w); [| | | | | | |exact P]; try done; [intros j Hj; cbn; by apply lookup_insert_ne | intros [H|[H|H]]; congruence].
Qed.

Lemma mid_trans k s s1 s2 w w1 w2 : mid k s w w1 s1 -> mid k s1 w1 w2 s2 -> mid k s w w2 s2.
Proof. intros [C1 E1 L1 H1 S1] [C2 E2 L2 H2 S2]. split; try done; [by rewrite E2, E1, insert_insert_eq | congruence]. Qed.

Lemma mid_post k s s1 w w1 w' : mid k s w w1 s1 -> (at_end s -> False) -> post k s1 w1 w' -> post k s w w'.
Proof.
  intros [C1 E1 L1 H1 S1] Hne. apply post_trans; try (by rewrite L1); try done.
  - intros j Hj. rewrite E1. by apply lookup_insert_ne.
  - intros Hi. exfalso. destruct S1; congruence.
Qed.

Lemma active_not_end s : st_of s = kActive -> at_end s -> False.
Proof. intros E [H|[H|H]]; congruence. Qed.

Lemma ready_loop_spec fuel w k s rooms : core w -> sources w !! k = Some s -> accept_source_ (lst w) = Some k -> listener_ s = true -> st_of s = kActive -> m_a (state_ s) <> 0 -> (length (backlog w) < fuel)%nat ->
  exists w' more, ready_loop fuel w k rooms = Val (w', more) /\ if more then exists s', mid k s w w' s' /\ m_a (state_ s') = 0 else post k s w w'.
Proof.
  revert w s rooms. induction fuel as [|fuel IH]; intros w s rooms C Hs Ha Hl E Hz Hf; [lia|]. cbn [ready_loop]. unfold get at 1. rewrite Hs. cbn [mbind outcome_bind]. fold (st_of s). rewrite E, bool_decide_eq_true_2, (proj2 (Z.eqb_neq _ _) Hz) by done. cbn [negb orb].
  destruct (ready_step_spec w k s (hd true rooms) C Hs Ha Hl E Hz) as (w1 & v & -> & Hv). cbn [mbind outcome_bind]. destruct v.
  - destruct Hv as (Hlt & s1 & D & E1 & Hz1). pose proof D as [C1 Es1 El1 Hl1 _]. destruct (IH w1 s1 (tl rooms)) as (w' & more & -> & Hm); try done; [by rewrite Es1, lookup_insert_eq | by rewrite El1 | lia|].
    exists w', more. split; [done|]. destruct more; [destruct Hm as (s' & D' & Hz'); exists s'; split; [by eapply mid_trans | done] | eapply mid_post; [exact D | by apply active_not_end | done]].
  - by exists w1, true.
  - by exists w1, false.
Qed.

Lemma source_OnReady_inv w k rooms : inv w -> accept_source_ (lst w) = Some k -> exists w', source_OnReady w k rooms = Val w' /\ inv w'.
Proof.
  intros I Ha. pose proof I as [B N Z]. pose proof (b_core _ B) as C. destruct (c_reserved _ C k Ha) as (s & Hs & Hl & Hi). unfold source_OnReady, get. rewrite Hs. cbn [mbind outcome_bind]. fold (st_of s). case_bool_decide as E; cbn [negb]; [|by exists w].
  pose proof (so_machine _ _ _ (c_source _ C k s Hs) Hl) as M. pose proof (base_reading w k s B Ha Hs) as Hr.
  destruct (Z.eqb_spec (m_a (state_ s)) 0) as [Ez|Ez].
  { rewrite (TryArm_active _ M E Ez), (b_admitted _ B k s Hs Hl E Ez), Z.ltb_irrefl. cbn [negb]. exists w. split; [|done]. unfold DisableReading. by rewrite Hr. }
  cbn [negb]. replace (set_state s (state_ s)) with s by (by destruct s). rewrite put_same by done. assert (closed_ (lst w) = false) as Hc. { destruct (closed_ (lst w)) eqn:Hc; [|done]. destruct (Z Hc) as (_ & _ & _ & Z4). destruct (active_not_end s E (Z4 k s Hs Hl)). }
  destruct (ready_loop_spec (S (S (length (backlog w)))) w k s rooms) as (w1 & more & -> & Hm); try done; [lia|]. cbn [mbind outcome_bind]. destruct more; [|exists w1; split; [done|]; by eapply accept_post_inv].
  destruct Hm as (s1 & D & Hz1). pose proof D as [C1 Es1 El1 Hl1 St1]. assert (sources w1 !! k = Some s1) as Hs1 by (by rewrite Es1, lookup_insert_eq).
  destruct (EnsureAdmission_spec w1 k s1 C1 Hs1 Hl1) as (m' & r & g & -> & C2 & B2 & E3 & E4 & E5); [by rewrite El1 | by rewrite El1 | done|]. cbn [mbind outcome_bind].
  destruct (Deliver_post (retune w1 k (set_state s1 m') r g) k (set_state s1 m') B2) as (w' & -> & P); [apply lookup_insert_eq | done | cbn; rewrite El1; congruence|].
  exists w'. split; [done|]. apply (accept_post_inv w w' k s I Hs Hl). apply (mid_post k s s1 w w1 w' D (active_not_end s E)). eapply (post_trans k s1 (set_state s1 m')); [| | | | | | |exact P]; try done; try (cbn; congruence).
  - intros j Hj. cbn. by apply lookup_insert_ne.
  - unfold at_end, st_of. cbn. by rewrite E3.
  - unfold st_of. cbn. by rewrite E3.
Qed.

Lemma source_OnError_inv w k e : inv w -> accept_source_ (lst w) = Some k -> exists w', source_OnError w k e = Val w' /\ inv w'.
Proof.
  intros I Ha. pose proof I as [B N Z]. pose proof (b_core _ B) as C. destruct (c_reserved _ C k Ha) as (s & Hs & Hl & Hi). unfold source_OnError, get. rewrite Hs. cbn [mbind outcome_bind]. fold (st_of s). case_bool_decide as E; cbn [negb]; [|by exists w].
  destruct (Z.eqb_spec (m_a (state_ s)) 0) as [Ez|Ez]; cbn [negb].
  - cbn [mbind outcome_bind]. destruct (Fail_post w k s e C Hs Ha Hl Ez Hi) as (w' & -> & P). exists w'. split; [done|]. by eapply accept_post_inv.
  - destruct (finish_spec w k s C Hs Ha Hl E Ez) as [-> C1]. cbn [mbind outcome_bind]. set (s1 := set_state s _) in *. destruct (Fail_post (put_source w k s1) k s1 e C1) as (w' & -> & P); try done; [apply lookup_insert_eq|].
    exists w'. split; [done|]. apply (accept_post_inv w w' k s I Hs Hl). eapply (post_trans k s s1); [| | | | | | |exact P]; try done; [intros j Hj; cbn; by apply lookup_insert_ne | intros H; by destruct (active_not_end s E)].
Qed.

(** ** The listener's own Accept *)

Lemma CompleteAccept_base w r : base w ->
  exists w', CompleteAccept w r = Val w' /\ base w' /\ pending_accept_ (lst w') = None /\ sources w' = sources w /\ accept_source_ (lst w') = accept_source_ (lst w) /\ closed_ (lst w') = closed_ (lst w) /\ open (lst w') = open (lst w) /\ registered (lst w') = registered (lst w).
Proof.
  intros B. pose proof B as [C A R G]. unfold CompleteAccept. destruct (pending_accept_ (lst w)) as [a|] eqn:Ep; [|by exists w; split_and!]. destruct (c_pending _ C a Ep) as [Ha Hx]. unfold get. rewrite Hx.
  assert (~ (ResumeAccept a ∈ work w)) as Hw by (intros Hw; destruct (c_work_accept _ C a Hw) as (x & Hx' & Hr); by simplify_eq).
  assert (reading (lst w) = true) as Hr by done. cbn -[schedule put_accept]. unfold DisableReading. cbn -[schedule put_accept]. rewrite Hr. cbn -[schedule put_accept].
  set (w1 := set_lst w (set_channel (set_pending (lst w) None) false (registered (lst w)))).
  assert (core w1) as C1. { destruct C. split; try done. intros k s Hs. by destruct (c_source0 k s Hs); split. }
  assert (forall x, ValueResultState.HasResult (a_result x) = true -> core (schedule (put_accept w1 a x) (ResumeAccept a))) as K.
  { intros x Hh. apply accept_core_schedule; [by apply core_put_accept | done | intros b [= <-]; cbn; rewrite lookup_insert_eq; eauto | done]. }
  assert (forall x, ValueResultState.HasResult (a_result x) = true -> base (schedule (put_accept w1 a x) (ResumeAccept a))) as KB.
  { intros x Hh. split; [by apply K | exact A | cbn; unfold source_armed; cbn; by rewrite Ha | done]. }
  destruct r as [fd|e]; cbn; (eexists; split; [reflexivity|]; split_and!; try done; apply KB; done).
Qed.

(** Delivery of a connection the listener accepted for itself. *)
Lemma base_direct w fd rest : base w -> accept_source_ (lst w) = None -> base (log_delivered (log_accepted (set_backlog w rest) fd) fd).
Proof.
  intros [C A R G] Ha. assert (queue w = []) as Hq by (unfold queue; by rewrite Ha). split; try done. destruct C. split; try done.
  - intros k s Hs. by destruct (c_source0 k s Hs); split.
  - change (accepted w ++ [fd] ≡ₚ (delivered w ++ [fd]) ++ queue w ++ dropped w). rewrite c_log0, Hq, <- !app_assoc. cbn. f_equiv. by rewrite Permutation_app_comm.
  - change (sublist ((delivered w ++ [fd]) ++ queue w) (accepted w ++ [fd])). rewrite Hq in *. rewrite app_nil_r in *. by apply sublist_app.
Qed.

Lemma inv_same w w' : inv w -> base w' -> sources w' = sources w -> pending_accept_ (lst w') = pending_accept_ (lst w) \/ closed_ (lst w) = false \/ pending_accept_ (lst w') = None -> closed_ (lst w') = closed_ (lst w) -> open (lst w') = open (lst w) -> (closed_ (lst w) = true -> registered (lst w') = registered (lst w)) -> inv w'.
Proof.
  intros [B N Z] B' Es Ep Ec Eo Er. split; try done; [intros k s a; rewrite Es; apply N|]. intros Hc. rewrite Ec in Hc. destruct (Z Hc) as (Z1 & Z2 & Z3 & Z4). rewrite Eo, (Er Hc), Es. split_and!; try done. destruct Ep as [->|[Ep|Ep]]; congruence.
Qed.

Lemma base_logs w rest fd : base w -> base (log_dropped (log_accepted (set_backlog w rest) fd) [fd]).
Proof. intros B. apply (base_core_eq w); try done. apply core_bad. apply core_backlog. apply B. Qed.

Lemma base_backlog w rest : base w -> base (set_backlog w rest).
Proof. intros B. apply (base_core_eq w); try done. apply core_backlog. apply B. Qed.

Lemma accept_OnReady_inv w a : inv w -> pending_accept_ (lst w) = Some a -> exists w', accept_OnReady w = Val w' /\ inv w'.
Proof.
  intros I Ep. pose proof I as [B N Z]. destruct (c_pending _ (b_core _ B) a Ep) as [Ha _]. unfold accept_OnReady, TryAccept. pose proof (try_accept_tried w (fun e => e)) as HT. destruct (try_accept w _) as [w1 r].
  assert (forall w2, base w2 -> sources w2 = sources w -> lst w2 = lst w -> exists w', CompleteAccept w2 r = Val w' /\ inv w') as K.
  { intros w2 B2 Es El. destruct (CompleteAccept_base w2 r B2) as (w' & -> & B' & Ep' & Es' & _ & Ec' & Eo' & Er'). exists w'. split; [done|]. apply (inv_same w); try done; rewrite ?Es', ?Ec', ?Eo', ?Er', ?El; auto. }
  destruct HT as [rest e Hlen|rest fd e Hlt|rest fd Hlt]; cbn.
  - destruct (IsWouldBlock _); [exists (set_backlog w rest); split; [done|]; by apply (inv_same w); auto; apply base_backlog|]. apply K; try done. by apply base_backlog.
  - destruct (IsWouldBlock _); [eexists; split; [reflexivity|]; apply (inv_same w); auto; by apply base_logs|]. apply K; try done. by apply base_logs.
  - apply K; try done. by apply base_direct.
Qed.

(** An awaiter of Accept that is neither parked nor scheduled. *)
Definition fresh_accept (w : world) (a : nat) (bound : bool) : Prop := accepts w !! a = Some (mkAccept bound SingleResultLifecycle.initial ValueResultState.kPending) /\ ~ (ResumeAccept a ∈ work w) /\ pending_accept_ (lst w) <> Some a.
Definition accept_done (w : world) (a : nat) : Prop := (exists x, accepts w !! a = Some x /\ ValueResultState.HasResult (a_result x) = true) /\ ~ (ResumeAccept a ∈ work w) /\ pending_accept_ (lst w) <> Some a.

Lemma inv_put_accept w a x : inv w -> pending_accept_ (lst w) <> Some a -> ~ (ResumeAccept a ∈ work w) -> inv (put_accept w a x).
Proof. intros I Hp Hw. apply (inv_same w); try done; [|by left]. apply (base_core_eq w); try done; [apply I|]. apply core_put_accept; [apply I | done | done]. Qed.

Lemma accept_inline_inv w a bound r : inv w -> fresh_accept w a bound -> exists w', accept_CompleteInline w a r = Val w' /\ inv w' /\ accept_done w' a.
Proof.
  intros I (Hx & Hw & Hp). unfold accept_CompleteInline, get. rewrite Hx. cbn. destruct r as [r|r]; cbn; (eexists; split; [reflexivity|]; split; [by apply inv_put_accept|]; split_and!; [cbn; rewrite lookup_insert_eq; eauto | done | done]).
Qed.

Lemma accept_resume_inv w a : inv w -> accept_done w a -> exists w' r, accept_await_resume w a = Val (w', r) /\ inv w'.
Proof.
  intros I ((x & Hx & Hr) & Hw & Hp). unfold accept_await_resume, get. rewrite Hx. cbn. destruct (a_result x); try done; cbn; (eexists _, _; split; [reflexivity|]; by apply inv_put_accept).
Qed.

Lemma Accept_inv w a : inv w -> fresh_accept w a false -> exists w' r, Accept w a = Val (w', r) /\ inv w' /\ (r = None -> pending_accept_ (lst w') = Some a).
Proof.
  intros I F. pose proof I as [B N Z]. pose proof (b_core _ B) as C. unfold Accept, RequireOwnerLoop. rewrite (c_loop _ C), (c_here _ C). cbn. destruct (closed_ (lst w)) eqn:Ec; [by eexists _, _|]. destruct (accept_source_ (lst w)) as [k|] eqn:Ea; [by eexists _, _|].
  unfold accept_await_suspend, RequireOwnerLoop. rewrite (c_loop _ C), (c_here _ C). cbn.
  assert (forall w1 b r, inv w1 -> fresh_accept w1 a b -> exists w' q, ('(w, suspended) ← (w ← accept_CompleteInline w1 a r; Val (w, false)); if (suspended : bool) then Val (w, None) else '(w, r) ← accept_await_resume w a; Val (w, Some r)) = Val (w', q) /\ inv w' /\ (q = None -> pending_accept_ (lst w') = Some a)) as K.
  { intros w1 b r I1 F1. destruct (accept_inline_inv w1 a b r I1 F1) as (w2 & -> & I2 & D2). cbn. destruct (accept_resume_inv w2 a I2 D2) as (w3 & q & -> & I3). cbn. by eexists _, _. }
  destruct (stopping w); [by apply (K w false)|]. destruct (pending_accept_ (lst w)) as [b|] eqn:Ep; [by apply (K w false)|]. destruct F as (Hx & Hw & Hp). unfold get. rewrite Hx. cbn.
  set (w1 := put_accept w a _). assert (inv w1) as I1 by (by apply inv_put_accept; [|rewrite Ep|]). pose proof I1 as [B1 _ _].
  unfold TryAccept. pose proof (try_accept_tried w1 (fun e => e)) as HT. destruct (try_accept w1 _) as [w2 r].
  assert (forall w3, base w3 -> sources w3 = sources w1 -> lst w3 = lst w1 -> accepts w3 = accepts w1 -> work w3 = work w1 -> exists w' q, ('(w, suspended) ← (w ← accept_CompleteInline w3 a r; Val (w, false)); if (suspended : bool) then Val (w, None) else '(w, r) ← accept_await_resume w a; Val (w, Some r)) = Val (w', q) /\ inv w' /\ (q = None -> pending_accept_ (lst w') = Some a)) as K2.
  { intros w3 B3 Es El Eac Ew. apply (K w3 true); [apply (inv_same w1); try done; rewrite ?El; auto|]. split_and!; [rewrite Eac; apply lookup_insert_eq | by rewrite Ew | by rewrite El]. }
  assert (forall w3, base w3 -> sources w3 = sources w1 -> lst w3 = lst w1 -> accepts w3 = accepts w1 -> exists w' q, ('(w, suspended) ← Val (if reading (lst (set_lst w3 (set_pending (lst w3) (Some a)))) then set_lst w3 (set_pending (lst w3) (Some a)) else EnableReading (set_lst w3 (set_pending (lst w3) (Some a))), true); if (suspended : bool) then Val (w, None) else '(w, r) ← accept_await_resume w a; Val (w, Some r)) = Val (w', q) /\ inv w' /\ (q = None -> pending_accept_ (lst w') = Some a)) as K3.
  { intros w3 B3 Es El Eac. cbn -[EnableReading]. assert (reading (lst w3) = false) as Hr3 by (rewrite (b_reading _ B3), El; cbn; rewrite Ep; unfold source_armed; rewrite El; cbn; by rewrite Ea). rewrite Hr3. eexists _, _. split; [reflexivity|]. split; [|done].
    set (w4 := EnableReading _). assert (base w4) as B4.
    { split; try done; [|apply B3]. destruct (b_core _ B3). split; try done; cbn.
      - intros k s Hs. by destruct (c_source0 k s Hs); split.
      - intros b [= <-]. rewrite El, Eac. split; [done|]. apply lookup_insert_eq. }
    apply (inv_same w1 w4 I1 B4 Es); cbn; rewrite ?El; cbn; auto; congruence. }
  destruct HT as [rest e Hlen|rest fd e Hlt|rest fd Hlt]; cbn [would_block].
  - destruct (IsWouldBlock _); cbn [negb deliver]; [apply K3 | apply K2]; try done; by apply base_backlog.
  - destruct (IsWouldBlock _); cbn [negb deliver]; [apply K3 | apply K2]; try done; by apply base_logs.
  - cbn [negb deliver]. apply K2; try done. by apply base_direct.
Qed.

(** ** Closing *)

(** Finish what is armed and stop: Stop and OnListenerClosed. *)
Lemma quit_post w k s g : core w -> sources w !! k = Some s -> accept_source_ (lst w) = Some k -> listener_ s = true -> st_of s <> kIdle -> (closed_ (lst w) = true -> g = registered (lst w)) ->
  let m := (if negb (m_a (state_ s) =? 0) then AcceptSource.mk (m_o (state_ s)) kActive (m_q (state_ s)) 0 else state_ s) in
  exists w', DeliverNextIfReady (retune w k (set_state s (AcceptSource.RequestStop m)) false g) k = Val w' /\ post k s w w' /\ (exists s', sources w' !! k = Some s' /\ at_end s').
Proof.
  intros C Hs Ha Hl Hi Hg. pose proof (so_machine _ _ _ (c_source _ C k s Hs) Hl) as M. destruct (Z.eqb_spec (m_a (state_ s)) 0) as [Ez|Ez]; cbn [negb].
  - apply (stopped_post w k s); try done.
  - assert (st_of s = kActive) as E by (destruct (decide (st_of s = kActive)) as [E|E]; [done|]; exfalso; apply Ez; by apply mok_unarmed).
    destruct (finish_spec w k s C Hs Ha Hl E Ez) as [_ C1]. set (s1 := set_state s (AcceptSource.mk (m_o (state_ s)) kActive (m_q (state_ s)) 0)) in *.
    destruct (stopped_post (put_source w k s1) k s1 (set_state s (AcceptSource.RequestStop (state_ s1))) g) as (w' & HD & P & Hend); try done; [apply lookup_insert_eq|].
    exists w'. assert (retune (put_source w k s1) k (set_state s (AcceptSource.RequestStop (state_ s1))) false g = retune w k (set_state s (AcceptSource.RequestStop (state_ s1))) false g) as Er by (unfold retune; by rewrite accept_put_put).
    rewrite Er in HD. split; [done|]. split; [|done]. apply (post_trans k s s1 w (put_source w k s1)); try done; [intros j Hj; cbn; by apply lookup_insert_ne | intros H; by destruct (active_not_end s E)].
Qed.

Lemma OnListenerClosed_post w k s : core w -> sources w !! k = Some s -> accept_source_ (lst w) = Some k -> listener_ s = true -> st_of s <> kIdle ->
  exists w', OnListenerClosed w k = Val w' /\ post k s w w' /\ (exists s', sources w' !! k = Some s' /\ at_end s').
Proof.
  intros C Hs Ha Hl Hi. destruct (quit_post w k s (registered (lst w)) C Hs Ha Hl Hi ltac:(done)) as (w' & HD & P & Hend). exists w'. split; [|done]. rewrite <- HD. unfold OnListenerClosed, get. rewrite Hs. cbn [mbind outcome_bind].
  pose proof (so_machine _ _ _ (c_source _ C k s Hs) Hl) as M. assert (sources (DisableReading w) = sources w) as Ed by (unfold DisableReading; by destruct (reading (lst w))). destruct (Z.eqb_spec (m_a (state_ s)) 0) as [Ez|Ez]; cbn [negb].
  - cbn [mbind outcome_bind]. rewrite Ed, Hs. cbn [mbind outcome_bind]. by rewrite (DisableReading_retune w k s Hs).
  - assert (st_of s = kActive) as E by (destruct (decide (st_of s = kActive)) as [E|E]; [done|]; exfalso; apply Ez; by apply mok_unarmed).
    unfold finish_request, get. rewrite Ed, Hs. cbn [mbind outcome_bind]. rewrite (finish_active _ M E Ez). cbn [ALYRN_CHECK mbind outcome_bind]. cbn [sources put_source set_sources]. rewrite lookup_insert_eq. cbn [mbind outcome_bind]. rewrite accept_put_put, (DisableReading_retune w k s Hs). done.
Qed.

Lemma CloseNow_inv w : inv w -> exists w', CloseNow w = Val w' /\ inv w' /\ closed_ (lst w') = true.
Proof.
  intros I. unfold CloseNow. destruct (closed_ (lst w)) eqn:Ec; [by exists w|]. pose proof I as [B N Z]. set (w1 := set_lst w (set_closed (lst w))).
  assert (base w1) as B1. { destruct B as [C A R G]. split; try done. destruct C. split; try done. intros k s Hs. by destruct (c_source0 k s Hs); split. }
  destruct (CompleteAccept_base w1 (Err (Errno ECANCELED)) B1) as (w2 & -> & B2 & Ep & Es & Ea & Ec2 & Eo & Er). cbn [mbind outcome_bind]. pose proof (b_core _ B2) as C2.
  assert (forall w3, base w3 -> pending_accept_ (lst w3) = None -> closed_ (lst w3) = true -> next_waits w3 -> (forall j t, sources w3 !! j = Some t -> listener_ t = true -> at_end t) ->
    exists w', Val (set_lst (DetachChannel w3) (close_socket (lst (DetachChannel w3)))) = Val w' /\ inv w' /\ closed_ (lst w') = true) as K.
  { intros w3 B3 Ep3 Ec3 N3 Hend. eexists. split; [reflexivity|]. split; [|done]. split; try done. destruct B3 as [C3 A3 R3 G3]. split; try done.
    - destruct C3. split; try done. intros k s Hs. by destruct (c_source0 k s Hs); split.
    - cbn. rewrite Ep3. unfold source_armed. cbn. destruct (accept_source_ (lst w3)) as [j|] eqn:Ej; [|done]. destruct (c_reserved _ C3 j Ej) as (t & Ht & Hl & _). rewrite Ht. rewrite (mok_unarmed (state_ t)); [done | by apply (so_machine _ _ _ (c_source _ C3 j t Ht))|]. intros E. by destruct (active_not_end t E (Hend j t Ht Hl)). }
  destruct (accept_source_ (lst w2)) as [k|] eqn:Eak.
  - destruct (c_reserved _ C2 k Eak) as (s & Hs & Hl & Hi). destruct (OnListenerClosed_post w2 k s C2 Hs Eak Hl Hi) as (w3 & -> & P & (s' & Hs' & Hend)). cbn [mbind outcome_bind]. pose proof P as [B3 Ho3 (s2 & Hs2 & Hl2 & _ & _ & Hn2) Ec3 Eo3 Ep3 _]. apply K; try done; [by rewrite Ep3 | by rewrite Ec3, Ec2 | |].
    + intros j t a Hj. destruct (decide (j = k)) as [->|Hne]; [rewrite Hs2 in Hj; injection Hj as <-; apply Hn2 | rewrite Ho3, Es in Hj by done; by apply (N j)].
    + intros j t Hj Hlt. destruct (decide (j = k)) as [->|Hne]; [rewrite Hs' in Hj; by injection Hj as <-|]. rewrite Ho3 in Hj by done. destruct (so_reserved _ _ _ (c_source _ C2 j t Hj) Hlt) as [H|[H|H]]; [by left | by right; right | congruence].
  - cbn [mbind outcome_bind]. apply K; try done; [intros j t a; rewrite Es; apply N|]. intros j t Hj Hlt. destruct (so_reserved _ _ _ (c_source _ C2 j t Hj) Hlt) as [H|[H|H]]; [by left | by right; right | congruence].
Qed.

(** ** Next and Stop of a source *)

Definition fresh_next (w : world) (k a : nat) : Prop := nexts w !! a = Some (new_next k) /\ ~ (ResumeNext a ∈ work w) /\ forall j t, sources w !! j = Some t -> pending_next_ t <> Some a.
Definition next_done (w : world) (a : nat) : Prop := (exists x, nexts w !! a = Some x /\ ValueResultState.HasResult (n_result x) = true) /\ ~ (ResumeNext a ∈ work w) /\ forall j t, sources w !! j = Some t -> pending_next_ t <> Some a.

Lemma accept_inv_put_next w a x : inv w -> (forall j t, sources w !! j = Some t -> pending_next_ t <> Some a) -> ~ (ResumeNext a ∈ work w) -> inv (put_next w a x).
Proof. intros I Hp Hw. apply (inv_same w); try done; [|by left]. apply (base_core_eq w); try done; [apply I|]. apply accept_core_put_next; [apply I | done | done]. Qed.

Lemma accept_next_inline_inv w k a r : inv w -> fresh_next w k a -> exists w', next_inline w a r = Val (w', false) /\ inv w' /\ next_done w' a.
Proof.
  intros I (Hx & Hw & Hp). unfold next_inline, get. rewrite Hx. cbn. destruct r as [r|r]; cbn; (eexists; split; [reflexivity|]; split; [by apply accept_inv_put_next|]; split_and!; [cbn; rewrite lookup_insert_eq; eauto | done | done]).
Qed.

Lemma next_resume_inv w a : inv w -> next_done w a -> exists w' r, next_await_resume w a = Val (w', r) /\ inv w'.
Proof.
  intros I ((x & Hx & Hr) & Hw & Hp). unfold next_await_resume, get. rewrite Hx. cbn. destruct (n_result x); try done; cbn; (eexists _, _; split; [reflexivity|]; by apply accept_inv_put_next).
Qed.

(** Parking: the source is armed and the queue is empty. *)
Lemma next_park w k s a : core w -> sources w !! k = Some s -> listener_ s = true -> accept_source_ (lst w) = Some k -> closed_ (lst w) = false -> events_ s = [] -> st_of s = kActive -> pending_next_ s = None ->
  (m_a (state_ s) <> 0 -> reading (lst w) = true /\ registered (lst w) = true) -> fresh_next w k a ->
  exists w' s', next_wait w k a = Val (w', true) /\ base w' /\ sources w' = <[k := s']> (sources w) /\ pending_next_ s' = Some a /\ events_ s' = [] /\ st_of s' = kActive /\ closed_ (lst w') = false /\ open (lst w') = open (lst w) /\ pending_accept_ (lst w') = pending_accept_ (lst w).
Proof.
  intros C Hs Hl Ha Hc He E Hp Hr (Hn & Hw & Hu). unfold next_wait. assert (forall w s, sources w !! k = Some s -> events_ s = [] -> st_of s = kActive -> TryTakeNext w k = Val (w, None)) as HT.
  { intros w1 s1 Hs1 He1 E1. unfold TryTakeNext, get. rewrite Hs1. cbn. rewrite He1. fold (st_of s1). by rewrite E1. }
  rewrite (HT w s Hs He E). cbn [mbind outcome_bind]. unfold get. rewrite Hn. cbn -[EnsureAdmission]. rewrite Hs. cbn -[EnsureAdmission]. set (w1 := put_next w a _). set (s1 := set_next s (Some a)).
  assert (core w1) as C1 by (by apply accept_core_put_next). assert (core (put_source w1 k s1)) as C2. { apply accept_core_set_next; try done; [|congruence]. intros b [= <-]. cbn. rewrite lookup_insert_eq. split; [done|congruence]. }
  assert (sources (put_source w1 k s1) !! k = Some s1) as Hs1 by apply lookup_insert_eq.
  destruct (EnsureAdmission_spec (put_source w1 k s1) k s1 C2 Hs1 Hl Ha Hc Hr) as (m' & r & g & -> & C3 & B3 & E3 & _). cbn [mbind outcome_bind]. rewrite (HT _ (set_state s1 m')); [|apply lookup_insert_eq | done | unfold st_of; cbn; by rewrite E3]. cbn [mbind outcome_bind].
  exists (retune (put_source w1 k s1) k (set_state s1 m') r g), (set_state s1 m'). split_and!; try done; [cbn; by rewrite insert_insert_eq | unfold st_of; cbn; by rewrite E3].
Qed.

Lemma parked_inv w w' k s s' a : inv w -> sources w !! k = Some s -> base w' -> sources w' = <[k := s']> (sources w) -> pending_next_ s' = Some a -> events_ s' = [] -> st_of s' = kActive -> closed_ (lst w') = false -> inv w'.
Proof.
  intros [B N Z] Hs B' Es Hp He E Hc. split; try done; [|intros H; congruence]. intros j t b Hj. rewrite Es in Hj. destruct (decide (j = k)) as [->|Hne]; [rewrite lookup_insert_eq in Hj; injection Hj as <-; intros _; split; congruence | rewrite lookup_insert_ne in Hj by done; by apply (N j)].
Qed.

Lemma taken_inv w w' k s s' : inv w -> sources w !! k = Some s -> listener_ s = true -> base w' -> sources w' = <[k := s']> (sources w) -> pending_next_ s' = None -> (at_end s -> at_end s') -> closed_ (lst w') = closed_ (lst w) -> open (lst w') = open (lst w) -> pending_accept_ (lst w') = pending_accept_ (lst w) ->
  (closed_ (lst w) = true -> registered (lst w') = registered (lst w)) -> inv w'.
Proof.
  intros [B N Z] Hs Hl B' Es Hp He Ec Eo Epa Er. split; try done.
  - intros j t b Hj. rewrite Es in Hj. destruct (decide (j = k)) as [->|Hne]; [rewrite lookup_insert_eq in Hj; injection Hj as <-; congruence | rewrite lookup_insert_ne in Hj by done; by apply (N j)].
  - intros Hc. rewrite Ec in Hc. destruct (Z Hc) as (Z1 & Z2 & Z3 & Z4). rewrite Eo, Epa, (Er Hc). split_and!; try done. intros j t Hj Hlt. rewrite Es in Hj. destruct (decide (j = k)) as [->|Hne]; [rewrite lookup_insert_eq in Hj; injection Hj as <-; apply He; by apply (Z4 k) | rewrite lookup_insert_ne in Hj by done; by apply (Z4 j)].
Qed.

(** What awaiting Next gives: parked, or done. *)
Definition next_outcome (w' : world) (b : bool) (k a : nat) : Prop := inv w' /\ (b = false -> next_done w' a) /\ (b = true -> exists s', sources w' !! k = Some s' /\ pending_next_ s' = Some a).

Lemma inline_outcome w k a r : inv w -> fresh_next w k a -> exists w' b, next_inline w a r = Val (w', b) /\ next_outcome w' b k a.
Proof. intros I F. destruct (accept_next_inline_inv w k a r I F) as (w' & Hr & I' & D). by exists w', false. Qed.

Lemma accept_next_wait_inv w k s a : inv w -> sources w !! k = Some s -> listener_ s = true -> st_of s <> kIdle -> pending_next_ s = None -> fresh_next w k a -> exists w' b, next_wait w k a = Val (w', b) /\ next_outcome w' b k a.
Proof.
  intros I Hs Hl Hi Hp F. pose proof I as [B N Z]. pose proof (b_core _ B) as C. pose proof (c_source _ C k s Hs) as So. destruct (events_ s) as [|fd rest] eqn:He.
  - destruct (decide (st_of s = kTerminal)) as [Et|Et].
    + unfold next_wait, TryTakeNext, get. rewrite Hs. cbn -[next_inline]. rewrite He. fold (st_of s). rewrite Et, bool_decide_eq_true_2 by done. destruct (Release_spec w k s B Hs Hl) as (w1 & -> & B1 & Es & En & _ & Ew & Hw1). cbn [mbind outcome_bind]. apply inline_outcome.
      * apply (inv_same w); try done; destruct Hw1 as [->|[-> _]]; auto.
      * destruct F as (F1 & F2 & F3). split_and!; [by rewrite En | by rewrite Ew | intros j t; rewrite Es; apply F3].
    + assert (accept_source_ (lst w) = Some k) as Ha by (by apply (core_active w k s)). assert (st_of s = kActive) as E. { destruct (mok_state _ (so_machine _ _ _ So Hl)) as [H|[H|[H|[H|H]]]]; try done. - by destruct (so_paused _ _ _ So Hl H). - pose proof (AcceptSource.inv_state _ (mok_inv _ (so_machine _ _ _ So Hl))) as Hco. rewrite H in Hco. destruct Hco as [_ Hq]. by rewrite (so_queue _ _ _ So Hl), He in Hq. }
      assert (closed_ (lst w) = false) as Hc. { destruct (closed_ (lst w)) eqn:Hc; [|done]. destruct (Z Hc) as (_ & _ & _ & Z4). destruct (active_not_end s E (Z4 k s Hs Hl)). }
      destruct (next_park w k s a C Hs Hl Ha Hc He E Hp) as (w' & s' & -> & B' & Es & Hp' & He' & E' & Hc' & _); [|done|].
      { intros Hz. rewrite (base_reading w k s B Ha Hs), (proj2 (Z.eqb_neq _ _) Hz). split; [done|]. apply (b_registered _ B). by rewrite (base_reading w k s B Ha Hs), (proj2 (Z.eqb_neq _ _) Hz). }
      exists w', true. split; [done|]. split; [by apply (parked_inv w w' k s s' a)|]. split; [done|]. intros _. exists s'. by rewrite Es, lookup_insert_eq.
  - destruct (accept_TryTakeNext_event w k s fd rest B Hs Hl He) as (w1 & s1 & HT & B1 & Es & Hl1 & He1 & Hp1 & Hae & Hi1 & Ec & Eo & Epa & En & Eac & Ew & Hrg & Hre). { intros Hc. destruct (Z Hc) as (_ & _ & _ & Z4). by apply (Z4 k). }
    unfold next_wait. rewrite HT. cbn [mbind outcome_bind]. apply inline_outcome.
    + apply (taken_inv w w1 k s s1); try done. by rewrite Hp1.
    + destruct F as (F1 & F2 & F3). split_and!; [by rewrite En | by rewrite Ew |]. intros j t Hj. rewrite Es in Hj. destruct (decide (j = k)) as [->|Hne]; [rewrite lookup_insert_eq in Hj; injection Hj as <-; by rewrite Hp1, Hp | rewrite lookup_insert_ne in Hj by done; by apply (F3 j)].
Qed.

(** An idle source is stopped before it began. *)
Lemma idle_stop_inv w k s : inv w -> sources w !! k = Some s -> listener_ s = true -> st_of s = kIdle -> inv (put_source w k (set_state s (AcceptSource.RequestStop (state_ s)))) /\ pending_next_ s = None /\ accept_source_ (lst w) <> Some k.
Proof.
  intros I Hs Hl E. pose proof I as [B N Z]. pose proof (b_core _ B) as C. pose proof (c_source _ C k s Hs) as So. pose proof (so_machine _ _ _ So Hl) as M. assert (m_a (state_ s) = 0) as Ez by (apply mok_unarmed; [done|]; fold (st_of s); congruence).
  destruct (stop_spec _ M Ez) as [Est Mst]. rewrite Est. pose proof (AcceptSource.inv_state _ (mok_inv _ M)) as Hco. fold (st_of s) in Hco. rewrite E in Hco. destruct Hco as [Hq _].
  assert (pending_next_ s = None) as Hp by (destruct (pending_next_ s) as [a|] eqn:Hp; [|done]; by destruct (so_next _ _ _ So a Hp)).
  assert (accept_source_ (lst w) <> Some k) as Hna by (intros Ha; destruct (c_reserved _ C k Ha) as (t & Ht & _ & Hi); congruence). split; [|done].
  set (s1 := set_state s _). set (w1 := put_source w k s1). assert (st_of s1 = kTerminal) as E1 by (unfold st_of; cbn; by rewrite Hq).
  assert (queue w1 = queue w) as Hqu by (rewrite (queue_put w _ k s1) by done; by rewrite bool_decide_eq_false_2).
  assert (core w1) as C1. { apply (core_put w _ k s s1); try done; try apply C; [|rewrite Hqu; apply C | rewrite Hqu; apply C]. split; try done; [by apply (so_moved _ _ _ So) | by apply (so_queue _ _ _ So) | by right; left | congruence | cbn; congruence]. }
  apply (taken_inv w w1 k s s1); try done; [|by right; right]. split; try done.
  - intros j t Hj Hlt Et. cbn in Hj. destruct (decide (j = k)) as [->|Hne]; [rewrite lookup_insert_eq in Hj; injection Hj as <-; congruence | rewrite lookup_insert_ne in Hj by done; by apply (b_admitted _ B j)].
  - cbn. rewrite (b_reading _ B). case_match; [done|]. unfold source_armed. cbn. destruct (accept_source_ (lst w)) as [j|]; [|done]. by rewrite lookup_insert_ne by congruence.
  - apply B.
Qed.

(** The first Next of a source reserves the listener. *)
Lemma start_core w k s m : inv w -> sources w !! k = Some s -> listener_ s = true -> st_of s = kIdle -> closed_ (lst w) = false -> pending_accept_ (lst w) = None -> accept_source_ (lst w) = None -> mok m -> m_st m = kActive -> m_q m = 0 ->
  core (set_lst (put_source w k (set_state s m)) (set_source (lst w) (Some k))) /\ events_ s = [] /\ pending_next_ s = None.
Proof.
  intros I Hs Hl E Hc Hpa Ha M Em Eq. pose proof I as [B N Z]. pose proof (b_core _ B) as C. pose proof (c_source _ C k s Hs) as So. destruct (idle_stop_inv w k s I Hs Hl E) as (_ & Hp & _).
  assert (events_ s = []) as He by (destruct (decide (events_ s = [])) as [|Hne]; [done|]; destruct (core_events w k s C Hs Hne); congruence). split_and!; try done. assert (queue w = []) as Hq by (unfold queue; by rewrite Ha).
  set (w1 := set_lst _ _). assert (queue w1 = []) as Hq1 by (unfold queue; cbn; rewrite lookup_insert_eq; exact He). destruct C. split; try done.
  - cbn. intros j t Hj. destruct (decide (j = k)) as [->|Hne].
    + rewrite lookup_insert_eq in Hj. injection Hj as <-. split; try done; cbn; [by rewrite Eq, He | by right; right | unfold st_of; cbn; congruence | congruence].
    + rewrite lookup_insert_ne in Hj by done. destruct (c_source0 j t Hj) as [S1 S2 S3 S4 S5 S6]. split; try done. intros Hlt. destruct (S4 Hlt) as [H|[H|H]]; auto. congruence.
  - cbn. intros j [= <-]. rewrite lookup_insert_eq. eexists. split; [done|]. split; [done|]. unfold st_of. cbn. congruence.
  - cbn. intros a Hx. congruence.
  - rewrite Hq1. rewrite Hq in c_log0. exact c_log0.
  - rewrite Hq1. rewrite Hq in c_order0. exact c_order0.
Qed.

Lemma accept_next_await_suspend_inv w k s a : inv w -> sources w !! k = Some s -> fresh_next w k a -> exists w' b, next_await_suspend w k a = Val (w', b) /\ next_outcome w' b k a.
Proof.
  intros I Hs F. pose proof I as [B N Z]. pose proof (b_core _ B) as C. unfold next_await_suspend, get. rewrite Hs. cbn [mbind outcome_bind]. destruct (listener_ s) eqn:Hl; cbn [negb]; [|by apply inline_outcome].
  rewrite (c_loop _ C), (c_here _ C). cbn [ALYRN_CHECK mbind outcome_bind negb]. destruct (pending_next_ s) as [b|] eqn:Hp; [by apply inline_outcome|]. fold (st_of s). case_bool_decide as E; [|by apply (accept_next_wait_inv w k s)].
  destruct (stopping w); [by apply inline_outcome|]. destruct (idle_stop_inv w k s I Hs Hl E) as (I1 & _ & Hna). destruct (closed_ (lst w)) eqn:Hc.
  { apply inline_outcome; [done|]. destruct F as (F1 & F2 & F3). split_and!; try done. cbn. intros j t Hj. destruct (decide (j = k)) as [->|Hne]; [rewrite lookup_insert_eq in Hj; injection Hj as <-; cbn; congruence | rewrite lookup_insert_ne in Hj by done; by apply (F3 j)]. }
  case_bool_decide as Hpa; cbn [negb orb]; [|by apply inline_outcome]. rewrite (bool_decide_eq_false_2 (accept_source_ (lst w) = Some k)), orb_false_r by done. case_bool_decide as Ha; cbn [negb]; [|by apply inline_outcome].
  pose proof (so_machine _ _ _ (c_source _ C k s Hs) Hl) as M. destruct (start_spec _ M E) as (HS & Hq & M1). rewrite HS. cbn zeta iota. set (s1 := set_state s _). destruct (start_core w k s (AcceptSource.mk (m_o (state_ s)) kActive 0 0) I Hs Hl E Hc Hpa Ha M1 eq_refl eq_refl) as (C1 & He & _). fold s1 in C1.
  change (lst (put_source w k s1)) with (lst w). set (w1 := set_lst _ _) in *.
  destruct (next_park w1 k s1 a C1) as (w' & s' & -> & B' & Es & Hp' & He' & E' & Hc' & _); try done; [apply lookup_insert_eq| |].
  { destruct F as (F1 & F2 & F3). split_and!; try done. cbn. intros j t Hj. destruct (decide (j = k)) as [->|Hne]; [rewrite lookup_insert_eq in Hj; injection Hj as <-; cbn; congruence | rewrite lookup_insert_ne in Hj by done; by apply (F3 j)]. }
  exists w', true. split; [done|]. cbn in Es. rewrite insert_insert_eq in Es. split; [by apply (parked_inv w w' k s s' a)|]. split; [done|]. intros _. exists s'. by rewrite Es, lookup_insert_eq.
Qed.

Lemma release_inv w k s : inv w -> sources w !! k = Some s -> listener_ s = true -> exists w', ReleaseListenerReservation w k = Val w' /\ inv w'.
Proof.
  intros I Hs Hl. destruct (Release_spec w k s (i_base _ I) Hs Hl) as (w' & -> & B' & Es & _ & _ & _ & Hw'). exists w'. split; [done|]. apply (inv_same w); try done; destruct Hw' as [->|[-> _]]; auto.
Qed.

Lemma accept_Stop_inv w k s : inv w -> sources w !! k = Some s -> exists w', Stop w k = Val (w', Ok tt) /\ inv w' /\ (listener_ s = true -> exists s', sources w' !! k = Some s' /\ at_end s' /\ st_of s' <> kIdle).
Proof.
  intros I Hs. pose proof I as [B N Z]. pose proof (b_core _ B) as C. unfold Stop, get. rewrite Hs. cbn [mbind outcome_bind]. destruct (listener_ s) eqn:Hl; cbn [negb]; [|by exists w]. rewrite (c_loop _ C), (c_here _ C). cbn [ALYRN_CHECK mbind outcome_bind negb].
  pose proof (so_machine _ _ _ (c_source _ C k s Hs) Hl) as M.
  assert (forall w1, post k s w w1 -> (exists s', sources w1 !! k = Some s' /\ at_end s') -> st_of s <> kIdle -> exists w', (w ← ReleaseListenerReservation w1 k; Val (w, @Ok unit Error tt)) = Val (w', Ok tt) /\ inv w' /\ (true = true -> exists s', sources w' !! k = Some s' /\ at_end s' /\ st_of s' <> kIdle)) as K.
  { intros w1 P (s' & Hs' & He') Hni. pose proof (accept_post_inv w w1 k s I Hs Hl P) as I1. destruct (p_self _ _ _ _ P) as (s2 & Hs2 & Hl2 & _ & Hi2 & _). rewrite Hs2 in Hs'. injection Hs' as <-. destruct (Release_spec w1 k s2 (i_base _ I1) Hs2 Hl2) as (w' & HR & _ & Es & _).
    destruct (release_inv w1 k s2 I1 Hs2 Hl2) as (w2 & HR2 & I2). rewrite HR in HR2. injection HR2 as <-. rewrite HR. cbn. exists w'. split; [done|]. split; [done|]. intros _. exists s2. rewrite Es. split_and!; auto. }
  assert (st_of s <> kIdle -> st_of s <> kTerminal -> st_of s <> kDraining -> exists w', (let w := DisableReading w in let '(st, completed) := if negb (m_a (state_ s) =? 0) then AcceptSource.CompleteRequest false (state_ s) else (state_ s, Ok tt) in
     match completed with Err e => Val (put_source w k (set_state s st), Err e) | Ok _ => w ← DeliverNextIfReady (put_source w k (set_state s (AcceptSource.RequestStop st))) k; w ← ReleaseListenerReservation w k; Val (w, Ok tt) end) = Val (w', @Ok unit Error tt) /\ inv w' /\ (true = true -> exists s', sources w' !! k = Some s' /\ at_end s' /\ st_of s' <> kIdle)) as KQ.
  { intros Hi Ht Hd. assert (accept_source_ (lst w) = Some k) as Ha by (by apply (core_active w k s)). destruct (quit_post w k s (registered (lst w)) C Hs Ha Hl Hi ltac:(done)) as (w1 & HD & P & Hend). cbn zeta.
    assert ((if negb (m_a (state_ s) =? 0) then AcceptSource.CompleteRequest false (state_ s) else (state_ s, Ok tt)) = (if negb (m_a (state_ s) =? 0) then AcceptSource.mk (m_o (state_ s)) kActive (m_q (state_ s)) 0 else state_ s, Ok tt)) as ->.
    { destruct (Z.eqb_spec (m_a (state_ s)) 0) as [Ez|Ez]; cbn [negb]; [done|]. apply finish_active; try done. destruct (decide (m_st (state_ s) = kActive)) as [E|E]; [done|]. exfalso. apply Ez. by apply mok_unarmed. }
    cbn zeta iota. rewrite (DisableReading_retune w k s Hs), HD. cbn [mbind outcome_bind]. by apply K. }
  assert (at_end s -> st_of s <> kIdle -> exists w', (w ← DeliverNextIfReady w k; w ← ReleaseListenerReservation w k; Val (w, Ok tt)) = Val (w', @Ok unit Error tt) /\ inv w' /\ (true = true -> exists s', sources w' !! k = Some s' /\ at_end s' /\ st_of s' <> kIdle)) as KE.
  { intros Hae Hi. destruct (Deliver_post w k s B Hs Hl ltac:(done)) as (w1 & -> & P). cbn [mbind outcome_bind]. apply K; [done | | done]. destruct (p_self _ _ _ _ P) as (s2 & Hs2 & _ & He2 & _). eauto. }
  destruct (mok_state _ M) as [H|[H|[H|[H|H]]]]; rewrite H.
  - destruct (idle_stop_inv w k s I Hs Hl H) as (I1 & _). set (s1 := set_state s _) in *. assert (sources (put_source w k s1) !! k = Some s1) as Hs1 by apply lookup_insert_eq. destruct (Release_spec _ k s1 (i_base _ I1) Hs1 Hl) as (w' & HR & _ & Es & _). destruct (release_inv _ k s1 I1 Hs1 Hl) as (w2 & HR2 & I2).
    rewrite HR in HR2. injection HR2 as <-. rewrite HR. cbn [mbind outcome_bind]. exists w'. split; [done|]. split; [done|]. intros _. exists s1. rewrite Es. assert (st_of s1 = kTerminal) as Ht; [|split_and!; [done | by right; right | congruence]].
    unfold st_of. cbn. unfold AcceptSource.RequestStop. by rewrite H.
  - apply KQ; unfold st_of; congruence.
  - apply KQ; unfold st_of; congruence.
  - apply KE; [by right; left | unfold st_of; congruence].
  - apply KE; [by right; right | unfold st_of; congruence].
Qed.

End EpollListenerSteps.
