(* ===== verification/EpollListenerProps.v ===== *)
(** * The epoll listener: what it promises

    Over every script of a listener with any number of sources: connections are handed out
    in the order of their arrival, none is lost, what waits is watched for, and closing
    ends everything. And an exhausted descriptor table, which ends a source. *)

From S2P Require Import Prelude Lifecycles Sources AcceptSource ResultCells UringLoop EpollStream Sockets EpollListener EpollListenerInv EpollListenerSteps.

Module EpollListenerProps.
Import EpollListener EpollListenerInv EpollListenerSteps.

(** ** Moving, destroying and creating sources *)

(** Source [k] lives on as [k']. *)
Definition renamed (k k' : nat) (o : option nat) : option nat := if decide (o = Some k) then Some k' else o.

Definition moved (w : world) (k k' : nat) (s : source) : world :=
  set_lst (set_sources w (<[k' := mkSource (listener_ s) (state_ s) (events_ s) (terminal_error_ s) None]> (<[k := mkSource false (state_ s) [] (terminal_error_ s) None]> (sources w)))) (set_source (lst w) (renamed k k' (accept_source_ (lst w)))).

Lemma move_source_moved w k k' s : core w -> sources w !! k = Some s -> pending_next_ s = None -> running (st_of s) = false -> move_source w k k' = Val (moved w k k' s).
Proof.
  intros C Hs Hp Hr. unfold move_source, get, moved, renamed. rewrite Hs. cbn [mbind outcome_bind]. unfold st_of in Hr. rewrite (bool_decide_eq_true_2 (pending_next_ s = None)) by done. rewrite Hr. cbn [ALYRN_CHECK mbind outcome_bind negb]. f_equal. cbn [lst set_sources].
  destruct (decide (accept_source_ (lst w) = Some k)) as [Ea|Ea].
  - destruct (c_reserved _ C k Ea) as (t & Ht & Hl & _). rewrite Hs in Ht. injection Ht as <-. by rewrite Hl, bool_decide_eq_true_2.
  - rewrite (bool_decide_eq_false_2 _ Ea), andb_false_r. by destruct w as [[]].
Qed.

Lemma moved_lookup w k k' s j t : sources (moved w k k' s) !! j = Some t ->
  (j = k' /\ t = mkSource (listener_ s) (state_ s) (events_ s) (terminal_error_ s) None) \/ (listener_ t = false /\ events_ t = [] /\ pending_next_ t = None) \/ (j <> k /\ j <> k' /\ sources w !! j = Some t).
Proof.
  cbn. destruct (decide (j = k')) as [->|H1]; [rewrite lookup_insert_eq; intros [= <-]; auto|]. rewrite lookup_insert_ne by done. destruct (decide (j = k)) as [->|H2]; [rewrite lookup_insert_eq; intros [= <-]; right; left; done|]. rewrite lookup_insert_ne by done. auto.
Qed.

(** The reserved source before and after, with its queue and its request. *)
Lemma moved_reserved w k k' s : core w -> sources w !! k = Some s -> sources w !! k' = None ->
  queue (moved w k k' s) = queue w /\ source_armed (moved w k k' s) = source_armed w /\
  (forall j, accept_source_ (lst (moved w k k' s)) = Some j -> exists t, sources (moved w k k' s) !! j = Some t /\ listener_ t = true /\ st_of t <> kIdle).
Proof.
  intros C Hs Hk'. unfold queue, source_armed. cbn [moved lst sources set_lst set_sources accept_source_ set_source]. unfold renamed. destruct (accept_source_ (lst w)) as [j|] eqn:Ej; [|by case_decide]. destruct (c_reserved _ C j Ej) as (t & Ht & Hl & Hi).
  case_decide as E.
  - injection E as ->. rewrite Hs in Ht. injection Ht as <-. rewrite lookup_insert_eq, Hs. split_and!; try done. intros i [= <-]. rewrite lookup_insert_eq. by eexists.
  - assert (j <> k /\ j <> k') as [H1 H2] by (split; congruence). rewrite !lookup_insert_ne by done. split_and!; try done. intros i [= <-]. rewrite !lookup_insert_ne by done. eauto.
Qed.

Lemma moved_core w k k' s : core w -> sources w !! k = Some s -> sources w !! k' = None -> pending_next_ s = None -> core (moved w k k' s).
Proof.
  intros C Hs Hk' Hp. pose proof (moved_reserved w k k' s C Hs Hk') as (Hq & _ & Hr). pose proof (c_source _ C k s Hs) as So. destruct C. split; try done.
  - intros j t Hj. destruct (moved_lookup w k k' s j t Hj) as [[-> ->]|[(H1 & H2 & H3)|(H1 & H2 & Hj')]].
    + destruct So. split; try done; cbn; [intros Hm%so_moved0; by destruct Hm|]. intros Hl. destruct (so_reserved0 Hl) as [H|[H|H]]; auto. right; right. unfold renamed. by rewrite decide_True.
    + by split; rewrite ?H1, ?H3.
    + destruct (c_source0 j t Hj') as [S1 S2 S3 S4 S5 S6]. split; try done. intros Hlt. destruct (S4 Hlt) as [H|[H|H]]; auto. right; right. cbn. unfold renamed. rewrite H. rewrite decide_False by congruence. done.
  - intros a Ha. destruct (c_pending0 a Ha) as [Hn Hx]. split; [|done]. cbn. unfold renamed. rewrite Hn. by case_decide.
  - rewrite Hq. exact c_log0.
  - rewrite Hq. exact c_order0.
Qed.

Lemma accept_move_inv w k k' s : inv w -> sources w !! k = Some s -> sources w !! k' = None -> pending_next_ s = None -> running (st_of s) = false -> exists w', move_source w k k' = Val w' /\ inv w'.
Proof.
  intros I Hs Hk' Hp Hr. pose proof I as [B N Z]. pose proof (b_core _ B) as C. rewrite (move_source_moved w k k' s C Hs Hp Hr). eexists. split; [reflexivity|]. pose proof (moved_reserved w k k' s C Hs Hk') as (_ & Hsa & _).
  split; [split; [by apply moved_core | | | apply B]|..].
  - intros j t Hj Hlt Et. destruct (moved_lookup w k k' s j t Hj) as [[-> ->]|[(H1 & _)|(H1 & H2 & Hj')]]; [|congruence|by apply (b_admitted _ B j)]. change (st_of s = kActive) in Et. by rewrite Et in Hr.
  - rewrite Hsa. cbn. apply B.
  - intros j t a Hj Ha. destruct (moved_lookup w k k' s j t Hj) as [[-> ->]|[(_ & _ & H3)|(H1 & H2 & Hj')]]; [done | congruence | by apply (N j t a)].
  - intros Hc. destruct (Z Hc) as (Z1 & Z2 & Z3 & Z4). split_and!; try done. intros j t Hj Hlt. destruct (moved_lookup w k k' s j t Hj) as [[-> ->]|[(H1 & _)|(H1 & H2 & Hj')]]; [by apply (Z4 k s) | congruence | by apply (Z4 j)].
Qed.

(** Destruction closes what is queued. *)
Lemma destroy_source_inv w k s : inv w -> sources w !! k = Some s -> pending_next_ s = None -> (listener_ s = true -> at_end s) -> exists w', destroy_source w k = Val w' /\ inv w'.
Proof.
  intros I Hs Hp He. pose proof I as [B N Z]. pose proof (b_core _ B) as C. pose proof (c_source _ C k s Hs) as So.
  set (l := if bool_decide (accept_source_ (lst w) = Some k) then set_source (lst w) None else lst w). set (w' := log_dropped (set_sources (set_lst w l) (delete k (sources w))) (events_ s)).
  assert (destroy_source w k = Val w') as ->.
  { unfold destroy_source, get. rewrite Hs. cbn [mbind outcome_bind]. destruct (listener_ s) eqn:Hl; cbn [negb].
    - rewrite (c_loop _ C), (c_here _ C), Hp. cbn [andb ALYRN_CHECK mbind outcome_bind]. rewrite (bool_decide_eq_true_2 (None = None)) by done. cbn [ALYRN_CHECK mbind outcome_bind]. specialize (He eq_refl). fold (st_of s). rewrite (bool_decide_eq_true_2 (_ ∈ _)) by (destruct He as [->|[->| ->]]; set_solver). cbn [ALYRN_CHECK mbind outcome_bind].
      rewrite (mok_unarmed _ (so_machine _ _ _ So Hl)) by (fold (st_of s); destruct He as [->|[->| ->]]; done). cbn [Z.eqb ALYRN_CHECK mbind outcome_bind]. f_equal. unfold w', l. by destruct (bool_decide _), w.
    - assert (accept_source_ (lst w) <> Some k) as Hna by (intros Ha; destruct (c_reserved _ C k Ha) as (t & Ht & Hlt & _); congruence). unfold w', l. rewrite bool_decide_eq_false_2 by done. by destruct w. }
  exists w'. split; [done|]. assert (forall j t, delete k (sources w) !! j = Some t -> j <> k /\ sources w !! j = Some t) as Hd by (intros j t [? ?]%lookup_delete_Some; done).
  assert (accept_source_ l = if bool_decide (accept_source_ (lst w) = Some k) then None else accept_source_ (lst w)) as Hal by (unfold l; by destruct (bool_decide _)).
  assert (events_ s ++ queue w' = queue w /\ source_armed w' = source_armed w) as [Hq Hsa].
  { unfold queue, source_armed. cbn. rewrite Hal. case_bool_decide as Ea.
    - rewrite Ea, Hs, app_nil_r. split; [done|]. destruct (c_reserved _ C k Ea) as (t & Ht & Hlt & _). rewrite Hs in Ht. injection Ht as <-. rewrite (mok_unarmed _ (so_machine _ _ _ So Hlt)); [done|]. fold (st_of s). destruct (He Hlt) as [->|[->| ->]]; done.
    - assert (events_ s = []) as -> by (destruct (decide (events_ s = [])) as [|Hne]; [done|]; by destruct (core_events w k s C Hs Hne)). destruct (accept_source_ (lst w)) as [j|]; [|done]. rewrite lookup_delete_ne by congruence. done. }
  assert (loop_ l = loop_ (lst w) /\ pending_accept_ l = pending_accept_ (lst w) /\ reading l = reading (lst w) /\ registered l = registered (lst w) /\ closed_ l = closed_ (lst w) /\ open l = open (lst w)) as (L1 & L2 & L3 & L4 & L5 & L6) by (unfold l; by destruct (bool_decide _)).
  assert (core w') as C'.
  { destruct C. split; try done; cbn [w' log_dropped set_sources set_lst lst sources here accepts nexts work]; rewrite ?L1, ?L2; try done.
    - intros j t Hj. apply Hd in Hj as [Hne Hj]. destruct (c_source0 j t Hj) as [S1 S2 S3 S4 S5 S6]. split; try done. cbn. rewrite Hal. intros Hlt. destruct (S4 Hlt) as [H|[H|H]]; auto. right; right. rewrite bool_decide_eq_false_2 by congruence. done.
    - intros j Hj. rewrite Hal in Hj. case_bool_decide; [done|]. destruct (c_reserved0 j Hj) as (t & Ht). exists t. rewrite lookup_delete_ne by congruence. done.
    - intros a Ha. destruct (c_pending0 a Ha) as [Hn Hx]. rewrite Hal, Hn. by case_bool_decide.
    - cbn. rewrite c_log0, <- Hq, <- !app_assoc. f_equiv. rewrite Permutation_app_comm, <- !app_assoc. done.
    - cbn. etrans; [|exact c_order0]. rewrite <- Hq. apply sublist_app; [done|]. apply sublist_inserts_l. done. }
  split; [split; [done | | | ]|..]; cbn [w' log_dropped set_sources set_lst lst sources]; rewrite ?L2, ?L3, ?L4.
  - intros j t Hj. apply Hd in Hj as [_ Hj]. by apply (b_admitted _ B j).
  - rewrite Hsa. apply B.
  - apply B.
  - intros j t a Hj. apply Hd in Hj as [_ Hj]. by apply (N j).
  - intros Hc. cbn in Hc |- *. rewrite L5 in Hc. destruct (Z Hc) as (Z1 & Z2 & Z3 & Z4). rewrite L2, L4, L6. split_and!; try done. intros j t Hj. apply Hd in Hj as [_ Hj]. by apply (Z4 j).
Qed.

Lemma typed_options_range o : typed_options o = true -> AcceptSource.options_in_range o.
Proof. unfold typed_options, AcceptSource.options_in_range, is_usize. cbn. intros H. bool_prop. lia. Qed.

Lemma created_mok o m : AcceptSource.options_in_range o -> AcceptSource.Create o = Ok m -> mok m /\ m_st m = kIdle /\ m_q m = 0.
Proof.
  intros Ho Hc. pose proof (AcceptSource.accept_inv_Create o m Ho Hc) as Hi. unfold AcceptSource.Create in Hc. destruct (negb _); [done|]. injection Hc as <-. split_and!; try done. split; try done; cbn; [|by left]. destruct Hi as [_ _ Hq _ _]. cbn in Hq. lia.
Qed.

Lemma CreateAcceptSource_inv w k o : inv w -> sources w !! k = None -> AcceptSource.options_in_range o -> exists w' r, CreateAcceptSource w k o = Val (w', r) /\ inv w'.
Proof.
  intros I Hk Ho. pose proof I as [B N Z]. pose proof (b_core _ B) as C. unfold CreateAcceptSource, RequireOwnerLoop. rewrite (c_loop _ C), (c_here _ C). cbn [ALYRN_CHECK mbind outcome_bind]. destruct (stopping w); [by eexists _, _|]. destruct (closed_ (lst w)) eqn:Hc; [by eexists _, _|].
  destruct (negb _ || negb _) eqn:Hb; [by eexists _, _|]. destruct (AcceptSource.Create o) as [m|e] eqn:Hcr; [|by eexists _, _]. eexists _, _. split; [reflexivity|]. destruct (created_mok o m Ho Hcr) as (M & Em & Eq). set (s := mkSource true m [] None None). set (w' := put_source w k s).
  assert (forall j t, sources w' !! j = Some t -> j = k /\ t = s \/ j <> k /\ sources w !! j = Some t) as Hss. { cbn. intros j t Hj. destruct (decide (j = k)) as [->|Hne]; [rewrite lookup_insert_eq in Hj; by injection Hj as <-; left | rewrite lookup_insert_ne in Hj by done; by right]. }
  assert (accept_source_ (lst w) = None) as Ha by (bool_prop; done).
  assert (queue w' = queue w) as Hq by (unfold queue; cbn; by rewrite Ha). assert (core w') as C'.
  { destruct C. split; try done.
    - intros j t Hj. destruct (Hss j t Hj) as [[-> ->]|[Hne Hj']]; [|destruct (c_source0 j t Hj') as [S1 S2 S3 S4 S5 S6]; by split]. split; try done; [by left | unfold st_of; cbn; congruence].
    - cbn. rewrite Ha. done.
    - rewrite Hq. exact c_log0.
    - rewrite Hq. exact c_order0. }
  split; [split; try done|..].
  - intros j t Hj Hlt Et. destruct (Hss j t Hj) as [[-> ->]|[Hne Hj']]; [unfold st_of in Et; cbn in Et; congruence | by apply (b_admitted _ B j)].
  - cbn. rewrite (b_reading _ B). case_match; [done|]. unfold source_armed. cbn. by rewrite Ha.
  - apply B.
  - intros j t a Hj. destruct (Hss j t Hj) as [[-> ->]|[Hne Hj']]; [done | by apply (N j)].
  - intros Hx. cbn in Hx. congruence.
Qed.

(** ** Every script *)

Lemma listener_exec_inv w c r : inv w -> exec w c = Some r -> exists w', r = Val w' /\ inv w'.
Proof.
  intros I. pose proof I as [B N Z]. pose proof (b_core _ B) as C. destruct c as [a|k o|k a|k|k k'|k| |answers|rooms|answer| |]; cbn [exec].
  - destruct (accepts w !! a) eqn:Ea; [done|]. intros [= <-].
    assert (pending_accept_ (lst w) <> Some a /\ ~ (ResumeAccept a ∈ work w)) as [Hp Hw] by (split; [intros Hp; destruct (c_pending _ C a Hp); congruence | intros Hw; destruct (c_work_accept _ C a Hw) as (? & ? & _); congruence]).
    destruct (Accept_inv (put_accept w a new_accept) a) as (w' & r & -> & I' & _); [by apply inv_put_accept | by split_and!; [apply lookup_insert_eq|..] |]. by exists w'.
  - destruct (sources w !! k) eqn:Ek; [done|]. destruct (typed_options o) eqn:Ho; [|done]. intros [= <-]. destruct (CreateAcceptSource_inv w k o I Ek (typed_options_range o Ho)) as (w' & r & -> & I'). by exists w'.
  - destruct (sources w !! k) as [s|] eqn:Ek; [|done]. destruct (nexts w !! a) eqn:Ea; [done|]. intros [= <-].
    assert ((forall j t, sources w !! j = Some t -> pending_next_ t <> Some a) /\ ~ (ResumeNext a ∈ work w)) as [Hp Hw]. { split; [intros j t Hj Hp; destruct (so_next _ _ _ (c_source _ C j t Hj) a Hp); congruence | intros Hw; destruct (c_work_next _ C a Hw) as (? & ? & _); congruence]. }
    destruct (accept_next_await_suspend_inv (put_next w a (new_next k)) k s a) as (w' & b & -> & I' & D & _); [by apply accept_inv_put_next | done | by split_and!; [apply lookup_insert_eq|..] |]. cbn [mbind outcome_bind]. destruct b; [by exists w'|].
    destruct (next_resume_inv w' a I' (D eq_refl)) as (w2 & r & -> & I2). by exists w2.
  - destruct (sources w !! k) as [s|] eqn:Ek; [|done]. intros [= <-]. destruct (accept_Stop_inv w k s I Ek) as (w' & -> & I' & _). by exists w'.
  - destruct (sources w !! k) as [s|] eqn:Ek; [|done]. destruct (sources w !! k') eqn:Ek'; [done|]. destruct (_ && _) eqn:Hb; [|done]. apply andb_true_iff in Hb as [H1%bool_decide_eq_true H2%negb_true_iff]. intros [= <-]. by apply (accept_move_inv w k k' s).
  - destruct (sources w !! k) as [s|] eqn:Ek; [|done]. destruct (_ && _) eqn:Hb; [|done]. apply andb_true_iff in Hb as [H1%bool_decide_eq_true H2]. intros [= <-]. apply (destroy_source_inv w k s); try done. intros Hl. rewrite Hl in H2. cbn in H2. apply bool_decide_eq_true in H2. unfold at_end, st_of. set_solver.
  - destruct (work w) as [|[a|a] rest] eqn:Ew; [done| |]; intros [= <-]; pose proof (c_work_nodup _ C) as Hnd; rewrite Ew in Hnd; apply NoDup_cons in Hnd as [Hni Hnd];
      (assert (inv (set_work w rest)) as I1; [apply (inv_same w); try done; [|by left]; apply (base_core_eq w); try done; destruct C; split; try done; cbn; [intros j t Hj; by destruct (c_source0 j t Hj); split | intros b Hb; apply c_work_accept0; rewrite Ew; by right | intros b Hb; apply c_work_next0; rewrite Ew; by right]|]).
    + destruct (c_work_accept _ C a) as (x & Hx & Hr); [rewrite Ew; by left|]. destruct (accept_resume_inv (set_work w rest) a I1) as (w' & r & -> & I'); [|by exists w']. split_and!; [eauto | done |]. intros Hp. destruct (c_pending _ C a Hp). by simplify_eq.
    + destruct (c_work_next _ C a) as (x & Hx & Hr); [rewrite Ew; by left|]. destruct (next_resume_inv (set_work w rest) a I1) as (w' & r & -> & I'); [|by exists w']. split_and!; [eauto | done |]. intros j t Hj Hp. destruct (so_next _ _ _ (c_source _ C j t Hj) a Hp). by simplify_eq.
  - intros [= <-]. eexists. split; [done|]. apply (inv_same w); try done; [by apply base_backlog | by left].
  - intros [= <-]. destruct (reading (lst w)); [|by exists w]. unfold HandleRead. destruct (pending_accept_ (lst w)) as [a|] eqn:Ep; [by eapply accept_OnReady_inv|]. destruct (accept_source_ (lst w)) as [k|] eqn:Ea; [by apply source_OnReady_inv | by exists w].
  - intros [= <-]. destruct (registered (lst w)); [|by exists w]. unfold HandleError. destruct (pending_accept_ (lst w)) as [a|] eqn:Ep.
    + destruct (CompleteAccept_base w (Err (EpollStream.ErrorFromSocketErrorEvent answer)) B) as (w' & -> & B' & Ep' & Es' & _ & Ec' & Eo' & Er'). exists w'. split; [done|]. apply (inv_same w); auto.
    + destruct (accept_source_ (lst w)) as [k|] eqn:Ea; [by apply source_OnError_inv | by exists w].
  - intros [= <-]. unfold Close, RequireOwnerLoop. rewrite (c_loop _ C), (c_here _ C). cbn [ALYRN_CHECK mbind outcome_bind]. destruct (CloseNow_inv w I) as (w' & -> & I' & _). by exists w'.
  - intros [= <-]. unfold DispatchLoopStop. destruct (CloseNow_inv (set_loop_state w UringLoop.kStopping)) as (w' & -> & I' & _); [|by exists w']. apply (inv_same w); try done; [|by left]. apply (base_core_eq w); try done. destruct C. split; try done. intros j t Hj. by destruct (c_source0 j t Hj); split.
Qed.

Lemma listener_reachable_inv tcp w : reachable tcp w -> inv w.
Proof.
  induction 1 as [|w c w' _ IH Hx]; [|by destruct (listener_exec_inv w c _ IH Hx) as (w2 & [= <-] & I)].
  split; [split; try done|..]; try done. split; try done; cbn; [set_solver | set_solver | apply NoDup_nil_2].
Qed.

(** ** Properties *)

(** C3. Over every script on a listener with any number of accept sources no check of the
    code fails and every call returns. Every accepted connection was handed out, is queued
    in the source that accepts for the listener, or was closed, and none is in two of these
    places; connections are handed out in the order in which they were accepted, across
    Accept and all sources; and an Accept and a source never accept at the same time. *)
Theorem epoll_listener_exact (tcp : Sockets.TcpOptions) (w : world) : reachable tcp w ->
  (forall c r, exec w c = Some r -> exists w', r = Val w') /\
  accepted w ≡ₚ delivered w ++ queue w ++ dropped w /\ sublist (delivered w ++ queue w) (accepted w) /\
  (forall k s, sources w !! k = Some s -> events_ s <> [] -> accept_source_ (lst w) = Some k /\ queue w = events_ s) /\
  (forall a, pending_accept_ (lst w) = Some a -> accept_source_ (lst w) = None).
Proof.
  intros Hw. pose proof (listener_reachable_inv tcp w Hw) as I. pose proof (b_core _ (i_base _ I)) as C. split_and!.
  - intros c r Hx. destruct (listener_exec_inv w c r I Hx) as (w' & -> & _). by exists w'.
  - apply C.
  - apply C.
  - intros k s. by apply core_events.
  - intros a Ha. by destruct (c_pending _ C a Ha).
Qed.

Fixpoint run (w : world) (cs : list action) : option world :=
  match cs with
  | [] => Some w
  | c :: cs => match exec w c with Some (Val w') => run w' cs | _ => None end
  end.

Definition no_options : Sockets.TcpOptions := Sockets.mkTcp None None None None None.
Definition nodelay : Sockets.TcpOptions := Sockets.mkTcp (Some true) None None None None.

(** The reached world of a script. *)
Definition after (tcp : Sockets.TcpOptions) (cs : list action) : world := default (initial tcp) (run (initial tcp) cs).

Lemma listener_after_reachable tcp cs : reachable tcp (after tcp cs).
Proof.
  unfold after. assert (forall w w', reachable tcp w -> run w cs = Some w' -> reachable tcp w') as H; [|destruct (run (initial tcp) cs) eqn:E; [by eapply H; [apply reach_initial|] | apply reach_initial]].
  induction cs as [|c cs IH]; intros w w' Hw; cbn; [by intros [= <-]|]. destruct (exec w c) as [[w1|]|] eqn:Hx; try done. intros Hr. eapply IH; [|exact Hr]. by eapply reach_step.
Qed.

Definition depth_two : AcceptSource.AcceptSourceOptions := AcceptSource.mkOptions 1 2 0.

Definition accept_script : list action :=
  [ACreate 1%nat depth_two; ANext 1%nat 1%nat; AArrive [inl (10, []); inl (11, [Some 92]); inl (12, []); inl (13, []); inl (14, [])]; AReady []; AResume; AReady []; ANext 1%nat 2%nat].

Lemma epoll_listener_exact_witness :
  let w := after nodelay accept_script in
  delivered w = [10; 12] /\ queue w = [13] /\ dropped w = [11] /\ accepted w ≡ₚ delivered w ++ queue w ++ dropped w.
Proof.
  intros w. split; [vm_compute; reflexivity|]. split; [vm_compute; reflexivity|]. split; [vm_compute; reflexivity|]. apply (epoll_listener_exact nodelay w). apply listener_after_reachable.
Defined.

(** C35. What waits is watched for. An Accept that is parked, and a Next that is parked,
    belong to a listener that is not closed and whose channel is registered for reading;
    the parked Next is that of the source that accepts for the listener, which is active
    with one request armed and an empty queue. Nothing is watched for otherwise; and once
    the listener is closed nothing is parked, the socket is closed and the channel gone. *)
Theorem epoll_listener_waits_are_watched (tcp : Sockets.TcpOptions) (w : world) : reachable tcp w ->
  (forall a, pending_accept_ (lst w) = Some a ->
     closed_ (lst w) = false /\ reading (lst w) = true /\ registered (lst w) = true /\ accepts w !! a = Some (mkAccept true SingleResultLifecycle.initial ValueResultState.kPending)) /\
  (forall k s a, sources w !! k = Some s -> pending_next_ s = Some a ->
     closed_ (lst w) = false /\ reading (lst w) = true /\ registered (lst w) = true /\ accept_source_ (lst w) = Some k /\ m_st (state_ s) = kActive /\ m_a (state_ s) = 1 /\ events_ s = [] /\
     nexts w !! a = Some (mkNext k true CompletionGate.initial ValueResultState.kPending)) /\
  (reading (lst w) = true -> pending_accept_ (lst w) <> None \/ exists k s, accept_source_ (lst w) = Some k /\ sources w !! k = Some s /\ m_st (state_ s) = kActive) /\
  (closed_ (lst w) = true -> open (lst w) = false /\ registered (lst w) = false /\ pending_accept_ (lst w) = None /\ forall k s, sources w !! k = Some s -> pending_next_ s = None).
Proof.
  intros Hw. pose proof (listener_reachable_inv tcp w Hw) as I. pose proof I as [B N Z]. pose proof (b_core _ B) as C.
  assert (forall k s a, sources w !! k = Some s -> pending_next_ s = Some a -> listener_ s = true /\ accept_source_ (lst w) = Some k /\ st_of s = kActive /\ events_ s = [] /\ closed_ (lst w) = false) as K.
  { intros k s a Hs Hp. pose proof (c_source _ C k s Hs) as So. destruct (N k s a Hs Hp) as [He Ht]. destruct (so_next _ _ _ So a Hp) as [_ Hi]. assert (listener_ s = true) as Hl by (destruct (listener_ s) eqn:Hl; [done|]; destruct (so_moved _ _ _ So Hl); congruence).
    assert (st_of s = kActive) as E. { destruct (mok_state _ (so_machine _ _ _ So Hl)) as [H|[H|[H|[H|H]]]]; try done; [by destruct (so_paused _ _ _ So Hl H)|]. pose proof (AcceptSource.inv_state _ (mok_inv _ (so_machine _ _ _ So Hl))) as Hco. rewrite H in Hco. destruct Hco as [_ Hq]. by rewrite (so_queue _ _ _ So Hl), He in Hq. }
    split_and!; try done; [by apply (core_active w k s)|]. destruct (closed_ (lst w)) eqn:Hc; [|done]. destruct (Z Hc) as (_ & _ & _ & Z4). by destruct (active_not_end s E (Z4 k s Hs Hl)). }
  split_and!.
  - intros a Ha. destruct (c_pending _ C a Ha) as [_ Hx]. pose proof (b_reading _ B) as Hr. rewrite Ha in Hr. split_and!; try done; [|by apply (b_registered _ B)]. destruct (closed_ (lst w)) eqn:Hc; [|done]. destruct (Z Hc). congruence.
  - intros k s a Hs Hp. destruct (K k s a Hs Hp) as (Hl & Ha & E & He & Hc). pose proof (c_source _ C k s Hs) as So. pose proof (so_machine _ _ _ So Hl) as M. pose proof (mok_bounds _ M) as (Hq & Hab & _ & Hcap & _).
    assert (m_a (state_ s) <> 0) as Hz. { intros Hz. pose proof (b_admitted _ B k s Hs Hl E Hz) as Hf. rewrite (so_queue _ _ _ So Hl), He in Hf. cbn in Hf. lia. }
    assert (reading (lst w) = true) as Hr by (rewrite (base_reading w k s B Ha Hs), (proj2 (Z.eqb_neq _ _) Hz); done). split_and!; try done; [by apply (b_registered _ B) | lia | by apply (so_next _ _ _ So)].
  - intros Hr. rewrite (b_reading _ B) in Hr. destruct (pending_accept_ (lst w)) as [a|]; [by left|]. right. unfold source_armed in Hr. destruct (accept_source_ (lst w)) as [k|] eqn:Ha; [|done]. destruct (c_reserved _ C k Ha) as (s & Hs & Hl & _). rewrite Hs in Hr. exists k, s. split_and!; try done.
    destruct (decide (m_st (state_ s) = kActive)) as [E|E]; [done|]. by rewrite (mok_unarmed _ (so_machine _ _ _ (c_source _ C k s Hs) Hl) E) in Hr.
  - intros Hc. destruct (Z Hc) as (Z1 & Z2 & Z3 & Z4). split_and!; try done. intros k s Hs. destruct (pending_next_ s) as [a|] eqn:Hp; [|done]. destruct (K k s a Hs Hp) as (_ & _ & _ & _ & Hf). congruence.
Qed.

Lemma epoll_listener_waits_are_watched_witness :
  let w := after no_options [ACreate 1%nat depth_two; ANext 1%nat 1%nat; AArrive [inr 11]; AReady []] in
  reading (lst w) = true /\ exists s, sources w !! 1%nat = Some s /\ pending_next_ s = Some 1%nat /\ m_a (state_ s) = 1.
Proof.
  intros w. split; [vm_compute; reflexivity|]. eexists. split; [vm_compute; reflexivity|]. split; [vm_compute; reflexivity|].
  eapply (epoll_listener_waits_are_watched no_options w (listener_after_reachable _ _)) with (k := 1%nat) (a := 1%nat); vm_compute; reflexivity.
Defined.

(** ** An exhausted descriptor table *)

Lemma transient_is_fatal e : Sockets.IsTransientAcceptResourceError e = true -> (e =? EpollStream.EINTR) = false /\ EpollStream.IsWouldBlock e = false /\ Sockets.IsAcceptedConnectionError e = false.
Proof.
  unfold Sockets.IsTransientAcceptResourceError. intros H%bool_decide_eq_true. repeat (apply elem_of_cons in H as [->|H]; [by vm_compute|]). by apply elem_of_nil in H.
Qed.

Lemma stop_drained o : AcceptSource.RequestStop (AcceptSource.mk o kActive 0 0) = AcceptSource.mk o kTerminal 0 0.
Proof. reflexivity. Qed.

(** C36. A shortage of descriptors or of memory when accepting, which the classification of
    errors calls transient and not to be treated as terminal, ends an accept source: a
    parked Next gets the error, the source is terminal and the listener watches its socket
    no more, although the connection is still in the backlog of the socket. *)
Theorem epoll_accept_source_ends_on_shortage (tcp : Sockets.TcpOptions) (w : world) (k a : nat) (s : source) (e : Z) (rest : list accept_answer) (rooms : list bool) :
  reachable tcp w -> sources w !! k = Some s -> pending_next_ s = Some a -> terminal_error_ s = None -> backlog w = inr e :: rest -> Sockets.IsTransientAcceptResourceError e = true ->
  exists w' s', exec w (AReady rooms) = Some (Val w') /\ sources w' !! k = Some s' /\ m_st (state_ s') = kTerminal /\ terminal_error_ s' = Some (Errno e) /\ pending_next_ s' = None /\
    (exists n, nexts w' !! a = Some n /\ exists cell, ValueResultState.Take (n_result n) = Val (Err (Errno e), cell)) /\ reading (lst w') = false /\ closed_ (lst w') = false /\ backlog w' = rest.
Proof.
  intros Hw Hs Hp Hte Hb He. pose proof (listener_reachable_inv tcp w Hw) as I. pose proof I as [B N Z]. pose proof (b_core _ B) as C. destruct (transient_is_fatal e He) as (E1 & E2 & E3).
  pose proof (c_source _ C k s Hs) as So. destruct (N k s a Hs Hp) as [Hev Ht]. destruct (so_next _ _ _ So a Hp) as [Hn Hi]. assert (listener_ s = true) as Hl by (destruct (listener_ s) eqn:Hl; [done|]; destruct (so_moved _ _ _ So Hl); congruence).
  pose proof (so_machine _ _ _ So Hl) as M. pose proof (so_queue _ _ _ So Hl) as Q. rewrite Hev in Q. cbn in Q. assert (accept_source_ (lst w) = Some k) as Ha by (by apply (core_active w k s)).
  assert (st_of s = kActive) as E. { destruct (mok_state _ M) as [H|[H|[H|[H|H]]]]; try done; [by destruct (so_paused _ _ _ So Hl H)|]. pose proof (AcceptSource.inv_state _ (mok_inv _ M)) as Hco. rewrite H in Hco. cbn in Hco; lia. }
  assert (m_a (state_ s) <> 0) as Hz. { intros Hz. pose proof (b_admitted _ B k s Hs Hl E Hz) as Hf. pose proof (mok_bounds _ M). lia. }
  assert (reading (lst w) = true) as Hr by (rewrite (base_reading w k s B Ha Hs), (proj2 (Z.eqb_neq _ _) Hz); done). assert (pending_accept_ (lst w) = None) as Hpa by (destruct (pending_accept_ (lst w)) as [b|] eqn:Hpa; [destruct (c_pending _ C b Hpa); congruence|done]).
  assert (closed_ (lst w) = false) as Hc. { destruct (closed_ (lst w)) eqn:Hc; [|done]. destruct (Z Hc) as (_ & _ & _ & Z4). by destruct (active_not_end s E (Z4 k s Hs Hl)). }
  cbn [exec]. rewrite Hr. unfold HandleRead. rewrite Hpa, Ha. unfold source_OnReady, get. rewrite Hs. cbn [mbind outcome_bind]. fold (st_of s). rewrite E, bool_decide_eq_true_2 by done. rewrite (proj2 (Z.eqb_neq _ _) Hz). cbn [negb]. replace (set_state s (state_ s)) with s by (by destruct s). rewrite put_same by done.
  generalize (S (length (backlog w))). intros fuel. cbn [ready_loop]. unfold get at 1. rewrite Hs. cbn [mbind outcome_bind]. fold (st_of s). rewrite E, bool_decide_eq_true_2, (proj2 (Z.eqb_neq _ _) Hz) by done. cbn [negb orb].
  unfold ready_step, source_TryAccept, try_accept. rewrite Hb. cbn [accept_loop]. rewrite E1. unfold finish_request, get. cbn [sources set_backlog]. rewrite Hs. cbn [mbind outcome_bind]. rewrite (finish_active _ M E Hz). cbn [ALYRN_CHECK mbind outcome_bind]. cbn [err_value Errno]. rewrite E2, E3.
  unfold Fail, get. cbn [sources set_backlog put_source set_sources]. rewrite lookup_insert_eq. cbn [mbind outcome_bind]. cbn [terminal_error_ set_state]. rewrite Hte. unfold DisableReading. cbn [lst put_source set_sources set_backlog reading]. rewrite Hr.
  change (Z.of_nat 0) with 0 in Q. rewrite Q. cbn [state_ set_state set_error]. rewrite stop_drained. unfold DeliverNextIfReady, TryTakeNext, ReleaseListenerReservation, get. cbn. rewrite !lookup_insert_eq. cbn.
  rewrite Hp, Hev. cbn. rewrite Hl. cbn. rewrite Ha, (bool_decide_eq_true_2 (Some k = Some k)), (bool_decide_eq_true_2 (kTerminal = kTerminal)) by done. cbn.
  rewrite !lookup_insert_eq. cbn. unfold next_Complete, get. cbn. rewrite Hn. cbn. eexists _, _. split; [reflexivity|]. cbn. rewrite !lookup_insert_eq. split_and!; try done. eexists. split; [done|]. by eexists.
Qed.

Lemma epoll_accept_source_ends_on_shortage_witness :
  let w := after no_options [ACreate 1%nat depth_two; ANext 1%nat 1%nat; AArrive [inr 24; inl (10, [])]] in
  exists w' s', exec w (AReady []) = Some (Val w') /\ sources w' !! 1%nat = Some s' /\ m_st (state_ s') = kTerminal /\ terminal_error_ s' = Some (Errno 24) /\ backlog w' = [inl (10, [])].
Proof.
  intros w. edestruct (epoll_accept_source_ends_on_shortage no_options w 1%nat 1%nat) as (w' & s' & H1 & H2 & H3 & H4 & _ & _ & _ & _ & H5);
    [apply listener_after_reachable | vm_compute; reflexivity | vm_compute; reflexivity | vm_compute; reflexivity | vm_compute; reflexivity | vm_compute; reflexivity |]. exists w', s'. split; [exact H1|]. split; [exact H2|]. split; [exact H3|]. split; [exact H4|]. exact H5.
Defined.

(** ** Moving a listener *)

(** A listener is moved while an idle source still points to it: the source follows the
    loop pointer of what is left of it. *)
Theorem epoll_listener_move_strands_idle_source (tcp : Sockets.TcpOptions) (w : world) (k a : nat) (s : source) (l left_over : listener) :
  reachable tcp w -> sources w !! k = Some s -> listener_ s = true -> move_listener (lst w) true = Val (l, left_over) ->
  open l = open (lst w) /\ participant l = true /\ next_await_suspend (set_lst (put_next w a (new_next k)) left_over) k a = Panic.
Proof.
  intros Hw Hs Hl Hm. unfold move_listener in Hm. destruct (loop_ (lst w)), (bool_decide (pending_accept_ (lst w) = None)), (bool_decide (accept_source_ (lst w) = None)); try done. cbn in Hm. injection Hm as <- <-. split_and!; try done.
  unfold next_await_suspend, get. cbn. rewrite Hs. cbn. by rewrite Hl.
Qed.

End EpollListenerProps.
