(* ===== verification/ProvidedBuffers.v ===== *)
(** * Provided buffers (include/alyrn/uring/detail/provided_buffer_storage.h, provided_buffer_pool.h)

    The mapping that holds the payloads, the ring through which the loop offers slots of
    it to the kernel, and the pool that tracks which slots a source has borrowed. The ring
    belongs to liburing and the kernel: it is an interface with their documented laws.
    What mmap and the registration of the ring answer are inputs. *)

From S2P Require Import Prelude.

Module ProvidedBuffers.

(** ** Storage *)

Record storage := mkStorage { mapped_ : option Z; s_capacity_ : Z; s_buffer_size_ : Z; size_bytes_ : Z }.

Definition empty_storage : storage := mkStorage None 0 0 0.

Definition storage_Create (capacity buffer_size : Z) (mapped : Z + Z) : ResultE storage :=
  if (capacity =? 0) || (buffer_size =? 0) then Err (Errno EINVAL)
  else if size_max / buffer_size <? capacity then Err (Errno EOVERFLOW)
  else match mapped with
  | inr errno => Err (Errno errno)
  | inl base => Ok (mkStorage (Some base) capacity buffer_size (usize (capacity * buffer_size)))
  end.

(** slot; [None] is the null pointer. *)
Definition storage_slot (s : storage) (buffer_id : Z) : option Z :=
  if s_capacity_ s <=? buffer_id then None else Some (default 0 (mapped_ s) + buffer_id * s_buffer_size_ s).

(** Release: what is left, and what munmap is given. *)
Definition storage_Release (s : storage) : storage * option (Z * Z) :=
  (empty_storage, match mapped_ s with Some base => Some (base, size_bytes_ s) | None => None end).

(** ** The ring

    liburing and the kernel implement it. The loop adds entries at offsets from its end and
    then makes them visible; the kernel takes entries at its head. *)

Record entry := mkEntry { e_addr : option Z; e_len : Z; e_bid : Z }.

Class BufRing := {
  buf_ring : Type;
  io_uring_buf_ring_init : buf_ring;
  io_uring_buf_ring_mask : Z -> Z;
  io_uring_buf_ring_add : buf_ring -> entry -> Z -> Z -> buf_ring;      (* entry, mask, offset *)
  io_uring_buf_ring_advance : buf_ring -> Z -> buf_ring;
  kernel_select : buf_ring -> Z -> option (entry * buf_ring);           (* of a ring of so many entries *)
}.

(** What io_uring_buf_ring_add(3), io_uring_buf_ring_advance(3) and
    io_uring_register_buf_ring(3) say of a ring of [entries] entries: which entries the
    kernel sees, oldest first, and which have been added at an offset but not yet made
    visible. *)
Class BufRingLaws (R : BufRing) (entries : Z) := {
  ring_view : buf_ring -> list entry -> gmap Z entry -> Prop;
  view_init : ring_view io_uring_buf_ring_init [] ∅;
  view_add r visible staged e offset : ring_view r visible staged -> 0 <= offset -> Z.of_nat (length visible) + offset < entries ->
    ring_view (io_uring_buf_ring_add r e (io_uring_buf_ring_mask entries) offset) visible (<[offset := e]> staged);
  view_advance r visible staged new : ring_view r visible staged -> (forall i e, new !! i = Some e -> staged !! Z.of_nat i = Some e) ->
    Z.of_nat (length visible + length new) <= entries -> ring_view (io_uring_buf_ring_advance r (Z.of_nat (length new))) (visible ++ new) ∅;
  view_select r visible staged : ring_view r visible staged ->
    match visible with
    | [] => kernel_select r entries = None
    | e :: rest => exists r', kernel_select r entries = Some (e, r') /\ ring_view r' rest staged
    end;
}.

Definition u16 (z : Z) : Z := z mod 2 ^ 16.

Section pool.
Context {R : BufRing}.

(** ** The pool *)

Record pool := mkPool {
  ring_ : bool;                               (* ring_ != nullptr *)
  buffer_ring_ : option buf_ring;
  buffer_group_ : Z;
  capacity_ : Z;
  published_capacity_ : Z;
  buffer_size_ : Z;
  mask_ : Z;
  storage_ : storage;
  in_use_ : list bool;
}.

Definition empty_pool : pool := mkPool false None 0 0 0 0 0 empty_storage [].

(** The loops that add slots [first], [first + 1], ... at offsets 0, 1, ... *)
Definition add_slot (s : storage) (size mask first : Z) (r : buf_ring) (offset : Z) : buf_ring :=
  io_uring_buf_ring_add r (mkEntry (storage_slot s (first + offset)) size (u16 (first + offset))) mask offset.
Definition add_slots (s : storage) (size mask first count : Z) (r : buf_ring) : buf_ring := foldl (add_slot s size mask first) r (seqZ 0 count).

Definition uint32_max : Z := 2 ^ 32 - 1.

(** Create; [setup] is the error of the registration of the ring, [room] whether the
    table of borrowed slots finds memory. *)
Definition Create (ring : bool) (buffer_group capacity buffer_size initial_capacity : Z) (mapped : Z + Z) (setup : option Z) (room : bool) : ResultE pool :=
  if negb ring || (capacity =? 0) || (32 * 1024 <? capacity) || negb (Z.land capacity (capacity - 1) =? 0) || (buffer_size =? 0) ||
     (uint32_max <? buffer_size) || (initial_capacity =? 0) || (capacity <? initial_capacity)
  then Err (Errno EINVAL)
  else match storage_Create capacity buffer_size mapped with
  | Err e => Err e
  | Ok storage =>
      match setup with
      | Some setup_error => Err (if setup_error <? 0 then NegErrno setup_error else Errno (if setup_error =? 0 then EIO else setup_error))
      | None =>
          if negb room then Err (Errno ENOMEM)
          else
            let mask := io_uring_buf_ring_mask capacity in
            let r := add_slots storage buffer_size mask 0 initial_capacity io_uring_buf_ring_init in
            Ok (mkPool true (Some (io_uring_buf_ring_advance r initial_capacity)) buffer_group capacity initial_capacity buffer_size mask storage
                  (replicate (Z.to_nat capacity) false))
      end
  end.

Definition set_ring (p : pool) (r : buf_ring) (published : Z) (used : list bool) : pool :=
  mkPool (ring_ p) (Some r) (buffer_group_ p) (capacity_ p) published (buffer_size_ p) (mask_ p) (storage_ p) used.

Definition EnsurePublished (p : pool) (additional : Z) : outcome pool :=
  if (additional =? 0) || (published_capacity_ p =? capacity_ p) then Val p
  else match buffer_ring_ p with
  | None => Panic
  | Some r =>
      let available := usize (capacity_ p - published_capacity_ p) in
      let count := if additional <? available then additional else available in
      let r := add_slots (storage_ p) (buffer_size_ p) (mask_ p) (published_capacity_ p) count r in
      Val (set_ring p (io_uring_buf_ring_advance r count) (usize (published_capacity_ p + count)) (in_use_ p))
  end.

Definition slot (p : pool) (buffer_id : Z) : option Z := if buffer_id <? capacity_ p then storage_slot (storage_ p) buffer_id else None.

Definition used_at (p : pool) (buffer_id : Z) : bool := default false (in_use_ p !! Z.to_nat buffer_id).

Definition Acquire (p : pool) (buffer_id : Z) : pool * bool :=
  if (Z.of_nat (length (in_use_ p)) <=? buffer_id) || used_at p buffer_id then (p, false)
  else (mkPool (ring_ p) (buffer_ring_ p) (buffer_group_ p) (capacity_ p) (published_capacity_ p) (buffer_size_ p) (mask_ p) (storage_ p) (<[Z.to_nat buffer_id := true]> (in_use_ p)), true).

Definition Return (p : pool) (buffer_id : Z) : pool * bool :=
  match buffer_ring_ p with
  | None => (p, false)
  | Some r =>
      if (Z.of_nat (length (in_use_ p)) <=? buffer_id) || negb (used_at p buffer_id) then (p, false)
      else
        let r := io_uring_buf_ring_add r (mkEntry (storage_slot (storage_ p) buffer_id) (buffer_size_ p) (u16 buffer_id)) (mask_ p) 0 in
        (set_ring p (io_uring_buf_ring_advance r 1) (published_capacity_ p) (<[Z.to_nat buffer_id := false]> (in_use_ p)), true)
  end.

(** Release and the destructor: is the ring unregistered, and what is left. The storage is
    released by its own destructor. *)
Definition Release (p : pool) : bool * pool :=
  (ring_ p && bool_decide (is_Some (buffer_ring_ p)), mkPool false None 0 0 0 0 0 (storage_ p) []).

(** The move constructor: the new pool and what is left of the other one. *)
Definition move_pool (other : pool) : pool * pool :=
  (other, empty_pool).

(** ** The loop's shared pool (src/uring/loop.cc) *)

Record shared := mkShared { shared_buffer_pool_ : option pool; shared_buffer_capacity_ : Z; shared_buffer_size_ : Z; next_buffer_group_id_ : Z }.

Definition uint16_max : Z := 2 ^ 16 - 1.

Definition AllocateBufferGroupId (s : shared) : shared * ResultE Z :=
  if uint16_max <? next_buffer_group_id_ s then (s, Err (Errno EOVERFLOW))
  else (mkShared (shared_buffer_pool_ s) (shared_buffer_capacity_ s) (shared_buffer_size_ s) (next_buffer_group_id_ s + 1), Ok (next_buffer_group_id_ s)).

Definition set_pool (s : shared) (p : pool) : shared := mkShared (Some p) (shared_buffer_capacity_ s) (shared_buffer_size_ s) (next_buffer_group_id_ s).

(** [room] and [room'] are whether the pool's table and the pool itself find memory. *)
Definition GetSharedProvidedBufferPool (s : shared) (here : bool) (buffer_size source_capacity : Z) (mapped : Z + Z) (setup : option Z) (room room' : bool) : outcome (shared * ResultE pool) :=
  ALYRN_CHECK here;;
  if shared_buffer_capacity_ s =? 0 then Val (s, Err (Errno ENOENT))
  else if (source_capacity =? 0) || (shared_buffer_capacity_ s <? source_capacity) then Val (s, Err (Errno EINVAL))
  else if negb (buffer_size =? shared_buffer_size_ s) then Val (s, Err (Errno EINVAL))
  else match shared_buffer_pool_ s with
  | Some p => p ← EnsurePublished p source_capacity; Val (set_pool s p, Ok p)
  | None =>
      let '(s, group) := AllocateBufferGroupId s in
      match group with
      | Err e => Val (s, Err e)
      | Ok group =>
          match Create true group (shared_buffer_capacity_ s) (shared_buffer_size_ s) source_capacity mapped setup room with
          | Err e => Val (s, Err e)
          | Ok p => if room' then Val (set_pool s p, Ok p) else Val (s, Err (Errno ENOMEM))
          end
      end
  end.

(** ** The pool with the kernel and its borrowers *)

(** [selected]: buffers the kernel has filled and reported, not yet borrowed. *)
Record world := mkWorld { pl : pool; selected : list Z }.

Inductive action :=
| AEnsure (additional : Z)                    (* another source is created *)
| ASelect                                     (* the kernel fills a buffer *)
| AAcquire (buffer_id : Z)                    (* a source borrows a reported buffer *)
| AReturn (buffer_id : Z).                    (* a source gives a borrowed buffer back *)

Definition with_ring (p : pool) (r : buf_ring) : pool := set_ring p r (published_capacity_ p) (in_use_ p).

(** [None]: not possible in this state. *)
Definition exec (w : world) (c : action) : option (outcome world) :=
  match c with
  | AEnsure additional => if 0 <=? additional then Some (p ← EnsurePublished (pl w) additional; Val (mkWorld p (selected w))) else None
  | ASelect =>
      match buffer_ring_ (pl w) with
      | None => None
      | Some r =>
          match kernel_select r (capacity_ (pl w)) with
          | None => None
          | Some (e, r) => Some (Val (mkWorld (with_ring (pl w) r) (selected w ++ [e_bid e])))
          end
      end
  | AAcquire id =>
      if bool_decide (id ∈ selected w) then
        let '(p, acquired) := Acquire (pl w) id in
        Some (ALYRN_CHECK acquired;; Val (mkWorld p (list_difference (selected w) [id])))
      else None
  | AReturn id =>
      if (0 <=? id) && used_at (pl w) id then let '(p, returned) := Return (pl w) id in Some (ALYRN_CHECK returned;; Val (mkWorld p (selected w))) else None
  end.

Inductive reachable (p : pool) : world -> Prop :=
| reach_initial : reachable p (mkWorld p [])
| reach_step w c w' : reachable p w -> exec w c = Some (Val w') -> reachable p w'.

(** The slots a source has borrowed. *)
Definition borrowed (p : pool) : list Z := filter (fun id => used_at p id = true) (seqZ 0 (capacity_ p)).

(** The entry of a slot. *)
Definition entry_of (p : pool) (id : Z) : entry := mkEntry (storage_slot (storage_ p) id) (buffer_size_ p) id.

End pool.

End ProvidedBuffers.
