(* ===== verification/ProvidedBuffersProps.v ===== *)
(** * Provided buffers: the ring never loses or repeats a slot

    Over any ring that keeps the laws of the interface, every published slot is in the
    ring, filled and reported by the kernel, or borrowed, and in one of these places only.
    The second part shows that the laws can be kept: an array indexed by the low bits of
    two 16-bit counters, which is the layout of the kernel, satisfies them. *)

From S2P Require Import Prelude ProvidedBuffers.

Module ProvidedBuffersProps.
Import ProvidedBuffers.

(** ** The invariant *)

Section pool.
Context {R : BufRing} (capacity base : Z) {L : BufRingLaws R capacity} (Hcap : 0 < capacity <= 32768).

Record inv (w : world) (r : buf_ring) (ids : list Z) : Prop := {
  v_ring : buffer_ring_ (pl w) = Some r;
  v_capacity : capacity_ (pl w) = capacity;
  v_mask : mask_ (pl w) = io_uring_buf_ring_mask capacity;
  v_published : 0 <= published_capacity_ (pl w) <= capacity;
  v_table : length (in_use_ (pl w)) = Z.to_nat capacity;
  v_storage : mapped_ (storage_ (pl w)) = Some base /\ s_capacity_ (storage_ (pl w)) = capacity /\ s_buffer_size_ (storage_ (pl w)) = buffer_size_ (pl w) /\
    0 < buffer_size_ (pl w) /\ size_bytes_ (storage_ (pl w)) = capacity * buffer_size_ (pl w);
  v_view : ring_view r (entry_of (pl w) <$> ids) ∅;
  v_places : ids ++ selected w ++ borrowed (pl w) ≡ₚ seqZ 0 (published_capacity_ (pl w));
}.

Definition new_entry (s : storage) (size first j : Z) : entry := mkEntry (storage_slot s (first + j)) size (u16 (first + j)).

Lemma add_slots_view s size first (n : nat) r visible : ring_view r visible ∅ -> Z.of_nat (length visible + n) <= capacity ->
  exists staged, ring_view (add_slots s size (io_uring_buf_ring_mask capacity) first (Z.of_nat n) r) visible staged /\ forall j, 0 <= j < Z.of_nat n -> staged !! j = Some (new_entry s size first j).
Proof.
  intros V. induction n as [|n IH]; intros Hn; [exists ∅; split; [done | lia]|]. destruct IH as (staged & V' & Hs); [lia|]. unfold add_slots in *. rewrite Nat2Z.inj_succ, <- Z.add_1_r, seqZ_app, foldl_app by lia. change (seqZ (0 + Z.of_nat n) 1) with [0 + Z.of_nat n]. cbn [foldl]. rewrite Z.add_0_l.
  exists (<[Z.of_nat n := new_entry s size first (Z.of_nat n)]> staged). split; [apply view_add; [done | lia | lia]|]. intros j Hj. destruct (decide (j = Z.of_nat n)) as [->|Hne]; [by rewrite lookup_insert_eq|]. rewrite lookup_insert_ne by done. apply Hs. lia.
Qed.

(** Adding slots and making them visible. *)
Lemma publish_view s size first n r visible : 0 <= n -> ring_view r visible ∅ -> Z.of_nat (length visible) + n <= capacity ->
  ring_view (io_uring_buf_ring_advance (add_slots s size (io_uring_buf_ring_mask capacity) first n r) n) (visible ++ (new_entry s size first <$> seqZ 0 n)) ∅.
Proof.
  intros H0 V Hn. destruct (add_slots_view s size first (Z.to_nat n) r visible V) as (staged & V' & Hs); [lia|]. rewrite Z2Nat.id in * by lia. set (new := new_entry s size first <$> seqZ 0 n). assert (Z.of_nat (length new) = n) as El by (unfold new; rewrite length_fmap, length_seqZ; lia).
  rewrite <- El at 2. apply (view_advance _ _ staged new V'); [|lia]. intros i e He. unfold new in He. rewrite list_lookup_fmap, fmap_Some in He. destruct He as (j & Hj & ->). apply lookup_seqZ in Hj as [-> Hi]. rewrite Z.add_0_l. apply Hs. lia.
Qed.

Lemma borrowed_mark p q id : capacity_ q = capacity_ p -> 0 <= id < capacity_ p -> used_at p id = false -> used_at q id = true ->
  (forall i, 0 <= i -> i <> id -> used_at q i = used_at p i) -> borrowed q ≡ₚ id :: borrowed p.
Proof.
  intros Hc Hid H0 H1 He. apply NoDup_Permutation.
  - apply NoDup_filter, NoDup_seqZ.
  - apply NoDup_cons. split; [|apply NoDup_filter, NoDup_seqZ]. unfold borrowed. rewrite list_elem_of_filter. intros [? _]. congruence.
  - intros i. unfold borrowed. rewrite elem_of_cons, !list_elem_of_filter, !elem_of_seqZ, Hc. destruct (decide (i = id)) as [->|Hne]; [split; [by left|]; intros _; split; [done|lia]|].
    split; [intros [Hu Hi]; right; split; [|done]; by rewrite <- (He i) by (done || lia) | intros [?|[Hu Hi]]; [done|]; split; [|done]; by rewrite (He i) by (done || lia)].
Qed.

Lemma used_at_insert p q id b : in_use_ q = <[Z.to_nat id := b]> (in_use_ p) -> 0 <= id -> (Z.to_nat id < length (in_use_ p))%nat ->
  used_at q id = b /\ forall i, 0 <= i -> i <> id -> used_at q i = used_at p i.
Proof.
  intros E H0 Hl. unfold used_at. rewrite E. split; [by rewrite list_lookup_insert_eq|]. intros i Hi Hne. rewrite list_lookup_insert_ne; [done|]. lia.
Qed.

Lemma difference_one (l : list Z) id : NoDup l -> id ∈ l -> l ≡ₚ id :: list_difference l [id].
Proof.
  intros Hn Hi. apply NoDup_Permutation; [done| |].
  - apply NoDup_cons. split; [rewrite list_elem_of_difference; set_solver | by apply NoDup_list_difference].
  - intros x. rewrite elem_of_cons, list_elem_of_difference. destruct (decide (x = id)) as [->|]; set_solver.
Qed.

Lemma ids_count w r ids : inv w r ids -> Z.of_nat (length ids) + Z.of_nat (length (selected w)) + Z.of_nat (length (borrowed (pl w))) = published_capacity_ (pl w).
Proof.
  intros V. pose proof (Permutation_length (v_places _ _ _ V)) as Hp. rewrite !length_app, length_seqZ in Hp. pose proof (v_published _ _ _ V). lia.
Qed.

Lemma places_nodup w r ids : inv w r ids -> NoDup (ids ++ selected w ++ borrowed (pl w)).
Proof. intros V. rewrite (v_places _ _ _ V). apply NoDup_seqZ. Qed.

Lemma new_entry_of p first j : 0 <= first + j < capacity -> new_entry (storage_ p) (buffer_size_ p) first j = entry_of p (first + j).
Proof. intros H. unfold new_entry, entry_of. f_equal. unfold u16. apply Z.mod_small. lia. Qed.

Lemma ensure_inv w r ids additional : inv w r ids -> 0 <= additional ->
  exists p r' ids', EnsurePublished (pl w) additional = Val p /\ inv (mkWorld p (selected w)) r' ids'.
Proof.
  intros V Ha. pose proof (v_published _ _ _ V) as Hp. unfold EnsurePublished. destruct (Z.eqb_spec additional 0) as [|H0]; cbn [orb]; [exists (pl w), r, ids; split; [done|]; by destruct V|].
  destruct (Z.eqb_spec (published_capacity_ (pl w)) (capacity_ (pl w))) as [|Hne]; [exists (pl w), r, ids; split; [done|]; by destruct V|].
  rewrite (v_ring _ _ _ V). rewrite (v_capacity _ _ _ V) in *. rewrite (usize_small (capacity - _)) by (unfold is_usize, size_max; lia).
  set (n := if additional <? capacity - published_capacity_ (pl w) then additional else capacity - published_capacity_ (pl w)).
  assert (0 < n <= capacity - published_capacity_ (pl w)) as Hn by (unfold n; destruct (Z.ltb_spec additional (capacity - published_capacity_ (pl w))); lia). rewrite usize_small by (unfold is_usize, size_max; lia).
  pose proof (ids_count w r ids V) as El. rewrite (v_mask _ _ _ V). pose proof (publish_view (storage_ (pl w)) (buffer_size_ (pl w)) (published_capacity_ (pl w)) n r _ ltac:(lia) (v_view _ _ _ V)) as Hv. rewrite length_fmap in Hv. specialize (Hv ltac:(lia)).
  eexists _, _, (ids ++ seqZ (published_capacity_ (pl w)) n). split; [done|]. destruct V. split; try done; cbn.
  - lia.
  - match goal with |- ring_view ?r ?l _ => replace l with ((entry_of (pl w) <$> ids) ++ (new_entry (storage_ (pl w)) (buffer_size_ (pl w)) (published_capacity_ (pl w)) <$> seqZ 0 n)); [done|] end.
    rewrite fmap_app. f_equal. replace (seqZ (published_capacity_ (pl w)) n) with (seqZ (published_capacity_ (pl w) + 0) n) by (f_equal; lia). rewrite <- fmap_add_seqZ, <- list_fmap_compose. apply list_fmap_ext. intros i j Hj. apply list_elem_of_lookup_2, elem_of_seqZ in Hj. cbn. by rewrite new_entry_of by lia.
  - change (borrowed (set_ring _ _ _ _)) with (borrowed (pl w)). rewrite seqZ_app by lia. rewrite Z.add_0_l, <- v_places0, <- !app_assoc. apply Permutation_app_head. rewrite (app_assoc (selected w)). apply Permutation_app_comm.
Qed.

Lemma select_inv w r ids : inv w r ids ->
  match ids with
  | [] => kernel_select r (capacity_ (pl w)) = None
  | id :: ids' => exists r', kernel_select r (capacity_ (pl w)) = Some (entry_of (pl w) id, r') /\ inv (mkWorld (with_ring (pl w) r') (selected w ++ [id])) r' ids'
  end.
Proof.
  intros V. pose proof (view_select _ _ _ (v_view _ _ _ V)) as Hs. rewrite (v_capacity _ _ _ V). destruct ids as [|id ids']; [done|]. destruct Hs as (r' & Hr & Hv). exists r'. split; [done|]. destruct V. split; try done. cbn.
  change (borrowed (with_ring _ _)) with (borrowed (pl w)). rewrite <- v_places0. cbn. rewrite <- app_assoc. cbn. by rewrite !Permutation_middle.
Qed.

Lemma acquire_inv w r ids id : inv w r ids -> id ∈ selected w ->
  exists p, Acquire (pl w) id = (p, true) /\ inv (mkWorld p (list_difference (selected w) [id])) r ids.
Proof.
  intros V Hid. pose proof (places_nodup w r ids V) as Hn. assert (0 <= id < published_capacity_ (pl w)) as Hr. { assert (id ∈ seqZ 0 (published_capacity_ (pl w))) as H; [|apply elem_of_seqZ in H; lia]. rewrite <- (v_places _ _ _ V). set_solver. }
  pose proof (v_published _ _ _ V) as Hp. pose proof (v_capacity _ _ _ V) as Hc. assert (used_at (pl w) id = false) as Hu.
  { destruct (used_at (pl w) id) eqn:Hu; [|done]. exfalso. apply NoDup_app in Hn as (_ & _ & Hn). apply NoDup_app in Hn as (_ & Hn & _). apply (Hn id Hid). unfold borrowed. rewrite list_elem_of_filter, elem_of_seqZ. split; [done|lia]. }
  unfold Acquire. pose proof (v_table _ _ _ V) as Ht. rewrite Hu, (proj2 (Z.leb_gt _ _)) by lia. cbn [orb]. eexists. split; [done|]. set (q := mkPool _ _ _ _ _ _ _ _ _).
  destruct (used_at_insert (pl w) q id true) as [U1 U2]; [done | lia | lia|]. assert (borrowed q ≡ₚ id :: borrowed (pl w)) as Hb by (apply borrowed_mark; try done; lia).
  destruct V. split; try done; cbn; [by rewrite length_insert|]. rewrite Hb, <- v_places0. apply Permutation_app_head. rewrite (difference_one (selected w) id) at 2; [cbn; by rewrite Permutation_middle | | done].
  apply NoDup_app in Hn as (_ & _ & Hn). by apply NoDup_app in Hn as (Hn & _ & _).
Qed.

Lemma return_inv w r ids id : inv w r ids -> 0 <= id -> used_at (pl w) id = true ->
  exists p r' ids', Return (pl w) id = (p, true) /\ inv (mkWorld p (selected w)) r' ids'.
Proof.
  intros V H0 Hu. pose proof (v_table _ _ _ V) as Ht. pose proof (v_capacity _ _ _ V) as Hc. pose proof (v_published _ _ _ V) as Hp.
  assert (id < capacity) as Hid. { unfold used_at in Hu. destruct (in_use_ (pl w) !! Z.to_nat id) as [b|] eqn:E; [|done]. apply lookup_lt_Some in E. lia. }
  unfold Return. rewrite (v_ring _ _ _ V), (v_mask _ _ _ V), Hu, (proj2 (Z.leb_gt _ _)) by lia. cbn [orb negb]. set (q := set_ring _ _ _ _). exists q. eexists. exists (ids ++ [id]). split; [done|].
  destruct (used_at_insert (pl w) q id false) as [U1 U2]; [done | lia | lia|]. assert (borrowed (pl w) ≡ₚ id :: borrowed q) as Hb by (apply borrowed_mark; try done; [change (capacity_ q) with (capacity_ (pl w)); lia|]; intros i Hi Hne; by rewrite U2).
  pose proof (ids_count w r ids V) as El. rewrite Hb in El. cbn [length] in El. pose proof (publish_view (storage_ (pl w)) (buffer_size_ (pl w)) id 1 r _ ltac:(lia) (v_view _ _ _ V)) as Hv. rewrite length_fmap in Hv. specialize (Hv ltac:(lia)).
  change (seqZ 0 1) with [0] in Hv. cbn [fmap list_fmap] in Hv. rewrite new_entry_of, Z.add_0_r in Hv by lia. unfold add_slots, add_slot in Hv. change (seqZ 0 1) with [0] in Hv. cbn [foldl] in Hv. rewrite Z.add_0_r in Hv.
  destruct V. split; try done; cbn; [by rewrite length_insert | change (entry_of q) with (entry_of (pl w)); by rewrite fmap_app |].
  rewrite <- v_places0, Hb, <- app_assoc. apply Permutation_app_head. cbn. by rewrite Permutation_middle.
Qed.

Lemma pool_exec_inv w r ids c o : inv w r ids -> exec w c = Some o -> exists w' r' ids', o = Val w' /\ inv w' r' ids'.
Proof.
  intros V. destruct c as [n| |id|id]; cbn.
  - destruct (Z.leb_spec 0 n); [|done]. intros [= <-]. destruct (ensure_inv w r ids n V) as (p & r' & ids' & -> & V'); [done|]. by eexists _, _, _.
  - rewrite (v_ring _ _ _ V). pose proof (select_inv w r ids V) as Hs. destruct ids as [|id ids']; [by rewrite Hs|]. destruct Hs as (r' & -> & V'). intros [= <-]. by eexists _, _, _.
  - destruct (bool_decide (id ∈ selected w)) eqn:Hid; bool_prop; [|done]. destruct (acquire_inv w r ids id V Hid) as (p & -> & V'). intros [= <-]. by eexists _, _, _.
  - destruct (Z.leb_spec 0 id); cbn; [|done]. destruct (used_at (pl w) id) eqn:Hu; [|done]. destruct (return_inv w r ids id V) as (p & r' & ids' & -> & V'); [done..|]. intros [= <-]. by eexists _, _, _.
Qed.

End pool.

(** ** Creation and runs *)

Lemma seqZ_unused {R : BufRing} (p : pool) n : (forall id, 0 <= id -> used_at p id = false) -> filter (fun id => used_at p id = true) (seqZ 0 n) = [].
Proof.
  intros H. apply elem_of_nil_inv. intros id Hid. apply list_elem_of_filter in Hid as [Hu Hid]. apply elem_of_seqZ in Hid. rewrite H in Hu by lia. done.
Qed.

Lemma pool_created_inv {R : BufRing} group capacity size initial base p {L : BufRingLaws R capacity} : 0 <= capacity -> 0 <= size -> 0 <= initial ->
  Create true group capacity size initial (inl base) None true = Ok p -> 0 < capacity <= 32768 /\ exists r, inv capacity base (mkWorld p []) r (seqZ 0 initial).
Proof.
  intros H1 H2 H3. unfold Create. cbn [negb orb]. destruct (Z.eqb_spec capacity 0); [done|]. destruct (Z.ltb_spec (32 * 1024) capacity); [done|]. destruct (Z.eqb_spec (Z.land capacity (capacity - 1)) 0) as [Hl|]; [|done].
  destruct (Z.eqb_spec size 0); [done|]. destruct (Z.ltb_spec uint32_max size); [done|]. destruct (Z.eqb_spec initial 0); [done|]. destruct (Z.ltb_spec capacity initial); [done|]. cbn [negb orb].
  unfold storage_Create. rewrite (proj2 (Z.eqb_neq capacity 0)), (proj2 (Z.eqb_neq size 0)) by done. cbn [orb]. destruct (Z.ltb_spec (size_max / size) capacity) as [|Hm]; [done|]. intros [= <-].
  split; [lia|]. assert (capacity * size <= size_max) by (pose proof (Z.mul_div_le size_max size ltac:(lia)); nia).
  set (st := mkStorage _ _ _ _). pose proof (publish_view capacity st size 0 initial io_uring_buf_ring_init [] H3 view_init ltac:(cbn; lia)) as Hv. cbn [app] in Hv.
  eexists. set (p := mkPool _ _ _ _ _ _ _ _ _). assert (forall id, 0 <= id -> used_at p id = false) as Hu. { intros id _. unfold used_at. cbn. destruct (replicate _ false !! _) as [b|] eqn:E; [|done]. by apply lookup_replicate in E as [-> _]. }
  split; try done; cbn.
  - by rewrite length_replicate.
  - split_and!; try done; try lia. rewrite usize_small by (unfold is_usize; nia). lia.
  - match goal with |- ring_view _ ?l _ => replace l with (new_entry st size 0 <$> seqZ 0 initial); [done|] end. apply list_fmap_ext. intros i x Hx. apply list_elem_of_lookup_2, elem_of_seqZ in Hx. change (new_entry (storage_ p) (buffer_size_ p) 0 x = entry_of p x). by rewrite (new_entry_of capacity) by lia.
  - unfold borrowed. rewrite (seqZ_unused p _ Hu), app_nil_r. done.
Qed.

Lemma provided_reachable_inv {R : BufRing} capacity base p w r ids {L : BufRingLaws R capacity} : 0 < capacity <= 32768 -> inv capacity base (mkWorld p []) r ids -> reachable p w -> exists r' ids', inv capacity base w r' ids'.
Proof.
  intros Hc V. induction 1 as [|w c w' _ (r1 & ids1 & V1) Hx]; [by eexists _, _|]. destruct (pool_exec_inv capacity base Hc w r1 ids1 c _ V1 Hx) as (w2 & r2 & ids2 & [= <-] & V2). by eexists _, _.
Qed.

(** C10. The provided buffers of a loop, used by its sources and by the kernel in any
    order over a ring that keeps its documented laws: every call succeeds; each published
    slot is in the ring, reported by the kernel or borrowed by a source, and in exactly
    one of these places; the entries the kernel sees are the address, size and id of the
    slots in the ring, which are not borrowed, and it can select one as long as there is
    one; no more slots are published than there are, so that the ring never overflows; and
    the slots are disjoint and inside the mapping. *)
Theorem provided_buffers_exact {R : BufRing} (group capacity size initial base : Z) (L : BufRingLaws R capacity) (p : pool) (w : world) :
  0 <= capacity -> 0 <= size -> 0 <= initial -> Create true group capacity size initial (inl base) None true = Ok p -> reachable p w ->
  (forall c o, exec w c = Some o -> exists w', o = Val w') /\
  (exists r ids, buffer_ring_ (pl w) = Some r /\ ring_view r (entry_of (pl w) <$> ids) ∅ /\
     ids ++ selected w ++ borrowed (pl w) ≡ₚ seqZ 0 (published_capacity_ (pl w)) /\ (ids <> [] -> is_Some (exec w ASelect))) /\
  published_capacity_ (pl w) <= capacity /\
  (forall i j, 0 <= i < j -> j < capacity -> exists a b, slot (pl w) i = Some a /\ slot (pl w) j = Some b /\
     base <= a /\ a + buffer_size_ (pl w) <= b /\ b + buffer_size_ (pl w) <= base + size_bytes_ (storage_ (pl w))).
Proof.
  intros H1 H2 H3 Hc Hw. destruct (pool_created_inv group capacity size initial base p H1 H2 H3 Hc) as (Hk & r0 & V0). destruct (provided_reachable_inv capacity base p w r0 _ Hk V0 Hw) as (r & ids & V). split_and!.
  - intros c o Hx. destruct (pool_exec_inv capacity base Hk w r ids c o V Hx) as (w' & _ & _ & -> & _). by exists w'.
  - exists r, ids. split; [apply V|]. split; [apply V|]. split; [apply V|]. intros Hne. pose proof (select_inv capacity base w r ids V) as Hs. cbn. rewrite (v_ring _ _ _ _ _ V). destruct ids as [|id ids]; [done|]. destruct Hs as (r' & -> & _). by eexists.
  - by apply (v_published _ _ _ _ _ V).
  - intros i j Hi Hj. destruct (v_storage _ _ _ _ _ V) as (S1 & S2 & S3 & S4 & S5). unfold slot, storage_slot. rewrite (v_capacity _ _ _ _ _ V), S1, S2, S3, S5. rewrite !(proj2 (Z.ltb_lt _ _)), !(proj2 (Z.leb_gt _ _)) by lia. cbn. eexists _, _. split_and!; try done; nia.
Qed.

(** ** A ring that keeps the laws *)

Record counted_ring := mkRing { bufs : gmap Z entry; head : Z; tail : Z }.

Definition count (r : counted_ring) : Z := u16 (tail r - head r).
Definition seen (r : counted_ring) (entries : Z) : list (option entry) := (fun i => bufs r !! Z.land (head r + i) (entries - 1)) <$> seqZ 0 (count r).

#[local] Instance counted : BufRing := {|
  buf_ring := counted_ring;
  io_uring_buf_ring_init := mkRing ∅ 0 0;
  io_uring_buf_ring_mask entries := entries - 1;
  io_uring_buf_ring_add r e mask offset := mkRing (<[Z.land (tail r + offset) mask := e]> (bufs r)) (head r) (tail r);
  io_uring_buf_ring_advance r n := mkRing (bufs r) (head r) (u16 (tail r + n));
  kernel_select r entries := if head r =? tail r then None else match bufs r !! Z.land (head r) (entries - 1) with Some e => Some (e, mkRing (bufs r) (u16 (head r + 1)) (tail r)) | None => None end;
|}.

Lemma u16_mod z k : 0 <= k <= 16 -> u16 z mod 2 ^ k = z mod 2 ^ k.
Proof.
  intros Hk. unfold u16. replace (2 ^ 16) with (2 ^ k * 2 ^ (16 - k)) by (rewrite <- Z.pow_add_r by lia; f_equal; lia).
  rewrite Z.rem_mul_r by (pose proof (Z.pow_pos_nonneg 2 k); pose proof (Z.pow_pos_nonneg 2 (16 - k)); lia).
  rewrite Z.mul_comm, Z.mod_add by (pose proof (Z.pow_pos_nonneg 2 k); lia). apply Z.mod_mod. pose proof (Z.pow_pos_nonneg 2 k); lia.
Qed.

Lemma count_range r : 0 <= count r < 2 ^ 16.
Proof. unfold count, u16. apply Z.mod_pos_bound. lia. Qed.

Definition counters (r : counted_ring) : Prop := 0 <= head r < 2 ^ 16 /\ 0 <= tail r < 2 ^ 16.

Lemma tail_count r : counters r -> tail r = u16 (head r + count r).
Proof.
  intros [H1 H2]. unfold count, u16. rewrite Zplus_mod_idemp_r. replace (head r + (tail r - head r)) with (tail r) by lia. by rewrite Z.mod_small.
Qed.

Lemma count_unique r n : 0 <= n < 2 ^ 16 -> counters r -> tail r = u16 (head r + n) -> count r = n.
Proof.
  intros Hn Hc E. unfold count. rewrite E. unfold u16. rewrite Zminus_mod_idemp_l. replace (head r + n - head r) with n by lia. by apply Z.mod_small.
Qed.

Section ring.
Context (k : Z) (Hk : 0 <= k <= 15).

Lemma capacity_bounds : 0 < 2 ^ k <= 32768.
Proof. split; [apply Z.pow_pos_nonneg; lia|]. change 32768 with (2 ^ 15). apply Z.pow_le_mono_r; lia. Qed.

Record counted_view (r : counted_ring) (visible : list entry) (staged : gmap Z entry) : Prop := {
  n_counters : counters r;
  n_room : count r <= 2 ^ k;
  n_seen : seen r (2 ^ k) = Some <$> visible;
  n_staged j e : staged !! j = Some e -> 0 <= j /\ count r + j < 2 ^ k /\ bufs r !! ((tail r + j) mod 2 ^ k) = Some e;
}.

Lemma view_count r visible staged : counted_view r visible staged -> count r = Z.of_nat (length visible).
Proof. intros V. pose proof (f_equal length (n_seen _ _ _ V)) as Hl. unfold seen in Hl. rewrite !length_fmap, length_seqZ in Hl. pose proof (count_range r). lia. Qed.

Lemma tail_offset r z : counters r -> (tail r + z) mod 2 ^ k = (head r + count r + z) mod 2 ^ k.
Proof. intros Hr. rewrite (tail_count r Hr) at 1. rewrite <- (Zplus_mod_idemp_l (u16 _)), u16_mod, Zplus_mod_idemp_l by lia. done. Qed.

Lemma counted_add r visible staged e offset : counted_view r visible staged -> 0 <= offset -> Z.of_nat (length visible) + offset < 2 ^ k ->
  counted_view (io_uring_buf_ring_add r e (io_uring_buf_ring_mask (2 ^ k)) offset) visible (<[offset := e]> staged).
Proof.
  intros V Ho Hn. pose proof (view_count _ _ _ V) as Ec. pose proof capacity_bounds as Hc. destruct V as [V1 V2 V3 V4]. cbn. rewrite land_mask by lia. split; try done; cbn.
  - rewrite <- V3. unfold seen. cbn. change (count (mkRing _ _ _)) with (count r). apply list_fmap_ext. intros i x Hx. apply list_elem_of_lookup_2, elem_of_seqZ in Hx. rewrite land_mask, lookup_insert_ne; [done| |lia]. rewrite tail_offset by done. intros E.
    assert (count r + offset = x); [|lia]. apply (mod_inj_lt _ _ (2 ^ k) (head r)); [lia | lia | lia | by rewrite Z.add_assoc].
  - intros j e'. change (count (mkRing _ _ _)) with (count r). destruct (decide (offset = j)) as [->|Hne]; [rewrite !lookup_insert_eq; intros [= <-]; split_and!; [done | lia | done]|]. rewrite lookup_insert_ne by done. intros (H1 & H2 & H3)%V4. split_and!; try done. rewrite lookup_insert_ne; [done|]. intros E.
    apply Hne. apply (mod_inj_lt _ _ (2 ^ k) (tail r)); [lia | lia | lia | done].
Qed.

Lemma counted_advance r visible staged new : counted_view r visible staged -> (forall i e, new !! i = Some e -> staged !! Z.of_nat i = Some e) -> Z.of_nat (length visible + length new) <= 2 ^ k ->
  counted_view (io_uring_buf_ring_advance r (Z.of_nat (length new))) (visible ++ new) ∅.
Proof.
  intros V Hs Hn. pose proof (view_count _ _ _ V) as Ec. pose proof capacity_bounds as Hc. destruct V as [V1 V2 V3 V4]. cbn. set (r' := mkRing _ _ _).
  assert (counters r') as Hr'. { destruct V1. split; cbn; [done|]. unfold u16. apply Z.mod_pos_bound. lia. }
  assert (count r' = count r + Z.of_nat (length new)) as Ec'. { apply count_unique; [lia|done|]. cbn. rewrite (tail_count r V1). unfold u16. rewrite Zplus_mod_idemp_l. f_equal. lia. }
  split; try done; [lia|]. unfold seen in *. rewrite Ec', seqZ_app, !fmap_app by lia. f_equal; [exact V3|]. apply list_eq. intros i. rewrite !list_lookup_fmap. destruct (new !! i) as [e|] eqn:Hi.
  - pose proof (lookup_lt_Some _ _ _ Hi) as Hlt. rewrite (proj2 (lookup_seqZ _ _ i (0 + count r + Z.of_nat i))) by lia. cbn. destruct (V4 _ _ (Hs i e Hi)) as (_ & _ & Hb). rewrite land_mask, <- Hb by lia. do 2 f_equal. rewrite tail_offset by done. f_equal. lia.
  - apply lookup_ge_None in Hi. rewrite lookup_seqZ_ge by lia. done.
Qed.

Lemma counted_select r visible staged : counted_view r visible staged ->
  match visible with
  | [] => kernel_select r (2 ^ k) = None
  | e :: rest => exists r', kernel_select r (2 ^ k) = Some (e, r') /\ counted_view r' rest staged
  end.
Proof.
  intros V. pose proof (view_count _ _ _ V) as Ec. pose proof capacity_bounds as Hc. destruct V as [V1 V2 V3 V4]. cbn. pose proof (tail_count r V1) as Ht. destruct visible as [|e rest].
  - rewrite Ec, Z.add_0_r in Ht. unfold u16 in Ht. destruct V1. rewrite Z.mod_small in Ht by done. by rewrite Ht, Z.eqb_refl.
  - cbn in Ec. assert (head r <> tail r) as Hne. { intros E. unfold count in Ec. rewrite E, Z.sub_diag in Ec. change (u16 0) with 0 in Ec. lia. }
    rewrite (proj2 (Z.eqb_neq _ _) Hne). unfold seen in V3. rewrite seqZ_cons in V3 by lia. cbn in V3. rewrite Z.add_0_r in V3. injection V3 as Hb V3. rewrite Hb. eexists. split; [reflexivity|]. set (r' := mkRing _ _ _).
    assert (counters r') as Hr'. { destruct V1. split; cbn; [|done]. unfold u16. apply Z.mod_pos_bound. lia. }
    assert (count r' = count r - 1) as Ec'. { apply count_unique; [lia|done|]. cbn. rewrite Ht at 1. unfold u16. rewrite Zplus_mod_idemp_l. f_equal. lia. }
    split; try done; [lia | | intros j x (H1 & H2 & H3)%V4; split_and!; [done | lia | done]].
    unfold seen. rewrite Ec', <- V3. replace (Z.succ 0) with (1 + 0) by lia. replace (Z.pred (count r)) with (count r - 1) by lia. rewrite <- (fmap_add_seqZ 1 0), <- list_fmap_compose. apply list_fmap_ext. intros i x Hx. cbn. f_equal.
    rewrite !land_mask by lia. rewrite <- (Zplus_mod_idemp_l (u16 _)), u16_mod, Zplus_mod_idemp_l by lia. f_equal. lia.
Qed.

Lemma counted_init : counted_view io_uring_buf_ring_init [] ∅.
Proof. pose proof capacity_bounds. split; [done | change (0 <= 2 ^ k); lia | done | intros j e; by rewrite lookup_empty]. Qed.

Definition counted_laws : BufRingLaws counted (2 ^ k) := {| ring_view := counted_view; view_init := counted_init; view_add := counted_add; view_advance := counted_advance; view_select := counted_select |}.

End ring.

Fixpoint run (w : world) (cs : list action) : option world :=
  match cs with
  | [] => Some w
  | c :: cs => match exec w c with Some (Val w') => run w' cs | _ => None end
  end.

Lemma pool_run_reachable (p : pool) w cs w' : reachable p w -> run w cs = Some w' -> reachable p w'.
Proof.
  revert w. induction cs as [|c cs IH]; intros w Hw; cbn; [by intros [= <-]|]. destruct (exec w c) as [[w1|]|] eqn:Hx; try done. intros H. eapply IH; [|exact H]. by eapply reach_step.
Qed.

Definition four_slots : pool := match Create true 1 4 16 2 (inl 4096) None true with Ok p => p | Err _ => empty_pool end.

Definition pool_script : list action := [ASelect; AAcquire 0; AEnsure 5; ASelect; AReturn 0; ASelect; AAcquire 1].

Definition pool_after : world := default (mkWorld four_slots []) (run (mkWorld four_slots []) pool_script).

Lemma pool_after_reachable : reachable four_slots pool_after.
Proof. unfold pool_after. destruct (run _ pool_script) as [w|] eqn:E; [|by apply reach_initial]. eapply pool_run_reachable; [apply reach_initial | exact E]. Qed.

Lemma provided_buffers_exact_witness :
  selected pool_after = [2] /\ borrowed (pl pool_after) = [1] /\ published_capacity_ (pl pool_after) = 4 /\
  exists r ids, buffer_ring_ (pl pool_after) = Some r /\ ring_view (BufRingLaws := counted_laws 2 ltac:(lia)) r (entry_of (pl pool_after) <$> ids) ∅ /\ ids ++ selected pool_after ++ borrowed (pl pool_after) ≡ₚ seqZ 0 (published_capacity_ (pl pool_after)).
Proof.
  split; [vm_compute; reflexivity|]. split; [vm_compute; reflexivity|]. split; [vm_compute; reflexivity|].
  destruct (provided_buffers_exact 1 4 16 2 4096 (counted_laws 2 ltac:(lia)) four_slots pool_after) as (_ & (r & ids & R1 & R2 & R3 & _) & _); [lia | lia | lia | reflexivity | exact pool_after_reachable |].
  exists r, ids. split; [exact R1|]. split; [exact R2|]. exact R3.
Defined.

End ProvidedBuffersProps.
