(* ===== verification/UringRecv.v ===== *)
(** * The io_uring receive source (src/uring/recv_source.cc, include/alyrn/uring/recv_source.h)

    A multishot receive fills buffers that the loop provides. Each completion is copied
    out of its buffer, which goes back to the ring at once: to the consumer if one waits,
    into a bounded queue, or, when it comes too late for the queue, into an overflow list.
    A full queue pauses the source by cancelling the request. The admission machine is that
    of RecvSource.v, the pool that of ProvidedBuffers.v, the operations those of UringOp.v.
    What SubmitOp answers, the completions and the bytes the kernel stores are inputs, and
    copies of overflowing payloads find memory. Every call is made on the loop's thread,
    which [here] says. *)

From Stdlib Require Import Strings.Byte.
From S2P Require Import Prelude Lifecycles Sources RecvSource ResultCells UringOp ProvidedBuffers.

Module UringRecv.

Import UringOp(CompletionEvent, event_result, More, BufferMore, HasSelectedBuffer, SelectedBufferId, CompletionDisposition, mkDisposition).

Section source.
Context {BR : ProvidedBuffers.BufRing}.

(** ** State *)

Record PendingEvent := mkPending { copy_slot : Z; p_size : nat }.
Record SlotState := mkSlot { lease_count : Z; active : bool; kernel_done : bool }.

Definition new_slot : SlotState := mkSlot 0 false false.

(** An event carries the lease of a copy slot, or ([None]) of a heap copy of its own; the
    bytes it was handed out with are recorded. *)
Record Event := mkEvent { e_slot : option Z; e_size : nat; e_bytes : list byte }.

Record NextAwaiter := mkNext { n_bound : bool; n_gate : CompletionGate.t; n_result : ValueResultState.t (option Event) }.
Record StopAwaiter := mkStop { w_bound : bool; w_gate : CompletionGate.t; w_result : option (ResultE unit) }.

Definition new_next : NextAwaiter := mkNext false CompletionGate.initial ValueResultState.kPending.
Definition new_stop : StopAwaiter := mkStop false CompletionGate.initial None.

Record source := mkSource {
  loop_ : bool;                               (* loop_ != nullptr *)
  fd_ : Z;
  state_ : RecvSource.t;
  events_ : list PendingEvent;                (* a ring *)
  slots_ : list SlotState;                    (* by provided buffer *)
  queued_payloads_ : list byte;               (* the copy slots, one after another *)
  copy_free_ : list Z;                        (* the last one is at the back *)
  event_head_ : nat;
  event_count_ : nat;
  overflow_ : list (list byte);
  active_slot_count_ : Z;
  terminal_error_ : option Error;
  pending_next_ : option nat;
  pending_stop_ : option nat;
  recv_op_ : UringOp.Op;
  cancel_op_ : UringOp.Op;
  buffer_size_ : nat;
  buffer_pool_ : bool;                        (* buffer_pool_ != nullptr *)
  recv_submitted_ : bool;
  cancel_submitted_ : bool;
}.

Definition set_state (s : source) v := mkSource (loop_ s) (fd_ s) v (events_ s) (slots_ s) (queued_payloads_ s) (copy_free_ s) (event_head_ s) (event_count_ s) (overflow_ s) (active_slot_count_ s) (terminal_error_ s) (pending_next_ s) (pending_stop_ s) (recv_op_ s) (cancel_op_ s) (buffer_size_ s) (buffer_pool_ s) (recv_submitted_ s) (cancel_submitted_ s).
Definition set_ring (s : source) v0 v1 v2 := mkSource (loop_ s) (fd_ s) (state_ s) v0 (slots_ s) (queued_payloads_ s) (copy_free_ s) v1 v2 (overflow_ s) (active_slot_count_ s) (terminal_error_ s) (pending_next_ s) (pending_stop_ s) (recv_op_ s) (cancel_op_ s) (buffer_size_ s) (buffer_pool_ s) (recv_submitted_ s) (cancel_submitted_ s).
Definition set_slots (s : source) v0 v1 := mkSource (loop_ s) (fd_ s) (state_ s) (events_ s) v0 (queued_payloads_ s) (copy_free_ s) (event_head_ s) (event_count_ s) (overflow_ s) v1 (terminal_error_ s) (pending_next_ s) (pending_stop_ s) (recv_op_ s) (cancel_op_ s) (buffer_size_ s) (buffer_pool_ s) (recv_submitted_ s) (cancel_submitted_ s).
Definition set_payloads (s : source) v := mkSource (loop_ s) (fd_ s) (state_ s) (events_ s) (slots_ s) v (copy_free_ s) (event_head_ s) (event_count_ s) (overflow_ s) (active_slot_count_ s) (terminal_error_ s) (pending_next_ s) (pending_stop_ s) (recv_op_ s) (cancel_op_ s) (buffer_size_ s) (buffer_pool_ s) (recv_submitted_ s) (cancel_submitted_ s).
Definition set_free (s : source) v := mkSource (loop_ s) (fd_ s) (state_ s) (events_ s) (slots_ s) (queued_payloads_ s) v (event_head_ s) (event_count_ s) (overflow_ s) (active_slot_count_ s) (terminal_error_ s) (pending_next_ s) (pending_stop_ s) (recv_op_ s) (cancel_op_ s) (buffer_size_ s) (buffer_pool_ s) (recv_submitted_ s) (cancel_submitted_ s).
Definition set_overflow (s : source) v := mkSource (loop_ s) (fd_ s) (state_ s) (events_ s) (slots_ s) (queued_payloads_ s) (copy_free_ s) (event_head_ s) (event_count_ s) v (active_slot_count_ s) (terminal_error_ s) (pending_next_ s) (pending_stop_ s) (recv_op_ s) (cancel_op_ s) (buffer_size_ s) (buffer_pool_ s) (recv_submitted_ s) (cancel_submitted_ s).
Definition set_error (s : source) v := mkSource (loop_ s) (fd_ s) (state_ s) (events_ s) (slots_ s) (queued_payloads_ s) (copy_free_ s) (event_head_ s) (event_count_ s) (overflow_ s) (active_slot_count_ s) v (pending_next_ s) (pending_stop_ s) (recv_op_ s) (cancel_op_ s) (buffer_size_ s) (buffer_pool_ s) (recv_submitted_ s) (cancel_submitted_ s).
Definition set_next (s : source) v := mkSource (loop_ s) (fd_ s) (state_ s) (events_ s) (slots_ s) (queued_payloads_ s) (copy_free_ s) (event_head_ s) (event_count_ s) (overflow_ s) (active_slot_count_ s) (terminal_error_ s) v (pending_stop_ s) (recv_op_ s) (cancel_op_ s) (buffer_size_ s) (buffer_pool_ s) (recv_submitted_ s) (cancel_submitted_ s).
Definition set_stop (s : source) v := mkSource (loop_ s) (fd_ s) (state_ s) (events_ s) (slots_ s) (queued_payloads_ s) (copy_free_ s) (event_head_ s) (event_count_ s) (overflow_ s) (active_slot_count_ s) (terminal_error_ s) (pending_next_ s) v (recv_op_ s) (cancel_op_ s) (buffer_size_ s) (buffer_pool_ s) (recv_submitted_ s) (cancel_submitted_ s).
Definition set_recv (s : source) v0 v1 := mkSource (loop_ s) (fd_ s) (state_ s) (events_ s) (slots_ s) (queued_payloads_ s) (copy_free_ s) (event_head_ s) (event_count_ s) (overflow_ s) (active_slot_count_ s) (terminal_error_ s) (pending_next_ s) (pending_stop_ s) v0 (cancel_op_ s) (buffer_size_ s) (buffer_pool_ s) v1 (cancel_submitted_ s).
Definition set_cancel (s : source) v0 v1 := mkSource (loop_ s) (fd_ s) (state_ s) (events_ s) (slots_ s) (queued_payloads_ s) (copy_free_ s) (event_head_ s) (event_count_ s) (overflow_ s) (active_slot_count_ s) (terminal_error_ s) (pending_next_ s) (pending_stop_ s) (recv_op_ s) v0 (buffer_size_ s) (buffer_pool_ s) (recv_submitted_ s) v1.

Record world := mkWorld {
  src : source;
  pool : ProvidedBuffers.pool;
  memory : gmap Z (list byte);                (* the provided buffers *)
  here : bool;                                (* loop_->IsInLoopThread() *)
  initialized : bool;                         (* loop_->Initialized() *)
  nexts : gmap nat NextAwaiter;
  stops : gmap nat StopAwaiter;
  work : list (bool * nat);                   (* scheduled continuations: of a Next, of a Stop *)
  submits : list (option Error);              (* what SubmitOp answers; [None] is success *)
  out : list Event;                           (* leases handed out and not yet released *)
  kept : list (list byte);                    (* received payloads that were kept *)
  lost : list (list byte);                    (* received payloads that were not *)
  taken : list (list byte);                   (* every payload handed out *)
}.

Definition set_src (w : world) v := mkWorld v (pool w) (memory w) (here w) (initialized w) (nexts w) (stops w) (work w) (submits w) (out w) (kept w) (lost w) (taken w).
Definition set_pool (w : world) v := mkWorld (src w) v (memory w) (here w) (initialized w) (nexts w) (stops w) (work w) (submits w) (out w) (kept w) (lost w) (taken w).
Definition set_memory (w : world) v := mkWorld (src w) (pool w) v (here w) (initialized w) (nexts w) (stops w) (work w) (submits w) (out w) (kept w) (lost w) (taken w).
Definition set_nexts (w : world) v := mkWorld (src w) (pool w) (memory w) (here w) (initialized w) v (stops w) (work w) (submits w) (out w) (kept w) (lost w) (taken w).
Definition set_stops (w : world) v := mkWorld (src w) (pool w) (memory w) (here w) (initialized w) (nexts w) v (work w) (submits w) (out w) (kept w) (lost w) (taken w).
Definition set_work (w : world) v := mkWorld (src w) (pool w) (memory w) (here w) (initialized w) (nexts w) (stops w) v (submits w) (out w) (kept w) (lost w) (taken w).
Definition set_submits (w : world) v := mkWorld (src w) (pool w) (memory w) (here w) (initialized w) (nexts w) (stops w) (work w) v (out w) (kept w) (lost w) (taken w).
Definition set_out (w : world) v := mkWorld (src w) (pool w) (memory w) (here w) (initialized w) (nexts w) (stops w) (work w) (submits w) v (kept w) (lost w) (taken w).

Definition log_kept (w : world) (bytes : list byte) := mkWorld (src w) (pool w) (memory w) (here w) (initialized w) (nexts w) (stops w) (work w) (submits w) (out w) (kept w ++ [bytes]) (lost w) (taken w).
Definition log_lost (w : world) (bytes : list byte) := mkWorld (src w) (pool w) (memory w) (here w) (initialized w) (nexts w) (stops w) (work w) (submits w) (out w) (kept w) (lost w ++ [bytes]) (taken w).
Definition log_taken (w : world) (e : Event) := mkWorld (src w) (pool w) (memory w) (here w) (initialized w) (nexts w) (stops w) (work w) (submits w) (out w ++ [e]) (kept w) (lost w) (taken w ++ [e_bytes e]).

Definition st (w : world) : SourceState := RecvSource.state_ (state_ (src w)).
Definition with_state (w : world) (s : RecvSource.t) : world := set_src w (set_state (src w) s).

Definition get_next (w : world) (a : nat) : outcome NextAwaiter := match nexts w !! a with Some n => Val n | None => Panic end.
Definition put_next (w : world) (a : nat) (n : NextAwaiter) : world := set_nexts w (<[a := n]> (nexts w)).
Definition get_stop (w : world) (a : nat) : outcome StopAwaiter := match stops w !! a with Some n => Val n | None => Panic end.
Definition put_stop (w : world) (a : nat) (n : StopAwaiter) : world := set_stops w (<[a := n]> (stops w)).

Definition succeeded {A} (r : ResultE A) : bool := match r with Ok _ => true | Err _ => false end.

(** LoopAccess::SubmitOp; an operation that is refused is not with the kernel. *)
Definition SubmitOp (w : world) : world * option Error := (set_submits w (tail (submits w)), default None (head (submits w))).

(** ** Completion of awaiters *)

Definition next_Complete (w : world) (a : nat) (result : ResultE (option Event)) : outcome world :=
  n ← get_next w a;
  let '(gate, first) := CompletionGate.TryComplete (n_gate n) in
  if negb first then Val w
  else
    cell ← ValueResultState.SetResult result (n_result n);
    ALYRN_CHECK (n_bound n);;
    let w := put_next w a (mkNext (n_bound n) gate cell) in
    Val (set_work w (work w ++ [(true, a)])).

Definition stop_Complete (w : world) (a : nat) (result : ResultE unit) : outcome world :=
  p ← get_stop w a;
  let '(gate, first) := CompletionGate.TryComplete (w_gate p) in
  if negb first then Val w
  else
    ALYRN_CHECK (w_bound p);;
    let w := put_stop w a (mkStop (w_bound p) gate (Some result)) in
    Val (set_work w (work w ++ [(false, a)])).

(** ** Requests *)

Definition set_kind (o : UringOp.Op) (kind : UringOp.OpKind) : UringOp.Op :=
  UringOp.mkOp (UringOp.resume_work o) (UringOp.result o) kind (UringOp.completion_slot_ o) (UringOp.single_result_lifecycle_ o).

(** RecvOperation::Prepare and CancelOperation::Prepare *)
Definition recv_Prepare (o : UringOp.Op) : UringOp.Op := UringOp.BeginNextRequest (set_kind o UringOp.kRecvSourceComplete).
Definition cancel_Prepare (o : UringOp.Op) : UringOp.Op := UringOp.BeginNextRequest (set_kind o UringOp.kRecvSourceCancelComplete).

Definition StartOperation (w : world) : outcome (world * ResultE unit) :=
  let s := src w in
  if negb (loop_ s) || negb (initialized w) || (fd_ s <? 0) || negb (buffer_pool_ s) then Val (w, Err (Errno EBADF))
  else if recv_submitted_ s then Val (w, Ok tt)
  else if negb (RecvSource.CanArm (state_ s)) then Val (w, Ok tt)
  else
    let '(st', armed) := RecvSource.TryArm (state_ s) in
    let w := with_state w st' in
    if negb armed then Val (w, Ok tt)
    else
      let w := set_src w (set_recv (src w) (recv_Prepare (recv_op_ (src w))) false) in
      let '(w, refused) := SubmitOp w in
      match refused with
      | Some error =>
          let '(st', completed) := RecvSource.CompleteMultishotEvent EventDisposition.kNone MultishotRequestDisposition.kTerminal (state_ (src w)) in
          ALYRN_CHECK (succeeded completed);;
          Val (with_state w st', Err error)
      | None => Val (set_src w (set_recv (src w) (recv_op_ (src w)) true), Ok tt)
      end.

Definition StartCancel (w : world) : world * ResultE unit :=
  if negb (recv_submitted_ (src w)) || cancel_submitted_ (src w) then (w, Ok tt)
  else
    let w := set_src w (set_cancel (src w) (cancel_Prepare (cancel_op_ (src w))) false) in
    let '(w, refused) := SubmitOp w in
    match refused with
    | Some error => (w, Err error)
    | None => (set_src w (set_cancel (src w) (cancel_op_ (src w)) true), Ok tt)
    end.

Definition set_error_once (w : world) (error : option Error) : world :=
  match error, terminal_error_ (src w) with
  | Some e, None => set_src w (set_error (src w) (Some e))
  | _, _ => w
  end.

Definition RequestBackendStop (w : world) (error : option Error) : world :=
  let w := set_error_once w error in
  let w := with_state w (RecvSource.RequestStop (state_ (src w))).1 in
  if recv_submitted_ (src w) && negb (cancel_submitted_ (src w)) then
    let '(w, cancelled) := StartCancel w in
    match cancelled with Err e => set_error_once w (Some e) | Ok _ => w end
  else w.

Definition RequestBackendPause (w : world) : world :=
  let w := with_state w (RecvSource.RequestPause (state_ (src w))).1 in
  if recv_submitted_ (src w) && negb (cancel_submitted_ (src w)) then
    let '(w, cancelled) := StartCancel w in
    match cancelled with Err e => RequestBackendStop w (Some e) | Ok _ => w end
  else w.

(** Is there still something to wait for? *)
Definition BeginStop (w : world) : world * ResultE bool :=
  let '(st', stopped) := RecvSource.RequestStop (state_ (src w)) in
  let w := with_state w st' in
  let waiting w := negb (bool_decide (st w = kTerminal)) || recv_submitted_ (src w) || cancel_submitted_ (src w) in
  match stopped with
  | Err e => (w, Err e)
  | Ok _ =>
      if recv_submitted_ (src w) then
        let '(w, cancelled) := StartCancel w in
        match cancelled with Err e => (w, Err e) | Ok _ => (w, Ok (waiting w)) end
      else (w, Ok (waiting w))
  end.

Definition Start (w : world) : outcome (world * ResultE unit) :=
  if negb (bool_decide (st w = kIdle)) then Val (w, Err (Errno EALREADY))
  else if negb (loop_ (src w)) || negb (initialized w) || (fd_ (src w) <? 0) then Val (w, Err (Errno EBADF))
  else
    let '(st', started) := RecvSource.Start (state_ (src w)) in
    let w := with_state w st' in
    match started with
    | Err e => Val (w, Err e)
    | Ok _ =>
        '(w, submitted) ← StartOperation w;
        match submitted with
        | Err e => Val (RequestBackendStop w (Some e), Err e)
        | Ok _ => Val (w, Ok tt)
        end
    end.

(** ** Copy slots and the queue *)

(** The bytes of a copy slot. *)
Definition payload (s : source) (copy_slot : Z) (size : nat) : list byte := take size (drop (Z.to_nat copy_slot * buffer_size_ s) (queued_payloads_ s)).

(** MakeQueuedLease *)
Definition MakeQueuedLease (s : source) (copy_slot : Z) (size : nat) : outcome Event :=
  ALYRN_CHECK (Z.to_nat copy_slot * buffer_size_ s + size <=? length (queued_payloads_ s))%nat;;
  Val (mkEvent (Some copy_slot) size (payload s copy_slot size)).

Definition TakeCopySlot (w : world) : outcome (world * Z) :=
  match last (copy_free_ (src w)) with
  | None => Panic
  | Some copy_slot => Val (set_src w (set_free (src w) (removelast (copy_free_ (src w)))), copy_slot)
  end.

Definition FreeCopySlot (w : world) (copy_slot : Z) : world := set_src w (set_free (src w) (copy_free_ (src w) ++ [copy_slot])).

(** The first queued event, and the ring without it. *)
Definition TryTakeQueuedEvent (w : world) : outcome (world * option PendingEvent) :=
  let s := src w in
  if (event_count_ s =? 0)%nat then Val (w, None)
  else match events_ s !! event_head_ s with
  | None => Panic
  | Some event => Val (set_src w (set_ring s (events_ s) ((event_head_ s + 1) mod length (events_ s))%nat (event_count_ s - 1)%nat), Some event)
  end.

(** ** Provided buffers *)

Definition slot_at (w : world) (buffer_id : Z) : option SlotState := slots_ (src w) !! Z.to_nat buffer_id.
Definition put_slot (w : world) (buffer_id : Z) (slot : SlotState) (count : Z) : world := set_src w (set_slots (src w) (<[Z.to_nat buffer_id := slot]> (slots_ (src w))) count).

Definition EPROTO : Z := 71.
Definition ENOTSUP : Z := 95.

Definition AcquireBuffer (w : world) (buffer_id : Z) (size : Z) : world * ResultE unit :=
  if negb (buffer_pool_ (src w)) || (Z.of_nat (length (slots_ (src w))) <=? buffer_id) || (Z.of_nat (buffer_size_ (src w)) <? size) then (w, Err (Errno EPROTO))
  else match slot_at w buffer_id with
  | None => (w, Err (Errno EPROTO))
  | Some slot =>
      if active slot then (w, Err (Errno EPROTO))
      else
        let '(p, acquired) := ProvidedBuffers.Acquire (pool w) buffer_id in
        let w := set_pool w p in
        if negb acquired then (w, Err (Errno EPROTO))
        else (put_slot w buffer_id (mkSlot 1 true false) (usize (active_slot_count_ (src w) + 1)), Ok tt)
  end.

Definition ReturnIfReclaimable (w : world) (buffer_id : Z) : outcome world :=
  match slot_at w buffer_id with
  | None => Panic
  | Some slot =>
      if negb (active slot) || negb (kernel_done slot) || negb (lease_count slot =? 0) then Val w
      else
        ALYRN_CHECK (buffer_pool_ (src w));;
        let '(p, returned) := ProvidedBuffers.Return (pool w) buffer_id in
        ALYRN_CHECK returned;;
        let w := set_pool w p in
        ALYRN_CHECK (0 <? active_slot_count_ (src w));;
        Val (put_slot w buffer_id new_slot (active_slot_count_ (src w) - 1))
  end.

Definition MarkKernelDone (w : world) (buffer_id : Z) : outcome world :=
  match slot_at w buffer_id with
  | None => Panic
  | Some slot =>
      ALYRN_CHECK (active slot);;
      ALYRN_CHECK (negb (kernel_done slot));;
      ReturnIfReclaimable (put_slot w buffer_id (mkSlot (lease_count slot) (active slot) true) (active_slot_count_ (src w))) buffer_id
  end.

Fixpoint mark_slots (n : nat) (first : Z) (w : world) : outcome world :=
  match n with
  | O => Val w
  | S n =>
      match slot_at w first with
      | None => Panic
      | Some slot =>
          w ← (if active slot && negb (kernel_done slot) then MarkKernelDone w first else Val w);
          mark_slots n (first + 1) w
      end
  end.

Definition MarkActiveSlotsKernelDone (w : world) : outcome world :=
  if active_slot_count_ (src w) =? 0 then Val w else mark_slots (length (slots_ (src w))) 0 w.

Definition ReleaseSlotLease (w : world) (buffer_id : Z) : outcome world :=
  match slot_at w buffer_id with
  | None => Panic
  | Some slot =>
      ALYRN_CHECK (active slot);;
      ALYRN_CHECK (negb (lease_count slot =? 0));;
      ReturnIfReclaimable (put_slot w buffer_id (mkSlot (lease_count slot - 1) (active slot) (kernel_done slot)) (active_slot_count_ (src w))) buffer_id
  end.

(** The first bytes of a provided buffer. *)
Definition provided (w : world) (buffer_id : Z) (size : nat) : list byte := take size (default [] (memory w !! buffer_id)).

Definition CopyAndReleasePoolSlot (w : world) (buffer_id : Z) (size : nat) : outcome (world * Z) :=
  ALYRN_CHECK (buffer_pool_ (src w));;
  '(w, copy_slot) ← TakeCopySlot w;
  ALYRN_CHECK (bool_decide (is_Some (ProvidedBuffers.slot (pool w) buffer_id)) && (size <=? buffer_size_ (src w))%nat);;
  let bytes := provided w buffer_id size in
  let w := set_src w (set_payloads (src w) (list_inserts (Z.to_nat copy_slot * buffer_size_ (src w)) bytes (queued_payloads_ (src w)))) in
  w ← ReleaseSlotLease w buffer_id;
  Val (w, copy_slot).

Definition QueueEvent (w : world) (buffer_id : Z) (size : nat) : outcome world :=
  ALYRN_CHECK (event_count_ (src w) <? length (events_ (src w)))%nat;;
  '(w, copy_slot) ← CopyAndReleasePoolSlot w buffer_id size;
  let s := src w in
  let index := ((event_head_ s + event_count_ s) mod length (events_ s))%nat in
  Val (set_src w (set_ring s (<[index := mkPending copy_slot size]> (events_ s)) (event_head_ s) (event_count_ s + 1)%nat)).

Definition KeepOverflow (w : world) (buffer_id : Z) (size : nat) : outcome world :=
  ALYRN_CHECK (buffer_pool_ (src w));;
  ALYRN_CHECK (bool_decide (is_Some (ProvidedBuffers.slot (pool w) buffer_id)) && (size <=? buffer_size_ (src w))%nat);;
  let bytes := provided w buffer_id size in
  w ← ReleaseSlotLease w buffer_id;
  Val (set_src w (set_overflow (src w) (overflow_ (src w) ++ [bytes]))).

(** ** Delivery

    Taking an event may resume the source, which may submit a request; a refused request
    stops the source, which delivers in turn. The functions are written with the inner
    call as an argument; a stopped source takes no further turn. *)

Definition EnsureSubmission_with (deliver : world -> outcome world) (w : world) : outcome world :=
  if negb (loop_ (src w)) || negb (initialized w) || negb (bool_decide (st w = kActive)) || recv_submitted_ (src w) || cancel_submitted_ (src w) then Val w
  else
    '(w, submitted) ← StartOperation w;
    match submitted with
    | Ok _ => Val w
    | Err e => deliver (RequestBackendStop w (Some e))
    end.

Definition MaybeResume_with (deliver : world -> outcome world) (w : world) : outcome world :=
  if bool_decide (is_Some (terminal_error_ (src w))) || negb (loop_ (src w)) || negb (initialized w) || cancel_submitted_ (src w) ||
     negb (match overflow_ (src w) with [] => true | _ => false end)
  then Val w
  else
    let '(st', resumed) := RecvSource.TryResume (state_ (src w)) in
    let w := with_state w st' in
    if resumed then EnsureSubmission_with deliver w else Val w.

(** The result, when there is one. *)
Definition TryTakeNext_with (deliver : world -> outcome world) (w : world) : outcome (world * option (ResultE (option Event))) :=
  '(w, pending) ← TryTakeQueuedEvent w;
  match pending with
  | Some pending =>
      let '(st', acquired) := RecvSource.AcquireEvent (state_ (src w)) in
      ALYRN_CHECK acquired;;
      let w := with_state w st' in
      event ← MakeQueuedLease (src w) (copy_slot pending) (p_size pending);
      let w := log_taken w event in
      w ← (if bool_decide (st w = kPaused) then MaybeResume_with deliver w else Val w);
      Val (w, Some (Ok (Some event)))
  | None =>
      match overflow_ (src w) with
      | bytes :: rest =>
          let event := mkEvent None (length bytes) bytes in
          let w := log_taken (set_src w (set_overflow (src w) rest)) event in
          w ← (if (match rest with [] => true | _ => false end) && bool_decide (st w = kPaused) then MaybeResume_with deliver w else Val w);
          Val (w, Some (Ok (Some event)))
      | [] =>
          if bool_decide (st w = kTerminal)
          then Val (w, Some (match terminal_error_ (src w) with Some error => Err error | None => Ok None end))
          else Val (w, None)
      end
  end.

(** DeliverNextIfReady; completing an awaiter that the inner call has taken away would
    follow a null pointer. *)
Fixpoint deliver (depth : nat) (w : world) : outcome world :=
  match depth with
  | O => Panic
  | S depth =>
      match pending_next_ (src w) with
      | None => Val w
      | Some _ =>
          '(w, result) ← TryTakeNext_with (deliver depth) w;
          match result with
          | None => Val w
          | Some result =>
              match pending_next_ (src w) with
              | None => Panic
              | Some a => next_Complete (set_src w (set_next (src w) None)) a result
              end
          end
      end
  end.

Definition DeliverNextIfReady : world -> outcome world := deliver 2.
Definition EnsureSubmission : world -> outcome world := EnsureSubmission_with DeliverNextIfReady.
Definition MaybeResume : world -> outcome world := MaybeResume_with DeliverNextIfReady.
Definition TryTakeNext : world -> outcome (world * option (ResultE (option Event))) := TryTakeNext_with DeliverNextIfReady.

Definition CompleteStopIfReady (w : world) : outcome world :=
  match pending_stop_ (src w) with
  | None => Val w
  | Some a =>
      if recv_submitted_ (src w) || cancel_submitted_ (src w) || negb (bool_decide (st w = kTerminal)) then Val w
      else stop_Complete (set_src w (set_stop (src w) None)) a (Ok tt)
  end.

(** ReturnQueuedPayload, which ReclaimQueuedPayload calls for a released lease. *)
Definition ReturnQueuedPayload (w : world) (copy_slot : Z) : outcome world :=
  let w := FreeCopySlot w copy_slot in
  let '(st', released) := RecvSource.ReleaseLease (state_ (src w)) in
  ALYRN_CHECK released;;
  let w := with_state w st' in
  if bool_decide (st w = kActive) && recv_submitted_ (src w) && bool_decide (pending_stop_ (src w) = None) then Val w
  else
    w ← EnsureSubmission w;
    CompleteStopIfReady w.

(** ** Completions *)

Definition disposition (more : bool) : MultishotRequestDisposition.t := if more then MultishotRequestDisposition.kMore else MultishotRequestDisposition.kTerminal.

(** Do we hand the completion to the waiting Next? *)
Definition direct_delivery (w : world) : bool :=
  bool_decide (is_Some (pending_next_ (src w))) && (event_count_ (src w) =? 0)%nat && (match overflow_ (src w) with [] => true | _ => false end) && bool_decide (st w = kActive).

(** A borrowed buffer with received bytes: is the completion recorded? *)
Definition on_data (w : world) (buffer_id : Z) (size : nat) (more : bool) : outcome (world * bool) :=
  let bytes := provided w buffer_id size in
  let direct := direct_delivery w in
  if negb direct && (negb (match overflow_ (src w) with [] => true | _ => false end) || negb (RecvSource.CanQueueEvent (state_ (src w)))) then
    w ← KeepOverflow w buffer_id size;
    Val (RequestBackendPause (log_kept w bytes), false)
  else
    let '(st', recorded) := RecvSource.CompleteMultishotEvent (if direct then EventDisposition.kDelivered else EventDisposition.kProduced) (disposition more) (state_ (src w)) in
    let w := with_state w st' in
    match recorded with
    | Err e =>
        w ← ReleaseSlotLease w buffer_id;
        Val (RequestBackendStop (log_lost w bytes) (Some e), false)
    | Ok _ =>
        if direct then
          '(w, copy_slot) ← CopyAndReleasePoolSlot w buffer_id size;
          lease ← MakeQueuedLease (src w) copy_slot size;
          match pending_next_ (src w) with
          | None => Panic
          | Some a =>
              let w := log_taken (log_kept w bytes) lease in
              w ← next_Complete (set_src w (set_next (src w) None)) a (Ok (Some lease));
              Val (w, true)
          end
        else
          w ← QueueEvent w buffer_id size;
          Val (log_kept w bytes, true)
    end.

(** A completion without bytes gives its buffer back. *)
Definition on_no_data (w : world) (e : CompletionEvent) (valid : bool) : outcome (world * option Error) :=
  let id := SelectedBufferId e in
  if BufferMore e then Val (w, Some (Errno EPROTO))
  else if valid && (match slot_at w id with Some slot => active slot | None => false end) then w ← MarkKernelDone w id; Val (w, None)
  else if valid then
    let '(p, acquired) := ProvidedBuffers.Acquire (pool w) id in
    let w := set_pool w p in
    if acquired then
      let '(p, returned) := ProvidedBuffers.Return (pool w) id in
      ALYRN_CHECK returned;;
      Val (set_pool w p, None)
    else Val (w, None)
  else Val (w, None).

(** The branches on the result: is the completion recorded, and its error. *)
Definition on_result (w : world) (e : CompletionEvent) : outcome (world * bool * option Error) :=
  let more := More e in
  let id := SelectedBufferId e in
  let result := event_result e in
  let valid := HasSelectedBuffer e && buffer_pool_ (src w) && (id <? ProvidedBuffers.capacity_ (pool w)) in
  if 0 <? result then
    if negb valid || BufferMore e then Val (w, false, Some (Errno EPROTO))
    else
      let '(w, acquired) := AcquireBuffer w id result in
      match acquired with
      | Err error => Val (w, false, Some error)
      | Ok _ =>
          w ← MarkKernelDone w id;
          '(w, recorded) ← on_data w id (Z.to_nat result) more;
          Val (w, recorded, None)
      end
  else if result =? 0 then
    '(w, error) ← on_no_data w e valid;
    Val (if negb more then RequestBackendStop w None else w, false, error)
  else
    '(w, error) ← on_no_data w e valid;
    let stopping := bool_decide (st w ∈ [kStopping; kPausing; kPaused; kDraining; kTerminal]) in
    Val (if negb stopping && (negb (result =? - ENOBUFS) || more) then RequestBackendStop w (Some (NegErrno result)) else w, false, error).

Definition OnCompletion (w : world) (e : CompletionEvent) : outcome (world * CompletionDisposition) :=
  let more := More e in
  let w := if negb more then set_src w (set_recv (src w) (recv_op_ (src w)) false) else w in
  '(w, recorded, error) ← on_result w e;
  let w := match error with Some error => RequestBackendStop w (Some error) | None => w end in
  let w :=
    if (recorded : bool) then w
    else
      let '(st', r) := RecvSource.CompleteMultishotEvent EventDisposition.kNone (disposition more) (state_ (src w)) in
      let w := with_state w st' in
      match r with
      | Ok _ => w
      | Err e => RequestBackendStop (set_src w (set_error (src w) (Some e))) (Some e)
      end in
  w ← (if negb more then
         w ← MarkActiveSlotsKernelDone w;
         Val (set_src w (set_recv (src w) (UringOp.BeginNextRequest (recv_op_ (src w))) (recv_submitted_ (src w))))
       else Val w);
  let w :=
    if bool_decide (st w = kActive) && (RecvSource.event_capacity (RecvSource.options_ (state_ (src w))) <=? RecvSource.queued_events_ (state_ (src w)))
    then RequestBackendPause w else w in
  w ← (if negb more && bool_decide (st w = kActive) && bool_decide (terminal_error_ (src w) = None) then EnsureSubmission w else Val w);
  w ← DeliverNextIfReady w;
  w ← MaybeResume w;
  w ← CompleteStopIfReady w;
  Val (w, mkDisposition (negb more) (negb more) false).

Definition OnCancelComplete (w : world) (cqe_result : Z) : outcome world :=
  let w := set_src w (set_cancel (src w) (cancel_op_ (src w)) false) in
  let w := if UringOp.IsExpectedCancelCqeResult cqe_result then w else set_error_once w (Some (NegErrno cqe_result)) in
  w ← MaybeResume w;
  CompleteStopIfReady w.

(** DispatchRecvSourceCancelComplete *)
Definition DispatchCancel (w : world) : outcome world :=
  let op := cancel_op_ (src w) in
  result ← (if UringOp.HasValue (UringOp.result op) then UringOp.cqe_read (UringOp.result op) else Val (- EIO));
  OnCancelComplete w result.

(** ** Awaiters *)

Definition next_inline (w : world) (a : nat) (result : ResultE (option Event)) : outcome (world * bool) :=
  n ← get_next w a;
  cell ← ValueResultState.SetResult result (n_result n);
  Val (put_next w a (mkNext (n_bound n) (CompletionGate.TryComplete (n_gate n)).1 cell), false).

(** NextAwaiter::await_suspend once the source has started. *)
Definition next_wait (w : world) (a : nat) : outcome (world * bool) :=
  '(w, result) ← TryTakeNext w;
  match result with
  | Some result => next_inline w a result
  | None =>
      n ← get_next w a;
      let w := put_next w a (mkNext true (n_gate n) (n_result n)) in
      Val (set_src w (set_next (src w) (Some a)), true)
  end.

(** NextAwaiter::await_suspend: does the coroutine stay suspended? *)
Definition next_await_suspend (w : world) (a : nat) : outcome (world * bool) :=
  if negb (loop_ (src w)) || (fd_ (src w) <? 0) then next_inline w a (Err (Errno EBADF))
  else if negb (here w) then next_inline w a (Err (Errno EINVAL))
  else match pending_next_ (src w) with
  | Some _ => next_inline w a (Err (Errno EBUSY))
  | None =>
      if bool_decide (st w = kIdle) then
        '(w, started) ← Start w;
        match started with
        | Err e => next_inline w a (Err e)
        | Ok _ => next_wait w a
        end
      else next_wait w a
  end.

Definition next_await_resume (w : world) (a : nat) : outcome (world * ResultE (option Event)) :=
  n ← get_next w a;
  '(result, cell) ← ValueResultState.Take (n_result n);
  Val (put_next w a (mkNext (n_bound n) (n_gate n) cell), result).

Definition stop_inline (w : world) (a : nat) (result : ResultE unit) : outcome (world * bool) :=
  p ← get_stop w a;
  Val (put_stop w a (mkStop (w_bound p) (CompletionGate.TryComplete (w_gate p)).1 (Some result)), false).

(** StopAwaiter::await_suspend *)
Definition stop_await_suspend (w : world) (a : nat) : outcome (world * bool) :=
  p ← get_stop w a;
  ALYRN_CHECK (negb (w_bound p));;
  let w := put_stop w a (mkStop true (w_gate p) (w_result p)) in
  let w := set_src w (set_stop (src w) (Some a)) in
  let '(w, waiting) := BeginStop w in
  match waiting with
  | Err e => stop_inline (set_src w (set_stop (src w) None)) a (Err e)
  | Ok false => stop_inline (set_src w (set_stop (src w) None)) a (Ok tt)
  | Ok true => Val (w, true)
  end.

Definition stop_await_resume (w : world) (a : nat) : outcome (ResultE unit) :=
  p ← get_stop w a;
  match w_result p with Some r => Val r | None => Panic end.

(** Stop: [None] while it waits. *)
Definition Stop (w : world) (a : nat) : outcome (world * option (ResultE unit)) :=
  if negb (loop_ (src w)) then Val (w, Some (Ok tt))
  else if negb (here w) then Val (w, Some (Err (Errno EINVAL)))
  else match pending_stop_ (src w) with
  | Some _ => Val (w, Some (Err (Errno EBUSY)))
  | None =>
      if bool_decide (st w = kTerminal) && negb (recv_submitted_ (src w)) && negb (cancel_submitted_ (src w)) then Val (w, Some (Ok tt))
      else
        '(w, suspended) ← stop_await_suspend w a;
        if (suspended : bool) then Val (w, None)
        else r ← stop_await_resume w a; Val (w, Some r)
  end.

Definition RequestStop (w : world) : world * ResultE unit :=
  if negb (loop_ (src w)) || (fd_ (src w) <? 0) then (w, Err (Errno EBADF))
  else if negb (here w) then (w, Err (Errno EINVAL))
  else let '(w, waiting) := BeginStop w in (w, match waiting with Err e => Err e | Ok _ => Ok tt end).

(** ** Creation, destruction and moves *)

(** A buffer size of zero is that of the loop. *)
Record RecvSourceOptions := mkOptions { source_options : RecvSource.RecvSourceOptions; buffer_size : Z }.

Definition Valid (o : RecvSourceOptions) : bool :=
  let capacity := RecvSource.buffer_capacity (source_options o) in
  RecvSource.Valid (source_options o) && (RecvSource.pending_depth (source_options o) =? 1) && (buffer_size o <=? ProvidedBuffers.uint32_max) &&
  (capacity <=? 32 * 1024) && (Z.land capacity (capacity - 1) =? 0).

(** The answers of the calls that create the shared pool. *)
Record pool_answers := mkAnswers { mapped : Z + Z; setup : option Z; room_table : bool; room_pool : bool }.

Definition new_source (fd : Z) (state : RecvSource.t) (size : Z) (p : ProvidedBuffers.pool) : source :=
  let capacity := RecvSource.buffer_capacity (RecvSource.options_ state) in
  mkSource true fd state (replicate (Z.to_nat (RecvSource.event_capacity (RecvSource.options_ state))) (mkPending 0 0))
    (replicate (Z.to_nat (ProvidedBuffers.capacity_ p)) new_slot) (replicate (Z.to_nat capacity * Z.to_nat size) "000"%byte) (seqZ 0 capacity) 0 0 [] 0 None None None
    (UringOp.new_Op UringOp.kRecvSourceComplete) (UringOp.new_Op UringOp.kRecvSourceCancelComplete) (Z.to_nat size) true false false.

(** Create; [room] is whether the queue and the copy slots find memory. *)
Definition Create (loop initialized here : bool) (fd : Z) (o : RecvSourceOptions) (sh : ProvidedBuffers.shared) (a : pool_answers) (room : bool) : outcome (ProvidedBuffers.shared * ResultE source) :=
  if negb loop || negb initialized then Val (sh, Err (Errno EBADF))
  else if negb here || (fd <? 0) then Val (sh, Err (Errno EINVAL))
  else if negb (Valid o) then Val (sh, Err (Errno EINVAL))
  else
    let capacity := RecvSource.buffer_capacity (source_options o) in
    match RecvSource.Create (source_options o) with
    | Err e => Val (sh, Err e)
    | Ok state =>
        let published := Z.min capacity RecvSource.kMaxRearmWorkingSet in
        let size := if buffer_size o =? 0 then ProvidedBuffers.shared_buffer_size_ sh else buffer_size o in
        '(sh, shared_pool) ← ProvidedBuffers.GetSharedProvidedBufferPool sh here size published (mapped a) (setup a) (room_table a) (room_pool a);
        match shared_pool with
        | Err e => Val (sh, Err (if err_value e =? ENOENT then Errno ENOTSUP else e))
        | Ok p =>
            let size := ProvidedBuffers.buffer_size_ p in
            ALYRN_CHECK (0 <? size);;
            if size_max / size <? capacity then Val (sh, Err (Errno EOVERFLOW))
            else if ProvidedBuffers.capacity_ p <? capacity then Val (sh, Err (Errno EINVAL))
            else if negb room then Val (sh, Err (Errno ENOMEM))
            else Val (sh, Ok (new_source fd state size p))
        end
    end.

(** The checks of the destructor and of a move. *)
Definition at_rest (s : source) : bool :=
  bool_decide (pending_next_ s = None) && bool_decide (pending_stop_ s = None) && negb (recv_submitted_ s) && negb (cancel_submitted_ s) &&
  (bool_decide (RecvSource.state_ (state_ s) = kIdle) || bool_decide (RecvSource.state_ (state_ s) = kTerminal)) &&
  (event_count_ s =? 0)%nat && (RecvSource.outstanding_leases_ (state_ s) =? 0) && forallb (fun slot => negb (active slot)) (slots_ s).

Definition destroy (s : source) (here : bool) : outcome unit :=
  if negb (loop_ s) then Val tt else ALYRN_CHECK here;; ALYRN_CHECK (at_rest s).

Definition ValidateMovable : source -> bool -> outcome unit := destroy.

(** What a move leaves behind, and what it makes. *)
Definition moved_from (s : source) : source :=
  mkSource false (-1) (state_ s) [] [] [] [] 0 0 [] 0 (terminal_error_ s) (pending_next_ s) (pending_stop_ s) (recv_op_ s) (cancel_op_ s) 0 false (recv_submitted_ s) (cancel_submitted_ s).
Definition moved_to (s : source) : source :=
  mkSource (loop_ s) (fd_ s) (state_ s) (events_ s) (slots_ s) (queued_payloads_ s) (copy_free_ s) (event_head_ s) (event_count_ s) (overflow_ s) (active_slot_count_ s) (terminal_error_ s)
    None None (UringOp.new_Op UringOp.kRecvSourceComplete) (UringOp.new_Op UringOp.kRecvSourceCancelComplete) (buffer_size_ s) (buffer_pool_ s) false false.

Definition move_source (other : source) (here : bool) : outcome (source * source) :=
  ValidateMovable other here;; Val (moved_to other, moved_from other).

(** operator=(RecvSource&&) between sources of one loop; the operations of the destination
    stay where they are. *)
Definition move_assign_source (self other : source) (here : bool) : outcome (source * source) :=
  ValidateMovable self here;;
  ValidateMovable other here;;
  Val (mkSource (loop_ other) (fd_ other) (state_ other) (events_ other) (slots_ other) (queued_payloads_ other) (copy_free_ other) (event_head_ other) (event_count_ other) (overflow_ other)
         (active_slot_count_ other) (terminal_error_ other) (pending_next_ self) (pending_stop_ self) (recv_op_ self) (cancel_op_ self) (buffer_size_ other) (buffer_pool_ other) (recv_submitted_ self) (cancel_submitted_ self),
       moved_from other).

(** ** Scripts *)

Inductive action :=
| ANext (a : nat)                             (* co_await Next() *)
| AResume                                     (* the loop runs the first scheduled continuation *)
| ARelease (i : nat)                          (* the i-th outstanding lease is released *)
| AComplete (e : CompletionEvent) (data : list byte)   (* a completion of the receive, and what its buffer holds *)
| ACancelled (result : Z)                     (* a completion of the cancellation *)
| AAnswers (answers : list (option Error))    (* what SubmitOp will answer *)
| AStop (a : nat)                             (* co_await Stop() *)
| ARequestStop.

Definition ReleaseEvent (w : world) (e : Event) : outcome world :=
  match e_slot e with Some copy_slot => ReturnQueuedPayload w copy_slot | None => Val w end.

(** Results of completions are int values other than INT_MIN. *)
Definition cqe_ok (result : Z) : bool := (UringOp.int32_min <? result) && (result <=? UringOp.int32_max).

(** [None]: not possible in this state. *)
Definition exec (w : world) (c : action) : option (outcome world) :=
  match c with
  | ANext a =>
      match nexts w !! a with
      | Some _ => None
      | None => Some (
          '(w, suspended) ← next_await_suspend (put_next w a new_next) a;
          if (suspended : bool) then Val w else '(w, _) ← next_await_resume w a; Val w)
      end
  | AResume =>
      match work w with
      | [] => None
      | (true, a) :: rest => Some ('(w, _) ← next_await_resume (set_work w rest) a; Val w)
      | (false, a) :: rest => Some (_ ← stop_await_resume w a; Val (set_work w rest))
      end
  | ARelease i =>
      match out w !! i with
      | None => None
      | Some e => Some (ReleaseEvent (set_out w (delete i (out w))) e)
      end
  | AComplete e data =>
      if recv_submitted_ (src w) && cqe_ok (event_result e) && (0 <=? UringOp.event_flags e) && (event_result e <=? Z.of_nat (length data)) then
        Some ('(w, _) ← OnCompletion (if HasSelectedBuffer e then set_memory w (<[SelectedBufferId e := data]> (memory w)) else w) e; Val w)
      else None
  | ACancelled result =>
      if cancel_submitted_ (src w) && cqe_ok result then
        Some ('(op, recorded) ← UringOp.TryRecordCqeCompletion (cancel_op_ (src w)) result;
              ALYRN_CHECK recorded;;
              DispatchCancel (set_src w (set_cancel (src w) op true)))
      else None
  | AAnswers answers => Some (Val (set_submits w (submits w ++ answers)))
  | AStop a =>
      match stops w !! a with
      | Some _ => None
      | None => Some ('(w, _) ← Stop (put_stop w a new_stop) a; Val w)
      end
  | ARequestStop => Some (Val (RequestStop w).1)
  end.

Definition initial (s : source) (p : ProvidedBuffers.pool) : world := mkWorld s p ∅ true true ∅ ∅ [] [] [] [] [] [].

Inductive reachable (s : source) (p : ProvidedBuffers.pool) : world -> Prop :=
| reach_initial : reachable s p (initial s p)
| reach_step w c w' : reachable s p w -> exec w c = Some (Val w') -> reachable s p w'.

(** The queued events, from the ring. *)
Definition queue (s : source) : list PendingEvent := omap (fun i => events_ s !! ((event_head_ s + i) mod length (events_ s))%nat) (seq 0 (event_count_ s)).

End source.

End UringRecv.
