(* ===== verification/UringRecvInv.v ===== *)
(** * The io_uring receive source: its invariant

    The queue in its ring, the bytes in the copy slots, the provided buffers between
    completions, the calls of the admission machine in closed form, and the invariant they
    make up. *)

From Stdlib Require Import Strings.Byte.
From S2P Require Import Prelude Lifecycles Sources RecvSource ResultCells UringOp ProvidedBuffers UringRecv.

Module UringRecvInv.
Import UringRecv.

Abbreviation q_of w := (RecvSource.queued_events_ (state_ (src w))).
Abbreviation a_of w := (RecvSource.armed_requests_ (state_ (src w))).
Abbreviation l_of w := (RecvSource.outstanding_leases_ (state_ (src w))).
Abbreviation o_of w := (RecvSource.options_ (state_ (src w))).

Section inv.
Context {BR : ProvidedBuffers.BufRing}.

(** ** The queue *)

Definition ring {A} (es : list A) (head count : nat) : list A := omap (fun i => es !! ((head + i) mod length es)%nat) (seq 0 count).

Lemma ring_index_inj h n i j : (i < n)%nat -> (j < n)%nat -> ((h + i) mod n = (h + j) mod n)%nat -> i = j.
Proof.
  intros Hi Hj E. apply Nat2Z.inj. apply (mod_inj_lt _ _ (Z.of_nat n) (Z.of_nat h)); [lia | lia | lia|]. rewrite <- !Nat2Z.inj_add, <- !Nat2Z.inj_mod. by rewrite E.
Qed.

Lemma omap_ext_seq {A} (f g : nat -> option A) a n : (forall i, (a <= i < a + n)%nat -> f i = g i) -> omap f (seq a n) = omap g (seq a n).
Proof. revert a. induction n as [|n IH]; intros a H; cbn; [done|]. rewrite (H a), (IH (S a)) by (lia || (intros i Hi; apply H; lia)). done. Qed.

Lemma omap_seq_shift {A} (f : nat -> option A) a n : omap f (seq (S a) n) = omap (fun i => f (S i)) (seq a n).
Proof. revert a. induction n as [|n IH]; intros a; cbn; [done|]. by rewrite IH. Qed.

Lemma ring_push {A} (es : list A) h c x : (c < length es)%nat -> ring (<[((h + c) mod length es)%nat := x]> es) h (c + 1) = ring es h c ++ [x].
Proof.
  intros Hc. unfold ring. rewrite length_insert, seq_app, omap_app. cbn. rewrite list_lookup_insert_eq by (apply Nat.mod_upper_bound; lia). cbn. f_equal. apply omap_ext_seq. intros i Hi. rewrite list_lookup_insert_ne; [done|].
  intros E. apply ring_index_inj in E; lia.
Qed.

Lemma ring_pop {A} (es : list A) h c : (0 < c)%nat -> (h < length es)%nat -> exists x, es !! h = Some x /\ ring es h c = x :: ring es ((h + 1) mod length es) (c - 1).
Proof.
  intros Hc Hh. destruct (lookup_lt_is_Some_2 es h Hh) as [x Hx]. exists x. split; [done|]. unfold ring. destruct c as [|c]; [lia|]. cbn. rewrite Nat.add_0_r, Nat.mod_small, Hx by done. rewrite Nat.sub_0_r. f_equal.
  rewrite omap_seq_shift. apply omap_ext_seq. intros i _. rewrite Nat.Div0.add_mod_idemp_l. by rewrite <- Nat.add_assoc.
Qed.

Lemma ring_length {A} (es : list A) h c : (0 < length es)%nat -> length (ring es h c) = c.
Proof.
  intros He. unfold ring. generalize 0%nat. induction c as [|c IH]; intros a; cbn; [done|]. destruct (lookup_lt_is_Some_2 es ((h + a) mod length es)) as [x ->]; [apply Nat.mod_upper_bound; lia|]. cbn. by rewrite IH.
Qed.

Lemma queue_ring s : queue s = ring (events_ s) (event_head_ s) (event_count_ s).
Proof. done. Qed.

(** ** Copy slots *)

Lemma slot_write (qp bytes : list byte) (k bs cap : nat) : length qp = (cap * bs)%nat -> (k < cap)%nat -> (length bytes <= bs)%nat ->
  take (length bytes) (drop (k * bs) (list_inserts (k * bs) bytes qp)) = bytes.
Proof.
  intros Hl Hk Hb. assert (k * bs + length bytes <= length qp)%nat by nia. apply list_eq. intros i. destruct (decide (i < length bytes)%nat) as [Hi|Hi].
  - rewrite lookup_take_lt, lookup_drop, list_lookup_inserts by lia. f_equal. lia.
  - rewrite lookup_take_ge, lookup_ge_None_2 by lia. done.
Qed.

Lemma slot_write_other (qp bytes : list byte) (k k' bs size : nat) : k <> k' -> (length bytes <= bs)%nat -> (size <= bs)%nat ->
  take size (drop (k' * bs) (list_inserts (k * bs) bytes qp)) = take size (drop (k' * bs) qp).
Proof.
  intros Hk Hb Hs. apply list_eq. intros i. destruct (decide (i < size)%nat) as [Hi|Hi]; [|by rewrite !lookup_take_ge by lia]. rewrite !lookup_take_lt, !lookup_drop by done.
  destruct (decide (k' < k)%nat); [rewrite list_lookup_inserts_lt by nia; done | rewrite list_lookup_inserts_ge by nia; done].
Qed.

(** ** The admission machine in closed form *)

Definition done_of (s : SourceState) (q a l : Z) : SourceState :=
  match s with
  | kPausing => if a =? 0 then kPaused else kPausing
  | kStopping => if negb (a =? 0) then kStopping else if (q =? 0) && (l =? 0) then kTerminal else kDraining
  | kDraining => if (a =? 0) && (q =? 0) && (l =? 0) then kTerminal else kDraining
  | s => s
  end.

Definition stop_of (s : SourceState) (q a l : Z) : SourceState :=
  match s with
  | kIdle => kTerminal
  | kActive | kPausing | kPaused => done_of kStopping q a l
  | s => s
  end.

Definition pause_of (s : SourceState) (a : Z) : SourceState := match s with kActive => if a =? 0 then kPaused else kPausing | s => s end.

Lemma machine_reconcile o s q a l : RecvSource.ReconcileUnlessActive (RecvSource.mk o s q a l) = RecvSource.mk o (done_of s q a l) q a l.
Proof.
  unfold RecvSource.ReconcileUnlessActive, RecvSource.ReconcileStopping, RecvSource.ReconcilePause, RecvSource.set_state, done_of.
  destruct s; cbn; repeat (split_if; bool_prop; simplify_eq/=); try done; lia.
Qed.

Lemma machine_stop o s q a l : RecvSource.RequestStop (RecvSource.mk o s q a l) = (RecvSource.mk o (stop_of s q a l) q a l, Ok tt).
Proof.
  unfold RecvSource.RequestStop, RecvSource.ReconcileStopping, RecvSource.ReconcilePause, RecvSource.set_state, stop_of, done_of.
  destruct s; cbn; repeat (split_if; bool_prop; simplify_eq/=); try done; lia.
Qed.

Lemma machine_pause o s q a l : (RecvSource.RequestPause (RecvSource.mk o s q a l)).1 = RecvSource.mk o (pause_of s a) q a l.
Proof. unfold RecvSource.RequestPause, RecvSource.ReconcilePause, RecvSource.set_state, pause_of. destruct s; cbn; try done. by destruct (a =? 0). Qed.

Lemma machine_none o s q l more : RecvSource.CompleteMultishotEvent EventDisposition.kNone (disposition more) (RecvSource.mk o s q 1 l) =
  (RecvSource.mk o (done_of s q (if more then 1 else 0) l) q (if more then 1 else 0) l, Ok tt).
Proof. unfold RecvSource.CompleteMultishotEvent. cbn. rewrite machine_reconcile. by destruct more. Qed.

Lemma machine_produced o s q l more : q < RecvSource.event_capacity o <= size_max -> l < RecvSource.buffer_capacity o <= size_max -> 0 <= q -> 0 <= l ->
  RecvSource.CompleteMultishotEvent EventDisposition.kProduced (disposition more) (RecvSource.mk o s q 1 l) =
  (RecvSource.mk o (done_of s (q + 1) (if more then 1 else 0) (l + 1)) (q + 1) (if more then 1 else 0) (l + 1), Ok tt).
Proof.
  intros Hq Hl H0 H1. unfold RecvSource.CompleteMultishotEvent, RecvSource.CanQueueEvent. cbn. rewrite (proj2 (Z.ltb_lt q _)), (proj2 (Z.ltb_lt l _)) by lia. cbn.
  rewrite (usize_small (q + 1)), (usize_small (l + 1)), machine_reconcile by (unfold is_usize; lia). by destruct more.
Qed.

Lemma machine_delivered o s q l more : l < RecvSource.buffer_capacity o <= size_max -> 0 <= l ->
  RecvSource.CompleteMultishotEvent EventDisposition.kDelivered (disposition more) (RecvSource.mk o s q 1 l) =
  (RecvSource.mk o (done_of s q (if more then 1 else 0) (l + 1)) q (if more then 1 else 0) (l + 1), Ok tt).
Proof.
  intros Hl H1. unfold RecvSource.CompleteMultishotEvent, RecvSource.CanDeliverEvent. cbn. rewrite (proj2 (Z.ltb_lt l _)) by lia. cbn.
  rewrite (usize_small (l + 1)), machine_reconcile by (unfold is_usize; lia). by destruct more.
Qed.

Lemma machine_delivered_full o s q l more : RecvSource.buffer_capacity o <= l ->
  RecvSource.CompleteMultishotEvent EventDisposition.kDelivered (disposition more) (RecvSource.mk o s q 1 l) = (RecvSource.mk o s q 1 l, Err (Errno ENOBUFS)).
Proof. intros Hl. unfold RecvSource.CompleteMultishotEvent, RecvSource.CanDeliverEvent. cbn. by rewrite (proj2 (Z.ltb_ge l _)). Qed.

Lemma machine_acquire o s q a l : 0 < q <= size_max -> RecvSource.AcquireEvent (RecvSource.mk o s q a l) = (RecvSource.mk o (done_of s (q - 1) a l) (q - 1) a l, true).
Proof.
  intros Hq. unfold RecvSource.AcquireEvent. cbn. rewrite (proj2 (Z.eqb_neq q 0)) by lia. rewrite usize_small, machine_reconcile by (unfold is_usize; lia). done.
Qed.

Lemma machine_release o s q a l : 0 < l <= size_max -> RecvSource.ReleaseLease (RecvSource.mk o s q a l) = (RecvSource.mk o (done_of s q a (l - 1)) q a (l - 1), true).
Proof.
  intros Hl. unfold RecvSource.ReleaseLease. cbn. rewrite (proj2 (Z.eqb_neq l 0)) by lia. rewrite usize_small, machine_reconcile by (unfold is_usize; lia). done.
Qed.

Lemma machine_resume o s q a l : RecvSource.TryResume (RecvSource.mk o s q a l) =
  if bool_decide (s = kPaused) && (q <=? RecvSource.ResumeThreshold o) then (RecvSource.mk o kActive q a l, true) else (RecvSource.mk o s q a l, false).
Proof.
  unfold RecvSource.TryResume. cbn. destruct (bool_decide (s = kPaused)); cbn; [|done]. destruct (Z.ltb_spec (RecvSource.ResumeThreshold o) q), (Z.leb_spec q (RecvSource.ResumeThreshold o)); done || lia.
Qed.

(** ** The invariant *)

(** The copy slots of the outstanding leases. *)
Definition leased (es : list Event) : list Z := omap e_slot es.

(** Queue, copy slots, leases and logs. *)
Record data (o : RecvSource.RecvSourceOptions) (bs : nat) (w : world) : Prop := {
  d_loop : loop_ (src w) = true;
  d_here : here w = true;
  d_init : initialized w = true;
  d_fd : 0 <= fd_ (src w);
  d_bs : buffer_size_ (src w) = bs;
  d_pool : buffer_pool_ (src w) = true;
  d_options : o_of w = o;
  d_events : length (events_ (src w)) = Z.to_nat (RecvSource.event_capacity o);
  d_head : (event_head_ (src w) < length (events_ (src w)))%nat;
  d_count : (event_count_ (src w) <= length (events_ (src w)))%nat;
  d_q : q_of w = Z.of_nat (event_count_ (src w));
  d_l : l_of w = Z.of_nat (event_count_ (src w) + length (leased (out w)));
  d_copy : copy_free_ (src w) ++ (copy_slot <$> queue (src w)) ++ leased (out w) ≡ₚ seqZ 0 (RecvSource.buffer_capacity o);
  d_payloads : length (queued_payloads_ (src w)) = (Z.to_nat (RecvSource.buffer_capacity o) * bs)%nat;
  d_queued p : p ∈ queue (src w) -> (0 < p_size p <= bs)%nat;
  d_out e k : e ∈ out w -> e_slot e = Some k -> (0 < e_size e <= bs)%nat /\ payload (src w) k (e_size e) = e_bytes e;
  d_log : kept w = taken w ++ ((fun p => payload (src w) (copy_slot p) (p_size p)) <$> queue (src w)) ++ overflow_ (src w);
}.

(** Between completions no provided buffer is borrowed. *)
Definition pool_idle (p : ProvidedBuffers.pool) : Prop :=
  is_Some (ProvidedBuffers.buffer_ring_ p) /\ ProvidedBuffers.in_use_ p = replicate (Z.to_nat (ProvidedBuffers.capacity_ p)) false /\
  ProvidedBuffers.s_capacity_ (ProvidedBuffers.storage_ p) = ProvidedBuffers.capacity_ p /\ 0 < ProvidedBuffers.capacity_ p.
Definition idle (w : world) : Prop :=
  slots_ (src w) = replicate (Z.to_nat (ProvidedBuffers.capacity_ (pool w))) new_slot /\ active_slot_count_ (src w) = 0 /\ pool_idle (pool w).

(** A parked awaiter is pending; a scheduled one has its result, and is scheduled once. *)
Record waiters (w : world) : Prop := {
  w_next a : pending_next_ (src w) = Some a -> nexts w !! a = Some (mkNext true CompletionGate.initial ValueResultState.kPending);
  w_stop a : pending_stop_ (src w) = Some a -> stops w !! a = Some (mkStop true CompletionGate.initial None);
  w_work_next a : (true, a) ∈ work w -> exists n, nexts w !! a = Some n /\ ValueResultState.HasResult (n_result n) = true;
  w_work_stop a : (false, a) ∈ work w -> exists p r, stops w !! a = Some p /\ w_result p = Some r;
  w_nodup : NoDup (work w);
}.

Definition fresh_cancel : UringOp.Op := UringOp.new_Op UringOp.kRecvSourceCancelComplete.

(** State, requests and error. *)
Record ctrl (w : world) : Prop := {
  k_coherent : RecvSource.state_coherent (st w) (q_of w) (a_of w) (l_of w);
  k_cancel : cancel_submitted_ (src w) = true -> cancel_op_ (src w) = fresh_cancel;
  k_active : st w = kActive -> terminal_error_ (src w) = None /\ cancel_submitted_ (src w) = false /\ q_of w < RecvSource.event_capacity (o_of w);
  k_idle : st w = kIdle -> terminal_error_ (src w) = None /\ cancel_submitted_ (src w) = false /\ pending_next_ (src w) = None /\ overflow_ (src w) = [];
  k_lost : lost w <> [] -> stopped (st w) = true /\ terminal_error_ (src w) <> None;
  k_stop a : pending_stop_ (src w) = Some a -> stopped (st w) = true;
}.

(** Outside of a completion the armed request is the one with the kernel. *)
Definition armed_ok (w : world) : Prop := a_of w = if recv_submitted_ (src w) then 1 else 0.

(** An active source without a request has leases out that keep it from arming. *)
Definition admitted (w : world) : Prop := st w = kActive -> recv_submitted_ (src w) = false -> RecvSource.CanArm (state_ (src w)) = false.

(** What keeps a source paused. *)
Definition paused_ok (w : world) : Prop :=
  st w = kPaused -> cancel_submitted_ (src w) = true \/ overflow_ (src w) <> [] \/ RecvSource.ResumeThreshold (o_of w) < q_of w \/ terminal_error_ (src w) <> None.

Definition next_waits (w : world) : Prop := forall a, pending_next_ (src w) = Some a -> event_count_ (src w) = 0%nat /\ overflow_ (src w) = [].
Definition stop_waits (w : world) : Prop := forall a, pending_stop_ (src w) = Some a -> recv_submitted_ (src w) = true \/ cancel_submitted_ (src w) = true \/ st w <> kTerminal.

(** ** Changes of state, requests and error *)

Definition control (w : world) (st' : SourceState) (a : Z) (te : option Error) (cop : UringOp.Op) (cs : bool) (rop : UringOp.Op) (rs : bool) (subs : list (option Error)) : world :=
  let s := src w in
  set_submits (set_src w (mkSource (loop_ s) (fd_ s) (RecvSource.mk (o_of w) st' (q_of w) a (l_of w)) (events_ s) (slots_ s) (queued_payloads_ s) (copy_free_ s) (event_head_ s) (event_count_ s) (overflow_ s)
    (active_slot_count_ s) te (pending_next_ s) (pending_stop_ s) rop cop (buffer_size_ s) (buffer_pool_ s) rs cs)) subs.

(** A change of the control part only. *)
Definition ctl (w w' : world) : Prop := exists st' a te cop cs rop rs subs, w' = control w st' a te cop cs rop rs subs.

Lemma machine_eta (m : RecvSource.t) : m = RecvSource.mk (RecvSource.options_ m) (RecvSource.state_ m) (RecvSource.queued_events_ m) (RecvSource.armed_requests_ m) (RecvSource.outstanding_leases_ m).
Proof. by destruct m. Qed.

Lemma control_same w : control w (st w) (a_of w) (terminal_error_ (src w)) (cancel_op_ (src w)) (cancel_submitted_ (src w)) (recv_op_ (src w)) (recv_submitted_ (src w)) (submits w) = w.
Proof. by destruct w as [[? ? []]]. Qed.

Lemma ctl_refl w : ctl w w.
Proof. eexists _, _, _, _, _, _, _, _. symmetry. apply control_same. Qed.

Lemma ctl_trans w1 w2 w3 : ctl w1 w2 -> ctl w2 w3 -> ctl w1 w3.
Proof. intros (? & ? & ? & ? & ? & ? & ? & ? & ->) (? & ? & ? & ? & ? & ? & ? & ? & ->). by eexists _, _, _, _, _, _, _, _. Qed.

Lemma ctl_data o bs w w' : ctl w w' -> data o bs w -> data o bs w'.
Proof. intros (? & ? & ? & ? & ? & ? & ? & ? & ->) []. by split. Qed.

Lemma ctl_idle w w' : ctl w w' -> idle w -> idle w'.
Proof. by intros (? & ? & ? & ? & ? & ? & ? & ? & ->). Qed.

Lemma ctl_waiters w w' : ctl w w' -> waiters w -> waiters w'.
Proof. intros (? & ? & ? & ? & ? & ? & ? & ? & ->) []. by split. Qed.

(** What such a change leaves alone, as the proofs below use it. *)
Record same (w w' : world) : Prop := {
  s_next : pending_next_ (src w') = pending_next_ (src w);
  s_stop : pending_stop_ (src w') = pending_stop_ (src w);
  s_count : event_count_ (src w') = event_count_ (src w);
  s_overflow : overflow_ (src w') = overflow_ (src w);
  s_q : q_of w' = q_of w;
  s_l : l_of w' = l_of w;
  s_o : o_of w' = o_of w;
  s_lost : lost w' = lost w;
  s_out : out w' = out w;
  s_kept : kept w' = kept w;
  s_taken : taken w' = taken w;
}.

Lemma ctl_same w w' : ctl w w' -> same w w'.
Proof. by intros (? & ? & ? & ? & ? & ? & ? & ? & ->). Qed.

(** ** Cancelling, stopping and pausing *)

Lemma cancel_Prepare_fresh o : cancel_Prepare o = fresh_cancel.
Proof. apply UringOp.BeginNextRequest_new. Qed.

Lemma StartCancel_spec w : recv_submitted_ (src w) = true -> cancel_submitted_ (src w) = false ->
  exists subs, StartCancel w = (control w (st w) (a_of w) (terminal_error_ (src w)) fresh_cancel true (recv_op_ (src w)) true subs, Ok tt) \/
    exists e, StartCancel w = (control w (st w) (a_of w) (terminal_error_ (src w)) fresh_cancel false (recv_op_ (src w)) true subs, Err e).
Proof.
  intros Hr Hc. unfold StartCancel. rewrite Hr, Hc. cbn [negb orb]. rewrite cancel_Prepare_fresh. unfold SubmitOp. cbn [submits set_src]. destruct (head (submits w)) as [[e|]|]; cbn [default]; exists (tail (submits w)); [right; exists e | left | left];
    destruct w as [[? ? []]]; cbn in *; by rewrite Hr.
Qed.

(** What a request to stop or to pause changes besides the state. *)
Record settled (w w' : world) : Prop := {
  t_ctl : ctl w w';
  t_armed : a_of w' = a_of w;
  t_recv : recv_submitted_ (src w') = recv_submitted_ (src w);
  t_cancel : (cancel_submitted_ (src w) = true -> cancel_op_ (src w) = fresh_cancel) -> cancel_submitted_ (src w') = true -> cancel_op_ (src w') = fresh_cancel;
  t_keeps : cancel_submitted_ (src w) = true -> cancel_submitted_ (src w') = true;
  t_unsent : recv_submitted_ (src w) = false -> cancel_submitted_ (src w') = cancel_submitted_ (src w);
  t_error : terminal_error_ (src w) <> None -> terminal_error_ (src w') <> None;
}.

Lemma RequestBackendStop_spec w err : settled w (RequestBackendStop w err) /\ st (RequestBackendStop w err) = stop_of (st w) (q_of w) (a_of w) (l_of w) /\
  (err <> None -> terminal_error_ (src (RequestBackendStop w err)) <> None).
Proof.
  unfold RequestBackendStop. set (te := match err, terminal_error_ (src w) with Some e, None => Some e | _, x => x end).
  assert (with_state (set_error_once w err) (RecvSource.RequestStop (state_ (src (set_error_once w err)))).1 =
    control w (stop_of (st w) (q_of w) (a_of w) (l_of w)) (a_of w) te (cancel_op_ (src w)) (cancel_submitted_ (src w)) (recv_op_ (src w)) (recv_submitted_ (src w)) (submits w)) as ->.
  { assert (state_ (src (set_error_once w err)) = state_ (src w)) as -> by (unfold set_error_once; by destruct err, (terminal_error_ (src w))). rewrite (machine_eta (state_ (src w))) at 1. rewrite machine_stop. fold (st w). unfold set_error_once, te. destruct err, (terminal_error_ (src w)) eqn:E; by destruct w as [[]]; cbn in *; subst. }
  set (w1 := control _ _ _ _ _ _ _ _ _). assert (terminal_error_ (src w) <> None -> te <> None) as Ht by (unfold te; by destruct err, (terminal_error_ (src w))). assert (err <> None -> te <> None) as Ht' by (unfold te; by destruct err, (terminal_error_ (src w))).
  assert (settled w w1) as S1 by (split; try done; by eexists _, _, _, _, _, _, _, _).
  destruct (recv_submitted_ (src w1) && negb (cancel_submitted_ (src w1))) eqn:Hg; [|split_and!; try done]. bool_prop. cbn in H, H0.
  destruct (StartCancel_spec w1) as (subs & [->|[e ->]]); [done | done | |].
  - split_and!; try done. split; try done; cbn; try congruence. by eexists _, _, _, _, _, _, _, _.
  - set (w2 := control w1 _ _ _ _ _ _ _ _). assert (exists te', set_error_once w2 (Some e) = control w (stop_of (st w) (q_of w) (a_of w) (l_of w)) (a_of w) te' fresh_cancel false (recv_op_ (src w)) true subs /\ te' <> None /\ (te <> None -> te' = te)) as (te' & -> & Hne & _).
    { unfold set_error_once. change (terminal_error_ (src w2)) with te. destruct te as [x|]; [by exists (Some x) | by exists (Some e)]. }
    split_and!; try done. split; try done; cbn; try congruence. by eexists _, _, _, _, _, _, _, _.
Qed.

Lemma settled_trans w1 w2 w3 : settled w1 w2 -> settled w2 w3 -> settled w1 w3.
Proof.
  intros [A1 A2 A3 A4 A5 A6 A7] [B1 B2 B3 B4 B5 B6 B7]. split; [by eapply ctl_trans | congruence | congruence | auto | auto | intros H; rewrite B6, A6 by congruence; done | auto].
Qed.

Lemma RequestBackendPause_spec w : settled w (RequestBackendPause w) /\
  (st (RequestBackendPause w) = pause_of (st w) (a_of w) /\ terminal_error_ (src (RequestBackendPause w)) = terminal_error_ (src w) \/
   st (RequestBackendPause w) = stop_of (pause_of (st w) (a_of w)) (q_of w) (a_of w) (l_of w) /\ terminal_error_ (src (RequestBackendPause w)) <> None).
Proof.
  unfold RequestBackendPause. rewrite (machine_eta (state_ (src w))), machine_pause. fold (st w).
  set (w1 := with_state _ _). assert (settled w w1) as S1 by (split; try done; eexists _, _, _, _, _, _, _, _; by destruct w as [[]]).
  destruct (recv_submitted_ (src w1) && negb (cancel_submitted_ (src w1))) eqn:Hg; [|split_and!; try done; by left]. bool_prop. cbn in H, H0.
  destruct (StartCancel_spec w1) as (subs & [->|[e ->]]); [done | done | |].
  - split; [|by left]. split; try done; cbn; try congruence. by eexists _, _, _, _, _, _, _, _.
  - set (w2 := control w1 _ _ _ _ _ _ _ _). assert (settled w w2) as S2 by (split; try done; cbn; try congruence; by eexists _, _, _, _, _, _, _, _).
    destruct (RequestBackendStop_spec w2 (Some e)) as (S3 & E3 & T3). split; [by eapply settled_trans|]. right. split; [exact E3 | by apply T3].
Qed.

Lemma coherent_stop s q a l : RecvSource.state_coherent s q a l -> RecvSource.state_coherent (stop_of s q a l) q a l.
Proof. destruct s; cbn; unfold done_of; repeat (split_if; bool_prop); cbn; try done; lia. Qed.

Lemma coherent_done s q a l : RecvSource.pre_coherent s q a l -> RecvSource.state_coherent (done_of s q a l) q a l.
Proof.
  intros H. destruct (RecvSource.recv_ReconcileUnlessActive_spec (RecvSource.mk (RecvSource.mkOptions 0 0 0 0) s q a l) H) as [_ Hc]. by rewrite machine_reconcile in Hc.
Qed.

Lemma stop_of_stopped s q a l : stopped (stop_of s q a l) = true.
Proof. destruct s; cbn; unfold done_of; repeat split_if; done. Qed.

Lemma done_of_active s q a l : done_of s q a l = kActive <-> s = kActive.
Proof. split; [|by intros ->]. destruct s; cbn; repeat split_if; done. Qed.

Lemma done_of_stopped s q a l : stopped (done_of s q a l) = stopped s.
Proof. destruct s; cbn; repeat split_if; done. Qed.

Lemma done_of_idle s q a l : done_of s q a l = kIdle <-> s = kIdle.
Proof. split; [|by intros ->]. destruct s; cbn; repeat split_if; done. Qed.

(** A settled change whose state is stopped keeps the control part. *)
Lemma settled_stopped w w' : settled w w' -> (cancel_submitted_ (src w) = true -> cancel_op_ (src w) = fresh_cancel) -> stopped (st w') = true -> RecvSource.state_coherent (st w') (q_of w) (a_of w) (l_of w) ->
  (lost w <> [] -> terminal_error_ (src w') <> None) -> ctrl w'.
Proof.
  intros S C Hs Hc Hl. pose proof (ctl_same _ _ (t_ctl _ _ S)) as E. split; rewrite ?(s_q _ _ E), ?(s_l _ _ E), ?(s_lost _ _ E), ?(s_stop _ _ E), ?(t_armed _ _ S); try done.
  - by apply (t_cancel _ _ S).
  - intros Ha. by rewrite Ha in Hs.
  - intros Ha. by rewrite Ha in Hs.
  - intros H. split; [done|]. by apply Hl.
Qed.

Lemma stop_ctrl w err : ctrl w -> ctrl (RequestBackendStop w err).
Proof.
  intros C. destruct (RequestBackendStop_spec w err) as (S & E & T). apply (settled_stopped w _ S (k_cancel _ C)); rewrite ?E; [apply stop_of_stopped | apply coherent_stop, C | intros H; apply (t_error _ _ S), (k_lost _ C H)].
Qed.

Lemma BeginStop_spec w : exists w' r, BeginStop w = (w', r) /\ settled w w' /\ st w' = stop_of (st w) (q_of w) (a_of w) (l_of w) /\ terminal_error_ (src w') = terminal_error_ (src w) /\
  match r with Ok b => b = negb (bool_decide (st w' = kTerminal)) || recv_submitted_ (src w') || cancel_submitted_ (src w') | Err _ => True end.
Proof.
  unfold BeginStop. rewrite (machine_eta (state_ (src w))), machine_stop. fold (st w). set (w1 := with_state _ _). assert (settled w w1) as S1 by (split; try done; eexists _, _, _, _, _, _, _, _; by destruct w as [[]]).
  destruct (recv_submitted_ (src w1)) eqn:Hr; [|eexists _, _; split; [reflexivity|]; split_and!; try done; cbn; cbn in Hr; by rewrite Hr]. destruct (cancel_submitted_ (src w1)) eqn:Hc.
  - unfold StartCancel. rewrite Hr, Hc. cbn [negb orb]. eexists _, _. split; [reflexivity|]. by split_and!.
  - destruct (StartCancel_spec w1 Hr Hc) as (subs & [->|[e ->]]); eexists _, _; (split; [reflexivity|]); split_and!; try done; (split; try done; cbn in *; try congruence; by eexists _, _, _, _, _, _, _, _).
Qed.

(** The control part of a source that may have filled its queue just now. *)
Record soft (w : world) : Prop := {
  so_coherent : RecvSource.state_coherent (st w) (q_of w) (a_of w) (l_of w);
  so_cancel : cancel_submitted_ (src w) = true -> cancel_op_ (src w) = fresh_cancel;
  so_lost : lost w <> [] -> stopped (st w) = true /\ terminal_error_ (src w) <> None;
  so_stop a : pending_stop_ (src w) = Some a -> stopped (st w) = true;
}.

Lemma ctrl_soft w : ctrl w -> soft w.
Proof. intros []. by split. Qed.

Lemma pause_ctrl w : soft w -> st w <> kIdle -> ctrl (RequestBackendPause w) /\ st (RequestBackendPause w) <> kActive.
Proof.
  intros C Hni. destruct (RequestBackendPause_spec w) as (S & [[E T]|[E T]]).
  - assert (st (RequestBackendPause w) <> kActive) as Hn by (rewrite E; destruct (st w); cbn; repeat split_if; done). split; [|done]. pose proof (ctl_same _ _ (t_ctl _ _ S)) as E'. split; rewrite ?(s_q _ _ E'), ?(s_l _ _ E'), ?(s_lost _ _ E'), ?(s_stop _ _ E'), ?(s_next _ _ E'), ?(s_overflow _ _ E'), ?(t_armed _ _ S), ?E, ?T.
    + pose proof (so_coherent _ C) as Hc. destruct (st w); cbn in *; try done. split_if; bool_prop; cbn; lia.
    + apply (t_cancel _ _ S). by apply C.
    + intros Ha. exfalso. apply Hn. by rewrite E.
    + intros Ha. exfalso. apply Hni. unfold pause_of in Ha. by destruct (st w), (a_of w =? 0).
    + intros H. destruct (so_lost _ C H) as [H1 H2]. split; [|done]. by destruct (st w).
    + intros a Hp. pose proof (so_stop _ C a Hp). by destruct (st w).
  - split; [|rewrite E; intros H; pose proof (stop_of_stopped (pause_of (st w) (a_of w)) (q_of w) (a_of w) (l_of w)) as H'; by rewrite H in H'].
    apply (settled_stopped w _ S (so_cancel _ C)); rewrite ?E; [apply stop_of_stopped | | intros _; done]. apply coherent_stop. pose proof (so_coherent _ C) as Hc. destruct (st w); cbn in *; try done. split_if; bool_prop; cbn; lia.
Qed.

End inv.

End UringRecvInv.
