(* ===== verification/UringRecvSteps.v ===== *)
(** * The io_uring receive source: every operation keeps the invariant *)

From Stdlib Require Import Strings.Byte.
From S2P Require Import Prelude Lifecycles Sources RecvSource ResultCells UringOp ProvidedBuffers UringRecv UringRecvInv.

Module UringRecvSteps.
Import UringRecv UringRecvInv.
Import UringOp(CompletionEvent, event_result, More, BufferMore, HasSelectedBuffer, SelectedBufferId).

Section steps.
Context {BR : ProvidedBuffers.BufRing} (o : RecvSource.RecvSourceOptions) (bs : nat).
Context (Hrange : RecvSource.options_in_range o) (Hvalid : RecvSource.Valid o = true) (Hone : RecvSource.pending_depth o = 1).

Abbreviation data := (data o bs).

Record base (w : world) : Prop := { b_data : data w; b_idle : idle w; b_waiters : waiters w; b_ctrl : ctrl w; b_armed : armed_ok w }.

Lemma options_bounds : 0 < RecvSource.event_capacity o <= RecvSource.buffer_capacity o /\ RecvSource.buffer_capacity o <= size_max /\ 0 <= RecvSource.ResumeThreshold o < RecvSource.event_capacity o.
Proof. pose proof (RecvSource.recv_options_valid o Hrange Hvalid). lia. Qed.

Lemma queue_length w : data w -> length (queue (src w)) = event_count_ (src w).
Proof. intros D. rewrite queue_ring. apply ring_length. pose proof (d_head _ _ _ D). lia. Qed.

Lemma bounds w : data w -> 0 <= q_of w <= RecvSource.event_capacity o /\ 0 <= l_of w <= RecvSource.buffer_capacity o /\ q_of w <= l_of w.
Proof.
  intros D. pose proof options_bounds. pose proof (d_q _ _ _ D). pose proof (d_l _ _ _ D). pose proof (d_count _ _ _ D) as Hc. rewrite (d_events _ _ _ D) in Hc.
  pose proof (Permutation_length (d_copy _ _ _ D)) as Hp. rewrite !length_app, length_fmap, length_seqZ, (queue_length w D) in Hp. lia.
Qed.

(** ** Submitting the receive *)

Lemma recv_Prepare_fresh op : recv_Prepare op = UringOp.new_Op UringOp.kRecvSourceComplete.
Proof. apply UringOp.BeginNextRequest_new. Qed.

Lemma StartOperation_spec w : data w -> st w = kActive -> recv_submitted_ (src w) = false -> a_of w = 0 ->
  RecvSource.CanArm (state_ (src w)) = false /\ StartOperation w = Val (w, Ok tt) \/
  exists rop subs, StartOperation w = Val (control w kActive 1 (terminal_error_ (src w)) (cancel_op_ (src w)) (cancel_submitted_ (src w)) rop true subs, Ok tt) \/
    exists e, StartOperation w = Val (control w kActive 0 (terminal_error_ (src w)) (cancel_op_ (src w)) (cancel_submitted_ (src w)) rop false subs, Err e).
Proof.
  intros D E Hr Ha. unfold StartOperation. rewrite (d_loop _ _ _ D), (d_init _ _ _ D), (d_pool _ _ _ D), Hr, (proj2 (Z.ltb_ge (fd_ (src w)) 0)) by apply D. cbn [negb orb].
  destruct (RecvSource.CanArm (state_ (src w))) eqn:Hc; cbn [negb]; [|by left]. right. unfold RecvSource.TryArm. rewrite Hc. cbn [negb]. rewrite Ha. change (usize (0 + 1)) with 1. fold (st w). rewrite E.
  exists (UringOp.new_Op UringOp.kRecvSourceComplete), (tail (submits w)). rewrite recv_Prepare_fresh. unfold SubmitOp. cbn [submits set_src with_state set_recv]. destruct (head (submits w)) as [[e|]|]; cbn [default].
  - right. exists e. pose proof (machine_none (o_of w) kActive (q_of w) (l_of w) false) as Hm. cbn [disposition] in Hm. cbn [state_ src set_submits set_src set_recv set_state with_state]. rewrite Hm. cbn. by destruct w as [[]].
  - left. cbn. by destruct w as [[]].
  - left. cbn. by destruct w as [[]].
Qed.

Lemma CanArm_leases m : RecvSource.state_ m = kActive -> RecvSource.armed_requests_ m = 0 -> RecvSource.options_ m = o -> RecvSource.queued_events_ m < RecvSource.event_capacity o -> 0 <= RecvSource.outstanding_leases_ m <= size_max ->
  (RecvSource.CanArm m = true <-> RecvSource.outstanding_leases_ m < RecvSource.buffer_capacity o /\ Z.min (RecvSource.ResumeThreshold o) RecvSource.kMaxRearmWorkingSet <= RecvSource.buffer_capacity o - RecvSource.outstanding_leases_ m).
Proof.
  intros E Ha Ho Hq Hl. pose proof options_bounds. rewrite RecvSource.recv_CanArm_spec, E, Ha, Ho, Hone, Z.add_0_r. cbn zeta. rewrite (usize_small (RecvSource.outstanding_leases_ m)) by done.
  split.
  - intros (_ & _ & _ & H1 & _ & H2). rewrite usize_small in H2 by (unfold is_usize; lia). lia.
  - intros [H1 H2]. rewrite usize_small by (unfold is_usize; lia). split_and!; try done; lia.
Qed.

(** Replacing the request of an active source. *)
Lemma active_ctrl w a rop rs subs : ctrl w -> st w = kActive ->
  ctrl (control w kActive a (terminal_error_ (src w)) (cancel_op_ (src w)) (cancel_submitted_ (src w)) rop rs subs).
Proof.
  intros C E. destruct C. split; try done; unfold UringRecv.st; cbn.
  - intros _. by apply k_active0.
  - intros H. destruct (k_lost0 H) as [H' _]. by rewrite E in H'.
  - intros b Hb. pose proof (k_stop0 b Hb) as H. by rewrite E in H.
Qed.

Lemma base_control w w' : base w -> ctl w w' -> ctrl w' -> armed_ok w' -> base w'.
Proof. intros [D I W C A] H C' A'. split; [by eapply ctl_data | by eapply ctl_idle | by eapply ctl_waiters | done | done]. Qed.

Lemma stop_base w err : base w -> base (RequestBackendStop w err).
Proof.
  intros B. destruct (RequestBackendStop_spec w err) as (S & E & _). apply (base_control w); [done | apply S | apply stop_ctrl, B |]. unfold armed_ok. rewrite (t_armed _ _ S), (t_recv _ _ S). apply B.
Qed.

(** A source that has been stopped because a request was refused. *)
Definition refused (w w' : world) : Prop := ctl w w' /\ base w' /\ (st w' = kDraining \/ st w' = kTerminal) /\ terminal_error_ (src w') <> None.

Lemma EnsureSubmission_spec f w : base w ->
  (exists w', EnsureSubmission_with f w = Val w' /\ ctl w w' /\ base w' /\ admitted w' /\ st w' = st w /\ (st w <> kActive -> w' = w)) \/
  (exists w', EnsureSubmission_with f w = f w' /\ refused w w' /\ st w = kActive).
Proof.
  intros B. pose proof B as [D I W C A]. unfold EnsureSubmission_with. rewrite (d_loop _ _ _ D), (d_init _ _ _ D). cbn [negb orb]. case_bool_decide as E; cbn [negb orb]; [|left; exists w; split_and!; try done; [apply ctl_refl | intros ?; congruence]].
  destruct (k_active _ C E) as (_ & Hc & _). rewrite Hc. destruct (recv_submitted_ (src w)) eqn:Hr; cbn [orb]; [left; exists w; split_and!; try done; [apply ctl_refl | intros ?; congruence]|].
  unfold armed_ok in A. rewrite Hr in A. destruct (StartOperation_spec w D E Hr A) as [[Hn ->]|(rop & subs & [->|[e ->]])]; cbn [mbind outcome_bind].
  - left. exists w. split_and!; try done; [apply ctl_refl | by intros _ _].
  - left. eexists. split; [reflexivity|]. set (w' := control _ _ _ _ _ _ _ _ _). assert (ctl w w') as Hl by (by eexists _, _, _, _, _, _, _, _). split_and!; try done. apply (base_control w); try done. by apply active_ctrl.
  - right. eexists. split; [reflexivity|]. set (w' := control _ _ _ _ _ _ _ _ _). assert (ctl w w') as Hl by (by eexists _, _, _, _, _, _, _, _). assert (base w') as B' by (apply (base_control w); try done; by apply active_ctrl).
    split; [|done]. destruct (RequestBackendStop_spec w' (Some e)) as (S & Es & T). split_and!; [eapply ctl_trans; [exact Hl | apply S] | by apply stop_base | | by apply T]. rewrite Es. cbn. unfold done_of. cbn. destruct ((q_of w =? 0) && (l_of w =? 0)); auto.
Qed.

(** ** Resuming *)

Definition steady (w w' : world) : Prop := st w' = st w \/ st w = kPaused /\ st w' = kActive.

Lemma resumed_ctrl w : ctrl w -> st w = kPaused -> terminal_error_ (src w) = None -> cancel_submitted_ (src w) = false -> q_of w < RecvSource.event_capacity (o_of w) ->
  ctrl (with_state w (RecvSource.mk (o_of w) kActive (q_of w) (a_of w) (l_of w))).
Proof.
  intros C E Ht Hc Hq. destruct C. split; try done; unfold UringRecv.st; cbn.
  - intros H. destruct (k_lost0 H) as [H' _]. by rewrite E in H'.
  - intros b Hb. pose proof (k_stop0 b Hb) as H. by rewrite E in H.
Qed.

Lemma MaybeResume_spec f w : base w -> admitted w ->
  (exists w', MaybeResume_with f w = Val w' /\ ctl w w' /\ base w' /\ admitted w' /\ paused_ok w' /\ steady w w') \/
  (exists w', MaybeResume_with f w = f w' /\ refused w w' /\ st w = kPaused).
Proof.
  intros B HA. pose proof B as [D I W C A]. unfold MaybeResume_with. rewrite (d_loop _ _ _ D), (d_init _ _ _ D). cbn [negb].
  assert (paused_ok w -> exists w', Val w = Val w' /\ ctl w w' /\ base w' /\ admitted w' /\ paused_ok w' /\ steady w w') as K. { intros Hp. exists w. split_and!; try done; [apply ctl_refl | by left]. }
  case_bool_decide as Ht; cbn [orb]; [left; apply K; intros _; right; right; right; by destruct (terminal_error_ (src w)), Ht|]. assert (terminal_error_ (src w) = None) as Ht' by (destruct (terminal_error_ (src w)); [by destruct Ht|done]).
  destruct (cancel_submitted_ (src w)) eqn:Hc; cbn [orb]; [left; apply K; intros _; by left|]. destruct (overflow_ (src w)) as [|b rest] eqn:Ho; cbn [negb]; [|left; apply K; intros _; right; left; by rewrite Ho].
  rewrite (machine_eta (state_ (src w))), machine_resume, (d_options _ _ _ D). fold (st w). case_bool_decide as Ep; cbn [andb].
  - destruct (Z.leb_spec (q_of w) (RecvSource.ResumeThreshold o)) as [Hq|Hq].
    + set (w1 := with_state _ _). pose proof options_bounds as Hb. assert (q_of w < RecvSource.event_capacity (o_of w)) as Hqc by (rewrite (d_options _ _ _ D); lia).
      assert (ctl w w1) as H1. { unfold w1. rewrite <- (d_options _ _ _ D). eexists _, _, _, _, _, _, _, _. by destruct w as [[]]. }
      assert (base w1) as B1. { apply (base_control w); [done | done | | exact A]. unfold w1. rewrite <- (d_options _ _ _ D). by apply resumed_ctrl. }
      destruct (EnsureSubmission_spec f w1 B1) as [(w' & -> & L & B' & A' & E' & _)|(w' & -> & (L & B' & Hs & Hte) & _)].
      * left. exists w'. split_and!; try done; [by eapply ctl_trans | intros Hx; rewrite E' in Hx; done | right; by rewrite E'].
      * right. exists w'. split_and!; try done. split_and!; try done. by eapply ctl_trans.
    + left. assert (with_state w (RecvSource.mk o (st w) (q_of w) (a_of w) (l_of w)) = w) as -> by (rewrite <- (d_options _ _ _ D); by destruct w as [[? ? []]]). apply K. intros _. right; right; left. by rewrite (d_options _ _ _ D).
  - left. assert (with_state w (RecvSource.mk o (st w) (q_of w) (a_of w) (l_of w)) = w) as -> by (rewrite <- (d_options _ _ _ D); by destruct w as [[? ? []]]). apply K. intros Hx. by destruct (Ep Hx).
Qed.

(** ** Taking an event *)

(** The world after a queued event, or an overflowed payload, was handed out. *)
Definition took_queued (w : world) (p : PendingEvent) : world :=
  log_taken (with_state (set_src w (set_ring (src w) (events_ (src w)) ((event_head_ (src w) + 1) mod length (events_ (src w)))%nat (event_count_ (src w) - 1)%nat))
    (RecvSource.mk (o_of w) (done_of (st w) (q_of w - 1) (a_of w) (l_of w)) (q_of w - 1) (a_of w) (l_of w))) (mkEvent (Some (copy_slot p)) (p_size p) (payload (src w) (copy_slot p) (p_size p))).

Definition took_overflow (w : world) (bytes : list byte) (rest : list (list byte)) : world :=
  log_taken (set_src w (set_overflow (src w) rest)) (mkEvent None (length bytes) bytes).

Lemma uring_slot_range w k : data w -> k ∈ (copy_slot <$> queue (src w)) ++ leased (out w) -> 0 <= k < RecvSource.buffer_capacity o.
Proof. intros D Hk. assert (k ∈ seqZ 0 (RecvSource.buffer_capacity o)) as H; [|apply elem_of_seqZ in H; lia]. rewrite <- (d_copy _ _ _ D). set_solver. Qed.

Lemma took_queued_queue w p rest : data w -> queue (src w) = p :: rest -> queue (src (took_queued w p)) = rest /\ events_ (src w) !! event_head_ (src w) = Some p.
Proof.
  intros D Hq. assert (0 < event_count_ (src w))%nat as Hc by (rewrite <- (queue_length w D), Hq; cbn; lia).
  destruct (ring_pop (events_ (src w)) (event_head_ (src w)) (event_count_ (src w)) Hc (d_head _ _ _ D)) as (x & Hx & E). rewrite <- queue_ring, Hq in E. injection E as <- E. split; [by rewrite queue_ring | done].
Qed.

Lemma took_queued_data w p rest : data w -> queue (src w) = p :: rest -> data (took_queued w p).
Proof.
  intros D Hq. destruct (took_queued_queue w p rest D Hq) as [Hq' _]. assert (0 < event_count_ (src w))%nat as Hc by (rewrite <- (queue_length w D), Hq; cbn; lia). pose proof (d_queued _ _ _ D p) as Hp.
  destruct D. split; try done; try (rewrite Hq'); cbn; rewrite ?length_app; unfold leased in *; cbn.
  - apply Nat.mod_upper_bound. lia.
  - lia.
  - lia.
  - rewrite omap_app, length_app. cbn. lia.
  - rewrite omap_app. cbn. rewrite <- d_copy0, Hq. cbn. rewrite (Permutation_app_comm (omap e_slot (out w))). cbn. by rewrite !Permutation_middle.
  - intros x Hx. apply d_queued0. rewrite Hq. by right.
  - intros e k [He|He]%elem_of_app Hs; [by apply d_out0|]. apply list_elem_of_singleton in He. subst e. cbn in *. injection Hs as <-. split; [|done]. apply Hp. rewrite Hq. by left.
  - rewrite d_log0, Hq. cbn. by rewrite <- app_assoc.
Qed.

Lemma lease_ok w k size : data w -> 0 <= k < RecvSource.buffer_capacity o -> (size <= bs)%nat -> MakeQueuedLease (src w) k size = Val (mkEvent (Some k) size (payload (src w) k size)).
Proof.
  intros D Hk Hs. unfold MakeQueuedLease. rewrite (d_bs _ _ _ D), (d_payloads _ _ _ D), (proj2 (Nat.leb_le _ _)) by nia. done.
Qed.

Lemma queued_coherent w : data w -> ctrl w -> (0 < event_count_ (src w))%nat -> RecvSource.pre_coherent (st w) (q_of w - 1) (a_of w) (l_of w) /\ st w <> kIdle /\ st w <> kTerminal.
Proof.
  intros D C Hc. pose proof (d_q _ _ _ D). pose proof (d_l _ _ _ D). pose proof (k_coherent _ C) as Hk. destruct (st w); cbn in *; split_and!; try done; lia.
Qed.

Lemma took_queued_base w p rest : base w -> queue (src w) = p :: rest -> base (took_queued w p).
Proof.
  intros [D I W C A] Hq. assert (0 < event_count_ (src w))%nat as Hc by (rewrite <- (queue_length w D), Hq; cbn; lia). destruct (queued_coherent w D C Hc) as (Hp & Hi & _). split; [by eapply took_queued_data | done | by destruct W | | done].
  destruct C. split; try done; unfold UringRecv.st in *; cbn.
  - by apply coherent_done.
  - intros Ha%done_of_active. destruct (k_active0 Ha) as (K1 & K2 & K3). split_and!; try done. lia.
  - intros Ha%done_of_idle. done.
  - rewrite done_of_stopped. done.
  - rewrite done_of_stopped. done.
Qed.

Lemma took_queued_admitted w p rest : base w -> admitted w -> queue (src w) = p :: rest -> admitted (took_queued w p).
Proof.
  intros B HA Hq. pose proof (took_queued_base w p rest B Hq) as B'. pose proof B as [D I W C A]. pose proof (bounds w D) as Hb. pose proof options_bounds as Ho. intros E Hr. unfold UringRecv.st in E. cbn in E, Hr. apply done_of_active in E.
  pose proof (HA E Hr) as Hf. destruct (k_active _ C E) as (_ & _ & Hqc). rewrite (d_options _ _ _ D) in Hqc. unfold armed_ok in A. rewrite Hr in A. destruct (RecvSource.CanArm (state_ (src (took_queued w p)))) eqn:Hcan; [|done]. rewrite <- Hf. symmetry.
  apply CanArm_leases in Hcan; [|cbn; by rewrite E | done | apply D | cbn; lia | cbn; lia]. apply CanArm_leases; [done | done | apply D | lia | lia | exact Hcan].
Qed.

Lemma took_overflow_base w bytes rest : base w -> event_count_ (src w) = 0%nat -> overflow_ (src w) = bytes :: rest -> base (took_overflow w bytes rest).
Proof.
  intros [D I W C A] Hc Ho. split; [| done | by destruct W | | done].
  - assert (queue (src w) = []) as Hq by (apply length_zero_iff_nil; rewrite (queue_length w D); done). destruct D. split; try done; unfold leased in *; cbn.
    + rewrite omap_app. cbn. by rewrite app_nil_r.
    + rewrite omap_app. cbn. by rewrite app_nil_r.
    + intros e k [He|He]%elem_of_app Hs; [by apply d_out0|]. apply list_elem_of_singleton in He. by subst e.
    + rewrite d_log0, Ho, Hc, Hq. cbn. by rewrite <- app_assoc.
  - destruct C. split; try done. intros Ha. destruct (k_idle0 Ha) as (_ & _ & _ & K). congruence.
Qed.

(** Awaiters and lost payloads are not touched. *)
Definition aside (w w' : world) : Prop := pending_next_ (src w') = pending_next_ (src w) /\ pending_stop_ (src w') = pending_stop_ (src w) /\ nexts w' = nexts w /\ stops w' = stops w /\ work w' = work w /\ lost w' = lost w.

Lemma ctl_aside w w' : ctl w w' -> aside w w'.
Proof. by intros (? & ? & ? & ? & ? & ? & ? & ? & ->). Qed.

Lemma aside_trans w1 w2 w3 : aside w1 w2 -> aside w2 w3 -> aside w1 w3.
Proof. intros (? & ? & ? & ? & ? & ?) (? & ? & ? & ? & ? & ?). split_and!; congruence. Qed.

(** Nothing to deliver to a parked Next. *)
Definition nothing (w : world) : Prop := pending_next_ (src w) = None \/ event_count_ (src w) = 0%nat /\ overflow_ (src w) = [] /\ st w <> kTerminal.

(** At most one item for a parked Next, and a lease besides it if it overflowed. *)
Definition one_item (w : world) : Prop := pending_next_ (src w) = None \/ (event_count_ (src w) + length (overflow_ (src w)) <= 1)%nat /\ (overflow_ (src w) <> [] -> 0 < l_of w).

Lemma refused_nothing w w' : refused w w' -> pending_next_ (src w) = None \/ event_count_ (src w) = 0%nat /\ overflow_ (src w) = [] /\ 0 < l_of w -> nothing w'.
Proof.
  intros (L & B & Hs & _) H. pose proof (ctl_same _ _ L) as E. unfold nothing. rewrite (s_next _ _ E), (s_count _ _ E), (s_overflow _ _ E). destruct H as [H|(H1 & H2 & H3)]; [by left|]. right. split_and!; try done. intros Ht.
  pose proof (k_coherent _ (b_ctrl _ B)) as Hk. rewrite Ht in Hk. cbn in Hk. rewrite (s_l _ _ E) in Hk. lia.
Qed.

(** Resuming after something was handed out. *)
Lemma resume_after f w (c : bool) : base w -> admitted w -> (forall w', base w' -> nothing w' -> f w' = Val w') ->
  (pending_next_ (src w) = None \/ event_count_ (src w) = 0%nat /\ overflow_ (src w) = [] /\ 0 < l_of w) -> (c = false -> paused_ok w) ->
  exists w', (if c then MaybeResume_with f w else Val w) = Val w' /\ ctl w w' /\ base w' /\ admitted w' /\ paused_ok w' /\ (c = false -> w' = w).
Proof.
  intros B HA Hf Hn Hc. destruct c; [|exists w; split_and!; try done; [apply ctl_refl | by apply Hc]]. destruct (MaybeResume_spec f w B HA) as [(w' & -> & L & B' & A' & P' & _)|(w' & -> & R & _)]; [by exists w'|].
  pose proof R as (L & B' & Hs & _). rewrite (Hf w' B' (refused_nothing w w' R Hn)). exists w'. split_and!; try done; intros Hx; rewrite Hx in Hs; by destruct Hs.
Qed.

Lemma TryTakeNext_spec f w : base w -> admitted w -> (forall w', base w' -> nothing w' -> f w' = Val w') -> one_item w ->
  exists w' r, TryTakeNext_with f w = Val (w', r) /\ base w' /\ admitted w' /\ aside w w' /\ (paused_ok w -> paused_ok w') /\ (stop_waits w -> stop_waits w') /\
    match r with
    | None => w' = w /\ event_count_ (src w) = 0%nat /\ overflow_ (src w) = [] /\ st w <> kTerminal
    | Some _ => (event_count_ (src w') + length (overflow_ (src w')) = pred (event_count_ (src w) + length (overflow_ (src w))))%nat
    end.
Proof.
  intros B HA Hf H1. pose proof B as [D I W C A]. unfold TryTakeNext_with, TryTakeQueuedEvent. destruct (Nat.eqb_spec (event_count_ (src w)) 0) as [Hc|Hc].
  - cbn [mbind outcome_bind]. destruct (overflow_ (src w)) as [|bytes rest] eqn:Ho.
    + case_bool_decide as Ht; eexists _, _; (split; [reflexivity|]); split_and!; try done. cbn. by rewrite Hc, Ho.
    + change (log_taken _ _) with (took_overflow w bytes rest). pose proof (took_overflow_base w bytes rest B Hc Ho) as B1. assert (admitted (took_overflow w bytes rest)) as A1 by exact HA.
      destruct (resume_after f (took_overflow w bytes rest) ((match rest with [] => true | _ => false end) && bool_decide (st (took_overflow w bytes rest) = kPaused))) as (w' & -> & L & B' & A' & P' & F'); try done.
      * destruct H1 as [H1|[H1 H2]]; [by left|]. right. rewrite Ho in *. cbn in *. split_and!; [done | by destruct rest; [|cbn in H1; lia] | by apply H2].
      * intros Hb Hp. apply andb_false_iff in Hb as [Hb|Hb]; [right; left; by destruct rest | bool_prop; done].
      * cbn [mbind outcome_bind]. eexists _, _. split; [reflexivity|]. pose proof (ctl_same _ _ L) as E. split_and!; try done; [by apply (aside_trans _ (took_overflow w bytes rest)); [|by apply ctl_aside] | intros S b Hb; pose proof Hb as Hb'; rewrite (s_stop _ _ E) in Hb; pose proof (k_stop _ C b Hb) as Hs; rewrite F' by (apply andb_false_iff; right; apply bool_decide_eq_false; intros Hx; change (st w = kPaused) in Hx; by rewrite Hx in Hs); by apply (S b) | rewrite (s_count _ _ E), (s_overflow _ _ E); cbn; lia].
  - destruct (queue (src w)) as [|p rest] eqn:Hq; [pose proof (queue_length w D) as Hl; rewrite Hq in Hl; cbn in Hl; lia|]. destruct (took_queued_queue w p rest D Hq) as [_ Hh]. rewrite Hh. cbn [mbind outcome_bind].
    pose proof (bounds w D) as Hb. pose proof options_bounds as Hob. pose proof (d_q _ _ _ D) as Eq. cbn [src set_src state_ set_ring].
    assert (RecvSource.AcquireEvent (state_ (src w)) = (RecvSource.mk (o_of w) (done_of (st w) (q_of w - 1) (a_of w) (l_of w)) (q_of w - 1) (a_of w) (l_of w), true)) as -> by (rewrite (machine_eta (state_ (src w))) at 1; apply machine_acquire; lia). cbn [ALYRN_CHECK mbind outcome_bind].
    match goal with |- context [MakeQueuedLease ?s _ _] => assert (MakeQueuedLease s (copy_slot p) (p_size p) = Val (mkEvent (Some (copy_slot p)) (p_size p) (payload (src w) (copy_slot p) (p_size p)))) as -> end.
    { change (MakeQueuedLease (src (took_queued w p)) (copy_slot p) (p_size p) = Val (mkEvent (Some (copy_slot p)) (p_size p) (payload (src (took_queued w p)) (copy_slot p) (p_size p)))). apply lease_ok; [by eapply took_queued_data | apply (uring_slot_range w _ D); rewrite Hq; set_solver | apply (d_queued _ _ _ D p); rewrite Hq; by left]. }
    cbn [mbind outcome_bind]. change (log_taken _ _) with (took_queued w p). pose proof (took_queued_base w p rest B Hq) as B1. pose proof (took_queued_admitted w p rest B HA Hq) as A1.
    destruct (resume_after f (took_queued w p) (bool_decide (st (took_queued w p) = kPaused))) as (w' & -> & L & B' & A' & P' & F'); try done.
    + destruct H1 as [H1|[H1 H2]]; [by left|]. right. cbn. split_and!; [lia | by destruct (overflow_ (src w)); [|cbn in H1; lia] | lia].
    + intros Hx Hp. bool_prop. done.
    + cbn [mbind outcome_bind]. eexists _, _. split; [reflexivity|]. pose proof (ctl_same _ _ L) as E. split_and!; try done; [by apply (aside_trans _ (took_queued w p)); [|by apply ctl_aside] | intros S b Hpb; rewrite (s_stop _ _ E) in Hpb; pose proof (k_stop _ C b Hpb) as Hs; rewrite F' by (apply bool_decide_eq_false; unfold UringRecv.st; cbn; fold (st w); intros Hx; pose proof (done_of_stopped (st w) (q_of w - 1) (a_of w) (l_of w)) as Hy; by rewrite Hx, Hs in Hy); destruct (S b Hpb) as [?|[?|Ht]]; [by left | by right; left | right; right; unfold UringRecv.st; cbn; fold (st w); intros Hx; pose proof (k_coherent _ (b_ctrl _ B1)) as Hk; unfold UringRecv.st in Hk; cbn in Hk; fold (st w) in Hk; rewrite Hx in Hk; cbn in Hk; lia] | rewrite (s_count _ _ E), (s_overflow _ _ E); cbn; lia].
Qed.

(** ** Completing awaiters *)

Lemma waiters_schedule w t : waiters w -> t ∉ work w -> (forall a, t = (true, a) -> exists n, nexts w !! a = Some n /\ ValueResultState.HasResult (n_result n) = true) ->
  (forall a, t = (false, a) -> exists p r, stops w !! a = Some p /\ w_result p = Some r) -> waiters (set_work w (work w ++ [t])).
Proof.
  intros [] Ht H1 H2. split; try done; cbn.
  - intros a [H|H]%elem_of_app; [by apply w_work_next|]. apply list_elem_of_singleton in H. by apply H1.
  - intros a [H|H]%elem_of_app; [by apply w_work_stop|]. apply list_elem_of_singleton in H. by apply H2.
  - apply NoDup_app. split_and!; [done | intros x Hx Hy; apply list_elem_of_singleton in Hy; by subst | apply NoDup_singleton].
Qed.

Lemma parked_next_unscheduled w a : waiters w -> pending_next_ (src w) = Some a -> (true, a) ∉ work w.
Proof. intros W Hp Hw. destruct (w_work_next _ W a Hw) as (n & Hn & Hr). rewrite (w_next _ W a Hp) in Hn. by injection Hn as <-. Qed.

Lemma parked_stop_unscheduled w a : waiters w -> pending_stop_ (src w) = Some a -> (false, a) ∉ work w.
Proof. intros W Hp Hw. destruct (w_work_stop _ W a Hw) as (n & r & Hn & Hr). rewrite (w_stop _ W a Hp) in Hn. by injection Hn as <-. Qed.

Lemma waiters_put_next w a n : waiters w -> pending_next_ (src w) <> Some a -> (true, a) ∉ work w -> waiters (put_next w a n).
Proof.
  intros [] Hp Hw. split; try done; cbn.
  - intros b Hb. rewrite lookup_insert_ne by congruence. by apply w_next.
  - intros b Hb. rewrite lookup_insert_ne by congruence. by apply w_work_next.
Qed.

Lemma waiters_put_stop w a n : waiters w -> pending_stop_ (src w) <> Some a -> (false, a) ∉ work w -> waiters (put_stop w a n).
Proof.
  intros [] Hp Hw. split; try done; cbn.
  - intros b Hb. rewrite lookup_insert_ne by congruence. by apply w_stop.
  - intros b Hb. rewrite lookup_insert_ne by congruence. by apply w_work_stop.
Qed.

(** What completing a Next or a Stop changes. *)
Record completed (w w' : world) (next stop : option nat) : Prop := {
  f_src : src w' = set_stop (set_next (src w) next) stop;
  f_out : out w' = out w; f_kept : kept w' = kept w; f_lost : lost w' = lost w; f_taken : taken w' = taken w;
  f_pool : pool w' = pool w; f_here : here w' = here w; f_init : initialized w' = initialized w;
}.

Lemma completed_base w w' next stop : completed w w' next stop -> base w -> waiters w' -> (st w = kIdle -> next = None) -> (forall a, stop = Some a -> stopped (st w) = true) -> base w'.
Proof.
  intros [] [D I W C A] W' Hn Hs. unfold idle, armed_ok in *. split; [| | done | |].
  - destruct D. split; rewrite ?f_src0, ?f_out0, ?f_kept0, ?f_taken0, ?f_here0, ?f_init0; done.
  - unfold idle. by rewrite f_src0, f_pool0.
  - destruct C. split; unfold UringRecv.st in *; rewrite ?f_src0, ?f_lost0; cbn; try done. intros H. destruct (k_idle0 H) as (? & ? & ? & ?). split_and!; auto.
  - unfold armed_ok. by rewrite f_src0.
Qed.

(** The rest of the invariant does not see the awaiters. *)
Lemma completed_rest w w' next stop : completed w w' next stop -> (admitted w -> admitted w') /\ (paused_ok w -> paused_ok w').
Proof. intros [E]. unfold admitted, paused_ok, UringRecv.st. by rewrite E. Qed.

Lemma uring_next_Complete_spec w a r : base w -> pending_next_ (src w) = Some a ->
  exists w', next_Complete (set_src w (set_next (src w) None)) a r = Val w' /\ completed w w' None (pending_stop_ (src w)) /\ base w' /\ stops w' = stops w.
Proof.
  intros B Hp. pose proof (b_waiters _ B) as W. pose proof (w_next _ W a Hp) as Hn. pose proof (parked_next_unscheduled w a W Hp) as Hw. unfold next_Complete, get_next. cbn. rewrite Hn. cbn.
  assert (forall cell, ValueResultState.HasResult cell = true -> let w' := set_work (put_next (set_src w (set_next (src w) None)) a (mkNext true (CompletionGate.TryComplete CompletionGate.initial).1 cell)) (work w ++ [(true, a)]) in completed w w' None (pending_stop_ (src w)) /\ base w' /\ stops w' = stops w) as K.
  { intros cell Hc w'. assert (completed w w' None (pending_stop_ (src w))) as F by (split; try done; by destruct (src w)). split; [done|]. split; [|done]. apply (completed_base w w' _ _ F B); [|done | apply B].
    apply (waiters_schedule (put_next (set_src w (set_next (src w) None)) a _)); [apply waiters_put_next; [destruct W; by split | done | done] | done | intros b [= <-]; cbn; rewrite lookup_insert_eq; eauto | done]. }
  destruct r as [r|r]; cbn; (eexists; split; [reflexivity|]; by apply K).
Qed.

Lemma stop_Complete_spec w a r : base w -> pending_stop_ (src w) = Some a ->
  exists w', stop_Complete (set_src w (set_stop (src w) None)) a r = Val w' /\ completed w w' (pending_next_ (src w)) None /\ base w'.
Proof.
  intros B Hp. pose proof (b_waiters _ B) as W. pose proof (w_stop _ W a Hp) as Hn. pose proof (parked_stop_unscheduled w a W Hp) as Hw. unfold stop_Complete, get_stop. cbn. rewrite Hn. cbn. eexists. split; [reflexivity|].
  match goal with |- completed _ ?x _ _ /\ _ => set (w' := x) end. assert (completed w w' (pending_next_ (src w)) None) as F by (split; try done; by destruct (src w)). split; [done|]. apply (completed_base w w' _ _ F B); [|intros H; by apply (k_idle _ (b_ctrl _ B) H) | done].
  apply (waiters_schedule (put_stop (set_src w (set_stop (src w) None)) a _)); [apply waiters_put_stop; [destruct W; by split | done | done] | done | done | intros b [= <-]; cbn; rewrite lookup_insert_eq; eauto].
Qed.

Lemma deliver_nothing n w : nothing w -> deliver (S n) w = Val w.
Proof.
  intros H. cbn. destruct (pending_next_ (src w)) as [a|] eqn:Hp; [|done]. destruct H as [H|(H1 & H2 & H3)]; [congruence|]. unfold TryTakeNext_with, TryTakeQueuedEvent. rewrite H1. cbn. rewrite H2, bool_decide_eq_false_2 by done. done.
Qed.

Lemma Deliver_spec w : base w -> admitted w -> one_item w ->
  exists w', DeliverNextIfReady w = Val w' /\ base w' /\ admitted w' /\ next_waits w' /\ (paused_ok w -> paused_ok w').
Proof.
  intros B A H1. unfold DeliverNextIfReady. change (deliver 2 w) with (match pending_next_ (src w) with None => Val w | Some _ => '(w, result) ← TryTakeNext_with (deliver 1) w; match result with None => Val w | Some result => match pending_next_ (src w) with None => Panic | Some a => next_Complete (set_src w (set_next (src w) None)) a result end end end).
  destruct (pending_next_ (src w)) as [a|] eqn:Hp; [|exists w; split_and!; try done; intros b; congruence].
  destruct (TryTakeNext_spec (deliver 1) w B A) as (w' & r & -> & B' & A' & (K1 & K2 & K3 & K4 & K5 & K6) & P' & T' & R'); [intros w' _ Hn; by apply deliver_nothing | done |]. cbn [mbind outcome_bind]. destruct r as [r|].
  - rewrite K1, Hp. destruct (uring_next_Complete_spec w' a r B') as (w2 & -> & F & B2 & _); [congruence|]. destruct (completed_rest _ _ _ _ F) as [F1 F2]. exists w2. split_and!; auto. intros b. by rewrite (f_src _ _ _ _ F).
  - destruct R' as (-> & Hc & Ho & _). exists w. split_and!; try done; by intros b.
Qed.

Lemma CompleteStop_spec w : base w -> admitted w -> paused_ok w -> next_waits w ->
  exists w', CompleteStopIfReady w = Val w' /\ base w' /\ admitted w' /\ paused_ok w' /\ next_waits w' /\ stop_waits w'.
Proof.
  intros B A P N. unfold CompleteStopIfReady. destruct (pending_stop_ (src w)) as [a|] eqn:Hp; [|exists w; split_and!; try done; intros b; congruence].
  destruct (recv_submitted_ (src w)) eqn:Hr; cbn [orb]; [exists w; split_and!; try done; intros b _; by left|]. destruct (cancel_submitted_ (src w)) eqn:Hc; cbn [orb]; [exists w; split_and!; try done; intros b _; by right; left|].
  case_bool_decide as Ht; cbn [negb]; [|exists w; split_and!; try done; intros b _; by right; right]. destruct (stop_Complete_spec w a (Ok tt) B Hp) as (w' & -> & F & B'). destruct (completed_rest _ _ _ _ F) as [F1 F2]. exists w'. split_and!; auto; [intros b; unfold next_waits in N; rewrite (f_src _ _ _ _ F); apply N | intros b; by rewrite (f_src _ _ _ _ F)].
Qed.

Record inv (w : world) : Prop := { i_base : base w; i_admitted : admitted w; i_paused : paused_ok w; i_next : next_waits w; i_stop : stop_waits w }.

Lemma next_waits_one w : next_waits w -> one_item w.
Proof. intros N. destruct (pending_next_ (src w)) as [a|] eqn:Hp; [|by left]. right. destruct (N a Hp) as [H1 H2]. rewrite H1, H2. cbn. split; [lia|done]. Qed.

Lemma refused_delivers w w' : refused w w' -> next_waits w -> exists w2, DeliverNextIfReady w' = Val w2 /\ base w2 /\ admitted w2 /\ next_waits w2 /\ paused_ok w2.
Proof.
  intros (L & B & Hs & _) N. pose proof (ctl_same _ _ L) as E. assert (next_waits w') as N'. { intros a. rewrite (s_next _ _ E), (s_count _ _ E), (s_overflow _ _ E). apply N. }
  destruct (Deliver_spec w' B) as (w2 & H2 & B2 & A2 & N2 & P2); [intros Hx; rewrite Hx in Hs; by destruct Hs | by apply next_waits_one |]. exists w2. split_and!; try done. apply P2. intros Hx. rewrite Hx in Hs. by destruct Hs.
Qed.

Lemma ctl_next_waits w w' : ctl w w' -> next_waits w -> next_waits w'.
Proof. intros L N a. pose proof (ctl_same _ _ L) as E. rewrite (s_next _ _ E), (s_count _ _ E), (s_overflow _ _ E). apply N. Qed.

(** The ends of the handlers. *)
Lemma resume_tail w : base w -> admitted w -> next_waits w -> exists w', (w ← MaybeResume w; CompleteStopIfReady w) = Val w' /\ inv w'.
Proof.
  intros B A N. assert (exists w1, MaybeResume w = Val w1 /\ base w1 /\ admitted w1 /\ next_waits w1 /\ paused_ok w1) as (w1 & -> & B1 & A1 & N1 & P1).
  { unfold MaybeResume. destruct (MaybeResume_spec DeliverNextIfReady w B A) as [(w1 & -> & L & B1 & A1 & P1 & _)|(w1 & -> & R & _)]; [exists w1; split_and!; try done; by eapply ctl_next_waits | by apply (refused_delivers w)]. }
  cbn [mbind outcome_bind]. destruct (CompleteStop_spec w1 B1 A1 P1 N1) as (w2 & -> & ? & ? & ? & ? & ?). exists w2. by split.
Qed.

Lemma ensure_step w : base w -> paused_ok w -> next_waits w -> exists w', EnsureSubmission w = Val w' /\ base w' /\ admitted w' /\ next_waits w' /\ paused_ok w'.
Proof.
  intros B P N. unfold EnsureSubmission. destruct (EnsureSubmission_spec DeliverNextIfReady w B) as [(w1 & -> & L & B1 & A1 & E1 & F1)|(w1 & -> & R & _)]; [|by apply (refused_delivers w)].
  exists w1. split_and!; try done; [by eapply ctl_next_waits|]. intros Hx. rewrite E1 in Hx. rewrite F1 by (by rewrite Hx). by apply P.
Qed.

(** ** Releasing a lease *)

Lemma leased_delete es i e : es !! i = Some e -> leased es ≡ₚ (match e_slot e with Some k => [k] | None => [] end) ++ leased (delete i es).
Proof. intros H. unfold leased. rewrite (delete_Permutation es i e H) at 1. cbn. by destruct (e_slot e). Qed.

(** The world after the copy slot of a released lease is free again. *)
Definition returned (w : world) (i : nat) (k : Z) : world :=
  with_state (FreeCopySlot (set_out w (delete i (out w))) k) (RecvSource.mk (o_of w) (done_of (st w) (q_of w) (a_of w) (l_of w - 1)) (q_of w) (a_of w) (l_of w - 1)).

Lemma leased_coherent w : data w -> ctrl w -> leased (out w) <> [] -> RecvSource.pre_coherent (st w) (q_of w) (a_of w) (l_of w - 1) /\ st w <> kIdle.
Proof.
  intros D C Hl. pose proof (d_l _ _ _ D). assert (length (leased (out w)) <> 0%nat) by (by destruct (leased (out w))). pose proof (k_coherent _ C) as Hk. destruct (st w); cbn in *; split_and!; try done; lia.
Qed.

Lemma returned_base w i e k : base w -> out w !! i = Some e -> e_slot e = Some k -> base (returned w i k) /\ 0 < l_of w.
Proof.
  intros [D I W C A] Hi He. pose proof (leased_delete (out w) i e Hi) as Hp. rewrite He in Hp. assert (leased (out w) <> []) as Hne by (intros Hn; rewrite Hn in Hp; by apply Permutation_nil_l in Hp). destruct (leased_coherent w D C Hne) as (Hpre & Hni).
  pose proof (Permutation_length Hp) as Hlen. cbn in Hlen. pose proof (d_l _ _ _ D) as El. split; [|lia]. split; [| done | by destruct W | | done].
  - destruct D. split; try done; unfold leased in *; cbn.
    + lia.
    + rewrite <- d_copy0, Hp. cbn. rewrite <- !app_assoc. cbn. by rewrite !Permutation_middle.
    + intros e' k' He' Hk'. apply d_out0; [|done]. rewrite (delete_Permutation (out w) i e Hi). by apply elem_of_cons; right.
  - destruct C. split; try done; unfold UringRecv.st in *; cbn.
    + by apply coherent_done.
    + intros Ha%done_of_active. by apply k_active0.
    + intros Ha%done_of_idle. done.
    + rewrite done_of_stopped. done.
    + rewrite done_of_stopped. done.
Qed.

Lemma ReturnQueuedPayload_inv w i e k : inv w -> out w !! i = Some e -> e_slot e = Some k -> exists w', ReturnQueuedPayload (set_out w (delete i (out w))) k = Val w' /\ inv w'.
Proof.
  intros [B HA P N S] Hi He. destruct (returned_base w i e k B Hi He) as [B1 Hl]. pose proof (bounds w (b_data _ B)) as Hb. pose proof options_bounds as Hob. unfold ReturnQueuedPayload. cbn [FreeCopySlot src set_src set_free state_ set_out].
  assert (RecvSource.ReleaseLease (state_ (src w)) = (RecvSource.mk (o_of w) (done_of (st w) (q_of w) (a_of w) (l_of w - 1)) (q_of w) (a_of w) (l_of w - 1), true)) as -> by (rewrite (machine_eta (state_ (src w))) at 1; apply machine_release; lia).
  cbn [ALYRN_CHECK mbind outcome_bind]. change (with_state _ _) with (returned w i k).
  assert (paused_ok (returned w i k)) as P1. { intros Hx. unfold UringRecv.st in Hx. cbn in Hx. assert (st w = kPaused) as Hy. { pose proof (k_coherent _ (b_ctrl _ B)) as Hk. fold (st w) in Hx. destruct (st w) eqn:E; cbn in Hx, Hk; repeat case_match; try done; bool_prop; lia. } exact (P Hy). }
  assert (next_waits (returned w i k)) as N1 by exact N.
  destruct (bool_decide (st (returned w i k) = kActive) && recv_submitted_ (src (returned w i k)) && bool_decide (pending_stop_ (src (returned w i k)) = None)) eqn:Hg.
  - bool_prop. eexists. split; [reflexivity|]. split; try done; [intros _; congruence | intros a; congruence].
  - destruct (ensure_step _ B1 P1 N1) as (w1 & -> & B2 & A2 & N2 & P2). cbn [mbind outcome_bind]. destruct (CompleteStop_spec w1 B2 A2 P2 N2) as (w2 & -> & ? & ? & ? & ? & ?). exists w2. by split.
Qed.

Lemma release_overflow_inv w i e : inv w -> out w !! i = Some e -> e_slot e = None -> inv (set_out w (delete i (out w))).
Proof.
  intros [B HA P N S] Hi He. pose proof (leased_delete (out w) i e Hi) as Hp. rewrite He in Hp. cbn in Hp. split; try done. destruct B as [D I W C A]. split; try done; [|by destruct W | by destruct C]. destruct D. split; try done; cbn.
  - rewrite d_l0. by rewrite (Permutation_length Hp).
  - by rewrite <- Hp.
  - intros e' k' He' Hk'. apply d_out0; [|done]. rewrite (delete_Permutation (out w) i e Hi). by apply elem_of_cons; right.
Qed.

(** ** Next *)

Lemma uring_inv_put_next w a n : inv w -> pending_next_ (src w) <> Some a -> (true, a) ∉ work w -> inv (put_next w a n).
Proof.
  intros [[D I W C A] HA P N S] Hp Hw. split; try done. split; [by destruct D | done | by apply waiters_put_next | by destruct C | done].
Qed.

Lemma new_unscheduled w a : waiters w -> nexts w !! a = None -> pending_next_ (src w) <> Some a /\ (true, a) ∉ work w.
Proof. intros W Hn. split; [intros Hp; pose proof (w_next _ W a Hp); congruence | intros Hw; destruct (w_work_next _ W a Hw) as (n & ? & _); congruence]. Qed.

Lemma uring_next_inline_inv w a r : inv w -> nexts w !! a = Some new_next -> pending_next_ (src w) <> Some a -> (true, a) ∉ work w ->
  exists w' w2 x, next_inline w a r = Val (w', false) /\ next_await_resume w' a = Val (w2, x) /\ inv w2.
Proof.
  intros I Hn Hp Hw. unfold next_inline, get_next. rewrite Hn. destruct r as [r|r]; cbn; eexists _, _, _; (split; [reflexivity|]); unfold next_await_resume, get_next; cbn; rewrite lookup_insert_eq; cbn; (split; [reflexivity|]); apply uring_inv_put_next; try done; by apply uring_inv_put_next.
Qed.

(** The outcome of await_suspend: parked, or a result that await_resume takes. *)
Definition next_outcome (a : nat) (x : outcome (world * bool)) : Prop :=
  exists w' b, x = Val (w', b) /\ if (b : bool) then inv w' else exists w2 r, next_await_resume w' a = Val (w2, r) /\ inv w2.

Lemma uring_next_wait_inv w a : inv w -> nexts w !! a = Some new_next -> pending_next_ (src w) = None -> (true, a) ∉ work w -> st w <> kIdle -> next_outcome a (next_wait w a).
Proof.
  intros [B HA P N S] Hn Hp Hw Hni. unfold next_wait, TryTakeNext. destruct (TryTakeNext_spec DeliverNextIfReady w B HA) as (w' & r & -> & B' & A' & (K1 & K2 & K3 & K4 & K5 & K6) & P' & T' & R'); [intros w' _ H'; by apply (deliver_nothing 1) | by left |]. cbn [mbind outcome_bind].
  destruct r as [r|].
  - assert (inv w') as I'. { split; auto. intros b; rewrite K1; congruence. }
    destruct (uring_next_inline_inv w' a r) as (w1 & w2 & x & -> & H2 & I2); [done | congruence | congruence | congruence|]. exists w1, false. split; [done|]. by exists w2, x.
  - destruct R' as (-> & Hc & Ho & Ht). unfold get_next. rewrite Hn. cbn. eexists _, true. split; [reflexivity|]. split; try done. destruct B' as [D I W C A]. split; try done; [by destruct D | |].
    + destruct W. split; try done; cbn.
      * intros b [= <-]. by rewrite lookup_insert_eq.
      * intros b Hb. rewrite lookup_insert_ne by congruence. by apply w_work_next.
    + destruct C. by split.
Qed.

Lemma started_base w : base w -> st w = kIdle -> base (with_state w (RecvSource.mk (o_of w) kActive (q_of w) (a_of w) (l_of w))).
Proof.
  intros [D I W C A] E. pose proof (k_coherent _ C) as Hk. rewrite E in Hk. cbn in Hk. destruct Hk as (Hq & _). split; try done; [by destruct D | by destruct W |]. pose proof options_bounds as Hob. pose proof (d_options _ _ _ D) as Ho.
  destruct C. destruct (k_idle0 E) as (K1 & K2 & _). split; try done; unfold UringRecv.st in *; cbn.
  - intros _. split_and!; try done. rewrite Hq, Ho. lia.
  - intros H. destruct (k_lost0 H) as [H' _]. by rewrite E in H'.
  - intros b Hb. pose proof (k_stop0 b Hb) as H. by rewrite E in H.
Qed.

Lemma uring_Start_inv w : inv w -> st w = kIdle -> exists w' r, Start w = Val (w', r) /\ inv w' /\ ctl w w' /\ nexts w' = nexts w /\ work w' = work w /\ st w' <> kIdle.
Proof.
  intros [B HA P N S] E. pose proof B as [D I W C A]. unfold Start. rewrite E, bool_decide_eq_true_2 by done. cbn [negb]. rewrite (d_loop _ _ _ D), (d_init _ _ _ D), (proj2 (Z.ltb_ge (fd_ (src w)) 0)) by apply D. cbn [negb orb].
  unfold RecvSource.Start. fold (st w). rewrite E, bool_decide_eq_true_2 by done. cbn [negb]. change (RecvSource.set_state kActive (state_ (src w))) with (RecvSource.mk (o_of w) kActive (q_of w) (a_of w) (l_of w)).
  pose proof (started_base w B E) as B1. set (w1 := with_state w _) in *. assert (ctl w w1) as L1 by (eexists _, _, _, _, _, _, _, _; by destruct w as [[]]). assert (next_waits w1) as N1 by exact N.
  destruct (k_idle _ C E) as (_ & Hcs & _). pose proof (k_coherent _ C) as Hk. rewrite E in Hk. destruct Hk as (_ & Ha & _). assert (pending_stop_ (src w) = None) as Hps by (destruct (pending_stop_ (src w)) as [b|] eqn:Hb; [pose proof (k_stop _ C b Hb) as H; by rewrite E in H|done]).
  assert (recv_submitted_ (src w) = false) as Hr by (unfold armed_ok in A; rewrite Ha in A; by destruct (recv_submitted_ (src w))).
  assert (forall w', ctl w w' -> base w' -> admitted w' -> st w' <> kIdle -> st w' <> kPaused -> inv w' /\ ctl w w' /\ nexts w' = nexts w /\ work w' = work w /\ st w' <> kIdle) as K.
  { intros w' L B' A' H1 H2. destruct (ctl_aside _ _ L) as (K1 & K2 & K3 & K4 & K5 & K6). split_and!; try done. split; try done; [intros Hx; by destruct (H2 Hx) | by eapply ctl_next_waits | intros b; rewrite K2; congruence]. }
  destruct (StartOperation_spec w1 (b_data _ B1) eq_refl Hr Ha) as [[Hn ->]|(rop & subs & [->|[e ->]])]; cbn [mbind outcome_bind].
  - eexists _, _. split; [reflexivity|]. apply K; try done. by intros _ _.
  - eexists _, _. split; [reflexivity|]. set (w2 := control _ _ _ _ _ _ _ _ _). assert (ctl w1 w2) as L2 by (by eexists _, _, _, _, _, _, _, _). apply K; [by eapply ctl_trans | | done | done | done]. apply (base_control w1); try done. by apply active_ctrl; [apply B1|].
  - eexists _, _. split; [reflexivity|]. set (w2 := control _ _ _ _ _ _ _ _ _). assert (ctl w1 w2) as L2 by (by eexists _, _, _, _, _, _, _, _). assert (base w2) as B2 by (apply (base_control w1); try done; by apply active_ctrl; [apply B1|]).
    destruct (RequestBackendStop_spec w2 (Some e)) as (S3 & E3 & _). pose proof (stop_of_stopped (st w2) (q_of w2) (a_of w2) (l_of w2)) as Hs. rewrite <- E3 in Hs. apply K; [eapply ctl_trans; [by eapply ctl_trans | apply S3] | by apply stop_base | intros Hx; by rewrite Hx in Hs | intros Hx; by rewrite Hx in Hs | intros Hx; by rewrite Hx in Hs].
Qed.

Lemma uring_next_await_suspend_inv w a : inv w -> nexts w !! a = Some new_next -> pending_next_ (src w) <> Some a -> (true, a) ∉ work w -> next_outcome a (next_await_suspend w a).
Proof.
  intros I Hn Hp Hw. assert (forall r, next_outcome a (next_inline w a r)) as K. { intros r. destruct (uring_next_inline_inv w a r I Hn Hp Hw) as (w1 & w2 & x & -> & H2 & I2). exists w1, false. split; [done|]. by exists w2, x. }
  unfold next_await_suspend. destruct (negb (loop_ (src w)) || (fd_ (src w) <? 0)); [apply K|]. destruct (negb (here w)); [apply K|]. destruct (pending_next_ (src w)) as [b|] eqn:Hb; [apply K|]. case_bool_decide as E.
  - destruct (uring_Start_inv w I E) as (w1 & r & -> & I1 & L1 & Hn1 & Hw1 & Hni). destruct (ctl_aside _ _ L1) as (K1 & _). cbn [mbind outcome_bind]. destruct r as [[]|e].
    + apply uring_next_wait_inv; try done; congruence.
    + destruct (uring_next_inline_inv w1 a (Err e)) as (w2 & w3 & x & -> & H2 & I2); [done | congruence | congruence | congruence|]. exists w2, false. split; [done|]. by exists w3, x.
  - by apply uring_next_wait_inv.
Qed.

(** ** Stop *)

Lemma stopped_inv w : base w -> stopped (st w) = true -> next_waits w -> stop_waits w -> inv w.
Proof. intros B Hs N S. split; try done; intros Hx; by rewrite Hx in Hs. Qed.

(** BeginStop on a source whose Stop is about to wait ([stop]), or not. *)
Lemma uring_BeginStop_inv w stop : base w -> next_waits w -> waiters (set_src w (set_stop (src w) stop)) ->
  exists w' r, BeginStop (set_src w (set_stop (src w) stop)) = (w', r) /\ base w' /\ stopped (st w') = true /\ next_waits w' /\ aside (set_src w (set_stop (src w) stop)) w' /\
    (recv_submitted_ (src w') = recv_submitted_ (src w)) /\ (cancel_submitted_ (src w) = true -> cancel_submitted_ (src w') = true) /\ (stopped (st w) = true -> st w' = st w) /\
    match r with Ok b => b = negb (bool_decide (st w' = kTerminal)) || recv_submitted_ (src w') || cancel_submitted_ (src w') | Err _ => True end.
Proof.
  intros [D I W C A] N W1. set (w1 := set_src _ _) in *. destruct (BeginStop_spec w1) as (w' & r & Hb & S & E & T & R). exists w', r. pose proof (stop_of_stopped (st w1) (q_of w1) (a_of w1) (l_of w1)) as Hs. rewrite <- E in Hs. pose proof (ctl_same _ _ (t_ctl _ _ S)) as Es.
  split_and!; try done.
  - split; [apply (ctl_data _ _ w1); [apply S | by destruct D] | by apply (ctl_idle w1); [apply S|] | by apply (ctl_waiters w1); [apply S|] | | unfold armed_ok; rewrite (t_armed _ _ S), (t_recv _ _ S); exact A].
    apply (settled_stopped w1 w' S); [exact (k_cancel _ C) | done | rewrite E; apply coherent_stop, C | intros H; rewrite T; by apply (k_lost _ C)].
  - by apply (ctl_next_waits w1); [apply S|].
  - apply ctl_aside, S.
  - apply (t_recv _ _ S).
  - apply (t_keeps _ _ S).
  - intros H. rewrite E. change (st w1) with (st w). by destruct (st w).
Qed.

Lemma uring_inv_put_stop w a n : inv w -> pending_stop_ (src w) <> Some a -> (false, a) ∉ work w -> inv (put_stop w a n).
Proof.
  intros [[D I W C A] HA P N S] Hp Hw. split; try done. split; [by destruct D | done | by apply waiters_put_stop | by destruct C | done].
Qed.

Lemma new_stop_unscheduled w a : waiters w -> stops w !! a = None -> pending_stop_ (src w) <> Some a /\ (false, a) ∉ work w.
Proof. intros W Hn. split; [intros Hp; pose proof (w_stop _ W a Hp); congruence | intros Hw; destruct (w_work_stop _ W a Hw) as (n & r & ? & _); congruence]. Qed.

Lemma stop_inline_inv w a r : base w -> stopped (st w) = true -> next_waits w -> pending_stop_ (src w) = Some a ->
  exists w' x, stop_inline (set_src w (set_stop (src w) None)) a r = Val (w', false) /\ stop_await_resume w' a = Val x /\ inv w'.
Proof.
  intros B Hs N Hp. pose proof (b_waiters _ B) as W. pose proof (w_stop _ W a Hp) as Hn. pose proof (parked_stop_unscheduled w a W Hp) as Hw. unfold stop_inline, get_stop. cbn. rewrite Hn. cbn. eexists _, _. split; [reflexivity|]. unfold stop_await_resume, get_stop. cbn. rewrite lookup_insert_eq. cbn. split; [reflexivity|].
  apply (uring_inv_put_stop (set_src w (set_stop (src w) None))); try done. apply stopped_inv; try done. destruct B as [D I W' C A]. split; try done; [by destruct D | by destruct W | by destruct C].
Qed.

Lemma uring_Stop_inv w a : inv w -> stops w !! a = Some new_stop -> pending_stop_ (src w) <> Some a -> (false, a) ∉ work w -> exists w' r, Stop w a = Val (w', r) /\ inv w'.
Proof.
  intros Iv Hn Hp Hw. pose proof Iv as [B HA P N S]. unfold Stop. destruct (negb (loop_ (src w))); [by eexists _, _|]. destruct (negb (here w)); [by eexists _, _|]. destruct (pending_stop_ (src w)) as [b|] eqn:Hb; [by eexists _, _|].
  destruct (bool_decide (st w = kTerminal) && _ && _); [by eexists _, _|]. unfold stop_await_suspend, get_stop. rewrite Hn. cbn [mbind outcome_bind w_bound new_stop negb ALYRN_CHECK w_gate w_result].
  set (w0 := put_stop w a _). assert (base w0 /\ next_waits w0) as [B0 N0]. { destruct (uring_inv_put_stop w a (mkStop true CompletionGate.initial None) Iv) as [B0 _ _ N0 _]; [by rewrite Hb | done | by split]. }
  destruct (uring_BeginStop_inv w0 (Some a) B0 N0) as (w1 & r & -> & B1 & Hs & N1 & (K1 & K2 & K3 & K4 & K5 & K6) & Hr & Hc & _ & R).
  { destruct (b_waiters _ B0). split; try done. cbn. intros b [= <-]. by rewrite lookup_insert_eq. }
  destruct r as [[]|e].
  - cbn [mbind outcome_bind]. eexists _, _. split; [reflexivity|]. apply stopped_inv; try done. intros b _. destruct (recv_submitted_ (src w1)); [by left|]. destruct (cancel_submitted_ (src w1)); [by right; left|]. right; right. intros Ht. rewrite Ht in R. by rewrite bool_decide_eq_true_2 in R by done.
  - destruct (stop_inline_inv w1 a (Ok tt) B1 Hs N1) as (w2 & x & -> & H2 & I2); [by rewrite K2|]. cbn [mbind outcome_bind]. rewrite H2. by eexists _, _.
  - destruct (stop_inline_inv w1 a (Err e) B1 Hs N1) as (w2 & x & -> & H2 & I2); [by rewrite K2|]. cbn [mbind outcome_bind]. rewrite H2. by eexists _, _.
Qed.

Lemma uring_RequestStop_inv w : inv w -> inv (RequestStop w).1.
Proof.
  intros Iv. pose proof Iv as [B HA P N S]. unfold RequestStop. destruct (negb (loop_ (src w)) || _); [done|]. destruct (negb (here w)); [done|]. assert (set_src w (set_stop (src w) (pending_stop_ (src w))) = w) as Es by (by destruct w as [[]]).
  destruct (uring_BeginStop_inv w (pending_stop_ (src w)) B N) as (w1 & r & Hb & B1 & Hs & N1 & (_ & K2 & _) & Hr & Hc & He & _); [rewrite Es; apply B|]. rewrite Es in Hb, K2. rewrite Hb. cbn. apply stopped_inv; try done. intros b Hpb. rewrite K2 in Hpb. rewrite Hr. destruct (S b Hpb) as [H|[H|H]]; [by left | right; left; by apply Hc | right; right]. rewrite He; [done|]. by apply (k_stop _ (b_ctrl _ B) b).
Qed.

(** ** The completion of the cancellation *)

Lemma ACancelled_inv w r : inv w -> cancel_submitted_ (src w) = true -> UringOp.cqe_result_ok r ->
  exists w', ('(op, recorded) ← UringOp.TryRecordCqeCompletion (cancel_op_ (src w)) r; ALYRN_CHECK recorded;; DispatchCancel (set_src w (set_cancel (src w) op true))) = Val w' /\ inv w'.
Proof.
  intros [B HA P N S] Hc Hr. pose proof B as [D I W C A]. rewrite (k_cancel _ C Hc). unfold fresh_cancel. destruct (UringOp.record_first UringOp.kRecvSourceCancelComplete r Hr) as (op & -> & H1 & H2 & _). cbn [mbind outcome_bind ALYRN_CHECK].
  unfold DispatchCancel. cbn [src set_src cancel_op_ set_cancel]. rewrite H2. unfold UringOp.cqe_read. rewrite H2. cbn [ALYRN_CHECK mbind outcome_bind]. unfold OnCancelComplete. cbn [src set_src cancel_op_ set_cancel].
  match goal with |- context [MaybeResume ?x] => set (w1 := x) end.
  assert (exists te, w1 = control w (st w) (a_of w) te op false (recv_op_ (src w)) (recv_submitted_ (src w)) (submits w) /\ (terminal_error_ (src w) <> None -> te <> None)) as (te & E1 & Ht).
  { exists (if UringOp.IsExpectedCancelCqeResult (UringOp.encoded_ (UringOp.result op)) then terminal_error_ (src w) else match terminal_error_ (src w) with None => Some (NegErrno (UringOp.encoded_ (UringOp.result op))) | te => te end).
    unfold w1, set_error_once. clear w1. destruct w as [[? ? [] ? ? ? ? ? ? ? ? te]]. cbn. by destruct (UringOp.IsExpectedCancelCqeResult _), te. }
  assert (st w <> kActive /\ st w <> kIdle) as [Hna Hni] by (split; intros Hx; [destruct (k_active _ C Hx) as (_ & ? & _) | destruct (k_idle _ C Hx) as (_ & ? & _)]; congruence). rewrite E1. clear w1 E1. set (w1 := control _ _ _ _ _ _ _ _ _).
  assert (ctl w w1) as L by (by eexists _, _, _, _, _, _, _, _). apply resume_tail; [|by intros Hx | by apply (ctl_next_waits w)]. apply (base_control w); try done. destruct C. split; try done. intros H. destruct (k_lost0 H) as [K1 K2]. split; [done | by apply Ht].
Qed.

(** ** Borrowing a provided buffer *)

(** A change of the provided buffers only. *)
Definition lending (w w' : world) : Prop := exists p s c, w' = set_src (set_pool w p) (set_slots (src w) s c).

Record borrowed (id : Z) (w : world) : Prop := {
  r_id : 0 <= id < ProvidedBuffers.capacity_ (pool w);
  r_slots : slots_ (src w) = <[Z.to_nat id := mkSlot 1 true true]> (replicate (Z.to_nat (ProvidedBuffers.capacity_ (pool w))) new_slot);
  r_count : active_slot_count_ (src w) = 1;
  r_pool : exists p, pool_idle p /\ ProvidedBuffers.Acquire p id = (pool w, true);
}.

Lemma lending_refl w : lending w w.
Proof. exists (pool w), (slots_ (src w)), (active_slot_count_ (src w)). by destruct w as [[]]. Qed.

Lemma Acquire_spec p id : pool_idle p -> 0 <= id < ProvidedBuffers.capacity_ p -> exists p', ProvidedBuffers.Acquire p id = (p', true) /\ ProvidedBuffers.capacity_ p' = ProvidedBuffers.capacity_ p.
Proof.
  intros (_ & Hu & _ & _) Hid. unfold ProvidedBuffers.Acquire, ProvidedBuffers.used_at. rewrite Hu, length_replicate, lookup_replicate_2, (proj2 (Z.leb_gt _ _)) by lia. cbn. by eexists.
Qed.

Lemma Return_spec p p1 id : pool_idle p -> 0 <= id < ProvidedBuffers.capacity_ p -> ProvidedBuffers.Acquire p id = (p1, true) ->
  ProvidedBuffers.capacity_ p1 = ProvidedBuffers.capacity_ p /\ is_Some (ProvidedBuffers.slot p1 id) /\ exists p2, ProvidedBuffers.Return p1 id = (p2, true) /\ pool_idle p2 /\ ProvidedBuffers.capacity_ p2 = ProvidedBuffers.capacity_ p.
Proof.
  intros ([r Hr] & Hu & Hs & Hc) Hid. unfold ProvidedBuffers.Acquire, ProvidedBuffers.used_at. rewrite Hu, length_replicate, lookup_replicate_2, (proj2 (Z.leb_gt _ _)) by lia. cbn. intros [= <-]. split_and!; [done | |].
  - unfold ProvidedBuffers.slot, ProvidedBuffers.storage_slot. cbn. rewrite Hs, (proj2 (Z.ltb_lt _ _)), (proj2 (Z.leb_gt _ _)) by lia. by eexists.
  - unfold ProvidedBuffers.Return, ProvidedBuffers.used_at. cbn. rewrite Hr, length_insert, length_replicate, list_lookup_insert_eq, (proj2 (Z.leb_gt _ _)) by (rewrite ?length_replicate; lia). cbn. eexists. split; [reflexivity|]. split; [|done].
    split_and!; try done. cbn. rewrite list_insert_insert_eq. apply list_insert_id. apply lookup_replicate_2. lia.
Qed.

Lemma AcquireBuffer_spec w id size : data w -> idle w -> 0 <= id < ProvidedBuffers.capacity_ (pool w) ->
  AcquireBuffer w id size = (w, Err (Errno EPROTO)) /\ Z.of_nat bs < size \/
  exists w1 w2, AcquireBuffer w id size = (w1, Ok tt) /\ MarkKernelDone w1 id = Val w2 /\ lending w w2 /\ borrowed id w2 /\ size <= Z.of_nat bs.
Proof.
  intros D (Hs & Hc & Hp) Hid. unfold AcquireBuffer, slot_at. rewrite (d_pool _ _ _ D), (d_bs _ _ _ D), Hs, length_replicate, lookup_replicate_2, (proj2 (Z.leb_gt _ _)) by lia. cbn [negb orb]. destruct (Z.ltb_spec (Z.of_nat bs) size) as [Hz|Hz]; [by left|]. right. cbn [active new_slot].
  destruct (Acquire_spec (pool w) id Hp Hid) as (p' & Ha & Hcap). rewrite Ha. cbn [negb]. eexists _, _. split; [reflexivity|]. unfold MarkKernelDone, slot_at, put_slot. cbn. rewrite Hs, list_lookup_insert_eq by (rewrite length_replicate; lia). cbn.
  unfold ReturnIfReclaimable, slot_at, put_slot. cbn. rewrite list_insert_insert_eq, list_lookup_insert_eq by (rewrite length_replicate; lia). cbn. rewrite Hc, <- Hcap. split; [reflexivity|]. split; [by eexists _, _, _|]. split; [|done].
  split; cbn; [lia | done | done | by exists (pool w)].
Qed.

Lemma borrowed_slot w id : borrowed id w -> is_Some (ProvidedBuffers.slot (pool w) id).
Proof. intros [Hid _ _ (p & Hp & Ha)]. destruct (Return_spec p (pool w) id Hp) as (_ & H & _); [|done|done]. split; [lia|]. revert Ha. unfold ProvidedBuffers.Acquire. destruct (_ || _); [done|]. intros [= Hx]. rewrite <- Hx in Hid. cbn in Hid. lia. Qed.

Lemma ReleaseSlotLease_spec w id : buffer_pool_ (src w) = true -> borrowed id w -> exists w', ReleaseSlotLease w id = Val w' /\ lending w w' /\ idle w'.
Proof.
  intros D [Hid Hs Hc (p & Hp & Ha)]. assert (ProvidedBuffers.capacity_ p = ProvidedBuffers.capacity_ (pool w)) as Hcap. { revert Ha. unfold ProvidedBuffers.Acquire. destruct (_ || _); [done|]. intros [= Hx]. by rewrite <- Hx. }
  destruct (Return_spec p (pool w) id Hp) as (_ & _ & p2 & Hr & Hp2 & Hcap2); [lia | done |]. unfold ReleaseSlotLease, slot_at, put_slot. rewrite Hs, list_lookup_insert_eq by (rewrite length_replicate; lia). cbn.
  unfold ReturnIfReclaimable, slot_at, put_slot. cbn. rewrite list_insert_insert_eq, list_lookup_insert_eq by (rewrite length_replicate; lia). cbn. rewrite D, Hr. cbn. rewrite Hc. cbn. rewrite list_insert_insert_eq. eexists. split; [reflexivity|]. split; [by eexists _, _, _|].
  unfold idle. cbn. rewrite Hcap2, Hcap. split_and!; try done. apply list_insert_id, lookup_replicate_2. lia.
Qed.

Lemma lending_data w w' : lending w w' -> data w -> data w'.
Proof. intros (? & ? & ? & ->) []. by split. Qed.

Lemma lending_waiters w w' : lending w w' -> waiters w -> waiters w'.
Proof. intros (? & ? & ? & ->) []. by split. Qed.

Lemma lending_ctrl w w' : lending w w' -> ctrl w -> ctrl w'.
Proof. intros (? & ? & ? & ->) []. by split. Qed.

(** ** Storing a payload *)

(** A free copy slot takes the bytes. *)
Definition fill (w : world) (rest : list Z) (k : Z) (bytes : list byte) (m : RecvSource.t) : world :=
  with_state (set_src w (set_payloads (set_free (src w) rest) (list_inserts (Z.to_nat k * bs) bytes (queued_payloads_ (src w))))) m.

Lemma free_slot w : data w -> l_of w < RecvSource.buffer_capacity o -> exists rest k, copy_free_ (src w) = rest ++ [k].
Proof.
  intros D Hl. destruct (copy_free_ (src w)) as [|k rest _] eqn:E using rev_ind; [|by eexists _, _]. pose proof (Permutation_length (d_copy _ _ _ D)) as Hp. rewrite E, !length_app, length_fmap, length_seqZ, (queue_length w D) in Hp. cbn in Hp. pose proof (d_l _ _ _ D). lia.
Qed.

Lemma free_range w rest k : data w -> copy_free_ (src w) = rest ++ [k] -> 0 <= k < RecvSource.buffer_capacity o /\ k ∉ (copy_slot <$> queue (src w)) ++ leased (out w).
Proof.
  intros D E. pose proof (d_copy _ _ _ D) as Hp. rewrite E in Hp. split.
  - assert (k ∈ seqZ 0 (RecvSource.buffer_capacity o)) as H; [|apply elem_of_seqZ in H; lia]. rewrite <- Hp. set_solver.
  - pose proof (NoDup_seqZ 0 (RecvSource.buffer_capacity o)) as Hn. rewrite <- Hp, <- app_assoc in Hn. apply NoDup_app in Hn as (_ & _ & Hn). cbn in Hn. by apply NoDup_cons in Hn as [Hn _].
Qed.

Lemma fill_payload w rest k bytes m : data w -> 0 <= k < RecvSource.buffer_capacity o -> (length bytes <= bs)%nat -> payload (src (fill w rest k bytes m)) k (length bytes) = bytes.
Proof. intros D Hk Hb. unfold payload. cbn. rewrite (d_bs _ _ _ D). eapply slot_write; [apply (d_payloads _ _ _ D) | lia | done]. Qed.

Lemma fill_other w rest k bytes m k' size : data w -> copy_free_ (src w) = rest ++ [k] -> (length bytes <= bs)%nat -> (size <= bs)%nat -> k' ∈ (copy_slot <$> queue (src w)) ++ leased (out w) ->
  payload (src (fill w rest k bytes m)) k' size = payload (src w) k' size.
Proof.
  intros D E Hb Hs Hk'. destruct (free_range w rest k D E) as [Hk Hn]. pose proof (uring_slot_range w k' D Hk') as Hr. unfold payload. cbn. rewrite (d_bs _ _ _ D). apply slot_write_other; try done. intros Hx. assert (k = k') as -> by lia. done.
Qed.

Lemma fill_queue w rest k bytes m : data w -> copy_free_ (src w) = rest ++ [k] -> (length bytes <= bs)%nat ->
  (fun p => payload (src (fill w rest k bytes m)) (copy_slot p) (p_size p)) <$> queue (src w) = (fun p => payload (src w) (copy_slot p) (p_size p)) <$> queue (src w).
Proof.
  intros D E Hb. apply list_fmap_ext. intros i p Hp. apply list_elem_of_lookup_2 in Hp. eapply fill_other; try done; [by apply (d_queued _ _ _ D)|]. apply elem_of_app. left. by apply list_elem_of_fmap_2.
Qed.

Lemma fill_out w rest k bytes m e k' : data w -> copy_free_ (src w) = rest ++ [k] -> (length bytes <= bs)%nat -> e ∈ out w -> e_slot e = Some k' ->
  (0 < e_size e <= bs)%nat /\ payload (src (fill w rest k bytes m)) k' (e_size e) = e_bytes e.
Proof.
  intros D E Hb He Hk. destruct (d_out _ _ _ D e k' He Hk) as [H1 <-]. split; [done|]. eapply fill_other; try done; [lia|]. apply elem_of_app. right. unfold leased. apply list_elem_of_omap. by exists e.
Qed.

(** Handed to the waiting Next at once, or queued. *)
Definition handed (w : world) (rest : list Z) (k : Z) (bytes : list byte) (m : RecvSource.t) : world :=
  log_taken (log_kept (fill w rest k bytes m) bytes) (mkEvent (Some k) (length bytes) bytes).
Definition enqueued (w : world) (rest : list Z) (k : Z) (bytes : list byte) (m : RecvSource.t) : world :=
  let s := src (fill w rest k bytes m) in
  log_kept (set_src (fill w rest k bytes m) (set_ring s (<[((event_head_ s + event_count_ s) mod length (events_ s))%nat := mkPending k (length bytes)]> (events_ s)) (event_head_ s) (event_count_ s + 1)%nat)) bytes.

Lemma handed_data w rest k bytes m : data w -> copy_free_ (src w) = rest ++ [k] -> (0 < length bytes <= bs)%nat -> event_count_ (src w) = 0%nat -> overflow_ (src w) = [] ->
  RecvSource.options_ m = o -> RecvSource.queued_events_ m = q_of w -> RecvSource.outstanding_leases_ m = l_of w + 1 -> data (handed w rest k bytes m).
Proof.
  intros D E Hb Hc Ho Mo Mq Ml. destruct (free_range w rest k D E) as [Hk Hn]. assert (queue (src w) = []) as Hq by (apply length_zero_iff_nil; rewrite (queue_length w D); done).
  pose proof (fill_payload w rest k bytes m D Hk) as Hp. pose proof (fun e k' => fill_out w rest k bytes m e k' D E) as Hf.
  destruct D. split; try done; cbn.
  - by rewrite Mq.
  - rewrite Ml, d_l0. unfold leased. rewrite omap_app, length_app. cbn. lia.
  - rewrite <- d_copy0, E. unfold leased. rewrite omap_app. cbn. rewrite <- !app_assoc. apply Permutation_app_head. change (queue _) with (queue (src w)). cbn. rewrite (Permutation_app_comm (omap e_slot (out w)) [k]). cbn. by rewrite Permutation_middle.
  - by rewrite length_inserts.
  - intros e k' [He|He]%elem_of_app Hs; [apply Hf; try done; lia|]. apply list_elem_of_singleton in He. subst e. injection Hs as <-. cbn. split; [done|]. apply Hp. lia.
  - change (queue _) with (queue (src w)). rewrite d_log0, Hq, Ho, Hc. cbn. by rewrite !app_nil_r.
Qed.

Lemma enqueued_queue w rest k bytes m : data w -> (event_count_ (src w) < length (events_ (src w)))%nat -> queue (src (enqueued w rest k bytes m)) = queue (src w) ++ [mkPending k (length bytes)].
Proof. intros D Hc. rewrite !queue_ring. cbn. by apply ring_push. Qed.

Lemma enqueued_data w rest k bytes m : data w -> copy_free_ (src w) = rest ++ [k] -> (0 < length bytes <= bs)%nat -> q_of w < RecvSource.event_capacity o -> overflow_ (src w) = [] ->
  RecvSource.options_ m = o -> RecvSource.queued_events_ m = q_of w + 1 -> RecvSource.outstanding_leases_ m = l_of w + 1 -> data (enqueued w rest k bytes m).
Proof.
  intros D E Hb Hc Ho Mo Mq Ml. destruct (free_range w rest k D E) as [Hk Hn]. assert (event_count_ (src w) < length (events_ (src w)))%nat as Hlt by (rewrite (d_events _ _ _ D); rewrite (d_q _ _ _ D) in Hc; lia).
  pose proof (fill_payload w rest k bytes m D Hk) as Hp. pose proof (fun e k' => fill_out w rest k bytes m e k' D E) as Hf. pose proof (fill_queue w rest k bytes m D E) as Hfq. pose proof (enqueued_queue w rest k bytes m D Hlt) as Hqq.
  assert (kept w ++ [bytes] = taken w ++ ((fun p => payload (src (fill w rest k bytes m)) (copy_slot p) (p_size p)) <$> queue (src w) ++ [mkPending k (length bytes)]) ++ overflow_ (src w)) as Hlog.
  { rewrite fmap_app, Hfq, Ho, app_nil_r, (d_log _ _ _ D), Ho, app_nil_r, <- app_assoc by lia. cbn [fmap list_fmap copy_slot p_size]. by rewrite Hp by lia. }
  destruct D. split; try done; try rewrite Hqq; cbn.
  - by rewrite length_insert.
  - by rewrite length_insert.
  - rewrite length_insert. lia.
  - rewrite Mq, d_q0. lia.
  - rewrite Ml, d_l0. unfold leased. lia.
  - rewrite <- d_copy0, E, fmap_app. cbn. rewrite <- !app_assoc. apply Permutation_app_head. cbn. by rewrite Permutation_middle.
  - by rewrite length_inserts.
  - intros p [Hx|Hx]%elem_of_app; [by apply d_queued0|]. apply list_elem_of_singleton in Hx. by subst p.
  - intros e k' He Hs. apply Hf; try done. lia.
  - exact Hlog.
Qed.

Lemma lending_borrowed_fill w rest k bytes m id : borrowed id w -> borrowed id (fill w rest k bytes m).
Proof. intros []. by split. Qed.

Lemma CopyAndRelease_spec w id size rest k m : data w -> borrowed id w -> copy_free_ (src w) = rest ++ [k] -> (size <= bs)%nat ->
  exists w', CopyAndReleasePoolSlot (with_state w m) id size = Val (w', k) /\ lending (fill w rest k (provided w id size) m) w' /\ idle w'.
Proof.
  intros D R E Hs. unfold CopyAndReleasePoolSlot, TakeCopySlot. cbn [src with_state set_src buffer_pool_ set_state copy_free_]. rewrite (d_pool _ _ _ D), E, last_snoc, removelast_last. cbn [ALYRN_CHECK mbind outcome_bind].
  destruct (borrowed_slot w id R) as [a Ha]. cbn [pool set_src with_state]. rewrite Ha, bool_decide_eq_true_2 by done. cbn [src set_src buffer_size_ set_free set_state with_state]. rewrite (d_bs _ _ _ D), (proj2 (Nat.leb_le _ _)) by done. cbn [andb ALYRN_CHECK mbind outcome_bind].
  change (set_src _ _) with (fill w rest k (provided w id size) m). destruct (ReleaseSlotLease_spec (fill w rest k (provided w id size) m) id) as (w' & -> & L & I); [apply D | by apply lending_borrowed_fill |]. by exists w'.
Qed.

(** ** A completion of the receive *)

(** Before the completion is recorded the request still counts. *)
Record mid (more : bool) (w : world) : Prop := {
  m_data : data w; m_waiters : waiters w; m_ctrl : ctrl w; m_armed : a_of w = 1; m_recv : recv_submitted_ (src w) = more; m_item : one_item w; m_next : st w = kActive -> next_waits w;
}.

(** Once it is recorded, the queue may be full. *)
Record post (more : bool) (w : world) : Prop := {
  p_data : data w; p_waiters : waiters w; p_soft : soft w; p_active : st w = kActive -> terminal_error_ (src w) = None /\ cancel_submitted_ (src w) = false;
  p_started : st w <> kIdle; p_armed : armed_ok w; p_recv : recv_submitted_ (src w) = more; p_item : one_item w; p_next : st w = kActive -> next_waits w;
}.

Lemma lending_item w w' : lending w w' -> one_item w -> one_item w'.
Proof. by intros (? & ? & ? & ->). Qed.

Lemma mid_lending more w w' : lending w w' -> mid more w -> mid more w'.
Proof. intros L []. split; [by eapply lending_data | by eapply lending_waiters | by eapply lending_ctrl | | | by eapply lending_item |]; destruct L as (? & ? & ? & ->); done. Qed.

Lemma ctl_item w w' : ctl w w' -> one_item w -> one_item w'.
Proof. intros L. pose proof (ctl_same _ _ L) as E. unfold one_item. by rewrite (s_next _ _ E), (s_count _ _ E), (s_overflow _ _ E), (s_l _ _ E). Qed.

Lemma mid_settled more w w' : settled w w' -> ctrl w' -> st w' <> kActive -> mid more w -> mid more w'.
Proof.
  intros S C Hn []. pose proof (t_ctl _ _ S) as L. split; [by eapply ctl_data | by eapply ctl_waiters | done | by rewrite (t_armed _ _ S) | by rewrite (t_recv _ _ S) | by eapply ctl_item | done].
Qed.

Lemma mid_started more w : mid more w -> st w <> kIdle /\ st w <> kPaused /\ st w <> kDraining /\ st w <> kTerminal.
Proof. intros M. pose proof (k_coherent _ (m_ctrl _ _ M)) as Hk. rewrite (m_armed _ _ M) in Hk. split_and!; intros E; rewrite E in Hk; cbn in Hk; lia. Qed.

Lemma stop_not_active w err : st (RequestBackendStop w err) <> kActive.
Proof. destruct (RequestBackendStop_spec w err) as (_ & E & _). intros Hx. pose proof (stop_of_stopped (st w) (q_of w) (a_of w) (l_of w)) as Hs. by rewrite <- E, Hx in Hs. Qed.

Lemma mid_stop more w err : mid more w -> mid more (RequestBackendStop w err).
Proof. intros M. apply (mid_settled more w); [apply RequestBackendStop_spec | apply stop_ctrl, M | apply stop_not_active | done]. Qed.

Lemma mid_pause more w : mid more w -> mid more (RequestBackendPause w).
Proof. intros M. destruct (pause_ctrl w) as [C Hn]; [apply ctrl_soft, M | apply (mid_started _ _ M)|]. apply (mid_settled more w); [apply RequestBackendPause_spec | done | done | done]. Qed.

Lemma idle_settled w w' : settled w w' -> idle w -> idle w'.
Proof. intros S. apply ctl_idle, S. Qed.

(** The payload comes too late for the queue. *)
Definition overflowed (w : world) (bytes : list byte) : world := log_kept (set_src w (set_overflow (src w) (overflow_ (src w) ++ [bytes]))) bytes.

Lemma overflowed_mid more w bytes : mid more w -> direct_delivery w = false -> next_waits w -> overflow_ (src w) <> [] \/ RecvSource.CanQueueEvent (state_ (src w)) = false -> mid more (overflowed w bytes).
Proof.
  intros M Hd N Hor. destruct (mid_started _ _ M) as (Hi & _). destruct M as [D W C Ha Hr H1 Hn]. pose proof (d_options _ _ _ D) as Eo. pose proof (d_q _ _ _ D) as Eq. pose proof options_bounds as Hob. split; try done.
  - destruct D. split; try done. cbn. rewrite d_log0. by rewrite <- !app_assoc.
  - by destruct W.
  - by destruct C.
  - unfold one_item. cbn. destruct (pending_next_ (src w)) as [a|] eqn:Hp; [|by left]. right. destruct (N a Hp) as [Hc Ho]. rewrite Hc, Ho. cbn. split; [lia|]. intros _. destruct Hor as [Hor|Hor]; [congruence|]. unfold RecvSource.CanQueueEvent in Hor. rewrite Eo in Hor. apply andb_false_iff in Hor as [Hor|Hor]; bool_prop; lia.
  - intros E a Hp. change (pending_next_ (src w) = Some a) in Hp. exfalso. destruct (N a Hp) as [Hc Ho]. unfold direct_delivery in Hd. rewrite Hp, Hc, Ho in Hd. unfold UringRecv.st in *. cbn in E. by rewrite !bool_decide_eq_true_2 in Hd by done.
Qed.

Lemma overflow_branch more w id size : mid more w -> borrowed id w -> (size <= bs)%nat -> direct_delivery w = false -> next_waits w -> overflow_ (src w) <> [] \/ RecvSource.CanQueueEvent (state_ (src w)) = false ->
  exists w', KeepOverflow w id size = Val w' /\ mid more (RequestBackendPause (log_kept w' (provided w id size))) /\ idle (RequestBackendPause (log_kept w' (provided w id size))).
Proof.
  intros M R Hs Hd N Hor. pose proof (m_data _ _ M) as D. unfold KeepOverflow. destruct (borrowed_slot w id R) as [a Ha]. rewrite (d_pool _ _ _ D), Ha, bool_decide_eq_true_2, (d_bs _ _ _ D), (proj2 (Nat.leb_le _ _)) by done. cbn [andb ALYRN_CHECK mbind outcome_bind].
  destruct (ReleaseSlotLease_spec w id (d_pool _ _ _ D) R) as (w1 & -> & L & I). cbn [mbind outcome_bind]. eexists. split; [reflexivity|]. change (log_kept _ _) with (overflowed w1 (provided w id size)).
  assert (mid more (overflowed w1 (provided w id size))) as M1. { apply overflowed_mid; [by eapply mid_lending | | |]; by destruct L as (? & ? & ? & ->). }
  split; [by apply mid_pause | by eapply idle_settled; [apply RequestBackendPause_spec|]].
Qed.

(** Every lease is out: the payload is dropped and the source stops. *)
Lemma lost_branch more w id bytes e : mid more w -> borrowed id w ->
  exists w', ReleaseSlotLease (with_state w (state_ (src w))) id = Val w' /\ mid more (RequestBackendStop (log_lost w' bytes) (Some e)) /\ idle (RequestBackendStop (log_lost w' bytes) (Some e)).
Proof.
  intros M R. assert (with_state w (state_ (src w)) = w) as -> by (by destruct w as [[]]). destruct (ReleaseSlotLease_spec w id (d_pool _ _ _ (m_data _ _ M)) R) as (w1 & -> & L & I). exists w1. split; [done|]. pose proof (mid_lending more w w1 L M) as [D W C Ha Hr H1 Hn].
  destruct (RequestBackendStop_spec (log_lost w1 bytes) (Some e)) as (S & E & T). pose proof (t_ctl _ _ S) as Lc. split; [|by apply (ctl_idle (log_lost w1 bytes))]. split.
  - apply (ctl_data _ _ _ _ Lc). by destruct D.
  - apply (ctl_waiters _ _ Lc). by destruct W.
  - apply (settled_stopped _ _ S); [apply C | rewrite E; apply stop_of_stopped | rewrite E; apply coherent_stop, C | intros _; by apply T].
  - by rewrite (t_armed _ _ S).
  - by rewrite (t_recv _ _ S).
  - by apply (ctl_item (log_lost w1 bytes)).
  - intros Hx. by destruct (stop_not_active (log_lost w1 bytes) (Some e)).
Qed.

Lemma base_post more w : base w -> recv_submitted_ (src w) = more -> st w <> kIdle -> one_item w -> (st w = kActive -> next_waits w) -> post more w.
Proof. intros [D I W C A] Hr Hs H1 Hn. split; try done; [by apply ctrl_soft | intros E; by destruct (k_active _ C E) as (? & ? & _)]. Qed.

Lemma base_lending w w' : lending w w' -> idle w' -> data w -> waiters w -> ctrl w -> armed_ok w -> base w'.
Proof. intros L I D W C A. split; [by eapply lending_data | done | by eapply lending_waiters | by eapply lending_ctrl | by destruct L as (? & ? & ? & ->)]. Qed.

Abbreviation armed_of more := (if more then 1 else 0).

Lemma direct_branch more w id size a : mid more w -> borrowed id w -> pending_next_ (src w) = Some a -> event_count_ (src w) = 0%nat -> overflow_ (src w) = [] -> st w = kActive -> l_of w < RecvSource.buffer_capacity o ->
  (0 < size <= bs)%nat -> length (provided w id size) = size ->
  exists w1 k lease w', CopyAndReleasePoolSlot (with_state w (RecvSource.mk o kActive (q_of w) (armed_of more) (l_of w + 1))) id size = Val (w1, k) /\ MakeQueuedLease (src w1) k size = Val lease /\ pending_next_ (src w1) = Some a /\
    (let w2 := log_taken (log_kept w1 (provided w id size)) lease in next_Complete (set_src w2 (set_next (src w2) None)) a (Ok (Some lease)) = Val w') /\ post more w' /\ idle w'.
Proof.
  intros [D W C Ha Hr H1 Hn] R Hp Hc Ho E Hl Hs Hlen. destruct (free_slot w D Hl) as (rest & k & Hf). destruct (free_range w rest k D Hf) as [Hk _]. set (m := RecvSource.mk _ _ _ _ _).
  destruct (CopyAndRelease_spec w id size rest k m D R Hf) as (w1 & -> & L & I); [lia|]. set (bytes := provided w id size) in *. exists w1, k, (mkEvent (Some k) size bytes).
  assert (MakeQueuedLease (src w1) k size = Val (mkEvent (Some k) size bytes) /\ pending_next_ (src w1) = Some a) as [Hm Hp1].
  { destruct L as (? & ? & ? & ->). split; [|done]. unfold MakeQueuedLease. cbn -[payload]. rewrite length_inserts, (d_bs _ _ _ D), (d_payloads _ _ _ D), (proj2 (Nat.leb_le _ _)) by nia. cbn [ALYRN_CHECK mbind outcome_bind]. do 2 f_equal. rewrite <- Hlen. apply (fill_payload w rest k bytes m D Hk). lia. }
  set (w2 := log_taken (log_kept w1 bytes) _). assert (base w2) as B2.
  { apply (base_lending (handed w rest k bytes m)).
    - destruct L as (? & ? & ? & ->). eexists _, _, _. unfold w2. by rewrite <- Hlen.
    - exact I.
    - apply handed_data; try done; lia.
    - by destruct W.
    - destruct (k_active _ C E) as (K1 & K2 & K3). destruct C. split; try done; unfold UringRecv.st in *; cbn.
      + intros _. rewrite (d_options _ _ _ D) in K3. done.
      + intros H. destruct (k_lost0 H) as [K _]. by rewrite E in K.
      + intros b Hb. pose proof (k_stop0 b Hb) as K. by rewrite E in K.
    - unfold armed_ok. cbn. by rewrite Hr. }
  destruct (uring_next_Complete_spec w2 a (Ok (Some (mkEvent (Some k) size bytes))) B2 Hp1) as (w3 & E3 & F & B3 & _). exists w3. split_and!; try done; [|apply B3]. pose proof (f_src _ _ _ _ F) as Fs.
  apply base_post; try done; unfold one_item, next_waits, UringRecv.st; rewrite ?Fs; cbn; try done; destruct L as (? & ? & ? & ->); cbn; try done. by left.
Qed.

Lemma not_direct w a : direct_delivery w = false -> next_waits w -> pending_next_ (src w) = Some a -> st w <> kActive.
Proof. intros Hd N Hp E. destruct (N a Hp) as [Hc Ho]. unfold direct_delivery in Hd. rewrite Hp, Hc, Ho, E in Hd. by rewrite !bool_decide_eq_true_2 in Hd by done. Qed.

Lemma queue_branch more w id size : mid more w -> borrowed id w -> direct_delivery w = false -> next_waits w -> overflow_ (src w) = [] -> q_of w < RecvSource.event_capacity o -> l_of w < RecvSource.buffer_capacity o ->
  (0 < size <= bs)%nat -> length (provided w id size) = size ->
  exists w', QueueEvent (with_state w (RecvSource.mk o (done_of (st w) (q_of w + 1) (armed_of more) (l_of w + 1)) (q_of w + 1) (armed_of more) (l_of w + 1))) id size = Val w' /\
    post more (log_kept w' (provided w id size)) /\ idle (log_kept w' (provided w id size)).
Proof.
  intros M R Hd N Ho Hq Hl Hs Hlen. destruct (mid_started _ _ M) as (Hi & Hni & Hnp & Hnt). destruct M as [D W C Ha Hr H1 Hn]. destruct (free_slot w D Hl) as (rest & k & Hf). set (m := RecvSource.mk _ _ _ _ _). unfold QueueEvent.
  assert (event_count_ (src w) < length (events_ (src w)))%nat as Hlt by (rewrite (d_events _ _ _ D); pose proof (d_q _ _ _ D); lia). cbn [src with_state set_src set_state event_count_ events_]. rewrite (proj2 (Nat.ltb_lt _ _) Hlt). cbn [ALYRN_CHECK mbind outcome_bind].
  destruct (CopyAndRelease_spec w id size rest k m D R Hf) as (w1 & -> & L & I); [lia|]. set (bytes := provided w id size) in *. cbn [mbind outcome_bind]. eexists. split; [reflexivity|]. set (w2 := log_kept _ _).
  assert (lending (enqueued w rest k bytes m) w2) as L2 by (destruct L as (? & ? & ? & ->); eexists _, _, _; unfold w2, enqueued; rewrite Hlen; reflexivity). split; [|exact I].
  assert (st w2 = done_of (st w) (q_of w + 1) (armed_of more) (l_of w + 1)) as E2 by (destruct L2 as (? & ? & ? & ->); done). split.
  - apply (lending_data _ _ L2). apply enqueued_data; try done; lia.
  - apply (lending_waiters _ _ L2). by destruct W.
  - destruct L2 as (? & ? & ? & ->). destruct C. split; try done; unfold UringRecv.st in *; cbn.
    + apply coherent_done. by destruct (RecvSource.state_ (state_ (src w))).
    + by rewrite done_of_stopped.
    + by rewrite done_of_stopped.
  - rewrite E2, done_of_active. intros E. destruct (k_active _ C E) as (K1 & K2 & _). by destruct L2 as (? & ? & ? & ->).
  - rewrite E2. by intros ?%done_of_idle.
  - destruct L2 as (? & ? & ? & ->). unfold armed_ok. cbn. by rewrite Hr.
  - by destruct L2 as (? & ? & ? & ->).
  - apply (lending_item _ _ L2). unfold one_item. cbn. destruct (pending_next_ (src w)) as [a|] eqn:Hp; [|by left]. right. destruct (N a Hp) as [-> ->]. cbn. split; [lia|done].
  - rewrite E2, done_of_active. intros E a Hp. exfalso. apply (not_direct w a); try done. by destruct L2 as (? & ? & ? & ->).
Qed.

Lemma on_data_spec more w id size : mid more w -> borrowed id w -> next_waits w -> (0 < size <= bs)%nat -> length (provided w id size) = size ->
  exists w' recorded, on_data w id size more = Val (w', recorded) /\ idle w' /\ if (recorded : bool) then post more w' else mid more w'.
Proof.
  intros M R N Hs Hlen. pose proof M as [D W C Ha Hr H1 Hn]. pose proof options_bounds as Hob. pose proof (bounds w D) as Hb. unfold on_data. destruct (direct_delivery w) eqn:Hd; cbn [negb andb].
  - pose proof Hd as Hd'. unfold direct_delivery in Hd'. destruct (pending_next_ (src w)) as [a|] eqn:Hp; [|done]. destruct (overflow_ (src w)) eqn:Ho; [|by destruct (event_count_ (src w) =? 0)%nat]. rewrite andb_true_r in Hd'. bool_prop.
    rewrite (machine_eta (state_ (src w))), (d_options _ _ _ D), Ha. fold (st w). destruct (Z.ltb_spec (l_of w) (RecvSource.buffer_capacity o)) as [Hl|Hl].
    + rewrite machine_delivered by lia. rewrite H0. change (done_of kActive _ _ _) with kActive. destruct (direct_branch more w id size a) as (w1 & k & lease & w' & E1 & E2 & E3 & E4 & P & I); try done; [by apply Nat.eqb_eq|]. rewrite E1. cbn [mbind outcome_bind]. rewrite E2. cbn [mbind outcome_bind]. rewrite E3. cbn zeta in E4. rewrite E4. cbn [mbind outcome_bind]. by eexists _, _.
    + rewrite machine_delivered_full by lia. assert (RecvSource.mk o (st w) (q_of w) 1 (l_of w) = state_ (src w)) as -> by (rewrite <- Ha, <- (d_options _ _ _ D); symmetry; apply machine_eta). destruct (lost_branch more w id (provided w id size) (Errno ENOBUFS) M R) as (w' & -> & M' & I'). cbn [mbind outcome_bind]. by eexists _, _.
  - destruct (negb (match overflow_ (src w) with [] => true | _ => false end) || negb (RecvSource.CanQueueEvent (state_ (src w)))) eqn:Hov.
    + destruct (overflow_branch more w id size) as (w' & -> & M' & I'); try done; [lia | apply orb_true_iff in Hov as [Hov|Hov]; bool_prop; [left; by destruct (overflow_ (src w)) | by right] |]. cbn [mbind outcome_bind]. by eexists _, _.
    + apply orb_false_iff in Hov as [Ho Hcan]. assert (overflow_ (src w) = []) as Ho' by (by destruct (overflow_ (src w))). apply negb_false_iff in Hcan. unfold RecvSource.CanQueueEvent in Hcan. rewrite (d_options _ _ _ D) in Hcan. bool_prop.
      rewrite (machine_eta (state_ (src w))), (d_options _ _ _ D), Ha. fold (st w). rewrite machine_produced by lia. destruct (queue_branch more w id size) as (w' & E1 & P & I); try done. rewrite E1. cbn [mbind outcome_bind]. by eexists _, _.
Qed.

Lemma on_no_data_spec w e valid : idle w -> (valid = true -> 0 <= SelectedBufferId e < ProvidedBuffers.capacity_ (pool w)) ->
  exists w' err, on_no_data w e valid = Val (w', err) /\ lending w w' /\ idle w'.
Proof.
  intros I Hv. pose proof I as (Hs & Hc & Hp). unfold on_no_data. destruct (BufferMore e); [eexists _, _; split; [reflexivity|]; split; [apply lending_refl | done]|]. destruct valid; cbn [andb]; [|eexists _, _; split; [reflexivity|]; split; [apply lending_refl | done]].
  specialize (Hv eq_refl). unfold slot_at. rewrite Hs, lookup_replicate_2 by lia. cbn [active new_slot]. destruct (Acquire_spec (pool w) _ Hp Hv) as (p1 & Ha & _). rewrite Ha. cbn [pool set_pool]. destruct (Return_spec (pool w) p1 _ Hp Hv Ha) as (_ & _ & p2 & -> & Hp2 & Hcap). cbn [ALYRN_CHECK mbind outcome_bind].
  eexists _, _. split; [reflexivity|]. split; [exists p2, (slots_ (src w)), (active_slot_count_ (src w)); by destruct w as [[]] |]. unfold idle. cbn. by rewrite Hcap.
Qed.

(** What the kernel promises of a completion: the bytes it reports are in the buffer. *)
Definition delivered (w : world) (e : CompletionEvent) : Prop :=
  0 <= UringOp.event_flags e /\ (HasSelectedBuffer e = true -> event_result e <= Z.of_nat (length (default [] (memory w !! SelectedBufferId e)))).

Lemma on_result_spec w e : mid (More e) w -> idle w -> next_waits w -> delivered w e ->
  exists w' recorded err, on_result w e = Val (w', recorded, err) /\ idle w' /\ if (recorded : bool) then err = None /\ post (More e) w' else mid (More e) w'.
Proof.
  intros M I N [Hf Hd]. pose proof (m_data _ _ M) as D. unfold on_result. rewrite (d_pool _ _ _ D), andb_true_r. set (valid := HasSelectedBuffer e && _).
  assert (valid = true -> 0 <= SelectedBufferId e < ProvidedBuffers.capacity_ (pool w)) as Hv by (unfold valid; intros Hx; bool_prop; split; [by apply Z.shiftr_nonneg | lia]). destruct (Z.ltb_spec 0 (event_result e)) as [H0|H0].
  - destruct (negb valid || BufferMore e) eqn:Hg; [by eexists _, _, _|]. apply orb_false_iff in Hg as [Hg _]. apply negb_false_iff in Hg. specialize (Hv Hg). destruct (AcquireBuffer_spec w (SelectedBufferId e) (event_result e) D I Hv) as [[-> _]|(w1 & w2 & -> & E2 & L & R & Hs)]; [by eexists _, _, _|].
    rewrite E2. cbn [mbind outcome_bind]. destruct (on_data_spec (More e) w2 (SelectedBufferId e) (Z.to_nat (event_result e))) as (w' & rec & -> & I' & P'); [by eapply mid_lending | done | by destruct L as (? & ? & ? & ->) | lia | |].
    + unfold provided. rewrite length_take. assert (memory w2 = memory w) as -> by (by destruct L as (? & ? & ? & ->)). unfold valid in Hg. bool_prop. pose proof (Hd H). lia.
    + cbn [mbind outcome_bind]. eexists _, _, _. split; [reflexivity|]. split; [done|]. by destruct rec.
  - destruct (on_no_data_spec w e valid I Hv) as (w1 & err & -> & L & I1). pose proof (mid_lending _ _ _ L M) as M1. destruct (event_result e =? 0); cbn [mbind outcome_bind]; eexists _, _, _; (split; [reflexivity|]); split_if; split; try done; try (by apply mid_stop); (eapply idle_settled; [apply RequestBackendStop_spec | done]).
Qed.

(** The record of a completion that carried nothing. *)
Lemma uring_mid_post more w : mid more w -> idle w -> post more (with_state w (RecvSource.mk o (done_of (st w) (q_of w) (armed_of more) (l_of w)) (q_of w) (armed_of more) (l_of w))).
Proof.
  intros M I. destruct (mid_started _ _ M) as (Hi & Hnp & Hnd & Hnt). destruct M as [D W C Ha Hr H1 Hn]. split; unfold UringRecv.st; cbn; fold (st w).
  - destruct D. by split.
  - by destruct W.
  - destruct C. split; try done; unfold UringRecv.st; cbn; fold (st w).
    + apply coherent_done. by destruct (st w).
    + by rewrite done_of_stopped.
    + by rewrite done_of_stopped.
  - rewrite done_of_active. intros E. by destruct (k_active _ C E) as (? & ? & _).
  - by rewrite done_of_idle.
  - unfold armed_ok. cbn. by rewrite Hr.
  - done.
  - done.
  - rewrite done_of_active. done.
Qed.

Lemma post_op more w op : post more w -> post more (set_src w (set_recv (src w) op (recv_submitted_ (src w)))).
Proof. intros [D W S K1 K2 K3 K4 K5 K6]. split; try done; [by destruct D | by destruct W | by destruct S]. Qed.

Lemma kernel_done_step more w : post more w -> idle w ->
  exists w', (if negb more then w ← MarkActiveSlotsKernelDone w; Val (set_src w (set_recv (src w) (UringOp.BeginNextRequest (recv_op_ (src w))) (recv_submitted_ (src w)))) else Val w) = Val w' /\ post more w' /\ idle w'.
Proof.
  intros P I. destruct more; cbn [negb]; [by exists w|]. unfold MarkActiveSlotsKernelDone. pose proof I as (_ & -> & _). cbn. eexists. split; [reflexivity|]. split; [by apply post_op | done].
Qed.

Lemma pause_step more w : post more w -> idle w ->
  let w' := if bool_decide (st w = kActive) && (RecvSource.event_capacity (RecvSource.options_ (state_ (src w))) <=? RecvSource.queued_events_ (state_ (src w))) then RequestBackendPause w else w in
  base w' /\ one_item w' /\ (st w' = kActive -> next_waits w') /\ recv_submitted_ (src w') = more.
Proof.
  intros [D W S K1 K2 K3 K4 K5 K6] I. destruct (bool_decide (st w = kActive) && _) eqn:Hg; cbn zeta.
  - destruct (RequestBackendPause_spec w) as (T & _). destruct (pause_ctrl w S K2) as [C Hn]. pose proof (t_ctl _ _ T) as L. split_and!; [|by eapply ctl_item | done | by rewrite (t_recv _ _ T)].
    split; [by eapply ctl_data | by eapply ctl_idle | by eapply ctl_waiters | done | unfold armed_ok; by rewrite (t_armed _ _ T), (t_recv _ _ T)].
  - split_and!; try done. split; try done. destruct S. split; try done.
    intros E. destruct (K1 E) as [? ?]. split_and!; try done. rewrite bool_decide_eq_true_2 in Hg by done. cbn in Hg. lia.
Qed.

Lemma rearm_step more w : base w -> one_item w -> (st w = kActive -> next_waits w) -> recv_submitted_ (src w) = more ->
  exists w', (if negb more && bool_decide (st w = kActive) && bool_decide (terminal_error_ (src w) = None) then EnsureSubmission w else Val w) = Val w' /\ base w' /\ admitted w' /\ one_item w'.
Proof.
  intros B H1 Hn Hr. destruct (negb more && _ && _) eqn:Hg.
  - bool_prop. unfold EnsureSubmission. destruct (EnsureSubmission_spec DeliverNextIfReady w B) as [(w1 & -> & L & B1 & A1 & _)|(w1 & -> & R & E)].
    + exists w1. split_and!; try done. by eapply ctl_item.
    + destruct (refused_delivers w w1 R (Hn E)) as (w2 & -> & B2 & A2 & N2 & _). exists w2. split_and!; try done. by apply next_waits_one.
  - exists w. split_and!; try done. intros E Hf. exfalso. rewrite Hf in Hr. subst more. destruct (k_active _ (b_ctrl _ B) E) as (Ht & _). by rewrite !bool_decide_eq_true_2 in Hg by done.
Qed.

Lemma arrived_mid w e : inv w -> recv_submitted_ (src w) = true ->
  let w0 := if negb (More e) then set_src w (set_recv (src w) (recv_op_ (src w)) false) else w in mid (More e) w0 /\ idle w0 /\ next_waits w0 /\ memory w0 = memory w.
Proof.
  intros [B HA P N S] Hr. pose proof B as [D I W C A]. unfold armed_ok in A. rewrite Hr in A. pose proof (next_waits_one w N) as H1. destruct (More e); cbn zeta; cbn [negb]; split_and!; try done; split; try done; [by destruct D | by destruct W | by destruct C].
Qed.

Lemma OnCompletion_inv w e : inv w -> recv_submitted_ (src w) = true -> delivered w e -> exists w' d, OnCompletion w e = Val (w', d) /\ inv w'.
Proof.
  intros I Hr Hd. destruct (arrived_mid w e I Hr) as (M0 & I0 & N0 & Hm). unfold OnCompletion. set (w0 := if negb (More e) then _ else w) in *. assert (delivered w0 e) as Hd0 by (unfold delivered; by rewrite Hm).
  destruct (on_result_spec w0 e M0 I0 N0 Hd0) as (w1 & rec & err & -> & I1 & R1). cbn [mbind outcome_bind].
  match goal with |- context [if negb (More e) then w ← MarkActiveSlotsKernelDone ?x; _ else _] => assert (post (More e) x /\ idle x) as [P2 I2] end.
  { destruct rec; [destruct R1 as [-> P1]; done|]. assert (mid (More e) (match err with Some error => RequestBackendStop w1 (Some error) | None => w1 end) /\ idle (match err with Some error => RequestBackendStop w1 (Some error) | None => w1 end)) as [M2 I2].
    { destruct err as [er|]; [|done]. split; [by apply mid_stop | eapply idle_settled; [apply RequestBackendStop_spec | done]]. }
    set (w2 := match err with Some _ => _ | None => _ end) in *. rewrite (machine_eta (state_ (src w2))), (m_armed _ _ M2), (d_options _ _ _ (m_data _ _ M2)), machine_none. split; [by apply uring_mid_post | done]. }
  destruct (kernel_done_step _ _ P2 I2) as (w3 & -> & P3 & I3). cbn [mbind outcome_bind]. destruct (pause_step _ _ P3 I3) as (B4 & H4 & N4 & R4). destruct (rearm_step _ _ B4 H4 N4 R4) as (w5 & -> & B5 & A5 & H5). cbn [mbind outcome_bind].
  destruct (Deliver_spec w5 B5 A5 H5) as (w6 & -> & B6 & A6 & N6 & _). cbn [mbind outcome_bind]. destruct (resume_tail w6 B6 A6 N6) as (w7 & E7 & I7). destruct (MaybeResume w6) as [w8|]; [|done]. cbn [mbind outcome_bind] in *. rewrite E7. by eexists _, _.
Qed.

End steps.

End UringRecvSteps.
