(* ===== verification/UringRecvProps.v ===== *)
(** * The io_uring receive source: what it promises, and where it strands a Next *)

From Stdlib Require Import Strings.Byte.
From S2P Require Import Prelude Lifecycles Sources RecvSource ResultCells UringOp ProvidedBuffers UringRecv UringRecvInv UringRecvSteps.

Module UringRecvProps.
Import UringRecv UringRecvInv UringRecvSteps.
Import UringOp(CompletionEvent, event_result, More, BufferMore, HasSelectedBuffer, SelectedBufferId).

Section source.
Context {BR : ProvidedBuffers.BufRing}.

(** ** Every script keeps the invariant *)

Section exec.
Context (o : RecvSource.RecvSourceOptions) (bs : nat).
Context (Hrange : RecvSource.options_in_range o) (Hvalid : RecvSource.Valid o = true) (Hone : RecvSource.pending_depth o = 1).

Abbreviation inv := (inv o bs).

Lemma inv_work w rest : inv w -> (forall x, x ∈ rest -> x ∈ work w) -> NoDup rest -> inv (set_work w rest).
Proof.
  intros [[D I W C A] HA P N S] Hs Hn. split; try done. split; try done; [by destruct D | | by destruct C]. destruct W. split; try done; cbn; auto.
Qed.

Lemma uring_resume_inv w a rest : inv w -> work w = (true, a) :: rest -> exists w' r, next_await_resume (set_work w rest) a = Val (w', r) /\ inv w'.
Proof.
  intros I Hw. pose proof (b_waiters _ _ _ (i_base _ _ _ I)) as W. pose proof (w_nodup _ W) as Hn. rewrite Hw in Hn. apply NoDup_cons in Hn as [Hn1 Hn2]. destruct (w_work_next _ W a) as (n & Hna & Hr); [rewrite Hw; by left|].
  unfold next_await_resume, get_next. cbn. rewrite Hna. cbn. assert (pending_next_ (src w) <> Some a) as Hp by (intros Hp; apply (parked_next_unscheduled w a W Hp); rewrite Hw; by left).
  destruct (n_result n); try done; cbn; eexists _, _; (split; [reflexivity|]); apply uring_inv_put_next; try done; apply inv_work; try done; intros x Hx; rewrite Hw; by right.
Qed.

Lemma inv_memory w m : inv w -> inv (set_memory w m).
Proof. intros [[D I W C A] HA P N S]. split; try done. split; try done; [by destruct D | by destruct W | by destruct C]. Qed.

Lemma inv_submits w l : inv w -> inv (set_submits w l).
Proof. intros [[D I W C A] HA P N S]. split; try done. split; try done; [by destruct D | by destruct W | by destruct C]. Qed.

Lemma uring_exec_inv w c r : inv w -> exec w c = Some r -> exists w', r = Val w' /\ inv w'.
Proof.
  intros I. pose proof (b_waiters _ _ _ (i_base _ _ _ I)) as W. destruct c as [a| |i|e data|result|answers|a|]; cbn.
  - destruct (nexts w !! a) eqn:Hn; [done|]. intros [= <-]. destruct (new_unscheduled w a W Hn) as [Hp Hw]. destruct (uring_next_await_suspend_inv o bs Hrange Hvalid Hone (put_next w a new_next) a) as (w1 & b & -> & R); [by apply uring_inv_put_next | cbn; by rewrite lookup_insert_eq | done | done |].
    cbn [mbind outcome_bind]. destruct b; [by exists w1|]. destruct R as (w2 & x & -> & I2). by exists w2.
  - destruct (work w) as [|[[] a] rest] eqn:Hw; [done| |]; intros [= <-].
    + destruct (uring_resume_inv w a rest I Hw) as (w' & x & -> & I'). by exists w'.
    + pose proof (w_nodup _ W) as Hn. rewrite Hw in Hn. apply NoDup_cons in Hn as [_ Hn]. destruct (w_work_stop _ W a) as (p & x & Hp & Hx); [rewrite Hw; by left|]. unfold stop_await_resume, get_stop. rewrite Hp. cbn. rewrite Hx. cbn. eexists. split; [reflexivity|]. apply inv_work; try done. intros y Hy. rewrite Hw. by right.
  - destruct (out w !! i) as [e|] eqn:Hi; [|done]. intros [= <-]. unfold ReleaseEvent. destruct (e_slot e) as [k|] eqn:He.
    + by eapply ReturnQueuedPayload_inv.
    + eexists. split; [reflexivity|]. by eapply release_overflow_inv.
  - destruct (recv_submitted_ (src w) && _ && _ && _) eqn:Hg; [|done]. intros [= <-]. bool_prop. set (w1 := if HasSelectedBuffer e then _ else w). destruct (OnCompletion_inv o bs Hrange Hvalid Hone w1 e) as (w' & d & -> & I').
    + unfold w1. destruct (HasSelectedBuffer e); [by apply inv_memory | done].
    + unfold w1. by destruct (HasSelectedBuffer e).
    + split; [done|]. unfold w1. intros ->. cbn. rewrite lookup_insert_eq. cbn. lia.
    + by exists w'.
  - destruct (cancel_submitted_ (src w) && _) eqn:Hg; [|done]. intros [= <-]. bool_prop. destruct (ACancelled_inv o bs Hrange Hvalid Hone w result I) as (w' & E & I'); [done | unfold cqe_ok in *; bool_prop; split; lia |]. exists w'. split; [|done]. exact E.
  - intros [= <-]. eexists. split; [reflexivity|]. by apply inv_submits.
  - destruct (stops w !! a) eqn:Hn; [done|]. intros [= <-]. destruct (new_stop_unscheduled w a W Hn) as [Hp Hw]. destruct (uring_Stop_inv o bs (put_stop w a new_stop) a) as (w1 & x & -> & I1); [by apply uring_inv_put_stop | cbn; by rewrite lookup_insert_eq | done | done |]. by exists w1.
  - intros [= <-]. eexists. split; [reflexivity|]. by apply uring_RequestStop_inv.
Qed.

End exec.

(** ** Creation *)

Lemma pool_Create_idle group capacity size initial mapped setup room p : 0 <= capacity -> ProvidedBuffers.Create true group capacity size initial mapped setup room = Ok p -> pool_idle p.
Proof.
  intros Hc. unfold ProvidedBuffers.Create, ProvidedBuffers.storage_Create. cbn [negb orb]. destruct (Z.eqb_spec capacity 0); [done|]. cbn [orb]. intros H. destruct mapped as [b|].
  all: repeat match type of H with context [if ?b then Err _ else _] => destruct b; [done|] end; try done. revert H. destruct setup; [done|]. destruct room; [|done]. cbn.
  intros [= <-]. unfold pool_idle. cbn. split_and!; try done. lia.
Qed.

Lemma EnsurePublished_idle p n p' : pool_idle p -> ProvidedBuffers.EnsurePublished p n = Val p' -> pool_idle p'.
Proof. intros I. unfold ProvidedBuffers.EnsurePublished. destruct (_ || _); [by intros [= <-]|]. destruct (ProvidedBuffers.buffer_ring_ p); [|done]. intros [= <-]. destruct I as (_ & ? & ? & ?). unfold pool_idle. cbn. by split_and!. Qed.

(** The loop's pool, before it exists or between completions. *)
Definition pool_at_rest (sh : ProvidedBuffers.shared) : Prop :=
  0 <= ProvidedBuffers.shared_buffer_capacity_ sh /\ (forall p, ProvidedBuffers.shared_buffer_pool_ sh = Some p -> pool_idle p).

Lemma GetShared_idle sh here size n a b c d sh' p : pool_at_rest sh -> ProvidedBuffers.GetSharedProvidedBufferPool sh here size n a b c d = Val (sh', Ok p) -> ProvidedBuffers.shared_buffer_pool_ sh' = Some p /\ pool_idle p.
Proof.
  intros [Hc Hp]. unfold ProvidedBuffers.GetSharedProvidedBufferPool. destruct here; [|done]. cbn [ALYRN_CHECK mbind outcome_bind]. destruct (_ =? 0); [done|]. destruct (_ || _); [done|]. destruct (negb _); [done|]. destruct (ProvidedBuffers.shared_buffer_pool_ sh) as [p0|] eqn:E.
  - destruct (ProvidedBuffers.EnsurePublished p0 n) as [p1|] eqn:He; cbn; [|done]. intros [= <- <-]. split; [done|]. by eapply EnsurePublished_idle; [apply Hp|].
  - unfold ProvidedBuffers.AllocateBufferGroupId. destruct (_ <? _); [done|]. cbn [ProvidedBuffers.shared_buffer_capacity_ ProvidedBuffers.shared_buffer_size_]. destruct (ProvidedBuffers.Create _ _ _ _ _ _ _ _) as [p1|] eqn:He; [|done]. destruct d; [|done]. intros [= <- <-]. split; [done|]. by eapply pool_Create_idle.
Qed.

Definition is_initial (fd : Z) (o : RecvSource.RecvSourceOptions) (p : ProvidedBuffers.pool) (s : source) : Prop :=
  s = new_source fd (RecvSource.mk o kIdle 0 0 0) (ProvidedBuffers.buffer_size_ p) p /\ 0 <= fd /\ RecvSource.Valid o = true /\ RecvSource.pending_depth o = 1 /\ pool_idle p /\ 0 < ProvidedBuffers.buffer_size_ p.

Lemma uring_Create_spec fd o sh a room sh' s : pool_at_rest sh -> Create true true true fd o sh a room = Val (sh', Ok s) ->
  exists p, ProvidedBuffers.shared_buffer_pool_ sh' = Some p /\ is_initial fd (source_options o) p s.
Proof.
  intros Hsh. unfold Create. cbn [negb orb]. destruct (Z.ltb_spec fd 0); [done|]. destruct (Valid o) eqn:Hv; [|done]. cbn [negb]. destruct (RecvSource.Create (source_options o)) as [m|] eqn:Hm; [|done]. unfold RecvSource.Create in Hm. destruct (RecvSource.Valid (source_options o)) eqn:Hv'; [|done]. injection Hm as <-.
  destruct (ProvidedBuffers.GetSharedProvidedBufferPool _ _ _ _ _ _ _ _) as [[sh1 [p|e]]|] eqn:Hg; cbn [mbind outcome_bind]; [|done|done]. destruct (GetShared_idle _ _ _ _ _ _ _ _ _ _ Hsh Hg) as [Hp Hi]. destruct (Z.ltb_spec 0 (ProvidedBuffers.buffer_size_ p)) as [Hs|Hs]; [|done]. cbn [ALYRN_CHECK mbind outcome_bind].
  destruct (_ <? _); [done|]. destruct (_ <? _); [done|]. destruct room; [|done]. intros [= <- <-]. exists p. split; [done|]. unfold Valid in Hv. bool_prop. split_and!; try done; lia.
Qed.

Lemma uring_initial_inv fd o p s : RecvSource.options_in_range o -> is_initial fd o p s -> inv o (Z.to_nat (ProvidedBuffers.buffer_size_ p)) (initial s p).
Proof.
  intros Hr (-> & Hfd & Hv & Hone & Hi & Hs). pose proof (RecvSource.recv_options_valid o Hr Hv) as Ho. split; try done. split.
  - split; try done; cbn.
    + by rewrite length_replicate.
    + rewrite length_replicate. lia.
    + lia.
    + by rewrite app_nil_r.
    + by rewrite length_replicate.
    + intros x Hx. by apply elem_of_nil in Hx.
    + intros e k He. by apply elem_of_nil in He.
  - done.
  - split; try done; cbn; [intros x Hx; by apply elem_of_nil in Hx | intros x Hx; by apply elem_of_nil in Hx | apply NoDup_nil_2].
  - by split.
  - done.
Qed.

Lemma uring_reachable_inv fd o p s w : RecvSource.options_in_range o -> is_initial fd o p s -> reachable s p w -> inv o (Z.to_nat (ProvidedBuffers.buffer_size_ p)) w.
Proof.
  intros Hr H0. pose proof H0 as (_ & _ & Hv & Hone & _). induction 1 as [|w c w' _ IH Hx]; [by eapply uring_initial_inv|]. destruct (uring_exec_inv o _ Hr Hv Hone w c _ IH Hx) as (w2 & [= <-] & I). done.
Qed.

(** ** What holds at every point *)

Lemma rest_destroy o bs w : inv o bs w -> st w = kTerminal -> pending_next_ (src w) = None -> pending_stop_ (src w) = None -> cancel_submitted_ (src w) = false -> destroy (src w) (here w) = Val tt.
Proof.
  intros [[D I W C A] _ _ _ _] E Hn Hs Hc. unfold destroy. rewrite (d_loop _ _ _ D), (d_here _ _ _ D). cbn. unfold at_rest. fold (st w). pose proof (k_coherent _ C) as Hk. rewrite E in Hk. destruct Hk as (Ha & Hq & Hl). unfold armed_ok in A. rewrite Ha in A.
  assert (recv_submitted_ (src w) = false) as Hr by (by destruct (recv_submitted_ (src w))). assert (event_count_ (src w) = 0%nat) as He by (pose proof (d_q _ _ _ D); lia). destruct I as (Hsl & _). rewrite Hn, Hs, Hc, Hr, He, Hl, Hsl, E.
  assert (forallb (fun slot => negb (active slot)) (replicate (Z.to_nat (ProvidedBuffers.capacity_ (pool w))) new_slot) = true) as -> by (apply forallb_forall; intros x Hx; apply list_elem_of_In, elem_of_replicate in Hx as [-> _]; done). done.
Qed.

(** C2. Over every script of calls, completions of any result and flags, failures to
    submit, releases and stops on a source created with valid options: no check of the
    code fails and every call returns; each copy slot is free, queued or leased and only
    one of these, and the bytes under a lease are those it was handed out with; payloads
    are handed out in the order they were received, followed by the queued and then the
    overflowed ones; a payload is lost only by a source that has stopped with an error;
    between completions every provided buffer is back in the ring; and a terminal source
    nobody waits for passes the checks of its destructor. *)
Theorem uring_recv_exact (fd : Z) (o : RecvSourceOptions) (sh sh' : ProvidedBuffers.shared) (a : pool_answers) (room : bool) (s : source) (p : ProvidedBuffers.pool) (w : world) :
  RecvSource.options_in_range (source_options o) -> pool_at_rest sh -> Create true true true fd o sh a room = Val (sh', Ok s) -> ProvidedBuffers.shared_buffer_pool_ sh' = Some p -> reachable s p w ->
  (forall c r, exec w c = Some r -> exists w', r = Val w') /\
  copy_free_ (src w) ++ (copy_slot <$> queue (src w)) ++ omap e_slot (out w) ≡ₚ seqZ 0 (RecvSource.buffer_capacity (source_options o)) /\
  (forall e k, e ∈ out w -> e_slot e = Some k -> payload (src w) k (e_size e) = e_bytes e) /\
  kept w = taken w ++ ((fun p => payload (src w) (copy_slot p) (p_size p)) <$> queue (src w)) ++ overflow_ (src w) /\
  (lost w <> [] -> stopped (st w) = true /\ terminal_error_ (src w) <> None) /\
  (forall id, ProvidedBuffers.used_at (pool w) id = false) /\
  (st w = kTerminal -> pending_next_ (src w) = None -> pending_stop_ (src w) = None -> cancel_submitted_ (src w) = false -> destroy (src w) (here w) = Val tt).
Proof.
  intros Hr Hsh Hc Hp Hw. destruct (uring_Create_spec fd o sh a room sh' s Hsh Hc) as (p' & Hp' & H0). rewrite Hp in Hp'. injection Hp' as <-. pose proof H0 as (_ & _ & Hv & Hone & _). pose proof (uring_reachable_inv fd _ p s w Hr H0 Hw) as I. pose proof (i_base _ _ _ I) as [D Id W C A]. split_and!.
  - intros c r Hx. destruct (uring_exec_inv _ _ Hr Hv Hone w c r I Hx) as (w' & -> & _). by exists w'.
  - apply D.
  - intros e k He Hk. by apply (d_out _ _ _ D e k).
  - apply D.
  - apply C.
  - intros id. destruct Id as (_ & _ & _ & Hu & _). unfold ProvidedBuffers.used_at. rewrite Hu. destruct (replicate _ _ !! _) eqn:E; [|done]. by apply lookup_replicate in E as [-> _].
  - by eapply rest_destroy.
Qed.

Fixpoint run (w : world) (cs : list action) : option world :=
  match cs with
  | [] => Some w
  | c :: cs => match exec w c with Some (Val w') => run w' cs | _ => None end
  end.

Lemma uring_run_reachable s p w cs w' : reachable s p w -> run w cs = Some w' -> reachable s p w'.
Proof.
  revert w. induction cs as [|c cs IH]; intros w Hw; cbn; [by intros [= <-]|]. destruct (exec w c) as [[w1|]|] eqn:Hx; try done. intros H. eapply IH; [|exact H]. by eapply reach_step.
Qed.

(** ** What a waiting call waits for *)

(** No request will complete, and nothing will start one again. *)
Definition doomed (w : world) : Prop := recv_submitted_ (src w) = false /\ (stopped (st w) = true \/ st w = kPaused /\ terminal_error_ (src w) <> None).

Section waits.
Context (o : RecvSource.RecvSourceOptions) (bs : nat).
Context (Hrange : RecvSource.options_in_range o) (Hvalid : RecvSource.Valid o = true) (Hone : RecvSource.pending_depth o = 1).

Lemma unarmed_has_lease w : inv o bs w -> st w = kActive -> recv_submitted_ (src w) = false -> event_count_ (src w) = 0%nat -> omap e_slot (out w) <> [].
Proof.
  intros I E Hr Hc Hn. pose proof (i_base _ _ _ I) as [D Id W C A]. pose proof (i_admitted _ _ _ I E Hr) as Hf. destruct (k_active _ C E) as (_ & _ & Hq). rewrite (d_options _ _ _ D) in Hq. unfold armed_ok in A. rewrite Hr in A. pose proof (d_l _ _ _ D) as Hl. unfold leased in Hl. rewrite Hc, Hn in Hl. cbn in Hl.
  pose proof (RecvSource.recv_options_valid o Hrange Hvalid). assert (RecvSource.CanArm (state_ (src w)) = true); [|congruence]. apply (CanArm_leases o Hrange Hvalid Hone); [done | done | apply D | done | lia | lia].
Qed.

Lemma parked_next_waits w a : inv o bs w -> pending_next_ (src w) = Some a ->
  recv_submitted_ (src w) = true \/ st w = kActive /\ omap e_slot (out w) <> [] \/ st w = kPaused /\ cancel_submitted_ (src w) = true \/ doomed w.
Proof.
  intros I Hp. pose proof (i_base _ _ _ I) as [D Id W C A]. destruct (i_next _ _ _ I a Hp) as [Hc Ho]. destruct (recv_submitted_ (src w)) eqn:Hr; [by left|]. right. unfold armed_ok in A. rewrite Hr in A. pose proof (k_coherent _ C) as Hk. unfold doomed. rewrite Hr. destruct (st w) eqn:E; cbn in Hk; try lia.
  - destruct (k_idle _ C E) as (_ & _ & Hx & _). congruence.
  - left. split; [done|]. by apply unarmed_has_lease.
  - right. destruct (i_paused _ _ _ I E) as [H|[H|[H|H]]]; [by left | congruence | | by right; split; [|right]]. pose proof (RecvSource.recv_options_valid o Hrange Hvalid). rewrite (d_options _ _ _ D), (d_q _ _ _ D), Hc in H. lia.
  - right; right. split; [done|by left].
  - right; right. split; [done|by left].
Qed.

Lemma parked_stop_waits w a : inv o bs w -> pending_stop_ (src w) = Some a ->
  recv_submitted_ (src w) = true \/ cancel_submitted_ (src w) = true \/ st w = kDraining /\ (event_count_ (src w) <> 0%nat \/ omap e_slot (out w) <> []).
Proof.
  intros I Hp. pose proof (i_base _ _ _ I) as [D Id W C A]. pose proof (k_stop _ C a Hp) as Hs. destruct (i_stop _ _ _ I a Hp) as [H|[H|H]]; [by left | by right; left|]. destruct (recv_submitted_ (src w)) eqn:Hr; [by left|]. right; right. unfold armed_ok in A. rewrite Hr in A. pose proof (k_coherent _ C) as Hk. destruct (st w) eqn:E; cbn in Hk; try done.
  split; [done|]. destruct Hk as [_ Hk]. pose proof (d_q _ _ _ D) as Hq. pose proof (d_l _ _ _ D) as Hl. unfold leased in Hl. destruct (omap e_slot (out w)) eqn:Ho; [|by right]. left. cbn in Hl. intros Hc. apply Hk. split; lia.
Qed.

End waits.

(** C37. A Next that is parked is pending and nothing is queued for it. Either a receive
    request is with the kernel, or the source is active and a lease is out whose release
    lets it submit one, or it is paused until a cancellation in flight completes; or the
    source is doomed: it has no request and will never submit one. A Stop that is parked
    waits for a request or a cancellation in flight, or for queued events and leases. *)
Theorem uring_recv_waits_for_something (fd : Z) (o : RecvSourceOptions) (sh sh' : ProvidedBuffers.shared) (ans : pool_answers) (room : bool) (s : source) (p : ProvidedBuffers.pool) (w : world) :
  RecvSource.options_in_range (source_options o) -> pool_at_rest sh -> Create true true true fd o sh ans room = Val (sh', Ok s) -> ProvidedBuffers.shared_buffer_pool_ sh' = Some p -> reachable s p w ->
  (forall a, pending_next_ (src w) = Some a ->
     nexts w !! a = Some (mkNext true CompletionGate.initial ValueResultState.kPending) /\ queue (src w) = [] /\ overflow_ (src w) = [] /\
     (recv_submitted_ (src w) = true \/ st w = kActive /\ omap e_slot (out w) <> [] \/ st w = kPaused /\ cancel_submitted_ (src w) = true \/ doomed w)) /\
  (forall a, pending_stop_ (src w) = Some a ->
     stops w !! a = Some (mkStop true CompletionGate.initial None) /\ stopped (st w) = true /\
     (recv_submitted_ (src w) = true \/ cancel_submitted_ (src w) = true \/ st w = kDraining /\ (event_count_ (src w) <> 0%nat \/ omap e_slot (out w) <> []))).
Proof.
  intros Hr Hsh Hc Hp Hw. destruct (uring_Create_spec fd o sh ans room sh' s Hsh Hc) as (p' & Hp' & H0). rewrite Hp in Hp'. injection Hp' as <-. pose proof H0 as (_ & _ & Hv & Hone & _). pose proof (uring_reachable_inv fd _ p s w Hr H0 Hw) as I. pose proof (i_base _ _ _ I) as [D Id W C A]. split.
  - intros a Ha. destruct (i_next _ _ _ I a Ha) as [Hn Ho]. split; [by apply W|]. split; [apply length_zero_iff_nil; by rewrite (queue_length _ _ w D)|]. split; [done|]. by eapply parked_next_waits.
  - intros a Ha. split; [by apply W|]. split; [by apply (k_stop _ C a)|]. by eapply parked_stop_waits.
Qed.

(** ** A Next that is stranded *)

(** What no call changes once the source is doomed. *)
Record still (w w' : world) : Prop := {
  l_next : pending_next_ (src w') = pending_next_ (src w);
  l_recv : recv_submitted_ (src w') = recv_submitted_ (src w);
  l_error : terminal_error_ (src w) <> None -> terminal_error_ (src w') <> None;
  l_state : stopped (st w') = true \/ st w' = st w;
}.

Lemma still_same w w' : src w' = src w -> still w w'.
Proof. intros E. split; rewrite ?E; try done. right. unfold UringRecv.st. by rewrite E. Qed.

Lemma still_trans w1 w2 w3 : still w1 w2 -> still w2 w3 -> still w1 w3.
Proof. intros [A1 A2 A3 A4] [B1 B2 B3 B4]. split; [congruence | congruence | auto |]. destruct B4 as [?|B4]; [by left|]. rewrite B4. done. Qed.

Lemma still_doomed w w' : still w w' -> doomed w -> doomed w'.
Proof. intros [E1 E2 E3 E4] [H1 H2]. split; [congruence|]. destruct E4 as [E|E]; [by left|]. rewrite E. destruct H2 as [H2|[H2 H3]]; [by left | right; auto]. Qed.

Lemma CompleteStop_still w w' : CompleteStopIfReady w = Val w' -> still w w'.
Proof.
  unfold CompleteStopIfReady. destruct (pending_stop_ (src w)) as [a|]; [|intros [= <-]; by apply still_same]. destruct (_ || _); [intros [= <-]; by apply still_same|]. unfold stop_Complete. destruct (get_stop _ a) as [p|]; cbn; [|done].
  destruct (CompletionGate.TryComplete (w_gate p)) as [g []]; cbn; [|intros [= <-]; split; try done; by right]. destruct (w_bound p); cbn; [|done]. intros [= <-]. split; try done. by right.
Qed.

Lemma next_resume_src w a w' r : next_await_resume w a = Val (w', r) -> src w' = src w.
Proof. unfold next_await_resume. destruct (get_next w a) as [n|]; cbn; [|done]. destruct (ValueResultState.Take (n_result n)) as [[x cell]|]; cbn; [|done]. by intros [= <- _]. Qed.

Lemma next_inline_src w a r w' b : next_inline w a r = Val (w', b) -> src w' = src w.
Proof. unfold next_inline. destruct (get_next w a) as [n|]; cbn; [|done]. destruct (ValueResultState.SetResult r (n_result n)); cbn; [|done]. by intros [= <- _]. Qed.

Lemma doomed_next w b w' x : is_Some (pending_next_ (src w)) -> next_await_suspend w b = Val (w', x) -> src w' = src w /\ x = false.
Proof.
  intros [a Ha]. unfold next_await_suspend. rewrite Ha. assert (forall r, next_inline w b r = Val (w', x) -> src w' = src w /\ x = false) as K.
  { intros r Hx. split; [by eapply next_inline_src|]. unfold next_inline in Hx. destruct (get_next w b); cbn in Hx; [|done]. destruct (ValueResultState.SetResult r _); cbn in Hx; [|done]. by injection Hx. }
  destruct (_ || _); [apply K|]. destruct (negb (here w)); apply K.
Qed.

Lemma MaybeResume_doomed w : doomed w -> MaybeResume w = Val w.
Proof.
  intros [_ H]. unfold MaybeResume, MaybeResume_with. destruct H as [H|[_ H]]; [|by rewrite bool_decide_eq_true_2 by (destruct (terminal_error_ (src w)); [by eexists|done])]. destruct (_ || _); [done|].
  rewrite (machine_eta (state_ (src w))), machine_resume. fold (st w). rewrite bool_decide_eq_false_2 by (intros E; by rewrite E in H). cbn. by destruct w as [[? ? []]].
Qed.

Lemma doomed_not_active w : doomed w -> st w <> kActive.
Proof. intros [_ [H|[H _]]] E; by rewrite E in H. Qed.

Lemma EnsureSubmission_doomed w : doomed w -> EnsureSubmission w = Val w.
Proof. intros H%doomed_not_active. unfold EnsureSubmission, EnsureSubmission_with. rewrite bool_decide_eq_false_2 by done. cbn [negb]. by rewrite orb_true_r. Qed.

Lemma BeginStop_still w : still w (BeginStop w).1.
Proof.
  destruct (BeginStop_spec w) as (w' & r & -> & S & E & T & _). pose proof (ctl_same _ _ (t_ctl _ _ S)) as Es. cbn. split; [apply Es | apply S | by rewrite T | left; rewrite E; apply stop_of_stopped].
Qed.

Lemma released_state m : RecvSource.ReleaseLease m = (m, false) \/ exists m' q a l, RecvSource.ReleaseLease m = (m', true) /\ RecvSource.state_ m' = done_of (RecvSource.state_ m) q a l.
Proof.
  unfold RecvSource.ReleaseLease. destruct (_ =? 0); [by left|]. right. rewrite machine_reconcile. by eexists _, _, _, _.
Qed.

Lemma ReturnQueuedPayload_still w k w' : doomed w -> ReturnQueuedPayload w k = Val w' -> still w w'.
Proof.
  intros H. unfold ReturnQueuedPayload. cbn [FreeCopySlot src set_src set_free state_]. destruct (released_state (state_ (src w))) as [->|(m & q & a & l & -> & Em)]; [done|]. cbn [ALYRN_CHECK mbind outcome_bind]. set (w1 := with_state _ _).
  assert (still w w1) as S1. { split; try done. change (st w1) with (RecvSource.state_ m). rewrite Em. fold (st w). destruct H as [_ [H|[H _]]]; [left; by rewrite done_of_stopped | right; by rewrite H]. }
  destruct (_ && _); [by intros [= <-]|]. rewrite EnsureSubmission_doomed by (by eapply still_doomed). cbn [mbind outcome_bind]. intros Hs. eapply still_trans; [exact S1 | by apply CompleteStop_still].
Qed.

Lemma ACancelled_still w op w' : doomed w -> DispatchCancel (set_src w (set_cancel (src w) op true)) = Val w' -> still w w'.
Proof.
  intros H. unfold DispatchCancel. destruct (if UringOp.HasValue _ then _ else _) as [r|]; cbn [mbind outcome_bind]; [|done]. unfold OnCancelComplete. match goal with |- context [MaybeResume ?x] => set (w1 := x) end.
  assert (still w w1) as S1. { unfold w1, set_error_once. destruct (UringOp.IsExpectedCancelCqeResult r); cbn; [split; try done; by right|]. destruct (terminal_error_ (src w)); (split; try done; by right). }
  rewrite MaybeResume_doomed by (by eapply still_doomed). cbn [mbind outcome_bind]. intros Hs. eapply still_trans; [exact S1 | by apply CompleteStop_still].
Qed.

Lemma Stop_still w a w' r : Stop w a = Val (w', r) -> still w w'.
Proof.
  unfold Stop. destruct (negb (loop_ (src w))); [intros [= <- _]; by apply still_same|]. destruct (negb (here w)); [intros [= <- _]; by apply still_same|]. destruct (pending_stop_ (src w)); [intros [= <- _]; by apply still_same|]. destruct (_ && _ && _); [intros [= <- _]; by apply still_same|].
  unfold stop_await_suspend. destruct (get_stop w a) as [p|]; cbn [mbind outcome_bind]; [|done]. destruct (negb (w_bound p)); cbn [ALYRN_CHECK mbind outcome_bind]; [|done]. set (w1 := set_src _ _). assert (still w w1) as S1 by (split; try done; by right).
  pose proof (still_trans _ _ _ S1 (BeginStop_still w1)) as S2. destruct (BeginStop w1) as [w2 x]. cbn in S2. assert (forall y z w3 b, stop_inline (set_src w2 (set_stop (src w2) z)) a y = Val (w3, b) -> still w w3 /\ b = false) as K.
  { intros y z w3 b. unfold stop_inline. destruct (get_stop _ a); cbn; [|done]. intros [= <- <-]. split; [|done]. apply (still_trans _ _ _ S2). split; try done. by right. }
  destruct x as [[]|e]; cbn [mbind outcome_bind]; [by intros [= <- _] | |]; (destruct (stop_inline _ a _) as [[w3 b]|] eqn:Hi; cbn [mbind outcome_bind]; [|done]; destruct (K _ _ _ _ Hi) as [S3 ->]; destruct (stop_await_resume w3 a); cbn; [|done]; by intros [= <- _]).
Qed.

Lemma doomed_still w c w' : doomed w -> is_Some (pending_next_ (src w)) -> exec w c = Some (Val w') -> still w w'.
Proof.
  intros H Hp. destruct c as [a| |i|e data|result|answers|a|]; cbn.
  - destruct (nexts w !! a); [done|]. destruct (next_await_suspend (put_next w a new_next) a) as [[w1 b]|] eqn:Hn; cbn; [|done]. destruct (doomed_next (put_next w a new_next) a w1 b Hp Hn) as [E ->]. destruct (next_await_resume w1 a) as [[w2 r]|] eqn:Hr; cbn; [|done]. intros [= <-]. apply still_same. rewrite (next_resume_src _ _ _ _ Hr). done.
  - destruct (work w) as [|[[] a] rest]; [done| |].
    + destruct (next_await_resume (set_work w rest) a) as [[w2 r]|] eqn:Hr; cbn; [|done]. intros [= <-]. apply still_same. by rewrite (next_resume_src _ _ _ _ Hr).
    + destruct (stop_await_resume w a); cbn; [|done]. intros [= <-]. by apply still_same.
  - destruct (out w !! i) as [e|]; [|done]. unfold ReleaseEvent. destruct (e_slot e) as [k|]; [|intros [= <-]; by apply still_same]. intros [= Hx]. by eapply still_trans; [by apply (still_same w (set_out w (delete i (out w)))) | eapply ReturnQueuedPayload_still].
  - destruct H as [-> _]. done.
  - destruct (_ && _); [|done]. destruct (UringOp.TryRecordCqeCompletion _ result) as [[op rec]|]; cbn; [|done]. destruct rec; cbn; [|done]. intros [= Hx]. by eapply ACancelled_still.
  - intros [= <-]. by apply still_same.
  - destruct (stops w !! a); [done|]. destruct (Stop (put_stop w a new_stop) a) as [[w1 r]|] eqn:Hs; cbn; [|done]. intros [= <-]. eapply still_trans; [by apply (still_same w (put_stop w a new_stop)) | by eapply Stop_still].
  - intros [= <-]. unfold RequestStop. destruct (_ || _); [by apply still_same|]. destruct (negb (here w)); [by apply still_same|]. pose proof (BeginStop_still w) as S. by destruct (BeginStop w).
Qed.

(** C38. A Next parked on a doomed source is never completed. Take any reached world in
    which a Next is parked, no receive request is with the kernel, and the source has been
    stopped (by a call, the end of the stream or an error) or is paused with an error
    recorded: whatever calls, releases, cancellations and stops follow, that Next stays
    pending and is never scheduled, also when the last lease is released and the source
    becomes terminal. *)
Theorem uring_recv_next_stranded (fd : Z) (o : RecvSourceOptions) (sh sh' : ProvidedBuffers.shared) (ans : pool_answers) (room : bool) (s : source) (p : ProvidedBuffers.pool) (w w' : world) (cs : list action) (a : nat) :
  RecvSource.options_in_range (source_options o) -> pool_at_rest sh -> Create true true true fd o sh ans room = Val (sh', Ok s) -> ProvidedBuffers.shared_buffer_pool_ sh' = Some p -> reachable s p w ->
  pending_next_ (src w) = Some a -> recv_submitted_ (src w) = false -> stopped (st w) = true \/ st w = kPaused /\ terminal_error_ (src w) <> None -> run w cs = Some w' ->
  pending_next_ (src w') = Some a /\ nexts w' !! a = Some (mkNext true CompletionGate.initial ValueResultState.kPending) /\ (true, a) ∉ work w'.
Proof.
  intros Hr Hsh Hc Hp Hw Ha Hrs Hst Hx. assert (doomed w) as H by done. assert (pending_next_ (src w') = Some a) as Ha'.
  { clear Hw Hrs Hst. revert w Ha H Hx. induction cs as [|c cs IH]; intros w Ha H; cbn; [by intros [= <-]|]. destruct (exec w c) as [[w1|]|] eqn:He; try done. pose proof (doomed_still w c w1 H (mk_is_Some _ _ Ha) He) as S. intros Hx. apply (IH w1); try done; [by rewrite (l_next _ _ S) | by eapply still_doomed]. }
  destruct (uring_Create_spec fd o sh ans room sh' s Hsh Hc) as (p' & Hp' & H0). rewrite Hp in Hp'. injection Hp' as <-. pose proof (uring_reachable_inv fd _ p s w' Hr H0 (uring_run_reachable _ _ _ _ _ Hw Hx)) as I. pose proof (b_waiters _ _ _ (i_base _ _ _ I)) as W.
  split; [done|]. split; [by apply W | by apply parked_next_unscheduled].
Qed.

(** ** Payloads that are dropped *)

Section drop.
Context (o : RecvSource.RecvSourceOptions) (bs : nat).
Context (Hrange : RecvSource.options_in_range o) (Hvalid : RecvSource.Valid o = true) (Hone : RecvSource.pending_depth o = 1).

(** What a source that has just been stopped leaves as it is. *)
Definition unmoved (w w' : world) : Prop := lost w' = lost w /\ kept w' = kept w /\ taken w' = taken w /\ pending_next_ (src w') = pending_next_ (src w) /\ stopped (st w') = true /\ terminal_error_ (src w') <> None.

(** Every lease is out and a Next waits: the bytes go nowhere. *)
Lemma on_data_full w id size more a : mid o bs more w -> borrowed id w -> pending_next_ (src w) = Some a -> event_count_ (src w) = 0%nat -> overflow_ (src w) = [] -> st w = kActive -> l_of w = RecvSource.buffer_capacity o ->
  exists w', on_data w id size more = Val (w', false) /\ mid o bs more w' /\ idle w' /\ unmoved (log_lost w (provided w id size)) w' /\ pending_stop_ (src w') = None /\ l_of w' = l_of w /\ event_count_ (src w') = 0%nat /\ overflow_ (src w') = [].
Proof.
  intros M R Hp Hc Ho E Hl. pose proof (m_data _ _ _ _ M) as D. unfold on_data, direct_delivery. rewrite Hp, Hc, Ho, E, !bool_decide_eq_true_2 by done. cbn [andb negb Nat.eqb]. rewrite (machine_eta (state_ (src w))), (d_options _ _ _ D), (m_armed _ _ _ _ M). fold (st w). rewrite machine_delivered_full by lia.
  assert (RecvSource.mk o (st w) (q_of w) 1 (l_of w) = state_ (src w)) as -> by (rewrite <- (m_armed _ _ _ _ M), <- (d_options _ _ _ D); symmetry; apply machine_eta). destruct (lost_branch o bs more w id (provided w id size) (Errno ENOBUFS) M R) as (w1 & H1 & M' & I'). rewrite H1. cbn [mbind outcome_bind]. eexists. split; [reflexivity|]. split; [done|]. split; [done|].
  assert (with_state w (state_ (src w)) = w) as E1 by (by destruct w as [[]]). rewrite E1 in H1. destruct (ReleaseSlotLease_spec w id (d_pool _ _ _ D) R) as (w2 & H2 & L & _). rewrite H1 in H2. injection H2 as <-. destruct (RequestBackendStop_spec (log_lost w1 (provided w id size)) (Some (Errno ENOBUFS))) as (S & Es & T). pose proof (ctl_same _ _ (t_ctl _ _ S)) as F.
  assert (pending_stop_ (src w) = None) as Hps by (destruct (pending_stop_ (src w)) as [b|] eqn:Hb; [pose proof (k_stop _ (m_ctrl _ _ _ _ M) b Hb) as K; by rewrite E in K | done]).
  unfold unmoved. rewrite (s_lost _ _ F), (s_kept _ _ F), (s_taken _ _ F), (s_next _ _ F), (s_stop _ _ F), (s_l _ _ F), (s_count _ _ F), (s_overflow _ _ F), Es. pose proof (stop_of_stopped (st (log_lost w1 (provided w id size))) (q_of (log_lost w1 (provided w id size))) (a_of (log_lost w1 (provided w id size))) (l_of (log_lost w1 (provided w id size)))) as Hs.
  destruct L as (? & ? & ? & ->). split_and!; try done. by apply T.
Qed.

(** The end of OnCompletion for a stopped source with nothing to deliver. *)
Lemma stopped_tail w : stopped (st w) = true -> terminal_error_ (src w) <> None -> nothing w -> pending_stop_ (src w) = None ->
  (w ← DeliverNextIfReady w; w ← MaybeResume w; CompleteStopIfReady w) = Val w.
Proof.
  intros Hs Ht Hn Hp. unfold DeliverNextIfReady. rewrite (deliver_nothing 1) by done. cbn [mbind outcome_bind]. unfold MaybeResume, MaybeResume_with. rewrite bool_decide_eq_true_2 by (destruct (terminal_error_ (src w)); [by eexists|done]). cbn. unfold CompleteStopIfReady. by rewrite Hp.
Qed.

Lemma full_completion w e a : inv o bs w -> recv_submitted_ (src w) = true -> delivered w e -> st w = kActive -> pending_next_ (src w) = Some a -> l_of w = RecvSource.buffer_capacity o ->
  0 < event_result e <= Z.of_nat bs -> HasSelectedBuffer e = true -> BufferMore e = false -> SelectedBufferId e < ProvidedBuffers.capacity_ (pool w) ->
  exists w' d, OnCompletion w e = Val (w', d) /\ unmoved (log_lost w (provided w (SelectedBufferId e) (Z.to_nat (event_result e)))) w'.
Proof.
  intros I Hr Hd E Hp Hl Hs Hb Hm Hid. destruct (i_next _ _ _ I a Hp) as [Hc Ho]. destruct (arrived_mid o bs w e I Hr) as (M0 & I0 & _ & _). unfold OnCompletion. set (w0 := if negb (More e) then _ else w) in *.
  assert (pool w0 = pool w /\ memory w0 = memory w /\ st w0 = st w /\ pending_next_ (src w0) = Some a /\ event_count_ (src w0) = 0%nat /\ overflow_ (src w0) = [] /\ l_of w0 = l_of w /\ lost w0 = lost w /\ kept w0 = kept w /\ taken w0 = taken w) as (F1 & F2 & F3 & F4 & F5 & F6 & F7 & F8 & F9 & F10) by (unfold w0; destruct (More e); by split_and!).
  assert (0 <= SelectedBufferId e) as Hid0 by (apply Z.shiftr_nonneg, Hd). pose proof (m_data _ _ _ _ M0) as D0. unfold on_result. rewrite (d_pool _ _ _ D0), Hb, Hm, F1, (proj2 (Z.ltb_lt _ _) Hid), (proj2 (Z.ltb_lt 0 _)) by lia. cbn [andb negb orb].
  destruct (AcquireBuffer_spec o bs w0 (SelectedBufferId e) (event_result e) D0 I0) as [[_ Hx]|(w1 & w2 & -> & E2 & L & R & _)]; [by rewrite F1 | lia|]. rewrite E2. cbn [mbind outcome_bind].
  destruct (on_data_full w2 (SelectedBufferId e) (Z.to_nat (event_result e)) (More e) a) as (w3 & -> & M3 & I3 & U3 & Hps & Hl3 & Hc3 & Ho3); [by eapply mid_lending | done | by destruct L as (? & ? & ? & ->) | by destruct L as (? & ? & ? & ->) | by destruct L as (? & ? & ? & ->) | destruct L as (? & ? & ? & ->); by rewrite <- E, <- F3 | destruct L as (? & ? & ? & ->); by rewrite <- Hl, <- F7 |].
  cbn [mbind outcome_bind]. rewrite (machine_eta (state_ (src w3))), (m_armed _ _ _ _ M3), (d_options _ _ _ (m_data _ _ _ _ M3)), machine_none. fold (st w3). pose proof (uring_mid_post o bs (More e) w3 M3 I3) as P4. set (w4 := with_state w3 _) in *.
  destruct U3 as (U1 & U2 & U3 & U4 & U5 & U6). assert (stopped (st w4) = true) as Hs4 by (unfold UringRecv.st; cbn; by rewrite done_of_stopped). assert (st w4 <> kTerminal) as Hnt. { intros Ht. pose proof (so_coherent _ (p_soft _ _ _ _ P4)) as Hk. rewrite Ht in Hk. cbn in Hk. pose proof (RecvSource.recv_options_valid o Hrange Hvalid). assert (l_of w2 = l_of w0) by (by destruct L as (? & ? & ? & ->)). lia. }
  assert (exists w5, (if negb (More e) then w ← MarkActiveSlotsKernelDone w4; Val (set_src w (set_recv (src w) (UringOp.BeginNextRequest (recv_op_ (src w))) (recv_submitted_ (src w)))) else Val w4) = Val w5 /\ (w5 = w4 \/ exists op, w5 = set_src w4 (set_recv (src w4) op (recv_submitted_ (src w4))))) as (w5 & -> & H5).
  { destruct (More e); cbn [negb]; [eexists; split; [done | by left]|]. unfold MarkActiveSlotsKernelDone. change (active_slot_count_ (src w4)) with (active_slot_count_ (src w3)). destruct I3 as (_ & -> & _). cbn [Z.eqb mbind outcome_bind]. eexists. split; [reflexivity|]. right. by eexists. }
  cbn [mbind outcome_bind]. assert (unmoved (log_lost w (provided w (SelectedBufferId e) (Z.to_nat (event_result e)))) w5 /\ nothing w5 /\ pending_stop_ (src w5) = None) as (Hu & Hn & Hps5).
  { assert (provided w2 (SelectedBufferId e) (Z.to_nat (event_result e)) = provided w (SelectedBufferId e) (Z.to_nat (event_result e)) /\ lost w2 = lost w /\ kept w2 = kept w /\ taken w2 = taken w /\ pending_next_ (src w2) = pending_next_ (src w)) as (G1 & G2 & G3 & G4 & G5) by (destruct L as (? & ? & ? & ->); unfold provided; cbn; rewrite F2, F8, F9, F10, F4; by split_and!).
    cbn in U1, U2, U3, U4. rewrite G1, G2 in U1. unfold unmoved, nothing. cbn. rewrite <- U1, <- G3, <- G4, <- G5, <- U2, <- U3, <- U4. destruct H5 as [->|[op ->]]; split_and!; try done; by right. }
  destruct Hu as (Hu1 & Hu2 & Hu3 & Hu4 & Hu5 & Hu6). assert (st w5 <> kActive) as Hna by (intros Hx; by rewrite Hx in Hu5). rewrite (bool_decide_eq_false_2 (st w5 = kActive)) by done. cbn [andb]. rewrite (bool_decide_eq_false_2 (st w5 = kActive)) by done. rewrite andb_false_r. cbn [andb mbind outcome_bind].
  pose proof (stopped_tail w5 Hu5 Hu6 Hn Hps5) as Ht. destruct (DeliverNextIfReady w5) as [w6|]; [|done]. cbn [mbind outcome_bind] in *. destruct (MaybeResume w6) as [w7|]; [|done]. cbn [mbind outcome_bind] in *. rewrite Ht. cbn. eexists _, _. split; [reflexivity|]. by split_and!.
Qed.

End drop.

(** C39. When every lease is out and a Next waits, what is received is dropped. In any
    reached world with an active source, a request in flight, a parked Next and as many
    leases out as there are buffers, a completion with a well-formed buffer of bytes is
    neither handed out nor kept: the bytes are lost, the source stops with an error and
    the Next stays parked. *)
Theorem uring_recv_drops_when_leased_out (fd : Z) (o : RecvSourceOptions) (sh sh' : ProvidedBuffers.shared) (ans : pool_answers) (room : bool) (s : source) (p : ProvidedBuffers.pool) (w : world) (a : nat) (e : CompletionEvent) (data : list byte) :
  RecvSource.options_in_range (source_options o) -> pool_at_rest sh -> Create true true true fd o sh ans room = Val (sh', Ok s) -> ProvidedBuffers.shared_buffer_pool_ sh' = Some p -> reachable s p w ->
  st w = kActive -> recv_submitted_ (src w) = true -> pending_next_ (src w) = Some a -> Z.of_nat (length (omap e_slot (out w))) = RecvSource.buffer_capacity (source_options o) ->
  0 < event_result e <= ProvidedBuffers.buffer_size_ p -> event_result e <= Z.of_nat (length data) -> cqe_ok (event_result e) = true -> 0 <= UringOp.event_flags e ->
  HasSelectedBuffer e = true -> BufferMore e = false -> SelectedBufferId e < ProvidedBuffers.capacity_ (pool w) ->
  exists w', exec w (AComplete e data) = Some (Val w') /\ lost w' = lost w ++ [take (Z.to_nat (event_result e)) data] /\ kept w' = kept w /\ taken w' = taken w /\
    pending_next_ (src w') = Some a /\ stopped (st w') = true /\ terminal_error_ (src w') <> None.
Proof.
  intros Hr Hsh Hc Hp Hw E Hrs Ha Hl Hs Hlen Hok Hf Hb Hm Hid. destruct (uring_Create_spec fd o sh ans room sh' s Hsh Hc) as (p' & Hp' & H0). rewrite Hp in Hp'. injection Hp' as <-. pose proof H0 as (_ & _ & Hv & Hone & _). pose proof (uring_reachable_inv fd _ p s w Hr H0 Hw) as I. pose proof (b_data _ _ _ (i_base _ _ _ I)) as D.
  destruct (i_next _ _ _ I a Ha) as [Hcount _]. cbn. rewrite Hrs, Hok, Hb, (proj2 (Z.leb_le _ _) Hf), (proj2 (Z.leb_le _ _) Hlen). cbn [andb]. set (w1 := set_memory _ _).
  destruct (full_completion _ (Z.to_nat (ProvidedBuffers.buffer_size_ p)) Hr Hv w1 e a) as (w' & d & -> & U1 & U2 & U3 & U4 & U5 & U6); try done.
  - by apply inv_memory.
  - split; [done|]. intros _. cbn. rewrite lookup_insert_eq. cbn. lia.
  - change (l_of w1) with (l_of w). rewrite (d_l _ _ _ D), Hcount. exact Hl.
  - lia.
  - cbn [mbind outcome_bind]. exists w'. split; [done|]. rewrite U1, U2, U3, U4. split_and!; try done. unfold provided. cbn. by rewrite lookup_insert_eq.
Qed.

End source.

(** ** Witnesses *)

(** A ring as the list of its entries, which are visible as soon as they are added. *)
#[local] Instance listed : ProvidedBuffers.BufRing := {|
  ProvidedBuffers.buf_ring := list ProvidedBuffers.entry;
  ProvidedBuffers.io_uring_buf_ring_init := [];
  ProvidedBuffers.io_uring_buf_ring_mask entries := entries - 1;
  ProvidedBuffers.io_uring_buf_ring_add r e _ _ := r ++ [e];
  ProvidedBuffers.io_uring_buf_ring_advance r _ := r;
  ProvidedBuffers.kernel_select r _ := match r with [] => None | e :: r => Some (e, r) end;
|}.

(** Scripts of the witnesses: a loop with four buffers of sixteen bytes. *)
Definition example_shared : ProvidedBuffers.shared := ProvidedBuffers.mkShared None 4 16 1.
Definition example_answers : pool_answers := mkAnswers (inl 4096) None true true.
Definition example_options : RecvSourceOptions := mkOptions (RecvSource.mkOptions 1 2 2 0) 0.

Definition created (o : RecvSourceOptions) : ProvidedBuffers.shared * source :=
  match Create true true true 3 o example_shared example_answers true with
  | Val (sh, Ok s) => (sh, s)
  | _ => (example_shared, new_source (-1) (RecvSource.mk (source_options o) kIdle 0 0 0) 0 ProvidedBuffers.empty_pool)
  end.
Definition created_pool (o : RecvSourceOptions) : ProvidedBuffers.pool := default ProvidedBuffers.empty_pool (ProvidedBuffers.shared_buffer_pool_ (created o).1).

Definition after (o : RecvSourceOptions) (cs : list action) : world := default (initial (created o).2 (created_pool o)) (run (initial (created o).2 (created_pool o)) cs).

Lemma uring_after_reachable o cs : reachable (created o).2 (created_pool o) (after o cs).
Proof.
  unfold after. destruct (run _ cs) as [w|] eqn:E; cbn; [|by apply reach_initial]. eapply uring_run_reachable; [apply reach_initial | exact E].
Qed.

(** A completion with a buffer: its id, the bytes, and whether the request goes on. *)
Definition received (id : Z) (more : bool) (data : list byte) : action :=
  AComplete (UringOp.mkEvent (Z.of_nat (length data)) (id * 2 ^ 16 + (if more then 3 else 1))) data.
(** A completion without one, which ends the request. *)
Definition ended (result : Z) : action := AComplete (UringOp.mkEvent result 0) [].

Lemma example_at_rest : pool_at_rest example_shared.
Proof. split; [cbn; lia | done]. Qed.

Lemma uring_recv_exact_witness :
  let w := after example_options [ANext 1%nat; received 0 true ["a"]%byte; received 1 true ["b"; "c"]%byte; received 2 true ["d"]%byte; AResume; ANext 2%nat; ACancelled 0] in
  taken w = [["a"]; ["b"; "c"]]%byte /\ overflow_ (src w) = [["d"]]%byte /\ kept w = taken w ++ ((fun p => payload (src w) (copy_slot p) (p_size p)) <$> queue (src w)) ++ overflow_ (src w).
Proof.
  intros w. split; [vm_compute; reflexivity|]. split; [vm_compute; reflexivity|].
  apply (uring_recv_exact 3 example_options example_shared (created example_options).1 example_answers true (created example_options).2 (created_pool example_options) w); [repeat split; vm_compute; congruence | exact example_at_rest | vm_compute; reflexivity | vm_compute; reflexivity | apply uring_after_reachable].
Defined.

Lemma uring_recv_waits_for_something_witness :
  let w := after example_options [ANext 1%nat; received 0 true ["a"]%byte; AResume; ANext 2%nat; AStop 7%nat] in
  pending_next_ (src w) = Some 2%nat /\ pending_stop_ (src w) = Some 7%nat /\ st w = kStopping /\ stops w !! 7%nat = Some (mkStop true CompletionGate.initial None).
Proof.
  intros w. split; [vm_compute; reflexivity|]. split; [vm_compute; reflexivity|]. split; [vm_compute; reflexivity|].
  apply (uring_recv_waits_for_something 3 example_options example_shared (created example_options).1 example_answers true (created example_options).2 (created_pool example_options) w) with (a := 7%nat); [repeat split; vm_compute; congruence | exact example_at_rest | vm_compute; reflexivity | vm_compute; reflexivity | apply uring_after_reachable | vm_compute; reflexivity].
Defined.

(** The peer closes while a lease is out and a Next is parked; the lease is released. *)
Definition stranding_script : list action := [ANext 1%nat; received 0 true ["a"]%byte; AResume; ANext 2%nat; ended 0].

Lemma uring_recv_next_stranded_witness :
  let w := after example_options stranding_script in
  st w = kDraining /\ terminal_error_ (src w) = None /\
  exists w', run w [ARelease 0; AStop 7%nat] = Some w' /\ st w' = kTerminal /\ out w' = [] /\ pending_next_ (src w') = Some 2%nat /\ (true, 2%nat) ∉ work w'.
Proof.
  intros w. split; [vm_compute; reflexivity|]. split; [vm_compute; reflexivity|]. eexists. split; [vm_compute; reflexivity|]. split; [vm_compute; reflexivity|]. split; [vm_compute; reflexivity|].
  pose proof (fun w' => uring_recv_next_stranded 3 example_options example_shared (created example_options).1 example_answers true (created example_options).2 (created_pool example_options) w w' [ARelease 0; AStop 7%nat] 2%nat) as T.
  specialize (T _ ltac:(repeat split; vm_compute; congruence) example_at_rest ltac:(vm_compute; reflexivity) ltac:(vm_compute; reflexivity) (uring_after_reachable _ _) ltac:(vm_compute; reflexivity) ltac:(vm_compute; reflexivity) ltac:(left; vm_compute; reflexivity) ltac:(vm_compute; reflexivity)).
  destruct T as (T1 & T2 & T3). split; [exact T1 | exact T3].
Defined.

Lemma uring_recv_drops_when_leased_out_witness :
  let w := after example_options [ANext 1%nat; received 0 true ["a"]%byte; AResume; ANext 2%nat; received 1 true ["b"]%byte; AResume; ANext 3%nat] in
  exists w', exec w (received 2 true ["c"; "d"]%byte) = Some (Val w') /\ lost w' = [["c"; "d"]]%byte /\ taken w' = [["a"]; ["b"]]%byte /\ pending_next_ (src w') = Some 3%nat.
Proof.
  intros w. destruct (uring_recv_drops_when_leased_out 3 example_options example_shared (created example_options).1 example_answers true (created example_options).2 (created_pool example_options) w 3%nat (UringOp.mkEvent 2 (2 * 2 ^ 16 + 3)) ["c"; "d"]%byte) as (w' & T1 & T2 & _ & T3 & T4 & _);
    [repeat split; vm_compute; congruence | exact example_at_rest | vm_compute; reflexivity | vm_compute; reflexivity | apply uring_after_reachable | vm_compute; reflexivity | vm_compute; reflexivity | vm_compute; reflexivity | vm_compute; reflexivity | split; vm_compute; congruence | vm_compute; congruence | vm_compute; reflexivity | vm_compute; congruence | vm_compute; reflexivity | vm_compute; reflexivity | vm_compute; reflexivity |].
  exists w'. split; [exact T1|]. split; [exact T2|]. split; [exact T3|exact T4].
Defined.

End UringRecvProps.
