(* ===== verification/Results.v ===== *)
(** * Result: access and composition (include/alyrn/result.h)

    Access aborts on the wrong alternative. The callables that composition is given may
    have effects and may abort: they are functions over a state, so that the theorems
    also say which of them run, and in which order. The overloads for lvalues, const
    lvalues and rvalues differ only in copying or moving the value. *)

From Stdlib Require Import Strings.String.
From S2P Require Import Prelude.

Module Results.

(** ** Access *)

Definition HasValue {T E} (r : @Result T E) : bool := match r with Ok _ => true | Err _ => false end.
Definition Value {T E} (r : @Result T E) : outcome T := match r with Ok value => Val value | Err _ => Panic end.
Definition Expect {T E} (r : @Result T E) (message : string) : outcome T := match r with Ok value => Val value | Err _ => Panic end.
Definition GetError {T E} (r : @Result T E) : outcome E := match r with Ok _ => Panic | Err error => Val error end.
Definition ValueOr {T E} (r : @Result T E) (fallback : T) : T := match r with Ok value => value | Err _ => fallback end.

(** ** Composition *)

Section composition.
Context {S : Type}.

(** What a callable does to the state and returns. *)
Definition effect (A : Type) : Type := S -> outcome (S * A).

Definition AndThen {T U E} (self : @Result T E) (f : T -> effect (@Result U E)) : effect (@Result U E) := fun s =>
  if HasValue self then value ← Value self; f value s
  else error ← GetError self; Val (s, Err error).

(** A callable that returns void returns [tt]. *)
Definition Transform {T U E} (self : @Result T E) (f : T -> effect U) : effect (@Result U E) := fun s =>
  if negb (HasValue self) then error ← GetError self; Val (s, Err error)
  else value ← Value self; '(s, u) ← f value s; Val (s, Ok u).

Definition OrElse {T E G} (self : @Result T E) (f : E -> effect (@Result T G)) : effect (@Result T G) := fun s =>
  if HasValue self then value ← Value self; Val (s, Ok value)
  else error ← GetError self; f error s.

Definition TransformError {T E G} (self : @Result T E) (f : E -> effect G) : effect (@Result T G) := fun s =>
  if HasValue self then value ← Value self; Val (s, Ok value)
  else error ← GetError self; '(s, g) ← f error s; Val (s, Err g).

(** ALYRN_TRY_ASSIGN (and ALYRN_TRY for a value that is not used): [expr] is evaluated
    once, a failure returns from the enclosing function, whose remaining statements are
    [rest]. *)
Definition TryAssign {T U E} (expr : effect (@Result T E)) (rest : T -> effect (@Result U E)) : effect (@Result U E) := fun s =>
  '(s, tmp) ← expr s;
  if negb (HasValue tmp) then error ← GetError tmp; Val (s, Err error)
  else value ← Value tmp; rest value s.

Definition pure {A} (a : A) : effect A := fun s => Val (s, a).

(** ** Properties *)

(** Access is total exactly on the alternative it names. *)
Lemma result_access_total {T E} (r : @Result T E) : (no_panic (Value r) <-> HasValue r = true) /\ (no_panic (GetError r) <-> HasValue r = false) /\
  (forall v, Value r = Val v -> forall d, ValueOr r d = v).
Proof. destruct r; cbn; unfold no_panic; naive_solver. Qed.

Lemma try_and_then {T U E} (r : @Result T E) (rest : T -> effect (@Result U E)) s : TryAssign (pure r) rest s = AndThen r rest s.
Proof. by destruct r. Qed.

Lemma try_assoc {T U V E} (expr : effect (@Result T E)) (f : T -> effect (@Result U E)) (g : U -> effect (@Result V E)) s :
  TryAssign (TryAssign expr f) g s = TryAssign expr (fun x => TryAssign (f x) g) s.
Proof. unfold TryAssign. destruct (expr s) as [[s' [v|e]]|]; reflexivity. Qed.

End composition.

(** The composition of results is lawful, also for callables with effects: the early
    return of ALYRN_TRY is AndThen, a sequence of them is associative, a successful value
    changes nothing, Transform and TransformError are AndThen and OrElse with a wrapped
    callable, a failed result runs neither AndThen's nor Transform's callable and keeps
    state and error, and a successful one does not run those of OrElse and
    TransformError. *)
Theorem result_composition_lawful {S T U V E G : Type} (r : @Result T E) (expr : @effect S (@Result T E)) (f : T -> @effect S (@Result U E)) (g : U -> @effect S (@Result V E))
    (h : T -> @effect S U) (k : E -> @effect S (@Result T G)) (m : E -> @effect S G) (s : S) :
  TryAssign (pure r) f s = AndThen r f s /\
  TryAssign (TryAssign expr f) g s = TryAssign expr (fun x => TryAssign (f x) g) s /\
  TryAssign expr (fun x => pure (Ok x)) s = expr s /\
  Transform r h s = AndThen r (fun x => TryAssign (fun s => '(s, u) ← h x s; Val (s, Ok u)) (fun u => pure (Ok u))) s /\
  TransformError r m s = OrElse r (fun e s => '(s, x) ← m e s; Val (s, Err x)) s /\
  (forall e, r = Err e -> AndThen r f s = Val (s, Err e) /\ Transform r h s = Val (s, Err e)) /\
  (forall v, r = Ok v -> AndThen r f s = f v s /\ OrElse r k s = Val (s, Ok v) /\ TransformError r m s = Val (s, Ok v)).
Proof.
  split; [apply try_and_then|]. split; [apply try_assoc|]. split; [unfold TryAssign; by destruct (expr s) as [[s' [v|e]]|]|]. split; [destruct r as [v|e]; [|done]; unfold AndThen, Transform, TryAssign; cbn; by destruct (h v s) as [[s' u]|]|].
  split; [by destruct r|]. split; [by intros e ->|]. by intros v ->.
Qed.

End Results.
