(* ===== verification/LoopShutdown.v ===== *)
(** * The shutdown registry of a loop (include/alyrn/detail/loop_shutdown.h)

    An intrusive list of the resources that want to be told when their loop begins to shut
    down. Telling one runs its callback, which may take itself out of the list while the
    list is walked. The callbacks belong to the clients: [stop] over a state that contains
    the nodes. *)

From S2P Require Import Prelude IntrusiveList.

Module LoopShutdown.
Import IntrusiveList.

Definition Register (h : heap) (participants_ participant : Z) : outcome (heap * bool) := PushBack h participants_ participant.
Definition Unregister (h : heap) (participant : Z) : outcome (heap * bool) := Erase h participant.

(** Loop::RegisterShutdownParticipant and Loop::UnregisterShutdownParticipant of both
    backends. *)
Definition RegisterShutdownParticipant (here : bool) (h : heap) (participants_ participant : Z) : outcome heap :=
  ALYRN_CHECK here;;
  '(h, registered) ← Register h participants_ participant;
  ALYRN_CHECK registered;;
  Val h.
Definition UnregisterShutdownParticipant (here : bool) (h : heap) (participant : Z) : outcome heap :=
  ALYRN_CHECK here;;
  '(h, unregistered) ← Unregister h participant;
  ALYRN_CHECK unregistered;;
  Val h.

Section stop.
Context {W : Type} (nodes : W -> heap) (stop : W -> Z -> outcome W).

(** The walk of ForEachSafe with the callback of the registry, which keeps every node. *)
Fixpoint stop_loop (fuel : nat) (w : W) (participants_ cur : Z) : outcome W :=
  match fuel with
  | O => Panic
  | S fuel =>
      if cur =? participants_ then Val w
      else
        n ← load (nodes w) cur;
        w ← stop w cur;
        stop_loop fuel w participants_ (next_ n)
  end.

Definition RequestStop (w : W) (participants_ : Z) : outcome W :=
  n ← load (nodes w) participants_;
  stop_loop (S (size (nodes w))) w participants_ (next_ n).

(** ** Every participant is told once

    [Q told kept rest w]: the participants of [told] have been told, those of [kept] among
    them are still registered, those of [rest] are registered and have not been told. *)
Context (participants_ : Z) (Q : list Z -> list Z -> list Z -> W -> Prop).
Context (HQ : forall told kept rest w, Q told kept rest w -> holds (nodes w) {[participants_ := kept ++ rest]}).
Context (Hstop : forall told kept p rest w, Q told kept (p :: rest) w ->
  exists w', stop w p = Val w' /\ (Q (told ++ [p]) kept rest w' \/ Q (told ++ [p]) (kept ++ [p]) rest w')).

Lemma stop_loop_spec rest : forall fuel told kept w, Q told kept rest w -> (length rest < fuel)%nat ->
  exists w' kept', stop_loop fuel w participants_ (default participants_ (head rest)) = Val w' /\ Q (told ++ rest) kept' [] w'.
Proof.
  induction rest as [|p rest IH]; intros fuel told kept w H Hf; (destruct fuel as [|fuel]; [cbn in Hf; lia|]).
  - exists w, kept. cbn. rewrite Z.eqb_refl, app_nil_r. done.
  - pose proof (HQ _ _ _ _ H) as Hh. assert (({[participants_ := kept ++ p :: rest]} : lists) !! participants_ = Some (kept ++ p :: rest)) as Hl by apply lookup_insert_eq.
    destruct (holds_unlink _ _ _ _ _ _ Hh Hl) as (Hnx & _). pose proof (holds_nodup _ _ Hh _ _ Hl) as HN. apply NoDup_cons in HN as [Hhd _]. assert (participants_ <> p) as Hne by set_solver.
    cbn. rewrite (proj2 (Z.eqb_neq p participants_)) by done. unfold nx in Hnx. unfold load. destruct (nodes w !! p) as [n|]; [|done]. cbn in Hnx. injection Hnx as Hnx. cbn. rewrite Hnx.
    destruct (Hstop _ _ _ _ _ H) as (w1 & -> & H1). cbn. destruct H1 as [H1|H1]; destruct (IH fuel _ _ _ H1) as (w' & kept' & -> & H'); try (cbn in Hf; lia); exists w', kept'; (split; [done|]); by rewrite <- app_assoc in H'.
Qed.

Lemma RequestStop_spec ps w : Q [] [] ps w -> exists w' kept, RequestStop w participants_ = Val w' /\ Q ps kept [] w'.
Proof.
  intros H. pose proof (HQ _ _ _ _ H) as Hh. cbn in Hh. assert (({[participants_ := ps]} : lists) !! participants_ = Some ps) as Hl by apply lookup_insert_eq. destruct (holds_head _ _ _ _ Hh Hl) as (n & Hld & _ & Hn & _). unfold RequestStop. rewrite Hld. cbn [mbind outcome_bind]. rewrite Hn.
  apply (stop_loop_spec ps _ [] []); [done|]. pose proof (holds_length _ _ _ _ Hh Hl). lia.
Qed.

End stop.

(** ** Registering *)

Lemma registry_free h (head : Z) ps x : holds h {[head := ps]} -> is_Some (h !! x) -> x <> head -> x ∉ ps -> free h {[head := ps]} x.
Proof. intros H Hx Hne Hn. split; [done|]. intros hd l [<- <-]%lookup_singleton_Some. by rewrite not_elem_of_cons. Qed.

Lemma Register_spec h (head : Z) ps x : holds h {[head := ps]} -> is_Some (h !! x) -> x <> head -> x ∉ ps ->
  exists h', RegisterShutdownParticipant true h head x = Val h' /\ holds h' {[head := ps ++ [x]]} /\ dom h' = dom h.
Proof.
  intros H Hx Hne Hn. pose proof (registry_free _ _ _ _ H Hx Hne Hn) as Hf. assert (({[head := ps]} : lists) !! head = Some (ps ++ [])) as Hl by (rewrite app_nil_r; apply lookup_insert_eq).
  destruct (holds_insert _ _ _ _ _ _ H Hl Hf) as (h' & Hb & H'). exists h'. rewrite (insert_singleton_eq head) in H'. split; [|split; [done | by eapply LinkBetween_dom]]. unfold RegisterShutdownParticipant, Register, PushBack. cbn [ALYRN_CHECK mbind outcome_bind].
  assert (x <> nullptr) as Hz by (intros ->; destruct Hx as [? Hx]; by rewrite (holds_null _ _ H) in Hx). rewrite (proj2 (Z.eqb_neq x nullptr) Hz). unfold InList, load. rewrite (holds_free _ _ H _ Hf). cbn.
  destruct (holds_head _ _ _ _ H Hl) as (n & _ & Hh & _ & Hp). rewrite Hh. cbn. cbn in Hb. rewrite app_nil_r in Hp. rewrite Hp, Hb. done.
Qed.

Lemma Unregister_spec h (head : Z) l1 x l2 : holds h {[head := l1 ++ x :: l2]} ->
  InList h x = Val true /\ exists h', UnregisterShutdownParticipant true h x = Val h' /\ holds h' {[head := l1 ++ l2]} /\ dom h' = dom h.
Proof.
  intros H. assert (({[head := l1 ++ x :: l2]} : lists) !! head = Some (l1 ++ x :: l2)) as Hl by apply lookup_insert_eq. destruct (holds_unlink _ _ _ _ _ _ H Hl) as (_ & h' & Hu & H'). rewrite (insert_singleton_eq head) in H'.
  destruct (holds_linked _ _ _ _ x H Hl) as (n & Hn & Hne); [set_solver|]. assert (InList h x = Val true) as Hi by (unfold InList, load; rewrite Hn; cbn; by rewrite (proj2 (Z.eqb_neq _ _) Hne)). split; [done|].
  exists h'. split; [|split; [done | by eapply Unlink_dom]]. unfold UnregisterShutdownParticipant, Unregister, Erase. cbn [ALYRN_CHECK mbind outcome_bind]. pose proof (holds_not_null _ _ _ _ x H Hl ltac:(set_solver)) as Hz. rewrite (proj2 (Z.eqb_neq x nullptr) Hz), Hi. cbn. by rewrite Hu.
Qed.

Lemma unregistered_InList h (head : Z) ps x : holds h {[head := ps]} -> is_Some (h !! x) -> x <> head -> x ∉ ps -> InList h x = Val false.
Proof. intros H Hx Hne Hn. pose proof (registry_free _ _ _ _ H Hx Hne Hn) as Hf. unfold InList, load. by rewrite (holds_free _ _ H _ Hf). Qed.

(** A node that is constructed, and one that is destroyed while it is in no list. *)
Lemma registry_add_node h (head : Z) ps x : holds h {[head := ps]} -> h !! x = None -> x <> nullptr -> holds (<[x := mkNode nullptr nullptr]> h) {[head := ps]}.
Proof.
  intros H Hx Hz. assert (forall hd l y, ({[head := ps]} : lists) !! hd = Some l -> y ∈ hd :: l -> y <> x) as Hd. { intros hd l y Hl Hy ->. destruct (links_dom h hd l hd x) as [? He]; [by eapply holds_links | set_solver | congruence]. } destruct H. split; try done.
  - intros hd l Hl. eapply links_agree; [|by apply holds_links0]. intros y Hy. rewrite lookup_insert_ne; [done|]. intros ->. apply (Hd hd l y Hl); set_solver.
  - intros y [Hy1 Hy2]. destruct (decide (x = y)) as [->|Hne]; [by rewrite lookup_insert_eq|]. rewrite lookup_insert_ne in * by done. apply holds_free0. by split.
  - by rewrite lookup_insert_ne.
Qed.

Lemma registry_drop_node h (head : Z) ps x : holds h {[head := ps]} -> x <> head -> x ∉ ps -> holds (delete x h) {[head := ps]}.
Proof.
  intros H Hh Hx. destruct H. split; try done.
  - intros hd l Hl. eapply links_agree; [|by apply holds_links0]. apply lookup_singleton_Some in Hl as [<- <-]. intros y Hy. rewrite lookup_delete_ne; [done|]. intros ->. set_solver.
  - intros y [[n Hy1] Hy2]. apply lookup_delete_Some in Hy1 as [Hne Hy1]. rewrite lookup_delete_ne by done. apply holds_free0. split; [by eexists | done].
  - apply lookup_delete_None. by right.
Qed.

End LoopShutdown.
