(* ===== verification/TimerUsers.v ===== *)
(** * Sleeping, timers and tickers on a loop

    The awaiters of SleepFor (src/epoll/timer.cc, src/uring/timer.cc) and the timers that
    fire through a channel (include/alyrn/detail/timer_channel.h), with what they share: the
    timers of the loop, its shutdown registry and its work queue. What they need of a timer
    queue is an interface ([TimerService]) with laws, which the agenda both queues refine
    satisfies. Addresses of participants are those of the objects that contain them. *)

From S2P Require Import Prelude IntrusiveList LoopShutdown Timers TimerAgenda Channel ChannelProps.

Module TimerUsers.
Import IntrusiveList LoopShutdown.

(** ** What a timer queue promises to its clients *)

Class TimerService := {
  ts : Type;
  SteadyNow : ts -> Z;
  (* the timers that have not fired, with their deadlines *)
  armed : ts -> gmap Z Z;
  RunAt : ts -> Z -> ts * ResultE Z;
  CancelTimer : ts -> Z -> ts;
  (* a timer that is due leaves the queue before its callback runs *)
  Expire : ts -> option (ts * Z);
  (* time passes, the backend has events of its own *)
  ts_event : Type;
  Advance : ts -> ts_event -> ts;
}.

Class TimerServiceLaws `{TS : TimerService} (refuses : bool) := {
  ts_ok : ts -> Prop;
  RunAt_Ok s d s' id : ts_ok s -> RunAt s d = (s', Ok id) ->
    ts_ok s' /\ id <> Timers.kInvalid /\ armed s !! id = None /\ armed s' = <[id := d]> (armed s) /\ SteadyNow s' = SteadyNow s;
  RunAt_Err s d s' e : ts_ok s -> RunAt s d = (s', Err e) ->
    refuses = true /\ ts_ok s' /\ armed s' = armed s /\ SteadyNow s' = SteadyNow s;
  Cancel_law s id : ts_ok s -> ts_ok (CancelTimer s id) /\ armed (CancelTimer s id) = delete id (armed s) /\ SteadyNow (CancelTimer s id) = SteadyNow s;
  Expire_law s s' id : ts_ok s -> Expire s = Some (s', id) ->
    ts_ok s' /\ (exists e, armed s !! id = Some e /\ e <= SteadyNow s) /\ armed s' = delete id (armed s) /\ SteadyNow s' = SteadyNow s;
  Advance_law s ev : ts_ok s -> ts_ok (Advance s ev) /\ armed (Advance s ev) = armed s /\ SteadyNow s <= SteadyNow (Advance s ev);
}.

Section users.
(** The backend, the registry's list head and the loop as a scheduler. *)
Context `{TS : TimerService} (uring : bool) (registry : Z) (scheduler : nat).

(** ** Data *)

Record SleepAwaiter := mkSleep {
  delay_ : Z;
  result_ : ResultE unit;
  continuation_ : option Z;
  sleep_timer_ : Z;
  continuation_pending_ : bool;
  started : Z;   (* ghost: when it was awaited *)
}.

Record TimerChannel := mkTimer {
  period_ : Z;
  channel_ : nat;
  channel_timer_ : Z;
  next_fire_ : Z;
}.

Inductive user := Sleeper (s : SleepAwaiter) | Ticking (t : TimerChannel).

(** Ghost: what a co_await of a sleep returned, and when. *)
Record slept := mkSlept { sl_who : Z; sl_delay : Z; sl_started : Z; sl_finished : Z; sl_result : ResultE unit }.

Record world := mkWorld {
  nodes : heap;
  timers : ts;
  callbacks : gmap Z Z;          (* whose callback a timer runs *)
  users : gmap Z user;
  work : list Z;                 (* the resume works of sleepers in the loop's queue *)
  chans : Channel.world Z;
  stopping : bool;               (* the loop is kStopping or kStopped *)
  shutdown_started_ : bool;
  finished : list slept;         (* ghost *)
  used : gset Z;                 (* ghost: every name so far *)
}.

Definition set_nodes (w : world) (h : heap) : world :=
  mkWorld h (timers w) (callbacks w) (users w) (work w) (chans w) (stopping w) (shutdown_started_ w) (finished w) (used w).
Definition set_timers (w : world) (t : ts) (cb : gmap Z Z) : world :=
  mkWorld (nodes w) t cb (users w) (work w) (chans w) (stopping w) (shutdown_started_ w) (finished w) (used w).
Definition set_users (w : world) (m : gmap Z user) : world :=
  mkWorld (nodes w) (timers w) (callbacks w) m (work w) (chans w) (stopping w) (shutdown_started_ w) (finished w) (used w).
Definition set_work (w : world) (q : list Z) : world :=
  mkWorld (nodes w) (timers w) (callbacks w) (users w) q (chans w) (stopping w) (shutdown_started_ w) (finished w) (used w).
Definition set_chans (w : world) (c : Channel.world Z) : world :=
  mkWorld (nodes w) (timers w) (callbacks w) (users w) (work w) c (stopping w) (shutdown_started_ w) (finished w) (used w).
Definition set_stop (w : world) (s b : bool) : world :=
  mkWorld (nodes w) (timers w) (callbacks w) (users w) (work w) (chans w) s b (finished w) (used w).
Definition set_ghost (w : world) (l : list slept) (u : gset Z) : world :=
  mkWorld (nodes w) (timers w) (callbacks w) (users w) (work w) (chans w) (stopping w) (shutdown_started_ w) l u.

Definition put (w : world) (a : Z) (u : user) : world := set_users w (<[a := u]> (users w)).
Definition get_sleep (w : world) (a : Z) : outcome SleepAwaiter :=
  match users w !! a with Some (Sleeper s) => Val s | _ => Panic end.
Definition get_timer (w : world) (a : Z) : outcome TimerChannel :=
  match users w !! a with Some (Ticking t) => Val t | _ => Panic end.

Definition with_result (s : SleepAwaiter) (r : ResultE unit) : SleepAwaiter :=
  mkSleep (delay_ s) r (continuation_ s) (sleep_timer_ s) (continuation_pending_ s) (started s).
Definition with_timer (s : SleepAwaiter) (id : Z) : SleepAwaiter :=
  mkSleep (delay_ s) (result_ s) (continuation_ s) id (continuation_pending_ s) (started s).
Definition with_pending (s : SleepAwaiter) (b : bool) : SleepAwaiter :=
  mkSleep (delay_ s) (result_ s) (continuation_ s) (sleep_timer_ s) b (started s).
Definition with_handle (s : SleepAwaiter) (h : option Z) : SleepAwaiter :=
  mkSleep (delay_ s) (result_ s) h (sleep_timer_ s) (continuation_pending_ s) (started s).
Definition awaited_at (s : SleepAwaiter) (t : Z) : SleepAwaiter :=
  mkSleep (delay_ s) (result_ s) (continuation_ s) (sleep_timer_ s) (continuation_pending_ s) t.
Definition with_channel_timer (t : TimerChannel) (id : Z) : TimerChannel := mkTimer (period_ t) (channel_ t) id (next_fire_ t).
Definition with_next (t : TimerChannel) (n : Z) : TimerChannel := mkTimer (period_ t) (channel_ t) (channel_timer_ t) n.
Definition with_period (t : TimerChannel) (p : Z) : TimerChannel := mkTimer p (channel_ t) (channel_timer_ t) (next_fire_ t).

(** ** The loop, as its clients see it *)

(** RunAt with a callback of [a]. *)
Definition run_at (w : world) (a deadline : Z) : world * ResultE Z :=
  let '(t, r) := RunAt (timers w) deadline in
  (set_timers w t (match r with Ok id => <[id := a]> (callbacks w) | Err _ => callbacks w end), r).
Definition run_after (w : world) (a delay : Z) : world * ResultE Z := run_at w a (SteadyNow (timers w) + delay).
Definition cancel (w : world) (id : Z) : world := set_timers w (CancelTimer (timers w) id) (delete id (callbacks w)).
Definition register (w : world) (a : Z) : outcome world := h ← RegisterShutdownParticipant true (nodes w) registry a; Val (set_nodes w h).
Definition unregister (w : world) (a : Z) : outcome world := h ← UnregisterShutdownParticipant true (nodes w) a; Val (set_nodes w h).
Definition unregister_if (w : world) (a : Z) : outcome world :=
  registered ← InList (nodes w) a; if (registered : bool) then unregister w a else Val w.

(** SchedulerContinuation::Schedule with Loop::Schedule, and ScheduleCompletion of the
    io_uring loop, which ignores work that is queued. *)
Definition Schedule (w : world) (a : Z) : outcome world :=
  s ← get_sleep w a;
  if uring then Val (if bool_decide (a ∈ work w) then w else set_work w (work w ++ [a]))
  else
    ALYRN_CHECK (bool_decide (is_Some (continuation_ s)));;
    ALYRN_CHECK (bool_decide (a ∉ work w));;
    Val (set_work w (work w ++ [a])).

(** ** SleepAwaiter *)

Definition ReleaseTimer (w : world) (a : Z) : outcome world :=
  s ← get_sleep w a;
  let w := if Timers.TimerId_Valid (sleep_timer_ s) then cancel (put w a (Sleeper (with_timer s Timers.kInvalid))) (sleep_timer_ s) else w in
  unregister_if w a.

Definition Complete (w : world) (a : Z) (result : ResultE unit) : outcome world :=
  s ← get_sleep w a;
  w ← ReleaseTimer (put w a (Sleeper (with_result s result))) a;
  s ← get_sleep w a;
  Schedule (put w a (Sleeper (with_pending s true))) a.

Definition canceled : ResultE unit := Err (Errno ECANCELED).

(** The callback of the timer. *)
Definition on_timer (w : world) (a : Z) : outcome world :=
  s ← get_sleep w a;
  Complete (put w a (Sleeper (with_timer s Timers.kInvalid))) a (if stopping w then canceled else Ok tt).

(** epoll: the awaiter registers, then arms its timer, which cannot fail. *)
Definition epoll_await_suspend (w : world) (a continuation : Z) : outcome (world * bool) :=
  s ← get_sleep w a;
  let s := awaited_at s (SteadyNow (timers w)) in
  if stopping w then Val (put w a (Sleeper (with_result s canceled)), false)
  else if delay_ s <=? 0 then Val (put w a (Sleeper s), false)
  else
    ALYRN_CHECK (bool_decide (Channel.w_current (chans w) = Some scheduler));;
    ALYRN_CHECK (bool_decide (continuation_ s = None));;
    ALYRN_CHECK (negb (continuation =? nullptr));;
    let s := with_handle s (Some continuation) in
    w ← register (put w a (Sleeper s)) a;
    let '(w, timer) := run_after w a (delay_ s) in
    match timer with
    | Ok id => Val (put w a (Sleeper (with_timer s id)), true)
    | Err _ => Panic
    end.

(** io_uring: the timer is armed first and may be refused. *)
Definition uring_await_suspend (w : world) (a continuation : Z) : outcome (world * bool) :=
  s ← get_sleep w a;
  let s := awaited_at s (SteadyNow (timers w)) in
  if stopping w then Val (put w a (Sleeper (with_result s canceled)), false)
  else if delay_ s <=? 0 then Val (put w a (Sleeper s), false)
  else
    ALYRN_CHECK (bool_decide (Channel.w_current (chans w) = Some scheduler));;
    let '(w, timer) := run_after w a (delay_ s) in
    match timer with
    | Err e => Val (put w a (Sleeper (with_result s (Err e))), false)
    | Ok id => w ← register (put w a (Sleeper (with_handle (with_timer s id) (Some continuation)))) a; Val (w, true)
    end.

Definition await_suspend (w : world) (a continuation : Z) : outcome (world * bool) :=
  if uring then uring_await_suspend w a continuation else epoll_await_suspend w a continuation.

Definition await_resume (w : world) (a : Z) : outcome (world * ResultE unit) :=
  s ← get_sleep w a; Val (put w a (Sleeper (with_pending s false)), result_ s).

(** The destructor; the object and its participant are gone. *)
Definition destroy_sleep (w : world) (a : Z) : outcome world :=
  s ← get_sleep w a;
  ALYRN_CHECK (negb (continuation_pending_ s));;
  w ← ReleaseTimer w a;
  Val (set_nodes (set_users w (delete a (users w))) (delete a (nodes w))).

(** The rest of co_await: the result is taken and the awaiter destroyed. *)
Definition finish (w : world) (a : Z) : outcome world :=
  s ← get_sleep w a;
  '(w, result) ← await_resume w a;
  let w := set_ghost w (finished w ++ [mkSlept a (delay_ s) (started s) (SteadyNow (timers w)) result]) (used w) in
  destroy_sleep w a.

Definition co_await (w : world) (a continuation : Z) : outcome world :=
  '(w, suspended) ← await_suspend w a continuation;
  if (suspended : bool) then Val w else finish w a.

(** ** BasicTimerChannel *)

(** Loop::RunOnOwner: the callback runs with the loop as the current scheduler. *)
Definition set_current (c : Channel.world Z) (cur : option nat) : Channel.world Z :=
  Channel.mkWorld (Channel.w_chans c) (Channel.w_sends c) (Channel.w_recvs c) (Channel.w_sels c) (Channel.w_outs c) (Channel.w_ready c) cur (Channel.w_rng c) (Channel.w_trace c).
Definition RunOnOwner (w : world) (f : Channel.world Z -> outcome (Channel.world Z)) : outcome world :=
  c ← f (set_current (chans w) (Some scheduler)); Val (set_chans w (set_current c (Channel.w_current (chans w)))).

Definition CloseChannel (w : world) (a : Z) : outcome world :=
  t ← get_timer w a;
  RunOnOwner w (fun c => ch ← Channel.owned_chan (channel_ t) c; if Channel.closed_ ch then Val c else Channel.Close (channel_ t) c).

(** The value is received into a local variable. *)
Definition DiscardUnreceived (w : world) (a : Z) : outcome world :=
  t ← get_timer w a;
  RunOnOwner w (fun c =>
    ch ← Channel.owned_chan (channel_ t) c;
    if Channel.closed_ ch then Val c
    else
      let stale := fresh (dom (Channel.w_outs c)) in
      '(_, c) ← Channel.TryReceive (channel_ t) stale (Channel.put_out stale None c);
      Val (Channel.set_outs (delete stale) c)).

Definition Disarm (w : world) (a : Z) : outcome world :=
  t ← get_timer w a;
  Val (if Timers.TimerId_Valid (channel_timer_ t) then put (cancel w (channel_timer_ t)) a (Ticking (with_channel_timer t Timers.kInvalid)) else w).

Definition Arm (w : world) (a when : Z) : outcome world :=
  t ← get_timer w a;
  let t := with_next t when in
  let '(w, armed) := run_at (put w a (Ticking t)) a when in
  match armed with
  | Err _ => w ← unregister_if w a; CloseChannel w a
  | Ok id => Val (put w a (Ticking (with_channel_timer t id)))
  end.

Definition Fire (w : world) (a : Z) : outcome world :=
  t ← get_timer w a;
  let t := with_channel_timer t Timers.kInvalid in
  let now := SteadyNow (timers w) in
  '(_, c) ← Channel.TrySend (channel_ t) now (chans w);
  let w := set_chans (put w a (Ticking t)) c in
  if 0 <? period_ t then
    let next := next_fire_ t + period_ t in
    Arm w a (if next <=? now then now + period_ t else next)
  else Val w.

Definition StopFiring (w : world) (a : Z) : outcome (world * bool) :=
  t ← get_timer w a;
  w ← Disarm w a;
  w ← DiscardUnreceived w a;
  Val (w, Timers.TimerId_Valid (channel_timer_ t)).

Definition Rearm (w : world) (a delay period : Z) : outcome world :=
  '(w, _) ← StopFiring w a;
  t ← get_timer w a;
  let w := put w a (Ticking (with_period t period)) in
  registered ← InList (nodes w) a;
  if negb registered then Val w else Arm w a (SteadyNow (timers w) + delay).

Definition OnLoopStop (w : world) (a : Z) : outcome world :=
  w ← Disarm w a; w ← unregister w a; CloseChannel w a.

(** The constructor, with its one-slot channel [c]. *)
Definition new_timer (w : world) (a : Z) (c : nat) (delay period : Z) : outcome world :=
  ch ← Channel.new_chan scheduler 1;
  let w := set_chans w (Channel.put_chan c ch (chans w)) in
  let w := set_nodes w (<[a := mkNode nullptr nullptr]> (nodes w)) in
  let w := put w a (Ticking (mkTimer period c Timers.kInvalid 0)) in
  let w := set_ghost w (finished w) ({[a]} ∪ used w) in
  if stopping w then CloseChannel w a
  else w ← register w a; Arm w a (SteadyNow (timers w) + delay).

Definition destroy_timer (w : world) (a : Z) : outcome world :=
  w ← Disarm w a;
  w ← unregister_if w a;
  w ← CloseChannel w a;
  t ← get_timer w a;
  c ← Channel.destroy_chan (channel_ t) (chans w);
  Val (set_nodes (set_users (set_chans w c) (delete a (users w))) (delete a (nodes w))).

(** ** The loop runs *)

Definition new_sleep (w : world) (a delay : Z) : world :=
  let w := set_nodes w (<[a := mkNode nullptr nullptr]> (nodes w)) in
  set_ghost (put w a (Sleeper (mkSleep delay (Ok tt) None Timers.kInvalid false 0))) (finished w) ({[a]} ∪ used w).

(** A due timer fires. *)
Definition expire (w : world) : outcome world :=
  match Expire (timers w) with
  | None => Val w
  | Some (t, id) =>
      match callbacks w !! id with
      | None => Panic
      | Some a =>
          let w := set_timers w t (delete id (callbacks w)) in
          match users w !! a with
          | Some (Sleeper _) => on_timer w a
          | Some (Ticking _) => Fire w a
          | None => Panic
          end
      end
  end.

(** The next resume work. *)
Definition run_work (w : world) : outcome world :=
  match work w with [] => Val w | a :: q => finish (set_work w q) a end.

(** The callback of a participant: DispatchLoopStop or OnLoopStop. *)
Definition stop_user (w : world) (a : Z) : outcome world :=
  match users w !! a with
  | Some (Sleeper _) => Complete w a canceled
  | Some (Ticking _) => OnLoopStop w a
  | None => Panic
  end.

Definition BeginShutdown (w : world) : outcome world :=
  if shutdown_started_ w then Val w
  else RequestStop nodes stop_user (set_stop w (stopping w) true) registry.

End users.
End TimerUsers.
