(* ===== verification/TimerUsersInv.v ===== *)
(** * The invariant of sleepers and timers, by parts

    First what an operation on one channel leaves alone in the others ([ChannelFrame]).

    Each part relates one shared structure (the registry, the timers, the work queue, the
    channels) to what the users say about themselves, as a finite map. *)

From S2P Require Import Prelude IntrusiveList LoopShutdown Timers Channel ChannelInv ChannelRing ChannelComplete ChannelOps ChannelSelect ChannelProps TimerUsers.

(** ** What completing a waiter leaves alone in the other channels

    A value handed to a receiver may decide a select, which takes its other cases out of the
    queues of their channels. Nothing else of those channels changes, nor does the current
    scheduler: the frame an owner of several channels relies on. *)

Module ChannelFrame.
Import Channel.
Section frame.
Context {T : Type}.
Implicit Types (w : world T) (ch : chan T).

Record same_chan ch ch' : Prop := {
  sc_scheduler : scheduler_ ch' = scheduler_ ch;
  sc_closed : closed_ ch' = closed_ ch;
  sc_senders : senders_ ch = [] -> senders_ ch' = [];
}.

Record calm w w' : Prop := {
  ca_current : w_current w' = w_current w;
  ca_chans c ch : w_chans w !! c = Some ch -> exists ch', w_chans w' !! c = Some ch' /\ same_chan ch ch';
}.

Lemma same_chan_refl ch : same_chan ch ch.
Proof. by split. Qed.
Lemma calm_refl w : calm w w.
Proof. split; [done|]. intros c ch H. exists ch. split; [done | apply same_chan_refl]. Qed.
Lemma calm_trans w1 w2 w3 : calm w1 w2 -> calm w2 w3 -> calm w1 w3.
Proof.
  intros [A1 A2] [B1 B2]. split; [congruence|]. intros c ch H. destruct (A2 c ch H) as (ch1 & H1 & [C1 C2 C3]). destruct (B2 c ch1 H1) as (ch2 & H2 & [D1 D2 D3]).
  exists ch2. split; [done|]. split; [congruence | congruence | auto].
Qed.

Lemma calm_env w w' : w_chans w' = w_chans w -> w_current w' = w_current w -> calm w w'.
Proof. intros E1 E2. split; [done|]. intros c ch H. exists ch. rewrite E1. split; [done | apply same_chan_refl]. Qed.
Lemma calm_put w c ch ch' : w_chans w !! c = Some ch -> same_chan ch ch' -> calm w (put_chan c ch' w).
Proof.
  intros E Hs. split; [done|]. intros c0 ch0 H. destruct (decide (c0 = c)) as [->|Hne].
  - exists ch'. split; [apply lookup_insert_eq|]. congruence.
  - exists ch0. split; [by rewrite <- H; apply lookup_insert_ne | apply same_chan_refl].
Qed.

Lemma bind_Val {A B} (m : outcome A) (f : A -> outcome B) b : m ≫= f = Val b -> exists a, m = Val a /\ f a = Val b.
Proof. destruct m as [a|]; [|done]. exists a. done. Qed.
Lemma deref_Val {A} (m : gmap nat A) i x : deref m i = Val x -> m !! i = Some x.
Proof. unfold deref. destruct (m !! i); [by intros [= ->] | done]. Qed.
Lemma owned_Val c w ch : owned_chan c w = Val ch -> w_chans w !! c = Some ch.
Proof. unfold owned_chan. intros (x & H1%deref_Val & (u & _ & [= <-])%bind_Val)%bind_Val. done. Qed.

(** Inverts a computation that succeeded, step by step. *)
Ltac unbind :=
  repeat match goal with
  | H : mbind _ _ = Val _ |- _ => let x := fresh "x" in let E := fresh "E" in apply bind_Val in H as (x & E & H)
  | H : Val _ = Val _ |- _ => injection H as H; subst
  | H : Panic = Val _ |- _ => discriminate H
  | H : (_, _) = (_, _) |- _ => injection H as ? ?; subst
  | H : (match ?x with _ => _ end) = Val _ |- _ => let E := fresh "E" in destruct x eqn:E
  | H : (if ?x then _ else _) = Val _ |- _ => let E := fresh "E" in destruct x eqn:E
  | H : deref _ _ = Val _ |- _ => apply deref_Val in H
  | H : owned_chan _ _ = Val _ |- _ => apply owned_Val in H
  | x : _ * _ |- _ => destruct x
  end.

Ltac env := apply calm_env; reflexivity.

Lemma send_Cancelled_calm r w w' : send_Cancelled r w = Val w' -> calm w w'.
Proof. unfold send_Cancelled. intros H. unbind; env. Qed.
Lemma recv_Cancelled_calm r w w' : recv_Cancelled r w = Val w' -> calm w w'.
Proof. unfold recv_Cancelled. intros H. unbind; env. Qed.

Lemma remove_nil r q : q = [] -> remove r q = [].
Proof. by intros ->. Qed.

Lemma CancelSend_calm c r w w' : CancelSend c r w = Val w' -> calm w w'.
Proof. unfold CancelSend. intros H. unbind. eapply calm_trans; [|by eapply send_Cancelled_calm]. eapply calm_put; [done|]. split; [done | done | apply remove_nil]. Qed.
Lemma CancelReceive_calm c r w w' : CancelReceive c r w = Val w' -> calm w w'.
Proof. unfold CancelReceive. intros H. unbind. eapply calm_trans; [|by eapply recv_Cancelled_calm]. eapply calm_put; [done|]. by split. Qed.

Lemma reg_Cancel_calm s i w w' : reg_Cancel s i w = Val w' -> calm w w'.
Proof. unfold reg_Cancel. intros H. unbind; first [apply calm_refl | env | by eapply CancelSend_calm | by eapply CancelReceive_calm]. Qed.

Lemma CancelLosers_calm s winner n : forall i w w', CancelLosers s winner i n w = Val w' -> calm w w'.
Proof.
  induction n as [|n IH]; intros i w w' H; cbn in H; unbind; [apply calm_refl | by eapply IH |]. eapply calm_trans; [|by eapply IH]. by eapply reg_Cancel_calm.
Qed.

Lemma CaseCompleted_calm s winner w w' : CaseCompleted s winner w = Val w' -> calm w w'.
Proof. unfold CaseCompleted. intros H. unbind. by eapply CancelLosers_calm. Qed.
Lemma TryWin_calm s i w b w' : TryWin s i w = Val (b, w') -> calm w w'.
Proof. unfold TryWin. intros H. unbind; first [apply calm_refl | env]. Qed.
Lemma Schedule_calm sch hd w w' : Schedule sch hd w = Val w' -> calm w w'.
Proof. unfold Schedule. intros H. unbind; env. Qed.
Lemma ResumeIfWaiting_calm s w w' : ResumeIfWaiting s w = Val w' -> calm w w'.
Proof. unfold ResumeIfWaiting. intros H. unbind; [apply calm_refl|]. eapply calm_trans; [|by eapply Schedule_calm]. env. Qed.

Lemma recv_complete_calm r value w w' : recv_complete r value w = Val w' -> calm w w'.
Proof.
  destruct r as [a|a|s i]; cbn [recv_complete]; [done| |].
  - unfold await_complete_receive. intros H. unbind; (eapply calm_trans; [|by eapply Schedule_calm]; destruct value; env).
  - unfold reg_complete_receive. intros H. unbind; try apply calm_refl; match goal with Ht : TryWin _ _ _ = Val _ |- _ => pose proof (TryWin_calm _ _ _ _ _ Ht) as Hw end.
    + eapply calm_trans; [|exact Hw]. env.
    + eapply calm_trans; [|eapply calm_trans; [exact Hw|]]; [env|]. eapply calm_trans; [|by eapply ResumeIfWaiting_calm]. eapply calm_trans; [|by eapply CaseCompleted_calm]. destruct value; env.
Qed.

Lemma PushBuffer_same v ch ch' : PushBuffer v ch = Val ch' -> same_chan ch ch'.
Proof. unfold PushBuffer. intros H. unbind. by split. Qed.
Lemma PopBuffer_same ch v ch' : PopBuffer ch = Val (v, ch') -> same_chan ch ch'.
Proof. unfold PopBuffer. intros H. unbind; by split. Qed.
Lemma push_buffer_calm c v w w' : push_buffer c v w = Val w' -> calm w w'.
Proof. unfold push_buffer. intros H. unbind. eapply calm_put; [done | by eapply PushBuffer_same]. Qed.
Lemma pop_buffer_calm c v w w' : pop_buffer c w = Val (v, w') -> calm w w'.
Proof. unfold pop_buffer. intros H. unbind. eapply calm_put; [done | by eapply PopBuffer_same]. Qed.
Lemma pop_receiver_calm c r w w' : pop_receiver c w = Val (r, w') -> calm w w'.
Proof. unfold pop_receiver. intros H. unbind; [apply calm_refl|]. eapply calm_put; [done|]. by split. Qed.

(** Sending changes no channel's state but the buffer and the queues. *)
Lemma TrySend_calm c v w b w' : TrySend c v w = Val (b, w') -> calm w w'.
Proof.
  unfold TrySend. intros H. unbind; match goal with Hp : pop_receiver _ _ = Val _ |- _ => apply pop_receiver_calm in Hp as Hp1 end.
  - eapply calm_trans; [exact Hp1|]. eapply calm_trans; [|by eapply recv_complete_calm]. env.
  - done.
  - eapply calm_trans; [exact Hp1|]. eapply calm_trans; [|by eapply push_buffer_calm]. env.
Qed.

(** Receiving from a channel no sender waits on. *)
Lemma pop_sender_none c ch w : w_chans w !! c = Some ch -> senders_ ch = [] -> pop_sender c w = Val (None, w).
Proof. intros Hc Hs. unfold pop_sender, deref. rewrite Hc. cbn. by rewrite Hs. Qed.
Lemma take_ready_calm c ch w v w' : w_chans w !! c = Some ch -> senders_ ch = [] -> take_ready c w = Val (v, w') -> calm w w'.
Proof.
  intros Hc Hs H. unfold take_ready, deref in H. rewrite Hc in H. cbn in H. destruct (negb _); [|rewrite (pop_sender_none _ _ _ Hc Hs) in H; injection H as <- <-; apply calm_refl].
  apply bind_Val in H as ([v1 w1] & Hp%pop_buffer_calm & H). destruct (ca_chans _ _ Hp c ch Hc) as (ch1 & Hc1 & Hsame). rewrite (pop_sender_none _ _ _ Hc1 (sc_senders _ _ Hsame Hs)) in H. by injection H as <- <-.
Qed.
Lemma TryReceive_calm c ch out w b w' : w_chans w !! c = Some ch -> senders_ ch = [] -> TryReceive c out w = Val (b, w') -> calm w w'.
Proof.
  intros Hc Hs H. unfold TryReceive in H. apply bind_Val in H as (ch0 & _ & H). apply bind_Val in H as ([v w1] & Ht & H). apply (take_ready_calm _ _ _ _ _ Hc Hs) in Ht. eapply calm_trans; [exact Ht|].
  unbind; first [apply calm_refl | env].
Qed.

(** Closing a channel no sender waits on: its flag changes, and that of no other channel. *)
Definition close_only (c : nat) w w' : Prop :=
  w_current w' = w_current w /\ forall (c0 : nat) ch, w_chans w !! c0 = Some ch -> exists ch', w_chans w' !! c0 = Some ch' /\ scheduler_ ch' = scheduler_ ch /\ (senders_ ch = [] -> senders_ ch' = []) /\ closed_ ch' = if decide (c0 = c) then true else closed_ ch.

Lemma close_receivers_calm c n : forall w w', close_receivers n c w = Val w' -> calm w w'.
Proof.
  induction n as [|n IH]; intros w w' H; cbn in H; apply bind_Val in H as ([r w1] & Hp%pop_receiver_calm & H); destruct r as [r|]; try done; try (injection H as <-; done).
  apply bind_Val in H as (w2 & H2%recv_complete_calm & H). eapply calm_trans; [exact Hp|]. eapply calm_trans; [exact H2 | by apply IH].
Qed.

Lemma Close_frame c ch w w' : w_chans w !! c = Some ch -> senders_ ch = [] -> Close c w = Val w' -> close_only c w w'.
Proof.
  intros Hc Hs H. unfold Close in H. apply bind_Val in H as (ch0 & Ho%owned_Val & H). replace ch0 with ch in * by congruence. apply bind_Val in H as (_ & _ & H). rewrite Hs in H. cbn [length close_senders] in H.
  set (w1 := put_chan c (set_closed ch) w) in H. assert (w_chans w1 !! c = Some (set_closed ch)) as Hc1 by apply lookup_insert_eq. rewrite (pop_sender_none _ _ _ Hc1) in H by done. cbn [mbind outcome_bind] in H.
  assert (calm w1 w') as [A1 A2]. { unbind; [apply calm_refl | by eapply close_receivers_calm]. }
  split; [done|]. intros c0 ch2 Hc0. destruct (decide (c0 = c)) as [->|Hne].
  - destruct (A2 c _ Hc1) as (ch' & Hc' & [B1 B2 B3]). exists ch'. replace ch2 with ch in * by congruence. cbn in *. auto.
  - assert (w_chans w1 !! c0 = Some ch2) as Hc0' by (by rewrite <- Hc0; apply lookup_insert_ne). destruct (A2 c0 _ Hc0') as (ch' & Hc' & [B1 B2 B3]). exists ch'. auto.
Qed.

End frame.
End ChannelFrame.

Module TimerUsersInv.
Import IntrusiveList LoopShutdown TimerUsers ChannelFrame.

(** ** What a user says about itself *)

Definition timer_of (u : user) : Z := match u with Sleeper s => sleep_timer_ s | Ticking t => channel_timer_ t end.
Definition deadline (u : user) : Z := match u with Sleeper s => started s + delay_ s | Ticking t => next_fire_ t end.
Definition pend (u : user) : bool := match u with Sleeper s => continuation_pending_ s | Ticking _ => false end.
Definition chan_of (u : user) : option nat := match u with Sleeper _ => None | Ticking t => Some (channel_ t) end.
Definition registered (c : Channel.world Z) (u : user) : bool :=
  match u with Sleeper s => Timers.TimerId_Valid (sleep_timer_ s) | Ticking t => open_chan (channel_ t) c end.

Section inv.
Context `{TS : TimerService} {refuses : bool} `{!TimerServiceLaws refuses}.
Context (uring : bool) (registry : Z) (scheduler : nat).

(** ** The registry *)

Record RegI (ps : list Z) (h : heap) (rm : gmap Z bool) : Prop := {
  ri_holds : holds h {[registry := ps]};
  ri_self : rm !! registry = None;
  ri_dom a : is_Some (h !! a) <-> a = registry \/ is_Some (rm !! a);
  ri_in a : a ∈ ps <-> rm !! a = Some true;
}.

Lemma RegI_node ps h rm a b : RegI ps h rm -> rm !! a = Some b -> is_Some (h !! a) /\ a <> registry.
Proof. intros [] Ha. split; [apply ri_dom0; right; by eexists|]. intros ->. congruence. Qed.

Lemma RegI_InList ps h rm a b : RegI ps h rm -> rm !! a = Some b -> InList h a = Val b.
Proof.
  intros H Ha. destruct (RegI_node _ _ _ _ _ H Ha) as [Hn Hne]. destruct H. destruct b.
  - assert (a ∈ ps) as (l1 & l2 & ->)%list_elem_of_split by (by apply ri_in0). by destruct (Unregister_spec _ _ _ _ _ ri_holds0).
  - eapply unregistered_InList; [done | done | done |]. rewrite ri_in0. congruence.
Qed.

Lemma RegI_register ps h rm a : RegI ps h rm -> rm !! a = Some false ->
  exists h', RegisterShutdownParticipant true h registry a = Val h' /\ RegI (ps ++ [a]) h' (<[a := true]> rm).
Proof.
  intros H Ha. destruct (RegI_node _ _ _ _ _ H Ha) as [Hn Hne]. destruct H. destruct (Register_spec h registry ps a ri_holds0 Hn Hne) as (h' & E & Hh & Hd); [rewrite ri_in0; congruence|].
  exists h'. split; [done|]. split; [done | by rewrite lookup_insert_ne | |].
  - intros x. rewrite <- elem_of_dom, Hd, elem_of_dom, ri_dom0. destruct (decide (x = a)) as [->|Hx]; [rewrite lookup_insert_eq, Ha; naive_solver | by rewrite lookup_insert_ne].
  - intros x. rewrite elem_of_app, ri_in0, list_elem_of_singleton. destruct (decide (x = a)) as [->|Hx]; [rewrite lookup_insert_eq; naive_solver | rewrite lookup_insert_ne by done; naive_solver].
Qed.

Lemma RegI_unregister l1 a l2 h rm : RegI (l1 ++ a :: l2) h rm ->
  exists h', UnregisterShutdownParticipant true h a = Val h' /\ RegI (l1 ++ l2) h' (<[a := false]> rm).
Proof.
  intros H. assert (rm !! a = Some true) as Ha by (apply (ri_in _ _ _ H); set_solver). destruct (RegI_node _ _ _ _ _ H Ha) as [Hn Hne]. destruct H. destruct (Unregister_spec _ _ _ _ _ ri_holds0) as (_ & h' & E & Hh & Hd).
  exists h'. split; [done|]. pose proof (holds_nodup _ _ ri_holds0 registry (l1 ++ a :: l2) ltac:(apply lookup_insert_eq)) as HN. apply NoDup_cons in HN as [_ HN]. apply NoDup_app in HN as (HN1 & HN2 & HN3). apply NoDup_cons in HN3 as [HN3 _].
  split; [done | by rewrite lookup_insert_ne | |].
  - intros x. rewrite <- elem_of_dom, Hd, elem_of_dom, ri_dom0. destruct (decide (x = a)) as [->|Hx]; [rewrite lookup_insert_eq, Ha; naive_solver | by rewrite lookup_insert_ne].
  - intros x. specialize (ri_in0 x). destruct (decide (x = a)) as [->|Hx]; [rewrite lookup_insert_eq; set_solver | rewrite lookup_insert_ne by done; set_solver].
Qed.

Lemma RegI_new ps h rm a : RegI ps h rm -> rm !! a = None -> a <> registry -> a <> nullptr -> RegI ps (<[a := mkNode nullptr nullptr]> h) (<[a := false]> rm).
Proof.
  intros [] Ha Hr Hz. assert (h !! a = None) as Hn. { destruct (h !! a) eqn:E; [|done]. assert (is_Some (h !! a)) as Hs by (by eexists). apply ri_dom0 in Hs as [?|[? ?]]; [done | congruence]. }
  split; [by apply registry_add_node | by rewrite lookup_insert_ne | |].
  - intros x. destruct (decide (x = a)) as [->|Hx]; [rewrite !lookup_insert_eq; naive_solver | by rewrite !lookup_insert_ne].
  - intros x. rewrite ri_in0. destruct (decide (x = a)) as [->|Hx]; [rewrite lookup_insert_eq, Ha; naive_solver | by rewrite lookup_insert_ne].
Qed.

Lemma RegI_drop ps h rm a : RegI ps h rm -> rm !! a = Some false -> RegI ps (delete a h) (delete a rm).
Proof.
  intros H Ha. destruct (RegI_node _ _ _ _ _ H Ha) as [Hn Hne]. destruct H. assert (a ∉ ps) as Hp by (rewrite ri_in0; congruence).
  split; [by apply registry_drop_node | by rewrite lookup_delete_ne | |].
  - intros x. destruct (decide (x = a)) as [->|Hx]; [rewrite !lookup_delete_eq; split; [by intros [] | intros [->|[]]; done] | by rewrite !lookup_delete_ne].
  - intros x. rewrite ri_in0. destruct (decide (x = a)) as [->|Hx]; [rewrite lookup_delete_eq; naive_solver | by rewrite lookup_delete_ne].
Qed.

(** ** The timers *)

Record TimI (t : ts) (cb : gmap Z Z) (m : gmap Z (Z * Z)) : Prop := {
  ti_ok : ts_ok t;
  ti_cb id a : cb !! id = Some a <-> (exists e, m !! a = Some (id, e)) /\ id <> Timers.kInvalid;
  ti_armed id e : armed t !! id = Some e <-> (exists a, m !! a = Some (id, e)) /\ id <> Timers.kInvalid;
}.

Definition idle_timer (m : gmap Z (Z * Z)) (a : Z) : Prop := forall id e, m !! a = Some (id, e) -> id = Timers.kInvalid.

Lemma TimI_idle t cb m a e : TimI t cb m -> idle_timer m a -> TimI t cb (<[a := (Timers.kInvalid, e)]> m).
Proof.
  intros [] Hi. split; [done | |].
  - intros id b. rewrite ti_cb0. destruct (decide (b = a)) as [->|Hb]; [rewrite lookup_insert_eq; naive_solver | by rewrite lookup_insert_ne].
  - intros id x. rewrite ti_armed0. split; intros [[b Hb] Hid]; (split; [|done]); exists b.
    + rewrite lookup_insert_ne; [done|]. intros ->. by apply Hid, (Hi id x).
    + destruct (decide (b = a)) as [->|Hne]; [rewrite lookup_insert_eq in Hb; naive_solver | by rewrite lookup_insert_ne in Hb].
Qed.

Lemma TimI_delete t cb m a : TimI t cb m -> idle_timer m a -> TimI t cb (delete a m).
Proof.
  intros [] Hi. split; [done | |].
  - intros id b. rewrite ti_cb0. destruct (decide (b = a)) as [->|Hb]; [rewrite lookup_delete_eq; naive_solver | by rewrite lookup_delete_ne].
  - intros id x. rewrite ti_armed0. split; intros [[b Hb] Hid]; (split; [|done]); exists b.
    + rewrite lookup_delete_ne; [done|]. intros ->. by apply Hid, (Hi id x).
    + by apply lookup_delete_Some in Hb as [_ Hb].
Qed.

Lemma TimI_arm t cb m a d t' id : TimI t cb m -> idle_timer m a -> RunAt t d = (t', Ok id) -> TimI t' (<[id := a]> cb) (<[a := (id, d)]> m) /\ SteadyNow t' = SteadyNow t /\ id <> Timers.kInvalid.
Proof.
  intros [] Hi HR. destruct (RunAt_Ok _ _ _ _ ti_ok0 HR) as (H1 & H2 & H3 & H4 & H5). split; [|done]. assert (forall b e, m !! b <> Some (id, e)) as Hun. { intros b e Hb. assert (armed t !! id = Some e) by (apply ti_armed0; naive_solver). congruence. }
  split; [done | |].
  - intros i b. destruct (decide (i = id)) as [->|Hne]; [rewrite lookup_insert_eq|rewrite lookup_insert_ne, ti_cb0 by done]; (destruct (decide (b = a)) as [->|Hb]; [rewrite lookup_insert_eq|rewrite lookup_insert_ne by done]); naive_solver.
  - intros i e. rewrite H4. destruct (decide (i = id)) as [->|Hne].
    + rewrite lookup_insert_eq. split; [intros [= <-]; split; [exists a; by rewrite lookup_insert_eq | done]|]. intros [[b Hb] _]. destruct (decide (b = a)) as [->|Hb']; [rewrite lookup_insert_eq in Hb; naive_solver | rewrite lookup_insert_ne in Hb by done; by destruct (Hun b e)].
    + rewrite lookup_insert_ne, ti_armed0 by done. split; intros [[b Hb] Hid]; (split; [|done]); exists b.
      * rewrite lookup_insert_ne; [done|]. intros ->. by apply Hid, (Hi i e).
      * destruct (decide (b = a)) as [->|Hb']; [rewrite lookup_insert_eq in Hb; naive_solver | by rewrite lookup_insert_ne in Hb].
Qed.

Lemma TimI_refused t cb m d t' e : TimI t cb m -> RunAt t d = (t', Err e) -> TimI t' cb m /\ SteadyNow t' = SteadyNow t /\ refuses = true.
Proof. intros [] HR. destruct (RunAt_Err _ _ _ _ ti_ok0 HR) as (H1 & H2 & H3 & H4). split; [|done]. split; [done | done |]. by rewrite H3. Qed.

(** Two users never wait for the same timer. *)
Lemma TimI_inj t cb m a b id e e' : TimI t cb m -> m !! a = Some (id, e) -> m !! b = Some (id, e') -> id <> Timers.kInvalid -> a = b.
Proof. intros [] Ha Hb Hid. assert (cb !! id = Some a) by (apply ti_cb0; naive_solver). assert (cb !! id = Some b) by (apply ti_cb0; naive_solver). congruence. Qed.

Lemma TimI_gone t cb m a id e e' t' : TimI t cb m -> m !! a = Some (id, e) -> id <> Timers.kInvalid -> ts_ok t' -> armed t' = delete id (armed t) ->
  TimI t' (delete id cb) (<[a := (Timers.kInvalid, e')]> m).
Proof.
  intros H Ha Hid Ht Ht'. assert (forall b x, m !! b = Some (id, x) -> a = b) as Hinj by (intros b x Hb; by eapply TimI_inj). destruct H as [H1 H2 H3]. split; [done | |].
  - intros i b. destruct (decide (i = id)) as [->|Hne].
    + rewrite lookup_delete_eq. split; [done|]. intros [[x Hb] _]. destruct (decide (b = a)) as [->|Hb']; [rewrite lookup_insert_eq in Hb; naive_solver|]. rewrite lookup_insert_ne in Hb by done. by destruct Hb'; symmetry; apply (Hinj _ _ Hb).
    + rewrite lookup_delete_ne, H2 by done. destruct (decide (b = a)) as [->|Hb]; [rewrite lookup_insert_eq; naive_solver | by rewrite lookup_insert_ne].
  - intros i x. rewrite Ht'. destruct (decide (i = id)) as [->|Hne].
    + rewrite lookup_delete_eq. split; [done|]. intros [[b Hb] _]. destruct (decide (b = a)) as [->|Hb']; [rewrite lookup_insert_eq in Hb; naive_solver|]. rewrite lookup_insert_ne in Hb by done. by destruct Hb'; symmetry; apply (Hinj _ _ Hb).
    + rewrite lookup_delete_ne, H3 by done. split; intros [[b Hb] Hi]; (split; [|done]); exists b.
      * rewrite lookup_insert_ne; [done|]. intros ->. naive_solver.
      * destruct (decide (b = a)) as [->|Hb']; [rewrite lookup_insert_eq in Hb; naive_solver | by rewrite lookup_insert_ne in Hb].
Qed.

Lemma TimI_cancel t cb m a id e e' : TimI t cb m -> m !! a = Some (id, e) -> id <> Timers.kInvalid ->
  TimI (CancelTimer t id) (delete id cb) (<[a := (Timers.kInvalid, e')]> m) /\ SteadyNow (CancelTimer t id) = SteadyNow t.
Proof. intros H Ha Hid. destruct (Cancel_law t id (ti_ok _ _ _ H)) as (H1 & H2 & H3). split; [|done]. by eapply TimI_gone. Qed.

Lemma TimI_expire t cb m t' id : TimI t cb m -> Expire t = Some (t', id) ->
  exists a e, cb !! id = Some a /\ m !! a = Some (id, e) /\ e <= SteadyNow t /\ SteadyNow t' = SteadyNow t /\ id <> Timers.kInvalid /\ forall e', TimI t' (delete id cb) (<[a := (Timers.kInvalid, e')]> m).
Proof.
  intros H HE. destruct (Expire_law t t' id (ti_ok _ _ _ H) HE) as (H1 & (e & H2 & H3) & H4 & H5). destruct (proj1 (ti_armed _ _ _ H id e) H2) as [[a Ha] Hid]. exists a, e. split_and!; try done.
  - apply (ti_cb _ _ _ H). naive_solver.
  - intros e'. by eapply TimI_gone.
Qed.

(** ** The work queue *)

Record WrkI (q : list Z) (pm : gmap Z bool) : Prop := {
  wi_nodup : NoDup q;
  wi_in a : a ∈ q <-> pm !! a = Some true;
}.

Lemma WrkI_same q pm a : WrkI q pm -> pm !! a <> Some true -> WrkI q (<[a := false]> pm).
Proof. intros [] Ha. split; [done|]. intros b. rewrite wi_in0. destruct (decide (b = a)) as [->|Hb]; [rewrite lookup_insert_eq; naive_solver | by rewrite lookup_insert_ne]. Qed.
Lemma WrkI_delete q pm a : WrkI q pm -> pm !! a <> Some true -> WrkI q (delete a pm).
Proof. intros [] Ha. split; [done|]. intros b. rewrite wi_in0. destruct (decide (b = a)) as [->|Hb]; [rewrite lookup_delete_eq; naive_solver | by rewrite lookup_delete_ne]. Qed.
Lemma WrkI_push q pm a : WrkI q pm -> pm !! a = Some false -> a ∉ q /\ WrkI (q ++ [a]) (<[a := true]> pm).
Proof.
  intros [] Ha. assert (a ∉ q) as Hn by (rewrite wi_in0; congruence). split; [done|]. split.
  - apply NoDup_app. split; [done|]. split; [set_solver | apply NoDup_singleton].
  - intros b. rewrite elem_of_app, wi_in0, list_elem_of_singleton. destruct (decide (b = a)) as [->|Hb]; [rewrite lookup_insert_eq; naive_solver | rewrite lookup_insert_ne by done; naive_solver].
Qed.
Lemma WrkI_pop q pm a : WrkI (a :: q) pm -> pm !! a = Some true /\ WrkI q (<[a := false]> pm).
Proof.
  intros [HN Hi]. apply NoDup_cons in HN as [Hn HN]. split; [apply Hi; set_solver|]. split; [done|]. intros b. specialize (Hi b). destruct (decide (b = a)) as [->|Hb]; [rewrite lookup_insert_eq; naive_solver | rewrite lookup_insert_ne by done; set_solver].
Qed.

(** ** The channels *)

Record ChI (c : Channel.world Z) (cm : gmap Z (option nat)) : Prop := {
  ci_wf : wf c;
  ci_current : Channel.w_current c = Some scheduler;
  ci_chan a n : cm !! a = Some (Some n) -> exists ch, Channel.w_chans c !! n = Some ch /\ Channel.senders_ ch = [];
  ci_inj a b n : cm !! a = Some (Some n) -> cm !! b = Some (Some n) -> a = b;
}.

(** The current scheduler is the loop already. *)
Lemma set_current_id c cm : ChI c cm -> set_current c (Some scheduler) = c.
Proof. intros H. pose proof (ci_current _ _ H). destruct c. cbn in *. by subst. Qed.

(** The flags of the channels of the users but [a]. *)
Definition same_flags (a : option Z) (c c' : Channel.world Z) (cm : gmap Z (option nat)) : Prop :=
  forall b n, cm !! b = Some (Some n) -> Some b <> a -> open_chan n c' = open_chan n c.

Lemma ChI_calm c c' cm : ChI c cm -> wf c' -> calm c c' -> ChI c' cm /\ same_flags None c c' cm.
Proof.
  intros [] Hw [E1 E2]. split.
  - split; [done | congruence | | done]. intros a n Ha. destruct (ci_chan0 a n Ha) as (ch & Hc & Hs). destruct (E2 n ch Hc) as (ch' & Hc' & [? ? Hs']). eauto.
  - intros b n Hb _. destruct (ci_chan0 b n Hb) as (ch & Hc & _). destruct (E2 n ch Hc) as (ch' & Hc' & [? Hcl _]). unfold open_chan. rewrite Hc, Hc'. by rewrite Hcl.
Qed.

Lemma ChI_owned c cm a n : ChI c cm -> cm !! a = Some (Some n) -> exists ch, Channel.w_chans c !! n = Some ch /\ Channel.senders_ ch = [] /\ Channel.owned_chan n c = Val ch.
Proof.
  intros [] Ha. destruct (ci_chan0 a n Ha) as (ch & Hc & Hs). exists ch. split; [done|]. split; [done|]. eapply owned_chan_Some; [done|]. by eapply co_owner; [apply ci_wf0|].
Qed.

Lemma ChI_send c cm a n v : ChI c cm -> cm !! a = Some (Some n) -> open_chan n c = true ->
  exists b c', Channel.TrySend n v c = Val (b, c') /\ ChI c' cm /\ same_flags None c c' cm.
Proof.
  intros H Ha Ho. apply open_chan_Some in Ho as (ch & Hc & Hcl). destruct (TrySend_spec n ch v c (ci_wf _ _ H) Hc Hcl) as (b & c' & E & Hw & _). exists b, c'. split; [done|]. apply (ChI_calm _ _ _ H Hw). by eapply TrySend_calm.
Qed.

Lemma ChI_close c cm a n : ChI c cm -> cm !! a = Some (Some n) ->
  exists c', (ch ← Channel.owned_chan n c; if Channel.closed_ ch then Val c else Channel.Close n c) = Val c' /\
    ChI c' cm /\ open_chan n c' = false /\ same_flags (Some a) c c' cm.
Proof.
  intros H Ha. destruct (ChI_owned _ _ _ _ H Ha) as (ch & Hc & Hs & Ho). rewrite Ho. cbn. destruct (Channel.closed_ ch) eqn:Hcl.
  { exists c. split; [done|]. split; [done|]. split; [unfold open_chan; by rewrite Hc, Hcl | done]. }
  destruct (Close_spec n ch c (ci_wf _ _ H) Hc Hcl Hs) as (c' & ch' & E & Hw & Hc' & Hcl' & _). exists c'. split; [done|]. destruct (Close_frame _ _ _ _ Hc Hs E) as [E1 E2]. destruct H. split; [|split].
  - split; [done | congruence | | done]. intros b k Hb. destruct (ci_chan0 b k Hb) as (ch0 & Hc0 & Hs0). destruct (E2 k ch0 Hc0) as (ch1 & Hc1 & _ & Hs1 & _). eauto.
  - unfold open_chan. by rewrite Hc', Hcl'.
  - intros b k Hb Hne. destruct (ci_chan0 b k Hb) as (ch0 & Hc0 & Hs0). destruct (E2 k ch0 Hc0) as (ch1 & Hc1 & _ & _ & Hcl1). rewrite decide_False in Hcl1. { unfold open_chan. by rewrite Hc0, Hc1, Hcl1. } intros ->. destruct Hne. f_equal. by eapply ci_inj0.
Qed.

Lemma wf_outs (c : Channel.world Z) f : wf c -> wf (Channel.set_outs f c).
Proof. intros [[] Hok]. split; [by split | done]. Qed.

Lemma ChI_discard c cm a n : ChI c cm -> cm !! a = Some (Some n) ->
  exists c', (ch ← Channel.owned_chan n c; if Channel.closed_ ch then Val c else
      let stale := fresh (dom (Channel.w_outs c)) in
      '(_, c) ← Channel.TryReceive n stale (Channel.put_out stale None c); Val (Channel.set_outs (delete stale) c)) = Val c' /\
    ChI c' cm /\ same_flags None c c' cm.
Proof.
  intros H Ha. destruct (ChI_owned _ _ _ _ H Ha) as (ch & Hc & Hs & Ho). rewrite Ho. cbn. destruct (Channel.closed_ ch) eqn:Hcl; [by exists c|].
  set (stale := fresh _). set (c1 := Channel.put_out stale None c). assert (wf c1) as Hw1 by apply (wf_outs _ _ (ci_wf _ _ H)). destruct (TryReceive_spec n ch stale c1 Hw1 Hc) as (b & c2 & E & Hw2 & _). rewrite E. cbn.
  eexists. split; [done|]. apply ChI_calm; [done | by apply wf_outs |]. eapply (calm_trans _ c1); [by apply calm_env|]. eapply calm_trans; [by eapply TryReceive_calm | by apply calm_env].
Qed.

Lemma ChI_new c cm a n ch : ChI c cm -> cm !! a = None -> op_ok (ONewChannel n 1) c = true -> Channel.new_chan scheduler 1 = Val ch ->
  ChI (Channel.put_chan n ch c) (<[a := Some n]> cm) /\ open_chan n (Channel.put_chan n ch c) = true /\ same_flags None c (Channel.put_chan n ch c) cm.
Proof.
  intros H Ha Ho E. cbn in Ho. apply andb_true_iff in Ho as [Ho Htr]. apply andb_true_iff in Ho as [Ho _]. apply andb_true_iff in Ho as [Ho _]. apply absent_None in Ho. destruct (fresh_trace n _ Htr) as [T1 T2].
  destruct (new_chan_ring (T := Z) scheduler 1 ltac:(unfold Channel.kMaxCapacity; lia)) as (ch' & E' & Hr & _ & Hsc & Hs & Hq & Hcl). assert (ch' = ch) as -> by congruence.
  assert (forall b k, cm !! b = Some (Some k) -> k <> n) as Hne. { intros b k Hb ->. destruct (ci_chan _ _ H b n Hb) as (? & ? & _). congruence. }
  split; [|split].
  - pose proof H as []. split.
    + eapply fresh_chan_spec; try done. congruence.
    + done.
    + intros b k Hb. destruct (decide (b = a)) as [->|Hb']; [rewrite lookup_insert_eq in Hb; injection Hb as ->; exists ch; split; [apply lookup_insert_eq | done]|]. rewrite lookup_insert_ne in Hb by done. destruct (ci_chan0 b k Hb) as (ch0 & Hc0 & Hs0). exists ch0. split; [|done]. rewrite <- Hc0. apply lookup_insert_ne. intros ->. by eapply Hne.
    + intros b b' k. destruct (decide (b = a)) as [->|Hb]; [rewrite lookup_insert_eq|rewrite lookup_insert_ne by done]; (destruct (decide (b' = a)) as [->|Hb']; [rewrite ?lookup_insert_eq|rewrite ?lookup_insert_ne by done]); intros E1 E2; try done; [|  |by eapply ci_inj0].
      * injection E1 as ->. by destruct (Hne _ _ E2).
      * injection E2 as ->. by destruct (Hne _ _ E1).
  - unfold open_chan. cbn. rewrite lookup_insert_eq. by rewrite Hcl.
  - intros b k Hb _. unfold open_chan. cbn. rewrite lookup_insert_ne; [done|]. intros ->. by eapply Hne.
Qed.

Lemma ChI_destroy c cm a n : ChI c cm -> cm !! a = Some (Some n) -> open_chan n c = false ->
  exists c', Channel.destroy_chan n c = Val c' /\ ChI c' (delete a cm) /\ same_flags (Some a) c c' cm.
Proof.
  intros H Ha Ho. destruct (ChI_owned _ _ _ _ H Ha) as (ch & Hc & Hs & _). unfold open_chan in Ho. rewrite Hc in Ho. apply negb_false_iff in Ho. destruct (destroy_chan_spec n ch c (ci_wf _ _ H) Hc Ho) as (c' & E & Hw & Hd & _). exists c'. split; [done|].
  assert (Channel.w_current c' = Channel.w_current c) as Hcur. { revert E. unfold Channel.destroy_chan. intros (x & _ & E)%bind_Val. apply bind_Val in E as (? & _ & E). apply bind_Val in E as (? & _ & E). by injection E as <-. }
  destruct H. split.
  - split; [done | congruence | |].
    + intros b k Hb. apply lookup_delete_Some in Hb as [Hne Hb]. destruct (ci_chan0 b k Hb) as (ch0 & Hc0 & Hs0). exists ch0. split; [|done]. rewrite Hd, lookup_delete_ne; [done|]. intros ->. by apply Hne, (ci_inj0 a b k).
    + intros b b' k Hb Hb'. apply lookup_delete_Some in Hb as [_ Hb]. apply lookup_delete_Some in Hb' as [_ Hb']. by eapply ci_inj0.
  - intros b k Hb Hne. unfold open_chan. rewrite Hd, lookup_delete_ne; [done|]. intros ->. apply Hne. f_equal. by eapply ci_inj0.
Qed.

(** ** The invariant *)

Definition tmap (us : gmap Z user) : gmap Z (Z * Z) := (fun u => (timer_of u, deadline u)) <$> us.
Definition rmap (c : Channel.world Z) (us : gmap Z user) : gmap Z bool := registered c <$> us.

(** How a sleep may end: not before its time, or by the loop's stop. *)
Definition ended (stop : bool) (now : Z) (s : SleepAwaiter) : Prop :=
  match result_ s with Ok _ => started s + delay_ s <= now | Err e => e = Errno ECANCELED /\ stop = true end.

(** A sleeper that is suspended waits for its timer or is queued, never both. *)
Definition loc (stop : bool) (now : Z) (u : user) : Prop :=
  match u with
  | Sleeper s =>
      (sleep_timer_ s <> Timers.kInvalid -> is_Some (continuation_ s) /\ continuation_pending_ s = false) /\
      (continuation_pending_ s = true -> is_Some (continuation_ s) /\ sleep_timer_ s = Timers.kInvalid /\ ended stop now s) /\
      (is_Some (continuation_ s) -> sleep_timer_ s <> Timers.kInvalid \/ continuation_pending_ s = true) /\
      (continuation_ s = None -> result_ s = Ok tt)
  | Ticking _ => True
  end.

Definition fin_ok (stop : bool) (x : slept) : Prop :=
  match sl_result x with
  | Ok _ => sl_started x + sl_delay x <= sl_finished x
  | Err e => e = Errno ECANCELED /\ stop = true \/ uring = true
  end.

Record FinI (stop : bool) (fin : list slept) (us : gmap Z user) (names : gset Z) : Prop := {
  fi_nodup : NoDup (sl_who <$> fin);
  fi_gone x : x ∈ fin -> us !! sl_who x = None /\ sl_who x ∈ names;
  fi_used a : is_Some (us !! a) -> a ∈ names;
  fi_ok : Forall (fin_ok stop) fin;
}.

Record inv (ps : list Z) (w : world) : Prop := {
  iv_reg : RegI ps (nodes w) (rmap (chans w) (users w));
  iv_tim : TimI (timers w) (callbacks w) (tmap (users w));
  iv_wrk : WrkI (work w) (pend <$> users w);
  iv_ch : ChI (chans w) (chan_of <$> users w);
  iv_loc a u : users w !! a = Some u -> loc (stopping w) (SteadyNow (timers w)) u;
  iv_open a u : users w !! a = Some u -> timer_of u <> Timers.kInvalid -> registered (chans w) u = true;
  iv_fin : FinI (stopping w) (finished w) (users w) (used w);
}.

Lemma user_fmap_same {A} (f : user -> A) (us : gmap Z user) a u u' : us !! a = Some u -> f u' = f u -> f <$> <[a := u']> us = f <$> us.
Proof. intros Ha E. rewrite fmap_insert, E. apply insert_id. by rewrite lookup_fmap, Ha. Qed.

(** Registration changes with the flag of a channel only. *)
Lemma rmap_frame c c' us : same_flags None c c' (chan_of <$> us) -> rmap c' us = rmap c us.
Proof.
  intros H. unfold rmap. apply map_fmap_ext. intros a u Ha. destruct u as [s|t]; [done|]. cbn. apply (H a); [by rewrite lookup_fmap, Ha | done].
Qed.
Lemma rmap_close c c' us a t : us !! a = Some (Ticking t) -> same_flags (Some a) c c' (chan_of <$> us) -> open_chan (channel_ t) c' = false -> rmap c' us = <[a := false]> (rmap c us).
Proof.
  intros Ha H Ho. unfold rmap. apply map_eq. intros b. destruct (decide (b = a)) as [->|Hb]; [rewrite lookup_insert_eq, lookup_fmap, Ha; cbn; by rewrite Ho|]. rewrite lookup_insert_ne, !lookup_fmap by done. destruct (us !! b) as [u|] eqn:E; [|done]. cbn. f_equal. destruct u as [s|t']; [done|]. cbn. apply (H b); [by rewrite lookup_fmap, E | by intros [= ->]].
Qed.

Lemma FinI_insert stop fin us names a u : FinI stop fin us names -> is_Some (us !! a) -> FinI stop fin (<[a := u]> us) names.
Proof.
  intros [] Ha. split; [done | | | done].
  - intros x Hx. destruct (fi_gone0 x Hx) as [E ?]. split; [|done]. rewrite lookup_insert_ne; [done|]. intros ->. rewrite E in Ha. by destruct Ha.
  - intros b. rewrite lookup_insert_is_Some. intros [<-|[_ Hb]]; auto.
Qed.
Lemma FinI_delete stop fin us names a : FinI stop fin us names -> FinI stop fin (delete a us) names.
Proof.
  intros []. split; [done | | | done].
  - intros x Hx. destruct (fi_gone0 x Hx) as [E ?]. split; [|done]. apply lookup_delete_None. by right.
  - intros b [_ Hb]%lookup_delete_is_Some. auto.
Qed.
Lemma FinI_new stop fin us names a u : FinI stop fin us names -> a ∉ names -> FinI stop fin (<[a := u]> us) ({[a]} ∪ names).
Proof.
  intros [] Ha. split; [done | | | done].
  - intros x Hx. destruct (fi_gone0 x Hx) as [E ?]. split; [|set_solver]. rewrite lookup_insert_ne; [done|]. intros ->. done.
  - intros b. rewrite lookup_insert_is_Some. intros [<-|[_ Hb]]; set_solver.
Qed.

Lemma inv_registered ps w a u : inv ps w -> users w !! a = Some u -> a ∈ ps <-> registered (chans w) u = true.
Proof. intros H Ha. rewrite (ri_in _ _ _ (iv_reg _ _ H)). unfold rmap. rewrite lookup_fmap, Ha. cbn. split; [by intros [= ->] | by intros ->]. Qed.
Lemma inv_InList ps w a u : inv ps w -> users w !! a = Some u -> InList (nodes w) a = Val (registered (chans w) u).
Proof. intros H Ha. eapply RegI_InList; [apply (iv_reg _ _ H)|]. unfold rmap. by rewrite lookup_fmap, Ha. Qed.
Lemma inv_user_of_ps ps w a : inv ps w -> a ∈ ps -> exists u, users w !! a = Some u /\ registered (chans w) u = true.
Proof. intros H. rewrite (ri_in _ _ _ (iv_reg _ _ H)). unfold rmap. rewrite lookup_fmap. destruct (users w !! a) as [u|]; [|done]. cbn. intros [= E]. eauto. Qed.

End inv.

#[global] Arguments rmap : simpl never.
#[global] Arguments tmap : simpl never.

End TimerUsersInv.
