(* ===== verification/TimerUsersSteps.v ===== *)
(** * Every operation of sleepers and timers keeps the invariant *)

From S2P Require Import Prelude IntrusiveList LoopShutdown Timers Channel ChannelRing ChannelOps ChannelProps TimerUsers TimerUsersInv.

Module TimerUsersSteps.
Import IntrusiveList LoopShutdown TimerUsers ChannelFrame TimerUsersInv.

Section steps.
Context `{TS : TimerService} {refuses : bool} `{!TimerServiceLaws refuses}.
Context (uring : bool) (registry : Z) (scheduler : nat).

Local Abbreviation inv := (inv (refuses := refuses) uring registry scheduler).
Local Abbreviation RegI := (RegI registry).
Local Abbreviation ChI := (ChI scheduler).

(** What no operation of a user changes; once the loop stops, nothing registers. *)
Definition kept (ps ps' : list Z) (w w' : world) : Prop :=
  stopping w' = stopping w /\ shutdown_started_ w' = shutdown_started_ w /\ (stopping w = true -> ps' ⊆ ps).

Definition goes (ps : list Z) (w : world) (m : outcome world) : Prop :=
  exists w' ps', m = Val w' /\ inv ps' w' /\ kept ps ps' w w'.

Lemma kept_trans ps1 ps2 ps3 w1 w2 w3 : kept ps1 ps2 w1 w2 -> kept ps2 ps3 w2 w3 -> kept ps1 ps3 w1 w3.
Proof. intros (A1 & A2 & A3) (B1 & B2 & B3). split; [congruence|]. split; [congruence|]. intros H. rewrite A1 in B3. set_solver. Qed.

Lemma get_sleep_eq w a s : users w !! a = Some (Sleeper s) -> get_sleep w a = Val s.
Proof. intros H. unfold get_sleep. by rewrite H. Qed.
Lemma get_timer_eq w a t : users w !! a = Some (Ticking t) -> get_timer w a = Val t.
Proof. intros H. unfold get_timer. by rewrite H. Qed.

Lemma valid_iff id : Timers.TimerId_Valid id = true <-> id <> Timers.kInvalid.
Proof. unfold Timers.TimerId_Valid. by rewrite negb_true_iff, Z.eqb_neq. Qed.
Lemma invalid_iff id : Timers.TimerId_Valid id = false <-> id = Timers.kInvalid.
Proof. unfold Timers.TimerId_Valid. by rewrite negb_false_iff, Z.eqb_eq. Qed.

Lemma idle_of us a u : us !! a = Some u -> timer_of u = Timers.kInvalid -> idle_timer (tmap us) a.
Proof. intros Ha E id e. unfold tmap. rewrite lookup_fmap, Ha. cbn. intros [= <- <-]. done. Qed.
Lemma tmap_lookup us a u : us !! a = Some u -> tmap us !! a = Some (timer_of u, deadline u).
Proof. intros Ha. unfold tmap. by rewrite lookup_fmap, Ha. Qed.
Lemma rmap_lookup c us a u : us !! a = Some u -> rmap c us !! a = Some (registered c u).
Proof. intros Ha. unfold rmap. by rewrite lookup_fmap, Ha. Qed.

(** Computes the fields of an updated world. *)
Ltac fields := unfold cancel, put, set_work, set_nodes, set_users, set_timers, set_chans, set_ghost, set_stop; cbn.

(** Time does not undo the end of a sleep. *)
Lemma loc_mono stop now now' u : now <= now' -> loc stop now u -> loc stop now' u.
Proof. intros Hn. destruct u as [s|t]; [|done]. intros (H1 & H2 & H3 & H4). split; [done|]. split; [|done]. intros Hp. destruct (H2 Hp) as (? & ? & He). split; [done|]. split; [done|]. unfold ended in *. destruct (result_ s); [lia | done]. Qed.
Lemma loc_stop stop now u : loc stop now u -> loc true now u.
Proof. destruct u as [s|t]; [|done]. intros (H1 & H2 & H3 & H4). split; [done|]. split; [|done]. intros Hp. destruct (H2 Hp) as (? & ? & He). split; [done|]. split; [done|]. unfold ended in *. destruct (result_ s); [done | naive_solver]. Qed.

(** ** A sleep ends *)

Definition done_sleep (s : SleepAwaiter) (r : ResultE unit) : SleepAwaiter := mkSleep (delay_ s) r (continuation_ s) Timers.kInvalid true (started s).

Lemma settle_inv l1 a l2 w s t' h' r : inv (l1 ++ a :: l2) w -> users w !! a = Some (Sleeper s) -> sleep_timer_ s <> Timers.kInvalid ->
  (forall e', TimI (refuses := refuses) t' (delete (sleep_timer_ s) (callbacks w)) (<[a := (Timers.kInvalid, e')]> (tmap (users w)))) -> SteadyNow t' = SteadyNow (timers w) ->
  RegI (l1 ++ l2) h' (<[a := false]> (rmap (chans w) (users w))) -> ended (stopping w) (SteadyNow (timers w)) (done_sleep s r) ->
  inv (l1 ++ l2) (mkWorld h' t' (delete (sleep_timer_ s) (callbacks w)) (<[a := Sleeper (done_sleep s r)]> (users w)) (work w ++ [a]) (chans w) (stopping w) (shutdown_started_ w) (finished w) (used w)).
Proof.
  intros [] Ha Hv Ht Hnow Hreg Hend. destruct (iv_loc0 _ _ Ha) as (L1 & L2 & L3 & L4). destruct (L1 Hv) as [Hc Hp]. split; cbn.
  - unfold rmap in *. rewrite fmap_insert. cbn. done.
  - unfold tmap in *. rewrite fmap_insert. cbn. apply Ht.
  - rewrite fmap_insert. cbn. apply WrkI_push; [done|]. rewrite lookup_fmap, Ha. cbn. by rewrite Hp.
  - by rewrite (user_fmap_same _ _ _ _ _ Ha).
  - intros b u. destruct (decide (b = a)) as [->|Hb]; [rewrite lookup_insert_eq; intros [= <-] | rewrite lookup_insert_ne by done; rewrite Hnow; apply iv_loc0]. rewrite Hnow. cbn. split; [done|]. split; [done|]. split; [by right | by intros E; rewrite E in Hc; destruct Hc].
  - intros b u. destruct (decide (b = a)) as [->|Hb]; [rewrite lookup_insert_eq; intros [= <-]; done | rewrite lookup_insert_ne by done; apply iv_open0].
  - apply FinI_insert; [done | by eexists].
Qed.

Lemma Schedule_eq w a s : users w !! a = Some (Sleeper s) -> is_Some (continuation_ s) -> a ∉ work w -> Schedule uring w a = Val (set_work w (work w ++ [a])).
Proof. intros Ha Hc Hn. unfold Schedule. rewrite (get_sleep_eq _ _ _ Ha). cbn. destruct uring; [by rewrite bool_decide_false|]. by rewrite !bool_decide_true. Qed.

(** [Complete] of a sleeper that is registered, whether its timer fired or not. *)
Lemma Complete_eq w a s h' r : users w !! a = Some (Sleeper s) -> is_Some (continuation_ s) -> a ∉ work w -> InList (nodes w) a = Val true -> UnregisterShutdownParticipant true (nodes w) a = Val h' ->
  Complete uring w a r = Val (mkWorld h' (if Timers.TimerId_Valid (sleep_timer_ s) then CancelTimer (timers w) (sleep_timer_ s) else timers w)
    (if Timers.TimerId_Valid (sleep_timer_ s) then delete (sleep_timer_ s) (callbacks w) else callbacks w)
    (<[a := Sleeper (done_sleep s r)]> (users w)) (work w ++ [a]) (chans w) (stopping w) (shutdown_started_ w) (finished w) (used w)).
Proof.
  intros Ha Hc Hn Hi Hu. unfold Complete. rewrite (get_sleep_eq _ _ _ Ha). cbn [mbind outcome_bind]. unfold ReleaseTimer, unregister_if, unregister. rewrite (get_sleep_eq _ a (with_result s r)) by apply lookup_insert_eq. cbn [mbind outcome_bind with_result sleep_timer_].
  destruct (Timers.TimerId_Valid (sleep_timer_ s)) eqn:Hv; cbn [nodes cancel put set_users set_timers]; rewrite Hi; cbn [mbind outcome_bind]; rewrite Hu; cbn [mbind outcome_bind].
  - erewrite get_sleep_eq by (cbn; apply lookup_insert_eq). cbn [mbind outcome_bind]. erewrite Schedule_eq; [|cbn; apply lookup_insert_eq | done | done]. fields. by rewrite !insert_insert_eq.
  - erewrite get_sleep_eq by (cbn; apply lookup_insert_eq). cbn [mbind outcome_bind]. erewrite Schedule_eq; [|cbn; apply lookup_insert_eq | done | done]. fields. rewrite !insert_insert_eq. apply invalid_iff in Hv. unfold done_sleep, with_pending. cbn. by rewrite Hv.
Qed.

Lemma sleeper_not_queued ps w a s : inv ps w -> users w !! a = Some (Sleeper s) -> continuation_pending_ s = false -> a ∉ work w.
Proof. intros H Ha Hp. rewrite (wi_in _ _ (iv_wrk _ _ _ _ _ H)), lookup_fmap, Ha. cbn. rewrite Hp. done. Qed.

(** The sleepers are still there. *)
Definition stay (w w' : world) : Prop :=
  forall b s, users w !! b = Some (Sleeper s) -> exists s', users w' !! b = Some (Sleeper s') /\ continuation_ s' = continuation_ s.

Lemma stay_trans w1 w2 w3 : stay w1 w2 -> stay w2 w3 -> stay w1 w3.
Proof. intros H1 H2 b s Hb. destruct (H1 b s Hb) as (s1 & Hb1 & E1). destruct (H2 b s1 Hb1) as (s2 & Hb2 & E2). exists s2. split; [done | congruence]. Qed.
Lemma stay_insert w w' a u : users w' = <[a := u]> (users w) ->
  (forall s, users w !! a = Some (Sleeper s) -> exists s', u = Sleeper s' /\ continuation_ s' = continuation_ s) -> stay w w'.
Proof. intros E H b s Hb. rewrite E. destruct (decide (b = a)) as [->|Hne]; [destruct (H s Hb) as (s' & -> & ?); exists s'; by rewrite lookup_insert_eq | exists s; by rewrite lookup_insert_ne]. Qed.

Lemma stop_sleeper_spec l1 a l2 w s : inv (l1 ++ a :: l2) w -> users w !! a = Some (Sleeper s) -> stopping w = true ->
  exists w', Complete uring w a canceled = Val w' /\ inv (l1 ++ l2) w' /\ kept (l1 ++ a :: l2) (l1 ++ l2) w w' /\ stay w w'.
Proof.
  intros H Ha Hst. assert (registered (chans w) (Sleeper s) = true) as Hr by (apply (inv_registered _ _ _ _ _ _ _ H Ha); set_solver). pose proof Hr as Hv. cbn in Hv. pose proof (proj1 (valid_iff _) Hv) as Hv'. destruct (iv_loc _ _ _ _ _ H _ _ Ha) as (L1 & _). destruct (L1 Hv') as [Hc Hp].
  destruct (RegI_unregister _ _ _ _ _ _ (iv_reg _ _ _ _ _ H)) as (h' & Hu & Hreg). pose proof (inv_InList _ _ _ _ _ _ _ H Ha) as Hi. rewrite Hr in Hi. rewrite (Complete_eq w a s h' canceled Ha Hc (sleeper_not_queued _ _ _ _ H Ha Hp) Hi Hu), Hv.
  eexists. split; [done|]. split; [|split; [split; [done|]; split; [done | set_solver] | eapply stay_insert; [done|]; intros s0 Hs0; exists (done_sleep s canceled); split; [done | cbn; congruence]]]. pose proof (tmap_lookup _ _ _ Ha) as Hm. eapply settle_inv; try done.
  - intros e'. exact (proj1 (TimI_cancel _ _ _ _ _ _ e' (iv_tim _ _ _ _ _ H) Hm Hv')).
  - exact (proj2 (TimI_cancel _ _ _ _ _ _ 0 (iv_tim _ _ _ _ _ H) Hm Hv')).
Qed.

Lemma on_timer_spec ps w t' a s : inv ps w -> users w !! a = Some (Sleeper s) -> sleep_timer_ s <> Timers.kInvalid -> deadline (Sleeper s) <= SteadyNow (timers w) -> SteadyNow t' = SteadyNow (timers w) ->
  (forall e', TimI (refuses := refuses) t' (delete (sleep_timer_ s) (callbacks w)) (<[a := (Timers.kInvalid, e')]> (tmap (users w)))) ->
  goes ps w (on_timer uring (set_timers w t' (delete (sleep_timer_ s) (callbacks w))) a).
Proof.
  intros H Ha Hv Hd Hnow Ht. assert (registered (chans w) (Sleeper s) = true) as Hr by (by apply valid_iff). pose proof (inv_InList _ _ _ _ _ _ _ H Ha) as Hi. rewrite Hr in Hi. apply (inv_registered _ _ _ _ _ _ _ H Ha) in Hr as (l1 & l2 & ->)%list_elem_of_split.
  destruct (iv_loc _ _ _ _ _ H _ _ Ha) as (L1 & _). destruct (L1 Hv) as [Hc Hp]. destruct (RegI_unregister _ _ _ _ _ _ (iv_reg _ _ _ _ _ H)) as (h' & Hu & Hreg). pose proof (sleeper_not_queued _ _ _ _ H Ha Hp) as Hn.
  unfold on_timer. erewrite get_sleep_eq by done. cbn [mbind outcome_bind]. erewrite Complete_eq; [|cbn; apply lookup_insert_eq | done | done | done | done]. cbn. rewrite insert_insert_eq.
  eexists _, (l1 ++ l2). split; [done|]. split; [|split; [done|]; split; [done | set_solver]]. apply (settle_inv _ _ _ _ _ _ _ (if stopping w then canceled else Ok tt) H Ha Hv Ht Hnow Hreg). unfold ended. cbn. by destruct (stopping w).
Qed.

(** ** A sleeper goes away *)

Lemma gone_inv ps w a u fin q : inv ps w -> users w !! a = Some u -> timer_of u = Timers.kInvalid -> registered (chans w) u = false -> chan_of u = None ->
  WrkI q (delete a (pend <$> users w)) -> FinI uring (stopping w) fin (delete a (users w)) (used w) ->
  inv ps (mkWorld (delete a (nodes w)) (timers w) (callbacks w) (delete a (users w)) q (chans w) (stopping w) (shutdown_started_ w) fin (used w)).
Proof.
  intros [] Ha Ht Hr Hc Hq Hf. split; cbn.
  - unfold rmap in *. rewrite fmap_delete. apply RegI_drop; [done|]. by rewrite lookup_fmap, Ha; cbn; rewrite Hr.
  - unfold tmap in *. rewrite fmap_delete. apply TimI_delete; [done|]. by eapply idle_of.
  - by rewrite fmap_delete.
  - rewrite fmap_delete. destruct iv_ch0. split; [done | done | |].
    + intros b n [_ Hb]%lookup_delete_Some. by eapply ci_chan0.
    + intros b b' n [_ Hb]%lookup_delete_Some [_ Hb']%lookup_delete_Some. by eapply ci_inj0.
  - intros b v [_ Hb]%lookup_delete_Some. by eapply iv_loc0.
  - intros b v [_ Hb]%lookup_delete_Some. by eapply iv_open0.
  - done.
Qed.

Lemma FinI_finish stop fin us names x : FinI uring stop fin us names -> is_Some (us !! sl_who x) -> fin_ok uring stop x -> FinI uring stop (fin ++ [x]) (delete (sl_who x) us) names.
Proof.
  intros H Hx Hok. pose proof (fi_used _ _ _ _ _ H _ Hx) as Hu. pose proof (FinI_delete _ _ _ _ _ (sl_who x) H) as []. split.
  - rewrite fmap_app. apply NoDup_app. split; [done|]. split; [|apply NoDup_singleton]. intros a (y & -> & Hy)%list_elem_of_fmap Ha%list_elem_of_singleton. destruct (fi_gone _ _ _ _ _ H y Hy) as [E _]. rewrite Ha in E. rewrite E in Hx. by destruct Hx.
  - intros y [Hy|Hy%list_elem_of_singleton]%elem_of_app; [by apply fi_gone0|]. subst y. split; [apply lookup_delete_eq | done].
  - done.
  - apply Forall_app. split; [done | by constructor].
Qed.

Lemma finish_eq w a s : users w !! a = Some (Sleeper s) -> sleep_timer_ s = Timers.kInvalid -> InList (nodes w) a = Val false ->
  finish w a = Val (mkWorld (delete a (nodes w)) (timers w) (callbacks w) (delete a (users w)) (work w) (chans w) (stopping w) (shutdown_started_ w)
    (finished w ++ [mkSlept a (delay_ s) (started s) (SteadyNow (timers w)) (result_ s)]) (used w)).
Proof.
  intros Ha Ht Hi. unfold finish, await_resume. rewrite (get_sleep_eq _ _ _ Ha). cbn [mbind outcome_bind]. unfold destroy_sleep, ReleaseTimer, unregister_if. erewrite get_sleep_eq by (cbn; apply lookup_insert_eq). cbn [mbind outcome_bind with_pending continuation_pending_ negb ALYRN_CHECK sleep_timer_]. rewrite (proj2 (invalid_iff _) Ht).
  cbn [nodes put set_users set_ghost]. rewrite Hi. cbn [mbind outcome_bind]. fields. by rewrite delete_insert_eq.
Qed.

Lemma run_work_spec ps w : inv ps w -> goes ps w (run_work w).
Proof.
  intros H. unfold run_work. destruct (work w) as [|a q] eqn:Eq; [by exists w, ps|]. pose proof (iv_wrk _ _ _ _ _ H) as Hw. rewrite Eq in Hw. destruct (WrkI_pop _ _ _ Hw) as [Hp Hq]. rewrite lookup_fmap in Hp. destruct (users w !! a) as [[s|t]|] eqn:Ha; [|done..]. cbn in Hp. injection Hp as Hp.
  destruct (iv_loc _ _ _ _ _ H _ _ Ha) as (L1 & L2 & _). destruct (L2 Hp) as (Hc & Ht & He). pose proof (inv_InList _ _ _ _ _ _ _ H Ha) as Hi. cbn in Hi. rewrite (proj2 (invalid_iff _) Ht) in Hi.
  rewrite (finish_eq (set_work w q) a s Ha Ht Hi). eexists _, ps. split; [done|]. split; [|done]. cbn. eapply gone_inv; try done; [by cbn; apply invalid_iff | |].
  - rewrite <- (delete_insert_eq _ a false). apply WrkI_delete; [done|]. by rewrite lookup_insert_eq.
  - apply (FinI_finish _ _ _ _ (mkSlept a _ _ _ _)); [apply H | by eexists |]. unfold ended in He. unfold fin_ok. cbn. destruct (result_ s); naive_solver.
Qed.

(** ** Awaiting *)

Lemma fresh_sleeper ps w a s : inv ps w -> users w !! a = Some (Sleeper s) -> continuation_ s = None ->
  sleep_timer_ s = Timers.kInvalid /\ continuation_pending_ s = false /\ result_ s = Ok tt /\ InList (nodes w) a = Val false /\ a ∉ ps.
Proof.
  intros H Ha Hc. destruct (iv_loc _ _ _ _ _ H _ _ Ha) as (L1 & L2 & _ & L4). assert (sleep_timer_ s = Timers.kInvalid) as Ht. { destruct (decide (sleep_timer_ s = Timers.kInvalid)) as [?|Hv]; [done|]. destruct (L1 Hv) as [[? ?] _]. congruence. }
  assert (continuation_pending_ s = false) as Hp. { apply not_true_iff_false. intros Hp. destruct (L2 Hp) as [[? ?] _]. congruence. }
  assert (registered (chans w) (Sleeper s) = false) as Hr by (by cbn; apply invalid_iff). split_and!; [done | done | by apply L4 | rewrite (inv_InList _ _ _ _ _ _ _ H Ha); by rewrite Hr | rewrite (inv_registered _ _ _ _ _ _ _ H Ha); by rewrite Hr].
Qed.

(** A co_await that does not suspend. *)
Lemma inline_spec ps w a s s1 r : inv ps w -> users w !! a = Some (Sleeper s) -> continuation_ s = None ->
  s1 = mkSleep (delay_ s) r None Timers.kInvalid false (SteadyNow (timers w)) ->
  fin_ok uring (stopping w) (mkSlept a (delay_ s) (SteadyNow (timers w)) (SteadyNow (timers w)) r) -> goes ps w (finish (put w a (Sleeper s1)) a).
Proof.
  intros H Ha Hc -> Hok. destruct (fresh_sleeper _ _ _ _ H Ha Hc) as (Ht & Hp & _ & Hi & _). erewrite finish_eq; [|cbn; apply lookup_insert_eq | done | done]. cbn. rewrite delete_insert_eq. eexists _, ps. split; [done|]. split; [|done].
  eapply gone_inv; try done; [by cbn; apply invalid_iff | |].
  - apply WrkI_delete; [apply H|]. rewrite lookup_fmap, Ha. cbn. by rewrite Hp.
  - apply (FinI_finish _ _ _ _ (mkSlept a _ _ _ _)); [apply H | by eexists | done].
Qed.

Definition waiting (s : SleepAwaiter) (id handle now : Z) : SleepAwaiter := mkSleep (delay_ s) (Ok tt) (Some handle) id false now.

Lemma suspended_inv ps w a s id handle t' h' : inv ps w -> users w !! a = Some (Sleeper s) -> continuation_ s = None ->
  RunAt (timers w) (SteadyNow (timers w) + delay_ s) = (t', Ok id) -> RegI (ps ++ [a]) h' (<[a := true]> (rmap (chans w) (users w))) ->
  inv (ps ++ [a]) (mkWorld h' t' (<[id := a]> (callbacks w)) (<[a := Sleeper (waiting s id handle (SteadyNow (timers w)))]> (users w)) (work w) (chans w) (stopping w) (shutdown_started_ w) (finished w) (used w)).
Proof.
  intros H Ha Hc HR Hreg. destruct (fresh_sleeper _ _ _ _ H Ha Hc) as (Ht & Hp & _ & Hi & _). destruct (TimI_arm _ _ _ a _ _ _ (iv_tim _ _ _ _ _ H) (idle_of _ _ _ Ha Ht) HR) as (Hti & Hnow & Hid). destruct H. split; cbn.
  - unfold rmap in *. rewrite fmap_insert. cbn. by rewrite (proj2 (valid_iff _) Hid).
  - unfold tmap in *. rewrite fmap_insert. cbn. done.
  - rewrite (user_fmap_same _ _ _ _ _ Ha); [done | by cbn; rewrite Hp].
  - by rewrite (user_fmap_same _ _ _ _ _ Ha).
  - intros b u. rewrite Hnow. destruct (decide (b = a)) as [->|Hb]; [rewrite lookup_insert_eq; intros [= <-]; cbn; naive_solver | rewrite lookup_insert_ne by done; apply iv_loc0].
  - intros b u. destruct (decide (b = a)) as [->|Hb]; [rewrite lookup_insert_eq; intros [= <-] _; by apply valid_iff | rewrite lookup_insert_ne by done; apply iv_open0].
  - apply FinI_insert; [done | by eexists].
Qed.

Lemma refused_inv ps w t' : inv ps w -> TimI (refuses := refuses) t' (callbacks w) (tmap (users w)) -> SteadyNow t' = SteadyNow (timers w) -> inv ps (set_timers w t' (callbacks w)).
Proof. intros [] Ht Hn. split; try done. cbn. by rewrite Hn. Qed.

Lemma co_await_spec ps w a s handle : (refuses = true -> uring = true) -> inv ps w -> users w !! a = Some (Sleeper s) -> continuation_ s = None -> handle <> nullptr -> goes ps w (co_await uring registry scheduler w a handle).
Proof.
  intros Hbackend H Ha Hc Hh. destruct (fresh_sleeper _ _ _ _ H Ha Hc) as (Ht & Hp & Hres & Hi & Hps). pose proof (ci_current _ _ _ (iv_ch _ _ _ _ _ H)) as Hcur.
  assert (stopping w = true -> goes ps w (finish (put w a (Sleeper (with_result (awaited_at s (SteadyNow (timers w))) canceled))) a)) as Hstop.
  { intros Hst. eapply inline_spec; [done | done | done | unfold with_result, awaited_at; cbn; by rewrite Hc, Ht, Hp |]. left. by rewrite Hst. }
  assert (delay_ s <= 0 -> goes ps w (finish (put w a (Sleeper (awaited_at s (SteadyNow (timers w))))) a)) as Hzero.
  { intros Hz. eapply inline_spec; [done | done | done | unfold awaited_at; cbn; by rewrite Hc, Ht, Hp |]. rewrite Hres. cbn. lia. }
  destruct (RegI_register _ _ _ _ a (iv_reg _ _ _ _ _ H)) as (h' & Hr & Hreg); [rewrite (rmap_lookup _ _ _ _ Ha); cbn; f_equal; by apply invalid_iff|].
  unfold co_await. destruct (Bool.bool_dec uring true) as [Eu|Eu].
  - assert (await_suspend uring registry scheduler w a handle = uring_await_suspend registry scheduler w a handle) as -> by (unfold await_suspend; by rewrite Eu). unfold uring_await_suspend. rewrite (get_sleep_eq _ _ _ Ha). cbn [mbind outcome_bind]. destruct (stopping w) eqn:Hst; [by apply Hstop|]. cbn [awaited_at delay_]. destruct (Z.leb_spec (delay_ s) 0) as [Hz|Hz]; [by apply Hzero|].
    rewrite bool_decide_true by done. cbn [ALYRN_CHECK mbind outcome_bind]. unfold run_after, run_at. destruct (RunAt (timers w) (SteadyNow (timers w) + delay_ s)) as [t' [id|e]] eqn:HR.
    + unfold register. cbn [nodes put set_users set_timers]. rewrite Hr. cbn [mbind outcome_bind]. eexists _, (ps ++ [a]). split; [done|]. split; [|split; [done|]; split; [done | cbn; congruence]]. fields. unfold with_handle, with_timer. cbn. rewrite Hres, Hp. by apply (suspended_inv ps w a s id handle t' h' H Ha Hc HR Hreg).
    + destruct (TimI_refused _ _ _ _ _ _ (iv_tim _ _ _ _ _ H) HR) as (Hti & Hnow & _). pose proof (refused_inv _ _ _ H Hti Hnow) as H1. cbn [mbind outcome_bind]. destruct (inline_spec ps _ a s (with_result (awaited_at s (SteadyNow (timers w))) (Err e)) (Err e) H1 Ha Hc) as (w' & ps' & E & H2 & H3); [unfold with_result, awaited_at; cbn; by rewrite Hc, Ht, Hp, Hnow | by right|]. exists w', ps'. split; [exact E|]. split; [done|]. destruct H3 as (? & ? & ?). by split.
  - apply not_true_iff_false in Eu. assert (await_suspend uring registry scheduler w a handle = epoll_await_suspend registry scheduler w a handle) as -> by (unfold await_suspend; by rewrite Eu). unfold epoll_await_suspend. rewrite (get_sleep_eq _ _ _ Ha). cbn [mbind outcome_bind]. destruct (stopping w) eqn:Hst; [by apply Hstop|]. cbn [awaited_at delay_]. destruct (Z.leb_spec (delay_ s) 0) as [Hz|Hz]; [by apply Hzero|].
    rewrite !bool_decide_true by done. rewrite (proj2 (Z.eqb_neq _ _) Hh). cbn [ALYRN_CHECK mbind outcome_bind negb]. unfold register. cbn [nodes put set_users]. rewrite Hr. cbn [mbind outcome_bind]. unfold run_after, run_at. cbn [timers set_nodes put set_users with_handle awaited_at delay_]. destruct (RunAt (timers w) (SteadyNow (timers w) + delay_ s)) as [t' [id|e]] eqn:HR.
    + eexists _, (ps ++ [a]). split; [done|]. split; [|split; [done|]; split; [done | cbn; congruence]]. fields. rewrite insert_insert_eq. unfold with_handle, with_timer. cbn. rewrite Hres, Hp. by apply (suspended_inv ps w a s id handle t' h' H Ha Hc HR Hreg).
    + destruct (TimI_refused _ _ _ _ _ _ (iv_tim _ _ _ _ _ H) HR) as (_ & _ & Hf). specialize (Hbackend Hf). congruence.
Qed.

(** ** Making and dropping an awaiter *)

Definition unused (w : world) (a : Z) : Prop := a ∉ used w /\ a <> registry /\ a <> nullptr.

Lemma unused_None ps w a : inv ps w -> unused w a -> users w !! a = None.
Proof. intros H (Hu & _). apply eq_None_not_Some. intros Hs. by apply Hu, (fi_used _ _ _ _ _ (iv_fin _ _ _ _ _ H)). Qed.

Lemma new_sleep_spec ps w a delay : inv ps w -> unused w a -> goes ps w (Val (new_sleep w a delay)).
Proof.
  intros H Hu. pose proof (unused_None _ _ _ H Hu) as Ha. destruct Hu as (Hu & Hr & Hz). eexists _, ps. split; [done|]. split; [|done]. destruct H. unfold new_sleep. split; fields.
  - unfold rmap in *. rewrite fmap_insert. cbn. apply RegI_new; try done. by rewrite lookup_fmap, Ha.
  - unfold tmap in *. rewrite fmap_insert. apply TimI_idle; [done|]. intros id e. by rewrite lookup_fmap, Ha.
  - rewrite fmap_insert. cbn. apply WrkI_same; [done|]. by rewrite lookup_fmap, Ha.
  - rewrite fmap_insert. cbn. destruct iv_ch0. split; [done | done | |].
    + intros b n. destruct (decide (b = a)) as [->|Hb]; [by rewrite lookup_insert_eq | rewrite lookup_insert_ne by done; apply ci_chan0].
    + intros b b' n. destruct (decide (b = a)) as [->|Hb]; [by rewrite lookup_insert_eq|]. destruct (decide (b' = a)) as [->|Hb']; [by rewrite lookup_insert_eq|]. rewrite !lookup_insert_ne by done. apply ci_inj0.
  - intros b u. destruct (decide (b = a)) as [->|Hb]; [rewrite lookup_insert_eq; intros [= <-] | rewrite lookup_insert_ne by done; apply iv_loc0]. cbn. split; [done|]. split; [done|]. split; [by intros [] | done].
  - intros b u. destruct (decide (b = a)) as [->|Hb]; [rewrite lookup_insert_eq; intros [= <-]; done | rewrite lookup_insert_ne by done; apply iv_open0].
  - by apply FinI_new.
Qed.

Lemma drop_sleep_spec ps w a s : inv ps w -> users w !! a = Some (Sleeper s) -> continuation_pending_ s = false -> goes ps w (destroy_sleep w a).
Proof.
  intros H Ha Hp. unfold destroy_sleep, ReleaseTimer, unregister_if, unregister. rewrite (get_sleep_eq _ _ _ Ha). cbn [mbind outcome_bind]. rewrite Hp. cbn [negb ALYRN_CHECK mbind outcome_bind]. pose proof (inv_InList _ _ _ _ _ _ _ H Ha) as Hi. cbn in Hi.
  destruct (Timers.TimerId_Valid (sleep_timer_ s)) eqn:Hv; cbn [cancel put nodes set_users set_timers]; rewrite Hi; cbn [mbind outcome_bind].
  - assert (a ∈ ps) as (l1 & l2 & ->)%list_elem_of_split by (by apply (inv_registered _ _ _ _ _ _ _ H Ha)). pose proof (proj1 (valid_iff _) Hv) as Hv'. destruct (RegI_unregister _ _ _ _ _ _ (iv_reg _ _ _ _ _ H)) as (h' & Hu & Hreg). rewrite Hu. cbn [mbind outcome_bind].
    destruct (TimI_cancel _ _ _ _ _ _ 0 (iv_tim _ _ _ _ _ H) (tmap_lookup _ _ _ Ha) Hv') as [Ht Hnow].
    eexists _, (l1 ++ l2). split; [done|]. split; [|split; [done|]; split; [done | set_solver]]. fields. rewrite delete_insert_eq. destruct H. split; cbn.
    + unfold rmap in *. rewrite fmap_delete, <- (delete_insert_eq _ a false). apply RegI_drop; [done | apply lookup_insert_eq].
    + unfold tmap in *. rewrite fmap_delete, <- (delete_insert_eq _ a (Timers.kInvalid, 0)). apply TimI_delete; [done|]. intros id e. rewrite lookup_insert_eq. by intros [= <- _].
    + rewrite fmap_delete. apply WrkI_delete; [done|]. rewrite lookup_fmap, Ha. cbn. by rewrite Hp.
    + rewrite fmap_delete. destruct iv_ch0. split; [done | done | |].
      * intros b n [_ Hb]%lookup_delete_Some. by eapply ci_chan0.
      * intros b b' n [_ Hb]%lookup_delete_Some [_ Hb']%lookup_delete_Some. by eapply ci_inj0.
    + intros b v [_ Hb]%lookup_delete_Some. cbn in Hnow; rewrite Hnow. by eapply iv_loc0.
    + intros b v [_ Hb]%lookup_delete_Some. by eapply iv_open0.
    + by apply FinI_delete.
  - eexists _, ps. split; [done|]. split; [|done]. fields. apply (gone_inv ps w a (Sleeper s) (finished w) (work w) H Ha); try done; [by apply invalid_iff | | by apply FinI_delete, H].
    apply WrkI_delete; [apply H|]. rewrite lookup_fmap, Ha. cbn. by rewrite Hp.
Qed.

(** ** Timers and tickers *)

Lemma tick_inv ps w a t t' : inv ps w -> users w !! a = Some (Ticking t) -> channel_ t' = channel_ t -> channel_timer_ t = Timers.kInvalid -> channel_timer_ t' = Timers.kInvalid -> inv ps (put w a (Ticking t')).
Proof.
  intros [] Ha Hc Ht Ht'. split; cbn; try done.
  - unfold rmap in *. rewrite (user_fmap_same _ _ _ _ _ Ha); [done | cbn; by rewrite Hc].
  - unfold tmap in *. rewrite fmap_insert. cbn. rewrite Ht'. apply TimI_idle; [done|]. by eapply idle_of.
  - by rewrite (user_fmap_same _ _ _ _ _ Ha).
  - rewrite (user_fmap_same _ _ _ _ _ Ha); [done | cbn; by rewrite Hc].
  - intros b u. destruct (decide (b = a)) as [->|Hb]; [rewrite lookup_insert_eq; by intros [= <-] | rewrite lookup_insert_ne by done; apply iv_loc0].
  - intros b u. destruct (decide (b = a)) as [->|Hb]; [rewrite lookup_insert_eq; by intros [= <-] | rewrite lookup_insert_ne by done; apply iv_open0].
  - apply FinI_insert; [done | by eexists].
Qed.

(** The timer of [a] is gone from the queue. *)
Lemma disarmed_inv ps w a t t' : inv ps w -> users w !! a = Some (Ticking t) -> SteadyNow t' = SteadyNow (timers w) ->
  (forall e', TimI (refuses := refuses) t' (delete (channel_timer_ t) (callbacks w)) (<[a := (Timers.kInvalid, e')]> (tmap (users w)))) ->
  inv ps (put (set_timers w t' (delete (channel_timer_ t) (callbacks w))) a (Ticking (with_channel_timer t Timers.kInvalid))).
Proof.
  intros [] Ha Hnow Ht. split; fields.
  - unfold rmap in *. by rewrite (user_fmap_same _ _ _ _ _ Ha).
  - unfold tmap in *. rewrite fmap_insert. apply Ht.
  - by rewrite (user_fmap_same _ _ _ _ _ Ha).
  - by rewrite (user_fmap_same _ _ _ _ _ Ha).
  - intros b u. rewrite Hnow. destruct (decide (b = a)) as [->|Hb]; [rewrite lookup_insert_eq; by intros [= <-] | rewrite lookup_insert_ne by done; apply iv_loc0].
  - intros b u. destruct (decide (b = a)) as [->|Hb]; [rewrite lookup_insert_eq; by intros [= <-] | rewrite lookup_insert_ne by done; apply iv_open0].
  - apply FinI_insert; [done | by eexists].
Qed.

(** The same user, in the same places. *)
Definition same_place (w w' : world) (a : Z) : Prop :=
  nodes w' = nodes w /\ SteadyNow (timers w') = SteadyNow (timers w) /\ stopping w' = stopping w /\ shutdown_started_ w' = shutdown_started_ w.

Lemma Disarm_spec ps w a t : inv ps w -> users w !! a = Some (Ticking t) ->
  exists w', Disarm w a = Val w' /\ inv ps w' /\ users w' !! a = Some (Ticking (with_channel_timer t Timers.kInvalid)) /\ chans w' = chans w /\ same_place w w' a /\ stay w w'.
Proof.
  intros H Ha. unfold Disarm. rewrite (get_timer_eq _ _ _ Ha). cbn [mbind outcome_bind]. destruct (Timers.TimerId_Valid (channel_timer_ t)) eqn:Hv.
  - apply valid_iff in Hv. pose proof (tmap_lookup _ _ _ Ha) as Hm. pose proof (fun e' => TimI_cancel _ _ _ _ _ _ e' (iv_tim _ _ _ _ _ H) Hm Hv) as Hc. eexists. split; [done|]. split; [|split; [apply lookup_insert_eq | split; [done|]; split; [split; [done|]; split; [apply (Hc 0) | done] | eapply stay_insert; [done|]; intros s0 Hs0; congruence]]].
    apply (disarmed_inv ps w a t (CancelTimer (timers w) (channel_timer_ t)) H Ha); [apply (Hc 0) | intros e'; apply Hc].
  - apply invalid_iff in Hv. exists w. split; [done|]. split; [done|]. split; [|split; [done|]; split; [done|]; intros b s Hb; by exists s]. rewrite Ha. destruct t. cbn in *. by subst.
Qed.

Lemma RunOnOwner_eq w cm f c' : ChI (chans w) cm -> f (chans w) = Val c' -> Channel.w_current c' = Some scheduler -> RunOnOwner scheduler w f = Val (set_chans w c').
Proof.
  intros H E Hc. unfold RunOnOwner. rewrite (set_current_id _ _ _ H), E. cbn. rewrite (ci_current _ _ _ H). destruct c'. cbn in *. by subst.
Qed.

Lemma CloseChannel_spec w a t : ChI (chans w) (chan_of <$> users w) -> users w !! a = Some (Ticking t) ->
  exists c', CloseChannel scheduler w a = Val (set_chans w c') /\ ChI c' (chan_of <$> users w) /\ rmap c' (users w) = <[a := false]> (rmap (chans w) (users w)) /\ open_chan (channel_ t) c' = false.
Proof.
  intros H Ha. destruct (ChI_close _ _ _ a (channel_ t) H) as (c' & E & H' & Ho & Hs); [by rewrite lookup_fmap, Ha|]. exists c'. split; [|split; [done|]; split; [by eapply rmap_close | done]].
  unfold CloseChannel. rewrite (get_timer_eq _ _ _ Ha). cbn [mbind outcome_bind]. eapply RunOnOwner_eq; [done | exact E | apply H'].
Qed.

(** A closed channel needs no closing. *)
Lemma CloseChannel_closed w a t : ChI (chans w) (chan_of <$> users w) -> users w !! a = Some (Ticking t) -> open_chan (channel_ t) (chans w) = false -> CloseChannel scheduler w a = Val w.
Proof.
  intros H Ha Ho. destruct (ChI_owned _ _ _ a (channel_ t) H) as (ch & Hc & _ & Hown); [by rewrite lookup_fmap, Ha|]. unfold open_chan in Ho. rewrite Hc in Ho. apply negb_false_iff in Ho.
  unfold CloseChannel. rewrite (get_timer_eq _ _ _ Ha). cbn [mbind outcome_bind]. rewrite (RunOnOwner_eq _ _ _ (chans w) H); [by destruct w | by rewrite Hown; cbn; rewrite Ho | apply H].
Qed.

(** A channel world with the same channels of users, one of them closed perhaps. *)
Lemma chans_inv ps w c' h' ps' : inv ps w -> ChI c' (chan_of <$> users w) -> RegI ps' h' (rmap c' (users w)) ->
  (forall a u, users w !! a = Some u -> timer_of u <> Timers.kInvalid -> registered c' u = true) -> inv ps' (set_chans (set_nodes w h') c').
Proof. intros [] Hc Hr Ho. by split. Qed.

Lemma set_nodes_id w : set_nodes w (nodes w) = w.
Proof. by destruct w. Qed.

Lemma frame_inv ps w c' : inv ps w -> ChI c' (chan_of <$> users w) -> same_flags None (chans w) c' (chan_of <$> users w) -> inv ps (set_chans w c').
Proof.
  intros H Hc Hs. rewrite <- (set_nodes_id w). apply (chans_inv _ _ _ _ _ H Hc); [rewrite (rmap_frame _ _ _ Hs); apply H|].
  intros a u Ha Ht. pose proof (rmap_frame _ _ _ Hs) as E. pose proof (rmap_lookup c' _ _ _ Ha) as E1. rewrite E, (rmap_lookup _ _ _ _ Ha) in E1. injection E1 as <-. by apply (iv_open _ _ _ _ _ H _ _ Ha).
Qed.

(** A timer leaves the registry and closes its channel. *)
Lemma retire_spec l1 a l2 w t : inv (l1 ++ a :: l2) w -> users w !! a = Some (Ticking t) -> channel_timer_ t = Timers.kInvalid ->
  exists w', (w1 ← unregister w a; CloseChannel scheduler w1 a) = Val w' /\ inv (l1 ++ l2) w' /\ users w' = users w /\ open_chan (channel_ t) (chans w') = false /\ stopping w' = stopping w /\ shutdown_started_ w' = shutdown_started_ w.
Proof.
  intros H Ha Ht. destruct (RegI_unregister _ _ _ _ _ _ (iv_reg _ _ _ _ _ H)) as (h' & Hu & Hreg). unfold unregister. rewrite Hu. cbn [mbind outcome_bind].
  destruct (CloseChannel_spec (set_nodes w h') a t (iv_ch _ _ _ _ _ H) Ha) as (c' & E & Hc & Hm & Ho). rewrite E. eexists. split; [done|]. split; [|done].
  eapply chans_inv; [exact H | done | cbn in Hm; by rewrite Hm |]. intros b u Hb Hv. pose proof (rmap_lookup c' _ _ _ Hb) as E1. cbn in Hm. rewrite Hm in E1. destruct (decide (b = a)) as [->|Hne]; [rewrite Ha in Hb; injection Hb as <-; done|]. rewrite lookup_insert_ne, (rmap_lookup _ _ _ _ Hb) in E1 by done. injection E1 as <-. by apply (iv_open _ _ _ _ _ H _ _ Hb).
Qed.

Lemma armed_inv ps w a t id t' : inv ps w -> users w !! a = Some (Ticking t) -> channel_timer_ t = Timers.kInvalid -> registered (chans w) (Ticking t) = true -> RunAt (timers w) (next_fire_ t) = (t', Ok id) ->
  inv ps (put (set_timers w t' (<[id := a]> (callbacks w))) a (Ticking (with_channel_timer t id))).
Proof.
  intros H Ha Ht Hr HR. destruct (TimI_arm _ _ _ a _ _ _ (iv_tim _ _ _ _ _ H) (idle_of _ _ _ Ha Ht) HR) as (Hti & Hnow & Hid). destruct H. split; fields.
  - unfold rmap in *. by rewrite (user_fmap_same _ _ _ _ _ Ha).
  - unfold tmap in *. rewrite fmap_insert. apply Hti.
  - by rewrite (user_fmap_same _ _ _ _ _ Ha).
  - by rewrite (user_fmap_same _ _ _ _ _ Ha).
  - intros b u. rewrite Hnow. destruct (decide (b = a)) as [->|Hb]; [rewrite lookup_insert_eq; by intros [= <-] | rewrite lookup_insert_ne by done; apply iv_loc0].
  - intros b u. destruct (decide (b = a)) as [->|Hb]; [rewrite lookup_insert_eq; by intros [= <-] | rewrite lookup_insert_ne by done; apply iv_open0].
  - apply FinI_insert; [done | by eexists].
Qed.

Lemma Arm_spec ps w a t when : inv ps w -> users w !! a = Some (Ticking t) -> channel_timer_ t = Timers.kInvalid -> registered (chans w) (Ticking t) = true ->
  exists w' ps', Arm scheduler w a when = Val w' /\ inv ps' w' /\ ps' ⊆ ps /\ stopping w' = stopping w /\ shutdown_started_ w' = shutdown_started_ w.
Proof.
  intros H Ha Ht Hr. unfold Arm. rewrite (get_timer_eq _ _ _ Ha). cbn [mbind outcome_bind]. pose proof (tick_inv ps w a t (with_next t when) H Ha eq_refl Ht Ht) as H1. set (w1 := put w a (Ticking (with_next t when))) in *. assert (users w1 !! a = Some (Ticking (with_next t when))) as Ha1 by apply lookup_insert_eq.
  unfold run_at. destruct (RunAt (timers w1) when) as [t' [id|e]] eqn:HR.
  - eexists _, ps. split; [done|]. split; [|done]. by apply (armed_inv ps w1 a (with_next t when) id t' H1 Ha1).
  - destruct (TimI_refused _ _ _ _ _ _ (iv_tim _ _ _ _ _ H1) HR) as (Hti & Hnow & _). pose proof (refused_inv _ _ _ H1 Hti Hnow) as H2. assert (a ∈ ps) as (l1 & l2 & ->)%list_elem_of_split by (by apply (inv_registered _ _ _ _ _ _ _ H Ha)).
    unfold unregister_if. cbn [nodes set_timers]. pose proof (inv_InList _ _ _ _ _ _ _ H1 Ha1) as Hi. cbn in Hi, Hr. cbn [nodes put set_users w1]. rewrite Hi, Hr. cbn [mbind outcome_bind].
    destruct (retire_spec _ _ _ _ _ H2 Ha1 Ht) as (w' & E & H' & _ & _ & E1 & E2). exists w', (l1 ++ l2). split; [exact E|]. split; [done|]. split; [set_solver | done].
Qed.

Lemma Fire_spec ps w a t t' : inv ps w -> users w !! a = Some (Ticking t) -> channel_timer_ t <> Timers.kInvalid -> SteadyNow t' = SteadyNow (timers w) ->
  (forall e', TimI (refuses := refuses) t' (delete (channel_timer_ t) (callbacks w)) (<[a := (Timers.kInvalid, e')]> (tmap (users w)))) ->
  goes ps w (Fire scheduler (set_timers w t' (delete (channel_timer_ t) (callbacks w))) a).
Proof.
  intros H Ha Hv Hnow Ht. pose proof (disarmed_inv ps w a t t' H Ha Hnow Ht) as H1. pose proof (iv_open _ _ _ _ _ H _ _ Ha Hv) as Ho. cbn in Ho. unfold Fire. erewrite get_timer_eq by done. cbn [mbind outcome_bind with_channel_timer channel_ period_ next_fire_ chans set_timers].
  destruct (ChI_send _ _ _ a (channel_ t) (SteadyNow (timers (set_timers w t' (delete (channel_timer_ t) (callbacks w))))) (iv_ch _ _ _ _ _ H)) as (b & c' & E & Hc & Hs); [by rewrite lookup_fmap, Ha | done |]. rewrite E. cbn [mbind outcome_bind].
  assert (chan_of <$> users (put w a (Ticking (with_channel_timer t Timers.kInvalid))) = chan_of <$> users w) as Ec by (cbn; by rewrite (user_fmap_same _ _ _ _ _ Ha)).
  pose proof (frame_inv ps _ c' H1 ltac:(cbn in *; by rewrite Ec) ltac:(cbn in *; by rewrite Ec)) as H2.
  match type of H2 with inv _ ?x => set (w2 := x) in * end.
  assert (users w2 !! a = Some (Ticking (with_channel_timer t Timers.kInvalid))) as Ha2 by apply lookup_insert_eq.
  assert (registered (chans w2) (Ticking (with_channel_timer t Timers.kInvalid)) = true) as Hr2 by (cbn; rewrite (Hs a _); [done | by rewrite lookup_fmap, Ha | done]).
  destruct (0 <? period_ t).
  - destruct (Arm_spec ps w2 a _ (if next_fire_ t + period_ t <=? SteadyNow (timers w2) then SteadyNow (timers w2) + period_ t else next_fire_ t + period_ t) H2 Ha2 eq_refl Hr2) as (w' & ps' & E' & H' & Hsub & F1 & F2). exists w', ps'. split; [exact E'|]. split; [done|]. split; [done|]. split; [done|]. by intros _.
  - exists w2, ps. split; [done|]. split; [done|]. by split.
Qed.

Lemma Discard_spec ps w a t : inv ps w -> users w !! a = Some (Ticking t) ->
  exists c', DiscardUnreceived scheduler w a = Val (set_chans w c') /\ inv ps (set_chans w c') /\ open_chan (channel_ t) c' = open_chan (channel_ t) (chans w).
Proof.
  intros H Ha. destruct (ChI_discard _ _ _ a (channel_ t) (iv_ch _ _ _ _ _ H)) as (c' & E & Hc & Hs); [by rewrite lookup_fmap, Ha|]. exists c'. split; [|split; [by apply frame_inv | apply (Hs a); [by rewrite lookup_fmap, Ha | done]]].
  unfold DiscardUnreceived. rewrite (get_timer_eq _ _ _ Ha). cbn [mbind outcome_bind]. eapply RunOnOwner_eq; [apply H | exact E | apply Hc].
Qed.

Lemma StopFiring_spec ps w a t : inv ps w -> users w !! a = Some (Ticking t) ->
  exists w', StopFiring scheduler w a = Val (w', Timers.TimerId_Valid (channel_timer_ t)) /\ inv ps w' /\ users w' !! a = Some (Ticking (with_channel_timer t Timers.kInvalid)) /\
    stopping w' = stopping w /\ shutdown_started_ w' = shutdown_started_ w.
Proof.
  intros H Ha. unfold StopFiring. rewrite (get_timer_eq _ _ _ Ha). cbn [mbind outcome_bind]. destruct (Disarm_spec _ _ _ _ H Ha) as (w1 & -> & H1 & Ha1 & _ & E & _). cbn [mbind outcome_bind]. destruct (Discard_spec _ _ _ _ H1 Ha1) as (c' & -> & H2 & _). cbn [mbind outcome_bind].
  eexists. split; [done|]. split; [done|]. split; [done|]. by destruct E as (_ & _ & ? & ?).
Qed.

Lemma stop_timer_goes ps w a t : inv ps w -> users w !! a = Some (Ticking t) -> goes ps w ('(w, _) ← StopFiring scheduler w a; Val w).
Proof. intros H Ha. destruct (StopFiring_spec _ _ _ _ H Ha) as (w' & -> & H' & _ & E1 & E2). cbn. exists w', ps. split; [done|]. split; [done|]. by split. Qed.

Lemma Rearm_spec ps w a t delay period : inv ps w -> users w !! a = Some (Ticking t) -> goes ps w (Rearm scheduler w a delay period).
Proof.
  intros H Ha. unfold Rearm. destruct (StopFiring_spec _ _ _ _ H Ha) as (w1 & -> & H1 & Ha1 & F1 & F2). cbn [mbind outcome_bind]. rewrite (get_timer_eq _ _ _ Ha1). cbn [mbind outcome_bind].
  pose proof (tick_inv ps w1 a _ (with_period (with_channel_timer t Timers.kInvalid) period) H1 Ha1 eq_refl eq_refl eq_refl) as H2. set (w2 := put w1 a _) in *. assert (users w2 !! a = Some (Ticking (with_period (with_channel_timer t Timers.kInvalid) period))) as Ha2 by apply lookup_insert_eq.
  rewrite (inv_InList _ _ _ _ _ _ _ H2 Ha2). cbn [mbind outcome_bind]. destruct (registered (chans w2) _) eqn:Hr.
  - destruct (Arm_spec ps w2 a _ (SteadyNow (timers w2) + delay) H2 Ha2 eq_refl Hr) as (w' & ps' & E & H' & Hs & G1 & G2). exists w', ps'. split; [exact E|]. split; [done|]. split; [cbn in G1; congruence|]. split; [cbn in G2; congruence|]. by intros _.
  - exists w2, ps. split; [done|]. split; [done|]. by split.
Qed.

Lemma OnLoopStop_spec l1 a l2 w t : inv (l1 ++ a :: l2) w -> users w !! a = Some (Ticking t) ->
  exists w', OnLoopStop scheduler w a = Val w' /\ inv (l1 ++ l2) w' /\ kept (l1 ++ a :: l2) (l1 ++ l2) w w' /\ stay w w'.
Proof.
  intros H Ha. unfold OnLoopStop. destruct (Disarm_spec _ _ _ _ H Ha) as (w1 & -> & H1 & Ha1 & _ & (_ & _ & F1 & F2) & Hst). cbn [mbind outcome_bind]. destruct (retire_spec _ _ _ _ _ H1 Ha1 eq_refl) as (w' & E & H' & Eu & _ & G1 & G2). exists w'. split; [exact E|]. split; [done|]. split; [split; [congruence|]; split; [congruence|]; set_solver|]. intros b s Hb. rewrite Eu. by apply Hst.
Qed.

Lemma destroy_timer_spec ps w a t : inv ps w -> users w !! a = Some (Ticking t) -> goes ps w (destroy_timer scheduler w a).
Proof.
  intros H Ha. unfold destroy_timer. destruct (Disarm_spec _ _ _ _ H Ha) as (w1 & -> & H1 & Ha1 & _ & (_ & _ & F1 & F2) & _). cbn [mbind outcome_bind]. set (t1 := with_channel_timer t Timers.kInvalid) in *.
  assert (exists w2 ps2, (w ← unregister_if w1 a; CloseChannel scheduler w a) = Val w2 /\ inv ps2 w2 /\ ps2 ⊆ ps /\ users w2 !! a = Some (Ticking t1) /\ open_chan (channel_ t1) (chans w2) = false /\ stopping w2 = stopping w1 /\ shutdown_started_ w2 = shutdown_started_ w1) as (w2 & ps2 & E & H2 & Hs & Ha2 & Ho & G1 & G2).
  { unfold unregister_if. rewrite (inv_InList _ _ _ _ _ _ _ H1 Ha1). cbn [mbind outcome_bind]. destruct (registered (chans w1) (Ticking t1)) eqn:Hr.
    - assert (a ∈ ps) as (l1 & l2 & ->)%list_elem_of_split by (by apply (inv_registered _ _ _ _ _ _ _ H1 Ha1)). destruct (retire_spec _ _ _ _ _ H1 Ha1 eq_refl) as (w2 & E & H2 & E2 & Ho & G1 & G2). exists w2, (l1 ++ l2). split; [exact E|]. split; [done|]. split; [set_solver|]. by rewrite E2.
    - exists w1, ps. cbn [mbind outcome_bind]. rewrite (CloseChannel_closed w1 a t1 (iv_ch _ _ _ _ _ H1) Ha1 Hr). done. }
  assert (forall f : world -> outcome world, (w3 ← unregister_if w1 a; w3 ← CloseChannel scheduler w3 a; f w3) = f w2) as Hb. { intros f. destruct (unregister_if w1 a) as [w3|]; [|done]. cbn in E |- *. by rewrite E. } rewrite Hb. rewrite (get_timer_eq _ _ _ Ha2). cbn [mbind outcome_bind].
  destruct (ChI_destroy _ _ _ a (channel_ t1) (iv_ch _ _ _ _ _ H2)) as (c' & Ed & Hc & Hf); [by rewrite lookup_fmap, Ha2 | done |]. rewrite Ed. cbn [mbind outcome_bind]. eexists _, ps2. split; [done|]. split; [|split; [cbn; congruence|]; split; [cbn; congruence|]; by intros _].
  assert (forall b u, users w2 !! b = Some u -> b <> a -> registered c' u = registered (chans w2) u) as Hreg. { intros b [s|t'] Hu Hne; [done|]. cbn. apply (Hf b); [by rewrite lookup_fmap, Hu | by intros [= ->]]. }
  assert (rmap c' (delete a (users w2)) = delete a (rmap (chans w2) (users w2))) as Hm. { unfold rmap. rewrite fmap_delete. apply map_eq. intros b. destruct (decide (b = a)) as [->|Hne]; [by rewrite !lookup_delete_eq|]. rewrite !lookup_delete_ne, !lookup_fmap by done. destruct (users w2 !! b) as [u|] eqn:Eb; [|done]. cbn. by rewrite (Hreg b). }
  destruct H2. split; fields.
  - rewrite Hm. apply RegI_drop; [done|]. rewrite (rmap_lookup _ _ _ _ Ha2). f_equal. exact Ho.
  - unfold tmap in *. rewrite fmap_delete. apply TimI_delete; [done|]. by eapply idle_of.
  - rewrite fmap_delete. apply WrkI_delete; [done|]. by rewrite lookup_fmap, Ha2.
  - by rewrite fmap_delete.
  - intros b u [_ Hu]%lookup_delete_Some. by eapply iv_loc0.
  - intros b u [Hne Hu]%lookup_delete_Some Hv. rewrite (Hreg b) by done. by eapply iv_open0.
  - by apply FinI_delete.
Qed.

(** A new timer, registered or with its channel closed. *)
Lemma born_inv ps ps' w a t h' c' : inv ps w -> users w !! a = None -> a ∉ used w -> channel_timer_ t = Timers.kInvalid ->
  ChI c' (<[a := Some (channel_ t)]> (chan_of <$> users w)) -> (forall b u, users w !! b = Some u -> registered c' u = registered (chans w) u) ->
  RegI ps' h' (<[a := open_chan (channel_ t) c']> (rmap (chans w) (users w))) ->
  inv ps' (mkWorld h' (timers w) (callbacks w) (<[a := Ticking t]> (users w)) (work w) c' (stopping w) (shutdown_started_ w) (finished w) ({[a]} ∪ used w)).
Proof.
  intros [] Ha Hu Ht Hc Hr Hreg. split; cbn.
  - replace (rmap c' (<[a := Ticking t]> (users w))) with (<[a := open_chan (channel_ t) c']> (rmap (chans w) (users w))); [done|]. unfold rmap. rewrite fmap_insert. cbn. f_equal. apply map_fmap_ext. intros b u Hb. by rewrite (Hr b).
  - unfold tmap in *. rewrite fmap_insert. cbn. rewrite Ht. apply TimI_idle; [done|]. intros id e. by rewrite lookup_fmap, Ha.
  - rewrite fmap_insert. cbn. apply WrkI_same; [done|]. by rewrite lookup_fmap, Ha.
  - by rewrite fmap_insert.
  - intros b u. destruct (decide (b = a)) as [->|Hb]; [rewrite lookup_insert_eq; by intros [= <-] | rewrite lookup_insert_ne by done; apply iv_loc0].
  - intros b u. destruct (decide (b = a)) as [->|Hb]; [rewrite lookup_insert_eq; by intros [= <-] | rewrite lookup_insert_ne by done]. intros Hb' Hv. rewrite (Hr b) by done. by eapply iv_open0.
  - by apply FinI_new.
Qed.

Lemma new_timer_spec ps w a c delay period : inv ps w -> unused w a -> op_ok (ONewChannel c 1) (chans w) = true -> goes ps w (new_timer registry scheduler w a c delay period).
Proof.
  intros H Hun Ho. pose proof (unused_None _ _ _ H Hun) as Ha. destruct Hun as (Hu & Hr & Hz). destruct (ChannelRing.new_chan_ring (T := Z) scheduler 1 ltac:(unfold Channel.kMaxCapacity; lia)) as (ch & E & _). unfold new_timer. rewrite E. cbn [mbind outcome_bind].
  destruct (ChI_new _ _ _ a c ch (iv_ch _ _ _ _ _ H)) as (Hc & Hop & Hf); [by rewrite lookup_fmap, Ha | done | done |]. set (c1 := Channel.put_chan c ch (chans w)) in *. set (t := mkTimer period c Timers.kInvalid 0).
  assert (RegI ps (<[a := mkNode nullptr nullptr]> (nodes w)) (<[a := false]> (rmap (chans w) (users w)))) as Hreg. { apply RegI_new; [apply H | by unfold rmap; rewrite lookup_fmap, Ha | done | done]. }
  assert (forall b u, users w !! b = Some u -> registered c1 u = registered (chans w) u) as Hs. { intros b [s|t'] Hb; [done|]. cbn. apply (Hf b); [by rewrite lookup_fmap, Hb | done]. }
  match goal with |- goes _ _ (if stopping ?x then _ else _) => set (w1 := x) in * end. assert (users w1 !! a = Some (Ticking t)) as Ha1 by apply lookup_insert_eq. assert (chan_of <$> users w1 = <[a := Some c]> (chan_of <$> users w)) as Ec by (cbn; by rewrite fmap_insert).
  destruct (stopping w1) eqn:Hst.
  - destruct (CloseChannel_spec w1 a t) as (c' & E' & Hc' & Hm & Hcl); [by rewrite Ec | done |]. rewrite E'. eexists _, ps. split; [done|]. split; [|split; [done|]; split; [done | by intros _]]. rewrite Ec in Hc'.
    apply (born_inv ps ps w a t _ c' H Ha Hu eq_refl Hc').
    + intros b u Hb. assert (b <> a) as Hne by congruence. rewrite <- (Hs b u Hb). assert (users w1 !! b = Some u) as Hb1 by (cbn; by rewrite lookup_insert_ne). pose proof (rmap_lookup c' _ _ _ Hb1) as X. rewrite Hm, lookup_insert_ne, (rmap_lookup _ _ _ _ Hb1) in X by done. by injection X.
    + by rewrite Hcl.
  - destruct (RegI_register _ _ _ _ a Hreg) as (h2 & Er & Hreg2); [apply lookup_insert_eq|]. rewrite insert_insert_eq in Hreg2. unfold register. cbn [nodes w1 set_ghost put set_users set_nodes set_chans]. rewrite Er. cbn [mbind outcome_bind].
    pose proof (born_inv ps (ps ++ [a]) w a t h2 c1 H Ha Hu eq_refl Hc Hs) as H2. rewrite (Hop : open_chan (channel_ t) c1 = true) in H2. specialize (H2 Hreg2). match type of H2 with inv _ ?x => set (w2 := x) in * end. assert (users w2 !! a = Some (Ticking t)) as Ha2 by apply lookup_insert_eq.
    destruct (Arm_spec _ w2 a t (SteadyNow (timers w2) + delay) H2 Ha2 eq_refl Hop) as (w' & ps' & E2 & H' & Hsub & G1 & G2). exists w', ps'. split; [exact E2|]. split; [done|]. split; [done|]. split; [done|]. cbn in Hst. congruence.
Qed.

(** ** The loop *)

Lemma expire_spec ps w : inv ps w -> goes ps w (expire uring scheduler w).
Proof.
  intros H. unfold expire. destruct (Expire (timers w)) as [[t' id]|] eqn:HE; [|by exists w, ps]. destruct (TimI_expire _ _ _ _ _ (iv_tim _ _ _ _ _ H) HE) as (a & e & Hcb & Hm & He & Hnow & Hid & Ht). rewrite Hcb. unfold tmap in Hm. rewrite lookup_fmap in Hm. destruct (users w !! a) as [[s|t]|] eqn:Ha; [| |done].
  - cbn in Hm. injection Hm as <- <-. cbn [users set_timers]. rewrite Ha. by apply on_timer_spec.
  - cbn in Hm. injection Hm as <- <-. cbn [users set_timers]. rewrite Ha. by apply Fire_spec.
Qed.

Lemma stop_user_spec l1 a l2 w : inv (l1 ++ a :: l2) w -> stopping w = true ->
  exists w', stop_user uring scheduler w a = Val w' /\ inv (l1 ++ l2) w' /\ kept (l1 ++ a :: l2) (l1 ++ l2) w w' /\ stay w w'.
Proof.
  intros H Hst. destruct (inv_user_of_ps _ _ _ _ _ a H) as (u & Ha & _); [set_solver|]. unfold stop_user. rewrite Ha. destruct u as [s|t]; [by eapply stop_sleeper_spec | by eapply OnLoopStop_spec].
Qed.

Lemma BeginShutdown_spec ps w : inv ps w -> stopping w = true -> (shutdown_started_ w = true -> ps = []) ->
  exists w', BeginShutdown uring registry scheduler w = Val w' /\ inv [] w' /\ stopping w' = true /\ shutdown_started_ w' = true /\ stay w w'.
Proof.
  intros H Hst Hs. unfold BeginShutdown. destruct (shutdown_started_ w) eqn:Hsd; [rewrite (Hs eq_refl) in H; exists w; split_and!; try done; intros b s Hb; by exists s|].
  set (w1 := set_stop w (stopping w) true). assert (inv ps w1) as H1 by (destruct H; by split).
  destruct (RequestStop_spec nodes (stop_user uring scheduler) registry (fun told kept rest w => inv rest w /\ kept = [] /\ stopping w = true /\ shutdown_started_ w = true /\ stay w1 w)) with (ps := ps) (w := w1) as (w' & kept' & E & H' & _ & F1 & F2 & F3).
  - intros told kept' rest w0 (H0 & -> & _). apply H0.
  - intros told kept' p rest w0 (H0 & -> & F1 & F2 & F3). destruct (stop_user_spec [] p rest w0 H0 F1) as (w' & E & H' & (G1 & G2 & _) & G3). exists w'. split; [done|]. left. split; [done|]. split; [done|]. split; [congruence|]. split; [congruence | by eapply stay_trans].
  - split; [done|]. split; [done|]. split; [done|]. split; [done|]. intros b s Hb. by exists s.
  - by exists w'.
Qed.

Lemma AskStop_inv ps w : inv ps w -> inv ps (set_stop w true (shutdown_started_ w)).
Proof.
  intros []. split; try done; cbn.
  - intros a u Ha. by apply (loc_stop (stopping w)), (iv_loc0 a).
  - destruct iv_fin0. split; try done. eapply Forall_impl; [done|]. intros x. unfold fin_ok. destruct (sl_result x); naive_solver.
Qed.

Lemma Advance_inv ps w ev : inv ps w -> inv ps (set_timers w (Advance (timers w) ev) (callbacks w)).
Proof.
  intros []. destruct (Advance_law (timers w) ev (ti_ok _ _ _ iv_tim0)) as (H1 & H2 & H3). split; try done; cbn.
  - destruct iv_tim0. split; [done | done |]. by rewrite H2.
  - intros a u Ha. eapply loc_mono; [exact H3 | by eapply iv_loc0].
Qed.

End steps.
End TimerUsersSteps.
