(* ===== verification/TimerUsersProps.v ===== *)
(** * Sleepers and timers: what every run of a loop guarantees

    Runs are sequences of steps of the clients, of the loop and of time. The timers are any
    [TimerService]; at the end, the agenda that both timer queues refine is one. *)

From S2P Require Import Prelude IntrusiveList LoopShutdown Timers Channel ChannelInv ChannelOps ChannelProps TimerAgenda EpollTimersProps UringTimers UringTimersProps TimerUsers TimerUsersInv TimerUsersSteps.

Module TimerUsersProps.
Import IntrusiveList LoopShutdown TimerUsers TimerUsersInv TimerUsersSteps.

Section runs.
Context `{TS : TimerService} {refuses : bool} `{!TimerServiceLaws refuses}.
Context (uring : bool) (registry : Z) (scheduler : nat).

Inductive step :=
| NewSleep (a delay : Z)
| AwaitSleep (a continuation : Z)
| DropSleep (a : Z)                              (* its coroutine is destroyed *)
| NewTimer (a : Z) (c : nat) (delay period : Z)
| StopTimer (a : Z)
| ResetTimer (a delay period : Z)
| DropTimer (a : Z)
| Receivers (o : ChannelProps.op Z)              (* the other users of channels *)
| RunWork
| TimerDue
| Pass (ev : ts_event)
| AskStop
| Shutdown.

Definition perform (st : step) (w : world) : outcome world :=
  match st with
  | NewSleep a delay => Val (new_sleep w a delay)
  | AwaitSleep a continuation => co_await uring registry scheduler w a continuation
  | DropSleep a => destroy_sleep w a
  | NewTimer a c delay period => new_timer registry scheduler w a c delay period
  | StopTimer a => '(w, _) ← StopFiring scheduler w a; Val w
  | ResetTimer a delay period => Rearm scheduler w a delay period
  | DropTimer a => destroy_timer scheduler w a
  | Receivers o => c ← run_op o (chans w); Val (set_chans w c)
  | RunWork => run_work w
  | TimerDue => expire uring scheduler w
  | Pass ev => Val (set_timers w (Advance (timers w) ev) (callbacks w))
  | AskStop => Val (set_stop w true (shutdown_started_ w))
  | Shutdown => BeginShutdown uring registry scheduler w
  end.

(** The channel of a timer is a private member: others receive from it, and nobody else
    sends on it, closes or destroys it. *)
Definition undisturbed (w : world) (c' : Channel.world Z) : bool :=
  bool_decide (Channel.w_current c' = Some scheduler) &&
  forallb (fun p => match p.2 with
    | Sleeper _ => true
    | Ticking t =>
        match Channel.w_chans (chans w) !! channel_ t, Channel.w_chans c' !! channel_ t with
        | Some ch, Some ch' => Bool.eqb (Channel.closed_ ch') (Channel.closed_ ch) && bool_decide (Channel.senders_ ch' = [])
        | _, _ => false
        end
    end) (map_to_list (users w)).

Definition is_sleeper (p : SleepAwaiter -> bool) (w : world) (a : Z) : bool := match users w !! a with Some (Sleeper s) => p s | _ => false end.
Definition is_timer (w : world) (a : Z) : bool := match users w !! a with Some (Ticking _) => true | _ => false end.
Definition new_name (w : world) (a : Z) : bool := bool_decide (a ∉ used w) && negb (a =? registry) && negb (a =? nullptr).

(** Objects have names of their own; an awaiter is awaited once; a frame whose continuation
    is queued is not destroyed; the loop shuts down after it was asked to stop. *)
Definition legal (st : step) (w : world) : bool :=
  match st with
  | NewSleep a _ => new_name w a
  | AwaitSleep a continuation => is_sleeper (fun s => bool_decide (continuation_ s = None)) w a && negb (continuation =? nullptr)
  | DropSleep a => is_sleeper (fun s => negb (continuation_pending_ s)) w a
  | NewTimer a c _ _ => new_name w a && op_ok (ONewChannel c 1) (chans w)
  | StopTimer a | ResetTimer a _ _ | DropTimer a => is_timer w a
  | Receivers o => op_ok o (chans w) && match run_op o (chans w) with Val c' => undisturbed w c' | Panic => true end
  | Shutdown => stopping w
  | _ => true
  end.

Definition start (t : ts) : world := mkWorld {[registry := mkNode registry registry]} t ∅ ∅ [] (ChannelProps.init scheduler) false false [] ∅.

Inductive reachable (t : ts) : world -> Prop :=
| reach_start : reachable t (start t)
| reach_perform st w w' : reachable t w -> legal st w = true -> perform st w = Val w' -> reachable t w'.

Fixpoint run (sts : list step) (w : world) : option world :=
  match sts with
  | [] => Some w
  | st :: sts => if legal st w then match perform st w with Val w => run sts w | Panic => None end else None
  end.

Lemma users_run_reachable t sts : forall w w', reachable t w -> run sts w = Some w' -> reachable t w'.
Proof.
  induction sts as [|st sts IH]; intros w w' Hr E; cbn in E; [by simplify_eq|]. destruct (legal st w) eqn:Hl; [|done]. destruct (perform st w) as [w1|] eqn:E1; [|done]. eapply IH; [|done]. by eapply reach_perform.
Qed.

Lemma run_default t sts (w := start t) : bool_decide (is_Some (run sts w)) = true -> reachable t (default w (run sts w)).
Proof. destruct (run sts w) as [w'|] eqn:E; [|by rewrite bool_decide_false by (by intros [])]. intros _. cbn. eapply users_run_reachable; [apply reach_start | exact E]. Qed.

(** ** Steps keep the invariant *)

Context (Hbackend : refuses = true -> uring = true).

Local Abbreviation inv := (inv (refuses := refuses) uring registry scheduler).

Definition good (w : world) : Prop := exists ps, inv ps w /\ (shutdown_started_ w = true -> ps = [] /\ stopping w = true).

Lemma goes_good ps w m : inv ps w -> (shutdown_started_ w = true -> ps = [] /\ stopping w = true) -> goes (refuses := refuses) uring registry scheduler ps w m -> exists w', m = Val w' /\ good w'.
Proof.
  intros H Hs (w' & ps' & E & H' & F1 & F2 & F3). exists w'. split; [done|]. exists ps'. split; [done|]. rewrite F1, F2. intros Hsd. destruct (Hs Hsd) as [-> Hst]. split; [|done]. specialize (F3 Hst). apply elem_of_nil_inv. set_solver.
Qed.

Lemma is_sleeper_Some p w a : is_sleeper p w a = true -> exists s, users w !! a = Some (Sleeper s) /\ p s = true.
Proof. unfold is_sleeper. destruct (users w !! a) as [[s|t]|]; [eauto | done | done]. Qed.
Lemma is_timer_Some w a : is_timer w a = true -> exists t, users w !! a = Some (Ticking t).
Proof. unfold is_timer. destruct (users w !! a) as [[s|t]|]; [done | eauto | done]. Qed.
Lemma new_name_unused w a : new_name w a = true -> unused registry w a.
Proof. unfold new_name. intros [[H1%bool_decide_eq_true H2%negb_true_iff%Z.eqb_neq]%andb_true_iff H3%negb_true_iff%Z.eqb_neq]%andb_true_iff. by split. Qed.

Lemma undisturbed_inv ps w c' : inv ps w -> wf c' -> undisturbed w c' = true -> inv ps (set_chans w c').
Proof.
  intros H Hw [Hc%bool_decide_eq_true Hall]%andb_true_iff. rewrite forallb_forall in Hall.
  assert (forall a t, users w !! a = Some (Ticking t) -> exists ch ch', Channel.w_chans (chans w) !! channel_ t = Some ch /\ Channel.w_chans c' !! channel_ t = Some ch' /\ Channel.closed_ ch' = Channel.closed_ ch /\ Channel.senders_ ch' = []) as Ht.
  { intros a t Ha. specialize (Hall (a, Ticking t)). cbn in Hall. rewrite <- list_elem_of_In, elem_of_map_to_list in Hall. specialize (Hall Ha). destruct (Channel.w_chans (chans w) !! channel_ t) as [ch|]; [|done]. destruct (Channel.w_chans c' !! channel_ t) as [ch'|]; [|done]. apply andb_true_iff in Hall as [E1%Bool.eqb_prop E2%bool_decide_eq_true]. eauto 10. }
  apply frame_inv; [done | |].
  - pose proof (iv_ch _ _ _ _ _ H) as []. split; [done | done | | done]. intros a n Ha. rewrite lookup_fmap in Ha. destruct (users w !! a) as [[s|t]|] eqn:E; [done | | done]. cbn in Ha. injection Ha as <-. destruct (Ht a t E) as (ch & ch' & _ & E' & _ & Hs). eauto.
  - intros a n Ha _. rewrite lookup_fmap in Ha. destruct (users w !! a) as [[s|t]|] eqn:E; [done | | done]. cbn in Ha. injection Ha as <-. destruct (Ht a t E) as (ch & ch' & E1 & E2 & E3 & _). unfold open_chan. by rewrite E1, E2, E3.
Qed.

Lemma perform_good st w : good w -> legal st w = true -> exists w', perform st w = Val w' /\ good w'.
Proof.
  intros (ps & H & Hs) Hl. destruct st; cbn in Hl |- *.
  - eapply goes_good; [done | done |]. apply new_sleep_spec; [done | by apply new_name_unused].
  - apply andb_true_iff in Hl as [(s & Ha & Hc%bool_decide_eq_true)%is_sleeper_Some Hh%negb_true_iff%Z.eqb_neq]. eapply goes_good; [done | done |]. by eapply co_await_spec.
  - apply is_sleeper_Some in Hl as (s & Ha & Hp%negb_true_iff). eapply goes_good; [done | done |]. by eapply drop_sleep_spec.
  - apply andb_true_iff in Hl as [Hn Ho]. eapply goes_good; [done | done |]. eapply new_timer_spec; eauto using new_name_unused.
  - apply is_timer_Some in Hl as (t & Ha). eapply goes_good; [done | done |]. by eapply stop_timer_goes.
  - apply is_timer_Some in Hl as (t & Ha). eapply goes_good; [done | done |]. by eapply Rearm_spec.
  - apply is_timer_Some in Hl as (t & Ha). eapply goes_good; [done | done |]. by eapply destroy_timer_spec.
  - apply andb_true_iff in Hl as [Ho Hu]. destruct (run_op_wf o (chans w) (ci_wf _ _ _ (iv_ch _ _ _ _ _ H)) Ho) as (c' & E & Hw). rewrite E in *. cbn. eexists. split; [done|]. exists ps. split; [|done]. by apply undisturbed_inv.
  - eapply goes_good; [done | done |]. by apply run_work_spec.
  - eapply goes_good; [done | done |]. by apply expire_spec.
  - eexists. split; [done|]. exists ps. split; [by apply Advance_inv | done].
  - eexists. split; [done|]. exists ps. split; [by apply AskStop_inv|]. cbn. intros Hsd. by destruct (Hs Hsd).
  - destruct (BeginShutdown_spec _ _ _ ps w H Hl) as (w' & E & H' & F1 & F2 & _); [by intros Hsd; apply Hs|]. exists w'. split; [done|]. by exists [].
Qed.

Lemma registry_empty : registry <> nullptr -> holds {[registry := mkNode registry registry]} {[registry := []]}.
Proof.
  intros Hz. split.
  - intros hd l [<- <-]%lookup_singleton_Some. cbn. unfold nx, pv. by rewrite lookup_singleton_eq.
  - intros hd l [<- <-]%lookup_singleton_Some. apply NoDup_singleton.
  - by intros hd1 hd2 l1 l2 x [<- _]%lookup_singleton_Some [<- _]%lookup_singleton_Some.
  - intros x [[n Hx] Hf]. apply lookup_singleton_Some in Hx as [<- <-]. exfalso. apply (Hf registry []); [by rewrite lookup_singleton_eq | set_solver].
  - by apply lookup_singleton_None.
Qed.

Lemma start_good t : registry <> nullptr -> ts_ok t -> armed t = ∅ -> good (start t).
Proof.
  intros Hz Ht Ha. exists []. split; [|done]. split; cbn.
  - split; [by apply registry_empty | done | |].
    + intros a. unfold rmap. rewrite fmap_empty, lookup_empty. split; [intros [n [<- _]%lookup_singleton_Some]; by left | intros [->|[? ?]]; [rewrite lookup_singleton_eq; by eexists | done]].
    + intros a. unfold rmap. rewrite fmap_empty, lookup_empty. set_solver.
  - split; [done | |].
    + intros id a. unfold tmap. rewrite fmap_empty, lookup_empty. split; [done | by intros [[e He] _]; rewrite lookup_empty in He].
    + intros id e. rewrite Ha, lookup_empty. split; [done|]. intros [[a He] _]. unfold tmap in He. by rewrite fmap_empty, lookup_empty in He.
  - split; [constructor|]. intros a. rewrite fmap_empty, lookup_empty. set_solver.
  - split; [apply init_wf | done | |]; intros a; rewrite fmap_empty, lookup_empty; done.
  - done.
  - done.
  - split; cbn; [constructor | set_solver | by intros a [] | constructor].
Qed.

Lemma reachable_good t w : registry <> nullptr -> ts_ok t -> armed t = ∅ -> reachable t w -> good w.
Proof. intros Hz Ht Ha. induction 1 as [|st w w' _ IH Hl E]; [by apply start_good|]. destruct (perform_good st w IH Hl) as (w1 & E1 & H1). congruence. Qed.

(** ** What the invariant says *)

(** A user waits for an armed timer of its own, with its deadline, and no timer is armed for
    anybody else. *)
Definition timers_owned (w : world) : Prop :=
  (forall id e, armed (timers w) !! id = Some e <-> id <> Timers.kInvalid /\ exists a u, users w !! a = Some u /\ timer_of u = id /\ deadline u = e) /\
  (forall a b u v, users w !! a = Some u -> users w !! b = Some v -> timer_of u = timer_of v -> timer_of u <> Timers.kInvalid -> a = b).

(** The registry holds the sleepers that wait and the timers whose channel is open, once
    each, and nobody after the shutdown began. *)
Definition registry_exact (w : world) : Prop :=
  exists ps, holds (nodes w) {[registry := ps]} /\ (forall a, a ∈ ps <-> exists u, users w !! a = Some u /\ registered (chans w) u = true) /\ (shutdown_started_ w = true -> ps = []).

(** A suspended sleeper waits for its timer or is queued once, and never both; a sleep that
    is over has returned once, successfully only after its delay, and has failed because the
    loop stops or, with io_uring, because its timer was refused. *)
Definition sleeps_once (w : world) : Prop :=
  NoDup (work w) /\
  (forall a s, users w !! a = Some (Sleeper s) -> is_Some (continuation_ s) ->
    (sleep_timer_ s <> Timers.kInvalid /\ a ∉ work w) \/ (sleep_timer_ s = Timers.kInvalid /\ a ∈ work w /\ ended (stopping w) (SteadyNow (timers w)) s)) /\
  NoDup (sl_who <$> finished w) /\ (forall x, x ∈ finished w -> users w !! sl_who x = None /\ fin_ok uring (stopping w) x).

Lemma good_owned w : good w -> timers_owned w.
Proof.
  intros (ps & H & _). pose proof (iv_tim _ _ _ _ _ H) as Ht. split.
  - intros id e. rewrite (ti_armed _ _ _ Ht). unfold tmap. setoid_rewrite lookup_fmap. split.
    + intros [[a Ha] Hid]. split; [done|]. destruct (users w !! a) as [u|] eqn:E; [|done]. cbn in Ha. injection Ha as <- <-. eauto.
    + intros [Hid (a & u & Ha & <- & <-)]. split; [|done]. exists a. by rewrite Ha.
  - intros a b u v Ha Hb E Hv. pose proof (tmap_lookup _ _ _ Ha) as A. pose proof (tmap_lookup _ _ _ Hb) as B. rewrite <- E in B. by eapply (TimI_inj _ _ _ a b).
Qed.

Lemma good_registry w : good w -> registry_exact w.
Proof.
  intros (ps & H & Hs). exists ps. split; [apply H|]. split; [|by intros Hsd; apply Hs]. intros a. rewrite (ri_in _ _ _ _ (iv_reg _ _ _ _ _ H)). unfold rmap. rewrite lookup_fmap. destruct (users w !! a) as [u|]; cbn; [split; [intros [= E]; eauto | by intros (v & [= <-] & ->)] | split; [done | by intros (? & ? & ?)]].
Qed.

Lemma good_sleeps w : good w -> sleeps_once w.
Proof.
  intros (ps & H & _). pose proof (iv_wrk _ _ _ _ _ H) as Hw. pose proof (iv_fin _ _ _ _ _ H) as Hf. split; [apply Hw|]. split; [|split; [apply Hf|]].
  - intros a s Ha Hc. destruct (iv_loc _ _ _ _ _ H _ _ Ha) as (L1 & L2 & L3 & _). assert (a ∈ work w <-> continuation_pending_ s = true) as Hq. { rewrite (wi_in _ _ Hw), lookup_fmap, Ha. cbn. split; [by intros [= ->] | by intros ->]. }
    destruct (L3 Hc) as [Hv|Hp]; [left; split; [done|]; rewrite Hq; destruct (L1 Hv) as [_ E]; by rewrite E | right; destruct (L2 Hp) as (_ & ? & ?); by rewrite Hq].
  - intros x Hx. split; [by apply Hf|]. pose proof (fi_ok _ _ _ _ _ Hf) as Ho. rewrite Forall_forall in Ho. by apply Ho.
Qed.

Lemma good_shutdown w : good w -> stopping w = true -> exists w',
  BeginShutdown uring registry scheduler w = Val w' /\ holds (nodes w') {[registry := []]} /\ armed (timers w') = ∅ /\
  (forall a s, users w !! a = Some (Sleeper s) -> is_Some (continuation_ s) -> a ∈ work w') /\
  (forall a t, users w' !! a = Some (Ticking t) -> open_chan (channel_ t) (chans w') = false).
Proof.
  intros (ps & H & Hs) Hst. destruct (BeginShutdown_spec _ _ _ ps w H Hst) as (w' & E & H' & F1 & F2 & Hstay); [by intros Hsd; apply Hs|].
  assert (forall a u, users w' !! a = Some u -> registered (chans w') u = false) as Hnone. { intros a u Ha. apply not_true_iff_false. rewrite <- (inv_registered _ _ _ _ _ _ _ H' Ha). set_solver. }
  exists w'. split; [done|]. split; [apply H'|]. split; [|split].
  - apply map_empty. intros id. apply eq_None_not_Some. intros [e He]. destruct (proj1 (good_owned w' (ex_intro _ [] (conj H' (fun _ => conj eq_refl F1)))) id e) as [Ho _]. destruct (Ho He) as (Hid & a & u & Ha & <- & _). pose proof (iv_open _ _ _ _ _ H' _ _ Ha Hid) as X. by rewrite (Hnone _ _ Ha) in X.
  - intros a s Ha Hc. destruct (Hstay a s Ha) as (s' & Ha' & Ec). rewrite <- Ec in Hc. destruct (iv_loc _ _ _ _ _ H' _ _ Ha') as (_ & _ & L3 & _). destruct (L3 Hc) as [Hv|Hp]; [pose proof (Hnone _ _ Ha') as X; cbn in X; by rewrite (proj2 (valid_iff _) Hv) in X|]. rewrite (wi_in _ _ (iv_wrk _ _ _ _ _ H')), lookup_fmap, Ha'. cbn. by rewrite Hp.
  - intros a t Ha. exact (Hnone a _ Ha).
Qed.

(** The slot of a timer that was not received keeps its value when the timer fires again. *)
Lemma good_full_slot w a t ch t' : refuses = false -> good w -> users w !! a = Some (Ticking t) -> Expire (timers w) = Some (t', channel_timer_ t) ->
  Channel.w_chans (chans w) !! channel_ t = Some ch -> Channel.size_ ch = Channel.capacity_ ch -> Channel.receivers_ ch = [] ->
  exists w', expire uring scheduler w = Val w' /\ chans w' = chans w.
Proof.
  intros Hrf (ps & H & _) Ha HE Hc Hfull Hrec. destruct (TimI_expire _ _ _ _ _ (iv_tim _ _ _ _ _ H) HE) as (b & e & Hcb & _ & _ & _ & Hid & Ht). assert (b = a) as ->. { destruct (iv_tim _ _ _ _ _ H) as [_ X _]. assert (callbacks w !! channel_timer_ t = Some a); [apply X; split; [exists (next_fire_ t); by rewrite (tmap_lookup _ _ _ Ha) | done] | congruence]. }
  unfold expire. rewrite HE, Hcb. cbn [users set_timers]. rewrite Ha. unfold Fire. erewrite get_timer_eq by done. cbn [mbind outcome_bind with_channel_timer channel_ period_ next_fire_ chans set_timers].
  pose proof (iv_open _ _ _ _ _ H _ _ Ha Hid) as Ho. cbn in Ho. unfold open_chan in Ho. rewrite Hc in Ho. apply negb_true_iff in Ho.
  assert (forall v, Channel.TrySend (channel_ t) v (chans w) = Val (false, chans w)) as Hsend. { intros v. unfold Channel.TrySend. destruct (ChI_owned _ _ _ a (channel_ t) (iv_ch _ _ _ _ _ H)) as (ch' & Hc' & _ & ->); [by rewrite lookup_fmap, Ha|]. assert (ch' = ch) as -> by congruence. cbn [mbind outcome_bind]. rewrite Ho. cbn [negb ALYRN_CHECK mbind outcome_bind]. unfold Channel.pop_receiver, Channel.deref. rewrite Hc. cbn [mbind outcome_bind]. rewrite Hrec. cbn [mbind outcome_bind]. by rewrite Hfull, Z.eqb_refl. }
  rewrite Hsend. cbn [mbind outcome_bind]. destruct (0 <? period_ t); [|eexists; by split]. unfold Arm. erewrite get_timer_eq by (cbn; apply lookup_insert_eq). cbn [mbind outcome_bind]. unfold run_at. cbn [timers put set_users set_chans set_timers].
  match goal with |- context [RunAt t' ?d] => destruct (RunAt t' d) as [t2 [id|er]] eqn:HR end; [eexists; by split|]. pose proof (ti_ok _ _ _ (Ht 0)) as Hok. destruct (RunAt_Err _ _ _ _ Hok HR) as (X & _). congruence.
Qed.

End runs.

(** ** The theorems *)

(** C11. However clients, the loop, its stop and time interleave, sleepers and timers keep
    their books: every armed timer belongs to exactly one of them and has its deadline, the
    shutdown registry holds exactly those that wait, a sleeper that is suspended either
    waits or is queued to resume once, a sleep returns once, never successfully before its
    delay is over, and no step of a client that keeps the contract aborts. *)
Theorem timer_users_exact `{TS : TimerService} (refuses : bool) `{!TimerServiceLaws refuses} (uring : bool) (registry : Z) (scheduler : nat) (t : ts) (w : world) :
  (refuses = true -> uring = true) -> registry <> nullptr -> ts_ok t -> armed t = ∅ -> reachable uring registry scheduler t w ->
  timers_owned w /\ registry_exact registry w /\ sleeps_once uring w /\
  forall st, legal registry scheduler st w = true -> no_panic (perform uring registry scheduler st w).
Proof.
  intros Hb Hz Ht Ha Hr. pose proof (reachable_good _ _ _ Hb _ _ Hz Ht Ha Hr) as Hg. split; [by eapply good_owned|]. split; [by eapply good_registry|]. split; [by eapply good_sleeps|].
  intros st Hl. destruct (perform_good _ _ _ Hb st w Hg Hl) as (w' & -> & _). by eexists.
Qed.

(** C40. When a loop begins its shutdown, nobody is left waiting: every suspended sleeper
    is queued to resume, every timer's channel is closed, so that its receivers complete, no
    timer stays armed and the registry is empty, although each participant takes itself out
    of the list that is being walked. *)
Theorem shutdown_ends_every_wait `{TS : TimerService} (refuses : bool) `{!TimerServiceLaws refuses} (uring : bool) (registry : Z) (scheduler : nat) (t : ts) (w : world) :
  (refuses = true -> uring = true) -> registry <> nullptr -> ts_ok t -> armed t = ∅ -> reachable uring registry scheduler t w -> stopping w = true ->
  exists w', BeginShutdown uring registry scheduler w = Val w' /\ holds (nodes w') {[registry := []]} /\ armed (timers w') = ∅ /\
    (forall a s, users w !! a = Some (Sleeper s) -> is_Some (continuation_ s) -> a ∈ work w') /\
    (forall a t, users w' !! a = Some (Ticking t) -> open_chan (channel_ t) (chans w') = false).
Proof. intros Hb Hz Ht Ha Hr Hst. pose proof (reachable_good _ _ _ Hb _ _ Hz Ht Ha Hr) as Hg. by eapply good_shutdown. Qed.

(** A ticker whose last tick was not received keeps that tick: when it fires again,
    its channel is left as it is and the new tick is dropped, so that a slow receiver gets
    the oldest tick it missed and not, as the comment on Ticker says, the latest. *)
Theorem slow_ticker_keeps_oldest_tick `{TS : TimerService} `{!TimerServiceLaws false} (registry : Z) (scheduler : nat) (t0 t' : ts) (w : world) (a : Z) (t : TimerChannel) (ch : Channel.chan Z) :
  registry <> nullptr -> ts_ok t0 -> armed t0 = ∅ -> reachable false registry scheduler t0 w -> users w !! a = Some (Ticking t) -> Expire (timers w) = Some (t', channel_timer_ t) ->
  Channel.w_chans (chans w) !! channel_ t = Some ch -> Channel.size_ ch = Channel.capacity_ ch -> Channel.receivers_ ch = [] ->
  exists w', expire false scheduler w = Val w' /\ chans w' = chans w.
Proof.
  intros Hz Ht Ha Hr Hu HE Hc Hf Hrec. assert (good (refuses := false) false registry scheduler w) as Hg by (eapply reachable_good; done). by eapply good_full_slot.
Qed.
(** ** The agenda is such a service

    What both timer queues refine (epoll_timers_refine_agenda, uring_timers_refine_agenda).
    The callbacks are the users'. *)

Section agenda.
Import Timers TimerAgenda.
Context {D : Type} `{!Backend D}.

Definition agenda_armed (ag : agenda D) : gmap Z Z := list_to_map (map (fun t => (sequence t, expiration t)) (pending ag)).
Definition agenda_expire (ag : agenda D) : option (agenda D * Z) :=
  match pending ag with
  | t :: rest => if expiration t <=? now ag then Some (ag_finish (ag_start ag t rest) t (now ag), sequence t) else None
  | [] => None
  end.

#[local] Instance agenda_service : TimerService := {
  ts := agenda D;
  SteadyNow := now;
  armed := agenda_armed;
  RunAt ag deadline := ag_add ag (Some CReturn) deadline 0;
  CancelTimer ag id := (ag_cancel ag id).1;
  Expire := agenda_expire;
  ts_event := BinNums.N + D;
  Advance ag ev := match ev with inl d => set_now ag (now ag + Z.of_N d) | inr d => set_backend ag d end;
}.

Definition agenda_ok (ag : agenda D) : Prop :=
  idle ag /\ 0 <= next_sequence ag /\ (forall t, t ∈ pending ag -> repeat t = false /\ 0 <= sequence t).

Lemma agenda_armed_Some (ag : agenda D) id e : NoDup (map sequence (pending ag)) -> agenda_armed ag !! id = Some e <-> exists t, t ∈ pending ag /\ sequence t = id /\ expiration t = e.
Proof.
  intros HN. unfold agenda_armed. rewrite <- elem_of_list_to_map; [|by rewrite <- list_fmap_compose]. rewrite list_elem_of_fmap. naive_solver.
Qed.

Lemma agenda_law_add ag d ag' (r : ResultE Z) : agenda_ok ag -> ag_add ag (Some CReturn) d 0 = (ag', r) ->
  agenda_ok ag' /\ now ag' = now ag /\ match r with
  | Ok id => id <> kInvalid /\ agenda_armed ag !! id = None /\ agenda_armed ag' = <[id := d]> (agenda_armed ag)
  | Err _ => agenda_armed ag' = agenda_armed ag /\ exists x e, (bk_added x e).2 <> None
  end.
Proof.
  intros ([Hok Hr] & Hn & Hp) E. assert (ag' = (ag_add ag (Some CReturn) d 0).1) as Ea by (by rewrite E). assert (idle ag') as Hi. { split; [rewrite Ea; by apply ag_add_ok|]. pose proof (ag_add_frame ag (Some CReturn) d 0) as (X & _). rewrite Ea. congruence. }
  unfold ag_add in E. destruct (bk_added _ _) as [d' [er|]] eqn:Eb; injection E as <- <-.
  - split; [split; [done|]; cbn; split; [lia | done]|]. split; [done|]. split; [done|]. eexists _, _. by rewrite Eb.
  - assert (forall t, t ∈ pending ag -> sequence t <> next_sequence ag) as Hne. { intros t Ht. pose proof (ao_bound _ Hok t Ht). lia. }
    split; [split; [done|]; cbn; split; [lia|]|].
    { intros t Ht. rewrite insert_timer_perm in Ht. apply elem_of_cons in Ht as [->|Ht]; [done | by apply Hp]. }
    split; [done|]. split; [unfold kInvalid; lia|]. split.
    + apply eq_None_not_Some. intros [e He]. apply agenda_armed_Some in He as (t & Ht & Es & _); [|apply Hok]. by apply (Hne t).
    + apply map_eq. intros i. apply option_eq. intros e. rewrite agenda_armed_Some by apply Hi. cbn. setoid_rewrite insert_timer_perm. destruct (decide (i = next_sequence ag)) as [->|Hi'].
      * rewrite lookup_insert_eq. split; [intros (t & [->|Ht]%elem_of_cons & Es & <-); [done | by apply Hne in Ht] | intros [= <-]; eexists; split; [by left | done]].
      * rewrite lookup_insert_ne, agenda_armed_Some by (done || apply Hok). split; intros (t & Ht & Es & Ee); [apply elem_of_cons in Ht as [->|Ht]; [done | eauto] | exists t; split; [by right | done]].
Qed.

Lemma agenda_law_drop ag ag' id : agenda_ok ag -> idle ag' -> now ag' = now ag -> next_sequence ag' = next_sequence ag -> (forall t, t ∈ pending ag' <-> t ∈ pending ag /\ sequence t <> id) ->
  agenda_ok ag' /\ agenda_armed ag' = delete id (agenda_armed ag).
Proof.
  intros ([Hok Hr] & Hn & Hp) Hi En Es Hd. split; [split; [done|]; split; [lia|]; intros t [Ht _]%Hd; by apply Hp|].
  apply map_eq. intros i. apply option_eq. intros e. rewrite agenda_armed_Some by apply Hi. setoid_rewrite Hd. destruct (decide (i = id)) as [->|Hne].
  - rewrite lookup_delete_eq. naive_solver.
  - rewrite lookup_delete_ne, agenda_armed_Some by (done || apply Hok). naive_solver.
Qed.

Lemma agenda_law_cancel ag id : agenda_ok ag -> agenda_ok (ag_cancel ag id).1 /\ agenda_armed (ag_cancel ag id).1 = delete id (agenda_armed ag) /\ now (ag_cancel ag id).1 = now ag.
Proof.
  intros H. pose proof H as ([Hok Hr] & _). pose proof (ag_cancel_frame ag id) as (X & _ & Y & _). assert (idle (ag_cancel ag id).1) as Hi by (split; [by apply ag_cancel_ok | congruence]).
  assert (now (ag_cancel ag id).1 = now ag /\ forall t, t ∈ pending (ag_cancel ag id).1 <-> t ∈ pending ag /\ sequence t <> id) as [En Hd].
  { unfold ag_cancel. rewrite Hr. destruct (has_timer id (pending ag)) eqn:E; cbn; (split; [done|]); intros t; [apply elem_of_drop|]. apply has_timer_false in E. split; [|by intros []]. intros Ht. split; [done|]. intros <-. apply E. apply list_elem_of_fmap. eauto. }
  destruct (agenda_law_drop ag _ id H Hi En Y Hd). done.
Qed.

Lemma agenda_law_expire ag ag' id : agenda_ok ag -> agenda_expire ag = Some (ag', id) ->
  agenda_ok ag' /\ (exists e, agenda_armed ag !! id = Some e /\ e <= now ag) /\ agenda_armed ag' = delete id (agenda_armed ag) /\ now ag' = now ag.
Proof.
  intros H E. pose proof H as ([Hok Hr] & Hn & Hp). unfold agenda_expire in E. destruct (pending ag) as [|t rest] eqn:Eq; [done|]. destruct (Z.leb_spec (expiration t) (now ag)) as [He|He]; [|done]. injection E as <- <-.
  assert (repeat t = false) as Hrep by (apply Hp; set_solver). unfold ag_finish. rewrite Hrep. cbn [andb].
  pose proof (ao_nodup _ Hok) as HN. rewrite Eq in HN. cbn in HN. apply NoDup_cons in HN as [HN1 HN2].
  assert (idle (set_running (ag_start ag t rest) None false)) as Hi. { split; [|done]. destruct (ag_start_ok ag t rest Hok Eq). by split. }
  destruct (agenda_law_drop ag (set_running (ag_start ag t rest) None false) (sequence t) H Hi eq_refl eq_refl) as [H1 H2].
  { intros u. cbn. rewrite Eq, elem_of_cons. split; [intros Hu; split; [by right|]; intros Es; apply HN1; rewrite <- Es; apply list_elem_of_fmap; eauto | by intros [[->|Hu] Hne]]. }
  split; [done|]. split; [|done]. exists (expiration t). split; [|done]. apply agenda_armed_Some; [apply Hok|]. exists t. split; [rewrite Eq; by left | done].
Qed.

(** A backend that never refuses, or one that may. *)
#[local] Instance agenda_laws (refuses : bool) (Hr : refuses = false -> forall (d : D) e, (bk_added d e).2 = None) : TimerServiceLaws refuses.
Proof.
  refine {| ts_ok := agenda_ok : ts -> Prop |}; cbn.
  - intros s d s' id H E. destruct (agenda_law_add _ _ _ _ H E) as (H1 & H2 & H3 & H4 & H5). by split_and!.
  - intros s d s' e H E. destruct (agenda_law_add _ _ _ _ H E) as (H1 & H2 & H3 & x & y & H4). split_and!; try done. destruct refuses; [done|]. by rewrite Hr in H4.
  - apply agenda_law_cancel.
  - apply agenda_law_expire.
  - intros s [d|d] (Hi & Hn & Hp).
    + split; [split; [split; [by apply ag_now_ok, Hi | apply Hi] | done]|]. split; [done|]. cbn. lia.
    + split; [split; [by apply idle_backend | done]|]. split; [done|]. done.
Defined.

Lemma agenda_start (d : D) : agenda_ok (empty_agenda 0 0 d) /\ agenda_armed (empty_agenda 0 0 d) = ∅.
Proof. split; [|done]. split; [apply empty_idle|]. split; [done|]. cbn. set_solver. Qed.

End agenda.

(** ** Examples *)

Definition may_refuse : TimerServiceLaws (TS := agenda_service (D := UringTimers.driver)) true :=
  agenda_laws true (fun H => match Bool.diff_true_false H with end).
Definition never_refuses : TimerServiceLaws (TS := agenda_service (D := unit)) false :=
  agenda_laws (D := unit) false (fun _ _ _ => eq_refl).

Definition ring_timers : TimerAgenda.agenda UringTimers.driver := TimerAgenda.empty_agenda 0 0 (UringTimers.new_driver [None; None; Some (Errno EAGAIN)]).
Definition timerfd_timers : TimerAgenda.agenda unit := TimerAgenda.empty_agenda 0 0 tt.

Section ring_example.
#[local] Instance ring_service : TimerService := agenda_service (D := UringTimers.driver).

(** Two sleepers, a timer and a ticker; one sleep ends, then the loop is asked to stop. *)
Definition busy_script : list step :=
  [NewSleep 16 5; AwaitSleep 16 100; NewTimer 24 0 3 0; NewTimer 32 1 4 4; NewSleep 40 900; AwaitSleep 40 101;
   Receivers (ONewReceive 0 0 0); Receivers (OAwaitReceive 0 7); Pass (inl 6%N); TimerDue; TimerDue; TimerDue; RunWork; StopTimer 32; ResetTimer 32 2 2; AskStop].
Definition busy_world : world := default (start 8 5 (ring_timers : ts)) (run true 8 5 busy_script (start 8 5 (ring_timers : ts))).

Lemma busy_reachable : reachable true 8 5 (ring_timers : ts) busy_world.
Proof. apply run_default. vm_compute. reflexivity. Qed.

Lemma timer_users_exact_witness :
  reachable true 8 5 (ring_timers : ts) busy_world /\ length (finished busy_world) = 1%nat /\ legal 8 5 Shutdown busy_world = true /\ no_panic (perform true 8 5 Shutdown busy_world).
Proof.
  split; [exact busy_reachable|]. split; [vm_compute; reflexivity|]. split; [vm_compute; reflexivity|].
  apply (timer_users_exact (TimerServiceLaws0 := may_refuse) true true 8 5 ring_timers busy_world (fun _ => eq_refl) ltac:(done) (proj1 (agenda_start _)) (proj2 (agenda_start _)) busy_reachable). vm_compute. reflexivity.
Defined.

Definition busy_sleeper : SleepAwaiter := mkSleep 900 (Ok tt) (Some 101) 3 false 0.
Lemma busy_sleeper_waits : users busy_world !! 40 = Some (Sleeper busy_sleeper).
Proof. vm_compute. reflexivity. Qed.
Lemma busy_stopping : stopping busy_world = true.
Proof. vm_compute. reflexivity. Qed.

Lemma shutdown_ends_every_wait_witness :
  users busy_world !! 40 = Some (Sleeper busy_sleeper) /\ 40 ∉ work busy_world /\ exists w', BeginShutdown true 8 5 busy_world = Val w' /\ 40 ∈ work w'.
Proof.
  split; [exact busy_sleeper_waits|]. split; [apply (bool_decide_unpack (40 ∉ work busy_world)); vm_compute; exact I|].
  destruct (shutdown_ends_every_wait (TimerServiceLaws0 := may_refuse) true true 8 5 ring_timers busy_world (fun _ => eq_refl) ltac:(done) (proj1 (agenda_start _)) (proj2 (agenda_start _)) busy_reachable busy_stopping) as (w' & E & _ & _ & Hq & _).
  exists w'. split; [exact E|]. apply (Hq 40 busy_sleeper busy_sleeper_waits). by exists 101.
Defined.

End ring_example.

Section timerfd_example.
#[local] Instance timerfd_service : TimerService := agenda_service (D := unit).

(** A ticker that nobody receives from: its second tick is due. *)
Definition slow_script : list step := [NewTimer 16 0 3 3; Pass (inl 3%N); TimerDue; Pass (inl 3%N)].
Definition slow_world : world := default (start 8 5 (timerfd_timers : ts)) (run false 8 5 slow_script (start 8 5 (timerfd_timers : ts))).
Definition slow_ticker : TimerChannel := mkTimer 3 0 1 6.

Lemma slow_ticker_keeps_oldest_tick_witness :
  Channel.w_trace (chans slow_world) = [Channel.Accepted 0 3] /\ SteadyNow (timers slow_world) = 6 /\ exists w', expire false 5 slow_world = Val w' /\ chans w' = chans slow_world.
Proof.
  split; [vm_compute; reflexivity|]. split; [vm_compute; reflexivity|]. assert (reachable false 8 5 (timerfd_timers : ts) slow_world) as Hr by (apply run_default; vm_compute; reflexivity).
  eapply (slow_ticker_keeps_oldest_tick (TimerServiceLaws0 := never_refuses) 8 5 timerfd_timers _ slow_world 16 slow_ticker); [done | exact (proj1 (agenda_start tt)) | exact (proj2 (agenda_start tt)) | exact Hr | vm_compute; reflexivity | vm_compute; reflexivity | vm_compute; reflexivity | reflexivity | reflexivity].
Defined.

End timerfd_example.

End TimerUsersProps.
